(* ===== verification/_CoqProject ===== *)
-Q . S2P
Prelude.v
GoStrings.v
GoNum.v
Glob.v
ShellScan.v
SedScript.v
FlagCheck.v
GitReadonly.v
CanonPath.v
ExecGuard.v
Rules.v
ShellAst.v
VarCtx.v
EnvChange.v
Segment.v
Walker.v
Approval.v
KeyedMutex.v
RateLimit.v
SessionKey.v
UsageHold.v
WarningQueue.v
Dispatcher.v
Nudge.v
SessionIndex.v
ChatIndex.v
IndexQuery.v
Route.v
GoText.v
StopRule.v
PreShell.v
PreTool.v
FrameStore.v
AppStream.v
LateAsk.v
TurnLimit.v
InboxEvict.v
Inbox.v
InboxRun.v
InboxLedger.v
InboxSafety.v
InboxHeld.v
InboxTraces.v
InFlight.v
TomlValue.v
ConfigLines.v
KeyPaths.v
EditPath.v
ConfigApprove.v
Pricing.v
CostLedger.v
CcData.v
CcBook.v
CcRun.v
CcMoney.v
CcExit.v
CcTraces.v
