(* ===== verification/Prelude.v ===== *)
(** * Foci: a verification development of the gateway's decision core

    Foci (src/) is a Go gateway that connects chat platforms to language-model
    agents.  Most of its code is input and output: platform front ends, provider
    clients, subprocess backends, tools.  This development models the packages
    that decide something on their own: whether an agent's shell command may run
    without asking the operator, and the state machines that serialise, hold,
    rate-limit and name the work.  Definitions keep the source's names; Go
    values are modelled as follows: strings as lists of bytes ([gostr]),
    integers as [Z] with [wrap64] where int64 can overflow ([nat] for slice
    lengths and indexes), float64 as binary64, maps as [gmap], errors as
    [option], pointers and shared state as explicit state passing.

    ** The auto-approve engine (src/internal/delegator/autoapprove)

    A Bash call is parsed by mvdan.cc/sh, and the engine walks the tree.  It is
    approved when every simple command it can reach is covered by a rule and by
    every check below.  The files follow the call order from the bottom up.

    - GoStrings.v, GoNum.v: the parts of [strings], [path/filepath], [strconv]
      and [time] the packages call.
    - Glob.v: [matchPattern], [globMatch], [doGlob] (autoapprove.go).  [doGlob]
      decides the glob relation and stops; its fuel is
      [(|str|+1) * (|pattern|+1) + 1].
    - ShellScan.v: [scanShellWords] with the quoting rules, ANSI-C decoding and
      the facts recorded of each word ([wordFacts], [shellWord]).  Quoted
      arguments scan back to themselves; the facts flag every word that may
      become an option or several words.  The scanning loops consume at least
      one byte per step, so the length of the text is enough fuel.
    - SedScript.v, FlagCheck.v (gitexec.go, goexec.go, uniq.go), GitReadonly.v
      (gitreadonly.go): the judgement of argument vectors.  A word that spells
      an unsafe flag is refused in every spelling and position, quoting does not
      change a verdict, and the read-only git rule creates nothing.
    - CanonPath.v (src/internal/secrets/secrets_access.go): canonical paths and
      the blocked-path check.  [CanonicalPath]'s loop shortens the path at every
      turn; its length is enough fuel.
    - ExecGuard.v (src/internal/execguard): the file a command word runs and
      whether this process could replace it, compared with a disk of files and
      links and the steps by which the process may change it.
    - Rules.v (autoapprove.go, builtins.go): rules, tools, the environment
      snapshot, the report of replaceable built-ins.
    - ShellAst.v: the syntax tree as data, and [syntax.Walk].
    - VarCtx.v (autoapprove.go, wrappers.go): the variables known at each point.
      [part_text] and [exec_direct] are a relational semantics of words and
      assignments on shell stores, written from the shell's rules;
      [tracked_values_sound] compares the two: within its scope, what the engine
      resolves is the one text every reachable store gives the word.
    - EnvChange.v (envchange.go): exported changes before a command.
    - Segment.v (autoapprove.go, wrappers.go): the check of one simple command,
      with wrappers, -c scripts and the denial note (a small state monad).
    - Walker.v: the walk, the nested evaluation (a fuel monad, one unit per
      statement list entered) and the entry points.  [visited] is the set of
      nodes an evaluation can reach.
    - Approval.v: what an approval covers, monotonicity in the rules, return of
      the evaluation (four levels are enough without -c scripts; with them no
      fuel is), and the constructs that get the wrong verdict.

    ** The hook policies (src/internal/delegator/pretool, stoprule)

    - GoText.v: the rest of [strings], and [base64.RawURLEncoding] with its
      round trip.
    - PreShell.v (pretool/shell.go): the commands of a script and their facts.
      The walker's stores (working directories shared by pointer, pipes with
      their readers) are explicit; [facts] is a compositional semantics without
      stores, and [parse_facts] the refinement.
    - PreTool.v (patterns.go, pretool.go, when.go, match.go, examples.go): rules,
      validation, layers, matching, when-checks, a rule's examples.  The ends of
      the processes that run checks are an argument ([run]), so a theorem about
      all of them is a theorem about every timing and failure.
    - StopRule.v (stoprule.go, turn.go): the rules for final texts, the scan of
      a transcript for background launches, and the verdict.

    ** The stateful packages

    - KeyedMutex.v (src/internal/delegator/keyedmutex): a step relation over all
      interleavings; mutual exclusion, exact reference counts, no stuck waiter.
    - RateLimit.v (src/internal/ratelimit/ratelimit.go,
      src/internal/agent/ratelimit_gate.go, and the gate check and the error
      path of an API turn): the fallback policy, the gates with their queues and
      persisted deadlines, and the replay loop.
    - SessionKey.v (src/internal/session/key.go, batch_key.go): printing and
      parsing of session keys, named and derived keys.
    - UsageHold.v (src/internal/usagehold, src/cmd/foci-gw/usage_hold.go): the
      registry of usage holds.  The abstract specification is a per-account
      history of events that never expires anything ([history]); the refinement
      theorem is [history_followed].
    - WarningQueue.v (src/internal/warnings/queue.go): dedup keys, rate-limit
      buckets, summaries, draining.
    - Dispatcher.v (src/internal/warnings/dispatcher.go), over WarningQueue.v:
      the handlers as atomic functions and, separately, as the steps of threads
      (check, drain, mark, suppress each target, save, deliver, release) in any
      interleaving; [call_refines] relates the two.
    - Nudge.v (src/internal/nudge): rules, their validation, the scheduler and
      its checks; [regexp] and JSON are parameters.
    - SessionIndex.v (src/internal/session/index.go, provenance.go): the SQLite
      tables as finite maps by primary key and one definition per statement.
      The order SQLite visits rows in is a parameter [scan]; theorems hold for
      every order.
    - ChatIndex.v (index.go): aliases, pinned, archived and ruled-out chats, and
      the ladder to an agent's default session, stated as an inductive relation
      ([ladder]) the code refines.
    - IndexQuery.v (index.go, provenance.go, store.go, chatset.go): queries with
      SQLite's [LIKE], timelines, classification, stored id sets.
    - Route.v (src/internal/route), over the index: the target grammar with the
      part of [net/url] it uses, the resolution ladder, the delivery choice.

    ** The app platform's stream (src/internal/app, src/internal/fap)

    - FrameStore.v (app/framestore.go, fap/codec.go): the tables of stored frames,
      prompts, shell runs and high-water marks as finite maps, one definition per
      statement.  The store as a step relation: senders queue writes (or write
      inline when the queue of [frameWriteQueue] is full), the writer takes and
      performs them, trims run in between, a crash loses what is queued.
    - AppStream.v (app/hub.go, app/push.go): one conversation's binding: frame
      numbers, replay buffer, acknowledgements, seen inbound ids, and the replay to
      a socket that comes back.  [stream_step] interleaves sends, the store's
      steps, local operations and restarts of the process.  A replay reads the
      buffer at one instant and the store at a later one, at most
      [maxResumeStoreReplay] frames of it, and a set of seen ids holds
      [maxSeenInbound]; the theorems state what these caps cost.
    - LateAsk.v (app/lateask.go and the form registry of hub.go): what is known
      of a prompt that is no longer live, and the pending forms.

    ** The agent inbox (src/internal/agent)

    - TurnLimit.v (turn_limit.go): the counting semaphore that caps concurrent
      turns, as the critical sections of its mutex run by any number of
      goroutines.
    - InFlight.v (in_flight.go, [dropInFlightChanged], [WaitTurnIdle]): the counters
      of running turns and the channels their waiters sleep on.
    - InboxEvict.v (inbox_evict.go, [turnLock], [getOrCreateInbox]): the two
      protocols under which per-session state is dropped while others use it.
    - Inbox.v (inbox.go, inbox_gate.go, usage_hold.go, usage_hold_store.go): the
      envelope, one session's inbox as a record, and the decisions: routing, the
      holds of an injection, deferral, parking, stored held input.
    - InboxRun.v: the worker ([work], one definition per Go function, one step
      per access of shared state, the position in the code as [wpc]), the
      callers inside [Enqueue] ([call_step]) and everything else that touches an
      inbox, as one executable step function ([step]) over named actions.  The
      rest of the agent is the record [World], which the action [Environment]
      may replace between any two steps (the clock only advances); what one
      [Enqueue] reads of it, it reads at one instant.
    - InboxLedger.v: [nothing_lost], by counting the copies of an envelope's
      token over all the places it can be ([places]).
    - InboxSafety.v, InboxHeld.v: invariants of what only the worker changes
      ([view]): slots, /stop, the watch over held injections.
    - InboxTraces.v: runs, evaluated by the kernel, in which the code does not do
      what its comments say.

    ** The configuration file (src/internal/config, src/internal/configapprove)

    - TomlValue.v (config/editpath.go): decoded values, [reflect.DeepEqual],
      reading and deleting at a path, and [VerifyPathEdit].
    - ConfigLines.v (config/setinfile.go, settablearray.go): where values end,
      which lines start outside one, where tables are removed and inserted, and
      the encoder of strings.
    - KeyPaths.v, EditPath.v (config/editpath.go): key paths with their text; the
      line model of a file and the plans of a set and an unset, which try textual
      edits and keep the first the decoder confirms.  [dotted_key] consumes at
      least one byte per segment, so the length of the text is enough fuel.
    - ConfigApprove.v (configapprove.go): an agent's change, shown to the owner and
      written when approved, as a step relation with other writers of the file.

    ** The cost ledger (src/internal/delegator/accounting, src/internal/delegator/ccstream)

    - Pricing.v (internal/modelinfo): token classes, counts, the pricing function.
    - CostLedger.v (accounting/ledger.go, live.go, schema.go, unseen.go): the
      tables as a record ([DB]), each statement as an operation, transactions that
      return the new state or leave the old one.
    - CcData.v, CcBook.v (ccstream/ccbook.go): the book of one Claude Code process:
      which transcript lines are calls of this process, when windows settle, and
      the remainder that the reported totals leave.  [untaken] is a history
      variable.  An operation reads its clock once.
    - CcRun.v (ccledger.go): the loop that feeds the book, and the other users of
      the ledger in between ([world]).
    - CcMoney.v, CcExit.v: conservation of counts, and what is waiting; CcTraces.v:
      a concrete price table and runs.

    ** What the theorems show

    Safety of an approval: [approval_covers], [approved_arguments_safe],
    [unsafe_token_refused], [path_rule_contains], [blocked_components].
    Functional correctness against an independent description:
    [Substitutable_correct], [exportedChange_correct], [doGlob_correct],
    [CanonicalPath_correct], [readonlyGitArgsSafe_shape], [burst_limited].
    Refinement of an abstract specification: [tracked_values_sound],
    [history_followed], [restart_keeps_gates], [call_refines],
    [reflection_schedule], [default_session_ladder], [resume_timeline].
    Invariants over every sequence of operations: [mutual_exclusion],
    [entries_exact], [changes_chain], [gate_fifo], [push_accounts],
    [suppression_exact], [drained_conserved], [turn_cap], [cooldown_kept],
    [claim_alias].  Well-formedness: [rows_keyed], [scheduler_wf].  Containment:
    [resolve_contained] (a target only ever reaches its own agent's sessions),
    [subshells_isolated].  The hook policies: [stop_blocks] and [first_denial]
    say exactly when a stop or a call is refused, [when_fails_open] that a check
    that does not exit 0 refuses nothing, [resolve_merges] and
    [disabling_removes_one] what layers mean, [hook_decides_alike] that the
    encoded rules decide like the rules, [skip_runs_nothing] that skipped checks
    are not run, [every_command_listed] and [turn_launches_exact] that the
    listings of commands and launches are complete.
    The stream: [seqs_never_fall] (a crash or a trim never makes numbering go
    back), [writes_conserved], [stream_numbers_once], [replay_delivers] (a replay
    brings exactly the frames owed, in order, while the store's share fits and
    what is on its way to the store is in the buffer),
    [pages_complete], [acks_keep_unacknowledged], [inbound_once],
    [orphaned_exact], [last_resolution_agrees], [batch_resolved_once].
    The inbox: [nothing_lost], [turn_holds_slots], [stop_reaches],
    [stopped_batch_dropped] (in every run, nothing is driven until the stopped
    batch is dropped), [held_watched] hold in every interleaving, and so do
    [slots_exact], [grants_first_come], [one_turn_per_session] and
    [eviction_loses_nothing] of the protocols around it; [counts_exact] and
    [idle_wait_ends] are about the counters of running turns and their waiters.
    The configuration file: [set_changes_only_path], [unset_changes_only_path]
    (an edit changes what its path reads and nothing else), [set_keeps_lines],
    [unset_keeps_lines] (the other lines stay, and a set adds one assignment), [writes_approved] and
    [outcomes_true] (nothing is written that was not approved as shown).
    The cost ledger: [ledger_consistent] and [first_booking_stands] of its tables;
    [ledger_conserves] and [exit_settles_account] (no counted token is lost or
    booked twice), [only_named_booked], [ended_turns_close], [exit_flushes] of the
    book, [usage_classes_disjoint].
    Round trips: [scan_quoted_arguments], [key_roundtrip], [key_path_roundtrip], [target_roundtrip],
    [query_roundtrip], [chat_set_canonical], [alias_routes].  Termination and
    progress: [evaluation_returns], [unique_alias_returns], [hold_lifts],
    [pending_delivered], [sweep_settles].  Some theorems state where the code
    does not do what its comments say: [replay_loses_items],
    [self_script_diverges], [compound_change_missed], [dup_redirect_ignored],
    [append_taken_as_set], [cd_keeps_pwd], [middle_link_unchecked],
    [acked_frame_missed],
    [sed_negated_address_unchecked], [overlapping_deliveries],
    [accented_alias_lost], [unwrappable_pattern_silent], [replay_hole],
    [batched_answer_orphaned], [released_batch_unwatched], [slot_wait_overtakes],
    [deferred_behind_nothing], [gate_missed_wake], [other_edit_lost],
    [written_but_failed], [exit_leaves_run_open], [first_refusal_by_chance] and
    others.

    ** What is assumed

    Code outside the repository is a parameter: the shell parser and printer
    ([parse], [print]), the TOML decoder ([decode]), the file system ([FS] with the class [fs_ok], and the
    fields of [Env], which [describes] ties to a disk), the variables that
    commands and the shell itself change ([volatile]), [encoding/json] with its round trip ([json_ok]), Unicode
    case mapping, regular expressions, the visit order of SQLite, the connection
    manager, the table of prices ([Prices]), the ends of started processes, the order in which Go visits a map,
    the room in a socket's queue, fresh ids, the clock.  Each theorem that assumes something of them has a
    witness with a concrete instance.

    ** What is not modelled yet

    The secret store, the older editors of single sections of the configuration
    file and the conversation ledger.  Of the inbox, the choice of the turns a
    usage hold interrupts, the restore of stored injections and the notices to
    senders are left out; the slots of its limiters are granted as TurnLimit.v
    allows, and its turns run as InFlight.v counts them, without being tied to
    either.  Of the app hub, its roster, activity display, wizards and push
    delivery are left out.  Front ends, provider clients, subprocess backends,
    tools, telemetry and start-up code are input and output and stay outside, as
    do opening, migrating and failing of the SQLite databases.  Of the cost ledger,
    the SQL views that price stored rows, reading, the texts of alarms, the parsing
    and tailing of transcripts and a gateway without a ledger are left out; token
    counts are unbounded integers.

    ** This file

    The shared prelude: byte strings and their literals, boolean and list
    lemmas, tables, the development's tactics and hint database. *)
From stdpp Require Export base tactics list gmap strings sets.
From Stdlib Require Export Ascii ZArith Lia Sorted.

(** ** Go strings

    A Go [string] is a sequence of bytes; it is modelled by [list ascii], so
    that [len(s)] is [length s], [s[i]] is [s !! i], [s[i:]] is [drop i s] and
    [s[:i]] is [take i s].  Literals are written as usual in [gostr_scope]. *)
Abbreviation gostr := (list ascii).

Declare Scope gostr_scope.
Delimit Scope gostr_scope with gs.

Module StringLiterals.
Inductive literal := LNil | LCons (c : ascii) (l : literal).

Fixpoint parse (bs : list Byte.byte) : literal :=
  match bs with
  | [] => LNil
  | b :: bs => LCons (ascii_of_byte b) (parse bs)
  end.

Fixpoint bytes_of (l : literal) : list Byte.byte :=
  match l with
  | LNil => []
  | LCons c l => byte_of_ascii c :: bytes_of l
  end.

(** The empty list keeps its list notation when it is printed. *)
Definition print (l : literal) : option (list Byte.byte) :=
  match l with
  | LNil => None
  | LCons _ _ => Some (bytes_of l)
  end.
End StringLiterals.

#[warnings="-via-type-mismatch"]
String Notation list StringLiterals.parse StringLiterals.print
  (via StringLiterals.literal
     mapping [[nil] => StringLiterals.LNil, [cons] => StringLiterals.LCons])
  : gostr_scope.

Open Scope gostr_scope.

(** Comparison of bytes, as the code's [c >= 'a' && c <= 'z'] tests use it. *)
Definition byte_le (a b : ascii) : bool := (N_of_ascii a <=? N_of_ascii b)%N.
Definition byte_in (lo hi c : ascii) : bool := byte_le lo c && byte_le c hi.
Definition byte_eqb (a b : ascii) : bool := Ascii.eqb a b.

Infix "=?b" := byte_eqb (at level 70) : gostr_scope.

Lemma byte_eqb_spec a b : reflect (a = b) (a =?b b).
Proof. apply Ascii.eqb_spec. Qed.

Lemma byte_eqb_refl a : (a =?b a) = true.
Proof. apply Ascii.eqb_refl. Qed.

Lemma byte_eqb_ne a b : a <> b -> (a =?b b) = false.
Proof. by destruct (byte_eqb_spec a b). Qed.

(** ** Tactics

    [dbool] splits a boolean test on the elements of the model, [inv_some]
    unwraps equations between options and pairs. *)
Ltac dbool :=
  match goal with
  | |- context [?a =?b ?b] => destruct (byte_eqb_spec a b); subst
  | H : context [?a =?b ?b] |- _ => destruct (byte_eqb_spec a b); subst
  end.

Ltac split_and_hyps :=
  repeat match goal with
  | H : (_ && _)%bool = true |- _ => apply andb_true_iff in H as [??]
  | H : (_ || _)%bool = false |- _ => apply orb_false_iff in H as [??]
  | H : negb _ = true |- _ => apply negb_true_iff in H
  | H : negb _ = false |- _ => apply negb_false_iff in H
  end.

Create HintDb foci discriminated.
Create Rewrite HintDb foci.
#[export] Hint Rewrite byte_eqb_refl @length_app @length_cons @app_nil_r
  @take_0 @drop_0 @length_drop @length_take : foci.
#[export] Hint Resolve byte_eqb_refl byte_eqb_ne : foci.

(** ** Options and lists *)
Lemma existsb_In {A} (f : A -> bool) l :
  existsb f l = true <-> exists x, In x l /\ f x = true.
Proof. apply existsb_exists. Qed.

Lemma existsb_elem {A} (f : A -> bool) l :
  existsb f l = true <-> exists x, x ∈ l /\ f x = true.
Proof. rewrite existsb_exists. by setoid_rewrite list_elem_of_In. Qed.

Lemma existsb_false_Forall {A} (f : A -> bool) l :
  existsb f l = false <-> Forall (fun x => f x = false) l.
Proof.
  induction l as [|x l IH]; simpl; [split; auto|].
  rewrite orb_false_iff, IH, Forall_cons; tauto.
Qed.

(** A predicate on byte strings that the code tests with [strings.IndexByte]. *)
Definition mem_byte (c : ascii) (s : gostr) : bool := existsb (byte_eqb c) s.

Lemma mem_byte_spec c s : mem_byte c s = true <-> c ∈ s.
Proof.
  unfold mem_byte. rewrite existsb_exists. split.
  - intros (x & Hx & E). destruct (byte_eqb_spec c x); [subst|done].
    by apply list_elem_of_In.
  - intros H. exists c. split; [by apply list_elem_of_In|apply byte_eqb_refl].
Qed.

Lemma mem_byte_app c s t : mem_byte c (s ++ t) = mem_byte c s || mem_byte c t.
Proof. apply existsb_app. Qed.

(** ** Constant tables: Go's [map] literals *)

(** [map[string]V] literals, which have pairwise distinct keys. *)
Fixpoint table_get {V} (table : list (gostr * V)) (k : gostr) : option V :=
  match table with
  | [] => None
  | (k', v) :: table => if bool_decide (k = k') then Some v else table_get table k
  end.

(** [map[string]bool] literals whose values are all [true]. *)
Definition in_table (keys : list gostr) (k : gostr) : bool :=
  existsb (fun k' => bool_decide (k = k')) keys.

Lemma in_table_spec keys k : in_table keys k = true <-> k ∈ keys.
Proof.
  unfold in_table. rewrite existsb_exists. setoid_rewrite bool_decide_eq_true.
  rewrite list_elem_of_In. naive_solver.
Qed.

Lemma in_table_false keys k : in_table keys k = false <-> k ∉ keys.
Proof. rewrite <- not_true_iff_false, in_table_spec. done. Qed.

Lemma table_get_Some {V} (table : list (gostr * V)) k v :
  table_get table k = Some v -> (k, v) ∈ table.
Proof.
  induction table as [|[k' v'] table IH]; simpl; [done|].
  case_bool_decide; subst; intros Hv; [simplify_eq; apply elem_of_cons; by left|].
  apply elem_of_cons. right. auto.
Qed.

(** ** What the values of a finite map hold together

    [map_bag f m] collects [f v] over the values of [m], in no particular
    order: conservation laws over threads or entries are permutations of it. *)
Definition map_bag {A B} (f : A -> list B) (m : gmap nat A) : list B :=
  concat (f <$> (map_to_list m).*2).

Lemma map_bag_insert_new {A B} (f : A -> list B) (m : gmap nat A) k a :
  m !! k = None -> map_bag f (<[k := a]> m) ≡ₚ f a ++ map_bag f m.
Proof. intros H. unfold map_bag. by rewrite (map_to_list_insert m k a H). Qed.

Lemma map_bag_delete {A B} (f : A -> list B) (m : gmap nat A) k a :
  m !! k = Some a -> map_bag f m ≡ₚ f a ++ map_bag f (delete k m).
Proof.
  intros H. rewrite <- (map_bag_insert_new f (delete k m) k a) by apply lookup_delete_eq.
  by rewrite insert_delete_id.
Qed.

Lemma map_bag_insert {A B} (f : A -> list B) (m : gmap nat A) k a :
  map_bag f (<[k := a]> m) ≡ₚ f a ++ map_bag f (delete k m).
Proof.
  rewrite <- insert_delete_eq. apply map_bag_insert_new, lookup_delete_eq.
Qed.

Lemma map_bag_empty {A B} (f : A -> list B) : map_bag f ∅ = [].
Proof. unfold map_bag. by rewrite map_to_list_empty. Qed.

Lemma map_bag_elem {A B} (f : A -> list B) (m : gmap nat A) k a x :
  m !! k = Some a -> x ∈ f a -> x ∈ map_bag f m.
Proof. intros H Hx. rewrite (map_bag_delete f m k a H). apply elem_of_app. by left. Qed.

(** ** Sizes of sets built from lists *)
Lemma size_list_to_set_le `{Countable A} (l : list A) : (size (list_to_set l : gset A) <= length l)%nat.
Proof.
  induction l as [|a l IH]; cbn; [by rewrite size_empty|]. rewrite size_union_alt, size_singleton.
  pose proof (subseteq_size (list_to_set l ∖ {[a]} : gset A) (list_to_set l) ltac:(set_solver)). lia.
Qed.

Lemma size_insert_le `{Countable A} (a : A) (s : gset A) : (size ({[ a ]} ∪ s) <= S (size s))%nat.
Proof.
  rewrite size_union_alt, size_singleton. pose proof (subseteq_size (s ∖ {[a]}) s ltac:(set_solver)). lia.
Qed.

Lemma length_omap_le {A B} (f : A -> option B) (l : list A) : (length (omap f l) <= length l)%nat.
Proof. induction l as [|a l IH]; cbn; [done|]. destruct (f a); cbn; lia. Qed.

(** ** Filters and sorted lists *)
Lemma filter_ext_elem {A} (Q R : A -> Prop) `{forall x, Decision (Q x)} `{forall x, Decision (R x)} (l : list A) :
  (forall x, x ∈ l -> Q x <-> R x) -> filter Q l = filter R l.
Proof.
  induction l as [|x l IH]; intros He; [done|]. rewrite !filter_cons, IH by (intros y Hy; apply He; by right).
  apply decide_ext, He. by left.
Qed.

Lemma filter_none {A} (P : A -> Prop) `{forall x, Decision (P x)} (l : list A) :
  (forall x, x ∈ l -> ~ P x) -> filter P l = [].
Proof.
  induction l as [|x l IH]; intros Hn; [done|]. rewrite filter_cons, decide_False by (apply Hn; by left).
  apply IH. intros y Hy. apply Hn. by right.
Qed.

Lemma filter_keeps {A} (P : A -> Prop) `{forall x, Decision (P x)} (l : list A) :
  (forall x, x ∈ l -> P x) -> filter P l = l.
Proof.
  induction l as [|x l IH]; intros Hn; [done|]. rewrite filter_cons, decide_True by (apply Hn; by left).
  f_equal. apply IH. intros y Hy. apply Hn. by right.
Qed.

Lemma sorted_filter {A} (R : A -> A -> Prop) (P : A -> Prop) `{forall a, Decision (P a)} l :
  StronglySorted R l -> StronglySorted R (filter P l).
Proof.
  induction 1 as [|a l Hl IH Ha]; [constructor|]. rewrite filter_cons. destruct (decide (P a)); [|done].
  constructor; [done|]. rewrite Forall_forall in *. intros b [_ Hb]%list_elem_of_filter. by apply Ha.
Qed.

Lemma sorted_fmap {A B} (R : A -> A -> Prop) (S : B -> B -> Prop) (f : A -> B) l :
  (forall a b, R a b -> S (f a) (f b)) -> StronglySorted R l -> StronglySorted S (f <$> l).
Proof.
  intros Hf. induction 1 as [|a l Hl IH Ha]; cbn; constructor; [done|]. rewrite Forall_forall. rewrite Forall_forall in Ha.
  intros b (x & -> & Hx)%list_elem_of_fmap. apply Hf, Ha, Hx.
Qed.

(** Two lists in the same strict order with the same elements are one list. *)
Lemma sorted_unique {A} (R : A -> A -> Prop) (l k : list A) : (forall a b, R a b -> ~ R b a) ->
  StronglySorted R l -> StronglySorted R k -> (forall x, x ∈ l <-> x ∈ k) -> l = k.
Proof.
  intros Hasym Hl. revert k. induction Hl as [|a l Hl IH Ha]; intros k Hk He.
  { destruct k as [|b k]; [done|]. exfalso. apply (not_elem_of_nil b), He. by left. }
  destruct Hk as [|b k Hk Hb]; [exfalso; apply (not_elem_of_nil a), He; by left|].
  rewrite Forall_forall in Ha. rewrite Forall_forall in Hb.
  assert (E : a = b).
  { assert (Hab : a ∈ b :: k) by (apply He; by left). assert (Hba : b ∈ a :: l) by (apply He; by left).
    apply elem_of_cons in Hab as [->|Hab]; [done|]. apply elem_of_cons in Hba as [->|Hba]; [done|].
    destruct (Hasym a b); auto. }
  subst b. f_equal. apply IH; [done|]. intros x. specialize (He x). rewrite !elem_of_cons in He.
  split; intros Hx.
  - assert (a <> x) by (intros ->; specialize (Ha x Hx); by apply (Hasym x x)). naive_solver.
  - assert (a <> x) by (intros ->; specialize (Hb x Hx); by apply (Hasym x x)). naive_solver.
Qed.

(** ** How many entries of a finite map satisfy a test *)
Definition b2n (b : bool) : nat := if b then 1 else 0.

Definition counted {A} (P : A -> bool) (m : gmap nat A) : nat := size (filter (fun ka => P ka.2 = true) m).

Lemma counted_insert_new {A} (P : A -> bool) m k a :
  m !! k = None -> counted P (<[k := a]> m) = (b2n (P a) + counted P m)%nat.
Proof.
  intros Hk. unfold counted. destruct (P a) eqn:E; cbn [b2n].
  - rewrite map_filter_insert_True by done. rewrite map_size_insert_None; [done|].
    apply map_lookup_filter_None. by left.
  - rewrite map_filter_insert_False by (cbn; congruence). by rewrite delete_id.
Qed.

Lemma counted_delete {A} (P : A -> bool) m k a :
  m !! k = Some a -> (b2n (P a) + counted P (delete k m) = counted P m)%nat.
Proof.
  intros Hk. rewrite <- (insert_delete_id m k a Hk) at 2.
  by rewrite counted_insert_new by apply lookup_delete_eq.
Qed.

Lemma counted_replace {A} (P : A -> bool) m k a b :
  m !! k = Some a -> (b2n (P a) + counted P (<[k := b]> m) = b2n (P b) + counted P m)%nat.
Proof.
  intros Hk. rewrite <- insert_delete_eq, counted_insert_new by apply lookup_delete_eq.
  rewrite <- (counted_delete P m k a Hk). lia.
Qed.

Lemma counted_ext {A} (P Q : A -> bool) m :
  (forall k a, m !! k = Some a -> P a = Q a) -> counted P m = counted Q m.
Proof.
  intros He. unfold counted. f_equal. apply map_filter_ext. intros k a Ha. cbn. by rewrite (He k a Ha).
Qed.

Lemma counted_le {A} (P Q : A -> bool) m :
  (forall k a, m !! k = Some a -> P a = true -> Q a = true) -> (counted P m <= counted Q m)%nat.
Proof.
  intros He. unfold counted. apply map_subseteq_size, map_filter_subseteq_ext. intros k a Ha. cbn. eauto.
Qed.

Lemma counted_pos {A} (P : A -> bool) m k a : m !! k = Some a -> P a = true -> (0 < counted P m)%nat.
Proof. intros Hk Hp. rewrite <- (counted_delete P m k a Hk), Hp. cbn. lia. Qed.

Lemma counted_two {A} (P : A -> bool) m k k' a b :
  m !! k = Some a -> m !! k' = Some b -> P a = true -> P b = true -> k <> k' -> (2 <= counted P m)%nat.
Proof.
  intros Hk Hk' Ha Hb Hne. rewrite <- (counted_delete P m k a Hk), Ha. cbn [b2n].
  assert (delete k m !! k' = Some b) as Hd by (by rewrite lookup_delete_ne).
  rewrite <- (counted_delete P _ k' b Hd), Hb. cbn [b2n]. lia.
Qed.

Lemma counted_witness {A} (P : A -> bool) m :
  (0 < counted P m)%nat -> exists k a, m !! k = Some a /\ P a = true.
Proof.
  intros Hc. unfold counted in Hc. destruct (map_choose (filter (fun ka => P ka.2 = true) m)) as (k & a & Hka).
  { intros E. rewrite E, map_size_empty in Hc. lia. }
  apply map_lookup_filter_Some in Hka as [Hk HP]. eauto.
Qed.

Lemma counted_zero {A} (P : A -> bool) m : (forall k a, m !! k = Some a -> P a = false) -> counted P m = 0%nat.
Proof.
  intros H. destruct (counted P m) eqn:E; [done|].
  destruct (counted_witness P m) as (k & a & Hk & Hp); [lia|]. by rewrite (H k a Hk) in Hp.
Qed.
