(* ===== verification/GoStrings.v ===== *)
(** * The part of Go's standard library the modelled packages call

    [strings] (HasPrefix, IndexByte, Cut, Split, TrimSpace, ...) over byte
    strings, and the Unix [path/filepath] functions (Base, Dir, Clean, Join,
    IsAbs).  These are not code of the repository: they are models of the
    language's library, shared by every component. *)
From S2P Require Import Prelude.
From Stdlib Require Import Sorted.

(** ** [strings] *)

Fixpoint has_prefix (p s : gostr) : bool :=
  match p, s with
  | [], _ => true
  | a :: p, b :: s => (a =?b b) && has_prefix p s
  | _ :: _, [] => false
  end.

Definition has_suffix (p s : gostr) : bool := has_prefix (rev p) (rev s).

(** [strings.IndexByte]: [None] is Go's -1. *)
Fixpoint index_byte (c : ascii) (s : gostr) : option nat :=
  match s with
  | [] => None
  | d :: s => if c =?b d then Some 0 else S <$> index_byte c s
  end.

(** [strings.LastIndexByte]. *)
Fixpoint last_index_byte (c : ascii) (s : gostr) : option nat :=
  match s with
  | [] => None
  | d :: s =>
      match last_index_byte c s with
      | Some n => Some (S n)
      | None => if c =?b d then Some 0 else None
      end
  end.

(** [strings.Index]. *)
Fixpoint index (sub s : gostr) : option nat :=
  if has_prefix sub s then Some 0
  else match s with [] => None | _ :: s => S <$> index sub s end.

Definition contains (sub s : gostr) : bool :=
  match index sub s with Some _ => true | None => false end.

(** [strings.IndexAny] and [strings.ContainsAny] for ASCII sets of bytes. *)
Fixpoint index_any (cs s : gostr) : option nat :=
  match s with
  | [] => None
  | d :: s => if mem_byte d cs then Some 0 else S <$> index_any cs s
  end.

Definition contains_any (cs s : gostr) : bool :=
  existsb (fun d => mem_byte d cs) s.

(** [strings.Cut(s, sep)]: the text before and after the first [sep]. *)
Definition cut (sep s : gostr) : gostr * gostr * bool :=
  match index sep s with
  | Some i => (take i s, drop (i + length sep) s, true)
  | None => (s, [], false)
  end.

Definition trim_prefix (p s : gostr) : gostr :=
  if has_prefix p s then drop (length p) s else s.

(** [strings.CutPrefix]. *)
Definition cut_prefix (p s : gostr) : gostr * bool :=
  if has_prefix p s then (drop (length p) s, true) else (s, false).

(** [strings.Split] with a one-byte separator. *)
Fixpoint split_byte (c : ascii) (s : gostr) : list gostr :=
  match s with
  | [] => [[]]
  | d :: s =>
      if c =?b d then [] :: split_byte c s
      else match split_byte c s with
           | w :: ws => (d :: w) :: ws
           | [] => [[d]]
           end
  end.

(** The order of Go strings: byte by byte. *)
Fixpoint string_le (a b : gostr) : bool :=
  match a, b with
  | [], _ => true
  | _ :: _, [] => false
  | c :: a, d :: b => if c =?b d then string_le a b else byte_le c d
  end.

Fixpoint join (sep : gostr) (ws : list gostr) : gostr :=
  match ws with
  | [] => []
  | [w] => w
  | w :: ws => w ++ sep ++ join sep ws
  end.

(** [strings.Trim] with an ASCII cut set. *)
Fixpoint trim_left (cs s : gostr) : gostr :=
  match s with
  | [] => []
  | c :: s' => if mem_byte c cs then trim_left cs s' else s
  end.

Definition trim (cs s : gostr) : gostr :=
  rev (trim_left cs (rev (trim_left cs s))).

(** [strings.TrimSpace] removes every leading and trailing character for which
    [unicode.IsSpace] holds.  [space_encodings] are the UTF-8 encodings of
    those characters. *)
Definition bytes_of_nats (ns : list nat) : gostr := ascii_of_nat <$> ns.

Definition space_encodings : list gostr := Eval vm_compute in
  bytes_of_nats <$>
    ([[9]; [10]; [11]; [12]; [13]; [32]; [194; 133]; [194; 160]; [225; 154; 128]]
     ++ ((fun b => [226; 128; b]) <$> seq 128 11)
     ++ [[226; 128; 168]; [226; 128; 169]; [226; 128; 175]; [226; 129; 159];
         [227; 128; 128]]).

(** The length of the encoding in [encs] that starts [s], 0 for none. *)
Definition leading_encoding (encs : list gostr) (s : gostr) : nat :=
  match List.find (fun e => has_prefix e s) encs with
  | Some e => length e
  | None => 0
  end.

Fixpoint trim_leading (encs : list gostr) (fuel : nat) (s : gostr) : gostr :=
  match fuel with
  | O => s
  | S fuel =>
      match leading_encoding encs s with
      | O => s
      | n => trim_leading encs fuel (drop n s)
      end
  end.

Definition trim_space_left (s : gostr) : gostr :=
  trim_leading space_encodings (length s) s.

Definition trim_space_right (s : gostr) : gostr :=
  rev (trim_leading (@rev ascii <$> space_encodings) (length s) (rev s)).

Definition trim_space (s : gostr) : gostr := trim_space_right (trim_space_left s).

(** ** Letter case

    [strings.ToUpper] and [strings.ToLower] map ASCII text byte by byte; their
    case mapping of text beyond ASCII is an argument. *)
Definition upper_byte (c : ascii) : ascii :=
  if byte_in "a"%char "z"%char c then ascii_of_N (N_of_ascii c - 32) else c.
Definition lower_byte (c : ascii) : ascii :=
  if byte_in "A"%char "Z"%char c then ascii_of_N (N_of_ascii c + 32) else c.
Definition ascii_text (s : gostr) : bool := forallb (fun c => (N_of_ascii c <? 128)%N) s.

Definition ToUpper (unicode_upper : gostr -> gostr) (s : gostr) : gostr :=
  if ascii_text s then upper_byte <$> s else unicode_upper s.
Definition ToLower (unicode_lower : gostr -> gostr) (s : gostr) : gostr :=
  if ascii_text s then lower_byte <$> s else unicode_lower s.

(** ** [path/filepath] on Unix *)

Definition is_abs (p : gostr) : bool := has_prefix "/" p.

(** [filepath.Base]. *)
Definition base (p : gostr) : gostr :=
  match p with
  | [] => "."
  | _ =>
      let p := rev (trim_left "/" (rev p)) in
      let p := match last_index_byte "/"%char p with
               | Some i => drop (S i) p
               | None => p
               end in
      match p with [] => "/" | _ => p end
  end.

(** [filepath.Clean]: the elements that remain after "." and ".." are
    resolved, kept in reverse order. *)
Definition clean_step (rooted : bool) (acc : list gostr) (e : gostr) : list gostr :=
  if bool_decide (e = []) || bool_decide (e = ".") then acc
  else if bool_decide (e = "..") then
    match acc with
    | [] => if rooted then [] else [e]
    | t :: acc' => if bool_decide (t = "..") then e :: acc else acc'
    end
  else e :: acc.

Definition clean_elements (rooted : bool) (es : list gostr) : list gostr :=
  fold_left (clean_step rooted) es [].

Definition clean (p : gostr) : gostr :=
  match p with
  | [] => "."
  | _ =>
      let rooted := is_abs p in
      let body := join "/" (rev (clean_elements rooted (split_byte "/"%char p))) in
      if rooted then "/" ++ body
      else match body with [] => "." | _ => body end
  end.

(** [filepath.Join] of two elements. *)
Definition path_join (a b : gostr) : gostr :=
  match List.filter (fun e => negb (bool_decide (e = []))) [a; b] with
  | [] => []
  | es => clean (join "/" es)
  end.

(** [filepath.Dir]. *)
Definition dir (p : gostr) : gostr :=
  clean (match last_index_byte "/"%char p with
         | Some i => take (S i) p
         | None => []
         end).

(** ** Lemmas *)

Lemma has_prefix_spec p s : has_prefix p s = true <-> exists t, s = p ++ t.
Proof.
  revert s. induction p as [|a p IH]; intros s; simpl.
  - split; eauto.
  - destruct s as [|b s]; [split; [done|by intros [t ?]]|].
    rewrite andb_true_iff, IH. split.
    + intros [E [t ->]]. dbool; [by exists t|done].
    + intros [t E]. simplify_eq/=. rewrite byte_eqb_refl. eauto.
Qed.

Lemma has_prefix_app p t : has_prefix p (p ++ t) = true.
Proof. apply has_prefix_spec. eauto. Qed.

Lemma has_prefix_refl p : has_prefix p p = true.
Proof. rewrite <- (app_nil_r p) at 2. apply has_prefix_app. Qed.

Lemma has_prefix_app_r p s t : has_prefix p s = true -> has_prefix p (s ++ t) = true.
Proof. rewrite !has_prefix_spec. intros [u ->]. exists (u ++ t). by rewrite app_assoc. Qed.

Lemma has_prefix_length p s : has_prefix p s = true -> length p <= length s.
Proof. rewrite has_prefix_spec. intros [t ->]. rewrite length_app. lia. Qed.

Lemma index_byte_Some c s i :
  index_byte c s = Some i <->
  exists t, s = take i s ++ c :: t /\ i < length s /\ c ∉ take i s.
Proof.
  revert i. induction s as [|d s IH]; intros i; simpl.
  { split; [done|]. intros (t & ? & ? & ?). lia. }
  destruct (byte_eqb_spec c d) as [->|Hne].
  - split.
    + intros [= <-]. exists s. simpl. split_and!; [done|lia|set_solver].
    + intros (t & Ht & Hi & Hn). destruct i as [|i]; [done|].
      simpl in *. set_solver.
  - destruct i as [|i]; simpl.
    + split; [destruct (index_byte c s); discriminate|].
      intros (t & [=] & _). congruence.
    + transitivity (index_byte c s = Some i).
      { destruct (index_byte c s); simpl; naive_solver. }
      rewrite IH. split; intros (t & Ht & Hi & Hn); exists t; split_and!.
      * by rewrite <- Ht.
      * lia.
      * set_solver.
      * by simplify_eq/=.
      * lia.
      * set_solver.
Qed.

Lemma index_byte_None c s : index_byte c s = None <-> c ∉ s.
Proof.
  induction s as [|d s IH]; simpl; [set_solver|].
  destruct (byte_eqb_spec c d); [set_solver|].
  destruct (index_byte c s); simpl; set_solver.
Qed.

Lemma index_Some sub s i :
  index sub s = Some i -> s = take i s ++ sub ++ drop (i + length sub) s.
Proof.
  revert i. induction s as [|d s IH]; intros i; simpl.
  - destruct sub; simpl; [by intros [= <-]|done].
  - destruct (has_prefix sub (d :: s)) eqn:E.
    + intros [= <-]. apply has_prefix_spec in E as [t ->].
      simpl. by rewrite drop_app_length.
    + destruct (index sub s) as [j|] eqn:Ej; simpl; [|done].
      intros [= <-]. simpl. f_equal. by apply IH.
Qed.

Lemma contains_app_l sub s t : contains sub (s ++ sub ++ t) = true.
Proof.
  unfold contains. induction s as [|c s IH]; simpl.
  - destruct (sub ++ t) eqn:E; simpl;
      rewrite <- ?E; destruct sub; simplify_eq/=; try done.
    by rewrite byte_eqb_refl, has_prefix_app.
  - destruct (has_prefix _ _); [done|].
    by destruct (index sub (s ++ sub ++ t)).
Qed.

Lemma cut_found sep s b a :
  cut sep s = (b, a, true) -> s = b ++ sep ++ a.
Proof.
  unfold cut. destruct (index sep s) as [i|] eqn:E; intros [=]; subst.
  by apply index_Some.
Qed.

Lemma split_byte_nonempty c s : split_byte c s <> [].
Proof. destruct s as [|d s]; simpl; [done|]. dbool; [done|]. by destruct (split_byte c s). Qed.

(** Splitting on a byte and joining with it is the identity. *)
Lemma split_byte_app c w t : (c ∉ w) -> split_byte c (w ++ c :: t) = w :: split_byte c t.
Proof.
  induction w as [|d w IH]; intros Hw; cbn [app split_byte]; [by rewrite byte_eqb_refl|].
  apply not_elem_of_cons in Hw as [Hd Hw]. rewrite byte_eqb_ne by done. by rewrite IH.
Qed.

Lemma split_byte_one c w : (c ∉ w) -> split_byte c w = [w].
Proof.
  induction w as [|d w IH]; intros Hw; cbn [split_byte]; [done|].
  apply not_elem_of_cons in Hw as [Hd Hw]. rewrite byte_eqb_ne by done. by rewrite IH.
Qed.

Lemma join_split_byte c s : join [c] (split_byte c s) = s.
Proof.
  induction s as [|d s IH]; [done|]. cbn [split_byte].
  pose proof (split_byte_nonempty c s).
  destruct (byte_eqb_spec c d) as [<-|];
    destruct (split_byte c s) as [|w ws]; simpl in *; [done| |done|].
  - by rewrite IH.
  - destruct ws; simpl in *; by rewrite IH.
Qed.

Lemma join_cons2 sep w w' ws : join sep (w :: w' :: ws) = w ++ sep ++ join sep (w' :: ws).
Proof. done. Qed.

Lemma split_join c es t :
  Forall (fun e => c ∉ e) es -> es <> [] ->
  split_byte c (join [c] es ++ c :: t) = es ++ split_byte c t.
Proof.
  induction es as [|e [|e' es] IH]; intros Hes Hne; [done| |]; apply Forall_cons in Hes as [He Hes].
  - by apply split_byte_app.
  - rewrite join_cons2, <- !app_assoc. cbn [app]. rewrite split_byte_app by done.
    by rewrite IH.
Qed.

Lemma split_join_end c es :
  Forall (fun e => c ∉ e) es -> es <> [] -> split_byte c (join [c] es) = es.
Proof.
  induction es as [|e [|e' es] IH]; intros Hes Hne; [done| |]; apply Forall_cons in Hes as [He Hes].
  - by apply split_byte_one.
  - rewrite join_cons2. cbn [app]. rewrite split_byte_app by done. by rewrite IH.
Qed.

Lemma split_byte_no_sep c s : Forall (fun w => c ∉ w) (split_byte c s).
Proof.
  induction s as [|d s IH]; simpl; [by repeat constructor; apply not_elem_of_nil|].
  dbool; [constructor; [apply not_elem_of_nil|done]|].
  destruct (split_byte c s) as [|w ws]; [constructor; [set_solver|done]|].
  apply Forall_cons in IH as [??]. constructor; [set_solver|done].
Qed.

Lemma trim_leading_length encs fuel s : length (trim_leading encs fuel s) <= length s.
Proof.
  revert s. induction fuel as [|fuel IH]; intros s; simpl; [done|].
  destruct (leading_encoding encs s) as [|n]; [done|].
  etransitivity; [apply IH|]. rewrite length_drop. lia.
Qed.

Lemma trim_space_length s : length (trim_space s) <= length s.
Proof.
  unfold trim_space, trim_space_right, trim_space_left.
  rewrite length_rev. etransitivity; [apply trim_leading_length|].
  rewrite length_rev. apply trim_leading_length.
Qed.

(** What [TrimSpace] returns has no blank at either end, so it is a fixed
    point; appending text without blanks at its ends keeps that. *)
Lemma leading_encoding_0 encs s :
  Forall (fun e => e <> []) encs -> leading_encoding encs s = 0 <-> Forall (fun e => has_prefix e s = false) encs.
Proof.
  intros Hne. unfold leading_encoding. induction Hne as [|e encs He Hne IH]; cbn [List.find]; [done|].
  rewrite Forall_cons. destruct (has_prefix e s) eqn:E; [|by rewrite IH; intuition].
  split; [by destruct e|by intros [? _]].
Qed.

Lemma trim_leading_fixed encs fuel s : leading_encoding encs s = 0 -> trim_leading encs fuel s = s.
Proof. intros H. destruct fuel as [|fuel]; cbn [trim_leading]; [done|]. by rewrite H. Qed.

Lemma trim_leading_done encs fuel s : Forall (fun e => e <> []) encs ->
  length s <= fuel -> leading_encoding encs (trim_leading encs fuel s) = 0.
Proof.
  intros Hne. revert s. induction fuel as [|fuel IH]; intros s Hs; cbn [trim_leading].
  - destruct s; [|cbn in Hs; lia]. apply leading_encoding_0; [done|].
    eapply Forall_impl; [exact Hne|]. by intros [|].
  - destruct (leading_encoding encs s) as [|n] eqn:E; [done|]. apply IH. rewrite length_drop.
    destruct s; cbn in *; [|lia]. lia.
Qed.

Lemma trim_leading_suffix encs fuel s : exists p, s = p ++ trim_leading encs fuel s.
Proof.
  revert s. induction fuel as [|fuel IH]; intros s; cbn [trim_leading]; [by exists []|].
  destruct (leading_encoding encs s) as [|n]; [by exists []|].
  destruct (IH (drop (S n) s)) as [p Hp]. exists (take (S n) s ++ p).
  by rewrite <- app_assoc, <- Hp, take_drop.
Qed.

Lemma space_encodings_ne : Forall (fun e => e <> []) space_encodings.
Proof. by repeat constructor. Qed.
Lemma rev_space_encodings_ne : Forall (fun e => e <> []) (@rev ascii <$> space_encodings).
Proof. by repeat constructor. Qed.

Lemma trim_space_leading s : leading_encoding space_encodings (trim_space s) = 0.
Proof.
  apply leading_encoding_0; [apply space_encodings_ne|]. unfold trim_space, trim_space_right.
  pose proof (trim_leading_done space_encodings (length s) s space_encodings_ne (Nat.le_refl _)) as H.
  fold (trim_space_left s) in H. apply leading_encoding_0 in H; [|apply space_encodings_ne].
  destruct (trim_leading_suffix (@rev ascii <$> space_encodings) (length (trim_space_left s)) (rev (trim_space_left s)))
    as [p Hp].
  apply (f_equal (@rev ascii)) in Hp. rewrite rev_involutive, rev_app_distr in Hp.
  eapply Forall_impl; [exact H|]. intros e He. cbn in He.
  apply not_true_iff_false. intros Hpre. apply not_true_iff_false in He. apply He. rewrite Hp.
  by apply has_prefix_app_r.
Qed.

Lemma trim_space_trailing s : leading_encoding (@rev ascii <$> space_encodings) (rev (trim_space s)) = 0.
Proof.
  unfold trim_space, trim_space_right. rewrite rev_involutive.
  apply trim_leading_done; [apply rev_space_encodings_ne|by rewrite length_rev].
Qed.

Lemma trim_space_fixed s :
  leading_encoding space_encodings s = 0 -> leading_encoding (@rev ascii <$> space_encodings) (rev s) = 0 ->
  trim_space s = s.
Proof.
  intros H1 H2. unfold trim_space, trim_space_left. rewrite (trim_leading_fixed _ _ _ H1).
  unfold trim_space_right. by rewrite (trim_leading_fixed _ _ _ H2), rev_involutive.
Qed.

Lemma trim_space_idem s : trim_space (trim_space s) = trim_space s.
Proof. apply trim_space_fixed; [apply trim_space_leading|apply trim_space_trailing]. Qed.

(** Text whose first byte is a blank byte and whose last is not, after
    non-empty trimmed text. *)
Lemma has_prefix_split e b t : has_prefix e (b ++ t) = true ->
  has_prefix e b = true \/ exists r, e = b ++ r /\ r <> [] /\ has_prefix r t = true.
Proof.
  revert b. induction e as [|c e IH]; intros b; [by left|].
  destruct b as [|d b]; cbn [app has_prefix].
  { intros H. right. by exists (c :: e). }
  intros [Hc H]%andb_true_iff. destruct (IH b H) as [->|(r & -> & Hr & Ht)]; [left; by rewrite Hc|].
  right. exists r. destruct (byte_eqb_spec c d); [by subst|done].
Qed.

Lemma trim_space_label b t : trim_space b = b -> b <> [] ->
  trim_space (b ++ " (" ++ t ++ ")") = b ++ " (" ++ t ++ ")".
Proof.
  intros Hb Hne. apply trim_space_fixed.
  - apply leading_encoding_0; [apply space_encodings_ne|].
    pose proof (trim_space_leading b) as H. rewrite Hb in H. apply leading_encoding_0 in H; [|apply space_encodings_ne].
    rewrite Forall_forall in H. apply Forall_forall. intros e He. apply not_true_iff_false. intros Hp.
    apply has_prefix_split in Hp as [Hp|(r & -> & Hr & Hp)]; [by rewrite H in Hp|].
    assert (Forall (fun e => forallb (fun c => negb (c =?b " "%char)) (tail e) = true) space_encodings) as Hs
      by (by repeat constructor).
    rewrite Forall_forall in Hs. specialize (Hs _ He). destruct b as [|c b]; [done|]. cbn [app tail] in Hs.
    destruct r as [|d r]; [done|]. cbn [app has_prefix] in Hp. apply andb_true_iff in Hp as [Hd _].
    rewrite forallb_app in Hs. apply andb_true_iff in Hs as [_ Hs]. cbn [forallb] in Hs. by rewrite Hd in Hs.
  - rewrite !app_assoc, rev_app_distr. cbn [rev app]. by vm_compute.
Qed.

(** [strings.Trim] with a space cut set has nothing left to do on it, and ASCII
    text stays ASCII. *)
Lemma trim_left_fixed encs s : [" "%char] ∈ encs -> Forall (fun e => e <> []) encs ->
  leading_encoding encs s = 0 -> trim_left " " s = s.
Proof.
  intros Hin Hne H. apply leading_encoding_0 in H; [|done]. rewrite Forall_forall in H. specialize (H _ Hin).
  destruct s as [|c s]; [done|]. cbn [trim_left has_prefix mem_byte existsb] in *. rewrite andb_true_r in H.
  rewrite byte_eqb_ne; [done|]. intros ->. by rewrite byte_eqb_refl in H.
Qed.

Lemma space_in_encodings : [" "%char] ∈ space_encodings /\ [" "%char] ∈ (@rev ascii <$> space_encodings).
Proof. split; apply (bool_decide_eq_true_1 _); by vm_compute. Qed.

Lemma trim_spaces_trimmed s : trim " " (trim_space s) = trim_space s.
Proof.
  destruct space_in_encodings as [H1 H2]. unfold trim.
  rewrite (trim_left_fixed _ (trim_space s) H1 space_encodings_ne) by apply trim_space_leading.
  rewrite (trim_left_fixed _ (rev (trim_space s)) H2 rev_space_encodings_ne) by apply trim_space_trailing.
  apply rev_involutive.
Qed.

Lemma ascii_text_app s t : ascii_text (s ++ t) = ascii_text s && ascii_text t.
Proof. apply forallb_app. Qed.

Lemma ascii_text_rev s : ascii_text (rev s) = ascii_text s.
Proof.
  induction s as [|c s IH]; [done|]. cbn [rev]. rewrite ascii_text_app, IH. cbn. by rewrite andb_true_r, andb_comm.
Qed.

Lemma ascii_text_trim s : ascii_text s = true -> ascii_text (trim_space s) = true.
Proof.
  intros H. unfold trim_space, trim_space_right, trim_space_left. rewrite ascii_text_rev.
  set (l := trim_leading space_encodings (length s) s).
  assert (ascii_text l = true) as Hl.
  { destruct (trim_leading_suffix space_encodings (length s) s) as [p Hp]. rewrite Hp, ascii_text_app in H.
    by apply andb_true_iff in H as [_ H]. }
  destruct (trim_leading_suffix (@rev ascii <$> space_encodings) (length l) (rev l)) as [p Hp].
  rewrite <- ascii_text_rev, Hp, ascii_text_app in Hl. by apply andb_true_iff in Hl as [_ Hl].
Qed.

#[export] Hint Rewrite has_prefix_app has_prefix_refl : foci.
#[export] Hint Resolve has_prefix_refl has_prefix_app has_prefix_app_r : foci.

(** ** The order of strings is total *)
Lemma string_le_total a b : string_le a b = false -> string_le b a = true.
Proof.
  revert b. induction a as [|c a IH]; intros [|d b]; cbn; try done.
  destruct (byte_eqb_spec c d) as [->|Hne].
  - rewrite byte_eqb_refl. apply IH.
  - rewrite byte_eqb_ne by done. unfold byte_le. rewrite N.leb_gt, N.leb_le. lia.
Qed.


Lemma string_le_refl a : string_le a a = true.
Proof. induction a as [|c a IH]; cbn; [done|]. by rewrite byte_eqb_refl. Qed.

Lemma string_le_antisym a b : string_le a b = true -> string_le b a = true -> a = b.
Proof.
  revert b. induction a as [|c a IH]; intros [|d b]; cbn; try done.
  destruct (byte_eqb_spec c d) as [->|Hne].
  - rewrite byte_eqb_refl. intros H1 H2. f_equal. by apply IH.
  - rewrite byte_eqb_ne by done. unfold byte_le. rewrite !N.leb_le. intros H1 H2. destruct Hne.
    rewrite <- (ascii_N_embedding c), <- (ascii_N_embedding d). f_equal. lia.
Qed.

Lemma string_le_trans a b c : string_le a b = true -> string_le b c = true -> string_le a c = true.
Proof.
  revert b c. induction a as [|x a IH]; intros [|y b] [|z c]; cbn; try done.
  destruct (byte_eqb_spec x y) as [->|Hxy], (byte_eqb_spec y z) as [->|Hyz]; rewrite ?byte_eqb_refl.
  - apply IH.
  - by rewrite ?(byte_eqb_ne y z).
  - by rewrite ?(byte_eqb_ne x z).
  - unfold byte_le. rewrite !N.leb_le. intros H1 H2. destruct (byte_eqb_spec x z) as [->|Hxz]; [|apply N.leb_le; lia].
    destruct Hyz. rewrite <- (ascii_N_embedding y), <- (ascii_N_embedding z). f_equal. lia.
Qed.

(** ** [sort.Strings] *)
Fixpoint insert_string (s : gostr) (l : list gostr) : list gostr :=
  match l with
  | [] => [s]
  | t :: l => if string_le s t then s :: t :: l else t :: insert_string s l
  end.

Definition sort_strings (l : list gostr) : list gostr := foldr insert_string [] l.

Definition string_lt_eq (a b : gostr) : Prop := string_le a b = true.

Lemma insert_string_perm s l : insert_string s l ≡ₚ s :: l.
Proof. induction l as [|t l IH]; cbn; [done|]. destruct (string_le s t); [done|]. rewrite IH. apply Permutation_swap. Qed.

Lemma sort_strings_perm l : sort_strings l ≡ₚ l.
Proof. induction l as [|s l IH]; cbn; [done|]. by rewrite insert_string_perm, IH. Qed.

Lemma sort_strings_sorted l : StronglySorted string_lt_eq (sort_strings l).
Proof.
  unfold string_lt_eq. induction l as [|s l IH]; cbn [sort_strings foldr]; [constructor|]. fold (sort_strings l).
  induction IH as [|t l' Hs IH' Ht]; cbn [insert_string]; [by repeat constructor|].
  destruct (string_le s t) eqn:E.
  - constructor; [by constructor|]. constructor; [done|]. eapply Forall_impl; [exact Ht|]. intros u. by apply string_le_trans.
  - constructor; [done|]. rewrite insert_string_perm. constructor; [by apply string_le_total|done].
Qed.
