(* ===== verification/GoNum.v ===== *)
(** * Integers, times and their text

    The parts of Go's [strconv] and [time] the stateful packages use: int64
    wrap-around, decimal formatting and parsing, float64 as the IEEE binary64
    of [SpecFloat], and instants as nanoseconds counted from the zero time, so
    that [IsZero] is equality with 0. *)
From Stdlib Require Import Floats.SpecFloat.
From S2P Require Import Prelude.
From stdpp Require Import numbers.
Local Open Scope Z_scope.

(** ** int64 *)

Definition min_int64 : Z := - 2 ^ 63.
Definition max_int64 : Z := 2 ^ 63 - 1.
Definition int64 (n : Z) : Prop := min_int64 <= n <= max_int64.
Definition wrap64 (n : Z) : Z := (n + 2 ^ 63) mod 2 ^ 64 - 2 ^ 63.

Lemma wrap64_id n : int64 n -> wrap64 n = n.
Proof. unfold int64, wrap64, min_int64, max_int64. intros. rewrite Z.mod_small; lia. Qed.

(** ** [strconv.FormatInt] and [strconv.ParseInt], base 10 *)

Definition digit (d : Z) : ascii := ascii_of_N (Z.to_N (48 + d)).
Definition digit_value (c : ascii) : option Z :=
  let n := Z.of_N (N_of_ascii c) in
  if (48 <=? n) && (n <=? 57) then Some (n - 48) else None.

(** The digits of a number below [10^fuel], most significant first. *)
Fixpoint format_digits (fuel : nat) (n : Z) (acc : gostr) : gostr :=
  match fuel with
  | O => acc
  | S fuel =>
      let acc' := digit (n mod 10) :: acc in
      if n <? 10 then acc' else format_digits fuel (n / 10) acc'
  end.

(** Twenty digits are enough for every magnitude up to [2^64]. *)
Definition FormatInt (n : Z) : gostr :=
  if n <? 0 then "-"%char :: format_digits 20 (- n) [] else format_digits 20 n [].

(** [ParseUint] with bit size 64: a value, a range error with the value it
    returns, or a syntax error. *)
Inductive parsed := ParseOk (n : Z) | ParseRange (n : Z) | ParseSyntax.

Definition max_uint64 : Z := 2 ^ 64 - 1.

Fixpoint parse_uint_loop (s : gostr) (n : Z) : parsed :=
  match s with
  | [] => ParseOk n
  | c :: s =>
      match digit_value c with
      | None => ParseSyntax
      | Some d =>
          if max_uint64 / 10 + 1 <=? n then ParseRange max_uint64
          else if max_uint64 <? n * 10 + d then ParseRange max_uint64
          else parse_uint_loop s (n * 10 + d)
      end
  end.

Definition ParseUint (s : gostr) : parsed :=
  match s with [] => ParseSyntax | _ => parse_uint_loop s 0 end.

(** The value [ParseInt] returns and whether its error is nil. *)
Definition parse_signed (neg : bool) (p : parsed) : Z * bool :=
  match p with
  | ParseSyntax => (0, false)
  | ParseOk un | ParseRange un =>
      if negb neg && (2 ^ 63 <=? un) then (2 ^ 63 - 1, false)
      else if neg && (2 ^ 63 <? un) then (- 2 ^ 63, false)
      else (if neg then - un else un, match p with ParseOk _ => true | _ => false end)
  end.

Definition ParseInt (s : gostr) : Z * bool :=
  match s with
  | [] => (0, false)
  | c :: s' =>
      if c =?b "+"%char then parse_signed false (ParseUint s')
      else if c =?b "-"%char then parse_signed true (ParseUint s')
      else parse_signed false (ParseUint s)
  end.

Lemma digit_value_digit d : 0 <= d < 10 -> digit_value (digit d) = Some d.
Proof.
  intros Hd. unfold digit_value, digit. rewrite N_ascii_embedding by lia.
  rewrite Z2N.id by lia.
  destruct (Z.leb_spec 48 (48 + d)); [|lia]. destruct (Z.leb_spec (48 + d) 57); [|lia].
  cbn. f_equal. lia.
Qed.

Lemma digit_value_bound c d : digit_value c = Some d -> 0 <= d < 10.
Proof.
  unfold digit_value. destruct (Z.leb_spec 48 (Z.of_N (N_of_ascii c))); [|done].
  destruct (Z.leb_spec (Z.of_N (N_of_ascii c)) 57); [|done]. cbn. intros [= <-]. lia.
Qed.

(** Reading back the digits of [n] continues the number [m] before them. *)
Lemma parse_format_digits fuel n acc m :
  0 <= m -> 0 <= n < 10 ^ Z.of_nat fuel -> (0 < fuel)%nat ->
  exists k, 0 < k /\ n < k
    /\ (m * k + n <= max_uint64 ->
        parse_uint_loop (format_digits fuel n acc) m = parse_uint_loop acc (m * k + n)).
Proof.
  revert n acc. induction fuel as [|fuel IH]; intros n acc Hm Hn Hf; [lia|].
  cbn [format_digits]. pose proof (Z.mod_pos_bound n 10 ltac:(lia)) as Hmod.
  assert (forall m', 0 <= m' -> m' * 10 + n mod 10 <= max_uint64 ->
    parse_uint_loop (digit (n mod 10) :: acc) m' = parse_uint_loop acc (m' * 10 + n mod 10)) as Hlast.
  { intros m' Hm' Hle. cbn [parse_uint_loop]. rewrite digit_value_digit by lia.
    destruct (Z.leb_spec (max_uint64 / 10 + 1) m') as [Hb|].
    { pose proof (Z.div_mod max_uint64 10 ltac:(lia)).
      pose proof (Z.mod_pos_bound max_uint64 10 ltac:(lia)). lia. }
    destruct (Z.ltb_spec max_uint64 (m' * 10 + n mod 10)); [lia|done]. }
  destruct (Z.ltb_spec n 10) as [Hlt|Hge].
  - exists 10. split_and!; [lia..|]. pose proof (Z.mod_small n 10 ltac:(lia)) as E.
    intros Hle. rewrite Hlast by lia. by rewrite E.
  - assert (0 < fuel)%nat as Hf'.
    { destruct fuel; [|lia]. cbn in Hn. lia. }
    pose proof (Z.div_mod n 10 ltac:(lia)) as Hdm.
    assert (0 <= n / 10 < 10 ^ Z.of_nat fuel) as Hdiv.
    { split; [apply Z.div_pos; lia|]. apply Z.div_lt_upper_bound; [lia|].
      rewrite Nat2Z.inj_succ, Z.pow_succ_r in Hn by lia. lia. }
    destruct (IH (n / 10) (digit (n mod 10) :: acc) Hm Hdiv Hf') as (k & Hk & Hnk & Hp).
    exists (k * 10). split_and!; [lia|lia|]. intros Hle. rewrite Hp by nia.
    rewrite Hlast by nia. f_equal. nia.
Qed.

(** A formatted number begins with a digit or, when negative, with "-". *)
Lemma format_digits_head fuel n acc :
  (0 < fuel)%nat -> 0 <= n -> exists d rest, 0 <= d < 10 /\ format_digits fuel n acc = digit d :: rest.
Proof.
  revert n acc. induction fuel as [|fuel IH]; intros n acc Hf Hn; [lia|]. cbn [format_digits].
  pose proof (Z.mod_pos_bound n 10 ltac:(lia)). destruct (n <? 10) eqn:E; [eauto|].
  destruct fuel as [|fuel]; [cbn; eauto|]. apply IH; [lia|apply Z.div_pos; lia].
Qed.

Lemma ParseUint_format n : 0 <= n <= 2 ^ 63 -> ParseUint (format_digits 20 n []) = ParseOk n.
Proof.
  intros Hn. destruct (parse_format_digits 20 n [] 0) as (k & Hk & Hnk & Hp); [lia| |lia|].
  { change (10 ^ Z.of_nat 20) with 100000000000000000000. lia. }
  destruct (format_digits_head 20 n [] ltac:(lia) ltac:(lia)) as (d & rest & _ & E).
  unfold ParseUint. rewrite E in *. rewrite Hp by (unfold max_uint64; lia). done.
Qed.

Lemma digit_not_sign d : 0 <= d < 10 -> (digit d =?b "+"%char) = false /\ (digit d =?b "-"%char) = false.
Proof.
  intros Hd. assert (d = 0 \/ d = 1 \/ d = 2 \/ d = 3 \/ d = 4 \/ d = 5 \/ d = 6 \/ d = 7
    \/ d = 8 \/ d = 9) as Hc by lia.
  by repeat (destruct Hc as [->|Hc]; [done|]); subst.
Qed.

Lemma ParseInt_FormatInt n : int64 n -> ParseInt (FormatInt n) = (n, true).
Proof.
  unfold int64, min_int64, max_int64. intros Hn. unfold FormatInt.
  destruct (Z.ltb_spec n 0) as [Hneg|Hpos].
  - cbn [ParseInt]. change ("-"%char =?b "+"%char) with false. change ("-"%char =?b "-"%char) with true.
    cbn match. rewrite ParseUint_format by lia. cbn [parse_signed negb andb].
    destruct (Z.ltb_spec (2 ^ 63) (- n)); [lia|]. f_equal. lia.
  - destruct (format_digits_head 20 n [] ltac:(lia) Hpos) as (d & rest & Hd & E).
    pose proof (ParseUint_format n ltac:(lia)) as Hp. rewrite E in *. cbn [ParseInt].
    destruct (digit_not_sign d Hd) as [-> ->]. rewrite Hp. cbn [parse_signed negb andb].
    destruct (Z.leb_spec (2 ^ 63) n); [lia|done].
Qed.

Lemma format_digits_all fuel n acc (P : ascii -> Prop) :
  (forall d, 0 <= d < 10 -> P (digit d)) -> Forall P acc -> Forall P (format_digits fuel n acc).
Proof.
  intros HP. revert n acc. induction fuel as [|fuel IH]; intros n acc Ha; [done|]. cbn [format_digits].
  assert (Forall P (digit (n mod 10) :: acc)) by (constructor; [apply HP, Z.mod_pos_bound; lia|done]).
  destruct (n <? 10); [done|by apply IH].
Qed.

(** ** [time] *)

Abbreviation Time := Z.
Abbreviation Duration := Z.

Definition zero_time : Time := 0.
Definition IsZero (t : Time) : bool := t =? 0.
Definition After (t u : Time) : bool := u <? t.
Definition Before (t u : Time) : bool := t <? u.
Definition TimeAdd (t : Time) (d : Duration) : Time := t + d.
(** [t.Sub(u)] saturates at the ends of int64. *)
Definition TimeSub (t u : Time) : Duration := Z.max min_int64 (Z.min max_int64 (t - u)).

Definition Millisecond : Duration := 1000000.
Definition Second : Duration := 1000 * Millisecond.
Definition Minute : Duration := 60 * Second.
Definition Hour : Duration := 60 * Minute.

(** ** float64 *)

Abbreviation float64 := spec_float.
Definition f_of_Z (n : Z) : float64 := binary_normalize 53 1024 n 0 false.
Definition f_div : float64 -> float64 -> float64 := SFdiv 53 1024.
Definition f_sub : float64 -> float64 -> float64 := SFsub 53 1024.
Definition f_add : float64 -> float64 -> float64 := SFadd 53 1024.
Definition f_mul : float64 -> float64 -> float64 := SFmul 53 1024.
Definition f_ge (a b : float64) : bool := SFleb b a.
Definition f_gt (a b : float64) : bool := SFltb b a.

(** [int(math.Round(f))]: half away from zero. *)
Definition f_round (f : float64) : Z :=
  match f with
  | S754_finite s m e =>
      let n := if 0 <=? e then Zpos m * 2 ^ e else (Zpos m + 2 ^ (- e - 1)) / 2 ^ (- e) in
      if s then - n else n
  | _ => 0
  end.

(** [int(f)]: towards zero. *)
Definition f_trunc (f : float64) : Z :=
  match f with
  | S754_finite s m e =>
      let n := if 0 <=? e then Zpos m * 2 ^ e else Zpos m / 2 ^ (- e) in
      if s then - n else n
  | _ => 0
  end.
