(* ===== verification/Glob.v ===== *)
(** * Glob and command-prefix matching of auto-approve patterns

    Models [matchPattern], [globMatch] and [doGlob] of
    src/internal/delegator/autoapprove/autoapprove.go.  [doGlob] is the
    two-cursor backtracking loop, kept as a step function on the loop's
    variables; the theorems show that it decides the relation [glob_rel] and
    that it stops within [(|str|+1) * (|pattern|+1) + 1] iterations. *)
From S2P Require Import Prelude GoStrings.

(** The loop variables of [doGlob].  [star] is [None] while
    [starPx = starSx = -1] and [Some (starPx, starSx)] afterwards. *)
Record glob_state := GlobState {
  px : nat;
  sx : nat;
  star : option (nat * nat);
}.

(** One iteration of the [for sx < len(str)] loop: the next state, or the
    returned [false]. *)
Definition glob_step (pattern str : gostr) (st : glob_state) : option glob_state :=
  let backtrack :=
    match star st with
    | Some (starPx, starSx) =>
        Some (GlobState (S starPx) (S starSx) (Some (starPx, S starSx)))
    | None => None
    end in
  match pattern !! px st, str !! sx st with
  | Some p, Some c =>
      if p =?b "*"%char then Some (GlobState (S (px st)) (sx st) (Some (px st, sx st)))
      else if (p =?b "?"%char) || (p =?b c) then Some (GlobState (S (px st)) (S (sx st)) (star st))
      else backtrack
  | _, _ => backtrack
  end.

(** The loop that consumes the trailing stars of the pattern. *)
Fixpoint skip_stars (p : gostr) : gostr :=
  match p with
  | c :: p' => if c =?b "*"%char then skip_stars p' else p
  | [] => []
  end.

(** The loop with a bound on its iterations; [None] is an exhausted bound. *)
Fixpoint glob_loop (fuel : nat) (pattern str : gostr) (st : glob_state) : option bool :=
  match fuel with
  | O => None
  | S fuel =>
      if sx st <? length str then
        match glob_step pattern str st with
        | Some st' => glob_loop fuel pattern str st'
        | None => Some false
        end
      else Some (bool_decide (skip_stars (drop (px st) pattern) = []))
  end.

Definition glob_fuel (pattern str : gostr) : nat :=
  S (length str) * S (length pattern) + 1.

Definition doGlob (pattern str : gostr) : option bool :=
  glob_loop (glob_fuel pattern str) pattern str (GlobState 0 0 None).

Definition globMatch (pattern str : gostr) : bool :=
  match doGlob pattern str with Some b => b | None => false end.

Definition matchPattern (pattern str : gostr) : bool :=
  if contains_any "*?" pattern then globMatch pattern str
  else bool_decide (str = pattern) || has_prefix (pattern ++ " ") str.

(** ** The specification: what a glob pattern matches *)
Inductive glob_rel : gostr -> gostr -> Prop :=
| glob_nil : glob_rel [] []
| glob_star p u v : glob_rel p v -> glob_rel ("*"%char :: p) (u ++ v)
| glob_any p c s : glob_rel p s -> glob_rel ("?"%char :: p) (c :: s)
| glob_lit p c s :
    c <> "*"%char -> c <> "?"%char -> glob_rel p s -> glob_rel (c :: p) (c :: s).

(** ** Inversion lemmas *)
Lemma glob_rel_nil s : glob_rel [] s <-> s = [].
Proof. split; [by inversion 1|intros ->; constructor]. Qed.

Lemma glob_rel_star p s :
  glob_rel ("*"%char :: p) s <-> exists k, k <= length s /\ glob_rel p (drop k s).
Proof.
  split.
  - inversion 1; subst; [|congruence]. exists (length u).
    rewrite length_app, drop_app_length. split; [lia|done].
  - intros (k & _ & H). rewrite <- (take_drop k s). by constructor.
Qed.

Lemma glob_rel_char p c s :
  c <> "*"%char ->
  glob_rel (c :: p) s <->
  exists d s', s = d :: s' /\ (c = "?"%char \/ c = d) /\ glob_rel p s'.
Proof.
  intros Hc. split.
  - inversion 1; subst; [congruence|naive_solver..].
  - intros (d & s' & -> & Hd & H).
    destruct (decide (c = "?"%char)) as [->|]; [by constructor|].
    destruct Hd as [?| ->]; [done|]. by constructor.
Qed.

Lemma skip_stars_spec p : skip_stars p = [] <-> glob_rel p [].
Proof.
  induction p as [|c p IH]; simpl; [split; [constructor|done]|].
  destruct (byte_eqb_spec c "*"%char) as [->|Hc].
  - rewrite IH, glob_rel_star. split.
    + intros H. exists 0. by split; [lia|].
    + intros (k & _ & H). by rewrite drop_nil in H.
  - rewrite glob_rel_char by done. split; [done|]. by intros (? & ? & ? & _).
Qed.

(** ** The loop invariant

    The text between the last star and the pattern cursor matched one byte
    for one byte: [advance pattern str px sx] says that the remaining problem
    at the cursors is equivalent to the one right after the star. *)
Definition glob_from (pattern str : gostr) (i j : nat) : Prop :=
  j <= length str /\ glob_rel (drop i pattern) (drop j str).

(** The star-free segment of the pattern between positions [i] and [i + n]. *)
Definition seg_ok (pattern : gostr) (i n : nat) : Prop :=
  forall k, k < n -> exists c, pattern !! (i + k) = Some c /\ c <> "*"%char.

Record glob_inv (pattern str : gostr) (st : glob_state) : Prop := GlobInv {
  inv_px : px st <= length pattern;
  inv_sx : sx st <= length str;
  inv_goal :
    match star st with
    | None => glob_rel pattern str <-> glob_from pattern str (px st) (sx st)
    | Some (p0, s0) =>
        (exists n, px st = S p0 + n /\ sx st = s0 + n /\ seg_ok pattern (S p0) n)
        /\ (glob_rel pattern str <-> exists k, s0 <= k /\ glob_from pattern str (S p0) k)
        /\ (glob_from pattern str (S p0) s0 <-> glob_from pattern str (px st) (sx st))
    end;
}.

Lemma glob_from_star pattern str i j :
  pattern !! i = Some "*"%char -> j <= length str ->
  glob_from pattern str i j <-> exists k, j <= k /\ glob_from pattern str (S i) k.
Proof.
  intros Hi Hj. unfold glob_from. erewrite drop_S by done. rewrite glob_rel_star.
  setoid_rewrite length_drop. setoid_rewrite drop_drop. split.
  - intros (_ & k & Hk & H). exists (j + k). split_and!; [lia|lia|done].
  - intros (k & Hjk & Hk & H). split; [done|]. exists (k - j).
    split; [lia|]. by replace (j + (k - j)) with k by lia.
Qed.

Lemma glob_from_char pattern str i j p c :
  pattern !! i = Some p -> p <> "*"%char -> str !! j = Some c ->
  glob_from pattern str i j <->
  (p = "?"%char \/ p = c) /\ glob_from pattern str (S i) (S j).
Proof.
  intros Hi Hp Hj. unfold glob_from.
  rewrite (drop_S pattern p i), (drop_S str c j) by done.
  rewrite glob_rel_char by done. apply lookup_lt_Some in Hj. split.
  - intros (_ & d & s' & [= <- <-] & Hd & H). split_and!; [done|lia|done].
  - intros (Hd & _ & H). split; [lia|]. naive_solver.
Qed.

(** Past a star-free segment of length [n], at least [n] bytes are consumed. *)
Lemma glob_from_seg pattern str i j n :
  seg_ok pattern i n -> glob_from pattern str i j ->
  glob_from pattern str (i + n) (j + n).
Proof.
  revert i j. induction n as [|n IH]; intros i j Hseg H.
  { by rewrite !Nat.add_0_r. }
  destruct (Hseg 0) as (c & Hc & Hne); [lia|]. rewrite Nat.add_0_r in Hc.
  destruct H as [Hj H]. rewrite (drop_S pattern c i) in H by done.
  apply glob_rel_char in H as (d & s' & Hs & Hd & H); [|done].
  assert (str !! j = Some d) as Hl.
  { rewrite <- (Nat.add_0_r j), <- lookup_drop, Hs. done. }
  replace (i + S n) with (S i + n) by lia. replace (j + S n) with (S j + n) by lia.
  apply IH.
  - intros k Hk. destruct (Hseg (S k)) as (c' & ? & ?); [lia|].
    exists c'. split; [|done]. by replace (S i + k) with (i + S k) by lia.
  - split; [by apply lookup_lt_Some in Hl|].
    rewrite (drop_S str d j) in Hs by done. by simplify_eq.
Qed.

Lemma seg_ok_S pattern i n c :
  seg_ok pattern i n -> pattern !! (i + n) = Some c -> c <> "*"%char ->
  seg_ok pattern i (S n).
Proof.
  intros H Hc Hne k Hk. destruct (decide (k = n)) as [->|]; [by exists c|].
  apply H. lia.
Qed.

Lemma glob_inv_init pattern str : glob_inv pattern str (GlobState 0 0 None).
Proof.
  split; simpl; [lia..|]. unfold glob_from. rewrite !drop_0.
  split; [|tauto]. intros H. split; [lia|done].
Qed.

(** A star extends the match to every later position of the string. *)
Lemma glob_from_star_mono pattern str i j k :
  pattern !! i = Some "*"%char -> j <= k ->
  glob_from pattern str i k -> glob_from pattern str i j.
Proof.
  intros Hi Hjk H. assert (k <= length str) by apply H.
  apply glob_from_star in H as (k' & Hk & H); [|done..].
  apply glob_from_star; [done|lia|]. exists k'. split; [lia|done].
Qed.

(** Whether the code took the last star at [s0] or later, the whole problem is
    the one at the cursors once the cursor stands on a star or at the end. *)
Lemma glob_inv_whole pattern str st :
  glob_inv pattern str st -> pattern !! px st = Some "*"%char ->
  glob_rel pattern str <-> glob_from pattern str (px st) (sx st).
Proof.
  intros [_ _ Hg] Hp. destruct (star st) as [[p0 s0]|]; [|done].
  destruct Hg as ((n & Hpx & Hsx & Hseg) & -> & Hcur). split.
  - intros (k & Hk & H). apply (glob_from_seg _ _ _ _ n) in H; [|done].
    rewrite <- Hpx in H. eapply glob_from_star_mono; [done| |done]. lia.
  - intros H. exists s0. split; [done|]. by apply Hcur.
Qed.

Lemma glob_inv_star pattern str st :
  glob_inv pattern str st -> pattern !! px st = Some "*"%char ->
  glob_inv pattern str (GlobState (S (px st)) (sx st) (Some (px st, sx st))).
Proof.
  intros Hinv Hp. pose proof (inv_sx _ _ _ Hinv).
  split; simpl; [by apply lookup_lt_Some in Hp|done|].
  split_and!; [|..|done].
  { exists 0. split_and!; [lia..|]. intros k Hk. lia. }
  rewrite (glob_inv_whole pattern str st) by done. by apply glob_from_star.
Qed.

(** Matching one byte. *)
Lemma glob_inv_match pattern str st p c :
  glob_inv pattern str st -> pattern !! px st = Some p -> p <> "*"%char ->
  str !! sx st = Some c -> p = "?"%char \/ p = c ->
  glob_inv pattern str (GlobState (S (px st)) (S (sx st)) (star st)).
Proof.
  intros [Hpx Hsx Hg] Hp Hne Hc Hm.
  pose proof (glob_from_char pattern str _ _ _ _ Hp Hne Hc) as Hone.
  split; simpl; [by apply lookup_lt_Some in Hp|by apply lookup_lt_Some in Hc|].
  destruct (star st) as [[p0 s0]|]; [|by rewrite Hg, Hone; tauto].
  destruct Hg as ((n & Hpx' & Hsx' & Hseg) & Hw & Hcur). split_and!; [|done|].
  - exists (S n). split_and!; [lia..|].
    eapply seg_ok_S; [done|by rewrite <- Hpx'|done].
  - rewrite Hcur, Hone. tauto.
Qed.

(** Why the cursors cannot be extended to a match. *)
Definition mismatch (pattern str : gostr) (st : glob_state) : Prop :=
  match pattern !! px st, str !! sx st with
  | Some p, Some c => p <> "*"%char /\ p <> "?"%char /\ p <> c
  | None, Some _ => True
  | _, None => False
  end.

Lemma mismatch_from pattern str st :
  mismatch pattern str st -> ~ glob_from pattern str (px st) (sx st).
Proof.
  unfold mismatch. intros Hm Hf.
  destruct (str !! sx st) as [c|] eqn:Hc; [|by destruct (pattern !! px st)].
  destruct (pattern !! px st) as [p|] eqn:Hp.
  - eapply glob_from_char in Hf; [|done|naive_solver|done]. naive_solver.
  - destruct Hf as [_ Hf]. apply lookup_ge_None in Hp.
    rewrite drop_ge in Hf by done. apply (drop_S _ _ _) in Hc.
    rewrite Hc in Hf. inversion Hf.
Qed.

(** Backtracking to the last star. *)
Lemma glob_inv_backtrack pattern str st p0 s0 :
  glob_inv pattern str st -> star st = Some (p0, s0) ->
  sx st < length str -> mismatch pattern str st ->
  glob_inv pattern str (GlobState (S p0) (S s0) (Some (p0, S s0))).
Proof.
  intros [Hpx Hsx Hg] Hst Hlt Hm. rewrite Hst in Hg.
  destruct Hg as ((n & Hpx' & Hsx' & Hseg) & Hw & Hcur).
  split; simpl; [lia..|]. split_and!; [|..|done].
  { exists 0. split_and!; [lia..|]. intros k Hk. lia. }
  rewrite Hw. split.
  - intros (k & Hk & H). exists k. split; [|done].
    destruct (decide (k = s0)) as [->|]; [|lia].
    exfalso. by apply (mismatch_from _ _ _ Hm), Hcur.
  - intros (k & Hk & H). exists k. split; [lia|done].
Qed.

Lemma glob_step_Some pattern str st st' :
  sx st < length str -> glob_inv pattern str st ->
  glob_step pattern str st = Some st' -> glob_inv pattern str st'.
Proof.
  intros Hlt Hinv. destruct (lookup_lt_is_Some_2 _ _ Hlt) as [c Hc].
  unfold glob_step. rewrite Hc.
  assert (mismatch pattern str st ->
    match star st with
    | Some (p0, s0) => Some (GlobState (S p0) (S s0) (Some (p0, S s0)))
    | None => None
    end = Some st' -> glob_inv pattern str st') as Hback.
  { intros Hm. destruct (star st) as [[p0 s0]|] eqn:Hst; [|done].
    intros [= <-]. by eapply glob_inv_backtrack. }
  unfold mismatch in Hback. rewrite Hc in Hback.
  destruct (pattern !! px st) as [p|] eqn:Hp; [|by apply Hback].
  destruct (byte_eqb_spec p "*"%char) as [->|Hne].
  { intros [= <-]. by apply glob_inv_star. }
  destruct (byte_eqb_spec p "?"%char); simpl.
  { intros [= <-]. eapply glob_inv_match; eauto. }
  destruct (byte_eqb_spec p c); [|by apply Hback].
  intros [= <-]. eapply glob_inv_match; eauto.
Qed.

Lemma glob_step_None pattern str st :
  sx st < length str -> glob_inv pattern str st ->
  glob_step pattern str st = None -> ~ glob_rel pattern str.
Proof.
  intros Hlt [_ _ Hg]. destruct (lookup_lt_is_Some_2 _ _ Hlt) as [c Hc].
  unfold glob_step. rewrite Hc. pose proof (mismatch_from pattern str st) as Hm.
  unfold mismatch in Hm. rewrite Hc in Hm.
  destruct (star st) as [[p0 s0]|].
  { destruct (pattern !! px st); [repeat dbool|]; done. }
  rewrite Hg. destruct (pattern !! px st) as [p|] eqn:Hp; [|tauto].
  destruct (byte_eqb_spec p "*"%char); [done|].
  destruct (byte_eqb_spec p "?"%char); [done|].
  destruct (byte_eqb_spec p c); [done|]. tauto.
Qed.

Lemma glob_inv_end pattern str st :
  glob_inv pattern str st -> length str <= sx st ->
  glob_rel pattern str <-> skip_stars (drop (px st) pattern) = [].
Proof.
  intros [Hpx Hsx Hg] Hend. rewrite skip_stars_spec.
  assert (sx st = length str) as Hs by lia.
  transitivity (glob_from pattern str (px st) (sx st)).
  2:{ unfold glob_from. rewrite Hs, drop_all. split; [tauto|]. split; [lia|done]. }
  destruct (star st) as [[p0 s0]|]; [|done].
  destruct Hg as ((n & Hpx' & Hsx' & Hseg) & -> & Hcur). rewrite <- Hcur. split.
  - intros (k & Hk & H). assert (k = s0) as ->; [|done].
    apply (glob_from_seg _ _ _ _ n) in H; [|done]. destruct H. lia.
  - intros H. by exists s0.
Qed.

(** ** Termination: the measure of the loop

    A backtrack advances the string position of the last star and rewinds the
    pattern cursor by at most [length pattern]; every other step advances the
    pattern cursor. *)
Definition star_pos (st : glob_state) : nat :=
  match star st with Some (_, s0) => s0 | None => 0 end.

Definition glob_measure (pattern str : gostr) (st : glob_state) : nat :=
  (length str - star_pos st) * S (length pattern) + (length pattern - px st).

Record glob_bounds (pattern str : gostr) (st : glob_state) : Prop := GlobBounds {
  bound_px : px st <= length pattern;
  bound_star : star_pos st <= sx st;
  bound_star_px : match star st with Some (p0, _) => p0 < length pattern | None => True end;
}.

Lemma glob_step_measure pattern str st st' :
  sx st < length str -> glob_bounds pattern str st ->
  glob_step pattern str st = Some st' ->
  glob_bounds pattern str st' /\ glob_measure pattern str st' < glob_measure pattern str st.
Proof.
  intros Hlt [Hpx Hst Hsp]. destruct (lookup_lt_is_Some_2 _ _ Hlt) as [c Hc].
  unfold glob_step. rewrite Hc.
  assert (match star st with
    | Some (p0, s0) => Some (GlobState (S p0) (S s0) (Some (p0, S s0)))
    | None => None
    end = Some st' ->
    glob_bounds pattern str st' /\ glob_measure pattern str st' < glob_measure pattern str st)
    as Hback.
  { unfold star_pos in *. destruct (star st) as [[p0 s0]|] eqn:E; [|done].
    simpl in *. intros [= <-]. split; [by split; unfold star_pos; simpl; lia|].
    unfold glob_measure, star_pos. rewrite E. simpl.
    replace (length str - s0) with (S (length str - S s0)) by lia. lia. }
  destruct (pattern !! px st) as [p|] eqn:Hp; [|done].
  apply lookup_lt_Some in Hp.
  destruct (p =?b "*"%char); [|destruct (_ || _); [|done]]; intros [= <-].
  - split; [by split; unfold star_pos; simpl; lia|]. unfold glob_measure, star_pos in *. simpl. nia.
  - split; [|unfold glob_measure, star_pos; simpl; lia].
    split; unfold star_pos in *; simpl; [lia|lia|done].
Qed.

Lemma glob_loop_spec pattern str fuel st :
  glob_measure pattern str st < fuel ->
  glob_bounds pattern str st -> glob_inv pattern str st ->
  exists b, glob_loop fuel pattern str st = Some b /\ (b = true <-> glob_rel pattern str).
Proof.
  revert st. induction fuel as [|fuel IH]; intros st Hf Hb Hinv; [lia|]. simpl.
  destruct (Nat.ltb_spec (sx st) (length str)) as [Hlt|Hge].
  - destruct (glob_step pattern str st) as [st'|] eqn:Est.
    + destruct (glob_step_measure pattern str st st') as [Hb' Hm]; [done..|].
      apply IH; [lia|done|]. by eapply glob_step_Some.
    + exists false. split; [done|]. split; [done|].
      intros H. by apply glob_step_None in Est.
  - eexists. split; [done|]. rewrite bool_decide_eq_true.
    symmetry. by apply glob_inv_end.
Qed.

Lemma glob_start pattern str :
  glob_measure pattern str (GlobState 0 0 None) < glob_fuel pattern str
  /\ glob_bounds pattern str (GlobState 0 0 None)
  /\ glob_inv pattern str (GlobState 0 0 None).
Proof.
  split_and!; [|by split; unfold star_pos; simpl; lia|apply glob_inv_init].
  unfold glob_measure, glob_fuel, star_pos. simpl. nia.
Qed.

Lemma globMatch_iff pattern str : globMatch pattern str = true <-> glob_rel pattern str.
Proof.
  unfold globMatch, doGlob. destruct (glob_start pattern str) as (Hm & Hb & Hi).
  destruct (glob_loop_spec _ _ _ _ Hm Hb Hi) as (b & -> & Hr). done.
Qed.

Lemma contains_any_spec cs s :
  contains_any cs s = true <-> exists c, c ∈ s /\ c ∈ cs.
Proof.
  unfold contains_any. rewrite existsb_exists.
  setoid_rewrite mem_byte_spec. setoid_rewrite list_elem_of_In. tauto.
Qed.

Lemma prefix_word_spec pattern str :
  bool_decide (str = pattern) || has_prefix (pattern ++ " ") str = true <->
  str = pattern \/ exists t, str = pattern ++ " " ++ t.
Proof.
  rewrite orb_true_iff, bool_decide_eq_true, has_prefix_spec.
  by setoid_rewrite <- app_assoc.
Qed.

(** ** Properties *)

(** [doGlob] returns within [(|str|+1)(|pattern|+1)+1] iterations of its
    loop, and returns true exactly for the strings the pattern matches, where
    a star stands for any byte sequence and a question mark for one byte. *)
Theorem doGlob_correct pattern str :
  exists b, doGlob pattern str = Some b /\ (b = true <-> glob_rel pattern str).
Proof.
  destruct (glob_start pattern str) as (Hm & Hb & Hi).
  by apply glob_loop_spec.
Qed.

(** A pattern with [*] or [?] is matched as a glob; any other pattern
    matches the string equal to it and the strings that continue it after a
    space, and nothing else (so "git log" does not approve "git logger"). *)
Theorem matchPattern_correct pattern str :
  matchPattern pattern str = true <->
  if contains_any "*?" pattern then glob_rel pattern str
  else str = pattern \/ exists t, str = pattern ++ " " ++ t.
Proof.
  unfold matchPattern. destruct (contains_any "*?" pattern).
  - apply globMatch_iff.
  - apply prefix_word_spec.
Qed.
