(* ===== verification/ShellScan.v ===== *)
(** * The shell-word scanner

    Models the quoting model of
    src/internal/delegator/autoapprove/autoapprove.go: [shellWord],
    [wordFacts] and its operations, [decodeAnsiC], [quotedSubstLive],
    [indexUnescapedQuote], [scanShellWords] and the token views over it. *)
From S2P Require Import Prelude GoStrings Glob.

(** ** Data *)

Record shellWord := ShellWord {
  w_text : gostr;
  w_visible : gostr;
  w_firstLiveGlob : bool;
  w_hasLiveGlob : bool;
  w_hasLiveGlobExact : bool;
  w_hasLiveBrace : bool;
  w_hasLiveSubst : bool;
}.

Definition empty_word : shellWord := ShellWord [] [] false false false false false.

Definition canYieldFlag (w : shellWord) : bool :=
  w_firstLiveGlob w
  || match w_visible w with
     | c :: _ => (c =?b "-"%char) && w_hasLiveGlob w
     | [] => false
     end.

(** The accumulator of one word; [f_split] are the words already completed by
    unquoted whitespace in resolved values. *)
Record wordFacts := WordFacts {
  f_visible : gostr;
  f_split : list shellWord;
  f_firstLiveGlob : bool;
  f_hasLiveGlob : bool;
  f_hasLiveGlobExact : bool;
  f_hasLiveBrace : bool;
  f_hasLiveSubst : bool;
  f_braceDepth : nat;
  f_braceSep : bool;
  f_dotRun : nat;
  f_globBracket : bool;
}.

Definition no_facts : wordFacts :=
  WordFacts [] [] false false false false false 0 false 0 false.

(** Field updates. *)
Definition set_dotRun (n : nat) (f : wordFacts) : wordFacts :=
  WordFacts (f_visible f) (f_split f) (f_firstLiveGlob f) (f_hasLiveGlob f)
    (f_hasLiveGlobExact f) (f_hasLiveBrace f) (f_hasLiveSubst f)
    (f_braceDepth f) (f_braceSep f) n (f_globBracket f).
Definition set_glob (live exact bracket : bool) (f : wordFacts) : wordFacts :=
  WordFacts (f_visible f) (f_split f) (f_firstLiveGlob f) live exact
    (f_hasLiveBrace f) (f_hasLiveSubst f) (f_braceDepth f) (f_braceSep f)
    (f_dotRun f) bracket.
Definition set_brace (live : bool) (depth : nat) (sep : bool) (f : wordFacts) : wordFacts :=
  WordFacts (f_visible f) (f_split f) (f_firstLiveGlob f) (f_hasLiveGlob f)
    (f_hasLiveGlobExact f) live (f_hasLiveSubst f) depth sep (f_dotRun f)
    (f_globBracket f).
Definition set_visible (v : gostr) (f : wordFacts) : wordFacts :=
  WordFacts v (f_split f) (f_firstLiveGlob f) (f_hasLiveGlob f)
    (f_hasLiveGlobExact f) (f_hasLiveBrace f) (f_hasLiveSubst f)
    (f_braceDepth f) (f_braceSep f) (f_dotRun f) (f_globBracket f).
Definition set_firstLiveGlob (b : bool) (f : wordFacts) : wordFacts :=
  WordFacts (f_visible f) (f_split f) b (f_hasLiveGlob f)
    (f_hasLiveGlobExact f) (f_hasLiveBrace f) (f_hasLiveSubst f)
    (f_braceDepth f) (f_braceSep f) (f_dotRun f) (f_globBracket f).

(** ** Operations of [wordFacts] *)

Definition noteSubst (f : wordFacts) : wordFacts :=
  WordFacts (f_visible f) (f_split f) (f_firstLiveGlob f) (f_hasLiveGlob f)
    (f_hasLiveGlobExact f) (f_hasLiveBrace f) true
    (f_braceDepth f) (f_braceSep f) (f_dotRun f) (f_globBracket f).

Definition current (f : wordFacts) : shellWord :=
  ShellWord [] (f_visible f) (f_firstLiveGlob f) (f_hasLiveGlob f)
    (f_hasLiveGlobExact f) (f_hasLiveBrace f) (f_hasLiveSubst f).

Definition resetCurrent (f : wordFacts) : wordFacts :=
  WordFacts [] (f_split f) false false false false false 0 false 0 false.

Definition finishWord (f : wordFacts) : wordFacts :=
  resetCurrent
    (WordFacts (f_visible f) (f_split f ++ [current f]) (f_firstLiveGlob f)
       (f_hasLiveGlob f) (f_hasLiveGlobExact f) (f_hasLiveBrace f)
       (f_hasLiveSubst f) (f_braceDepth f) (f_braceSep f) (f_dotRun f)
       (f_globBracket f)).

Definition reset (f : wordFacts) : wordFacts :=
  let f := resetCurrent f in
  WordFacts (f_visible f) [] (f_firstLiveGlob f) (f_hasLiveGlob f)
    (f_hasLiveGlobExact f) (f_hasLiveBrace f) (f_hasLiveSubst f)
    (f_braceDepth f) (f_braceSep f) (f_dotRun f) (f_globBracket f).

(** [take] of the source: the words held, and the cleared accumulator. *)
Definition takeWords (f : wordFacts) : list shellWord * wordFacts :=
  let f := if bool_decide (f_visible f = []) then f else finishWord f in
  (f_split f,
   WordFacts (f_visible f) [] (f_firstLiveGlob f) (f_hasLiveGlob f)
     (f_hasLiveGlobExact f) (f_hasLiveBrace f) (f_hasLiveSubst f)
     (f_braceDepth f) (f_braceSep f) (f_dotRun f) (f_globBracket f)).

Definition addQuoted (s : gostr) (f : wordFacts) : wordFacts :=
  set_dotRun 0 (set_visible (f_visible f ++ s) f).

(** The [switch] of [addLiveByte] after the whitespace case. *)
Definition live_facts (ch : ascii) (f : wordFacts) : wordFacts :=
  match ch with
  | "*"%char | "?"%char => set_glob true true (f_globBracket f) f
  | "["%char => set_glob true (f_hasLiveGlobExact f) true f
  | "]"%char =>
      if f_globBracket f then set_glob (f_hasLiveGlob f) true false f else f
  | "{"%char =>
      set_brace (f_hasLiveBrace f) (S (f_braceDepth f))
        (if f_braceDepth f =? 0 then false else f_braceSep f) f
  | "}"%char =>
      match f_braceDepth f with
      | O => f
      | S d =>
          set_brace (if (d =? 0) && f_braceSep f then true else f_hasLiveBrace f)
            d (f_braceSep f) f
      end
  | ","%char =>
      if f_braceDepth f =? 0 then f
      else set_brace (f_hasLiveBrace f) (f_braceDepth f) true f
  | "."%char =>
      let f := set_dotRun (S (f_dotRun f)) f in
      if (2 <=? f_dotRun f) && negb (f_braceDepth f =? 0)
      then set_brace (f_hasLiveBrace f) (f_braceDepth f) true f else f
  | _ => f
  end.

Definition addLiveByte (ch : ascii) (f : wordFacts) : wordFacts :=
  if (ch =?b " "%char) || (ch =?b "009"%char) then
    if bool_decide (f_visible f = []) then f else finishWord f
  else
    let f := live_facts ch f in
    let f := if ch =?b "."%char then f else set_dotRun 0 f in
    let f := set_visible (f_visible f ++ [ch]) f in
    if f_hasLiveGlob f && (length (f_visible f) =? 1)
    then set_firstLiveGlob true f else f.

Definition addLive (s : gostr) (f : wordFacts) : wordFacts :=
  fold_left (fun f ch => addLiveByte ch f) s f.

(** The loop of [addLit]; [run] is [s[last:i]]. *)
Fixpoint addLit_loop (run s : gostr) (f : wordFacts) : wordFacts :=
  match s with
  | [] => addLive run f
  | "\"%char :: [] => addLive (run ++ ["\"%char]) f
  | "\"%char :: x :: s => addLit_loop [] s (addQuoted [x] (addLive run f))
  | c :: s => addLit_loop (run ++ [c]) s f
  end.

Definition addLit (s : gostr) (f : wordFacts) : wordFacts := addLit_loop [] s f.

(** [litUnescaped]: the value-side twin of [addLit]. *)
Fixpoint litUnescaped_loop (s : gostr) : gostr :=
  match s with
  | [] => []
  | "\"%char :: x :: s => x :: litUnescaped_loop s
  | c :: s => c :: litUnescaped_loop s
  end.

Definition litUnescaped (s : gostr) : gostr :=
  if contains "\" s then litUnescaped_loop s else s.

(** ** Runes *)

Definition byte_of_N (n : N) : ascii := ascii_of_N n.

(** [utf8.AppendRune]: surrogates and values past U+10FFFF become U+FFFD. *)
Definition encode_rune (v : N) : gostr :=
  let v := if (0xD800 <=? v)%N && (v <=? 0xDFFF)%N || (0x10FFFF <? v)%N
           then 0xFFFD%N else v in
  byte_of_N <$>
    (if (v <? 0x80)%N then [v]
     else if (v <? 0x800)%N then [0xC0 + v / 64; 0x80 + v mod 64]
     else if (v <? 0x10000)%N then
       [0xE0 + v / 4096; 0x80 + v / 64 mod 64; 0x80 + v mod 64]
     else
       [0xF0 + v / 262144; 0x80 + v / 4096 mod 64; 0x80 + v / 64 mod 64;
        0x80 + v mod 64])%N.

(** Go's conversion [string(b)] of a byte: the UTF-8 encoding of U+00b. *)
Definition string_of_byte (c : ascii) : gostr := encode_rune (N_of_ascii c).

(** ** [decodeAnsiC] *)

Definition isASCIILetter (c : ascii) : bool := byte_in "a" "z" c || byte_in "A" "Z" c.
Definition is_digit (c : ascii) : bool := byte_in "0" "9" c.
Definition is_octal (c : ascii) : bool := byte_in "0" "7" c.
Definition isHexDigit (c : ascii) : bool :=
  is_digit c || byte_in "a" "f" c || byte_in "A" "F" c.

(** The value of a digit accepted by [isHexDigit]. *)
Definition hex_value (c : ascii) : N :=
  let n := N_of_ascii c in
  if is_digit c then (n - 48)%N
  else if byte_in "a" "f" c then (n - 87)%N else (n - 55)%N.

(** [strconv.ParseUint] of a string of digits of the base. *)
Definition parse_digits (radix : N) (s : gostr) : N :=
  fold_left (fun acc c => acc * radix + hex_value c)%N s 0%N.

(** The longest prefix of at most [n] bytes that satisfy [P]. *)
Fixpoint take_while (P : ascii -> bool) (n : nat) (s : gostr) : gostr :=
  match n, s with
  | S n, c :: s => if P c then c :: take_while P n s else []
  | _, _ => []
  end.

(** [\u] and [\U]: exactly [width] hexadecimal digits of a valid rune. *)
Definition decode_unicode (width : nat) (s : gostr) : option (gostr * gostr) :=
  if length s <? width then None
  else
    let v := parse_digits 16 (take width s) in
    if forallb isHexDigit (take width s) && (v <=? 0x10FFFF)%N
    then Some (encode_rune v, drop width s) else None.

(** [\x]: one or two hexadecimal digits. *)
Definition decode_hex (s : gostr) : option (gostr * gostr) :=
  match take_while isHexDigit 2 s with
  | [] => None
  | ds => Some ([byte_of_N (parse_digits 16 ds)], drop (length ds) s)
  end.

(** [\c] and a letter: a control character. *)
Definition decode_control (s : gostr) : option (gostr * gostr) :=
  match s with
  | x :: s =>
      if isASCIILetter x
      then Some ([byte_of_N (N.land (N_of_ascii x) 0x1f)], s) else None
  | [] => None
  end.

(** Octal: up to three digits, or [0] and up to three more; [e] is the first. *)
Definition decode_octal (e : ascii) (s : gostr) : option (gostr * gostr) :=
  let ds := take_while is_octal (if e =?b "0"%char then 4 else 3) (e :: s) in
  let v := parse_digits 8 ds in
  if (0xff <? v)%N then None
  else Some ([byte_of_N v], drop (length ds) (e :: s)).

(** The escape sequence [e] after a backslash, [s] being the text after it:
    the bytes it stands for and the rest of the string; [None] where the code
    returns [false]. *)
Definition decode_escape (e : ascii) (s : gostr) : option (gostr * gostr) :=
  match e with
  | "\"%char | "'"%char | "034"%char | "?"%char => Some ([e], s)
  | "a"%char => Some (["007"%char], s)
  | "b"%char => Some (["008"%char], s)
  | "e"%char | "E"%char => Some (["027"%char], s)
  | "f"%char => Some (["012"%char], s)
  | "n"%char => Some (["010"%char], s)
  | "r"%char => Some (["013"%char], s)
  | "t"%char => Some (["009"%char], s)
  | "v"%char => Some (["011"%char], s)
  | "c"%char => decode_control s
  | "x"%char => decode_hex s
  | "u"%char => decode_unicode 4 s
  | "U"%char => decode_unicode 8 s
  | _ => if is_octal e then decode_octal e s else Some (["\"%char; e], s)
  end.

(** The loop of [decodeAnsiC], with a bound on its iterations. *)
Fixpoint decode_loop (fuel : nat) (s acc : gostr) : option gostr :=
  match fuel with
  | O => None
  | S fuel =>
      match s with
      | [] => Some acc
      | "\"%char :: s =>
          match s with
          | [] => None
          | e :: s =>
              match decode_escape e s with
              | Some (out, s) => decode_loop fuel s (acc ++ out)
              | None => None
              end
          end
      | c :: s => decode_loop fuel s (acc ++ [c])
      end
  end.

Definition decodeAnsiC (s : gostr) : option gostr := decode_loop (S (length s)) s [].

(** ** [quotedSubstLive] and [indexUnescapedQuote] *)

Fixpoint quotedSubstLive (content : gostr) : bool :=
  match content with
  | [] => false
  | "\"%char :: [] => false
  | "\"%char :: _ :: s => quotedSubstLive s
  | "`"%char :: _ => true
  | "$"%char :: s =>
      match s with "("%char :: _ => true | _ => quotedSubstLive s end
  | _ :: s => quotedSubstLive s
  end.

(** The loop of [indexUnescapedQuote] from its start position. *)
Fixpoint quote_at (s : gostr) (quote : ascii) : option nat :=
  match s with
  | [] => None
  | c :: s =>
      if (c =?b "\"%char) && (quote =?b "034"%char) then
        match s with
        | [] => None
        | _ :: s => (fun n => S (S n)) <$> quote_at s quote
        end
      else if c =?b quote then Some 0
      else S <$> quote_at s quote
  end.

Definition indexUnescapedQuote (s : gostr) (start : nat) (quote : ascii) : option nat :=
  Nat.add start <$> quote_at (drop start s) quote.

(** ** [scanShellWords] *)

Record scan_state := ScanState {
  s_words : list shellWord;
  s_text : gostr;
  s_facts : wordFacts;
}.

Definition flush (st : scan_state) : scan_state :=
  ScanState
    (if bool_decide (s_text st = []) then s_words st
     else
       let w := current (s_facts st) in
       s_words st
         ++ [ShellWord (s_text st) (w_visible w) (w_firstLiveGlob w)
               (w_hasLiveGlob w) (w_hasLiveGlobExact w) (w_hasLiveBrace w)
               (w_hasLiveSubst w)])
    [] (reset (s_facts st)).

Definition add_text (t : gostr) (f : wordFacts -> wordFacts) (st : scan_state) : scan_state :=
  ScanState (s_words st) (s_text st ++ t) (f (s_facts st)).

Definition subst_if (b : bool) (f : wordFacts) : wordFacts :=
  if b then noteSubst f else f.

(** A [$'...'] or [$"..."] run; [rest] is [cmd[i+2:]]. *)
Definition scan_dollar_quote (quote : ascii) (rest : gostr) (st : scan_state)
  : gostr * scan_state :=
  match indexUnescapedQuote rest 0 quote with
  | None =>
      ([], add_text ("$"%char :: quote :: rest)
             (fun f => addQuoted rest (noteSubst f)) st)
  | Some e =>
      let content := take e rest in
      (drop (S e) rest,
       add_text ("$"%char :: quote :: content ++ [quote])
         (fun f =>
            if quote =?b "'"%char then
              match decodeAnsiC content with
              | Some decoded => addQuoted decoded f
              | None => addQuoted content (noteSubst f)
              end
            else subst_if (quotedSubstLive content) (addQuoted content f)) st)
  end.

(** A quoted run; [rest] is [cmd[i+1:]]. *)
Definition scan_quote (quote : ascii) (rest : gostr) (st : scan_state)
  : gostr * scan_state :=
  let finish content :=
    fun f =>
      subst_if ((quote =?b "034"%char) && quotedSubstLive content)
        (addQuoted content f) in
  match indexUnescapedQuote rest 0 quote with
  | None => ([], add_text (quote :: rest) (finish rest) st)
  | Some e =>
      let content := take e rest in
      (drop (S e) rest, add_text (quote :: content ++ [quote]) (finish content) st)
  end.

Definition is_quote (c : ascii) : bool := (c =?b "'"%char) || (c =?b "034"%char).

Definition next_is (P : ascii -> bool) (s : gostr) : bool :=
  match s with c :: _ => P c | [] => false end.

(** One iteration of the scanner's loop at the byte [ch], [rest] being the
    text after it: the text left to scan and the new state. *)
Definition scan_step (ch : ascii) (rest : gostr) (st : scan_state) : gostr * scan_state :=
  if (ch =?b " "%char) || (ch =?b "009"%char) then (rest, flush st)
  else if (ch =?b "$"%char) && next_is is_quote rest then
    match rest with
    | q :: rest => scan_dollar_quote q rest st
    | [] => (rest, st)
    end
  else if is_quote ch then scan_quote ch rest st
  else if (ch =?b "\"%char) && next_is (fun _ => true) rest then
    match rest with
    | x :: rest => (rest, add_text [x] (addQuoted (string_of_byte x)) st)
    | [] => (rest, st)
    end
  else
    (rest,
     add_text [ch]
       (fun f =>
          let f := addLiveByte ch f in
          let f := subst_if (ch =?b "`"%char) f in
          subst_if ((ch =?b "$"%char) && next_is (byte_eqb "("%char) rest) f) st).

Fixpoint scan_loop (fuel : nat) (cmd : gostr) (st : scan_state) : option scan_state :=
  match cmd with
  | [] => Some st
  | ch :: rest =>
      match fuel with
      | O => None
      | S fuel => let '(cmd, st) := scan_step ch rest st in scan_loop fuel cmd st
      end
  end.

Definition scan_start : scan_state := ScanState [] [] no_facts.

Definition scanShellWords (cmd : gostr) : list shellWord :=
  match scan_loop (length cmd) cmd scan_start with
  | Some st => s_words (flush st)
  | None => []
  end.

Definition wordTexts (words : list shellWord) : list gostr := w_text <$> words.
Definition visibleTexts (words : list shellWord) : list gostr := w_visible <$> words.
Definition tokenizeCommand (cmd : gostr) : list gostr := wordTexts (scanShellWords cmd).

(** ** Termination of the scanner *)

Lemma length_drop_le {A} n (l : list A) : length (drop n l) <= length l.
Proof. rewrite length_drop. lia. Qed.
#[export] Hint Resolve length_drop_le : foci.

Lemma scan_dollar_quote_shorter q rest st :
  length (fst (scan_dollar_quote q rest st)) <= length rest.
Proof.
  unfold scan_dollar_quote.
  destruct (indexUnescapedQuote rest 0 q); cbn [fst]; [auto with foci|simpl; lia].
Qed.

Lemma scan_quote_shorter q rest st :
  length (fst (scan_quote q rest st)) <= length rest.
Proof.
  unfold scan_quote.
  destruct (indexUnescapedQuote rest 0 q); cbn [fst]; [auto with foci|simpl; lia].
Qed.

(** Every iteration consumes at least one byte. *)
Lemma scan_step_shorter ch rest st : length (fst (scan_step ch rest st)) <= length rest.
Proof.
  unfold scan_step. destruct (_ || _); [done|].
  destruct rest as [|x rest]; cbn [next_is]; rewrite ?andb_false_r.
  - destruct (is_quote ch); [apply scan_quote_shorter|done].
  - destruct (_ && _).
    { etransitivity; [apply scan_dollar_quote_shorter|simpl; lia]. }
    destruct (is_quote ch); [apply scan_quote_shorter|].
    destruct (_ && _); simpl; lia.
Qed.

Lemma scan_loop_total fuel cmd st :
  length cmd <= fuel -> is_Some (scan_loop fuel cmd st).
Proof.
  revert cmd st. induction fuel as [|fuel IH]; intros [|ch rest] st Hf; simpl in *;
    [eauto|lia|eauto|].
  pose proof (scan_step_shorter ch rest st) as Hs.
  destruct (scan_step ch rest st) as [cmd' st']. simpl in Hs. apply IH. lia.
Qed.

Lemma scan_loop_more fuel fuel' cmd st st' :
  scan_loop fuel cmd st = Some st' -> fuel <= fuel' ->
  scan_loop fuel' cmd st = Some st'.
Proof.
  revert fuel' cmd st. induction fuel as [|fuel IH]; intros fuel' [|ch rest] st H Hf;
    destruct fuel' as [|fuel']; simpl in *; try done; try lia.
  destruct (scan_step ch rest st). apply IH; [done|lia].
Qed.

(** The scanner as a function of the text left and the state. *)
Definition scan (cmd : gostr) (st : scan_state) : scan_state :=
  default st (scan_loop (length cmd) cmd st).

Lemma scan_nil st : scan [] st = st.
Proof. done. Qed.

Lemma scan_cons ch rest st :
  scan (ch :: rest) st = let '(cmd, st') := scan_step ch rest st in scan cmd st'.
Proof.
  unfold scan. cbn [length scan_loop].
  pose proof (scan_step_shorter ch rest st) as Hs.
  destruct (scan_step ch rest st) as [cmd st']. simpl in Hs.
  destruct (scan_loop_total (length cmd) cmd st') as [st'' H]; [done|].
  rewrite H. by rewrite (scan_loop_more _ _ _ _ _ H Hs).
Qed.

Lemma scanShellWords_scan cmd : scanShellWords cmd = s_words (flush (scan cmd scan_start)).
Proof.
  unfold scanShellWords, scan.
  by destruct (scan_loop_total (length cmd) cmd scan_start) as [st' ->].
Qed.

(** ** The runs of the scanner *)

Lemma scan_space r st : scan (" "%char :: r) st = scan r (flush st).
Proof. by rewrite scan_cons. Qed.

Lemma quote_at_single s r :
  "'"%char ∉ s -> quote_at (s ++ "'"%char :: r) "'"%char = Some (length s).
Proof.
  induction s as [|c s IH]; intros H; [done|].
  apply not_elem_of_cons in H as [Hc Hs]. cbn [app quote_at length].
  change ("'"%char =?b "034"%char) with false. rewrite andb_false_r.
  rewrite byte_eqb_ne by done. by rewrite IH.
Qed.

Lemma indexUnescapedQuote_single s r :
  "'"%char ∉ s -> indexUnescapedQuote (s ++ "'"%char :: r) 0 "'"%char = Some (length s).
Proof. intros H. unfold indexUnescapedQuote. rewrite drop_0. by rewrite quote_at_single. Qed.

Lemma scan_single_quoted s r st :
  "'"%char ∉ s ->
  scan ("'"%char :: s ++ "'"%char :: r) st
  = scan r (add_text ("'"%char :: s ++ ["'"%char]) (addQuoted s) st).
Proof.
  intros H. rewrite scan_cons. cbn [scan_step]. unfold scan_step.
  change ("'"%char =?b " "%char) with false.
  change (is_quote "'"%char) with true. cbn -[scan indexUnescapedQuote].
  unfold scan_quote. rewrite indexUnescapedQuote_single by done.
  change (drop (S (length s)) (s ++ "'"%char :: r))
    with (drop (1 + length s) (s ++ "'"%char :: r)).
  rewrite Nat.add_comm, <- drop_drop, drop_app_length, take_app_length. done.
Qed.

Lemma scan_ansi_quoted s r st d :
  "'"%char ∉ s -> decodeAnsiC s = Some d ->
  scan ("$"%char :: "'"%char :: s ++ "'"%char :: r) st
  = scan r (add_text ("$"%char :: "'"%char :: s ++ ["'"%char]) (addQuoted d) st).
Proof.
  intros H Hd. rewrite scan_cons. unfold scan_step.
  change ("$"%char =?b " "%char) with false.
  cbn -[scan scan_dollar_quote]. unfold scan_dollar_quote.
  rewrite indexUnescapedQuote_single by done.
  change (drop (S (length s)) (s ++ "'"%char :: r))
    with (drop (1 + length s) (s ++ "'"%char :: r)).
  rewrite Nat.add_comm, <- drop_drop, drop_app_length, take_app_length.
  change ("'"%char =?b "'"%char) with true. cbv iota. by rewrite Hd.
Qed.

Lemma scan_backslash x r st :
  scan ("\"%char :: x :: r) st = scan r (add_text [x] (addQuoted (string_of_byte x)) st).
Proof. by rewrite scan_cons. Qed.

(** 7-bit bytes are their own UTF-8 encoding. *)
Definition is_ascii (c : ascii) : bool := (N_of_ascii c <? 128)%N.

Lemma string_of_byte_ascii c : is_ascii c = true -> string_of_byte c = [c].
Proof. by destruct c as [[] [] [] [] [] [] [] []]. Qed.

(** ** Decoding hexadecimal escapes *)

Definition hex_digit (n : N) : ascii :=
  byte_of_N (if (n <? 10)%N then n + 48 else n + 87)%N.

Definition hex_escape (c : ascii) : gostr :=
  ["\"%char; "x"%char; hex_digit (N_of_ascii c / 16); hex_digit (N_of_ascii c mod 16)].

Definition ansi_escape (s : gostr) : gostr := s ≫= hex_escape.

Lemma decode_hex_escape c s fuel acc :
  decode_loop (S fuel) (hex_escape c ++ s) acc = decode_loop fuel s (acc ++ [c]).
Proof. by destruct c as [[] [] [] [] [] [] [] []]. Qed.

Lemma decode_ansi_escape s fuel acc :
  length s < fuel -> decode_loop fuel (ansi_escape s) acc = Some (acc ++ s).
Proof.
  unfold ansi_escape. revert fuel acc.
  induction s as [|c s IH]; intros [|fuel] acc H; simpl in H; [lia| |lia|].
  - simpl. by rewrite app_nil_r.
  - cbn [mbind list_bind]. rewrite decode_hex_escape, IH by lia.
    by rewrite <- app_assoc.
Qed.

Lemma length_ansi_escape s : length s <= length (ansi_escape s).
Proof.
  unfold ansi_escape. induction s as [|c s IH]; [done|].
  cbn [mbind list_bind]. rewrite length_app. simpl in *. lia.
Qed.

Lemma ansi_escape_no_quote s : "'"%char ∉ ansi_escape s.
Proof.
  unfold ansi_escape. induction s as [|c s IH]; [apply not_elem_of_nil|].
  cbn [mbind list_bind]. apply not_elem_of_app. split; [|done].
  intros H%mem_byte_spec. by destruct c as [[] [] [] [] [] [] [] []].
Qed.

Lemma decodeAnsiC_escape s : decodeAnsiC (ansi_escape s) = Some s.
Proof.
  unfold decodeAnsiC. rewrite decode_ansi_escape; [done|].
  pose proof (length_ansi_escape s). lia.
Qed.

(** ** Quoted words *)

(** The ways of quoting one argument that the round trip covers. *)
Inductive quoting := SingleQuoted | BackslashEscaped | AnsiQuoted.

Definition quote_word (qa : quoting * gostr) : gostr :=
  let '(q, a) := qa in
  match q with
  | SingleQuoted => "'"%char :: a ++ ["'"%char]
  | BackslashEscaped => a ≫= fun c => ["\"%char; c]
  | AnsiQuoted => "$"%char :: "'"%char :: ansi_escape a ++ ["'"%char]
  end.

(** Arguments the quoting can express: no single quote inside single quotes,
    and for the backslash form a non-empty 7-bit argument. *)
Definition quotable (qa : quoting * gostr) : Prop :=
  let '(q, a) := qa in
  match q with
  | SingleQuoted => "'"%char ∉ a
  | BackslashEscaped => a <> [] /\ Forall (fun c => is_ascii c = true) a
  | AnsiQuoted => True
  end.

Definition inert (w : shellWord) : Prop :=
  w_firstLiveGlob w = false /\ w_hasLiveGlob w = false /\
  w_hasLiveGlobExact w = false /\ w_hasLiveBrace w = false /\
  w_hasLiveSubst w = false.

Definition quoted_facts (v : gostr) : wordFacts :=
  WordFacts v [] false false false false false 0 false 0 false.

Lemma scan_escaped_all a t v ws r :
  Forall (fun c => is_ascii c = true) a ->
  scan ((a ≫= fun c => ["\"%char; c]) ++ r) (ScanState ws t (quoted_facts v))
  = scan r (ScanState ws (t ++ a) (quoted_facts (v ++ a))).
Proof.
  revert t v. induction a as [|c a IH]; intros t v H.
  { cbn. by rewrite !app_nil_r. }
  apply Forall_cons in H as [Hc H]. cbn [mbind list_bind app].
  rewrite scan_backslash, string_of_byte_ascii by done.
  unfold add_text. cbn [s_words s_text s_facts].
  change (addQuoted [c] (quoted_facts v)) with (quoted_facts (v ++ [c])).
  cbn [mbind] in IH. by rewrite IH, <- !app_assoc.
Qed.

(** A quoted word scanned from the start of a word leaves its argument as the
    visible text. *)
Lemma scan_quote_word qa ws r :
  quotable qa ->
  exists t, t <> [] /\
    scan (quote_word qa ++ r) (ScanState ws [] no_facts)
    = scan r (ScanState ws t (quoted_facts (snd qa))).
Proof.
  destruct qa as [[] a]; simpl quotable; intros H.
  - eexists. split; [|cbn -[scan]; rewrite <- app_assoc; cbn -[scan];
      rewrite scan_single_quoted by done; done]. done.
  - exists a. split; [by destruct H|].
    by apply (scan_escaped_all a [] [] ws r), H.
  - eexists. split; [|cbn -[scan]; rewrite <- app_assoc; cbn -[scan];
      rewrite (scan_ansi_quoted _ _ _ a)
        by auto using ansi_escape_no_quote, decodeAnsiC_escape; done]. done.
Qed.

Lemma flush_quoted ws t v :
  t <> [] ->
  flush (ScanState ws t (quoted_facts v))
  = ScanState (ws ++ [ShellWord t v false false false false false]) [] no_facts.
Proof. intros H. unfold flush. simpl. by rewrite bool_decide_eq_false_2. Qed.

Lemma scan_quoted_words args ws :
  Forall quotable args ->
  exists ws',
    s_words (flush (scan (join " " (quote_word <$> args)) (ScanState ws [] no_facts)))
    = ws ++ ws'
    /\ visibleTexts ws' = snd <$> args /\ Forall inert ws'.
Proof.
  revert ws. induction args as [|qa args IH]; intros ws H.
  { exists []. rewrite app_nil_r. repeat split; constructor. }
  apply Forall_cons in H as [Hq H].
  destruct (decide (args = [])) as [->|Hne].
  - cbn [fmap list_fmap join].
    destruct (scan_quote_word qa ws [] Hq) as (t & Ht & Hs).
    rewrite app_nil_r, scan_nil in Hs. rewrite Hs, flush_quoted by done.
    eexists. split; [done|]. split; [done|]. by repeat constructor.
  - assert (join " " (quote_word <$> qa :: args)
            = quote_word qa ++ " "%char :: join " " (quote_word <$> args)) as ->.
    { by destruct args. }
    destruct (scan_quote_word qa ws (" "%char :: join " " (quote_word <$> args)) Hq)
      as (t & Ht & ->).
    rewrite scan_space, flush_quoted by done.
    destruct (IH (ws ++ [ShellWord t (snd qa) false false false false false]) H)
      as (ws' & -> & Hv & Hi).
    eexists (_ :: ws'). rewrite <- app_assoc. split; [done|].
    unfold visibleTexts in *. cbn. split; [by rewrite Hv|]. constructor; [done|by apply Hi].
Qed.

(** ** Unquoted literals *)

Definition is_blank (c : ascii) : bool := (c =?b " "%char) || (c =?b "009"%char).

(** [addLit] byte by byte. *)
Lemma addLive_app s t f : addLive (s ++ t) f = addLive t (addLive s f).
Proof. apply fold_left_app. Qed.

Lemma addLit_loop_run run s f :
  addLit_loop run s f = addLit_loop [] s (addLive run f).
Proof.
  revert run f. induction s as [|c s IH]; intros run f; [done|].
  assert (addLit_loop (run ++ [c]) s f = addLit_loop [c] s (addLive run f)) as Hrun.
  { rewrite (IH (run ++ [c])), (IH [c]), addLive_app. done. }
  destruct (byte_eqb_spec c "\"%char) as [->|Hne].
  - destruct s as [|x s]; [|done]. cbn. by rewrite addLive_app.
  - assert (forall run f, addLit_loop run (c :: s) f = addLit_loop (run ++ [c]) s f)
      as Hstep.
    { intros. destruct c as [[] [] [] [] [] [] [] []]; done. }
    by rewrite !Hstep, Hrun.
Qed.

Lemma addLit_cons c s f :
  c <> "\"%char -> addLit (c :: s) f = addLit s (addLiveByte c f).
Proof.
  intros Hne. unfold addLit.
  assert (addLit_loop [] (c :: s) f = addLit_loop [c] s f) as ->.
  { destruct c as [[] [] [] [] [] [] [] []]; done. }
  by rewrite addLit_loop_run.
Qed.

Lemma addLit_escape x s f : addLit ("\"%char :: x :: s) f = addLit s (addQuoted [x] f).
Proof. done. Qed.

Lemma litUnescaped_loop_cons c s :
  c <> "\"%char -> litUnescaped_loop (c :: s) = c :: litUnescaped_loop s.
Proof. intros Hne. by destruct c as [[] [] [] [] [] [] [] []]. Qed.

Lemma contains_byte_false c s : contains [c] s = false -> c ∉ s.
Proof.
  induction s as [|d s IH]; [intros _; apply not_elem_of_nil|].
  unfold contains. cbn -[has_prefix]. destruct (has_prefix [c] (d :: s)) eqn:E; [done|].
  simpl in E. rewrite andb_true_r in E. destruct (byte_eqb_spec c d); [done|].
  intros H. apply not_elem_of_cons. split; [done|]. apply IH.
  unfold contains. by destruct (index [c] s).
Qed.

Lemma litUnescaped_eq s : litUnescaped s = litUnescaped_loop s.
Proof.
  unfold litUnescaped. destruct (contains "\" s) eqn:E; [done|].
  apply contains_byte_false in E. induction s as [|c s IH]; [done|].
  apply not_elem_of_cons in E as [Hc Hs]. rewrite litUnescaped_loop_cons by done.
  by rewrite <- IH.
Qed.

(** No unescaped blank: the text of one literal word. *)
Fixpoint no_live_blank (s : gostr) : bool :=
  match s with
  | [] => true
  | c :: s =>
      if c =?b "\"%char then match s with [] => true | _ :: s => no_live_blank s end
      else negb (is_blank c) && no_live_blank s
  end.

Lemma live_facts_visible ch f : f_visible (live_facts ch f) = f_visible f.
Proof.
  unfold live_facts. destruct f. simpl.
  destruct ch as [[] [] [] [] [] [] [] []]; simpl; try done;
    repeat case_match; done.
Qed.

Lemma live_facts_split ch f : f_split (live_facts ch f) = f_split f.
Proof.
  unfold live_facts. destruct f. simpl.
  destruct ch as [[] [] [] [] [] [] [] []]; simpl; try done;
    repeat case_match; done.
Qed.

Lemma addLiveByte_visible ch f :
  is_blank ch = false ->
  f_visible (addLiveByte ch f) = f_visible f ++ [ch]
  /\ f_split (addLiveByte ch f) = f_split f.
Proof.
  unfold addLiveByte, is_blank. intros ->.
  destruct (ch =?b "."%char); simpl; destruct (_ && _); simpl;
    by rewrite live_facts_visible, live_facts_split.
Qed.

Lemma addLit_visible s f :
  no_live_blank s = true ->
  f_visible (addLit s f) = f_visible f ++ litUnescaped_loop s
  /\ f_split (addLit s f) = f_split f.
Proof.
  remember (length s) as n eqn:Hn. revert s f Hn.
  induction n as [n IH] using lt_wf_ind. intros [|c s] f Hn H; subst n.
  { cbn. by rewrite app_nil_r. }
  cbn [no_live_blank] in H. destruct (byte_eqb_spec c "\"%char) as [->|Hne].
  - destruct s as [|x s].
    + apply (addLiveByte_visible "\"%char f). done.
    + rewrite addLit_escape. destruct (IH (length s)) with s (addQuoted [x] f)
        as [Hv Hs]; [simpl; lia|done..|].
      rewrite Hv, Hs. cbn. by rewrite <- app_assoc.
  - apply andb_true_iff in H as [Hb H]. apply negb_true_iff in Hb.
    rewrite addLit_cons, litUnescaped_loop_cons by done.
    destruct (IH (length s)) with s (addLiveByte c f) as [-> ->]; [simpl; lia|done..|].
    destruct (addLiveByte_visible c f Hb) as [-> ->]. by rewrite <- app_assoc.
Qed.

(** ** The scanner and the resolver build the same facts from a literal *)

(** Source text of one unquoted literal: no blank, quote, dollar or backtick
    outside an escape, and only 7-bit escaped bytes. *)
Definition lit_special (c : ascii) : bool :=
  is_blank c || is_quote c || (c =?b "$"%char) || (c =?b "`"%char).

Fixpoint plain_lit (s : gostr) : bool :=
  match s with
  | [] => true
  | c :: s =>
      if c =?b "\"%char
      then match s with [] => true | x :: s => is_ascii x && plain_lit s end
      else negb (lit_special c) && plain_lit s
  end.

Lemma scan_plain_byte c r st :
  lit_special c = false -> c <> "\"%char ->
  scan (c :: r) st = scan r (add_text [c] (addLiveByte c) st).
Proof.
  unfold lit_special. rewrite !orb_false_iff. intros (((Hb & Hq) & Hd) & Ht) Hbs.
  rewrite scan_cons. unfold scan_step. unfold is_blank in Hb.
  rewrite Hb, Hd, Hq, (byte_eqb_ne c "\"%char) by done. simpl andb. cbv iota.
  unfold add_text. by rewrite Ht.
Qed.

Lemma add_text_add_text t1 t2 f1 f2 st :
  add_text t2 f2 (add_text t1 f1 st) = add_text (t1 ++ t2) (fun f => f2 (f1 f)) st.
Proof. unfold add_text. cbn. by rewrite app_assoc. Qed.

Lemma scan_plain_lit s st :
  plain_lit s = true ->
  scan s st = add_text (litUnescaped_loop s) (addLit s) st.
Proof.
  remember (length s) as n eqn:Hn. revert s st Hn.
  induction n as [n IH] using lt_wf_ind. intros [|c s] st Hn H; subst n.
  { destruct st. unfold add_text. cbn. by rewrite app_nil_r. }
  cbn [plain_lit] in H. destruct (byte_eqb_spec c "\"%char) as [->|Hne].
  - destruct s as [|x s]; [by rewrite scan_cons|].
    apply andb_true_iff in H as [Hx H].
    rewrite scan_backslash, string_of_byte_ascii by done.
    rewrite (IH (length s)) by (simpl; auto with lia).
    by rewrite add_text_add_text.
  - apply andb_true_iff in H as [Hb H]. apply negb_true_iff in Hb.
    rewrite scan_plain_byte by done. rewrite (IH (length s)) by (simpl; auto with lia).
    rewrite add_text_add_text, litUnescaped_loop_cons by done.
    unfold add_text. by rewrite addLit_cons.
Qed.

Lemma litUnescaped_loop_nonempty s : s <> [] -> litUnescaped_loop s <> [].
Proof.
  destruct s as [|c s]; [done|]. intros _.
  destruct (byte_eqb_spec c "\"%char) as [->|Hne].
  - by destruct s.
  - by rewrite litUnescaped_loop_cons.
Qed.

Lemma flush_words ws t f :
  t <> [] ->
  s_words (flush (ScanState ws t f))
  = ws ++ [ShellWord t (f_visible f) (f_firstLiveGlob f) (f_hasLiveGlob f)
             (f_hasLiveGlobExact f) (f_hasLiveBrace f) (f_hasLiveSubst f)].
Proof. intros H. unfold flush. simpl. by rewrite bool_decide_eq_false_2. Qed.

(** ** Live globs *)

(** [live_ok f]: the coarse glob fact covers the other two and the open
    bracket. *)
Record live_ok (f : wordFacts) : Prop := LiveOk {
  ok_first : f_firstLiveGlob f = true -> f_hasLiveGlob f = true;
  ok_exact : f_hasLiveGlobExact f = true -> f_hasLiveGlob f = true;
  ok_bracket : f_globBracket f = true -> f_hasLiveGlob f = true;
  ok_split : Forall (fun w =>
    (w_firstLiveGlob w = true -> w_hasLiveGlob w = true)
    /\ (w_hasLiveGlobExact w = true -> w_hasLiveGlob w = true)) (f_split f);
}.

Lemma live_ok_no_facts : live_ok no_facts.
Proof. by split. Qed.

Lemma live_ok_addQuoted s f : live_ok f -> live_ok (addQuoted s f).
Proof. intros []. by split. Qed.

Lemma live_ok_noteSubst f : live_ok f -> live_ok (noteSubst f).
Proof. intros []. by split. Qed.

Lemma live_ok_reset f : live_ok (reset f).
Proof. by split. Qed.

Lemma live_ok_finishWord f : live_ok f -> live_ok (finishWord f).
Proof.
  intros [H1 H2 H3 H4]. split; cbn; [done..|].
  apply Forall_app. split; [done|]. by repeat constructor.
Qed.

Lemma live_ok_live_facts ch f : live_ok f -> live_ok (live_facts ch f).
Proof.
  intros [H1 H2 H3 H4]. unfold live_facts. destruct f; cbn in *.
  destruct ch as [[] [] [] [] [] [] [] []]; cbn; try done;
    repeat case_match; subst; split; cbn in *; auto.
Qed.

Lemma live_ok_addLiveByte ch f : live_ok f -> live_ok (addLiveByte ch f).
Proof.
  intros Hok. unfold addLiveByte. destruct (_ || _).
  { case_match; auto using live_ok_finishWord. }
  apply (live_ok_live_facts ch) in Hok as [H1 H2 H3 H4].
  destruct (ch =?b "."%char); cbn;
    (destruct (f_hasLiveGlob (live_facts ch f)) eqn:E; cbn;
     [destruct (_ =? 1)|]); split; cbn; auto; by rewrite ?E in *.
Qed.

Lemma live_ok_addLive s f : live_ok f -> live_ok (addLive s f).
Proof.
  revert f. induction s as [|c s IH]; intros f H; [done|].
  apply IH. by apply live_ok_addLiveByte.
Qed.

Definition glob_char (c : ascii) : bool := mem_byte c "*?[".

Definition no_blank (s : gostr) : Prop := Forall (fun c => is_blank c = false) s.

Lemma live_facts_glob ch f :
  f_hasLiveGlob (live_facts ch f) = f_hasLiveGlob f || glob_char ch.
Proof.
  unfold live_facts. destruct f as [? ? ? g ? ? ? ? ? ? ?].
  destruct ch as [[] [] [] [] [] [] [] []]; destruct g; cbn; repeat case_match; done.
Qed.

Lemma live_facts_first ch f : f_firstLiveGlob (live_facts ch f) = f_firstLiveGlob f.
Proof.
  unfold live_facts. destruct f.
  destruct ch as [[] [] [] [] [] [] [] []]; cbn; repeat case_match; done.
Qed.

Lemma addLiveByte_glob ch f :
  is_blank ch = false ->
  f_hasLiveGlob (addLiveByte ch f) = f_hasLiveGlob f || glob_char ch
  /\ f_firstLiveGlob (addLiveByte ch f)
     = f_firstLiveGlob f
       || bool_decide (f_visible f = []) && (f_hasLiveGlob f || glob_char ch).
Proof.
  unfold addLiveByte, is_blank. intros ->.
  assert ((length (f_visible f ++ [ch]) =? 1) = bool_decide (f_visible f = [])) as Hl.
  { destruct (f_visible f); [done|]. by rewrite length_app, Nat.add_comm. }
  pose proof (live_facts_glob ch f) as Hg.
  set (gc := f_hasLiveGlob f || glob_char ch) in *. clearbody gc.
  destruct (ch =?b "."%char); cbn; rewrite live_facts_visible, Hl, Hg;
    destruct gc; cbn; try destruct (bool_decide _); cbn;
    by rewrite ?Hg, ?live_facts_first, ?orb_false_r, ?orb_true_r.
Qed.

Lemma addLive_glob s f :
  no_blank s ->
  f_hasLiveGlob (addLive s f) = f_hasLiveGlob f || existsb glob_char s
  /\ f_visible (addLive s f) = f_visible f ++ s
  /\ (f_visible f <> [] -> f_firstLiveGlob (addLive s f) = f_firstLiveGlob f).
Proof.
  unfold no_blank. revert f. induction s as [|c s IH]; intros f H.
  { cbn. by rewrite orb_false_r, app_nil_r. }
  apply Forall_cons in H as [Hc H]. cbn [addLive fold_left].
  destruct (IH (addLiveByte c f) H) as (Hg & Hv & Hf).
  destruct (addLiveByte_glob c f Hc) as [Hg' Hf'].
  destruct (addLiveByte_visible c f Hc) as [Hv' _].
  unfold addLive in *. rewrite Hg, Hv, Hg', Hv'. cbn [existsb]. split_and!.
  - by rewrite orb_assoc.
  - by rewrite <- app_assoc.
  - intros Hne. rewrite Hf, Hf' by (rewrite Hv'; by destruct (f_visible f)).
    rewrite bool_decide_eq_false_2 by done. by rewrite orb_false_r.
Qed.

(** The facts of a live word read off its text. *)
Lemma addLive_canYieldFlag c s :
  no_blank (c :: s) ->
  canYieldFlag (current (addLive (c :: s) no_facts))
  = glob_char c || (c =?b "-"%char) && existsb glob_char (c :: s).
Proof.
  intros H. pose proof (addLive_glob (c :: s) no_facts H) as (Hg & Hv & _).
  apply Forall_cons in H as [Hc Hs].
  unfold canYieldFlag, current. cbn [w_firstLiveGlob w_visible w_hasLiveGlob].
  rewrite Hg, Hv. cbn [app f_visible no_facts f_hasLiveGlob orb]. f_equal.
  cbn [addLive fold_left].
  destruct (addLiveByte_glob c no_facts Hc) as [_ Hf].
  destruct (addLiveByte_visible c no_facts Hc) as [Hv' _].
  destruct (addLive_glob s (addLiveByte c no_facts) Hs) as (_ & _ & Hf').
  unfold addLive in Hf'. by rewrite Hf', Hf by (by rewrite Hv').
Qed.

(** ** Live braces *)

(** Brace-balanced text: groups of text between matching braces. *)
Inductive balanced : gostr -> Prop :=
| bal_nil : balanced []
| bal_char c s : c <> "{"%char -> c <> "}"%char -> balanced s -> balanced (c :: s)
| bal_group u s : balanced u -> balanced s ->
    balanced ("{"%char :: u ++ "}"%char :: s).

(** What matters of the facts for brace expansion. *)
Record brace_step_ok (c : ascii) (f g : wordFacts) : Prop := BraceStep {
  bs_depth : f_braceDepth g = f_braceDepth f;
  bs_live : f_hasLiveBrace g = f_hasLiveBrace f;
  bs_sep : f_braceSep f = true -> f_braceSep g = true;
  bs_comma : c = ","%char -> f_braceDepth f <> 0 -> f_braceSep g = true;
}.

Lemma live_facts_brace c f :
  c <> "{"%char -> c <> "}"%char -> brace_step_ok c f (live_facts c f).
Proof.
  intros H1 H2. destruct f as [? ? ? ? ? ? ? d ? ? ?].
  destruct c as [[] [] [] [] [] [] [] []]; try done; cbn;
    repeat case_match; split; cbn in *; try done; intros; subst; try done.
  - by destruct d.
Qed.

Lemma addLiveByte_brace_fields c f :
  is_blank c = false ->
  f_braceDepth (addLiveByte c f) = f_braceDepth (live_facts c f)
  /\ f_hasLiveBrace (addLiveByte c f) = f_hasLiveBrace (live_facts c f)
  /\ f_braceSep (addLiveByte c f) = f_braceSep (live_facts c f).
Proof.
  unfold addLiveByte, is_blank. intros ->.
  destruct (c =?b "."%char); cbn; destruct (_ && _); done.
Qed.

Lemma addLiveByte_brace c f :
  is_blank c = false -> c <> "{"%char -> c <> "}"%char ->
  brace_step_ok c f (addLiveByte c f).
Proof.
  intros Hb H1 H2. destruct (addLiveByte_brace_fields c f Hb) as (Hd & Hl & Hs).
  destruct (live_facts_brace c f H1 H2). split; rewrite ?Hd, ?Hl, ?Hs; auto.
Qed.

Lemma addLiveByte_open f :
  let g := addLiveByte "{"%char f in
  f_braceDepth g = S (f_braceDepth f) /\ f_hasLiveBrace g = f_hasLiveBrace f
  /\ (f_braceDepth f <> 0 -> f_braceSep g = f_braceSep f).
Proof.
  cbn zeta. destruct (addLiveByte_brace_fields "{"%char f eq_refl) as (-> & -> & ->).
  destruct f as [? ? ? ? ? ? ? [|d] ? ? ?]; cbn; split_and!; done.
Qed.

Lemma addLiveByte_close d f :
  f_braceDepth f = S d ->
  let g := addLiveByte "}"%char f in
  f_braceDepth g = d /\ f_braceSep g = f_braceSep f
  /\ f_hasLiveBrace g = ((d =? 0) && f_braceSep f || f_hasLiveBrace f).
Proof.
  intros H. cbn zeta.
  destruct (addLiveByte_brace_fields "}"%char f eq_refl) as (-> & -> & ->).
  destruct f as [? ? ? ? ? ? ? d' sep ? ?]. cbn in *. subst d'. cbn.
  destruct (d =? 0), sep; done.
Qed.

(** Balanced text inside a group keeps the group open and its separator. *)
Lemma addLive_balanced u f :
  balanced u -> no_blank u -> f_braceDepth f <> 0 ->
  let g := addLive u f in
  f_braceDepth g = f_braceDepth f
  /\ (f_braceSep f = true \/ ","%char ∈ u -> f_braceSep g = true).
Proof.
  intros Hu. cbn zeta. unfold no_blank. revert f.
  induction Hu as [|c s H1 H2 Hs IH|u s Hu IHu Hs IHs]; intros f Hb Hd.
  - cbn. split; [done|]. intros [?|H]; [done|]. by apply not_elem_of_nil in H.
  - apply Forall_cons in Hb as [Hc Hb]. cbn [addLive fold_left].
    destruct (addLiveByte_brace c f Hc H1 H2) as [Hd' _ Hsep Hcomma].
    destruct (IH (addLiveByte c f) Hb) as [IHd IHsep]; [by rewrite Hd'|].
    unfold addLive in *. rewrite IHd, Hd'. split; [done|].
    intros [?|H]; apply IHsep; [auto|].
    apply elem_of_cons in H as [<-|?]; auto.
  - apply Forall_cons in Hb as [_ Hb]. apply Forall_app in Hb as [Hbu Hb].
    apply Forall_cons in Hb as [_ Hb].
    cbn [addLive fold_left]. rewrite fold_left_app. cbn [fold_left].
    destruct (addLiveByte_open f) as (Hd1 & _ & Hs1).
    destruct (IHu (addLiveByte "{"%char f) Hbu) as [Hd2 Hs2]; [by rewrite Hd1|].
    unfold addLive in *.
    destruct (addLiveByte_close (f_braceDepth f)
      (fold_left (fun f ch => addLiveByte ch f) u (addLiveByte "{"%char f)))
      as (Hd3 & Hs3 & _); [by rewrite Hd2, Hd1|].
    edestruct IHs as [Hd4 Hs4]; [done|by rewrite Hd3|]. rewrite Hd4, Hd3.
    split; [done|]. intros H. apply Hs4. rewrite Hs3.
    destruct H as [H|H]; [left; apply Hs2; left; by rewrite Hs1|].
    apply elem_of_cons in H as [H|H]; [done|].
    apply elem_of_app in H as [H|H]; [left; apply Hs2; by right|].
    apply elem_of_cons in H as [H|H]; [done|by right].
Qed.

(** A live brace stays recorded until the word ends. *)
Lemma addLive_brace_sticky s f :
  no_blank s -> f_hasLiveBrace f = true -> f_hasLiveBrace (addLive s f) = true.
Proof.
  unfold no_blank. revert f. induction s as [|c s IH]; intros f Hb H; [done|].
  apply Forall_cons in Hb as [Hc Hb]. cbn [addLive fold_left]. apply IH; [done|].
  destruct (decide (c = "{"%char)) as [->|H1].
  { by destruct (addLiveByte_open f) as (_ & -> & _). }
  destruct (decide (c = "}"%char)) as [->|H2].
  - destruct (f_braceDepth f) as [|d] eqn:Hd.
    + destruct (addLiveByte_brace_fields "}"%char f eq_refl) as (_ & -> & _).
      destruct f; cbn in *; by subst.
    + destruct (addLiveByte_close d f Hd) as (_ & _ & ->). by rewrite H, orb_true_r.
  - by destruct (addLiveByte_brace c f Hc H1 H2) as [_ -> _ _].
Qed.

Lemma addLive_no_brace s f :
  no_blank s -> "{"%char ∉ s -> "}"%char ∉ s ->
  f_braceDepth (addLive s f) = f_braceDepth f.
Proof.
  unfold no_blank. revert f. induction s as [|c s IH]; intros f Hb H1 H2; [done|].
  apply Forall_cons in Hb as [Hc Hb].
  apply not_elem_of_cons in H1 as [? ?], H2 as [? ?]. cbn [addLive fold_left].
  unfold addLive in IH. rewrite IH by done.
  by apply addLiveByte_brace.
Qed.

(** ** The bound of [decodeAnsiC] is never reached *)

Lemma decode_unicode_shorter n s out s' :
  decode_unicode n s = Some (out, s') -> length s' <= length s.
Proof.
  unfold decode_unicode. intros H. repeat case_match; simplify_eq.
  apply length_drop_le.
Qed.

Lemma decode_hex_shorter s out s' :
  decode_hex s = Some (out, s') -> length s' <= length s.
Proof. unfold decode_hex. intros H. case_match; simplify_eq. apply length_drop_le. Qed.

Lemma decode_control_shorter s out s' :
  decode_control s = Some (out, s') -> length s' <= length s.
Proof.
  unfold decode_control. intros H. repeat case_match; simplify_eq. cbn [length]. lia.
Qed.

Lemma decode_octal_shorter e s out s' :
  is_octal e = true -> decode_octal e s = Some (out, s') -> length s' <= length s.
Proof.
  unfold decode_octal. intros He H. case_match; [done|]. simplify_eq.
  destruct (e =?b "0"%char); cbn [take_while]; rewrite He; cbn [length drop];
    apply length_drop_le.
Qed.

#[export] Hint Resolve decode_unicode_shorter decode_hex_shorter
  decode_control_shorter decode_octal_shorter : foci.

Lemma decode_escape_shorter e s out s' :
  decode_escape e s = Some (out, s') -> length s' <= length s.
Proof.
  assert (decode_octal e s = Some (out, s') -> is_octal e = true ->
    length s' <= length s) as Hoct by eauto with foci.
  assert (Some (["\"%char; e], s) = Some (out, s') -> length s' <= length s) as Hun.
  { by intros [= _ <-]. }
  destruct e as [[] [] [] [] [] [] [] []]; cbn -[decode_octal];
    first [ exact Hun | by intros [= _ <-]
          | intros H; by apply Hoct | eauto with foci ].
Qed.

Lemma decode_loop_fuel s : forall fuel fuel' acc,
  length s < fuel -> length s < fuel' ->
  decode_loop fuel s acc = decode_loop fuel' s acc.
Proof.
  induction s as [s IH] using (induction_ltof1 _ length). unfold ltof in IH.
  intros [|fuel] [|fuel'] acc H H'; [lia..|].
  destruct s as [|c s]; [done|]. cbn [decode_loop length] in *.
  assert (decode_loop fuel s (acc ++ [c]) = decode_loop fuel' s (acc ++ [c])) as Hlit.
  { apply IH; lia. }
  destruct c as [[] [] [] [] [] [] [] []]; try exact Hlit.
  destruct s as [|e s]; [done|].
  destruct (decode_escape e s) as [[out s']|] eqn:E; [|done].
  apply decode_escape_shorter in E. cbn [length] in *. apply IH; cbn [length]; lia.
Qed.

(** ** Properties *)

(** Quoting is transparent to the scanner.  A command line whose
    arguments are quoted with single quotes, backslashes or [$'...'] hexadecimal
    escapes, and separated by spaces, is scanned into exactly those arguments
    as visible text, and no quoted character is live (no glob, brace or
    substitution is recorded). *)
Theorem scan_quoted_arguments (args : list (quoting * gostr)) :
  Forall quotable args ->
  let words := scanShellWords (join " " (quote_word <$> args)) in
  visibleTexts words = snd <$> args /\ Forall inert words.
Proof.
  intros H. cbn zeta. rewrite scanShellWords_scan. unfold scan_start.
  destruct (scan_quoted_words args [] H) as (ws & Hw & Hv & Hi).
  rewrite Hw. by split.
Qed.

Definition demo_arguments : list (quoting * gostr) :=
  [(SingleQuoted, "sed"); (BackslashEscaped, "-i"); (AnsiQuoted, "s/'a'/{b,c}/")].

Example scan_quoted_arguments_witness :
  Forall quotable demo_arguments
  /\ visibleTexts (scanShellWords (join " " (quote_word <$> demo_arguments)))
     = ["sed"; "-i"; "s/'a'/{b,c}/"].
Proof.
  assert (Forall quotable demo_arguments) as H.
  { repeat constructor; try done. by apply (bool_decide_eq_true_1 (_ ∉ _)). }
  split; [exact H|]. exact (proj1 (scan_quoted_arguments demo_arguments H)).
Defined.

(** The two producers of the quoting model agree.  The scanner, reading a
    printed unquoted literal, and the resolver, feeding the same literal to
    [addLit], end with the same word facts; its token text is [litUnescaped]
    of the literal, and so is the visible text when no unescaped blank splits
    it. *)
Theorem scan_lit_agrees (s : gostr) :
  s <> [] -> plain_lit s = true ->
  let w := current (addLit s no_facts) in
  scanShellWords s
  = [ShellWord (litUnescaped s) (w_visible w) (w_firstLiveGlob w) (w_hasLiveGlob w)
       (w_hasLiveGlobExact w) (w_hasLiveBrace w) (w_hasLiveSubst w)]
  /\ (no_live_blank s = true -> w_visible w = litUnescaped s).
Proof.
  intros Hne H. cbn zeta. rewrite scanShellWords_scan, scan_plain_lit by done.
  unfold add_text, scan_start. cbn [s_words s_text s_facts app].
  rewrite flush_words by (by apply litUnescaped_loop_nonempty).
  rewrite litUnescaped_eq. split; [done|]. intros Hb. apply (addLit_visible s no_facts Hb).
Qed.

Example scan_lit_agrees_witness :
  visibleTexts (scanShellWords "\--pr\e=*.sh") = ["--pre=*.sh"].
Proof.
  destruct (scan_lit_agrees "\--pr\e=*.sh") as [-> _]; [done|reflexivity|reflexivity].
Defined.

(** A word whose glob expansion could begin with '-' is recognised.  Let
    [expand p f] say that the shell may replace the unquoted word [p] by the
    file name [f], in any pattern language where a leading character that is
    not one of * ? [ stands for itself.  If an unquoted word holding such a
    character can expand to a name beginning with '-', the scanner's facts
    make [canYieldFlag] true. *)
Theorem canYieldFlag_sound (expand : gostr -> gostr -> Prop)
    (leading : forall c p f, glob_char c = false -> expand (c :: p) f ->
                             exists f', f = c :: f')
    (empty : forall f, expand [] f -> f = []) (p f : gostr) :
  no_blank p -> existsb glob_char p = true -> expand p ("-"%char :: f) ->
  canYieldFlag (current (addLive p no_facts)) = true.
Proof.
  intros Hb Hg He. destruct p as [|c p]; [done|].
  rewrite addLive_canYieldFlag by done.
  destruct (glob_char c) eqn:Hc; [done|].
  destruct (leading c p _ Hc He) as [f' [= <- _]]. by rewrite byte_eqb_refl, Hg.
Qed.

(** The pattern language of [*] and [?] (Glob.v) has leading literals. *)
Lemma glob_rel_leading c p f :
  glob_char c = false -> glob_rel (c :: p) f -> exists f', f = c :: f'.
Proof. intros Hc H. inversion H; subst; [done|done|eauto]. Qed.

Example canYieldFlag_sound_witness :
  canYieldFlag (current (addLive "--pr*.sh" no_facts)) = true.
Proof.
  apply (canYieldFlag_sound glob_rel glob_rel_leading
           (fun f H => proj1 (glob_rel_nil f) H) "--pr*.sh" "-pre=x.sh").
  - by repeat constructor.
  - reflexivity.
  - do 4 (constructor; [done|done|]).
    apply (glob_star ".sh" "e=x" ".sh"). repeat (constructor; [done|done|]). constructor.
Defined.

(** A brace group the shell would expand is always recorded: an unquoted
    word that contains a brace-balanced group with a comma in it, after text
    without braces, has [hasLiveBrace], whatever follows the group. *)
Theorem live_brace_recorded (pre body post : gostr) :
  no_blank pre -> "{"%char ∉ pre -> "}"%char ∉ pre ->
  balanced body -> no_blank body -> ","%char ∈ body -> no_blank post ->
  f_hasLiveBrace (addLive (pre ++ "{"%char :: body ++ "}"%char :: post) no_facts) = true.
Proof.
  intros Hp Hp1 Hp2 Hbal Hb Hcomma Hpost. rewrite addLive_app.
  pose proof (addLive_no_brace pre no_facts Hp Hp1 Hp2) as Hd.
  set (f := addLive pre no_facts) in *. clearbody f.
  cbn [addLive fold_left]. rewrite fold_left_app. cbn [fold_left].
  apply addLive_brace_sticky; [done|].
  destruct (addLiveByte_open f) as (Hd1 & _).
  destruct (addLive_balanced body (addLiveByte "{"%char f) Hbal Hb) as [Hd2 Hs2];
    [by rewrite Hd1|].
  edestruct addLiveByte_close as (_ & _ & ->); [by unfold addLive in *; rewrite Hd2, Hd1|].
  rewrite Hd. unfold addLive in Hs2. by rewrite Hs2 by auto.
Qed.

Example live_brace_recorded_witness :
  f_hasLiveBrace (addLive "--p{re={x,y},z}.sh" no_facts) = true.
Proof.
  apply (live_brace_recorded "--p" "re={x,y},z" ".sh").
  - by repeat constructor.
  - by apply (bool_decide_eq_true_1 (_ ∉ _)).
  - by apply (bool_decide_eq_true_1 (_ ∉ _)).
  - do 3 (apply bal_char; [done|done|]). apply (bal_group "x,y" ",z");
      repeat (apply bal_char; [done|done|]); apply bal_nil.
  - by repeat constructor.
  - by apply (bool_decide_eq_true_1 (_ ∈ _)).
  - by repeat constructor.
Defined.

(** A backslash before a byte past 0x7f does not leave that byte in the
    visible text: the scanner appends Go's [string(b)], the two-byte UTF-8
    encoding of U+00b, where the value-side twin [litUnescaped] keeps the byte
    the program would receive. *)
Theorem scan_escaped_high_byte (b : ascii) :
  is_ascii b = false ->
  (exists c d, visibleTexts (scanShellWords ["\"%char; b]) = [[c; d]])
  /\ litUnescaped ["\"%char; b] = [b].
Proof.
  intros H. destruct b as [[] [] [] [] [] [] [] []]; try done;
    (split; [by do 2 eexists|done]).
Qed.

Example scan_escaped_high_byte_witness :
  litUnescaped ["\"%char; "233"%char] = ["233"%char].
Proof. apply scan_escaped_high_byte. reflexivity. Defined.
