(* ===== verification/SedScript.v ===== *)
(** * The sed script check

    Models the sed part of src/internal/delegator/autoapprove/autoapprove.go:
    [sedArgUnsafe] and the functions it is built from.  The theorems cover the
    splitting of a program into commands, the address prefix, and what the
    check does and does not recognise. *)
From S2P Require Import Prelude GoStrings.

Definition stripOuterQuotes (s : gostr) : gostr :=
  match s, last s with
  | q :: _, Some q' =>
      if (2 <=? length s)
         && ((q =?b "'"%char) && (q' =?b "'"%char)
             || (q =?b "034"%char) && (q' =?b "034"%char))
      then take (length s - 2) (drop 1 s) else s
  | _, _ => s
  end.

(** The loop of [splitSedCommands]: [acc] is [program[start:i]]. *)
Fixpoint split_loop (escaped : bool) (acc program : gostr) : list gostr :=
  match program with
  | [] => [acc]
  | c :: program =>
      if escaped then split_loop false (acc ++ [c]) program
      else if c =?b "\"%char then split_loop true (acc ++ [c]) program
      else if (c =?b ";"%char) || (c =?b "010"%char) then
        acc :: split_loop false [] program
      else split_loop false (acc ++ [c]) program
  end.

Definition splitSedCommands (program : gostr) : list gostr := split_loop false [] program.

(** The bytes [skipSedAddress] steps over one by one. *)
Definition address_byte (c : ascii) : bool :=
  byte_in "0" "9" c || mem_byte c ",~$ ".

(** The loop of [skipSedAddress]; [t] is [s[i:]]. *)
Fixpoint skip_address (fuel : nat) (t : gostr) (i : nat) : option nat :=
  match fuel with
  | O => None
  | S fuel =>
      match t with
      | [] => Some i
      | ch :: t =>
          if address_byte ch then skip_address fuel t (S i)
          else if ch =?b "/"%char then
            match index_byte "/"%char t with
            | Some e => skip_address fuel (drop (S e) t) (i + 1 + e + 1)
            | None => Some i
            end
          else if ch =?b "\"%char then
            match t with
            | delim :: t =>
                match index_byte delim t with
                | Some e => skip_address fuel (drop (S e) t) (i + 2 + e + 1)
                | None => Some i
                end
            | [] => Some i
            end
          else Some i
      end
  end.

Definition skipSedAddress (s : gostr) : nat :=
  default 0 (skip_address (S (length s)) s 0).

(** The loop of [sedSubstHasUnsafeFlags] that looks for [need] more unescaped
    delimiters: the text after the last one, [None] when the substitute
    command is incomplete. *)
Fixpoint after_delims (delim : ascii) (need : nat) (t : gostr) : option gostr :=
  match need with
  | O => Some t
  | S need' =>
      match t with
      | [] => None
      | c :: t =>
          if (c =?b "\"%char) && negb (bool_decide (t = [])) then
            match t with _ :: t => after_delims delim need t | [] => None end
          else after_delims delim (if c =?b delim then need' else need) t
      end
  end.

Definition exec_or_write (c : ascii) : bool := mem_byte c "eEwW".

Definition sedSubstHasUnsafeFlags (s : gostr) : bool :=
  match s with
  | _ :: delim :: t =>
      match after_delims delim 2 t with
      | Some flags => existsb exec_or_write flags
      | None => false
      end
  | _ => false
  end.

Definition sedCommandUnsafe (arg : gostr) : bool :=
  let arg := trim_space arg in
  match drop (skipSedAddress arg) arg with
  | [] => false
  | c :: rest =>
      if mem_byte c "wWeE" then true
      else if c =?b "s"%char then sedSubstHasUnsafeFlags (c :: rest)
      else false
  end.

Definition sedProgramUnsafe (program : gostr) : bool :=
  existsb sedCommandUnsafe (splitSedCommands program).

Definition sedArgUnsafe (arg : gostr) : bool :=
  sedProgramUnsafe (stripOuterQuotes arg).

(** ** Splitting *)

(** The escape state of the splitter after a text. *)
Fixpoint escape_after (escaped : bool) (s : gostr) : bool :=
  match s with
  | [] => escaped
  | c :: s => escape_after (if escaped then false else c =?b "\"%char) s
  end.

Lemma split_loop_app escaped acc a sep b :
  escape_after escaped a = false -> sep = ";"%char \/ sep = "010"%char ->
  split_loop escaped acc (a ++ sep :: b)
  = split_loop escaped acc a ++ splitSedCommands b.
Proof.
  intros Ha Hsep. revert escaped acc Ha.
  induction a as [|c a IH]; intros escaped acc Ha; cbn [app split_loop].
  - cbn in Ha. subst escaped. destruct Hsep as [-> | ->]; reflexivity.
  - cbn [escape_after] in Ha. destruct escaped; [by apply IH|].
    destruct (byte_eqb_spec c "\"%char) as [->|Hne]; [by apply IH|].
    destruct (_ || _); [|by apply IH].
    cbn [app]. f_equal. by apply IH.
Qed.

Lemma split_loop_nonempty escaped acc s : split_loop escaped acc s <> [].
Proof.
  revert escaped acc. induction s as [|c s IH]; intros escaped acc; cbn; [done|].
  repeat case_match; done.
Qed.

(** ** The address prefix *)

Lemma skip_address_total fuel t i :
  length t < fuel -> exists j, skip_address fuel t i = Some j /\ i <= j <= i + length t.
Proof.
  revert t i. induction fuel as [|fuel IH]; intros t i H; [lia|].
  assert (forall n k t', t' = drop n t -> n <= length t -> 0 < n -> k = i + n ->
    exists j, skip_address fuel t' k = Some j /\ i <= j <= i + length t) as Hrec.
  { intros n k t' -> Hn Hn0 ->. destruct (IH (drop n t) (i + n)) as (j & -> & Hj).
    - rewrite length_drop. lia.
    - exists j. rewrite length_drop in Hj. split; [done|lia]. }
  assert (exists j, Some i = Some j /\ i <= j <= i + length t) as Hstop.
  { exists i. split; [done|lia]. }
  destruct t as [|ch t]; [exact Hstop|]. cbn [skip_address].
  destruct (address_byte ch); [apply (Hrec 1); simpl; [done|lia..]|].
  destruct (ch =?b "/"%char).
  { destruct (index_byte "/"%char t) as [e|] eqn:E; [|exact Hstop].
    apply index_byte_Some in E as (_ & _ & Hlt & _).
    apply (Hrec (S (S e))); simpl; [done|lia..]. }
  destruct (ch =?b "\"%char); [|exact Hstop].
  destruct t as [|delim t]; [exact Hstop|].
  destruct (index_byte delim t) as [e|] eqn:E; [|exact Hstop].
  apply index_byte_Some in E as (_ & _ & Hlt & _).
  apply (Hrec (S (S (S e)))); simpl; [done|lia..].
Qed.

(** A prefix of single address bytes is skipped whole. *)
Lemma skip_address_bytes fuel pre c t i :
  Forall (fun c => address_byte c = true) pre ->
  address_byte c = false -> c <> "/"%char -> c <> "\"%char ->
  length pre < fuel ->
  skip_address fuel (pre ++ c :: t) i = Some (i + length pre).
Proof.
  intros Hpre Hc Hs Hb. revert fuel i.
  induction Hpre as [|d pre Hd Hpre IH]; intros [|fuel] i Hf; cbn [length] in *;
    try lia; cbn [app skip_address].
  - rewrite Hc, !byte_eqb_ne by done. f_equal. lia.
  - rewrite Hd, IH by lia. f_equal. lia.
Qed.

Lemma skipSedAddress_bytes pre c t :
  Forall (fun c => address_byte c = true) pre ->
  address_byte c = false -> c <> "/"%char -> c <> "\"%char ->
  skipSedAddress (pre ++ c :: t) = length pre.
Proof.
  intros. unfold skipSedAddress. rewrite skip_address_bytes; auto.
  rewrite length_app. cbn. lia.
Qed.

(** The command letter after an address of single address bytes decides. *)
Lemma sedCommandUnsafe_at pre c t :
  trim_space (pre ++ c :: t) = pre ++ c :: t ->
  Forall (fun c => address_byte c = true) pre ->
  address_byte c = false -> c <> "/"%char -> c <> "\"%char ->
  sedCommandUnsafe (pre ++ c :: t)
  = if mem_byte c "wWeE" then true
    else if c =?b "s"%char then sedSubstHasUnsafeFlags (c :: t) else false.
Proof.
  intros Htrim Hpre Hc Hs Hb. unfold sedCommandUnsafe. rewrite Htrim.
  by rewrite skipSedAddress_bytes, drop_app_length.
Qed.

(** ** The flags of a substitute command *)

(** Text without the delimiter or a backslash. *)
Definition plain_part (delim : ascii) (s : gostr) : Prop :=
  (delim ∉ s) /\ ("\"%char ∉ s).

Lemma after_delims_plain delim need u t :
  plain_part delim u -> delim <> "\"%char ->
  after_delims delim (S need) (u ++ delim :: t) = after_delims delim need t.
Proof.
  intros [H1 H2] Hd. induction u as [|c u IH]; cbn [app after_delims].
  - rewrite byte_eqb_ne by done. cbn [andb]. by rewrite byte_eqb_refl.
  - apply not_elem_of_cons in H1 as [??], H2 as [??].
    rewrite !byte_eqb_ne by done. cbn [andb]. by apply IH.
Qed.

Lemma sedSubst_flags delim u v flags :
  plain_part delim u -> plain_part delim v -> delim <> "\"%char ->
  sedSubstHasUnsafeFlags ("s"%char :: delim :: u ++ delim :: v ++ delim :: flags)
  = existsb exec_or_write flags.
Proof.
  intros Hu Hv Hd. cbn [sedSubstHasUnsafeFlags].
  rewrite !after_delims_plain by done. by destruct flags.
Qed.

(** ** Properties *)

(** A compound program is judged command by command: when the text before
    an unescaped separator (a semicolon or a newline) does not end inside an
    escape, the whole is unsafe exactly when one of the two parts is, so a
    later command cannot hide behind an earlier one. *)
Theorem sedProgram_sequence (a b : gostr) (sep : ascii) :
  escape_after false a = false -> sep = ";"%char \/ sep = "010"%char ->
  sedProgramUnsafe (a ++ sep :: b) = sedProgramUnsafe a || sedProgramUnsafe b.
Proof.
  intros Ha Hsep. unfold sedProgramUnsafe, splitSedCommands.
  rewrite split_loop_app by done. apply existsb_app.
Qed.

Example sedProgram_sequence_witness :
  sedProgramUnsafe "s/a\;b/c/;1e id" = true.
Proof.
  change "s/a\;b/c/;1e id" with ("s/a\;b/c/" ++ ";"%char :: "1e id").
  rewrite sedProgram_sequence; [reflexivity|reflexivity|by left].
Defined.

(** [skipSedAddress] always stops, within the string (its result is a
    valid slice position for [arg[i]]), for every script text. *)
Theorem skipSedAddress_bound (s : gostr) :
  skip_address (S (length s)) s 0 = Some (skipSedAddress s)
  /\ skipSedAddress s <= length s.
Proof.
  unfold skipSedAddress.
  destruct (skip_address_total (S (length s)) s 0) as (j & -> & Hj); [lia|].
  split; [done|]. cbn. lia.
Qed.

(** A substitute command after a line, range or step address is unsafe
    exactly when its flags hold e, E, w or W, whatever byte delimits it and
    whatever the pattern and replacement are (here without escapes). *)
Theorem sed_substitute_flags (pre u v flags : gostr) (delim : ascii) :
  let cmd := pre ++ "s"%char :: delim :: u ++ delim :: v ++ delim :: flags in
  trim_space cmd = cmd ->
  Forall (fun c => address_byte c = true) pre ->
  plain_part delim u -> plain_part delim v -> delim <> "\"%char ->
  sedCommandUnsafe cmd = existsb exec_or_write flags.
Proof.
  cbn zeta. intros Htrim Hpre Hu Hv Hd.
  rewrite sedCommandUnsafe_at by done. cbn [mem_byte existsb].
  by rewrite sedSubst_flags.
Qed.

Example sed_substitute_flags_witness :
  sedCommandUnsafe "2,$ s|a/b|c|ge" = true.
Proof.
  apply (sed_substitute_flags "2,$ " "a/b" "c" "ge" "|"%char).
  - by vm_compute.
  - by repeat constructor.
  - split; by apply (bool_decide_eq_true_1 (_ ∉ _)).
  - split; by apply (bool_decide_eq_true_1 (_ ∉ _)).
  - done.
Defined.

(** An address followed by the negation mark hides the command from the
    check: whatever follows [!] (a write [w file] or an execute [e command]),
    the command is reported safe. *)
Theorem sed_negated_address_unchecked (pre cmd : gostr) :
  trim_space (pre ++ "!"%char :: cmd) = pre ++ "!"%char :: cmd ->
  Forall (fun c => address_byte c = true) pre ->
  sedCommandUnsafe (pre ++ "!"%char :: cmd) = false.
Proof. intros Htrim Hpre. by rewrite sedCommandUnsafe_at. Qed.

Example sed_negated_address_unchecked_witness :
  sedCommandUnsafe "1!w /tmp/out" = false /\ sedArgUnsafe "1!e id" = false.
Proof.
  split; [|reflexivity].
  apply (sed_negated_address_unchecked "1" "w /tmp/out");
    [by vm_compute|by repeat constructor].
Defined.
