(* ===== verification/FlagCheck.v ===== *)
(** * Unsafe flags and arguments

    Models the flag and argument checks of the auto-approve engine:
    [unsafeFlags] and [containsUnsafeFlagWords] of autoapprove.go with the
    per-command checks of gitexec.go, goexec.go and uniq.go (all under
    src/internal/delegator/autoapprove/). *)
From S2P Require Import Prelude GoStrings ShellScan SedScript.

(** ** Option tokens *)

(** [longFlagMatches]. *)
Definition longFlagMatches (tok lf : gostr) (abbrev : bool) : bool :=
  if bool_decide (tok = lf) || has_prefix (lf ++ "=") tok then true
  else if negb abbrev || negb (has_prefix "--" tok) then false
  else
    let name := drop 2 tok in
    let name := match index_byte "="%char name with
                | Some eq => take eq name
                | None => name
                end in
    negb (bool_decide (name = [])) && has_prefix ("--" ++ name) lf.

(** [longFlagValue]: [None] when no value is attached. *)
Definition longFlagValue (tok : gostr) : option gostr :=
  match index_byte "="%char tok with
  | Some eq => Some (drop (S eq) tok)
  | None => None
  end.

(** ** The flag tables *)

Record unsafeCmdFlags := UnsafeCmdFlags {
  shortFlags : gostr;
  wordFlags : list gostr;
  longFlags : list gostr;
  abbrevLongFlags : bool;
  argCheck : option (gostr -> bool);
  argLongFlags : list gostr;
  argShortFlag : option ascii;
}.

Definition no_flags : unsafeCmdFlags := UnsafeCmdFlags [] [] [] false None [] None.

Definition gitArgUnsafe (arg : gostr) : bool := bool_decide (arg = "config").

Definition unsafeFlags : list (gostr * unsafeCmdFlags) :=
  [ ("sed",
      UnsafeCmdFlags "if" [] ["--in-place"; "--file"] true (Some sedArgUnsafe)
        ["--expression"] (Some "e"%char));
    ("find",
      UnsafeCmdFlags []
        ["-exec"; "-execdir"; "-ok"; "-okdir"; "-delete"; "-fprint"; "-fprint0";
         "-fls"; "-fprintf"] [] false None [] None);
    ("sort",
      UnsafeCmdFlags "o" [] ["--output"; "--compress-program"] true None [] None);
    ("rg", UnsafeCmdFlags [] [] ["--pre"; "--hostname-bin"] false None [] None);
    ("go", no_flags);
    ("uniq", no_flags);
    ("yq",
      UnsafeCmdFlags "is" [] ["--inplace"; "--split-exp"; "--split-exp-file"] false
        None [] None);
    ("ss", UnsafeCmdFlags "DK" [] ["--diag"; "--kill"] true None [] None);
    ("file", UnsafeCmdFlags "C" [] ["--compile"] true None [] None);
    ("git",
      UnsafeCmdFlags "c" [] ["--config-env"] false (Some gitArgUnsafe) [] None);
    ("printf", UnsafeCmdFlags "v" [] [] false None [] None) ].

Definition flagCheckedCommand (cmdBase : gostr) : bool :=
  match table_get unsafeFlags cmdBase with
  | Some _ => true
  | None => bool_decide (cmdBase = "sqlite3")
  end.

(** ** Liveness of the argument words

    The code slices [words[1:]]; every caller has checked that there is a
    command word. *)
Definition globArgUnsafe (words : list shellWord) : bool :=
  existsb canYieldFlag (tail words).
Definition braceArgUnsafe (words : list shellWord) : bool :=
  existsb w_hasLiveBrace (tail words).
Definition substArgUnsafe (words : list shellWord) : bool :=
  existsb w_hasLiveSubst (tail words).

Definition visibleCmdBase (words : list shellWord) : gostr :=
  match words with [] => [] | w :: _ => base (w_visible w) end.

(** [spec.argCheck != nil && spec.argCheck(value)]. *)
Definition check_arg (spec : unsafeCmdFlags) (value : gostr) : bool :=
  match argCheck spec with Some f => f value | None => false end.

Definition is_letter (ch : ascii) : bool := byte_in "A" "Z" ch || byte_in "a" "z" ch.

Fixpoint shortBundleUnsafe (spec : unsafeCmdFlags) (bundle next : gostr) : bool :=
  match bundle with
  | [] => false
  | ch :: bundle =>
      if negb (is_letter ch) then false
      else if mem_byte ch (shortFlags spec) then true
      else if bool_decide (argShortFlag spec = Some ch) then
        check_arg spec (match bundle with [] => next | _ => bundle end)
      else shortBundleUnsafe spec bundle next
  end.

(** ** Command-specific checks *)

(** [sqliteCommandUnsafe]. *)
Definition sqlite_arg_unsafe (token : gostr) : bool :=
  let arg := trim_space token in
  has_prefix "-" arg || has_prefix "." arg
  || existsb (fun line => has_prefix "." (trim_space line)) (split_byte "010"%char arg).

Definition sqliteCommandUnsafe (tokens : list gostr) : bool :=
  if (length tokens <? 4) || negb (bool_decide (tokens !! 1 = Some "-readonly")) then true
  else existsb sqlite_arg_unsafe (drop 2 tokens).

(** [gitGrepPagerUnsafe]; the [switch] tests the subcommand word first. *)
Definition is_grep_word (w : shellWord) : bool := bool_decide (w_visible w = "grep").
Definition is_pager_word (w : shellWord) : bool :=
  negb (is_grep_word w)
  && (has_prefix "-O" (w_visible w)
      || longFlagMatches (w_visible w) "--open-files-in-pager" true).

Definition gitGrepPagerUnsafe (words : list shellWord) : bool :=
  existsb is_grep_word words && existsb is_pager_word words.

(** *** gitexec.go *)

Definition gitTopValueOptions : list gostr :=
  ["-C"; "-c"; "--git-dir"; "--work-tree"; "--namespace"; "--config-env";
   "--attr-source"; "--super-prefix"].

Record gitProgramOptions := GitProgramOptions {
  gp_longFlags : list gostr;
  gp_shortFlags : gostr;
  gp_shortValue : gostr;
  gp_actions : list gostr;
}.

Definition gitProgramSubcommands : list (gostr * gitProgramOptions) :=
  [ ("rebase", GitProgramOptions ["--exec"] "x" "sXCS" []);
    ("bisect", GitProgramOptions [] [] [] ["run"]);
    ("submodule", GitProgramOptions [] [] [] ["foreach"]);
    ("difftool", GitProgramOptions ["--extcmd"] "x" "tO" []);
    ("fetch", GitProgramOptions ["--upload-pack"] [] [] []);
    ("pull", GitProgramOptions ["--upload-pack"] [] [] []);
    ("ls-remote", GitProgramOptions ["--upload-pack"; "--exec"] "u" [] []);
    ("clone",
      GitProgramOptions ["--upload-pack"; "--template"; "--config"] "u" "objc" []);
    ("push", GitProgramOptions ["--receive-pack"; "--exec"] [] "o" []);
    ("archive", GitProgramOptions ["--exec"] [] "o" []);
    ("fetch-pack", GitProgramOptions ["--upload-pack"; "--exec"] [] [] []);
    ("send-pack", GitProgramOptions ["--receive-pack"; "--exec"] [] [] []);
    ("send-email",
      GitProgramOptions
        ["--smtp-server"; "--sendmail-cmd"; "--to-cmd"; "--cc-cmd"; "--header-cmd"]
        [] [] []);
    ("filter-branch",
      GitProgramOptions
        ["--setup"; "--env-filter"; "--tree-filter"; "--index-filter";
         "--parent-filter"; "--msg-filter"; "--commit-filter"; "--tag-name-filter"]
        [] [] []) ].

Fixpoint shortBundleRunsProgram (spec : gitProgramOptions) (bundle : gostr) : bool :=
  match bundle with
  | [] => false
  | ch :: bundle =>
      if mem_byte ch (gp_shortFlags spec) then true
      else if mem_byte ch (gp_shortValue spec) then false
      else shortBundleRunsProgram spec bundle
  end.

Fixpoint argsRunProgram_loop (spec : gitProgramOptions) (seenPositional : bool)
    (args : list gostr) : bool :=
  match args with
  | [] => false
  | a :: args =>
      if has_prefix "--" a then
        if existsb (fun lf => longFlagMatches a lf true) (gp_longFlags spec) then true
        else argsRunProgram_loop spec seenPositional args
      else if has_prefix "-" a && (2 <=? length a) then
        if shortBundleRunsProgram spec (drop 1 a) then true
        else argsRunProgram_loop spec seenPositional args
      else if seenPositional then argsRunProgram_loop spec true args
      else if in_table (gp_actions spec) a then true
      else argsRunProgram_loop spec true args
  end.

Definition argsRunProgram (spec : gitProgramOptions) (args : list gostr) : bool :=
  argsRunProgram_loop spec false args.

(** The loop over the top-level options: [None] is the early [return true],
    otherwise the arguments left. *)
Fixpoint git_top_options (args : list gostr) : option (list gostr) :=
  match args with
  | [] => Some []
  | a :: rest =>
      if bool_decide (a = "--") || negb (has_prefix "-" a) then Some args
      else if has_prefix "--exec-path=" a then None
      else if in_table gitTopValueOptions a then
        match rest with [] => Some [] | _ :: rest => git_top_options rest end
      else git_top_options rest
  end.

Definition gitRunsNamedProgram (words : list shellWord) : bool :=
  match visibleTexts words with
  | [] => false
  | _ :: args =>
      match git_top_options args with
      | None => true
      | Some args =>
          let args := match args with
                      | a :: rest => if bool_decide (a = "--") then rest else args
                      | [] => []
                      end in
          match args with
          | [] => false
          | sub :: rest =>
              match table_get gitProgramSubcommands sub with
              | None => false
              | Some spec => argsRunProgram spec rest
              end
          end
      end
  end.

(** *** uniq.go *)

Definition uniqNumericValue (value : gostr) : bool :=
  match value with [] => false | _ => forallb is_digit value end.

(** The outcome of one option token of [uniqCommandUnsafe]: refuse, go on, or
    take the next word as a numeric value. *)
Inductive uniq_token := UniqRefuse | UniqNext | UniqValueNext.

Definition uniq_long (tok : gostr) : uniq_token :=
  let '(name, value, attached) := cut "=" tok in
  if in_table ["--count"; "--repeated"; "--ignore-case"; "--unique";
               "--zero-terminated"; "--help"; "--version"] name
  then if attached then UniqRefuse else UniqNext
  else if in_table ["--all-repeated"; "--group"] name then UniqNext
  else if in_table ["--skip-fields"; "--skip-chars"; "--check-chars"] name
  then if attached then if uniqNumericValue value then UniqNext else UniqRefuse
       else UniqValueNext
  else UniqRefuse.

Fixpoint uniq_short (bundle : gostr) : uniq_token :=
  match bundle with
  | [] => UniqNext
  | ch :: bundle =>
      if mem_byte ch "cdiuz" then uniq_short bundle
      else if ch =?b "D"%char then UniqNext
      else if mem_byte ch "fsw" then
        match bundle with
        | [] => UniqValueNext
        | value => if uniqNumericValue value then UniqNext else UniqRefuse
        end
      else UniqRefuse
  end.

(** The main loop of [uniqCommandUnsafe] over [words[i:]]. *)
Fixpoint uniq_loop (options input : bool) (toks : list gostr) : bool :=
  match toks with
  | [] => false
  | tok :: toks =>
      let after r :=
        match r with
        | UniqRefuse => true
        | UniqNext => uniq_loop options input toks
        | UniqValueNext =>
            match toks with
            | [] => true
            | value :: toks =>
                if uniqNumericValue value then uniq_loop options input toks else true
            end
        end in
      if options && bool_decide (tok = "--") then uniq_loop false input toks
      else if options && has_prefix "--" tok then after (uniq_long tok)
      else if options && (1 <? length tok) && has_prefix "-" tok then
        after (uniq_short (drop 1 tok))
      else if input then true
      else uniq_loop false true toks
  end.

Definition uniqCommandUnsafe (words : list shellWord) : bool :=
  existsb (fun w => w_hasLiveGlob w || w_hasLiveBrace w || w_hasLiveSubst w) (tail words)
  || uniq_loop true false (visibleTexts (tail words)).

(** *** goexec.go *)

Definition goEveryCommandFlags : list gostr :=
  ["toolexec"; "exec"; "vettool"; "fixtool"; "compiler"; "ldflags"].

Definition goSubcommandFlags : list (gostr * list gostr) :=
  [("env", ["w"; "u"]); ("vet", ["fix"]); ("doc", ["http"])].

(** [goFlagName]: [None] for a token that is not a flag. *)
Definition goFlagName (tok : gostr) : option gostr :=
  if (length tok <? 2) || negb (has_prefix "-" tok) then None
  else
    let name := drop 1 tok in
    let name := if has_prefix "-" name then drop 1 name else name in
    match name with
    | [] => None
    | c :: _ =>
        if (c =?b "-"%char) || (c =?b "="%char) then None
        else Some (match index_byte "="%char name with
                   | Some eq => take eq name
                   | None => name
                   end)
    end.

Definition go_sub_flag (sub name : gostr) : bool :=
  match table_get goSubcommandFlags sub with
  | Some flags => in_table flags name
  | None => false
  end.

Fixpoint go_loop (sub : gostr) (args : list gostr) : bool :=
  match args with
  | [] => false
  | a :: args =>
      match goFlagName a with
      | None =>
          go_loop (if bool_decide (sub = []) && negb (bool_decide (a = "--"))
                   then a else sub) args
      | Some name =>
          if in_table goEveryCommandFlags name then true
          else if bool_decide (sub = []) then
            if bool_decide (name = "C") && negb (contains "=" a) then
              match args with [] => false | _ :: args => go_loop sub args end
            else go_loop sub args
          else if go_sub_flag sub name then true
          else go_loop sub args
      end
  end.

Definition goRunsProgram (words : list shellWord) : bool :=
  match visibleTexts words with
  | [] => false
  | _ :: args => go_loop [] args
  end.

(** ** [containsUnsafeFlagWords] *)

(** The body of the positional scan at one token; [next] is the visible text
    of the following word, empty at the end. *)
Definition token_unsafe (spec : unsafeCmdFlags) (tok next : gostr) : bool :=
  if (2 <=? length tok) && has_prefix "-" tok then
    if has_prefix "--" tok then
      existsb (fun lf => longFlagMatches tok lf (abbrevLongFlags spec)) (longFlags spec)
      || existsb (fun lf =>
           longFlagMatches tok lf (abbrevLongFlags spec)
           && check_arg spec (default next (longFlagValue tok))) (argLongFlags spec)
    else
      existsb (fun wf => bool_decide (tok = wf) || has_prefix (wf ++ "=") tok)
        (wordFlags spec)
      || shortBundleUnsafe spec (drop 1 tok) next
  else check_arg spec tok.

Fixpoint flag_scan (spec : unsafeCmdFlags) (toks : list gostr) : bool :=
  match toks with
  | [] => false
  | tok :: toks => token_unsafe spec tok (hd [] toks) || flag_scan spec toks
  end.

Definition containsUnsafeFlagWords (words : list shellWord) : bool :=
  match words with
  | [] => false
  | _ =>
      let cmdBase := visibleCmdBase words in
      if bool_decide (cmdBase = "sqlite3") && sqliteCommandUnsafe (visibleTexts words)
      then true
      else if bool_decide (cmdBase = "git")
              && (gitGrepPagerUnsafe words || gitRunsNamedProgram words) then true
      else if bool_decide (cmdBase = "uniq") && uniqCommandUnsafe words then true
      else if bool_decide (cmdBase = "go") && goRunsProgram words then true
      else if negb (flagCheckedCommand cmdBase) then false
      else if globArgUnsafe words || braceArgUnsafe words || substArgUnsafe words
      then true
      else match table_get unsafeFlags cmdBase with
           | None => false
           | Some spec => flag_scan spec (visibleTexts (tail words))
           end
  end.

Definition containsUnsafeFlags (segment : gostr) : bool :=
  containsUnsafeFlagWords (scanShellWords segment).

(** ** Words up to what the shell shows the program

    Every check reads the visible text and the liveness facts of a word, never
    its token text. *)
Definition shell_equiv (w w' : shellWord) : Prop :=
  w_visible w = w_visible w' /\ w_firstLiveGlob w = w_firstLiveGlob w'
  /\ w_hasLiveGlob w = w_hasLiveGlob w' /\ w_hasLiveBrace w = w_hasLiveBrace w'
  /\ w_hasLiveSubst w = w_hasLiveSubst w'.

#[export] Instance shell_equiv_equivalence : Equivalence shell_equiv.
Proof.
  split; unfold shell_equiv; red; intros; destruct_and?; split_and!; congruence.
Qed.

Definition line_equiv : list shellWord -> list shellWord -> Prop := Forall2 shell_equiv.

#[export] Instance visibleTexts_proper : Proper (line_equiv ==> eq) visibleTexts.
Proof.
  intros ws ws' H. unfold visibleTexts. induction H as [|w w' ws ws' Hw H IH]; [done|].
  cbn. f_equal; [apply Hw|exact IH].
Qed.

#[export] Instance tail_proper : Proper (line_equiv ==> line_equiv) (@tail shellWord).
Proof. intros ws ws' H. destruct H; [constructor|done]. Qed.

Lemma existsb_proper (f : shellWord -> bool) :
  Proper (shell_equiv ==> eq) f -> Proper (line_equiv ==> eq) (existsb f).
Proof.
  intros Hf ws ws' H. induction H as [|w w' ws ws' Hw H IH]; [done|].
  cbn. by rewrite (Hf _ _ Hw), IH.
Qed.

#[export] Instance canYieldFlag_proper : Proper (shell_equiv ==> eq) canYieldFlag.
Proof. intros w w' (Hv & Hf & Hg & _). unfold canYieldFlag. by rewrite Hv, Hf, Hg. Qed.
#[export] Instance hasLiveBrace_proper : Proper (shell_equiv ==> eq) w_hasLiveBrace.
Proof. by intros w w' (_ & _ & _ & H & _). Qed.
#[export] Instance hasLiveSubst_proper : Proper (shell_equiv ==> eq) w_hasLiveSubst.
Proof. by intros w w' (_ & _ & _ & _ & H). Qed.
#[export] Instance hasLiveGlob_proper : Proper (shell_equiv ==> eq) w_hasLiveGlob.
Proof. by intros w w' (_ & _ & H & _). Qed.
#[export] Instance visible_proper : Proper (shell_equiv ==> eq) w_visible.
Proof. by intros w w' (H & _). Qed.

#[export] Instance visibleCmdBase_proper : Proper (line_equiv ==> eq) visibleCmdBase.
Proof. intros ws ws' H. destruct H as [|w w' ws ws' Hw H]; [done|]. cbn. by rewrite (visible_proper _ _ Hw). Qed.

#[export] Instance gitGrepPagerUnsafe_proper : Proper (line_equiv ==> eq) gitGrepPagerUnsafe.
Proof.
  intros ws ws' H. unfold gitGrepPagerUnsafe.
  f_equal; apply existsb_proper; try done; intros w w' Hw;
    unfold is_pager_word, is_grep_word; by rewrite (visible_proper _ _ Hw).
Qed.

#[export] Instance uniqCommandUnsafe_proper : Proper (line_equiv ==> eq) uniqCommandUnsafe.
Proof.
  intros ws ws' H. unfold uniqCommandUnsafe. f_equal.
  - apply existsb_proper; [|by apply tail_proper]. intros w w' Hw.
    by rewrite (hasLiveGlob_proper _ _ Hw), (hasLiveBrace_proper _ _ Hw),
      (hasLiveSubst_proper _ _ Hw).
  - by rewrite (visibleTexts_proper _ _ (tail_proper _ _ H)).
Qed.

Lemma containsUnsafeFlagWords_equiv ws ws' :
  line_equiv ws ws' -> containsUnsafeFlagWords ws = containsUnsafeFlagWords ws'.
Proof.
  intros H. pose proof (tail_proper _ _ H) as Ht.
  unfold containsUnsafeFlagWords.
  rewrite (visibleCmdBase_proper _ _ H), (visibleTexts_proper _ _ H),
    (gitGrepPagerUnsafe_proper _ _ H), (uniqCommandUnsafe_proper _ _ H).
  unfold gitRunsNamedProgram, goRunsProgram, globArgUnsafe, braceArgUnsafe, substArgUnsafe.
  rewrite (visibleTexts_proper _ _ H), (visibleTexts_proper _ _ Ht),
    (existsb_proper _ canYieldFlag_proper _ _ Ht),
    (existsb_proper _ hasLiveBrace_proper _ _ Ht),
    (existsb_proper _ hasLiveSubst_proper _ _ Ht).
  by destruct H.
Qed.

(** ** Lemmas on the scans *)

Lemma flag_scan_app spec pre post :
  flag_scan spec post = true -> flag_scan spec (pre ++ post) = true.
Proof.
  intros H. induction pre as [|t pre IH]; [done|].
  cbn. rewrite IH. apply orb_true_r.
Qed.

Lemma flag_scan_at spec toks i tok :
  toks !! i = Some tok -> token_unsafe spec tok (default [] (toks !! S i)) = true ->
  flag_scan spec toks = true.
Proof.
  revert i. induction toks as [|t toks IH]; intros [|i] Hi Hu; simplify_eq/=.
  - replace (hd [] toks) with (default [] (toks !! 0)) by (by destruct toks).
    by rewrite Hu.
  - by rewrite (IH i), orb_true_r.
Qed.

Lemma has_prefix_cons_dash (c : ascii) s : has_prefix "-" (c :: s) = ("-"%char =?b c).
Proof. cbn. by rewrite andb_true_r. Qed.

Lemma longFlagMatches_exact lf abbrev : longFlagMatches lf lf abbrev = true.
Proof. unfold longFlagMatches. by rewrite bool_decide_eq_true_2. Qed.

Lemma longFlagMatches_value lf v abbrev :
  longFlagMatches (lf ++ "=" ++ v) lf abbrev = true.
Proof.
  unfold longFlagMatches.
  rewrite app_assoc, has_prefix_app, orb_true_r. done.
Qed.

Lemma index_byte_app_eq c n v : c ∉ n -> index_byte c (n ++ c :: v) = Some (length n).
Proof.
  intros H. induction n as [|d n IH]; cbn; [by rewrite byte_eqb_refl|].
  apply not_elem_of_cons in H as [Hc H]. rewrite byte_eqb_ne by done. by rewrite IH.
Qed.

Lemma longFlagMatches_abbrev name rest tail :
  name <> [] -> "="%char ∉ name -> tail = [] \/ next_is (byte_eqb "="%char) tail = true ->
  longFlagMatches ("--" ++ name ++ tail) ("--" ++ name ++ rest) true = true.
Proof.
  intros Hne Heq Ht. unfold longFlagMatches. destruct (_ || _); [done|].
  change (has_prefix "--" ("--" ++ name ++ tail)) with true.
  change (drop 2 ("--" ++ name ++ tail)) with (name ++ tail). cbn [negb orb].
  assert (match index_byte "="%char (name ++ tail) with
          | Some eq => take eq (name ++ tail) | None => name ++ tail end = name) as Hn.
  { destruct tail as [|c tail].
    - rewrite app_nil_r. apply index_byte_None in Heq. by rewrite Heq.
    - destruct Ht as [?|Ht]; [done|]. cbn [next_is] in Ht. destruct (byte_eqb_spec "="%char c); [subst|done].
      by rewrite index_byte_app_eq, take_app_length. }
  rewrite Hn, bool_decide_eq_false_2 by done. cbn [negb andb].
  rewrite (app_assoc "--" name rest). apply has_prefix_app.
Qed.

Lemma longFlagMatches_inv tok lf :
  longFlagMatches tok lf true = true ->
  tok = lf \/ (exists v, tok = lf ++ "=" ++ v)
  \/ exists name rest tail, name <> [] /\ ("="%char ∉ name)
       /\ lf = "--" ++ name ++ rest /\ tok = "--" ++ name ++ tail
       /\ (tail = [] \/ next_is (byte_eqb "="%char) tail = true).
Proof.
  unfold longFlagMatches. destruct (bool_decide (tok = lf)) eqn:E1.
  { apply bool_decide_eq_true in E1. auto. }
  destruct (has_prefix (lf ++ "=") tok) eqn:E2.
  { apply has_prefix_spec in E2 as [v ->]. rewrite <- app_assoc. eauto. }
  cbn [orb negb]. destruct (has_prefix "--" tok) eqn:E3; [|done].
  apply has_prefix_spec in E3 as [t ->].
  change (drop 2 ("--" ++ t)) with t. cbn [negb].
  destruct (index_byte "="%char t) as [e|] eqn:He;
    intros [Hn%negb_true_iff%bool_decide_eq_false [rest ->]%has_prefix_spec]%andb_true_iff;
    right; right.
  - apply index_byte_Some in He as (v & Ht & Hlt & Hni).
    exists (take e t), rest, ("="%char :: v). split_and!; [done..| |by right].
    by rewrite Ht at 1.
  - exists t, rest, []. apply index_byte_None in He. rewrite app_nil_r.
    split_and!; [done..|by left].
Qed.

(** ** Quoted lines *)

Lemma inert_line_equiv ws ws' :
  visibleTexts ws = visibleTexts ws' -> Forall inert ws -> Forall inert ws' ->
  line_equiv ws ws'.
Proof.
  unfold visibleTexts. revert ws'. induction ws as [|w ws IH]; intros [|w' ws'] Hv Hi Hi';
    simplify_eq/=; [constructor|].
  apply Forall_cons in Hi as [(H1 & H2 & H3 & H4 & H5) Hi],
    Hi' as [(H1' & H2' & H3' & H4' & H5') Hi'].
  constructor; [|by apply IH]. unfold shell_equiv. split_and!; congruence.
Qed.

Lemma scan_quoted_inert args :
  Forall quotable args ->
  visibleTexts (scanShellWords (join " " (quote_word <$> args))) = snd <$> args
  /\ Forall inert (scanShellWords (join " " (quote_word <$> args))).
Proof.
  intros H. rewrite scanShellWords_scan. unfold scan_start.
  destruct (scan_quoted_words args [] H) as (ws & -> & Hv & Hi). done.
Qed.

(** ** How a sed program reaches sed *)

Definition sed_flags : unsafeCmdFlags :=
  UnsafeCmdFlags "if" [] ["--in-place"; "--file"] true (Some sedArgUnsafe)
    ["--expression"] (Some "e"%char).

(** The argument forms that hand [script] to sed: a plain operand, [-e script]
    and [-escript] at the end of a bundle of other option letters, and
    [--expression] in full or abbreviated with the script attached or next. *)
Inductive sed_delivery (script : gostr) : list gostr -> Prop :=
| deliver_operand :
    has_prefix "-" script = false -> sed_delivery script [script]
| deliver_short_next bundle :
    Forall (fun c => is_letter c = true) bundle -> "e"%char ∉ bundle ->
    sed_delivery script ["-"%char :: bundle ++ ["e"%char]; script]
| deliver_short_attached bundle :
    Forall (fun c => is_letter c = true) bundle -> "e"%char ∉ bundle -> script <> [] ->
    sed_delivery script ["-"%char :: bundle ++ "e"%char :: script]
| deliver_long_next name rest :
    name <> [] -> "expression" = name ++ rest ->
    sed_delivery script ["--" ++ name; script]
| deliver_long_attached name rest :
    name <> [] -> "expression" = name ++ rest ->
    sed_delivery script ["--" ++ name ++ "=" ++ script].

Lemma shortBundle_sed_e bundle script next :
  Forall (fun c => is_letter c = true) bundle -> "e"%char ∉ bundle ->
  sedArgUnsafe (match script with [] => next | _ => script end) = true ->
  shortBundleUnsafe sed_flags (bundle ++ "e"%char :: script) next = true.
Proof.
  intros Hl He Hs. induction bundle as [|c bundle IH].
  - exact Hs.
  - apply Forall_cons in Hl as [Hc Hl]. apply not_elem_of_cons in He as [Hne He].
    cbn [app shortBundleUnsafe]. rewrite Hc. cbn [negb].
    destruct (mem_byte c (shortFlags sed_flags)); [done|].
    rewrite bool_decide_eq_false_2 by (cbn; congruence). by apply IH.
Qed.

Lemma expression_prefix name rest :
  "expression" = name ++ rest -> "="%char ∉ name.
Proof.
  intros H Hin. assert ("="%char ∈ (name ++ rest)) as Hin' by (apply elem_of_app; by left).
  rewrite <- H in Hin'. by apply mem_byte_spec in Hin'.
Qed.

Lemma longFlagMatches_expression name rest tail :
  name <> [] -> "expression" = name ++ rest ->
  tail = [] \/ next_is (byte_eqb "="%char) tail = true ->
  longFlagMatches ("--" ++ name ++ tail) "--expression" true = true.
Proof.
  intros Hne H Ht. change "--expression" with ("--" ++ "expression"). rewrite H.
  apply longFlagMatches_abbrev; [done|by eapply expression_prefix|done].
Qed.

Lemma token_unsafe_long name tail next :
  longFlagMatches ("--" ++ name ++ tail) "--expression" true = true ->
  sedArgUnsafe (default next (longFlagValue ("--" ++ name ++ tail))) = true ->
  token_unsafe sed_flags ("--" ++ name ++ tail) next = true.
Proof.
  intros Hm Hs. unfold token_unsafe.
  change (has_prefix "--" ("--" ++ name ++ tail)) with true.
  change ((2 <=? length ("--" ++ name ++ tail)) && has_prefix "-" ("--" ++ name ++ tail))
    with true. cbv iota.
  cbn [abbrevLongFlags sed_flags argLongFlags existsb]. rewrite Hm.
  unfold check_arg. cbn [argCheck sed_flags]. rewrite Hs. apply orb_true_r.
Qed.

Lemma token_unsafe_short bundle next :
  bundle <> [] -> has_prefix "-" bundle = false ->
  shortBundleUnsafe sed_flags bundle next = true ->
  token_unsafe sed_flags ("-"%char :: bundle) next = true.
Proof.
  intros Hne Hd H. unfold token_unsafe. destruct bundle as [|c bundle]; [done|].
  change ((2 <=? length ("-"%char :: c :: bundle)) && has_prefix "-" ("-"%char :: c :: bundle))
    with true.
  change (has_prefix "--" ("-"%char :: c :: bundle)) with (has_prefix "-" (c :: bundle)).
  rewrite Hd. cbn [existsb wordFlags sed_flags orb drop]. exact H.
Qed.

Lemma letter_not_dash bundle script :
  Forall (fun c => is_letter c = true) bundle ->
  has_prefix "-" (bundle ++ "e"%char :: script) = false.
Proof.
  destruct 1 as [|c bundle Hc _]; [done|]. cbn [app]. rewrite has_prefix_cons_dash.
  by destruct (byte_eqb_spec "-"%char c); [subst|].
Qed.

Lemma longFlagValue_none name : "="%char ∉ name -> longFlagValue ("--" ++ name) = None.
Proof.
  intros H. unfold longFlagValue.
  assert (index_byte "="%char ("--" ++ name) = None) as ->; [|done].
  apply index_byte_None. intros Hin.
  apply elem_of_app in Hin as [Hin|Hin]; [by apply mem_byte_spec in Hin|done].
Qed.

Lemma longFlagValue_some name v :
  "="%char ∉ name -> longFlagValue ("--" ++ name ++ "=" ++ v) = Some v.
Proof.
  intros H. set (n := "--" ++ name).
  assert ("="%char ∉ n) as Hn.
  { intros Hin. apply elem_of_app in Hin as [Hin|Hin]; [by apply mem_byte_spec in Hin|done]. }
  change ("--" ++ name ++ "=" ++ v) with (n ++ "="%char :: v).
  unfold longFlagValue. rewrite (index_byte_app_eq "="%char n v Hn). f_equal.
  rewrite cons_middle, app_assoc.
  replace (S (length n)) with (length (n ++ ["="%char])) by (rewrite length_app; cbn; lia).
  apply drop_app_length.
Qed.

Lemma sed_delivery_flagged script d next :
  sed_delivery script d -> sedArgUnsafe script = true -> flag_scan sed_flags (d ++ next) = true.
Proof.
  intros Hd Hs.
  assert (forall tok rest, token_unsafe sed_flags tok (hd [] rest) = true ->
    flag_scan sed_flags (tok :: rest) = true) as Hfirst.
  { intros tok rest H. cbn [flag_scan]. by rewrite H. }
  destruct Hd as [Hop|b Hl He|b Hl He Hne|n r Hn Hx|n r Hn Hx]; apply Hfirst.
  - unfold token_unsafe. rewrite Hop, andb_false_r. exact Hs.
  - apply token_unsafe_short; [by destruct b|by apply letter_not_dash|].
    by apply shortBundle_sed_e.
  - apply token_unsafe_short; [by destruct b|by apply letter_not_dash|].
    apply shortBundle_sed_e; [done..|]. by destruct script.
  - rewrite <- (app_nil_r n). apply token_unsafe_long.
    + by eapply longFlagMatches_expression; [..|left].
    + rewrite app_nil_r, longFlagValue_none; [exact Hs|by eapply expression_prefix].
  - apply token_unsafe_long.
    + by eapply longFlagMatches_expression; [..|right].
    + rewrite longFlagValue_some; [exact Hs|by eapply expression_prefix].
Qed.

(** ** git: the subcommand behind the top-level options *)

(** A list of top-level options as git reads it: single words, and the
    options that take the next word as their value. *)
Inductive git_globals : list gostr -> Prop :=
| globals_nil : git_globals []
| globals_single a top :
    has_prefix "-" a = true -> a <> "--" -> a ∉ gitTopValueOptions ->
    git_globals top -> git_globals (a :: top)
| globals_value a v top :
    a ∈ gitTopValueOptions -> git_globals top -> git_globals (a :: v :: top).

Lemma gitTopValueOptions_flag a :
  a ∈ gitTopValueOptions ->
  has_prefix "-" a = true /\ a <> "--" /\ has_prefix "--exec-path=" a = false.
Proof.
  intros H. repeat (apply elem_of_cons in H as [->|H]; [by split_and!|]).
  by apply elem_of_nil in H.
Qed.

Lemma git_top_options_globals top sub rest :
  git_globals top -> has_prefix "-" sub = false ->
  git_top_options (top ++ sub :: rest) = None
  \/ git_top_options (top ++ sub :: rest) = Some (sub :: rest).
Proof.
  intros Htop Hsub. induction Htop as [|a top Ha Hne Hnv Htop IH|a v top Ha Htop IH].
  - right. cbn [app git_top_options]. by rewrite Hsub, orb_true_r.
  - cbn [app git_top_options]. rewrite Ha, bool_decide_eq_false_2 by done. cbn [negb orb].
    destruct (has_prefix "--exec-path=" a); [by left|].
    apply in_table_false in Hnv. by rewrite Hnv.
  - apply gitTopValueOptions_flag in Ha as Hf. destruct Hf as (Hd & Hne & Hx).
    cbn [app git_top_options]. rewrite Hd, Hx, bool_decide_eq_false_2 by done.
    apply in_table_spec in Ha. by rewrite Ha.
Qed.

Lemma argsRunProgram_long spec seen args a lf :
  a ∈ args -> lf ∈ gp_longFlags spec -> has_prefix "--" a = true ->
  longFlagMatches a lf true = true ->
  argsRunProgram_loop spec seen args = true.
Proof.
  intros Ha Hlf Hd Hm. revert seen. induction args as [|b args IH]; intros seen.
  { by apply elem_of_nil in Ha. }
  cbn [argsRunProgram_loop]. apply elem_of_cons in Ha as [<-|Ha].
  - rewrite Hd.
    assert (existsb (fun lf => longFlagMatches a lf true) (gp_longFlags spec) = true) as ->; [|done].
    apply existsb_exists. exists lf. split; [by apply list_elem_of_In|done].
  - specialize (IH Ha). repeat case_match; auto.
Qed.

(** ** go: flags as go reads them *)

Definition go_spelling (name tok : gostr) : Prop :=
  tok = "-" ++ name \/ tok = "--" ++ name
  \/ exists v, tok = "-" ++ name ++ "=" ++ v \/ tok = "--" ++ name ++ "=" ++ v.

Definition go_name (name : gostr) : Prop :=
  next_is (fun c => negb (c =?b "-"%char)) name = true /\ ("="%char ∉ name).

Lemma go_flag_body name tail :
  go_name name -> tail = [] \/ (exists v, tail = "="%char :: v) ->
  match index_byte "="%char (name ++ tail) with
  | Some eq => take eq (name ++ tail) | None => name ++ tail end = name.
Proof.
  intros [_ Heq] [->|[v ->]].
  - rewrite app_nil_r. apply index_byte_None in Heq. by rewrite Heq.
  - by rewrite index_byte_app_eq, take_app_length.
Qed.

Lemma goFlagName_body dash name tail :
  dash = "-" \/ dash = "--" -> go_name name -> tail = [] \/ (exists v, tail = "="%char :: v) ->
  goFlagName (dash ++ name ++ tail) = Some name.
Proof.
  intros Hd Hn Ht. pose proof (go_flag_body name tail Hn Ht) as Hb. destruct Hn as [Hn Heq].
  destruct name as [|c name]; [done|]. cbn [next_is] in Hn. apply negb_true_iff in Hn.
  apply not_elem_of_cons in Heq as [Hc _].
  assert ((c =?b "="%char) = false) as Hce by (apply byte_eqb_ne; congruence).
  assert (("-"%char =?b c) = false) as Hcd.
  { apply byte_eqb_ne. intros <-. by rewrite byte_eqb_refl in Hn. }
  unfold goFlagName. change ((c :: name) ++ tail) with (c :: name ++ tail) in *.
  destruct Hd as [-> | ->]; cbn -[byte_eqb index_byte take];
    change ("-"%char =?b "-"%char) with true; rewrite ?Hcd; cbn -[byte_eqb index_byte take];
    rewrite ?drop_0, Hn, Hce; cbn [orb]; by rewrite Hb.
Qed.

(** A command with a flag table is refused when its scan finds something. *)
Lemma flag_scan_refused cmd args spec :
  table_get unsafeFlags (base (w_visible cmd)) = Some spec ->
  flag_scan spec (visibleTexts args) = true ->
  containsUnsafeFlagWords (cmd :: args) = true.
Proof.
  intros Hspec Hscan. unfold containsUnsafeFlagWords.
  repeat (case_match; [done|]). subst. cbn [visibleCmdBase tail] in *.
  unfold flagCheckedCommand. rewrite Hspec. cbn [negb]. by case_match.
Qed.

(** No top-level [-C] before the flag: its next word is a directory. *)
Definition not_dir_flag (a : gostr) : Prop := goFlagName a <> Some "C".

Lemma go_loop_every sub pre tok post name :
  Forall not_dir_flag pre -> goFlagName tok = Some name ->
  in_table goEveryCommandFlags name = true ->
  go_loop sub (pre ++ tok :: post) = true.
Proof.
  intros Hpre Hn Hin. revert sub. induction Hpre as [|a pre Ha Hpre IH]; intros sub.
  - cbn [app go_loop]. by rewrite Hn, Hin.
  - cbn [app go_loop]. unfold not_dir_flag in Ha.
    destruct (goFlagName a) as [n|]; [|apply IH].
    rewrite (bool_decide_eq_false_2 (n = "C")) by congruence. cbn [andb].
    repeat case_match; auto.
Qed.

(** ** Properties *)

(** Quoting cannot change the verdict: two command lines whose arguments
    are the same texts, each argument quoted in any of the three ways, get the
    same answer from [containsUnsafeFlags] (so [sed '-i'] and [sed $'\x2di']
    are judged as [sed \-i]). *)
Theorem quoting_keeps_verdict (args args' : list (quoting * gostr)) :
  Forall quotable args -> Forall quotable args' ->
  (snd <$> args) = (snd <$> args') ->
  containsUnsafeFlags (join " " (quote_word <$> args))
  = containsUnsafeFlags (join " " (quote_word <$> args')).
Proof.
  intros H H' E. unfold containsUnsafeFlags. apply containsUnsafeFlagWords_equiv.
  destruct (scan_quoted_inert args H) as [Hv Hi].
  destruct (scan_quoted_inert args' H') as [Hv' Hi'].
  apply inert_line_equiv; [by rewrite Hv, Hv', E|done..].
Qed.

Example quoting_keeps_verdict_witness :
  containsUnsafeFlags
    (join " " (quote_word <$> [(SingleQuoted, "sed"); (AnsiQuoted, "-i"); (SingleQuoted, "x")]))
  = containsUnsafeFlags
    (join " " (quote_word <$> [(BackslashEscaped, "sed"); (SingleQuoted, "-i"); (AnsiQuoted, "x")])).
Proof.
  apply quoting_keeps_verdict; [| |reflexivity];
    repeat constructor; try done; by apply (bool_decide_eq_true_1 (_ ∉ _)).
Defined.

(** [longFlagMatches] accepts exactly the spellings the option parsers
    accept: the flag, the flag with an attached value and, for a parser that
    takes abbreviations, a non-empty prefix of the flag's name in either form.
    A plain word never matches. *)
Theorem longFlagMatches_correct (tok lf : gostr) (abbrev : bool) :
  longFlagMatches tok lf abbrev = true <->
  tok = lf \/ (exists v, tok = lf ++ "=" ++ v)
  \/ (abbrev = true
      /\ exists name rest tail, name <> [] /\ ("="%char ∉ name)
           /\ lf = "--" ++ name ++ rest /\ tok = "--" ++ name ++ tail
           /\ (tail = [] \/ next_is (byte_eqb "="%char) tail = true)).
Proof.
  split.
  - destruct abbrev; [intros H; destruct (longFlagMatches_inv _ _ H) as [|[|]]; tauto|].
    unfold longFlagMatches. destruct (bool_decide (tok = lf)) eqn:E1.
    { apply bool_decide_eq_true in E1. auto. }
    destruct (has_prefix (lf ++ "=") tok) eqn:E2; [|done].
    apply has_prefix_spec in E2 as [v ->]. rewrite <- app_assoc. eauto.
  - intros [-> | [[v ->] | [-> (name & rest & tail & Hn & He & -> & -> & Ht)]]].
    + apply longFlagMatches_exact.
    + apply longFlagMatches_value.
    + by apply longFlagMatches_abbrev.
Qed.

(** An unsafe token is refused wherever it stands: if the command's base
    name has a flag table and some argument, read with the word after it, is
    one the table refuses, the command line is refused. *)
Theorem unsafe_token_refused (cmd : shellWord) (args : list shellWord)
    (spec : unsafeCmdFlags) (i : nat) (tok : gostr) :
  table_get unsafeFlags (base (w_visible cmd)) = Some spec ->
  visibleTexts args !! i = Some tok ->
  token_unsafe spec tok (default [] (visibleTexts args !! S i)) = true ->
  containsUnsafeFlagWords (cmd :: args) = true.
Proof.
  intros Hspec Hi Hu. eapply flag_scan_refused; [done|]. by eapply flag_scan_at.
Qed.

Definition plain_word (v : gostr) : shellWord := ShellWord v v false false false false false.

Example unsafe_token_refused_witness :
  containsUnsafeFlagWords
    (plain_word "/usr/bin/find" :: (plain_word <$> ["."; "-name"; "x"; "-execdir"; "rm"])) = true.
Proof.
  apply (unsafe_token_refused (plain_word "/usr/bin/find")
    (plain_word <$> ["."; "-name"; "x"; "-execdir"; "rm"])
    (UnsafeCmdFlags []
        ["-exec"; "-execdir"; "-ok"; "-okdir"; "-delete"; "-fprint"; "-fprint0";
         "-fls"; "-fprintf"] [] false None [] None) 3 "-execdir");
    reflexivity.
Defined.

(** Whatever form hands a script to sed (an operand, [-e] with the script
    next or attached, possibly at the end of a bundle, or [--expression] in full
    or abbreviated, with the script next or attached), a script the sed check
    refuses makes the command line refused, whatever other arguments there are. *)
Theorem sed_script_always_checked (cmd : shellWord) (args : list shellWord)
    (script : gostr) (before delivery after : list gostr) :
  base (w_visible cmd) = "sed" ->
  visibleTexts args = before ++ delivery ++ after ->
  sed_delivery script delivery -> sedArgUnsafe script = true ->
  containsUnsafeFlagWords (cmd :: args) = true.
Proof.
  intros Hc Ha Hd Hs. apply (flag_scan_refused cmd args sed_flags); [by rewrite Hc|].
  rewrite Ha. apply flag_scan_app. by apply sed_delivery_flagged with script.
Qed.

Example sed_script_always_checked_witness :
  containsUnsafeFlagWords (plain_word "sed" :: (plain_word <$> ["-n"; "-ne"; "1p;1w out"; "f"])) = true.
Proof.
  apply (sed_script_always_checked (plain_word "sed")
    (plain_word <$> ["-n"; "-ne"; "1p;1w out"; "f"]) "1p;1w out"
    ["-n"] ["-ne"; "1p;1w out"] ["f"]); try reflexivity.
  apply (deliver_short_next _ "n"); [by repeat constructor|].
  by apply (bool_decide_eq_true_1 (_ ∉ _)).
Defined.

(** Git's subcommands that run a program named in their arguments are
    refused behind any list of top-level options: the option may be the exact
    flag, carry its value or be abbreviated, anywhere after the subcommand. *)
Theorem git_program_option_refused (cmd : shellWord) (args : list shellWord)
    (top : list gostr) (sub : gostr) (spec : gitProgramOptions)
    (rest : list gostr) (a lf : gostr) :
  base (w_visible cmd) = "git" ->
  visibleTexts args = top ++ sub :: rest -> git_globals top ->
  table_get gitProgramSubcommands sub = Some spec -> has_prefix "-" sub = false ->
  a ∈ rest -> lf ∈ gp_longFlags spec -> has_prefix "--" a = true ->
  longFlagMatches a lf true = true ->
  containsUnsafeFlagWords (cmd :: args) = true.
Proof.
  intros Hc Ha Htop Hsub Hdash Hin Hlf Hd Hm.
  assert (gitRunsNamedProgram (cmd :: args) = true) as Hrun.
  { unfold gitRunsNamedProgram.
    change (visibleTexts (cmd :: args)) with (w_visible cmd :: visibleTexts args).
    rewrite Ha. destruct (git_top_options_globals top sub rest Htop Hdash) as [-> | ->]; [done|].
    rewrite bool_decide_eq_false_2 by (by intros ->). rewrite Hsub.
    by eapply argsRunProgram_long. }
  unfold containsUnsafeFlagWords. cbn [visibleCmdBase]. rewrite Hc, Hrun.
  rewrite orb_true_r. by case_match.
Qed.

Example git_program_option_refused_witness :
  containsUnsafeFlagWords
    (plain_word "git" :: (plain_word <$> ["-C"; "/repo"; "--no-pager"; "rebase"; "-i"; "--ex=./x"])) = true.
Proof.
  apply (git_program_option_refused (plain_word "git")
    (plain_word <$> ["-C"; "/repo"; "--no-pager"; "rebase"; "-i"; "--ex=./x"])
    ["-C"; "/repo"; "--no-pager"] "rebase" (GitProgramOptions ["--exec"] "x" "sXCS" [])
    ["-i"; "--ex=./x"] "--ex=./x" "--exec"); try reflexivity.
  - apply globals_value; [by apply in_table_spec|].
    apply globals_single; [done|done|by apply in_table_false|constructor].
  - by apply in_table_spec.
  - by apply in_table_spec.
Defined.

(** A go flag that runs a program is refused on every subcommand and in
    every spelling go accepts (one or two dashes, with or without a value),
    after any arguments none of which is the top-level [-C] option. *)
Theorem go_program_flag_refused (cmd : shellWord) (args : list shellWord)
    (pre post : list gostr) (dash name tail : gostr) :
  base (w_visible cmd) = "go" ->
  visibleTexts args = pre ++ (dash ++ name ++ tail) :: post ->
  Forall not_dir_flag pre -> name ∈ goEveryCommandFlags ->
  dash = "-" \/ dash = "--" -> tail = [] \/ (exists v, tail = "="%char :: v) ->
  containsUnsafeFlagWords (cmd :: args) = true.
Proof.
  intros Hc Ha Hpre Hname Hdash Htail.
  assert (go_name name) as Hgo.
  { repeat (apply elem_of_cons in Hname as [->|Hname];
      [by split; [|apply (bool_decide_eq_true_1 (_ ∉ _))]|]). by apply elem_of_nil in Hname. }
  assert (goRunsProgram (cmd :: args) = true) as Hrun.
  { unfold goRunsProgram.
    change (visibleTexts (cmd :: args)) with (w_visible cmd :: visibleTexts args).
    rewrite Ha. eapply go_loop_every; [done|by apply goFlagName_body|by apply in_table_spec]. }
  unfold containsUnsafeFlagWords. cbn [visibleCmdBase]. rewrite Hc, Hrun.
  by repeat case_match.
Qed.

Example go_program_flag_refused_witness :
  containsUnsafeFlagWords (plain_word "go" :: (plain_word <$> ["vet"; "--vettool=./x"; "./..."])) = true.
Proof.
  apply (go_program_flag_refused (plain_word "go")
    (plain_word <$> ["vet"; "--vettool=./x"; "./..."]) ["vet"] ["./..."]
    "--" "vettool" "=./x"); try reflexivity.
  - by repeat constructor.
  - by apply in_table_spec.
  - by right.
  - right. by exists "./x".
Defined.
