(* ===== verification/GitReadonly.v ===== *)
(** * The read-only git rule

    Models src/internal/delegator/autoapprove/gitreadonly.go: the judgement of
    git's argument vector by [readonlyGitArgsSafe] and the per-subcommand
    checks. *)
From S2P Require Import Prelude GoStrings ShellScan FlagCheck.

Definition readonlyGitPattern : gostr := "git (read-only)".
Definition ReadonlyGitRule : gostr := "Bash:" ++ readonlyGitPattern.

Definition gitReadonlyTopFlags : list gostr :=
  ["--no-pager"; "--no-optional-locks"; "--literal-pathspecs"; "--glob-pathspecs";
   "--noglob-pathspecs"; "--icase-pathspecs"; "--no-replace-objects"; "--bare"].

Definition gitReadonlyTopValueFlags : list gostr := ["-C"; "--git-dir"; "--work-tree"].

Definition gitAnyLongFlag (args flags : list gostr) : bool :=
  existsb (fun a => has_prefix "--" a && existsb (fun f => longFlagMatches a f true) flags) args.

Definition gitAnyHelp (args : list gostr) : bool := gitAnyLongFlag args ["--help"].

Definition gitLogArgsSafe (args : list gostr) : bool :=
  if gitAnyHelp args
     || gitAnyLongFlag args ["--output"; "--ext-diff"; "--textconv"; "--show-signature"]
  then false
  else negb (existsb (contains "%G") args).

Record gitRefListOption := GitRefListOption {
  rl_longFlags : list gostr;
  rl_valueFlags : list gostr;
  rl_shortFlags : gostr;
}.

Definition ref_value_flags : list gostr :=
  ["--contains"; "--no-contains"; "--merged"; "--no-merged"; "--points-at"; "--format";
   "--sort"].

Definition gitBranchList : gitRefListOption :=
  GitRefListOption
    ["--list"; "--all"; "--remotes"; "--verbose"; "--show-current"; "--color";
     "--no-color"; "--column"; "--no-column"; "--ignore-case"; "--abbrev";
     "--no-abbrev"; "--quiet"; "--omit-empty"]
    ref_value_flags "arvlqi".

Definition gitTagList : gitRefListOption :=
  GitRefListOption
    ["--list"; "--color"; "--no-color"; "--column"; "--no-column"; "--ignore-case";
     "--omit-empty"]
    ref_value_flags "lin".

(** The bundle loop of [refListArgsSafe]: the new list mode, [None] for the
    early [return false]. *)
Fixpoint ref_bundle (spec : gitRefListOption) (listMode : bool) (bundle : gostr)
  : option bool :=
  match bundle with
  | [] => Some listMode
  | ch :: bundle =>
      if (ch =?b "n"%char) && mem_byte "n"%char (rl_shortFlags spec) then
        if bool_decide (trim "0123456789" bundle = []) then Some listMode else None
      else if negb (mem_byte ch (rl_shortFlags spec)) then None
      else ref_bundle spec ((ch =?b "l"%char) || listMode) bundle
  end.

(** The loop over the arguments, with the loop variables. *)
Fixpoint ref_list_loop (spec : gitRefListOption) (listMode positional : bool)
    (args : list gostr) : bool :=
  match args with
  | [] => listMode || negb positional
  | a :: args =>
      if contains "signature" a then false
      else if bool_decide (a = "--") then
        listMode || negb (positional || negb (bool_decide (args = [])))
      else if has_prefix "--" a then
        let '(name, _, attached) := cut "=" a in
        if in_table (rl_valueFlags spec) name then
          if attached then ref_list_loop spec listMode positional args
          else match args with
               | [] => listMode || negb positional
               | _ :: args => ref_list_loop spec listMode positional args
               end
        else if in_table (rl_longFlags spec) name then
          ref_list_loop spec (bool_decide (name = "--list") || listMode) positional args
        else false
      else if (2 <=? length a) && has_prefix "-" a then
        match ref_bundle spec listMode (drop 1 a) with
        | None => false
        | Some listMode => ref_list_loop spec listMode positional args
        end
      else ref_list_loop spec listMode true args
  end.

Definition refListArgsSafe (spec : gitRefListOption) (args : list gostr) : bool :=
  ref_list_loop spec false false args.

Definition gitBranchArgsSafe (args : list gostr) : bool := refListArgsSafe gitBranchList args.
Definition gitTagArgsSafe (args : list gostr) : bool := refListArgsSafe gitTagList args.

Definition gitReflogArgsSafe (args : list gostr) : bool :=
  if negb (gitLogArgsSafe args) then false
  else match List.find (fun a => negb (has_prefix "-" a)) args with
       | Some a => bool_decide (a = "show") || bool_decide (a = "exists")
       | None => true
       end.

(** [git remote get-url]: the number of names, [None] on another option. *)
Fixpoint count_names (args : list gostr) : option nat :=
  match args with
  | [] => Some 0
  | a :: args =>
      if bool_decide (a = "--push") || bool_decide (a = "--all") then count_names args
      else if has_prefix "-" a then None
      else S <$> count_names args
  end.

Fixpoint gitRemoteArgsSafe (args : list gostr) : bool :=
  match args with
  | [] => true
  | a :: args =>
      if bool_decide (a = "-v") || bool_decide (a = "--verbose") then gitRemoteArgsSafe args
      else if negb (bool_decide (a = "get-url")) then false
      else bool_decide (count_names args = Some 1)
  end.

Definition readonlyGitSubcommands : list (gostr * (list gostr -> bool)) :=
  [ ("status", fun args => negb (gitAnyHelp args));
    ("log", gitLogArgsSafe);
    ("show", gitLogArgsSafe);
    ("shortlog", gitLogArgsSafe);
    ("diff", gitLogArgsSafe);
    ("blame", fun args => negb (gitAnyHelp args) && negb (gitAnyLongFlag args ["--textconv"]));
    ("rev-parse", fun args => negb (gitAnyHelp args));
    ("ls-files", fun args => negb (gitAnyHelp args));
    ("ls-tree", fun args => negb (gitAnyHelp args));
    ("cat-file", fun args =>
       negb (gitAnyHelp args) && negb (gitAnyLongFlag args ["--textconv"; "--filters"]));
    ("describe", fun args => negb (gitAnyHelp args));
    ("grep", fun args => negb (gitAnyHelp args) && negb (gitAnyLongFlag args ["--textconv"]));
    ("branch", gitBranchArgsSafe);
    ("tag", gitTagArgsSafe);
    ("reflog", gitReflogArgsSafe);
    ("remote", gitRemoteArgsSafe) ].

(** The loop over the top-level options: the words left, [None] for the early
    [return false]. *)
Fixpoint readonly_top (args : list gostr) : option (list gostr) :=
  match args with
  | [] => Some []
  | a :: rest =>
      if negb (has_prefix "-" a) then Some args
      else if in_table gitReadonlyTopFlags a then readonly_top rest
      else if in_table gitReadonlyTopValueFlags a then
        match rest with [] => None | _ :: rest => readonly_top rest end
      else if has_prefix "--git-dir=" a || has_prefix "--work-tree=" a then readonly_top rest
      else None
  end.

Definition readonlyGitArgsSafe (args : list gostr) : bool :=
  match readonly_top args with
  | None | Some [] => false
  | Some (sub :: rest) =>
      match table_get readonlyGitSubcommands sub with
      | None => false
      | Some check => check rest
      end
  end.

(** ** The shape of an accepted command line *)

(** The top-level options the rule accepts. *)
Inductive readonly_globals : list gostr -> Prop :=
| rg_nil : readonly_globals []
| rg_flag a top : a ∈ gitReadonlyTopFlags -> readonly_globals top ->
    readonly_globals (a :: top)
| rg_value a v top : a ∈ gitReadonlyTopValueFlags -> readonly_globals top ->
    readonly_globals (a :: v :: top)
| rg_attached a top :
    has_prefix "--git-dir=" a = true \/ has_prefix "--work-tree=" a = true ->
    readonly_globals top -> readonly_globals (a :: top).

Lemma table_dash (l : list gostr) a :
  forallb (has_prefix "-") l = true -> a ∈ l -> has_prefix "-" a = true.
Proof.
  intros H Ha. rewrite forallb_forall in H. apply H. by apply list_elem_of_In.
Qed.

Lemma readonly_top_sound n args rest :
  length args <= n -> readonly_top args = Some rest ->
  exists top, args = top ++ rest /\ readonly_globals top
    /\ (rest = [] \/ exists sub r, rest = sub :: r /\ has_prefix "-" sub = false).
Proof.
  revert args. induction n as [|n IH]; intros [|a args] Hn H;
    cbn [readonly_top length] in H, Hn; [|lia| |].
  - simplify_eq. exists []. split_and!; [done|constructor|by left].
  - simplify_eq. exists []. split_and!; [done|constructor|by left].
  - destruct (has_prefix "-" a) eqn:Hd; cbn [negb] in H; simplify_eq.
    2:{ exists []. split_and!; [done|constructor|]. right. eauto. }
    destruct (in_table gitReadonlyTopFlags a) eqn:E1.
    { apply in_table_spec in E1. destruct (IH args) as (top & -> & Ht & Hr); [lia|done|].
      exists (a :: top). split_and!; [done|by constructor|done]. }
    destruct (in_table gitReadonlyTopValueFlags a) eqn:E2.
    { apply in_table_spec in E2. destruct args as [|v args]; [done|]. simpl in Hn.
      destruct (IH args) as (top & -> & Ht & Hr); [lia|done|].
      exists (a :: v :: top). split_and!; [done|by constructor|done]. }
    destruct (has_prefix "--git-dir=" a || has_prefix "--work-tree=" a) eqn:E3; [|done].
    apply orb_true_iff in E3. destruct (IH args) as (top & -> & Ht & Hr); [lia|done|].
    exists (a :: top). split_and!; [done|by apply rg_attached|done].
Qed.

Lemma attached_dash a :
  has_prefix "--git-dir=" a = true \/ has_prefix "--work-tree=" a = true ->
  has_prefix "-" a = true.
Proof. intros [H|H]; apply has_prefix_spec in H as [t ->]; done. Qed.

Lemma attached_not_table a :
  has_prefix "--git-dir=" a = true \/ has_prefix "--work-tree=" a = true ->
  in_table gitReadonlyTopFlags a = false /\ in_table gitReadonlyTopValueFlags a = false.
Proof.
  intros H. split; apply in_table_false; intros Hin;
    repeat (apply elem_of_cons in Hin as [->|Hin]; [by destruct H|]);
    by apply elem_of_nil in Hin.
Qed.

Lemma readonly_top_complete top sub r :
  readonly_globals top -> has_prefix "-" sub = false ->
  readonly_top (top ++ sub :: r) = Some (sub :: r).
Proof.
  intros Ht Hs. induction Ht as [|a top Ha Ht IH|a v top Ha Ht IH|a top Ha Ht IH];
    cbn [app readonly_top].
  - by rewrite Hs.
  - assert (has_prefix "-" a = true) as -> by (by eapply table_dash; [|exact Ha]).
    apply in_table_spec in Ha. by rewrite Ha.
  - assert (has_prefix "-" a = true) as -> by (by eapply table_dash; [|exact Ha]).
    assert (in_table gitReadonlyTopFlags a = false) as ->.
    { repeat (apply elem_of_cons in Ha as [->|Ha]; [done|]). by apply elem_of_nil in Ha. }
    apply in_table_spec in Ha. by rewrite Ha.
  - rewrite (attached_dash a Ha). destruct (attached_not_table a Ha) as [-> ->].
    cbn [negb]. apply orb_true_iff in Ha. by rewrite Ha.
Qed.

Lemma subcommand_not_dash sub check :
  table_get readonlyGitSubcommands sub = Some check -> has_prefix "-" sub = false.
Proof.
  intros H. apply table_get_Some in H.
  assert (sub ∈ readonlyGitSubcommands.*1) as Hin by (by eapply list_elem_of_fmap_2' in H).
  clear H. cbn in Hin. repeat (apply elem_of_cons in Hin as [->|Hin]; [done|]).
  by apply elem_of_nil in Hin.
Qed.

Lemma gitAnyLongFlag_false args flags a f :
  gitAnyLongFlag args flags = false -> a ∈ args -> f ∈ flags -> has_prefix "--" a = true ->
  longFlagMatches a f true = false.
Proof.
  unfold gitAnyLongFlag. rewrite existsb_false_Forall, Forall_forall.
  intros H Ha Hf Hd. specialize (H a Ha). cbv beta in H. rewrite Hd in H. cbn [andb] in H.
  rewrite existsb_false_Forall, Forall_forall in H. by apply H.
Qed.

(** ** Words of branch and tag *)

(** The positional words as git's parser sees them, and whether list mode is
    asked for; both read the line without the rule's verdict. *)
Fixpoint ref_positionals (spec : gitRefListOption) (args : list gostr) : list gostr :=
  match args with
  | [] => []
  | a :: args =>
      if bool_decide (a = "--") then args
      else if has_prefix "--" a then
        let '(name, _, attached) := cut "=" a in
        if in_table (rl_valueFlags spec) name && negb attached then
          match args with [] => [] | _ :: args => ref_positionals spec args end
        else ref_positionals spec args
      else if (2 <=? length a) && has_prefix "-" a then ref_positionals spec args
      else a :: ref_positionals spec args
  end.

Definition lists (a : gostr) : bool :=
  bool_decide ((cut "=" a).1.1 = "--list")
  || negb (has_prefix "--" a) && has_prefix "-" a && mem_byte "l"%char a.

Lemma ref_bundle_list spec lm bundle lm' :
  ref_bundle spec lm bundle = Some lm' -> lm' = true -> lm = true \/ "l"%char ∈ bundle.
Proof.
  revert lm. induction bundle as [|c bundle IH]; intros lm H Hlm; simplify_eq/=; [by left|].
  case_match; [case_match; simplify_eq; by left|].
  case_match; [done|]. destruct (IH _ H eq_refl) as [Ho|Hin].
  - apply orb_true_iff in Ho as [Hc| ->]; [|by left]. right.
    destruct (byte_eqb_spec c "l"%char); [subst|done]. apply elem_of_cons; by left.
  - right. apply elem_of_cons. by right.
Qed.

Lemma lists_long a name v att :
  cut "=" a = (name, v, att) -> name = "--list" -> lists a = true.
Proof. intros H ->. unfold lists. by rewrite H. Qed.

Lemma lists_short a :
  has_prefix "--" a = false -> has_prefix "-" a = true -> "l"%char ∈ drop 1 a -> lists a = true.
Proof.
  intros H1 H2 H3. unfold lists. rewrite H1, H2. cbn [negb andb].
  assert (mem_byte "l"%char a = true) as ->; [|apply orb_true_r].
  apply mem_byte_spec. destruct a; [by apply elem_of_nil in H3|].
  cbn [drop] in H3. rewrite drop_0 in H3. apply elem_of_cons. by right.
Qed.

Lemma ref_list_loop_sound spec n args lm pos :
  length args <= n -> ref_list_loop spec lm pos args = true ->
  lm = true \/ existsb lists args = true
  \/ (pos = false /\ ref_positionals spec args = []).
Proof.
  revert args lm pos. induction n as [|n IH]; intros [|a args] lm pos Hn H; [|simpl in Hn; lia|..].
  1,2: cbn in H; destruct lm, pos; cbn in *; auto.
  cbn [length] in Hn. cbn [ref_list_loop ref_positionals existsb] in *.
  destruct (contains "signature" a); [done|].
  destruct (bool_decide (a = "--")) eqn:Edd.
  { destruct lm; [by left|]. right. right. cbn [orb] in H. apply negb_true_iff in H.
    apply orb_false_iff in H as [-> H]. apply negb_false_iff, bool_decide_eq_true in H.
    by subst. }
  destruct (has_prefix "--" a) eqn:Elong.
  { destruct (cut "=" a) as [[name v] att] eqn:Ecut.
    destruct (in_table (rl_valueFlags spec) name) eqn:Ev; cbn [andb].
    - destruct att; cbn [negb].
      + apply IH in H as [?|[Hl|[? ?]]]; [by left|right; left|by right; right|lia].
        rewrite Hl. apply orb_true_r.
      + destruct args as [|w args].
        { destruct lm, pos; cbn in *; auto. }
        cbn [length] in Hn. apply IH in H as [?|[Hl|[? ?]]]; [by left|right; left|by right; right|lia].
        cbn [existsb]. rewrite Hl, !orb_true_r. done.
    - destruct (in_table (rl_longFlags spec) name); [|done].
      apply IH in H as [Ho|[Hl|[? ?]]]; [|right; left|by right; right|lia].
      + apply orb_true_iff in Ho as [Hname| ->]; [|by left].
        apply bool_decide_eq_true in Hname. right. left.
        by rewrite (lists_long a name v att Ecut Hname).
      + rewrite Hl. apply orb_true_r. }
  destruct ((2 <=? length a) && has_prefix "-" a) eqn:Eshort.
  { apply andb_true_iff in Eshort as [_ Ed].
    destruct (ref_bundle spec lm (drop 1 a)) as [lm'|] eqn:Eb; [|done].
    apply IH in H as [Hlm|[Hl|[? ?]]]; [|right; left|by right; right|lia].
    - destruct (ref_bundle_list _ _ _ _ Eb Hlm) as [?|Hin]; [by left|].
      right. left. by rewrite (lists_short a Elong Ed Hin).
    - rewrite Hl. apply orb_true_r. }
  apply IH in H as [?|[Hl|[? ?]]]; [by left|right; left|done|lia].
  rewrite Hl. apply orb_true_r.
Qed.

(** ** Properties *)

(** The rule accepts exactly the argument vectors made of allowlisted
    top-level options followed by an allowlisted subcommand whose own check
    accepts the rest; no other word may precede the subcommand. *)
Theorem readonlyGitArgsSafe_shape (args : list gostr) :
  readonlyGitArgsSafe args = true <->
  exists top sub rest check,
    args = top ++ sub :: rest /\ readonly_globals top
    /\ table_get readonlyGitSubcommands sub = Some check /\ check rest = true.
Proof.
  unfold readonlyGitArgsSafe. split.
  - destruct (readonly_top args) as [[|sub rest]|] eqn:E; [done| |done].
    destruct (table_get readonlyGitSubcommands sub) as [check|] eqn:Ec; [|done].
    intros H. destruct (readonly_top_sound (length args) args _ (le_n _) E)
      as (top & -> & Ht & _).
    exists top, sub, rest, check. done.
  - intros (top & sub & rest & check & -> & Ht & Hc & H).
    rewrite readonly_top_complete by eauto using subcommand_not_dash. by rewrite Hc.
Qed.

(** An accepted log, show, shortlog or diff command names no file to
    write, no external diff or text conversion driver and no signature check:
    none of its words is one of those flags in any spelling or abbreviation
    git's parser takes, and no word holds a %G placeholder. *)
Theorem readonlyGit_log_no_exec (args : list gostr) (a f : gostr) :
  gitLogArgsSafe args = true -> a ∈ args ->
  contains "%G" a = false
  /\ (f ∈ ["--help"; "--output"; "--ext-diff"; "--textconv"; "--show-signature"] ->
      has_prefix "--" a = true -> longFlagMatches a f true = false).
Proof.
  unfold gitLogArgsSafe. intros H Ha. case_match; [done|].
  split_and_hyps. rewrite existsb_false_Forall, Forall_forall in H.
  split; [by apply H|]. intros Hf Hd.
  apply elem_of_cons in Hf as [->|Hf].
  - apply (gitAnyLongFlag_false args ["--help"]); [done..|by apply list_elem_of_singleton|done].
  - by eapply gitAnyLongFlag_false.
Qed.

Example readonlyGit_log_no_exec_witness :
  longFlagMatches "--oneline" "--output" true = false.
Proof.
  apply (readonlyGit_log_no_exec ["--oneline"; "-n3"; "HEAD"] "--oneline" "--output");
    [reflexivity|by apply in_table_spec|by apply in_table_spec|reflexivity].
Defined.

(** Branch and tag are approved with a positional word (which names a
    branch or tag to create) only when the line asks for list mode with
    [--list] or an option bundle holding [l]. *)
Theorem ref_list_no_creation (spec : gitRefListOption) (args : list gostr) :
  refListArgsSafe spec args = true ->
  existsb lists args = true \/ ref_positionals spec args = [].
Proof.
  intros H. destruct (ref_list_loop_sound spec (length args) args false false (le_n _) H)
    as [?|[?|[_ ?]]]; [done|by left|by right].
Qed.

Example ref_list_no_creation_witness :
  existsb lists ["-a"; "--merged"; "main"] = true
  \/ ref_positionals gitBranchList ["-a"; "--merged"; "main"] = [].
Proof. apply ref_list_no_creation. reflexivity. Defined.

(** The refusal of "signature" does not reach the value of a two-word
    option: [--format <value>] (and [--sort]) is accepted for every value, the
    %(signature) atom included, although the attached form is refused. *)
Theorem ref_list_value_unchecked (v : gostr) :
  refListArgsSafe gitBranchList ["--format"; v] = true
  /\ refListArgsSafe gitTagList ["--sort"; v] = true
  /\ refListArgsSafe gitBranchList ["--format=%(signature)"] = false.
Proof. by split_and!. Qed.
