(* ===== verification/CanonPath.v ===== *)
(** * Canonical paths (package secrets)

    [CanonicalPath], the form in which every path comparison of the gateway is
    made (the blocked-path check, the path-scoped auto-approve rules), and
    [IsBlockedPath].  The file system is a parameter: a working directory and
    symlink resolution. *)
From S2P Require Import Prelude GoStrings.

(** ** Model *)

(** [os.Getwd] may fail; [filepath.EvalSymlinks] fails on a path that does not
    exist. *)
Record FS := MkFS {
  fs_cwd : option gostr;
  fs_eval : gostr -> option gostr;
}.

(** [filepath.Abs]. *)
Definition filepath_abs (fs : FS) (path : gostr) : option gostr :=
  if is_abs path then Some (clean path)
  else match fs_cwd fs with Some wd => Some (path_join wd path) | None => None end.

(** The upward search: [dir] is the directory tried last, [tail] the elements
    already dropped, the deepest last as in the code's slice. *)
Fixpoint canonical_loop (fs : FS) (fuel : nat) (abs dir_ : gostr) (tail : list gostr)
    : option gostr :=
  match fuel with
  | O => None
  | S fuel =>
      let parent := dir dir_ in
      let tail := tail ++ [base dir_] in
      if bool_decide (parent = dir_) then Some abs
      else match fs_eval fs parent with
           | Some resolved => Some (fold_left path_join (rev tail) resolved)
           | None => canonical_loop fs fuel abs parent tail
           end
  end.

Definition canonical_fuel (abs : gostr) : nat := S (length abs).

Definition CanonicalPath (fs : FS) (path : gostr) : option gostr :=
  let abs := default path (filepath_abs fs path) in
  match fs_eval fs abs with
  | Some resolved => Some resolved
  | None => canonical_loop fs (canonical_fuel abs) abs abs []
  end.

(** The result as a value: for an absolute path the loop always returns
    ([CanonicalPath_resolves]), so the default is not reached there. *)
Definition canonical_path (fs : FS) (path : gostr) : gostr :=
  default path (CanonicalPath fs path).

Definition blocked_match (fs : FS) (target blocked : gostr) : option bool :=
  if is_abs blocked then
    b ← CanonicalPath fs blocked;
    Some (bool_decide (target = b) || has_prefix (b ++ "/") target)
  else Some (has_suffix ("/" ++ clean blocked) target).

Fixpoint blocked_loop (fs : FS) (target : gostr) (entries : list gostr) : option bool :=
  match entries with
  | [] => Some false
  | blocked :: entries =>
      match blocked_match fs target blocked with
      | None => None
      | Some true => Some true
      | Some false => blocked_loop fs target entries
      end
  end.

Definition IsBlockedPath (fs : FS) (blockedSnapshot : list gostr) (path : gostr) : option bool :=
  target ← CanonicalPath fs path;
  blocked_loop fs target blockedSnapshot.

Definition containsBlockedRef (blockedSnapshot : list gostr) (text : gostr) : bool :=
  existsb (fun blocked => contains blocked text) blockedSnapshot.

Definition IsBlockedCommand (blockedSnapshot : list gostr) (cmd : gostr) : bool :=
  containsBlockedRef blockedSnapshot cmd.

(** ** Clean absolute paths

    [abs_path es] is the path with the elements [es]; [good_element] excludes
    what [filepath.Clean] removes. *)
Definition good_element (e : gostr) : Prop :=
  e <> [] /\ e <> "." /\ e <> ".." /\ ("/"%char ∉ e).

Definition abs_path (es : list gostr) : gostr := "/" ++ join "/" es.

Definition canonical (p : gostr) : Prop := exists es, p = abs_path es /\ Forall good_element es.

(** What the code relies on of [filepath.EvalSymlinks]: for an absolute path
    the result, when there is one, is absolute and clean; and of [os.Getwd]:
    the working directory is absolute. *)
Class fs_ok (fs : FS) : Prop := {
  fs_eval_canonical p r : is_abs p = true -> fs_eval fs p = Some r -> canonical r;
  fs_cwd_abs wd : fs_cwd fs = Some wd -> is_abs wd = true;
}.

Lemma good_no_slash es : Forall good_element es -> Forall (fun e => "/"%char ∉ e) es.
Proof. intros H. eapply Forall_impl; [exact H|]. by intros e (_ & _ & _ & ?). Qed.

Lemma clean_step_good acc e : good_element e -> clean_step true acc e = e :: acc.
Proof.
  intros (H1 & H2 & H3 & _). unfold clean_step.
  by rewrite !bool_decide_eq_false_2 by done.
Qed.

Lemma fold_clean_good es acc :
  Forall good_element es -> fold_left (clean_step true) es acc = rev es ++ acc.
Proof.
  intros Hes. revert acc. induction Hes as [|e es He Hes IH]; intros acc; [done|].
  cbn [fold_left rev]. rewrite clean_step_good, IH by done. by rewrite <- app_assoc.
Qed.

Lemma clean_step_keeps acc e :
  Forall good_element acc -> ("/"%char ∉ e) -> Forall good_element (clean_step true acc e).
Proof.
  intros Hacc He. unfold clean_step. repeat case_bool_decide; cbn [orb]; try done.
  - destruct acc; [done|]. case_bool_decide; apply Forall_cons in Hacc as [Ha ?]; [|done].
    destruct Ha as (_ & _ & ? & _). done.
  - by constructor.
Qed.

Lemma clean_elements_good es :
  Forall (fun e => "/"%char ∉ e) es -> Forall good_element (clean_elements true es).
Proof.
  unfold clean_elements. intros Hes.
  assert (forall acc, Forall good_element acc ->
    Forall good_element (fold_left (clean_step true) es acc)) as H; [|by apply H].
  induction Hes as [|e es He Hes IH]; intros acc Hacc; [done|].
  cbn [fold_left]. apply IH. by apply clean_step_keeps.
Qed.

Lemma clean_absolute t :
  clean ("/" ++ t) = abs_path (rev (clean_elements true (split_byte "/"%char t))).
Proof. done. Qed.

Lemma clean_canonical p : is_abs p = true -> canonical (clean p).
Proof.
  intros H. apply has_prefix_spec in H as [t ->]. rewrite clean_absolute.
  eexists. split; [done|]. apply Forall_rev, clean_elements_good, split_byte_no_sep.
Qed.

Lemma clean_abs_path es : Forall good_element es -> clean (abs_path es) = abs_path es.
Proof.
  intros Hes. unfold abs_path at 1. rewrite clean_absolute. f_equal.
  destruct es as [|e es]; [done|].
  rewrite split_join_end by auto using good_no_slash.
  unfold clean_elements. rewrite fold_clean_good by done. by rewrite app_nil_r, rev_involutive.
Qed.

Lemma clean_abs_path_slash es : Forall good_element es -> clean (abs_path es ++ "/") = abs_path es.
Proof.
  intros Hes. unfold abs_path at 1. rewrite <- app_assoc, clean_absolute. f_equal.
  destruct es as [|e es]; [done|].
  rewrite split_join by auto using good_no_slash. unfold clean_elements.
  rewrite fold_left_app, (fold_clean_good (e :: es)) by done. rewrite app_nil_r.
  cbn [split_byte fold_left]. apply rev_involutive.
Qed.

Lemma join_snoc sep es e :
  es <> [] -> join sep (es ++ [e]) = join sep es ++ sep ++ e.
Proof.
  induction es as [|e1 [|e2 es] IH]; intros H; [done..|].
  change ((e1 :: e2 :: es) ++ [e]) with (e1 :: e2 :: (es ++ [e])).
  rewrite !join_cons2. change (e2 :: es ++ [e]) with ((e2 :: es) ++ [e]).
  rewrite IH by done. by rewrite <- !app_assoc.
Qed.

Lemma abs_path_snoc es e : abs_path (es ++ [e]) =
  (match es with [] => [] | _ => abs_path es end) ++ "/" ++ e.
Proof.
  destruct es as [|e1 es]; [done|]. unfold abs_path.
  rewrite join_snoc by done. by rewrite <- app_assoc.
Qed.

Lemma last_index_byte_app c s t : (c ∉ t) -> last_index_byte c (s ++ c :: t) = Some (length s).
Proof.
  intros Ht. induction s as [|d s IH]; cbn [app last_index_byte length].
  - assert (last_index_byte c t = None) as ->; [|by rewrite byte_eqb_refl].
    induction t as [|d t IHt]; [done|]. apply not_elem_of_cons in Ht as [? ?].
    cbn [last_index_byte]. rewrite IHt by done. by rewrite byte_eqb_ne.
  - by rewrite IH.
Qed.

Lemma dir_abs_path_snoc es e :
  Forall good_element es -> good_element e -> dir (abs_path (es ++ [e])) = abs_path es.
Proof.
  intros Hes (_ & _ & _ & He). unfold dir. rewrite abs_path_snoc. cbn [app].
  rewrite last_index_byte_app by done.
  rewrite take_app_ge by lia.
  replace (S (length _) - length _) with 1 by lia. cbn [take].
  destruct es; [done|]. by apply clean_abs_path_slash.
Qed.

Lemma dir_root : dir (abs_path []) = abs_path [].
Proof. done. Qed.

Lemma trim_left_no cs s c : head s = Some c -> mem_byte c cs = false -> trim_left cs s = s.
Proof. destruct s; simpl; [done|]. intros ? H. simplify_eq. by rewrite H. Qed.

Lemma base_abs_path_snoc es e : good_element e -> base (abs_path (es ++ [e])) = e.
Proof.
  intros (Hne & _ & _ & He). unfold base. rewrite abs_path_snoc. cbn [app].
  set (p := match es with [] => [] | _ => abs_path es end).
  destruct (p ++ "/"%char :: e) as [|c0 s0] eqn:E0; [by destruct p|]. rewrite <- E0. clear c0 s0 E0.
  destruct (rev e) as [|c r] eqn:Er.
  { apply (f_equal (@rev ascii)) in Er. rewrite rev_involutive in Er. done. }
  assert (c ∈ e) as Hc.
  { apply list_elem_of_In, in_rev. rewrite Er. by left. }
  rewrite trim_left_no with (c := c).
  - rewrite rev_involutive, last_index_byte_app by done.
    rewrite drop_app_ge by lia. replace (S (length p) - length p) with 1 by lia.
    cbn [drop]. by destruct e.
  - rewrite rev_app_distr. cbn [rev]. by rewrite Er.
  - apply not_true_iff_false. rewrite mem_byte_spec, list_elem_of_singleton. by intros ->.
Qed.

Lemma path_join_abs es e :
  Forall good_element es -> good_element e -> path_join (abs_path es) e = abs_path (es ++ [e]).
Proof.
  intros Hes He. unfold path_join. cbn [List.filter].
  rewrite !bool_decide_eq_false_2 by (done || apply He). cbn [negb join].
  unfold abs_path at 1. rewrite <- app_assoc, clean_absolute.
  destruct es as [|e1 es].
  - cbn [join app]. cbn [split_byte]. rewrite byte_eqb_refl.
    rewrite split_byte_one by apply He. unfold clean_elements. cbn [fold_left].
    change (clean_step true [] []) with (@nil gostr). rewrite clean_step_good by done. done.
  - cbn [app]. rewrite split_join by auto using good_no_slash.
    rewrite split_byte_one by apply He. unfold clean_elements.
    rewrite fold_clean_good by (apply Forall_app; eauto).
    by rewrite app_nil_r, rev_involutive.
Qed.

Lemma fold_path_join es tail :
  Forall good_element es -> Forall good_element tail ->
  fold_left path_join tail (abs_path es) = abs_path (es ++ tail).
Proof.
  intros Hes Ht. revert es Hes. induction Ht as [|e tail He Ht IH]; intros es Hes;
    cbn [fold_left]; [by rewrite app_nil_r|].
  rewrite path_join_abs, IH by (try apply Forall_app; eauto). by rewrite <- app_assoc.
Qed.

Lemma abs_path_inj es es' :
  Forall good_element es -> Forall good_element es' -> abs_path es = abs_path es' -> es = es'.
Proof.
  unfold abs_path. intros Hes Hes' H. simplify_eq/=.
  destruct es as [|e es], es' as [|e' es']; [done| | |].
  - apply Forall_cons in Hes' as [(? & _) _]. destruct es'; simpl in H; destruct e'; done.
  - apply Forall_cons in Hes as [(? & _) _]. destruct es; simpl in H; destruct e; done.
  - rewrite <- (split_join_end "/"%char (e :: es)), <- (split_join_end "/"%char (e' :: es'))
      by auto using good_no_slash. by rewrite H.
Qed.

Lemma length_abs_path es : Forall good_element es -> length es <= length (abs_path es).
Proof.
  intros Hes. unfold abs_path. cbn [app length].
  assert (length es <= length (join "/" es)) as ?; [|lia].
  induction Hes as [|e [|e' es] (He & _) Hes IH]; [done|cbn; destruct e; [done|simpl; lia]|].
  rewrite join_cons2, !length_app. cbn [length] in *. lia.
Qed.

(** ** The upward search *)

(** [resolves fs es r]: [r] is the resolution of the deepest existing ancestor
    of [abs_path es] with the remaining elements appended, or the path itself
    when no ancestor exists. *)
Definition missing (fs : FS) (es : list gostr) : Prop := fs_eval fs (abs_path es) = None.

Inductive resolves (fs : FS) (es : list gostr) : gostr -> Prop :=
| resolves_ancestor pre post real :
    es = pre ++ post -> fs_eval fs (abs_path pre) = Some (abs_path real) ->
    Forall good_element real ->
    (forall k, length pre < k <= length es -> missing fs (take k es)) ->
    resolves fs es (abs_path (real ++ post))
| resolves_none :
    (forall k, k <= length es -> missing fs (take k es)) -> resolves fs es (abs_path es).

Lemma is_abs_path es : is_abs (abs_path es) = true.
Proof. done. Qed.

#[export] Hint Resolve is_abs_path : foci.

Lemma canonical_loop_spec fs `{!fs_ok fs} n es k fuel :
  n = k -> k <= length es -> Forall good_element es -> k < fuel ->
  (forall j, k <= j <= length es -> missing fs (take j es)) ->
  exists r, canonical_loop fs fuel (abs_path es) (abs_path (take k es)) (rev (drop k es)) = Some r
    /\ resolves fs es r.
Proof.
  intros Hn. revert k Hn fuel. induction n as [|n IH]; intros k <- fuel Hk Hes Hf Hm;
    (destruct fuel as [|fuel]; [lia|]); cbn [canonical_loop].
  - rewrite take_0, dir_root, bool_decide_eq_true_2 by done.
    eexists. split; [done|]. apply resolves_none. intros j Hj. apply Hm. lia.
  - destruct (lookup_lt_is_Some_2 es n) as [e He]; [lia|].
    assert (good_element e) as Hge by (by eapply Forall_lookup_1).
    assert (Forall good_element (take n es)) as Hgt by (by apply Forall_take).
    rewrite (take_S_r es n e He), dir_abs_path_snoc, base_abs_path_snoc by done.
    rewrite bool_decide_eq_false_2.
    2:{ intros E. apply (f_equal length) in E. rewrite abs_path_snoc in E.
        destruct (take n es); cbn in E; [destruct e; [by destruct Hge|done]|].
        rewrite !length_app in E. cbn in E. lia. }
    assert (rev (drop (S n) es) ++ [e] = rev (drop n es)) as ->.
    { by rewrite (drop_S es e n He). }
    destruct (fs_eval fs (abs_path (take n es))) as [resolved|] eqn:Ev.
    + destruct (fs_eval_canonical _ _ (is_abs_path _) Ev) as (real & -> & Hreal).
      rewrite rev_involutive, fold_path_join by (auto using Forall_drop).
      eexists. split; [done|]. eapply resolves_ancestor; [by rewrite take_drop|done..|].
      intros j. rewrite length_take. intros Hj. apply Hm. lia.
    + destruct (IH n eq_refl fuel) as (r & Hr & Hres); [lia|done|lia| |by exists r].
      intros j Hj. destruct (decide (j = n)) as [->|]; [done|]. apply Hm. lia.
Qed.

Lemma filepath_abs_canonical fs `{!fs_ok fs} path a :
  filepath_abs fs path = Some a -> canonical a.
Proof.
  unfold filepath_abs. destruct (is_abs path) eqn:E.
  - intros; simplify_eq. by apply clean_canonical.
  - destruct (fs_cwd fs) as [wd|] eqn:Ew; [|done]. intros; simplify_eq.
    apply fs_cwd_abs in Ew. apply has_prefix_spec in Ew as [t ->].
    unfold path_join. cbn [List.filter]. rewrite bool_decide_eq_false_2 by done. cbn [negb].
    case_bool_decide; by apply clean_canonical.
Qed.

Lemma CanonicalPath_resolves fs `{!fs_ok fs} path a es :
  filepath_abs fs path = Some a -> a = abs_path es -> Forall good_element es ->
  exists r, CanonicalPath fs path = Some r /\ resolves fs es r.
Proof.
  intros Ha -> Hes. unfold CanonicalPath. rewrite Ha.
  change (default path (Some (abs_path es))) with (abs_path es). cbv zeta.
  destruct (fs_eval fs (abs_path es)) as [r|] eqn:Ev.
  - destruct (fs_eval_canonical _ _ (is_abs_path _) Ev) as (real & -> & Hreal).
    eexists. split; [done|]. rewrite <- (app_nil_r real).
    apply (resolves_ancestor fs es es []); [by rewrite app_nil_r|done..|lia].
  - destruct (canonical_loop_spec fs (length es) es (length es) (canonical_fuel (abs_path es)))
      as (r & Hr & Hres); [done..| | |].
    + unfold canonical_fuel. pose proof (length_abs_path es Hes). lia.
    + intros j Hj. replace j with (length es) by lia. unfold missing. by rewrite firstn_all.
    + rewrite firstn_all, drop_all in Hr. cbn [rev] in Hr. eauto.
Qed.

Lemma resolves_canonical fs es r : Forall good_element es -> resolves fs es r -> canonical r.
Proof.
  intros Hes [pre post real -> _ Hreal _|_]; [|by exists es].
  apply Forall_app in Hes as [_ ?]. eexists. split; [done|]. by apply Forall_app.
Qed.

(** Directory containment is containment of element lists. *)
Lemma abs_path_prefix eb et :
  Forall good_element eb -> Forall good_element et -> eb <> [] ->
  (abs_path et = abs_path eb \/ has_prefix (abs_path eb ++ "/") (abs_path et) = true)
  <-> exists post, et = eb ++ post.
Proof.
  intros Hb Ht Hne. split.
  - intros [H|H]; [exists []; rewrite app_nil_r; by apply abs_path_inj|].
    apply has_prefix_spec in H as [t H]. rewrite <- app_assoc in H.
    unfold abs_path in H. cbn [app] in H. simplify_eq/=.
    exists (split_byte "/"%char t). rewrite <- split_join by auto using good_no_slash.
    destruct et as [|e et]; [by destruct (join "/" eb)|].
    rewrite <- H. by rewrite split_join_end by auto using good_no_slash.
  - intros [[|e post] ->]; [left; by rewrite app_nil_r|]. right.
    apply Forall_app in Ht as [_ Ht]. unfold abs_path. cbn [app has_prefix].
    rewrite byte_eqb_refl. cbn [andb]. apply has_prefix_spec.
    exists (join "/" (e :: post)). clear Hb Ht.
    induction eb as [|e1 [|e2 eb] IH]; [done|cbn [app]; by rewrite join_cons2, <- app_assoc|].
    change ((e1 :: e2 :: eb) ++ e :: post) with (e1 :: e2 :: (eb ++ e :: post)).
    rewrite !join_cons2. change (e2 :: eb ++ e :: post) with ((e2 :: eb) ++ e :: post).
    rewrite IH by done. by rewrite <- !app_assoc.
Qed.

(** ** Properties *)

(** C33: For every path that can be made absolute, [CanonicalPath] returns: its
    loop reaches an existing ancestor or the root.  The result is the
    resolution of the deepest existing ancestor with the missing elements
    appended unchanged, and it is absolute and clean: no ".", ".." or empty
    element is left for a comparison to be fooled by. *)
Theorem CanonicalPath_correct (fs : FS) `{!fs_ok fs} (path a : gostr) :
  filepath_abs fs path = Some a ->
  exists es r, a = abs_path es /\ Forall good_element es
    /\ CanonicalPath fs path = Some r /\ resolves fs es r /\ canonical r.
Proof.
  intros Ha. destruct (filepath_abs_canonical fs path a Ha) as (es & -> & Hes).
  destruct (CanonicalPath_resolves fs path _ es Ha eq_refl Hes) as (r & Hr & Hres).
  exists es, r. split_and!; [done..|by eapply resolves_canonical].
Qed.

Definition demo_fs : FS := MkFS (Some "/work")
  (fun p => if bool_decide (p = "/tmp") then Some "/private/tmp"
            else if bool_decide (p = "/") then Some "/" else None).

#[export] Instance demo_fs_ok : fs_ok demo_fs.
Proof.
  split.
  - cbn. intros p r _. repeat case_bool_decide; intros; simplify_eq.
    + exists ["private"; "tmp"]. split; [done|].
      repeat constructor; try done; by apply (bool_decide_eq_true_1 (_ ∉ _)).
    + by exists [].
  - cbn. by intros ? [= <-].
Qed.

Example CanonicalPath_correct_witness : exists es r,
  "/tmp/x/y" = abs_path es /\ Forall good_element es
  /\ CanonicalPath demo_fs "/tmp/../tmp/x/./y" = Some r /\ resolves demo_fs es r /\ canonical r.
Proof. apply (CanonicalPath_correct demo_fs "/tmp/../tmp/x/./y"). reflexivity. Defined.

Lemma split_byte_both c s t : split_byte c (s ++ c :: t) = split_byte c s ++ split_byte c t.
Proof.
  induction s as [|d s IH]; cbn [app split_byte]; [by rewrite byte_eqb_refl|].
  destruct (c =?b d); rewrite IH; [done|]. pose proof (split_byte_nonempty c s) as Hne.
  by destruct (split_byte c s).
Qed.

Lemma has_suffix_spec p s : has_suffix p s = true <-> exists t, s = t ++ p.
Proof.
  unfold has_suffix. rewrite has_prefix_spec. split.
  - intros [t H]. exists (rev t). rewrite <- (rev_involutive s), H, rev_app_distr. by rewrite rev_involutive.
  - intros [t ->]. exists (rev t). by rewrite rev_app_distr.
Qed.

Lemma split_abs_path es : Forall good_element es -> es <> [] -> split_byte "/"%char (abs_path es) = [] :: es.
Proof. intros Hes Hne. unfold abs_path. cbn. f_equal. by apply split_join_end; [apply good_no_slash|]. Qed.

(** A text suffix that begins at a separator is a suffix of the elements. *)
Lemma abs_path_suffix er et :
  Forall good_element er -> Forall good_element et -> er <> [] ->
  has_suffix (abs_path er) (abs_path et) = true <-> exists pre, et = pre ++ er.
Proof.
  intros Hr Ht Hne. rewrite has_suffix_spec. split.
  - intros [s H]. destruct (decide (et = [])) as [->|Het].
    { exfalso. apply (f_equal length) in H. unfold abs_path in H. rewrite !length_app in H.
      destruct er as [|e er]; [done|]. apply Forall_cons in Hr as [(He & _) _].
      destruct e as [|c e]; [done|]. destruct er; cbn in H; lia. }
    apply (f_equal (split_byte "/"%char)) in H. rewrite split_abs_path in H by done.
    unfold abs_path in H. change ("/" ++ join "/" er) with ("/"%char :: join "/" er) in H.
    rewrite split_byte_both in H.
    rewrite (split_join_end "/"%char er) in H by (by apply good_no_slash || done).
    pose proof (split_byte_nonempty "/"%char s) as Hs. destruct (split_byte "/"%char s) as [|x pre]; [done|].
    exists pre. by injection H.
  - intros [pre ->]. destruct pre as [|e pre]; [by exists []|]. exists (abs_path (e :: pre)).
    unfold abs_path. rewrite <- app_assoc. f_equal. clear Ht. revert e. induction pre as [|e' pre IH]; intros e.
    + by destruct er.
    + cbn [app]. rewrite !join_cons2, <- !app_assoc. do 2 f_equal. apply IH.
Qed.

(** What a blocklist entry stands for: the canonical elements of an absolute
    entry other than the root, or the elements of a relative one. *)
Definition entry_dir (fs : FS) (blocked : gostr) (eb : list gostr) : Prop :=
  is_abs blocked = true /\ CanonicalPath fs blocked = Some (abs_path eb) /\ Forall good_element eb /\ eb <> [].
Definition entry_tail (blocked : gostr) (er : list gostr) : Prop :=
  is_abs blocked = false /\ clean blocked = join "/" er /\ Forall good_element er /\ er <> [].

Lemma blocked_match_spec fs et blocked :
  Forall good_element et ->
  (exists eb, entry_dir fs blocked eb) \/ (exists er, entry_tail blocked er) ->
  exists verdict, blocked_match fs (abs_path et) blocked = Some verdict
    /\ (verdict = true <-> (exists eb post, entry_dir fs blocked eb /\ et = eb ++ post)
                          \/ (exists er pre, entry_tail blocked er /\ et = pre ++ er)).
Proof.
  intros Het [(eb & Ha & Hc & Hg & Hne)|(er & Ha & Hc & Hg & Hne)]; unfold blocked_match.
  - rewrite Ha, Hc. cbn [mbind option_bind]. eexists. split; [done|].
    rewrite orb_true_iff, bool_decide_eq_true, abs_path_prefix by done. split.
    + intros [post ->]. left. by exists eb, post.
    + intros [(eb' & post & (_ & Hc' & Hg' & _) & ->)|(er & pre & (Ha' & _) & _)]; [|congruence].
      assert (eb = eb') as ->; [|by exists post]. apply abs_path_inj; [done..|congruence].
  - rewrite Ha, Hc. eexists. split; [done|].
    change ("/" ++ join "/" er) with (abs_path er). rewrite abs_path_suffix by done. split.
    + intros [pre ->]. right. by exists er, pre.
    + intros [(eb & post & (Ha' & _) & _)|(er' & pre & (_ & Hc' & Hg' & _) & ->)]; [congruence|].
      assert (er = er') as ->; [|by exists pre].
      apply abs_path_inj; [done..|]. unfold abs_path. congruence.
Qed.

(** The blocklist works on path elements.  A path is blocked exactly when
    its canonical elements start with those of an absolute entry or end with
    those of a relative entry: neither a traversal, a link nor a name that
    merely extends or contains an entry's changes the verdict. *)
Theorem blocked_components (fs : FS) (path : gostr) (entries : list gostr) (et : list gostr) :
  CanonicalPath fs path = Some (abs_path et) -> Forall good_element et ->
  Forall (fun b => (exists eb, entry_dir fs b eb) \/ (exists er, entry_tail b er)) entries ->
  exists verdict, IsBlockedPath fs entries path = Some verdict
    /\ (verdict = true <-> exists b, b ∈ entries
         /\ ((exists eb post, entry_dir fs b eb /\ et = eb ++ post)
             \/ (exists er pre, entry_tail b er /\ et = pre ++ er))).
Proof.
  intros Ht Het Hent. unfold IsBlockedPath. rewrite Ht. cbn [mbind option_bind].
  induction entries as [|b entries IH]; cbn [blocked_loop].
  { exists false. split; [done|]. split; [done|]. by intros (b & ?%elem_of_nil & _). }
  apply Forall_cons in Hent as [Hb Hent].
  destruct (blocked_match_spec fs et b Het Hb) as (v & -> & Hv). destruct v.
  - exists true. split; [done|]. split; [|done]. intros _. exists b. split; [by left|by apply Hv].
  - destruct (IH Hent) as (w & -> & Hw). exists w. split; [done|]. rewrite Hw. split.
    + intros (b' & Hin & H). exists b'. split; [by right|done].
    + intros (b' & [->|Hin]%elem_of_cons & H); [by apply Hv in H|by exists b'].
Qed.

Example blocked_components_witness :
  exists verdict, IsBlockedPath demo_fs [".aws/credentials"; "/tmp/a"] "/work/../tmp/a/b" = Some verdict
  /\ (verdict = true <-> exists b, b ∈ [".aws/credentials" : gostr; "/tmp/a"]
       /\ ((exists eb post, entry_dir demo_fs b eb /\ ["private"; "tmp"; "a"; "b"] = eb ++ post)
           \/ (exists er pre, entry_tail b er /\ ["private"; "tmp"; "a"; "b"] = pre ++ er))).
Proof.
  apply blocked_components; [reflexivity| |].
  - repeat constructor; try done; by apply (bool_decide_eq_true_1 (_ ∉ _)).
  - constructor; [right; exists [".aws"; "credentials"]|constructor; [left; exists ["private"; "tmp"; "a"]|constructor]];
      (split_and!; [reflexivity|reflexivity| |done]);
      repeat constructor; try done; by apply (bool_decide_eq_true_1 (_ ∉ _)).
Defined.
