(* ===== verification/ExecGuard.v ===== *)
(** * The substitutability guard (package execguard)

    Which file a command word runs, and whether this process could replace it.
    The operating system is a parameter: an [Env] holds the answers the code
    asks for (access(2), stat, symlink resolution), as the code's own [Env]
    does.

    The specification is a file system of its own: files, links, the walk of a
    path through "." and "..", what a shell runs for a word, and the single
    steps by which the process may change it.  [Substitutable_correct] compares
    the guard's verdict with what those steps can do. *)
From S2P Require Import Prelude GoStrings CanonPath.

(** ** Model *)

(** [EvalSymlinks] may be nil ([None]); its error is [None]. *)
Record Env := MkEnv {
  CanWrite : gostr -> bool;
  PathDirs : list gostr;
  IsExecutable : gostr -> bool;
  EvalSymlinks : option (gostr -> option gostr);
  HomeDir : gostr;
  Off : bool;
}.

Definition set_off (off : bool) (env : Env) : Env :=
  MkEnv (CanWrite env) (PathDirs env) (IsExecutable env) (EvalSymlinks env)
    (HomeDir env) off.

(** The three results of the code's checks: whether, which path and why. *)
Record finding := Finding { f_sub : bool; f_path : gostr; f_reason : gostr }.
Definition no_finding : finding := Finding false [] [].

Definition bashBuiltins : list gostr :=
  [ "."; ":"; "["; "alias"; "bg"; "bind";
    "break"; "builtin"; "caller"; "cd"; "command";
    "compgen"; "complete"; "compopt"; "continue";
    "declare"; "dirs"; "disown"; "echo"; "enable";
    "eval"; "exec"; "exit"; "export"; "false";
    "fc"; "fg"; "getopts"; "hash"; "help";
    "history"; "jobs"; "kill"; "let"; "local";
    "logout"; "mapfile"; "popd"; "printf"; "pushd";
    "pwd"; "read"; "readarray"; "readonly";
    "return"; "set"; "shift"; "shopt"; "source";
    "suspend"; "test"; "times"; "trap"; "true";
    "type"; "typeset"; "ulimit"; "umask"; "unalias";
    "unset"; "wait" ].

Definition hasGlobMeta (token : gostr) : bool := contains_any "*?[" token.

Definition evalSymlinks (path : gostr) (env : Env) : gostr :=
  match EvalSymlinks env with
  | None => path
  | Some eval =>
      match eval path with
      | None | Some [] => path
      | Some real => real
      end
  end.

Definition checkResolvedPath (path : gostr) (env : Env) : finding :=
  let real := evalSymlinks path env in
  if CanWrite env real then
    Finding true real "the file is writable by the foci process"
  else if CanWrite env (dir real) then
    Finding true real
      ("its directory " ++ dir real
       ++ " is writable by the foci process, so the file can be replaced")
  else if negb (bool_decide (real = path)) && CanWrite env (dir path) then
    Finding true path
      ("it is a symlink in " ++ dir path
       ++ ", which is writable by the foci process, so the link can be re-pointed")
  else no_finding.

Fixpoint look_dirs (env : Env) (dirs : list gostr) (name : gostr) : option gostr :=
  match dirs with
  | [] => None
  | d :: dirs =>
      if bool_decide (d = []) then look_dirs env dirs name
      else if IsExecutable env (path_join d name) then Some (path_join d name)
      else look_dirs env dirs name
  end.

Definition lookPath (name : gostr) (env : Env) : option gostr :=
  look_dirs env (PathDirs env) name.

Definition checkBareCommand (name : gostr) (env : Env) : finding :=
  match lookPath name env with
  | None => no_finding
  | Some winner => checkResolvedPath winner env
  end.

Definition Substitutable (token : gostr) (env : Env) : finding :=
  if Off env || hasGlobMeta token then no_finding
  else if has_prefix "~" token then
    if bool_decide (HomeDir env = []) then no_finding
    else checkResolvedPath (path_join (HomeDir env) (trim_prefix "~" token)) env
  else if contains "/" token then
    if negb (is_abs token) then no_finding
    else checkResolvedPath (clean token) env
  else if in_table bashBuiltins token then no_finding
  else checkBareCommand token env.

Definition UnresolvedBareName (token : gostr) (env : Env) : bool :=
  if Off env || bool_decide (token = []) || hasGlobMeta token
     || in_table bashBuiltins token
  then false
  else if has_prefix "~" token || contains "/" token then false
  else match lookPath token env with Some _ => false | None => true end.

Definition ModeAuto : gostr := "auto".
Definition ModeOn : gostr := "on".
Definition ModeOff : gostr := "off".

Definition quoted (s : gostr) : gostr := ["034"%char] ++ s ++ ["034"%char].

Definition Resolve (mode self : gostr) (env : Env) : bool * gostr :=
  if bool_decide (mode = ModeOff) then
    (false, "disabled by [permissions] substitutability_check = " ++ quoted "off")
  else if bool_decide (mode = ModeOn) then (true, [])
  else if bool_decide (self = []) then (true, [])
  else
    let f := checkResolvedPath self (set_off false env) in
    if f_sub f then
      (false, "foci can replace its own executable (" ++ f_path f ++ ": "
              ++ f_reason f ++ "), so an agent running as the same user could "
              ++ "already rewrite foci and its allowlist; a writable allowlisted "
              ++ "command grants it nothing more. Set [permissions] "
              ++ "substitutability_check = " ++ quoted "on" ++ " to enforce it anyway")
    else (true, []).

(** The operating system as [Live] asks it: access(2) with W_OK and X_OK, stat
    ([Some true] for a directory), the operator PATH, the home directory, and
    the process-wide [enforced] switch. *)
Record OS := MkOS {
  os_access_w : gostr -> bool;
  os_access_x : gostr -> bool;
  os_stat_dir : gostr -> option bool;
  os_path_dirs : list gostr;
  os_eval_symlinks : gostr -> option gostr;
  os_home : option gostr;
}.

Definition processCanWrite (os : OS) (path : gostr) : bool := os_access_w os path.

Definition processCanExecute (os : OS) (path : gostr) : bool :=
  match os_stat_dir os path with
  | None | Some true => false
  | Some false => os_access_x os path
  end.

Definition Live (os : OS) (enforced : bool) : Env :=
  MkEnv (processCanWrite os) (os_path_dirs os) (processCanExecute os)
    (Some (os_eval_symlinks os)) (default [] (os_home os)) (negb enforced).

(** ** The path the guard judges

    [judged env token path] is the guard's own resolution of a word, and
    [flagged env path] its three tests; the specification is further down. *)
Inductive judged (env : Env) : gostr -> gostr -> Prop :=
| judged_home rest :
    HomeDir env <> [] ->
    judged env ("~" ++ rest) (path_join (HomeDir env) rest)
| judged_absolute token :
    is_abs token = true -> judged env token (clean token)
| judged_path token before d after :
    has_prefix "~" token = false -> contains "/" token = false ->
    (token ∉ bashBuiltins) ->
    PathDirs env = before ++ d :: after -> d <> [] ->
    IsExecutable env (path_join d token) = true ->
    Forall (fun d' => d' <> [] -> IsExecutable env (path_join d' token) = false) before ->
    judged env token (path_join d token).

Definition flagged (env : Env) (path : gostr) : Prop :=
  let real := evalSymlinks path env in
  CanWrite env real = true \/ CanWrite env (dir real) = true
  \/ (real <> path /\ CanWrite env (dir path) = true).

(** ** Lemmas *)

Lemma checkResolvedPath_spec path env :
  f_sub (checkResolvedPath path env) = true <-> flagged env path.
Proof.
  unfold checkResolvedPath, flagged. cbv zeta.
  destruct (CanWrite env (evalSymlinks path env)); [cbn; tauto|].
  destruct (CanWrite env (dir (evalSymlinks path env))); [cbn; tauto|].
  case_bool_decide; cbn [negb andb].
  - split; [done|]. intros [?|[?|[? ?]]]; congruence.
  - destruct (CanWrite env (dir path)); cbn; split; try done; [tauto|].
    intros [?|[?|[? ?]]]; congruence.
Qed.

(** A verdict comes with its reason. *)
Definition finding_ok (f : finding) : Prop :=
  if f_sub f then f_reason f <> [] else f = no_finding.

Lemma checkResolvedPath_reason path env : finding_ok (checkResolvedPath path env).
Proof. unfold checkResolvedPath. cbv zeta. by repeat case_match. Qed.

Lemma look_dirs_Some env dirs name path :
  look_dirs env dirs name = Some path <->
  exists before d after, dirs = before ++ d :: after /\ d <> [] /\ path = path_join d name
    /\ IsExecutable env path = true
    /\ Forall (fun d' => d' <> [] -> IsExecutable env (path_join d' name) = false) before.
Proof.
  induction dirs as [|e dirs IH]; cbn [look_dirs].
  { split; [done|]. intros (before & ? & ? & H & _). by destruct before. }
  case_bool_decide as He; [subst|destruct (IsExecutable env (path_join e name)) eqn:Ee].
  - rewrite IH. split; intros (before & d & after & H & Hd & -> & Hx & Hb).
    + exists ([] :: before), d, after. rewrite H. split_and!; try done. by constructor.
    + destruct before as [|e before]; simplify_eq/=.
      inversion Hb; subst. by exists before, d, after.
  - split.
    + intros ?; simplify_eq. exists [], e, dirs. split_and!; try done.
    + intros (before & d & after & H & Hd & -> & Hx & Hb).
      destruct before as [|e' before]; simplify_eq/=; [done|].
      inversion Hb; subst. naive_solver congruence.
  - rewrite IH. split; intros (before & d & after & H & Hd & -> & Hx & Hb).
    + exists (e :: before), d, after. rewrite H. split_and!; try done. by constructor.
    + destruct before as [|e' before]; simplify_eq/=; [congruence|].
      inversion Hb; subst. by exists before, d, after.
Qed.

Lemma contains_slash_abs token : is_abs token = true -> contains "/" token = true.
Proof.
  unfold is_abs. intros H. apply has_prefix_spec in H as [t ->].
  done.
Qed.

Lemma abs_not_home token : is_abs token = true -> has_prefix "~" token = false.
Proof. unfold is_abs. intros H. by apply has_prefix_spec in H as [t ->]. Qed.

(** The verdict is that of the path judged. *)
Lemma Substitutable_judged token env path :
  Off env = false -> hasGlobMeta token = false -> judged env token path ->
  Substitutable token env = checkResolvedPath path env.
Proof.
  intros Hoff Hg Hr. unfold Substitutable. rewrite Hoff, Hg. cbn [orb].
  destruct Hr as [rest Hh|token Ha|token before d after Ht Hs Hb Hp Hd Hx Hbefore].
  - rewrite has_prefix_app. rewrite bool_decide_eq_false_2 by done.
    unfold trim_prefix. by rewrite has_prefix_app.
  - rewrite (abs_not_home _ Ha), (contains_slash_abs _ Ha), Ha. done.
  - rewrite Ht, Hs. apply in_table_false in Hb. rewrite Hb.
    unfold checkBareCommand, lookPath.
    assert (look_dirs env (PathDirs env) token = Some (path_join d token)) as ->; [|done].
    apply look_dirs_Some. rewrite Hp. by exists before, d, after.
Qed.

Lemma Substitutable_none token env :
  Substitutable token env = no_finding \/ exists path, judged env token path.
Proof.
  unfold Substitutable. destruct (Off env || hasGlobMeta token); [by left|].
  destruct (has_prefix "~" token) eqn:Et.
  { apply has_prefix_spec in Et as [rest ->]. case_bool_decide; [by left|].
    right. eexists. by apply judged_home. }
  destruct (contains "/" token) eqn:Es.
  { destruct (is_abs token) eqn:Ea; [|by left]. right. eexists. by apply judged_absolute. }
  destruct (in_table bashBuiltins token) eqn:Eb; [by left|].
  unfold checkBareCommand. destruct (lookPath token env) as [w|] eqn:El; [|by left].
  apply look_dirs_Some in El as (before & d & after & Hp & Hd & -> & Hx & Hb).
  apply in_table_false in Eb. right. eexists. by eapply judged_path.
Qed.

Lemma Substitutable_reason token env : finding_ok (Substitutable token env).
Proof.
  unfold Substitutable, checkBareCommand.
  repeat (case_match; try done); apply checkResolvedPath_reason.
Qed.

(** One path is judged for a word. *)
Lemma judged_functional env token p q : judged env token p -> judged env token q -> p = q.
Proof.
  intros Hp Hq. destruct Hp as [rest Hh|token Ha|token b d a Ht Hs Hb Hp Hd Hx Hbefore].
  - remember ("~" ++ rest) as token eqn:E.
    destruct Hq as [rest' _|token Ha|token ? ? ? Ht]; subst.
    + by simplify_eq/=.
    + done.
    + done.
  - destruct Hq as [rest' _|token _|token ? ? ? _ Hs]; [done..|].
    by rewrite contains_slash_abs in Hs.
  - destruct Hq as [rest' _|token Ha|token b' d' a' _ _ _ Hp' Hd' Hx' Hbefore'].
    + by rewrite has_prefix_app in Ht.
    + by rewrite contains_slash_abs in Hs.
    + assert (look_dirs env (PathDirs env) token = Some (path_join d token)) as E1.
      { apply look_dirs_Some. rewrite Hp. by exists b, d, a. }
      assert (look_dirs env (PathDirs env) token = Some (path_join d' token)) as E2.
      { apply look_dirs_Some. rewrite Hp'. by exists b', d', a'. }
      congruence.
Qed.

(** ** Properties *)

(** ** Files, links and what a shell runs

    A location is the list of the names from the root down.  The disk says what
    is at a location that is no directory; directories are real, so that a link
    can only be the last name of a path. *)
Inductive node := File (content : gostr) (executable : bool) | Link (target : list gostr).

Abbreviation disk := (gmap (list gostr) node).

(** Following links. *)
Inductive lands (d : disk) : list gostr -> list gostr -> Prop :=
| lands_file loc b x : d !! loc = Some (File b x) -> lands d loc loc
| lands_link loc target r : d !! loc = Some (Link target) -> lands d target r -> lands d loc r.

Definition reads (d : disk) (loc : list gostr) (b : gostr) : Prop :=
  exists r x, lands d loc r /\ d !! r = Some (File b x).

Definition executable (d : disk) (loc : list gostr) : Prop :=
  exists r b, lands d loc r /\ d !! r = Some (File b true).

(** The walk of a path's names, from a location. *)
Inductive walks : list gostr -> list gostr -> list gostr -> Prop :=
| walks_end loc : walks loc [] loc
| walks_stay loc e es r : e = [] \/ e = "." -> walks loc es r -> walks loc (e :: es) r
| walks_up loc es r : walks (removelast loc) es r -> walks loc (".." :: es) r
| walks_down loc e es r :
    e <> [] -> e <> "." -> e <> ".." -> walks (loc ++ [e]) es r -> walks loc (e :: es) r.

Definition names (path : gostr) (loc : list gostr) : Prop :=
  exists t, path = "/" ++ t /\ walks [] (split_byte "/"%char t) loc.

(** What a shell executes for a command word: an absolute path, a path below
    the home directory, or the first executable of that name in the search
    path. *)
Inductive runs (d : disk) (home : gostr) (search : list gostr) : gostr -> list gostr -> Prop :=
| runs_absolute token loc : names token loc -> runs d home search token loc
| runs_home rest loc : names (home ++ "/" ++ rest) loc -> runs d home search ("~/" ++ rest) loc
| runs_search token before dir after loc :
    token <> [] -> has_prefix "~" token = false -> contains "/" token = false -> token ∉ bashBuiltins ->
    search = before ++ dir :: after -> names (dir ++ "/" ++ token) loc -> executable d loc ->
    (forall dir' loc', dir' ∈ before -> names (dir' ++ "/" ++ token) loc' -> ~ executable d loc') ->
    runs d home search token loc.

(** One step of this process: it writes a file it may write, or puts a file or
    a link under a name of a directory it may write, in place of what was there. *)
Inductive tampers (may_write : list gostr -> bool) (d : disk) : disk -> Prop :=
| tampers_write loc b x b' :
    d !! loc = Some (File b x) -> may_write loc = true -> tampers may_write d (<[loc := File b' x]> d)
| tampers_replace dir e n :
    may_write dir = true -> good_element e -> tampers may_write d (<[dir ++ [e] := n]> d).

(** A step of the process makes the location read as other bytes. *)
Definition substitutable (may_write : list gostr -> bool) (d : disk) (loc : list gostr) : Prop :=
  exists d' b b', tampers may_write d d' /\ reads d loc b /\ reads d' loc b' /\ b' <> b.

(** The guard's answers are those of the disk, and its directories absolute. *)
Record describes (env : Env) (d : disk) : Prop := {
  desc_names : forall loc n, d !! loc = Some n -> loc <> [] /\ Forall good_element loc;
  desc_targets : forall loc target, d !! loc = Some (Link target) -> Forall good_element target;
  desc_executable : forall loc, Forall good_element loc -> IsExecutable env (abs_path loc) = true <-> executable d loc;
  desc_links : exists eval, EvalSymlinks env = Some eval
    /\ forall loc r, Forall good_element loc -> lands d loc r -> eval (abs_path loc) = Some (abs_path r);
  desc_home : is_abs (HomeDir env) = true;
  desc_search : Forall (fun dir => is_abs dir = true) (PathDirs env);
}.

Definition may_write (env : Env) (loc : list gostr) : bool := CanWrite env (abs_path loc).

(** At most one link stands between the location and its file. *)
Definition one_link (d : disk) (loc : list gostr) : Prop :=
  exists r b x, d !! r = Some (File b x) /\ (loc = r \/ d !! loc = Some (Link r)).

(** *** Paths *)
Lemma walks_clean loc es r : Forall good_element loc -> Forall (fun e => "/"%char ∉ e) es -> walks loc es r ->
  rev r = fold_left (clean_step true) es (rev loc) /\ Forall good_element r.
Proof.
  intros Hl Hes H. revert Hl Hes. induction H as [loc|loc e es r He H IH|loc es r H IH|loc e es r H1 H2 H3 H IH]; intros Hl Hes;
    [done|apply Forall_cons in Hes as [Hs Hes]..]; cbn [fold_left].
  - destruct (IH Hl Hes) as [-> ?]. split; [|done]. f_equal. unfold clean_step. destruct He as [-> | ->]; reflexivity.
  - destruct (IH) as [-> ?]; [|done|split; [|done]]; clear IH.
    + destruct loc as [|x loc _] using rev_ind; [constructor|]. rewrite removelast_last. by apply Forall_app in Hl as [? _].
    + f_equal. destruct loc as [|x loc _] using rev_ind; [done|]. rewrite removelast_last, rev_unit.
      apply Forall_app in Hl as [_ Hx]. inversion Hx as [|? ? (_ & _ & Hx' & _) _]; subst.
      unfold clean_step. cbn [orb]. rewrite (bool_decide_false (x = "..")) by done. reflexivity.
  - assert (good_element e) as He by done.
    destruct IH as [-> ?]; [apply Forall_app; split; [done|by constructor]|done|split; [|done]].
    by rewrite rev_unit, clean_step_good.
Qed.

Lemma names_clean path loc : names path loc ->
  clean path = abs_path loc /\ Forall good_element loc /\ is_abs path = true.
Proof.
  intros (t & -> & H). apply walks_clean in H as [Hr Hg]; [|constructor|apply split_byte_no_sep].
  split_and!; [|done|done]. cbn [rev] in Hr. rewrite clean_absolute. unfold clean_elements. by rewrite <- Hr, rev_involutive.
Qed.

Lemma names_exists path : is_abs path = true -> exists loc, names path loc.
Proof.
  intros [t ->]%has_prefix_spec. assert (forall es loc, exists r, walks loc es r) as H; [|destruct (H (split_byte "/"%char t) []) as [r Hr]; by exists r, t].
  induction es as [|e es IH]; intros loc; [exists loc; constructor|].
  destruct (decide (e = [] \/ e = ".")) as [He|He]; [destruct (IH loc) as [r Hr]; exists r; by constructor|].
  destruct (decide (e = "..")) as [->|He'].
  - destruct (IH (removelast loc)) as [r Hr]. exists r. by constructor.
  - destruct (IH (loc ++ [e])) as [r Hr]. exists r. constructor; tauto.
Qed.

Lemma names_functional path loc loc' : names path loc -> names path loc' -> loc = loc'.
Proof.
  intros (H1 & H2 & _)%names_clean (H3 & H4 & _)%names_clean. apply abs_path_inj; [done..|]. congruence.
Qed.


Lemma join_clean dir name loc : is_abs dir = true -> name <> [] -> names (dir ++ "/" ++ name) loc ->
  path_join dir name = abs_path loc.
Proof.
  intros Hd Hn (H & _)%names_clean. unfold path_join. apply has_prefix_spec in Hd as [t ->]. cbn [List.filter].
  rewrite !bool_decide_false by done. exact H.
Qed.

(** The extra slash of [path_join home "/rest"]. *)
Lemma walks_app loc es es' r : walks loc (es ++ [] :: es') r <-> walks loc (es ++ es') r.
Proof.
  revert loc. induction es as [|e es IH]; intros loc; cbn [app].
  - split; [inversion 1; subst; [done|done]|]. intros H. apply walks_stay; auto.
  - split; inversion 1; subst; [apply walks_stay|apply walks_up|apply walks_down|apply walks_stay|apply walks_up|apply walks_down];
      try done; by apply IH.
Qed.

Lemma split_slash a b : split_byte "/"%char (a ++ "/"%char :: b) = split_byte "/"%char a ++ split_byte "/"%char b.
Proof.
  induction a as [|c a IH]; cbn [app split_byte]; [by rewrite byte_eqb_refl|].
  rewrite IH. pose proof (split_byte_nonempty "/"%char a). by destruct (_ =?b _), (split_byte "/"%char a).
Qed.

Lemma names_slash home rest loc : is_abs home = true -> names (home ++ "/" ++ rest) loc ->
  names (home ++ "/" ++ "/" ++ rest) loc.
Proof.
  intros [t ->]%has_prefix_spec (u & E & Hu). exists (t ++ "/" ++ "/" ++ rest). split; [done|].
  assert (u = t ++ "/" ++ rest) as -> by (cbn in E; by simplify_eq). cbn [app] in *.
  rewrite !split_slash in *. cbn [split_byte]. rewrite byte_eqb_refl. by apply walks_app.
Qed.

(** *** The guard looks at the file the shell runs *)
Lemma runs_judged env d token loc : describes env d -> runs d (HomeDir env) (PathDirs env) token loc ->
  judged env token (abs_path loc) /\ Forall good_element loc.
Proof.
  intros Hd H. destruct H as [token loc Hn|rest loc Hn|token before dir after loc Hne Ht Hs Hb Hp Hn Hx Hbefore].
  - destruct (names_clean _ _ Hn) as (<- & Hg & Ha). split; [by constructor|done].
  - destruct (names_clean _ _ Hn) as (_ & Hg & _). split; [|done].
    rewrite <- (join_clean (HomeDir env) ("/" ++ rest) loc); [|apply Hd|done|apply names_slash; [apply Hd|done]].
    apply (judged_home _ ("/" ++ rest)). intros E. pose proof (desc_home _ _ Hd) as Ha. by rewrite E in Ha.
  - destruct (names_clean _ _ Hn) as (_ & Hg & _). split; [|done].
    pose proof (desc_search _ _ Hd) as Hall. rewrite Hp in Hall. apply Forall_app in Hall as [Hall1 [Hdir _]%Forall_cons].
    rewrite <- (join_clean dir token loc) by done.
    eapply judged_path; [done..|exact Hp| | |].
    + intros ->. done.
    + rewrite (join_clean dir token loc) by done. by apply (desc_executable _ _ Hd).
    + rewrite Forall_forall in Hall1 |- *. intros dir' Hin _. specialize (Hall1 dir' Hin).
      destruct (names_exists (dir' ++ "/" ++ token)) as [loc' Hn'].
      { apply has_prefix_spec in Hall1 as [t ->]. done. }
      destruct (names_clean _ _ Hn') as (_ & Hg' & _). rewrite (join_clean dir' token loc') by done.
      apply not_true_iff_false. rewrite (desc_executable _ _ Hd) by done. by apply (Hbefore dir').
Qed.

(** *** What a step of the process changes *)
Lemma lands_functional d loc r r' : lands d loc r -> lands d loc r' -> r = r'.
Proof.
  induction 1 as [loc b x E|loc target r E H IH]; inversion 1; subst; try congruence.
  apply IH. congruence.
Qed.

Lemma one_link_lands d loc r b x : d !! r = Some (File b x) -> loc = r \/ d !! loc = Some (Link r) -> lands d loc r.
Proof. intros E [->|H]; [by econstructor|]. eapply lands_link; [done|by econstructor]. Qed.

(** What stands elsewhere does not matter. *)
Lemma reads_elsewhere d loc r b x q n b' : d !! r = Some (File b x) -> loc = r \/ d !! loc = Some (Link r) ->
  q <> loc -> q <> r -> reads (<[q := n]> d) loc b' -> b' = b.
Proof.
  intros E Hl Hq Hr (r' & x' & Hland & E').
  assert (lands (<[q := n]> d) loc r) as Hr'.
  { apply (one_link_lands _ _ _ b x); [by rewrite lookup_insert_ne|]. destruct Hl as [->|Hl]; [by left|right].
    by rewrite lookup_insert_ne. }
  rewrite (lands_functional _ _ _ _ Hland Hr') in E'. rewrite lookup_insert_ne in E' by done. congruence.
Qed.

Lemma dir_loc init e : Forall good_element (init ++ [e]) -> dir (abs_path (init ++ [e])) = abs_path init.
Proof. intros [Hi He]%Forall_app. apply dir_abs_path_snoc; [done|by inversion He]. Qed.

(** The guard's three tests are the steps that reach the file. *)
Lemma flagged_iff env d loc : describes env d -> Forall good_element loc -> one_link d loc ->
  flagged env (abs_path loc) <-> substitutable (may_write env) d loc.
Proof.
  intros Hd Hg (r & b & x & Er & Hl). pose proof (one_link_lands d loc r b x Er Hl) as Hland.
  destruct (desc_links _ _ Hd) as (eval & Ee & Hev). specialize (Hev loc r Hg Hland).
  assert (evalSymlinks (abs_path loc) env = abs_path r) as Hreal by (unfold evalSymlinks; by rewrite Ee, Hev).
  destruct (desc_names _ _ Hd r _ Er) as [Hne Hgr].
  assert (loc <> [] /\ Forall good_element loc) as [Hnl _].
  { destruct Hl as [->|Hl]; [done|by eapply desc_names]. }
  destruct r as [|e r _] using rev_ind; [done|]. clear Hne.
  destruct loc as [|e' loc _] using rev_ind; [done|]. clear Hnl.
  assert (good_element e /\ good_element e') as [He He'].
  { apply Forall_app in Hg as [_ Hg], Hgr as [_ Hgr]. inversion Hg; by inversion Hgr. }
  unfold flagged. rewrite Hreal, (dir_loc r e Hgr), (dir_loc loc e' Hg). split.
  - assert (forall q n, tampers (may_write env) d (<[q := n]> d) -> reads (<[q := n]> d) (loc ++ [e']) ("x"%char :: b) ->
      substitutable (may_write env) d (loc ++ [e'])) as Hdone.
    { intros q n Ht Hr. exists (<[q := n]> d), b, ("x"%char :: b). split_and!; [done|by exists (r ++ [e]), x|done|].
      intros E. apply (f_equal length) in E. cbn in E. lia. }
    assert (forall n, n = File ("x"%char :: b) x -> reads (<[r ++ [e] := n]> d) (loc ++ [e']) ("x"%char :: b)) as Hfile.
    { intros n ->. exists (r ++ [e]), x. rewrite lookup_insert_eq. split; [|done].
      eapply one_link_lands; [by rewrite lookup_insert_eq|]. destruct Hl as [Hl|Hl]; [by left|right].
      rewrite lookup_insert_ne; [done|]. intros E. rewrite E in Er. congruence. }
    intros [Hw|[Hw|[Hne Hw]]].
    + apply (Hdone (r ++ [e]) (File ("x"%char :: b) x)); [by eapply tampers_write|by apply Hfile].
    + apply (Hdone (r ++ [e]) (File ("x"%char :: b) x)); [by apply tampers_replace|by apply Hfile].
    + eapply (Hdone (loc ++ [e']) (File ("x"%char :: b) x)); [by apply tampers_replace|].
      exists (loc ++ [e']), x. rewrite lookup_insert_eq. split; [|done]. eapply lands_file. by rewrite lookup_insert_eq.
  - intros (d' & b0 & b' & Ht & (r0 & x0 & Hl0 & E0) & Hr & Hb).
    rewrite (lands_functional _ _ _ _ Hl0 Hland), Er in E0. injection E0 as <- <-.
    destruct Ht as [q bq xq b1 Eq Hw|dq en n Hw Hge].
    + destruct (decide (q = r ++ [e])) as [->|Hqr]; [by left|].
      destruct (decide (q = loc ++ [e'])) as [->|Hql]; [destruct Hl; congruence|].
      by destruct Hb; eapply reads_elsewhere.
    + destruct (decide (dq ++ [en] = r ++ [e])) as [E|Hqr]; [apply app_inj_tail in E as [-> ->]; by right; left|].
      destruct (decide (dq ++ [en] = loc ++ [e'])) as [E|Hql]; [|by destruct Hb; eapply reads_elsewhere].
      apply app_inj_tail in E as [-> ->]. right. right. split; [|done]. intros E.
      apply Hqr. symmetry. by apply abs_path_inj.
Qed.

(** C30: The guard and what the process can do to a command.  The disk has
    files and links, its directories being real; the shell's search path holds
    absolute directories.  For a word the shell runs (an absolute path, a path
    below ~, a name it finds first in its search path) by way of at most one
    link, the guard reports a finding exactly when it is enforced, the word is
    no glob pattern, and one step of this process (writing a file it may write,
    or replacing an entry of a directory it may write) makes the location the
    shell runs read as other bytes.  Out of scope, as the package says: a writable
    directory above the file's, and a file planted earlier in the search path;
    and, as it does not say, the links in the middle of a chain
    ([middle_link_unchecked]). *)
Theorem Substitutable_correct (env : Env) (d : disk) (token : gostr) (loc : list gostr) :
  describes env d -> runs d (HomeDir env) (PathDirs env) token loc -> one_link d loc ->
  f_sub (Substitutable token env) = true <->
  Off env = false /\ hasGlobMeta token = false /\ substitutable (may_write env) d loc.
Proof.
  intros Hd Hr Hl. destruct (runs_judged env d token loc Hd Hr) as [Hj Hg].
  rewrite <- (flagged_iff env d loc Hd Hg Hl). split.
  - intros H. destruct (Off env) eqn:Eo; [by unfold Substitutable in H; rewrite Eo in H|].
    destruct (hasGlobMeta token) eqn:Eg; [by unfold Substitutable in H; rewrite Eo, Eg in H|].
    split_and!; [done..|]. apply checkResolvedPath_spec. by rewrite <- (Substitutable_judged token env).
  - intros (Ho & Hm & Hf). rewrite (Substitutable_judged token env _ Ho Hm Hj). by apply checkResolvedPath_spec.
Qed.

(** Of a chain of links the guard looks at the two ends: when only the directory
    of the link in the middle can be written, it reports nothing, although that
    link can be replaced by a file of the process's own. *)
Theorem middle_link_unchecked (env : Env) (d : disk) (loc init r : list gostr) (e b : gostr) (x : bool) :
  describes env d -> Forall good_element loc ->
  d !! loc = Some (Link (init ++ [e])) -> d !! (init ++ [e]) = Some (Link r) -> d !! r = Some (File b x) ->
  loc <> init ++ [e] -> CanWrite env (abs_path init) = true ->
  CanWrite env (abs_path r) = false -> CanWrite env (dir (abs_path r)) = false -> CanWrite env (dir (abs_path loc)) = false ->
  f_sub (checkResolvedPath (abs_path loc) env) = false /\ substitutable (may_write env) d loc.
Proof.
  intros Hd Hg E1 E2 E3 Hne Hw Hw1 Hw2 Hw3.
  assert (lands d loc r) as Hl by (eapply lands_link; [done|]; eapply lands_link; [done|by econstructor]). split.
  - destruct (desc_links _ _ Hd) as (eval & Ee & Hev). apply not_true_iff_false. rewrite checkResolvedPath_spec.
    unfold flagged, evalSymlinks. rewrite Ee, (Hev loc r Hg Hl). unfold abs_path at 1 4 6. cbn [app].
    change ("/"%char :: join "/" r) with (abs_path r). rewrite Hw1, Hw2, Hw3. naive_solver.
  - exists (<[init ++ [e] := File ("x"%char :: b) x]> d), b, ("x"%char :: b). split_and!.
    + apply tampers_replace; [done|]. apply (desc_names _ _ Hd) in E2 as [_ [_ He]%Forall_app]. by inversion He.
    + by exists r, x.
    + exists (init ++ [e]), x. rewrite lookup_insert_eq. split; [|done].
      eapply lands_link; [by rewrite lookup_insert_ne|]. eapply lands_file. by rewrite lookup_insert_eq.
    + intros E. apply (f_equal length) in E. cbn in E. lia.
Qed.

(** In auto mode the check is enforced exactly when the daemon cannot
    replace its own executable; "on" and "off" decide on their own, and a
    reason is given exactly when the check is turned off. *)
Theorem Resolve_decides (mode self : gostr) (env : Env) :
  let '(enforced, why) := Resolve mode self env in
  (enforced = false <->
     mode = ModeOff \/ (mode <> ModeOn /\ self <> [] /\ flagged env self))
  /\ (enforced = true <-> why = []).
Proof.
  unfold Resolve. case_bool_decide as Hoff; [subst; naive_solver|].
  case_bool_decide as Hon; [naive_solver|]. case_bool_decide as Hself; [naive_solver|].
  cbv zeta. pose proof (checkResolvedPath_spec self (set_off false env)) as Hs.
  change (flagged (set_off false env) self) with (flagged env self) in Hs.
  destruct (f_sub _); naive_solver.
Qed.

(** When the check is enforced, a plain command name that the guard does
    not report as unresolved and that is no shell builtin has one file the
    verdict speaks about, and an unresolved name never gets a verdict. *)
Theorem bare_name_judged_or_reported (token : gostr) (env : Env) :
  Off env = false -> token <> [] -> hasGlobMeta token = false ->
  has_prefix "~" token = false -> contains "/" token = false -> token ∉ bashBuiltins ->
  if UnresolvedBareName token env then
    Substitutable token env = no_finding /\ forall path, ~ judged env token path
  else exists path, judged env token path
       /\ Substitutable token env = checkResolvedPath path env
       /\ forall path', judged env token path' -> path' = path.
Proof.
  intros Ho Hne Hg Ht Hs Hb. pose proof (proj2 (in_table_false _ _) Hb) as Hb'.
  unfold UnresolvedBareName. rewrite Ho, Hg, Ht, Hs, Hb', bool_decide_eq_false_2 by done.
  cbn [orb]. destruct (lookPath token env) as [w|] eqn:El.
  - apply look_dirs_Some in El as (before & d & after & Hp & Hd & -> & Hx & Hbefore).
    assert (judged env token (path_join d token)) as Hr by (by eapply judged_path).
    exists (path_join d token). split_and!; [done|by apply Substitutable_judged|].
    intros path' Hr'. by eapply judged_functional.
  - assert (forall path, ~ judged env token path) as Hno.
    { intros path Hr. destruct Hr as [rest Hh|token Ha|token before d after _ _ _ Hp Hd Hx Hbf].
      - by rewrite has_prefix_app in Ht.
      - by rewrite contains_slash_abs in Hs.
      - assert (look_dirs env (PathDirs env) token = Some (path_join d token)) as E; [|unfold lookPath in El; congruence].
        apply look_dirs_Some. rewrite Hp. by exists before, d, after. }
    split; [|done]. by destruct (Substitutable_none token env) as [|[path ?%Hno]].
Qed.

Definition demo_env : Env :=
  MkEnv (fun p => bool_decide (p = "/home/foci/scripts")) ["/home/foci/scripts"; []; "/usr/bin"]
    (fun p => bool_decide (p = "/usr/bin/git") || bool_decide (p = "/home/foci/scripts/gh"))
    None "/home/foci" false.

Example bare_name_judged_or_reported_witness :
  exists path, judged demo_env "gh" path
       /\ Substitutable "gh" demo_env = checkResolvedPath path demo_env
       /\ forall path', judged demo_env "gh" path' -> path' = path.
Proof.
  apply (bare_name_judged_or_reported "gh" demo_env); try reflexivity; [done|].
  by apply (bool_decide_eq_true_1 (_ ∉ _)).
Defined.

(** A link in a directory the process may write, to a file it may not. *)
Definition gh_link : list gostr := ["home"; "foci"; "scripts"; "gh"].
Definition gh_file : list gostr := ["opt"; "gh"].
Definition link_disk : disk := <[gh_link := Link gh_file]> {[gh_file := File "ELF" true]}.
Definition link_env : Env :=
  MkEnv (fun p => bool_decide (p = "/home/foci/scripts")) ["/home/foci/scripts"; "/usr/bin"]
    (fun p => bool_decide (p = abs_path gh_link) || bool_decide (p = abs_path gh_file))
    (Some (fun p => if bool_decide (p = abs_path gh_link) || bool_decide (p = abs_path gh_file)
                    then Some (abs_path gh_file) else None)) "/home/foci" false.

Lemma good_concrete es : forallb (fun e => negb (in_table [[]; "."; ".."] e || mem_byte "/"%char e)) es = true ->
  Forall good_element es.
Proof.
  intros H. rewrite forallb_forall in H. apply List.Forall_forall. intros e He. specialize (H e He).
  apply negb_true_iff, orb_false_iff in H as [H1%in_table_false H2].
  assert ("/"%char ∉ e) by (by rewrite <- mem_byte_spec, H2). unfold good_element. set_solver.
Qed.

Lemma link_disk_lookup loc n : link_disk !! loc = Some n ->
  (loc = gh_link /\ n = Link gh_file) \/ (loc = gh_file /\ n = File "ELF" true).
Proof. unfold link_disk. rewrite lookup_insert_Some, lookup_singleton_Some. naive_solver. Qed.

Lemma link_disk_lands loc r : lands link_disk loc r <-> (loc = gh_link \/ loc = gh_file) /\ r = gh_file.
Proof.
  assert (lands link_disk gh_file gh_file) as Hf by (by eapply (lands_file _ _ "ELF" true)). split.
  - induction 1 as [loc b x E|loc target r E H IH]; apply link_disk_lookup in E; naive_solver.
  - intros [[-> | ->] ->]; [|done]. by eapply lands_link.
Qed.

Lemma link_describes : describes link_env link_disk.
Proof.
  assert (Forall good_element gh_link /\ Forall good_element gh_file) as [G1 G2] by (split; by apply good_concrete).
  split.
  - intros loc n [[-> _]|[-> _]]%link_disk_lookup; by split.
  - intros loc target [[-> [= ->]]|[_ [=]]]%link_disk_lookup. done.
  - intros loc Hg. cbn [IsExecutable link_env]. rewrite orb_true_iff, !bool_decide_eq_true. split.
    + intros H. exists gh_file, "ELF". split; [|done]. apply link_disk_lands. split; [|done].
      destruct H as [H|H]; apply abs_path_inj in H; auto.
    + intros (r & b & [[-> | ->] _]%link_disk_lands & _); auto.
  - eexists. split; [reflexivity|]. intros loc r Hg [Hl ->]%link_disk_lands.
    assert (bool_decide (abs_path loc = abs_path gh_link) || bool_decide (abs_path loc = abs_path gh_file) = true) as ->; [|done].
    rewrite orb_true_iff, !bool_decide_eq_true. destruct Hl as [-> | ->]; auto.
  - done.
  - by repeat constructor.
Qed.

Lemma names_gh : names ("/home/foci/scripts" ++ "/" ++ "gh") gh_link.
Proof.
  eexists. split; [reflexivity|]. change (walks [] ["home"; "foci"; "scripts"; "gh"] gh_link).
  repeat (apply walks_down; [done..|]). apply walks_end.
Qed.

Example Substitutable_correct_witness : substitutable (may_write link_env) link_disk gh_link.
Proof.
  eapply (Substitutable_correct link_env link_disk "gh" gh_link).
  - exact link_describes.
  - apply (runs_search _ _ _ "gh" [] "/home/foci/scripts" ["/usr/bin"]); try reflexivity.
    + done.
    + by apply (bool_decide_eq_true_1 (_ ∉ _)).
    + exact names_gh.
    + exists gh_file, "ELF". split; [|reflexivity]. apply link_disk_lands. auto.
    + intros dir' loc' H. by apply elem_of_nil in H.
  - exists gh_file, "ELF", true. split; [reflexivity|]. by right.
  - vm_compute. reflexivity.
Defined.

(** The home of another user is taken for a directory of one's own: the shell
    runs [~bob/tool] from bob's home, the guard judges a file that has nothing
    to do with it. *)
Example other_home_misread :
  Substitutable "~bob/tool"
    (MkEnv (fun p => bool_decide (p = "/home/bob")) [] (fun _ => false) None "/home/foci" false) = no_finding
  /\ f_path (Substitutable "~bob/tool" (MkEnv (fun p => true) [] (fun _ => false) None "/home/foci" false)) = "/home/foci/bob/tool".
Proof. split; vm_compute; reflexivity. Qed.
