(* ===== verification/Rules.v ===== *)
(** * Auto-approve rules and their tools (autoapprove.go, builtins.go)

    The rule syntax, the built-in rule groups, the match of non-Bash tools
    (with the canonical form of path-typed rules and candidates), the
    environment snapshot, and the report of built-in commands that the
    substitutability guard refuses. *)
From S2P Require Import Prelude GoStrings Glob ShellScan GitReadonly ExecGuard CanonPath.

(** ** Rules *)

Record Rule := MkRule { ToolName : gostr; Pattern : gostr; readonlyGit : bool }.

Definition pathTypedTools : list gostr := ["Read"; "Edit"; "Write"; "NotebookEdit"].

Definition canonicalPathPattern (fs : FS) (pattern : gostr) : gostr :=
  if negb (is_abs pattern) then pattern
  else match index_any "*?[" pattern with
       | None => canonical_path fs pattern
       | Some cut =>
           match last_index_byte "/"%char (take cut pattern) with
           | None | Some O => pattern
           | Some slash => canonical_path fs (take slash pattern) ++ drop slash pattern
           end
       end.

Definition parseAutoApproveRule (fs : FS) (rule : gostr) : Rule :=
  match index_byte ":"%char rule with
  | Some idx =>
      let tool := take idx rule in
      let pattern := drop (S idx) rule in
      let pattern := if in_table pathTypedTools tool then canonicalPathPattern fs pattern
                     else pattern in
      MkRule tool pattern
        (bool_decide (tool = "Bash") && bool_decide (pattern = readonlyGitPattern))
  | None => MkRule rule [] false
  end.

Definition parseAutoApproveRules (fs : FS) (rules : list gostr) : list Rule :=
  parseAutoApproveRule fs <$> rules.

Definition Compile (fs : FS) (rules : list gostr) : list Rule := parseAutoApproveRules fs rules.

Definition FociShellRulesFor (execNames : list gostr) : list gostr :=
  (fun name => "Bash:" ++ name) <$> execNames.

Definition CommonReadonlyRules : list gostr :=
  [ "Search"; "Glob"; "Grep"; "Read"; "WebSearch"; "WebFetch"; "Bash:ls"; "Bash:echo";
    "Bash:cat"; "Bash:head"; "Bash:tail"; "Bash:wc"; "Bash:sort"; "Bash:cut"; "Bash:tr";
    "Bash:diff"; "Bash:stat"; "Bash:file"; "Bash:which"; "Bash:date"; "Bash:pwd";
    "Bash:id"; "Bash:uname"; "Bash:ps"; "Bash:ss"; "Bash:du"; "Bash:df"; "Bash:grep";
    "Bash:rg"; "Bash:ack"; "Bash:sed"; "Bash:find"; "Bash:test"; "Bash:["; "Bash:[[";
    "Bash:zcat"; "Bash:zgrep"; "Bash:base64"; "Bash:env"; "Bash:crontab -l";
    "Bash:npm list"; "Bash:journalctl"; "Bash:go env"; "Bash:go version"; "Bash:go doc";
    "Bash:go help"; "Bash:go list"; "Bash:go vet"; "Bash:jq"; "Bash:yq"; "Bash:mds";
    "Bash:mdq"; "Bash:sqlite3 -readonly"; "Bash:/usr/bin/sqlite3 -readonly";
    ReadonlyGitRule ].

Definition CommonSafeWriteRules : list gostr :=
  [ "Bash:curl"; "Bash:wget"; "Bash:mkdir"; "Bash:touch"; "Bash:trash"; "Bash:go build";
    "Bash:go test"; "Bash:go install"; "Bash:go get"; "Bash:go mod tidy";
    "Bash:go mod download"; "Bash:go mod edit"; "Bash:go clean"; "Bash:go run" ].

(** [sort.Strings] over the keys of [readonlyGitSubcommands]. *)
Definition ReadonlyGitSubcommands : list gostr := sort_strings readonlyGitSubcommands.*1.

Definition DisplayRule (rule : gostr) : gostr :=
  if bool_decide (rule = ReadonlyGitRule) then
    "git (read-only: " ++ join ", " ReadonlyGitSubcommands
    ++ "; branch and tag list only, remote -v/get-url, reflog show; "
    ++ "-C <dir> allowed; no --output, --ext-diff, --textconv, --show-signature)"
  else trim_prefix "Bash:" rule.

(** ** The environment snapshot *)

Abbreviation environ := (gmap gostr gostr).

Definition env_entry (env : environ) (entry : gostr) : environ :=
  let '(key, value, ok) := cut "=" entry in
  if ok && negb (bool_decide (key = [])) then <[key := value]> env else env.

Definition EnvironmentFromList (entries : list gostr) : environ :=
  fold_left env_entry entries ∅.

(** ** Tool input *)

(** A decoded JSON value; object members in document order.  The tool input is
    [None] when it is empty or does not parse. *)
#[warnings="-register-all"]
Inductive json :=
| JNull
| JBool (b : bool)
| JNumber (text : gostr)
| JString (s : gostr)
| JArray (elements : list json)
| JObject (members : list (gostr * json)).

Definition toolMatchKeys : list (gostr * gostr) :=
  [ ("Bash", "command"); ("Read", "file_path"); ("Edit", "file_path");
    ("Write", "file_path"); ("NotebookEdit", "file_path"); ("Glob", "pattern");
    ("Grep", "pattern"); ("WebFetch", "url"); ("WebSearch", "query") ].

(** Decoding into a Go map keeps the last member of a name; decoding null
    leaves the map nil and a string empty. *)
Definition member (key : gostr) (members : list (gostr * json)) : option json :=
  table_get (rev members) key.

Definition extractMatchString (toolName : gostr) (input : option json) : gostr :=
  match table_get toolMatchKeys toolName, input with
  | Some key, Some (JObject members) =>
      match member key members with
      | Some (JString s) => s
      | _ => []
      end
  | _, _ => []
  end.

Definition matchesToolStr (r : Rule) (toolName matchStr : gostr) : bool :=
  if negb (bool_decide (ToolName r = toolName)) then false
  else if bool_decide (Pattern r = []) then true
  else if bool_decide (matchStr = []) then false
  else matchPattern (Pattern r) matchStr.

Definition matchToolAutoApprove (fs : FS) (rules : list Rule) (toolName : gostr)
    (input : option json) : bool :=
  let matchStr := extractMatchString toolName input in
  let matchStr := if in_table pathTypedTools toolName && is_abs matchStr
                  then canonical_path fs matchStr else matchStr in
  existsb (fun r => matchesToolStr r toolName matchStr) rules.

(** ** Built-in commands the guard refuses *)

Definition GroupReadonly : gostr := "read-only".
Definition GroupSafeWrite : gostr := "safe-write".

Record SubstitutableBuiltin := MkBuiltin {
  sb_Group : gostr; sb_Command : gostr; sb_Path : gostr; sb_Reason : gostr;
}.

(** The loop of [scan]; [seen] holds the reported keys, the group name, a zero
    byte and the command. *)
Definition seen_key (group command : gostr) : gostr := group ++ "000"%char :: command.

Definition scan_rule (fs : FS) (env : Env) (group : gostr)
    (st : list SubstitutableBuiltin * gset gostr) (rule : gostr)
    : list SubstitutableBuiltin * gset gostr :=
  let '(found, seen) := st in
  let r := parseAutoApproveRule fs rule in
  if negb (bool_decide (ToolName r = "Bash")) then st
  else match tokenizeCommand (Pattern r) with
       | [] => st
       | token :: _ =>
           let f := Substitutable token env in
           if f_sub f then
             if bool_decide (seen_key group token ∈ seen) then st
             else (found ++ [MkBuiltin group token (f_path f) (f_reason f)],
                   {[seen_key group token]} ∪ seen)
           else st
       end.

Definition scan_group (fs : FS) (env : Env) (group : gostr) (rules : list gostr)
    (st : list SubstitutableBuiltin * gset gostr) : list SubstitutableBuiltin * gset gostr :=
  fold_left (scan_rule fs env group) rules st.

Definition SubstitutableBuiltins (fs : FS) (readonly safeWrite : bool) (env : Env)
    : list SubstitutableBuiltin :=
  let st := ([], ∅) in
  let st := if readonly then scan_group fs env GroupReadonly CommonReadonlyRules st else st in
  let st := if safeWrite then scan_group fs env GroupSafeWrite CommonSafeWriteRules st else st in
  st.1.

(** ** Lemmas *)

Lemma glob_rel_prefix p s :
  contains_any "*?" p = false ->
  glob_rel (p ++ "*") s <-> has_prefix p s = true.
Proof.
  unfold contains_any. revert s. induction p as [|c p IH]; intros s Hp; cbn [app].
  - cbn [has_prefix]. rewrite glob_rel_star. split; [done|]. intros _.
    exists (length s). rewrite drop_all. split; [done|constructor].
  - cbn [existsb] in Hp. apply orb_false_iff in Hp as [Hc Hp].
    assert (c <> "*"%char /\ c <> "?"%char) as [Hs Hq].
    { split; intros ->; done. }
    rewrite glob_rel_char by done. destruct s as [|d s]; cbn [has_prefix].
    + split; [by intros (? & ? & ? & _)|done].
    + destruct (byte_eqb_spec c d) as [->|Hne]; cbn [andb]; [rewrite <- IH by done|].
      * split; [by intros (? & ? & [= <- <-] & _ & ?)|]. intros. by exists d, s; eauto.
      * split; [|done]. intros (d' & s' & [= <- <-] & [?|?] & _); congruence.
Qed.

Lemma index_any_app cs s c t :
  contains_any cs s = false -> mem_byte c cs = true ->
  index_any cs (s ++ c :: t) = Some (length s).
Proof.
  unfold contains_any. induction s as [|d s IH]; cbn [existsb app index_any length].
  - by intros _ ->.
  - intros [Hd Hs]%orb_false_iff Hc. rewrite Hd, IH by done. done.
Qed.

Lemma contains_any_app cs s t : contains_any cs (s ++ t) = contains_any cs s || contains_any cs t.
Proof. apply existsb_app. Qed.

Lemma index_byte_app_first c s t : (c ∉ s) -> index_byte c (s ++ c :: t) = Some (length s).
Proof.
  induction s as [|d s IH]; intros Hs; cbn [app index_byte]; [by rewrite byte_eqb_refl|].
  apply not_elem_of_cons in Hs as [Hd Hs]. rewrite byte_eqb_ne by done. by rewrite IH.
Qed.

(** A rule "Tool:dir/*" scoped to a directory compiles to the canonical
    directory followed by the same tail. *)
Lemma parse_dir_rule fs tool ws :
  tool ∈ pathTypedTools -> is_abs ws = true -> contains_any "*?[" ws = false ->
  parseAutoApproveRule fs (tool ++ ":" ++ ws ++ "/*")
  = MkRule tool (canonical_path fs ws ++ "/*") false.
Proof.
  intros Ht Hw Hc. unfold parseAutoApproveRule.
  assert (":"%char ∉ tool) as Hcol.
  { repeat (apply elem_of_cons in Ht as [->|Ht];
      [by apply (bool_decide_eq_true_1 (_ ∉ _))|]). by apply elem_of_nil in Ht. }
  cbn [app]. rewrite index_byte_app_first by done.
  rewrite take_app_length, drop_app_ge by lia.
  replace (S (length tool) - length tool) with 1 by lia. cbn [drop]. rewrite drop_0.
  pose proof (proj2 (in_table_spec _ _) Ht) as Htt. rewrite Htt.
  assert (bool_decide (tool = "Bash") = false) as ->.
  { apply bool_decide_eq_false_2. by intros ->. }
  f_equal. unfold canonicalPathPattern.
  assert (is_abs (ws ++ "/*") = true) as -> by (by apply has_prefix_app_r). cbn [negb].
  change (ws ++ "/*") with (ws ++ ["/"%char] ++ ["*"%char]). rewrite app_assoc.
  cbn [app]. rewrite index_any_app; [|rewrite contains_any_app, Hc; done|done].
  rewrite take_app_length, last_index_byte_app by apply not_elem_of_nil.
  rewrite <- app_assoc. destruct ws as [|w0 ws]; [done|]. cbn [length].
  change (S (length ws)) with (length (w0 :: ws)).
  by rewrite take_app_length, drop_app_length.
Qed.

Lemma inside_dir ew et :
  Forall good_element ew -> Forall good_element et -> ew <> [] ->
  has_prefix (abs_path ew ++ "/") (abs_path et) = true <-> exists e post, et = ew ++ e :: post.
Proof.
  intros Hw Ht Hne. split.
  - intros H. destruct (proj1 (abs_path_prefix ew et Hw Ht Hne) (or_intror H)) as [[|e post] ->];
      [|by eauto].
    rewrite app_nil_r in H. apply has_prefix_length in H. rewrite length_app in H. cbn in H. lia.
  - intros (e & post & ->). destruct (proj2 (abs_path_prefix ew _ Hw Ht Hne)) as [H|H]; [eauto| |done].
    apply abs_path_inj in H; [|done..].
    apply (f_equal length) in H. rewrite length_app in H. cbn in H. lia.
Qed.

Lemma env_entries_lookup entries env key :
  fold_left env_entry entries env !! key =
  match List.find (fun e => bool_decide ((cut "=" e).1.1 = key) && (cut "=" e).2
                            && negb (bool_decide (key = []))) (rev entries) with
  | Some e => Some (cut "=" e).1.2
  | None => env !! key
  end.
Proof.
  revert env. induction entries as [|e entries IH] using rev_ind; intros env; [done|].
  rewrite fold_left_app, rev_app_distr. cbn [fold_left rev app List.find].
  unfold env_entry at 1. destruct (cut "=" e) as [[k v] ok] eqn:Ec. cbn [fst snd].
  destruct ok; cbn [andb].
  2:{ rewrite andb_false_r. cbn [andb]. apply IH. }
  rewrite andb_true_r.
  destruct (decide (k = key)) as [->|Hk];
    [rewrite (bool_decide_eq_true_2 (key = key)) by done
    |rewrite (bool_decide_eq_false_2 (k = key)) by done]; cbn [andb].
  - destruct (bool_decide (key = [])) eqn:Ek; cbn [negb].
    + apply IH.
    + by rewrite lookup_insert_eq, Ec.
  - destruct (bool_decide (k = [])); cbn [negb]; [|rewrite lookup_insert_ne by done]; apply IH.
Qed.

(** ** The report of refused built-in commands *)

(** A command of a rule group: the first word of a Bash rule's pattern. *)
Definition group_command (fs : FS) (rules : list gostr) (token : gostr) : Prop :=
  exists rule, rule ∈ rules /\ ToolName (parseAutoApproveRule fs rule) = "Bash"
    /\ head (tokenizeCommand (Pattern (parseAutoApproveRule fs rule))) = Some token.

Definition sb_key (b : SubstitutableBuiltin) : gostr := seen_key (sb_Group b) (sb_Command b).

(** What the loop keeps: the reports have distinct keys, [seen] is the set of
    their keys, and each report carries the guard's finding. *)
Record scan_ok (env : Env) (st : list SubstitutableBuiltin * gset gostr) : Prop := ScanOk {
  so_nodup : NoDup (sb_key <$> st.1);
  so_seen : st.2 = list_to_set (sb_key <$> st.1);
  so_findings : Forall (fun b => Substitutable (sb_Command b) env
                        = Finding true (sb_Path b) (sb_Reason b)) st.1;
}.

Lemma scan_rule_ok fs env group st rule :
  scan_ok env st -> scan_ok env (scan_rule fs env group st rule).
Proof.
  destruct st as [found seen]. intros [Hn Hs Hf]. unfold scan_rule.
  destruct (negb _); [by constructor|].
  destruct (tokenizeCommand _) as [|token ws]; [by constructor|].
  destruct (f_sub (Substitutable token env)) eqn:Ef; [|by constructor].
  case_bool_decide as Hin; [by constructor|]. cbn [fst snd] in *. subst seen.
  set (b := MkBuiltin group token _ _).
  constructor; cbn [fst snd]; rewrite ?fmap_app.
  - apply NoDup_app. split_and!; [done| |apply NoDup_singleton].
    intros x Hx ->%list_elem_of_singleton. apply Hin. by apply elem_of_list_to_set.
  - rewrite list_to_set_app_L. cbn [fmap list_fmap list_to_set].
    change (sb_key b) with (seen_key group token). set_solver.
  - apply Forall_app. split; [done|]. constructor; [|done]. cbn.
    destruct (Substitutable token env); simpl in *; by subst.
Qed.

Lemma scan_rule_mono fs env group st rule b :
  b ∈ st.1 -> b ∈ (scan_rule fs env group st rule).1.
Proof.
  destruct st as [found seen]. unfold scan_rule. intros Hb. repeat case_match; try done.
  cbn. apply elem_of_app. by left.
Qed.

Lemma scan_group_ok fs env group rules st :
  scan_ok env st -> scan_ok env (scan_group fs env group rules st).
Proof.
  revert st. induction rules as [|r rules IH]; intros st H; [done|]. cbn.
  by apply IH, scan_rule_ok.
Qed.

Lemma scan_group_mono fs env group rules st b :
  b ∈ st.1 -> b ∈ (scan_group fs env group rules st).1.
Proof.
  revert st. induction rules as [|r rules IH]; intros st H; [done|]. cbn.
  by apply IH, scan_rule_mono.
Qed.

Lemma seen_key_inj g g' t t' :
  ("000"%char ∉ g) -> ("000"%char ∉ g') -> seen_key g t = seen_key g' t' -> g = g' /\ t = t'.
Proof.
  unfold seen_key. revert g'. induction g as [|c g IH]; intros [|c' g'] Hg Hg' H;
    simplify_eq/=; [done|set_solver..|].
  destruct (IH g') as [-> ->]; [set_solver..|done|done].
Qed.

Lemma scan_rule_complete fs env group st rule token :
  scan_ok env st -> (forall b, b ∈ st.1 -> "000"%char ∉ sb_Group b) -> ("000"%char ∉ group) ->
  ToolName (parseAutoApproveRule fs rule) = "Bash" ->
  head (tokenizeCommand (Pattern (parseAutoApproveRule fs rule))) = Some token ->
  f_sub (Substitutable token env) = true ->
  exists b, b ∈ (scan_rule fs env group st rule).1 /\ sb_Group b = group /\ sb_Command b = token.
Proof.
  destruct st as [found seen]. intros [Hn Hs Hf] Hg Hg' Hb Hh Hsub. unfold scan_rule.
  rewrite bool_decide_eq_true_2 by done. cbn [negb fst snd] in *.
  destruct (tokenizeCommand _) as [|tok ws]; simplify_eq/=. rewrite Hsub.
  case_bool_decide as Hin; cbn [fst].
  - apply elem_of_list_to_set, list_elem_of_fmap in Hin as (b & Hk & Hbf).
    exists b. split; [done|]. by apply seen_key_inj in Hk as [-> ->]; auto.
  - eexists. split; [apply elem_of_app; right; by apply list_elem_of_singleton|done].
Qed.

Lemma scan_group_complete fs env group rules st token :
  scan_ok env st -> (forall b, b ∈ st.1 -> "000"%char ∉ sb_Group b) -> ("000"%char ∉ group) ->
  group_command fs rules token -> f_sub (Substitutable token env) = true ->
  exists b, b ∈ (scan_group fs env group rules st).1 /\ sb_Group b = group /\ sb_Command b = token.
Proof.
  intros Hst Hg Hg' (rule & Hr & Ht & Hh) Hsub. revert st Hst Hg.
  induction rules as [|r rules IH]; intros st Hst Hg; [by apply elem_of_nil in Hr|].
  cbn. apply elem_of_cons in Hr as [->|Hr].
  - destruct (scan_rule_complete fs env group st r token) as (b & Hb & ? & ?); [done..|].
    exists b. split; [|done]. by apply scan_group_mono.
  - apply IH; [done|by apply scan_rule_ok|]. intros b. destruct st as [found seen].
    unfold scan_rule. repeat case_match; cbn [fst]; try by apply Hg.
    intros [Hb|Hb]%elem_of_app; [by apply Hg|].
    apply list_elem_of_singleton in Hb. by subst.
Qed.

Lemma scan_group_origin fs env group rules st b :
  b ∈ (scan_group fs env group rules st).1 ->
  b ∈ st.1 \/ (sb_Group b = group /\ group_command fs rules (sb_Command b)).
Proof.
  revert st. induction rules as [|r rules IH]; intros st Hb; [by left|]. cbn in Hb.
  destruct (IH _ Hb) as [Hr|[-> (rule & Hin & Hrest)]].
  - destruct st as [found seen]. unfold scan_rule in Hr. revert Hr.
    case_bool_decide as Ht; cbn [negb]; [|by left].
    destruct (tokenizeCommand _) as [|token ws] eqn:Etok; [by left|].
    repeat case_match; try by left. cbn [fst].
    intros [?|Hs]%elem_of_app; [by left|]. apply list_elem_of_singleton in Hs. subst b.
    right. split; [done|]. exists r. split_and!; [by apply elem_of_cons; left|done|by rewrite Etok].
  - right. split; [done|]. exists rule. split; [apply elem_of_cons; by right|done].
Qed.

Lemma scan_ok_start env : scan_ok env ([], ∅).
Proof. constructor; cbn; [constructor|done|constructor]. Qed.

Lemma builtins_scan_ok fs readonly env :
  scan_ok env (if readonly : bool
               then scan_group fs env GroupReadonly CommonReadonlyRules ([], ∅) else ([], ∅)).
Proof. destruct readonly; [apply scan_group_ok|]; apply scan_ok_start. Qed.

(** ** Properties *)

(** A rule scoped to a directory, such as "Write:<dir>/*", approves a call
    on an absolute path exactly when the canonical path lies strictly inside
    the canonical directory, as lists of path elements: traversal segments and
    symbolic links cannot leave the directory, and a link to the directory
    still matches. *)
Theorem path_rule_contains (fs : FS) (tool ws p : gostr) (members : list (gostr * json))
    (ew et : list gostr) :
  tool ∈ pathTypedTools -> is_abs ws = true -> contains_any "*?[" ws = false ->
  member "file_path" members = Some (JString p) -> is_abs p = true ->
  CanonicalPath fs ws = Some (abs_path ew) -> Forall good_element ew -> ew <> [] ->
  contains_any "*?" (abs_path ew) = false ->
  CanonicalPath fs p = Some (abs_path et) -> Forall good_element et ->
  matchToolAutoApprove fs (Compile fs [tool ++ ":" ++ ws ++ "/*"]) tool (Some (JObject members))
    = true
  <-> exists e post, et = ew ++ e :: post.
Proof.
  intros Ht Hw Hc Hm Hp Hcw Hew Hne Hg Hcp Het. unfold matchToolAutoApprove, Compile,
    parseAutoApproveRules. cbn [fmap list_fmap]. rewrite parse_dir_rule by done.
  assert (extractMatchString tool (Some (JObject members)) = p) as ->.
  { unfold extractMatchString.
    assert (table_get toolMatchKeys tool = Some "file_path") as ->; [|by rewrite Hm].
    repeat (apply elem_of_cons in Ht as [->|Ht]; [done|]). by apply elem_of_nil in Ht. }
  pose proof (proj2 (in_table_spec _ _) Ht) as Htt. rewrite Htt, Hp. cbn [andb existsb].
  rewrite orb_false_r. unfold matchesToolStr, canonical_path. rewrite Hcw, Hcp.
  cbn [default from_option id ToolName Pattern].
  rewrite bool_decide_eq_true_2, !bool_decide_eq_false_2 by (done || by destruct (abs_path ew)).
  cbn [negb]. unfold matchPattern.
  rewrite contains_any_app. cbn [contains_any existsb mem_byte orb]. rewrite orb_true_r.
  rewrite globMatch_iff.
  replace (abs_path ew ++ "/*") with ((abs_path ew ++ "/") ++ "*") by (by rewrite <- app_assoc).
  rewrite glob_rel_prefix by (by rewrite contains_any_app, Hg). by apply inside_dir.
Qed.

Example path_rule_contains_witness :
  matchToolAutoApprove demo_fs (Compile demo_fs ["Write:/tmp/*"]) "Write"
    (Some (JObject [("file_path", JString "/tmp/../etc/cron.d/x")])) = true
  <-> exists e post, ["etc"; "cron.d"; "x"] = ["private"; "tmp"] ++ e :: post.
Proof.
  apply (path_rule_contains demo_fs "Write" "/tmp" "/tmp/../etc/cron.d/x"); try reflexivity;
    try done; [by apply in_table_spec|..];
    repeat constructor; try done; by apply (bool_decide_eq_true_1 (_ ∉ _)).
Defined.

(** The environment snapshot holds for each name the value of its last
    well-formed entry, an entry being well formed when it has a non-empty name
    before its first "=". *)
Theorem EnvironmentFromList_last (entries : list gostr) (key : gostr) :
  EnvironmentFromList entries !! key =
  match List.find (fun e => bool_decide ((cut "=" e).1.1 = key) && (cut "=" e).2
                            && negb (bool_decide (key = []))) (rev entries) with
  | Some e => Some (cut "=" e).1.2
  | None => None
  end.
Proof. unfold EnvironmentFromList. by rewrite env_entries_lookup, lookup_empty. Qed.

(** The startup report cannot drift from the veto: it names, once per group
    and command, every command of the selected groups that the guard refuses,
    with the guard's own path and reason, and nothing else. *)
Theorem SubstitutableBuiltins_exact (fs : FS) (readonly safeWrite : bool) (env : Env) :
  let report := SubstitutableBuiltins fs readonly safeWrite env in
  NoDup (sb_key <$> report)
  /\ Forall (fun b => Substitutable (sb_Command b) env
                      = Finding true (sb_Path b) (sb_Reason b)) report
  /\ (forall b, b ∈ report ->
       (sb_Group b = GroupReadonly /\ group_command fs CommonReadonlyRules (sb_Command b))
       \/ (sb_Group b = GroupSafeWrite /\ group_command fs CommonSafeWriteRules (sb_Command b)))
  /\ (forall token, f_sub (Substitutable token env) = true ->
       (readonly = true -> group_command fs CommonReadonlyRules token ->
        exists b, b ∈ report /\ sb_Group b = GroupReadonly /\ sb_Command b = token)
       /\ (safeWrite = true -> group_command fs CommonSafeWriteRules token ->
        exists b, b ∈ report /\ sb_Group b = GroupSafeWrite /\ sb_Command b = token)).
Proof.
  cbv zeta. unfold SubstitutableBuiltins. pose proof (builtins_scan_ok fs readonly env) as H1.
  set (st := if readonly then _ else _) in *.
  assert (forall b, b ∈ st.1 -> "000"%char ∉ sb_Group b) as Hg.
  { intros b Hb. unfold st in Hb. destruct readonly; [|by apply elem_of_nil in Hb].
    apply scan_group_origin in Hb as [Hb|[-> _]]; [by apply elem_of_nil in Hb|].
    by apply (bool_decide_eq_true_1 (_ ∉ _)). }
  assert (scan_ok env (if safeWrite then scan_group fs env GroupSafeWrite CommonSafeWriteRules st
                       else st)) as H2 by (destruct safeWrite; [by apply scan_group_ok|done]).
  split_and!; [by apply so_nodup in H2|by apply so_findings in H2| |].
  { intros b Hb. assert (b ∈ st.1 \/ (sb_Group b = GroupSafeWrite
      /\ group_command fs CommonSafeWriteRules (sb_Command b))) as [Hs|?]; [|left|by right].
    { destruct safeWrite; [by apply (scan_group_origin fs env)|by left]. }
    unfold st in Hs. destruct readonly; [|by apply elem_of_nil in Hs].
    by apply scan_group_origin in Hs as [Hs%elem_of_nil|?]. }
  intros token Hsub. split; [intros -> Hc|intros -> Hc].
  - destruct (scan_group_complete fs env GroupReadonly CommonReadonlyRules ([], ∅) token)
      as (b & Hb & ? & ?); try done; [apply scan_ok_start|by intros b ?%elem_of_nil| |].
    + by apply (bool_decide_eq_true_1 (_ ∉ _)).
    + exists b. split; [|done]. destruct safeWrite; [by apply scan_group_mono|done].
  - apply scan_group_complete; try done. by apply (bool_decide_eq_true_1 (_ ∉ _)).
Qed.
