(* ===== verification/ShellAst.v ===== *)
(** * The shell syntax tree

    The tree that mvdan.cc/sh/v3/syntax hands to the auto-approve engine, as
    data: the node kinds its type switches name, each with the fields they
    read.  Children the engine never looks at by field (loop bodies, array
    literals, heredocs, ...) are kept as a list, since [syntax.Walk] still
    visits them.  The parser and the printer of that library are parameters of
    the components that call them. *)
From S2P Require Import Prelude GoStrings.

(** ** Nodes *)

Inductive RedirOperator :=
| RdrOut | AppOut | RdrIn | RdrInOut | DplIn | DplOut | RdrClob
| Hdoc | DashHdoc | WordHdoc | RdrAll | AppAll.

(** The expansion operators that assign, [${v=w}] and [${v:=w}], and the rest. *)
Inductive ParExpOperator := AssignUnset | AssignUnsetOrNull | OtherExp.

(** Arithmetic operators: the assigning ones by name, and the rest. *)
Inductive BinAritOperator :=
| Assgn | AddAssgn | SubAssgn | MulAssgn | QuoAssgn | RemAssgn | AndAssgn | OrAssgn
| XorAssgn | ShlAssgn | ShrAssgn | AndBoolAssgn | OrBoolAssgn | XorBoolAssgn | PowAssgn
| OtherBinArit.

Inductive UnAritOperator := Inc | Dec | OtherUnArit.

(** The fields of a parameter expansion: the name, whether each of the complex
    forms is present, and the operator of [${v op w}]. *)
Record ParamExpFields := MkParamExp {
  Param : option gostr;
  Excl : bool; Length : bool; Width : bool; IsSet : bool;
  NestedParam : bool; Index : bool; Modifiers : bool; Slice : bool; Repl : bool; Names : bool;
  Exp : option ParExpOperator;
}.

(** [Assign]: a naked operand, [name=value] or, with [Append], [name+=value];
    [a_rest] holds the index and the array literal. *)
Record AssignFields (N : Type) := MkAssign {
  a_Append : bool;
  a_Naked : bool;
  a_Name : option gostr;
  a_Index : bool;
  a_Value : option (list N);
  a_rest : list N;
}.
Arguments MkAssign {N}.
Arguments a_Append {N}.
Arguments a_Naked {N}.
Arguments a_Name {N}.
Arguments a_Index {N}.
Arguments a_Value {N}.
Arguments a_rest {N}.

(** A [Word] is the list of its parts.  Positions are byte offsets. *)
#[warnings="-register-all"]
Inductive Node :=
| Stmt (cmd : option Node) (redirs : list Node)
| Redirect (op : RedirOperator) (word : option (list Node)) (rest : list Node)
| CallExpr (pos end_ : nat) (Assigns : list (AssignFields Node)) (Args : list (list Node))
| DeclClause (pos : nat) (Variant : option gostr) (args : list (AssignFields Node))
| AssignNode (a : AssignFields Node)
| Word (Parts : list Node)
| Lit (Value : gostr)
| SglQuoted (Dollar : bool) (Value : gostr)
| DblQuoted (Parts : list Node)
| ParamExp (pos : nat) (p : ParamExpFields) (rest : list Node)
| CmdSubst (Stmts : list Node)
| ProcSubst (Stmts : list Node)
| ForClause (pos end_ : nat) (WordIterName : option gostr) (rest : list Node)
| WhileClause (pos end_ : nat) (rest : list Node)
| TestClause (rest : list Node)
| ArithmCmd (rest : list Node)
| LetClause (rest : list Node)
| FuncDecl (rest : list Node)
| CoprocClause (rest : list Node)
| BinaryArithm (pos : nat) (Op : BinAritOperator) (X Y : Node)
| UnaryArithm (pos : nat) (Op : UnAritOperator) (X : Node)
| OtherNode (rest : list Node).

Abbreviation WordParts := (list Node).
Abbreviation AssignT := (AssignFields Node).

(** [Word.Lit()]: the text of a word made of literals only, "" otherwise. *)
Fixpoint word_lits (parts : WordParts) : option gostr :=
  match parts with
  | [] => Some []
  | Lit v :: parts => app v <$> word_lits parts
  | _ :: _ => None
  end.

Definition word_Lit (parts : WordParts) : gostr := default [] (word_lits parts).

(** ** [syntax.Walk] *)

Definition lit_nodes (name : option gostr) : list Node :=
  match name with Some v => [Lit v] | None => [] end.

Definition word_node (w : option (list Node)) : list Node :=
  match w with Some parts => [Word parts] | None => [] end.

(** The children that [Walk] visits. *)
Definition children (n : Node) : list Node :=
  match n with
  | Stmt cmd redirs => option_list cmd ++ redirs
  | Redirect _ word rest => word_node word ++ rest
  | CallExpr _ _ assigns args => (AssignNode <$> assigns) ++ (Word <$> args)
  | DeclClause _ variant args => lit_nodes variant ++ (AssignNode <$> args)
  | AssignNode a => lit_nodes (a_Name a) ++ word_node (a_Value a) ++ a_rest a
  | Word parts => parts
  | Lit _ => []
  | SglQuoted _ _ => []
  | DblQuoted parts => parts
  | ParamExp _ _ rest => rest
  | CmdSubst stmts => stmts
  | ProcSubst stmts => stmts
  | ForClause _ _ _ rest => rest
  | WhileClause _ _ rest => rest
  | TestClause rest => rest
  | ArithmCmd rest => rest
  | LetClause rest => rest
  | FuncDecl rest => rest
  | CoprocClause rest => rest
  | BinaryArithm _ _ x y => [x; y]
  | UnaryArithm _ _ x => [x]
  | OtherNode rest => rest
  end.

(** The nodes for which [Walk(n, f)] calls [f], in order, where [descend] is
    the result of [f]: depth first, each node before its children. *)
Fixpoint walk (descend : Node -> bool) (n : Node) {struct n} : list Node :=
  let lits name := match name with
                   | Some v => [Lit v]
                   | None => []
                   end in
  n :: if descend n then
    match n with
    | Stmt cmd redirs =>
        match cmd with Some c => walk descend c | None => [] end
        ++ flat_map (walk descend) redirs
    | Redirect _ word rest =>
        match word with
        | Some parts => Word parts :: (if descend (Word parts)
                                       then flat_map (walk descend) parts else [])
        | None => []
        end ++ flat_map (walk descend) rest
    | CallExpr _ _ assigns args =>
        flat_map (fun a => match a with MkAssign append naked name index value rest =>
          AssignNode (MkAssign append naked name index value rest) ::
          if descend (AssignNode (MkAssign append naked name index value rest)) then
            lits name
            ++ match value with
               | Some parts => Word parts :: (if descend (Word parts)
                                              then flat_map (walk descend) parts else [])
               | None => []
               end ++ flat_map (walk descend) rest
          else [] end) assigns
        ++ flat_map (fun parts => Word parts :: (if descend (Word parts)
                                  then flat_map (walk descend) parts else [])) args
    | DeclClause _ variant args =>
        lits variant ++
        flat_map (fun a => match a with MkAssign append naked name index value rest =>
          AssignNode (MkAssign append naked name index value rest) ::
          if descend (AssignNode (MkAssign append naked name index value rest)) then
            lits name
            ++ match value with
               | Some parts => Word parts :: (if descend (Word parts)
                                              then flat_map (walk descend) parts else [])
               | None => []
               end ++ flat_map (walk descend) rest
          else [] end) args
    | AssignNode (MkAssign append naked name index value rest) =>
        lits name
        ++ match value with
           | Some parts => Word parts :: (if descend (Word parts)
                                          then flat_map (walk descend) parts else [])
           | None => []
           end ++ flat_map (walk descend) rest
    | Word parts => flat_map (walk descend) parts
    | Lit _ => []
    | SglQuoted _ _ => []
    | DblQuoted parts => flat_map (walk descend) parts
    | ParamExp _ _ rest => flat_map (walk descend) rest
    | CmdSubst stmts => flat_map (walk descend) stmts
    | ProcSubst stmts => flat_map (walk descend) stmts
    | ForClause _ _ _ rest => flat_map (walk descend) rest
    | WhileClause _ _ rest => flat_map (walk descend) rest
    | TestClause rest => flat_map (walk descend) rest
    | ArithmCmd rest => flat_map (walk descend) rest
    | LetClause rest => flat_map (walk descend) rest
    | FuncDecl rest => flat_map (walk descend) rest
    | CoprocClause rest => flat_map (walk descend) rest
    | BinaryArithm _ _ x y => walk descend x ++ walk descend y
    | UnaryArithm _ _ x => walk descend x
    | OtherNode rest => flat_map (walk descend) rest
    end
  else [].

Definition walk_all : Node -> list Node := walk (fun _ => true).

(** ** Lemmas *)

Lemma flat_map_fmap {A B C} (f : B -> list C) (g : A -> B) l :
  flat_map f (g <$> l) = flat_map (fun x => f (g x)) l.
Proof. induction l as [|x l IH]; [done|]. cbn. by rewrite <- IH. Qed.

Lemma walk_lit d v : walk d (Lit v) = [Lit v].
Proof. cbn. by destruct (d _). Qed.

Lemma flat_map_walk_lits d name : flat_map (walk d) (lit_nodes name) = lit_nodes name.
Proof. destruct name; cbn [lit_nodes flat_map]; [by rewrite walk_lit|done]. Qed.

Lemma walk_assign_eq d a :
  walk d (AssignNode a) =
  AssignNode a :: (if d (AssignNode a) then flat_map (walk d) (children (AssignNode a)) else []).
Proof.
  destruct a as [ap nk nm ix vl rs]. cbn [walk children a_Name a_Value a_rest].
  destruct (d _); [|done]. f_equal. rewrite !flat_map_app, flat_map_walk_lits.
  f_equal. f_equal. by destruct vl; cbn; rewrite ?app_nil_r.
Qed.

Lemma flat_map_walk_assigns d (assigns : list AssignT) f :
  (forall a, f a = walk d (AssignNode a)) ->
  flat_map f assigns = flat_map (walk d) (AssignNode <$> assigns).
Proof. intros H. rewrite flat_map_fmap. by apply flat_map_ext. Qed.

(** [Walk]'s contract: a node, then its children when [f] returned true. *)
Lemma walk_eq d n :
  walk d n = n :: (if d n then flat_map (walk d) (children n) else []).
Proof.
  destruct n as [cmd redirs|op w rest|p e assigns args|p v args|a|p|v|q v|p|p f r|r|r|p e i r
    |p e r|r|r|r|r|r|p op x y|p op x|r]; try (cbn; by destruct (d _)).
  - cbn [walk children]. destruct (d _); [|done]. rewrite flat_map_app.
    destruct cmd; cbn; by rewrite ?app_nil_r.
  - cbn [walk children]. destruct (d _); [|done]. rewrite flat_map_app.
    destruct w; cbn; by rewrite ?app_nil_r.
  - cbn [children]. destruct (d (CallExpr p e assigns args)) eqn:E; cbn [walk]; rewrite E; [|done].
    f_equal. rewrite flat_map_app. f_equal.
    + apply flat_map_walk_assigns. by intros [].
    + rewrite flat_map_fmap. by apply flat_map_ext.
  - cbn [children]. destruct (d (DeclClause p v args)) eqn:E; cbn [walk]; rewrite E; [|done].
    f_equal. rewrite flat_map_app, flat_map_walk_lits. f_equal.
    apply flat_map_walk_assigns. by intros [].
  - apply walk_assign_eq.
  - cbn [walk children flat_map]. by rewrite ?app_nil_r.
  - cbn [walk children flat_map]. by rewrite ?app_nil_r.
Qed.

(** ** The visited nodes as a relation *)

Inductive visits (d : Node -> bool) : Node -> Node -> Prop :=
| visits_self n : visits d n n
| visits_child n c x : d n = true -> c ∈ children n -> visits d c x -> visits d n x.

(** The number of nodes, a measure that every child decreases. *)
Definition size (n : Node) : nat := length (walk_all n).

Lemma length_flat_map_elem {A B} (f : A -> list B) l x :
  x ∈ l -> length (f x) <= length (flat_map f l).
Proof.
  induction l as [|y l IH]; [by intros ?%elem_of_nil|]. cbn. rewrite length_app.
  intros [->|?]%elem_of_cons; [lia|]. specialize (IH ltac:(done)). lia.
Qed.

Lemma size_child n c : c ∈ children n -> size c < size n.
Proof.
  intros Hc. unfold size, walk_all. rewrite (walk_eq _ n). cbn.
  pose proof (length_flat_map_elem (walk (fun _ => true)) _ _ Hc). lia.
Qed.

Lemma elem_of_flat_map {A B} (f : A -> list B) l y :
  y ∈ flat_map f l <-> exists x, x ∈ l /\ y ∈ f x.
Proof.
  rewrite list_elem_of_In, in_flat_map. by setoid_rewrite list_elem_of_In.
Qed.

Lemma node_ind_children (P : Node -> Prop) :
  (forall n, (forall c, c ∈ children n -> P c) -> P n) -> forall n, P n.
Proof.
  intros H n. induction n as [n IH] using (induction_ltof1 _ size).
  apply H. intros c Hc. apply IH. by apply size_child.
Qed.

Lemma elem_of_walk d n x : x ∈ walk d n <-> visits d n x.
Proof.
  split.
  - revert x. induction n as [n IH] using node_ind_children. intros x.
    rewrite walk_eq. intros [->|Hx]%elem_of_cons; [constructor|].
    destruct (d n) eqn:E; [|by apply elem_of_nil in Hx].
    apply elem_of_flat_map in Hx as (c & Hc & Hx). eapply visits_child; eauto.
  - induction 1 as [n|n c x Hd Hc Hv IH]; rewrite walk_eq; apply elem_of_cons; [by left|].
    right. rewrite Hd. apply elem_of_flat_map. eauto.
Qed.

Lemma visits_mono (d d' : Node -> bool) n x :
  (forall m, d m = true -> d' m = true) -> visits d n x -> visits d' n x.
Proof. intros H. induction 1; [constructor|]. eapply visits_child; eauto. Qed.

Lemma visits_trans d n m x : visits d n m -> visits d m x -> visits d n x.
Proof. induction 1; [done|]. intros. eapply visits_child; eauto. Qed.
