(* ===== verification/VarCtx.v ===== *)
(** * Static resolution of shell words (autoapprove.go, wrappers.go)

    The variable context of a point in a script, the resolution of parameter
    expansions and words against it, and how statements advance it.

    [varCtx]'s three maps are kept as finite maps; [clone] is the identity on
    them, since the model passes contexts by value.  The veto note that clones
    share by pointer is threaded separately (Segment.v).

    The shell's side ([part_text], [assign_effect], [exec_direct]) is a
    semantics of its own, written from the shell's rules for quoting, variables
    and assignments; [tracked_values_sound] compares the two, and the examples
    at the end show where they part. *)
From S2P Require Import Prelude GoStrings ShellScan FlagCheck ShellAst Rules.

(** ** Model *)

Record varCtx := MkVarCtx {
  symbolTable : environ;
  unknown : gset gostr;
  environment : environ;
}.

Definition newVarCtx (env : environ) : varCtx := MkVarCtx ∅ ∅ env.

Definition clone (vc : varCtx) : varCtx := vc.

Definition set_known (name value : gostr) (vc : varCtx) : varCtx :=
  MkVarCtx (<[name := value]> (symbolTable vc)) (unknown vc ∖ {[name]}) (environment vc).

Definition set_unknown (name : gostr) (vc : varCtx) : varCtx :=
  MkVarCtx (delete name (symbolTable vc)) ({[name]} ∪ unknown vc) (environment vc).

(** Only marks the name, as [markComplexAssignments] does. *)
Definition mark_unknown (name : gostr) (vc : varCtx) : varCtx :=
  MkVarCtx (symbolTable vc) ({[name]} ∪ unknown vc) (environment vc).

Definition isSpecialParam (name : gostr) : bool :=
  in_table ["?"; "$"; "!"; "#"; "@"; "*"; "-"] name
  || match name with [c] => byte_in "0" "9" c | _ => false end.

Definition complex_form (p : ParamExpFields) : bool :=
  Excl p || Length p || Width p || IsSet p || NestedParam p || Index p || Modifiers p
  || Slice p || Repl p || Names p || bool_decide (is_Some (Exp p)).

Definition lookup_var (vc : varCtx) (name : gostr) : option gostr :=
  if bool_decide (name ∈ unknown vc) then None
  else match symbolTable vc !! name with
       | Some v => Some v
       | None => environment vc !! name
       end.

Definition resolveParamExp (vc : varCtx) (p : ParamExpFields) : option gostr :=
  match Param p with
  | None => None
  | Some name =>
      if isSpecialParam name then None
      else if complex_form p then None
      else lookup_var vc name
  end.

(** The loops over word parts: concatenate, stopping at the first failure. *)
Definition resolve_all (f : Node -> option gostr) : WordParts -> option gostr :=
  fix go parts :=
    match parts with
    | [] => Some []
    | part :: parts =>
        match f part with
        | None => None
        | Some s => app s <$> go parts
        end
    end.

Fixpoint resolveWordPart (vc : option varCtx) (inDblQuotes : bool) (part : Node)
    : option gostr :=
  match part with
  | Lit v => Some (if inDblQuotes then v else litUnescaped v)
  | SglQuoted dollar v => if dollar then decodeAnsiC v else Some v
  | DblQuoted parts => resolve_all (resolveWordPart vc true) parts
  | ParamExp _ p _ =>
      match vc with
      | None => None
      | Some vc => resolveParamExp vc p
      end
  | _ => None
  end.

Definition resolveStaticWord (vc : option varCtx) (w : WordParts) : option gostr :=
  resolve_all (resolveWordPart vc false) w.

Definition is_param (n : Node) : bool := match n with ParamExp _ _ _ => true | _ => false end.
Definition is_lit (n : Node) : bool := match n with Lit _ => true | _ => false end.

Definition wordHasParamExp (w : WordParts) : bool :=
  existsb (fun part => match part with
                       | ParamExp _ _ _ => true
                       | DblQuoted parts => existsb is_param parts
                       | _ => false
                       end) w.

Definition wordIsLiteralText (w : WordParts) : bool :=
  forallb (fun part => match part with
                       | Lit _ => true
                       | SglQuoted _ _ => true
                       | DblQuoted parts => forallb is_lit parts
                       | _ => false
                       end) w.

Definition literalWordText (w : WordParts) : option gostr :=
  if bool_decide (length w = 0) || negb (wordIsLiteralText w) then None
  else resolveStaticWord None w.

(** The loop of [resolveArgWord]: the facts gathered and [anyQuoted]. *)
Fixpoint arg_parts (vc : varCtx) (w : WordParts) (f : wordFacts) (anyQuoted : bool)
    : option (wordFacts * bool) :=
  match w with
  | [] => Some (f, anyQuoted)
  | part :: w =>
      match part with
      | Lit v => arg_parts vc w (addLit v f) anyQuoted
      | ParamExp _ p _ =>
          match resolveParamExp vc p with
          | None => None
          | Some val => arg_parts vc w (addLive val f) anyQuoted
          end
      | SglQuoted dollar v =>
          match (if dollar then decodeAnsiC v else Some v) with
          | None => None
          | Some s => arg_parts vc w (addQuoted s f) true
          end
      | DblQuoted _ =>
          match resolveWordPart (Some vc) false part with
          | None => None
          | Some s => arg_parts vc w (addQuoted s f) true
          end
      | _ => None
      end
  end.

Definition resolveArgWord (vc : varCtx) (w : WordParts) : option (list shellWord) :=
  match arg_parts vc w no_facts false with
  | None => None
  | Some (f, anyQuoted) =>
      let words := (takeWords f).1 in
      Some (match words with [] => if anyQuoted then [empty_word] else [] | _ => words end)
  end.

Definition updateAssign (vc : varCtx) (a : AssignT) : varCtx :=
  match a_Name a with
  | None => vc
  | Some name =>
      match a_Value a with
      | None => set_unknown name vc
      | Some w =>
          if a_Index a then set_unknown name vc
          else match resolveStaticWord (Some vc) w with
               | Some v => set_known name v vc
               | None => set_unknown name vc
               end
      end
  end.

Definition updateDecl (vc : varCtx) (a : AssignT) : varCtx :=
  match a_Name a with
  | None => vc
  | Some name =>
      match a_Value a with
      | None => set_unknown name vc
      | Some w =>
          match resolveStaticWord (Some vc) w with
          | Some v => set_known name v vc
          | None => set_unknown name vc
          end
      end
  end.

Definition stmt_cmd (stmt : Node) : option Node :=
  match stmt with Stmt cmd _ => cmd | _ => None end.

Definition updateVarCtx (stmt : Node) (vc : varCtx) : varCtx :=
  match stmt_cmd stmt with
  | Some (CallExpr _ _ assigns args) =>
      if negb (bool_decide (length args = 0)) then vc else fold_left updateAssign assigns vc
  | Some (DeclClause _ _ args) => fold_left updateDecl args vc
  | _ => vc
  end.

Definition mark_names (assigns : list AssignT) (vc : varCtx) : varCtx :=
  fold_left (fun vc a => match a_Name a with Some name => mark_unknown name vc | None => vc end)
    assigns vc.

Definition mark_node (vc : varCtx) (n : Node) : varCtx :=
  match n with
  | CallExpr _ _ assigns _ => mark_names assigns vc
  | DeclClause _ _ args => mark_names args vc
  | ForClause _ _ (Some name) _ => mark_unknown name vc
  | _ => vc
  end.

Definition markComplexAssignments (stmt : Node) (vc : varCtx) : varCtx :=
  match stmt_cmd stmt with
  | Some (CallExpr _ _ _ _) | Some (DeclClause _ _ _) => vc
  | _ => fold_left mark_node (walk_all stmt) vc
  end.

Definition commandBaseName (args : list WordParts) : gostr :=
  match args with
  | [] => []
  | w :: _ =>
      match literalWordText w with
      | None => []
      | Some text => base text
      end
  end.

(** ** What resolution promises

    [sound vc store]: whatever the context knows of a variable is its value in
    the shell's [store]. *)
Definition exact (s : gmap gostr gostr) : varCtx := MkVarCtx s ∅ ∅.

Definition sound (vc : varCtx) (s : gmap gostr gostr) : Prop :=
  forall name v, lookup_var vc name = Some v -> s !! name = Some v.

Lemma lookup_exact s name : lookup_var (exact s) name = s !! name.
Proof.
  unfold lookup_var, exact. cbn. rewrite bool_decide_eq_false_2 by set_solver.
  by destruct (s !! name).
Qed.

Lemma resolveParamExp_sound vc s p v :
  sound vc s -> resolveParamExp vc p = Some v -> resolveParamExp (exact s) p = Some v.
Proof.
  intros Hs. unfold resolveParamExp. destruct (Param p) as [name|]; [|done].
  destruct (isSpecialParam name), (complex_form p); try done.
  rewrite lookup_exact. apply Hs.
Qed.

Lemma resolve_all_impl f g parts v :
  (forall part v, part ∈ parts -> f part = Some v -> g part = Some v) ->
  resolve_all f parts = Some v -> resolve_all g parts = Some v.
Proof.
  revert v. induction parts as [|part parts IH]; intros v H; [done|]. cbn.
  destruct (f part) as [s|] eqn:E; [|done].
  rewrite (H part s); [|apply elem_of_cons; by left|done].
  destruct (resolve_all f parts) as [t|] eqn:Et; [|done]. cbn. intros ?; simplify_eq.
  rewrite (IH t); [done| |done]. intros. apply H; [apply elem_of_cons; by right|done].
Qed.

Lemma resolveWordPart_sound vc s b part v :
  sound vc s ->
  resolveWordPart (Some vc) b part = Some v -> resolveWordPart (Some (exact s)) b part = Some v.
Proof.
  intros Hs. revert b v. induction part as [part IH] using node_ind_children. intros b v.
  destruct part; try done; cbn.
  - apply resolve_all_impl. intros p w Hp. by apply IH.
  - by apply resolveParamExp_sound.
Qed.

Lemma lookup_set_known name value vc n :
  lookup_var (set_known name value vc) n = if bool_decide (n = name) then Some value
                                           else lookup_var vc n.
Proof.
  unfold lookup_var, set_known. cbn [symbolTable unknown environment].
  destruct (decide (n = name)) as [->|Hn];
    [rewrite (bool_decide_eq_true_2 (name = name)) by done
    |rewrite (bool_decide_eq_false_2 (n = name)) by done].
  - rewrite bool_decide_eq_false_2 by set_solver. by rewrite lookup_insert_eq.
  - rewrite lookup_insert_ne by done.
    rewrite (bool_decide_ext _ (n ∈ unknown vc)) by set_solver. done.
Qed.

Lemma lookup_set_unknown name vc n :
  lookup_var (set_unknown name vc) n = if bool_decide (n = name) then None else lookup_var vc n.
Proof.
  unfold lookup_var, set_unknown. cbn [symbolTable unknown environment].
  destruct (decide (n = name)) as [->|Hn];
    [rewrite (bool_decide_eq_true_2 (name = name)) by done
    |rewrite (bool_decide_eq_false_2 (n = name)) by done].
  - by rewrite bool_decide_eq_true_2 by set_solver.
  - rewrite lookup_delete_ne by done.
    rewrite (bool_decide_ext _ (n ∈ unknown vc)) by set_solver. done.
Qed.

(** ** The shell's store

    A semantics of the statements the engine resolves in, written from the
    shell's rules and not from the engine's: how a word gets its text, what an
    assignment does to the store, and what running a statement may change. *)

(** A plain reference [$name]. *)
Definition simple_param (name : gostr) : ParamExpFields :=
  MkParamExp (Some name) false false false false false false false false false false None.

Definition newline : ascii := "010"%char.

(** Quote removal outside quotes: a backslash quotes the next byte, and a line
    break after one disappears with it; at the end of the input it stands for
    itself. *)
Inductive unescaped : gostr -> gostr -> Prop :=
| unescaped_nil : unescaped [] []
| unescaped_last : unescaped ["\"%char] ["\"%char]
| unescaped_line s t : unescaped s t -> unescaped ("\"%char :: newline :: s) t
| unescaped_escape c s t :
    c <> newline -> unescaped s t -> unescaped ("\"%char :: c :: s) (c :: t)
| unescaped_plain c s t : c <> "\"%char -> unescaped s t -> unescaped (c :: s) (c :: t).

(** The bytes a backslash still quotes between double quotes. *)
Definition quotes_in_double (c : ascii) : Prop :=
  c = "$"%char \/ c = "`"%char \/ c = "034"%char \/ c = "\"%char \/ c = newline.

(** Quote removal between double quotes. *)
Inductive in_quotes : gostr -> gostr -> Prop :=
| in_quotes_nil : in_quotes [] []
| in_quotes_line s t : in_quotes s t -> in_quotes ("\"%char :: newline :: s) t
| in_quotes_escape c s t :
    quotes_in_double c -> c <> newline -> in_quotes s t -> in_quotes ("\"%char :: c :: s) (c :: t)
| in_quotes_kept s t :
    (forall c, head s = Some c -> ~ quotes_in_double c) ->
    in_quotes s t -> in_quotes ("\"%char :: s) ("\"%char :: t)
| in_quotes_plain c s t : c <> "\"%char -> in_quotes s t -> in_quotes (c :: s) (c :: t).

(** Names that are parameters of the shell itself: the special ones and the
    positional ones, which are numbers. *)
Definition shell_parameter (name : gostr) : Prop :=
  in_table ["?"; "$"; "!"; "#"; "@"; "*"; "-"] name = true
  \/ name <> [] /\ Forall (fun c => is_digit c = true) name.

(** Parts whose text is decided elsewhere: substitutions, arithmetic, globs,
    expansions with an operator, parameters of the shell. *)
Definition decided_elsewhere (part : Node) : Prop :=
  match part with
  | Lit _ | SglQuoted _ _ | DblQuoted _ => False
  | ParamExp _ p _ => forall name, p = simple_param name -> shell_parameter name
  | _ => True
  end.

(** [part_text s quoted part t]: in the store [s] the part stands for the text
    [t] in the value of an assignment, [quoted] saying that it is between
    double quotes.  An unset variable stands for nothing.  A literal with an
    unquoted tilde and the escapes of [$'...'] are left open, as are the parts
    decided elsewhere: any text may come out. *)
Inductive part_text (s : gmap gostr gostr) : bool -> Node -> gostr -> Prop :=
| text_lit v t : ("~"%char : ascii) ∉ v -> unescaped v t -> part_text s false (Lit v) t
| text_tilde v t : ("~"%char : ascii) ∈ v -> part_text s false (Lit v) t
| text_quoted_lit v t : in_quotes v t -> part_text s true (Lit v) t
| text_single b v : part_text s b (SglQuoted false v) v
| text_ansi b v : ("\"%char : ascii) ∉ v -> part_text s b (SglQuoted true v) v
| text_ansi_escaped b v t : ("\"%char : ascii) ∈ v -> part_text s b (SglQuoted true v) t
| text_double b parts t : parts_text s true parts t -> part_text s b (DblQuoted parts) t
| text_param b p name rest :
    ~ shell_parameter name ->
    part_text s b (ParamExp p (simple_param name) rest) (default [] (s !! name))
| text_other b part t : decided_elsewhere part -> part_text s b part t
with parts_text (s : gmap gostr gostr) : bool -> WordParts -> gostr -> Prop :=
| texts_nil b : parts_text s b [] []
| texts_cons b part parts t u :
    part_text s b part t -> parts_text s b parts u -> parts_text s b (part :: parts) (t ++ u).

Definition word_text (s : gmap gostr gostr) (w : WordParts) (t : gostr) : Prop :=
  parts_text s false w t.

(** [assign_effect s a s']: what running one assignment word may do to the
    store.  [name=w] stores the text of [w] and [name+=w] puts it after the
    old value; an element, an array and a missing value leave the variable with
    any content. *)
Inductive assign_effect (s : gmap gostr gostr) (a : AssignT) : gmap gostr gostr -> Prop :=
| effect_flag : a_Name a = None -> assign_effect s a s
| effect_set name w t :
    a_Name a = Some name -> a_Index a = false -> a_Append a = false -> a_Value a = Some w ->
    word_text s w t -> assign_effect s a (<[name := t]> s)
| effect_append name w t :
    a_Name a = Some name -> a_Index a = false -> a_Append a = true -> a_Value a = Some w ->
    word_text s w t -> assign_effect s a (<[name := default [] (s !! name) ++ t]> s)
| effect_other name s' :
    a_Name a = Some name -> (a_Index a = true \/ a_Value a = None) ->
    (forall n, n <> name -> s' !! n = s !! n) ->
    assign_effect s a s'.

Inductive assigns_effect : gmap gostr gostr -> list AssignT -> gmap gostr gostr -> Prop :=
| assigns_nil s : assigns_effect s [] s
| assigns_cons s a s1 assigns s2 :
    assign_effect s a s1 -> assigns_effect s1 assigns s2 -> assigns_effect s (a :: assigns) s2.

(** The declarations that only assign: no options, which change how values are
    stored, and no [local] or [readonly]. *)
Definition plain_decl (variant : option gostr) (args : list AssignT) : Prop :=
  variant ∈ [Some "declare"; Some "typeset"; Some "export" : option gostr]
  /\ Forall (fun a => is_Some (a_Name a)) args.

Section stores.
  (** The variables that commands and the shell itself may change at any
      time: PWD, RANDOM and their like, and whatever the script's commands
      write. *)
  Context (volatile : gset gostr).

Definition drift (s s' : gmap gostr gostr) : Prop :=
  forall name, name ∉ volatile -> s' !! name = s !! name.

(** [exec_direct stmts s s']: running statements that are one simple command or
    one plain declaration may take the store from [s] to [s']. *)
Inductive exec_direct : list Node -> gmap gostr gostr -> gmap gostr gostr -> Prop :=
| exec_nil s : exec_direct [] s s
| exec_assigns p e assigns redirs stmts s s1 s2 s3 :
    assigns_effect s assigns s1 -> drift s1 s2 -> exec_direct stmts s2 s3 ->
    exec_direct (Stmt (Some (CallExpr p e assigns [])) redirs :: stmts) s s3
| exec_command p e assigns w args redirs stmts s s1 s2 :
    drift s s1 -> exec_direct stmts s1 s2 ->
    exec_direct (Stmt (Some (CallExpr p e assigns (w :: args))) redirs :: stmts) s s2
| exec_decl p variant args redirs stmts s s1 s2 s3 :
    plain_decl variant args -> assigns_effect s args s1 -> drift s1 s2 ->
    exec_direct stmts s2 s3 ->
    exec_direct (Stmt (Some (DeclClause p variant args)) redirs :: stmts) s s3.

(** Where resolution gives the text the shell uses: no unquoted tilde or
    escaped line break, no backslash in [$'...'], no backslash that quotes
    something between double quotes, and no reference to a volatile variable or
    to a positional parameter of two digits or more. *)
Fixpoint no_quoted (Q : ascii -> Prop) (v : gostr) : Prop :=
  match v with
  | [] => True
  | c :: v => (c = "\"%char -> forall d, head v = Some d -> ~ Q d) /\ no_quoted Q v
  end.

Definition leaf_plain (quoted : bool) (part : Node) : Prop :=
  match part with
  | Lit v => if quoted then no_quoted quotes_in_double v
             else (("~"%char : ascii) ∉ v) /\ no_quoted (eq newline) v
  | SglQuoted true v => ("\"%char : ascii) ∉ v
  | ParamExp _ p _ =>
      forall name, Param p = Some name ->
        (name ∉ volatile) /\ (shell_parameter name -> length name = 1)
  | _ => True
  end.

Fixpoint part_plain (quoted : bool) (part : Node) : Prop :=
  match part with
  | DblQuoted parts => foldr (fun part P => part_plain true part /\ P) True parts
  | _ => leaf_plain quoted part
  end.

Definition plain (w : WordParts) : Prop := Forall (part_plain false) w.

(** The assignments of a statement that stay in the shell. *)
Definition kept_assigns (stmt : Node) : list AssignT :=
  match stmt_cmd stmt with
  | Some (CallExpr _ _ assigns []) => assigns
  | Some (DeclClause _ _ args) => args
  | _ => []
  end.

(** Assignments that set a variable to a plain word, or whose outcome the
    engine gives up on. *)
Definition sets_plainly (a : AssignT) : Prop :=
  a_Append a = false /\ forall w, a_Value a = Some w -> plain w.

Definition sets_elements (stmt : Node) : Prop :=
  match stmt_cmd stmt with
  | Some (DeclClause _ _ args) => Exists (fun a => a_Index a = true) args
  | _ => False
  end.

Definition plain_stmt (stmt : Node) : Prop :=
  Forall sets_plainly (kept_assigns stmt) /\ ~ sets_elements stmt.

Definition advance (vc : varCtx) (stmts : list Node) : varCtx :=
  fold_left (fun vc stmt => updateVarCtx stmt vc) stmts vc.

(** What the context knows of the other variables is their value. *)
Definition tracks (vc : varCtx) (s : gmap gostr gostr) : Prop :=
  forall name v, name ∉ volatile -> lookup_var vc name = Some v -> s !! name = Some v.

(** The part has the text [v] and no other. *)
Definition part_means (s : gmap gostr gostr) (quoted : bool) (part : Node) (v : gostr) : Prop :=
  forall t, (part_text s quoted part t) <-> t = v.

Definition parts_mean (s : gmap gostr gostr) (quoted : bool) (parts : WordParts) (v : gostr)
    : Prop :=
  forall t, parts_text s quoted parts t <-> t = v.

Lemma unescaped_iff v t :
  no_quoted (eq newline) v -> (unescaped v t) <-> t = litUnescaped_loop v.
Proof.
  intros Hq. split.
  - intros H. induction H as [| |s t H IH|c s t Hc H IH|c s t Hc H IH];
      cbn [no_quoted] in Hq; [done|done|..].
    + destruct Hq as [Hq _]. by destruct (Hq eq_refl newline eq_refl).
    + rewrite IH by apply Hq. done.
    + rewrite litUnescaped_loop_cons by done. rewrite IH by apply Hq. done.
  - intros ->. revert Hq. induction v as [v IH] using (induction_ltof1 _ length). intros Hq.
    destruct v as [|c v]; [constructor|]. cbn [no_quoted] in Hq. destruct Hq as [Hc Hq].
    destruct (decide (c = "\"%char)) as [->|Hne].
    + destruct v as [|d v]; [constructor|]. cbn [litUnescaped_loop]. constructor.
      * intros ->. by apply (Hc eq_refl newline eq_refl).
      * apply IH; [unfold ltof; cbn; lia|apply Hq].
    + rewrite litUnescaped_loop_cons by done. constructor; [done|].
      apply IH; [unfold ltof; cbn; lia|done].
Qed.

Lemma in_quotes_iff v t : no_quoted quotes_in_double v -> in_quotes v t <-> t = v.
Proof.
  intros Hq. split.
  - intros H. induction H as [|s t H IH|c s t Hc Hn H IH|s t Hk H IH|c s t Hc H IH];
      cbn [no_quoted] in Hq; [done|..].
    + destruct Hq as [Hq _]. destruct (Hq eq_refl newline eq_refl). unfold quotes_in_double. tauto.
    + destruct Hq as [Hq _]. by destruct (Hq eq_refl c eq_refl).
    + by rewrite IH by apply Hq.
    + by rewrite IH by apply Hq.
  - intros ->. induction v as [|c v IH]; [constructor|]. destruct Hq as [Hc Hq].
    destruct (decide (c = "\"%char)) as [->|Hne]; constructor; auto.
Qed.

Lemma decode_loop_plain fuel v acc :
  ("\"%char : ascii) ∉ v -> length v < fuel -> decode_loop fuel v acc = Some (acc ++ v).
Proof.
  revert v acc. induction fuel as [|fuel IH]; intros v acc Hv Hf; [lia|].
  destruct v as [|c v]; cbn [decode_loop]; [by rewrite app_nil_r|].
  apply not_elem_of_cons in Hv as [Hc Hv]. cbn [length] in Hf.
  assert (decode_loop fuel v (acc ++ [c]) = Some (acc ++ c :: v)) as E
    by (rewrite IH by (done || lia); by rewrite <- app_assoc).
  by destruct c as [[] [] [] [] [] [] [] []].
Qed.

Lemma decodeAnsiC_plain v : ("\"%char : ascii) ∉ v -> decodeAnsiC v = Some v.
Proof. intros H. unfold decodeAnsiC. by rewrite decode_loop_plain by (done || lia). Qed.

Lemma isSpecialParam_iff name :
  length name = 1 \/ ~ shell_parameter name ->
  isSpecialParam name = true <-> shell_parameter name.
Proof.
  intros Hl. unfold isSpecialParam, shell_parameter. rewrite orb_true_iff. split.
  - intros [H|H]; [by left|right]. destruct name as [|c [|d name]]; [done| |done].
    split; [done|]. by repeat constructor.
  - intros [H|[Hn Hd]]; [by left|right].
    destruct name as [|c [|d name]]; [done|by inversion Hd|].
    exfalso. destruct Hl as [Hl|Hl]; [done|]. apply Hl. right. done.
Qed.

Lemma simple_param_eq p name :
  Param p = Some name -> complex_form p = false -> p = simple_param name.
Proof.
  destruct p as [pa ex le wi st ne ix mo sl re na op]. unfold complex_form. cbn.
  intros ->. rewrite !orb_false_iff. intros H. destruct_and! H. subst.
  case_bool_decide as Ho; [done|]. destruct op; [by destruct Ho|done].
Qed.

Lemma param_means vc s b pos p rest v :
  tracks vc s -> leaf_plain b (ParamExp pos p rest) -> resolveParamExp vc p = Some v ->
  part_means s b (ParamExp pos p rest) v.
Proof.
  intros Ht Hp H. unfold resolveParamExp in H. destruct (Param p) as [name|] eqn:Ep; [|done].
  destruct (Hp name Ep) as [Hv Hs]. destruct (isSpecialParam name) eqn:Es; [done|].
  destruct (complex_form p) eqn:Ec; [done|].
  assert (~ shell_parameter name) as Hnp.
  { intros Hsp. by rewrite (proj2 (isSpecialParam_iff name (or_introl (Hs Hsp))) Hsp) in Es. }
  rewrite (simple_param_eq p name Ep Ec). specialize (Ht name v Hv H). intros t. split.
  - intros Hx. inversion Hx; subst.
    + by rewrite Ht.
    + by destruct Hnp; eauto.
  - intros ->. change v with (default [] (Some v)). rewrite <- Ht. by constructor.
Qed.

Lemma resolve_all_means (f : Node -> option gostr) s b parts v :
  (forall part u, part ∈ parts -> f part = Some u -> part_means s b part u) ->
  resolve_all f parts = Some v -> parts_mean s b parts v.
Proof.
  revert v. induction parts as [|part parts IH]; intros v H Hr.
  - injection Hr as <-. intros t. split; [by inversion 1|intros ->; constructor].
  - cbn in Hr. destruct (f part) as [u|] eqn:Ef; [|done].
    destruct (resolve_all f parts) as [r|] eqn:Er; [|done]. cbn in Hr. injection Hr as <-.
    assert (part_means s b part u) as Hu by (apply H; [apply elem_of_cons; by left|done]).
    assert (parts_mean s b parts r) as Hm.
    { apply IH; [|done]. intros. apply H; [apply elem_of_cons; by right|done]. }
    intros t. split.
    + inversion 1; subst. f_equal; [by apply Hu|by apply Hm].
    + intros ->. constructor; [by apply Hu|by apply Hm].
Qed.

Lemma foldr_and_elem {A} (P : A -> Prop) l x :
  foldr (fun x R => P x /\ R) True l -> x ∈ l -> P x.
Proof.
  induction l as [|y l IH]; [by intros _ ?%elem_of_nil|]. cbn. intros [? ?].
  intros [->|?]%elem_of_cons; auto.
Qed.

Lemma part_resolved_means vc s b part v :
  tracks vc s -> part_plain b part -> resolveWordPart (Some vc) b part = Some v ->
  part_means s b part v.
Proof.
  intros Ht. revert b v. induction part as [part IH] using node_ind_children. intros b v Hp Hr.
  destruct part as [| | | | | |l|dollar q|parts|pos p rest| | | | | | | | | | | |]; try done.
  - cbn [part_plain leaf_plain] in Hp; cbn [resolveWordPart] in Hr. injection Hr as <-. destruct b.
    + intros t. rewrite <- (in_quotes_iff l t Hp). split; [|by constructor].
      inversion 1; subst; done.
    + destruct Hp as [Hn Hp]. rewrite litUnescaped_eq. intros t.
      rewrite <- (unescaped_iff l t Hp). split; [|by constructor]. inversion 1; subst; done.
  - cbn [part_plain leaf_plain] in Hp; cbn [resolveWordPart] in Hr. destruct dollar.
    + rewrite (decodeAnsiC_plain q Hp) in Hr. injection Hr as <-.
      intros t. split; [|intros ->; by constructor]. inversion 1; subst; done.
    + injection Hr as <-. intros t. split; [|intros ->; by constructor].
      inversion 1; subst; done.
  - cbn [part_plain leaf_plain] in Hp; cbn [resolveWordPart] in Hr.
    assert (parts_mean s true parts v) as Hm.
    { eapply resolve_all_means; [|exact Hr]. intros part u Hin Hu.
      apply IH; [done| |done]. by apply (foldr_and_elem (part_plain true) parts). }
    intros t. rewrite <- (Hm t). split; [|by constructor]. inversion 1; subst; done.
  - by apply (param_means vc).
Qed.

Lemma word_resolved_means vc s w v :
  tracks vc s -> plain w -> resolveStaticWord (Some vc) w = Some v ->
  forall t, word_text s w t <-> t = v.
Proof.
  intros Ht Hp. apply resolve_all_means. intros part u Hin. apply part_resolved_means; [done|].
  unfold plain in Hp. rewrite Forall_forall in Hp. by apply Hp.
Qed.

Lemma tracks_drift vc s s' : tracks vc s -> drift s s' -> tracks vc s'.
Proof. intros Ht Hd name v Hn Hl. rewrite Hd by done. by apply Ht. Qed.

Lemma tracks_known vc s name v : tracks vc s -> tracks (set_known name v vc) (<[name := v]> s).
Proof.
  intros Hs n w Hn. rewrite lookup_set_known. case_bool_decide as E.
  - intros; simplify_eq. by rewrite lookup_insert_eq.
  - rewrite lookup_insert_ne by done. by apply Hs.
Qed.

(** A forgotten variable may hold anything, set or unset. *)
Lemma tracks_unknown vc s s' name :
  tracks vc s -> (forall n, n <> name -> s' !! n = s !! n) -> tracks (set_unknown name vc) s'.
Proof.
  intros Hs Hs' n w Hn. rewrite lookup_set_unknown. case_bool_decide as E; [done|].
  intros H. rewrite Hs' by done. by apply Hs.
Qed.

Lemma updateAssign_tracks vc s a s' :
  tracks vc s -> sets_plainly a -> assign_effect s a s' -> tracks (updateAssign vc a) s'.
Proof.
  intros Hs [Ha Hp] He. unfold updateAssign.
  destruct He as [Hn|name w t Hn Hi _ Hv Hr|name w t Hn Hi Ha' Hv Hr|name s' Hn Hc Hs'].
  - by rewrite Hn.
  - rewrite Hn, Hv, Hi. destruct (resolveStaticWord (Some vc) w) as [u|] eqn:Eu.
    + apply (word_resolved_means vc s w u Hs (Hp w Hv) Eu t) in Hr as ->. by apply tracks_known.
    + eapply tracks_unknown; [done|]. intros n Hne. by rewrite lookup_insert_ne.
  - congruence.
  - rewrite Hn. assert (tracks (set_unknown name vc) s') as Hu by (by eapply tracks_unknown).
    destruct (a_Value a) as [w|] eqn:Ev; [|done]. destruct Hc as [->|Hc]; [done|done].
Qed.

Lemma updateAssigns_tracks assigns s s' vc :
  assigns_effect s assigns s' -> Forall sets_plainly assigns -> tracks vc s ->
  tracks (fold_left updateAssign assigns vc) s'.
Proof.
  intros He. revert vc. induction He as [s|s a s1 assigns s2 Ha He IH]; intros vc Hp Hs; [done|].
  inversion Hp; subst. cbn. apply IH; [done|]. by eapply updateAssign_tracks.
Qed.

Lemma updateDecl_plain vc a : a_Index a = false -> updateDecl vc a = updateAssign vc a.
Proof. unfold updateDecl, updateAssign. by intros ->. Qed.

Lemma updateDecls_plain args vc :
  ~ Exists (fun a => a_Index a = true) args ->
  fold_left updateDecl args vc = fold_left updateAssign args vc.
Proof.
  revert vc. induction args as [|a args IH]; intros vc H; [done|].
  rewrite Exists_cons in H. cbn. rewrite updateDecl_plain by (destruct (a_Index a); tauto).
  apply IH. tauto.
Qed.

Lemma advance_tracks stmts s s' vc :
  exec_direct stmts s s' -> Forall plain_stmt stmts -> tracks vc s -> tracks (advance vc stmts) s'.
Proof.
  unfold advance. intros He. revert vc.
  induction He as [s|p e assigns redirs stmts s s1 s2 s3 Ha Hd He IH
    |p e assigns w args redirs stmts s s1 s2 Hd He IH
    |p variant args redirs stmts s s1 s2 s3 Hv Ha Hd He IH]; intros vc Hp Hs; [done|..];
    inversion Hp as [|? ? [Hk He'] Hp']; subst; cbn [fold_left]; (apply IH; [done|]);
    cbn -[fold_left] in *.
  - eapply tracks_drift; [|done]. by eapply updateAssigns_tracks.
  - by eapply tracks_drift.
  - eapply tracks_drift; [|done]. rewrite updateDecls_plain by done.
    by eapply updateAssigns_tracks.
Qed.

Lemma tracks_start env : tracks (newVarCtx env) env.
Proof.
  intros n v _. unfold lookup_var, newVarCtx. cbn [symbolTable unknown environment].
  rewrite bool_decide_eq_false_2 by set_solver. by rewrite lookup_empty.
Qed.
End stores.

(** ** Field splitting *)

(** The fields of a value: maximal runs of bytes outside [sep]. *)
Fixpoint fields_from (sep : ascii -> bool) (cur s : gostr) : list gostr :=
  match s with
  | [] => match cur with [] => [] | _ => [cur] end
  | c :: s =>
      if sep c then match cur with [] => fields_from sep [] s
                              | _ => cur :: fields_from sep [] s end
      else fields_from sep (cur ++ [c]) s
  end.

Definition fields (sep : ascii -> bool) (s : gostr) : list gostr := fields_from sep [] s.

(** The default IFS of a shell: space, tab and newline. *)
Definition ifs_byte (c : ascii) : bool := is_blank c || (c =?b "010"%char).

Lemma takeWords_visible f :
  visibleTexts (takeWords f).1
  = visibleTexts (f_split f) ++ match f_visible f with [] => [] | v => [v] end.
Proof.
  unfold takeWords. cbv zeta. case_bool_decide as E; cbn.
  - by rewrite E, app_nil_r.
  - unfold visibleTexts. rewrite fmap_app. cbn. by destruct (f_visible f).
Qed.

Lemma addLive_fields s f :
  visibleTexts (takeWords (addLive s f)).1
  = visibleTexts (f_split f) ++ fields_from is_blank (f_visible f) s.
Proof.
  revert f. induction s as [|c s IH]; intros f.
  { cbn [addLive fold_left fields_from]. rewrite takeWords_visible. by destruct (f_visible f). }
  change (addLive (c :: s) f) with (addLive s (addLiveByte c f)). rewrite IH. cbn [fields_from].
  destruct (is_blank c) eqn:Eb.
  - unfold addLiveByte. unfold is_blank in Eb. rewrite Eb.
    case_bool_decide as Ev; [by rewrite Ev|]. cbn.
    unfold visibleTexts. rewrite fmap_app, <- app_assoc. cbn. by destruct (f_visible f).
  - by destruct (addLiveByte_visible c f Eb) as [-> ->].
Qed.

Lemma fields_from_none sep cur s :
  Forall (fun c => sep c = false) s -> cur ++ s <> [] -> fields_from sep cur s = [cur ++ s].
Proof.
  intros H. revert cur. induction H as [|c s Hc H IH]; intros cur Hne; cbn.
  - rewrite app_nil_r in *. by destruct cur.
  - rewrite Hc, IH; rewrite <- app_assoc; [done|]. by destruct cur.
Qed.

Lemma fields_from_sep sep cur a c b :
  Forall (fun c => sep c = false) a -> sep c = true -> cur ++ a <> [] ->
  fields_from sep cur (a ++ c :: b) = (cur ++ a) :: fields_from sep [] b.
Proof.
  intros H Hc. revert cur. induction H as [|d a Hd H IH]; intros cur Hne; cbn.
  - rewrite Hc, app_nil_r in *. by destruct cur.
  - rewrite Hd, IH; rewrite <- app_assoc; [done|]. by destruct cur.
Qed.

Lemma resolve_simple vc name :
  isSpecialParam name = false -> resolveParamExp vc (simple_param name) = lookup_var vc name.
Proof. intros H. unfold resolveParamExp, simple_param. cbn. by rewrite H. Qed.

Lemma resolveArgWord_unquoted vc name v p rest :
  isSpecialParam name = false -> lookup_var vc name = Some v ->
  exists words, resolveArgWord vc [ParamExp p (simple_param name) rest] = Some words
    /\ visibleTexts words = fields is_blank v.
Proof.
  intros Hn Hv. unfold resolveArgWord. cbn [arg_parts]. rewrite resolve_simple, Hv by done.
  pose proof (addLive_fields v no_facts) as H.
  destruct (takeWords (addLive v no_facts)) as [words f]. cbn [fst] in *.
  exists words. split; [by destruct words|done].
Qed.

Lemma sound_start env : sound (newVarCtx env) env.
Proof.
  intros n v. unfold lookup_var, newVarCtx. cbn [symbolTable unknown environment].
  rewrite bool_decide_eq_false_2 by set_solver. by rewrite lookup_empty.
Qed.

(** ** Properties *)


Definition assign_word (append : bool) (name : gostr) (w : WordParts) : AssignT :=
  MkAssign append false (Some name) false (Some w) [].

Definition assign_stmt (append : bool) (name : gostr) (w : WordParts) : Node :=
  Stmt (Some (CallExpr 0 0 [assign_word append name w] [])) [].

Definition ref_word (name : gostr) : WordParts := [ParamExp 0 (simple_param name) []].

(** [X=ls; cd; Y="$X -l"], where [cd] changes PWD. *)
Definition tracked_script : list Node :=
  [assign_stmt false "X" [Lit "ls"];
   Stmt (Some (CallExpr 0 0 [] [[Lit "cd"]])) [];
   assign_stmt false "Y" [DblQuoted [ParamExp 0 (simple_param "X") []; Lit " -l"]]].

Lemma word_text_lit s v :
  ("~"%char : ascii) ∉ v -> ("\"%char : ascii) ∉ v -> word_text s [Lit v] v.
Proof.
  intros Ht Hb. unfold word_text. rewrite <- (app_nil_r v) at 2.
  constructor; [|constructor]. constructor; [done|]. induction v as [|c v IH]; [constructor|].
  apply not_elem_of_cons in Ht as [? ?], Hb as [? ?]. constructor; [done|by apply IH].
Qed.

(** Membership and the conditions on a literal, at a concrete text. *)
Ltac absent := apply (bool_decide_unpack _); vm_compute; exact I.
Ltac plain_text := cbn; repeat (split; [intros; discriminate|]); exact I.

Lemma tracked_script_runs :
  exec_direct {["PWD"]} tracked_script {["PWD" := "/a"]}
    (<["Y" := "ls -l"]> (<["PWD" := "/b"]> (<["X" := "ls"]> {["PWD" := "/a"]}))).
Proof.
  eapply exec_assigns.
  { eapply assigns_cons; [|constructor].
    apply (effect_set _ _ "X" [Lit "ls"] "ls"); try done.
    apply word_text_lit; absent. }
  { done. }
  apply (exec_command _ _ _ _ _ _ _ _ _ (<["PWD" := "/b"]> (<["X" := "ls"]> {["PWD" := "/a"]}))).
  { intros n Hn. rewrite lookup_insert_ne; [done|]. intros <-. by apply Hn, elem_of_singleton. }
  eapply exec_assigns; [|done|constructor]. eapply assigns_cons; [|constructor].
  eapply (effect_set _ _ "Y" _ "ls -l"); try done.
  unfold word_text. change ("ls -l" : gostr) with (("ls" ++ " -l" ++ []) ++ [] : gostr).
  constructor; [|constructor]. constructor.
  constructor; [|constructor; [|constructor]].
  - change ("ls" : gostr) with (default [] (Some "ls" : option gostr)).
    replace (Some "ls" : option gostr) with
      (<["PWD" := "/b"]> (<["X" := "ls"]> {["PWD" := "/a"]} : gmap gostr gostr) !! ("X" : gostr))
      by reflexivity.
    constructor. intros [H|[_ H]]; [done|by inversion H].
  - constructor. repeat (constructor; [done|]). constructor.
Qed.


(** An unquoted reference to a known variable becomes one argument per
    field of its value between spaces and tabs, in order, and no argument when
    the value has none. *)
Theorem unquoted_value_fields (vc : varCtx) (name v : gostr) (p : nat) (rest : list Node) :
  isSpecialParam name = false -> lookup_var vc name = Some v ->
  visibleTexts <$> resolveArgWord vc [ParamExp p (simple_param name) rest]
  = Some (fields is_blank v).
Proof.
  intros Hn Hv. destruct (resolveArgWord_unquoted vc name v p rest Hn Hv) as (words & -> & Hw).
  cbn. by rewrite Hw.
Qed.

Definition demo_ctx : varCtx := newVarCtx {["OPTS" := "-n  10"]}.

Example unquoted_value_fields_witness :
  visibleTexts <$> resolveArgWord demo_ctx (ref_word "OPTS") = Some ["-n"; "10"].
Proof. apply (unquoted_value_fields demo_ctx "OPTS" "-n  10"); reflexivity. Defined.

(** A newline in the value does not split it, although it is in the
    default IFS: where the shell passes two arguments, the checks see one. *)
Theorem newline_not_split (vc : varCtx) (name a b : gostr) (p : nat) (rest : list Node) :
  isSpecialParam name = false -> lookup_var vc name = Some (a ++ "010"%char :: b) ->
  Forall (fun c => ifs_byte c = false) a -> Forall (fun c => ifs_byte c = false) b ->
  a <> [] -> b <> [] ->
  visibleTexts <$> resolveArgWord vc [ParamExp p (simple_param name) rest]
    = Some [a ++ "010"%char :: b]
  /\ fields ifs_byte (a ++ "010"%char :: b) = [a; b].
Proof.
  intros Hn Hv Ha Hb Hna Hnb. split.
  - destruct (resolveArgWord_unquoted vc name _ p rest Hn Hv) as (words & -> & Hw).
    cbn. rewrite Hw. unfold fields. rewrite fields_from_none; [done| |by destruct a].
    assert (forall l, Forall (fun c => ifs_byte c = false) l ->
      Forall (fun c => is_blank c = false) l) as Himpl.
    { intros l Hl. eapply Forall_impl; [exact Hl|]. intros c Hc. unfold ifs_byte in Hc.
      by apply orb_false_iff in Hc as [? _]. }
    apply Forall_app. split; [by apply Himpl|]. constructor; [done|by apply Himpl].
  - unfold fields. rewrite fields_from_sep by done. cbn [app]. by rewrite fields_from_none.
Qed.

Definition newline_ctx : varCtx := newVarCtx {["X" := "p" ++ "010"%char :: "-i"]}.

Example newline_not_split_witness :
  visibleTexts <$> resolveArgWord newline_ctx (ref_word "X") = Some ["p" ++ "010"%char :: "-i"]
  /\ fields ifs_byte ("p" ++ "010"%char :: "-i") = ["p"; "-i"].
Proof.
  apply (newline_not_split newline_ctx "X" "p" "-i"); try reflexivity; try done;
    by repeat constructor.
Defined.

(** A declaration that assigns to an array element is recorded as if it
    assigned the whole variable, although a plain assignment to an element
    makes the variable unknown: after [declare name[i]=v] a reference resolves
    to [v] even when the shell's [$name] is another element. *)
Theorem decl_index_recorded (vc : varCtx) (name v : gostr) (w : WordParts) (rest redirs : list Node)
    (pos : nat) (variant : option gostr) :
  resolveStaticWord (Some vc) w = Some v ->
  let a := MkAssign false false (Some name) true (Some w) rest in
  lookup_var (updateVarCtx (Stmt (Some (DeclClause pos variant [a])) redirs) vc) name = Some v
  /\ lookup_var (updateVarCtx (Stmt (Some (CallExpr pos pos [a] [])) redirs) vc) name = None
  /\ forall s, assign_effect s a (delete name s).
Proof.
  intros Hw. cbn -[lookup_var set_known set_unknown]. rewrite Hw, lookup_set_known.
  rewrite (bool_decide_eq_true_2 (0 = 0)) by done. cbn [negb]. rewrite lookup_set_unknown.
  rewrite bool_decide_eq_true_2 by done. split_and!; [done..|].
  intros s. eapply (effect_other _ _ name); [done|by left|].
  intros n Hn. by rewrite lookup_delete_ne.
Qed.

Example decl_index_recorded_witness :
  let a := MkAssign false false (Some "A") true (Some [Lit "foo"]) [] in
  let vc := newVarCtx {["A" := "--pre=./x.sh"]} in
  lookup_var (updateVarCtx (Stmt (Some (DeclClause 0 (Some "declare") [a])) []) vc) "A"
    = Some "foo"
  /\ lookup_var (updateVarCtx (Stmt (Some (CallExpr 0 0 [a] [])) []) vc) "A" = None
  /\ forall s, assign_effect s a (delete "A" s).
Proof. apply decl_index_recorded. reflexivity. Defined.

(** [name+=v] is recorded as if it were [name=v]: a reference resolves to the
    piece that was added, where the shell has the old value and the piece. *)
Theorem append_taken_as_set (vc : varCtx) (s : gmap gostr gostr) (name old v : gostr)
    (w : WordParts) :
  resolveStaticWord (Some vc) w = Some v -> s !! name = Some old -> word_text s w v ->
  lookup_var (updateVarCtx (assign_stmt true name w) vc) name = Some v
  /\ assign_effect s (assign_word true name w) (<[name := old ++ v]> s).
Proof.
  intros Hw Hs Ht. split.
  - change (updateVarCtx _ vc) with (updateAssign vc (assign_word true name w)).
    unfold updateAssign. cbn [assign_word a_Name a_Value a_Index]. rewrite Hw, lookup_set_known.
    by rewrite bool_decide_eq_true_2.
  - replace (old ++ v) with (default [] (s !! name) ++ v) by (by rewrite Hs).
    by apply (effect_append _ _ name w).
Qed.

Example append_taken_as_set_witness :
  lookup_var (updateVarCtx (assign_stmt true "X" [Lit "ls"]) (newVarCtx {["X" := "/tmp/my-"]})) "X"
    = Some "ls"
  /\ assign_effect {["X" := "/tmp/my-"]} (assign_word true "X" [Lit "ls"])
       (<["X" := ("/tmp/my-" ++ "ls" : gostr)]> {["X" := "/tmp/my-"]}).
Proof.
  apply append_taken_as_set; [reflexivity..|]. apply word_text_lit; absent.
Defined.

(** A declaration's options are not looked at: after [declare -i X=1+1] the
    engine has [1+1] where the shell has 2. *)
Example decl_option_ignored :
  lookup_var (updateVarCtx (Stmt (Some (DeclClause 0 (Some "declare")
    [MkAssign false true None false (Some [Lit "-i"]) []; assign_word false "X" [Lit "1+1"]])) [])
    (newVarCtx ∅)) "X" = Some "1+1".
Proof. reflexivity. Qed.

(** A command that changes variables of the shell leaves them as they were in
    the environment: after [cd /etc] the engine still has the old PWD. *)
Example cd_keeps_pwd :
  lookup_var (updateVarCtx (Stmt (Some (CallExpr 0 0 [] [[Lit "cd"]; [Lit "/etc"]])) [])
    (newVarCtx {["PWD" := "/home/me"]})) "PWD" = Some "/home/me".
Proof. reflexivity. Qed.

(** In [$'...'] the shell reads at most three octal digits, so that [\0101] is
    a backspace and a 1; the engine reads a fourth after a leading zero. *)
Example octal_four_digits : decodeAnsiC "\0101" = Some "A".
Proof. reflexivity. Qed.
