(* ===== verification/EnvChange.v ===== *)
(** * Exported changes before a command (envchange.go)

    Whether a statement list changes an exported variable that a later command
    would see: the collection walk, the declaration and arithmetic cases, and
    the comparison of source offsets with loops taken into account. *)
From S2P Require Import Prelude GoStrings ShellAst Rules.

(** ** Model *)

Definition declBuiltins : list gostr := ["export"; "declare"; "typeset"; "local"; "readonly"].

(** The loop of [declChangesEnv] over the arguments, with its two flags. *)
Fixpoint decl_loop (inEnv : gostr -> bool) (variant : gostr) (args : list AssignT)
    (exporting hasOperand : bool) : bool :=
  match args with
  | [] => if negb hasOperand then false
          else bool_decide (variant = "export") || exporting
  | a :: args =>
      match a_Name a with
      | Some name =>
          if inEnv name then true else decl_loop inEnv variant args exporting true
      | None =>
          match a_Value a with
          | Some w =>
              if negb (a_Naked a) then decl_loop inEnv variant args exporting hasOperand
              else
                let lit := word_Lit w in
                if bool_decide (lit = []) then decl_loop inEnv variant args true true
                else if has_prefix "-" lit || has_prefix "+" lit then
                  decl_loop inEnv variant args (mem_byte "x"%char lit || exporting) hasOperand
                else decl_loop inEnv variant args exporting true
          | None => decl_loop inEnv variant args exporting hasOperand
          end
      end
  end.

Definition declChangesEnv (inEnv : gostr -> bool) (variant : option gostr) (args : list AssignT)
    : bool := decl_loop inEnv (default [] variant) args false false.

Fixpoint skip_dash_words (args : list WordParts) : bool :=
  match args with
  | [] => false
  | w :: args =>
      if has_prefix "-" (word_Lit w) then skip_dash_words args
      else in_table declBuiltins (word_Lit w)
  end.

Definition callDeclaresVariable (args : list WordParts) : bool :=
  match args with
  | w :: ((_ :: _) as rest) =>
      if in_table ["builtin"; "command"] (word_Lit w) then skip_dash_words rest else false
  | _ => false
  end.

Definition arithAssignOp (op : BinAritOperator) : bool :=
  match op with
  | Assgn | AddAssgn | SubAssgn | MulAssgn | QuoAssgn | RemAssgn | AndAssgn | OrAssgn
  | XorAssgn | ShlAssgn | ShrAssgn | AndBoolAssgn | OrBoolAssgn | XorBoolAssgn | PowAssgn => true
  | OtherBinArit => false
  end.

Definition arithNameChanges (inEnv : gostr -> bool) (x : Node) : bool :=
  match x with
  | Word parts =>
      let name := word_Lit parts in
      if bool_decide (name = []) then true
      else inEnv (match index_byte "["%char name with Some i => take i name | None => name end)
  | _ => true
  end.

(** What one visited node adds to the three lists of the walk. *)
Record env_facts := EnvFacts {
  ef_loops : list (nat * nat);
  ef_changes : list nat;
  ef_commandEnds : list nat;
}.

Definition no_env_facts : env_facts := EnvFacts [] [] [].

Definition add_facts (f g : env_facts) : env_facts :=
  EnvFacts (ef_loops f ++ ef_loops g) (ef_changes f ++ ef_changes g)
    (ef_commandEnds f ++ ef_commandEnds g).

Definition change_if (b : bool) (pos : nat) : list nat := if b then [pos] else [].

Definition assign_in_env (inEnv : gostr -> bool) (a : AssignT) : bool :=
  match a_Name a with Some name => inEnv name | None => false end.

Definition node_facts (inEnv : gostr -> bool) (n : Node) : env_facts :=
  match n with
  | ForClause pos end_ iter _ =>
      EnvFacts [(pos, end_)]
        (change_if (match iter with Some name => inEnv name | None => false end) pos) []
  | WhileClause pos end_ _ => EnvFacts [(pos, end_)] [] []
  | CallExpr pos end_ assigns args =>
      if negb (bool_decide (length args = 0)) then
        EnvFacts [] (change_if (callDeclaresVariable args) pos) [end_]
      else EnvFacts [] (flat_map (fun a => change_if (assign_in_env inEnv a) pos) assigns) []
  | DeclClause pos variant args =>
      EnvFacts [] (change_if (declChangesEnv inEnv variant args) pos) []
  | BinaryArithm pos op x _ =>
      EnvFacts [] (change_if (arithAssignOp op && arithNameChanges inEnv x) pos) []
  | UnaryArithm pos op x =>
      EnvFacts [] (change_if (match op with Inc | Dec => arithNameChanges inEnv x
                                         | OtherUnArit => false end) pos) []
  | ParamExp pos p _ =>
      EnvFacts [] (change_if (match Exp p, Param p with
                              | Some (AssignUnset | AssignUnsetOrNull), Some name => inEnv name
                              | _, _ => false
                              end) pos) []
  | _ => no_env_facts
  end.

Definition collect (inEnv : gostr -> bool) (nodes : list Node) : env_facts :=
  fold_left (fun f n => add_facts f (node_facts inEnv n)) nodes no_env_facts.

(** Where a change at offset [at_] takes effect: the start of the outermost
    loop around it. *)
Definition effective_from (loops : list (nat * nat)) (at_ : nat) : nat :=
  fold_left (fun effective l =>
    if (l.1 <=? at_) && (at_ <? l.2) && (l.1 <? effective) then l.1 else effective) loops at_.

Definition exportedChangeBeforeCommand (stmts : list Node) (env : environ) : bool :=
  let inEnv name := bool_decide (is_Some (env !! name)) in
  let f := collect inEnv (flat_map walk_all stmts) in
  existsb (fun at_ => existsb (fun end_ => effective_from (ef_loops f) at_ <? end_)
                        (ef_commandEnds f)) (ef_changes f).

(** ** What the check promises *)

Section spec.
  Context (env : environ).

(** The variables an exporting construct may touch. *)
Definition held (name : gostr) : Prop := is_Some (env !! name).

(** [changes n pos]: the node changes the environment of later commands. *)
Inductive changes : Node -> nat -> Prop :=
| changes_for pos e name rest : held name -> changes (ForClause pos e (Some name) rest) pos
| changes_assign pos e assigns a name :
    a ∈ assigns -> a_Name a = Some name -> held name ->
    changes (CallExpr pos e assigns []) pos
| changes_builtin pos e assigns args :
    callDeclaresVariable args = true -> changes (CallExpr pos e assigns args) pos
| changes_decl pos variant args :
    declChangesEnv (fun name => bool_decide (held name)) variant args = true ->
    changes (DeclClause pos variant args) pos
| changes_arith pos op x y :
    arithAssignOp op = true ->
    arithNameChanges (fun name => bool_decide (held name)) x = true ->
    changes (BinaryArithm pos op x y) pos
| changes_incdec pos op x :
    op <> OtherUnArit ->
    arithNameChanges (fun name => bool_decide (held name)) x = true ->
    changes (UnaryArithm pos op x) pos
| changes_default pos p rest op name :
    Exp p = Some op -> op <> OtherExp -> Param p = Some name -> held name ->
    changes (ParamExp pos p rest) pos.

(** [command_ends n e]: a command whose words end at offset [e]. *)
Inductive command_ends : Node -> nat -> Prop :=
| ends_call pos e assigns w args : command_ends (CallExpr pos e assigns (w :: args)) e.

Inductive loop_span : Node -> nat -> nat -> Prop :=
| span_for pos e iter rest : loop_span (ForClause pos e iter rest) pos e
| span_while pos e rest : loop_span (WhileClause pos e rest) pos e.
End spec.

(** ** Lemmas *)

Lemma collect_app inEnv nodes f :
  fold_left (fun f n => add_facts f (node_facts inEnv n)) nodes f
  = EnvFacts (ef_loops f ++ flat_map (fun n => ef_loops (node_facts inEnv n)) nodes)
      (ef_changes f ++ flat_map (fun n => ef_changes (node_facts inEnv n)) nodes)
      (ef_commandEnds f ++ flat_map (fun n => ef_commandEnds (node_facts inEnv n)) nodes).
Proof.
  revert f. induction nodes as [|n nodes IH]; intros f; cbn [fold_left flat_map].
  - rewrite !app_nil_r. by destruct f.
  - rewrite IH. unfold add_facts. cbn. by rewrite !app_assoc.
Qed.

Lemma elem_of_change_if b pos x : x ∈ change_if b pos <-> b = true /\ x = pos.
Proof. destruct b; cbn; [rewrite list_elem_of_singleton|rewrite elem_of_nil]; naive_solver. Qed.

Lemma node_changes env n pos :
  pos ∈ ef_changes (node_facts (fun name => bool_decide (is_Some (env !! name))) n)
  <-> changes env n pos.
Proof.
  set (inEnv := fun name => _). unfold node_facts.
  split.
  - destruct n; cbn [ef_changes no_env_facts]; try by intros ?%elem_of_nil.
    + case_bool_decide as Hl; cbn [negb ef_changes].
      * intros (a & Ha & [Hin ->]%elem_of_change_if)%elem_of_flat_map.
        unfold assign_in_env in Hin. destruct (a_Name a) as [name|] eqn:En; [|done].
        apply bool_decide_eq_true in Hin. destruct Args; [|done]. by eapply changes_assign.
      * intros [H ->]%elem_of_change_if. by apply changes_builtin.
    + intros [H ->]%elem_of_change_if. by apply changes_decl.
    + intros [H ->]%elem_of_change_if.
      destruct (Exp p) as [[]|] eqn:Ee, (Param p) eqn:Ep; try done;
        apply bool_decide_eq_true in H; by eapply changes_default.
    + intros [H ->]%elem_of_change_if. destruct WordIterName; [|done].
      apply bool_decide_eq_true in H. by apply changes_for.
    + intros [[H1 H2]%andb_true_iff ->]%elem_of_change_if. by apply changes_arith.
    + intros [H ->]%elem_of_change_if. destruct Op; try done; by apply changes_incdec.
  - destruct 1 as [? ? ? ? Hh|? ? assigns a name Ha Hn Hh|? ? ? args Hc|? ? ? Hd|? ? ? ? H1 H2
      |? op ? H1 H2|? ? ? op name He Ho Hp Hh]; cbn [ef_changes].
    + apply elem_of_change_if. split; [by apply bool_decide_eq_true|done].
    + rewrite bool_decide_eq_true_2 by done. cbn [negb ef_changes].
      apply elem_of_flat_map. exists a. split; [done|]. apply elem_of_change_if.
      unfold assign_in_env. rewrite Hn. split; [by apply bool_decide_eq_true|done].
    + destruct args as [|w args]; [done|]. rewrite bool_decide_eq_false_2 by done.
      by apply elem_of_change_if.
    + by apply elem_of_change_if.
    + apply elem_of_change_if. split; [|done]. apply andb_true_iff. by split.
    + apply elem_of_change_if. by destruct op.
    + rewrite He, Hp. apply elem_of_change_if.
      destruct op; [..|done]; (split; [by apply bool_decide_eq_true|done]).
Qed.

Lemma node_ends inEnv n e : e ∈ ef_commandEnds (node_facts inEnv n) <-> command_ends n e.
Proof.
  split.
  - destruct n; cbn; try by intros ?%elem_of_nil.
    case_bool_decide; cbn; [by intros ?%elem_of_nil|].
    intros ->%list_elem_of_singleton. destruct Args; [done|constructor].
  - destruct 1. cbn. by apply list_elem_of_singleton.
Qed.

Lemma node_loops inEnv n s e : (s, e) ∈ ef_loops (node_facts inEnv n) <-> loop_span n s e.
Proof.
  split.
  - destruct n; cbn; try (by intros ?%elem_of_nil);
      try (intros H%list_elem_of_singleton; simplify_eq; constructor).
    case_bool_decide; cbn; by intros ?%elem_of_nil.
  - destruct 1; cbn; by apply list_elem_of_singleton.
Qed.

(** The effective offset lies below a bound exactly when the change or the
    start of a loop around it does. *)
Lemma effective_from_lt loops at_ bound :
  effective_from loops at_ < bound <->
  at_ < bound \/ exists s e, (s, e) ∈ loops /\ s <= at_ < e /\ s < bound.
Proof.
  unfold effective_from.
  assert (forall eff, eff <= at_ ->
    fold_left (fun effective l => if (l.1 <=? at_) && (at_ <? l.2) && (l.1 <? effective)
                                  then l.1 else effective) loops eff < bound
    <-> eff < bound \/ exists s e, (s, e) ∈ loops /\ s <= at_ < e /\ s < bound) as H;
    [|by apply H].
  induction loops as [|[s e] loops IH]; intros eff Heff; cbn [fold_left fst snd].
  { split; [by left|]. intros [?|(? & ? & ?%elem_of_nil & _)]; done. }
  setoid_rewrite elem_of_cons.
  destruct ((s <=? at_) && (at_ <? e) && (s <? eff)) eqn:E.
  - rewrite !andb_true_iff, Nat.leb_le, !Nat.ltb_lt in E. rewrite IH by lia. split.
    + intros [?|(s' & e' & ? & ?)]; right; [exists s, e|exists s', e']; auto with lia.
    + intros [?|(s' & e' & [?|?] & ?)]; simplify_eq; [left; lia..|right; by exists s', e'].
  - rewrite !andb_false_iff, Nat.leb_gt, !Nat.ltb_ge in E. rewrite IH by lia. split.
    + intros [?|(s' & e' & ? & ?)]; [by left|right; exists s', e'; auto].
    + intros [?|(s' & e' & [?|?] & ?)]; simplify_eq; [by left|left; lia|right; by exists s', e'].
Qed.

Lemma elem_of_visited stmts n :
  n ∈ flat_map walk_all stmts <-> exists stmt, stmt ∈ stmts /\ visits (fun _ => true) stmt n.
Proof. rewrite elem_of_flat_map. by setoid_rewrite elem_of_walk. Qed.

(** ** Properties *)

(** C32: A statement list is refused for an exported change exactly when some
    construct in it changes the environment of later commands (an exporting
    declaration, or an assignment, loop variable, arithmetic assignment or
    default expansion that targets a name the environment holds) and some
    command ends after that construct begins, or after the start of a loop
    that contains it. *)
Theorem exportedChange_correct (stmts : list Node) (env : environ) :
  exportedChangeBeforeCommand stmts env = true <->
  exists s1 n1 pos s2 n2 end_,
    s1 ∈ stmts /\ visits (fun _ => true) s1 n1 /\ changes env n1 pos
    /\ s2 ∈ stmts /\ visits (fun _ => true) s2 n2 /\ command_ends n2 end_
    /\ (pos < end_ \/
        exists s3 n3 start stop, s3 ∈ stmts /\ visits (fun _ => true) s3 n3
          /\ loop_span n3 start stop /\ start <= pos < stop /\ start < end_).
Proof.
  unfold exportedChangeBeforeCommand, collect. cbv zeta. rewrite collect_app. cbn [app ef_loops
    ef_changes ef_commandEnds no_env_facts].
  rewrite existsb_exists. setoid_rewrite existsb_exists. setoid_rewrite Nat.ltb_lt.
  setoid_rewrite effective_from_lt. setoid_rewrite <- list_elem_of_In.
  setoid_rewrite elem_of_flat_map. setoid_rewrite elem_of_visited.
  setoid_rewrite node_changes. setoid_rewrite node_ends. setoid_rewrite node_loops.
  split.
  - intros (pos & (n1 & (s1 & Hs1 & Hv1) & Hc) & end_ & (n2 & (s2 & Hs2 & Hv2) & He) & Hlt).
    exists s1, n1, pos, s2, n2, end_. split_and!; try done.
    destruct Hlt as [?|(s & e & (n3 & (s3 & ? & ?) & ?) & ? & ?)]; [by left|].
    right. by exists s3, n3, s, e.
  - intros (s1 & n1 & pos & s2 & n2 & end_ & Hs1 & Hv1 & Hc & Hs2 & Hv2 & He & Hlt).
    exists pos. split; [by eauto|]. exists end_. split; [by eauto|].
    destruct Hlt as [?|(s3 & n3 & s & e & ? & ? & ? & ? & ?)]; [by left|]. right. exists s, e.
    split; [by eauto|done].
Qed.
