(* ===== verification/Segment.v ===== *)
(** * One command segment (autoapprove.go, wrappers.go, gitreadonly.go)

    The checks of a simple command: its name, its flags and resolved
    arguments, the wrappers that run another command, the shells that run a
    script, the substitutability veto, and the rule match.

    The printer of the syntax library and the guard's view of the system are
    parameters.  The veto note, shared by pointer between all contexts of one
    evaluation in the code, is threaded by a small state monad. *)
From S2P Require Import Prelude GoStrings Glob ShellScan FlagCheck GitReadonly ExecGuard.
From S2P Require Import CanonPath Rules ShellAst VarCtx.

(** ** The veto note *)

Record vetoNote := MkVeto { v_segment : gostr; v_path : gostr; v_reason : gostr }.

Definition no_veto : vetoNote := MkVeto [] [] [].

(** A computation that may record a veto. *)
Definition V (A : Type) : Type := vetoNote -> A * vetoNote.

Definition vret {A} (a : A) : V A := fun v => (a, v).
Definition vbind {A B} (m : V A) (k : A -> V B) : V B := fun v => let '(a, v) := m v in k a v.

Declare Scope veto_scope.
Delimit Scope veto_scope with veto.
Notation "'do!' x <- m ; k" := (vbind m (fun x => k))
  (at level 10, x name, m at level 100, k at level 200) : veto_scope.
Open Scope veto_scope.

Definition noteVeto (segment : gostr) (f : finding) : V unit := fun v =>
  (tt, if bool_decide (v_reason v = []) then MkVeto segment (f_path f) (f_reason f) else v).

Definition denialReason (v : vetoNote) : gostr :=
  if bool_decide (v_reason v = []) then []
  else "not auto-approved despite matching a rule: " ++ v_path v ++ " — " ++ v_reason v
       ++ ". Approving here runs it anyway.".

(** ** Name policy *)

Definition wrapperCommands : list gostr :=
  [ "env"; "nice"; "timeout"; "nohup"; "flock"; "script"; "setsid"; "taskset"; "ionice";
    "strace"; "watch"; "stdbuf"; "busybox"; "chroot"; "unshare"; "nsenter"; "prlimit"; "chrt";
    "setpriv"; "runuser"; "su"; "sudo"; "doas"; "systemd-run"; "unbuffer"; "parallel";
    "ltrace"; "valgrind"; "firejail" ].

Definition varSettingCommands : list gostr :=
  ["eval"; "source"; "."; "mapfile"; "readarray"; "read"; "unset"; "getopts"].

Definition shellInterceptors : list gostr := ["bash"; "sh"; "dash"; "zsh"; "ksh"; "ash"].

Definition runnerWrappers : list gostr := ["command"; "exec"; "builtin"; "xargs"].

Definition commandNameUnsafe (name : gostr) (hasArgs unwrapsHandled : bool) : bool :=
  if in_table varSettingCommands name then true
  else if negb unwrapsHandled
          && (in_table shellInterceptors name || in_table runnerWrappers name && hasArgs)
  then true
  else in_table wrapperCommands name && hasArgs.

(** ** Shell interceptors *)

Definition shellOptionLetters : gostr := "euxvnfC".

Definition shellSetOptions : list gostr :=
  ["errexit"; "nounset"; "pipefail"; "xtrace"; "verbose"; "noexec"; "noglob"; "noclobber"].

Definition shellLongOptions : list gostr := ["--norc"; "--noprofile"].

Definition interceptorWord (args : list WordParts) : bool :=
  in_table shellInterceptors (commandBaseName args).

(** The inner loop over the letters of an option word: the mode and the words
    left, [None] for the early return. *)
Fixpoint shell_letters (plus : bool) (letters : gostr) (cmdMode : bool) (rest : list WordParts)
    : option (bool * list WordParts) :=
  match letters with
  | [] => Some (cmdMode, rest)
  | ch :: letters =>
      if (ch =?b "c"%char) && negb plus then shell_letters plus letters true rest
      else if ch =?b "o"%char then
        match rest with
        | [] => None
        | w :: rest =>
            match literalWordText w with
            | None => None
            | Some name =>
                if in_table shellSetOptions name then shell_letters plus letters cmdMode rest
                else None
            end
        end
      else if mem_byte ch shellOptionLetters then shell_letters plus letters cmdMode rest
      else None
  end.

(** After the options: the script is the next word, in command mode only. *)
Definition script_word (cmdMode : bool) (args : list WordParts) : option WordParts :=
  if cmdMode then head args else None.

(** The loop over the words after the shell's name. *)
Fixpoint shell_options (fuel : nat) (cmdMode : bool) (args : list WordParts) : option WordParts :=
  match fuel, args with
  | O, _ => None
  | S _, [] => script_word cmdMode []
  | S fuel, w :: rest =>
      match literalWordText w with
      | None => if cmdMode then Some w else None
      | Some text =>
          if bool_decide (text = "--") || bool_decide (text = "-") then script_word cmdMode rest
          else if (length text <? 2) || negb (has_prefix "-" text || has_prefix "+" text) then
            if cmdMode then Some w else None
          else if has_prefix "--" text then
            if in_table shellLongOptions text then shell_options fuel cmdMode rest else None
          else
            match shell_letters (has_prefix "+" text) (drop 1 text) cmdMode rest with
            | None => None
            | Some (cmdMode, rest) => shell_options fuel cmdMode rest
            end
      end
  end.

Definition extractShellScript (args : list WordParts) : option WordParts :=
  if negb (interceptorWord args) then None
  else shell_options (length args) false (tail args).

Definition scriptWordUnsafe (w : WordParts) (vc : varCtx) : bool :=
  if wordIsLiteralText w then false
  else match resolveArgWord vc w with
       | None => true
       | Some [] => false
       | Some (first :: _) =>
           has_prefix "-" (w_visible first) || has_prefix "+" (w_visible first)
       end.

(** ** Runner wrappers *)

Record wrapperOpt := WrapperOpt { wo_arity : nat; wo_letter : ascii }.

Record wrapperOptSpec := WrapperOptSpec {
  ws_short : list (ascii * nat);
  ws_long : list (gostr * wrapperOpt);
}.

Fixpoint short_get (table : list (ascii * nat)) (ch : ascii) : option nat :=
  match table with
  | [] => None
  | (c, arity) :: table => if ch =?b c then Some arity else short_get table ch
  end.

Definition runnerWrapperOpts : list (gostr * wrapperOptSpec) :=
  [ ("command", WrapperOptSpec [("p"%char, 0); ("v"%char, 0); ("V"%char, 0)] []);
    ("exec", WrapperOptSpec [("c"%char, 0); ("l"%char, 0); ("a"%char, 1)] []);
    ("builtin", WrapperOptSpec [] []);
    ("xargs", WrapperOptSpec
       [ ("0"%char, 0); ("p"%char, 0); ("r"%char, 0); ("t"%char, 0); ("x"%char, 0); ("o"%char, 0);
         ("a"%char, 1); ("d"%char, 1); ("E"%char, 1); ("I"%char, 1); ("L"%char, 1); ("n"%char, 1);
         ("P"%char, 1); ("s"%char, 1); ("e"%char, 2); ("i"%char, 2); ("l"%char, 2) ]
       [ ("null", WrapperOpt 0 "0"%char); ("interactive", WrapperOpt 0 "p"%char);
         ("no-run-if-empty", WrapperOpt 0 "r"%char); ("verbose", WrapperOpt 0 "t"%char);
         ("exit", WrapperOpt 0 "x"%char); ("open-tty", WrapperOpt 0 "o"%char);
         ("arg-file", WrapperOpt 1 "a"%char); ("delimiter", WrapperOpt 1 "d"%char);
         ("max-args", WrapperOpt 1 "n"%char); ("max-procs", WrapperOpt 1 "P"%char);
         ("max-chars", WrapperOpt 1 "s"%char); ("eof", WrapperOpt 2 "e"%char);
         ("replace", WrapperOpt 2 "i"%char); ("max-lines", WrapperOpt 2 "l"%char) ]) ].

Abbreviation seen_options := (gmap ascii gostr).

(** The letters of one bundle; a value may take the next word. [inner] counts
    the words before [rest]. *)
Fixpoint wrapper_letters (spec : wrapperOptSpec) (letters : gostr) (inner : nat)
    (rest : list WordParts) (seen : seen_options)
    : option (nat * list WordParts * seen_options) :=
  match letters with
  | [] => Some (inner, rest, seen)
  | ch :: letters =>
      match short_get (ws_short spec) ch with
      | None => None
      | Some O => wrapper_letters spec letters inner rest (<[ch := []]> seen)
      | Some arity =>
          if bool_decide (letters = []) && (arity =? 1) then
            match rest with
            | [] => None
            | w :: rest =>
                match literalWordText w with
                | None => None
                | Some value => Some (S inner, rest, <[ch := value]> seen)
                end
            end
          else Some (inner, rest, <[ch := letters]> seen)
      end
  end.

(** The words from index [inner] on; the result is the index of the inner
    command word, 0 for none, and the options seen. *)
Fixpoint wrapper_options (fuel : nat) (spec : wrapperOptSpec) (inner : nat)
    (args : list WordParts) (seen : seen_options) : option (nat * seen_options) :=
  match fuel, args with
  | O, _ => None
  | S _, [] => Some (0, seen)
  | S fuel, w :: rest =>
      match literalWordText w with
      | None => None
      | Some text =>
          if bool_decide (text = "--") then
            Some (match rest with [] => 0 | _ => S inner end, seen)
          else if (length text <? 2) || negb (has_prefix "-" text) then Some (inner, seen)
          else if has_prefix "--" text then
            let '(name, value, hasValue) := cut "=" (drop 2 text) in
            match table_get (ws_long spec) name with
            | None => None
            | Some opt =>
                if (wo_arity opt =? 0) && hasValue then None
                else if (wo_arity opt =? 1) && negb hasValue then
                  match rest with
                  | [] => None
                  | w :: rest =>
                      match literalWordText w with
                      | None => None
                      | Some value =>
                          wrapper_options fuel spec (S (S inner)) rest
                            (<[wo_letter opt := value]> seen)
                      end
                  end
                else wrapper_options fuel spec (S inner) rest (<[wo_letter opt := value]> seen)
            end
          else
            match wrapper_letters spec (drop 1 text) (S inner) rest seen with
            | None => None
            | Some (inner, rest, seen) => wrapper_options fuel spec inner rest seen
            end
      end
  end.

Definition scanWrapperOptions (args : list WordParts) (spec : wrapperOptSpec)
    : option (nat * seen_options) :=
  wrapper_options (S (length args)) spec 1 (tail args) ∅.

Definition xargsReplaceString (seen : seen_options) : option gostr :=
  match seen !! "I"%char with
  | Some r => Some r
  | None =>
      match seen !! "i"%char with
      | Some r => Some (if bool_decide (r = []) then "{}" else r)
      | None => None
      end
  end.

(** ** The segment checks *)

Section segment.
  Context (print : WordParts -> gostr) (guardEnv : Env).

Definition callExprCmdString (args : list WordParts) : gostr := join " " (print <$> args).

Definition resolvedArgsUnsafe (cmdWord : shellWord) (args : list WordParts) (vc : varCtx) : bool :=
  if negb (flagCheckedCommand (base (w_visible cmdWord))) then false
  else match mapM (resolveArgWord vc) (tail args) with
       | None => true
       | Some resolved => containsUnsafeFlagWords (cmdWord :: concat resolved)
       end.

Definition expandedArgsUnsafe (args : list WordParts) (segment : gostr) (vc : varCtx) : bool :=
  if negb (existsb wordHasParamExp (tail args)) then false
  else match scanShellWords segment with
       | [] => false
       | (w0 :: _) as words =>
           if negb (flagCheckedCommand (visibleCmdBase words)) then false
           else if negb (length args =? length words) then true
           else resolvedArgsUnsafe w0 args vc
       end.

(** The veto on a resolved or typed name. *)
Definition veto_if (segment : gostr) (f : finding) : V bool :=
  if f_sub f then do! _ <- noteVeto segment f; vret true else vret false.

Definition resolvedNameUnsafe (name : shellWord) (args : list WordParts) (segment : gostr)
    (vc : varCtx) : V bool :=
  if commandNameUnsafe (base (w_visible name)) (1 <? length args) false then vret true
  else if resolvedArgsUnsafe name args vc then vret true
  else veto_if segment (Substitutable (w_visible name) guardEnv).

Definition commandWordUnsafe (args : list WordParts) (segment : gostr) (vc : varCtx) : V bool :=
  match args with
  | [] => vret false
  | w :: _ =>
      match resolveArgWord vc w with
      | None | Some [] => vret true
      | Some (name :: others) =>
          if wordIsLiteralText w then vret (w_hasLiveGlobExact name || w_hasLiveBrace name)
          else if negb (bool_decide (others = [])) || bool_decide (w_visible name = [])
                  || w_hasLiveGlobExact name || w_hasLiveBrace name
          then vret true
          else resolvedNameUnsafe name args segment vc
      end
  end.

Definition commandIsSubstitutable (segment : gostr) : finding :=
  match tokenizeCommand segment with
  | [] => no_finding
  | token :: _ => Substitutable token guardEnv
  end.

Definition commandWordSubstitutable (args : list WordParts) (segment : gostr) : finding :=
  match args with
  | [] => commandIsSubstitutable segment
  | w :: _ =>
      match literalWordText w with
      | Some text => Substitutable text guardEnv
      | None => commandIsSubstitutable segment
      end
  end.

(** The inner command of a wrapper, [args] being its words. *)
Definition wrapped_inner_unsafe (xargs : bool) (seen : seen_options) (args : list WordParts)
    (segment : gostr) (vc : varCtx) : V bool :=
  match args with
  | [] => vret true
  | w :: _ =>
      match literalWordText w with
      | None | Some [] => vret true
      | Some text =>
          if commandNameUnsafe (base text) (xargs || (1 <? length args)) false then vret true
          else if xargs && flagCheckedCommand (base text) then vret true
          else if xargs && match xargsReplaceString seen with
                           | Some r => bool_decide (r = []) || contains r text
                           | None => false
                           end
          then vret true
          else
            let innerSeg := callExprCmdString args in
            do! unsafe <- commandWordUnsafe args innerSeg vc;
            if unsafe || containsUnsafeFlags innerSeg || expandedArgsUnsafe args innerSeg vc
            then vret true
            else veto_if segment (Substitutable text guardEnv)
      end
  end.

Definition wrappedCommandUnsafe (args : list WordParts) (segment : gostr) (vc : varCtx) : V bool :=
  let name := commandBaseName args in
  if negb (in_table runnerWrappers name) then vret false
  else
    let spec := default (WrapperOptSpec [] []) (table_get runnerWrapperOpts name) in
    match scanWrapperOptions args spec with
    | None => vret true
    | Some (O, _) => vret false
    | Some (inner, seen) =>
        if bool_decide (name = "command")
           && (bool_decide (is_Some (seen !! "v"%char)) || bool_decide (is_Some (seen !! "V"%char)))
        then vret false
        else wrapped_inner_unsafe (bool_decide (name = "xargs")) seen (drop inner args) segment vc
    end.

Definition readonlyGitSegmentSafe (segment : gostr) (args : list WordParts) : bool :=
  if negb (forallb wordIsLiteralText args) then false
  else
    let words := scanShellWords segment in
    if negb (length words =? length args) || bool_decide (length words = 0) then false
    else if existsb (fun w => w_hasLiveGlob w || w_hasLiveBrace w || w_hasLiveSubst w) words
    then false
    else match visibleTexts words with
         | [] => false
         | name :: rest => if negb (bool_decide (name = "git")) then false
                           else readonlyGitArgsSafe rest
         end.

Definition rule_matches (segment : gostr) (args : list WordParts) (r : Rule) : bool :=
  if negb (bool_decide (ToolName r = "Bash")) then false
  else if readonlyGit r then readonlyGitSegmentSafe segment args
  else if bool_decide (Pattern r = []) then true
  else matchPattern (Pattern r) segment.

Definition matchBashSegment (rules : list Rule) (segment : gostr) (args : list WordParts)
    (vc : varCtx) : V bool :=
  do! unsafe <- commandWordUnsafe args segment vc;
  if unsafe then vret false
  else if containsUnsafeFlags segment then vret false
  else if expandedArgsUnsafe args segment vc then vret false
  else
    do! unsafe <- wrappedCommandUnsafe args segment vc;
    if unsafe then vret false
    else
      do! vetoed <- veto_if segment (commandWordSubstitutable args segment);
      if vetoed then vret false
      else vret (existsb (rule_matches segment args) rules).
End segment.
