(* ===== verification/Walker.v ===== *)
(** * The auto-approve decision (autoapprove.go)

    The walk over the parsed command: structural refusals, the recursion into
    command substitutions and -c scripts, the brace-literal pass, and the
    check of every simple command; then the entry points.

    The recursion into -c scripts is not bounded by the code's depth counter,
    so the model takes fuel, one unit per statement list entered, and [None]
    means that it ran out. *)
From S2P Require Import Prelude GoStrings Glob ShellScan FlagCheck GitReadonly ExecGuard.
From S2P Require Import CanonPath Rules ShellAst VarCtx EnvChange Segment.

(** ** Structural checks *)

Definition isDevNullRedirect (word : option WordParts) : bool :=
  match word with
  | Some [Lit v] => bool_decide (v = "/dev/null")
  | _ => false
  end.

Definition isOutputRedirect (op : RedirOperator) : bool :=
  match op with
  | RdrOut | AppOut | RdrClob | RdrAll | AppAll => true
  | _ => false
  end.

Definition litContainsBraceExpansion (s : gostr) : bool :=
  match index_byte "{"%char s with
  | None => false
  | Some start =>
      match index_byte "}"%char (drop start s) with
      | None => false
      | Some end_ =>
          let inner := take (S end_) (drop start s) in
          contains "," inner || contains ".." inner
      end
  end.

Definition dangerousVars : list gostr :=
  ["PATH"; "LD_PRELOAD"; "LD_LIBRARY_PATH"; "PROMPT_COMMAND"; "BASH_ENV"; "ENV"; "HISTFILE"].

Definition isDangerousVarName (name : gostr) : bool :=
  in_table dangerousVars name || has_prefix "BASH_FUNC_" name.

Definition names_dangerous (a : AssignT) : bool :=
  match a_Name a with Some name => isDangerousVarName name | None => false end.

Definition maxCmdSubstDepth : nat := 3.

(** A computation that may record a veto and may run out of fuel. *)
Definition F (A : Type) : Type := vetoNote -> option (A * vetoNote).
Definition fret {A} (a : A) : F A := fun v => Some (a, v).
Definition fbind {A B} (m : F A) (k : A -> F B) : F B :=
  fun v => match m v with None => None | Some (a, v) => k a v end.
Definition lift {A} (m : V A) : F A := fun v => Some (m v).

Declare Scope fuel_scope.
Delimit Scope fuel_scope with fuel.
Notation "'do!' x <- m ; k" := (fbind m (fun x => k))
  (at level 10, x name, m at level 100, k at level 200) : fuel_scope.

Section walker.
  Context (print : WordParts -> gostr) (parse : gostr -> option (list Node)) (guardEnv : Env).
  Context (rules : list Rule).

Definition naked_nameref (a : AssignT) : bool :=
  match a_Naked a, a_Name a, a_Value a with
  | true, None, Some w => has_prefix "-" (print w) && mem_byte "n"%char (print w)
  | _, _, _ => false
  end.

Definition declHasDangerousVar (variant : option gostr) (args : list AssignT) : bool :=
  if bool_decide (variant = Some ("nameref" : gostr)) then true
  else if existsb naked_nameref args then true
  else existsb names_dangerous args.

Definition printedWordHasLiveBrace (w : WordParts) : bool :=
  existsb w_hasLiveBrace (scanShellWords (print w)).

Definition declHasLiveBraceArg (args : list AssignT) : bool :=
  existsb (fun a => match a_Value a with
                    | Some w => printedWordHasLiveBrace w
                    | None => false
                    end) args.

Definition callExprFlagChecked (args : list WordParts) : bool :=
  let cmdStr := callExprCmdString print args in
  if bool_decide (cmdStr = []) then false
  else flagCheckedCommand (visibleCmdBase (scanShellWords cmdStr)).

(** The callback of [stmtHasBraceLiteral]: which nodes it descends into. *)
Definition brace_descend (n : Node) : bool :=
  match n with
  | CallExpr _ _ _ args => if interceptorWord args then false else negb (callExprFlagChecked args)
  | CmdSubst _ => false
  | _ => true
  end.

Definition brace_literal (n : Node) : bool :=
  match n with Lit v => litContainsBraceExpansion v | _ => false end.

Definition stmtHasBraceLiteral (stmt : Node) : bool :=
  existsb brace_literal (walk brace_descend stmt).

(** ** One statement *)

(** What the walk of [validateParsedStmt] gathers. *)
Record walk_state := WalkState {
  ws_commands : list (list WordParts);
  ws_cmdSubsts : list (list Node);
  ws_hasContent : bool;
}.

Definition walk_start : walk_state := WalkState [] [] false.
Definition add_command (args : list WordParts) (st : walk_state) : walk_state :=
  WalkState (ws_commands st ++ [args]) (ws_cmdSubsts st) true.
Definition add_subst (stmts : list Node) (st : walk_state) : walk_state :=
  WalkState (ws_commands st) (ws_cmdSubsts st ++ [stmts]) (ws_hasContent st).
Definition add_content (st : walk_state) : walk_state :=
  WalkState (ws_commands st) (ws_cmdSubsts st) true.

Definition prefixed (assigns : list AssignT) (args : list WordParts) : bool :=
  negb (bool_decide (length assigns = 0)) && negb (bool_decide (length args = 0)).

(** The nodes the callback descends into while the statement is still safe. *)
Definition stmt_descend (n : Node) : bool :=
  match n with
  | CmdSubst _ => false
  | CallExpr _ _ _ args => negb (interceptorWord args)
  | _ => true
  end.

(** [rec] validates a statement list one level deeper. *)
Definition Rec : Type := list Node -> varCtx -> F bool.

Definition visit_script (rec : Rec) (vc : varCtx) (args : list WordParts) (st : walk_state)
    : F (option walk_state) :=
  match extractShellScript args with
  | None => fret None
  | Some scriptWord =>
      if scriptWordUnsafe scriptWord vc then fret None
      else if printedWordHasLiveBrace scriptWord then fret None
      else match resolveStaticWord (Some vc) scriptWord with
           | None => fret None
           | Some [] => fret (Some (add_content st))
           | Some script =>
               match parse script with
               | None => fret None
               | Some innerStmts =>
                   (do! ok <- rec innerStmts (clone vc);
                    fret (if ok : bool then Some (add_content st) else None))%fuel
               end
           end
  end.

(** The callback on one node: [None] when the statement becomes unsafe. *)
Definition visit (rec : Rec) (vc : varCtx) (n : Node) (st : walk_state) : F (option walk_state) :=
  match n with
  | Redirect op word _ =>
      fret (if isOutputRedirect op && negb (isDevNullRedirect word) then None else Some st)
  | ProcSubst _ => fret None
  | CmdSubst stmts => fret (Some (add_subst stmts st))
  | CallExpr _ _ assigns args =>
      if prefixed assigns args then fret None
      else if existsb names_dangerous assigns then fret None
      else if interceptorWord args then visit_script rec vc args st
      else if commandNameUnsafe (commandBaseName args) (1 <? length args) true then fret None
      else fret (Some (add_command args st))
  | TestClause _ => fret (Some (add_content st))
  | DeclClause _ variant args =>
      fret (if declHasDangerousVar variant args || declHasLiveBraceArg args then None
            else Some (add_content st))
  | ArithmCmd _ => fret (Some (add_content st))
  | LetClause _ => fret (Some (add_content st))
  | FuncDecl _ => fret None
  | CoprocClause _ => fret None
  | _ => fret (Some st)
  end.

Fixpoint visit_all (rec : Rec) (vc : varCtx) (nodes : list Node) (st : walk_state)
    : F (option walk_state) :=
  match nodes with
  | [] => fret (Some st)
  | n :: nodes =>
      (do! r <- visit rec vc n st;
       match r with
       | None => fret None
       | Some st => visit_all rec vc nodes st
       end)%fuel
  end.

Fixpoint validate_substs (rec : Rec) (vc : varCtx) (substs : list (list Node)) : F bool :=
  match substs with
  | [] => fret true
  | stmts :: substs =>
      (do! ok <- rec stmts (clone vc);
       if ok : bool then validate_substs rec vc substs else fret false)%fuel
  end.

Fixpoint validate_commands (vc : varCtx) (commands : list (list WordParts)) : F bool :=
  match commands with
  | [] => fret true
  | args :: commands =>
      let cmdStr := callExprCmdString print args in
      if bool_decide (cmdStr = []) then validate_commands vc commands
      else
        (do! ok <- lift (matchBashSegment print guardEnv rules cmdStr args vc);
         if ok : bool then validate_commands vc commands else fret false)%fuel
  end.

Definition validateParsedStmt (rec : Rec) (stmt : Node) (depth : nat) (vc : varCtx) : F bool :=
  (do! r <- visit_all rec vc (walk stmt_descend stmt) walk_start;
   match r with
   | None => fret false
   | Some st =>
       if negb (ws_hasContent st) then fret false
       else if maxCmdSubstDepth <=? depth then fret false
       else
         do! ok <- validate_substs rec vc (ws_cmdSubsts st);
         if negb ok then fret false
         else if stmtHasBraceLiteral stmt then fret false
         else validate_commands vc (ws_commands st)
   end)%fuel.

(** ** Statement lists *)

Fixpoint validate_stmts (rec : Rec) (depth : nat) (stmts : list Node) (vc : varCtx) : F bool :=
  match stmts with
  | [] => fret true
  | stmt :: stmts =>
      (do! ok <- validateParsedStmt rec stmt depth (markComplexAssignments stmt (clone vc));
       if ok : bool then validate_stmts rec depth stmts (updateVarCtx stmt vc) else fret false)%fuel
  end.

Fixpoint validateParsedCommand (fuel : nat) (stmts : list Node) (depth : nat) (vc : varCtx)
    : F bool :=
  match fuel with
  | O => fun _ => None
  | S fuel =>
      if exportedChangeBeforeCommand stmts (environment vc) then fret false
      else validate_stmts (fun stmts vc => validateParsedCommand fuel stmts (S depth) vc)
             depth stmts vc
  end.

(** ** Entry points *)

Definition matchBashAutoApprove (fuel : nat) (input : option json) (env : environ)
    : option (bool * gostr) :=
  let command := extractMatchString "Bash" input in
  if bool_decide (command = []) then Some (false, [])
  else match parse command with
       | None => Some (false, [])
       | Some stmts =>
           match validateParsedCommand fuel stmts 0 (newVarCtx env) no_veto with
           | None => None
           | Some (true, _) => Some (true, [])
           | Some (false, veto) => Some (false, denialReason veto)
           end
       end.

Definition matchAutoApproveWithEnv (fs : FS) (fuel : nat) (toolName : gostr) (input : option json)
    (env : environ) : option (bool * gostr) :=
  if bool_decide (toolName = "Bash") then matchBashAutoApprove fuel input env
  else Some (matchToolAutoApprove fs rules toolName input, []).

Definition MatchWithEnv (fs : FS) (fuel : nat) (toolName : gostr) (input : option json)
    (env : environ) : option (bool * gostr) :=
  matchAutoApproveWithEnv fs fuel toolName input env.
End walker.

(** ** Verdicts do not depend on the veto note *)

(** [VetoFree m]: the note threaded through [m] does not change its result. *)
Class VetoFree {A} (m : V A) : Prop := veto_free : forall v v', (m v).1 = (m v').1.

#[export] Instance vret_free {A} (a : A) : VetoFree (vret a).
Proof. done. Qed.

#[export] Instance vbind_free {A B} (m : V A) (k : A -> V B) :
  VetoFree m -> (forall a, VetoFree (k a)) -> VetoFree (vbind m k).
Proof.
  intros Hm Hk v v'. unfold vbind. pose proof (Hm v v') as E.
  destruct (m v) as [a w], (m v') as [a' w']. cbn in E. subst. apply Hk.
Qed.

#[export] Instance noteVeto_free segment f : VetoFree (noteVeto segment f).
Proof. done. Qed.

#[export] Instance if_free {A} (b : bool) (m m' : V A) :
  VetoFree m -> VetoFree m' -> VetoFree (if b then m else m').
Proof. by destruct b. Qed.

#[export] Instance veto_if_free segment f : VetoFree (veto_if segment f).
Proof. unfold veto_if. apply _. Qed.

#[export] Instance resolvedNameUnsafe_free g name args segment vc :
  VetoFree (resolvedNameUnsafe g name args segment vc).
Proof. unfold resolvedNameUnsafe. apply _. Qed.

#[export] Instance commandWordUnsafe_free g args segment vc :
  VetoFree (commandWordUnsafe g args segment vc).
Proof.
  unfold commandWordUnsafe. destruct args as [|w args]; [apply _|].
  destruct (resolveArgWord vc w) as [[|name others]|]; apply _.
Qed.

#[export] Instance wrappedCommandUnsafe_free p g args segment vc :
  VetoFree (wrappedCommandUnsafe p g args segment vc).
Proof.
  unfold wrappedCommandUnsafe, wrapped_inner_unsafe. cbv zeta.
  repeat case_match; apply _.
Qed.

#[export] Instance matchBashSegment_free p g rules segment args vc :
  VetoFree (matchBashSegment p g rules segment args vc).
Proof. unfold matchBashSegment. apply _. Qed.

(** ** The verdict decomposed *)

Section lemmas.
  Context (print : WordParts -> gostr) (parse : gostr -> option (list Node)) (guardEnv : Env).

  Local Abbreviation validate rules := (validateParsedCommand print parse guardEnv rules).
  Local Abbreviation match_segment rules := (matchBashSegment print guardEnv rules).

Lemma fbind_Some {A B} (m : F A) (k : A -> F B) v r :
  fbind m k v = Some r -> exists a v1, m v = Some (a, v1) /\ k a v1 = Some r.
Proof. unfold fbind. destruct (m v) as [[a v1]|]; [|done]. eauto. Qed.

(** Inverts equations between computations, one [do!] at a time. *)
Local Ltac finv :=
  repeat match goal with
  | H : fret _ _ = Some _ |- _ => unfold fret in H; simplify_eq/=
  | H : fbind _ _ _ = Some _ |- _ =>
      let v := fresh "v" in apply fbind_Some in H as (? & v & ? & H)
  | H : (if ?b then _ else _) = Some _ |- _ => destruct b eqn:?; simplify_eq/=
  | H : (if ?b then _ else _) _ = Some _ |- _ => destruct b eqn:?; simplify_eq/=
  end.

Lemma visit_grows rec vc n st v st' v' :
  visit print parse rec vc n st v = Some (Some st', v') ->
  ws_commands st ⊆ ws_commands st' /\ ws_cmdSubsts st ⊆ ws_cmdSubsts st'.
Proof.
  assert (forall args, visit_script print parse rec vc args st v = Some (Some st', v') ->
    ws_commands st ⊆ ws_commands st' /\ ws_cmdSubsts st ⊆ ws_cmdSubsts st') as Hs.
  { intros args. unfold visit_script. repeat case_match; intros Hv; finv; done. }
  unfold visit. repeat case_match; intros Hv; finv; try done; eauto;
    split; try done; by apply list_subseteq_app_l.
Qed.

Lemma visit_all_inv rec vc nodes st v st' v' :
  visit_all print parse rec vc nodes st v = Some (Some st', v') ->
  (ws_commands st ⊆ ws_commands st' /\ ws_cmdSubsts st ⊆ ws_cmdSubsts st')
  /\ forall n, n ∈ nodes -> exists st1 v1 st2 v2,
    visit print parse rec vc n st1 v1 = Some (Some st2, v2)
    /\ ws_commands st2 ⊆ ws_commands st' /\ ws_cmdSubsts st2 ⊆ ws_cmdSubsts st'.
Proof.
  revert st v. induction nodes as [|m nodes IH]; intros st v H; cbn [visit_all] in H.
  { unfold fret in H. simplify_eq. split; [done|]. by intros n ?%elem_of_nil. }
  apply fbind_Some in H as ([st1|] & v1 & Hm & H); [|by unfold fret in H].
  destruct (IH _ _ H) as ([Hc Hs] & Hn). apply visit_grows in Hm as Hg. destruct Hg as [Hgc Hgs].
  split; [split; by etransitivity|].
  intros n [->|Hin]%elem_of_cons; [|by apply Hn]. by exists st, v, st1, v1.
Qed.

Lemma validate_substs_inv rec vc substs v v' stmts :
  validate_substs rec vc substs v = Some (true, v') -> stmts ∈ substs ->
  exists v1 v2, rec stmts vc v1 = Some (true, v2).
Proof.
  revert v. induction substs as [|s substs IH]; intros v H Hin; [by apply elem_of_nil in Hin|].
  cbn [validate_substs] in H. apply fbind_Some in H as ([] & v1 & Hs & H); [|by unfold fret in H].
  apply elem_of_cons in Hin as [->|Hin]; [by exists v, v1|by eapply IH].
Qed.

Lemma validate_commands_inv rules vc commands v v' args :
  validate_commands print guardEnv rules vc commands v = Some (true, v') -> args ∈ commands ->
  callExprCmdString print args <> [] ->
  (match_segment rules (callExprCmdString print args) args vc no_veto).1 = true.
Proof.
  revert v. induction commands as [|a commands IH]; intros v H Hin Hne; [by apply elem_of_nil in Hin|].
  cbn [validate_commands] in H. apply elem_of_cons in Hin as [->|Hin].
  - rewrite bool_decide_eq_false_2 in H by done.
    apply fbind_Some in H as (ok & v1 & Hs & H). unfold lift in Hs.
    destruct ok; [|by unfold fret in H]. rewrite (veto_free no_veto v).
    injection Hs as Hs. by rewrite Hs.
  - case_bool_decide; [by eapply IH|].
    apply fbind_Some in H as ([] & v1 & Hs & H); [by eapply IH|by unfold fret in H].
Qed.

Lemma validateParsedStmt_inv rules rec stmt depth vc v v' :
  validateParsedStmt print parse guardEnv rules rec stmt depth vc v = Some (true, v') ->
  exists st v1 v2,
    visit_all print parse rec vc (walk stmt_descend stmt) walk_start v = Some (Some st, v1)
    /\ depth < maxCmdSubstDepth
    /\ validate_substs rec vc (ws_cmdSubsts st) v1 = Some (true, v2)
    /\ stmtHasBraceLiteral print stmt = false
    /\ validate_commands print guardEnv rules vc (ws_commands st) v2 = Some (true, v').
Proof.
  unfold validateParsedStmt. intros H. apply fbind_Some in H as ([st|] & v1 & Hv & H);
    [|by unfold fret in H].
  destruct (ws_hasContent st); cbn [negb] in H; [|by unfold fret in H].
  destruct (maxCmdSubstDepth <=? depth) eqn:Ed; [by unfold fret in H|].
  apply fbind_Some in H as ([] & v2 & Hs & H); cbn [negb] in H; [|by unfold fret in H].
  destruct (stmtHasBraceLiteral print stmt) eqn:Eb; [by unfold fret in H|].
  apply Nat.leb_gt in Ed. by exists st, v1, v2.
Qed.

(** The context in which statement [length pre] of a list is validated. *)
Definition stmt_ctx (vc : varCtx) (pre : list Node) (stmt : Node) : varCtx :=
  markComplexAssignments stmt (advance vc pre).

Lemma validate_stmts_inv rules rec depth pre stmt post vc v v' :
  validate_stmts print parse guardEnv rules rec depth (pre ++ stmt :: post) vc v = Some (true, v') ->
  exists v1 v2, validateParsedStmt print parse guardEnv rules rec stmt depth
                  (stmt_ctx vc pre stmt) v1 = Some (true, v2).
Proof.
  revert vc v. induction pre as [|s pre IH]; intros vc v H; cbn [app validate_stmts] in H;
    apply fbind_Some in H as ([] & v1 & Hs & H); try (by unfold fret in H).
  - by exists v, v1.
  - by apply IH in H.
Qed.

Lemma validate_inv rules fuel pre stmt post depth vc v v' :
  validate rules fuel (pre ++ stmt :: post) depth vc v = Some (true, v') ->
  exists fuel' v1 v2, fuel = S fuel'
    /\ validateParsedStmt print parse guardEnv rules
         (fun stmts vc => validate rules fuel' stmts (S depth) vc) stmt depth
         (stmt_ctx vc pre stmt) v1 = Some (true, v2).
Proof.
  destruct fuel as [|fuel]; [done|]. cbn [validateParsedCommand].
  destruct (exportedChangeBeforeCommand _ _); [done|]. intros H.
  apply validate_stmts_inv in H as (v1 & v2 & H). by exists fuel, v1, v2.
Qed.

(** ** Everything an evaluation looks at

    [visited stmts vc n vc']: node [n] is reached from the statement list
    [stmts] in context [vc], with [vc'] the context of its statement: in a
    statement itself, inside a command substitution, or inside a script that a
    shell runs and whose text is known. *)
Inductive visited : list Node -> varCtx -> Node -> varCtx -> Prop :=
| visited_here pre stmt post vc n :
    n ∈ walk stmt_descend stmt ->
    visited (pre ++ stmt :: post) vc n (stmt_ctx vc pre stmt)
| visited_subst pre stmt post vc inner n vc' :
    CmdSubst inner ∈ walk stmt_descend stmt ->
    visited inner (stmt_ctx vc pre stmt) n vc' ->
    visited (pre ++ stmt :: post) vc n vc'
| visited_script pre stmt post vc p e assigns args w script inner n vc' :
    CallExpr p e assigns args ∈ walk stmt_descend stmt -> interceptorWord args = true ->
    extractShellScript args = Some w ->
    resolveStaticWord (Some (stmt_ctx vc pre stmt)) w = Some script -> script <> [] ->
    parse script = Some inner ->
    visited inner (stmt_ctx vc pre stmt) n vc' ->
    visited (pre ++ stmt :: post) vc n vc'.

(** What an approval promises of a node. *)
Definition node_ok (rules : list Rule) (n : Node) (vc : varCtx) : Prop :=
  match n with
  | Redirect op word _ => isOutputRedirect op = true -> isDevNullRedirect word = true
  | ProcSubst _ | FuncDecl _ | CoprocClause _ => False
  | DeclClause _ variant args =>
      declHasDangerousVar print variant args = false /\ declHasLiveBraceArg print args = false
  | CallExpr _ _ assigns args =>
      prefixed assigns args = false /\ existsb names_dangerous assigns = false
      /\ if interceptorWord args then
           exists w script, extractShellScript args = Some w
             /\ resolveStaticWord (Some vc) w = Some script
             /\ (script <> [] -> is_Some (parse script))
         else
           commandNameUnsafe (commandBaseName args) (1 <? length args) true = false
           /\ (callExprCmdString print args <> [] ->
               (match_segment rules (callExprCmdString print args) args vc no_veto).1 = true)
  | _ => True
  end.

Lemma visit_script_inv rec vc args st v st' v' :
  visit_script print parse rec vc args st v = Some (Some st', v') ->
  exists w script, extractShellScript args = Some w
    /\ resolveStaticWord (Some vc) w = Some script
    /\ (script <> [] -> exists inner v1 v2, parse script = Some inner
          /\ rec inner vc v1 = Some (true, v2)).
Proof.
  unfold visit_script. destruct (extractShellScript args) as [w|]; [|done].
  destruct (scriptWordUnsafe w vc); [done|]. destruct (printedWordHasLiveBrace print w); [done|].
  destruct (resolveStaticWord (Some vc) w) as [[|c script]|] eqn:Er; [| |done].
  - intros _. by exists w, [].
  - intros H. exists w, (c :: script). split_and!; [done..|]. intros _.
    destruct (parse (c :: script)) as [inner|]; [|done].
    apply fbind_Some in H as ([] & v1 & Hr & H); [|by unfold fret in H].
    by exists inner, v, v1.
Qed.

Lemma visit_ok rules rec vc n st1 v1 st2 v2 (commands : list (list WordParts)) :
  visit print parse rec vc n st1 v1 = Some (Some st2, v2) ->
  ws_commands st2 ⊆ commands ->
  (forall args, args ∈ commands -> callExprCmdString print args <> [] ->
    (match_segment rules (callExprCmdString print args) args vc no_veto).1 = true) ->
  node_ok rules n vc.
Proof.
  intros Hv Hsub Hcmd. destruct n; cbn [visit node_ok] in *; try done.
  - unfold fret in Hv. destruct (isOutputRedirect op); [|done].
    by destruct (isDevNullRedirect word).
  - destruct (prefixed Assigns Args); [done|].
    destruct (existsb names_dangerous Assigns); [done|]. split_and!; [done..|].
    destruct (interceptorWord Args).
    + apply visit_script_inv in Hv as (w & script & ? & ? & Hs). exists w, script.
      split_and!; [done..|]. intros Hne. destruct (Hs Hne) as (inner & _ & _ & -> & _). eauto.
    + destruct (commandNameUnsafe _ _ true); [done|]. split; [done|].
      apply Hcmd, Hsub. unfold fret in Hv. simplify_eq/=. set_solver.
  - unfold fret in Hv. destruct (declHasDangerousVar _ _ _), (declHasLiveBraceArg _ _); done.
Qed.

Lemma approved_visited rules fuel stmts depth vc v v' n vc' :
  visited stmts vc n vc' ->
  validate rules fuel stmts depth vc v = Some (true, v') -> node_ok rules n vc'.
Proof.
  intros Hvis. revert fuel depth v v'.
  induction Hvis as [pre stmt post vc n Hin|pre stmt post vc inner n vc' Hin Hvis IH
    |pre stmt post vc p e assigns args w script inner n vc' Hin Hint Hex Hres Hne Hp Hvis IH];
    intros fuel depth v v' H; apply validate_inv in H as (fuel' & v1 & v2 & -> & H);
    apply validateParsedStmt_inv in H as (st & v3 & v4 & Hall & _ & Hsub & _ & Hcom);
    apply visit_all_inv in Hall as (_ & Hall); destruct (Hall _ Hin) as (st1 & w1 & st2 & w2 & Hv & Hc & Hs).
  - eapply visit_ok; [done..|]. intros args Ha Hn. by eapply validate_commands_inv.
  - cbn in Hv. unfold fret in Hv. simplify_eq.
    destruct (validate_substs_inv _ _ _ _ _ inner Hsub) as (u1 & u2 & Hu); [set_solver|].
    by eapply IH.
  - cbn [visit] in Hv. rewrite Hint in Hv.
    destruct (prefixed assigns args), (existsb names_dangerous assigns); try done.
    apply visit_script_inv in Hv as (w' & script' & Hex' & Hres' & Hs'). simplify_eq.
    destruct (Hs' Hne) as (inner' & u1 & u2 & Hp' & Hu). simplify_eq. by eapply IH.
Qed.
End lemmas.
