(* ===== verification/Approval.v ===== *)
(** * Properties of the auto-approve decision

    What an approval promises of every command it covers, how it depends on
    the rules, when the evaluation returns, and the cases in which the verdict
    is not the one the shell's behaviour calls for. *)
From S2P Require Import Prelude GoStrings Glob ShellScan FlagCheck GitReadonly ExecGuard.
From S2P Require Import CanonPath Rules ShellAst VarCtx EnvChange Segment Walker.

Section approval.
  Context (print : WordParts -> gostr) (parse : gostr -> option (list Node)) (guardEnv : Env).

  Local Abbreviation validate rules := (validateParsedCommand print parse guardEnv rules).
  Local Abbreviation validate_stmt rules := (validateParsedStmt print parse guardEnv rules).

(** ** More rules, more fuel: approvals stay *)

(** Approvals of [rec] are approvals of [rec']. *)
Definition rec_le (rec rec' : Rec) : Prop :=
  forall stmts vc v v', rec stmts vc v = Some (true, v') -> rec' stmts vc v = Some (true, v').

Section mono.
  Context (rules rules' : list Rule) (Hrules : rules ⊆ rules').
  Context (rec rec' : Rec) (Hrec : rec_le rec rec').

Lemma existsb_subset {A} (f : A -> bool) l l' : l ⊆ l' -> existsb f l = true -> existsb f l' = true.
Proof.
  intros Hl. rewrite !existsb_exists. intros (x & Hx & Hf). exists x. split; [|done].
  apply list_elem_of_In, Hl. by apply list_elem_of_In.
Qed.

Lemma visit_script_mono vc args st v st' v' :
  visit_script print parse rec vc args st v = Some (Some st', v') ->
  visit_script print parse rec' vc args st v = Some (Some st', v').
Proof.
  unfold visit_script. destruct (extractShellScript args) as [w|]; [|done].
  destruct (scriptWordUnsafe w vc); [done|]. destruct (printedWordHasLiveBrace print w); [done|].
  destruct (resolveStaticWord (Some vc) w) as [[|c script]|]; [done| |done].
  destruct (parse (c :: script)) as [inner|]; [|done].
  intros H. apply fbind_Some in H as ([] & v1 & Hr & H); [|by unfold fret in H].
  unfold fbind. by rewrite (Hrec _ _ _ _ Hr).
Qed.

Lemma visit_mono vc n st v st' v' :
  visit print parse rec vc n st v = Some (Some st', v') ->
  visit print parse rec' vc n st v = Some (Some st', v').
Proof.
  destruct n; cbn [visit]; try done.
  destruct (prefixed _ _); [done|]. destruct (existsb _ _); [done|].
  destruct (interceptorWord _); [apply visit_script_mono|done].
Qed.

Lemma visit_all_mono vc nodes st v st' v' :
  visit_all print parse rec vc nodes st v = Some (Some st', v') ->
  visit_all print parse rec' vc nodes st v = Some (Some st', v').
Proof.
  revert st v. induction nodes as [|n nodes IH]; intros st v H; [done|].
  cbn [visit_all] in *. apply fbind_Some in H as ([st1|] & v1 & Hn & H); [|by unfold fret in H].
  unfold fbind. rewrite (visit_mono _ _ _ _ _ _ Hn). by apply IH.
Qed.

Lemma validate_substs_mono vc substs v v' :
  validate_substs rec vc substs v = Some (true, v') ->
  validate_substs rec' vc substs v = Some (true, v').
Proof.
  revert v. induction substs as [|s substs IH]; intros v H; [done|].
  cbn [validate_substs] in *. apply fbind_Some in H as ([] & v1 & Hs & H); [|by unfold fret in H].
  unfold fbind. rewrite (Hrec _ _ _ _ Hs). by apply IH.
Qed.

Lemma matchBashSegment_mono segment args vc v v' :
  matchBashSegment print guardEnv rules segment args vc v = (true, v') ->
  matchBashSegment print guardEnv rules' segment args vc v = (true, v').
Proof.
  unfold matchBashSegment, vbind. destruct (commandWordUnsafe _ _ _ _ v) as [[] v1]; [done|].
  destruct (containsUnsafeFlags segment); [done|]. destruct (expandedArgsUnsafe _ _ _); [done|].
  destruct (wrappedCommandUnsafe _ _ _ _ _ v1) as [[] v2]; [done|].
  destruct (veto_if _ _ v2) as [[] v3]; [done|]. unfold vret.
  destruct (existsb (rule_matches segment args) rules) eqn:E; [|done].
  by rewrite (existsb_subset _ rules rules').
Qed.

Lemma validate_commands_mono vc commands v v' :
  validate_commands print guardEnv rules vc commands v = Some (true, v') ->
  validate_commands print guardEnv rules' vc commands v = Some (true, v').
Proof.
  revert v. induction commands as [|args commands IH]; intros v H; [done|].
  cbn [validate_commands] in *. case_bool_decide; [by apply IH|].
  apply fbind_Some in H as ([] & v1 & Hs & H); [|by unfold fret in H].
  unfold lift in Hs. injection Hs as Hs.
  unfold fbind, lift. rewrite (matchBashSegment_mono _ _ _ _ _ Hs). by apply IH.
Qed.

Lemma validateParsedStmt_mono stmt depth vc v v' :
  validate_stmt rules rec stmt depth vc v = Some (true, v') ->
  validate_stmt rules' rec' stmt depth vc v = Some (true, v').
Proof.
  unfold validateParsedStmt. intros H. apply fbind_Some in H as ([st|] & v1 & Hv & H);
    [|by unfold fret in H].
  unfold fbind at 1. rewrite (visit_all_mono _ _ _ _ _ _ Hv).
  destruct (ws_hasContent st); cbn [negb] in *; [|done].
  destruct (maxCmdSubstDepth <=? depth); [done|].
  apply fbind_Some in H as ([] & v2 & Hs & H); cbn [negb] in H; [|by unfold fret in H].
  unfold fbind. rewrite (validate_substs_mono _ _ _ _ Hs). cbn [negb].
  destruct (stmtHasBraceLiteral print stmt); [done|]. by apply validate_commands_mono.
Qed.

Lemma validate_stmts_mono depth stmts vc v v' :
  validate_stmts print parse guardEnv rules rec depth stmts vc v = Some (true, v') ->
  validate_stmts print parse guardEnv rules' rec' depth stmts vc v = Some (true, v').
Proof.
  revert vc v. induction stmts as [|s stmts IH]; intros vc v H; [done|].
  cbn [validate_stmts] in *. apply fbind_Some in H as ([] & v1 & Hs & H); [|by unfold fret in H].
  unfold fbind. rewrite (validateParsedStmt_mono _ _ _ _ _ Hs). by apply IH.
Qed.
End mono.

Lemma validate_mono rules rules' fuel fuel' depth stmts vc v v' :
  rules ⊆ rules' -> fuel <= fuel' ->
  validate rules fuel stmts depth vc v = Some (true, v') ->
  validate rules' fuel' stmts depth vc v = Some (true, v').
Proof.
  intros Hr. revert fuel' depth stmts vc v v'.
  induction fuel as [|fuel IH]; intros [|fuel'] depth stmts vc v v' Hf H; try done; [lia|].
  cbn [validateParsedCommand] in *. destruct (exportedChangeBeforeCommand _ _); [done|].
  eapply validate_stmts_mono; [done| |done]. intros s c u u'. apply IH. lia.
Qed.

(** ** Trees without shell invocations *)

Definition no_shell (n : Node) : Prop :=
  match n with CallExpr _ _ _ args => interceptorWord args = false | _ => True end.

Definition shell_free (stmt : Node) : Prop := Forall no_shell (walk_all stmt).

Lemma shell_free_visits stmt n d :
  shell_free stmt -> n ∈ walk d stmt -> no_shell n /\ shell_free n.
Proof.
  unfold shell_free. rewrite !Forall_forall. intros H Hn. apply elem_of_walk in Hn.
  assert (visits (fun _ => true) stmt n) as Hv by (by eapply visits_mono; [|done]).
  split; [apply H; by apply elem_of_walk|]. intros m Hm. apply elem_of_walk in Hm.
  apply H. apply elem_of_walk. by eapply visits_trans.
Qed.

Lemma shell_free_subst inner : shell_free (CmdSubst inner) -> Forall shell_free inner.
Proof.
  intros H. apply Forall_forall. intros s Hs.
  apply (shell_free_visits (CmdSubst inner) s (fun _ => true)); [done|].
  apply elem_of_walk. eapply visits_child; [done|exact Hs|constructor].
Qed.

Lemma visit_no_shell rec vc n st v :
  no_shell n -> exists r, visit print parse rec vc n st v = Some (r, v)
  /\ forall st', r = Some st' ->
      Forall (fun s => s ∈ ws_cmdSubsts st \/ n = CmdSubst s) (ws_cmdSubsts st').
Proof.
  assert (Forall (fun s => s ∈ ws_cmdSubsts st \/ n = CmdSubst s) (ws_cmdSubsts st)) as Hst.
  { apply Forall_forall. by left. }
  intros Hn. destruct n; cbn [visit no_shell] in *; unfold fret;
    try (eexists; split; [done|]; intros st' ?; simplify_eq/=; done).
  - eexists; split; [done|]. case_match; intros st' ?; by simplify_eq/=.
  - rewrite Hn. destruct (prefixed Assigns Args), (existsb names_dangerous Assigns),
      (commandNameUnsafe (commandBaseName Args) (1 <? length Args) true);
      (eexists; split; [done|]; intros st' ?; by simplify_eq/=).
  - eexists; split; [done|]. case_match; intros st' ?; by simplify_eq/=.
  - eexists; split; [done|]. intros st' ?; simplify_eq/=. apply Forall_app.
    split; [done|]. constructor; [by right|done].
Qed.

Lemma visit_all_no_shell rec vc nodes st v :
  Forall no_shell nodes -> exists r, visit_all print parse rec vc nodes st v = Some (r, v)
  /\ forall st', r = Some st' ->
      Forall (fun s => s ∈ ws_cmdSubsts st \/ CmdSubst s ∈ nodes) (ws_cmdSubsts st').
Proof.
  intros H. revert st. induction H as [|n nodes Hn H IH]; intros st; cbn [visit_all].
  { eexists. split; [done|]. intros st' [= <-]. apply Forall_forall. by left. }
  destruct (visit_no_shell rec vc n st v Hn) as (r & Hr & Hs). unfold fbind. rewrite Hr.
  destruct r as [st1|]; [|by eexists; split].
  destruct (IH st1) as (r & Hr' & Hs'). exists r. split; [done|]. intros st' ->.
  specialize (Hs' _ eq_refl). specialize (Hs _ eq_refl). rewrite Forall_forall in *.
  intros s Hin. destruct (Hs' s Hin) as [Hin'|Hin'].
  - destruct (Hs s Hin') as [?|E]; [by left|right; apply elem_of_cons; by left].
  - right. apply elem_of_cons. by right.
Qed.

Lemma validate_substs_total rec vc substs v :
  (forall s v, s ∈ substs -> is_Some (rec s (clone vc) v)) ->
  is_Some (validate_substs rec vc substs v).
Proof.
  revert v. induction substs as [|s substs IH]; intros v H; cbn [validate_substs]; [done|].
  unfold fbind. destruct (H s v) as [[[] v1] ->]; [apply elem_of_cons; by left| |done].
  apply IH. intros. apply H. apply elem_of_cons. by right.
Qed.

Lemma validate_commands_total rules vc commands v :
  is_Some (validate_commands print guardEnv rules vc commands v).
Proof.
  revert v. induction commands as [|a commands IH]; intros v; cbn [validate_commands]; [done|].
  case_bool_decide; [done|]. unfold fbind, lift.
  destruct (matchBashSegment _ _ _ _ _ _ v) as [[] v1]; [apply IH|done].
Qed.

Lemma validateParsedStmt_total rules rec stmt depth vc v :
  shell_free stmt ->
  (forall s vc v, depth < maxCmdSubstDepth -> Forall shell_free s -> is_Some (rec s vc v)) ->
  is_Some (validate_stmt rules rec stmt depth vc v).
Proof.
  intros Hf Hrec. unfold validateParsedStmt, fbind at 1.
  destruct (visit_all_no_shell rec vc (walk stmt_descend stmt) walk_start v) as (r & -> & Hs).
  { apply Forall_forall. intros n Hn. by eapply shell_free_visits. }
  destruct r as [st|]; [|done]. specialize (Hs _ eq_refl).
  destruct (ws_hasContent st); cbn [negb]; [|done].
  destruct (maxCmdSubstDepth <=? depth) eqn:Ed; [done|]. apply Nat.leb_gt in Ed.
  unfold fbind. destruct (validate_substs_total rec vc (ws_cmdSubsts st) v) as [[[] v1] ->].
  - intros s u Hin. apply Hrec; [done|]. rewrite Forall_forall in Hs.
    destruct (Hs s Hin) as [?%elem_of_nil|Hn]; [done|].
    apply shell_free_subst. by eapply shell_free_visits.
  - cbn [negb]. destruct (stmtHasBraceLiteral print stmt); [done|]. apply validate_commands_total.
  - done.
Qed.

Lemma validate_stmts_total rules rec depth stmts vc v :
  Forall shell_free stmts ->
  (forall s vc v, depth < maxCmdSubstDepth -> Forall shell_free s -> is_Some (rec s vc v)) ->
  is_Some (validate_stmts print parse guardEnv rules rec depth stmts vc v).
Proof.
  intros Hf Hrec. revert vc v. induction Hf as [|s stmts Hs Hf IH]; intros vc v;
    cbn [validate_stmts]; [done|]. unfold fbind.
  destruct (validateParsedStmt_total rules rec s depth (markComplexAssignments s (clone vc)) v)
    as [[[] v1] ->]; [done..|apply IH|done].
Qed.

Lemma validate_total rules fuel depth stmts vc v :
  maxCmdSubstDepth < fuel + depth -> 0 < fuel -> Forall shell_free stmts ->
  is_Some (validate rules fuel stmts depth vc v).
Proof.
  revert depth stmts vc v. induction fuel as [|fuel IH]; intros depth stmts vc v Hd Hf Hs; [lia|].
  cbn [validateParsedCommand]. destruct (exportedChangeBeforeCommand _ _); [done|].
  apply validate_stmts_total; [done|]. intros s c u Hlt Hsf. apply IH; [lia|lia|done].
Qed.
(** ** Redirects the walk ignores *)

Lemma visit_all_skip rec vc extra l1 l2 st v :
  (forall n st v, n ∈ extra -> visit print parse rec vc n st v = Some (Some st, v)) ->
  visit_all print parse rec vc (l1 ++ extra ++ l2) st v
  = visit_all print parse rec vc (l1 ++ l2) st v.
Proof.
  intros H. revert st v. induction l1 as [|n l1 IH]; intros st v; cbn [app].
  - induction extra as [|n extra IHe]; [done|]. cbn [app visit_all]. unfold fbind.
    rewrite H by (apply elem_of_cons; by left). apply IHe.
    intros m st' v' Hm. apply H. apply elem_of_cons. by right.
  - cbn [visit_all]. unfold fbind. destruct (visit _ _ _ _ _ _ _) as [[[st'|] v']|]; done.
Qed.

Lemma walk_stmt_redirect d cmd op f redirs :
  (forall n, match n with CallExpr _ _ _ _ | CmdSubst _ => True | _ => d n = true end) ->
  walk d (Stmt cmd (Redirect op (Some [Lit f]) [] :: redirs))
  = Stmt cmd (Redirect op (Some [Lit f]) [] :: redirs)
    :: flat_map (walk d) (option_list cmd)
       ++ [Redirect op (Some [Lit f]) []; Word [Lit f]; Lit f] ++ flat_map (walk d) redirs.
Proof.
  intros H. rewrite walk_eq. rewrite (H (Stmt _ _)). f_equal. cbn [children].
  rewrite flat_map_app. f_equal. cbn [flat_map]. f_equal.
  rewrite walk_eq, (H (Redirect _ _ _)). cbn [children word_node app flat_map].
  rewrite walk_eq, (H (Word _)). cbn [children flat_map].
  by rewrite walk_lit.
Qed.

Lemma walk_stmt d cmd redirs :
  d (Stmt cmd redirs) = true ->
  walk d (Stmt cmd redirs)
  = Stmt cmd redirs :: flat_map (walk d) (option_list cmd) ++ flat_map (walk d) redirs.
Proof. intros H. rewrite walk_eq, H. cbn [children]. by rewrite flat_map_app. Qed.

Lemma exported_skip_redirect cmd op f redirs env :
  exportedChangeBeforeCommand [Stmt cmd (Redirect op (Some [Lit f]) [] :: redirs)] env
  = exportedChangeBeforeCommand [Stmt cmd redirs] env.
Proof.
  unfold exportedChangeBeforeCommand, collect. cbv zeta. rewrite !collect_app.
  cbn [flat_map]. rewrite !app_nil_r. unfold walk_all.
  rewrite walk_stmt_redirect by (by intros []). rewrite walk_stmt by done.
  cbn [app flat_map node_facts no_env_facts ef_loops ef_changes ef_commandEnds].
  by rewrite !flat_map_app.
Qed.

Lemma mark_skip_redirect cmd op f redirs vc :
  markComplexAssignments (Stmt cmd (Redirect op (Some [Lit f]) [] :: redirs)) vc
  = markComplexAssignments (Stmt cmd redirs) vc.
Proof.
  assert (fold_left mark_node (walk_all (Stmt cmd (Redirect op (Some [Lit f]) [] :: redirs))) vc
    = fold_left mark_node (walk_all (Stmt cmd redirs)) vc) as H.
  { unfold walk_all. rewrite walk_stmt_redirect by (by intros []). rewrite walk_stmt by done.
    cbn [fold_left mark_node]. rewrite !fold_left_app. by cbn [fold_left mark_node app]. }
  unfold markComplexAssignments. cbn [stmt_cmd]. by destruct cmd as [[]|].
Qed.

Lemma fbind_ext {A B} (m m' : F A) (k k' : A -> F B) v :
  m v = m' v -> (forall a u, k a u = k' a u) -> fbind m k v = fbind m' k' v.
Proof. intros E H. unfold fbind. rewrite E. by destruct (m' v) as [[a u]|]. Qed.

Lemma stmt_skip_redirect rules rec cmd op f redirs depth vc v :
  isOutputRedirect op = false -> litContainsBraceExpansion f = false ->
  validate_stmt rules rec (Stmt cmd (Redirect op (Some [Lit f]) [] :: redirs)) depth vc v
  = validate_stmt rules rec (Stmt cmd redirs) depth vc v.
Proof.
  intros Ho Hb. unfold validateParsedStmt.
  assert (visit_all print parse rec vc
            (walk stmt_descend (Stmt cmd (Redirect op (Some [Lit f]) [] :: redirs))) walk_start v
    = visit_all print parse rec vc (walk stmt_descend (Stmt cmd redirs)) walk_start v) as E1.
  { rewrite walk_stmt_redirect by (by intros []). rewrite walk_stmt by done.
    cbn [visit_all visit]. unfold fbind, fret. apply visit_all_skip.
    intros n st u Hn. repeat (apply elem_of_cons in Hn as [->|Hn]; [by cbn; rewrite ?Ho|]).
    by apply elem_of_nil in Hn. }
  assert (stmtHasBraceLiteral print (Stmt cmd (Redirect op (Some [Lit f]) [] :: redirs))
    = stmtHasBraceLiteral print (Stmt cmd redirs)) as E2.
  { unfold stmtHasBraceLiteral. rewrite walk_stmt_redirect by (by intros []).
    rewrite walk_stmt by done. cbn [existsb brace_literal orb]. rewrite !existsb_app.
    cbn [existsb app brace_literal orb]. by rewrite Hb. }
  apply fbind_ext; [done|]. intros [st|] u; [|done]. by rewrite E2.
Qed.

(** ** Resolved arguments *)

Lemma arg_parts_sound vc s w f q r :
  sound vc s -> arg_parts vc w f q = Some r -> arg_parts (exact s) w f q = Some r.
Proof.
  intros Hs. revert f q. induction w as [|part w IH]; intros f q H; [done|].
  destruct part; cbn [arg_parts] in *; try done.
  - by apply IH.
  - destruct (if Dollar then _ else _); [by apply IH|done].
  - destruct (resolveWordPart (Some vc) false (DblQuoted Parts)) as [t|] eqn:E; [|done].
    rewrite (resolveWordPart_sound vc s _ _ _ Hs E). by apply IH.
  - destruct (resolveParamExp vc p) as [t|] eqn:E; [|done].
    rewrite (resolveParamExp_sound vc s _ _ Hs E). by apply IH.
Qed.

Lemma resolveArgWord_sound vc s w ws :
  sound vc s -> resolveArgWord vc w = Some ws -> resolveArgWord (exact s) w = Some ws.
Proof.
  intros Hs. unfold resolveArgWord. destruct (arg_parts vc w no_facts false) as [[f q]|] eqn:E; [|done].
  by rewrite (arg_parts_sound vc s _ _ _ _ Hs E).
Qed.

Lemma mapM_resolve_sound vc s args resolved :
  sound vc s -> mapM (resolveArgWord vc) args = Some resolved ->
  mapM (resolveArgWord (exact s)) args = Some resolved.
Proof.
  intros Hs. rewrite !mapM_Some. intros H. eapply Forall2_impl; [exact H|].
  intros w ws. by apply resolveArgWord_sound.
Qed.
End approval.

(** ** Properties *)

(** C1: An approval covers everything it lets run.  Every node the evaluation
    can reach, through statements, command substitutions and statically known
    -c scripts at any depth, was checked: no [>], [>>], [>|], [&>] or [&>>]
    redirect except to /dev/null, no process substitution, function or
    coprocess, no environment prefix, no dangerous variable, and every simple
    command is accepted by the segment check against the rules.  The other
    redirects ([<], [<>], [<&], [>&], here-documents) are let through whatever
    their target, which for [>& file] and [<> file] is a file that the shell
    opens for writing ([dup_redirect_ignored]). *)
Theorem approval_covers (print : WordParts -> gostr) (parse : gostr -> option (list Node))
    (guardEnv : Env) (rules : list Rule) (fuel : nat) (input : option json) (env : environ)
    (reason : gostr) (stmts : list Node) (n : Node) (vc : varCtx) :
  matchBashAutoApprove print parse guardEnv rules fuel input env = Some (true, reason) ->
  parse (extractMatchString "Bash" input) = Some stmts ->
  visited parse stmts (newVarCtx env) n vc ->
  node_ok print parse guardEnv rules n vc.
Proof.
  unfold matchBashAutoApprove. intros H Hp Hv. case_bool_decide; [done|]. rewrite Hp in H.
  destruct (validateParsedCommand _ _ _ _ _ _ _ _ _) as [[[] v]|] eqn:E; try done.
  by eapply approved_visited.
Qed.

(** Adding rules never takes an approval away. *)
Theorem approval_monotone (print : WordParts -> gostr) (parse : gostr -> option (list Node))
    (guardEnv : Env) (rules rules' : list Rule) (fuel : nat) (input : option json) (env : environ)
    (reason : gostr) :
  rules ⊆ rules' ->
  matchBashAutoApprove print parse guardEnv rules fuel input env = Some (true, reason) ->
  matchBashAutoApprove print parse guardEnv rules' fuel input env = Some (true, reason).
Proof.
  intros Hr. unfold matchBashAutoApprove. case_bool_decide; [done|].
  destruct (parse _) as [stmts|]; [|done].
  destruct (validateParsedCommand _ _ _ rules _ _ _ _ _) as [[[] v]|] eqn:E; try done.
  intros Hres. by rewrite (validate_mono _ _ _ _ rules' _ fuel _ _ _ _ _ Hr (le_n _) E).
Qed.

(** C35: The evaluation of a command that invokes no shell returns: four nested
    statement lists are all it can enter, whatever the rules, the guard and
    the variables are. *)
Theorem evaluation_returns (print : WordParts -> gostr) (parse : gostr -> option (list Node))
    (guardEnv : Env) (rules : list Rule) (input : option json) (env : environ) :
  (forall stmts, parse (extractMatchString "Bash" input) = Some stmts -> Forall shell_free stmts) ->
  is_Some (matchBashAutoApprove print parse guardEnv rules 4 input env).
Proof.
  intros H. unfold matchBashAutoApprove. case_bool_decide; [done|].
  destruct (parse _) as [stmts|] eqn:E; [|done].
  destruct (validate_total print parse guardEnv rules 4 0 stmts (newVarCtx env) no_veto)
    as [[[] v] ->]; [unfold maxCmdSubstDepth; lia|lia|by apply H|done..].
Qed.

(** *** Concrete commands *)

Definition call (args : list WordParts) : Node := Stmt (Some (CallExpr 0 1 [] args)) [].
Definition lits (ws : list gostr) : list WordParts := (fun w => [Lit w]) <$> ws.
Definition bash_input (command : gostr) : option json :=
  Some (JObject [("command", JString command)]).

(** A parser and a printer that know one command line: enough to evaluate the
    decision on it. *)
Definition parse_one (command : gostr) (stmts : list Node) (s : gostr) : option (list Node) :=
  if bool_decide (s = command) then Some stmts else None.
Definition print_lits (w : WordParts) : gostr := word_Lit w.

Definition safe_env : Env := MkEnv (fun _ => false) ["/usr/bin"] (fun _ => true) None "/home/a" false.

Definition ls_tree : list Node := [call (lits ["ls"; "-la"])].

Example approval_covers_witness :
  node_ok print_lits (parse_one "ls -la" ls_tree) safe_env [MkRule "Bash" "ls" false]
    (CallExpr 0 1 [] (lits ["ls"; "-la"])) (newVarCtx ∅).
Proof.
  apply (approval_covers print_lits (parse_one "ls -la" ls_tree) safe_env
           [MkRule "Bash" "ls" false] 4 (bash_input "ls -la") ∅ [] ls_tree);
    [vm_compute; reflexivity|reflexivity|].
  apply (visited_here _ [] (call (lits ["ls"; "-la"])) []).
  apply elem_of_walk. eapply visits_child; [reflexivity|apply elem_of_cons; by left|constructor].
Defined.

Example approval_monotone_witness :
  matchBashAutoApprove print_lits (parse_one "ls -la" ls_tree) safe_env
    [MkRule "Bash" "cat" false; MkRule "Bash" "ls" false] 4 (bash_input "ls -la") ∅
  = Some (true, []).
Proof.
  apply (approval_monotone _ _ _ [MkRule "Bash" "ls" false]); [|vm_compute; reflexivity].
  set_solver.
Defined.

Example evaluation_returns_witness :
  is_Some (matchBashAutoApprove print_lits (parse_one "ls -la" ls_tree) safe_env [] 4
             (bash_input "ls -la") ∅).
Proof.
  apply evaluation_returns. intros stmts. intros E. vm_compute in E. simplify_eq.
  apply Forall_singleton. unfold shell_free, walk_all. cbn [walk]. by repeat constructor.
Defined.

(** C2: When a flag-checked command is approved and an argument refers to a
    variable, the arguments were judged with their real values: for every
    shell store that the context describes soundly, each argument word
    resolves in that store, and the resulting argument vector passes the flag
    check. *)
Theorem approved_arguments_safe (print : WordParts -> gostr) (guardEnv : Env)
    (rules : list Rule) (segment : gostr) (args : list WordParts) (vc : varCtx)
    (s : gmap gostr gostr) (v v' : vetoNote) (w0 : shellWord) (ws : list shellWord) :
  matchBashSegment print guardEnv rules segment args vc v = (true, v') ->
  sound vc s ->
  existsb wordHasParamExp (tail args) = true ->
  scanShellWords segment = w0 :: ws -> flagCheckedCommand (base (w_visible w0)) = true ->
  exists resolved, mapM (resolveArgWord (exact s)) (tail args) = Some resolved
    /\ containsUnsafeFlagWords (w0 :: concat resolved) = false.
Proof.
  unfold matchBashSegment, vbind. intros H Hs Hp Hw Hf.
  destruct (commandWordUnsafe _ _ _ _ v) as [[] v1]; [done|].
  destruct (containsUnsafeFlags segment); [done|].
  destruct (expandedArgsUnsafe args segment vc) eqn:E; [done|]. clear H.
  unfold expandedArgsUnsafe in E. rewrite Hp, Hw in E. cbn [negb] in E.
  unfold visibleCmdBase in E. rewrite Hf in E. cbn [negb] in E.
  destruct (negb (length args =? length (w0 :: ws))); [done|].
  unfold resolvedArgsUnsafe in E. rewrite Hf in E. cbn [negb] in E.
  destruct (mapM (resolveArgWord vc) (tail args)) as [resolved|] eqn:Em; [|done].
  exists resolved. split; [by eapply mapM_resolve_sound|done].
Qed.

(** [rg foo $X] with X known to be "src". *)
Definition rg_args : list WordParts := [[Lit "rg"]; [Lit "foo"]; ref_word "X"].
Definition print_rg (w : WordParts) : gostr :=
  match w with [ParamExp _ _ _] => "$X" | _ => word_Lit w end.
Definition rg_ctx : varCtx := newVarCtx {["X" := "src"]}.

Example approved_arguments_safe_witness :
  exists resolved, mapM (resolveArgWord (exact {["X" := "src"]})) (tail rg_args) = Some resolved
    /\ containsUnsafeFlagWords (plain_word "rg" :: concat resolved) = false.
Proof.
  apply (approved_arguments_safe print_rg safe_env [MkRule "Bash" "rg" false] "rg foo $X"
           rg_args rg_ctx {["X" := "src"]} no_veto no_veto (plain_word "rg")
           [plain_word "foo"; plain_word "$X"]); try (vm_compute; reflexivity).
  apply sound_start.
Defined.

(** ** Where the verdict is not the one the shell calls for *)

(** A redirect with an operator that is not in the output list never
    changes the verdict on a statement.  That list leaves out [>&], so
    [cmd >& file], which in bash writes standard output and error to the file,
    is approved whenever [cmd] is. *)
Theorem dup_redirect_ignored (print : WordParts -> gostr) (parse : gostr -> option (list Node))
    (guardEnv : Env) (rules : list Rule) (fuel depth : nat) (vc : varCtx) (v : vetoNote)
    (cmd : option Node) (file : gostr) (redirs : list Node) :
  litContainsBraceExpansion file = false ->
  validateParsedCommand print parse guardEnv rules fuel
    [Stmt cmd (Redirect DplOut (Some [Lit file]) [] :: redirs)] depth vc v
  = validateParsedCommand print parse guardEnv rules fuel [Stmt cmd redirs] depth vc v.
Proof.
  intros Hb. destruct fuel as [|fuel]; [done|]. cbn [validateParsedCommand].
  rewrite exported_skip_redirect. destruct (exportedChangeBeforeCommand _ _); [done|].
  cbn [validate_stmts]. rewrite mark_skip_redirect.
  apply fbind_ext; [by apply stmt_skip_redirect|done].
Qed.

Example dup_redirect_ignored_witness :
  validateParsedCommand print_lits (parse_one [] []) safe_env [MkRule "Bash" "echo" false] 4
    [Stmt (Some (CallExpr 0 1 [] (lits ["echo"; "x"])))
       [Redirect DplOut (Some [Lit "/home/a/.profile"]) []]] 0 (newVarCtx ∅) no_veto
  = Some (true, no_veto).
Proof. rewrite dup_redirect_ignored; vm_compute; reflexivity. Defined.

(** The script word ["$X"] and the command [bash -c "$X"]. *)
Definition dq : ascii := "034"%char.
Definition quoted_ref (name : gostr) : WordParts :=
  [DblQuoted [ParamExp 0 (simple_param name) []]].
Definition bash_c_x : Node := call [[Lit "bash"]; [Lit "-c"]; quoted_ref "X"].

(** The text of that command. *)
Definition self_script : gostr := "bash -c " ++ [dq] ++ "$X" ++ [dq].

Definition assign_quoted (name value : gostr) : Node :=
  Stmt (Some (CallExpr 0 0 [MkAssign false false (Some name) false (Some [SglQuoted false value]) []] [])) [].

Section scripts.
  Context (print : WordParts -> gostr) (parse : gostr -> option (list Node)) (guardEnv : Env).
  Context (rules : list Rule).
  (** The printer renders the quoted reference as it was written. *)
  Hypothesis print_ref : print (quoted_ref "X") = [dq] ++ "$X" ++ [dq].

  Local Abbreviation validate := (validateParsedCommand print parse guardEnv rules).

Lemma resolve_quoted_x vc s :
  lookup_var vc "X" = Some s -> resolveStaticWord (Some vc) (quoted_ref "X") = Some s.
Proof.
  intros H. unfold resolveStaticWord, quoted_ref. cbn [resolve_all resolveWordPart].
  rewrite resolve_simple, H by done. cbn. by rewrite !app_nil_r.
Qed.

Lemma resolveArg_quoted_x vc s :
  lookup_var vc "X" = Some s ->
  exists w ws, resolveArgWord vc (quoted_ref "X") = Some (w :: ws) /\ w_visible w = s.
Proof.
  intros H. unfold resolveArgWord, quoted_ref. cbn [arg_parts resolveWordPart resolve_all].
  rewrite resolve_simple, H by done. cbn [fmap option_fmap option_map].
  rewrite app_nil_r. unfold takeWords, addQuoted. cbn.
  case_bool_decide; subst; cbn; eauto.
Qed.

(** The walk of [bash -c "$X"] with X holding a script that is no option. *)
Lemma bash_c_x_visit rec vc s st v :
  lookup_var vc "X" = Some s -> s <> [] -> has_prefix "-" s = false -> has_prefix "+" s = false ->
  visit_all print parse rec vc (walk stmt_descend bash_c_x) st v
  = match parse s with
    | None => Some (None, v)
    | Some inner =>
        match rec inner vc v with
        | None => None
        | Some (true, v') => Some (Some (add_content st), v')
        | Some (false, v') => Some (None, v')
        end
    end.
Proof.
  intros Hl Hne Hm Hp.
  assert (walk stmt_descend bash_c_x
    = [bash_c_x; CallExpr 0 1 [] [[Lit "bash"]; [Lit "-c"]; quoted_ref "X"]]) as -> by reflexivity.
  cbn [visit_all]. unfold fbind at 1. cbn [visit bash_c_x call fret]. unfold fret at 1.
  set (args := [[Lit "bash"]; [Lit "-c"]; quoted_ref "X"]).
  assert (interceptorWord args = true) as -> by reflexivity.
  change (prefixed [] args) with false. cbn [existsb].
  unfold visit_script.
  assert (extractShellScript args = Some (quoted_ref "X")) as -> by reflexivity.
  assert (scriptWordUnsafe (quoted_ref "X") vc = false) as ->.
  { unfold scriptWordUnsafe. change (wordIsLiteralText (quoted_ref "X")) with false. cbv iota.
    destruct (resolveArg_quoted_x vc s Hl) as (w & ws & -> & ->). by rewrite Hm, Hp. }
  assert (printedWordHasLiveBrace print (quoted_ref "X") = false) as ->.
  { unfold printedWordHasLiveBrace. rewrite print_ref. reflexivity. }
  rewrite (resolve_quoted_x vc s Hl).
  destruct s as [|c s]; [done|]. destruct (parse (c :: s)) as [inner|]; [|done].
  unfold fbind, clone. by destruct (rec inner vc v) as [[[] v']|].
Qed.

Lemma bash_c_x_static env :
  exportedChangeBeforeCommand [bash_c_x] env = false
  /\ stmtHasBraceLiteral print bash_c_x = false.
Proof. split; reflexivity. Qed.

Lemma self_script_loops fuel depth vc v :
  parse self_script = Some [bash_c_x] -> lookup_var vc "X" = Some self_script ->
  validate fuel [bash_c_x] depth vc v = None.
Proof.
  intros Hp. revert depth vc v. induction fuel as [|fuel IH]; intros depth vc v Hl; [done|].
  cbn [validateParsedCommand]. rewrite (proj1 (bash_c_x_static _)).
  cbn [validate_stmts]. unfold fbind at 1, validateParsedStmt, fbind at 1.
  change (markComplexAssignments bash_c_x (clone vc)) with vc.
  rewrite (bash_c_x_visit _ _ self_script) by done. rewrite Hp. by rewrite IH.
Qed.

(** The assignment [X='value'] is accepted and recorded. *)
Lemma assign_x_ok rec value vc v :
  validateParsedStmt print parse guardEnv rules rec (assign_quoted "X" value) 0 vc v
  = Some (true, v).
Proof. reflexivity. Qed.

Lemma assign_x_update value vc :
  updateVarCtx (assign_quoted "X" value) vc = set_known "X" value vc.
Proof. unfold updateVarCtx, updateAssign. cbn -[set_known]. by rewrite app_nil_r. Qed.

Lemma lookup_known_x value vc : lookup_var (set_known "X" value vc) "X" = Some value.
Proof. rewrite lookup_set_known. by rewrite bool_decide_eq_true_2. Qed.
End scripts.

(** Only an inherited X would be an exported change. *)
Lemma assign_x_not_exported (value : gostr) (env : environ) (rest : list Node) :
  env !! "X" = None -> ef_changes (collect (fun name => bool_decide (is_Some (env !! name)))
                                     (flat_map walk_all rest)) = [] ->
  exportedChangeBeforeCommand (assign_quoted "X" value :: rest) env = false.
Proof.
  intros He Hr. unfold exportedChangeBeforeCommand. cbv zeta.
  set (inEnv := fun name : gostr => bool_decide (is_Some (env !! name))) in *.
  assert (ef_changes (collect inEnv (flat_map walk_all (assign_quoted "X" value :: rest))) = [])
    as ->; [|done].
  unfold collect in *. rewrite collect_app in *. cbn [ef_changes no_env_facts app] in *.
  cbn [flat_map]. rewrite flat_map_app, Hr, app_nil_r.
  cbn. unfold inEnv. rewrite He. done.
Qed.

(** Nothing bounds the unwrapping of -c scripts.  On
    [X='bash -c "$X"'; bash -c "$X"] the script of every level is the command
    itself, the depth limit is consulted only after the walk that recurses, and
    so the evaluation returns for no amount of fuel. *)
Theorem self_script_diverges (print : WordParts -> gostr) (parse : gostr -> option (list Node))
    (guardEnv : Env) (rules : list Rule) (env : environ) (fuel : nat) (v : vetoNote) :
  print (quoted_ref "X") = [dq] ++ "$X" ++ [dq] ->
  parse self_script = Some [bash_c_x] ->
  env !! "X" = None ->
  validateParsedCommand print parse guardEnv rules fuel
    [assign_quoted "X" self_script; bash_c_x] 0 (newVarCtx env) v = None.
Proof.
  intros Hpr Hp He. destruct fuel as [|fuel]; [done|]. cbn [validateParsedCommand].
  rewrite assign_x_not_exported by (done || reflexivity).
  cbn [validate_stmts]. unfold fbind at 1. rewrite assign_x_ok, assign_x_update.
  unfold fbind at 1, validateParsedStmt, fbind at 1.
  set (vc := set_known _ _ _).
  change (markComplexAssignments bash_c_x (clone vc)) with vc.
  rewrite (bash_c_x_visit _ _ Hpr _ vc self_script) by (done || apply lookup_known_x).
  rewrite Hp. by rewrite self_script_loops by (done || apply lookup_known_x).
Qed.

Definition print_ref (w : WordParts) : gostr :=
  match w with [DblQuoted _] => [dq] ++ "$X" ++ [dq] | _ => word_Lit w end.

Example self_script_diverges_witness :
  validateParsedCommand print_ref (parse_one self_script [bash_c_x]) safe_env
    [MkRule "Bash" "ls" false] 100 [assign_quoted "X" self_script; bash_c_x] 0
    (newVarCtx ∅) no_veto = None.
Proof. apply self_script_diverges; reflexivity. Defined.

Lemma validate_S print parse guardEnv rules fuel stmts depth vc v :
  validateParsedCommand print parse guardEnv rules (S fuel) stmts depth vc v
  = (if exportedChangeBeforeCommand stmts (environment vc) then fret false
     else validate_stmts print parse guardEnv rules
            (fun stmts vc => validateParsedCommand print parse guardEnv rules fuel stmts (S depth) vc)
            depth stmts vc) v.
Proof. done. Qed.

(** The block [{ X='value'; }]. *)
Definition block_assign (value : gostr) : Node := Stmt (Some (OtherNode [assign_quoted "X" value])) [].

(** The command [ls] under the rule for ls. *)
Lemma ls_segment print guardEnv vc v :
  f_sub (Substitutable "ls" guardEnv) = false ->
  matchBashSegment print guardEnv [MkRule "Bash" "ls" false] "ls" (lits ["ls"]) vc v = (true, v).
Proof.
  intros Hg. unfold matchBashSegment, vbind.
  assert (commandWordUnsafe guardEnv (lits ["ls"]) "ls" vc v = (false, v)) as -> by reflexivity.
  change (containsUnsafeFlags "ls") with false.
  change (expandedArgsUnsafe (lits ["ls"]) "ls" vc) with false. cbv beta iota.
  assert (wrappedCommandUnsafe print guardEnv (lits ["ls"]) "ls" vc v = (false, v)) as ->
    by reflexivity.
  change (commandWordSubstitutable guardEnv (lits ["ls"]) "ls") with (Substitutable "ls" guardEnv).
  unfold veto_if. rewrite Hg. reflexivity.
Qed.

(** A statement that is one bare command name is judged by its segment. *)
Lemma bare_command_verdict print parse guardEnv rules fuel depth name vc v :
  print [Lit name] = name -> name <> [] -> interceptorWord (lits [name]) = false ->
  commandNameUnsafe (commandBaseName (lits [name])) false true = false ->
  litContainsBraceExpansion name = false -> depth < maxCmdSubstDepth ->
  validateParsedCommand print parse guardEnv rules (S fuel) [call (lits [name])] depth vc v
  = Some (matchBashSegment print guardEnv rules name (lits [name]) vc v).
Proof.
  intros Hpr Hne Hi Hn Hb Hd. rewrite validate_S.
  assert (exportedChangeBeforeCommand [call (lits [name])] (environment vc) = false) as ->
    by reflexivity.
  cbn [validate_stmts]. unfold fbind at 1, validateParsedStmt, fbind at 1.
  change (markComplexAssignments (call (lits [name])) (clone vc)) with vc.
  set (rec := fun _ _ => _).
  assert (walk stmt_descend (call (lits [name]))
    = [call (lits [name]); CallExpr 0 1 [] (lits [name]); Word [Lit name]; Lit name]) as ->.
  { unfold call. rewrite walk_stmt by done.
    change (option_list (Some (CallExpr 0 1 [] (lits [name])))) with [CallExpr 0 1 [] (lits [name])].
    cbn [flat_map]. rewrite walk_eq. cbn [stmt_descend]. rewrite Hi. reflexivity. }
  assert (visit_all print parse rec vc
    [call (lits [name]); CallExpr 0 1 [] (lits [name]); Word [Lit name]; Lit name] walk_start v
          = Some (Some (WalkState [lits [name]] [] true), v)) as ->.
  { cbn [visit_all visit call]. unfold fbind, fret. rewrite Hi.
    change (prefixed [] (lits [name])) with false. cbn [existsb].
    change (1 <? length (lits [name])) with false. by rewrite Hn. }
  cbn [ws_hasContent negb ws_cmdSubsts validate_substs ws_commands].
  apply Nat.leb_gt in Hd. rewrite Hd. unfold fbind at 1, fret at 1.
  assert (callExprCmdString print (lits [name]) = name) as Hc by (cbn; by rewrite Hpr).
  assert (stmtHasBraceLiteral print (call (lits [name])) = false) as ->.
  { unfold stmtHasBraceLiteral, call. rewrite walk_stmt by done.
    change (option_list (Some (CallExpr 0 1 [] (lits [name])))) with [CallExpr 0 1 [] (lits [name])].
    cbn [flat_map existsb brace_literal orb]. rewrite !app_nil_r, walk_eq.
    destruct (brace_descend _ _); cbn -[litContainsBraceExpansion]; rewrite ?Hb; done. }
  cbn [negb validate_commands]. rewrite Hc, bool_decide_eq_false_2 by done. unfold fbind, lift.
  destruct (matchBashSegment _ _ _ _ _ _ _) as [[] v']; done.
Qed.

Lemma ls_accepted print parse guardEnv fuel vc v :
  print [Lit "ls"] = "ls" -> f_sub (Substitutable "ls" guardEnv) = false ->
  validateParsedCommand print parse guardEnv [MkRule "Bash" "ls" false] (S fuel)
    [call (lits ["ls"])] 1 vc v = Some (true, v).
Proof.
  intros Hls Hg. rewrite bare_command_verdict by (done || unfold maxCmdSubstDepth; lia).
  by rewrite ls_segment.
Qed.

(** An assignment inside a compound statement is forgotten once the
    statement ends.  [X='ls'; { X='value'; }; bash -c "$X"] is approved by the
    rule for ls whatever the value is, although the shell runs the value. *)
Theorem compound_change_missed (print : WordParts -> gostr) (parse : gostr -> option (list Node))
    (guardEnv : Env) (env : environ) (value : gostr) (v : vetoNote) :
  print (quoted_ref "X") = [dq] ++ "$X" ++ [dq] -> print [Lit "ls"] = "ls" ->
  parse "ls" = Some [call (lits ["ls"])] ->
  f_sub (Substitutable "ls" guardEnv) = false ->
  env !! "X" = None ->
  validateParsedCommand print parse guardEnv [MkRule "Bash" "ls" false] 2
    [assign_quoted "X" "ls"; block_assign value; bash_c_x] 0 (newVarCtx env) v = Some (true, v)
  /\ resolveStaticWord (Some (exact (<["X" := value]> env))) (quoted_ref "X") = Some value.
Proof.
  intros Hpr Hls Hp Hg He. split.
  - rewrite validate_S.
    assert (exportedChangeBeforeCommand [assign_quoted "X" "ls"; block_assign value; bash_c_x] env
            = false) as Hexp.
    { apply assign_x_not_exported; [done|]. cbn. by rewrite He. }
    cbn [environment newVarCtx]. rewrite Hexp. cbn [validate_stmts]. unfold fbind at 1.
    rewrite assign_x_ok, assign_x_update.
    set (vc := set_known _ _ _). unfold fbind at 1.
    assert (forall rec vc', validateParsedStmt print parse guardEnv [MkRule "Bash" "ls" false]
              rec (block_assign value) 0 vc' v = Some (true, v)) as -> by reflexivity.
    change (updateVarCtx (block_assign value) vc) with vc.
    unfold fbind at 1, validateParsedStmt at 1, fbind at 1.
    change (markComplexAssignments bash_c_x (clone vc)) with vc.
    rewrite (bash_c_x_visit _ _ Hpr _ vc "ls") by (done || apply lookup_known_x).
    rewrite Hp, ls_accepted by done. done.
  - apply resolve_quoted_x. rewrite lookup_exact. by rewrite lookup_insert_eq.
Qed.

Example compound_change_missed_witness :
  validateParsedCommand print_ref (parse_one "ls" [call (lits ["ls"])]) safe_env
    [MkRule "Bash" "ls" false] 2
    [assign_quoted "X" "ls"; block_assign "rm -rf /home"; bash_c_x] 0 (newVarCtx ∅) no_veto
    = Some (true, no_veto)
  /\ resolveStaticWord (Some (exact (<["X" := "rm -rf /home"]> ∅))) (quoted_ref "X")
    = Some "rm -rf /home".
Proof. apply compound_change_missed; reflexivity. Defined.

(** The reason for a denial does not depend on any rule having matched:
    with no rules at all, a command whose executable the guard refuses is
    denied with a non-empty reason, whose text says that a rule matched. *)
Theorem veto_reason_without_rule (print : WordParts -> gostr)
    (parse : gostr -> option (list Node)) (guardEnv : Env) (env : environ) :
  print [Lit "mdq"] = "mdq" -> parse "mdq" = Some [call (lits ["mdq"])] ->
  f_sub (Substitutable "mdq" guardEnv) = true ->
  exists reason, reason <> []
    /\ matchBashAutoApprove print parse guardEnv [] 1 (bash_input "mdq") env
       = Some (false, reason).
Proof.
  intros Hpr Hp Hg. unfold matchBashAutoApprove.
  change (extractMatchString "Bash" (bash_input "mdq")) with ("mdq" : gostr).
  rewrite bool_decide_eq_false_2, Hp by done.
  rewrite bare_command_verdict by (done || unfold maxCmdSubstDepth; lia).
  assert (matchBashSegment print guardEnv [] "mdq" (lits ["mdq"]) (newVarCtx env) no_veto
    = (false, MkVeto "mdq" (f_path (Substitutable "mdq" guardEnv))
                (f_reason (Substitutable "mdq" guardEnv)))) as ->.
  { unfold matchBashSegment, vbind.
    assert (commandWordUnsafe guardEnv (lits ["mdq"]) "mdq" (newVarCtx env) no_veto
            = (false, no_veto)) as -> by reflexivity.
    change (containsUnsafeFlags "mdq") with false.
    change (expandedArgsUnsafe (lits ["mdq"]) "mdq" (newVarCtx env)) with false. cbv beta iota.
    assert (wrappedCommandUnsafe print guardEnv (lits ["mdq"]) "mdq" (newVarCtx env) no_veto
            = (false, no_veto)) as -> by reflexivity.
    change (commandWordSubstitutable guardEnv (lits ["mdq"]) "mdq")
      with (Substitutable "mdq" guardEnv).
    unfold veto_if. rewrite Hg. reflexivity. }
  eexists. split; [|done]. unfold denialReason. cbn [v_reason].
  pose proof (Substitutable_reason "mdq" guardEnv) as Hr. unfold finding_ok in Hr.
  rewrite Hg in Hr. by rewrite bool_decide_eq_false_2.
Qed.

Definition writable_env : Env :=
  MkEnv (fun p => bool_decide (p = "/home/foci/bin/mdq")) ["/home/foci/bin"]
    (fun p => bool_decide (p = "/home/foci/bin/mdq")) None "/home/foci" false.

Example veto_reason_without_rule_witness : exists reason, reason <> []
  /\ matchBashAutoApprove print_lits (parse_one "mdq" [call (lits ["mdq"])]) writable_env [] 1
       (bash_input "mdq") ∅ = Some (false, reason).
Proof. apply veto_reason_without_rule; reflexivity. Defined.
