(* ===== verification/KeyedMutex.v ===== *)
(** * Mutual exclusion per key (package keyedmutex)

    [Map.Lock] and the unlock function it returns, run by any number of
    goroutines.  Each step is one critical section of the code: the map's own
    mutex makes the two map sections atomic, and an entry's mutex is a field
    of the entry.  Entries are heap objects, so that two goroutines could in
    principle hold different entries for one key. *)
From S2P Require Import Prelude.
From stdpp Require Import fin_maps.
Local Open Scope gostr_scope.

(** ** Model *)

Abbreviation goroutine := nat.
Abbreviation address := nat.

(** [entry]: its mutex (free or locked) and the count of holders and waiters. *)
Record entry := MkEntry { e_locked : bool; e_refs : nat }.

(** Where a goroutine is: waiting in [e.mu.Lock()], holding the lock, or in
    the unlock function between [e.mu.Unlock()] and the map section. *)
Inductive pc :=
| Waiting (key : gostr) (e : address)
| Holding (key : gostr) (e : address)
| Releasing (key : gostr) (e : address).

Definition pc_key (p : pc) : gostr :=
  match p with Waiting k _ | Holding k _ | Releasing k _ => k end.
Definition pc_entry (p : pc) : address :=
  match p with Waiting _ e | Holding _ e | Releasing _ e => e end.
Definition is_holding (p : pc) : bool := match p with Holding _ _ => true | _ => false end.

(** The map, the heap of entries, the next fresh address, and the goroutines
    inside [Lock] or between [Lock] and the end of unlock. *)
Record state := MkState {
  s_map : gmap gostr address;
  s_heap : gmap address entry;
  s_next : address;
  s_procs : gmap goroutine pc;
}.

Definition init : state := MkState ∅ ∅ 0 ∅.

(** The first section of [Lock]: find or make the entry and count the caller. *)
Definition lock_section (g : goroutine) (key : gostr) (s : state) : state :=
  match s_map s !! key with
  | Some a =>
      let e := default (MkEntry false 0) (s_heap s !! a) in
      MkState (s_map s) (<[a := MkEntry (e_locked e) (S (e_refs e))]> (s_heap s)) (s_next s)
        (<[g := Waiting key a]> (s_procs s))
  | None =>
      let a := s_next s in
      MkState (<[key := a]> (s_map s)) (<[a := MkEntry false 1]> (s_heap s)) (S (s_next s))
        (<[g := Waiting key a]> (s_procs s))
  end.

(** The map section of unlock. *)
Definition unlock_section (g : goroutine) (key : gostr) (a : address) (s : state) : state :=
  let e := default (MkEntry false 0) (s_heap s !! a) in
  let refs := pred (e_refs e) in
  MkState (if refs =? 0 then delete key (s_map s) else s_map s)
    (<[a := MkEntry (e_locked e) refs]> (s_heap s)) (s_next s) (delete g (s_procs s)).

(** One step of one goroutine. *)
Inductive step : state -> state -> Prop :=
| step_lock s g key : s_procs s !! g = None -> step s (lock_section g key s)
| step_acquire s g key a e :
    s_procs s !! g = Some (Waiting key a) -> s_heap s !! a = Some e -> e_locked e = false ->
    step s (MkState (s_map s) (<[a := MkEntry true (e_refs e)]> (s_heap s)) (s_next s)
              (<[g := Holding key a]> (s_procs s)))
| step_release s g key a e :
    s_procs s !! g = Some (Holding key a) -> s_heap s !! a = Some e ->
    step s (MkState (s_map s) (<[a := MkEntry false (e_refs e)]> (s_heap s)) (s_next s)
              (<[g := Releasing key a]> (s_procs s)))
| step_unlock s g key a :
    s_procs s !! g = Some (Releasing key a) -> step s (unlock_section g key a s).

Inductive reachable : state -> Prop :=
| reachable_init : reachable init
| reachable_step s s' : reachable s -> step s s' -> reachable s'.

(** ** The invariant *)

Definition uses (a : address) (p : pc) : bool := bool_decide (pc_entry p = a).
Definition holds (a : address) (p : pc) : bool := bool_decide (pc_entry p = a) && is_holding p.

Record inv (s : state) : Prop := Inv {
  (** A goroutine's entry is the one the map has for its key. *)
  inv_entry g p : s_procs s !! g = Some p -> s_map s !! pc_key p = Some (pc_entry p);
  (** The map's entries are distinct per key, allocated, counted exactly and in
      use, and an entry's mutex is locked exactly when one goroutine holds it. *)
  inv_inj k k' a : s_map s !! k = Some a -> s_map s !! k' = Some a -> k = k';
  inv_fresh k a : s_map s !! k = Some a -> a < s_next s;
  inv_heap k a : s_map s !! k = Some a -> exists e, s_heap s !! a = Some e
    /\ e_refs e = counted (uses a) (s_procs s) /\ 0 < e_refs e
    /\ counted (holds a) (s_procs s) = (if e_locked e then 1 else 0);
}.

(** ** Preservation *)

Lemma inv_init : inv init.
Proof. split; intros *; cbn; by rewrite ?lookup_empty. Qed.

Lemma inv_lock s g key : inv s -> s_procs s !! g = None -> inv (lock_section g key s).
Proof.
  intros [He Hi Hf Hh] Hg. unfold lock_section.
  destruct (s_map s !! key) as [a|] eqn:Em.
  - destruct (Hh key a Em) as (e & Hea & Hr & Hp & Hl). rewrite Hea. cbn [default from_option id].
    split; cbn [s_map s_heap s_next s_procs].
    + intros g' p. destruct (decide (g' = g)) as [->|Hne].
      * rewrite lookup_insert_eq. by intros [= <-].
      * rewrite lookup_insert_ne by done. apply He.
    + done.
    + done.
    + intros k b Hk. destruct (decide (b = a)) as [->|Hne].
      * rewrite lookup_insert_eq. eexists. split; [done|]. cbn [e_refs e_locked].
        rewrite !counted_insert_new by done. unfold uses at 1, holds at 1. cbn [pc_entry is_holding].
        rewrite bool_decide_eq_true_2 by done. cbn [b2n andb]. split_and!; [by rewrite Hr|lia|done].
      * rewrite lookup_insert_ne by done. destruct (Hh k b Hk) as (e' & ? & ? & ? & ?).
        exists e'. rewrite !counted_insert_new by done. unfold uses at 1, holds at 1. cbn [pc_entry].
        rewrite bool_decide_eq_false_2 by done. by cbn [b2n andb].
  - set (a := s_next s).
    assert (forall k b, s_map s !! k = Some b -> b <> a) as Hna by (intros k b Hk%Hf; unfold a; lia).
    assert (forall g p, s_procs s !! g = Some p -> pc_entry p <> a) as Hpa.
    { intros g' p Hp. by eapply Hna, He. }
    split; cbn [s_map s_heap s_next s_procs].
    + intros g' p. destruct (decide (g' = g)) as [->|Hne].
      * rewrite lookup_insert_eq. intros [= <-]. by rewrite lookup_insert_eq.
      * rewrite lookup_insert_ne by done. intros Hp. pose proof (He g' p Hp) as Hm.
        rewrite lookup_insert_ne; [done|]. congruence.
    + intros k k' b. rewrite !lookup_insert_Some. intros [[<- <-]|[Hk Hb]] [[<- E]|[Hk' Hb']];
        subst; try done; [by apply Hna in Hb'|by apply Hna in Hb|by eapply Hi].
    + intros k b. rewrite lookup_insert_Some. intros [[<- <-]|[Hk Hb]]; [lia|].
      apply Hf in Hb. lia.
    + intros k b. rewrite lookup_insert_Some. intros [[<- <-]|[Hk Hb]].
      * rewrite lookup_insert_eq. eexists. split; [done|]. cbn [e_refs e_locked].
        rewrite !counted_insert_new by done. unfold uses at 1, holds at 1. cbn [pc_entry is_holding].
        rewrite bool_decide_eq_true_2 by done. cbn [b2n andb].
        rewrite !counted_zero; [split_and!; [done|lia|done]|..];
          intros g' p Hp%Hpa; unfold uses, holds; by rewrite bool_decide_eq_false_2.
      * pose proof (Hna _ _ Hb). rewrite lookup_insert_ne by done.
        destruct (Hh k b Hb) as (e' & ? & ? & ? & ?). exists e'. rewrite !counted_insert_new by done.
        unfold uses at 1, holds at 1. cbn [pc_entry]. rewrite bool_decide_eq_false_2 by done.
        by cbn [b2n andb].
Qed.

(** A step that only moves a goroutine within its entry [a] and changes the
    lock bit of [a]. *)
Lemma inv_move s g p p' a (e : entry) locked :
  inv s -> s_procs s !! g = Some p -> pc_entry p = a -> pc_key p' = pc_key p -> pc_entry p' = a ->
  s_heap s !! a = Some e ->
  (if e_locked e then 1 else 0) + b2n (is_holding p') = b2n (is_holding p) + (if locked : bool then 1 else 0) ->
  inv (MkState (s_map s) (<[a := MkEntry locked (e_refs e)]> (s_heap s)) (s_next s)
         (<[g := p']> (s_procs s))).
Proof.
  intros [He Hi Hf Hh] Hg Ha Hk Ha' Hea Hcnt. split; cbn [s_map s_heap s_next s_procs]; try done.
  - intros g' q. destruct (decide (g' = g)) as [->|Hne].
    + rewrite lookup_insert_eq. intros [= <-]. rewrite Hk, Ha'. pose proof (He _ _ Hg) as Hm. by rewrite Ha in Hm.
    + rewrite lookup_insert_ne by done. apply He.
  - intros k b Hkb. destruct (Hh k b Hkb) as (e' & He' & Hr & Hp & Hl).
    pose proof (counted_replace (uses b) _ _ _ p' Hg) as Hu.
    pose proof (counted_replace (holds b) _ _ _ p' Hg) as Hd.
    unfold uses at 1 3 in Hu. unfold holds at 1 3 in Hd. rewrite Ha, Ha' in Hu, Hd.
    destruct (decide (b = a)) as [->|Hne].
    + rewrite lookup_insert_eq. eexists. split; [done|]. cbn [e_refs e_locked].
      rewrite bool_decide_eq_true_2 in Hu, Hd by done. cbn [andb b2n] in *.
      simplify_eq. split_and!; [lia|done|]. destruct (e_locked e), locked; cbn in *; lia.
    + rewrite lookup_insert_ne by done. rewrite bool_decide_eq_false_2 in Hu, Hd by done.
      cbn [andb b2n] in *. exists e'. split_and!; [done|lia|done|]. by rewrite <- Hl.
Qed.

Lemma inv_unlock s g key a :
  inv s -> s_procs s !! g = Some (Releasing key a) -> inv (unlock_section g key a s).
Proof.
  intros [He Hi Hf Hh] Hg. pose proof (He g _ Hg) as Hm. cbn in Hm.
  destruct (Hh key a Hm) as (e & Hea & Hr & Hp & Hl).
  unfold unlock_section. rewrite Hea. cbn [default from_option id].
  pose proof (fun b => counted_delete (uses b) _ _ _ Hg) as Hu.
  pose proof (fun b => counted_delete (holds b) _ _ _ Hg) as Hd.
  unfold uses at 1 in Hu. unfold holds at 1 in Hd. cbn [pc_entry is_holding] in Hu, Hd.
  assert (counted (uses a) (delete g (s_procs s)) = pred (e_refs e)) as Hua.
  { specialize (Hu a). rewrite bool_decide_eq_true_2 in Hu by done. cbn [b2n] in Hu. lia. }
  assert (forall k b, s_map s !! k = Some b -> (b <> a \/ pred (e_refs e) <> 0) ->
    exists e', <[a := MkEntry (e_locked e) (pred (e_refs e))]> (s_heap s) !! b = Some e'
    /\ e_refs e' = counted (uses b) (delete g (s_procs s)) /\ 0 < e_refs e'
    /\ counted (holds b) (delete g (s_procs s)) = (if e_locked e' then 1 else 0)) as Hheap.
  { intros k b Hkb Hor. destruct (decide (b = a)) as [->|Hne].
    - rewrite lookup_insert_eq. eexists. split; [done|]. cbn [e_refs e_locked].
      specialize (Hd a). rewrite andb_false_r in Hd. cbn [b2n] in Hd.
      split_and!; [done|destruct Hor; [done|lia]|lia].
    - rewrite lookup_insert_ne by done. destruct (Hh k b Hkb) as (e' & ? & ? & ? & ?).
      specialize (Hu b). specialize (Hd b). rewrite bool_decide_eq_false_2 in Hu, Hd by done.
      cbn [andb b2n] in *. exists e'. split_and!; [done|lia|done|lia]. }
  destruct (pred (e_refs e) =? 0) eqn:Ez; [apply Nat.eqb_eq in Ez|apply Nat.eqb_neq in Ez];
    split; cbn [s_map s_heap s_next s_procs].
  - intros g' p. rewrite lookup_delete_Some. intros [Hne Hp']. pose proof (He _ _ Hp') as Hm'.
    rewrite lookup_delete_ne; [done|]. intros Hk.
    rewrite <- Hk, Hm in Hm'. injection Hm' as Hm'.
    assert (0 < counted (uses a) (delete g (s_procs s))); [|lia].
    eapply (counted_pos _ _ g' p); [by rewrite lookup_delete_ne|].
    unfold uses. by apply bool_decide_eq_true_2.
  - intros k k' b. rewrite !lookup_delete_Some. intros [_ ?] [_ ?]. by eapply Hi.
  - intros k b. rewrite lookup_delete_Some. intros [_ ?]. by eapply Hf.
  - intros k b. rewrite lookup_delete_Some. intros [Hne Hk]. eapply Hheap; [done|].
    left. intros ->. apply Hne. by eapply Hi.
  - intros g' p. rewrite lookup_delete_Some. intros [_ ?]. by eapply He.
  - done.
  - done.
  - intros k b Hk. eapply Hheap; [done|]. by right.
Qed.

Lemma inv_step s s' : inv s -> step s s' -> inv s'.
Proof.
  intros Hinv Hs. destruct Hs as [s g key Hg|s g key a e Hg He Hl|s g key a e Hg He|s g key a Hg].
  - by apply inv_lock.
  - eapply (inv_move s g (Waiting key a)); try done. rewrite Hl. done.
  - eapply (inv_move s g (Holding key a)); try done. cbn [is_holding b2n].
    destruct (e_locked e) eqn:El; [done|]. exfalso.
    pose proof (inv_entry _ Hinv _ _ Hg) as Hm. cbn in Hm.
    destruct (inv_heap _ Hinv _ _ Hm) as (e' & He' & _ & _ & Hc). simplify_eq.
    rewrite El in Hc. pose proof (counted_pos (holds a) _ _ _ Hg) as Hpos.
    unfold holds in Hpos at 1. cbn in Hpos. rewrite bool_decide_eq_true_2 in Hpos by done.
    specialize (Hpos eq_refl). lia.
  - by apply inv_unlock.
Qed.

Lemma reachable_inv s : reachable s -> inv s.
Proof. induction 1; [apply inv_init|by eapply inv_step]. Qed.

(** ** Properties *)

Lemma holding_same s g g' key a a' :
  inv s -> s_procs s !! g = Some (Holding key a) -> s_procs s !! g' = Some (Holding key a') -> g = g'.
Proof.
  intros Hinv Hg Hg'. pose proof (inv_entry _ Hinv _ _ Hg) as Hm.
  pose proof (inv_entry _ Hinv _ _ Hg') as Hm'. cbn in Hm, Hm'. simplify_eq.
  destruct (inv_heap _ Hinv _ _ Hm) as (e & _ & _ & _ & Hc).
  destruct (decide (g = g')) as [|Hne]; [done|].
  pose proof (counted_two (holds a) _ g g' _ _ Hg Hg') as H2. unfold holds in H2 at 1 2. cbn in H2.
  rewrite bool_decide_eq_true_2 in H2 by done. specialize (H2 eq_refl eq_refl Hne).
  rewrite Hc in H2. destruct (e_locked e); lia.
Qed.

(** A state of a run: goroutine 1 holds the key, goroutine 2 waits for it, and
    goroutine 3 waits for another key. *)
Definition sample : state :=
  let s1 := lock_section 1 "agent" init in
  let s2 := lock_section 2 "agent" s1 in
  let s3 := MkState (s_map s2) (<[0 := MkEntry true 2]> (s_heap s2)) (s_next s2)
              (<[1 := Holding "agent" 0]> (s_procs s2)) in
  lock_section 3 "other" s3.

Lemma sample_reachable : reachable sample.
Proof.
  unfold sample. eapply reachable_step; [|by apply step_lock].
  eapply reachable_step; [|by apply (step_acquire _ 1 "agent" 0 (MkEntry false 2))].
  eapply reachable_step; [|by apply step_lock].
  eapply reachable_step; [apply reachable_init|by apply step_lock].
Qed.

(** C5: At every moment of every interleaving of [Lock] and unlock calls, at
    most one goroutine holds the lock of a key. *)
Theorem mutual_exclusion s g g' key a a' :
  reachable s -> s_procs s !! g = Some (Holding key a) -> s_procs s !! g' = Some (Holding key a') ->
  g = g'.
Proof. intros Hr. apply holding_same. by apply reachable_inv. Qed.

Example mutual_exclusion_witness :
  exists g a, s_procs sample !! g = Some (Holding "agent" a) /\ 1 = g.
Proof.
  exists 1, 0. split; [done|]. by apply (mutual_exclusion sample 1 1 "agent" 0 0 sample_reachable).
Defined.

(** The map holds an entry for exactly the keys some goroutine is using
    (waiting for, holding or releasing), and the entry's count is the number of
    those goroutines: entries are never reaped early and never leak. *)
Theorem entries_exact s key :
  reachable s ->
  ((exists a, s_map s !! key = Some a) <-> exists g p, s_procs s !! g = Some p /\ pc_key p = key)
  /\ forall a, s_map s !! key = Some a -> exists e, s_heap s !! a = Some e
       /\ e_refs e = counted (fun p => bool_decide (pc_key p = key)) (s_procs s).
Proof.
  intros Hinv%reachable_inv. split; [split|].
  - intros [a Hm]. destruct (inv_heap _ Hinv _ _ Hm) as (e & _ & Hr & Hp & _).
    rewrite Hr in Hp. destruct (counted_witness _ _ Hp) as (g & p & Hg & Hu). exists g, p. split; [done|].
    apply bool_decide_eq_true_1 in Hu. apply (inv_inj _ Hinv _ _ a); [|done].
    rewrite <- Hu. by eapply inv_entry.
  - intros (g & p & Hg & <-). eexists. by eapply inv_entry.
  - intros a Hm. destruct (inv_heap _ Hinv _ _ Hm) as (e & He & Hr & _). exists e. split; [done|].
    rewrite Hr. apply counted_ext. intros g p Hg. pose proof (inv_entry _ Hinv _ _ Hg) as Hk.
    apply bool_decide_ext. split; [intros <-; by eapply inv_inj|intros <-; congruence].
Qed.

Example entries_exact_witness : exists e, s_heap sample !! 0 = Some e
  /\ e_refs e = counted (fun p => bool_decide (pc_key p = "agent")) (s_procs sample).
Proof. by apply (entries_exact sample "agent" sample_reachable). Defined.

(** Nobody waits for ever behind a free lock: while a goroutine waits for
    a key, either some goroutine holds that key, or the waiter itself can
    acquire it next. *)
Theorem waiter_not_stuck s g key a :
  reachable s -> s_procs s !! g = Some (Waiting key a) ->
  (exists g', s_procs s !! g' = Some (Holding key a))
  \/ exists s', step s s' /\ s_procs s' !! g = Some (Holding key a).
Proof.
  intros Hinv%reachable_inv Hg. pose proof (inv_entry _ Hinv _ _ Hg) as Hm. cbn in Hm.
  destruct (inv_heap _ Hinv _ _ Hm) as (e & He & _ & _ & Hc). destruct (e_locked e) eqn:El.
  - left. destruct (counted_witness (holds a) (s_procs s)) as (g' & p & Hg' & Hh); [lia|].
    apply andb_true_iff in Hh as [Ha Hh]. apply bool_decide_eq_true_1 in Ha.
    destruct p as [|k b|]; try done. cbn in Ha. subst b. exists g'. rewrite Hg'. do 2 f_equal.
    apply (inv_inj _ Hinv _ _ a); [|done]. apply (inv_entry _ Hinv _ _ Hg').
  - right. eexists. split; [by eapply step_acquire|]. cbn. by rewrite lookup_insert_eq.
Qed.

Example waiter_not_stuck_witness :
  (exists g', s_procs sample !! g' = Some (Holding "agent" 0))
  \/ exists s', step sample s' /\ s_procs s' !! 2 = Some (Holding "agent" 0).
Proof. by apply (waiter_not_stuck sample 2 "agent" 0 sample_reachable). Defined.
