(* ===== verification/RateLimit.v ===== *)
(** * Rate-limit policy and endpoint gates

    [Resolve] of package ratelimit, the gate of one endpoint ([RateLimitGate]
    in package agent), and the agent's table of gates with their persisted
    deadlines: creation, closing, release, the check at the start of an API
    turn, and the replay of queued work.  [time.Now()] is an argument. *)
From S2P Require Import Prelude GoNum.
From stdpp Require Import fin_maps.
Local Open Scope Z_scope.
Local Open Scope gostr_scope.

(** ** The shared policy *)

(** [Kind] is a string type with two named values. *)
Abbreviation Kind := gostr.
Definition KindRequest : Kind := "request".
Definition KindUsage : Kind := "usage".

Definition requestFallbackInitial : Duration := Minute.
Definition requestFallbackMax : Duration := Hour.
Definition usageFallback : Duration := Hour.

Record Signal := MkSignal { sg_Kind : Kind; ResetAt : Time; RetryAfter : Duration; Detail : gostr }.
Record Resolution := MkResolution { Until : Time; MissingHintStreak : Z }.

(** The doubling loop with [n] iterations left. *)
Fixpoint request_delay (n : nat) (delay : Duration) : Duration :=
  match n with
  | O => delay
  | S n =>
      let delay := wrap64 (delay * 2) in
      if requestFallbackMax <=? delay then requestFallbackMax else request_delay n delay
  end.

Definition Resolve (now : Time) (signal : Signal) (missingHintStreak : Z) : Resolution :=
  if After (ResetAt signal) now then MkResolution (ResetAt signal) 0
  else if 0 <? RetryAfter signal then MkResolution (TimeAdd now (RetryAfter signal)) 0
  else if bool_decide (sg_Kind signal = KindUsage) then MkResolution (TimeAdd now usageFallback) 0
  else
    MkResolution (TimeAdd now (request_delay (Z.to_nat missingHintStreak) requestFallbackInitial))
      (wrap64 (missingHintStreak + 1)).

(** ** One endpoint's gate *)

Record QueuedItem := MkItem { qi_SessionKey : gostr; qi_Message : gostr; qi_Trigger : gostr }.
Record RateLimitGate := MkGate { until : Time; queue : list QueuedItem; streak : Z }.
Definition new_gate : RateLimitGate := MkGate zero_time [] 0.

Definition Close (t : Time) (g : RateLimitGate) : RateLimitGate := MkGate t (queue g) (streak g).

Definition IsLimited (now : Time) (g : RateLimitGate) : bool * Time :=
  if IsZero (until g) || After now (until g) then (false, zero_time) else (true, until g).

Definition Enqueue (item : QueuedItem) (g : RateLimitGate) : RateLimitGate :=
  MkGate (until g) (queue g ++ [item]) (streak g).

Definition CloseFor (now : Time) (signal : Signal) (g : RateLimitGate) : Time * RateLimitGate :=
  let resolved := Resolve now signal (streak g) in
  (Until resolved, MkGate (Until resolved) (queue g) (MissingHintStreak resolved)).

Definition Open_ (g : RateLimitGate) : bool * RateLimitGate :=
  (negb (IsZero (until g)), MkGate zero_time (queue g) 0).

Definition DrainQueue (now : Time) (g : RateLimitGate) : list QueuedItem * RateLimitGate :=
  if negb (IsZero (until g)) && Before now (until g) then ([], g)
  else match queue g with [] => ([], g) | items => (items, MkGate zero_time [] 0) end.

(** ** The agent's gates *)

(** The gates made so far, the deadlines persisted for this agent, and the
    deadlines the hooks of [RateLimitFunc] were told about. *)
Record agent := MkAgent {
  a_gates : gmap gostr RateLimitGate;
  a_persisted : gmap gostr Time;
  a_notified : list Time;
}.

Definition endpoint_or (dflt endpoint : gostr) : gostr :=
  if bool_decide (endpoint = []) then dflt else endpoint.

Definition getOrCreateRateLimitGate (dflt endpoint : gostr) (a : agent) : RateLimitGate * agent :=
  let endpoint := endpoint_or dflt endpoint in
  match a_gates a !! endpoint with
  | Some gate => (gate, a)
  | None =>
      let gate := match a_persisted a !! endpoint with
                  | Some t => MkGate t [] 0
                  | None => new_gate
                  end in
      (gate, MkAgent (<[endpoint := gate]> (a_gates a)) (a_persisted a) (a_notified a))
  end.

(** [PersistedTime.Save]: the zero time deletes the row. *)
Definition persistRateLimitDeadline (dflt endpoint : gostr) (t : Time) (a : agent) : agent :=
  let endpoint := endpoint_or dflt endpoint in
  MkAgent (a_gates a)
    (if IsZero t then delete endpoint (a_persisted a) else <[endpoint := t]> (a_persisted a))
    (a_notified a).

Definition set_gate (dflt endpoint : gostr) (g : RateLimitGate) (a : agent) : agent :=
  MkAgent (<[endpoint_or dflt endpoint := g]> (a_gates a)) (a_persisted a) (a_notified a).

Definition engageRateLimit (dflt : gostr) (now : Time) (endpoint : gostr) (signal : Signal)
    (notify : bool) (a : agent) : Time * agent :=
  let '(gate, a) := getOrCreateRateLimitGate dflt endpoint a in
  let '(wasLimited, prev) := IsLimited now gate in
  let '(t, gate) := CloseFor now signal gate in
  let a := persistRateLimitDeadline dflt endpoint t (set_gate dflt endpoint gate a) in
  if wasLimited && (prev =? t) then (t, a)
  else (t, if notify then MkAgent (a_gates a) (a_persisted a) (a_notified a ++ [t]) else a).

Definition releaseRateLimit (dflt endpoint : gostr) (a : agent) : agent :=
  let '(gate, a) := getOrCreateRateLimitGate dflt endpoint a in
  let '(was, gate) := Open_ gate in
  let a := set_gate dflt endpoint gate a in
  if was then persistRateLimitDeadline dflt endpoint zero_time a else a.

(** [platform] holds the triggers the platforms registered. *)
Definition isUserTrigger (platform : list gostr) (trigger : gostr) : bool :=
  in_table platform trigger || in_table [[]; "user"; "voice"] trigger.

(** The gate at the start of an API turn ([APITransport.RateLimitGate]): no
    error, or a [RateLimitedError] after the message was queued. *)
Definition turn_gate (platform : list gostr) (dflt : gostr) (now : Time) (endpoint : gostr)
    (item : QueuedItem) (a : agent) : option Time * agent :=
  let '(gate, a) := getOrCreateRateLimitGate dflt endpoint a in
  match IsLimited now gate with
  | (true, t) =>
      if isUserTrigger platform (qi_Trigger item) then (None, a)
      else (Some t, set_gate dflt endpoint (Enqueue item gate) a)
  | _ => (None, a)
  end.

(** ** Replay *)

(** What [HandleMessage] answers: nothing, a [RateLimitedError], or another
    error. *)
Inductive outcome := Handled | RateLimited | Failed.

(** The loop over the drained items, for any handler acting on the agent (and
    whatever else it changes, [World]).  It returns the items it handed on. *)
Section Replay.
Context {World : Type} (HandleMessage : QueuedItem -> World -> outcome * World).

Fixpoint replay (items : list QueuedItem) (w : World) : list QueuedItem * World :=
  match items with
  | [] => ([], w)
  | item :: rest =>
      match HandleMessage item w with
      | (RateLimited, w) => ([item], w)
      | (_, w) => let '(handed, w) := replay rest w in (item :: handed, w)
      end
  end.

End Replay.

(** A turn whose API call is answered with a rate limit: [classifyAPIError]
    closes the gate and returns a [RateLimitedError]. *)
Definition api_limited (dflt : gostr) (now : Time) (endpoint : gostr) (retryAfterSeconds : Z)
    (body : gostr) (platform : list gostr) (item : QueuedItem) (a : agent) : outcome * agent :=
  let signal := MkSignal KindRequest zero_time (wrap64 (retryAfterSeconds * Second)) body in
  (RateLimited,
   (engageRateLimit dflt now endpoint signal (negb (isUserTrigger platform (qi_Trigger item))) a).2).

(** One endpoint of [DrainRateLimitQueue]. *)
Definition drain_endpoint (HandleMessage : QueuedItem -> agent -> outcome * agent) (now : Time)
    (endpoint : gostr) (a : agent) : list QueuedItem * agent :=
  match a_gates a !! endpoint with
  | None => ([], a)
  | Some gate =>
      let '(items, gate) := DrainQueue now gate in
      replay HandleMessage items
        (MkAgent (<[endpoint := gate]> (a_gates a)) (a_persisted a) (a_notified a))
  end.

(** ** The policy *)

Lemma request_delay_closed n d :
  0 < d -> d <= Hour -> request_delay n d = Z.min Hour (d * 2 ^ Z.of_nat n).
Proof.
  revert d. induction n as [|n IH]; intros d Hd Hmax; [cbn [request_delay]; rewrite Z.pow_0_r; lia|].
  cbn [request_delay]. change requestFallbackMax with Hour.
  rewrite wrap64_id by (unfold int64, min_int64, max_int64, Hour, Minute, Second, Millisecond in *; lia).
  rewrite Nat2Z.inj_succ, Z.pow_succ_r by lia.
  pose proof (Z.pow_pos_nonneg 2 (Z.of_nat n) ltac:(lia) ltac:(lia)).
  destruct (Z.leb_spec Hour (d * 2)) as [Hge|Hlt]; [nia|]. rewrite IH by lia. f_equal. lia.
Qed.

Lemma request_delay_pos n : 0 < request_delay n requestFallbackInitial.
Proof.
  rewrite request_delay_closed by (unfold requestFallbackInitial, Hour, Minute, Second, Millisecond; lia).
  pose proof (Z.pow_pos_nonneg 2 (Z.of_nat n) ltac:(lia) ltac:(lia)).
  unfold requestFallbackInitial, Hour, Minute, Second, Millisecond. lia.
Qed.

(** A signal that carries no usable hint at [now]. *)
Definition unhinted (now : Time) (s : Signal) : Prop := ResetAt s <= now /\ RetryAfter s <= 0.

Definition close_all (signals : list (Time * Signal)) (g : RateLimitGate) : RateLimitGate :=
  fold_left (fun g '(now, s) => (CloseFor now s g).2) signals g.

Lemma CloseFor_unhinted now s g :
  unhinted now s -> sg_Kind s = KindRequest -> 0 <= streak g < max_int64 ->
  (CloseFor now s g).2 =
  MkGate (now + Z.min Hour (Minute * 2 ^ streak g)) (queue g) (streak g + 1).
Proof.
  intros [H1 H2] Hk Hs. unfold CloseFor, Resolve, After. rewrite (proj2 (Z.ltb_ge _ _)) by lia.
  rewrite (proj2 (Z.ltb_ge 0 _)) by lia. rewrite bool_decide_eq_false_2 by (by rewrite Hk).
  cbn [snd Until MissingHintStreak]. unfold TimeAdd.
  rewrite request_delay_closed by (unfold requestFallbackInitial, Hour, Minute, Second, Millisecond; lia).
  rewrite Z2Nat.id by lia. rewrite wrap64_id; [done|]. unfold int64, min_int64, max_int64 in *. lia.
Qed.

Lemma streak_row before :
  Forall (fun '(t, b) => unhinted t b /\ sg_Kind b = KindRequest) before ->
  Z.of_nat (length before) <= max_int64 ->
  streak (close_all before new_gate) = Z.of_nat (length before).
Proof.
  induction before as [|[t b] before IH] using rev_ind; intros Hf Hn; [done|].
  apply Forall_app in Hf as [Hf [Hb _]%Forall_cons]. destruct Hb as [Hu Hk].
  rewrite length_app in *. cbn [length] in *. unfold close_all in *. rewrite fold_left_app. cbn [fold_left].
  rewrite CloseFor_unhinted; [cbn [streak]|done|done|]; rewrite IH; (done || lia).
Qed.

Lemma backoff_row now s before :
  Forall (fun '(t, b) => unhinted t b /\ sg_Kind b = KindRequest) (before ++ [(now, s)]) ->
  Z.of_nat (length before) < max_int64 ->
  let h := close_all (before ++ [(now, s)]) new_gate in
  until h = now + Z.min Hour (Minute * 2 ^ Z.of_nat (length before))
  /\ streak h = Z.of_nat (S (length before)).
Proof.
  intros [Hf [[Hu Hk] _]%Forall_cons]%Forall_app Hn. cbv zeta. unfold close_all.
  rewrite fold_left_app. cbn [fold_left]. pose proof (streak_row before Hf ltac:(lia)) as Hs.
  unfold close_all in Hs. rewrite CloseFor_unhinted by (done || lia). cbn [until streak].
  rewrite Hs. split; [done|lia].
Qed.

Lemma CloseFor_future now s g : now < until (CloseFor now s g).2.
Proof.
  pose proof (request_delay_pos (Z.to_nat (streak g))).
  unfold CloseFor, Resolve, After, TimeAdd, usageFallback, Hour, Minute, Second, Millisecond.
  destruct (Z.ltb_spec now (ResetAt s)), (Z.ltb_spec 0 (RetryAfter s)),
    (bool_decide (sg_Kind s = KindUsage)); cbn; lia.
Qed.

(** C40: Every signal closes the gate until a time after now: a usable hint is
    taken as it is and restarts the backoff, and an unhinted usage limit closes
    it for an hour.  The [n]-th request limit in a row without a hint closes it
    for the smaller of one hour and 2^(n-1) minutes, for every [n]. *)
Theorem backoff_policy (now : Time) (s : Signal) (g : RateLimitGate) (before : list (Time * Signal)) :
  let g' := (CloseFor now s g).2 in
  now < until g' /\ queue g' = queue g
  /\ (now < ResetAt s -> until g' = ResetAt s /\ streak g' = 0)
  /\ (ResetAt s <= now -> 0 < RetryAfter s -> until g' = now + RetryAfter s /\ streak g' = 0)
  /\ (unhinted now s -> sg_Kind s = KindUsage -> until g' = now + Hour /\ streak g' = 0)
  /\ (Forall (fun '(t, b) => unhinted t b /\ sg_Kind b = KindRequest) (before ++ [(now, s)]) ->
      Z.of_nat (length before) < max_int64 ->
      let h := close_all (before ++ [(now, s)]) new_gate in
      until h = now + Z.min Hour (Minute * 2 ^ Z.of_nat (length before))
      /\ streak h = Z.of_nat (S (length before))).
Proof.
  cbv zeta. split_and!; [apply CloseFor_future|..|apply backoff_row];
    unfold CloseFor, Resolve, After, unhinted; cbn [snd queue].
  - done.
  - intros H. by destruct (Z.ltb_spec now (ResetAt s)); [|lia].
  - intros H H'. destruct (Z.ltb_spec now (ResetAt s)); [lia|].
    by destruct (Z.ltb_spec 0 (RetryAfter s)); [|lia].
  - intros [H H'] E. destruct (Z.ltb_spec now (ResetAt s)); [lia|].
    destruct (Z.ltb_spec 0 (RetryAfter s)); [lia|]. by rewrite bool_decide_eq_true_2.
Qed.

Example backoff_policy_witness :
  let s := MkSignal KindRequest zero_time 0 [] in
  let h := close_all ([(10, s); (70, s); (200, s)] ++ [(1000, s)]) new_gate in
  until h = 1000 + Z.min Hour (Minute * 2 ^ 3) /\ streak h = 4.
Proof.
  set (s := MkSignal KindRequest zero_time 0 []).
  apply (backoff_policy 1000 s new_gate [(10, s); (70, s); (200, s)]); [|done].
  repeat constructor; done.
Defined.

(** ** The gate's queue *)

(** The operations other code performs on a gate, each with its time. *)
Inductive gate_op :=
| OpClose (t : Time)
| OpCloseFor (now : Time) (s : Signal)
| OpEnqueue (item : QueuedItem)
| OpOpen
| OpDrain (now : Time).

(** One operation, with the items it hands out. *)
Definition gate_step (op : gate_op) (g : RateLimitGate) : list QueuedItem * RateLimitGate :=
  match op with
  | OpClose t => ([], Close t g)
  | OpCloseFor now s => ([], (CloseFor now s g).2)
  | OpEnqueue item => ([], Enqueue item g)
  | OpOpen => ([], (Open_ g).2)
  | OpDrain now => DrainQueue now g
  end.

Fixpoint gate_run (ops : list gate_op) (g : RateLimitGate) : list QueuedItem * RateLimitGate :=
  match ops with
  | [] => ([], g)
  | op :: ops =>
      let '(out, g) := gate_step op g in
      let '(outs, g) := gate_run ops g in (out ++ outs, g)
  end.

Definition enqueued (ops : list gate_op) : list QueuedItem :=
  omap (fun op => match op with OpEnqueue item => Some item | _ => None end) ops.

Lemma DrainQueue_queue now g : let '(out, g') := DrainQueue now g in out ++ queue g' = queue g.
Proof.
  unfold DrainQueue. destruct (_ && _); [done|]. destruct (queue g) eqn:E; cbn; [done|by rewrite app_nil_r].
Qed.

Lemma gate_run_queue ops g :
  let '(out, g') := gate_run ops g in out ++ queue g' = queue g ++ enqueued ops.
Proof.
  revert g. induction ops as [|op ops IH]; intros g; cbn [gate_run]; [by rewrite app_nil_r|].
  pose proof (DrainQueue_queue) as Hd.
  destruct (gate_step op g) as [out g'] eqn:E. specialize (IH g').
  destruct (gate_run ops g') as [outs g'']. rewrite <- app_assoc, IH.
  destruct op; cbn in E; try (simplify_eq; cbn; try done; by rewrite <- app_assoc).
  specialize (Hd now g). rewrite E in Hd. by rewrite app_assoc, Hd.
Qed.

(** The gate's queue is first in, first out and loses nothing: whatever is
    done to the gate, the items handed out so far followed by the items still
    queued are the items that were queued, in order. *)
Theorem gate_fifo (ops : list gate_op) :
  let '(out, g) := gate_run ops new_gate in out ++ queue g = enqueued ops.
Proof. apply (gate_run_queue ops new_gate). Qed.

(** ** Restarts *)

(** What a process that starts with [a]'s persisted deadlines knows. *)
Definition restart (a : agent) : agent := MkAgent ∅ (a_persisted a) [].

(** The states the agent reaches, with the time of the last operation.  Time
    does not go back. *)
Inductive agent_reachable (dflt : gostr) (platform : list gostr) : Time -> agent -> Prop :=
| ar_start now : agent_reachable dflt platform now (MkAgent ∅ ∅ [])
| ar_engage now t a e s notify :
    agent_reachable dflt platform now a -> now <= t ->
    agent_reachable dflt platform t (engageRateLimit dflt t e s notify a).2
| ar_release now t a e :
    agent_reachable dflt platform now a -> now <= t ->
    agent_reachable dflt platform t (releaseRateLimit dflt e a)
| ar_turn now t a e item :
    agent_reachable dflt platform now a -> now <= t ->
    agent_reachable dflt platform t (turn_gate platform dflt t e item a).2
| ar_drain now t a e g :
    agent_reachable dflt platform now a -> now <= t -> a_gates a !! e = Some g ->
    agent_reachable dflt platform t
      (MkAgent (<[e := (DrainQueue t g).2]> (a_gates a)) (a_persisted a) (a_notified a))
| ar_restart now t a :
    agent_reachable dflt platform now a -> now <= t -> agent_reachable dflt platform t (restart a).

Definition persisted_gate (a : agent) (e : gostr) : RateLimitGate :=
  match a_persisted a !! e with Some t => MkGate t [] 0 | None => new_gate end.

(** After [now], a gate and its persisted deadline say the same. *)
Definition gates_agree (now : Time) (a : agent) : Prop :=
  forall e g t, a_gates a !! e = Some g -> now < t -> IsLimited t g = IsLimited t (persisted_gate a e).

Lemma IsLimited_until t g g' : until g = until g' -> IsLimited t g = IsLimited t g'.
Proof. unfold IsLimited. by intros ->. Qed.

Lemma agree_later now t a : gates_agree now a -> now <= t -> gates_agree t a.
Proof. intros H Ht e g t' Hg Hlt. apply (H e g t' Hg). lia. Qed.

(** A gate that says the same as the persisted deadline may be put in. *)
Lemma agree_set now e g gates p n :
  gates_agree now (MkAgent gates p n) ->
  (forall t, now < t -> IsLimited t g = IsLimited t (persisted_gate (MkAgent gates p n) e)) ->
  gates_agree now (MkAgent (<[e := g]> gates) p n).
Proof.
  intros H Hg e' g' t. cbn [a_gates]. rewrite lookup_insert_Some. intros [[<- <-]|[Hne He]]; [apply Hg|].
  by apply (H e' g' t).
Qed.

(** A gate and its persisted deadline may be changed together. *)
Lemma agree_persist dflt now e t g a :
  gates_agree now a -> until g = t ->
  gates_agree now (persistRateLimitDeadline dflt e t (set_gate dflt e g a)).
Proof.
  intros H Ht e' g' t' He Hlt. unfold persistRateLimitDeadline, set_gate in *. cbn [a_gates] in He.
  unfold persisted_gate. cbn [a_persisted].
  apply lookup_insert_Some in He as [[<- <-]|[Hne He]].
  - apply IsLimited_until. unfold IsZero. destruct (Z.eqb_spec t 0) as [E|E].
    + rewrite lookup_delete_eq. by rewrite Ht.
    + by rewrite lookup_insert_eq.
  - rewrite (H e' g' t' He Hlt). unfold persisted_gate.
    destruct (IsZero t); [by rewrite lookup_delete_ne|by rewrite lookup_insert_ne].
Qed.

Lemma agree_get dflt now e a :
  gates_agree now a ->
  let '(g, a') := getOrCreateRateLimitGate dflt e a in
  gates_agree now a' /\ a_gates a' !! endpoint_or dflt e = Some g /\ a_persisted a' = a_persisted a.
Proof.
  intros H. unfold getOrCreateRateLimitGate. destruct (a_gates a !! _) eqn:E; [done|].
  split_and!; [|by cbn; rewrite lookup_insert_eq|done].
  destruct a as [gates p n]. apply agree_set; [done|]. intros t _. unfold persisted_gate. cbn [a_persisted].
  done.
Qed.

Lemma DrainQueue_limited now t g :
  now < t -> IsLimited t (DrainQueue now g).2 = IsLimited t g.
Proof.
  intros Ht. unfold DrainQueue. destruct (IsZero (until g)) eqn:Ez; cbn [negb andb].
  - destruct (queue g); [done|]. cbn [snd]. unfold IsLimited at 2. by rewrite Ez.
  - unfold Before. destruct (Z.ltb_spec now (until g)); [done|]. destruct (queue g); [done|].
    cbn [snd]. unfold IsLimited, After. rewrite Ez. cbn. by destruct (Z.ltb_spec (until g) t); [|lia].
Qed.

Lemma reachable_agree dflt platform now a :
  agent_reachable dflt platform now a -> gates_agree now a.
Proof.
  induction 1 as [now|now t a e s notify _ IH Ht|now t a e _ IH Ht|now t a e item _ IH Ht
    |now t a e g _ IH Ht Hg|now t a _ IH Ht].
  - by intros e g t.
  - apply (agree_later _ t) in IH; [|done]. unfold engageRateLimit. pose proof (agree_get dflt t e a IH) as Hget.
    destruct (getOrCreateRateLimitGate dflt e a) as [g a'] eqn:E. destruct Hget as (Ha' & _ & _).
    destruct (IsLimited t g) as [was prev]. destruct (CloseFor t s g) as [u g'] eqn:Ec.
    assert (until g' = u) as Hu by (unfold CloseFor in Ec; by simplify_eq).
    pose proof (agree_persist dflt t e u g' a' Ha' Hu) as Hp.
    destruct (was && _); [done|]. by destruct notify.
  - apply (agree_later _ t) in IH; [|done]. unfold releaseRateLimit. pose proof (agree_get dflt t e a IH) as Hget.
    destruct (getOrCreateRateLimitGate dflt e a) as [g a'] eqn:E. destruct Hget as (Ha' & Hg & _).
    cbn [Open_]. destruct (IsZero (until g)) eqn:Ez; cbn [negb].
    + destruct a' as [gates p n]. apply agree_set; [done|]. intros t' Ht'.
      etrans; [|exact (Ha' _ _ t' Hg Ht')]. unfold IsLimited. cbn [until]. by rewrite Ez.
    + by apply agree_persist.
  - apply (agree_later _ t) in IH; [|done]. unfold turn_gate. pose proof (agree_get dflt t e a IH) as Hget.
    destruct (getOrCreateRateLimitGate dflt e a) as [g a'] eqn:E. destruct Hget as (Ha' & Hg & _).
    destruct (IsLimited t g) as [[] u]; [|done]. destruct (isUserTrigger _ _); [done|].
    destruct a' as [gates p n]. apply agree_set; [done|]. intros t' Ht'.
    by etrans; [|exact (Ha' _ _ t' Hg Ht')].
  - apply (agree_later _ t) in IH; [|done]. destruct a as [gates p n]. apply agree_set; [done|].
    intros t' Ht'. rewrite DrainQueue_limited by done. by apply IH.
  - by intros e g t'.
Qed.

(** A restart neither opens nor closes a gate: at every later time, the
    gate a new process makes from the persisted deadlines answers [IsLimited]
    exactly as the gate of the running process does. *)
Theorem restart_keeps_gates (dflt : gostr) (platform : list gostr) (now t : Time) (a : agent)
    (e : gostr) :
  agent_reachable dflt platform now a -> now < t ->
  IsLimited t (getOrCreateRateLimitGate dflt e (restart a)).1
  = IsLimited t (getOrCreateRateLimitGate dflt e a).1.
Proof.
  intros Ha%reachable_agree Ht. unfold getOrCreateRateLimitGate at 1. cbn [restart a_gates].
  rewrite lookup_empty. cbn [fst a_persisted restart].
  pose proof (agree_get dflt now e a Ha) as Hget.
  destruct (getOrCreateRateLimitGate dflt e a) as [g a']. destruct Hget as (Ha' & Hg & Hp).
  cbn [fst]. rewrite (Ha' _ _ t Hg Ht). unfold persisted_gate. by rewrite Hp.
Qed.

Example restart_keeps_gates_witness :
  let s := MkSignal KindUsage zero_time 0 [] in
  let a := (engageRateLimit "api" 1000 "api" s true (MkAgent ∅ ∅ [])).2 in
  IsLimited 2000 (getOrCreateRateLimitGate "api" [] (restart a)).1 = (true, 1000 + Hour).
Proof.
  cbv zeta. etrans.
  - apply (restart_keeps_gates "api" [] 1000 2000); [|done].
    eapply (ar_engage _ _ 1000); [apply ar_start|done].
  - vm_compute. reflexivity.
Defined.

(** ** Replay *)

Lemma replay_prefix {World} (H : QueuedItem -> World -> outcome * World) items w :
  exists rest, items = (replay H items w).1 ++ rest.
Proof.
  revert w. induction items as [|item items IH]; intros w; [by exists []|]. cbn [replay].
  destruct (H item w) as [[] w']; cbn [fst];
    try (destruct (IH w') as [rest Hr]; destruct (replay H items w') as [handed w''];
         exists rest; cbn in *; by rewrite <- Hr).
  by exists items.
Qed.

Lemma engage_gate dflt now e s notify a g :
  e <> [] -> a_gates a !! e = Some g ->
  a_gates (engageRateLimit dflt now e s notify a).2 !! e = Some (CloseFor now s g).2.
Proof.
  intros Hne Hg. unfold engageRateLimit, getOrCreateRateLimitGate, set_gate, persistRateLimitDeadline, endpoint_or.
  rewrite bool_decide_eq_false_2, Hg by done. destruct (IsLimited now g) as [was prev].
  destruct (CloseFor now s g) as [u g'].
  destruct (was && _); [|destruct notify]; cbn [snd a_gates]; by rewrite lookup_insert_eq.
Qed.

(** A replay that meets a rate limit loses work.  The items were taken off
    the queue before the loop, so when the API answers the first of them with a
    rate limit, it alone was tried, and the gate's queue is empty afterwards:
    neither it nor any item behind it is queued again. *)
Theorem replay_loses_items (dflt endpoint : gostr) (platform : list gostr) (now : Time)
    (retryAfterSeconds : Z) (body : gostr) (a : agent) (g : RateLimitGate) (item : QueuedItem) (rest : list QueuedItem) :
  endpoint <> [] -> a_gates a !! endpoint = Some g -> queue g = item :: rest ->
  until g = zero_time \/ until g <= now -> 0 <= now ->
  let '(handed, a') := drain_endpoint (api_limited dflt now endpoint retryAfterSeconds body platform) now endpoint a in
  handed = [item]
  /\ exists g', a_gates a' !! endpoint = Some g' /\ queue g' = [] /\ (IsLimited now g').1 = true.
Proof.
  intros Hne Hg Hq Hu Hnow. unfold drain_endpoint. rewrite Hg.
  assert (DrainQueue now g = (item :: rest, MkGate zero_time [] 0)) as ->.
  { unfold DrainQueue. rewrite Hq. unfold IsZero, Before.
    destruct Hu as [->|Hu]; [done|]. rewrite (proj2 (Z.ltb_ge _ _)) by lia. by rewrite andb_false_r. }
  cbn [replay]. unfold api_limited at 1. cbn [fst]. split; [done|].
  eexists. split; [apply engage_gate; [done|]; cbn [a_gates]; by rewrite lookup_insert_eq|].
  split; [done|]. set (s := MkSignal _ _ _ _). set (g0 := MkGate _ _ _).
  pose proof (CloseFor_future now s g0). unfold IsLimited, IsZero, After.
  rewrite (proj2 (Z.eqb_neq _ 0)) by lia. by rewrite (proj2 (Z.ltb_ge _ now)) by lia.
Qed.

Example replay_loses_items_witness :
  let items := [MkItem "clutch/c1" "one" "cron"; MkItem "clutch/c1" "two" "cron"] in
  let a := MkAgent {["api" := MkGate 50 items 1]} {["api" := 50]} [] in
  let '(handed, a') := drain_endpoint (api_limited "api" 60 "api" 0 "quota" []) 60 "api" a in
  handed = [MkItem "clutch/c1" "one" "cron"]
  /\ exists g', a_gates a' !! ("api" : gostr) = Some g' /\ queue g' = [] /\ (IsLimited 60 g').1 = true.
Proof.
  cbv zeta. eapply (replay_loses_items "api" "api"); [done|reflexivity|reflexivity|cbn; lia|lia].
Defined.
