(* ===== verification/SessionKey.v ===== *)
(** * Session keys (package session, key.go and batch_key.go)

    The stable identity of a conversation, its text form, the parser, and the
    functions that derive keys from keys.  [time.Now] and the unique
    nanosecond counter are arguments. *)
From S2P Require Import Prelude GoStrings GoNum ShellScan.
Local Open Scope gostr_scope.

(** ** Model *)

(** Type and child type are runes; a child type of 0 marks a root. *)
Record SessionKey := MkKey {
  AgentID : gostr; Type_ : N; ID : gostr; ChildType : N; ChildTS : Z;
}.

Definition rune (c : ascii) : N := N_of_ascii c.
Arguments rune _ : simpl never.

Definition parseTypeID (s : gostr) : option (N * gostr) :=
  match s with c :: (_ :: _) as id => Some (rune c, tail s) | _ => None end.

Definition parseTypeTS (s : gostr) : option (N * Z) :=
  match s with
  | c :: (_ :: _) as rest => let '(ts, ok) := ParseInt (tail s) in if ok then Some (rune c, ts) else None
  | _ => None
  end.

Definition String_ (k : SessionKey) : gostr :=
  AgentID k ++ "/" ++ encode_rune (Type_ k) ++ ID k
  ++ (if (ChildType k =? 0)%N then []
      else "/" ++ encode_rune (ChildType k) ++ FormatInt (ChildTS k)).

Definition ParseSessionKey (s : gostr) : option SessionKey :=
  match split_byte "/"%char s with
  | [] | [_] | _ :: _ :: _ :: _ :: _ => None
  | agentID :: p1 :: child =>
      if bool_decide (agentID = []) then None
      else match parseTypeID p1 with
      | None => None
      | Some (typ, id) =>
          if negb (typ =? rune "c"%char)%N && negb (typ =? rune "i"%char)%N then None
          else match child with
          | p2 :: _ =>
              match parseTypeTS p2 with
              | None => None
              | Some (childType, childTS) =>
                  if negb (childType =? rune "b"%char)%N && negb (childType =? rune "i"%char)%N then None
                  else Some (MkKey agentID typ id childType childTS)
              end
          | [] => Some (MkKey agentID typ id 0 0)
          end
      end
  end.

Definition NewChatSession (agentID : gostr) (chatID : Z) : SessionKey :=
  MkKey agentID (rune "c"%char) (FormatInt chatID) 0 0.

Definition withChild (now : Z) (childType : N) (k : SessionKey) : SessionKey :=
  MkKey (AgentID k) (Type_ k) (ID k) childType now.

Definition Branch (now : Z) (k : SessionKey) : SessionKey := withChild now (rune "b"%char) k.

Definition Root (k : SessionKey) : SessionKey := MkKey (AgentID k) (Type_ k) (ID k) 0 0.

Definition IsRoot (k : SessionKey) : bool := (ChildType k =? 0)%N.

Definition ChatID (k : SessionKey) : Z :=
  if negb (Type_ k =? rune "c"%char)%N then 0%Z else (ParseInt (ID k)).1.

Definition NewChatSessionKey (agentID : gostr) (chatID : Z) : gostr :=
  String_ (NewChatSession agentID chatID).

(** No rune below 0x20 and no 0x7f: such runes are single bytes, and every byte
    of another rune is at least 0x80. *)
Definition control_byte (c : ascii) : bool := (N_of_ascii c <? 32)%N || (N_of_ascii c =? 127)%N.

Definition ValidateSessionName (name : gostr) : bool :=
  if bool_decide (name = []) then false
  else if bool_decide (name = ".") || bool_decide (name = "..") then false
  else if contains_any "/\" name then false
  else negb (existsb control_byte name).

Definition NamedIndependentSessionKey (agentID name : gostr) : option gostr :=
  if ValidateSessionName name then Some (String_ (MkKey agentID (rune "i"%char) name 0 0)) else None.

Definition ChatIDFromKey (key : gostr) : Z :=
  match ParseSessionKey key with Some sk => ChatID sk | None => 0%Z end.

Definition AgentIDFromKey (key : gostr) : gostr :=
  match index_byte "/"%char key with Some (S _ as idx) => take idx key | _ => [] end.

(** The second piece of [strings.SplitN(session, ":", 3)]. *)
Definition AgentIDFromAnyKey (session : gostr) : gostr :=
  let after := drop 6 session in
  if has_prefix "agent:" session
  then match index_byte ":"%char after with Some i => take i after | None => after end
  else match index_byte "/"%char session with Some (S _ as idx) => take idx session | _ => session end.

Definition branchFromSession (now : Z) (parentKey : gostr) : option gostr :=
  parent ← ParseSessionKey parentKey; Some (String_ (Branch now parent)).

Definition NewBatchKey (unique : Z) (owner agentID : gostr) : gostr * gostr :=
  let synthetic := String_ (MkKey agentID (rune "i"%char) "batch" 0 0) in
  let '(root, parent) := match ParseSessionKey owner with
                         | Some sk => (String_ (Root sk), owner)
                         | None => (synthetic, synthetic)
                         end in
  (root ++ "/b" ++ FormatInt unique, parent).

(** ** Well-formed keys *)

Definition good_segment (s : gostr) : Prop := s <> [] /\ "/"%char ∉ s.

Record wf (k : SessionKey) : Prop := Wf {
  wf_agent : good_segment (AgentID k);
  wf_type : Type_ k = rune "c"%char \/ Type_ k = rune "i"%char;
  wf_id : good_segment (ID k);
  wf_child : (ChildType k = 0%N /\ ChildTS k = 0%Z)
    \/ ((ChildType k = rune "b"%char \/ ChildType k = rune "i"%char) /\ int64 (ChildTS k));
}.

Lemma FormatInt_no_slash n : "/"%char ∉ FormatInt n.
Proof.
  assert (forall fuel m, "/"%char ∉ format_digits fuel m []) as H.
  { intros fuel m Hin. assert (Forall (fun c => c <> "/"%char) (format_digits fuel m [])) as Ha.
    { apply format_digits_all; [|constructor]. intros d Hd E. pose proof (digit_value_digit d Hd) as Hv.
      by rewrite E in Hv. }
    rewrite Forall_forall in Ha. by apply Ha in Hin. }
  unfold FormatInt. destruct (n <? 0)%Z; [|apply H]. apply not_elem_of_cons. split; [done|apply H].
Qed.

Lemma FormatInt_nonempty n : exists c s, FormatInt n = c :: s.
Proof.
  unfold FormatInt. destruct (Z.ltb_spec n 0); [eauto|].
  destruct (format_digits_head 20 n [] ltac:(lia) ltac:(lia)) as (d & s & _ & ->). eauto.
Qed.

Lemma good_cons c s : c <> "/"%char -> "/"%char ∉ s -> "/"%char ∉ (c :: s).
Proof. intros Hc Hs. apply not_elem_of_cons. by split. Qed.

(** The text of a key is the join of its segments. *)
Lemma parse_root agent tc id typ :
  good_segment agent -> good_segment id -> typ = rune tc -> tc = "c"%char \/ tc = "i"%char ->
  ParseSessionKey (agent ++ "/" ++ tc :: id) = Some (MkKey agent typ id 0 0).
Proof.
  intros [Ha Ha'] [Hi Hi'] -> Ht. unfold ParseSessionKey. cbn [app].
  rewrite split_byte_app, split_byte_one; [|by apply good_cons; [destruct Ht as [->| ->]|]|done].
  rewrite bool_decide_eq_false_2 by done. destruct id as [|x id]; [done|]. cbn [parseTypeID tail].
  by destruct Ht as [->| ->].
Qed.

Lemma parse_child agent tc id typ cc ctyp n :
  good_segment agent -> good_segment id -> typ = rune tc -> tc = "c"%char \/ tc = "i"%char ->
  ctyp = rune cc -> cc = "b"%char \/ cc = "i"%char -> int64 n ->
  ParseSessionKey (agent ++ "/" ++ tc :: id ++ "/" ++ cc :: FormatInt n) = Some (MkKey agent typ id ctyp n).
Proof.
  intros [Ha Ha'] [Hi Hi'] -> Ht -> Hc Hn. unfold ParseSessionKey. cbn [app].
  rewrite split_byte_app by done. change (tc :: id ++ "/"%char :: ?x) with ((tc :: id) ++ "/"%char :: x).
  rewrite split_byte_app by (by apply good_cons; [destruct Ht as [->| ->]|]).
  rewrite split_byte_one by (apply good_cons; [by destruct Hc as [->| ->]|apply FormatInt_no_slash]).
  rewrite bool_decide_eq_false_2 by done. destruct id as [|x id]; [done|]. cbn [parseTypeID tail].
  pose proof (ParseInt_FormatInt n Hn) as Hp. destruct (FormatInt_nonempty n) as (d & s & E).
  rewrite E in *. cbn [parseTypeTS tail]. rewrite Hp.
  by destruct Ht as [->| ->], Hc as [->| ->].
Qed.

Lemma parse_print k : wf k -> ParseSessionKey (String_ k) = Some k.
Proof.
  intros [Ha Ht Hi Hc]. destruct k as [a t i c ts]; cbn in *. unfold String_. cbn.
  assert (exists tc, t = rune tc /\ (tc = "c"%char \/ tc = "i"%char) /\ encode_rune t = [tc]) as (tc & E & Htc & ->).
  { destruct Ht as [->| ->]; [exists "c"%char|exists "i"%char]; split_and!; auto. }
  destruct Hc as [[-> ->]|[Hc Hts]].
  - cbn. rewrite app_nil_r. by apply parse_root.
  - assert (exists cc, c = rune cc /\ (cc = "b"%char \/ cc = "i"%char) /\ encode_rune c = [cc] /\ (c =? 0)%N = false)
      as (cc & E' & Hcc & -> & ->).
    { destruct Hc as [->| ->]; [exists "b"%char|exists "i"%char]; split_and!; auto. }
    cbn [app]. by apply parse_child.
Qed.

Lemma ParseInt_range s n : ParseInt s = (n, true) -> int64 n.
Proof.
  assert (forall neg p, parse_signed neg p = (n, true) ->
    (forall m, p = ParseOk m -> 0 <= m)%Z -> int64 n) as Hs.
  { unfold int64, min_int64, max_int64. intros neg [m|m|] H Hm; cbn in H; [specialize (Hm m eq_refl)| |done].
    - destruct neg; cbn in H.
      + destruct (Z.ltb_spec (2 ^ 63) m); simplify_eq; lia.
      + destruct (Z.leb_spec (2 ^ 63) m); simplify_eq; lia.
    - by destruct neg; cbn in H; repeat case_match. }
  assert (forall s m m', 0 <= m -> parse_uint_loop s m = ParseOk m' -> 0 <= m')%Z as Hl.
  { clear. induction s as [|c s IH]; intros m m' Hm; cbn; [by intros [= <-]|].
    destruct (digit_value c) as [d|] eqn:E; [|done]. apply digit_value_bound in E.
    destruct (_ <=? _)%Z; [done|]. destruct (_ <? _)%Z; [done|]. apply IH. lia. }
  assert (forall s m, ParseUint s = ParseOk m -> 0 <= m)%Z as Hu.
  { intros [|c s'] m; [done|]. apply (Hl (c :: s') 0%Z). lia. }
  destruct s as [|c s]; cbn [ParseInt]; [done|].
  destruct (c =?b _); [|destruct (c =?b _)]; intros H; (eapply Hs; [exact H|apply Hu]).
Qed.

Lemma parse_wf s k : ParseSessionKey s = Some k -> wf k.
Proof.
  unfold ParseSessionKey. pose proof (split_byte_no_sep "/"%char s) as Hsep.
  destruct (split_byte "/"%char s) as [|agent [|p1 child]]; try done.
  apply Forall_cons in Hsep as [Ha Hsep]. apply Forall_cons in Hsep as [Hp Hsep].
  intros H.
  assert (good_segment agent /\ exists typ id, parseTypeID p1 = Some (typ, id)
    /\ (typ = rune "c"%char \/ typ = rune "i"%char) /\
    ((child = [] /\ k = MkKey agent typ id 0 0) \/
     exists p2 ct ts, parseTypeTS p2 = Some (ct, ts) /\ (ct = rune "b"%char \/ ct = rune "i"%char)
       /\ k = MkKey agent typ id ct ts)) as (Hag & typ & id & Hid & Htyp & Hk).
  { destruct (decide (agent = [])) as [->|Hne]; [by destruct child as [|? [|]]|].
    rewrite bool_decide_eq_false_2 in H by done. split; [by split|].
    assert (length child <= 1) as Hlen by (destruct child as [|? [|]]; cbn; [lia|lia|done]).
    destruct (parseTypeID p1) as [[typ id]|]; [|by destruct child as [|? [|]]].
    exists typ, id. split; [done|].
    destruct (N.eqb_spec typ (rune "c"%char)) as [Ec|Ec];
      destruct (N.eqb_spec typ (rune "i"%char)) as [Ei|Ei]; cbn [negb andb] in H;
      try (by destruct child as [|? [|]]);
      (split; [by (left + right)|]);
      (destruct child as [|p2 [|]]; [left; by simplify_eq|right|done]);
      (destruct (parseTypeTS p2) as [[ct ts]|] eqn:E2; [|done]); exists p2, ct, ts;
      (split; [done|]);
      destruct (N.eqb_spec ct (rune "b"%char)), (N.eqb_spec ct (rune "i"%char)); cbn [negb andb] in H;
      simplify_eq; eauto. }
  assert (good_segment id) as Hgid.
  { destruct p1 as [|c [|x p]]; try done. cbn in Hid. simplify_eq. split; [done|].
    by apply not_elem_of_cons in Hp as [_ Hp]. }
  destruct Hk as [[_ ->]|(p2 & ct & ts & Hts & Hct & ->)]; split; cbn; try done; [by left|right].
  split; [done|]. destruct p2 as [|c [|x p]]; try done. cbn [parseTypeTS tail] in Hts.
  destruct (ParseInt (x :: p)) as [n []] eqn:En; [|done]. simplify_eq. by eapply ParseInt_range.
Qed.

Lemma root_text s k : ParseSessionKey s = Some k -> IsRoot k = true -> s = String_ k.
Proof.
  unfold ParseSessionKey, IsRoot. pose proof (join_split_byte "/"%char s) as Hj.
  destruct (split_byte "/"%char s) as [|agent [|p1 child]]; try done. intros H Hr.
  destruct (decide (agent = [])) as [->|Hne]; [by destruct child as [|? [|]]|].
  rewrite bool_decide_eq_false_2 in H by done.
  destruct (parseTypeID p1) as [[typ id]|] eqn:Ep; [|by destruct child as [|? [|]]].
  destruct (negb (typ =? rune "c"%char)%N && negb (typ =? rune "i"%char)%N) eqn:Et;
    [by destruct child as [|? [|]]|].
  destruct child as [|p2 [|]]; [|exfalso|done].
  - injection H as <-. cbn [join] in Hj. rewrite <- Hj. unfold String_. cbn [AgentID Type_ ID ChildType N.eqb].
    destruct p1 as [|c [|x p]]; try done. cbn in Ep. simplify_eq.
    assert (encode_rune (rune c) = [c]) as ->.
    { apply andb_false_iff in Et as [Et|Et]; apply negb_false_iff, N.eqb_eq in Et;
        apply (f_equal ascii_of_N) in Et; unfold rune in Et; rewrite !ascii_N_embedding in Et; by subst c. }
    by rewrite app_nil_r.
  - destruct (parseTypeTS p2) as [[ct ts]|]; [|done].
    destruct (N.eqb_spec ct (rune "b"%char)), (N.eqb_spec ct (rune "i"%char)); cbn [negb andb] in H;
      simplify_eq; done.
Qed.

(** Printing and parsing are inverse.  Exactly the well-formed keys come
    back from their own text, whatever parses is well formed and prints to a
    text of the same key, and a root key has only one text. *)
Theorem key_roundtrip (k : SessionKey) (s : gostr) :
  (wf k <-> ParseSessionKey (String_ k) = Some k)
  /\ (forall k', ParseSessionKey s = Some k' ->
       wf k' /\ ParseSessionKey (String_ k') = Some k' /\ (IsRoot k' = true -> s = String_ k')).
Proof.
  split; [split; [apply parse_print|apply parse_wf]|]. intros k' H. pose proof (parse_wf s k' H) as Hw.
  split_and!; [done|by apply parse_print|by apply root_text].
Qed.

(** The text of a child key need not be canonical: the timestamp is read with
    [ParseInt], which takes a sign and leading zeros. *)
Example child_text_not_unique :
  ParseSessionKey "clutch/c123/b+007" = ParseSessionKey "clutch/c123/b7"
  /\ ParseSessionKey "clutch/c123/b7" = Some (MkKey "clutch" (rune "c"%char) "123" (rune "b"%char) 7).
Proof. by vm_compute. Qed.

Lemma validate_segment name :
  ValidateSessionName name = true -> good_segment name /\ ("\"%char ∉ name) /\ name <> "." /\ name <> "..".
Proof.
  unfold ValidateSessionName. destruct (decide (name = [])); [by rewrite bool_decide_eq_true_2|].
  rewrite bool_decide_eq_false_2 by done.
  destruct (bool_decide (name = ".")) eqn:E1; [done|]. destruct (bool_decide (name = "..")) eqn:E2; [done|].
  apply bool_decide_eq_false_1 in E1, E2. cbn [orb].
  destruct (contains_any "/\" name) eqn:E; [done|]. intros _.
  assert (forall c, mem_byte c "/\" = true -> c ∉ name) as Hno.
  { intros c Hc Hin. apply not_true_iff_false in E. apply E. apply existsb_exists. exists c.
    by rewrite <- list_elem_of_In. }
  split_and!; try done; [split; [done|]|]; by apply Hno.
Qed.

(** A validated session name becomes one path segment.  The key of a named
    session has exactly two segments, the agent and "i" followed by the name;
    the second is neither "." nor "..", it parses back to the name, and two names
    never share a key. *)
Theorem named_key_contained (agentID name key : gostr) :
  good_segment agentID -> NamedIndependentSessionKey agentID name = Some key ->
  split_byte "/"%char key = [agentID; "i" ++ name] /\ ("\"%char ∉ "i" ++ name)
  /\ ("i" ++ name) <> "." /\ ("i" ++ name) <> ".."
  /\ ParseSessionKey key = Some (MkKey agentID (rune "i"%char) name 0 0)
  /\ (forall name', NamedIndependentSessionKey agentID name' = Some key -> name' = name).
Proof.
  intros Ha. unfold NamedIndependentSessionKey.
  destruct (ValidateSessionName name) eqn:Ev; [|done]. intros [= <-].
  apply validate_segment in Ev as (Hn & Hb & _). pose proof Hn as [Hn' Hs]. destruct Ha as [Ha' Has].
  assert (ParseSessionKey (String_ (MkKey agentID (rune "i"%char) name 0 0))
    = Some (MkKey agentID (rune "i"%char) name 0 0)) as Hp.
  { apply parse_print. split; cbn; try done; [by right|by left]. }
  split_and!; try done.
  - assert (String_ (MkKey agentID (rune "i"%char) name 0 0) = agentID ++ "/"%char :: "i"%char :: name) as ->
      by (unfold String_; cbn; by rewrite app_nil_r).
    rewrite split_byte_app, split_byte_one; [done|by apply good_cons|done].
  - by apply not_elem_of_cons.
  - intros name'. destruct (ValidateSessionName name') eqn:Ev'; [|done]. intros [= E].
    apply validate_segment in Ev' as (Hw & _). apply (f_equal ParseSessionKey) in E.
    rewrite Hp, parse_print in E; [by simplify_eq|]. split; cbn; try done; [by right|by left].
Qed.

Example named_key_contained_witness :
  ParseSessionKey "clutch/iresearch" = Some (MkKey "clutch" (rune "i"%char) "research" 0 0).
Proof.
  apply (named_key_contained "clutch" "research" "clutch/iresearch"); [|done].
  split; [done|apply (bool_decide_eq_true_1 _); reflexivity].
Defined.

Lemma split_first s c p1 rest : split_byte c s = p1 :: rest ->
  rest <> [] -> index_byte c s = Some (length p1) /\ take (length p1) s = p1.
Proof.
  revert p1. induction s as [|d s IH]; intros p1; cbn; [by intros [= <- <-]|].
  destruct (c =?b d) eqn:E.
  - intros [= <- <-] _. done.
  - destruct (split_byte c s) as [|w ws] eqn:Es; [by intros [= <- <-]|]. intros [= <- <-] Hne.
    destruct (IH w eq_refl Hne) as [-> Ht]. cbn. by rewrite Ht.
Qed.

Lemma AgentID_parsed key k : ParseSessionKey key = Some k -> AgentIDFromKey key = AgentID k.
Proof.
  intros H. pose proof (parse_wf _ _ H) as [[Hne _] _ _ _]. unfold ParseSessionKey in H.
  destruct (split_byte "/"%char key) as [|a [|p1 child]] eqn:E; try done.
  destruct (split_first _ _ _ _ E) as [Hi Ht]; [done|].
  assert (AgentID k = a) as <-.
  { destruct child as [|? [|]]; repeat (case_match; try done; simplify_eq; cbn in *); done. }
  unfold AgentIDFromKey. rewrite Hi. by destruct (AgentID k) eqn:Ea.
Qed.

Lemma batch_segment : good_segment "batch".
Proof. split; [done|apply (bool_decide_eq_true_1 _); reflexivity]. Qed.

(** On every key that parses, [AgentIDFromKey] gives the parsed agent, and
    it gives an agent for every text with a non-empty part before a "/",
    parseable or not. *)
Theorem agent_id_of_key (key : gostr) :
  (forall k, ParseSessionKey key = Some k -> AgentIDFromKey key = AgentID k)
  /\ (forall a rest, good_segment a -> AgentIDFromKey (a ++ "/" ++ rest) = a).
Proof.
  split.
  - apply AgentID_parsed.
  - intros a rest [Hne Hs]. unfold AgentIDFromKey.
    destruct (split_first (a ++ "/" ++ rest) "/"%char a (split_byte "/"%char rest)) as [-> Ht].
    + by apply split_byte_app.
    + apply split_byte_nonempty.
    + by destruct a.
Qed.

Example agent_id_of_key_witness :
  AgentIDFromKey "clutch/c123/b1709596800" = "clutch" /\ AgentIDFromKey "clutch/x1" = "clutch"
  /\ ParseSessionKey "clutch/x1" = None.
Proof.
  split_and!; [|apply (proj2 (agent_id_of_key []) "clutch" "x1")|done].
  - by apply (proj1 (agent_id_of_key "clutch/c123/b1709596800")
      (MkKey "clutch" (rune "c"%char) "123" (rune "b"%char) 1709596800)).
  - split; [done|apply (bool_decide_eq_true_1 _); reflexivity].
Defined.

Lemma child_wf k c ts : wf k -> c = rune "b"%char \/ c = rune "i"%char -> int64 ts -> wf (withChild ts c k).
Proof. intros [Ha Ht Hi _] Hc Hts. split; cbn; try done. right. by split. Qed.

(** A branch or batch key derived from any key that parses, itself a child
    or not, parses to a child of the same root, so that it has the same agent
    and the same chat; without a parseable owner a batch hangs off the agent's
    own "batch" root. *)
Theorem derived_keys (now : Z) (owner agentID : gostr) :
  int64 now -> good_segment agentID ->
  match ParseSessionKey owner with
  | Some k => exists b, branchFromSession now owner = Some b
      /\ ParseSessionKey b = Some (Branch now k)
      /\ NewBatchKey now owner agentID = (b, owner)
      /\ Root (Branch now k) = Root k /\ ChatIDFromKey b = ChatIDFromKey owner
      /\ AgentIDFromKey b = AgentIDFromKey owner
  | None => branchFromSession now owner = None
      /\ ParseSessionKey (NewBatchKey now owner agentID).1
         = Some (Branch now (MkKey agentID (rune "i"%char) "batch" 0 0))
  end.
Proof.
  intros Hn Hag. unfold branchFromSession, NewBatchKey, ChatIDFromKey.
  assert (forall k, String_ (Root k) ++ "/b" ++ FormatInt now = String_ (Branch now k)) as Hs.
  { intros k. unfold String_, Branch, withChild, Root. cbn [AgentID Type_ ID ChildType ChildTS].
    change (rune "b"%char =? 0)%N with false. change (0 =? 0)%N with true. cbn match.
    rewrite app_nil_r, <- !app_assoc. done. }
  destruct (ParseSessionKey owner) as [k|] eqn:E.
  - pose proof (parse_wf _ _ E) as Hw. assert (wf (Branch now k)) as Hwb.
    { apply child_wf; [done|by left|done]. }
    pose proof (parse_print _ Hwb) as Hp. exists (String_ (Branch now k)).
    split_and!; [done|done|by rewrite Hs|done| |].
    + rewrite Hp. done.
    + by rewrite (AgentID_parsed _ _ Hp), (AgentID_parsed _ _ E).
  - split; [done|]. cbn [fst]. pose proof (Hs (MkKey agentID (rune "i"%char) "batch" 0 0)) as Hb.
    unfold Root in Hb. cbn [AgentID Type_ ID] in Hb. rewrite Hb.
    apply parse_print, child_wf; [|by left|done]. split; cbn; try done; [by right|by apply batch_segment|by left].
Qed.

Example derived_keys_witness :
  exists b, branchFromSession 1709596900 "clutch/c123/b1709596800" = Some b
    /\ ParseSessionKey b = Some (MkKey "clutch" (rune "c"%char) "123" (rune "b"%char) 1709596900).
Proof.
  destruct (derived_keys 1709596900 "clutch/c123/b1709596800" "batch") as (b & H & H' & _);
    [by split|apply batch_segment|]. exists b. split; [exact H|exact H'].
Defined.

(** The chat a chat key was made for comes back from the key, for every
    int64 chat id, negative ones included. *)
Theorem chat_id_roundtrip (agentID : gostr) (chatID : Z) :
  good_segment agentID -> int64 chatID -> ChatIDFromKey (NewChatSessionKey agentID chatID) = chatID.
Proof.
  intros Ha Hc. unfold ChatIDFromKey, NewChatSessionKey. rewrite parse_print.
  - unfold ChatID. cbn. by rewrite ParseInt_FormatInt.
  - split; cbn; [done|by left| |by left]. split; [|apply FormatInt_no_slash].
    by destruct (FormatInt_nonempty chatID) as (c & s & ->).
Qed.

Example chat_id_roundtrip_witness : ChatIDFromKey "batch/c-9223372036854775808" = min_int64.
Proof.
  assert (NewChatSessionKey "batch" min_int64 = "batch/c-9223372036854775808") as <- by (by vm_compute).
  apply (chat_id_roundtrip "batch" min_int64 batch_segment). by split.
Defined.
