(* ===== verification/UsageHold.v ===== *)
(** * The account-wide usage hold (package usagehold)

    The registry of accounts: which usage windows hold or stop an account, how
    each event and each passing reset time changes that, the subscribers'
    notifications, and the state kept in the metadata store across a restart
    (cmd/foci-gw/usage_hold.go).  Every operation holds the registry's mutex
    from start to end, so an interleaving of callers is a sequence of
    operations; the calls to subscribers happen after it and are returned.
    [time.Now()] is an argument, and float64 is the IEEE binary64 of the
    Standard Library's [SpecFloat]. *)
From Stdlib Require Import Floats.SpecFloat Sorting.Sorted.
From S2P Require Import Prelude GoStrings GoNum.
From stdpp Require Import fin_maps.
Local Open Scope Z_scope.
Local Open Scope gostr_scope.

(** ** Data *)

Inductive Phase := Open | Hold | Stop.
#[export] Instance Phase_eq_dec : EqDecision Phase.
Proof. solve_decision. Defined.

Definition DefaultThresholdPercent : Z := 98.
Definition rejectedFallback : Duration := Hour.

Record Event := MkEvent {
  ev_Window : gostr; ev_Util : float64; HasUtil : bool; ev_Reached : bool; ev_ResetAt : Time;
}.
Record Window := MkWindow { Name : gostr; Util : float64; Reached : bool; ResetAt : Time }.
Record State := MkState { st_Phase : Phase; LiftAt : Time; Windows : list Window; Epoch : Z }.
Record Change := MkChange { Account : gostr; From_ : Phase; To_ : State }.
Record account := MkAccount {
  windows : gmap gostr Window; phase : Phase; epoch : Z; loaded : bool;
}.

(** Subscribers are known by their account and number; the metadata store,
    when there is one, holds one text per account. *)
Record Registry := MkRegistry {
  accounts : gmap gostr account;
  subs : gmap gostr (gset nat);
  nextSub : nat;
  threshold : float64;
  store : option (gmap gostr gostr);
}.

Definition percent (pct : Z) : float64 := f_div (f_of_Z pct) (f_of_Z 100).
Definition New : Registry := MkRegistry ∅ ∅ 0 (percent DefaultThresholdPercent) None.

Definition Primary_step (best : option Window) (w : Window) : option Window :=
  match best with
  | None => Some w
  | Some b =>
      if (Reached w && negb (Reached b)) || (Bool.eqb (Reached w) (Reached b) && f_gt (Util w) (Util b))
      then Some w else best
  end.

(** No window: the zero one. *)
Definition Primary (s : State) : option Window := fold_left Primary_step (Windows s) None.

Definition SetThresholdPercent (pct : Z) (r : Registry) : Registry :=
  if (pct <? 1) || (100 <? pct) then r
  else MkRegistry (accounts r) (subs r) (nextSub r) (percent pct) (store r).

Definition ThresholdPercent (r : Registry) : Z := f_round (f_mul (threshold r) (f_of_Z 100)).

Definition SetStore (s : gmap gostr gostr) (r : Registry) : Registry :=
  MkRegistry (accounts r) (subs r) (nextSub r) (threshold r) (Some s).

Definition Subscribe (acct : gostr) (r : Registry) : nat * Registry :=
  let id := nextSub r in
  (id, MkRegistry (accounts r) (<[acct := {[id]} ∪ default ∅ (subs r !! acct)]> (subs r)) (S id)
         (threshold r) (store r)).

Definition unsubscribe (acct : gostr) (id : nat) (r : Registry) : Registry :=
  MkRegistry (accounts r) (alter (fun ids => ids ∖ {[id]}) acct (subs r)) (nextSub r) (threshold r) (store r).

(** ** The store *)

Definition LoadUsageHold (s : gmap gostr gostr) (acct : gostr) : option gostr :=
  match s !! acct with Some [] => None | v => v end.

Definition SaveUsageHold (s : gmap gostr gostr) (acct value : gostr) : gmap gostr gostr :=
  if bool_decide (value = []) then delete acct s else <[acct := value]> s.

(** ** Phases *)

Fixpoint phase_loop (p : Phase) (ws : list Window) : Phase :=
  match ws with
  | [] => p
  | w :: ws => if Reached w then Stop else phase_loop Hold ws
  end.

(** The windows in the map's iteration order; no result depends on it. *)
Definition window_list (ws : gmap gostr Window) : list Window := (map_to_list ws).*2.
Definition phaseOf (ws : gmap gostr Window) : Phase := phase_loop Open (window_list ws).

Fixpoint insert_window (w : Window) (l : list Window) : list Window :=
  match l with
  | [] => [w]
  | x :: l => if string_le (Name w) (Name x) then w :: x :: l else x :: insert_window w l
  end.
Definition sort_windows (ws : list Window) : list Window := foldr insert_window [] ws.

(** The loop's unknownReset and LiftAt. *)
Fixpoint lift_loop (ws : list Window) (unknownReset : bool) (lift : Time) : Time :=
  match ws with
  | [] => if unknownReset then zero_time else lift
  | w :: ws =>
      if IsZero (ResetAt w) then lift_loop ws true lift
      else if After (ResetAt w) lift then lift_loop ws unknownReset (ResetAt w)
      else lift_loop ws unknownReset lift
  end.

Definition stateOf (a : account) : State :=
  MkState (phase a) (lift_loop (window_list (windows a)) false zero_time)
    (sort_windows (window_list (windows a))) (epoch a).

Definition next_epoch (e : Z) : Z := (e + 1) mod 2 ^ 64.

Definition expired (now : Time) (w : Window) : bool :=
  negb (IsZero (ResetAt w)) && negb (After (ResetAt w) now).

(** ** The operations on accounts *)

Section Json.
(** [json.Marshal] of a non-empty list of windows, and [json.Unmarshal]. *)
Context (marshal : list Window -> gostr) (unmarshal : gostr -> option (list Window)).

Definition encodeWindows (ws : list Window) : gostr := match ws with [] => [] | _ => marshal ws end.

(** The windows of a stored text; a later one replaces one of its name. *)
Definition stored_windows (raw : gostr) : gmap gostr Window :=
  match unmarshal raw with
  | Some ws => fold_left (fun m w => <[Name w := w]> m) ws ∅
  | None => ∅
  end.

Definition load (acct : gostr) (s : gmap gostr gostr) (a : account) : account :=
  match LoadUsageHold s acct with
  | Some raw =>
      match unmarshal raw with
      | Some ws =>
          let m := fold_left (fun m w => <[Name w := w]> m) ws (windows a) in
          MkAccount m (phaseOf m)
            (if bool_decide (phaseOf m = Open) then epoch a else next_epoch (epoch a)) true
      | None => MkAccount (windows a) (phase a) (epoch a) true
      end
  | None => MkAccount (windows a) (phase a) (epoch a) true
  end.

Definition accountLocked (acct : gostr) (r : Registry) : account :=
  let a := default (MkAccount ∅ Open 0 false) (accounts r !! acct) in
  match store r with
  | Some s => if loaded a then a else load acct s a
  | None => a
  end.

Definition settleLocked (acct : gostr) (a : account) (now : Time) (changed : bool) (r : Registry)
    : State * list (nat * Change) * Registry :=
  let ws := filter (fun nw => expired now nw.2 = false) (windows a) in
  let changed := changed || existsb (expired now) (window_list (windows a)) in
  let from := phase a in
  let to := phaseOf ws in
  let e := if bool_decide (from = Open) && negb (bool_decide (to = Open)) then next_epoch (epoch a)
           else epoch a in
  let a := MkAccount ws to e (loaded a) in
  let st := stateOf a in
  let store' := match store r with
                | Some s => Some (if changed then SaveUsageHold s acct (encodeWindows (Windows st)) else s)
                | None => None
                end in
  let calls := if bool_decide (from = to) then []
               else (fun id => (id, MkChange acct from st)) <$> elements (default ∅ (subs r !! acct)) in
  (st, calls, MkRegistry (<[acct := a]> (accounts r)) (subs r) (nextSub r) (threshold r) store').

(** The switch of [Observe]. *)
Definition observe_windows (th : float64) (ev : Event) (now : Time) (ws : gmap gostr Window)
    : gmap gostr Window :=
  if ev_Reached ev then
    let reset := if After (ev_ResetAt ev) now then ev_ResetAt ev else TimeAdd now rejectedFallback in
    <[ev_Window ev := MkWindow (ev_Window ev) (f_of_Z 1) true reset]> ws
  else if HasUtil ev && f_ge (ev_Util ev) (f_sub th (f_div (f_of_Z 1) (f_of_Z 1000000000))) then
    if IsZero (ev_ResetAt ev) || After (ev_ResetAt ev) now
    then <[ev_Window ev := MkWindow (ev_Window ev) (ev_Util ev) false (ev_ResetAt ev)]> ws
    else ws
  else if HasUtil ev then delete (ev_Window ev) ws
  else ws.

Definition Observe (acct : gostr) (ev : Event) (now : Time) (r : Registry)
    : State * list (nat * Change) * Registry :=
  let a := accountLocked acct r in
  let a := MkAccount (observe_windows (threshold r) ev now (windows a)) (phase a) (epoch a) (loaded a) in
  settleLocked acct a now true r.

Definition State_ (acct : gostr) (now : Time) (r : Registry) : State * list (nat * Change) * Registry :=
  settleLocked acct (accountLocked acct r) now false r.

(** [Tick]: [State] on every account there is, in any order. *)
Definition Tick (now : Time) (r : Registry) : list (nat * Change) * Registry :=
  fold_left (fun '(calls, r) acct =>
               let '(_, more, r) := State_ acct now r in (calls ++ more, r))
    (map_to_list (accounts r)).*1 ([], r).
End Json.

(** ** What a state reports *)

Definition live (t : Time) (ws : gmap gostr Window) : gmap gostr Window :=
  filter (fun nw => expired t nw.2 = false) ws.

Definition keyed (ws : gmap gostr Window) : Prop := forall n w, ws !! n = Some w -> Name w = n.

Lemma window_list_spec ws w : w ∈ window_list ws <-> exists n, ws !! n = Some w.
Proof.
  unfold window_list. rewrite list_elem_of_fmap. split.
  - intros ([n w'] & -> & H). exists n. by apply elem_of_map_to_list.
  - intros [n H]. exists (n, w). split; [done|]. by apply elem_of_map_to_list.
Qed.

Lemma phase_loop_spec p ws :
  phase_loop p ws = match ws with
                    | [] => p
                    | _ => if existsb Reached ws then Stop else Hold
                    end.
Proof.
  revert p. induction ws as [|w ws IH]; intros p; [done|]. cbn [phase_loop existsb].
  destruct (Reached w); [done|]. rewrite IH. by destruct ws.
Qed.

Lemma window_list_nil ws : window_list ws = [] <-> ws = ∅.
Proof.
  unfold window_list. rewrite <- map_to_list_empty_iff. by destruct (map_to_list ws).
Qed.

Lemma phaseOf_open ws : phaseOf ws = Open <-> ws = ∅.
Proof.
  unfold phaseOf. rewrite phase_loop_spec, <- window_list_nil.
  destruct (window_list ws); [done|]. by destruct (existsb _ _).
Qed.

Lemma phaseOf_stop ws : phaseOf ws = Stop <-> exists n w, ws !! n = Some w /\ Reached w = true.
Proof.
  unfold phaseOf. rewrite phase_loop_spec. split.
  - destruct (window_list ws) as [|x l] eqn:E; [done|]. destruct (existsb _ _) eqn:Ex; [|done].
    intros _. apply existsb_elem in Ex as (w & Hw & Hr). rewrite <- E in Hw.
    apply window_list_spec in Hw as [n Hn]. eauto.
  - intros (n & w & Hn & Hr). assert (w ∈ window_list ws) as Hw by (apply window_list_spec; eauto).
    destruct (window_list ws) as [|x l]; [by apply elem_of_nil in Hw|].
    assert (existsb Reached (x :: l) = true) as ->; [|done]. apply existsb_elem. eauto.
Qed.

Lemma insert_window_perm w l : insert_window w l ≡ₚ w :: l.
Proof.
  induction l as [|x l IH]; cbn; [done|]. destruct (string_le _ _); [done|]. rewrite IH. constructor.
Qed.

Lemma sort_windows_perm l : sort_windows l ≡ₚ l.
Proof. induction l as [|w l IH]; cbn; [done|]. by rewrite insert_window_perm, IH. Qed.

Definition name_le (a b : Window) : Prop := string_le (Name a) (Name b) = true.

Lemma insert_window_sorted w l : Sorted name_le l -> Sorted name_le (insert_window w l).
Proof.
  induction l as [|x l IH]; cbn; [by repeat constructor|]. intros [Hs Hh]%Sorted_inv.
  destruct (string_le (Name w) (Name x)) eqn:E; [by repeat constructor|].
  apply string_le_total in E. constructor; [by apply IH|].
  destruct l as [|y l]; cbn; [by constructor|]. apply HdRel_inv in Hh.
  destruct (string_le (Name w) (Name y)); by constructor.
Qed.

Lemma sort_windows_sorted l : Sorted name_le (sort_windows l).
Proof. induction l as [|w l IH]; cbn; [constructor|by apply insert_window_sorted]. Qed.

Lemma lift_loop_unknown ws lift : lift_loop ws true lift = zero_time.
Proof.
  revert lift. induction ws as [|w ws IH]; intros lift; cbn; [done|].
  by destruct (IsZero _); [|destruct (After _ _)].
Qed.

(** [LiftAt] is zero when a window has no reset time, and otherwise the latest
    of the resets. *)
Lemma lift_loop_spec ws lift :
  0 <= lift ->
  if existsb (fun w => IsZero (ResetAt w)) ws then lift_loop ws false lift = zero_time
  else lift <= lift_loop ws false lift
       /\ Forall (fun w => ResetAt w <= lift_loop ws false lift) ws
       /\ (lift_loop ws false lift = lift \/ exists w, w ∈ ws /\ lift_loop ws false lift = ResetAt w).
Proof.
  revert lift. induction ws as [|w ws IH]; intros lift Hl; cbn [existsb lift_loop].
  { split_and!; [lia|constructor|by left]. }
  destruct (IsZero (ResetAt w)) eqn:Ez; cbn [orb]; [apply lift_loop_unknown|].
  unfold After. destruct (Z.ltb_spec lift (ResetAt w)) as [Hlt|Hge].
  - specialize (IH (ResetAt w) ltac:(lia)). destruct (existsb _ _); [done|].
    destruct IH as (H1 & H2 & H3). split_and!; [lia|by constructor|].
    right. destruct H3 as [->|(w' & Hw' & ->)]; eexists; (split; [|reflexivity]); [left|by right].
  - specialize (IH lift Hl). destruct (existsb _ _); [done|].
    destruct IH as (H1 & H2 & H3). split_and!; [lia|constructor; [lia|done]|].
    destruct H3 as [->|(w' & Hw' & ->)]; [by left|right]. exists w'. split; [by right|done].
Qed.

(** ** Windows alive at a time *)

Lemma live_lookup t ws n :
  live t ws !! n = match ws !! n with Some w => if expired t w then None else Some w | None => None end.
Proof.
  unfold live. rewrite map_lookup_filter. destruct (ws !! n) as [w|]; [|done]. cbn.
  by destruct (expired t w).
Qed.

Lemma expired_later now t w : now <= t -> expired now w = true -> expired t w = true.
Proof.
  unfold expired, After. intros Ht. destruct (IsZero _); [done|]. cbn.
  destruct (Z.ltb_spec now (ResetAt w)), (Z.ltb_spec t (ResetAt w)); try done; lia.
Qed.

Lemma live_live now t ws : now <= t -> live t (live now ws) = live t ws.
Proof.
  intros Ht. apply map_eq. intros n. rewrite !live_lookup. destruct (ws !! n) as [w|]; [|done].
  destruct (expired now w) eqn:E; [|done]. by rewrite (expired_later now t w Ht E).
Qed.

Lemma observe_live th ev now t ws ws' :
  live t ws = live t ws' ->
  live t (observe_windows th ev now ws) = live t (observe_windows th ev now ws').
Proof.
  intros H. assert (forall n w, live t (<[n := w]> ws) = live t (<[n := w]> ws')) as Hi.
  { intros n w. apply map_eq. intros m. pose proof (f_equal (lookup m) H) as Hm. cbn in Hm.
    rewrite !live_lookup in Hm |- *. destruct (decide (n = m)) as [->|Hne].
    - by rewrite !lookup_insert_eq.
    - by rewrite !lookup_insert_ne. }
  unfold observe_windows. destruct (ev_Reached ev); [apply Hi|]. destruct (_ && _).
  - destruct (_ || _); [apply Hi|done].
  - destruct (HasUtil ev); [|done]. apply map_eq. intros m. pose proof (f_equal (lookup m) H) as Hm. cbn in Hm.
    rewrite !live_lookup in Hm |- *. destruct (decide (ev_Window ev = m)) as [->|Hne].
    + by rewrite !lookup_delete_eq.
    + by rewrite !lookup_delete_ne.
Qed.

Lemma observe_forall (P : gostr -> Window -> Prop) th ev now ws :
  map_Forall P (observe_windows th ev now ∅) -> map_Forall P ws ->
  map_Forall P (observe_windows th ev now ws).
Proof.
  unfold observe_windows. intros He Hws. destruct (ev_Reached ev).
  - apply map_Forall_insert_2; [|done]. apply He. by rewrite lookup_insert_eq.
  - destruct (_ && _).
    + destruct (_ || _); [|done]. apply map_Forall_insert_2; [|done]. apply He. by rewrite lookup_insert_eq.
    + destruct (HasUtil ev); [|done]. by apply map_Forall_delete.
Qed.

Lemma observe_keyed th ev now ws : keyed ws -> keyed (observe_windows th ev now ws).
Proof.
  intros Hk. apply (observe_forall (fun n w => Name w = n)); [|done].
  unfold observe_windows. destruct (ev_Reached ev).
  - apply map_Forall_insert_2; [done|apply map_Forall_empty].
  - destruct (_ && _).
    + destruct (_ || _); [|apply map_Forall_empty]. apply map_Forall_insert_2; [done|apply map_Forall_empty].
    + destruct (HasUtil ev); [|apply map_Forall_empty]. rewrite delete_empty. apply map_Forall_empty.
Qed.

(** Reading a list of windows with distinct names into a map. *)
Definition read_windows (ws : list Window) (m : gmap gostr Window) : gmap gostr Window :=
  fold_left (fun m w => <[Name w := w]> m) ws m.

Lemma read_windows_spec ws m :
  NoDup (Name <$> ws) ->
  (forall w, w ∈ ws -> read_windows ws m !! Name w = Some w)
  /\ (forall n, n ∉ Name <$> ws -> read_windows ws m !! n = m !! n).
Proof.
  revert m. induction ws as [|x ws IH]; intros m; cbn; [by split; [intros w ?%elem_of_nil|]|].
  intros [Hx Hnd]%NoDup_cons. destruct (IH (<[Name x := x]> m) Hnd) as [H1 H2]. split.
  - intros w [->|Hw]%elem_of_cons; [|by apply H1].
    rewrite H2 by done. by rewrite lookup_insert_eq.
  - intros n [Hn Hn']%not_elem_of_cons. rewrite H2 by done. by rewrite lookup_insert_ne.
Qed.

Lemma window_list_names ws : keyed ws -> Name <$> window_list ws = (map_to_list ws).*1.
Proof.
  intros Hk. unfold window_list. rewrite <- list_fmap_compose. apply list_fmap_ext.
  intros i [n w] Hi. cbn. apply Hk, elem_of_map_to_list. by eapply list_elem_of_lookup_2.
Qed.

Lemma read_sorted_windows ws : keyed ws -> read_windows (sort_windows (window_list ws)) ∅ = ws.
Proof.
  intros Hk. set (l := sort_windows (window_list ws)).
  assert (l ≡ₚ window_list ws) as Hp by apply sort_windows_perm.
  assert (NoDup (Name <$> l)) as Hnd.
  { rewrite Hp, window_list_names by done. apply NoDup_fst_map_to_list. }
  destruct (read_windows_spec l ∅ Hnd) as [H1 H2]. apply map_eq. intros n.
  destruct (ws !! n) as [w|] eqn:E.
  - rewrite <- (Hk n w E) at 1. apply H1. rewrite Hp. apply window_list_spec. eauto.
  - rewrite H2; [by rewrite lookup_empty|]. rewrite Hp, window_list_names by done.
    intros ([n' w] & -> & Hin)%list_elem_of_fmap. apply elem_of_map_to_list in Hin. cbn in E. congruence.
Qed.

(** ** Operations, runs and the history they follow *)

Inductive op :=
| OpObserve (acct : gostr) (ev : Event)
| OpState (acct : gostr)
| OpTick
| OpSubscribe (acct : gostr)
| OpUnsubscribe (acct : gostr) (id : nat)
| OpThreshold (pct : Z)
| OpRestart.

(** The specification: each account's own events, in order, on a map that
    never expires anything. *)
Record history := MkHistory { h_windows : gmap gostr (gmap gostr Window); h_threshold : float64 }.
Definition history_of (h : history) (acct : gostr) : gmap gostr Window := default ∅ (h_windows h !! acct).

Definition spec_op (o : op) (now : Time) (h : history) : history :=
  match o with
  | OpObserve acct ev =>
      MkHistory (<[acct := observe_windows (h_threshold h) ev now (history_of h acct)]> (h_windows h))
        (h_threshold h)
  | OpThreshold pct =>
      if (pct <? 1) || (100 <? pct) then h else MkHistory (h_windows h) (percent pct)
  | OpRestart => MkHistory (h_windows h) (percent DefaultThresholdPercent)
  | _ => h
  end.

Section Runs.
Context (marshal : list Window -> gostr) (unmarshal : gostr -> option (list Window)).
(** The windows [encoding/json] can write and read back: a finite use, a year it
    can format, a name in UTF-8. *)
Context (storable : Window -> Prop).

Definition json_ok : Prop :=
  forall ws, ws <> [] -> Forall storable ws -> marshal ws <> [] /\ unmarshal (marshal ws) = Some ws.

(** A restart keeps the store and nothing else. *)
Definition apply_op (o : op) (now : Time) (r : Registry) : list (nat * Change) * Registry :=
  match o with
  | OpObserve acct ev => let '(_, calls, r) := Observe marshal unmarshal acct ev now r in (calls, r)
  | OpState acct => let '(_, calls, r) := State_ marshal unmarshal acct now r in (calls, r)
  | OpTick => Tick marshal unmarshal now r
  | OpSubscribe acct => ([], (Subscribe acct r).2)
  | OpUnsubscribe acct id => ([], unsubscribe acct id r)
  | OpThreshold pct => ([], SetThresholdPercent pct r)
  | OpRestart => ([], MkRegistry ∅ ∅ 0 (percent DefaultThresholdPercent) (store r))
  end.

(** The event of an [Observe] stores a window JSON can keep. *)
Definition op_storable (o : op) (now : Time) (r : Registry) : Prop :=
  match o with
  | OpObserve _ ev => map_Forall (fun _ w => storable w) (observe_windows (threshold r) ev now ∅)
  | _ => True
  end.

(** Runs of a process and its successors from an empty store; time does not go
    back. *)
Inductive runs : Time -> Registry -> history -> Prop :=
| runs_start now : runs now (SetStore ∅ New) (MkHistory ∅ (percent DefaultThresholdPercent))
| runs_op now t o r h :
    runs now r h -> now <= t -> op_storable o t r ->
    runs t (apply_op o t r).2 (spec_op o t h).

(** *** The simulation relation *)

Definition store_windows (s : gmap gostr gostr) (acct : gostr) : gmap gostr Window :=
  match LoadUsageHold s acct with Some raw => stored_windows unmarshal raw | None => ∅ end.

Record good (now : Time) (ws hws : gmap gostr Window) : Prop := Good {
  good_storable : map_Forall (fun _ w => storable w) ws;
  good_keyed : keyed ws;
  good_live t : now <= t -> live t ws = live t hws;
}.

Record agrees (now : Time) (r : Registry) (h : history) : Prop := Agrees {
  ag_threshold : threshold r = h_threshold h;
  ag_store : exists s, store r = Some s /\ forall acct, good now (store_windows s acct) (history_of h acct);
  ag_accounts acct a : accounts r !! acct = Some a ->
    loaded a = true /\ phase a = phaseOf (windows a) /\ good now (windows a) (history_of h acct);
}.

Lemma good_later now t ws hws : now <= t -> good now ws hws -> good t ws hws.
Proof. intros Ht [H1 H2 H3]. split; [done..|]. intros t' Ht'. apply H3. lia. Qed.

Lemma agrees_later now t r h : now <= t -> agrees now r h -> agrees t r h.
Proof.
  intros Ht [H1 (s & Hs & H2) H3]. split; [done| |].
  - exists s. split; [done|]. intros acct. by eapply good_later.
  - intros acct a Ha. destruct (H3 acct a Ha) as (? & ? & ?). split_and!; [done..|by eapply good_later].
Qed.

Lemma good_live_self now ws hws : good now ws hws -> good now (live now ws) hws.
Proof.
  intros [H1 H2 H3]. split.
  - intros n w. rewrite live_lookup. destruct (ws !! n) eqn:E; [|done]. destruct (expired _ _); [done|].
    intros [= <-]. by apply (H1 n).
  - intros n w. rewrite live_lookup. destruct (ws !! n) eqn:E; [|done]. destruct (expired _ _); [done|].
    intros [= <-]. by apply H2.
  - intros t Ht. by rewrite live_live, H3.
Qed.

Lemma good_observe th ev now ws hws :
  map_Forall (fun _ w => storable w) (observe_windows th ev now ∅) -> good now ws hws ->
  good now (observe_windows th ev now ws) (observe_windows th ev now hws).
Proof.
  intros He [H1 H2 H3]. split; [by apply observe_forall|by apply observe_keyed|].
  intros t Ht. by apply observe_live, H3.
Qed.

Lemma accountLocked_good now r h acct :
  agrees now r h ->
  let a := accountLocked unmarshal acct r in
  loaded a = true /\ phase a = phaseOf (windows a) /\ good now (windows a) (history_of h acct).
Proof.
  intros [_ (s & Hs & Hst) Ha]. unfold accountLocked. rewrite Hs.
  destruct (accounts r !! acct) as [a|] eqn:E; cbn [default from_option id].
  - destruct (Ha acct a E) as (Hl & Hp & Hg). by rewrite Hl.
  - cbn [loaded]. specialize (Hst acct). unfold store_windows in Hst. unfold load, stored_windows in *.
    destruct (LoadUsageHold s acct) as [raw|]; [|done]. destruct (unmarshal raw); done.
Qed.

Lemma saved_windows s acct ws :
  json_ok -> map_Forall (fun _ w => storable w) ws -> keyed ws ->
  store_windows (SaveUsageHold s acct (encodeWindows marshal (sort_windows (window_list ws)))) acct = ws.
Proof.
  intros Hj Hs Hk. pose proof (read_sorted_windows ws Hk) as Hr.
  assert (Forall storable (sort_windows (window_list ws))) as Hf.
  { rewrite Forall_forall. intros w. rewrite sort_windows_perm, window_list_spec. intros [n Hn]. by apply (Hs n). }
  unfold store_windows, LoadUsageHold, SaveUsageHold, encodeWindows, stored_windows.
  destruct (sort_windows (window_list ws)) as [|w l] eqn:E.
  - rewrite bool_decide_eq_true_2, lookup_delete_eq by done. done.
  - destruct (Hj (w :: l) ltac:(done) Hf) as [Hne Hu]. rewrite bool_decide_eq_false_2 by done.
    rewrite lookup_insert_eq. destruct (marshal (w :: l)); [done|]. rewrite Hu. exact Hr.
Qed.

Lemma saved_other s acct acct' v :
  acct' <> acct -> store_windows (SaveUsageHold s acct v) acct' = store_windows s acct'.
Proof.
  intros Hne. unfold store_windows, LoadUsageHold, SaveUsageHold.
  case_bool_decide; by rewrite ?lookup_delete_ne, ?lookup_insert_ne by done.
Qed.

Lemma no_expiry now ws : existsb (expired now) (window_list ws) = false -> live now ws = ws.
Proof.
  intros H. apply map_eq. intros n. rewrite live_lookup. destruct (ws !! n) as [w|] eqn:E; [|done].
  destruct (expired now w) eqn:Ee; [|done]. exfalso. apply not_true_iff_false in H. apply H, existsb_elem.
  exists w. split; [|done]. apply window_list_spec. eauto.
Qed.

(** The step every operation ends in.  [ws'] and [hws'] are the account's windows
    and history after the event, if there was one. *)
Lemma settle_agrees now r h h' acct a changed :
  json_ok -> agrees now r h ->
  h_threshold h' = h_threshold h ->
  (forall acct', acct' <> acct -> history_of h' acct' = history_of h acct') ->
  loaded a = true -> good now (windows a) (history_of h' acct) ->
  changed = true \/ history_of h' acct = history_of h acct ->
  agrees now (settleLocked marshal acct a now changed r).2 h'.
Proof.
  intros Hj [Ht (s & Hs & Hst) Ha] Hth Hoth Hl Hg Hch. unfold settleLocked. rewrite Hs.
  set (ws := filter _ (windows a)). change ws with (live now (windows a)). clear ws.
  pose proof (good_live_self _ _ _ Hg) as Hg'. cbn zeta. cbn [snd stateOf Windows windows].
  split; cbn [threshold store accounts].
  - by rewrite Hth.
  - eexists. split; [done|]. intros acct'. destruct (decide (acct' = acct)) as [->|Hne].
    + destruct (changed || _) eqn:Ec.
      * destruct Hg' as [H1 H2 H3]. by rewrite saved_windows.
      * apply orb_false_iff in Ec as [-> Ec]. destruct Hch as [|Hch]; [done|]. rewrite Hch. apply Hst.
    + rewrite Hoth by done. destruct (changed || _); [rewrite saved_other by done|]; apply Hst.
  - intros acct' b. rewrite lookup_insert_Some. intros [[<- <-]|[Hne Hb]]; [done|].
    rewrite Hoth by done. by apply Ha.
Qed.

Lemma state_agrees now r h acct :
  json_ok -> agrees now r h -> agrees now (State_ marshal unmarshal acct now r).2 h.
Proof.
  intros Hj Hag. destruct (accountLocked_good now r h acct Hag) as (Hl & _ & Hg).
  unfold State_. eapply settle_agrees; eauto.
Qed.

Lemma tick_agrees now r h : json_ok -> agrees now r h -> agrees now (Tick marshal unmarshal now r).2 h.
Proof.
  intros Hj. unfold Tick. generalize (map_to_list (accounts r)).*1 as names, (@nil (nat * Change)) as calls.
  intros names. revert r. induction names as [|acct names IH]; intros r calls Hag; [done|]. cbn [fold_left].
  pose proof (state_agrees now r h acct Hj Hag) as Hs.
  destruct (State_ marshal unmarshal acct now r) as [[st more] r']. by apply IH.
Qed.

Lemma agrees_accounts now r r' h :
  agrees now r h -> accounts r' = accounts r -> store r' = store r -> threshold r' = threshold r ->
  agrees now r' h.
Proof. intros [H1 H2 H3] Ea Es Et. split; [by rewrite Et|by rewrite Es|by rewrite Ea]. Qed.

Lemma op_agrees now o r h :
  json_ok -> agrees now r h -> op_storable o now r -> agrees now (apply_op o now r).2 (spec_op o now h).
Proof.
  intros Hj Hag Hst. destruct o as [acct ev|acct| |acct|acct id|pct|]; cbn [apply_op spec_op].
  - destruct (accountLocked_good now r h acct Hag) as (Hl & _ & Hg).
    assert (agrees now (Observe marshal unmarshal acct ev now r).2
      (spec_op (OpObserve acct ev) now h)) as Ho.
    { unfold Observe. eapply settle_agrees; [done|done|done| |done| |by left]; cbn [spec_op windows].
      - intros acct' Hne. unfold history_of. cbn [h_windows]. by rewrite lookup_insert_ne.
      - unfold history_of at 1. cbn [h_windows]. rewrite lookup_insert_eq. cbn [default from_option id].
        rewrite <- (ag_threshold _ _ _ Hag). by apply good_observe. }
    by destruct (Observe _ _ _ _ _ _) as [[st calls] r'].
  - pose proof (state_agrees now r h acct Hj Hag). by destruct (State_ _ _ _ _ _) as [[st calls] r'].
  - by apply tick_agrees.
  - by eapply agrees_accounts.
  - by eapply agrees_accounts.
  - cbn [snd]. unfold SetThresholdPercent. destruct (_ || _); [done|]. destruct Hag as [H1 H2 H3]. by split.
  - destruct Hag as [H1 H2 H3]. split; [done|exact H2|]. cbn [snd accounts]. intros acct a. by rewrite lookup_empty.
Qed.

Lemma runs_agree now r h : json_ok -> runs now r h -> agrees now r h.
Proof.
  intros Hj. induction 1 as [now|now t o r h _ IH Ht Hs].
  - split; [done| |intros acct a; cbn; by rewrite lookup_empty].
    exists ∅. split; [done|]. intros acct. unfold store_windows, LoadUsageHold, history_of. cbn [h_windows].
    rewrite !lookup_empty. cbn. split; [apply map_Forall_empty|intros n w; by rewrite lookup_empty|done].
  - apply op_agrees; [done|by eapply agrees_later|done].
Qed.

(** *** Properties of states and runs *)

(** The windows of [acct] that still count at [t]. *)
Definition alive (r : Registry) (acct : gostr) (t : Time) : gmap gostr Window :=
  live t (windows (accountLocked unmarshal acct r)).

Lemma State_eq acct t r :
  let a := accountLocked unmarshal acct r in
  let st := (State_ marshal unmarshal acct t r).1.1 in
  Windows st = sort_windows (window_list (alive r acct t))
  /\ st_Phase st = phaseOf (alive r acct t)
  /\ LiftAt st = lift_loop (window_list (alive r acct t)) false zero_time.
Proof. done. Qed.

Lemma alive_not_expired r acct t w : w ∈ window_list (alive r acct t) -> expired t w = false.
Proof.
  intros [n Hn]%window_list_spec. unfold alive in Hn. rewrite live_lookup in Hn.
  destruct (_ !! n) as [w'|]; [|done]. destruct (expired t w') eqn:E; [done|]. by simplify_eq.
Qed.

(** The state an account reports is the state of its windows.  It lists, in
    the order of their names, the windows whose reset has not passed; it is Stop
    exactly when one of them is reached, Open exactly when there is none, and
    LiftAt is the latest reset, still to come, unless a window's reset is
    unknown, when it is zero. *)
Theorem state_reports (r : Registry) (acct : gostr) (t : Time) :
  0 <= t ->
  let st := (State_ marshal unmarshal acct t r).1.1 in
  Windows st ≡ₚ window_list (alive r acct t)
  /\ Sorted name_le (Windows st)
  /\ (st_Phase st = Stop <-> exists w, w ∈ Windows st /\ Reached w = true)
  /\ (st_Phase st = Open <-> Windows st = [])
  /\ (Windows st = [] \/ (exists w, w ∈ Windows st /\ ResetAt w = zero_time) -> LiftAt st = zero_time)
  /\ (Windows st <> [] -> Forall (fun w => ResetAt w <> zero_time) (Windows st) ->
      t < LiftAt st /\ Forall (fun w => t < ResetAt w <= LiftAt st) (Windows st)
      /\ exists w, w ∈ Windows st /\ LiftAt st = ResetAt w).
Proof.
  intros Ht. destruct (State_eq acct t r) as (Hw & Hp & Hl). cbv zeta in *. rewrite Hp, Hl.
  pose proof (sort_windows_perm (window_list (alive r acct t))) as Hperm. rewrite <- Hw in Hperm.
  assert (forall w, w ∈ Windows (State_ marshal unmarshal acct t r).1.1 <-> w ∈ window_list (alive r acct t))
    as Hin by (intros w; by rewrite Hperm).
  assert (Windows (State_ marshal unmarshal acct t r).1.1 = [] <-> alive r acct t = ∅) as Hnil.
  { rewrite <- window_list_nil. rewrite <- (Permutation_nil_r (Windows _)), Hperm. apply Permutation_nil_r. }
  pose proof (lift_loop_spec (window_list (alive r acct t)) zero_time ltac:(done)) as Hlift.
  split_and!; [done|rewrite Hw; apply sort_windows_sorted| | | |].
  - rewrite phaseOf_stop. split.
    + intros (n & w & Hn & Hr). exists w. rewrite Hin, window_list_spec. eauto.
    + intros (w & [n Hn]%Hin%window_list_spec & Hr). eauto.
  - by rewrite phaseOf_open, Hnil.
  - intros [->%Hnil|(w & Hw'%Hin & Hz)].
    + assert (window_list ∅ = []) as -> by by apply window_list_nil. done.
    + destruct (existsb _ _) eqn:E; [done|]. apply not_true_iff_false in E. exfalso. apply E, existsb_elem.
      exists w. split; [done|]. by apply Z.eqb_eq.
  - intros Hne Hz. destruct (existsb _ _) eqn:E.
    { apply existsb_elem in E as (w & Hw' & Hz'). rewrite Forall_forall in Hz.
      apply Z.eqb_eq in Hz'. exfalso. apply (Hz w); [by apply Hin|done]. }
    destruct Hlift as (H0 & Hall & Hex). rewrite !Forall_forall in *.
    assert (forall w, w ∈ Windows (State_ marshal unmarshal acct t r).1.1 ->
      t < ResetAt w <= lift_loop (window_list (alive r acct t)) false zero_time) as Hb.
    { intros w Hw'. split; [|by apply Hall, Hin]. pose proof (Hz w Hw') as Hnz.
      apply Hin, alive_not_expired in Hw'. unfold expired, IsZero, After in Hw'. unfold zero_time in Hnz.
      rewrite (proj2 (Z.eqb_neq _ _) Hnz) in Hw'. cbn in Hw'. by destruct (Z.ltb_spec t (ResetAt w)). }
    destruct (Windows (State_ marshal unmarshal acct t r).1.1) as [|w0 l] eqn:Ew; [done|].
    pose proof (Hb w0 ltac:(left)) as Hb0. split_and!; [lia|done|].
    destruct Hex as [Hex|(w & Hw' & ->)]; [unfold zero_time in *; lia|]. exists w. split; [by apply Hin|done].
Qed.

Lemma alive_after_state r acct now t st c r1 :
  State_ marshal unmarshal acct now r = (st, c, r1) -> alive r1 acct t = live t (alive r acct now).
Proof.
  unfold State_, settleLocked. intros E. injection E as _ _ <-. unfold alive.
  unfold accountLocked at 1. cbn [store accounts]. rewrite lookup_insert_eq. cbn [default from_option id].
  destruct (store r) as [s|] eqn:Es; cbn [loaded]; [|done].
  assert (loaded (accountLocked unmarshal acct r) = true) as ->; [|done].
  unfold accountLocked. rewrite Es. set (a := default _ _). destruct (loaded a) eqn:El; [done|].
  unfold load. destruct (LoadUsageHold s acct) as [raw|]; [|done]. by destruct (unmarshal raw).
Qed.

(** Without further events a hold ends at its LiftAt and not before: asked
    again later, the account is open exactly when it was open already or LiftAt
    is known and has come. *)
Theorem hold_lifts (r : Registry) (acct : gostr) (now t : Time) :
  0 <= now -> now <= t ->
  let '(st, _, r1) := State_ marshal unmarshal acct now r in
  st_Phase (State_ marshal unmarshal acct t r1).1.1 = Open
  <-> st_Phase st = Open \/ (LiftAt st <> zero_time /\ LiftAt st <= t).
Proof.
  intros Hn Ht. pose proof (State_eq acct now r) as (_ & Hp & Hl). cbv zeta in *.
  destruct (State_ marshal unmarshal acct now r) as [[st c] r1] eqn:E. cbn [fst] in *.
  pose proof (State_eq acct t r1) as (_ & -> & _). rewrite (alive_after_state _ _ _ _ _ _ _ E).
  rewrite Hp, Hl, !phaseOf_open.
  pose proof (lift_loop_spec (window_list (alive r acct now)) zero_time ltac:(done)) as Hlift. split.
  - intros Hempty. destruct (decide (alive r acct now = ∅)) as [|Hne]; [by left|right].
    assert (forall w, w ∈ window_list (alive r acct now) -> expired t w = true) as Hexp.
    { intros w [n Hw]%window_list_spec. pose proof (live_lookup t (alive r acct now) n) as Hlk.
      rewrite Hempty, lookup_empty, Hw in Hlk. by destruct (expired t w). }
    destruct (existsb _ _) eqn:Ez.
    { apply existsb_elem in Ez as (w & Hw & Hz). apply Hexp in Hw. unfold expired in Hw. by rewrite Hz in Hw. }
    destruct Hlift as (H0 & Hall & Hex). destruct (window_list (alive r acct now)) as [|w0 l] eqn:Ew.
    { by apply window_list_nil in Ew. }
    assert (forall w, w ∈ w0 :: l -> now < ResetAt w <= t) as Hb.
    { intros w Hw. pose proof (Hexp w Hw) as He. rewrite <- Ew in Hw.
      pose proof (alive_not_expired _ _ _ _ Hw) as Hne'. unfold expired, After in *.
      destruct (IsZero (ResetAt w)); [done|]. cbn [negb andb] in *.
      destruct (Z.ltb_spec now (ResetAt w)), (Z.ltb_spec t (ResetAt w)); done || lia. }
    rewrite Forall_forall in Hall. pose proof (Hb w0 ltac:(left)). pose proof (Hall w0 ltac:(left)).
    split; [unfold zero_time in *; lia|].
    destruct Hex as [->|(w & Hw & ->)]; [unfold zero_time; lia|by apply Hb].
  - intros [->|[Hnz Hle]]; [apply map_eq; intros n; by rewrite live_lookup, lookup_empty|].
    destruct (existsb _ _) eqn:Ez; [done|]. destruct Hlift as (H0 & Hall & _). rewrite Forall_forall in Hall.
    apply map_eq. intros n. rewrite live_lookup, lookup_empty.
    destruct (alive r acct now !! n) as [w|] eqn:Ew; [|done].
    assert (w ∈ window_list (alive r acct now)) as Hw by (apply window_list_spec; eauto).
    assert (expired t w = true) as ->; [|done]. unfold expired, After.
    apply not_true_iff_false in Ez. destruct (IsZero (ResetAt w)) eqn:Ez'.
    { exfalso. apply Ez, existsb_elem. eauto. }
    pose proof (Hall w Hw). cbn. destruct (Z.ltb_spec t (ResetAt w)); [lia|done].
Qed.

(** C4: An account's state depends on its own events alone.  Over every run,
    with ticks, queries, other accounts' events, threshold changes and restarts
    of the process in between, the windows reported at a time are those the
    account's own events leave when nothing is ever expired early, cut at that
    time; a restart neither forgets a hold nor revives one. *)
Theorem history_followed (now t : Time) (r : Registry) (h : history) (acct : gostr) :
  json_ok -> runs now r h -> now <= t ->
  let st := (State_ marshal unmarshal acct t r).1.1 in
  let ws := live t (history_of h acct) in
  Windows st = sort_windows (window_list ws) /\ st_Phase st = phaseOf ws
  /\ LiftAt st = lift_loop (window_list ws) false zero_time.
Proof.
  intros Hj Hr Ht. pose proof (State_eq acct t r) as (H1 & H2 & H3). cbv zeta in *.
  destruct (accountLocked_good now r h acct (runs_agree _ _ _ Hj Hr)) as (_ & _ & Hg).
  unfold alive in *. rewrite (good_live _ _ _ Hg t Ht) in *. done.
Qed.

(** *** What a subscriber hears *)

Definition heard (acct : gostr) (sid : nat) (calls : list (nat * Change)) : list Change :=
  omap (fun '(i, c) => if bool_decide (i = sid) && bool_decide (Account c = acct) then Some c else None) calls.

(** Changes that lead from one phase to another, each a real change. *)
Fixpoint chain (p : Phase) (cs : list Change) (q : Phase) : Prop :=
  match cs with
  | [] => p = q
  | c :: cs => From_ c = p /\ st_Phase (To_ c) <> p /\ chain (st_Phase (To_ c)) cs q
  end.

(** The epoch after changes, one more for each that leaves Open. *)
Definition epoch_after (e : Z) (cs : list Change) : Z :=
  fold_left (fun e c => if bool_decide (From_ c = Open) then next_epoch e else e) cs e.

Lemma chain_app p cs q cs' s : chain p cs q -> chain q cs' s -> chain p (cs ++ cs') s.
Proof.
  revert p. induction cs as [|c cs IH]; intros p; cbn; [by intros ->|].
  intros (H1 & H2 & H3) H'. split_and!; [done..|by apply IH].
Qed.

Lemma heard_app acct sid cs cs' : heard acct sid (cs ++ cs') = heard acct sid cs ++ heard acct sid cs'.
Proof. apply omap_app. Qed.

Lemma heard_same acct sid c (ids : gset nat) :
  sid ∈ ids -> heard acct sid ((fun i => (i, c)) <$> elements ids)
              = if bool_decide (Account c = acct) then [c] else [].
Proof.
  intros Hid%elem_of_elements. pose proof (NoDup_elements ids) as Hnd.
  assert (forall l, sid ∉ l -> heard acct sid ((fun i => (i, c)) <$> l) = []) as Hno.
  { induction l as [|i l IH]; [done|]. intros [Hi Hl]%not_elem_of_cons. unfold heard in *. cbn.
    rewrite bool_decide_eq_false_2 by done. cbn. by apply IH. }
  induction (elements ids) as [|i l IH]; [by apply elem_of_nil in Hid|].
  apply NoDup_cons in Hnd as [Hi Hnd]. unfold heard. cbn. apply elem_of_cons in Hid as [<-|Hid].
  - rewrite bool_decide_eq_true_2 by done. cbn. pose proof (Hno l Hi) as Hl. unfold heard in Hl.
    destruct (bool_decide (Account c = acct)); [by rewrite Hl|done].
  - rewrite (bool_decide_eq_false_2 (i = sid)) by (by intros ->). cbn. by apply IH.
Qed.

(** What one step does to an account a subscriber watches. *)
Definition watched (acct : gostr) (sid : nat) (r r' : Registry) (calls : list (nat * Change)) : Prop :=
  let a := accountLocked unmarshal acct r in
  let a' := accountLocked unmarshal acct r' in
  sid ∈ (default ∅ (subs r' !! acct) : gset nat)
  /\ chain (phase a) (heard acct sid calls) (phase a')
  /\ epoch a' = epoch_after (epoch a) (heard acct sid calls).

Lemma watched_trans acct sid r r' r'' cs cs' :
  watched acct sid r r' cs -> watched acct sid r' r'' cs' -> watched acct sid r r'' (cs ++ cs').
Proof.
  intros (_ & H1 & H2) (H3 & H4 & H5). split; [done|]. rewrite heard_app. split; [by eapply chain_app|].
  rewrite H5, H2. unfold epoch_after. by rewrite fold_left_app.
Qed.

Lemma watched_same acct sid r r' :
  sid ∈ (default ∅ (subs r' !! acct) : gset nat) -> accounts r' = accounts r -> store r' = store r ->
  watched acct sid r r' [].
Proof. intros Hid Ha Hs. unfold watched, accountLocked. by rewrite Ha, Hs. Qed.

Lemma accountLocked_loaded acct r s : store r = Some s -> loaded (accountLocked unmarshal acct r) = true.
Proof.
  intros Hs. unfold accountLocked. rewrite Hs. set (a := default _ _). destruct (loaded a) eqn:El; [done|].
  unfold load. destruct (LoadUsageHold s acct) as [raw|]; [|done]. by destruct (unmarshal raw).
Qed.

(** [a] is the account as loaded, up to the event's change to its windows. *)
Lemma watched_settle acct sid r acct' a now changed :
  sid ∈ (default ∅ (subs r !! acct) : gset nat) ->
  phase a = phase (accountLocked unmarshal acct' r) -> epoch a = epoch (accountLocked unmarshal acct' r) ->
  loaded a = loaded (accountLocked unmarshal acct' r) ->
  let '(_, calls, r') := settleLocked marshal acct' a now changed r in watched acct sid r r' calls.
Proof.
  intros Hid Hp He Hl. unfold settleLocked. split; [done|]. set (st := stateOf _).
  unfold accountLocked at 2 3. cbn [accounts store subs]. destruct (decide (acct' = acct)) as [->|Hne].
  - rewrite lookup_insert_eq. cbn [default from_option id].
    set (a' := MkAccount _ _ _ _).
    assert (match match store r with
                  | Some s => Some (if changed || existsb (expired now) (window_list (windows a))
                                    then SaveUsageHold s acct (encodeWindows marshal (Windows st)) else s)
                  | None => None
                  end with
            | Some s => if loaded a' then a' else load unmarshal acct s a'
            | None => a'
            end = a') as ->.
    { destruct (store r) as [s|] eqn:Es; [|done]. cbn [loaded a'].
      by rewrite Hl, (accountLocked_loaded acct r s Es). }
    cbn [phase epoch a']. rewrite <- Hp, <- He. clear a'. case_bool_decide as Hpp.
    + split; [done|]. cbn [heard omap list_omap epoch_after fold_left]. rewrite Hpp.
      by destruct (bool_decide (phaseOf _ = Open)).
    + rewrite heard_same by done. cbn [Account]. rewrite bool_decide_eq_true_2 by done.
      cbn [chain epoch_after fold_left From_ To_]. split_and!; [done|by apply not_eq_sym|done|].
      destruct (decide (phase a = Open)) as [E|E]; [|by rewrite bool_decide_eq_false_2].
      rewrite E in *. by rewrite (bool_decide_eq_false_2 (phaseOf _ = Open)) by (by apply not_eq_sym).
  - rewrite lookup_insert_ne by done.
    assert (heard acct sid (if bool_decide (phase a = phaseOf (filter (fun nw => expired now nw.2 = false) (windows a)))
      then [] else (fun i => (i, MkChange acct' (phase a) st)) <$> elements (default ∅ (subs r !! acct'))) = []) as ->.
    { case_bool_decide; [done|]. generalize (elements (default ∅ (subs r !! acct'))) as l.
      induction l as [|i l IH]; [done|]. unfold heard in *. cbn.
      rewrite (bool_decide_eq_false_2 (acct' = acct)), andb_false_r by done. exact IH. }
    unfold accountLocked. destruct (store r) as [s|]; [|done].
    assert (forall s', (s' = s \/ exists v, s' = SaveUsageHold s acct' v) ->
      LoadUsageHold s' acct = LoadUsageHold s acct) as Hload.
    { intros s' [->|[v ->]]; [done|]. unfold LoadUsageHold, SaveUsageHold.
      case_bool_decide; by rewrite ?lookup_delete_ne, ?lookup_insert_ne by done. }
    unfold load. match goal with |- context [if ?b then SaveUsageHold _ _ ?v else s] =>
      rewrite (Hload (if b then SaveUsageHold s acct' v else s)) by (destruct b; eauto) end.
    done.
Qed.

Lemma watched_state acct sid r acct' now :
  sid ∈ (default ∅ (subs r !! acct) : gset nat) ->
  let '(_, calls, r') := State_ marshal unmarshal acct' now r in watched acct sid r r' calls.
Proof. intros Hid. by apply (watched_settle acct sid r acct' _ now false). Qed.

Lemma watched_tick acct sid r now :
  sid ∈ (default ∅ (subs r !! acct) : gset nat) ->
  let '(calls, r') := Tick marshal unmarshal now r in watched acct sid r r' calls.
Proof.
  intros Hid. unfold Tick.
  enough (forall names calls r1, watched acct sid r r1 calls ->
    let '(calls, r') := fold_left (fun '(calls, r) acct =>
      let '(_, more, r) := State_ marshal unmarshal acct now r in (calls ++ more, r)) names (calls, r1) in
    watched acct sid r r' calls) as H by (apply H; by apply watched_same).
  induction names as [|n names IH]; intros calls r1 H0; [done|].
  cbn [fold_left]. pose proof (watched_state acct sid r1 n now (proj1 H0)) as Hs.
  destruct (State_ marshal unmarshal n now r1) as [[st more] r2]. apply IH. by eapply watched_trans.
Qed.

Definition keeps_subscription (acct : gostr) (sid : nat) (o : op) : Prop :=
  o <> OpUnsubscribe acct sid /\ o <> OpRestart.

Lemma watched_op acct sid o now r :
  sid ∈ (default ∅ (subs r !! acct) : gset nat) -> keeps_subscription acct sid o ->
  watched acct sid r (apply_op o now r).2 (apply_op o now r).1.
Proof.
  intros Hid [Hu Hre]. destruct o as [acct' ev|acct'| |acct'|acct' i|pct|]; cbn [apply_op].
  - pose proof (watched_settle acct sid r acct' (MkAccount
      (observe_windows (threshold r) ev now (windows (accountLocked unmarshal acct' r)))
      (phase (accountLocked unmarshal acct' r)) (epoch (accountLocked unmarshal acct' r))
      (loaded (accountLocked unmarshal acct' r))) now true Hid eq_refl eq_refl eq_refl) as H.
    unfold Observe. by destruct (settleLocked _ _ _ _ _ _) as [[st calls] r'].
  - pose proof (watched_state acct sid r acct' now Hid) as H.
    by destruct (State_ _ _ _ _ _) as [[st calls] r'].
  - pose proof (watched_tick acct sid r now Hid) as H. by destruct (Tick _ _ _ _) as [calls r'].
  - apply watched_same; [|done..]. cbn. destruct (decide (acct' = acct)) as [->|Hne].
    + rewrite lookup_insert_eq. cbn. set_solver.
    + by rewrite lookup_insert_ne.
  - apply watched_same; [|done..]. cbn. destruct (decide (acct' = acct)) as [->|Hne].
    + rewrite lookup_alter_eq. assert (i <> sid) by (intros ->; by apply Hu).
      destruct (subs r !! acct); cbn in *; set_solver.
    + by rewrite lookup_alter_ne.
  - cbn. unfold SetThresholdPercent. destruct (_ || _); by apply watched_same.
  - done.
Qed.

Fixpoint run_ops (ops : list (Time * op)) (r : Registry) : list (nat * Change) * Registry :=
  match ops with
  | [] => ([], r)
  | (now, o) :: ops =>
      let '(calls, r) := apply_op o now r in
      let '(more, r) := run_ops ops r in (calls ++ more, r)
  end.

(** A subscriber misses no transition and hears none twice.  Over any
    operations of one process, in any order and at any times, the changes a
    subscriber of an account hears lead step by step from the account's phase at
    the start to its phase at the end, each from the phase the one before it
    announced to another one, and the epoch has grown by one for each change
    that left Open. *)
Theorem changes_chain (acct : gostr) (sid : nat) (ops : list (Time * op)) (r : Registry) :
  sid ∈ (default ∅ (subs r !! acct) : gset nat) ->
  Forall (fun to => keeps_subscription acct sid to.2) ops ->
  let '(calls, r') := run_ops ops r in
  let a := accountLocked unmarshal acct r in
  let a' := accountLocked unmarshal acct r' in
  chain (phase a) (heard acct sid calls) (phase a')
  /\ epoch a' = epoch_after (epoch a) (heard acct sid calls).
Proof.
  intros Hid Hops. assert (watched acct sid r (run_ops ops r).2 (run_ops ops r).1) as Hw.
  { revert r Hid. induction ops as [|[now o] ops IH]; intros r Hid; [by apply watched_same|].
    apply Forall_cons in Hops as [Ho Hops]. cbn [run_ops].
    pose proof (watched_op acct sid o now r Hid Ho) as H1. destruct (apply_op o now r) as [calls r1].
    pose proof (IH Hops r1 (proj1 H1)) as H2. destruct (run_ops ops r1) as [more r2].
    by eapply watched_trans. }
  destruct (run_ops ops r) as [calls r']. apply Hw.
Qed.
End Runs.

(** Every threshold the configuration can set is read back as it was set,
    although it is kept as a binary fraction, and any other value leaves the
    registry as it is. *)
Theorem threshold_roundtrip (pct : Z) (r : Registry) :
  (1 <= pct <= 100 -> ThresholdPercent (SetThresholdPercent pct r) = pct)
  /\ (~ 1 <= pct <= 100 -> SetThresholdPercent pct r = r).
Proof.
  unfold SetThresholdPercent. split; intros Hp.
  - rewrite (proj2 (Z.ltb_ge _ _)), (proj2 (Z.ltb_ge _ _)) by lia. cbn [orb].
    unfold ThresholdPercent. cbn [threshold].
    assert (forallb (fun n => f_round (f_mul (percent n) (f_of_Z 100)) =? n) (seqZ 1 100) = true) as H
      by (by vm_compute).
    rewrite forallb_forall in H. apply Z.eqb_eq, H. apply list_elem_of_In, elem_of_seqZ. lia.
  - destruct (Z.ltb_spec pct 1); [done|]. destruct (Z.ltb_spec 100 pct); [done|lia].
Qed.

(** *** A concrete run *)

(** A text form of windows that are in full use. *)
Definition demo_storable (w : Window) : Prop := Util w = f_of_Z 1.
Definition demo_marshal (ws : list Window) : gostr :=
  "x"%char :: replicate (encode_nat ((fun w => (Name w, Reached w, ResetAt w)) <$> ws)) "x"%char.
Definition demo_unmarshal (s : gostr) : option (list Window) :=
  match decode_nat (pred (length s)) : option (list (gostr * bool * Z)) with
  | Some l => Some ((fun '(n, b, t) => MkWindow n (f_of_Z 1) b t) <$> l)
  | None => None
  end.

Lemma demo_json_ok : json_ok demo_marshal demo_unmarshal demo_storable.
Proof.
  intros ws _ Hs. split; [done|]. unfold demo_unmarshal, demo_marshal. cbn [length Nat.pred].
  rewrite length_replicate, decode_encode_nat. f_equal.
  rewrite <- list_fmap_compose. rewrite <- (list_fmap_id ws) at 2. apply list_fmap_ext.
  intros i w Hi. rewrite Forall_forall in Hs. specialize (Hs w (list_elem_of_lookup_2 _ _ _ Hi)).
  destruct w. unfold demo_storable in Hs. cbn in *. by rewrite Hs.
Qed.

Definition reached_event (reset : Time) : Event := MkEvent "seven_day" (f_of_Z 1) true true reset.
Definition demo_registry : Registry :=
  MkRegistry {["cc" := MkAccount {["seven_day" := MkWindow "seven_day" (f_of_Z 1) true 500]} Stop 1 false]}
    {["cc" := {[0%nat]}]} 1 (percent 98) None.

Example state_reports_witness :
  100 < LiftAt (State_ demo_marshal demo_unmarshal "cc" 100 demo_registry).1.1
  /\ st_Phase (State_ demo_marshal demo_unmarshal "cc" 100 demo_registry).1.1 = Stop.
Proof.
  destruct (state_reports demo_marshal demo_unmarshal demo_registry "cc" 100)
    as (_ & _ & H3 & _ & _ & H6); [done|].
  change (Windows (State_ demo_marshal demo_unmarshal "cc" 100 demo_registry).1.1)
    with [MkWindow "seven_day" (f_of_Z 1) true 500] in H3, H6. split.
  - apply H6; [done|]. by repeat constructor.
  - apply H3. eexists. split; [by left|done].
Defined.

Example hold_lifts_witness :
  st_Phase (State_ demo_marshal demo_unmarshal "cc" 500
    (State_ demo_marshal demo_unmarshal "cc" 100 demo_registry).2).1.1 = Open.
Proof.
  apply (hold_lifts demo_marshal demo_unmarshal demo_registry "cc" 100 500); [done|done|].
  right. by vm_compute.
Defined.

(** A limit is reached, the process restarts, and the hold is still there. *)
Definition held_registry : Registry :=
  (apply_op demo_marshal demo_unmarshal (OpObserve "cc" (reached_event 500)) 50 (SetStore ∅ New)).2.
Definition held_history : history :=
  spec_op (OpObserve "cc" (reached_event 500)) 50 (MkHistory ∅ (percent DefaultThresholdPercent)).

Lemma held_runs : runs demo_marshal demo_unmarshal demo_storable 50 held_registry held_history.
Proof.
  apply (runs_op _ _ _ 0); [apply runs_start|done|]. cbn [op_storable].
  intros n w. unfold observe_windows. cbn. rewrite lookup_insert_Some, lookup_empty. by intros [[_ <-]|[_ ?]].
Qed.

Lemma restarted_runs :
  runs demo_marshal demo_unmarshal demo_storable 60
    (apply_op demo_marshal demo_unmarshal OpRestart 60 held_registry).2 (spec_op OpRestart 60 held_history).
Proof. apply (runs_op demo_marshal demo_unmarshal demo_storable 50); [apply held_runs|lia|exact I]. Qed.

Example history_followed_witness :
  LiftAt (State_ demo_marshal demo_unmarshal "cc" 100
    (apply_op demo_marshal demo_unmarshal OpRestart 60 held_registry).2).1.1 = 500.
Proof.
  destruct (history_followed demo_marshal demo_unmarshal demo_storable 60 100
    (apply_op demo_marshal demo_unmarshal OpRestart 60 held_registry).2
    (spec_op OpRestart 60 held_history) "cc" demo_json_ok) as (_ & _ & H);
    [exact restarted_runs|done|]. cbv zeta in H. rewrite H. vm_compute. reflexivity.
Defined.

Example changes_chain_witness :
  let ops := [(100, OpObserve "cc" (reached_event 200)); (600, OpTick)] in
  let '(calls, r') := run_ops demo_marshal demo_unmarshal ops demo_registry in
  chain Stop (heard "cc" 0 calls) (phase (accountLocked demo_unmarshal "cc" r')).
Proof.
  pose proof (changes_chain demo_marshal demo_unmarshal "cc" 0
    [(100, OpObserve "cc" (reached_event 200)); (600, OpTick)] demo_registry) as H.
  cbv zeta. destruct (run_ops _ _ _ demo_registry) as [calls r'].
  apply H; [apply (bool_decide_eq_true_1 _); by vm_compute|]. by repeat constructor.
Defined.
