(* ===== verification/WarningQueue.v ===== *)
(** * The warning queue (package warnings, queue.go)

    Collection and rate limiting of log warnings: normalisation of messages
    into dedup keys, the buckets that suppress repeats, quiet mode, draining
    with summaries, and the removal of a component's warnings.  The queue's
    mutex makes each operation one step; the clock is an argument. *)
From S2P Require Import Prelude GoStrings GoNum.
From stdpp Require Import fin_maps.
Local Open Scope Z_scope.
Local Open Scope gostr_scope.

(** ** Normalisation *)

Definition is_digit (c : ascii) : bool := byte_in "0"%char "9"%char c.
Definition is_hex (c : ascii) : bool :=
  is_digit c || byte_in "a"%char "f"%char c || byte_in "A"%char "F"%char c.

(** The text behind the longest run of bytes in a class, and the run's length. *)
Fixpoint skip_class (p : ascii -> bool) (s : gostr) : nat * gostr :=
  match s with
  | c :: s' => if p c then let '(n, r) := skip_class p s' in (S n, r) else (0%nat, s)
  | [] => (0%nat, [])
  end.

(** A match at the start of the text, as what is left behind it.  [reHex] and
    [reDigits] take the whole run, which must be long enough. *)
Definition match_run (p : ascii -> bool) (min : nat) (s : gostr) : option gostr :=
  let '(n, r) := skip_class p s in if (min <=? n)%nat then Some r else None.

(** [\d{1,3}] with something other than a digit to follow: the whole run. *)
Definition match_group (s : gostr) : option gostr :=
  let '(n, r) := skip_class is_digit s in
  if (1 <=? n)%nat && (n <=? 3)%nat then Some r else None.

Definition match_dot (s : gostr) : option gostr :=
  match s with c :: s => if c =?b "."%char then Some s else None | [] => None end.

(** The last [\d{1,3}] of [reIP] takes at most three digits of its run. *)
Definition match_last_group (s : gostr) : option gostr :=
  let '(n, _) := skip_class is_digit s in
  if (1 <=? n)%nat then Some (drop (Nat.min n 3) s) else None.

Definition reIP (s : gostr) : option gostr :=
  s ← match_group s; s ← match_dot s; s ← match_group s; s ← match_dot s;
  s ← match_group s; s ← match_dot s; match_last_group s.
Definition reHex : gostr -> option gostr := match_run is_hex 8.
Definition reDigits : gostr -> option gostr := match_run is_digit 2.

(** [ReplaceAllString]: the leftmost match, then on behind it.  Every match takes
    at least one byte, so the length is enough fuel. *)
Fixpoint replace_all_fuel (re : gostr -> option gostr) (by_ : gostr) (fuel : nat) (s : gostr) : gostr :=
  match fuel, s with
  | S fuel, c :: s' =>
      match re s with
      | Some r => by_ ++ replace_all_fuel re by_ fuel r
      | None => c :: replace_all_fuel re by_ fuel s'
      end
  | _, _ => s
  end.
Definition replace_all (re : gostr -> option gostr) (by_ s : gostr) : gostr :=
  replace_all_fuel re by_ (length s) s.

Definition NormalizeWarning (msg : gostr) : gostr :=
  let msg := replace_all reIP "<IP>" msg in
  let msg := replace_all reHex "<HEX>" msg in
  replace_all reDigits "<N>" msg.

(** ** The queue *)

Record warningBucket := MkBucket {
  windowStart : Time; allowed : Z; suppressedSinceDrain : Z; component : gostr; level : gostr;
  quiet : bool;
}.

Record Queue := MkQueue {
  warnings : list gostr;
  maxSize : Z;
  maxPerWindow : Z;
  windowDuration : Duration;
  buckets : gmap gostr warningBucket;
  enabled : bool;
  errorsOnly : bool;
  suppressed : Z;
}.

Definition NewQueue (maxPerWindow : Z) (windowDuration : Duration) : Queue :=
  MkQueue [] 50 maxPerWindow windowDuration ∅ true false 0.

Definition set_warnings (ws : list gostr) (q : Queue) : Queue :=
  MkQueue ws (maxSize q) (maxPerWindow q) (windowDuration q) (buckets q) (enabled q) (errorsOnly q) (suppressed q).
Definition set_buckets (bs : gmap gostr warningBucket) (q : Queue) : Queue :=
  MkQueue (warnings q) (maxSize q) (maxPerWindow q) (windowDuration q) bs (enabled q) (errorsOnly q) (suppressed q).
Definition set_suppressed (n : Z) (q : Queue) : Queue :=
  MkQueue (warnings q) (maxSize q) (maxPerWindow q) (windowDuration q) (buckets q) (enabled q) (errorsOnly q) n.

Definition Configure (enabled errorsOnly : bool) (maxPerWindow : Z) (windowDuration : Duration) (q : Queue)
    : Queue :=
  MkQueue (warnings q) (maxSize q) maxPerWindow windowDuration (buckets q) enabled errorsOnly (suppressed q).

Definition Enabled (q : Queue) : bool := enabled q.
Definition SetErrorsOnly (v : bool) (q : Queue) : Queue :=
  MkQueue (warnings q) (maxSize q) (maxPerWindow q) (windowDuration q) (buckets q) (enabled q) v (suppressed q).

Definition quietWindow (q : Queue) : Duration := wrap64 (windowDuration q * 12).

Definition wrap32 (n : Z) : Z := (n + 2 ^ 31) mod 2 ^ 32 - 2 ^ 31.
Definition Suppress (q : Queue) : Queue := set_suppressed (wrap32 (suppressed q + 1)) q.
Definition Unsuppress (q : Queue) : Queue := set_suppressed (wrap32 (suppressed q - 1)) q.

(** [fmt.Sprintf("[%s] [%s] %s", ...)]. *)
Definition entry_text (level component text : gostr) : gostr :=
  "[" ++ level ++ "] [" ++ component ++ "] " ++ text.

(** The newest [maxSize] entries. *)
Definition cap (max : Z) (ws : list gostr) : list gostr :=
  let n := Z.of_nat (length ws) in if max <? n then drop (Z.to_nat (n - max)) ws else ws.

Definition pushLocked (level component msg : gostr) (q : Queue) : Queue :=
  set_warnings (cap (maxSize q) (warnings q ++ [entry_text level component msg])) q.

(** [Duration.Seconds] and its siblings, then [int]. *)
Definition whole_units (unit : Duration) (d : Duration) : Z :=
  f_trunc (f_add (f_of_Z (Z.quot d unit)) (f_div (f_of_Z (Z.rem d unit)) (f_of_Z unit))).

Definition FormatDuration (d : Duration) : gostr :=
  if d <? Second then FormatInt (Z.quot d Millisecond) ++ "ms"
  else if d <? Minute then FormatInt (whole_units Second d) ++ "s"
  else if d <? Hour then FormatInt (whole_units Minute d) ++ "m"
  else FormatInt (whole_units Hour d) ++ "h".

Definition summaryMessage (level component : gostr) (count : Z) (elapsed : Duration) : gostr :=
  entry_text level component ("... and " ++ FormatInt count ++ " more in last " ++ FormatDuration elapsed).

Definition add_summary (b : warningBucket) (now : Time) (q : Queue) : Queue :=
  if 0 <? suppressedSinceDrain b then
    set_warnings (warnings q ++ [summaryMessage (level b) (component b) (suppressedSinceDrain b)
                                   (TimeSub now (windowStart b))]) q
  else q.

Definition put_bucket (key : gostr) (b : warningBucket) (q : Queue) : Queue :=
  set_buckets (<[key := b]> (buckets q)) q.

(** The bucket part of [Push]. *)
Definition push_limited (now : Time) (key lvl comp msg : gostr) (q : Queue) : Queue :=
  match buckets q !! key with
  | None => pushLocked lvl comp msg (put_bucket key (MkBucket now 1 0 comp lvl false) q)
  | Some b =>
      let effectiveWindow := if quiet b then quietWindow q else windowDuration q in
      if effectiveWindow <=? TimeSub now (windowStart b) then
        let q := add_summary b now q in
        if quiet b then
          put_bucket key (MkBucket now (allowed b) 1 (component b) (level b) (quiet b)) q
        else if maxPerWindow q <=? allowed b then
          put_bucket key (MkBucket now 0 1 (component b) (level b) true) q
        else
          pushLocked lvl comp msg
            (put_bucket key (MkBucket now 1 0 (component b) (level b) (quiet b)) q)
      else if quiet b then
        put_bucket key (MkBucket (windowStart b) (allowed b) (wrap64 (suppressedSinceDrain b + 1))
                          (component b) (level b) (quiet b)) q
      else if allowed b <? maxPerWindow q then
        pushLocked lvl comp msg
          (put_bucket key (MkBucket (windowStart b) (wrap64 (allowed b + 1)) (suppressedSinceDrain b)
                             (component b) (level b) (quiet b)) q)
      else
        put_bucket key (MkBucket (windowStart b) (allowed b) (wrap64 (suppressedSinceDrain b + 1))
                          (component b) (level b) (quiet b)) q
  end.

Definition dedup_key (level component msg : gostr) : gostr :=
  level ++ "|" ++ component ++ "|" ++ NormalizeWarning msg.

Definition Push (unicode_upper : gostr -> gostr) (now : Time) (lvl comp msg : gostr) (q : Queue) : Queue :=
  if 0 <? suppressed q then q
  else
    let lvl := ToUpper unicode_upper lvl in
    if negb (enabled q) then q
    else if errorsOnly q && negb (bool_decide (lvl = "ERROR")) then q
    else if maxPerWindow q <=? 0 then pushLocked lvl comp msg q
    else push_limited now (dedup_key lvl comp msg) lvl comp msg q.

(** One bucket of the loop of [Drain]. *)
Definition drain_bucket (now : Time) (key : gostr) (b : warningBucket) (q : Queue) : Queue :=
  if quiet b then
    if quietWindow q <=? TimeSub now (windowStart b) then
      let q := add_summary b now q in set_buckets (delete key (buckets q)) q
    else q
  else
    let q := if 0 <? suppressedSinceDrain b then
               put_bucket key (MkBucket (windowStart b) (allowed b) 0 (component b) (level b) (quiet b))
                 (add_summary b now q)
             else q in
    if windowDuration q <=? TimeSub now (windowStart b) then set_buckets (delete key (buckets q)) q else q.

(** The buckets come in the map's order, which Go leaves open. *)
Definition drain_buckets (now : Time) (bs : list (gostr * warningBucket)) (q : Queue) : Queue :=
  fold_left (fun q '(key, b) => drain_bucket now key b q) bs q.

Definition Drain (now : Time) (q : Queue) : list gostr * Queue :=
  let q := drain_buckets now (map_to_list (buckets q)) q in
  (warnings q, set_warnings [] q).

Definition due (now : Time) (q : Queue) (b : warningBucket) : bool :=
  negb (suppressedSinceDrain b =? 0)
  && ((if quiet b then quietWindow q else windowDuration q) <=? TimeSub now (windowStart b)).

Definition Pending (now : Time) (q : Queue) : bool :=
  negb (bool_decide (warnings q = [])) || existsb (due now q) (map_to_list (buckets q)).*2.

Definition Len (q : Queue) : Z := Z.of_nat (length (warnings q)).

Fixpoint FormatList_from (first : bool) (entries : list gostr) : gostr :=
  match entries with
  | [] => []
  | w :: ws => (if first then [] else ["010"%char]) ++ "- " ++ w ++ FormatList_from false ws
  end.
Definition FormatList (entries : list gostr) : gostr := FormatList_from true entries.

Definition entryComponent (entry : gostr) : option gostr :=
  let '(_, rest, ok) := cut "] [" entry in
  if ok then let '(c, _, ok) := cut "] " rest in if ok then Some c else None else None.

Definition component_matches (comp c : gostr) : bool := bool_decide (c = comp) || has_prefix (comp ++ "/") c.

Definition drops_entry (comp w : gostr) : bool :=
  match entryComponent w with Some c => component_matches comp c | None => false end.

Definition DropComponent (comp : gostr) (q : Queue) : Z * Queue :=
  let kept := filter (fun w => drops_entry comp w = false) (warnings q) in
  (Z.of_nat (length (filter (fun w => drops_entry comp w = true) (warnings q))),
   set_buckets (filter (fun kb => component_matches comp (component kb.2) = false) (buckets q))
     (set_warnings kept q)).

(** ** Examples *)

Example normalize_example :
  NormalizeWarning "dial 10.0.12.1:443: id deadbeef01 after 12 tries 1234.5.6.7"
  = "dial <IP>:<N>: id <HEX> after <N> tries 1<IP>".
Proof. by vm_compute. Qed.

Example format_duration_example :
  FormatDuration (5 * Hour - 1) = "4h" /\ FormatDuration (1500 * Millisecond) = "1s"
  /\ FormatDuration (90 * Minute) = "1h".
Proof. by vm_compute. Qed.

(** ** Counting what is owed *)

Definition owed_of (bs : list (gostr * warningBucket)) : Z :=
  foldr (fun kb n => suppressedSinceDrain kb.2 + n) 0 bs.

(** The suppressed warnings no summary has reported yet. *)
Definition owed (q : Queue) : Z := owed_of (map_to_list (buckets q)).

Lemma owed_perm bs bs' : bs ≡ₚ bs' -> owed_of bs = owed_of bs'.
Proof. unfold owed_of. induction 1; cbn [foldr]; lia. Qed.

Lemma owed_insert_new (m : gmap gostr warningBucket) key b :
  m !! key = None -> owed_of (map_to_list (<[key := b]> m)) = suppressedSinceDrain b + owed_of (map_to_list m).
Proof. intros H. by rewrite (owed_perm _ _ (map_to_list_insert m key b H)). Qed.

Lemma owed_delete (m : gmap gostr warningBucket) key b :
  m !! key = Some b ->
  suppressedSinceDrain b + owed_of (map_to_list (delete key m)) = owed_of (map_to_list m).
Proof.
  intros H. rewrite <- (insert_delete_id m key b H) at 2. by rewrite owed_insert_new by apply lookup_delete_eq.
Qed.

Lemma owed_insert (m : gmap gostr warningBucket) key b b' :
  m !! key = Some b ->
  owed_of (map_to_list (<[key := b']> m)) = owed_of (map_to_list m) - suppressedSinceDrain b + suppressedSinceDrain b'.
Proof.
  intros H. rewrite <- (owed_delete m key b H).
  rewrite <- insert_delete_eq, owed_insert_new by apply lookup_delete_eq. lia.
Qed.

Definition counts_ok (q : Queue) : Prop :=
  map_Forall (fun _ b => 0 <= suppressedSinceDrain b < max_int64) (buckets q).

Lemma buckets_add_summary b now q : buckets (add_summary b now q) = buckets q.
Proof. unfold add_summary. by destruct (0 <? _). Qed.

Lemma maxSize_add_summary b now q : maxSize (add_summary b now q) = maxSize q.
Proof. unfold add_summary. by destruct (0 <? _). Qed.

Lemma maxPerWindow_add_summary b now q : maxPerWindow (add_summary b now q) = maxPerWindow q.
Proof. unfold add_summary. by destruct (0 <? _). Qed.

(** The summary of a bucket, when it owes one. *)
Definition summary_of (b : warningBucket) (now : Time) : list gostr :=
  if 0 <? suppressedSinceDrain b then
    [summaryMessage (level b) (component b) (suppressedSinceDrain b) (TimeSub now (windowStart b))]
  else [].

Lemma warnings_add_summary b now q : warnings (add_summary b now q) = warnings q ++ summary_of b now.
Proof. unfold add_summary, summary_of. destruct (0 <? _); cbn; [done|by rewrite app_nil_r]. Qed.

Lemma wrap64_succ n : 0 <= n < max_int64 -> wrap64 (n + 1) = n + 1.
Proof. intros. apply wrap64_id. unfold int64, min_int64, max_int64 in *. lia. Qed.

(** No warning disappears in the rate limiter.  A push that is not filtered
    out either appends its own entry or is counted as owed; a summary that is
    appended reports exactly what its bucket owed, and what the summary reports
    is owed no more. *)
Theorem push_accounts (unicode_upper : gostr -> gostr) (now : Time) (lvl comp msg : gostr) (q : Queue) :
  suppressed q <= 0 -> enabled q = true -> errorsOnly q = false -> 0 < maxPerWindow q -> counts_ok q ->
  let q' := Push unicode_upper now lvl comp msg q in
  let LVL := ToUpper unicode_upper lvl in
  exists (passed : bool) (reported : list warningBucket),
    owed q' + foldr (fun b n => suppressedSinceDrain b + n) 0 reported + (if passed then 1 else 0)
      = owed q + 1
    /\ Forall (fun b => buckets q !! dedup_key LVL comp msg = Some b /\ 0 < suppressedSinceDrain b) reported
    /\ warnings q' =
       if passed
       then cap (maxSize q) ((warnings q ++ concat ((fun b => summary_of b now) <$> reported))
                             ++ [entry_text LVL comp msg])
       else warnings q ++ concat ((fun b => summary_of b now) <$> reported).
Proof.
  intros Hs He Ho Hm Hc. cbv zeta. unfold Push. rewrite (proj2 (Z.ltb_ge _ _) Hs), He, Ho. cbn [negb andb].
  rewrite (proj2 (Z.leb_gt _ _) Hm). set (LVL := ToUpper unicode_upper lvl). set (key := dedup_key LVL comp msg).
  unfold push_limited. destruct (buckets q !! key) as [b|] eqn:Eb.
  2:{ exists true, []. cbn [concat fmap list_fmap foldr]. rewrite app_nil_r.
      split_and!; [|constructor|done]. unfold owed at 1.
      cbn [pushLocked put_bucket set_warnings set_buckets buckets].
      rewrite owed_insert_new by done. cbn [suppressedSinceDrain]. unfold owed. lia. }
  pose proof (Hc key b Eb) as Hb. cbn in Hb.
  assert (forall b' ws, (owed_of (map_to_list (<[key := b']> (buckets q)))
    = owed q - suppressedSinceDrain b + suppressedSinceDrain b') /\ ws ++ [] = ws :> list gostr) as Hput.
  { intros b' ws. split; [by apply owed_insert|apply app_nil_r]. }
  destruct (_ <=? _).
  - set (rep := if 0 <? suppressedSinceDrain b then [b] else []).
    assert (foldr (fun b n => suppressedSinceDrain b + n) 0 rep = suppressedSinceDrain b
      /\ Forall (fun b0 => Some b = Some b0 /\ 0 < suppressedSinceDrain b0) rep
      /\ concat ((fun b => summary_of b now) <$> rep) = summary_of b now) as (Hr1 & Hr2 & Hr3).
    { unfold rep, summary_of. destruct (Z.ltb_spec 0 (suppressedSinceDrain b)) as [Hp|Hp];
        cbn [foldr fmap list_fmap concat].
      - rewrite (proj2 (Z.ltb_lt _ _) Hp). split_and!; [lia|by repeat constructor|done].
      - split_and!; [lia|constructor|done]. }
    rewrite maxPerWindow_add_summary. destruct (quiet b); [|destruct (maxPerWindow q <=? allowed b)];
      [exists false, rep|exists false, rep|exists true, rep]; rewrite Hr1, Hr3;
      (split_and!; [|done|]);
      cbn [pushLocked put_bucket set_warnings set_buckets warnings maxSize];
      rewrite ?warnings_add_summary, ?maxSize_add_summary; try done;
      unfold owed at 1; cbn [pushLocked put_bucket set_warnings set_buckets buckets];
      rewrite buckets_add_summary, (proj1 (Hput _ [])); cbn [suppressedSinceDrain]; lia.
  - destruct (quiet b); [|destruct (allowed b <? maxPerWindow q)];
      [exists false, []|exists true, []|exists false, []]; cbn [concat fmap list_fmap foldr];
      rewrite (proj2 (Hput b _)); (split_and!; [|constructor|done]);
      unfold owed at 1; cbn [pushLocked put_bucket set_warnings set_buckets buckets];
      rewrite (proj1 (Hput _ [])); cbn [suppressedSinceDrain]; rewrite ?wrap64_succ by lia; lia.
Qed.

Definition demo_bucket : warningBucket := MkBucket 0 2 3 "tg" "WARN" false.
Definition demo_queue (ws : list gostr) : Queue :=
  MkQueue ws 50 2 100 {["WARN|tg|x" := demo_bucket]} true false 0.

Lemma demo_counts ws : counts_ok (demo_queue ws).
Proof.
  intros k b. cbn. rewrite lookup_singleton_Some. intros [_ <-]. cbn. unfold max_int64. lia.
Qed.

Example push_accounts_witness :
  exists (passed : bool) (reported : list warningBucket),
    owed (Push id 500 "warn" "tg" "x" (demo_queue [])) +
      foldr (fun b n => suppressedSinceDrain b + n) 0 reported + (if passed then 1 else 0)
    = owed (demo_queue []) + 1.
Proof.
  destruct (push_accounts id 500 "warn" "tg" "x" (demo_queue [])) as (p & rep & H & _);
    [done|done|done|done|apply demo_counts|]. exists p, rep. exact H.
Defined.

(** The summary that a push appends is not counted against the queue's
    limit: a push into a full queue whose bucket has been saturated and whose
    window has run out leaves one entry more than the limit. *)
Theorem summary_exceeds_cap (unicode_upper : gostr -> gostr) (now : Time) (lvl comp msg : gostr)
    (q : Queue) (b : warningBucket) :
  suppressed q <= 0 -> enabled q = true -> errorsOnly q = false -> 0 < maxPerWindow q ->
  buckets q !! dedup_key (ToUpper unicode_upper lvl) comp msg = Some b ->
  quiet b = false -> maxPerWindow q <= allowed b -> 0 < suppressedSinceDrain b ->
  windowDuration q <= TimeSub now (windowStart b) -> Len q = maxSize q ->
  Len (Push unicode_upper now lvl comp msg q) = maxSize q + 1.
Proof.
  intros Hs He Ho Hm Hb Hq Ha Hp Hw Hl. unfold Push.
  rewrite (proj2 (Z.ltb_ge _ _) Hs), He, Ho. cbn [negb andb]. rewrite (proj2 (Z.leb_gt _ _) Hm).
  unfold push_limited. rewrite Hb, Hq, (proj2 (Z.leb_le _ _) Hw), maxPerWindow_add_summary, (proj2 (Z.leb_le _ _) Ha).
  unfold Len in *. cbn [put_bucket set_buckets warnings]. rewrite warnings_add_summary. unfold summary_of.
  rewrite (proj2 (Z.ltb_lt _ _) Hp). rewrite length_app. cbn [length]. lia.
Qed.

Example summary_exceeds_cap_witness :
  Len (Push id 500 "warn" "tg" "x" (demo_queue (replicate 50 "[WARN] [tg] y"))) = 51.
Proof.
  apply (summary_exceeds_cap id 500 "warn" "tg" "x" (demo_queue (replicate 50 "[WARN] [tg] y")) demo_bucket); done.
Defined.

(** ** Bursts *)

Definition push_all (unicode_upper : gostr -> gostr) (lvl comp : gostr) (pushes : list (Time * gostr))
    (q : Queue) : Queue :=
  fold_left (fun q '(now, msg) => Push unicode_upper now lvl comp msg q) pushes q.

Definition append_all (LVL comp : gostr) (msgs : list gostr) (q : Queue) : Queue :=
  fold_left (fun q msg => pushLocked LVL comp msg q) msgs q.

Lemma push_all_snoc up lvl comp pushes t m q :
  push_all up lvl comp (pushes ++ [(t, m)]) q = Push up t lvl comp m (push_all up lvl comp pushes q).
Proof. unfold push_all. by rewrite fold_left_app. Qed.

Lemma append_all_snoc LVL comp msgs m q :
  append_all LVL comp (msgs ++ [m]) q = pushLocked LVL comp m (append_all LVL comp msgs q).
Proof. unfold append_all. by rewrite fold_left_app. Qed.

Lemma append_all_put key b LVL comp msgs q :
  append_all LVL comp msgs (put_bucket key b q) = put_bucket key b (append_all LVL comp msgs q).
Proof. revert q. induction msgs as [|m msgs IH]; intros q; [done|]. apply (IH (pushLocked LVL comp m q)). Qed.

(** A queue whose limiter is at work keeps its settings. *)
Lemma append_all_settings LVL comp msgs q :
  let q' := append_all LVL comp msgs q in
  suppressed q' = suppressed q /\ enabled q' = enabled q /\ errorsOnly q' = errorsOnly q
  /\ maxPerWindow q' = maxPerWindow q /\ windowDuration q' = windowDuration q /\ buckets q' = buckets q.
Proof. revert q. induction msgs as [|m msgs IH]; intros q; [done|]. apply (IH (pushLocked LVL comp m q)). Qed.

Lemma put_put key b b' q : put_bucket key b (put_bucket key b' q) = put_bucket key b q.
Proof. unfold put_bucket, set_buckets. cbn. by rewrite insert_insert_eq. Qed.

Lemma pushLocked_put key b l c m q : pushLocked l c m (put_bucket key b q) = put_bucket key b (pushLocked l c m q).
Proof. done. Qed.

(** Within one window a warning gets through at most [maxPerWindow] times.
    Of [n] pushes of one level, component and normalised text that start a new
    bucket and come before its window ends, exactly the first [maxPerWindow]
    are queued, each as it was pushed, and the bucket owes the other
    [n - maxPerWindow]. *)
Theorem burst_limited (unicode_upper : gostr -> gostr) (lvl comp key : gostr) (t0 : Time) (m0 : gostr)
    (pushes : list (Time * gostr)) (q : Queue) :
  suppressed q <= 0 -> enabled q = true -> errorsOnly q = false -> 0 < maxPerWindow q ->
  buckets q !! key = None ->
  let LVL := ToUpper unicode_upper lvl in
  let n := Z.of_nat (S (length pushes)) in
  n < max_int64 ->
  Forall (fun '(t, m) => dedup_key LVL comp m = key /\ TimeSub t t0 < windowDuration q) ((t0, m0) :: pushes) ->
  push_all unicode_upper lvl comp ((t0, m0) :: pushes) q
  = put_bucket key (MkBucket t0 (Z.min n (maxPerWindow q)) (n - Z.min n (maxPerWindow q)) comp LVL false)
      (append_all LVL comp (take (Z.to_nat (maxPerWindow q)) ((t0, m0) :: pushes).*2) q).
Proof.
  intros Hs He Ho Hm Hk LVL. cbv zeta.
  assert (forall now m q', suppressed q' = suppressed q -> enabled q' = enabled q -> errorsOnly q' = errorsOnly q ->
    maxPerWindow q' = maxPerWindow q ->
    Push unicode_upper now lvl comp m q' = push_limited now (dedup_key LVL comp m) LVL comp m q') as Hpush.
  { intros now m q' H1 H2 H3 H4. unfold Push. rewrite H1, H2, H3, H4, (proj2 (Z.ltb_ge _ _) Hs), He, Ho.
    cbn [negb andb]. by rewrite (proj2 (Z.leb_gt _ _) Hm). }
  induction pushes as [|[t m] pushes IH] using rev_ind; intros Hn Hf.
  - apply Forall_cons in Hf as [[Hkey _] _]. cbn [push_all fold_left length]. rewrite Hpush by done.
    unfold push_limited. rewrite Hkey, Hk, pushLocked_put, Z.min_l by lia.
    destruct (Z.to_nat (maxPerWindow q)) as [|k] eqn:E; [lia|]. by destruct k.
  - rewrite app_comm_cons in *. apply Forall_app in Hf as [Hf [[Hkey Ht] _]%Forall_cons].
    rewrite length_app in *. cbn [length] in *. specialize (IH ltac:(lia) Hf).
    rewrite push_all_snoc, IH.
    set (msgs := take (Z.to_nat (maxPerWindow q)) ((t0, m0) :: pushes).*2).
    destruct (append_all_settings LVL comp msgs q) as (H1 & H2 & H3 & H4 & H5 & H6).
    set (B := MkBucket _ _ _ _ _ _). set (Q := put_bucket key B (append_all LVL comp msgs q)).
    assert (buckets Q !! key = Some B) as HB by apply lookup_insert_eq.
    assert (windowDuration Q = windowDuration q) as HW by exact H5.
    assert (maxPerWindow Q = maxPerWindow q) as HM by exact H4.
    rewrite Hpush by done. unfold push_limited. rewrite Hkey, HB. cbn [B quiet windowStart].
    rewrite HW, HM, (proj2 (Z.leb_gt _ _) Ht). cbn [B allowed suppressedSinceDrain component level]. unfold Q.
    rewrite fmap_app. change ([(t, m)].*2) with [m].
    assert (length ((t0, m0) :: pushes).*2 = S (length pushes)) as Hlen by (by rewrite length_fmap).
    destruct (Z.ltb_spec (Z.min (Z.of_nat (S (length pushes))) (maxPerWindow q)) (maxPerWindow q)) as [Hlt|Hge].
    + rewrite put_put, pushLocked_put, wrap64_succ by lia.
      rewrite take_app_ge by (rewrite Hlen; lia).
      destruct (Z.to_nat (maxPerWindow q) - length ((t0, m0) :: pushes).*2)%nat eqn:E; [rewrite Hlen in E; lia|].
      cbn [take]. rewrite take_nil, append_all_snoc. unfold msgs. rewrite take_ge by (rewrite Hlen; lia).
      f_equal. f_equal; lia.
    + rewrite put_put, wrap64_succ by lia. rewrite take_app_le by (rewrite Hlen; lia). fold msgs. f_equal. f_equal; lia.
Qed.

Example burst_limited_witness :
  let q := NewQueue 2 100 in
  push_all id "WARN" "tg" [(5, "lost 10"); (20, "lost 25"); (30, "lost 31"); (40, "lost 48")] q
  = put_bucket "WARN|tg|lost <N>" (MkBucket 5 2 2 "tg" "WARN" false)
      (append_all "WARN" "tg" ["lost 10"; "lost 25"] q).
Proof.
  apply (burst_limited id "WARN" "tg" "WARN|tg|lost <N>" 5 "lost 10"
    [(20, "lost 25"); (30, "lost 31"); (40, "lost 48")] (NewQueue 2 100)); try done.
  repeat constructor; by vm_compute.
Defined.

(** ** Draining *)

Definition settings_eq (q q' : Queue) : Prop :=
  windowDuration q' = windowDuration q /\ maxPerWindow q' = maxPerWindow q.

Lemma add_summary_settings b now q : windowDuration (add_summary b now q) = windowDuration q.
Proof. unfold add_summary. by destruct (0 <? _). Qed.

(** What the loop does to a bucket, and to the warnings. *)
Definition drained (now : Time) (q : Queue) (b : warningBucket) : option warningBucket :=
  if quiet b then if quietWindow q <=? TimeSub now (windowStart b) then None else Some b
  else if windowDuration q <=? TimeSub now (windowStart b) then None
  else Some (if 0 <? suppressedSinceDrain b
             then MkBucket (windowStart b) (allowed b) 0 (component b) (level b) (quiet b) else b).

Definition reports (now : Time) (q : Queue) (b : warningBucket) : bool :=
  (0 <? suppressedSinceDrain b)
  && (negb (quiet b) || (quietWindow q <=? TimeSub now (windowStart b))).

Lemma drain_bucket_spec now key b q :
  buckets q !! key = Some b ->
  buckets (drain_bucket now key b q) = partial_alter (fun _ => drained now q b) key (buckets q)
  /\ warnings (drain_bucket now key b q) = warnings q ++ (if reports now q b then summary_of b now else [])
  /\ windowDuration (drain_bucket now key b q) = windowDuration q.
Proof.
  intros Hb. unfold drain_bucket, drained, reports, summary_of.
  assert (partial_alter (fun _ => Some b) key (buckets q) = buckets q) as Hsame.
  { rewrite <- (partial_alter_self (buckets q) key) at 2. by rewrite Hb. }
  destruct (quiet b) eqn:Eq.
  - destruct (_ <=? _).
    + cbn [set_buckets buckets warnings windowDuration negb orb]. rewrite buckets_add_summary, warnings_add_summary.
      rewrite andb_true_r, add_summary_settings. unfold summary_of. destruct (0 <? _); split_and!; done.
    + rewrite andb_false_r, app_nil_r. split_and!; [by rewrite Hsame|done|done].
  - rewrite andb_true_r. destruct (0 <? suppressedSinceDrain b) eqn:Es.
    + cbn [put_bucket set_buckets windowDuration]. rewrite add_summary_settings. destruct (_ <=? _);
        cbn [put_bucket set_buckets buckets warnings windowDuration];
        rewrite buckets_add_summary, warnings_add_summary, add_summary_settings;
        unfold summary_of; rewrite Es; (split_and!; [|done|done]).
      * apply map_eq. intros k. destruct (decide (k = key)) as [->|Hne].
        -- by rewrite lookup_delete_eq, lookup_partial_alter_eq.
        -- by rewrite lookup_delete_ne, lookup_insert_ne, lookup_partial_alter_ne.
      * done.
    + destruct (_ <=? _); rewrite app_nil_r; split_and!; done.
Qed.

(** The whole loop, over any list of the buckets without repeats. *)
Lemma drain_buckets_spec now bs q :
  NoDup bs.*1 -> Forall (fun kb => buckets q !! kb.1 = Some kb.2) bs ->
  let q' := drain_buckets now bs q in
  (forall k, k ∉ bs.*1 -> buckets q' !! k = buckets q !! k)
  /\ Forall (fun kb => buckets q' !! kb.1 = drained now q kb.2) bs
  /\ warnings q' = warnings q ++ concat ((fun kb => if reports now q kb.2 then summary_of kb.2 now else []) <$> bs)
  /\ windowDuration q' = windowDuration q.
Proof.
  revert q. induction bs as [|[k b] bs IH]; intros q Hnd Hf; [by rewrite app_nil_r|].
  apply NoDup_cons in Hnd as [Hk Hnd]. apply Forall_cons in Hf as [Hb Hf]. cbn [fst snd] in Hb, Hk.
  destruct (drain_bucket_spec now k b q Hb) as (H1 & H2 & H3). unfold drain_buckets. cbn [fold_left].
  set (q1 := drain_bucket now k b q) in *.
  assert (Forall (fun kb => buckets q1 !! kb.1 = Some kb.2) bs) as Hf1.
  { rewrite Forall_forall in *. intros [k' b'] Hin. rewrite H1. cbn.
    rewrite lookup_partial_alter_ne; [by apply (Hf (k', b'))|]. intros ->. apply Hk.
    apply list_elem_of_fmap. by exists (k', b'). }
  destruct (IH q1 Hnd Hf1) as (I1 & I2 & I3 & I4). unfold drain_buckets in *.
  assert (forall b', drained now q1 b' = drained now q b' /\ reports now q1 b' = reports now q b') as Hset.
  { intros b'. unfold drained, reports, quietWindow. by rewrite H3. }
  split_and!.
  - intros k' [Hne Hk']%not_elem_of_cons. rewrite I1, H1 by done. by rewrite lookup_partial_alter_ne.
  - constructor; [|eapply Forall_impl; [exact I2|]; intros [k' b']; cbn; by rewrite (proj1 (Hset b'))].
    cbn [fst snd]. rewrite I1, H1 by done. by rewrite lookup_partial_alter_eq.
  - rewrite I3, H2, <- app_assoc. f_equal. cbn [fmap list_fmap concat snd]. f_equal. f_equal.
    apply list_fmap_ext. intros i [k' b'] _. cbn. by rewrite (proj2 (Hset b')).
  - by rewrite I4.
Qed.

Lemma Drain_spec now q :
  let '(out, q') := Drain now q in
  out = warnings q ++ concat ((fun kb => if reports now q kb.2 then summary_of kb.2 now else [])
                                <$> map_to_list (buckets q))
  /\ warnings q' = [] /\ windowDuration q' = windowDuration q
  /\ forall k, buckets q' !! k = (b ← buckets q !! k; drained now q b).
Proof.
  unfold Drain. destruct (drain_buckets_spec now (map_to_list (buckets q)) q) as (H1 & H2 & H3 & H4).
  { apply NoDup_fst_map_to_list. }
  { rewrite Forall_forall. intros [k b]. apply elem_of_map_to_list. }
  split_and!; [done|done|done|]. intros k. cbn [set_warnings buckets].
  destruct (buckets q !! k) as [b|] eqn:E; cbn.
  - rewrite Forall_forall in H2. apply (H2 (k, b)). by apply elem_of_map_to_list.
  - rewrite H1; [done|]. intros ([k' b] & -> & Hin)%list_elem_of_fmap. apply elem_of_map_to_list in Hin.
    cbn in E. congruence.
Qed.

Lemma due_reports now q b : counts_ok q -> (exists k, buckets q !! k = Some b) -> due now q b = true ->
  reports now q b = true.
Proof.
  intros Hc [k Hk] Hd. pose proof (Hc k b Hk) as Hb. cbn in Hb. unfold due, reports in *.
  apply andb_true_iff in Hd as [Hn Hw]. apply negb_true_iff, Z.eqb_neq in Hn.
  rewrite (proj2 (Z.ltb_lt _ _)) by lia. by destruct (quiet b).
Qed.

(** A dispatch always has something to send and always settles the queue.
    When [Pending] says so, [Drain] at the same time returns entries; after any
    [Drain], [Pending] is false until something is pushed or time passes, so a
    dispatch cannot provoke the next one. *)
Theorem pending_drains (now : Time) (q : Queue) :
  counts_ok q ->
  let '(out, q') := Drain now q in
  (Pending now q = true -> out <> []) /\ Pending now q' = false.
Proof.
  intros Hc. pose proof (Drain_spec now q) as Hd. destruct (Drain now q) as [out q'].
  destruct Hd as (-> & Hw & Hdur & Hb). split.
  - unfold Pending. intros [Hp|Hp]%orb_true_iff.
    + apply negb_true_iff, bool_decide_eq_false_1 in Hp. by destruct (warnings q).
    + apply existsb_elem in Hp as (b & Hin & Hdue).
      apply list_elem_of_fmap in Hin as ([k b'] & -> & Hin). cbn [snd] in Hdue.
      pose proof Hin as Hk. apply elem_of_map_to_list in Hk.
      assert (reports now q b' = true) as Hr by (apply due_reports; eauto).
      apply list_elem_of_split in Hin as (l1 & l2 & ->). rewrite fmap_app, concat_app. cbn [fmap list_fmap concat snd].
      rewrite Hr. unfold summary_of. unfold reports in Hr. apply andb_true_iff in Hr as [-> _].
      intros E. apply app_eq_nil in E as [_ E]. by apply app_eq_nil in E as [_ E].
  - unfold Pending. rewrite Hw. cbn [bool_decide negb orb decide_rel]. rewrite bool_decide_eq_true_2 by done. cbn [negb orb].
    apply not_true_iff_false. intros (b & Hin & Hdue)%existsb_elem.
    apply list_elem_of_fmap in Hin as ([k b'] & -> & Hin). apply elem_of_map_to_list in Hin. cbn [snd] in Hdue.
    rewrite Hb in Hin. destruct (buckets q !! k) as [b|] eqn:Ek; [|done]. cbn in Hin.
    pose proof (Hc k b Ek) as Hcb. cbn in Hcb.
    unfold drained, due, quietWindow in *. rewrite Hdur in Hdue. destruct (quiet b) eqn:Eq.
    + destruct (_ <=? _) eqn:El; [done|]. injection Hin as <-. rewrite Eq, El, andb_false_r in Hdue. done.
    + destruct (_ <=? _) eqn:El; [done|]. injection Hin as <-.
      destruct (0 <? suppressedSinceDrain b); cbn [quiet windowStart suppressedSinceDrain] in Hdue;
        rewrite ?Eq, El, andb_false_r in Hdue; done.
Qed.

Example pending_drains_witness :
  (Drain 500 (demo_queue [])).1 <> [] /\ Pending 500 (Drain 500 (demo_queue [])).2 = false.
Proof.
  pose proof (pending_drains 500 (demo_queue []) (demo_counts [])) as H.
  destruct (Drain 500 (demo_queue [])) as [out q']. destruct H as [H1 H2]. split; [|exact H2].
  apply H1. by vm_compute.
Defined.

(** ** Dropping a component *)

Lemma cut_fresh c p s rest : c ∉ s -> cut (c :: p) (s ++ (c :: p) ++ rest) = (s, rest, true).
Proof.
  intros Hc. pose proof (has_prefix_app (c :: p) rest) as Hx.
  assert (index (c :: p) (s ++ (c :: p) ++ rest) = Some (length s)) as Hi.
  { revert Hx. generalize ((c :: p) ++ rest) as x. intros x Hx. induction s as [|d s IH]; cbn [app].
    - destruct x as [|y x]; [done|]. unfold index. by rewrite Hx.
    - apply not_elem_of_cons in Hc as [Hd Hs]. cbn [index has_prefix]. rewrite byte_eqb_ne by done.
      cbn [andb]. by rewrite IH. }
  unfold cut. match goal with |- context [index ?a ?b] => replace (index a b) with (Some (length s)) end.
  rewrite take_app_length, drop_app_add'; [|done]. by rewrite (drop_app_length (c :: p) rest).
Qed.

Lemma entryComponent_text l c m :
  "]"%char ∉ l -> "]"%char ∉ c -> entryComponent (entry_text l c m) = Some c.
Proof.
  intros Hl Hc. unfold entryComponent, entry_text.
  change ("[" ++ l ++ "] [" ++ c ++ "] " ++ m) with (("["%char :: l) ++ "] [" ++ c ++ "] " ++ m).
  rewrite cut_fresh by (by apply not_elem_of_cons). by rewrite cut_fresh.
Qed.

(** A queued entry as it was pushed: level, component and text. *)
Record pushed := MkPushed { p_level : gostr; p_component : gostr; p_msg : gostr }.
Definition pushed_text (e : pushed) : gostr := entry_text (p_level e) (p_component e) (p_msg e).
Definition plain (e : pushed) : Prop := ("]"%char ∉ p_level e) /\ ("]"%char ∉ p_component e).
Definition under (comp c : gostr) : Prop := c = comp \/ exists sub, c = comp ++ "/" ++ sub.

Lemma component_matches_spec comp c : component_matches comp c = true <-> under comp c.
Proof.
  unfold component_matches, under. rewrite orb_true_iff, bool_decide_eq_true, has_prefix_spec.
  by setoid_rewrite <- app_assoc.
Qed.

#[export] Instance under_dec comp c : Decision (under comp c).
Proof. refine (cast_if (decide (component_matches comp c = true))); by rewrite <- component_matches_spec. Defined.

Lemma drops_text comp e : plain e -> drops_entry comp (pushed_text e) = bool_decide (under comp (p_component e)).
Proof.
  intros [Hl Hc]. unfold drops_entry, pushed_text. rewrite entryComponent_text by done.
  apply eq_true_iff_eq. by rewrite component_matches_spec, bool_decide_eq_true.
Qed.

(** Dropping a component removes exactly its queued entries and those of its
    sub-components, in whatever form their messages are, keeps the others in
    order, returns the number removed, and forgets what the component's buckets
    owe: no later summary names it. *)
Theorem drop_component_exact (comp : gostr) (entries : list pushed) (q : Queue) :
  Forall plain entries -> warnings q = pushed_text <$> entries ->
  let '(n, q') := DropComponent comp q in
  warnings q' = pushed_text <$> filter (fun e => ~ under comp (p_component e)) entries
  /\ n = Z.of_nat (length (filter (fun e => under comp (p_component e)) entries))
  /\ forall k b, buckets q' !! k = Some b <-> buckets q !! k = Some b /\ ~ under comp (component b).
Proof.
  intros Hp Hw. unfold DropComponent. rewrite Hw. cbn [set_buckets set_warnings warnings buckets]. split_and!.
  - clear Hw. induction entries as [|e entries IH]; [done|]. apply Forall_cons in Hp as [He Hp].
    cbn [fmap list_fmap]. rewrite !filter_cons, drops_text by done.
    destruct (decide (under comp (p_component e))) as [Hu|Hu].
    + rewrite bool_decide_eq_true_2 by done. rewrite decide_False by done. rewrite decide_False by tauto. by apply IH.
    + rewrite bool_decide_eq_false_2 by done. rewrite decide_True by done. rewrite decide_True by done.
      cbn [fmap list_fmap]. f_equal. by apply IH.
  - f_equal. clear Hw. induction entries as [|e entries IH]; [done|]. apply Forall_cons in Hp as [He Hp].
    cbn [fmap list_fmap]. rewrite !filter_cons, drops_text by done.
    destruct (decide (under comp (p_component e))) as [Hu|Hu].
    + rewrite bool_decide_eq_true_2 by done. rewrite decide_True by done. cbn [length]. f_equal. by apply IH.
    + rewrite bool_decide_eq_false_2 by done. rewrite decide_False by done. by apply IH.
  - intros k b. rewrite map_lookup_filter_Some. cbn [snd].
    rewrite <- component_matches_spec. by rewrite not_true_iff_false.
Qed.

Example drop_component_exact_witness :
  let q := set_warnings ["[ERROR] [relogin/cc] aborted"; "[WARN] [tg] slow"] (demo_queue []) in
  warnings (DropComponent "relogin" q).2 = ["[WARN] [tg] slow"].
Proof.
  cbv zeta. pose proof (drop_component_exact "relogin"
    [MkPushed "ERROR" "relogin/cc" "aborted"; MkPushed "WARN" "tg" "slow"]
    (set_warnings ["[ERROR] [relogin/cc] aborted"; "[WARN] [tg] slow"] (demo_queue []))) as H.
  destruct (DropComponent _ _) as [n q']. cbn [snd]. etrans; [apply H; [|done]|by vm_compute].
  repeat constructor; apply (bool_decide_eq_true_1 _); by vm_compute.
Defined.
