(* ===== verification/Dispatcher.v ===== *)
(** * Proactive delivery of warnings ([internal/warnings/dispatcher.go])

    A dispatcher drains a warning queue (WarningQueue.v) into one turn or
    notification, at a cadence that depends on user activity, with the queues
    suppressed while the delivery runs.  [MaybeFire] runs on the periodic tick
    and [FlushPending] at the end of every turn, on different goroutines, so
    besides the handlers the file has their small steps: one step per critical
    section of the dispatcher's mutex or operation of a queue.  Queues are
    pointers into a store shared by the dispatchers; the answers of the
    callbacks and the clock are arguments. *)
From S2P Require Import Prelude GoStrings GoNum WarningQueue.
From stdpp Require Import fin_maps.
Local Open Scope Z_scope.
Local Open Scope gostr_scope.

(** ** Data *)

(** [DispatcherConfig]: the callbacks that answer from outside are present or
    nil here, and what they answer is in [Answers]. *)
Record DispatcherConfig := MkConfig {
  Queue_ : option nat; PeerQueues : list (option nat);
  DispatchFn : bool; FormatFn : option (gostr -> gostr);
  ActiveInterval : Duration; InactiveInterval : Duration; ActivityThreshold : Duration;
  LastUserMessageTimeFn : bool; IsProcessingFn : bool; HoldFn : bool; LastDispatchStore : bool;
}.

(** What the callbacks return when they are called. *)
Record Answers := MkAnswers { user_at : Time; processing : bool; hold : bool }.

Record Dispatcher := MkDispatcher {
  cfg : DispatcherConfig; lastDispatch : Time; dispatching : bool;
}.

(** [TimeStore.Load] returns [stored]. *)
Definition NewDispatcher (c : DispatcherConfig) (stored : option Time) : Dispatcher :=
  MkDispatcher c (if LastDispatchStore c then default zero_time stored else zero_time) false.

(** ** The decision to dispatch *)
Definition held (a : Answers) (d : Dispatcher) : bool := HoldFn (cfg d) && hold a.

Definition queue_at (qs : gmap nat Queue) (q : nat) : Queue := default (NewQueue 0 0) (qs !! q).

(** The interval of [MaybeFire]: the active one after a recent user message. *)
Definition interval (now : Time) (a : Answers) (d : Dispatcher) : Duration :=
  if LastUserMessageTimeFn (cfg d)
     && (negb (IsZero (user_at a)) && (TimeSub now (user_at a) <? ActivityThreshold (cfg d)))
  then ActiveInterval (cfg d) else InactiveInterval (cfg d).

Definition flushMinInterval : Duration := 60 * Second.

Inductive kind := Periodic | Flush.

(** The guards before the mutex is taken. *)
Definition gate (k : kind) (now : Time) (a : Answers) (qs : gmap nat Queue) (d : Dispatcher) : bool :=
  match Queue_ (cfg d) with
  | None => false
  | Some q =>
      if negb (DispatchFn (cfg d)) then false
      else if negb (Pending now (queue_at qs q)) || held a d then false
      else match k with
           | Periodic => negb (IsProcessingFn (cfg d) && processing a)
           | Flush => true
           end
  end.

(** The guards on what was read under the mutex. *)
Definition clear_to_go (k : kind) (now : Time) (a : Answers) (d : Dispatcher) : bool :=
  if dispatching d then false
  else
    let since := TimeSub now (lastDispatch d) in
    negb (since <? match k with Periodic => interval now a d | Flush => flushMinInterval end).

(** The text that is dispatched, and the queues silenced meanwhile. *)
Definition dispatch_text (c : DispatcherConfig) (ws : list gostr) : gostr :=
  let body := FormatList ws in
  match FormatFn c with Some f => f body | None => body end.

Definition targets (c : DispatcherConfig) : list nat := omap id (Queue_ c :: PeerQueues c).

Definition mark (now : Time) (d : Dispatcher) : Dispatcher := MkDispatcher (cfg d) now true.
Definition clear_dispatching (d : Dispatcher) : Dispatcher := MkDispatcher (cfg d) (lastDispatch d) false.

Definition suppress_all (qs : list nat) (m : gmap nat Queue) : gmap nat Queue :=
  fold_left (fun m q => alter Suppress q m) qs m.
Definition unsuppress_all (qs : list nat) (m : gmap nat Queue) : gmap nat Queue :=
  fold_left (fun m q => alter Unsuppress q m) qs m.

(** ** The handlers, run without interference

    The state of a handler: the dispatcher, the queues and the stored time.  A
    handler returns the warnings of the delivery it launched, if any; the
    launched goroutine ends with [finish_delivery]. *)
Record State := MkState { disp : Dispatcher; queues : gmap nat Queue; stored : option Time }.

Definition dispatchDrained (now : Time) (saves : bool) (s : State) : option (list gostr) * State :=
  match Queue_ (cfg (disp s)) with
  | None => (None, s)
  | Some q =>
      let '(ws, q') := Drain now (queue_at (queues s) q) in
      let qs := alter (fun _ => q') q (queues s) in
      match ws with
      | [] => (None, MkState (disp s) qs (stored s))
      | _ =>
          let d := mark now (disp s) in
          let qs := suppress_all (targets (cfg d)) qs in
          (Some ws, MkState d qs (if LastDispatchStore (cfg d) && saves then Some now else stored s))
      end
  end.

Definition fire (k : kind) (now : Time) (a : Answers) (saves : bool) (s : State) : option (list gostr) * State :=
  if gate k now a (queues s) (disp s) && clear_to_go k now a (disp s)
  then dispatchDrained now saves s else (None, s).

Definition MaybeFire : Time -> Answers -> bool -> State -> option (list gostr) * State := fire Periodic.
Definition FlushPending : Time -> Answers -> bool -> State -> option (list gostr) * State := fire Flush.

(** The deferred function of the delivery goroutine. *)
Definition finish_delivery (s : State) : State :=
  MkState (clear_dispatching (disp s)) (unsuppress_all (targets (cfg (disp s))) (queues s)) (stored s).

(** A new process: the queues are fresh, the stored time is what is left. *)
Definition restart (qs : gmap nat Queue) (s : State) : State :=
  MkState (NewDispatcher (cfg (disp s)) (stored s)) qs (stored s).

(** ** The small steps

    A thread is a handler call, then the goroutine it launched. *)
Inductive pc :=
  | AtCheck (k : kind)
  | AtDrain
  | AtMark (ws : list gostr)
  | AtSuppress (ws : list gostr) (at_ : Time) (done rest : list nat)
  | AtDeliver (ws : list gostr)
  | AtUnsuppress (rest : list nat).

(** [drained] and [sent] record what was taken out of the queues and what
    [dispatchFn] was called with; no step reads them. *)
Record Sys := MkSys {
  dispatchers : gmap nat Dispatcher; store : gmap nat Queue; saved : gmap nat Time;
  threads : gmap nat (nat * pc);
  drained : list (list gostr); sent : list (gostr * list gostr);
}.

Inductive event :=
  | EStart (t d : nat) (k : kind) (now : Time) (a : Answers)
  | ECheck (t : nat) (now : Time) (a : Answers)
  | EDrain (t : nat) (now : Time)
  | EMark (t : nat) (now : Time)
  | ESuppress (t : nat)
  | ESave (t : nat) (ok : bool)
  | EReturn (t : nat)
  | EUnsuppress (t : nat)
  | EClear (t : nat)
  | EPush (q : nat) (now : Time) (lvl comp msg : gostr).

Definition set_thread (t d : nat) (p : pc) (s : Sys) : Sys :=
  MkSys (dispatchers s) (store s) (saved s) (<[t := (d, p)]> (threads s)) (drained s) (sent s).
Definition end_thread (t : nat) (s : Sys) : Sys :=
  MkSys (dispatchers s) (store s) (saved s) (delete t (threads s)) (drained s) (sent s).
Definition set_dispatcher (d : nat) (x : Dispatcher) (s : Sys) : Sys :=
  MkSys (<[d := x]> (dispatchers s)) (store s) (saved s) (threads s) (drained s) (sent s).
Definition set_store (m : gmap nat Queue) (s : Sys) : Sys :=
  MkSys (dispatchers s) m (saved s) (threads s) (drained s) (sent s).

Section Steps.
Context (unicode_upper : gostr -> gostr).

(** One step of thread [t] of dispatcher [d] at [p]. *)
Definition thread_step (e : event) (t d : nat) (x : Dispatcher) (p : pc) (s : Sys) : option Sys :=
  match e, p with
  | ECheck _ now a, AtCheck k =>
      Some (if clear_to_go k now a x then set_thread t d AtDrain s else end_thread t s)
  | EDrain _ now, AtDrain =>
      match Queue_ (cfg x) with
      | None => None
      | Some q =>
          let '(ws, q') := Drain now (queue_at (store s) q) in
          let s := set_store (alter (fun _ => q') q (store s)) s in
          Some match ws with
               | [] => end_thread t s
               | _ => let s := set_thread t d (AtMark ws) s in
                      MkSys (dispatchers s) (store s) (saved s) (threads s) (ws :: drained s) (sent s)
               end
      end
  | EMark _ now, AtMark ws =>
      Some (set_thread t d (AtSuppress ws now [] (targets (cfg x))) (set_dispatcher d (mark now x) s))
  | ESuppress _, AtSuppress ws at_ done (q :: rest) =>
      Some (set_thread t d (AtSuppress ws at_ (q :: done) rest) (set_store (alter Suppress q (store s)) s))
  | ESave _ ok, AtSuppress ws at_ done [] =>
      let s := if LastDispatchStore (cfg x) && ok
               then MkSys (dispatchers s) (store s) (<[d := at_]> (saved s)) (threads s) (drained s) (sent s)
               else s in
      Some (set_thread t d (AtDeliver ws) s)
  | EReturn _, AtDeliver ws =>
      let s := set_thread t d (AtUnsuppress (targets (cfg x))) s in
      Some (MkSys (dispatchers s) (store s) (saved s) (threads s) (drained s) ((dispatch_text (cfg x) ws, ws) :: sent s))
  | EUnsuppress _, AtUnsuppress (q :: rest) =>
      Some (set_thread t d (AtUnsuppress rest) (set_store (alter Unsuppress q (store s)) s))
  | EClear _, AtUnsuppress [] =>
      Some (end_thread t (set_dispatcher d (clear_dispatching x) s))
  | _, _ => None
  end.

Definition thread_of (e : event) : option nat :=
  match e with
  | EStart _ _ _ _ _ | EPush _ _ _ _ _ => None
  | ECheck t _ _ | EDrain t _ | EMark t _ | ESuppress t | ESave t _ | EReturn t | EUnsuppress t | EClear t => Some t
  end.

Definition step (e : event) (s : Sys) : option Sys :=
  match e with
  | EStart t d k now a =>
      match threads s !! t, dispatchers s !! d with
      | None, Some x => Some (if gate k now a (store s) x then set_thread t d (AtCheck k) s else s)
      | _, _ => None
      end
  | EPush q now lvl comp msg =>
      Some (set_store (alter (Push unicode_upper now lvl comp msg) q (store s)) s)
  | _ =>
      t ← thread_of e; '(d, p) ← threads s !! t; x ← dispatchers s !! d; thread_step e t d x p s
  end.

Fixpoint run (es : list event) (s : Sys) : option Sys :=
  match es with
  | [] => Some s
  | e :: es => s ← step e s; run es s
  end.
End Steps.

(** ** The suppression counters are exact *)

Definition occ (q : nat) (l : list nat) : Z := Z.of_nat (length (filter (q =.) l)).

#[export] Instance occ_perm q : Proper ((≡ₚ) ==> (=)) (occ q).
Proof. intros l l' H. unfold occ. by rewrite H. Qed.

Lemma occ_app q l l' : occ q (l ++ l') = occ q l + occ q l'.
Proof. unfold occ. rewrite filter_app, length_app. lia. Qed.

Lemma occ_cons q x l : occ q (x :: l) = (if decide (q = x) then 1 else 0) + occ q l.
Proof. unfold occ. rewrite filter_cons. destruct (decide (q = x)); cbn [length]; lia. Qed.

Lemma occ_nil q : occ q [] = 0.
Proof. done. Qed.

Lemma occ_nonneg q l : 0 <= occ q l.
Proof. unfold occ. lia. Qed.

Lemma occ_pos q l : q ∈ l -> 0 < occ q l.
Proof. intros [l1 [l2 ->]]%list_elem_of_split. rewrite occ_app, occ_cons, decide_True by done.
  pose proof (occ_nonneg q l1). pose proof (occ_nonneg q l2). lia. Qed.

Lemma wrap32_id n : - 2 ^ 31 <= n < 2 ^ 31 -> wrap32 n = n.
Proof. intros H. unfold wrap32. rewrite Z.mod_small; lia. Qed.

Lemma wrap32_add n m : wrap32 (wrap32 n + m) = wrap32 (n + m).
Proof.
  unfold wrap32. replace ((n + 2 ^ 31) mod 2 ^ 32 - 2 ^ 31 + m + 2 ^ 31) with ((n + 2 ^ 31) mod 2 ^ 32 + m) by lia.
  rewrite Zplus_mod_idemp_l. do 2 f_equal. lia.
Qed.

(** What a thread has suppressed and not yet released. *)
Definition holding (cs : gmap nat DispatcherConfig) (th : nat * pc) : list nat :=
  match cs !! th.1, th.2 with
  | Some _, AtSuppress _ _ done _ => done
  | Some c, AtDeliver _ => targets c
  | Some _, AtUnsuppress rest => rest
  | _, _ => []
  end.

Definition cfgs (s : Sys) : gmap nat DispatcherConfig := cfg <$> dispatchers s.
Definition holds (s : Sys) (q : nat) : Z := occ q (map_bag (holding (cfgs s)) (threads s)).

(** What a thread has drained and not yet handed over. *)
Definition hand (th : nat * pc) : list (list gostr) :=
  match th.2 with AtMark ws | AtSuppress ws _ _ _ | AtDeliver ws => [ws] | _ => [] end.

Definition exact (s : Sys) : Prop :=
  forall q qu, store s !! q = Some qu -> suppressed qu = wrap32 (holds s q).

(** A thread that is suppressing has its targets split at its position. *)
Definition split_ok (s : Sys) : Prop :=
  forall t d ws at_ done rest c, threads s !! t = Some (d, AtSuppress ws at_ done rest) ->
    cfgs s !! d = Some c -> reverse done ++ rest = targets c.

Definition conserved (s : Sys) : Prop :=
  drained s ≡ₚ map_bag hand (threads s) ++ (sent s).*2
  /\ Forall (fun tw => exists d c, cfgs s !! d = Some c /\ tw.1 = dispatch_text c tw.2) (sent s).

Lemma exact_step s s' (delta : nat -> Z) :
  exact s ->
  (forall q qu', store s' !! q = Some qu' -> exists qu, store s !! q = Some qu
     /\ (suppressed qu' = wrap32 (suppressed qu + delta q) \/ delta q = 0 /\ suppressed qu' = suppressed qu)) ->
  (forall q, holds s' q = holds s q + delta q) ->
  exact s'.
Proof.
  intros He Hs Hh q qu' Hq. destruct (Hs q qu' Hq) as (qu & Hqu & H). rewrite Hh.
  pose proof (He q qu Hqu) as E. destruct H as [->|[-> ->]]; rewrite E.
  - apply wrap32_add.
  - by rewrite Z.add_0_r.
Qed.

Lemma suppressed_add_summary b now q : suppressed (add_summary b now q) = suppressed q.
Proof. unfold add_summary. by destruct (0 <? _). Qed.

Lemma suppressed_drain_bucket now key b q : suppressed (drain_bucket now key b q) = suppressed q.
Proof.
  unfold drain_bucket. repeat case_match; cbn; rewrite ?suppressed_add_summary; done.
Qed.

Lemma suppressed_Drain now q : suppressed (Drain now q).2 = suppressed q.
Proof.
  unfold Drain, drain_buckets. cbn [snd set_warnings suppressed].
  generalize (map_to_list (buckets q)). intros bs. revert q.
  induction bs as [|[key b] bs IH]; intros q; cbn [fold_left]; [done|].
  by rewrite IH, suppressed_drain_bucket.
Qed.

Lemma suppressed_Push u now lvl comp msg q : suppressed (Push u now lvl comp msg q) = suppressed q.
Proof.
  unfold Push, push_limited, pushLocked, put_bucket.
  repeat case_match; cbn; rewrite ?suppressed_add_summary; done.
Qed.

Lemma holds_update {c t th th'} {m : gmap nat (nat * pc)} q :
  m !! t = Some th ->
  occ q (map_bag (holding c) (<[t := th']> m))
  = occ q (map_bag (holding c) m) + (occ q (holding c th') - occ q (holding c th)).
Proof.
  intros H. rewrite map_bag_insert, (map_bag_delete (holding c) m t th H), !occ_app. lia.
Qed.

Lemma holds_delete {c t th} {m : gmap nat (nat * pc)} q :
  m !! t = Some th ->
  occ q (map_bag (holding c) (delete t m)) = occ q (map_bag (holding c) m) - occ q (holding c th).
Proof. intros H. rewrite (map_bag_delete (holding c) m t th H), occ_app. lia. Qed.

Lemma cfgs_set_dispatcher d x x' s :
  dispatchers s !! d = Some x -> cfg x' = cfg x -> cfgs (set_dispatcher d x' s) = cfgs s.
Proof.
  intros Hx E. unfold cfgs. cbn. rewrite fmap_insert, E. apply insert_id.
  by rewrite lookup_fmap, Hx.
Qed.

(** Every step keeps the configurations. *)
Lemma cfgs_thread_step e t d x p s s' :
  dispatchers s !! d = Some x -> thread_step e t d x p s = Some s' -> cfgs s' = cfgs s.
Proof.
  intros Hx H. unfold thread_step in H. repeat case_match; simplify_eq; try done;
    by apply (cfgs_set_dispatcher d x).
Qed.

Ltac open_step H Ht Hx :=
  unfold thread_step in H; repeat case_match; simplify_eq;
  cbn [threads store dispatchers drained sent saved set_thread end_thread set_store set_dispatcher] in *.

(** The queue a step suppresses or releases. *)
Definition delta_of (e : event) (p : pc) (q : nat) : Z :=
  match e, p with
  | ESuppress _, AtSuppress _ _ _ (q' :: _) => if decide (q = q') then 1 else 0
  | EUnsuppress _, AtUnsuppress (q' :: _) => if decide (q = q') then -1 else 0
  | _, _ => 0
  end.

Lemma delta_thread_step e t d x p s s' q :
  threads s !! t = Some (d, p) -> dispatchers s !! d = Some x -> split_ok s ->
  thread_step e t d x p s = Some s' -> holds s' q = holds s q + delta_of e p q.
Proof.
  intros Ht Hx Hs H. pose proof (cfgs_thread_step _ _ _ _ _ _ _ Hx H) as Ec.
  assert (cfgs s !! d = Some (cfg x)) as Hd by (unfold cfgs; by rewrite lookup_fmap, Hx).
  unfold holds. rewrite Ec. open_step H Ht Hx;
    rewrite ?(holds_update q Ht), ?(holds_delete q Ht); unfold holding; cbn [fst snd]; rewrite ?Hd;
    cbn [delta_of]; rewrite ?occ_cons, ?occ_nil; repeat case_decide; try lia.
  all: specialize (Hs _ _ _ _ _ _ _ Ht Hd); rewrite app_nil_r in Hs;
    rewrite <- Hs, reverse_Permutation; lia.
Qed.

Lemma drained_suppressed m q qu now ws q' :
  m !! q = Some qu -> Drain now (queue_at m q) = (ws, q') -> suppressed q' = suppressed qu.
Proof.
  intros Hq E. rewrite <- (suppressed_Drain now qu). unfold queue_at in E. rewrite Hq in E.
  cbn [default from_option id] in E. by rewrite E.
Qed.

Lemma store_thread_step e t d x p s s' q qu' :
  thread_step e t d x p s = Some s' -> store s' !! q = Some qu' ->
  exists qu, store s !! q = Some qu
    /\ (suppressed qu' = wrap32 (suppressed qu + delta_of e p q) \/ delta_of e p q = 0 /\ suppressed qu' = suppressed qu).
Proof.
  intros H Hq. open_step H Hq Hq; cbn [delta_of]; eauto.
  all: rewrite lookup_alter_Some in Hq; destruct Hq as [H1|[Hne Hq]];
    [destruct H1 as (-> & qu & Hqu & ->); exists qu; split; [done|]|exists qu'; split; [done|right]].
  all: rewrite ?decide_True by done; rewrite ?decide_False by done; try done.
  all: try (by left). all: right; split; [done|by eapply drained_suppressed].
Qed.

Lemma split_ok_thread_step e t d x p s s' :
  threads s !! t = Some (d, p) -> dispatchers s !! d = Some x ->
  split_ok s -> thread_step e t d x p s = Some s' -> split_ok s'.
Proof.
  intros Ht Hx Hs H. pose proof (cfgs_thread_step _ _ _ _ _ _ _ Hx H) as Ec.
  intros t1 d1 ws1 a1 done1 rest1 c1 Hl Hc. rewrite Ec in Hc.
  assert (cfgs s !! d = Some (cfg x)) as Hd by (unfold cfgs; by rewrite lookup_fmap, Hx).
  open_step H Ht Hx;
    rewrite ?lookup_insert_Some, ?lookup_delete_Some in Hl;
    first [destruct Hl as [[? E]|[? Hl]]|destruct Hl as [? Hl]]; try done; simplify_eq; eauto.
  rewrite reverse_cons, <- app_assoc. exact (Hs _ _ _ _ _ _ _ Ht Hc).
Qed.

Lemma conserved_thread_step e t d x p s s' :
  threads s !! t = Some (d, p) -> dispatchers s !! d = Some x ->
  conserved s -> thread_step e t d x p s = Some s' -> conserved s'.
Proof.
  intros Ht Hx [Hd Hf] H. pose proof (cfgs_thread_step _ _ _ _ _ _ _ Hx H) as Ec.
  assert (cfgs s !! d = Some (cfg x)) as Hc by (unfold cfgs; by rewrite lookup_fmap, Hx).
  unfold conserved. rewrite Ec. clear Ec. rewrite (map_bag_delete hand _ t _ Ht) in Hd.
  open_step H Ht Hx; cbn [hand snd] in Hd; rewrite ?map_bag_insert; cbn [hand snd app] in *;
    (split; [|try done]); rewrite ?Hd; try done.
  - cbn [fmap list_fmap snd]. by rewrite <- Permutation_middle.
  - constructor; [|done]. exists d, (cfg x). done.
Qed.

(** The three facts hold together along every run. *)
Record consistent (s : Sys) : Prop := Consistent {
  cons_exact : exact s; cons_split : split_ok s; cons_log : conserved s;
}.

(** A start: dispatchers and queues in place, no call made yet. *)
Record fresh (s : Sys) : Prop := Fresh {
  fresh_threads : threads s = ∅; fresh_drained : drained s = []; fresh_sent : sent s = [];
  fresh_queues : map_Forall (fun _ qu => suppressed qu = 0) (store s);
}.

Lemma fresh_consistent s : fresh s -> consistent s.
Proof.
  intros [Ht Hd Hs Hq]. constructor.
  - intros q qu H. unfold holds. rewrite Ht, map_bag_empty, occ_nil. exact (Hq q qu H).
  - intros t d ws a done rest c H. by rewrite Ht, lookup_empty in H.
  - split; [by rewrite Ht, Hd, Hs, map_bag_empty|rewrite Hs; constructor].
Qed.

Lemma consistent_step u e s s' : consistent s -> step u e s = Some s' -> consistent s'.
Proof.
  intros [He Hs Hc] H. unfold step in H.
  destruct (thread_of e) as [t|] eqn:Et.
  { assert (('(d, p) ← threads s !! t; x ← dispatchers s !! d; thread_step e t d x p s) = Some s') as H'.
    { destruct e; try done; cbn in Et; simplify_eq; exact H. }
    clear H. apply bind_Some in H' as ([d p] & Ht & (x & Hx & H)%bind_Some). constructor.
    - eapply exact_step; [exact He| |intros q; by eapply delta_thread_step].
      intros q qu' Hq. by eapply store_thread_step.
    - by eapply split_ok_thread_step.
    - by eapply conserved_thread_step. }
  destruct e as [t d k now a| | | | | | | | |q now lvl comp msg]; try done.
  - destruct (threads s !! t) eqn:Ht; [done|]. destruct (dispatchers s !! d) as [x|] eqn:Hx; [|done].
    simplify_eq. destruct (gate k now a (store s) x); [|done]. constructor.
    + intros q qu Hq. cbn in Hq. rewrite (He q qu Hq). unfold holds. cbn.
      rewrite map_bag_insert_new by done.
      assert (holding (cfgs s) (d, AtCheck k) = []) as E by (unfold holding; cbn; by destruct (cfgs s !! d)).
      unfold cfgs in *. cbn in *. by rewrite E.
    + intros t1 d1 ws1 a1 done1 rest1 c1 Hl Hc1. cbn in Hl.
      rewrite lookup_insert_Some in Hl. destruct Hl as [[? ?]|[? Hl]]; [done|]. by eapply Hs.
    + destruct Hc as [Hd Hf]. split; [|done]. cbn. by rewrite map_bag_insert_new.
  - simplify_eq. constructor; [|done|done].
    intros q1 qu Hq. cbn in Hq. rewrite lookup_alter_Some in Hq.
    destruct Hq as [(-> & qu1 & Hqu & ->)|[_ Hq]]; [rewrite suppressed_Push|]; by apply He.
Qed.

Lemma consistent_run u es s s' : consistent s -> run u es s = Some s' -> consistent s'.
Proof.
  revert s. induction es as [|e es IH]; intros s Hs H; cbn in H; [by simplify_eq|].
  apply bind_Some in H as (s1 & H1 & H). eapply IH; [|exact H]. by eapply consistent_step.
Qed.

(** Suppression is exact under every interleaving: the counter of a queue
    is the number of deliveries that have silenced it and not yet released it.
    So while a delivery runs, a warning logged to its own queue or to a peer is
    discarded and cannot feed the dispatcher that reports it; and when no call
    is running every queue accepts warnings again. *)
Theorem suppression_exact (u : gostr -> gostr) (es : list event) (s0 s : Sys) :
  fresh s0 -> run u es s0 = Some s ->
  (forall q qu, store s !! q = Some qu -> suppressed qu = wrap32 (holds s q))
  /\ (forall t d x ws q now lvl comp msg s',
        threads s !! t = Some (d, AtDeliver ws) -> dispatchers s !! d = Some x ->
        q ∈ targets (cfg x) -> holds s q < 2 ^ 31 ->
        step u (EPush q now lvl comp msg) s = Some s' -> s' = s)
  /\ (threads s = ∅ -> forall q qu, store s !! q = Some qu -> suppressed qu = 0).
Proof.
  intros H0 H. apply fresh_consistent in H0. pose proof (consistent_run _ _ _ _ H0 H) as [He Hs Hc].
  split_and!.
  - exact He.
  - intros t d x ws q now lvl comp msg s' Ht Hx Hq Hb Hp. cbn in Hp. simplify_eq.
    destruct s as [ds st sv th dr se]. unfold set_store. cbn. f_equal. cbn in *.
    apply map_eq. intros q1. destruct (decide (q = q1)) as [<-|Hne]; [|by rewrite lookup_alter_ne].
    rewrite lookup_alter_eq. destruct (st !! q) as [qu|] eqn:Eq; [|done]. cbn. f_equal.
    assert (0 < suppressed qu) as Hpos.
    { rewrite (He q qu Eq). assert (0 < holds (MkSys ds st sv th dr se) q) as Hh; [|rewrite wrap32_id; lia].
      apply occ_pos. eapply map_bag_elem; [exact Ht|]. unfold holding, cfgs. cbn.
      by rewrite lookup_fmap, Hx. }
    unfold Push. by rewrite (proj2 (Z.ltb_lt _ _) Hpos).
  - intros Ht q qu Hq. rewrite (He q qu Hq). unfold holds. by rewrite Ht, map_bag_empty.
Qed.

(** C31: Nothing drained is lost or delivered twice, under every interleaving:
    what was ever drained is exactly what has been handed to the dispatch
    function, once each, and what the running calls still carry; and each text
    handed over is the list of its warnings, formatted by its dispatcher. *)
Theorem drained_conserved (u : gostr -> gostr) (es : list event) (s0 s : Sys) :
  fresh s0 -> run u es s0 = Some s ->
  drained s ≡ₚ map_bag hand (threads s) ++ (sent s).*2
  /\ (threads s = ∅ -> drained s ≡ₚ (sent s).*2)
  /\ Forall (fun tw => exists d c, cfgs s !! d = Some c /\ tw.1 = dispatch_text c tw.2) (sent s).
Proof.
  intros H0 H. apply fresh_consistent in H0. destruct (cons_log s (consistent_run _ _ _ _ H0 H)) as [Hd Hf].
  split_and!; [done| |done]. intros Ht. by rewrite Hd, Ht, map_bag_empty.
Qed.

(** ** The handlers are the small steps run without interference *)

Definition own_event (t : nat) (e : event) : Prop :=
  match e with EStart t' _ _ _ _ => t' = t | _ => thread_of e = Some t end.

(** The stages of one call as steps of thread [t]. *)
Definition call_steps (t d : nat) (k : kind) (now : Time) (a : Answers) (saves : bool) (s : State) : list event :=
  if negb (gate k now a (queues s) (disp s)) then [EStart t d k now a]
  else if negb (clear_to_go k now a (disp s)) then [EStart t d k now a; ECheck t now a]
  else match (fire k now a saves s).1 with
       | None => [EStart t d k now a; ECheck t now a; EDrain t now]
       | Some _ => [EStart t d k now a; ECheck t now a; EDrain t now; EMark t now]
                   ++ replicate (length (targets (cfg (disp s)))) (ESuppress t) ++ [ESave t saves]
       end.

Definition finish_steps (t : nat) (x : Dispatcher) : list event :=
  EReturn t :: replicate (length (targets (cfg x))) (EUnsuppress t) ++ [EClear t].

(** The part of the system one call works on. *)
Definition view (d : nat) (x : Dispatcher) (s : Sys) : State := MkState x (store s) (saved s !! d).

Lemma own_call_steps t d k now a saves s : Forall (own_event t) (call_steps t d k now a saves s).
Proof.
  unfold call_steps. repeat case_match; repeat constructor.
  apply Forall_app. split; [by apply Forall_replicate|by repeat constructor].
Qed.

Lemma own_finish_steps t x : Forall (own_event t) (finish_steps t x).
Proof.
  constructor; [done|]. apply Forall_app. split; [by apply Forall_replicate|by repeat constructor].
Qed.

Lemma run_app u es es' s : run u (es ++ es') s = s' ← run u es s; run u es' s'.
Proof.
  revert s. induction es as [|e es IH]; intros s; cbn [app run]; [done|].
  destruct (step u e s); cbn; [apply IH|done].
Qed.

(** The next step of a thread, as a rewriting rule. *)
Lemma run_own u e es t d p x s s' :
  thread_of e = Some t -> threads s !! t = Some (d, p) -> dispatchers s !! d = Some x ->
  thread_step e t d x p s = Some s' -> run u (e :: es) s = run u es s'.
Proof.
  intros He Ht Hx H. cbn [run].
  assert (step u e s = thread_step e t d x p s) as ->; [|by rewrite H].
  unfold step. destruct e; try done; cbn in He; simplify_eq; cbn; rewrite Ht; cbn; by rewrite Hx.
Qed.

Lemma run_suppress u t d x ws at_ rest : forall done s,
  threads s !! t = Some (d, AtSuppress ws at_ done rest) -> dispatchers s !! d = Some x ->
  run u (replicate (length rest) (ESuppress t)) s
  = Some (MkSys (dispatchers s) (suppress_all rest (store s)) (saved s)
            (<[t := (d, AtSuppress ws at_ (reverse rest ++ done) [])]> (threads s)) (drained s) (sent s)).
Proof.
  induction rest as [|q rest IH]; intros done s Ht Hx; cbn [length replicate run].
  - cbn. rewrite insert_id by done. by destruct s.
  - assert (reverse (q :: rest) ++ done = reverse rest ++ q :: done) as -> by (by rewrite reverse_cons, <- app_assoc).
    unfold step. cbn. rewrite Ht. cbn. rewrite Hx. cbn. rewrite (IH (q :: done)); cbn;
      [|by rewrite lookup_insert_eq|done].
    by rewrite insert_insert_eq.
Qed.

Lemma run_unsuppress u t d x rest : forall s,
  threads s !! t = Some (d, AtUnsuppress rest) -> dispatchers s !! d = Some x ->
  run u (replicate (length rest) (EUnsuppress t)) s
  = Some (MkSys (dispatchers s) (unsuppress_all rest (store s)) (saved s)
            (<[t := (d, AtUnsuppress [])]> (threads s)) (drained s) (sent s)).
Proof.
  induction rest as [|q rest IH]; intros s Ht Hx; cbn [length replicate run].
  - cbn. rewrite insert_id by done. by destruct s.
  - unfold step. cbn. rewrite Ht. cbn. rewrite Hx. cbn. rewrite IH; cbn;
      [|by rewrite lookup_insert_eq|done].
    by rewrite insert_insert_eq.
Qed.

(** A handler call that nothing interleaves with is the handler: running
    its steps one after the other gives the dispatcher, queues and stored time
    that [MaybeFire] or [FlushPending] computes, and leaves a delivery carrying
    the drained warnings exactly when the handler launched one. *)
Theorem call_refines (u : gostr -> gostr) (t d : nat) (k : kind) (now : Time) (a : Answers) (saves : bool)
    (x : Dispatcher) (s : Sys) :
  threads s !! t = None -> dispatchers s !! d = Some x ->
  let es := call_steps t d k now a saves (view d x s) in
  let '(launched, st) := fire k now a saves (view d x s) in
  Forall (own_event t) es
  /\ exists s', run u es s = Some s'
     /\ dispatchers s' = <[d := disp st]> (dispatchers s)
     /\ store s' = queues st
     /\ saved s' !! d = stored st
     /\ threads s' = match launched with
                     | Some ws => <[t := (d, AtDeliver ws)]> (threads s)
                     | None => threads s
                     end.
Proof.
  intros Ht Hx. cbv zeta. destruct (fire k now a saves (view d x s)) as [launched st] eqn:Ef.
  split; [apply own_call_steps|]. unfold call_steps. rewrite Ef. cbn [fst].
  unfold fire in Ef. cbn [view queues disp] in *.
  destruct (gate k now a (store s) x) eqn:Eg; cbn [negb andb] in *.
  2:{ simplify_eq. exists s. cbn. rewrite Ht, Hx, Eg. cbn. by rewrite insert_id. }
  destruct (clear_to_go k now a x) eqn:Ec; cbn [negb] in *.
  2:{ simplify_eq. eexists. split.
      { cbn. rewrite Ht, Hx, Eg. cbn. rewrite lookup_insert_eq. cbn. rewrite Hx. cbn. by rewrite Ec. }
      cbn. rewrite delete_insert_id, insert_id by done. done. }
  assert (exists q, Queue_ (cfg x) = Some q) as [q Eq].
  { unfold gate in Eg. destruct (Queue_ (cfg x)); [by eexists|done]. }
  assert (run u [EStart t d k now a; ECheck t now a] s = Some (set_thread t d AtDrain s)) as Hrun.
  { transitivity (run u [ECheck t now a] (set_thread t d (AtCheck k) s)).
    { cbn. by rewrite Ht, Hx, Eg. }
    erewrite run_own; [|reflexivity|apply lookup_insert_eq|exact Hx|reflexivity].
    rewrite Ec. unfold set_thread. cbn. by rewrite insert_insert_eq. }
  unfold dispatchDrained in Ef. cbn [view disp queues stored] in Ef. rewrite Eq in Ef.
  destruct (Drain now (queue_at (store s) q)) as [ws q'] eqn:Ed.
  destruct ws as [|w ws]; simplify_eq; cbn [disp queues stored].
  - change [EStart t d k now a; ECheck t now a; EDrain t now]
      with ([EStart t d k now a; ECheck t now a] ++ [EDrain t now]).
    rewrite run_app, Hrun. cbn [mbind option_bind]. eexists. split.
    { erewrite run_own; [reflexivity|reflexivity|apply lookup_insert_eq|exact Hx|].
      unfold thread_step. rewrite Eq. cbn [store set_thread]. rewrite Ed. reflexivity. }
    cbn. rewrite delete_insert_id, insert_id by done. done.
  - change ([EStart t d k now a; ECheck t now a; EDrain t now; EMark t now] ++ ?r)
      with ([EStart t d k now a; ECheck t now a] ++ EDrain t now :: EMark t now :: r).
    rewrite run_app, Hrun. cbn [mbind option_bind].
    erewrite run_own; [|reflexivity|apply lookup_insert_eq|exact Hx|].
    2:{ unfold thread_step. rewrite Eq. cbn [store set_thread]. rewrite Ed. reflexivity. }
    erewrite run_own; [|reflexivity|apply lookup_insert_eq|exact Hx|reflexivity].
    rewrite run_app, (run_suppress u t d (mark now x) (w :: ws) now (targets (cfg x)) [] _);
      [|apply lookup_insert_eq|apply lookup_insert_eq].
    cbn [mbind option_bind]. eexists. split.
    { erewrite run_own; [reflexivity|reflexivity|apply lookup_insert_eq|apply lookup_insert_eq|reflexivity]. }
    destruct (LastDispatchStore (cfg x) && saves) eqn:El; cbn in *;
      rewrite El; cbn; rewrite ?insert_insert_eq, ?lookup_insert_eq; done.
Qed.

(** The deferred function undoes the launch: the steps of the delivery
    goroutine after its dispatch function returned release what the launch
    suppressed and clear the dispatcher, as [finish_delivery] does. *)
Theorem finish_refines (u : gostr -> gostr) (t d : nat) (x : Dispatcher) (ws : list gostr) (s : Sys) :
  threads s !! t = Some (d, AtDeliver ws) -> dispatchers s !! d = Some x ->
  exists s', run u (finish_steps t x) s = Some s'
    /\ dispatchers s' = <[d := disp (finish_delivery (view d x s))]> (dispatchers s)
    /\ store s' = queues (finish_delivery (view d x s))
    /\ threads s' = delete t (threads s)
    /\ sent s' = (dispatch_text (cfg x) ws, ws) :: sent s.
Proof.
  intros Ht Hx. eexists. split.
  { unfold finish_steps. erewrite run_own; [|reflexivity|exact Ht|exact Hx|reflexivity].
    rewrite run_app. rewrite (run_unsuppress u t d x (targets (cfg x)));
      [|apply lookup_insert_eq|exact Hx].
    cbn [mbind option_bind].
    erewrite run_own; [reflexivity|reflexivity|apply lookup_insert_eq|exact Hx|reflexivity]. }
  cbn. by rewrite !delete_insert_eq.
Qed.

(** ** Cadence *)

(** What happens to a dispatcher whose calls do not overlap. *)
Inductive op :=
  | Attempt (k : kind) (now : Time) (a : Answers) (saves : bool)
  | Finish
  | Reboot (qs : gmap nat Queue)
  | Logged (q : nat) (now : Time) (lvl comp msg : gostr).

Definition exec (u : gostr -> gostr) (o : op) (s : State) : list Time * State :=
  match o with
  | Attempt k now a saves =>
      let '(launched, s) := fire k now a saves s in
      (match launched with Some _ => [now] | None => [] end, s)
  | Finish => ([], if dispatching (disp s) then finish_delivery s else s)
  | Reboot qs => ([], restart qs s)
  | Logged q now lvl comp msg =>
      ([], MkState (disp s) (alter (Push u now lvl comp msg) q (queues s)) (stored s))
  end.

Fixpoint exec_all (u : gostr -> gostr) (os : list op) (s : State) : list Time * State :=
  match os with
  | [] => ([], s)
  | o :: os =>
      let '(ts, s) := exec u o s in
      let '(ts', s) := exec_all u os s in (ts ++ ts', s)
  end.

Definition floor (c : DispatcherConfig) : Duration :=
  Z.min flushMinInterval (Z.min (ActiveInterval c) (InactiveInterval c)).

(** Each time is at least [gap] after the one before it, the first after [last]. *)
Fixpoint spaced (gap : Duration) (last : Time) (ts : list Time) : Prop :=
  match ts with [] => True | t :: ts => last + gap <= t /\ spaced gap t ts end.

Definition saving (o : op) : Prop := match o with Attempt _ _ _ saves => saves = true | _ => True end.

Lemma clear_to_go_gap k now a d :
  0 <= floor (cfg d) -> clear_to_go k now a d = true -> lastDispatch d + floor (cfg d) <= now.
Proof.
  intros Hf H. unfold clear_to_go in H. destruct (dispatching d); [done|].
  apply negb_true_iff, Z.ltb_ge in H.
  assert (floor (cfg d) <= match k with Periodic => interval now a d | Flush => flushMinInterval end) as Hle.
  { unfold floor, interval. destruct k; [case_match|]; lia. }
  unfold TimeSub, min_int64, max_int64 in H. lia.
Qed.

(** What a restart reads back is the time of the last dispatch. *)
Definition synced (s : State) : Prop :=
  LastDispatchStore (cfg (disp s)) = true /\ lastDispatch (disp s) = default zero_time (stored s).

Lemma exec_spaced u o s ts s' :
  synced s -> saving o -> 0 <= floor (cfg (disp s)) -> exec u o s = (ts, s') ->
  synced s' /\ cfg (disp s') = cfg (disp s)
  /\ match ts with
     | [] => lastDispatch (disp s') = lastDispatch (disp s)
     | [t] => lastDispatch (disp s) + floor (cfg (disp s)) <= t /\ lastDispatch (disp s') = t
     | _ => False
     end.
Proof.
  intros [Hst Hsy] Hsv Hf H. unfold exec in H. destruct o as [k now a saves| |qs|q now lvl comp msg].
  - cbn in Hsv. subst saves. unfold fire in H.
    destruct (gate k now a (queues s) (disp s) && clear_to_go k now a (disp s)) eqn:Eg; [|by simplify_eq].
    apply andb_true_iff in Eg as [_ Hc]. apply clear_to_go_gap in Hc; [|done].
    unfold dispatchDrained in H. destruct (Queue_ (cfg (disp s))); [|by simplify_eq].
    destruct (Drain now _) as [[|w ws] q']; simplify_eq; [done|].
    unfold synced. cbn. by rewrite Hst.
  - simplify_eq. by destruct (dispatching (disp s)).
  - simplify_eq. unfold synced, restart, NewDispatcher. cbn. by rewrite Hst.
  - simplify_eq. done.
Qed.

(** The cadence survives restarts: over any attempts, ends of deliveries,
    restarts and logged warnings, with the clock going either way, two
    dispatches are never closer than the shortest interval in force, which is
    the sixty seconds of the flush or a configured interval below it. *)
Theorem dispatch_spacing (u : gostr -> gostr) (os : list op) (s : State) :
  synced s -> Forall saving os -> 0 <= floor (cfg (disp s)) ->
  spaced (floor (cfg (disp s))) (lastDispatch (disp s)) (exec_all u os s).1.
Proof.
  intros Hs Hsv Hf. revert s Hs Hf. induction Hsv as [|o os Ho Hos IH]; intros s Hs Hf; cbn [exec_all]; [done|].
  destruct (exec u o s) as [ts s1] eqn:E. destruct (exec_spaced u o s ts s1 Hs Ho Hf E) as (Hs1 & Hc & Ht).
  specialize (IH s1 Hs1). rewrite Hc in IH. specialize (IH Hf).
  destruct (exec_all u os s1) as [ts' s2]. cbn [fst] in *.
  destruct ts as [|t [|t' ts]]; cbn [app spaced]; [by rewrite <- Ht| |done].
  destruct Ht as [Hgap E1]. by rewrite E1 in IH.
Qed.

Lemma Pending_suppressed now q n : Pending now (set_suppressed n q) = Pending now q.
Proof. done. Qed.

Lemma queue_at_suppress_all l m q : exists n, queue_at (suppress_all l m) q = set_suppressed n (queue_at m q).
Proof.
  revert m. induction l as [|q' l IH]; intros m; cbn [suppress_all fold_left].
  - exists (suppressed (queue_at m q)). by destruct (queue_at m q).
  - destruct (IH (alter Suppress q' m)) as [n E]. unfold suppress_all in E. rewrite E. unfold queue_at.
    destruct (decide (q' = q)) as [->|Hne]; [rewrite lookup_alter_eq|by rewrite lookup_alter_ne; eauto].
    destruct (m !! q) as [qu|]; cbn; eauto.
Qed.

(** No pending warning is starved: once the guards are open, the next
    attempt launches a delivery that carries at least one warning, takes every
    warning the queue owed at that time, and marks the dispatcher busy since
    then. *)
Theorem pending_delivered (k : kind) (now : Time) (a : Answers) (saves : bool) (s : State) (q : nat) :
  Queue_ (cfg (disp s)) = Some q -> counts_ok (queue_at (queues s) q) ->
  gate k now a (queues s) (disp s) = true -> clear_to_go k now a (disp s) = true ->
  exists ws st, fire k now a saves s = (Some ws, st) /\ ws <> []
    /\ Pending now (queue_at (queues st) q) = false
    /\ disp st = MkDispatcher (cfg (disp s)) now true.
Proof.
  intros Hq Hc Hg Hgo. unfold fire. rewrite Hg, Hgo. cbn [andb]. unfold dispatchDrained. rewrite Hq.
  unfold gate in Hg. rewrite Hq in Hg. destruct (negb (DispatchFn _)); [done|].
  destruct (negb (Pending now (queue_at (queues s) q)) || held a (disp s)) eqn:Ep; [done|].
  apply orb_false_iff in Ep as [Ep _]. apply negb_false_iff in Ep.
  pose proof (pending_drains now (queue_at (queues s) q) Hc) as Hd.
  destruct (Drain now (queue_at (queues s) q)) as [ws q'] eqn:Ed. destruct Hd as [Hne Hpend].
  specialize (Hne Ep). destruct ws as [|w ws]; [done|]. eexists _, _. split_and!; [done|done| |done].
  cbn [queues]. match goal with |- context [suppress_all ?l ?m] => destruct (queue_at_suppress_all l m q) as [n ->] end.
  rewrite Pending_suppressed. unfold queue_at at 1. destruct (queues s !! q) as [qu|] eqn:Eq.
  - by rewrite lookup_alter_eq, Eq.
  - rewrite lookup_alter_eq, Eq. unfold queue_at in Ep. by rewrite Eq in Ep.
Qed.

(** ** The race between two calls *)

(** Two dispatchers with crossed peers, as the gateway wires them: 0 is the
    agent's, over queue 0; 1 the chat's, over queue 1. *)
Definition crossed (own peer : nat) : DispatcherConfig :=
  MkConfig (Some own) [Some peer] true None Minute Hour (10 * Minute) true true true true.

Definition crossed_start : Sys :=
  MkSys {[ 0%nat := NewDispatcher (crossed 0 1) None; 1%nat := NewDispatcher (crossed 1 0) None ]}
    {[ 0%nat := NewQueue 5 Hour; 1%nat := NewQueue 5 Hour ]} ∅ ∅ [] [].

Definition noon : Time := 63000000000 * Second.
Definition idle : Answers := MkAnswers zero_time false false.

(** A warning is logged; the periodic tick and a turn end both pass the guards;
    the tick drains the first warning, another warning arrives before the tick
    has suppressed the queue, and the turn end drains that one. *)
Definition race : list event :=
  [EPush 0 noon "warn" "db" "slow"; EStart 1 0 Periodic noon idle; EStart 2 0 Flush noon idle;
   ECheck 1 noon idle; ECheck 2 noon idle; EDrain 1 noon; EPush 0 noon "warn" "db" "gone";
   EDrain 2 noon; EMark 1 noon; EMark 2 noon; ESuppress 1; ESuppress 1; ESave 1 true;
   ESuppress 2; ESuppress 2; ESave 2 true].

(** The busy flag and the cadence are checked in one critical section and
    set in another, so two calls can both pass: a dispatcher then runs two
    deliveries at once, dispatched at the same instant, and the first one to
    end clears the flag while the other is still running. *)
Theorem overlapping_deliveries (u : gostr -> gostr) :
  exists s s', run u race crossed_start = Some s
    /\ threads s = {[ 1%nat := (0%nat, AtDeliver ["[WARN] [db] slow"]); 2%nat := (0%nat, AtDeliver ["[WARN] [db] gone"]) ]}
    /\ run u [EReturn 1; EUnsuppress 1; EUnsuppress 1; EClear 1] s = Some s'
    /\ threads s' !! 2%nat = Some (0%nat, AtDeliver ["[WARN] [db] gone"])
    /\ (dispatching <$> dispatchers s' !! 0%nat) = Some false.
Proof.
  destruct (run u race crossed_start) as [s|] eqn:E; vm_compute in E; [|done].
  injection E as <-. eexists _, _. split_and!; [reflexivity|by vm_compute|vm_compute; reflexivity|reflexivity|reflexivity].
Qed.

(** ** Witnesses *)

Lemma crossed_fresh : fresh crossed_start.
Proof. constructor; [done..|]. by apply map_Forall_insert_2; [|apply map_Forall_singleton]. Qed.

(** A tick that delivers one warning while a second is logged to the peer. *)
Definition one_delivery : list event :=
  [EPush 0 noon "warn" "db" "slow"; EStart 1 0 Periodic noon idle; ECheck 1 noon idle; EDrain 1 noon;
   EMark 1 noon; ESuppress 1; ESuppress 1; ESave 1 true].

Definition delivering : Sys := default crossed_start (run id one_delivery crossed_start).

Example suppression_exact_witness :
  (suppressed <$> store delivering !! 1%nat) = Some (wrap32 (holds delivering 1))
  /\ (forall s', step id (EPush 1 noon "warn" "db" "send failed") delivering = Some s' -> s' = delivering).
Proof.
  assert (run id one_delivery crossed_start = Some delivering) as Hr by (by vm_compute).
  pose proof (suppression_exact id one_delivery crossed_start delivering crossed_fresh Hr) as (H1 & H2 & _).
  split.
  - destruct (store delivering !! 1%nat) as [qu|] eqn:E; [|vm_compute in E; discriminate].
    cbn [fmap option_fmap option_map]. f_equal. exact (H1 1%nat qu E).
  - intros s'. apply (H2 1%nat 0%nat (mark noon (NewDispatcher (crossed 0 1) None)) ["[WARN] [db] slow"]);
      [by vm_compute|by vm_compute|by vm_compute; repeat constructor|by vm_compute].
Defined.

Example drained_conserved_witness :
  exists s, run id (one_delivery ++ [EReturn 1; EUnsuppress 1; EUnsuppress 1; EClear 1]) crossed_start = Some s
    /\ drained s ≡ₚ (sent s).*2.
Proof.
  destruct (run id (one_delivery ++ [EReturn 1; EUnsuppress 1; EUnsuppress 1; EClear 1]) crossed_start)
    as [s|] eqn:E; [|vm_compute in E; discriminate].
  exists s. split; [done|].
  apply (drained_conserved id (one_delivery ++ [EReturn 1; EUnsuppress 1; EUnsuppress 1; EClear 1]) crossed_start s
           crossed_fresh E).
  vm_compute in E. injection E as <-. reflexivity.
Defined.

(** One dispatcher with a queue that holds a warning. *)
Definition loaded : Queue := Push id noon "warn" "db" "slow" (NewQueue 5 Hour).
Definition ready : State := MkState (NewDispatcher (crossed 0 1) (Some zero_time)) {[ 0%nat := loaded ]} (Some zero_time).

Example call_refines_witness :
  exists s', run id (call_steps 7 0 Periodic noon idle true (view 0 (NewDispatcher (crossed 0 1) None) crossed_start))
               crossed_start = Some s'
    /\ threads s' = ∅.
Proof.
  pose proof (call_refines id 7 0 Periodic noon idle true (NewDispatcher (crossed 0 1) None) crossed_start
                eq_refl eq_refl) as H.
  destruct (fire Periodic noon idle true (view 0 (NewDispatcher (crossed 0 1) None) crossed_start))
    as [launched st] eqn:E.
  destruct H as (_ & s' & H & _ & _ & _ & Ht). exists s'. split; [exact H|].
  vm_compute in E. injection E as <- <-. exact Ht.
Defined.

(** Two attempts half a minute apart with a restart and a new warning between
    them: only the first one dispatches. *)
Definition two_attempts : list op :=
  [Attempt Periodic noon idle true; Finish; Reboot {[ 0%nat := loaded ]};
   Attempt Flush (noon + 30 * Second) idle true; Attempt Flush (noon + 70 * Second) idle true].

Example dispatch_spacing_witness :
  (exec_all id two_attempts ready).1 = [noon; noon + 70 * Second]
  /\ spaced (60 * Second) 0 (exec_all id two_attempts ready).1.
Proof.
  split; [by vm_compute|].
  apply (dispatch_spacing id two_attempts ready); [split; reflexivity|repeat constructor|by vm_compute].
Defined.

Example pending_delivered_witness :
  exists ws st, fire Periodic noon idle true ready = (Some ws, st) /\ ws <> [].
Proof.
  destruct (pending_delivered Periodic noon idle true ready 0) as (ws & st & H & Hw & _);
    [reflexivity| |vm_compute; reflexivity|vm_compute; reflexivity|exists ws, st; split; [exact H|exact Hw]].
  assert (buckets (queue_at (queues ready) 0) = {[ "WARN|db|slow" := MkBucket noon 1 0 "db" "WARN" false ]}) as Hb
    by (vm_compute; reflexivity).
  unfold counts_ok. rewrite Hb. apply map_Forall_singleton. vm_compute. by split.
Defined.
