(* ===== verification/Nudge.v ===== *)
(** * Nudges ([internal/nudge])

    Reminders injected into a turn: the rules and their validation, the
    scheduler's per-turn state, and the decision which rules fire at the start
    of a turn, after each tool batch and before the answer.  The scheduler's
    mutex makes each method one step.  Regular expressions and JSON decoding are
    parameters; what a rule's [Condition] answers during a call is an argument,
    by the index of the rule.  [int]s that a caller or the clock can drive are
    wrapped; loop counters are bounded by the number of rules. *)
From S2P Require Import Prelude GoStrings GoNum.
From stdpp Require Import fin_maps sorting.
Local Open Scope Z_scope.
Local Open Scope gostr_scope.

(** ** Rules *)
Record Trigger := MkTrigger {
  Type_ : gostr; N_ : Z; Pattern : gostr;
  ToolPattern : gostr; InputPattern : gostr; Consecutive : Z;
}.

(** [Condition] is present or nil. *)
Record Rule := MkRule {
  Text : gostr; SourceFile : gostr; SourceText : gostr; Trigger_ : Trigger; Priority : gostr;
  Condition : bool; Category : gostr;
}.

Record RuleSet := MkRuleSet { ContentHash : gostr; Rules_ : list Rule }.

Definition CategoryChar : gostr := "char".
Definition CategoryDefault : gostr := "default".
Definition CategoryScratchpad : gostr := "scratchpad".
Definition CategoryBraindead : gostr := "braindead".

Definition same (a b : gostr) : bool := bool_decide (a = b).

Definition TriggerRequiresPostTool (triggerType : gostr) : bool :=
  in_table ["every_n_tools"; "after_error"; "tool_pattern"] triggerType.

Definition TriggerRequiresPreAnswer (triggerType : gostr) : bool := same triggerType "pre_answer".

Definition validTriggerTypes : list gostr :=
  ["every_n_tools"; "every_n_turns"; "after_error"; "regex"; "pre_answer"; "tool_pattern"].
Definition validPriorities : list gostr := ["high"; "medium"; "low"].

(** ** Built-in rules *)
Definition defaultBraindeadPrompt : gostr :=
  "You've made many consecutive tool calls. Stop and verify: is what you're doing right now what the user actually asked for?".

Definition builtin (text type prio cat : gostr) (cond : bool) : Rule :=
  MkRule text "builtin" "" (MkTrigger type 0 "" "" "" 0) prio cond cat.

Definition BraindeadRule : list Rule :=
  [builtin defaultBraindeadPrompt "every_n_tools" "high" CategoryBraindead false].

Definition ScratchpadRule (condition : bool) : list Rule :=
  if negb condition then []
  else [builtin "Scratchpad entries exist. Review them — update any that are stale, and clear entries you no longer need. Stale scratchpad entries waste context after compaction."
          "every_n_turns" "low" CategoryScratchpad true].

(** ** The scheduler's state *)
Definition recentBufferDepth : nat := 16.

Record toolEvent := MkEvent { Name : gostr; Input : gostr; Command : gostr }.

Record Settings := MkSettings {
  Cooldown : Z; MaxPerBatch : Z; Enable : bool; DefaultEnable : bool; DefaultFreq : Z;
  ScratchpadFreq : Z; BraindeadThreshold : Z; BraindeadPrompt : gostr;
  PreAnswerGate_ : bool; PreAnswerMinTools_ : Z; MaxPerTurn : Z;
}.

Definition regex := gostr -> bool.

Record Scheduler := MkScheduler {
  rules : list Rule;
  settings : Settings;
  lastFired : gmap nat Z;
  regexResults : gmap nat bool;
  compiledRegex : gmap nat regex;
  compiledToolRegex : gmap nat regex;
  compiledInputRegex : gmap nat regex;
  toolCount : Z;
  turnCount : Z;
  lastFiredByType : gmap gostr Z;
  turnInjections : Z;
  recent : list toolEvent;
}.

(** Field updates. *)
Definition set_settings c s :=
  MkScheduler (rules s) c (lastFired s) (regexResults s) (compiledRegex s) (compiledToolRegex s)
    (compiledInputRegex s) (toolCount s) (turnCount s) (lastFiredByType s) (turnInjections s) (recent s).
Definition set_fired lf lt s :=
  MkScheduler (rules s) (settings s) lf (regexResults s) (compiledRegex s) (compiledToolRegex s)
    (compiledInputRegex s) (toolCount s) (turnCount s) lt (turnInjections s) (recent s).
Definition set_toolCount n s :=
  MkScheduler (rules s) (settings s) (lastFired s) (regexResults s) (compiledRegex s) (compiledToolRegex s)
    (compiledInputRegex s) n (turnCount s) (lastFiredByType s) (turnInjections s) (recent s).
Definition set_turnInjections n s :=
  MkScheduler (rules s) (settings s) (lastFired s) (regexResults s) (compiledRegex s) (compiledToolRegex s)
    (compiledInputRegex s) (toolCount s) (turnCount s) (lastFiredByType s) n (recent s).
Definition set_recent l s :=
  MkScheduler (rules s) (settings s) (lastFired s) (regexResults s) (compiledRegex s) (compiledToolRegex s)
    (compiledInputRegex s) (toolCount s) (turnCount s) (lastFiredByType s) (turnInjections s) l.

(** ** Fixed patterns over the tool input

    [\s] is a blank of these; [find_first] is the leftmost match, returning
    what follows it. *)
Definition quote : ascii := "034"%char.
Definition re_space (c : ascii) : bool := mem_byte c ["009"; "010"; "012"; "013"; " "]%char.

Fixpoint skip_space (s : gostr) : gostr :=
  match s with c :: s' => if re_space c then skip_space s' else s | [] => [] end.

Fixpoint find_first (re : gostr -> option gostr) (s : gostr) : option gostr :=
  match re s with
  | Some r => Some r
  | None => match s with [] => None | _ :: s => find_first re s end
  end.

Definition after_lit (p s : gostr) : option gostr := if has_prefix p s then Some (drop (length p) s) else None.

Definition command_field (s : gostr) : option gostr :=
  s ← after_lit ([quote] ++ "command" ++ [quote]) s;
  s ← after_lit ":" (skip_space s);
  after_lit [quote] (skip_space s).

Definition commandFieldRe : gostr -> option gostr := find_first command_field.

Definition word_char (c : ascii) : bool :=
  byte_in "a"%char "z"%char c || byte_in "A"%char "Z"%char c || byte_in "0"%char "9"%char c || (c =?b "_"%char).

Definition match_command (s : gostr) : bool :=
  existsb (fun w => match after_lit w s with
                    | Some r => match r with c :: _ => negb (word_char c) | [] => true end
                    | None => false
                    end) ["grep"; "egrep"; "fgrep"; "rg"; "ack"; "test"]
  || has_prefix "[" s.

Definition benignExitCommandRe (s : gostr) : bool :=
  bool_decide (is_Some (find_first
    (fun s => r ← command_field s; if match_command (skip_space r) then Some r else None) s)).

Section WithLibraries.
(** [regexp.Compile] and [MatchString]; [json.Unmarshal] into the command field
    of a tool input and into a string. *)
Context (compile : gostr -> option regex) (json_command json_string : gostr -> option gostr).

(** ** Validation *)
Inductive problem :=
  | EmptyText
  | BadPriority (p : gostr)
  | NeedsN (type : gostr) (n : Z)
  | EmptyPattern
  | BadPattern (p : gostr)
  | BadToolPattern (p : gostr)
  | BadInputPattern (p : gostr)
  | UnknownTrigger (type : gostr).

Definition compiles (p : gostr) : bool := bool_decide (is_Some (compile p)).

Definition trigger_problems (t : Trigger) : list problem :=
  if same (Type_ t) "every_n_tools" || same (Type_ t) "every_n_turns" then
    if N_ t <=? 0 then [NeedsN (Type_ t) (N_ t)] else []
  else if same (Type_ t) "regex" then
    if same (Pattern t) "" then [EmptyPattern] else if compiles (Pattern t) then [] else [BadPattern (Pattern t)]
  else if same (Type_ t) "tool_pattern" then
    (if negb (same (ToolPattern t) "") && negb (compiles (ToolPattern t)) then [BadToolPattern (ToolPattern t)] else [])
    ++ (if negb (same (InputPattern t) "") && negb (compiles (InputPattern t)) then [BadInputPattern (InputPattern t)] else [])
  else if same (Type_ t) "after_error" || same (Type_ t) "pre_answer" then []
  else [UnknownTrigger (Type_ t)].

Definition RuleProblems (r : Rule) : list problem :=
  (if same (trim_space (Text r)) "" then [EmptyText] else [])
  ++ (if in_table validPriorities (Priority r) then [] else [BadPriority (Priority r)])
  ++ trigger_problems (Trigger_ r).

(** ** Construction *)
Record SchedulerOpts := MkOpts { OptCooldown : Z; OptMaxPerBatch : Z; CanPostTool : bool; CanPreAnswer : bool }.

(** The warnings logged while the rules are read: an invalid character rule by
    its index in the file, or a character rule the backend cannot run. *)
Inductive load_warning := Invalid (index : Z) (ps : list problem) | Unsupported (type : gostr).

Fixpoint select_rules (opts : SchedulerOpts) (charIndex : Z) (rs : list Rule) : list Rule * list load_warning :=
  match rs with
  | [] => ([], [])
  | r :: rs =>
      let warn := same (Category r) CategoryChar in
      let ps := RuleProblems r in
      let w := if warn then match ps with [] => [] | _ => [Invalid charIndex ps] end else [] in
      let '(active, ws) := select_rules opts (if warn then charIndex + 1 else charIndex) rs in
      let skip := (TriggerRequiresPostTool (Type_ (Trigger_ r)) && negb (CanPostTool opts))
                  || (TriggerRequiresPreAnswer (Type_ (Trigger_ r)) && negb (CanPreAnswer opts)) in
      if skip then (active, w ++ (if warn then [Unsupported (Type_ (Trigger_ r))] else []) ++ ws)
      else (r :: active, w ++ ws)
  end.

(** One of the three maps of compiled patterns: [pat r] is the pattern of the
    rule, or none when the rule has no use for it. *)
Fixpoint compile_rules (pat : Rule -> option gostr) (i : nat) (rs : list Rule) : gmap nat regex :=
  match rs with
  | [] => ∅
  | r :: rs =>
      let m := compile_rules pat (S i) rs in
      match pat r with
      | Some p => match compile p with Some re => <[i := re]> m | None => m end
      | None => m
      end
  end.

Definition if_type (type : gostr) (pat : Trigger -> gostr) (r : Rule) : option gostr :=
  if same (Type_ (Trigger_ r)) type && negb (same (pat (Trigger_ r)) "") then Some (pat (Trigger_ r)) else None.

Definition default_settings (cooldown maxPerBatch : Z) : Settings :=
  MkSettings cooldown maxPerBatch false false 0 0 0 "" false 0 0.

Definition NewSchedulerOpts (rs : option RuleSet) (opts : SchedulerOpts) : option Scheduler :=
  match rs with
  | None => None
  | Some rs =>
      let cooldown := if OptCooldown opts <=? 0 then 5 else OptCooldown opts in
      let maxPerBatch := if OptMaxPerBatch opts <=? 0 then 1 else OptMaxPerBatch opts in
      let active := (select_rules opts 0 (Rules_ rs)).1 in
      Some (MkScheduler active (default_settings cooldown maxPerBatch) ∅ ∅
        (compile_rules (if_type "regex" Pattern) 0 active)
        (compile_rules (if_type "tool_pattern" ToolPattern) 0 active)
        (compile_rules (if_type "tool_pattern" InputPattern) 0 active)
        0 0 ∅ 0 [])
  end.

(** ** Settings *)
Definition normalise (cfg : Settings) : Settings :=
  MkSettings (if Cooldown cfg <=? 0 then 5 else Cooldown cfg)
    (if MaxPerBatch cfg <=? 0 then 1 else MaxPerBatch cfg)
    (Enable cfg) (DefaultEnable cfg) (DefaultFreq cfg) (ScratchpadFreq cfg) (BraindeadThreshold cfg)
    (BraindeadPrompt cfg) (PreAnswerGate_ cfg) (PreAnswerMinTools_ cfg) (MaxPerTurn cfg).

Definition Configure (cfg : Settings) (s : option Scheduler) : option Scheduler :=
  s ← s; Some (set_settings (normalise cfg) s).

Definition PreAnswerGate (s : option Scheduler) : bool :=
  match s with None => false | Some s => PreAnswerGate_ (settings s) end.
Definition PreAnswerMinTools (s : option Scheduler) : Z :=
  match s with None => 0 | Some s => PreAnswerMinTools_ (settings s) end.

Definition categoryEnabled (s : Scheduler) (cat : gostr) : bool :=
  let c := settings s in
  if same cat CategoryChar then Enable c
  else if same cat CategoryDefault then DefaultEnable c
  else if same cat CategoryScratchpad then DefaultEnable c && (0 <? ScratchpadFreq c)
  else if same cat CategoryBraindead then 0 <? BraindeadThreshold c
  else true.

Definition effectiveN (s : Scheduler) (r : Rule) : Z :=
  let c := settings s in
  if same (Category r) CategoryDefault then DefaultFreq c
  else if same (Category r) CategoryScratchpad then ScratchpadFreq c
  else if same (Category r) CategoryBraindead then BraindeadThreshold c
  else N_ (Trigger_ r).

Definition effectiveText (s : Scheduler) (r : Rule) : gostr :=
  if same (Category r) CategoryBraindead && negb (same (BraindeadPrompt (settings s)) "")
  then BraindeadPrompt (settings s) else Text r.

(** ** Turns and tool calls *)
Definition start_turn (userMessage : gostr) (s : Scheduler) : Scheduler :=
  MkScheduler (rules s) (settings s) ∅ ((fun re => re userMessage) <$> compiledRegex s)
    (compiledRegex s) (compiledToolRegex s) (compiledInputRegex s)
    0 (wrap64 (turnCount s + 1)) ∅ 0 [].

Definition StartTurn (userMessage : gostr) (s : option Scheduler) : option Scheduler :=
  s ← s; Some (start_turn userMessage s).

Definition shellTools : list gostr := ["Bash"; "shell"].
Definition hookTruncationMarker : gostr := "...[truncated]".

(** The literal up to its closing quote, and whether there is one. *)
Fixpoint literal_end (body : gostr) : gostr * bool :=
  match body with
  | [] => ([], false)
  | "\"%char as c :: body =>
      match body with
      | [] => ([c], false)
      | d :: body => let '(l, closed) := literal_end body in (c :: d :: l, closed)
      end
  | c :: body =>
      if c =?b quote then ([], true) else let '(l, closed) := literal_end body in (c :: l, closed)
  end.

Definition trim_suffix (suf s : gostr) : gostr :=
  if has_suffix suf s then take (length s - length suf) s else s.

(** The attempts with [tries] trailing bytes or fewer still to drop. *)
Fixpoint decode_prefix (tries drop_ : nat) (lit : gostr) : gostr :=
  if (length lit <? drop_)%nat then ""
  else match json_string ([quote] ++ take (length lit - drop_) lit ++ [quote]) with
       | Some s => s
       | None => match tries with O => "" | S tries => decode_prefix tries (S drop_) lit end
       end.

Definition truncatedCommand (input : gostr) : gostr :=
  match commandFieldRe input with
  | None => ""
  | Some body =>
      let '(lit, closed) := literal_end body in
      decode_prefix 6 0 (if closed then lit else trim_suffix hookTruncationMarker lit)
  end.

Definition shellCommand (tool input : gostr) : gostr :=
  if negb (in_table shellTools tool) then ""
  else match json_command input with Some c => c | None => truncatedCommand input end.

Definition record_tool (name input : gostr) (s : Scheduler) : Scheduler :=
  let ev := MkEvent name input (shellCommand name input) in
  if (length (recent s) <? recentBufferDepth)%nat then set_recent (recent s ++ [ev]) s
  else set_recent (drop 1 (recent s) ++ [ev]) s.

Definition RecordToolCall (name input : gostr) (s : option Scheduler) : option Scheduler :=
  s ← s; Some (record_tool name input s).

(** ** Firing *)
Definition inputMatches (re : regex) (ev : toolEvent) : bool :=
  (negb (same (Command ev) "") && re (Command ev)) || re (Input ev).

Definition event_matches (s : Scheduler) (idx : nat) (t : Trigger) (ev : toolEvent) : bool :=
  (if same (ToolPattern t) "" then true
   else match compiledToolRegex s !! idx with Some re => re (Name ev) | None => false end)
  && (if same (InputPattern t) "" then true
      else match compiledInputRegex s !! idx with Some re => inputMatches re ev | None => false end).

Definition matchesRecentLocked (s : Scheduler) (idx : nat) (t : Trigger) : bool :=
  let n := if Consecutive t <=? 0 then 1 else Consecutive t in
  let len := Z.of_nat (length (recent s)) in
  if len <? n then false
  else forallb (event_matches s idx t) (drop (Z.to_nat (len - n)) (recent s)).

Definition turnBudgetLocked (s : Scheduler) : bool * Scheduler :=
  if MaxPerTurn (settings s) <=? 0 then (true, s)
  else if MaxPerTurn (settings s) <=? turnInjections s then (false, s)
  else (true, set_turnInjections (turnInjections s + 1) s).

Definition lastToolIsBenignExitLocked (s : Scheduler) : bool :=
  match last (recent s) with
  | None => false
  | Some ev => if negb (same (Name ev) "Bash") then false else benignExitCommandRe (Input ev)
  end.

Definition cooling (s : Scheduler) (last : option Z) : bool :=
  match last with Some l => wrap64 (toolCount s - l) <? Cooldown (settings s) | None => false end.

(** [answer i] is what the [Condition] of rule [i] returns. *)
Definition shouldFire (s : Scheduler) (answer : nat -> bool) (i : nat) (r : Rule) (lastToolError : bool) : bool :=
  let type := Type_ (Trigger_ r) in
  if negb (categoryEnabled s (Category r)) then false
  else if cooling s (lastFired s !! i) then false
  else if same type "tool_pattern" && cooling s (lastFiredByType s !! type) then false
  else if Condition r && negb (answer i) then false
  else if same type "every_n_tools" then
    let n := if effectiveN s r <=? 0 then 5 else effectiveN s r in
    (0 <? toolCount s) && (Z.rem (toolCount s) n =? 0)
  else if same type "after_error" then lastToolError && negb (lastToolIsBenignExitLocked s)
  else if same type "regex" then default false (regexResults s !! i)
  else if same type "pre_answer" then false
  else if same type "tool_pattern" then matchesRecentLocked s i (Trigger_ r)
  else false.

(** The loops return the fired rules' indices beside the texts; the methods
    return the texts. *)
Fixpoint interval_loop (answer : nat -> bool) (i : nat) (rs : list Rule) (s : Scheduler)
    : list (nat * gostr) * Scheduler :=
  match rs with
  | [] => ([], s)
  | r :: rs =>
      if negb (same (Type_ (Trigger_ r)) "every_n_turns") then interval_loop answer (S i) rs s
      else if negb (categoryEnabled s (Category r)) then interval_loop answer (S i) rs s
      else
        let n := if effectiveN s r <=? 0 then 50 else effectiveN s r in
        if (0 <? turnCount s) && (Z.rem (turnCount s) n =? 0) then
          if Condition r && negb (answer i) then interval_loop answer (S i) rs s
          else
            let '(ok, s) := turnBudgetLocked s in
            if negb ok then ([], s)
            else let '(out, s') := interval_loop answer (S i) rs s in ((i, effectiveText s r) :: out, s')
        else interval_loop answer (S i) rs s
  end.

Fixpoint after_loop (answer : nat -> bool) (lastToolError : bool) (i : nat) (rs : list Rule) (fired : Z)
    (s : Scheduler) : list (nat * gostr) * Scheduler :=
  match rs with
  | [] => ([], s)
  | r :: rs =>
      if MaxPerBatch (settings s) <=? fired then ([], s)
      else if negb (shouldFire s answer i r lastToolError) then after_loop answer lastToolError (S i) rs fired s
      else
        let '(ok, s) := turnBudgetLocked s in
        if negb ok then ([], s)
        else
          let s := set_fired (<[i := toolCount s]> (lastFired s))
                     (<[Type_ (Trigger_ r) := toolCount s]> (lastFiredByType s)) s in
          let '(out, s') := after_loop answer lastToolError (S i) rs (fired + 1) s in
          ((i, effectiveText s r) :: out, s')
  end.

Fixpoint regex_loop (i : nat) (rs : list Rule) (fired : Z) (s : Scheduler) : list (nat * gostr) * Scheduler :=
  match rs with
  | [] => ([], s)
  | r :: rs =>
      if MaxPerBatch (settings s) <=? fired then ([], s)
      else if negb (same (Type_ (Trigger_ r)) "regex") then regex_loop (S i) rs fired s
      else if negb (categoryEnabled s (Category r)) then regex_loop (S i) rs fired s
      else if negb (default false (regexResults s !! i)) then regex_loop (S i) rs fired s
      else match lastFired s !! i with
           | Some _ => regex_loop (S i) rs fired s
           | None =>
               let '(ok, s) := turnBudgetLocked s in
               if negb ok then ([], s)
               else
                 let s := set_fired (<[i := toolCount s]> (lastFired s)) (lastFiredByType s) s in
                 let '(out, s') := regex_loop (S i) rs (fired + 1) s in ((i, effectiveText s r) :: out, s')
           end
  end.

Definition turn_interval (answer : nat -> bool) (s : Scheduler) := interval_loop answer 0 (rules s) s.
Definition after_tools (answer : nat -> bool) (n : Z) (lastToolError : bool) (s : Scheduler) :=
  let s := set_toolCount n s in after_loop answer lastToolError 0 (rules s) 0 s.
Definition regex_check (s : Scheduler) := regex_loop 0 (rules s) 0 s.

(** A method on a nil scheduler does nothing. *)
Definition texts (m : Scheduler -> list (nat * gostr) * Scheduler) (s : option Scheduler)
    : list gostr * option Scheduler :=
  match s with None => ([], None) | Some s => let '(out, s) := m s in (out.*2, Some s) end.

Definition CheckTurnInterval (answer : nat -> bool) := texts (turn_interval answer).
Definition CheckAfterTools (answer : nat -> bool) (toolCount : Z) (lastToolError : bool) :=
  texts (after_tools answer toolCount lastToolError).
Definition CheckRegex := texts regex_check.

Definition pre_answer_step (s : Scheduler) (result : gostr) (r : Rule) : gostr :=
  if negb (same (Type_ (Trigger_ r)) "pre_answer") then result
  else if negb (categoryEnabled s (Category r)) then result
  else (if same result "" then result else result ++ ["010"%char]) ++ effectiveText s r.

Definition CheckPreAnswer (s : option Scheduler) : gostr :=
  match s with None => "" | Some s => fold_left (pre_answer_step s) (rules s) "" end.

Definition HasPreAnswerRules (s : option Scheduler) : bool :=
  match s with
  | None => false
  | Some s => existsb (fun r => same (Type_ (Trigger_ r)) "pre_answer" && categoryEnabled s (Category r)) (rules s)
  end.

(** ** Histories of calls *)
Inductive call :=
  | CConfigure (cfg : Settings)
  | CStart (userMessage : gostr)
  | CInterval (answer : nat -> bool)
  | CRegex
  | CRecord (name input : gostr)
  | CAfter (answer : nat -> bool) (toolCount : Z) (lastToolError : bool).

Definition exec (c : call) (s : Scheduler) : list (nat * gostr) * Scheduler :=
  match c with
  | CConfigure cfg => ([], set_settings (normalise cfg) s)
  | CStart msg => ([], start_turn msg s)
  | CInterval answer => turn_interval answer s
  | CRegex => regex_check s
  | CRecord name input => ([], record_tool name input s)
  | CAfter answer n err => after_tools answer n err s
  end.

Fixpoint exec_all (cs : list call) (s : Scheduler) : list (nat * gostr) * Scheduler :=
  match cs with
  | [] => ([], s)
  | c :: cs =>
      let '(out, s) := exec c s in
      let '(out', s) := exec_all cs s in (out ++ out', s)
  end.

(** ** What the loops do

    [fires ready mark j s out s']: a scan from rule [j] on that fires the rules
    of [out] in order, each one ready in the state it is reached in, paying the
    turn's budget and leaving its mark. *)
Inductive fires (ready : Scheduler -> nat -> Rule -> Prop) (mark : nat -> Rule -> Scheduler -> Scheduler)
    : nat -> Scheduler -> list (nat * gostr) -> Scheduler -> Prop :=
  | fires_nil j s : fires ready mark j s [] s
  | fires_cons j i r s s1 out s' :
      (j <= i)%nat -> rules s !! i = Some r -> ready s i r -> turnBudgetLocked s = (true, s1) ->
      fires ready mark (S i) (mark i r s1) out s' ->
      fires ready mark j s ((i, effectiveText s r) :: out) s'.

Definition interval_ready (answer : nat -> bool) (s : Scheduler) (i : nat) (r : Rule) : Prop :=
  Type_ (Trigger_ r) = "every_n_turns" /\ categoryEnabled s (Category r) = true
  /\ (0 < turnCount s) /\ (Condition r = true -> answer i = true).
Definition after_ready (answer : nat -> bool) (err : bool) (s : Scheduler) (i : nat) (r : Rule) : Prop :=
  shouldFire s answer i r err = true.
Definition regex_ready (s : Scheduler) (i : nat) (r : Rule) : Prop :=
  Type_ (Trigger_ r) = "regex" /\ categoryEnabled s (Category r) = true
  /\ regexResults s !! i = Some true /\ lastFired s !! i = None.

Definition no_mark (i : nat) (r : Rule) (s : Scheduler) : Scheduler := s.
Definition after_mark (i : nat) (r : Rule) (s : Scheduler) : Scheduler :=
  set_fired (<[i := toolCount s]> (lastFired s)) (<[Type_ (Trigger_ r) := toolCount s]> (lastFiredByType s)) s.
Definition regex_mark (i : nat) (r : Rule) (s : Scheduler) : Scheduler :=
  set_fired (<[i := toolCount s]> (lastFired s)) (lastFiredByType s) s.

Lemma same_spec a b : same a b = true <-> a = b.
Proof. apply bool_decide_eq_true. Qed.

Lemma set_turnInjections_id s : set_turnInjections (turnInjections s) s = s.
Proof. by destruct s. Qed.

Lemma budget_frame s b s1 : turnBudgetLocked s = (b, s1) -> s1 = set_turnInjections (turnInjections s1) s.
Proof.
  unfold turnBudgetLocked. intros H. repeat case_match; simplify_eq; by rewrite ?set_turnInjections_id.
Qed.

Lemma budget_refused s s1 : turnBudgetLocked s = (false, s1) -> s1 = s.
Proof. unfold turnBudgetLocked. intros H. by repeat case_match; simplify_eq. Qed.

Lemma fires_weaken ready mark j j' s out s' :
  (j' <= j)%nat -> fires ready mark j s out s' -> fires ready mark j' s out s'.
Proof. intros Hj. destruct 1; [constructor|econstructor; eauto; lia]. Qed.

Lemma drop_cons_inv {A} i (l : list A) r rs : drop i l = r :: rs -> l !! i = Some r /\ drop (S i) l = rs.
Proof.
  intros H. split; [by rewrite <- (Nat.add_0_r i), <- lookup_drop, H|].
  by rewrite <- (Nat.add_1_r i), <- drop_drop, H.
Qed.

Ltac loop_skip IH := eapply fires_weaken; [|by apply IH]; lia.

(** The scans keep the list of rules, so each continues where it was. *)
Lemma interval_loop_fires answer rs : forall i s, drop i (rules s) = rs ->
  fires (interval_ready answer) no_mark i s (interval_loop answer i rs s).1 (interval_loop answer i rs s).2.
Proof.
  induction rs as [|r rs IH]; intros i s Hd; cbn [interval_loop]; [constructor|].
  apply drop_cons_inv in Hd as [Hr Hd].
  destruct (same (Type_ (Trigger_ r)) "every_n_turns") eqn:Et; cbn [negb]; [|loop_skip IH].
  destruct (categoryEnabled s (Category r)) eqn:Ec; cbn [negb]; [|loop_skip IH].
  destruct (_ && _) eqn:En; [|loop_skip IH].
  destruct (Condition r && negb (answer i)) eqn:Ea; [loop_skip IH|].
  destruct (turnBudgetLocked s) as [[] s1] eqn:Eb; cbn [negb]; [|apply budget_refused in Eb; subst; constructor].
  specialize (IH (S i) s1). pose proof (budget_frame _ _ _ Eb) as Hf.
  destruct (interval_loop answer (S i) rs s1) as [out s']. cbn [fst snd] in *.
  replace (effectiveText s1 r) with (effectiveText s r) by (by rewrite Hf).
  econstructor; [done|exact Hr| |exact Eb|apply IH; by rewrite Hf].
  unfold interval_ready. apply andb_true_iff in En as [En _]. apply same_spec in Et.
  split_and!; [done|done|lia|]. intros Hcond. rewrite Hcond in Ea. by destruct (answer i).
Qed.

Lemma after_loop_fires answer err rs : forall i fired s, drop i (rules s) = rs ->
  fires (after_ready answer err) after_mark i s
    (after_loop answer err i rs fired s).1 (after_loop answer err i rs fired s).2.
Proof.
  induction rs as [|r rs IH]; intros i fired s Hd; cbn [after_loop]; [constructor|].
  apply drop_cons_inv in Hd as [Hr Hd].
  destruct (_ <=? _); [constructor|].
  destruct (shouldFire s answer i r err) eqn:Es; cbn [negb]; [|loop_skip IH].
  destruct (turnBudgetLocked s) as [[] s1] eqn:Eb; cbn [negb]; [|apply budget_refused in Eb; subst; constructor].
  change (set_fired _ _ s1) with (after_mark i r s1).
  specialize (IH (S i) (fired + 1) (after_mark i r s1)). pose proof (budget_frame _ _ _ Eb) as Hf.
  destruct (after_loop answer err (S i) rs (fired + 1) (after_mark i r s1)) as [out s']. cbn [fst snd] in *.
  replace (effectiveText (after_mark i r s1) r) with (effectiveText s r) by (by rewrite Hf).
  econstructor; [done|exact Hr|exact Es|exact Eb|apply IH; by rewrite Hf].
Qed.

Lemma regex_loop_fires rs : forall i fired s, drop i (rules s) = rs ->
  fires regex_ready regex_mark i s (regex_loop i rs fired s).1 (regex_loop i rs fired s).2.
Proof.
  induction rs as [|r rs IH]; intros i fired s Hd; cbn [regex_loop]; [constructor|].
  apply drop_cons_inv in Hd as [Hr Hd].
  destruct (_ <=? _); [constructor|].
  destruct (same (Type_ (Trigger_ r)) "regex") eqn:Et; cbn [negb]; [|loop_skip IH].
  destruct (categoryEnabled s (Category r)) eqn:Ec; cbn [negb]; [|loop_skip IH].
  destruct (regexResults s !! i) as [[]|] eqn:Ex; cbn [default from_option id negb]; [|loop_skip IH..].
  destruct (lastFired s !! i) eqn:El; [loop_skip IH|].
  destruct (turnBudgetLocked s) as [[] s1] eqn:Eb; cbn [negb]; [|apply budget_refused in Eb; subst; constructor].
  change (set_fired _ _ s1) with (regex_mark i r s1).
  specialize (IH (S i) (fired + 1) (regex_mark i r s1)). pose proof (budget_frame _ _ _ Eb) as Hf.
  destruct (regex_loop (S i) rs (fired + 1) (regex_mark i r s1)) as [out s']. cbn [fst snd] in *.
  replace (effectiveText (regex_mark i r s1) r) with (effectiveText s r) by (by rewrite Hf).
  econstructor; [done|exact Hr| |exact Eb|apply IH; by rewrite Hf].
  apply same_spec in Et. done.
Qed.

(** The batch cap of the two loops that have one. *)
Lemma after_loop_cap answer err rs : forall i fired s,
  0 <= fired -> Z.of_nat (length (after_loop answer err i rs fired s).1) <= Z.max 0 (MaxPerBatch (settings s) - fired).
Proof.
  induction rs as [|r rs IH]; intros i fired s Hf; cbn [after_loop]; [cbn; lia|].
  destruct (Z.leb_spec (MaxPerBatch (settings s)) fired); [cbn; lia|].
  destruct (negb _); [by apply IH|]. destruct (turnBudgetLocked s) as [[] s1] eqn:Eb; cbn [negb]; [|cbn; lia].
  change (set_fired _ _ s1) with (after_mark i r s1).
  specialize (IH (S i) (fired + 1) (after_mark i r s1) ltac:(lia)). apply budget_frame in Eb.
  assert (settings (after_mark i r s1) = settings s) as E by (by rewrite Eb). rewrite E in IH.
  destruct (after_loop _ _ _ _ _ _) as [out s']. cbn [fst length] in *. lia.
Qed.

Lemma regex_loop_cap rs : forall i fired s,
  0 <= fired -> Z.of_nat (length (regex_loop i rs fired s).1) <= Z.max 0 (MaxPerBatch (settings s) - fired).
Proof.
  induction rs as [|r rs IH]; intros i fired s Hf; cbn [regex_loop]; [cbn; lia|].
  destruct (Z.leb_spec (MaxPerBatch (settings s)) fired); [cbn; lia|].
  do 3 (destruct (negb _); [by apply IH|]). destruct (lastFired s !! i); [by apply IH|].
  destruct (turnBudgetLocked s) as [[] s1] eqn:Eb; cbn [negb]; [|cbn; lia].
  change (set_fired _ _ s1) with (regex_mark i r s1).
  specialize (IH (S i) (fired + 1) (regex_mark i r s1) ltac:(lia)). apply budget_frame in Eb.
  assert (settings (regex_mark i r s1) = settings s) as E by (by rewrite Eb). rewrite E in IH.
  destruct (regex_loop _ _ _ _) as [out s']. cbn [fst length] in *. lia.
Qed.

(** What a scan may change. *)
Definition marks (mark : nat -> Rule -> Scheduler -> Scheduler) : Prop :=
  forall i r s, exists lf lt, mark i r s = set_fired lf lt s.

Lemma no_mark_marks : marks no_mark.
Proof. intros i r s. exists (lastFired s), (lastFiredByType s). by destruct s. Qed.
Lemma after_mark_marks : marks after_mark.
Proof. intros i r s. by eexists _, _. Qed.
Lemma regex_mark_marks : marks regex_mark.
Proof. intros i r s. by eexists _, _. Qed.

#[local] Hint Resolve no_mark_marks after_mark_marks regex_mark_marks : core.

Lemma fires_frame ready mark j s out s' : marks mark -> fires ready mark j s out s' ->
  exists lf lt n, s' = set_fired lf lt (set_turnInjections n s).
Proof.
  intros Hm. induction 1 as [j s|j i r s s1 out s' Hj Hr Hrd Hb H IH].
  - exists (lastFired s), (lastFiredByType s), (turnInjections s). by destruct s.
  - apply budget_frame in Hb. destruct (Hm i r s1) as (lf & lt & E). rewrite E in IH.
    destruct IH as (lf' & lt' & n & ->). exists lf', lt', n. by rewrite Hb.
Qed.

(** Every call is such a scan or a plain update. *)
Lemma exec_fires c s out s' : exec c s = (out, s') ->
  match c with
  | CConfigure cfg => out = [] /\ s' = set_settings (normalise cfg) s
  | CStart msg => out = [] /\ s' = start_turn msg s
  | CRecord name input => out = [] /\ s' = record_tool name input s
  | CInterval answer => fires (interval_ready answer) no_mark 0 s out s'
  | CRegex => fires regex_ready regex_mark 0 s out s'
  | CAfter answer n err => fires (after_ready answer err) after_mark 0 (set_toolCount n s) out s'
  end.
Proof.
  intros H. destruct c; cbn [exec] in H; try by simplify_eq.
  - pose proof (interval_loop_fires answer (rules s) 0 s eq_refl) as Hf.
    unfold turn_interval in H. by rewrite H in Hf.
  - pose proof (regex_loop_fires (rules s) 0 0 s eq_refl) as Hf. unfold regex_check in H. by rewrite H in Hf.
  - pose proof (after_loop_fires answer lastToolError (rules (set_toolCount toolCount0 s)) 0 0 (set_toolCount toolCount0 s) eq_refl) as Hf.
    unfold after_tools in H. by rewrite H in Hf.
Qed.

(** ** The turn's budget *)

Lemma fires_budget ready mark j s out s' m : marks mark -> fires ready mark j s out s' ->
  0 < MaxPerTurn (settings s) <= m -> turnInjections s <= m ->
  turnInjections s' = turnInjections s + Z.of_nat (length out) /\ turnInjections s' <= m.
Proof.
  intros Hm. induction 1 as [j s|j i r s s1 out s' Hj Hr Hrd Hb H IH]; intros Hp Ht; cbn [length]; [lia|].
  destruct (Hm i r s1) as (lf & lt & E). rewrite E in IH. cbn in IH.
  unfold turnBudgetLocked in Hb. rewrite (proj2 (Z.leb_gt _ _)) in Hb by lia.
  destruct (Z.leb_spec (MaxPerTurn (settings s)) (turnInjections s)); simplify_eq. cbn in IH. lia.
Qed.

(** The calls of one turn, under caps that are all at most [m]. *)
Definition capped (m : Z) (c : call) : Prop :=
  match c with CStart _ => False | CConfigure cfg => 0 < MaxPerTurn cfg <= m | _ => True end.

(** The per-turn cap holds whatever happens in the turn: over every sequence
    of turn-start, regex and post-tool checks, with tools recorded and the
    settings edited live, the reminders injected since [StartTurn] are at most
    the largest cap in force. *)
Theorem turn_cap (m : Z) (msg : gostr) (cs : list call) (s : Scheduler) :
  0 < MaxPerTurn (settings s) <= m -> Forall (capped m) cs ->
  Z.of_nat (length (exec_all cs (start_turn msg s)).1) <= m.
Proof.
  intros Hm Hcs.
  assert (forall s, 0 < MaxPerTurn (settings s) <= m -> turnInjections s <= m ->
    turnInjections s + Z.of_nat (length (exec_all cs s).1) <= m) as Hall.
  2:{ specialize (Hall (start_turn msg s) Hm). cbn [turnInjections start_turn] in Hall. lia. }
  clear Hm msg s. induction Hcs as [|c cs Hc Hcs IH]; intros s Hp Ht; cbn [exec_all]; [cbn; lia|].
  destruct (exec c s) as [out s1] eqn:E. apply exec_fires in E.
  destruct (exec_all cs s1) as [out' s2] eqn:E2. specialize (IH s1). rewrite E2 in IH.
  cbn [fst] in *. rewrite length_app, Nat2Z.inj_add.
  destruct c; try done; try (destruct E as [-> ->]; cbn in *; specialize (IH ltac:(lia) ltac:(lia)); cbn in IH; lia).
  - pose proof (fires_budget _ _ _ _ _ _ m no_mark_marks E Hp Ht).
    destruct (fires_frame _ _ _ _ _ _ no_mark_marks E) as (lf & lt & n & ->). cbn in *. lia.
  - pose proof (fires_budget _ _ _ _ _ _ m regex_mark_marks E Hp Ht).
    destruct (fires_frame _ _ _ _ _ _ regex_mark_marks E) as (lf & lt & n & ->). cbn in *. lia.
  - destruct E as [-> ->]. unfold record_tool in IH. destruct (_ <? _)%nat; cbn in *; lia.
  - pose proof (fires_budget _ _ _ _ _ _ m after_mark_marks E Hp Ht).
    destruct (fires_frame _ _ _ _ _ _ after_mark_marks E) as (lf & lt & n & ->). cbn in *. lia.
Qed.

(** ** Cooldowns *)

(** The firings of the post-tool and regex checks, with the tool count each
    happened at. *)
Definition log_of (c : call) (s : Scheduler) : list (nat * Z) :=
  match c with
  | CRegex => (fun p => (p.1, toolCount s)) <$> (exec c s).1
  | CAfter _ n _ => (fun p => (p.1, n)) <$> (exec c s).1
  | _ => []
  end.

Fixpoint fire_log (cs : list call) (s : Scheduler) : list (nat * Z) :=
  match cs with [] => [] | c :: cs => log_of c s ++ fire_log cs (exec c s).2 end.

Definition count_ok (n : Z) : Prop := 0 <= n < 2 ^ 62.

(** A rule of the category that shares one cooldown. *)
Definition patterned (rs : list Rule) (i : nat) : Prop :=
  exists r, rs !! i = Some r /\ Type_ (Trigger_ r) = "tool_pattern".

Definition apart (rs : list Rule) (cd : Z) (x y : nat * Z) : Prop :=
  x.1 = y.1 \/ (patterned rs x.1 /\ patterned rs y.1) -> x.2 + cd <= y.2.

(** The state remembers a firing no older than any in the log. *)
Definition remembered (s : Scheduler) (x : nat * Z) : Prop :=
  (exists c, lastFired s !! x.1 = Some c /\ x.2 <= c /\ count_ok c)
  /\ (patterned (rules s) x.1 -> exists c, lastFiredByType s !! "tool_pattern" = Some c /\ x.2 <= c /\ count_ok c).

Lemma cooling_false s c : count_ok c -> count_ok (toolCount s) ->
  cooling s (Some c) = false -> c + Cooldown (settings s) <= toolCount s.
Proof.
  unfold cooling, count_ok. intros Hc Hn H. apply Z.ltb_ge in H.
  rewrite wrap64_id in H by (unfold int64, min_int64, max_int64; lia). lia.
Qed.

Lemma shouldFire_cooled s answer i r err : shouldFire s answer i r err = true ->
  cooling s (lastFired s !! i) = false
  /\ (Type_ (Trigger_ r) = "tool_pattern" -> cooling s (lastFiredByType s !! "tool_pattern") = false).
Proof.
  unfold shouldFire. intros H. destruct (negb _); [done|]. destruct (cooling s (lastFired s !! i)); [done|].
  split; [done|]. intros E. rewrite E in H. rewrite (proj2 (same_spec _ _) eq_refl) in H. cbn [andb] in H.
  by destruct (cooling s _).
Qed.

Lemma remembered_frame s s' x :
  rules s' = rules s -> lastFired s' = lastFired s -> lastFiredByType s' = lastFiredByType s ->
  remembered s x -> remembered s' x.
Proof. unfold remembered. by intros -> -> ->. Qed.

(** A firing at the present tool count, recorded for its rule and maybe its
    type, keeps what is remembered of firings it is apart from. *)
Lemma remembered_fired s i r lt x cd :
  0 <= cd -> rules s !! i = Some r -> count_ok (toolCount s) ->
  lt = lastFiredByType s /\ Type_ (Trigger_ r) <> "tool_pattern"
  \/ lt = <[Type_ (Trigger_ r) := toolCount s]> (lastFiredByType s) ->
  remembered s x -> apart (rules s) cd x (i, toolCount s) ->
  remembered (set_fired (<[i := toolCount s]> (lastFired s)) lt s) x.
Proof.
  intros Hcd Hr Hn Hlt [(c & Hc & Hle & Hok) H2] Ha. unfold apart in Ha. cbn [fst snd] in Ha.
  split; cbn [set_fired lastFired lastFiredByType rules].
  - destruct (decide (i = x.1)) as [->|Hne]; [rewrite lookup_insert_eq|rewrite lookup_insert_ne by done; eauto].
    exists (toolCount s). specialize (Ha (or_introl eq_refl)). split_and!; [done|lia|done].
  - intros Hp. specialize (H2 Hp). destruct Hlt as [[-> _]| ->]; [done|].
    destruct (decide (Type_ (Trigger_ r) = "tool_pattern")) as [E|Hne]; [|by rewrite lookup_insert_ne].
    rewrite E, lookup_insert_eq. exists (toolCount s).
    assert (x.2 + cd <= toolCount s) by (apply Ha; right; split; [done|by exists r]). split_and!; [done|lia|done].
Qed.

Lemma remembered_new s i r lt :
  rules s !! i = Some r -> count_ok (toolCount s) ->
  lt = lastFiredByType s /\ Type_ (Trigger_ r) <> "tool_pattern"
  \/ lt = <[Type_ (Trigger_ r) := toolCount s]> (lastFiredByType s) ->
  remembered (set_fired (<[i := toolCount s]> (lastFired s)) lt s) (i, toolCount s).
Proof.
  intros Hr Hn Hlt. split; cbn.
  - exists (toolCount s). by rewrite lookup_insert_eq.
  - intros (r' & Hr' & Ht). simplify_eq. destruct Hlt as [[_ ?]| ->]; [done|].
    exists (toolCount s). by rewrite Ht, lookup_insert_eq.
Qed.

(** A log the state remembers and the firings of which are apart. *)
Definition good_log (cd : Z) (s : Scheduler) (log : list (nat * Z)) : Prop :=
  StronglySorted (apart (rules s) cd) log /\ Forall (remembered s) log.

Lemma good_log_frame cd s s' log :
  rules s' = rules s -> lastFired s' = lastFired s -> lastFiredByType s' = lastFiredByType s ->
  good_log cd s log -> good_log cd s' log.
Proof.
  intros E1 E2 E3 [H1 H2]. split; [by rewrite E1|]. eapply Forall_impl; [exact H2|].
  intros x. by apply remembered_frame.
Qed.

Lemma good_log_fired cd s i r lt log :
  0 <= cd -> rules s !! i = Some r -> count_ok (toolCount s) ->
  lt = lastFiredByType s /\ Type_ (Trigger_ r) <> "tool_pattern"
  \/ lt = <[Type_ (Trigger_ r) := toolCount s]> (lastFiredByType s) ->
  (forall x, remembered s x -> apart (rules s) cd x (i, toolCount s)) ->
  good_log cd s log -> good_log cd (set_fired (<[i := toolCount s]> (lastFired s)) lt s) (log ++ [(i, toolCount s)]).
Proof.
  intros Hcd Hr Hn Hlt Ha [H1 H2]. rewrite Forall_forall in H2. split.
  - apply StronglySorted_app_2; [|done|repeat constructor].
    intros x y Hx Hy. apply list_elem_of_singleton in Hy as ->. by apply Ha, H2.
  - apply Forall_app. split; [|by constructor; [eapply remembered_new|constructor]].
    apply Forall_forall. intros x Hx. eapply remembered_fired; eauto.
Qed.

(** What a scan fires is apart from what is remembered when each ready rule is. *)
Lemma fires_good ready mark cd : 0 <= cd ->
  (forall s i r s1, rules s !! i = Some r -> ready s i r -> cd <= Cooldown (settings s) ->
     count_ok (toolCount s) -> turnBudgetLocked s = (true, s1) ->
     (exists lt, mark i r s1 = set_fired (<[i := toolCount s1]> (lastFired s1)) lt s1
       /\ (lt = lastFiredByType s1 /\ Type_ (Trigger_ r) <> "tool_pattern"
           \/ lt = <[Type_ (Trigger_ r) := toolCount s1]> (lastFiredByType s1)))
     /\ forall x, remembered s x -> apart (rules s) cd x (i, toolCount s)) ->
  forall j s out s', fires ready mark j s out s' -> cd <= Cooldown (settings s) -> count_ok (toolCount s) ->
  forall log, good_log cd s log -> good_log cd s' (log ++ ((fun p => (p.1, toolCount s)) <$> out)).
Proof.
  intros Hcd Hrm. induction 1 as [j s|j i r s s1 out s' Hj Hr Hrd Hb H IH]; intros Hc Hn log Hg.
  { by rewrite app_nil_r. }
  destruct (Hrm s i r s1 Hr Hrd Hc Hn Hb) as [(lt & E & Hlt) Ha]. apply budget_frame in Hb.
  assert (toolCount s1 = toolCount s /\ rules s1 = rules s /\ settings s1 = settings s
    /\ lastFired s1 = lastFired s /\ lastFiredByType s1 = lastFiredByType s) as (En & Er & Es & El & Et)
    by (rewrite Hb; done).
  rewrite E in IH. cbn in IH. rewrite En, Es in IH. cbn [fmap list_fmap fst]. rewrite cons_middle, app_assoc.
  apply IH; [done|done|]. rewrite <- En. apply good_log_fired with (r := r); rewrite ?En, ?Er; try done.
  - by rewrite <- En.
  - intros x Hx. apply Ha. by eapply remembered_frame; [..|exact Hx].
  - by eapply good_log_frame; [..|exact Hg].
Qed.

Lemma after_good cd answer err s out s' log : 0 <= cd ->
  fires (after_ready answer err) after_mark 0 s out s' -> cd <= Cooldown (settings s) -> count_ok (toolCount s) ->
  good_log cd s log -> good_log cd s' (log ++ ((fun p => (p.1, toolCount s)) <$> out)).
Proof.
  intros Hcd Hf Hc Hn Hg. eapply (fires_good _ _ cd Hcd); [|exact Hf|done|done|done].
  clear. intros s i r s1 Hr Hrd Hc Hn Hb. split.
  { eexists. split; [reflexivity|by right]. }
  apply shouldFire_cooled in Hrd as [Hl Ht].
  intros x [(c & Hx & Hle & Hok) Hty] [E|[Hp1 Hp2]]; cbn [fst snd] in *.
  - rewrite <- E, Hx in Hl. apply cooling_false in Hl; [lia|done|done].
  - destruct (Hty Hp1) as (c' & Hc' & Hle' & Hok'). destruct Hp2 as (r' & Hr' & E). simplify_eq.
    specialize (Ht E). rewrite Hc' in Ht. apply cooling_false in Ht; [lia|done|done].
Qed.

Lemma regex_good cd s out s' log : 0 <= cd ->
  fires regex_ready regex_mark 0 s out s' -> cd <= Cooldown (settings s) -> count_ok (toolCount s) ->
  good_log cd s log -> good_log cd s' (log ++ ((fun p => (p.1, toolCount s)) <$> out)).
Proof.
  intros Hcd Hf Hc Hn Hg. eapply (fires_good _ _ cd Hcd); [|exact Hf|done|done|done].
  clear. intros s i r s1 Hr (Ht & _ & _ & Hl) Hc Hn Hb. split.
  { eexists. split; [reflexivity|left]. by rewrite Ht. }
  intros x [(c & Hx & _) _] [E|[_ (r' & Hr' & E)]]; cbn [fst snd] in *; [|by simplify_eq; rewrite Ht in E].
  by rewrite <- E, Hx in Hl.
Qed.

(** The calls of one turn, with cooldowns of at least [cd] and sane counts. *)
Definition cooled (cd : Z) (c : call) : Prop :=
  match c with
  | CStart _ => False
  | CConfigure cfg => cd <= Cooldown (normalise cfg)
  | CAfter _ n _ => count_ok n
  | _ => True
  end.

(** Cooldowns hold across a turn, live edits included: between two firings
    of the same rule, and between two firings of any rules of the shared
    [tool_pattern] category, at least the smallest cooldown in force of tool
    calls has passed, whichever of the checks fired them. *)
Theorem cooldown_kept (cd : Z) (msg : gostr) (cs : list call) (s : Scheduler) :
  0 <= cd <= Cooldown (settings s) -> Forall (cooled cd) cs ->
  StronglySorted (apart (rules s) cd) (fire_log cs (start_turn msg s)).
Proof.
  intros Hcd Hcs.
  assert (forall s log, cd <= Cooldown (settings s) -> count_ok (toolCount s) -> good_log cd s log ->
    StronglySorted (apart (rules s) cd) (log ++ fire_log cs s)) as Hall.
  2:{ apply (Hall (start_turn msg s) []); [cbn; lia|by vm_compute|by repeat constructor]. }
  destruct Hcd as [Hcd _]. clear msg s. induction Hcs as [|c cs Hc Hcs IH]; intros s log Hl Hn Hg.
  { rewrite app_nil_r. apply Hg. }
  cbn [fire_log]. rewrite app_assoc. destruct (exec c s) as [out s1] eqn:E. cbn [snd].
  pose proof (exec_fires _ _ _ _ E) as Ef.
  assert (rules s1 = rules s /\ cd <= Cooldown (settings s1) /\ count_ok (toolCount s1) /\ good_log cd s1 (log ++ log_of c s))
    as (Er & H1 & H2 & H3); [|rewrite <- Er; by apply IH].
  destruct c; cbn [log_of cooled] in *; try done; rewrite ?app_nil_r;
    try (destruct Ef as [-> ->]; split_and!; try done; by eapply good_log_frame; [..|exact Hg]).
  - destruct (fires_frame _ _ _ _ _ _ no_mark_marks Ef) as (lf & lt & n & Es). split_and!; [by rewrite Es..|].
    clear Es IH E. induction Ef as [|j i r s s1 out s' Hj Hr Hrd Hb H IH]; [done|].
    pose proof (budget_frame _ _ _ Hb) as Hf. apply IH; try (by rewrite Hf).
  - destruct (fires_frame _ _ _ _ _ _ regex_mark_marks Ef) as (lf & lt & n & Es). split_and!; [by rewrite Es..|].
    rewrite E. by eapply regex_good.
  - destruct Ef as [-> ->]. unfold record_tool. destruct (_ <? _)%nat;
      split_and!; done.
  - destruct (fires_frame _ _ _ _ _ _ after_mark_marks Ef) as (lf & lt & n & Es). split_and!; [by rewrite Es..|].
    rewrite E. apply (after_good cd answer lastToolError (set_toolCount toolCount0 s) out s1 log); done.
Qed.

(** ** Turns are independent *)

Definition set_turnCount n s :=
  MkScheduler (rules s) (settings s) (lastFired s) (regexResults s) (compiledRegex s) (compiledToolRegex s)
    (compiledInputRegex s) (toolCount s) n (lastFiredByType s) (turnInjections s) (recent s).

Definition on_state {A} (f : Scheduler -> Scheduler) (r : A * Scheduler) : A * Scheduler := (r.1, f r.2).

Lemma budget_turnCount n s : turnBudgetLocked (set_turnCount n s) = on_state (set_turnCount n) (turnBudgetLocked s).
Proof. unfold turnBudgetLocked. cbn. by repeat case_match. Qed.

Lemma shouldFire_turnCount n s answer i r err :
  shouldFire (set_turnCount n s) answer i r err = shouldFire s answer i r err.
Proof. done. Qed.

Lemma after_loop_turnCount n answer err rs : forall i fired s,
  after_loop answer err i rs fired (set_turnCount n s) = on_state (set_turnCount n) (after_loop answer err i rs fired s).
Proof.
  induction rs as [|r rs IH]; intros i fired s; cbn [after_loop]; [done|].
  rewrite shouldFire_turnCount, budget_turnCount. cbn [settings set_turnCount].
  destruct (_ <=? _); [done|]. destruct (negb _); [apply IH|].
  destruct (turnBudgetLocked s) as [[] s1]; cbn [on_state fst snd negb]; [|done].
  change (set_fired _ _ (set_turnCount n s1)) with (set_turnCount n (after_mark i r s1)).
  change (set_fired _ _ s1) with (after_mark i r s1). rewrite IH.
  by destruct (after_loop answer err (S i) rs (fired + 1) (after_mark i r s1)).
Qed.

Lemma regex_loop_turnCount n rs : forall i fired s,
  regex_loop i rs fired (set_turnCount n s) = on_state (set_turnCount n) (regex_loop i rs fired s).
Proof.
  induction rs as [|r rs IH]; intros i fired s; cbn [regex_loop]; [done|].
  rewrite budget_turnCount. cbn [settings set_turnCount lastFired regexResults].
  change (categoryEnabled (set_turnCount n s)) with (categoryEnabled s).
  destruct (_ <=? _); [done|]. do 3 (destruct (negb _); [apply IH|]). destruct (lastFired s !! i); [apply IH|].
  destruct (turnBudgetLocked s) as [[] s1]; cbn [on_state fst snd negb]; [|done].
  change (set_fired _ _ (set_turnCount n s1)) with (set_turnCount n (regex_mark i r s1)).
  change (set_fired _ _ s1) with (regex_mark i r s1). rewrite IH.
  by destruct (regex_loop (S i) rs (fired + 1) (regex_mark i r s1)).
Qed.

(** The calls of a turn that do not read the lifetime turn counter. *)
Definition within_turn (c : call) : Prop :=
  match c with CStart _ | CInterval _ => False | _ => True end.

Lemma exec_turnCount n c s : within_turn c ->
  exec c (set_turnCount n s) = on_state (set_turnCount n) (exec c s).
Proof.
  intros Hc. destruct c; try done; cbn [exec].
  - apply (regex_loop_turnCount n (rules s) 0 0 s).
  - unfold record_tool. cbn [recent set_turnCount]. by case_match.
  - apply (after_loop_turnCount n answer lastToolError (rules s) 0 0 (set_toolCount toolCount0 s)).
Qed.

(** Schedulers built from the same rules under the same settings. *)
Definition same_setup (s1 s2 : Scheduler) : Prop :=
  rules s1 = rules s2 /\ settings s1 = settings s2 /\ compiledRegex s1 = compiledRegex s2
  /\ compiledToolRegex s1 = compiledToolRegex s2 /\ compiledInputRegex s1 = compiledInputRegex s2.

(** A turn carries nothing into the next: whatever two schedulers of the
    same rules and settings went through, after [StartTurn] with the same
    message every sequence of regex and post-tool checks, recorded tools and
    settings edits gives the same reminders. *)
Theorem turns_independent (msg : gostr) (cs : list call) (s1 s2 : Scheduler) :
  same_setup s1 s2 -> Forall within_turn cs ->
  (exec_all cs (start_turn msg s1)).1 = (exec_all cs (start_turn msg s2)).1.
Proof.
  intros (Hr & Hs & H1 & H2 & H3) Hcs.
  assert (start_turn msg s2 = set_turnCount (wrap64 (turnCount s2 + 1)) (start_turn msg s1)) as ->.
  { unfold start_turn, set_turnCount. cbn. by rewrite Hr, Hs, H1, H2, H3. }
  generalize (wrap64 (turnCount s2 + 1)) as n, (start_turn msg s1) as s. clear -Hcs.
  induction Hcs as [|c cs Hc Hcs IH]; intros n s; cbn [exec_all]; [done|].
  rewrite exec_turnCount by done. destruct (exec c s) as [out s']. cbn [on_state fst snd].
  specialize (IH n s'). destruct (exec_all cs s'), (exec_all cs (set_turnCount n s')). cbn in *. by f_equal.
Qed.

(** ** The window of recent tools *)

Definition last_n {A} (n : nat) (l : list A) : list A := drop (length l - n) l.

Definition event_of (c : call) : list toolEvent :=
  match c with CRecord name input => [MkEvent name input (shellCommand name input)] | _ => [] end.

Lemma recent_exec c s : within_turn c \/ (exists answer, c = CInterval answer) ->
  recent (exec c s).2 = match c with
                        | CRecord name input => recent (record_tool name input s)
                        | _ => recent s
                        end
  /\ compiledToolRegex (exec c s).2 = compiledToolRegex s /\ compiledInputRegex (exec c s).2 = compiledInputRegex s.
Proof.
  intros Hc. destruct (exec c s) as [out s'] eqn:E. apply exec_fires in E. cbn [snd].
  destruct c; try (by destruct Hc as [?|[? ?]]); try (by destruct E as [_ ->]).
  - by destruct (fires_frame _ _ _ _ _ _ no_mark_marks E) as (lf & lt & n & ->).
  - by destruct (fires_frame _ _ _ _ _ _ regex_mark_marks E) as (lf & lt & n & ->).
  - destruct E as [_ ->]. unfold record_tool. by case_match.
  - by destruct (fires_frame _ _ _ _ _ _ after_mark_marks E) as (lf & lt & n & ->).
Qed.

Lemma last_n_snoc {A} n (l : list A) x : (0 < n)%nat ->
  last_n n (l ++ [x]) = (if (length (last_n n l) <? n)%nat then last_n n l else drop 1 (last_n n l)) ++ [x].
Proof.
  intros Hn. unfold last_n. rewrite length_app, length_drop. cbn [length].
  destruct (Nat.ltb_spec (length l - (length l - n)) n) as [H|H].
  - rewrite drop_app_le by lia. do 2 f_equal. lia.
  - rewrite drop_app_le by lia. rewrite drop_drop. do 2 f_equal. lia.
Qed.

Lemma recent_window cs : forall s es,
  Forall (fun c => within_turn c \/ exists answer, c = CInterval answer) cs ->
  recent s = last_n recentBufferDepth es ->
  recent (exec_all cs s).2 = last_n recentBufferDepth (es ++ concat (event_of <$> cs))
  /\ compiledToolRegex (exec_all cs s).2 = compiledToolRegex s
  /\ compiledInputRegex (exec_all cs s).2 = compiledInputRegex s.
Proof.
  induction cs as [|c cs IH]; intros s es Hcs Hr; cbn [exec_all fmap list_fmap concat].
  { by rewrite app_nil_r. }
  apply Forall_cons in Hcs as [Hc Hcs]. pose proof (recent_exec c s Hc) as (H1 & H2 & H3).
  destruct (exec c s) as [out s1]. cbn [snd] in *.
  assert (recent s1 = last_n recentBufferDepth (es ++ event_of c)) as Hs1.
  { rewrite H1. destruct c; cbn [event_of]; rewrite ?app_nil_r; try done.
    rewrite last_n_snoc by (unfold recentBufferDepth; lia). unfold record_tool. rewrite Hr.
    by case_match. }
  destruct (IH s1 (es ++ event_of c) Hcs Hs1) as (H4 & H5 & H6).
  destruct (exec_all cs s1) as [out' s2]. cbn [snd] in *. rewrite app_assoc. by rewrite H4, H5, H6.
Qed.

(** A [tool_pattern] trigger sees the tools of this turn and no more: it
    matches exactly when the last [Consecutive] calls recorded since
    [StartTurn] all match, which needs that many to be recorded and
    [Consecutive] to be at most the sixteen the buffer keeps. *)
Theorem tool_pattern_window (msg : gostr) (cs : list call) (s : Scheduler) (i : nat) (t : Trigger) :
  Forall (fun c => within_turn c \/ exists answer, c = CInterval answer) cs ->
  let events := concat (event_of <$> cs) in
  let n := Z.to_nat (if Consecutive t <=? 0 then 1 else Consecutive t) in
  matchesRecentLocked (exec_all cs (start_turn msg s)).2 i t = true
  <-> (n <= recentBufferDepth)%nat /\ (n <= length events)%nat
      /\ Forall (fun ev => event_matches s i t ev = true) (last_n n events).
Proof.
  intros Hcs. cbv zeta. destruct (recent_window cs (start_turn msg s) [] Hcs eq_refl) as (Hr & H1 & H2).
  cbn [app] in Hr. unfold matchesRecentLocked. rewrite Hr. cbn [compiledToolRegex compiledInputRegex start_turn] in H1, H2.
  set (n := if _ <=? 0 then 1 else _). assert (0 < n) as Hn by (unfold n; destruct (Z.leb_spec (Consecutive t) 0); lia).
  set (events := concat _). clearbody n.
  assert (length (last_n recentBufferDepth events) = Nat.min recentBufferDepth (length events)) as Hl
    by (unfold last_n; rewrite length_drop; lia).
  destruct (Z.ltb_spec (Z.of_nat (length (last_n recentBufferDepth events))) n) as [Hlt|Hge].
  { split; [done|]. intros (Ha & Hb & _). rewrite Hl in Hlt. lia. }
  rewrite forallb_forall. setoid_rewrite <- list_elem_of_In.
  assert (drop (Z.to_nat (Z.of_nat (length (last_n recentBufferDepth events)) - n)) (last_n recentBufferDepth events)
          = last_n (Z.to_nat n) events) as ->.
  { unfold last_n at 2 3. rewrite drop_drop. f_equal. rewrite Hl in *. lia. }
  rewrite Forall_forall. assert (forall ev, event_matches (exec_all cs (start_turn msg s)).2 i t ev = event_matches s i t ev)
    as E by (intros ev; unfold event_matches; by rewrite H1, H2).
  setoid_rewrite E. rewrite Hl in Hge. split; [|by intros (_ & _ & H)].
  intros H. split_and!; [lia|lia|exact H].
Qed.

(** ** Well-formed schedulers *)

(** The trigger types that the checks can fire. *)
Definition fireable : list gostr := ["every_n_tools"; "after_error"; "regex"; "tool_pattern"].

Definition supported (opts : SchedulerOpts) (r : Rule) : Prop :=
  (TriggerRequiresPostTool (Type_ (Trigger_ r)) = true -> CanPostTool opts = true)
  /\ (TriggerRequiresPreAnswer (Type_ (Trigger_ r)) = true -> CanPreAnswer opts = true).

Record wf (opts : SchedulerOpts) (rs : list Rule) (s : Scheduler) : Prop := Wf {
  wf_rules : rules s = rs;
  wf_supported : Forall (supported opts) rs;
  wf_regex : compiledRegex s = compile_rules (if_type "regex" Pattern) 0 rs;
  wf_tool : compiledToolRegex s = compile_rules (if_type "tool_pattern" ToolPattern) 0 rs;
  wf_input : compiledInputRegex s = compile_rules (if_type "tool_pattern" InputPattern) 0 rs;
  wf_cooldown : 1 <= Cooldown (settings s);
  wf_batch : 1 <= MaxPerBatch (settings s);
  wf_results : dom (regexResults s) ⊆ dom (compiledRegex s);
  wf_fired : forall i, is_Some (lastFired s !! i) -> exists r, rs !! i = Some r /\ Type_ (Trigger_ r) ∈ fireable;
  wf_type : forall ty, is_Some (lastFiredByType s !! ty) -> ty ∈ fireable;
  wf_recent : (length (recent s) <= recentBufferDepth)%nat;
  wf_count : 0 <= turnInjections s;
}.

Lemma compile_rules_below pat rs : forall i j, (j < i)%nat -> compile_rules pat i rs !! j = None.
Proof.
  induction rs as [|r rs IH]; intros i j Hj; cbn [compile_rules]; [done|].
  destruct (pat r) as [p|]; [destruct (compile p)|]; rewrite ?lookup_insert_ne by lia; apply IH; lia.
Qed.

Lemma compile_rules_lookup pat rs : forall i k,
  compile_rules pat i rs !! (i + k)%nat = (r ← rs !! k; p ← pat r; compile p).
Proof.
  induction rs as [|r rs IH]; intros i [|k]; cbn [compile_rules lookup list_lookup mbind option_bind]; try done.
  - rewrite Nat.add_0_r. destruct (pat r) as [p|]; cbn; [destruct (compile p)|];
      rewrite ?lookup_insert_eq, ?compile_rules_below by lia; done.
  - replace (i + S k)%nat with (S i + k)%nat by lia.
    destruct (pat r) as [p|]; [destruct (compile p)|]; rewrite ?lookup_insert_ne by lia; apply IH.
Qed.

Lemma select_rules_supported opts rs : forall k, Forall (supported opts) (select_rules opts k rs).1.
Proof.
  induction rs as [|r rs IH]; intros k; cbn [select_rules]; [constructor|].
  specialize (IH (if same (Category r) CategoryChar then k + 1 else k)).
  destruct (select_rules opts _ rs) as [active ws]. cbn [fst] in IH.
  destruct (_ || _) eqn:E; cbn [fst]; [done|]. constructor; [|done].
  apply orb_false_iff in E as [E1 E2]. unfold supported.
  split; intros H; [rewrite H in E1|rewrite H in E2]; cbn in *; by apply negb_false_iff.
Qed.

Lemma normalise_pos cfg : 1 <= Cooldown (normalise cfg) /\ 1 <= MaxPerBatch (normalise cfg).
Proof.
  cbn. destruct (Z.leb_spec (Cooldown cfg) 0), (Z.leb_spec (MaxPerBatch cfg) 0); lia.
Qed.

Lemma shouldFire_type s answer i r err : shouldFire s answer i r err = true -> Type_ (Trigger_ r) ∈ fireable.
Proof.
  unfold shouldFire. intros H. do 4 (match type of H with (if ?b then _ else _) = _ => destruct b; [done|] end).
  unfold fireable. rewrite !elem_of_cons.
  destruct (same _ "every_n_tools") eqn:E1; [apply same_spec in E1; tauto|].
  destruct (same _ "after_error") eqn:E2; [apply same_spec in E2; tauto|].
  destruct (same _ "regex") eqn:E3; [apply same_spec in E3; tauto|].
  destruct (same _ "pre_answer"); [done|].
  destruct (same _ "tool_pattern") eqn:E4; [apply same_spec in E4; tauto|done].
Qed.

(** The marks of the rules a scan finds ready keep a scheduler well-formed. *)
Definition keeps opts rs (ready : Scheduler -> nat -> Rule -> Prop) (mark : nat -> Rule -> Scheduler -> Scheduler)
    : Prop :=
  forall s0 s i r, ready s0 i r -> rs !! i = Some r -> wf opts rs s -> wf opts rs (mark i r s).

Lemma wf_budget opts rs s b s1 : turnBudgetLocked s = (b, s1) -> wf opts rs s -> wf opts rs s1.
Proof.
  intros Hb Hw. unfold turnBudgetLocked in Hb. repeat case_match; simplify_eq; [done..|].
  destruct Hw. by constructor; cbn; try done; lia.
Qed.

Lemma wf_fire opts rs s i r lt : Type_ (Trigger_ r) ∈ fireable -> rs !! i = Some r ->
  lt = lastFiredByType s \/ lt = <[Type_ (Trigger_ r) := toolCount s]> (lastFiredByType s) ->
  wf opts rs s -> wf opts rs (set_fired (<[i := toolCount s]> (lastFired s)) lt s).
Proof.
  intros Hf Hi Hlt Hw. destruct Hw. constructor; try done; cbn.
  - intros k. rewrite lookup_insert_is_Some. intros [->|[_ Hk]]; [by exists r|auto].
  - intros ty. destruct Hlt as [-> | ->]; [auto|]. rewrite lookup_insert_is_Some. intros [<-|[_ Hk]]; auto.
Qed.

Lemma interval_keeps opts rs answer : keeps opts rs (interval_ready answer) no_mark.
Proof. by intros s0 s i r _ _. Qed.

Lemma after_keeps opts rs answer err : keeps opts rs (after_ready answer err) after_mark.
Proof. intros s0 s i r Hr Hi. apply wf_fire with (r := r); [by eapply shouldFire_type|done|by right]. Qed.

Lemma regex_keeps opts rs : keeps opts rs regex_ready regex_mark.
Proof.
  intros s0 s i r (Ht & _) Hi. apply wf_fire with (r := r); [|done|by left].
  rewrite Ht. by vm_compute; repeat constructor.
Qed.

Lemma fires_wf opts rs ready mark j s out s' :
  keeps opts rs ready mark -> fires ready mark j s out s' -> wf opts rs s -> wf opts rs s'.
Proof.
  intros Hk. induction 1 as [j s|j i r s s1 out s' Hj Hi Hrd Hb H IH]; intros Hw; [done|].
  rewrite (wf_rules _ _ _ Hw) in Hi. apply IH. eapply Hk; [done..|]. by eapply wf_budget.
Qed.

Lemma wf_exec opts rs c s : wf opts rs s -> wf opts rs (exec c s).2.
Proof.
  intros Hw. destruct (exec c s) as [out s'] eqn:E. apply exec_fires in E. cbn [snd].
  destruct c; try destruct E as [_ ->].
  - destruct (normalise_pos cfg). destruct Hw. by constructor.
  - destruct Hw. constructor; try done; cbn; [by rewrite dom_fmap| | |unfold recentBufferDepth; lia];
      intros k [? Hk]; by rewrite lookup_empty in Hk.
  - by eapply fires_wf; [apply interval_keeps|..].
  - by eapply fires_wf; [apply regex_keeps|..].
  - destruct Hw. unfold record_tool. case_match eqn:El; constructor; try done; cbn;
      rewrite length_app, ?length_drop; cbn [length]; unfold recentBufferDepth in *;
      [apply Nat.ltb_lt in El|apply Nat.ltb_ge in El]; lia.
  - eapply fires_wf; [apply after_keeps|exact E|]. by destruct Hw.
Qed.

Lemma wf_new opts rset s : NewSchedulerOpts (Some rset) opts = Some s ->
  wf opts (select_rules opts 0 (Rules_ rset)).1 s.
Proof.
  unfold NewSchedulerOpts. intros [= <-]. constructor; try done; cbn.
  - apply select_rules_supported.
  - destruct (Z.leb_spec (OptCooldown opts) 0); lia.
  - destruct (Z.leb_spec (OptMaxPerBatch opts) 0); lia.
  - intros i [? Hi]. by rewrite lookup_empty in Hi.
  - intros i [? Hi]. by rewrite lookup_empty in Hi.
  - unfold recentBufferDepth. lia.
Qed.

(** Schedulers are well-formed: one built by [NewSchedulerOpts] holds only
    rules its backend supports, with their compiled patterns and a positive
    cooldown and batch size, and every history of calls keeps it so, with at
    most sixteen recent tools and firing marks only for rules of the list whose
    trigger the checks can fire. *)
Theorem scheduler_wf (opts : SchedulerOpts) (rset : RuleSet) (s : Scheduler) (cs : list call) :
  NewSchedulerOpts (Some rset) opts = Some s ->
  wf opts (select_rules opts 0 (Rules_ rset)).1 (exec_all cs s).2.
Proof.
  intros H. apply wf_new in H. revert s H. induction cs as [|c cs IH]; intros s H; cbn [exec_all]; [done|].
  apply (wf_exec _ _ c) in H. destruct (exec c s) as [out s1]. specialize (IH s1 H).
  by destruct (exec_all cs s1).
Qed.

(** ** Which rules can fire *)

(** The only problem of the trigger is a missing interval. *)
Definition runnable (r : Rule) : Prop :=
  Type_ (Trigger_ r) ∈ fireable ++ ["every_n_turns"]
  /\ Forall (fun p => exists ty n, p = NeedsN ty n) (trigger_problems (Trigger_ r)).

Lemma compiled_at type pat rs i re r :
  compile_rules (if_type type pat) 0 rs !! i = Some re -> rs !! i = Some r ->
  same (pat (Trigger_ r)) "" = false /\ compiles (pat (Trigger_ r)) = true.
Proof.
  intros H Hr. rewrite <- (Nat.add_0_l i), compile_rules_lookup, Hr in H. cbn in H. unfold if_type in H.
  destruct (same (Type_ (Trigger_ r)) type); [|done]. cbn in H.
  destruct (same (pat (Trigger_ r)) ""); [done|]. cbn in H. split; [done|].
  apply bool_decide_eq_true. by exists re.
Qed.

Lemma same_refl a : same a a = true.
Proof. by apply same_spec. Qed.

Lemma runnable_free r : Type_ (Trigger_ r) ∈ ["every_n_tools"; "every_n_turns"; "after_error"] -> runnable r.
Proof.
  intros H. split.
  - unfold fireable. rewrite !elem_of_cons in H. cbn [app]. rewrite !elem_of_cons. tauto.
  - unfold trigger_problems. rewrite !elem_of_cons in H.
    destruct H as [-> |[-> |[-> |H]]]; [..|by apply elem_of_nil in H];
      rewrite ?same_refl, ?orb_true_r; cbn [orb]; try case_match; try done;
      (constructor; [by eexists _, _|constructor]).
Qed.

Lemma runnable_regex opts rs s i r : wf opts rs s -> rs !! i = Some r ->
  Type_ (Trigger_ r) = "regex" -> regexResults s !! i = Some true -> runnable r.
Proof.
  intros Hw Hr Ht Hx. split; [rewrite Ht; by vm_compute; repeat constructor|].
  assert (i ∈ dom (compiledRegex s)) as [re Hre]%elem_of_dom by (eapply (wf_results _ _ _ Hw), elem_of_dom_2, Hx).
  rewrite (wf_regex _ _ _ Hw) in Hre. apply (compiled_at _ _ _ _ _ _ Hre) in Hr as [E1 E2].
  unfold trigger_problems. by rewrite Ht, E1, E2.
Qed.

Lemma runnable_pattern opts rs s i r : wf opts rs s -> rs !! i = Some r ->
  Type_ (Trigger_ r) = "tool_pattern" -> matchesRecentLocked s i (Trigger_ r) = true -> runnable r.
Proof.
  intros Hw Hr Ht Hx. split; [rewrite Ht; by vm_compute; repeat constructor|].
  unfold matchesRecentLocked in Hx. destruct (Z.ltb_spec (Z.of_nat (length (recent s)))
    (if Consecutive (Trigger_ r) <=? 0 then 1 else Consecutive (Trigger_ r))) as [|Hlen]; [done|].
  set (n := if _ <=? 0 then 1 else _) in *. assert (0 < n) by (unfold n; destruct (Z.leb_spec (Consecutive (Trigger_ r)) 0); lia).
  destruct (drop _ (recent s)) as [|ev evs] eqn:Ed.
  { apply (f_equal length) in Ed. rewrite length_drop in Ed. cbn in Ed. lia. }
  cbn [forallb] in Hx. apply andb_true_iff in Hx as [Hx _]. unfold event_matches in Hx.
  rewrite (wf_tool _ _ _ Hw), (wf_input _ _ _ Hw) in Hx. apply andb_true_iff in Hx as [H1 H2].
  unfold trigger_problems. rewrite Ht. cbn [orb]. rewrite same_refl.
  apply Forall_app. split.
  - destruct (same (ToolPattern (Trigger_ r)) "") eqn:E; [done|].
    destruct (compile_rules _ _ _ !! i) as [re|] eqn:Ec in H1; [|done].
    apply (compiled_at _ _ _ _ _ _ Ec) in Hr as [_ ->]. done.
  - destruct (same (InputPattern (Trigger_ r)) "") eqn:E; [done|].
    destruct (compile_rules _ _ _ !! i) as [re|] eqn:Ec in H2; [|done].
    apply (compiled_at _ _ _ _ _ _ Ec) in Hr as [_ ->]. done.
Qed.

Lemma shouldFire_runnable opts rs s answer i r err : wf opts rs s -> rs !! i = Some r ->
  shouldFire s answer i r err = true -> runnable r.
Proof.
  intros Hw Hr H. unfold shouldFire in H.
  do 4 (match type of H with (if ?b then _ else _) = _ => destruct b; [done|] end).
  destruct (same _ "every_n_tools") eqn:E1; [apply same_spec in E1; apply runnable_free; rewrite E1; repeat constructor|].
  destruct (same _ "after_error") eqn:E2; [apply same_spec in E2; apply runnable_free; rewrite E2; repeat constructor|].
  destruct (same _ "regex") eqn:E3.
  { apply same_spec in E3. destruct (regexResults s !! i) as [[]|] eqn:Ex; try done. by eapply runnable_regex. }
  destruct (same _ "pre_answer"); [done|].
  destruct (same _ "tool_pattern") eqn:E4; [apply same_spec in E4; by eapply runnable_pattern|done].
Qed.

(** The fired rules of a scan over a well-formed scheduler. *)
Lemma fires_runnable opts rs ready mark :
  keeps opts rs ready mark ->
  (forall s i r, wf opts rs s -> rs !! i = Some r -> ready s i r -> runnable r) ->
  forall j s out s', fires ready mark j s out s' -> wf opts rs s ->
    Forall (fun p => exists r, rs !! p.1 = Some r /\ runnable r) out.
Proof.
  intros Hk Hrun. induction 1 as [j s|j i r s s1 out s' Hj Hi Hrd Hb H IH]; intros Hw; [constructor|].
  rewrite (wf_rules _ _ _ Hw) in Hi. constructor; [exists r; split; [done|by eapply Hrun]|].
  apply IH. eapply Hk; [done..|]. by eapply wf_budget.
Qed.

(** Only rules that can work ever fire: each reminder of any history of
    calls on a new scheduler comes from a rule of its set that the backend
    supports, whose trigger type is known and is not [pre_answer], and whose
    patterns all compile; the one trigger problem it may have is a missing
    interval. *)
Theorem fired_rules_runnable (opts : SchedulerOpts) (rset : RuleSet) (s : Scheduler) (cs : list call) :
  NewSchedulerOpts (Some rset) opts = Some s ->
  Forall (fun p => exists r, rules s !! p.1 = Some r /\ supported opts r /\ runnable r) (exec_all cs s).1.
Proof.
  intros H. apply wf_new in H. rewrite (wf_rules _ _ _ H). set (rs := (select_rules opts 0 (Rules_ rset)).1) in *.
  assert (Forall (fun p => exists r, rs !! p.1 = Some r /\ runnable r) (exec_all cs s).1) as Hall.
  2:{ eapply Forall_impl; [exact Hall|]. intros p (r & Hr & Hrun). exists r. split_and!; [done| |done].
      eapply Forall_lookup_1; [apply (wf_supported _ _ _ H)|exact Hr]. }
  revert s H. induction cs as [|c cs IH]; intros s H; cbn [exec_all]; [constructor|].
  pose proof (wf_exec _ _ c _ H) as H1. destruct (exec c s) as [out s1] eqn:E. specialize (IH s1 H1).
  destruct (exec_all cs s1) as [out' s2]. cbn [fst] in *. apply Forall_app. split; [|done].
  apply exec_fires in E. destruct c; try (destruct E as [-> _]; constructor).
  - eapply (fires_runnable opts rs); [apply interval_keeps| |exact E|done].
    intros s0 i r _ _ (Ht & _). apply runnable_free. rewrite Ht. repeat constructor.
  - eapply (fires_runnable opts rs); [apply regex_keeps| |exact E|done].
    intros s0 i r Hw Hr (Ht & _ & Hx & _). by eapply runnable_regex.
  - eapply (fires_runnable opts rs); [apply after_keeps| |exact E|by destruct H].
    intros s0 i r Hw Hr Hs. by eapply shouldFire_runnable.
Qed.

End WithLibraries.

(** ** Demonstrations

    Patterns are plain substrings here, and a tool input is its own command. *)
Definition demo_compile (p : gostr) : option regex :=
  if same p "(" then None else Some (contains p).
Definition demo_json (s : gostr) : option gostr := Some s.

Definition demo_rule (text type pat : gostr) (n : Z) (prio cat : gostr) : Rule :=
  MkRule text "CRAFT.md" "" (MkTrigger type n (if same type "regex" then pat else "")
    (if same type "tool_pattern" then pat else "") "" 0) prio false cat.

Definition demo_rules : RuleSet :=
  MkRuleSet "" [demo_rule "check the tests" "regex" "deploy" 0 "high" "";
                demo_rule "read before editing" "tool_pattern" "Edit" 0 "high" "";
                demo_rule "keep edits small" "tool_pattern" "Edit" 0 "low" "";
                demo_rule "pause" "every_n_tools" "" 2 "low" "";
                demo_rule "broken" "regex" "(" 0 "low" "char";
                demo_rule "verify" "pre_answer" "" 0 "high" ""].

Definition demo_opts : SchedulerOpts := MkOpts 3 2 true true.

Definition demo : Scheduler :=
  default (MkScheduler [] (default_settings 5 1) ∅ ∅ ∅ ∅ ∅ 0 0 ∅ 0 []) (NewSchedulerOpts demo_compile (Some demo_rules) demo_opts).

Definition demo_cap (n : Z) : Settings := MkSettings 3 2 true true 0 0 0 "" false 0 n.

Definition yes (i : nat) : bool := true.

(** A turn of three edits. *)
Definition demo_turn : list call :=
  [CConfigure (demo_cap 4); CRegex; CRecord "Edit" "a"; CAfter yes 1 false; CRecord "Edit" "b"; CAfter yes 2 false;
   CRecord "Edit" "c"; CAfter yes 3 false; CRecord "Edit" "d"; CAfter yes 4 false].

Abbreviation demo_all := (exec_all demo_json demo_json).

Example demo_outputs :
  (demo_all demo_turn (start_turn "please deploy" demo)).1
  = [(0%nat, "check the tests"); (1%nat, "read before editing"); (3%nat, "pause"); (0%nat, "check the tests")]
  /\ (demo_all demo_turn (start_turn "hello" demo)).1.*1 = [1; 3; 1]%nat.
Proof. by vm_compute. Qed.

Example truncated_command_example :
  truncatedCommand (fun s => if contains "\" s then None else Some s)
    ("{" ++ [quote] ++ "command" ++ [quote; ":"%char; " "%char; quote] ++ "grep -q x\...[truncated]")
  = [quote] ++ "grep -q x" ++ [quote]
  /\ benignExitCommandRe ([quote] ++ "command" ++ [quote; ":"%char; " "%char; quote; " "%char] ++ "test -f x") = true
  /\ benignExitCommandRe ([quote] ++ "command" ++ [quote; ":"%char; quote] ++ "tests") = false.
Proof. by vm_compute. Qed.

Example turn_cap_witness :
  Z.of_nat (length (demo_all demo_turn (start_turn "please deploy" (set_settings (demo_cap 2) demo))).1) <= 4.
Proof.
  apply (turn_cap demo_json demo_json 4); [by vm_compute|]. repeat constructor; by vm_compute.
Defined.

Example cooldown_kept_witness :
  StronglySorted (apart (rules demo) 3) (fire_log demo_json demo_json demo_turn (start_turn "please deploy" demo)).
Proof.
  apply (cooldown_kept demo_json demo_json 3); [by vm_compute|]. repeat constructor; by vm_compute.
Defined.

(** A scheduler in its second turn, and the same in its first. *)
Definition demo_capped : Scheduler := set_settings (demo_cap 4) demo.
Definition demo_used : Scheduler := (demo_all demo_turn (start_turn "x" demo_capped)).2.

Example turns_independent_witness :
  turnCount demo_used = 1 /\
  (demo_all demo_turn (start_turn "deploy" demo_capped)).1 = (demo_all demo_turn (start_turn "deploy" demo_used)).1.
Proof.
  split; [by vm_compute|].
  apply (turns_independent demo_json demo_json "deploy" demo_turn demo_capped demo_used);
    [|by repeat constructor].
  split_and!; vm_compute; reflexivity.
Defined.

Example tool_pattern_window_witness :
  matchesRecentLocked (demo_all demo_turn (start_turn "x" demo)).2 1 (MkTrigger "tool_pattern" 0 "" "Edit" "" 4) = true.
Proof.
  assert (Forall (fun c => within_turn c \/ exists answer, c = CInterval answer) demo_turn) as H
    by (repeat first [apply Forall_nil_2|apply Forall_cons; split; [by left|]]).
  destruct (tool_pattern_window demo_json demo_json "x" demo_turn demo 1 (MkTrigger "tool_pattern" 0 "" "Edit" "" 4) H)
    as [_ Hw].
  apply Hw. split_and!; [vm_compute; lia|vm_compute; lia|]. vm_compute. repeat constructor.
Defined.

Example scheduler_wf_witness :
  wf demo_compile demo_opts (select_rules demo_compile demo_opts 0 (Rules_ demo_rules)).1
    (demo_all demo_turn demo).2.
Proof. apply (scheduler_wf demo_compile demo_json demo_json demo_opts demo_rules). by vm_compute. Defined.

Example fired_rules_runnable_witness :
  Forall (fun p => exists r, rules demo !! p.1 = Some r /\ supported demo_opts r /\ runnable demo_compile r)
    (demo_all (CStart "deploy" :: demo_turn) demo).1.
Proof.
  apply (fired_rules_runnable demo_compile demo_json demo_json demo_opts demo_rules demo (CStart "deploy" :: demo_turn)).
  vm_compute. reflexivity.
Defined.

(** ** What the comments promise and the code does not do *)

(** The cap is documented as the total over every check of the turn, the
    pre-answer one included; [CheckPreAnswer] neither reads nor spends it. *)
Example pre_answer_beyond_cap :
  let s := (demo_all [CConfigure (demo_cap 1); CRegex] (start_turn "deploy" demo)).2 in
  turnInjections s = 1 /\ MaxPerTurn (settings s) = 1 /\ CheckPreAnswer (Some s) = "verify".
Proof. by vm_compute. Qed.

(** A character rule without an interval and with an unknown priority is
    reported as one that will never fire, and fires every fifth tool call. *)
Example rejected_rule_fires :
  let r := demo_rule "breathe" "every_n_tools" "" 0 "urgent" CategoryChar in
  let s := default demo (NewSchedulerOpts demo_compile (Some (MkRuleSet "" [r])) demo_opts) in
  (select_rules demo_compile demo_opts 0 [r]).2 = [Invalid 0 [BadPriority "urgent"; NeedsN "every_n_tools" 0]]
  /\ (demo_all [CConfigure (demo_cap 0); CAfter yes 5 false] (start_turn "x" s)).1 = [(0%nat, "breathe")].
Proof. by vm_compute. Qed.
