(* ===== verification/SessionIndex.v ===== *)
(** * The session index ([internal/session/index.go], [provenance.go])

    The SQLite tables behind sessions and their metadata, as finite maps by
    primary key, with one definition per statement the methods run under the
    index mutex.  A timestamp column holds the whole seconds that [unixepoch]
    compares.  The order in which SQLite visits rows is [scan]: the theorems
    hold for every order.  Statements do not fail here; what a caller does when
    the database fails is input and output. *)
From S2P Require Import Prelude GoStrings GoNum SessionKey.
From stdpp Require Import fin_maps sorting.
Local Open Scope Z_scope.
Local Open Scope gostr_scope.

(** ** Data *)
Definition SessionTypeChat : gostr := "chat".
Definition SessionTypeFacet : gostr := "facet".
Definition SessionTypeIndependent : gostr := "independent".
Definition SessionTypeSpawn : gostr := "spawn".
Definition SessionTypeDepth : gostr := "depth".
Definition SessionTypeReflection : gostr := "reflection".
Definition SessionTypeKeepalive : gostr := "keepalive".
Definition SessionTypeBackgroundTask : gostr := "background-task".
Definition SessionStatusActive : gostr := "active".

Definition reflectableTypes : list gostr := [SessionTypeChat; SessionTypeFacet; SessionTypeIndependent].
Definition IsReflectable (t : gostr) : bool := in_table reflectableTypes t.
Definition IsUserFacing (t : gostr) : bool := in_table [SessionTypeChat; SessionTypeFacet; SessionTypeIndependent] t.
Definition IsOneshot (t : gostr) : bool :=
  in_table [SessionTypeReflection; SessionTypeKeepalive; SessionTypeBackgroundTask; SessionTypeSpawn] t.
Definition barredSenderTypes : list gostr := [SessionTypeReflection; SessionTypeKeepalive].
Definition IsBarredFromSessionSend (t : gostr) : bool := in_table barredSenderTypes t.
Definition EphemeralCleanupTypes : list gostr :=
  [SessionTypeReflection; SessionTypeKeepalive; SessionTypeBackgroundTask; SessionTypeSpawn; SessionTypeDepth].

Record SessionIndexEntry := MkEntry {
  e_key : gostr; e_path : gostr; e_created : Time; e_activity : Time; e_parent : gostr;
  e_type : gostr; e_status : gostr;
}.

(** A row of [session_index]; [None] is NULL. *)
Record row := MkRow {
  file_path : gostr; created_at : Z; last_activity_at : option Z; last_reflection : option Z;
  last_cache_touch : option Z; last_user_activity_at : option Z; parent_session_key : gostr;
  session_type : gostr; status : gostr; agent_id : gostr; chat_id : Z; is_root : bool;
}.

(** The tables: sessions by key; metadata by agent, by chat and by session;
    process state; observed backend sessions with the time each was swept. *)
Abbreviation chat_key := (gostr * gostr * Z * gostr)%type.

Record Index := MkIndex {
  sessions : gmap gostr row;
  agent_meta : gmap (gostr * gostr) gostr;
  chats : gmap chat_key gostr;
  session_meta : gmap (gostr * gostr) gostr;
  system_state : gmap gostr gostr;
  resumes : gmap (gostr * Z * gostr) (option Z);
}.

Definition empty_index : Index := MkIndex ∅ ∅ ∅ ∅ ∅ ∅.

Definition set_sessions m x := MkIndex m (agent_meta x) (chats x) (session_meta x) (system_state x) (resumes x).
Definition set_agent_meta m x := MkIndex (sessions x) m (chats x) (session_meta x) (system_state x) (resumes x).
Definition set_chats m x := MkIndex (sessions x) (agent_meta x) m (session_meta x) (system_state x) (resumes x).
Definition set_session_meta m x := MkIndex (sessions x) (agent_meta x) (chats x) m (system_state x) (resumes x).
Definition set_system_state m x := MkIndex (sessions x) (agent_meta x) (chats x) (session_meta x) m (resumes x).
Definition set_resumes m x := MkIndex (sessions x) (agent_meta x) (chats x) (session_meta x) (system_state x) m.

(** ** Timestamps

    [timeutil.Format] writes whole seconds; the column compares as that. *)
Definition stamp (t : Time) : Z := t / Second.

(** [excluded > stored], which NULL makes false. *)
Definition newer (a : Z) (b : option Z) : bool := match b with Some b => b <? a | None => false end.

(** ** Sessions *)
Definition keyColumns (sessionKey : gostr) : gostr * Z * bool :=
  match ParseSessionKey sessionKey with
  | None => (AgentIDFromKey sessionKey, 0, false)
  | Some sk => (AgentID sk, ChatID sk, IsRoot sk)
  end.

Definition activity_of (e : SessionIndexEntry) : Time :=
  if IsZero (e_activity e) then e_created e else e_activity e.

Definition Upsert (e : SessionIndexEntry) (x : Index) : Index :=
  let activity := stamp (activity_of e) in
  let '(agentID, chatID, root) := keyColumns (e_key e) in
  let r :=
    match sessions x !! e_key e with
    | None =>
        MkRow (e_path e) (stamp (e_created e)) (Some activity) (Some activity) None None (e_parent e)
          (e_type e) (e_status e) agentID chatID root
    | Some r =>
        MkRow (e_path e) (stamp (e_created e))
          (if newer activity (last_activity_at r) then Some activity else last_activity_at r)
          (last_reflection r) (last_cache_touch r) (last_user_activity_at r) (e_parent e)
          (e_type e) (e_status e) agentID chatID root
    end in
  set_sessions (<[e_key e := r]> (sessions x)) x.

Definition RecordTurnReceipt (e : SessionIndexEntry) (bumpActivity bumpUser : bool) (x : Index) : Index :=
  let now := stamp (e_created e) in
  let '(agentID, chatID, root) := keyColumns (e_key e) in
  let r :=
    match sessions x !! e_key e with
    | None =>
        MkRow (e_path e) now (Some now) (Some now) None (if bumpUser then Some now else None) (e_parent e)
          (e_type e) (e_status e) agentID chatID root
    | Some r =>
        MkRow (e_path e) (created_at r)
          (if bumpActivity && newer now (last_activity_at r) then Some now else last_activity_at r)
          (last_reflection r) (last_cache_touch r)
          (if bumpUser then Some now else last_user_activity_at r)
          (parent_session_key r) (session_type r) (e_status e) (agent_id r) (chat_id r) (is_root r)
    end in
  set_sessions (<[e_key e := r]> (sessions x)) x.

(** [UPDATE ... WHERE session_key = ?]. *)
Definition update_row (f : row -> row) (sessionKey : gostr) (x : Index) : Index :=
  set_sessions (alter f sessionKey (sessions x)) x.

Definition set_activity t r :=
  MkRow (file_path r) (created_at r) t (last_reflection r) (last_cache_touch r) (last_user_activity_at r)
    (parent_session_key r) (session_type r) (status r) (agent_id r) (chat_id r) (is_root r).
Definition set_reflection t r :=
  MkRow (file_path r) (created_at r) (last_activity_at r) t (last_cache_touch r) (last_user_activity_at r)
    (parent_session_key r) (session_type r) (status r) (agent_id r) (chat_id r) (is_root r).
Definition set_cache t r :=
  MkRow (file_path r) (created_at r) (last_activity_at r) (last_reflection r) t (last_user_activity_at r)
    (parent_session_key r) (session_type r) (status r) (agent_id r) (chat_id r) (is_root r).
Definition set_user t r :=
  MkRow (file_path r) (created_at r) (last_activity_at r) (last_reflection r) (last_cache_touch r) t
    (parent_session_key r) (session_type r) (status r) (agent_id r) (chat_id r) (is_root r).
Definition set_status s r :=
  MkRow (file_path r) (created_at r) (last_activity_at r) (last_reflection r) (last_cache_touch r)
    (last_user_activity_at r) (parent_session_key r) (session_type r) s (agent_id r) (chat_id r) (is_root r).

Definition UpdateActivity (key : gostr) (at_ : Time) : Index -> Index := update_row (set_activity (Some (stamp at_))) key.
Definition TouchActivity (key : gostr) (now : Time) : Index -> Index := UpdateActivity key now.
Definition TouchCacheTouch (key : gostr) (at_ : Time) : Index -> Index := update_row (set_cache (Some (stamp at_))) key.
Definition ClearCacheTouch (key : gostr) : Index -> Index := update_row (set_cache None) key.
Definition TouchUserActivity (key : gostr) (at_ : Time) : Index -> Index := update_row (set_user (Some (stamp at_))) key.
Definition StampReflection (key : gostr) (at_ : Time) : Index -> Index := update_row (set_reflection (Some (stamp at_))) key.
Definition UpdateStatus (key st : gostr) : Index -> Index := update_row (set_status st) key.

(** A timestamp column read back as a time. *)
Definition lastSessionTimestamp (col : row -> option Z) (key : gostr) (x : Index) : option Time :=
  r ← sessions x !! key; t ← col r; Some (t * Second).
Definition LastCacheTouch : gostr -> Index -> option Time := lastSessionTimestamp last_cache_touch.
Definition LastUserActivity : gostr -> Index -> option Time := lastSessionTimestamp last_user_activity_at.

Definition SessionExists (key : gostr) (x : Index) : bool := bool_decide (is_Some (sessions x !! key)).
Definition Count (x : Index) : nat := size (sessions x).

Definition ReflectionRedundant (key : gostr) (x : Index) : bool :=
  match sessions x !! key with
  | None => false
  | Some r =>
      match last_reflection r, last_activity_at r with
      | Some refl, Some act => act <=? refl
      | _, _ => false
      end
  end.

(** [last_reflection IS NULL OR unixepoch(last_activity_at) > unixepoch(last_reflection)] *)
Definition reflection_due (r : row) : bool :=
  match last_reflection r, last_activity_at r with
  | None, _ => true
  | Some refl, Some act => refl <? act
  | Some _, None => false
  end.

Definition SessionNeedsReflection (key : gostr) (x : Index) : bool :=
  match sessions x !! key with
  | None => false
  | Some r => IsReflectable (session_type r) && reflection_due r
  end.

(** The cascade of a deletion. *)
Definition purgeLocked (key : gostr) (x : Index) : Index :=
  MkIndex (delete key (sessions x)) (agent_meta x) (chats x)
    (filter (fun kv => kv.1.1 <> key) (session_meta x)) (system_state x)
    (filter (fun kv => kv.1.1.1 <> key) (resumes x)).
Definition Delete : gostr -> Index -> Index := purgeLocked.
Definition PurgeSession : gostr -> Index -> Index := purgeLocked.

(** ** Metadata *)
Definition SetAgentMetadata (agentID key value : gostr) (x : Index) : Index :=
  set_agent_meta (<[(agentID, key) := value]> (agent_meta x)) x.
Definition GetAgentMetadata (agentID key : gostr) (x : Index) : gostr := default "" (agent_meta x !! (agentID, key)).
Definition DeleteAgentMetadata (agentID key : gostr) (x : Index) : Index :=
  set_agent_meta (delete (agentID, key) (agent_meta x)) x.

Definition SetChatMetadata (agentID platform : gostr) (chatID : Z) (key value : gostr) (x : Index) : Index :=
  set_chats (<[(agentID, platform, chatID, key) := value]> (chats x)) x.
Definition GetChatMetadata (agentID platform : gostr) (chatID : Z) (key : gostr) (x : Index) : gostr :=
  default "" (chats x !! (agentID, platform, chatID, key)).
Definition DeleteChatMetadata (agentID platform : gostr) (chatID : Z) (key : gostr) (x : Index) : Index :=
  set_chats (delete (agentID, platform, chatID, key) (chats x)) x.

Definition SetSessionMetadata (sessionKey key value : gostr) (x : Index) : Index :=
  set_session_meta (<[(sessionKey, key) := value]> (session_meta x)) x.
Definition GetSessionMetadata (sessionKey key : gostr) (x : Index) : gostr :=
  default "" (session_meta x !! (sessionKey, key)).
Definition DeleteSessionMetadata (sessionKey key : gostr) (x : Index) : Index :=
  set_session_meta (delete (sessionKey, key) (session_meta x)) x.
Definition DeleteAllSessionMetadata (sessionKey : gostr) (x : Index) : Index :=
  set_session_meta (filter (fun kv => kv.1.1 <> sessionKey) (session_meta x)) x.

Definition SetSystemState (key value : gostr) (x : Index) : Index :=
  set_system_state (<[key := value]> (system_state x)) x.
Definition GetSystemState (key : gostr) (x : Index) : gostr := default "" (system_state x !! key).
Definition DeleteSystemState (key : gostr) (x : Index) : Index := set_system_state (delete key (system_state x)) x.

Section WithOrder.
Context (scan : forall A : Type, list A -> list A).

(** ** Queries over many rows *)
Definition all_rows {K V} `{Countable K} (m : gmap K V) : list (K * V) := scan _ (map_to_list m).

Definition LastUserActivityForAgent (agentID : gostr) (x : Index) : option Time :=
  let ts := omap (fun kr => if bool_decide (agent_id kr.2 = agentID) then last_user_activity_at kr.2 else None)
              (all_rows (sessions x)) in
  match ts with [] => None | t :: ts => Some (foldr Z.max t ts * Second) end.

Definition SessionsNeedingReflection (agentID : gostr) (x : Index) : list gostr :=
  (filter (fun kr => agent_id kr.2 = agentID /\ IsReflectable (session_type kr.2) = true
                     /\ status kr.2 = SessionStatusActive /\ reflection_due kr.2 = true)
     (all_rows (sessions x))).*1.

Definition unswept (key : gostr) (x : Index) : list (Z * gostr) :=
  omap (fun kv => if bool_decide (kv.1.1.1 = key) && bool_decide (kv.2 = None)
                  then Some (kv.1.1.2, kv.1.2) else None) (all_rows (resumes x)).

Definition EphemeralSessionsOlderThan (agentID : gostr) (cutoff : Time) (x : Index) : list gostr :=
  (filter (fun kr => agent_id kr.2 = agentID /\ session_type kr.2 ∈ EphemeralCleanupTypes
                     /\ default (created_at kr.2) (last_activity_at kr.2) < stamp cutoff
                     /\ unswept kr.1 x <> [])
     (all_rows (sessions x))).*1.

Definition SessionKeysWithMetadata (key : gostr) (x : Index) : list gostr :=
  (filter (fun kv => kv.1.2 = key) (all_rows (session_meta x))).*1.*1.

(** [missing path] is [os.IsNotExist] of [os.Stat]. *)
Definition orphans (missing : gostr -> bool) (x : Index) : list gostr :=
  (filter (fun kr => status kr.2 = SessionStatusActive /\ file_path kr.2 <> "" /\ missing (file_path kr.2) = true)
     (all_rows (sessions x))).*1.

Definition PruneOrphans (missing : gostr -> bool) (x : Index) : nat * Index :=
  let keys := orphans missing x in (length keys, fold_left (fun x k => purgeLocked k x) keys x).

(** ** Rebuilding from the files of the store *)
Definition stamps (r : row) : option Z * option Z * option Z :=
  (last_reflection r, last_user_activity_at r, last_cache_touch r).
Definition saved_stamps (x : Index) : list (gostr * (option Z * option Z * option Z)) :=
  (fun kr => (kr.1, stamps kr.2))
    <$> filter (fun kr => stamps kr.2 <> (None, None, None)) (all_rows (sessions x)).

Definition coalesce (a b : option Z) : option Z := match a with Some _ => a | None => b end.

Definition restore_stamps (p : option Z * option Z * option Z) (r : row) : row :=
  let '(refl, user, cache) := p in
  set_reflection (coalesce refl (last_reflection r))
    (set_user (coalesce user (last_user_activity_at r)) (set_cache (coalesce cache (last_cache_touch r)) r)).

Definition insert_entry (m : gmap gostr row) (e : SessionIndexEntry) : gmap gostr row :=
  let '(agentID, chatID, root) := keyColumns (e_key e) in
  <[e_key e := MkRow (e_path e) (stamp (e_created e)) (Some (stamp (activity_of e))) None None None (e_parent e)
                 (e_type e) (e_status e) agentID chatID root]> m.

Definition under_store (storeDir path : gostr) : bool := has_prefix (clean storeDir ++ "/") path.

Definition RebuildIndex (storeDir : gostr) (entries : list SessionIndexEntry) (x : Index) : nat * Index :=
  let saved := saved_stamps x in
  let m := if bool_decide (storeDir = "") then sessions x
           else filter (fun kr => under_store storeDir (file_path kr.2) = false) (sessions x) in
  let m := fold_left insert_entry entries m in
  let m := fold_left (fun m kp => alter (restore_stamps kp.2) kp.1 m) saved m in
  (length entries, set_sessions m x).

(** ** Observed backend sessions *)

(** [ORDER BY unixepoch(observed_at) DESC]: a stable sort of the visit order. *)
Fixpoint insert_newest (o : Z * gostr) (l : list (Z * gostr)) : list (Z * gostr) :=
  match l with
  | [] => [o]
  | p :: l' => if p.1 <? o.1 then o :: l else p :: insert_newest o l'
  end.
Definition newest_first (l : list (Z * gostr)) : list (Z * gostr) := foldr insert_newest [] (rev l).

Definition observations (key : gostr) (x : Index) : list (Z * gostr) :=
  omap (fun kv => if bool_decide (kv.1.1.1 = key) then Some (kv.1.1.2, kv.1.2) else None) (all_rows (resumes x)).

Definition RecordBackendResume (key resumeID : gostr) (now : Time) (x : Index) : Index :=
  if bool_decide (key = "") || bool_decide (resumeID = "") then x
  else if bool_decide ((newest_first (observations key x)).*2 !! 0%nat = Some resumeID) then x
  else match resumes x !! (key, stamp now, resumeID) with
       | Some _ => x
       | None => set_resumes (<[(key, stamp now, resumeID) := None]> (resumes x)) x
       end.

Definition UnsweptResumes (key : gostr) (x : Index) : list gostr := (newest_first (unswept key x)).*2.

Definition MarkResumeSwept (key resumeID : gostr) (now : Time) (x : Index) : Index :=
  set_resumes (map_imap (fun k v =>
    Some (if bool_decide (k.1.1 = key) && bool_decide (k.2 = resumeID) && bool_decide (v = None)
          then Some (stamp now) else v)) (resumes x)) x.
End WithOrder.

(** ** Histories of session writes *)
Inductive session_op :=
  | OUpsert (e : SessionIndexEntry)
  | OReceipt (e : SessionIndexEntry) (bumpActivity bumpUser : bool)
  | OActivity (key : gostr) (at_ : Time)
  | OCache (key : gostr) (at_ : Time)
  | OClearCache (key : gostr)
  | OUser (key : gostr) (at_ : Time)
  | OReflect (key : gostr) (at_ : Time)
  | OStatus (key st : gostr)
  | OPurge (key : gostr).

Definition apply_op (o : session_op) : Index -> Index :=
  match o with
  | OUpsert e => Upsert e
  | OReceipt e ba bu => RecordTurnReceipt e ba bu
  | OActivity k t => UpdateActivity k t
  | OCache k t => TouchCacheTouch k t
  | OClearCache k => ClearCacheTouch k
  | OUser k t => TouchUserActivity k t
  | OReflect k t => StampReflection k t
  | OStatus k s => UpdateStatus k s
  | OPurge k => Delete k
  end.

Definition apply_ops (os : list session_op) (x : Index) : Index := fold_left (fun x o => apply_op o x) os x.

(** ** Rows carry the columns of their key *)

Definition columns (r : row) : gostr * Z * bool := (agent_id r, chat_id r, is_root r).
Definition keyed_map (m : gmap gostr row) : Prop := map_Forall (fun k r => columns r = keyColumns k) m.
Definition keyed (x : Index) : Prop := keyed_map (sessions x).

Lemma keyed_insert m k r : keyed_map m -> columns r = keyColumns k -> keyed_map (<[k := r]> m).
Proof. intros H Hr. by apply map_Forall_insert_2. Qed.

Lemma keyed_alter m k f : keyed_map m -> (forall r, columns (f r) = columns r) -> keyed_map (alter f k m).
Proof.
  intros H Hf k' r. rewrite lookup_alter_Some. intros [(<- & r' & Hr & ->)|[_ Hr]]; [rewrite Hf|]; by apply H.
Qed.

Lemma keyed_filter m (P : gostr * row -> Prop) `{forall x, Decision (P x)} : keyed_map m -> keyed_map (filter P m).
Proof. intros Hm k r [Hk _]%map_lookup_filter_Some. by apply Hm. Qed.

Lemma keyed_op o x : keyed x -> keyed (apply_op o x).
Proof.
  intros H. destruct o as [e|e ba bu|k t|k t|k|k t|k t|k s|k]; cbn [apply_op];
    try (by apply keyed_alter); try (by apply map_Forall_delete).
  - unfold Upsert. destruct (keyColumns (e_key e)) as [[a c] b] eqn:E. apply keyed_insert; [done|].
    rewrite E. by destruct (sessions x !! e_key e).
  - unfold RecordTurnReceipt. destruct (keyColumns (e_key e)) as [[a c] b] eqn:E. apply keyed_insert; [done|].
    destruct (sessions x !! e_key e) as [r|] eqn:Er; [|by rewrite E]. exact (H _ _ Er).
Qed.

Lemma keyed_rebuild scan dir es x : keyed x -> keyed (RebuildIndex scan dir es x).2.
Proof.
  intros H. unfold RebuildIndex. cbn [snd]. set (m0 := if bool_decide _ then _ else _).
  assert (keyed_map m0) as H0 by (unfold m0; case_bool_decide; [done|by apply keyed_filter]). clearbody m0.
  assert (keyed_map (fold_left insert_entry es m0)) as H1.
  { clear -H0. revert m0 H0. induction es as [|e es IH]; intros m0 H0; cbn [fold_left]; [done|]. apply IH.
    unfold insert_entry. destruct (keyColumns (e_key e)) as [[a c] b] eqn:E. apply keyed_insert; [done|by rewrite E]. }
  unfold keyed. cbn [sessions set_sessions]. generalize dependent (fold_left insert_entry es m0).
  generalize (saved_stamps scan x) as l. clear. intros l. induction l as [|[k [[p q] s]] l IH]; intros m H; cbn [fold_left]; [done|].
  apply IH. by apply keyed_alter.
Qed.

(** Every row of the index carries the agent, chat and root columns of its
    own key, through every history of upserts, turn receipts, touches, status
    changes, deletions, prunings and rebuilds. *)
Theorem rows_keyed (scan : forall A, list A -> list A) (missing : gostr -> bool) (dir : gostr)
    (es : list SessionIndexEntry) (os : list session_op) (x : Index) :
  keyed x ->
  keyed (apply_ops os x) /\ keyed (PruneOrphans scan missing x).2 /\ keyed (RebuildIndex scan dir es x).2.
Proof.
  intros H. split_and!; [| |by apply keyed_rebuild].
  - revert x H. induction os as [|o os IH]; intros x H; cbn; [done|]. apply IH. by apply keyed_op.
  - unfold PruneOrphans. cbn [snd]. generalize (orphans scan missing x). intros ks.
    revert x H. induction ks as [|k ks IH]; intros x H; cbn [fold_left]; [done|].
    apply IH. by apply map_Forall_delete.
Qed.

(** ** The reflection schedule *)

(** What a session's reflection depends on: its last substantive activity, its
    last reflection and its type. *)
Record schedule := MkSchedule { s_activity : Z; s_reflection : Z; s_type : gostr }.

(** A new session starts in balance; activity only moves forward, except by
    [UpdateActivity]; receipts of turns that are no activity leave it. *)
Definition schedule_step (k : gostr) (o : session_op) (s : option schedule) : option schedule :=
  match o with
  | OUpsert e =>
      if bool_decide (e_key e = k) then
        let t := stamp (activity_of e) in
        Some match s with
             | None => MkSchedule t t (e_type e)
             | Some s => MkSchedule (Z.max (s_activity s) t) (s_reflection s) (e_type e)
             end
      else s
  | OReceipt e ba _ =>
      if bool_decide (e_key e = k) then
        let t := stamp (e_created e) in
        Some match s with
             | None => MkSchedule t t (e_type e)
             | Some s => MkSchedule (if ba then Z.max (s_activity s) t else s_activity s) (s_reflection s) (s_type s)
             end
      else s
  | OActivity k' t =>
      if bool_decide (k' = k) then s ← s; Some (MkSchedule (stamp t) (s_reflection s) (s_type s)) else s
  | OReflect k' t =>
      if bool_decide (k' = k) then s ← s; Some (MkSchedule (s_activity s) (stamp t) (s_type s)) else s
  | OPurge k' => if bool_decide (k' = k) then None else s
  | _ => s
  end.

Definition schedule_of (k : gostr) (os : list session_op) : option schedule :=
  fold_left (fun s o => schedule_step k o s) os None.

(** The row implements the schedule. *)
Definition implements (r : option row) (s : option schedule) : Prop :=
  match r, s with
  | None, None => True
  | Some r, Some s =>
      last_activity_at r = Some (s_activity s) /\ last_reflection r = Some (s_reflection s) /\ session_type r = s_type s
  | _, _ => False
  end.

Lemma implements_insert (m : gmap gostr row) k k' r s s' :
  implements (m !! k) s -> (k' = k -> implements (Some r) s') -> (k' <> k -> s' = s) ->
  implements (<[k' := r]> m !! k) s'.
Proof.
  intros H H1 H2. destruct (decide (k' = k)) as [->|Hne]; [rewrite lookup_insert_eq; auto|].
  rewrite lookup_insert_ne, H2; done.
Qed.

Lemma implements_alter (m : gmap gostr row) k k' f s s' :
  implements (m !! k) s -> (k' = k -> implements (f <$> m !! k) s') -> (k' <> k -> s' = s) ->
  implements (alter f k' m !! k) s'.
Proof.
  intros H H1 H2. destruct (decide (k' = k)) as [->|Hne]; [rewrite lookup_alter_eq; auto|].
  rewrite lookup_alter_ne, H2; done.
Qed.

Lemma implements_step k o x s :
  implements (sessions x !! k) s -> implements (sessions (apply_op o x) !! k) (schedule_step k o s).
Proof.
  intros H. destruct o as [e|e ba bu|k' t|k' t|k'|k' t|k' t|k' st|k']; cbn [apply_op schedule_step].
  - unfold Upsert. destruct (keyColumns (e_key e)) as [[a c] b]. cbn [sessions set_sessions].
    apply (implements_insert _ _ _ _ s); [done| |intros; by rewrite bool_decide_false].
    intros ->. rewrite bool_decide_true by done. destruct (sessions x !! k) as [r|], s as [s|]; try done.
    destruct H as (Ha & Hr & Ht). cbn. rewrite Ha, Hr. cbn [newer].
    split_and!; [|done|done]. destruct (Z.ltb_spec (s_activity s) (stamp (activity_of e))); f_equal; lia.
  - unfold RecordTurnReceipt. destruct (keyColumns (e_key e)) as [[a c] b]. cbn [sessions set_sessions].
    apply (implements_insert _ _ _ _ s); [done| |intros; by rewrite bool_decide_false].
    intros ->. rewrite bool_decide_true by done. destruct (sessions x !! k) as [r|], s as [s|]; try done.
    destruct H as (Ha & Hr & Ht). cbn. rewrite Ha, Hr. cbn [newer].
    split_and!; [|done|done]. destruct ba; cbn [andb]; [|done].
    destruct (Z.ltb_spec (s_activity s) (stamp (e_created e))); f_equal; lia.
  - apply (implements_alter _ _ _ _ s); [done| |intros; by rewrite bool_decide_false].
    intros ->. rewrite bool_decide_true by done. destruct (sessions x !! k), s; try done. by destruct H as (? & ? & ?).
  - apply (implements_alter _ _ _ _ s); [done| |done]. intros ->. by destruct (sessions x !! k), s.
  - apply (implements_alter _ _ _ _ s); [done| |done]. intros ->. by destruct (sessions x !! k), s.
  - apply (implements_alter _ _ _ _ s); [done| |done]. intros ->. by destruct (sessions x !! k), s.
  - apply (implements_alter _ _ _ _ s); [done| |intros; by rewrite bool_decide_false].
    intros ->. rewrite bool_decide_true by done. destruct (sessions x !! k), s; try done. by destruct H as (? & ? & ?).
  - apply (implements_alter _ _ _ _ s); [done| |done]. intros ->. by destruct (sessions x !! k), s.
  - cbn. case_bool_decide as Hk; [subst; by rewrite lookup_delete_eq|by rewrite lookup_delete_ne].
Qed.

Lemma implements_ops k os x s :
  implements (sessions x !! k) s ->
  implements (sessions (apply_ops os x) !! k) (fold_left (fun s o => schedule_step k o s) os s).
Proof.
  revert x s. induction os as [|o os IH]; intros x s H; cbn [apply_ops fold_left]; [done|].
  apply IH. by apply implements_step.
Qed.

(** C28: Reflection follows the abstract schedule: after any history of session
    writes, a session is due exactly when its type is reflectable and its
    substantive activity is later, in whole seconds, than its last reflection,
    both starting equal when the row is born; a pass is redundant exactly when
    that activity is not later; and the agent's work list holds exactly its
    active sessions that are due. *)
Theorem reflection_schedule (scan : forall A, list A -> list A) (os : list session_op) (k : gostr) :
  (forall A (l : list A), scan A l ≡ₚ l) ->
  let x := apply_ops os empty_index in
  SessionNeedsReflection k x
    = match schedule_of k os with
      | None => false
      | Some s => IsReflectable (s_type s) && (s_reflection s <? s_activity s)
      end
  /\ ReflectionRedundant k x
    = match schedule_of k os with None => false | Some s => s_activity s <=? s_reflection s end
  /\ forall agentID, k ∈ SessionsNeedingReflection scan agentID x
       <-> SessionNeedsReflection k x = true
           /\ exists r, sessions x !! k = Some r /\ agent_id r = agentID /\ status r = SessionStatusActive.
Proof.
  intros Hscan. cbv zeta. set (x := apply_ops os empty_index).
  pose proof (implements_ops k os empty_index None I) as H. fold x in H. fold (schedule_of k os) in H.
  assert (SessionNeedsReflection k x = match schedule_of k os with
      | None => false | Some s => IsReflectable (s_type s) && (s_reflection s <? s_activity s) end) as Hdue.
  { unfold SessionNeedsReflection. destruct (sessions x !! k) as [r|], (schedule_of k os) as [s|]; try done.
    destruct H as (Ha & Hr & Ht). unfold reflection_due. by rewrite Ha, Hr, Ht. }
  split_and!; [exact Hdue| |].
  - unfold ReflectionRedundant. destruct (sessions x !! k) as [r|], (schedule_of k os) as [s|]; try done.
    destruct H as (Ha & Hr & Ht). by rewrite Ha, Hr.
  - intros agentID. unfold SessionsNeedingReflection, all_rows. rewrite list_elem_of_fmap. split.
    + intros ([k' r] & -> & Hin). rewrite list_elem_of_filter, Hscan in Hin.
      destruct Hin as [(Ha & Ht & Hs & Hd) Hin]. apply elem_of_map_to_list in Hin. cbn [fst snd] in *.
      split; [|by exists r]. unfold SessionNeedsReflection. by rewrite Hin, Ht, Hd.
    + intros [Hn (r & Hr & Ha & Hs)]. exists (k, r). split; [done|].
      rewrite list_elem_of_filter, Hscan. split; [|by apply elem_of_map_to_list]. cbn [fst snd].
      unfold SessionNeedsReflection in Hn. rewrite Hr in Hn. apply andb_true_iff in Hn as [Ht Hd]. done.
Qed.

(** ** Rebuilding keeps what the files cannot tell *)

Lemma restore_lookup (l : list (gostr * (option Z * option Z * option Z))) : forall (m : gmap gostr row) k,
  NoDup l.*1 ->
  fold_left (fun m kp => alter (restore_stamps kp.2) kp.1 m) l m !! k
  = match list_find (fun kp => kp.1 = k) l with
    | Some (_, kp) => restore_stamps kp.2 <$> m !! k
    | None => m !! k
    end.
Proof.
  induction l as [|[k' p] l IH]; intros m k Hn; cbn [fold_left fmap list_fmap list_find]; [done|].
  apply NoDup_cons in Hn as [Hni Hn]. rewrite IH by done. cbn [fst snd].
  destruct (decide (k' = k)) as [->|Hne].
  - assert (list_find (fun kp : gostr * (option Z * option Z * option Z) => kp.1 = k) l = None) as ->.
    { apply list_find_None, Forall_forall. intros kp Hin Hk. apply Hni. apply list_elem_of_fmap. by exists kp. }
    cbn. by rewrite lookup_alter_eq.
  - rewrite lookup_alter_ne by done. by destruct (list_find _ l) as [[? ?]|].
Qed.

Lemma insert_entries_lookup es : forall (m : gmap gostr row) k,
  ((k ∉ (e_key <$> es)) -> fold_left insert_entry es m !! k = m !! k)
  /\ (k ∈ (e_key <$> es) -> exists r, fold_left insert_entry es m !! k = Some r /\ stamps r = (None, None, None)).
Proof.
  induction es as [|e es IH]; intros m k; cbn [fold_left fmap list_fmap].
  { split; [done|]. by intros ?%elem_of_nil. }
  destruct (IH (insert_entry m e) k) as [H1 H2].
  assert (forall k', k' <> e_key e -> insert_entry m e !! k' = m !! k') as Hne.
  { intros k' Hk. unfold insert_entry. destruct (keyColumns (e_key e)) as [[a c] b]. by rewrite lookup_insert_ne. }
  split.
  - intros [Hk Hk']%not_elem_of_cons. rewrite H1 by done. by apply Hne.
  - intros [->|Hk]%elem_of_cons; [|by apply H2].
    destruct (decide (e_key e ∈ (e_key <$> es))) as [Hin|Hnin]; [by apply H2|]. rewrite H1 by done.
    unfold insert_entry. destruct (keyColumns (e_key e)) as [[a c] b]. rewrite lookup_insert_eq. by eexists.
Qed.

Lemma saved_nodup scan x : (forall A (l : list A), scan A l ≡ₚ l) -> NoDup (saved_stamps scan x).*1.
Proof.
  intros Hscan. unfold saved_stamps, all_rows. rewrite <- list_fmap_compose. unfold compose. cbn [fst].
  assert (NoDup (map_to_list (sessions x)).*1) as Hn by apply NoDup_fst_map_to_list.
  rewrite Hscan. revert Hn. generalize (map_to_list (sessions x)). intros l. induction l as [|kr l IH]; cbn [fmap list_fmap]; intros H.
  { by rewrite filter_nil. }
  apply NoDup_cons in H as [Hni H]. rewrite filter_cons. case_decide; [|by apply IH]. cbn [fmap list_fmap].
  apply NoDup_cons. split; [|by apply IH]. intros Hin. apply Hni.
  apply list_elem_of_fmap in Hin as (kr' & -> & Hin). apply list_elem_of_filter in Hin as [_ Hin].
  apply list_elem_of_fmap. by exists kr'.
Qed.

Lemma saved_elem scan x k p : (forall A (l : list A), scan A l ≡ₚ l) ->
  (k, p) ∈ saved_stamps scan x <-> exists r, sessions x !! k = Some r /\ stamps r = p /\ p <> (None, None, None).
Proof.
  intros Hscan. unfold saved_stamps, all_rows. rewrite list_elem_of_fmap. split.
  - intros ([k' r] & [= -> ->] & Hin). rewrite list_elem_of_filter, Hscan in Hin. destruct Hin as [Hp Hin].
    apply elem_of_map_to_list in Hin. by exists r.
  - intros (r & Hr & <- & Hp). exists (k, r). split; [done|]. rewrite list_elem_of_filter, Hscan.
    split; [done|by apply elem_of_map_to_list].
Qed.

Lemma restore_own r : restore_stamps (stamps r) r = r.
Proof. destruct r as [? ? ? [|] [|] [|] ? ? ? ? ? ?]; done. Qed.

Lemma stamps_restore p r : stamps r = (None, None, None) -> stamps (restore_stamps p r) = p.
Proof. destruct p as [[[|] [|]] [|]], r; cbn; intros [= -> -> ->]; done. Qed.

(** A rebuild loses no timestamp it cannot reconstruct: over any scan of the
    store, every session that is indexed before and after keeps its reflection,
    user-activity and cache stamps; a row of a backend, outside the store, that
    the scan does not list is untouched; and the sessions that disappear are
    exactly the ones whose file was under the store and is no longer found. *)
Theorem rebuild_keeps (scan : forall A, list A -> list A) (dir : gostr) (es : list SessionIndexEntry) (x : Index)
    (k : gostr) (r : row) :
  (forall A (l : list A), scan A l ≡ₚ l) -> sessions x !! k = Some r ->
  let x' := (RebuildIndex scan dir es x).2 in
  (forall r', sessions x' !! k = Some r' -> stamps r' = stamps r)
  /\ ((k ∉ (e_key <$> es)) -> (dir = "" \/ under_store dir (file_path r) = false) -> sessions x' !! k = Some r)
  /\ (sessions x' !! k = None <-> (k ∉ (e_key <$> es)) /\ dir <> "" /\ under_store dir (file_path r) = true).
Proof.
  intros Hscan Hr. cbv zeta. unfold RebuildIndex. cbn [snd sessions set_sessions].
  rewrite (restore_lookup _ _ k (saved_nodup scan x Hscan)).
  set (m0 := if bool_decide _ then _ else _). set (m1 := fold_left insert_entry es m0).
  assert (match list_find (fun kp => kp.1 = k) (saved_stamps scan x) with
          | Some (_, kp) => restore_stamps kp.2 <$> m1 !! k
          | None => m1 !! k
          end = restore_stamps (stamps r) <$> m1 !! k) as ->.
  { destruct (list_find _ (saved_stamps scan x)) as [[i [k' p]]|] eqn:E.
    - apply list_find_Some in E as (Hi & Hk & _). cbn [fst] in Hk. subst k'.
      apply list_elem_of_lookup_2 in Hi. apply saved_elem in Hi as (r' & Hr' & <- & _); [|done]. by simplify_eq.
    - apply list_find_None in E. destruct (decide (stamps r = (None, None, None))) as [->|Hne].
      + destruct (m1 !! k) as [[? ? ? [|] [|] [|] ? ? ? ? ? ?]|]; done.
      + rewrite Forall_forall in E. exfalso. eapply (E (k, stamps r)); [|done].
        apply saved_elem; [done|]. by exists r. }
  destruct (insert_entries_lookup es m0 k) as [H1 H2]. fold m1 in H1, H2.
  assert (m0 !! k = if bool_decide (dir = "") || negb (under_store dir (file_path r)) then Some r else None) as H0.
  { unfold m0. destruct (decide (dir = "")); [by rewrite !bool_decide_true|]. rewrite !bool_decide_false by done.
    cbn [orb]. destruct (under_store dir (file_path r)) eqn:Eu; cbn [negb].
    - apply map_lookup_filter_None. right. intros r' Hr' Hf. cbn in Hf. simplify_eq. by rewrite Eu in Hf.
    - by apply map_lookup_filter_Some. }
  destruct (decide (k ∈ (e_key <$> es))) as [Hin|Hnin].
  - destruct (H2 Hin) as (r1 & -> & Hs). cbn [fmap option_fmap option_map]. split_and!.
    + intros r' [= <-]. by apply (stamps_restore (stamps r)).
    + done.
    + split; [done|]. by intros [? _].
  - rewrite H1, H0 by done. destruct (decide (dir = "")) as [Hd|Hd]; [rewrite bool_decide_true by done|rewrite bool_decide_false by done];
      cbn [orb]; [|destruct (under_store dir (file_path r)) eqn:Eu; cbn [negb]]; cbn [fmap option_fmap option_map];
      rewrite ?restore_own.
    + split_and!; [by intros r' [= <-]|done|split; [done|by intros (_ & ? & _)]].
    + split_and!; [done|by intros _ [?|?]|split; done].
    + split_and!; [by intros r' [= <-]|done|split; [done|by intros (_ & _ & ?)]].
Qed.

(** ** Sweeping *)

Lemma unswept_elem scan k x t rid : (forall A (l : list A), scan A l ≡ₚ l) ->
  (t, rid) ∈ unswept scan k x <-> resumes x !! (k, t, rid) = Some None.
Proof.
  intros Hscan. unfold unswept, all_rows. rewrite list_elem_of_omap. split.
  - intros ([[[k' t'] rid'] v] & Hin & H). rewrite Hscan in Hin. apply elem_of_map_to_list in Hin. cbn in H.
    do 2 case_bool_decide; cbn in H; simplify_eq. done.
  - intros H. exists ((k, t, rid), None). rewrite Hscan. split; [by apply elem_of_map_to_list|].
    cbn. by rewrite !bool_decide_true.
Qed.

Lemma insert_newest_perm o l : insert_newest o l ≡ₚ o :: l.
Proof.
  induction l as [|p l IH]; cbn; [done|]. destruct (_ <? _); [done|]. rewrite IH. apply Permutation_swap.
Qed.

Lemma newest_first_perm l : newest_first l ≡ₚ l.
Proof.
  unfold newest_first. transitivity (rev l); [|symmetry; apply Permutation_rev]. induction (rev l) as [|o l' IH]; cbn [foldr]; [done|].
  by rewrite insert_newest_perm, IH.
Qed.

Lemma marked_lookup k rid now x k' t' rid' :
  resumes (MarkResumeSwept k rid now x) !! (k', t', rid')
  = (v ← resumes x !! (k', t', rid');
     Some (if bool_decide (k' = k) && bool_decide (rid' = rid) && bool_decide (v = None) then Some (stamp now) else v)).
Proof. unfold MarkResumeSwept. cbn [resumes set_resumes]. by rewrite map_lookup_imap. Qed.

(** Marking keeps every observation, and what was swept stays swept. *)
Lemma marked_all k now rids : forall x t rid,
  resumes (fold_left (fun x r => MarkResumeSwept k r now x) rids x) !! (k, t, rid) = Some None
  <-> resumes x !! (k, t, rid) = Some None /\ rid ∉ rids.
Proof.
  induction rids as [|r rids IH]; intros x t rid; cbn [fold_left].
  { split; [intros; split; [done|apply not_elem_of_nil]|by intros [? _]]. }
  rewrite IH, marked_lookup, not_elem_of_cons.
  rewrite (bool_decide_true (k = k)) by done. cbn [andb].
  destruct (resumes x !! (k, t, rid)) as [v|]; cbn [mbind option_bind]; [|split; by intros [? _]].
  split; [intros [H Hn]|intros [H [Hn1 Hn2]]]; destruct v; repeat case_bool_decide; cbn in *; simplify_eq; done.
Qed.

(** The nightly sweep settles: once every backend session that
    [UnsweptResumes] lists has been marked, the session has nothing unswept and
    is no longer among the candidates of the cleanup, at any cutoff; the
    observations themselves are all kept; and a backend session observed later
    makes it a candidate again. *)
Theorem sweep_settles (scan : forall A, list A -> list A) (k agentID : gostr) (now cutoff : Time) (x : Index) :
  (forall A (l : list A), scan A l ≡ₚ l) ->
  let x' := fold_left (fun x rid => MarkResumeSwept k rid now x) (UnsweptResumes scan k x) x in
  UnsweptResumes scan k x' = []
  /\ (k ∉ EphemeralSessionsOlderThan scan agentID cutoff x')
  /\ dom (resumes x') = dom (resumes x)
  /\ forall rid now', k <> "" -> rid <> "" -> resumes x' !! (k, stamp now', rid) = None ->
       (newest_first (observations scan k x')).*2 !! 0%nat <> Some rid ->
       rid ∈ UnsweptResumes scan k (RecordBackendResume scan k rid now' x').
Proof.
  intros Hscan. cbv zeta. set (ids := UnsweptResumes scan k x).
  set (x' := fold_left (fun x rid => MarkResumeSwept k rid now x) ids x).
  assert (unswept scan k x' = []) as Hnil.
  { destruct (unswept scan k x') as [|[t rid] l] eqn:E; [done|]. exfalso.
    assert ((t, rid) ∈ unswept scan k x') as Hin by (rewrite E; constructor).
    apply unswept_elem in Hin; [|done]. unfold x' in Hin. apply marked_all in Hin as [Hin Hni]. apply Hni.
    unfold ids, UnsweptResumes. rewrite newest_first_perm. apply (list_elem_of_fmap_2 snd) with (x := (t, rid)).
    by apply unswept_elem. }
  split_and!.
  - unfold UnsweptResumes. by rewrite Hnil.
  - unfold EphemeralSessionsOlderThan. intros ([k' r] & Hk & Hin)%list_elem_of_fmap. cbn in Hk. subst k'.
    apply list_elem_of_filter in Hin as [HP _]. cbn [fst snd] in HP. destruct HP as (_ & _ & _ & Hne).
    by rewrite Hnil in Hne.
  - unfold x'. clear Hnil x'. generalize ids. clear. intros ids. revert x.
    induction ids as [|rid ids IH]; intros x; cbn [fold_left]; [done|]. rewrite IH. apply set_eq. intros [[k' t'] rid'].
    rewrite !elem_of_dom, marked_lookup. by destruct (resumes x !! (k', t', rid')).
  - intros rid now' Hk Hrid Hfresh Hlast. unfold RecordBackendResume.
    rewrite !bool_decide_false by done. cbn [orb]. rewrite Hfresh.
    unfold UnsweptResumes. rewrite newest_first_perm. apply (list_elem_of_fmap_2 snd) with (x := (stamp now', rid)).
    apply unswept_elem; [done|]. cbn. by rewrite lookup_insert_eq.
Qed.

(** ** The theorems at work *)
Definition scan_all (A : Type) (l : list A) : list A := l.
Lemma scan_all_perm A (l : list A) : scan_all A l ≡ₚ l.
Proof. done. Qed.

Definition ex_entry : SessionIndexEntry :=
  MkEntry "main/c1" "/s/main.jsonl" (5 * Second) (9 * Second) "" SessionTypeChat SessionStatusActive.
Definition ex_row : row :=
  MkRow "/s/main.jsonl" 5 (Some 9) (Some 9) None None "" SessionTypeChat SessionStatusActive "main" 1 true.
Definition ex_ops : list session_op := [OUpsert ex_entry; OActivity "main/c1" (12 * Second)].

Lemma rows_keyed_witness :
  keyed (apply_ops ex_ops empty_index) /\ keyed (PruneOrphans scan_all (fun _ => true) empty_index).2
  /\ keyed (RebuildIndex scan_all "/s" [ex_entry] empty_index).2.
Proof. apply (rows_keyed scan_all (fun _ => true) "/s" [ex_entry] ex_ops empty_index). by apply map_Forall_empty. Defined.

Lemma reflection_schedule_witness :
  let x := apply_ops ex_ops empty_index in
  SessionNeedsReflection "main/c1" x
    = match schedule_of "main/c1" ex_ops with
      | None => false
      | Some s => IsReflectable (s_type s) && (s_reflection s <? s_activity s)
      end
  /\ ReflectionRedundant "main/c1" x
    = match schedule_of "main/c1" ex_ops with None => false | Some s => s_activity s <=? s_reflection s end
  /\ forall agentID, "main/c1" ∈ SessionsNeedingReflection scan_all agentID x
       <-> SessionNeedsReflection "main/c1" x = true
           /\ exists r, sessions x !! ("main/c1" : gostr) = Some r /\ agent_id r = agentID /\ status r = SessionStatusActive.
Proof. apply (reflection_schedule scan_all ex_ops "main/c1"), scan_all_perm. Defined.

Definition ex_index : Index := Upsert ex_entry empty_index.

Lemma rebuild_keeps_witness :
  let x' := (RebuildIndex scan_all "/s" [] ex_index).2 in
  (forall r', sessions x' !! ("main/c1" : gostr) = Some r' -> stamps r' = stamps ex_row)
  /\ ((("main/c1" : gostr) ∉ (e_key <$> [])) -> ("/s" = [] \/ under_store "/s" (file_path ex_row) = false) ->
        sessions x' !! ("main/c1" : gostr) = Some ex_row)
  /\ (sessions x' !! ("main/c1" : gostr) = None
      <-> (("main/c1" : gostr) ∉ (e_key <$> [])) /\ "/s" <> [] /\ under_store "/s" (file_path ex_row) = true).
Proof. apply (rebuild_keeps scan_all "/s" [] ex_index "main/c1" ex_row); [apply scan_all_perm|by vm_compute]. Defined.

Definition ex_resumed : Index := RecordBackendResume scan_all "main/c1" "r1" (7 * Second) ex_index.

Lemma sweep_settles_witness :
  let x' := fold_left (fun x rid => MarkResumeSwept "main/c1" rid (9 * Second) x)
              (UnsweptResumes scan_all "main/c1" ex_resumed) ex_resumed in
  UnsweptResumes scan_all "main/c1" x' = []
  /\ (("main/c1" : gostr) ∉ EphemeralSessionsOlderThan scan_all "main" (20 * Second) x')
  /\ dom (resumes x') = dom (resumes ex_resumed)
  /\ forall rid now', ("main/c1" : gostr) <> "" -> rid <> "" ->
       resumes x' !! (("main/c1" : gostr), stamp now', rid) = None ->
       (newest_first (observations scan_all "main/c1" x')).*2 !! 0%nat <> Some rid ->
       rid ∈ UnsweptResumes scan_all "main/c1" (RecordBackendResume scan_all "main/c1" rid now' x').
Proof. apply (sweep_settles scan_all "main/c1" "main" (9 * Second) (20 * Second) ex_resumed), scan_all_perm. Defined.
