(* ===== verification/ChatIndex.v ===== *)
(** * Chats in the session index ([internal/session/index.go])

    The metadata of an agent's chats: aliases, which must name one chat each,
    the pinned default of a platform, archived and never-default chats, and the
    ladder that picks an agent's default session.  [unicode_lower] is
    [strings.ToLower] beyond ASCII; the SQL functions [lower] and [trim] are
    SQLite's, which know ASCII letters and the space only. *)
From S2P Require Import Prelude GoStrings GoNum SessionKey SessionIndex.
From stdpp Require Import fin_maps sorting.
Local Open Scope Z_scope.
Local Open Scope gostr_scope.

Section Chats.
Context (scan : forall A : Type, list A -> list A) (unicode_lower : gostr -> gostr).

(** ** Aliases *)
Definition aliasNorm (s : gostr) : gostr := ToLower unicode_lower (trim_space s).

(** [lower(trim(value))] in SQL. *)
Definition sql_norm (s : gostr) : gostr := lower_byte <$> trim " " s.

(** The chats of an agent on a platform whose stored alias is [norm] to SQL,
    other than [except]: [(chat_id, value)] in visit order. *)
Definition alias_rows (agentID platform norm : gostr) (x : Index) : list (Z * gostr) :=
  omap (fun kv : chat_key * gostr =>
          let '((a, p, c, k), v) := kv in
          if bool_decide (a = agentID) && bool_decide (p = platform) && bool_decide (k = "alias")
             && bool_decide (sql_norm v = norm)
          then Some (c, v) else None) (all_rows scan (chats x)).

Inductive alias_result := AliasKey (key : gostr) | AliasNotFound | AliasAmbiguous.

(** The keys in the order they are first seen. *)
Fixpoint distinct (seen : gset gostr) (keys : list gostr) : list gostr :=
  match keys with
  | [] => []
  | k :: keys => if decide (k ∈ seen) then distinct seen keys else k :: distinct ({[ k ]} ∪ seen) keys
  end.

Definition chat_session_key (agentID platform : gostr) (x : Index) (chatID : Z) : gostr :=
  let override := default "" (chats x !! (agentID, platform, chatID, "session_key")) in
  if bool_decide (override = "") then NewChatSessionKey agentID chatID else override.

Definition ResolveChatAlias (agentID alias : gostr) (x : Index) : alias_result :=
  let norm := aliasNorm alias in
  if bool_decide (norm = "") then AliasNotFound
  else
    match distinct ∅ (chat_session_key agentID "app" x <$> (alias_rows agentID "app" norm x).*1) with
    | [] => AliasNotFound
    | [key] => AliasKey key
    | _ => AliasAmbiguous
    end.

(** [None] is [ErrAliasTaken]. *)
Definition SetChatAliasUnique (agentID platform : gostr) (chatID : Z) (alias : gostr) (x : Index) : option Index :=
  let trimmed := trim_space alias in
  if bool_decide (trimmed = "") then Some (SetChatMetadata agentID platform chatID "alias" "" x)
  else if bool_decide (Exists (fun cv => cv.1 <> chatID) (alias_rows agentID platform (aliasNorm trimmed) x))
  then None
  else Some (SetChatMetadata agentID platform chatID "alias" trimmed x).

Definition chatsHoldingAliasLocked (agentID platform norm : gostr) (except : Z) (x : Index) : gmap Z gostr :=
  list_to_map ((fun cv => (cv.1, trim_space cv.2))
                 <$> filter (fun cv => cv.1 <> except) (alias_rows agentID platform norm x)).

Definition ChatsHoldingAlias (agentID platform alias : gostr) (except : Z) (x : Index) : gmap Z gostr :=
  let norm := aliasNorm alias in
  if bool_decide (norm = "") then ∅ else chatsHoldingAliasLocked agentID platform norm except x.

(** The normalised aliases held, blank ones left out by the query. *)
Definition aliasesLocked (agentID platform : gostr) (x : Index) : gset gostr :=
  list_to_set (omap (fun kv : chat_key * gostr =>
    let '((a, p, c, k), v) := kv in
    if bool_decide (a = agentID) && bool_decide (p = platform) && bool_decide (k = "alias")
       && negb (bool_decide (trim " " v = ""))
    then Some (aliasNorm v) else None) (all_rows scan (chats x))).

Definition free (claimed : gostr) (taken : gset gostr) (s : gostr) : bool :=
  negb (bool_decide (aliasNorm s ∈ taken)) && negb (bool_decide (aliasNorm s = aliasNorm claimed)).

Definition numbered (base : gostr) (n : Z) : gostr := base ++ " (" ++ FormatInt n ++ ")".

Fixpoint unique_loop (fuel : nat) (base claimed : gostr) (taken : gset gostr) (n : Z) : option gostr :=
  match fuel with
  | O => None
  | S fuel =>
      let s := numbered base n in
      if free claimed taken s then Some s else unique_loop fuel base claimed taken (n + 1)
  end.

(** The numbers tried are pairwise distinct aliases, so as many as are taken,
    and two more, are enough. *)
Definition uniqueAlias (base claimed : gostr) (taken : gset gostr) : option gostr :=
  if free claimed taken base then Some base else unique_loop (size taken + 2) base claimed taken 2.

Inductive claim_result := Claimed (renamed : gmap Z gostr) | Taken | Stuck.

(** The loop over the holders, in the order the map is visited. *)
Fixpoint claim_loop (displaced : gmap Z gostr) (trimmed : gostr) (hs : list Z) (taken : gset gostr)
    (renamed : gmap Z gostr) : claim_result :=
  match hs with
  | [] => Claimed renamed
  | h :: hs =>
      match displaced !! h with
      | None => Taken
      | Some base =>
          if bool_decide (trim_space base = "") then Taken
          else match uniqueAlias (trim_space base) trimmed taken with
               | None => Stuck
               | Some name => claim_loop displaced trimmed hs ({[ aliasNorm name ]} ∪ taken) (<[h := name]> renamed)
               end
      end
  end.

Definition write_alias (agentID platform : gostr) (x : Index) (hn : Z * gostr) : Index :=
  SetChatMetadata agentID platform hn.1 "alias" hn.2 x.

(** A failed claim writes nothing. *)
Definition ClaimChatAlias (agentID platform : gostr) (chatID : Z) (alias : gostr) (displaced : gmap Z gostr)
    (x : Index) : claim_result * Index :=
  let trimmed := trim_space alias in
  if bool_decide (trimmed = "") then (Claimed ∅, SetChatMetadata agentID platform chatID "alias" "" x)
  else
    let holders := chatsHoldingAliasLocked agentID platform (aliasNorm trimmed) chatID x in
    let taken := aliasesLocked agentID platform x ∖ {[ aliasNorm trimmed ]} in
    match claim_loop displaced trimmed (scan _ (map_to_list holders).*1) taken ∅ with
    | Claimed renamed =>
        (Claimed renamed,
         SetChatMetadata agentID platform chatID "alias" trimmed
           (fold_left (write_alias agentID platform) (scan _ (map_to_list renamed)) x))
    | r => (r, x)
    end.

(** ** Default and archived chats *)
Definition ChatMetaNeverDefault : gostr := "never_default".

(** The chats of rows [(agent, platform, chat, key)] whose value passes. *)
Definition chats_with (key : gostr) (ok : gostr -> bool) (x : Index) : list (gostr * gostr * Z) :=
  omap (fun kv : chat_key * gostr =>
          let '((a, p, c, k), v) := kv in
          if bool_decide (k = key) && ok v then Some (a, p, c) else None) (all_rows scan (chats x)).

Definition is_true (v : gostr) : bool := bool_decide (v = "true").

Definition never_default (agentID : gostr) (chatID : Z) (x : Index) : bool :=
  existsb (fun apc => bool_decide (apc.1.1 = agentID) && bool_decide (apc.2 = chatID))
    (chats_with ChatMetaNeverDefault is_true x).

Definition archived_on (agentID platform : gostr) (chatID : Z) (x : Index) : bool :=
  is_true (default "" (chats x !! (agentID, platform, chatID, "is_archived"))).

Definition archived_anywhere (agentID : gostr) (chatID : Z) (x : Index) : bool :=
  existsb (fun apc => bool_decide (apc.1.1 = agentID) && bool_decide (apc.2 = chatID))
    (chats_with "is_archived" is_true x).

Definition clear_default (agentID platform : gostr) (x : Index) : Index :=
  set_chats (filter (fun kv => let '(a, p, c, k) := kv.1 in ~ (a = agentID /\ p = platform /\ k = "is_default"))
               (chats x)) x.

(** [None] is the refusal of a never-default chat. *)
Definition SetDefaultChat (agentID platform : gostr) (chatID : Z) (x : Index) : option Index :=
  if never_default agentID chatID x then None
  else Some (SetChatMetadata agentID platform chatID "is_default" "true" (clear_default agentID platform x)).

Definition ClearDefaultChat : gostr -> gostr -> Index -> Index := clear_default.

Definition DefaultChatForAgent (agentID platform : gostr) (x : Index) : Z :=
  match filter (fun apc => apc.1.1 = agentID /\ apc.1.2 = platform /\ archived_on agentID platform apc.2 x = false)
          (chats_with "is_default" is_true x) with
  | apc :: _ => apc.2
  | [] => 0
  end.

Definition SetArchivedChat (agentID platform : gostr) (chatID : Z) (archived : bool) (x : Index) : Index :=
  if negb archived then DeleteChatMetadata agentID platform chatID "is_archived" x
  else SetChatMetadata agentID platform chatID "is_archived" "true" x.

Definition ArchivedChatsForAgent (agentID platform : gostr) (x : Index) : gset Z :=
  list_to_set (filter (fun apc => apc.1.1 = agentID /\ apc.1.2 = platform) (chats_with "is_archived" is_true x)).*2.

Definition DefaultChatIDs (agentID : gostr) (x : Index) : gset Z :=
  list_to_set (filter (fun apc => apc.1.1 = agentID) (chats_with "is_default" is_true x)).*2.

Definition PlatformForChat (agentID : gostr) (chatID : Z) (x : Index) : gostr :=
  match omap (fun kv : chat_key * gostr =>
          let '((a, p, c, k), v) := kv in
          if bool_decide (a = agentID) && bool_decide (c = chatID) && negb (bool_decide (p = "")) then Some p else None)
          (all_rows scan (chats x)) with
  | p :: _ => p
  | [] => ""
  end.

Definition CurrentSessionKeys (x : Index) : gset gostr :=
  list_to_set (omap (fun kv : chat_key * gostr =>
    let '((a, p, c, k), v) := kv in
    if negb (bool_decide (a = "")) && negb (c =? 0) then Some (NewChatSessionKey a c) else None)
    (all_rows scan (chats x))).

(** [(agent, conversation)] of the persisted conversation rows of a platform. *)
Definition ConvRefs (platform : gostr) (x : Index) : list (gostr * gostr) :=
  omap (fun kv : chat_key * gostr =>
    let '((a, p, c, k), v) := kv in
    if bool_decide (p = platform) && bool_decide (k = "conv_id") && negb (bool_decide (a = "")) && negb (bool_decide (v = ""))
    then Some (a, v) else None) (all_rows scan (chats x)).

(** ** The default session

    [ORDER BY ... DESC NULLS LAST LIMIT 1]: the first row no later row beats. *)
Definition rank_lt (a b : option Z) : bool :=
  match a, b with
  | None, Some _ => true
  | Some a, Some b => a <? b
  | _, None => false
  end.

Fixpoint best {A R} (lt : R -> R -> bool) (l : list (A * R)) : option (A * R) :=
  match l with
  | [] => None
  | p :: l => match best lt l with
              | Some q => if lt p.2 q.2 then Some q else Some p
              | None => Some p
              end
  end.

(** [LEFT JOIN session_index si ON ... AND si.is_root = 1]. *)
Definition root_activities (agentID : gostr) (chatID : Z) (x : Index) : list (option Z) :=
  match omap (fun kr : gostr * row =>
          if bool_decide (agent_id kr.2 = agentID) && (chat_id kr.2 =? chatID) && is_root kr.2
          then Some (last_user_activity_at kr.2) else None) (all_rows scan (sessions x)) with
  | [] => [None]
  | l => l
  end.

Definition most_active (agentID : gostr) (cs : list Z) (x : Index) : option Z :=
  fst <$> best rank_lt (c ← cs; (fun t => (c, t)) <$> root_activities agentID c x).

Definition eligible (agentID : gostr) (x : Index) (apc : gostr * gostr * Z) : bool :=
  bool_decide (apc.1.1 = agentID) && negb (archived_on agentID apc.1.2 apc.2 x) && negb (never_default agentID apc.2 x).

(** The rungs of [DefaultSessionKeyForAgentOn]. *)
Definition preferred_default (agentID platform : gostr) (x : Index) : option Z :=
  head (filter (fun apc => apc.1.2 = platform /\ eligible agentID x apc = true) (chats_with "is_default" is_true x)).*2.

Definition has_conv (agentID platform : gostr) (chatID : Z) (x : Index) : bool :=
  bool_decide (is_Some (chats x !! (agentID, platform, chatID, "conv_id"))).

Definition preferred_active (agentID platform : gostr) (x : Index) : option Z :=
  most_active agentID
    (filter (fun apc => apc.1.2 = platform /\ apc.2 <> 0
               /\ (platform = "app" -> has_conv agentID platform apc.2 x = true)
               /\ eligible agentID x apc = true) (chats_with "registered" is_true x)).*2 x.

Definition any_default (agentID : gostr) (x : Index) : option Z :=
  most_active agentID (filter (fun apc => eligible agentID x apc = true) (chats_with "is_default" is_true x)).*2 x.

Definition root_lt (a b : option Z * Z) : bool :=
  rank_lt a.1 b.1 || (negb (rank_lt b.1 a.1) && (a.2 <? b.2)).

Definition root_eligible (agentID : gostr) (x : Index) (r : row) : bool :=
  bool_decide (agent_id r = agentID) && is_root r && bool_decide (status r = SessionStatusActive)
  && negb (archived_anywhere agentID (chat_id r) x) && negb (never_default agentID (chat_id r) x).

Definition active_root (agentID : gostr) (x : Index) : option gostr :=
  fst <$> best root_lt
    ((fun kr : gostr * row => (kr.1, (last_user_activity_at kr.2, created_at kr.2)))
       <$> filter (fun kr => root_eligible agentID x kr.2 = true) (all_rows scan (sessions x))).

(** A rung's chat counts unless it is 0. *)
Definition chat_or (agentID : gostr) (c : option Z) (next : gostr) : gostr :=
  match c with
  | Some c => if c =? 0 then next else NewChatSessionKey agentID c
  | None => next
  end.

Definition DefaultSessionKeyForAgentOn (agentID preferredPlatform : gostr) (x : Index) : gostr :=
  let rest := chat_or agentID (any_default agentID x) (default "" (active_root agentID x)) in
  if bool_decide (preferredPlatform = "") then rest
  else chat_or agentID (preferred_default agentID preferredPlatform x)
         (chat_or agentID (preferred_active agentID preferredPlatform x) rest).

Definition DefaultSessionKeyForAgent (agentID : gostr) : Index -> gostr := DefaultSessionKeyForAgentOn agentID "".

Definition ResolveLooseKey (key : gostr) (x : Index) : gostr :=
  if contains "/" key then "" else DefaultSessionKeyForAgent key x.
End Chats.

(** ** What the alias queries see *)
Section AliasFacts.
Context (scan : forall A : Type, list A -> list A) (unicode_lower : gostr -> gostr).
(** SQLite visits each row once, in some order. *)
Hypothesis scan_perm : forall A (l : list A), scan A l ≡ₚ l.

Abbreviation norm := (aliasNorm unicode_lower).
Abbreviation rows := (alias_rows scan).

Lemma elem_of_all_rows {K V} `{Countable K} (m : gmap K V) k v : (k, v) ∈ all_rows scan m <-> m !! k = Some v.
Proof. unfold all_rows. rewrite scan_perm. apply elem_of_map_to_list. Qed.

Lemma alias_rows_elem a p n x c v :
  (c, v) ∈ rows a p n x <-> chats x !! (a, p, c, "alias") = Some v /\ sql_norm v = n.
Proof.
  unfold alias_rows. rewrite list_elem_of_omap. split.
  - intros ([[[[a' p'] c'] k'] v'] & Hin & H). apply elem_of_all_rows in Hin.
    destruct (_ && _) eqn:E; [|done]. simplify_eq. split_and_hyps.
    repeat match goal with H : bool_decide _ = true |- _ => apply bool_decide_eq_true in H end. by subst.
  - intros [H <-]. exists ((a, p, c, "alias"), v). split; [by apply elem_of_all_rows|].
    by rewrite !bool_decide_true.
Qed.

Lemma norm_ascii s : ascii_text s = true -> norm s = sql_norm (trim_space s).
Proof.
  intros H. unfold aliasNorm, ToLower, sql_norm. rewrite ascii_text_trim by done. by rewrite trim_spaces_trimmed.
Qed.

Lemma norm_trimmed s : norm (trim_space s) = norm s.
Proof. unfold aliasNorm. by rewrite trim_space_idem. Qed.

Lemma distinct_seen k l seen : k ∈ seen -> Forall (eq k) l -> distinct seen l = [].
Proof.
  intros Hk. induction 1 as [|k' l <- Hl IH]; cbn [distinct]; [done|]. by rewrite decide_True.
Qed.

Lemma distinct_const k l : l <> [] -> Forall (eq k) l -> distinct ∅ l = [k].
Proof.
  intros Hne H. destruct H as [|k' l <- Hl]; [done|]. cbn [distinct]. rewrite decide_False by set_solver.
  f_equal. apply (distinct_seen k); [set_solver|done].
Qed.

(** A chat that alone has the alias is what it resolves to. *)
Lemma resolve_only a c v s x :
  chats x !! (a, "app", c, "alias") = Some v -> sql_norm v = norm s -> norm s <> "" ->
  (forall c' v', chats x !! (a, "app", c', "alias") = Some v' -> sql_norm v' = norm s -> c' = c) ->
  ResolveChatAlias scan unicode_lower a s x = AliasKey (chat_session_key a "app" x c).
Proof.
  intros Hc Hv Hne Hu. unfold ResolveChatAlias. rewrite bool_decide_false by done.
  rewrite (distinct_const (chat_session_key a "app" x c)); [done| |].
  - intros E. assert (c ∈ (rows a "app" (norm s) x).*1) as Hin.
    { apply list_elem_of_fmap. exists (c, v). split; [done|]. by apply alias_rows_elem. }
    apply fmap_nil_inv in E. by rewrite E in Hin; apply elem_of_nil in Hin.
  - apply Forall_forall. intros k (c' & -> & Hin)%list_elem_of_fmap.
    apply list_elem_of_fmap in Hin as ([c'' v'] & -> & Hin). apply alias_rows_elem in Hin as [H1 H2].
    cbn [fst]. by rewrite (Hu _ _ H1 H2).
Qed.

Lemma chat_session_key_alias a p c c' v x :
  chat_session_key a p (SetChatMetadata a p c' "alias" v x) c = chat_session_key a p x c.
Proof. unfold chat_session_key. cbn [chats SetChatMetadata set_chats]. by rewrite lookup_insert_ne. Qed.

Lemma alias_set (agentID alias : gostr) (chatID : Z) (x : Index) :
  ascii_text alias = true -> trim_space alias <> "" ->
  match SetChatAliasUnique scan unicode_lower agentID "app" chatID alias x with
  | None => exists c v, c <> chatID /\ chats x !! (agentID, "app", c, "alias") = Some v /\ sql_norm v = norm alias
  | Some x' =>
      (forall c v, chats x !! (agentID, "app", c, "alias") = Some v -> sql_norm v = norm alias -> c = chatID)
      /\ forall s, norm s = norm alias ->
           ResolveChatAlias scan unicode_lower agentID s x' = AliasKey (chat_session_key agentID "app" x chatID)
  end.
Proof.
  intros Ha Hne. unfold SetChatAliasUnique. rewrite (bool_decide_false (trim_space alias = "")) by done.
  rewrite norm_trimmed. case_bool_decide as He.
  - apply Exists_exists in He as ([c v] & Hin & Hc). apply alias_rows_elem in Hin as [H1 H2]. by exists c, v.
  - assert (forall c v, chats x !! (agentID, "app", c, "alias") = Some v -> sql_norm v = norm alias -> c = chatID) as Hu.
    { intros c v H1 H2. destruct (decide (c = chatID)) as [|Hc]; [done|]. exfalso. apply He, Exists_exists.
      exists (c, v). split; [by apply alias_rows_elem|done]. }
    split; [done|]. intros s Hs. rewrite <- (chat_session_key_alias agentID "app" chatID chatID (trim_space alias) x).
    apply resolve_only with (v := trim_space alias); cbn [chats SetChatMetadata set_chats].
    + by rewrite lookup_insert_eq.
    + by rewrite Hs, norm_ascii.
    + rewrite Hs, norm_ascii by done. unfold sql_norm. rewrite trim_spaces_trimmed.
      by destruct (trim_space alias).
    + intros c' v' H1 H2. destruct (decide (c' = chatID)) as [|Hc]; [done|].
      rewrite lookup_insert_ne in H1 by congruence. apply (Hu c' v'); [done|by rewrite H2].
Qed.

(** An alias that was accepted addresses its chat: whatever else the index
    holds, setting a non-blank ASCII alias is refused exactly when another chat
    of the agent on the platform already has it, and once set on the app every
    spelling of it, in any case and with any blanks around, resolves to that
    chat's session (or to the session the chat was pointed at) and is not
    ambiguous. *)
Theorem alias_addresses_chat (agentID alias : gostr) (chatID : Z) (x : Index) :
  ascii_text alias = true -> trim_space alias <> "" ->
  match SetChatAliasUnique scan unicode_lower agentID "app" chatID alias x with
  | None => exists c v, c <> chatID /\ chats x !! (agentID, "app", c, "alias") = Some v /\ sql_norm v = norm alias
  | Some x' =>
      (forall c v, chats x !! (agentID, "app", c, "alias") = Some v -> sql_norm v = norm alias -> c = chatID)
      /\ forall s, norm s = norm alias ->
           ResolveChatAlias scan unicode_lower agentID s x' = AliasKey (chat_session_key agentID "app" x chatID)
  end.
Proof. apply alias_set. Qed.

(** ** Numbered aliases always run out of collisions *)

(** [strings.ToLower] maps text rune by rune, so ASCII text appended to any text
    is mapped on its own. *)
Hypothesis lower_app : forall s t, ascii_text t = true ->
  ToLower unicode_lower (s ++ t) = ToLower unicode_lower s ++ (lower_byte <$> t).

Definition settled (c : ascii) : Prop := lower_byte c = c /\ (N_of_ascii c <? 128)%N = true.

Lemma settled_text s : Forall settled s -> (lower_byte <$> s) = s /\ ascii_text s = true.
Proof.
  induction 1 as [|c s [Hc Ha] Hs [IH1 IH2]]; [done|]. split; [cbn; by rewrite Hc, IH1|].
  unfold ascii_text in *. cbn [forallb]. by rewrite Ha, IH2.
Qed.

Lemma FormatInt_settled n : Forall settled (FormatInt n).
Proof.
  assert (forall d, 0 <= d < 10 -> settled (digit d)) as Hd.
  { intros d H. assert (d = 0 \/ d = 1 \/ d = 2 \/ d = 3 \/ d = 4 \/ d = 5 \/ d = 6 \/ d = 7 \/ d = 8 \/ d = 9) as Hx by lia.
    repeat (destruct Hx as [-> |Hx]; [by vm_compute|]). by subst. }
  unfold FormatInt. destruct (n <? 0).
  - constructor; [by vm_compute|]. apply format_digits_all; [exact Hd|constructor].
  - apply format_digits_all; [exact Hd|constructor].
Qed.

Lemma numbered_suffix n : Forall settled (" (" ++ FormatInt n ++ ")").
Proof.
  do 2 (constructor; [by vm_compute|]). apply Forall_app. split; [apply FormatInt_settled|].
  constructor; [by vm_compute|constructor].
Qed.

Lemma norm_numbered base n : trim_space base = base -> base <> "" ->
  norm (numbered base n) = ToLower unicode_lower base ++ " (" ++ FormatInt n ++ ")".
Proof.
  clear scan scan_perm.
  intros Hb Hne. unfold aliasNorm, numbered. rewrite trim_space_label by done.
  destruct (settled_text _ (numbered_suffix n)) as [H1 H2]. rewrite lower_app by done. by rewrite H1.
Qed.

Lemma norm_numbered_inj base n m : trim_space base = base -> base <> "" -> int64 n -> int64 m ->
  norm (numbered base n) = norm (numbered base m) -> n = m.
Proof.
  clear scan scan_perm.
  intros Hb Hne Hn Hm. rewrite !norm_numbered by done. intros H.
  apply app_inv_head in H. injection H as H. apply app_inv_tail in H.
  apply (f_equal ParseInt) in H. rewrite !ParseInt_FormatInt in H by done. by simplify_eq.
Qed.

Lemma free_false claimed taken s :
  free unicode_lower claimed taken s = false -> norm s ∈ ({[ norm claimed ]} ∪ taken : gset gostr).
Proof.
  clear scan scan_perm lower_app.
  unfold free. intros [H|H]%andb_false_iff; apply negb_false_iff, bool_decide_eq_true in H; set_solver.
Qed.

Lemma free_true claimed taken s :
  free unicode_lower claimed taken s = true <-> (norm s ∉ taken) /\ norm s <> norm claimed.
Proof.
  clear scan scan_perm lower_app. unfold free. rewrite andb_true_iff, !negb_true_iff, !bool_decide_eq_false. done. Qed.

Lemma unique_loop_spec fuel base claimed taken : forall n,
  match unique_loop unicode_lower fuel base claimed taken n with
  | Some s => free unicode_lower claimed taken s = true /\ exists m, n <= m /\ s = numbered base m
  | None => Forall (fun k => free unicode_lower claimed taken (numbered base (n + Z.of_nat k)) = false) (seq 0 fuel)
  end.
Proof.
  clear scan scan_perm lower_app.
  induction fuel as [|fuel IH]; intros n; cbn [unique_loop seq]; [constructor|].
  destruct (free unicode_lower claimed taken (numbered base n)) eqn:E; [split; [done|exists n; split; [lia|done]]|].
  specialize (IH (n + 1)). destruct (unique_loop _ fuel base claimed taken (n + 1)) as [s|].
  - destruct IH as [H (m & Hm & ->)]. split; [done|]. exists m. split; [lia|done].
  - constructor; [by rewrite Z.add_0_r|]. rewrite <- fmap_S_seq, Forall_fmap. eapply Forall_impl; [exact IH|].
    intros k Hk. cbn. by replace (n + Z.of_nat (S k)) with (n + 1 + Z.of_nat k) by lia.
Qed.

Lemma unique_alias_total (base claimed : gostr) (taken : gset gostr) :
  trim_space base = base -> base <> "" -> Z.of_nat (size taken) < 2 ^ 62 ->
  exists s, uniqueAlias unicode_lower base claimed taken = Some s
    /\ (norm s ∉ taken) /\ norm s <> norm claimed
    /\ (s = base \/ exists n, 2 <= n /\ s = numbered base n).
Proof.
  clear scan scan_perm.
  intros Hb Hne Hsize. unfold uniqueAlias.
  destruct (free unicode_lower claimed taken base) eqn:E.
  { apply free_true in E as [E1 E2]. exists base. by split_and!; [..|left]. }
  pose proof (unique_loop_spec (size taken + 2) base claimed taken 2) as H.
  destruct (unique_loop unicode_lower (size taken + 2) base claimed taken 2) as [s|].
  { destruct H as [[H1 H2]%free_true (m & Hm & ->)]. eexists. split_and!; [done|done|done|right]. by exists m. }
  exfalso. set (names := (fun k => norm (numbered base (2 + Z.of_nat k))) <$> seq 0 (size taken + 2)).
  assert (NoDup names) as Hnd.
  { apply NoDup_fmap_2_strong; [|apply NoDup_seq]. intros i j Hi Hj Hij. apply elem_of_seq in Hi, Hj.
    apply norm_numbered_inj in Hij; [lia|done|done|unfold int64, min_int64, max_int64; lia..]. }
  assert (list_to_set names ⊆ ({[ norm claimed ]} ∪ taken : gset gostr)) as Hsub.
  { intros n. rewrite elem_of_list_to_set. unfold names. intros (k & -> & Hk)%list_elem_of_fmap.
    rewrite Forall_forall in H. by apply free_false, H. }
  apply subseteq_size in Hsub. rewrite size_list_to_set in Hsub by done.
  assert (size ({[ norm claimed ]} ∪ taken : gset gostr) <= 1 + size taken)%nat as Hs2.
  { apply size_insert_le. }
  unfold names in Hsub. rewrite length_fmap, length_seq in Hsub. lia.
Qed.

(** Renaming a displaced chat always ends: among the base name and as many
    numbered names as aliases are taken, plus two, one is free, so the loop
    that tries "name (2)", "name (3)" and so on returns; what it returns is
    taken by nobody, is not the claimed alias, and is the base or a numbered
    form of it. *)
Theorem unique_alias_returns (base claimed : gostr) (taken : gset gostr) :
  trim_space base = base -> base <> "" -> Z.of_nat (size taken) < 2 ^ 62 ->
  exists s, uniqueAlias unicode_lower base claimed taken = Some s
    /\ (norm s ∉ taken) /\ norm s <> norm claimed
    /\ (s = base \/ exists n, 2 <= n /\ s = numbered base n).
Proof. apply unique_alias_total. Qed.

(** ** Claiming an alias *)

(** The aliases an agent's chats hold on a platform are sound: SQL and the code
    normalise each one alike, and no two chats hold the same non-blank one. *)
Record sound (a p : gostr) (x : Index) : Prop := Sound {
  sound_agree : forall c v, chats x !! (a, p, c, "alias") = Some v -> sql_norm v = norm v;
  sound_unique : forall c1 c2 v1 v2, chats x !! (a, p, c1, "alias") = Some v1 ->
    chats x !! (a, p, c2, "alias") = Some v2 -> norm v1 = norm v2 -> norm v1 <> "" -> c1 = c2;
}.

Lemma ascii_agree s : ascii_text s = true -> sql_norm (trim_space s) = norm (trim_space s).
Proof. intros H. by rewrite norm_trimmed, norm_ascii. Qed.

Lemma ascii_numbered base n : ascii_text base = true -> ascii_text (numbered base n) = true.
Proof.
  intros H. unfold numbered. rewrite ascii_text_app, H. by destruct (settled_text _ (numbered_suffix n)) as [_ ->].
Qed.

Lemma aliasesLocked_elem a p x c v :
  chats x !! (a, p, c, "alias") = Some v -> sql_norm v <> "" -> norm v ∈ aliasesLocked scan unicode_lower a p x.
Proof.
  intros H Hne. unfold aliasesLocked. rewrite elem_of_list_to_set, list_elem_of_omap.
  exists ((a, p, c, "alias"), v). split; [by apply elem_of_all_rows|].
  rewrite !bool_decide_true by done. rewrite bool_decide_false; [done|].
  intros E. apply Hne. unfold sql_norm. by rewrite E.
Qed.

Lemma holders_lookup a p n except x c v :
  chatsHoldingAliasLocked scan a p n except x !! c = Some v
  <-> exists w, c <> except /\ chats x !! (a, p, c, "alias") = Some w /\ sql_norm w = n /\ v = trim_space w.
Proof.
  unfold chatsHoldingAliasLocked. set (l := filter _ _).
  assert (forall c v, (c, v) ∈ l <-> c <> except /\ chats x !! (a, p, c, "alias") = Some v /\ sql_norm v = n) as Hl.
  { intros c' v'. unfold l. rewrite list_elem_of_filter, alias_rows_elem. done. }
  set (f := fun cv : Z * gostr => (cv.1, trim_space cv.2)). split.
  - intros H%elem_of_list_to_map_2. apply list_elem_of_fmap in H as ([c' w] & E & H). unfold f in E. simplify_eq.
    apply Hl in H as (H1 & H2 & H3). by exists w.
  - intros (w & H1 & H2 & H3 & ->). apply elem_of_list_to_map_1'.
    + intros v' Hin. apply list_elem_of_fmap in Hin as ([c' w'] & E & Hin). unfold f in E. simplify_eq.
      apply Hl in Hin as (_ & Hw & _). cbn in Hw, H2. rewrite Hw in H2. by injection H2 as ->.
    + apply list_elem_of_fmap. exists (c, w). split; [done|]. by apply Hl.
Qed.

(** What a run of the renaming loop returns. *)
Lemma claim_loop_spec displaced claimed hs : forall taken ren,
  NoDup hs -> Z.of_nat (size taken) + Z.of_nat (length hs) < 2 ^ 62 ->
  match claim_loop unicode_lower displaced claimed hs taken ren with
  | Stuck => False
  | Taken => exists h, h ∈ hs /\ trim_space (default "" (displaced !! h)) = ""
  | Claimed res =>
      (forall h, h ∉ hs -> res !! h = ren !! h)
      /\ (forall h, h ∈ hs -> exists n, res !! h = Some n /\ (norm n ∉ taken) /\ norm n <> norm claimed
            /\ exists b, displaced !! h = Some b /\ trim_space b <> ""
                 /\ (n = trim_space b \/ exists m, 2 <= m /\ n = numbered (trim_space b) m))
      /\ (forall h1 h2 n1 n2, h1 ∈ hs -> h2 ∈ hs -> h1 <> h2 -> res !! h1 = Some n1 -> res !! h2 = Some n2 ->
            norm n1 <> norm n2)
  end.
Proof.
  induction hs as [|h hs IH]; intros taken ren Hnd Hsz; cbn [claim_loop].
  { split_and!; [done|by intros h ?%elem_of_nil|by intros h1 h2 n1 n2 ?%elem_of_nil]. }
  apply NoDup_cons in Hnd as [Hh Hnd]. cbn [length] in Hsz.
  destruct (displaced !! h) as [b|] eqn:Eb; [|exists h; rewrite Eb; split; [constructor|by vm_compute]].
  case_bool_decide as Ebl; [exists h; rewrite Eb; split; [constructor|done]|].
  destruct (unique_alias_total (trim_space b) claimed taken (trim_space_idem b) Ebl ltac:(lia))
    as (name & -> & Hn1 & Hn2 & Hn3).
  assert (size ({[norm name]} ∪ taken : gset gostr) <= 1 + size taken)%nat as Hs2.
  { apply size_insert_le. }
  set (taken' := {[norm name]} ∪ taken) in *. specialize (IH taken' (<[h := name]> ren) Hnd ltac:(lia)).
  destruct (claim_loop _ _ _ hs _ _) as [res| |]; [|by destruct IH as (h' & Hin & E); exists h'; split; [constructor|]|done].
  destruct IH as (IH1 & IH2 & IH3).
  assert (res !! h = Some name) as Hres by (by rewrite IH1, lookup_insert_eq). split_and!.
  - intros h' [Hne Hni]%not_elem_of_cons. by rewrite IH1, lookup_insert_ne.
  - intros h' [->|Hin]%elem_of_cons; [exists name; split_and!; eauto|].
    destruct (IH2 h' Hin) as (n & H1 & H2 & H3 & H4). exists n. split_and!; [done|set_solver|done|done].
  - intros h1 h2 n1 n2 [->|Hi1]%elem_of_cons [->|Hi2]%elem_of_cons Hne E1 E2; simplify_eq; [| |by eapply (IH3 h1 h2)].
    + destruct (IH2 h2 Hi2) as (n & H1 & H2 & _). simplify_eq. set_solver.
    + destruct (IH2 h1 Hi1) as (n & H1 & H2 & _). simplify_eq. set_solver.
Qed.

Lemma write_aliases_lookup a p l : forall x k,
  NoDup l.*1 ->
  chats (fold_left (write_alias a p) l x) !! k
  = match list_find (fun hn : Z * gostr => k = (a, p, hn.1, "alias")) l with
    | Some (_, hn) => Some hn.2
    | None => chats x !! k
    end.
Proof.
  induction l as [|[h n] l IH]; intros x k Hnd; cbn [fold_left list_find]; [done|].
  cbn [fmap list_fmap fst] in Hnd. apply NoDup_cons in Hnd as [Hh Hnd]. rewrite IH by done. cbn [fst snd].
  destruct (decide (k = (a, p, h, "alias"))) as [->|Hne].
  - assert (list_find (fun hn : Z * gostr => (a, p, h, "alias") = (a, p, hn.1, "alias")) l = None) as ->.
    { apply list_find_None, Forall_forall. intros hn Hin [= E]. apply Hh, list_elem_of_fmap. by exists hn. }
    cbn. by rewrite lookup_insert_eq.
  - destruct (list_find _ l) as [[i hn]|] eqn:E.
    + apply list_find_Some in E as (Hi & -> & _). done.
    + cbn. by rewrite lookup_insert_ne by congruence.
Qed.

Lemma write_map_lookup a p (m : gmap Z gostr) x k :
  chats (fold_left (write_alias a p) (scan _ (map_to_list m)) x) !! k
  = match list_find (fun hn : Z * gostr => k = (a, p, hn.1, "alias")) (scan _ (map_to_list m)) with
    | Some (_, hn) => Some hn.2
    | None => chats x !! k
    end.
Proof. apply write_aliases_lookup. rewrite scan_perm. apply NoDup_fst_map_to_list. Qed.

Lemma written_alias a p (m : gmap Z gostr) x c :
  chats (fold_left (write_alias a p) (scan _ (map_to_list m)) x) !! (a, p, c, "alias")
  = match m !! c with Some n => Some n | None => chats x !! (a, p, c, "alias") end.
Proof.
  rewrite write_map_lookup. destruct (list_find _ _) as [[i hn]|] eqn:E.
  - apply list_find_Some in E as (Hi & [= ->] & _). apply list_elem_of_lookup_2 in Hi. rewrite scan_perm in Hi.
    destruct hn as [h n]. apply elem_of_map_to_list in Hi. cbn. by rewrite Hi.
  - apply list_find_None in E. destruct (m !! c) as [n|] eqn:Em; [|done]. exfalso.
    rewrite Forall_forall in E. apply (E (c, n)); [|done]. rewrite scan_perm. by apply elem_of_map_to_list.
Qed.

Lemma aliases_size a p x : (size (aliasesLocked scan unicode_lower a p x) <= size (chats x))%nat.
Proof.
  unfold aliasesLocked. etrans; [apply size_list_to_set_le|].
  etrans; [apply length_omap_le|]. unfold all_rows. by rewrite scan_perm, length_map_to_list.
Qed.

Lemma holders_size a p n except x :
  (size (chatsHoldingAliasLocked scan a p n except x) <= size (chats x))%nat.
Proof.
  unfold chatsHoldingAliasLocked. rewrite <- size_dom, dom_list_to_map_L. etrans; [apply size_list_to_set_le|].
  rewrite !length_fmap. etrans; [apply length_filter|]. unfold alias_rows. etrans; [apply length_omap_le|].
  unfold all_rows. by rewrite scan_perm, length_map_to_list.
Qed.

(** The chats other than [chatID] that hold the alias. *)
Definition holder (a p alias : gostr) (chatID : Z) (x : Index) (c : Z) : Prop :=
  c <> chatID /\ exists w, chats x !! (a, p, c, "alias") = Some w /\ norm w = norm alias.

Lemma claim_name_agree b n : ascii_text b = true -> trim_space b <> "" ->
  (n = trim_space b \/ exists m, 2 <= m /\ n = numbered (trim_space b) m) -> sql_norm n = norm n.
Proof.
  intros Ha Hne [->|(m & _ & ->)]; [by apply ascii_agree|].
  assert (trim_space (numbered (trim_space b) m) = numbered (trim_space b) m) as E.
  { apply trim_space_label; [apply trim_space_idem|done]. }
  rewrite <- E. apply ascii_agree. by apply ascii_numbered, ascii_text_trim.
Qed.

(** The state a claim that goes through leaves behind. *)
Definition claimed (a p alias : gostr) (chatID : Z) (x x' : Index) (renamed : gmap Z gostr) : Prop :=
  chats x' !! (a, p, chatID, "alias") = Some (trim_space alias)
  /\ (forall c, holder a p alias chatID x c ->
        exists n, renamed !! c = Some n /\ chats x' !! (a, p, c, "alias") = Some n /\ norm n <> norm alias)
  /\ (forall a' p' c k, (a', p', k) <> (a, p, "alias") \/ c <> chatID /\ ~ holder a p alias chatID x c ->
        chats x' !! (a', p', c, k) = chats x !! (a', p', c, k))
  /\ sound a p x'.

Lemma holder_iff a p alias chatID x c : sound a p x ->
  holder a p alias chatID x c <-> is_Some (chatsHoldingAliasLocked scan a p (norm alias) chatID x !! c).
Proof.
  intros Hs. split.
  - intros (Hc & w & Hw & Hn). exists (trim_space w). apply holders_lookup. exists w. split_and!; try done.
    by rewrite (sound_agree _ _ _ Hs _ _ Hw).
  - intros [v (w & Hc & Hw & Hn & ->)%holders_lookup]. split; [done|]. exists w.
    by rewrite <- (sound_agree _ _ _ Hs _ _ Hw).
Qed.

(** The writes of a claim whose names are right leave a sound index. *)
Lemma claim_writes a p alias chatID x (renamed : gmap Z gostr) :
  ascii_text alias = true -> sound a p x ->
  (forall c, is_Some (renamed !! c) <-> holder a p alias chatID x c) ->
  (forall c n, renamed !! c = Some n -> sql_norm n = norm n /\ norm n <> norm alias
     /\ (norm n ∉ aliasesLocked scan unicode_lower a p x ∖ {[ norm alias ]})) ->
  (forall c1 c2 n1 n2, c1 <> c2 -> renamed !! c1 = Some n1 -> renamed !! c2 = Some n2 -> norm n1 <> norm n2) ->
  claimed a p alias chatID x
    (SetChatMetadata a p chatID "alias" (trim_space alias)
       (fold_left (write_alias a p) (scan _ (map_to_list renamed)) x)) renamed.
Proof.
  intros Ha Hs Hdom Hnames Hinj. set (y := fold_left _ _ x).
  assert (forall c, chats y !! (a, p, c, "alias")
            = match renamed !! c with Some n => Some n | None => chats x !! (a, p, c, "alias") end) as Hy
    by (intros c; apply written_alias).
  assert (renamed !! chatID = None) as Hself.
  { apply eq_None_not_Some. by intros [Hc _]%Hdom. }
  assert (forall c, c <> chatID -> chats (SetChatMetadata a p chatID "alias" (trim_space alias) y) !! (a, p, c, "alias")
            = chats y !! (a, p, c, "alias")) as Hother.
  { intros c Hc. cbn [chats SetChatMetadata set_chats]. rewrite lookup_insert_ne; [done|congruence]. }
  split_and!.
  - cbn [chats SetChatMetadata set_chats]. by rewrite lookup_insert_eq.
  - intros c Hc. destruct (proj2 (Hdom c) Hc) as [n Hn]. exists n. destruct (Hnames c n Hn) as (_ & H2 & _).
    split_and!; [done| |done]. rewrite Hother by apply Hc. by rewrite Hy, Hn.
  - intros a' p' c k Hk. cbn [chats SetChatMetadata set_chats].
    rewrite lookup_insert_ne.
    + unfold y. rewrite write_map_lookup. destruct (list_find _ _) as [[i hn]|] eqn:E; [|done].
      apply list_find_Some in E as (Hi & [= -> -> -> ->] & _). apply list_elem_of_lookup_2 in Hi.
      rewrite scan_perm in Hi. destruct hn as [h n]. apply elem_of_map_to_list in Hi. cbn in Hk.
      destruct Hk as [|[_ Hk]]; [done|]. exfalso. apply Hk, Hdom. by exists n.
    + intros [= <- <- <- <-]. by destruct Hk as [|[]].
  - assert (forall c v, chats (SetChatMetadata a p chatID "alias" (trim_space alias) y) !! (a, p, c, "alias") = Some v ->
       (c = chatID /\ v = trim_space alias) \/ (c <> chatID /\ renamed !! c = Some v)
       \/ (c <> chatID /\ renamed !! c = None /\ chats x !! (a, p, c, "alias") = Some v)) as Hcase.
    { intros c v H. destruct (decide (c = chatID)) as [->|Hc].
      - cbn [chats SetChatMetadata set_chats] in H. rewrite lookup_insert_eq in H. left. by injection H as <-.
      - rewrite Hother, Hy in H by done. right. destruct (renamed !! c) as [n|]; [left|right]; by simplify_eq. }
    assert (forall c v, renamed !! c = None -> c <> chatID -> chats x !! (a, p, c, "alias") = Some v ->
              norm v <> norm alias) as Hnon.
    { intros c v Hr Hc Hv Heq. apply eq_None_not_Some in Hr. apply Hr, Hdom. split; [done|]. by exists v. }
    assert (forall c1 c2 v n, renamed !! c1 = Some n -> renamed !! c2 = None -> c2 <> chatID ->
              chats x !! (a, p, c2, "alias") = Some v -> norm v <> "" -> norm n <> norm v) as Hfresh.
    { intros c1 c2 v n H1 H2 Hc Hv Hb Heq. destruct (Hnames c1 n H1) as (_ & _ & Hn). apply Hn. rewrite Heq.
      apply elem_of_difference. split.
      - apply (aliasesLocked_elem a p x c2); [done|]. by rewrite (sound_agree _ _ _ Hs _ _ Hv).
      - intros ?%elem_of_singleton. by eapply Hnon. }
    split.
    + intros c v [[-> ->]|[[_ H]|(_ & _ & H)]]%Hcase; [by apply ascii_agree|by destruct (Hnames _ _ H)|].
      by apply (sound_agree _ _ _ Hs _ _ H).
    + intros c1 c2 v1 v2 [[-> ->]|[[Hc1 H1]|(Hc1 & H1 & G1)]]%Hcase [[-> ->]|[[Hc2 H2]|(Hc2 & H2 & G2)]]%Hcase Heq Hb.
      * done.
      * exfalso. destruct (Hnames _ _ H2) as (_ & H & _). apply H. rewrite <- Heq. apply norm_trimmed.
      * exfalso. apply (Hnon c2 v2 H2 Hc2 G2). rewrite <- Heq. apply norm_trimmed.
      * exfalso. destruct (Hnames _ _ H1) as (_ & H & _). apply H. rewrite Heq. apply norm_trimmed.
      * destruct (decide (c1 = c2)) as [|Hne]; [done|]. by destruct (Hinj _ _ _ _ Hne H1 H2).
      * exfalso. apply (Hfresh c1 c2 v2 v1 H1 H2 Hc2 G2); [by rewrite <- Heq|done].
      * exfalso. apply (Hnon c1 v1 H1 Hc1 G1). rewrite Heq. apply norm_trimmed.
      * exfalso. apply (Hfresh c2 c1 v1 v2 H2 H1 Hc1 G1 Hb). done.
      * by apply (sound_unique _ _ _ Hs _ _ _ _ G1 G2).
Qed.

(** C29: Claiming an alias keeps aliases one to a chat, as long as names are
    ASCII ([accented_alias_lost] shows it fail beyond).  From a sound index,
    whose aliases are ASCII and one to a chat, in a chat table of fewer than
    2^61 rows, a claim of a non-blank ASCII alias, the display names to fall
    back on being ASCII too, always comes to an end.  When it goes through, the chat holds the alias trimmed; every other chat that held it
    has been given a different name, reported to the caller, that nobody holds;
    every other row of the table is as it was; and the index is sound again.
    When it is refused nothing was written, and a holder had no usable display
    name. *)
Theorem claim_alias (a p alias : gostr) (chatID : Z) (displaced : gmap Z gostr) (x : Index) :
  ascii_text alias = true -> trim_space alias <> "" -> sound a p x ->
  map_Forall (fun _ b => ascii_text b = true) displaced -> Z.of_nat (size (chats x)) < 2 ^ 61 ->
  match ClaimChatAlias scan unicode_lower a p chatID alias displaced x with
  | (Claimed renamed, x') => claimed a p alias chatID x x' renamed
  | (Taken, x') => x' = x /\ exists c, holder a p alias chatID x c /\ trim_space (default "" (displaced !! c)) = ""
  | (Stuck, _) => False
  end.
Proof.
  intros Ha Hne Hs Hd Hsz. unfold ClaimChatAlias. rewrite (bool_decide_false (trim_space alias = "")) by done.
  rewrite norm_trimmed. set (hs := scan _ _). set (taken := aliasesLocked _ _ _ _ _ ∖ _).
  assert (forall c, c ∈ hs <-> holder a p alias chatID x c) as Hhs.
  { intros c. unfold hs. rewrite scan_perm, holder_iff by done. rewrite list_elem_of_fmap. split.
    - intros ([c' v] & -> & H%elem_of_map_to_list). by exists v.
    - intros [v H]. exists (c, v). split; [done|]. by apply elem_of_map_to_list. }
  assert (NoDup hs) as Hnd by (unfold hs; rewrite scan_perm; apply NoDup_fst_map_to_list).
  pose proof (claim_loop_spec displaced (trim_space alias) hs taken ∅ Hnd) as H.
  assert (Z.of_nat (size taken) + Z.of_nat (length hs) < 2 ^ 62) as Hb.
  { pose proof (aliases_size a p x). pose proof (holders_size a p (norm alias) chatID x).
    unfold hs. rewrite (Permutation_length (scan_perm _ _)), length_fmap, length_map_to_list.
    pose proof (subseteq_size taken (aliasesLocked scan unicode_lower a p x) ltac:(set_solver)). lia. }
  specialize (H Hb). destruct (claim_loop _ _ _ hs taken ∅) as [renamed| |]; [|by destruct H as (c & H%Hhs & Ht); eauto|done].
  destruct H as (H1 & H2 & H3).
  assert (forall c n, renamed !! c = Some n -> c ∈ hs) as Hin.
  { intros c n Hn. destruct (decide (c ∈ hs)) as [|Hni]; [done|]. by rewrite H1 in Hn. }
  apply claim_writes; try done.
  - intros c. rewrite <- Hhs. split; [by intros [n Hn]; eapply Hin|]. intros Hc. destruct (H2 c Hc) as (n & Hn & _). by exists n.
  - intros c n Hn. destruct (H2 c (Hin c n Hn)) as (n' & Hn' & G1 & G2 & b & Hb' & G4 & G3). simplify_eq.
    rewrite norm_trimmed in G2. split_and!; [|done|done]. by eapply claim_name_agree; [eapply Hd, Hb'|..].
  - intros c1 c2 n1 n2 Hc E1 E2. by apply (H3 c1 c2 n1 n2 (Hin _ _ E1) (Hin _ _ E2)).
Qed.

End AliasFacts.

(** ** The default session *)
Section DefaultFacts.
Context (scan : forall A : Type, list A -> list A).
Hypothesis scan_perm : forall A (l : list A), scan A l ≡ₚ l.

Lemma best_spec {A R} (lt : R -> R -> bool) (l : list (A * R)) :
  (forall r, lt r r = false) -> (forall r s t, lt r s = false -> lt s t = false -> lt r t = false) ->
  (forall r s t, lt r s = true -> lt t s = false -> lt t r = false) ->
  match best lt l with
  | Some q => q ∈ l /\ forall p, p ∈ l -> lt q.2 p.2 = false
  | None => l = []
  end.
Proof.
  intros Hirr Htr Hup. induction l as [|p l IH]; cbn [best]; [done|].
  destruct (best lt l) as [q|]; [|subst l; split; [constructor|by intros p' ->%list_elem_of_singleton]].
  destruct IH as [IH1 IH2]. destruct (lt p.2 q.2) eqn:E.
  - split; [by constructor|]. intros p' [->|Hp]%elem_of_cons; [|by apply IH2].
    eapply (Hup p.2 q.2 q.2); [done|apply Hirr].
  - split; [constructor|]. intros p' [->|Hp]%elem_of_cons; [apply Hirr|]. by eapply Htr, IH2.
Qed.

Lemma rank_irr r : rank_lt r r = false.
Proof. destruct r; cbn; lia. Qed.
Lemma rank_tr r s t : rank_lt r s = false -> rank_lt s t = false -> rank_lt r t = false.
Proof. destruct r, s, t; cbn; try done; lia. Qed.
Lemma rank_up r s t : rank_lt r s = true -> rank_lt t s = false -> rank_lt t r = false.
Proof. destruct r, s, t; cbn; try done; lia. Qed.

(** The activities of the chat's root session rows; a chat without one has none. *)
Definition activity (agentID : gostr) (x : Index) (c : Z) (t : option Z) : Prop := t ∈ root_activities scan agentID c x.

Lemma activity_some agentID x c : exists t, activity agentID x c t.
Proof. unfold activity, root_activities. destruct (omap _ _) as [|t l]; [exists None|exists t]; constructor. Qed.

Lemma most_active_spec agentID cs x :
  match most_active scan agentID cs x with
  | Some c => c ∈ cs /\ exists t, activity agentID x c t
      /\ forall c' t', c' ∈ cs -> activity agentID x c' t' -> rank_lt t t' = false
  | None => cs = []
  end.
Proof.
  unfold most_active. set (l := c ← cs; _).
  assert (forall c t, (c, t) ∈ l <-> c ∈ cs /\ activity agentID x c t) as Hl.
  { intros c t. unfold l, activity. rewrite list_elem_of_bind. split.
    - intros (c' & Ht & Hc). apply list_elem_of_fmap in Ht as (t' & [= -> ->] & Ht). done.
    - intros [Hc Ht]. exists c. split; [|done]. apply list_elem_of_fmap. by exists t. }
  pose proof (best_spec rank_lt l rank_irr rank_tr rank_up) as H. destruct (best rank_lt l) as [[c t]|]; cbn.
  - destruct H as [H1 H2]. apply Hl in H1 as [H1 H3]. split; [done|]. exists t. split; [done|].
    intros c' t' Hc Ht. apply (H2 (c', t')). by apply Hl.
  - destruct cs as [|c cs]; [done|]. exfalso. destruct (activity_some agentID x c) as [t Ht].
    assert ((c, t) ∈ l) as Hin by (apply Hl; split; [constructor|done]). rewrite H in Hin. by apply elem_of_nil in Hin.
Qed.

Lemma chats_with_elem key ok x a p c :
  (a, p, c) ∈ chats_with scan key ok x <-> exists v, chats x !! (a, p, c, key) = Some v /\ ok v = true.
Proof.
  unfold chats_with. rewrite list_elem_of_omap. split.
  - intros ([[[[a' p'] c'] k'] v] & Hin & H). apply elem_of_all_rows in Hin; [|done].
    destruct (_ && _) eqn:E; [|done]. apply andb_true_iff in E as [E1 E2]. apply bool_decide_eq_true in E1.
    simplify_eq. by exists v.
  - intros (v & H1 & H2). exists ((a, p, c, key), v). split; [by apply elem_of_all_rows|].
    by rewrite bool_decide_true, H2.
Qed.

(** A chat carries a flag on a platform. *)
Definition flagged (key agentID platform : gostr) (x : Index) (c : Z) : Prop :=
  chats x !! (agentID, platform, c, key) = Some "true".

Lemma flagged_elem key x a p c : (a, p, c) ∈ chats_with scan key is_true x <-> flagged key a p x c.
Proof.
  rewrite chats_with_elem. unfold flagged, is_true. split.
  - intros (v & H & ->%bool_decide_eq_true). done.
  - intros H. exists "true". by rewrite bool_decide_true.
Qed.

Lemma eligible_true agentID x apc :
  eligible scan agentID x apc = true
  <-> apc.1.1 = agentID /\ archived_on agentID apc.1.2 apc.2 x = false /\ never_default scan agentID apc.2 x = false.
Proof.
  unfold eligible. rewrite !andb_true_iff, bool_decide_eq_true, !negb_true_iff. tauto.
Qed.

(** A chat of the agent that may be its default: on [platform] it is flagged, it
    is not archived there, and the agent has not ruled it out. *)
Definition candidate (key agentID platform : gostr) (x : Index) (c : Z) : Prop :=
  flagged key agentID platform x c /\ archived_on agentID platform c x = false /\ never_default scan agentID c x = false.

(** [DefaultSessionKeyForAgentOn] as its comment puts it. *)
Definition pinned (agentID platform : gostr) (x : Index) (c : Z) : Prop := candidate "is_default" agentID platform x c.

Definition live (agentID platform : gostr) (x : Index) (c : Z) : Prop :=
  candidate "registered" agentID platform x c /\ c <> 0
  /\ (platform = "app" -> has_conv agentID platform c x = true).

Definition pinned_anywhere (agentID : gostr) (x : Index) (c : Z) : Prop := exists p, pinned agentID p x c.

(** The most recently active of some chats; a chat nobody used comes last. *)
Definition latest (agentID : gostr) (x : Index) (S : Z -> Prop) (c : Z) : Prop :=
  S c /\ exists t, activity agentID x c t /\ forall c' t', S c' -> activity agentID x c' t' -> rank_lt t t' = false.

Definition root_session (agentID : gostr) (x : Index) (key : gostr) (r : row) : Prop :=
  sessions x !! key = Some r /\ root_eligible scan agentID x r = true.

Definition stamp (r : row) : option Z * Z := (last_user_activity_at r, created_at r).

Inductive ladder (agentID platform : gostr) (x : Index) : gostr -> Prop :=
  | rung_pinned c : platform <> "" -> pinned agentID platform x c -> ladder agentID platform x (NewChatSessionKey agentID c)
  | rung_live c : platform <> "" -> (forall c', ~ pinned agentID platform x c') ->
      latest agentID x (live agentID platform x) c -> ladder agentID platform x (NewChatSessionKey agentID c)
  | rung_anywhere c :
      (platform <> "" -> forall c', ~ pinned agentID platform x c' /\ ~ live agentID platform x c') ->
      latest agentID x (pinned_anywhere agentID x) c -> ladder agentID platform x (NewChatSessionKey agentID c)
  | rung_root key r :
      (platform <> "" -> forall c', ~ live agentID platform x c') ->
      (forall c', ~ pinned_anywhere agentID x c') -> root_session agentID x key r ->
      (forall key' r', root_session agentID x key' r' -> root_lt (stamp r) (stamp r') = false) ->
      ladder agentID platform x key
  | rung_none :
      (platform <> "" -> forall c', ~ live agentID platform x c') ->
      (forall c', ~ pinned_anywhere agentID x c') -> (forall key r, ~ root_session agentID x key r) ->
      ladder agentID platform x "".

Lemma preferred_default_elem agentID platform x c :
  c ∈ (filter (fun apc => apc.1.2 = platform /\ eligible scan agentID x apc = true)
         (chats_with scan "is_default" is_true x)).*2 <-> pinned agentID platform x c.
Proof.
  rewrite list_elem_of_fmap. unfold pinned, candidate. split.
  - intros ([[a p] c'] & -> & Hin). apply list_elem_of_filter in Hin as [[E Hel] Hin]. apply flagged_elem in Hin.
    apply eligible_true in Hel as (E1 & E2 & E3). cbn in *. by subst.
  - intros (H1 & H2 & H3). exists (agentID, platform, c). split; [done|]. apply list_elem_of_filter.
    split; [split; [done|by apply eligible_true]|by apply flagged_elem].
Qed.

Lemma preferred_default_spec agentID platform x :
  match preferred_default scan agentID platform x with
  | Some c => pinned agentID platform x c
  | None => forall c, ~ pinned agentID platform x c
  end.
Proof.
  unfold preferred_default. pose proof (preferred_default_elem agentID platform x) as H.
  destruct (filter _ _).*2 as [|c l]; cbn; [|apply H; constructor].
  intros c Hc%H. by apply elem_of_nil in Hc.
Qed.

Lemma most_active_latest agentID cs x (S : Z -> Prop) : (forall c, c ∈ cs <-> S c) ->
  match most_active scan agentID cs x with
  | Some c => latest agentID x S c
  | None => forall c, ~ S c
  end.
Proof.
  intros HS. pose proof (most_active_spec agentID cs x) as H. destruct (most_active _ _ _ _) as [c|].
  - destruct H as (H1 & t & H2 & H3). split; [by apply HS|]. exists t. split; [done|].
    intros c' t' Hc%HS. by apply H3.
  - subst cs. intros c Hc%HS. by apply elem_of_nil in Hc.
Qed.

Lemma preferred_active_spec agentID platform x :
  match preferred_active scan agentID platform x with
  | Some c => latest agentID x (live agentID platform x) c
  | None => forall c, ~ live agentID platform x c
  end.
Proof.
  apply most_active_latest. intros c. rewrite list_elem_of_fmap. unfold live, candidate. split.
  - intros ([[a p] c'] & -> & Hin). apply list_elem_of_filter in Hin as [(E & Hz & Hc & Hel) Hin].
    apply flagged_elem in Hin. apply eligible_true in Hel as (E1 & E2 & E3). cbn in *. by subst.
  - intros ((H1 & H2 & H3) & H4 & H5). exists (agentID, platform, c). split; [done|]. apply list_elem_of_filter.
    split; [split_and!; [done|done|done|by apply eligible_true]|by apply flagged_elem].
Qed.

Lemma any_default_spec agentID x :
  match any_default scan agentID x with
  | Some c => latest agentID x (pinned_anywhere agentID x) c
  | None => forall c, ~ pinned_anywhere agentID x c
  end.
Proof.
  apply most_active_latest. intros c. rewrite list_elem_of_fmap. unfold pinned_anywhere, pinned, candidate. split.
  - intros ([[a p] c'] & -> & Hin). apply list_elem_of_filter in Hin as [Hel Hin].
    apply flagged_elem in Hin. apply eligible_true in Hel as (E1 & E2 & E3). cbn in *. subst. by exists p.
  - intros (p & H1 & H2 & H3). exists (agentID, p, c). split; [done|]. apply list_elem_of_filter.
    split; [by apply eligible_true|by apply flagged_elem].
Qed.

Lemma root_irr r : root_lt r r = false.
Proof. unfold root_lt. rewrite rank_irr. cbn. lia. Qed.
Lemma root_tr r s t : root_lt r s = false -> root_lt s t = false -> root_lt r t = false.
Proof. destruct r as [[] ?], s as [[] ?], t as [[] ?]; unfold root_lt; cbn; try done; lia. Qed.
Lemma root_up r s t : root_lt r s = true -> root_lt t s = false -> root_lt t r = false.
Proof. destruct r as [[] ?], s as [[] ?], t as [[] ?]; unfold root_lt; cbn; try done; lia. Qed.

Lemma active_root_spec agentID x :
  match active_root scan agentID x with
  | Some key => exists r, root_session agentID x key r
      /\ forall key' r', root_session agentID x key' r' -> root_lt (stamp r) (stamp r') = false
  | None => forall key r, ~ root_session agentID x key r
  end.
Proof.
  unfold active_root. match goal with |- context [best root_lt ?l0] => set (l := l0) end.
  assert (forall key s, (key, s) ∈ l <-> exists r, root_session agentID x key r /\ s = stamp r) as Hl.
  { intros key s. unfold l, root_session. rewrite list_elem_of_fmap. split.
    - intros ([k r] & [= -> ->] & [H1 H2]%list_elem_of_filter). apply elem_of_all_rows in H2; [|done]. by exists r.
    - intros (r & [H1 H2] & ->). exists (key, r). split; [done|]. apply list_elem_of_filter. split; [done|].
      by apply elem_of_all_rows. }
  pose proof (best_spec root_lt l root_irr root_tr root_up) as H. destruct (best root_lt l) as [[key s]|]; cbn.
  - destruct H as [H1 H2]. apply Hl in H1 as (r & Hr & ->). exists r. split; [done|].
    intros key' r' Hr'. apply (H2 (key', stamp r')). apply Hl. by exists r'.
  - intros key r Hr. assert ((key, stamp r) ∈ l) as Hin by (apply Hl; by exists r).
    rewrite H in Hin. by apply elem_of_nil in Hin.
Qed.

Lemma default_on_ladder (agentID platform : gostr) (x : Index) :
  (forall p, ~ flagged "is_default" agentID p x 0) ->
  ladder agentID platform x (DefaultSessionKeyForAgentOn scan agentID platform x).
Proof.
  intros Hz. unfold DefaultSessionKeyForAgentOn.
  pose proof (any_default_spec agentID x) as H3. pose proof (active_root_spec agentID x) as H4.
  assert ((platform <> "" -> forall c, ~ pinned agentID platform x c /\ ~ live agentID platform x c) ->
    ladder agentID platform x
      (chat_or agentID (any_default scan agentID x) (default "" (active_root scan agentID x)))) as Hrest.
  { intros Hup. destruct (any_default scan agentID x) as [c|]; cbn [chat_or].
    - assert (c <> 0) as Hc by (intros ->; destruct H3 as [[p Hp] _]; by apply (Hz p), Hp).
      destruct (Z.eqb_spec c 0); [done|]. by constructor.
    - assert (platform <> "" -> forall c, ~ live agentID platform x c) as Hlive by (intros Hp c; by apply Hup).
      destruct (active_root scan agentID x) as [key|]; cbn.
      + destruct H4 as (r & Hr & Hmax). by apply (rung_root _ _ _ key r).
      + by apply rung_none. }
  case_bool_decide as Hp; [by apply Hrest|].
  pose proof (preferred_default_spec agentID platform x) as H1. pose proof (preferred_active_spec agentID platform x) as H2.
  destruct (preferred_default scan agentID platform x) as [c|]; cbn [chat_or].
  - assert (c <> 0) as Hc by (intros ->; by apply (Hz platform), H1).
    destruct (Z.eqb_spec c 0); [done|]. by apply rung_pinned.
  - destruct (preferred_active scan agentID platform x) as [c|]; cbn [chat_or].
    + destruct (Z.eqb_spec c 0) as [->|]; [by destruct H2 as [(_ & Hc & _) _]|]. by apply rung_live.
    + apply Hrest. intros _ c. split; [apply H1|apply H2].
Qed.

(** C34: The default session of an agent is the one its documented ladder names,
    when chat 0 is nobody's default.  With a preferred platform: a chat pinned
    there; else the most recently active chat registered there (on the app, one
    backed by a conversation).  Else, and with no preferred platform, the most
    recently active chat pinned anywhere; else the most recently active root
    session; else nothing.  No rung ever yields an archived chat or one the
    agent ruled out as a default, and each is taken only when all the rungs
    above it have no chat to offer. *)
Theorem default_session_ladder (agentID platform : gostr) (x : Index) :
  (forall p, ~ flagged "is_default" agentID p x 0) ->
  ladder agentID platform x (DefaultSessionKeyForAgentOn scan agentID platform x).
Proof. apply default_on_ladder. Qed.

(** ** Pinning a chat *)
Lemma never_default_true agentID c x :
  never_default scan agentID c x = true <-> exists p, flagged ChatMetaNeverDefault agentID p x c.
Proof.
  unfold never_default. rewrite existsb_exists. split.
  - intros ([[a p] c'] & Hin%list_elem_of_In & E). apply andb_true_iff in E as [E1 E2].
    apply bool_decide_eq_true in E1, E2. cbn in *. subst. exists p. by apply flagged_elem.
  - intros [p Hp]. exists (agentID, p, c). split; [by apply list_elem_of_In, flagged_elem|]. by rewrite !bool_decide_true.
Qed.

Definition pin (a p : gostr) (c : Z) (x : Index) : Index := SetChatMetadata a p c "is_default" "true" (clear_default a p x).

Lemma pin_other a p c x a' p' c' k : (a', p', k) <> (a, p, "is_default") ->
  chats (pin a p c x) !! (a', p', c', k) = chats x !! (a', p', c', k).
Proof.
  intros H. unfold pin. cbn [chats SetChatMetadata set_chats clear_default].
  rewrite lookup_insert_ne by congruence. destruct (chats x !! (a', p', c', k)) as [v|] eqn:E.
  - apply map_lookup_filter_Some. split; [done|]. cbn. intros (-> & -> & ->). done.
  - apply map_lookup_filter_None. by left.
Qed.

Lemma pin_default a p c x c' : flagged "is_default" a p (pin a p c x) c' <-> c' = c.
Proof.
  unfold flagged, pin. cbn [chats SetChatMetadata set_chats clear_default]. split.
  - intros H. destruct (decide (c' = c)) as [|Hc]; [done|]. rewrite lookup_insert_ne in H by congruence.
    apply map_lookup_filter_Some in H as [_ H]. by destruct H.
  - intros ->. by rewrite lookup_insert_eq.
Qed.

Lemma pin_archived a p c x a' p' c' : archived_on a' p' c' (pin a p c x) = archived_on a' p' c' x.
Proof. unfold archived_on. by rewrite pin_other by congruence. Qed.

Lemma pin_never a p c x c' : never_default scan a c' (pin a p c x) = never_default scan a c' x.
Proof.
  apply eq_true_iff_eq. rewrite !never_default_true. unfold flagged.
  assert (forall p', chats (pin a p c x) !! (a, p', c', ChatMetaNeverDefault) = chats x !! (a, p', c', ChatMetaNeverDefault)) as H
    by (intros p'; apply pin_other; by intros [=]).
  split; intros [p' Hp]; exists p'; [by rewrite <- H|by rewrite H].
Qed.

(** Pinning a default.  A chat the agent has ruled out on any platform is
    refused.  Otherwise it becomes the one default of the agent on that
    platform, whatever was pinned before, and no other row changes; and while
    it is not archived there it is what the platform's default is read back as
    and the session an unaddressed message on that platform goes to. *)
Theorem set_default_pins (a p : gostr) (c : Z) (x : Index) :
  match SetDefaultChat scan a p c x with
  | None => exists p', flagged ChatMetaNeverDefault a p' x c
  | Some x' =>
      (forall c', flagged "is_default" a p x' c' <-> c' = c)
      /\ (forall a' p' c' k, (a', p', k) <> (a, p, "is_default") -> chats x' !! (a', p', c', k) = chats x !! (a', p', c', k))
      /\ (c <> 0 -> archived_on a p c x = false ->
            DefaultChatForAgent scan a p x' = c
            /\ (p <> "" -> DefaultSessionKeyForAgentOn scan a p x' = NewChatSessionKey a c))
  end.
Proof.
  unfold SetDefaultChat. destruct (never_default scan a c x) eqn:En; [by apply never_default_true|].
  fold (pin a p c x). split_and!; [apply pin_default|apply pin_other|]. intros Hc Har. split.
  - unfold DefaultChatForAgent. set (l := filter _ _).
    assert (forall apc, apc ∈ l <-> apc = (a, p, c)) as Hl.
    { intros [[a' p'] c']. unfold l. rewrite list_elem_of_filter, flagged_elem. cbn [fst snd]. split.
      - intros [(-> & -> & _) ->%pin_default]. done.
      - intros [= -> -> ->]. rewrite pin_archived, pin_default. done. }
    destruct l as [|apc l]; [by destruct (not_elem_of_nil _ (proj2 (Hl _) eq_refl))|].
    by rewrite (proj1 (Hl apc) ltac:(constructor)).
  - intros Hp. unfold DefaultSessionKeyForAgentOn. rewrite bool_decide_false by done.
    assert (forall c', pinned a p (pin a p c x) c' <-> c' = c) as Hpin.
    { intros c'. unfold pinned, candidate. rewrite pin_default, pin_archived, pin_never. split; [by intros (-> & _)|by intros ->]. }
    pose proof (preferred_default_spec a p (pin a p c x)) as H.
    destruct (preferred_default _ _ _ _) as [c'|]; [|by destruct (H c); apply Hpin].
    apply Hpin in H as ->. cbn. by destruct (Z.eqb_spec c 0).
Qed.
End DefaultFacts.

(** ** The theorems at work *)
Definition ascii_lower (s : gostr) : gostr := lower_byte <$> s.

Lemma ascii_lower_app s t : ascii_text t = true ->
  ToLower ascii_lower (s ++ t) = ToLower ascii_lower s ++ (lower_byte <$> t).
Proof.
  intros _. assert (forall u, ToLower ascii_lower u = lower_byte <$> u) as E by (intros u; unfold ToLower; by destruct (ascii_text u)).
  rewrite !E. apply fmap_app.
Qed.

Definition ex_chats : Index :=
  SetChatMetadata "main" "app" 1 "alias" "Work" (SetChatMetadata "main" "app" 2 "alias" "Home" empty_index).

Lemma alias_addresses_chat_witness :
  match SetChatAliasUnique scan_all ascii_lower "main" "app" 3 " Garden " ex_chats with
  | None => exists c v, c <> 3 /\ chats ex_chats !! (("main", "app", c, "alias") : chat_key) = Some v
      /\ sql_norm v = aliasNorm ascii_lower " Garden "
  | Some x' =>
      (forall c v, chats ex_chats !! (("main", "app", c, "alias") : chat_key) = Some v ->
         sql_norm v = aliasNorm ascii_lower " Garden " -> c = 3)
      /\ forall s, aliasNorm ascii_lower s = aliasNorm ascii_lower " Garden " ->
           ResolveChatAlias scan_all ascii_lower "main" s x' = AliasKey (chat_session_key "main" "app" ex_chats 3)
  end.
Proof.
  apply (alias_addresses_chat scan_all ascii_lower scan_all_perm "main" " Garden " 3 ex_chats); by vm_compute.
Defined.

Lemma unique_alias_returns_witness :
  exists s, uniqueAlias ascii_lower "Work" "Home" {[ ("work" : gostr) ]} = Some s
    /\ (aliasNorm ascii_lower s ∉ ({[ ("work" : gostr) ]} : gset gostr)) /\ aliasNorm ascii_lower s <> aliasNorm ascii_lower "Home"
    /\ (s = "Work" \/ exists n, 2 <= n /\ s = numbered "Work" n).
Proof.
  apply (unique_alias_returns ascii_lower ascii_lower_app "Work" "Home" {[ ("work" : gostr) ]}); by vm_compute.
Defined.

Lemma ex_chats_sound : sound ascii_lower "main" "app" ex_chats.
Proof.
  assert (forall c v, chats ex_chats !! (("main", "app", c, "alias") : chat_key) = Some v ->
            (c = 1 /\ v = "Work") \/ (c = 2 /\ v = "Home")) as H.
  { intros c v. unfold ex_chats. cbn [chats SetChatMetadata set_chats empty_index]. rewrite !lookup_insert, lookup_empty.
    repeat case_decide; naive_solver. }
  split.
  - intros c v [[-> ->]|[-> ->]]%H; by vm_compute.
  - intros c1 c2 v1 v2 [[-> ->]|[-> ->]]%H [[-> ->]|[-> ->]]%H E; by vm_compute in E.
Qed.

Lemma claim_alias_witness :
  match ClaimChatAlias scan_all ascii_lower "main" "app" 3 " work " {[ 1 := "Project" ]} ex_chats with
  | (Claimed renamed, x') => claimed ascii_lower "main" "app" " work " 3 ex_chats x' renamed
  | (Taken, x') => x' = ex_chats /\ exists c, holder ascii_lower "main" "app" " work " 3 ex_chats c
      /\ trim_space (default "" (({[ 1 := "Project" ]} : gmap Z gostr) !! c)) = ""
  | (Stuck, _) => False
  end.
Proof.
  apply (claim_alias scan_all ascii_lower scan_all_perm ascii_lower_app "main" "app" " work " 3 {[ 1 := ("Project" : gostr) ]} ex_chats).
  - by vm_compute.
  - by vm_compute.
  - apply ex_chats_sound.
  - by apply map_Forall_singleton.
  - by vm_compute.
Defined.

Definition ex_default : Index := SetChatMetadata "main" "app" 5 "is_default" "true" ex_chats.

Lemma default_session_ladder_witness :
  ladder scan_all "main" "app" ex_default (DefaultSessionKeyForAgentOn scan_all "main" "app" ex_default).
Proof.
  apply (default_session_ladder scan_all scan_all_perm "main" "app" ex_default).
  intros p. unfold flagged, ex_default, ex_chats. cbn [chats SetChatMetadata set_chats empty_index].
  rewrite !lookup_insert, lookup_empty. repeat case_decide; naive_solver.
Defined.

Lemma set_default_pins_witness :
  match SetDefaultChat scan_all "main" "app" 1 ex_default with
  | None => exists p', flagged ChatMetaNeverDefault "main" p' ex_default 1
  | Some x' =>
      (forall c', flagged "is_default" "main" "app" x' c' <-> c' = 1)
      /\ (forall a' p' c' k, (a', p', k) <> ("main", "app", "is_default") ->
            chats x' !! (a', p', c', k) = chats ex_default !! (a', p', c', k))
      /\ (1 <> 0 -> archived_on "main" "app" 1 ex_default = false ->
            DefaultChatForAgent scan_all "main" "app" x' = 1
            /\ ("app" <> [] -> DefaultSessionKeyForAgentOn scan_all "main" "app" x' = NewChatSessionKey "main" 1))
  end.
Proof. apply (set_default_pins scan_all scan_all_perm "main" "app" 1 ex_default). Defined.

(** ** Aliases outside ASCII *)

(** SQLite's [lower] leaves the bytes of an accented letter alone, so such an
    alias is stored by the code and never found again: it does not resolve, and
    a second chat can take it. *)
Theorem accented_alias_lost (lower : gostr -> gostr) :
  lower "École" = "école" ->
  exists x1 x2, SetChatAliasUnique scan_all lower "main" "app" 1 "École" empty_index = Some x1
    /\ ResolveChatAlias scan_all lower "main" "École" x1 = AliasNotFound
    /\ SetChatAliasUnique scan_all lower "main" "app" 2 "École" x1 = Some x2
    /\ chats x2 !! (("main", "app", 1, "alias") : chat_key) = chats x2 !! (("main", "app", 2, "alias") : chat_key).
Proof.
  intros H. assert (trim_space "École" = "École") as Et by (by vm_compute).
  assert (aliasNorm lower "École" = "école") as E by (unfold aliasNorm; by rewrite Et).
  assert (forall x : Index, (forall c v, chats x !! (("main", "app", c, "alias") : chat_key) = Some v -> v = "École") ->
            alias_rows scan_all "main" "app" "école" x = []) as Hnil.
  { intros x Hx. apply elem_of_nil_inv. intros [c v] Hin. apply alias_rows_elem in Hin as [Hv Hn]; [|apply scan_all_perm].
    apply Hx in Hv as ->. by vm_compute in Hn. }
  assert (forall c x, (forall c v, chats x !! (("main", "app", c, "alias") : chat_key) = Some v -> v = "École") ->
            SetChatAliasUnique scan_all lower "main" "app" c "École" x = Some (SetChatMetadata "main" "app" c "alias" "École" x)) as Hset.
  { intros c x Hx. unfold SetChatAliasUnique. rewrite Et, E, Hnil by done. rewrite bool_decide_false by done.
    by rewrite bool_decide_false by (by intros ?%Exists_nil). }
  set (x1 := SetChatMetadata "main" "app" 1 "alias" "École" empty_index).
  assert (forall c v, chats x1 !! (("main", "app", c, "alias") : chat_key) = Some v -> v = "École") as H1.
  { intros c v. unfold x1. cbn [chats SetChatMetadata set_chats empty_index].
    rewrite lookup_insert, lookup_empty. by case_decide; intros [= <-]. }
  exists x1. eexists. split_and!; [apply Hset| |by apply Hset|].
  - intros c v. cbn [chats empty_index]. by rewrite lookup_empty.
  - unfold ResolveChatAlias. rewrite E, Hnil by done. by rewrite bool_decide_false.
  - cbn [chats SetChatMetadata set_chats x1]. rewrite lookup_insert_ne by (intros Hk; by injection Hk). by rewrite !lookup_insert_eq.
Qed.
