(* ===== verification/IndexQuery.v ===== *)
(** * Reading the session index ([internal/session/index.go], [provenance.go],
    [store.go], [chatset.go], [cross_agent_spawn.go])

    The queries over many rows with SQLite's [LIKE], the timelines of archives
    and backend sessions, the classification of sessions by key and branch type,
    and the stored sets of ids. *)
From S2P Require Import Prelude GoStrings GoNum Rules SessionKey SessionIndex.
From stdpp Require Import fin_maps sorting.
Local Open Scope Z_scope.
Local Open Scope gostr_scope.

(** ** [LIKE]

    SQLite's operator: [%] is any text, [_] one character, the escape makes the
    next byte literal, and ASCII letters match in either case.  A pattern that
    ends in the escape matches nothing. *)
Inductive like_token := Any | One | Lit (c : ascii).

Fixpoint like_tokens (esc : option ascii) (p : gostr) : option (list like_token) :=
  match p with
  | [] => Some []
  | c :: p' =>
      if bool_decide (esc = Some c) then
        match p' with
        | [] => None
        | d :: p'' => ts ← like_tokens esc p''; Some (Lit d :: ts)
        end
      else
        ts ← like_tokens esc p';
        Some ((if c =?b "%"%char then Any else if c =?b "_"%char then One else Lit c) :: ts)
  end.

Definition continuation (c : ascii) : bool := byte_in "128"%char "191"%char c.

(** The text after the character that starts with [c]. *)
Fixpoint skip_continuation (s : gostr) : gostr :=
  match s with c :: s' => if continuation c then skip_continuation s' else s | [] => [] end.
Definition skip_char (c : ascii) (s : gostr) : gostr := if byte_le "192"%char c then skip_continuation s else s.

(** The places of a text where a character starts, and its end. *)
Definition at_char (s : gostr) : bool := match s with c :: _ => negb (continuation c) | [] => true end.

Fixpoint like_match (ts : list like_token) (s : gostr) : bool :=
  match ts with
  | [] => bool_decide (s = [])
  | Any :: ts =>
      existsb (fun n => (bool_decide (n = 0%nat) || at_char (drop n s)) && like_match ts (drop n s)) (seq 0 (S (length s)))
  | One :: ts => match s with c :: s => like_match ts (skip_char c s) | [] => false end
  | Lit c :: ts => match s with d :: s => (lower_byte c =?b lower_byte d) && like_match ts s | [] => false end
  end.

Definition like (esc : option ascii) (pattern s : gostr) : bool :=
  match like_tokens esc pattern with Some ts => like_match ts s | None => false end.

(** [strings.NewReplacer] over the three wildcards, left to right. *)
Definition escapeLike (s : gostr) : gostr :=
  c ← s; if mem_byte c "\%_" then ["\"%char; c] else [c].

(** [key = root OR key LIKE escapeLike(root)+'/%' ESCAPE '\']. *)
Definition in_family (root key : gostr) : bool :=
  bool_decide (key = root) || like (Some "\"%char) (escapeLike root ++ "/%") key.

(** ** Queries *)
Record QueryOptions := MkQuery {
  q_agent : gostr; q_type : gostr; q_status : gostr; q_max_age : Duration; q_limit : Z; q_root : gostr;
}.

(** A row read back; a NULL activity fails the scan of the whole query. *)
Record found_entry := MkFound {
  f_key : gostr; f_path : gostr; f_created : Time; f_activity : Time; f_user : Time; f_parent : gostr;
  f_type : gostr; f_status : gostr;
}.

Definition read_row (kr : gostr * row) : option found_entry :=
  let r := kr.2 in
  act ← last_activity_at r;
  Some (MkFound kr.1 (file_path r) (created_at r * Second) (act * Second)
          (match last_user_activity_at r with Some t => t * Second | None => zero_time end)
          (parent_session_key r) (session_type r) (status r)).

Definition selected (o : QueryOptions) (now : Time) (kr : gostr * row) : bool :=
  let r := kr.2 in
  (bool_decide (q_agent o = "") || bool_decide (agent_id r = q_agent o))
  && (bool_decide (q_type o = "") || bool_decide (session_type r = q_type o))
  && (bool_decide (q_status o = "") || bool_decide (status r = q_status o))
  && (bool_decide (q_root o = "") || in_family (q_root o) kr.1)
  && ((q_max_age o <=? 0)
      || match last_activity_at r with Some t => stamp (TimeAdd now (- q_max_age o)) <=? t | None => false end).

(** [ORDER BY created_at DESC]: a stable sort of the visit order. *)
Fixpoint insert_created (kr : gostr * row) (l : list (gostr * row)) : list (gostr * row) :=
  match l with
  | [] => [kr]
  | p :: l' => if created_at p.2 <? created_at kr.2 then kr :: l else p :: insert_created kr l'
  end.
Definition by_created (l : list (gostr * row)) : list (gostr * row) := foldr insert_created [] (rev l).

Section Queries.
Context (scan : forall A : Type, list A -> list A).

Definition Query (o : QueryOptions) (now : Time) (x : Index) : option (list found_entry) :=
  let rows := by_created (filter (fun kr => selected o now kr = true) (all_rows scan (sessions x))) in
  mapM read_row (if 0 <? q_limit o then take (Z.to_nat (q_limit o)) rows else rows).

Definition Get (key : gostr) (x : Index) : option found_entry :=
  r ← sessions x !! key;
  e ← read_row (key, r);
  Some (MkFound (f_key e) (f_path e) (f_created e) (f_activity e) zero_time (f_parent e) (f_type e) (f_status e)).

Definition GetChatMetadataAnyPlatform (agentID : gostr) (chatID : Z) (key : gostr) (x : Index) : gostr :=
  match omap (fun kv : chat_key * gostr =>
          let '((a, p, c, k), v) := kv in
          if bool_decide (a = agentID) && (c =? chatID) && bool_decide (k = key) then Some v else None)
          (all_rows scan (chats x)) with
  | v :: _ => v
  | [] => ""
  end.

Definition AllSessionMetadata (sessionKey : gostr) (x : Index) : gmap gostr gostr :=
  list_to_map (omap (fun kv : gostr * gostr * gostr =>
    if bool_decide (kv.1.1 = sessionKey) then Some (kv.1.2, kv.2) else None) (all_rows scan (session_meta x))).

Definition AgentSessionKeysWithMetadata (agentID : gostr) (x : Index) : gset gostr :=
  list_to_set (filter (fun k => in_family agentID k = true) (all_rows scan (session_meta x)).*1.*1).

Definition AgentMetadataByPrefix (agentID prefix : gostr) (x : Index) : gmap gostr gostr :=
  list_to_map (omap (fun kv : gostr * gostr * gostr =>
    if bool_decide (kv.1.1 = agentID) && like None (prefix ++ "%") kv.1.2 then Some (kv.1.2, kv.2) else None)
    (all_rows scan (agent_meta x))).

(** ** Timelines

    The table of archives is its own map: session, second and file to reason. *)
Definition archives : Type := gmap (gostr * Z * gostr) gostr.

Definition RecordArchive (sessionKey filePath reason : gostr) (now : Time) (ar : archives) : archives :=
  if bool_decide (filePath = "") then ar
  else match ar !! (sessionKey, stamp now, filePath) with
       | Some _ => ar
       | None => <[(sessionKey, stamp now, filePath) := reason]> ar
       end.

(** The first of the rows in the wanted order; [before] compares seconds. *)
Fixpoint first_by (before : Z -> Z -> bool) (l : list (Z * gostr)) : option (Z * gostr) :=
  match l with
  | [] => None
  | p :: l => match first_by before l with
              | Some q => if before q.1 p.1 then Some q else Some p
              | None => Some p
              end
  end.

Definition timelineLookup (found : option (Z * gostr)) : option (gostr * Time) :=
  (fun p => (p.2, p.1 * Second)) <$> found.

Definition ArchiveFileAt (sessionKey : gostr) (at_ : Time) (ar : archives) : option (gostr * Time) :=
  timelineLookup (first_by Z.ltb (omap (fun kv : gostr * Z * gostr * gostr =>
    if bool_decide (kv.1.1.1 = sessionKey) && (stamp at_ <=? kv.1.1.2) then Some (kv.1.1.2, kv.1.2) else None)
    (all_rows scan ar))).

Definition BackendResumeAt (sessionKey : gostr) (at_ : Time) (x : Index) : option (gostr * Time) :=
  timelineLookup (first_by Z.gtb (filter (fun p => p.1 <= stamp at_) (observations scan sessionKey x))).
End Queries.

(** ** Classification *)
Definition SessionTypeUnknown : gostr := "unknown".

Definition ClassifySessionKey (key : gostr) : gostr :=
  match ParseSessionKey key with
  | None => SessionTypeUnknown
  | Some k =>
      if negb (ChildType k =? 0)%N then SessionTypeUnknown
      else if (Type_ k =? rune "c"%char)%N then SessionTypeChat
      else if (Type_ k =? rune "i"%char)%N then SessionTypeIndependent
      else SessionTypeUnknown
  end.

Definition SessionTypeForBranch (branchType : gostr) : gostr :=
  if in_table ["facet"; "fork"] branchType then SessionTypeFacet
  else if bool_decide (branchType = "spawn") then SessionTypeSpawn
  else if bool_decide (branchType = "depth") then SessionTypeDepth
  else if in_table ["reflection"; "consolidation"; "compaction-memory"; "session-end-memory"] branchType then SessionTypeReflection
  else if bool_decide (branchType = "keepalive") then SessionTypeKeepalive
  else if in_table ["background"; "nudge-extraction"; "branch"] branchType then SessionTypeBackgroundTask
  else SessionTypeUnknown.

Definition crossAgentSpawnID : gostr := "xspawn".
Definition CrossAgentSpawnRoot (agentID : gostr) : gostr := String_ (MkKey agentID (rune "i"%char) crossAgentSpawnID 0 0).
Definition IsCrossAgentSpawnKey (key : gostr) : bool :=
  match ParseSessionKey key with
  | Some sk => (Type_ sk =? rune "i"%char)%N && bool_decide (ID sk = crossAgentSpawnID)
  | None => false
  end.

(** ** Stored sets of ids *)
Fixpoint unique_ids (seen : gset gostr) (ids : list gostr) : list gostr :=
  match ids with
  | [] => []
  | id :: ids =>
      if bool_decide (id = "") then unique_ids seen ids
      else if decide (id ∈ seen) then unique_ids seen ids
      else id :: unique_ids ({[ id ]} ∪ seen) ids
  end.

Definition NormaliseChatSet (ids : list gostr) : list gostr := sort_strings (unique_ids ∅ ids).

Section Codec.
(** [encoding/json] on a list of strings. *)
Context (json_encode : list gostr -> gostr) (json_decode : gostr -> option (list gostr)).

Definition DecodeChatSet (stored : gostr) : list gostr :=
  if bool_decide (stored = "") then []
  else match json_decode stored with Some ids => NormaliseChatSet ids | None => [] end.

Definition EncodeChatSet (ids : list gostr) : gostr := json_encode (NormaliseChatSet ids).
End Codec.

(** ** [LIKE] on an escaped text *)
Lemma like_tokens_escape s t :
  like_tokens (Some "\"%char) (escapeLike s ++ t)
  = ts ← like_tokens (Some "\"%char) t; Some ((Lit <$> s) ++ ts).
Proof.
  induction s as [|c s IH].
  { cbn [escapeLike mbind list_bind app fmap list_fmap]. by destruct (like_tokens (Some _) t). }
  assert (escapeLike (c :: s) = (if mem_byte c "\%_" then ["\"%char; c] else [c]) ++ escapeLike s) as -> by done.
  destruct (mem_byte c "\%_") eqn:E; cbn [app like_tokens].
  - rewrite bool_decide_true by done. rewrite IH. by destruct (like_tokens _ t).
  - rewrite bool_decide_false by (intros Hc; injection Hc as Hc; rewrite <- Hc in E; discriminate E). rewrite IH.
    destruct (byte_eqb_spec c "%"%char) as [->|_]; [discriminate E|].
    destruct (byte_eqb_spec c "_"%char) as [->|_]; [discriminate E|].
    by destruct (like_tokens _ t).
Qed.

Lemma like_match_any s : like_match [Any] s = true.
Proof.
  cbn [like_match]. apply existsb_exists. exists (length s). split; [apply in_seq; lia|].
  rewrite drop_ge by done. by rewrite orb_true_r.
Qed.

Lemma like_match_lits p ts s :
  (forall u, like_match ts u = true) ->
  like_match ((Lit <$> p) ++ ts) s = has_prefix (lower_byte <$> p) (lower_byte <$> s).
Proof.
  intros Hts. revert s. induction p as [|c p IH]; intros s; cbn; [apply Hts|].
  destruct s as [|d s]; cbn; [done|]. by rewrite IH.
Qed.

(** A key is in the family of a root when it is the root or, up to the case of
    ASCII letters, starts with the root and a "/". *)
Lemma in_family_spec root key :
  in_family root key = true
  <-> key = root \/ exists s, (lower_byte <$> key) = (lower_byte <$> root) ++ "/" ++ s.
Proof.
  unfold in_family, like. rewrite orb_true_iff, bool_decide_eq_true, like_tokens_escape.
  change (like_tokens (Some "\"%char) "/%") with (Some [Lit "/"%char; Any]). cbn [mbind option_bind].
  change [Lit "/"%char; Any] with ((Lit <$> ["/"%char]) ++ [Any]). rewrite app_assoc, <- fmap_app.
  rewrite like_match_lits by apply like_match_any. rewrite has_prefix_spec.
  rewrite fmap_app. split; intros [H|[s H]]; [by left|right|by left|right]; exists s; by rewrite H, <- ?app_assoc.
Qed.

(** ** What a query returns *)
Definition created_desc (a b : gostr * row) : Prop := created_at b.2 <= created_at a.2.

Lemma insert_created_perm kr l : insert_created kr l ≡ₚ kr :: l.
Proof. induction l as [|p l IH]; cbn; [done|]. destruct (_ <? _); [done|]. rewrite IH. apply Permutation_swap. Qed.

Lemma by_created_perm l : by_created l ≡ₚ l.
Proof.
  unfold by_created. transitivity (rev l); [|symmetry; apply Permutation_rev].
  induction (rev l) as [|o l' IH]; cbn [foldr]; [done|]. by rewrite insert_created_perm, IH.
Qed.

Lemma insert_created_sorted kr l : StronglySorted created_desc l -> StronglySorted created_desc (insert_created kr l).
Proof.
  induction l as [|p l IH]; cbn [insert_created]; [by repeat constructor|]. intros Hl.
  apply StronglySorted_inv in Hl as [Hs Hp]. destruct (Z.ltb_spec (created_at p.2) (created_at kr.2)) as [Hlt|Hge].
  - constructor; [by constructor|]. constructor; [unfold created_desc; lia|].
    eapply Forall_impl; [exact Hp|]. unfold created_desc. intros q Hq. lia.
  - constructor; [by apply IH|]. rewrite insert_created_perm. by constructor.
Qed.

Lemma by_created_sorted l : StronglySorted created_desc (by_created l).
Proof. unfold by_created. induction (rev l) as [|o l' IH]; cbn [foldr]; [constructor|by apply insert_created_sorted]. Qed.

Section QueryFacts.
Context (scan : forall A : Type, list A -> list A).
Hypothesis scan_perm : forall A (l : list A), scan A l ≡ₚ l.

Lemma rows_elem {K V} `{Countable K} (m : gmap K V) k v : (k, v) ∈ all_rows scan m <-> m !! k = Some v.
Proof. unfold all_rows. rewrite scan_perm. apply elem_of_map_to_list. Qed.

Definition matching (o : QueryOptions) (now : Time) (x : Index) (key : gostr) (r : row) : Prop :=
  sessions x !! key = Some r
  /\ (q_agent o = "" \/ agent_id r = q_agent o) /\ (q_type o = "" \/ session_type r = q_type o)
  /\ (q_status o = "" \/ status r = q_status o)
  /\ (q_root o = "" \/ key = q_root o \/ exists s, (lower_byte <$> key) = (lower_byte <$> q_root o) ++ "/" ++ s)
  /\ (q_max_age o <= 0 \/ exists t, last_activity_at r = Some t /\ stamp (now - q_max_age o) <= t).

Lemma selected_spec o now key r : selected o now (key, r) = true <->
  (q_agent o = "" \/ agent_id r = q_agent o) /\ (q_type o = "" \/ session_type r = q_type o)
  /\ (q_status o = "" \/ status r = q_status o)
  /\ (q_root o = "" \/ key = q_root o \/ exists s, (lower_byte <$> key) = (lower_byte <$> q_root o) ++ "/" ++ s)
  /\ (q_max_age o <= 0 \/ exists t, last_activity_at r = Some t /\ stamp (now - q_max_age o) <= t).
Proof.
  unfold selected. cbn [fst snd]. rewrite !andb_true_iff, !orb_true_iff, !bool_decide_eq_true, in_family_spec, Z.leb_le.
  assert ((match last_activity_at r with Some t => stamp (TimeAdd now (- q_max_age o)) <=? t | None => false end) = true
    <-> exists t, last_activity_at r = Some t /\ stamp (now - q_max_age o) <= t) as ->.
  { unfold TimeAdd. replace (now + - q_max_age o) with (now - q_max_age o) by lia.
    destruct (last_activity_at r) as [t|]; [|split; [done|by intros (t & [=] & _)]].
    rewrite Z.leb_le. split; [by exists t|]. by intros (t' & [= <-] & H). }
  tauto.
Qed.

(** A query of the index returns exactly the sessions its options ask for,
    each once, newest first; a limit keeps the newest; and a session outside
    the family of the root key, other than by the case of ASCII letters, never
    appears.  The query fails only when a selected row was never active. *)
Theorem query_exact (o : QueryOptions) (now : Time) (x : Index) :
  map_Forall (fun _ r => is_Some (last_activity_at r)) (sessions x) ->
  exists all, NoDup all.*1 /\ StronglySorted created_desc all
    /\ (forall key r, (key, r) ∈ all <-> matching o now x key r)
    /\ exists es, Query scan o now x = Some es
       /\ Forall2 (fun kr e => read_row kr = Some e)
            (if 0 <? q_limit o then take (Z.to_nat (q_limit o)) all else all) es.
Proof.
  intros Hact. set (sel := filter (fun kr => selected o now kr = true) (all_rows scan (sessions x))).
  assert (forall key r, (key, r) ∈ sel <-> matching o now x key r) as Hsel.
  { intros key r. unfold sel, matching. rewrite list_elem_of_filter, rows_elem, selected_spec. tauto. }
  exists (by_created sel). split_and!.
  - rewrite by_created_perm. unfold sel, all_rows. rewrite scan_perm.
    eapply sublist_NoDup; [apply (NoDup_fst_map_to_list (sessions x))|]. apply fmap_sublist, sublist_filter.
  - apply by_created_sorted.
  - intros key r. by rewrite by_created_perm.
  - unfold Query. fold sel. set (l := if 0 <? q_limit o then _ else _).
    assert (is_Some (mapM read_row l)) as [es Hes].
    { apply mapM_is_Some. apply Forall_forall. intros [key r] Hin. cbn. unfold read_row. cbn [snd].
      assert ((key, r) ∈ by_created sel) as Hin'.
      { unfold l in Hin. destruct (0 <? q_limit o); [by eapply elem_of_take in Hin as (i & ? & _); eapply list_elem_of_lookup_2|done]. }
      rewrite by_created_perm in Hin'. apply Hsel in Hin' as [Hr _]. destruct (Hact _ _ Hr) as [t ->]. by eexists. }
    exists es. split; [done|]. by apply mapM_Some in Hes.
Qed.
End QueryFacts.

(** ** The timeline of backend sessions *)
Section TimelineFacts.
Context (scan : forall A : Type, list A -> list A).
Hypothesis scan_perm : forall A (l : list A), scan A l ≡ₚ l.

Lemma observations_insert k t r x :
  resumes x !! (k, t, r) = None ->
  observations scan k (set_resumes (<[(k, t, r) := None]> (resumes x)) x) ≡ₚ (t, r) :: observations scan k x.
Proof.
  intros Hf. unfold observations, all_rows. rewrite !scan_perm. cbn [resumes set_resumes].
  rewrite map_to_list_insert by done. cbn [omap list_omap fst snd]. by rewrite bool_decide_true.
Qed.

Lemma observation_elem k t r x : (t, r) ∈ observations scan k x <-> is_Some (resumes x !! (k, t, r)).
Proof.
  unfold observations. rewrite list_elem_of_omap. split.
  - intros ([[[k' t'] r'] v] & Hin & H). apply rows_elem in Hin; [|done]. cbn [fst snd] in H.
    case_bool_decide; [|done]. simplify_eq. by exists v.
  - intros [v Hv]. exists ((k, t, r), v). split; [by apply rows_elem|]. cbn. by rewrite bool_decide_true.
Qed.

(** The observations kept, newest first. *)
Definition later (p q : Z * gostr) : Prop := q.1 < p.1.

Lemma newest_head l acc : l ≡ₚ acc -> StronglySorted later acc -> newest_first l !! 0%nat = acc !! 0%nat.
Proof.
  intros Hp Hs. assert (newest_first l = acc) as ->; [|done].
  assert (forall o m, (forall p, p ∈ m -> p.1 <> o.1) -> StronglySorted later m -> StronglySorted later (insert_newest o m)) as Hins.
  { intros o m. induction m as [|p m IH]; intros Hne Hm; cbn [insert_newest]; [by repeat constructor|].
    apply StronglySorted_inv in Hm as [Hm Hpm]. pose proof (Hne p ltac:(constructor)) as Hpo.
    destruct (Z.ltb_spec p.1 o.1).
    - constructor; [by constructor|]. constructor; [unfold later; lia|]. eapply Forall_impl; [exact Hpm|]. unfold later. intros; lia.
    - constructor; [apply IH; [intros q Hq; apply Hne; by constructor|done]|]. rewrite insert_newest_perm.
      constructor; [unfold later; lia|done]. }
  assert (NoDup (rev l).*1) as Hnd.
  { rewrite <- Permutation_rev, Hp. clear -Hs. induction Hs as [|p m Hm IH Hpm]; [constructor|]. apply NoDup_cons. split; [|done].
    intros (q & Hq & Hin)%list_elem_of_fmap. rewrite Forall_forall in Hpm. specialize (Hpm q Hin). unfold later in Hpm. lia. }
  assert (forall m, NoDup m.*1 -> StronglySorted later (foldr insert_newest [] m)) as Hsort.
  { intros m. induction m as [|o m IH]; [constructor|]. cbn [fmap list_fmap foldr]. intros [Hni Hm]%NoDup_cons.
    apply Hins; [|by apply IH]. intros p Hin Heq. apply Hni, list_elem_of_fmap. exists p. split; [done|].
    assert (foldr insert_newest [] m ≡ₚ m) as Hpm by (clear; induction m as [|o' m IH]; cbn; [done|]; by rewrite insert_newest_perm, IH).
    by rewrite <- Hpm. }
  eapply (StronglySorted_unique_strong later); [|by apply Hsort|done|].
  - unfold later. intros; lia.
  - rewrite <- Hp. apply newest_first_perm.
Qed.

Definition observe_all (k : gostr) (os : list (Time * gostr)) (x : Index) : Index :=
  fold_left (fun x o => RecordBackendResume scan k o.2 o.1 x) os x.

(** The backend session that was live: the last one observed by then. *)
Definition live_at (os : list (Time * gostr)) (at_ : Time) : option gostr :=
  last (filter (fun o => stamp o.1 <= stamp at_) os).*2.

Definition latest_by (at_ : Time) (acc : list (Z * gostr)) : option gostr :=
  snd <$> head (filter (fun p => p.1 <= stamp at_) acc).

Lemma first_newest l acc : l ≡ₚ acc -> StronglySorted later acc -> first_by Z.gtb l = head acc.
Proof.
  intros Hp Hs. assert (match first_by Z.gtb l with
    | Some q => q ∈ l /\ forall p, p ∈ l -> p.1 <= q.1 | None => l = [] end) as H.
  { clear Hp. induction l as [|p l IH]; cbn [first_by]; [done|]. destruct (first_by Z.gtb l) as [q|].
    - destruct IH as [H1 H2]. rewrite Z.gtb_ltb. destruct (Z.ltb_spec p.1 q.1).
      + split; [by constructor|]. intros p' [->|Hin]%elem_of_cons; [lia|by apply H2].
      + split; [constructor|]. intros p' [->|Hin]%elem_of_cons; [done|]. specialize (H2 _ Hin). lia.
    - subst l. split; [constructor|]. by intros p' ->%list_elem_of_singleton. }
  destruct (first_by Z.gtb l) as [q|]; [|subst l; by apply Permutation_nil in Hp as ->].
  destruct H as [Hin Hmax]. destruct acc as [|a acc]; [by apply Permutation_nil_r in Hp; subst l; apply elem_of_nil in Hin|].
  cbn. f_equal. rewrite Hp in Hin. apply elem_of_cons in Hin as [->|Hin]; [done|]. exfalso.
  apply StronglySorted_inv in Hs as [_ Ha]. rewrite Forall_forall in Ha. specialize (Ha q Hin). unfold later in Ha.
  assert (a ∈ l) as Hal by (rewrite Hp; constructor). specialize (Hmax a Hal). lia.
Qed.

Lemma filter_sorted (P : Z * gostr -> Prop) `{!forall p, Decision (P p)} acc :
  StronglySorted later acc -> StronglySorted later (filter P acc).
Proof.
  induction 1 as [|p acc Hs IH Hp]; [constructor|]. rewrite filter_cons. destruct (decide (P p)); [|done].
  constructor; [done|]. rewrite Forall_forall in *. intros q [_ Hq]%list_elem_of_filter. by apply Hp.
Qed.

Lemma resume_at k at_ x acc : observations scan k x ≡ₚ acc -> StronglySorted later acc ->
  fst <$> BackendResumeAt scan k at_ x = latest_by at_ acc.
Proof.
  intros Hp Hs. unfold BackendResumeAt, timelineLookup, latest_by.
  rewrite (first_newest _ (filter (fun p => p.1 <= stamp at_) acc)); [|by rewrite Hp|by apply filter_sorted].
  by destruct (head _).
Qed.

Lemma observe_timeline k at_ os : forall x acc,
  k <> "" -> Forall (fun o => o.2 <> "") os -> StronglySorted (fun o o' => stamp o.1 < stamp o'.1) os ->
  observations scan k x ≡ₚ acc -> StronglySorted later acc ->
  (forall o p, o ∈ os -> p ∈ acc -> p.1 < stamp o.1) ->
  fst <$> BackendResumeAt scan k at_ (observe_all k os x)
  = match live_at os at_ with Some r => Some r | None => latest_by at_ acc end.
Proof.
  induction os as [|[t r] os IH]; intros x acc Hk Hne Hos Hobs Hacc Hlt; cbn [observe_all fold_left].
  { by apply resume_at. }
  apply Forall_cons in Hne as [Hr Hne]. apply StronglySorted_inv in Hos as [Hos Hhd]. cbn [fst snd] in *.
  assert (forall acc' : list (Z * gostr), (forall p, p ∈ acc' -> p ∈ acc \/ p.1 = stamp t) ->
            forall o p, o ∈ os -> p ∈ acc' -> p.1 < stamp o.1) as Hlt'.
  { intros acc' Hsub o p Ho Hp. rewrite Forall_forall in Hhd. specialize (Hhd o Ho).
    destruct (Hsub p Hp) as [Hin| ->]; [|done]. apply Hlt; [by constructor|done]. }
  assert (live_at ((t, r) :: os) at_
    = match live_at os at_ with Some r' => Some r' | None => if decide (stamp t <= stamp at_) then Some r else None end) as ->.
  { unfold live_at. rewrite filter_cons. cbn [fst]. destruct (decide (stamp t <= stamp at_)).
    - rewrite fmap_cons. cbn [snd]. generalize ((filter (fun o : Time * gostr => stamp o.1 <= stamp at_) os).*2). intros rs.
      destruct rs as [|r' rs]; [done|]. rewrite last_cons_cons.
      destruct (last (r' :: rs)) eqn:E; [done|]. by apply last_None in E.
    - by destruct (last _). }
  unfold RecordBackendResume at 2. rewrite !bool_decide_false by done. cbn [orb].
  assert ((newest_first (observations scan k x)).*2 !! 0%nat = (acc !! 0%nat) ≫= fun p => Some p.2) as ->.
  { rewrite list_lookup_fmap, (newest_head _ acc) by done. by destruct (acc !! 0%nat). }
  case_bool_decide as Hsame.
  - destruct acc as [|[ta ra] acc]; [done|]. cbn in Hsame. simplify_eq.
    fold (observe_all k os x). rewrite (IH x ((ta, r) :: acc)); try done; [|by apply Hlt'; left].
    destruct (live_at os at_); [done|]. unfold latest_by. rewrite filter_cons. cbn [fst].
    pose proof (Hlt (t, r) (ta, r) ltac:(constructor) ltac:(constructor)) as Ht. cbn in Ht.
    destruct (decide (stamp t <= stamp at_)); [|done]. rewrite decide_True by lia. done.
  - assert (resumes x !! (k, stamp t, r) = None) as Hfresh.
    { apply eq_None_not_Some. intros H. apply observation_elem in H. rewrite Hobs in H.
      specialize (Hlt (t, r) _ ltac:(constructor) H). cbn in Hlt. lia. }
    rewrite Hfresh. set (x' := set_resumes _ _). fold (observe_all k os x').
    rewrite (IH x' ((stamp t, r) :: acc)); try done.
    + destruct (live_at os at_); [done|]. unfold latest_by. rewrite filter_cons. cbn [fst].
      by destruct (decide (stamp t <= stamp at_)).
    + unfold x'. by rewrite observations_insert, Hobs.
    + constructor; [done|]. apply Forall_forall. intros p Hp. apply (Hlt (t, r) p); [constructor|done].
    + apply Hlt'. intros p [->|Hp]%elem_of_cons; [by right|by left].
Qed.

(** The timeline of backend sessions is faithful: after any run of
    observations of a session, each in a later second than the one before and
    repeats included, the backend session reported for a moment is the last one
    observed by then, and none is reported when there was none. *)
Theorem resume_timeline (k : gostr) (os : list (Time * gostr)) (at_ : Time) (x : Index) :
  k <> "" -> Forall (fun o => o.2 <> "") os -> StronglySorted (fun o o' => stamp o.1 < stamp o'.1) os ->
  observations scan k x = [] ->
  fst <$> BackendResumeAt scan k at_ (observe_all k os x) = live_at os at_.
Proof.
  intros Hk Hne Hos Hx. rewrite (observe_timeline k at_ os x []); try done.
  - by destruct (live_at os at_).
  - by rewrite Hx.
  - constructor.
  - by intros o p _ ?%elem_of_nil.
Qed.
End TimelineFacts.

(** ** Stored sets are canonical *)
Lemma unique_ids_elem ids : forall seen id, id ∈ unique_ids seen ids <-> id ∈ ids /\ id <> "" /\ (id ∉ seen).
Proof.
  induction ids as [|i ids IH]; intros seen id; cbn [unique_ids]; [by split; [intros ?%elem_of_nil|intros [?%elem_of_nil _]]|].
  case_bool_decide as Hi.
  - rewrite IH, elem_of_cons. subst i. naive_solver.
  - case_decide as Hs.
    + rewrite IH, elem_of_cons. naive_solver.
    + rewrite !elem_of_cons, IH. set_unfold. destruct (decide (id = i)) as [->|]; naive_solver.
Qed.

Lemma unique_ids_nodup ids : forall seen, NoDup (unique_ids seen ids).
Proof.
  induction ids as [|i ids IH]; intros seen; cbn [unique_ids]; [constructor|]. repeat case_match; try apply IH.
  apply NoDup_cons. split; [|apply IH]. rewrite unique_ids_elem. set_solver.
Qed.

Lemma NormaliseChatSet_elem ids id : id ∈ NormaliseChatSet ids <-> id ∈ ids /\ id <> "".
Proof. unfold NormaliseChatSet. rewrite sort_strings_perm, unique_ids_elem. set_solver. Qed.

Lemma NormaliseChatSet_ext ids ids' :
  (forall id, id <> "" -> id ∈ ids <-> id ∈ ids') -> NormaliseChatSet ids = NormaliseChatSet ids'.
Proof.
  intros H. apply (StronglySorted_unique_strong string_lt_eq).
  - intros a b _ _. apply string_le_antisym.
  - apply sort_strings_sorted.
  - apply sort_strings_sorted.
  - unfold NormaliseChatSet. rewrite !sort_strings_perm. apply NoDup_Permutation; [apply unique_ids_nodup..|].
    intros id. rewrite !unique_ids_elem. specialize (H id). naive_solver.
Qed.

(** Stored sets are canonical: decoding what was encoded gives the set back,
    sorted, without repeats or blanks; two lists are stored as the same text
    exactly when they have the same non-blank ids; and decoding any stored
    value and encoding it again reaches a text that no longer changes. *)
Theorem chat_set_canonical (enc : list gostr -> gostr) (dec : gostr -> option (list gostr)) (ids ids' : list gostr) (stored : gostr) :
  (forall l, dec (enc l) = Some l /\ enc l <> "") ->
  let norm := NormaliseChatSet ids in
  DecodeChatSet dec (EncodeChatSet enc ids) = norm
  /\ (forall id, id ∈ norm <-> id ∈ ids /\ id <> "") /\ NoDup norm /\ StronglySorted string_lt_eq norm
  /\ (EncodeChatSet enc ids = EncodeChatSet enc ids' <-> forall id, id <> "" -> id ∈ ids <-> id ∈ ids')
  /\ let again := EncodeChatSet enc (DecodeChatSet dec stored) in
     EncodeChatSet enc (DecodeChatSet dec again) = again.
Proof.
  intros Hc norm.
  assert (forall l, NormaliseChatSet (NormaliseChatSet l) = NormaliseChatSet l) as Hidem.
  { intros l. apply NormaliseChatSet_ext. intros id Hid. rewrite NormaliseChatSet_elem. naive_solver. }
  assert (forall l, DecodeChatSet dec (EncodeChatSet enc l) = NormaliseChatSet l) as Hrt.
  { intros l. unfold DecodeChatSet, EncodeChatSet. destruct (Hc (NormaliseChatSet l)) as [Hd Hne].
    rewrite bool_decide_false by done. by rewrite Hd, Hidem. }
  split_and!.
  - apply Hrt.
  - apply NormaliseChatSet_elem.
  - unfold norm, NormaliseChatSet. rewrite sort_strings_perm. apply unique_ids_nodup.
  - apply sort_strings_sorted.
  - split.
    + intros H id Hid. apply (f_equal (DecodeChatSet dec)) in H. rewrite !Hrt in H.
      split; intros Hin.
      * assert (id ∈ NormaliseChatSet ids) as Hx by (by apply NormaliseChatSet_elem).
        rewrite H in Hx. by apply NormaliseChatSet_elem in Hx as [? _].
      * assert (id ∈ NormaliseChatSet ids') as Hx by (by apply NormaliseChatSet_elem).
        rewrite <- H in Hx. by apply NormaliseChatSet_elem in Hx as [? _].
    + intros H. unfold EncodeChatSet. by rewrite (NormaliseChatSet_ext _ _ H).
  - intros again. unfold again. rewrite Hrt. unfold EncodeChatSet. by rewrite Hidem.
Qed.

(** ** The theorems at work *)
Definition ex_options : QueryOptions := MkQuery "main" "" "" 0 1 "main/c1".

Lemma query_exact_witness :
  exists all, NoDup all.*1 /\ StronglySorted created_desc all
    /\ (forall key r, (key, r) ∈ all <-> matching ex_options 0 ex_index key r)
    /\ exists es, Query scan_all ex_options 0 ex_index = Some es
       /\ Forall2 (fun kr e => read_row kr = Some e)
            (if 0 <? q_limit ex_options then take (Z.to_nat (q_limit ex_options)) all else all) es.
Proof.
  apply (query_exact scan_all scan_all_perm ex_options 0 ex_index).
  apply map_Forall_insert_2; [by eexists|by apply map_Forall_empty].
Defined.

Definition ex_observed : list (Time * gostr) := [(Second, "r1"); (2 * Second, "r1"); (5 * Second, "r2")].

Lemma resume_timeline_witness :
  fst <$> BackendResumeAt scan_all "main/c1" (3 * Second) (observe_all scan_all "main/c1" ex_observed ex_index)
  = live_at ex_observed (3 * Second).
Proof.
  apply (resume_timeline scan_all scan_all_perm "main/c1" ex_observed (3 * Second) ex_index).
  - done.
  - by repeat constructor.
  - repeat constructor.
  - by vm_compute.
Defined.

(** An encoding with a tag before every byte and after every id. *)
Definition tag_bytes (s : gostr) : gostr := c ← s; ["x"%char; c].
Fixpoint tag_encode (l : list gostr) : gostr := match l with [] => "." | s :: l => tag_bytes s ++ "|" ++ tag_encode l end.

Fixpoint tag_decode (acc s : gostr) : option (list gostr) :=
  match s with
  | t :: s' =>
      if t =?b "x"%char then match s' with c :: s'' => tag_decode (acc ++ [c]) s'' | [] => None end
      else if t =?b "|"%char then l ← tag_decode [] s'; Some (acc :: l)
      else Some []
  | [] => None
  end.

Lemma tag_roundtrip l : tag_decode [] (tag_encode l) = Some l /\ tag_encode l <> "".
Proof.
  split; [|destruct l as [|[|c s] l]; discriminate]. induction l as [|s l IH]; [reflexivity|].
  change (tag_encode (s :: l)) with (tag_bytes s ++ "|" ++ tag_encode l).
  assert (forall acc u, tag_decode acc (tag_bytes s ++ "|" ++ u) = l' ← tag_decode [] u; Some ((acc ++ s) :: l')) as H.
  { clear. induction s as [|c s IH]; intros acc u.
    - cbn. by rewrite app_nil_r.
    - change (tag_bytes (c :: s)) with ("x"%char :: c :: tag_bytes s). cbn [app tag_decode].
      rewrite byte_eqb_refl. change (tag_bytes s ++ "|"%char :: u) with (tag_bytes s ++ "|" ++ u).
      rewrite IH. by rewrite <- app_assoc. }
  by rewrite H, IH.
Qed.

Lemma chat_set_canonical_witness :
  DecodeChatSet (tag_decode []) (EncodeChatSet tag_encode ["b"; "a"; ""; "b"]) = NormaliseChatSet ["b"; "a"; ""; "b"].
Proof. apply (chat_set_canonical tag_encode (tag_decode []) ["b"; "a"; ""; "b"] [] ""), tag_roundtrip. Defined.

Lemma in_family_case : in_family "main/iNotes" "main/inotes/b7" = true /\ has_prefix "main/iNotes/" "main/inotes/b7" = false.
Proof. split; vm_compute; reflexivity. Qed.
