(* ===== verification/Route.v ===== *)
(** * Addressing ([internal/route]: [target.go], [resolver.go], [deliver.go])

    The target grammar every entry point parses, with the part of [net/url] it
    uses, the one ladder from a target to a session, over the session index, and
    the choice of the connection a message leaves by. *)
From S2P Require Import Prelude GoStrings GoNum ShellScan SessionKey SessionIndex ChatIndex.
Local Open Scope Z_scope.
Local Open Scope gostr_scope.

(** ** [net/url]: queries *)
Definition hex_digit (n : N) : ascii := ascii_of_N (if (n <? 10)%N then 48 + n else 55 + n)%N.
Definition unhex (c : ascii) : option N :=
  let n := N_of_ascii c in
  if byte_in "0"%char "9"%char c then Some (n - 48)%N
  else if byte_in "a"%char "f"%char c then Some (n - 87)%N
  else if byte_in "A"%char "F"%char c then Some (n - 55)%N
  else None.

Fixpoint QueryUnescape (s : gostr) : option gostr :=
  match s with
  | [] => Some []
  | c :: s' =>
      if c =?b "%"%char then
        match s' with
        | a :: b :: rest =>
            hi ← unhex a; lo ← unhex b; t ← QueryUnescape rest; Some (ascii_of_N (16 * hi + lo) :: t)
        | _ => None
        end
      else t ← QueryUnescape s'; Some ((if c =?b "+"%char then " "%char else c) :: t)
  end.

Definition unreserved (c : ascii) : bool :=
  byte_in "a"%char "z"%char c || byte_in "A"%char "Z"%char c || byte_in "0"%char "9"%char c || mem_byte c "-_.~".

Definition QueryEscape (s : gostr) : gostr :=
  c ← s;
  if c =?b " "%char then ["+"%char]
  else if unreserved c then [c]
  else ["%"%char; hex_digit (N_of_ascii c / 16); hex_digit (N_of_ascii c mod 16)].

(** [None] when any parameter is malformed, as the callers drop the rest then. *)
Fixpoint parse_params (params : list gostr) : option (list (gostr * gostr)) :=
  match params with
  | [] => Some []
  | p :: params =>
      if contains ";" p then None
      else if bool_decide (p = "") then parse_params params
      else
        let '(key, value, _) := cut "=" p in
        key ← QueryUnescape key; value ← QueryUnescape value; rest ← parse_params params;
        Some ((key, value) :: rest)
  end.

Definition ParseQuery (query : gostr) : option (list (gostr * gostr)) := parse_params (split_byte "&"%char query).

(** [Values.Get]. *)
Definition query_get (q : list (gostr * gostr)) (key : gostr) : gostr := default "" (table_get q key).

(** [Values.Encode] of values already sorted by key. *)
Definition Encode (q : list (gostr * gostr)) : gostr :=
  join "&" ((fun kv => QueryEscape kv.1 ++ "=" ++ QueryEscape kv.2) <$> q).

(** ** Targets *)
Definition PolicyFallback : gostr := "fallback".
Definition PolicyStrict : gostr := "strict".
Definition PolicyBroadcast : gostr := "broadcast".

Record Target := MkTarget { t_agent : gostr; t_rest : gostr; t_create : bool; t_policy : gostr }.

Definition ParsePolicy (s : gostr) : option gostr :=
  if in_table [PolicyFallback; PolicyStrict; PolicyBroadcast] s then Some s else None.

(** The options a query gives. *)
Definition target_options (query : gostr) : option (bool * gostr) :=
  q ← ParseQuery query;
  let c := query_get q "create" in
  let create := if bool_decide (c = "") then true else bool_decide (c = "true") || bool_decide (c = "1") in
  let p := query_get q "policy" in
  if bool_decide (p = "") then Some (create, PolicyFallback)
  else policy ← ParsePolicy p; Some (create, policy).

Definition target_path (raw : gostr) (options : bool * gostr) : option Target :=
  let '(agent, rest, _) := cut "/" raw in
  if bool_decide (agent = "") then None else Some (MkTarget agent rest options.1 options.2).

Definition ParseTarget (s : gostr) : option Target :=
  match index_byte "?"%char s with
  | Some i => options ← target_options (drop (S i) s); target_path (take i s) options
  | None => target_path s (true, PolicyFallback)
  end.

Definition target_params (t : Target) : list (gostr * gostr) :=
  (if t_create t then [] else [("create", "false")] : list (gostr * gostr))
  ++ (if bool_decide (t_policy t = "") || bool_decide (t_policy t = PolicyFallback) then []
      else [(("policy" : gostr), t_policy t)]).

Definition target_string (t : Target) : gostr :=
  t_agent t ++ (if bool_decide (t_rest t = "") then [] else "/" ++ t_rest t)
  ++ (match target_params t with [] => [] | ps => "?" ++ Encode ps end).

(** ** The resolution ladder *)
Inductive Rung := RungExact | RungNamed | RungAlias | RungCreated | RungDefault.

Record Resolution := MkResolution { r_key : gostr; r_rung : Rung; r_policy : gostr }.

Inductive resolve_error := EmptyAgent | NoSession | CreateFailed | UnknownTarget | AliasClash.

(** [CreateDefault] belongs to the delivery paths that inject it; [None] is its
    error. *)
Record Resolver := MkResolver {
  r_index : option Index;
  PreferredPlatform : option (gostr -> gostr);
  CreateDefault : option (gostr -> option gostr);
}.

Section Resolve.
Context (scan : forall A : Type, list A -> list A) (unicode_lower : gostr -> gostr).

Definition resolve_default (r : Resolver) (agent policy : gostr) : resolve_error + Resolution :=
  match r_index r with
  | None => inl NoSession
  | Some x =>
      let preferred := match PreferredPlatform r with Some f => f agent | None => "" end in
      let key := DefaultSessionKeyForAgentOn scan agent preferred x in
      if bool_decide (key = "") then
        match CreateDefault r with
        | Some create =>
            match create agent with
            | Some created => inr (MkResolution created RungCreated policy)
            | None => inl CreateFailed
            end
        | None => inl NoSession
        end
      else inr (MkResolution key RungDefault policy)
  end.

Definition exists_in (r : Resolver) (key : gostr) : bool :=
  match r_index r with Some x => SessionExists key x | None => false end.

(** The rungs below an exact key. *)
Definition resolve_name (r : Resolver) (t : Target) (policy : gostr) : resolve_error + Resolution :=
  let named := NamedIndependentSessionKey (t_agent t) (t_rest t) in
  match named with
  | Some key =>
      if exists_in r key then inr (MkResolution key RungNamed policy)
      else
        match r_index r with
        | Some x =>
            match ResolveChatAlias scan unicode_lower (t_agent t) (t_rest t) x with
            | AliasKey key => inr (MkResolution key RungAlias policy)
            | AliasAmbiguous => inl AliasClash
            | AliasNotFound => if t_create t then inr (MkResolution key RungCreated policy) else inl UnknownTarget
            end
        | None => if t_create t then inr (MkResolution key RungCreated policy) else inl UnknownTarget
        end
  | None =>
      match r_index r with
      | Some x =>
          match ResolveChatAlias scan unicode_lower (t_agent t) (t_rest t) x with
          | AliasKey key => inr (MkResolution key RungAlias policy)
          | AliasAmbiguous => inl AliasClash
          | AliasNotFound => inl UnknownTarget
          end
      | None => inl UnknownTarget
      end
  end.

(** [Rest] is the full key of a session of the agent. *)
Definition full_form (t : Target) : bool :=
  match ParseSessionKey (t_rest t) with Some k => bool_decide (AgentID k = t_agent t) | None => false end.

Definition full_key (t : Target) : gostr := if full_form t then t_rest t else t_agent t ++ "/" ++ t_rest t.

Definition Resolve (r : Resolver) (t : Target) : resolve_error + Resolution :=
  if bool_decide (t_agent t = "") then inl EmptyAgent
  else
    let policy := if bool_decide (t_policy t = "") then PolicyFallback else t_policy t in
    if bool_decide (t_rest t = "") then resolve_default r (t_agent t) policy
    else if bool_decide (is_Some (ParseSessionKey (full_key t))) && exists_in r (full_key t)
    then inr (MkResolution (full_key t) RungExact policy)
    else if full_form t then inl UnknownTarget
    else resolve_name r t policy.

Record Receipt := MkReceipt { rc_target : gostr; rc_session : gostr; rc_via : Rung; rc_policy : gostr }.

Definition ReceiptFor (res : Resolution) (t : Target) : Receipt :=
  MkReceipt (target_string t) (r_key res) (r_rung res) "".

(** [Resolver.ParseTarget]: a "?" starts options unless the whole rest is an alias. *)
Definition ParseTargetWith (r : Resolver) (s : gostr) : option Target :=
  match r_index r with
  | Some x =>
      if contains "?" s then
        let '(agent, rest, _) := cut "/" s in
        if negb (bool_decide (agent = "")) && negb (bool_decide (rest = "")) then
          match ResolveChatAlias scan unicode_lower agent rest x with
          | AliasNotFound => ParseTarget s
          | _ => Some (MkTarget agent rest true PolicyFallback)
          end
        else ParseTarget s
      else ParseTarget s
  | None => ParseTarget s
  end.
End Resolve.

(** ** Delivery *)
Inductive DeliveryOutcome := DeliveredToSession | DeliveredViaPrimary | DeliveryNone.

(** The lookups of [platform.ConnectionManager] that deliveries use; [None] is a
    nil connection. *)
Record ConnectionManager (conn : Type) := MkManager {
  ForSession : gostr -> option conn;
  ForSessionOrPrimary : gostr -> gostr -> option conn;
  AllForAgent : gostr -> list conn;
  DropsAgentWideSends : conn -> bool;
}.
Arguments ForSession {conn}. Arguments ForSessionOrPrimary {conn}.
Arguments AllForAgent {conn}. Arguments DropsAgentWideSends {conn}.

Definition ConnFor {conn} (cm : option (ConnectionManager conn)) (agentID sessionKey policy : gostr) :
    option conn * DeliveryOutcome :=
  match cm with
  | None => (None, DeliveryNone)
  | Some cm =>
      match ForSession cm sessionKey with
      | Some c => (Some c, DeliveredToSession)
      | None =>
          if bool_decide (policy = PolicyStrict) then (None, DeliveryNone)
          else match ForSessionOrPrimary cm sessionKey agentID with
               | Some c => (Some c, DeliveredViaPrimary)
               | None => (None, DeliveryNone)
               end
      end
  end.

Definition Broadcast {conn} (cm : option (ConnectionManager conn)) (agentID : gostr) : list conn :=
  match cm with
  | None => []
  | Some cm => filter (fun c => DropsAgentWideSends cm c = false) (AllForAgent cm agentID)
  end.

Example parse_1 : ParseTarget "clutch/research?create=false&policy=strict" = Some (MkTarget "clutch" "research" false "strict").
Proof. reflexivity. Qed.
Example parse_2 : ParseTarget "clutch?policy=%73trict" = Some (MkTarget "clutch" "" true "strict").
Proof. reflexivity. Qed.
Example parse_3 : ParseTarget "clutch?policy=loud" = None.
Proof. reflexivity. Qed.
Example string_1 : target_string (MkTarget "clutch" "x y" false "a b/c") = "clutch/x y?create=false&policy=a+b%2Fc".
Proof. reflexivity. Qed.

(** ** Queries round trip *)
Lemma QueryEscape_cons c s : QueryEscape (c :: s) = QueryEscape [c] ++ QueryEscape s.
Proof. unfold QueryEscape. cbn [mbind list_bind]. by rewrite app_nil_r. Qed.

Lemma unescape_byte c t : QueryUnescape (QueryEscape [c] ++ t) = u ← QueryUnescape t; Some (c :: u).
Proof. destruct c as [[] [] [] [] [] [] [] []]; reflexivity. Qed.

Lemma unescape_escape s : QueryUnescape (QueryEscape s) = Some s.
Proof. induction s as [|c s IH]; [done|]. by rewrite QueryEscape_cons, unescape_byte, IH. Qed.

(** No byte of an escaped text is a separator. *)
Definition inert (c : ascii) : bool := negb (mem_byte c "&;=").

Lemma escape_inert s : forallb inert (QueryEscape s) = true.
Proof.
  induction s as [|c s IH]; [done|]. rewrite QueryEscape_cons, forallb_app, IH, andb_true_r.
  clear. destruct c as [[] [] [] [] [] [] [] []]; reflexivity.
Qed.

Lemma inert_not c s : forallb inert s = true -> inert c = false -> (c ∉ s).
Proof.
  intros H Hc Hin. apply list_elem_of_In in Hin.
  apply (proj1 (forallb_forall _ _) H) in Hin. by rewrite Hc in Hin.
Qed.

Lemma index_one c s : index [c] s = index_byte c s.
Proof.
  induction s as [|d s IH]; [done|]. cbn [index index_byte has_prefix]. rewrite IH.
  by destruct (c =?b d).
Qed.

Lemma contains_one c s : contains [c] s = mem_byte c s.
Proof.
  unfold contains. rewrite index_one. destruct (index_byte c s) as [i|] eqn:E.
  - symmetry. apply mem_byte_spec. apply index_byte_Some in E as (t & -> & _ & _). set_solver.
  - apply index_byte_None in E. symmetry. apply not_true_iff_false. by rewrite mem_byte_spec.
Qed.

Lemma index_byte_app c s t : (c ∉ s) -> index_byte c (s ++ c :: t) = Some (length s).
Proof.
  intros H. apply index_byte_Some. exists t. rewrite take_app_length, length_app. cbn. split_and!; [done|lia|done].
Qed.

Lemma cut_app c s t : (c ∉ s) -> cut [c] (s ++ c :: t) = (s, t, true).
Proof.
  intros H. unfold cut. rewrite index_one, index_byte_app by done. rewrite take_app_length. cbn [length].
  change (c :: t) with ([c] ++ t). rewrite app_assoc. f_equal. f_equal. apply drop_app_length'. rewrite length_app. done.
Qed.

Lemma cut_none c s : (c ∉ s) -> cut [c] s = (s, [], false).
Proof. intros H. unfold cut. rewrite index_one. by apply index_byte_None in H as ->. Qed.

Lemma cut_parts c s a b f : cut [c] s = (a, b, f) ->
  (c ∉ a) /\ (if f then s = a ++ c :: b else s = a /\ b = []).
Proof.
  unfold cut. rewrite index_one. destruct (index_byte c s) as [i|] eqn:E.
  - apply index_byte_Some in E as (t & Hs & Hi & Hn).
    assert (length (take i s) = i) as Hl by (rewrite length_take; lia).
    set (p := take i s) in *. clearbody p. subst i s. rewrite drop_app_add. cbn. intros [= <- <- <-]. done.
  - apply index_byte_None in E. by intros [= <- <- <-].
Qed.

Definition param_text (kv : gostr * gostr) : gostr := QueryEscape kv.1 ++ "=" ++ QueryEscape kv.2.

Lemma param_plain kv : (forall c, c ∈ param_text kv -> c <> "&"%char /\ c <> ";"%char).
Proof.
  intros c Hin. unfold param_text in Hin. apply elem_of_app in Hin as [Hin|[->|Hin]%elem_of_cons]; [|done|];
    split; intros ->; by apply (inert_not _ _ (escape_inert _)) in Hin.
Qed.

Lemma parse_param kv ps : parse_params (param_text kv :: ps) = q ← parse_params ps; Some (kv :: q).
Proof.
  cbn [parse_params]. rewrite contains_one.
  assert (mem_byte ";"%char (param_text kv) = false) as ->.
  { apply not_true_iff_false. rewrite mem_byte_spec. intros H. by apply param_plain in H as [_ H]. }
  rewrite bool_decide_false by (unfold param_text; by destruct (QueryEscape kv.1)).
  unfold param_text. cbn [app]. rewrite cut_app by (by apply (inert_not _ _ (escape_inert _))).
  rewrite !unescape_escape. cbn. by destruct (parse_params ps), kv.
Qed.

Lemma split_join_params q : q <> [] -> split_byte "&"%char (Encode q) = param_text <$> q.
Proof.
  intros Hne. assert (Encode q = join "&" (param_text <$> q)) as -> by done. destruct q as [|kv q]; [done|]. clear Hne. revert kv. induction q as [|kv' q IH]; intros kv.
  - cbn. apply split_byte_one. intros H. by apply param_plain in H as [H _].
  - change (join "&" (param_text <$> kv :: kv' :: q)) with (param_text kv ++ "&"%char :: join "&" (param_text <$> kv' :: q)).
    rewrite split_byte_app by (intros H; by apply param_plain in H as [H _]). by rewrite IH.
Qed.

Lemma parse_encode (q : list (gostr * gostr)) : ParseQuery (Encode q) = Some q.
Proof.
  unfold ParseQuery. destruct q as [|kv q]; [done|]. rewrite split_join_params by done.
  generalize (kv :: q) as l. clear. intros l. induction l as [|kv l IH]; [done|].
  rewrite fmap_cons, parse_param, IH. done.
Qed.

(** Parameters survive the query string: encoding any list of parameters,
    whatever bytes their names and values hold, and parsing the result gives
    the same list in the same order. *)
Theorem query_roundtrip (q : list (gostr * gostr)) : ParseQuery (Encode q) = Some q.
Proof. apply parse_encode. Qed.

(** ** Targets round trip *)
Record wf_target (t : Target) : Prop := WfTarget {
  wft_agent : t_agent t <> "";
  wft_agent_slash : "/"%char ∉ t_agent t;
  wft_agent_mark : "?"%char ∉ t_agent t;
  wft_rest : "?"%char ∉ t_rest t;
  wft_policy : t_policy t = PolicyFallback \/ t_policy t = PolicyStrict \/ t_policy t = PolicyBroadcast;
}.

Definition path_text (t : Target) : gostr := t_agent t ++ (if bool_decide (t_rest t = "") then [] else "/" ++ t_rest t).

Lemma path_parse t opts : wf_target t ->
  target_path (path_text t) opts = Some (MkTarget (t_agent t) (t_rest t) opts.1 opts.2).
Proof.
  intros [Hne Hs _ _ _]. unfold target_path, path_text. case_bool_decide as Hr.
  - rewrite app_nil_r, cut_none by done. rewrite bool_decide_false by done. by rewrite Hr.
  - cbn [app]. rewrite cut_app by done. by rewrite bool_decide_false.
Qed.

Lemma path_no_mark t : wf_target t -> "?"%char ∉ path_text t.
Proof.
  intros [_ _ Ha Hr _]. unfold path_text. apply not_elem_of_app. split; [done|].
  case_bool_decide; [set_solver|]. by apply not_elem_of_cons.
Qed.

Lemma options_parse t : wf_target t -> target_params t <> [] ->
  target_options (Encode (target_params t)) = Some (t_create t, t_policy t).
Proof.
  intros [_ _ _ _ Hp] Hne. unfold target_options. rewrite parse_encode.
  destruct t as [agent rest create policy]. cbn [t_create t_policy] in *.
  destruct create, Hp as [->|[->| ->]]; try done.
Qed.

Lemma ParseTarget_string t : wf_target t -> ParseTarget (target_string t) = Some t.
Proof.
  intros Hw. assert (target_string t = path_text t ++ match target_params t with [] => [] | ps => "?" ++ Encode ps end) as ->.
  { unfold target_string, path_text. by rewrite app_assoc. }
  pose proof (path_no_mark t Hw) as Hm. unfold ParseTarget. destruct (target_params t) as [|p ps] eqn:Ep.
  - rewrite app_nil_r. rewrite (proj2 (index_byte_None _ _) Hm), path_parse by done.
    destruct t as [agent rest create policy]. unfold target_params in Ep. destruct Hw as [_ _ _ _ Hp].
    cbn [t_agent t_rest t_create t_policy] in *. destruct create; [|done]. by destruct Hp as [->|[->| ->]].
  - cbn [app]. rewrite index_byte_app by done. rewrite take_app_length.
    change ("?"%char :: Encode (p :: ps)) with (["?"%char] ++ Encode (p :: ps)). rewrite app_assoc.
    rewrite drop_app_length' by (rewrite length_app; cbn; lia).
    rewrite <- Ep, options_parse by (done || by rewrite Ep). cbn. rewrite path_parse by done. by destruct t.
Qed.

Lemma policy_valid s p : ParsePolicy s = Some p -> p = PolicyFallback \/ p = PolicyStrict \/ p = PolicyBroadcast.
Proof.
  unfold ParsePolicy. destruct (in_table _ s) eqn:E; [|done]. intros [= <-]. apply in_table_spec in E. set_solver.
Qed.

Lemma ParseTarget_wf s t : ParseTarget s = Some t -> wf_target t.
Proof.
  assert (forall raw opts, (("?"%char : ascii) ∉ raw) ->
    (opts.2 = PolicyFallback \/ opts.2 = PolicyStrict \/ opts.2 = PolicyBroadcast) ->
    target_path raw opts = Some t -> wf_target t) as Hpath.
  { intros raw opts Hm Hp H. unfold target_path in H. destruct (cut "/" raw) as [[agent rest] f] eqn:E.
    apply cut_parts in E as [Ha E]. case_bool_decide as Hne; [done|]. injection H as <-.
    split; cbn [t_agent t_rest t_policy]; try done; destruct f; [subst raw|destruct E as [-> ->]|subst raw|destruct E as [-> ->]];
      set_solver. }
  unfold ParseTarget. destruct (index_byte "?"%char s) as [i|] eqn:Ei.
  - apply index_byte_Some in Ei as (u & Hs & Hi & Hn). destruct (target_options _) as [opts|] eqn:Eo; [|done].
    cbn. apply Hpath; [done|]. unfold target_options in Eo. destruct (ParseQuery _) as [q|]; [|done]. cbn in Eo.
    case_bool_decide; [injection Eo as <-; by left|].
    destruct (ParsePolicy _) as [p|] eqn:Ep; [|done]. injection Eo as <-. by apply policy_valid in Ep.
  - apply index_byte_None in Ei. apply Hpath; [done|by left].
Qed.

(** The canonical form is canonical: the targets that survive printing and
    parsing are exactly the well-formed ones (an agent without "/" or "?", a
    rest without "?", a known policy), and whatever text a target was parsed
    from, with its options in any spelling, printing it gives a text that
    parses back to it. *)
Theorem target_roundtrip (t : Target) (s : gostr) :
  (wf_target t <-> ParseTarget (target_string t) = Some t)
  /\ (ParseTarget s = Some t -> wf_target t /\ ParseTarget (target_string t) = Some t).
Proof.
  split; [split; [apply ParseTarget_string|apply ParseTarget_wf]|].
  intros H%ParseTarget_wf. split; [done|by apply ParseTarget_string].
Qed.

(** ** What the ladder reaches *)
Section Ladder.
Context (scan : forall A : Type, list A -> list A) (unicode_lower : gostr -> gostr).
Hypothesis scan_perm : forall A (l : list A), scan A l ≡ₚ l.

Abbreviation run := (Resolve scan unicode_lower).

Lemma segment_agent a rest : good_segment a -> AgentIDFromKey (a ++ "/" ++ rest) = a.
Proof.
  intros [Hne Hs]. unfold AgentIDFromKey. cbn [app]. rewrite index_byte_app by done.
  destruct a as [|c a]; [done|]. cbn [length]. exact (take_app_length (c :: a) ("/"%char :: rest)).
Qed.

Lemma chat_key_agent a c : good_segment a -> AgentIDFromKey (NewChatSessionKey a c) = a.
Proof. intros H. unfold NewChatSessionKey, String_. by rewrite segment_agent. Qed.

Lemma keyed_agent x k r : keyed x -> sessions x !! k = Some r -> AgentIDFromKey k = agent_id r.
Proof.
  intros Hx Hr. specialize (Hx k r Hr). cbn in Hx. unfold columns, keyColumns in Hx.
  destruct (ParseSessionKey k) as [sk|] eqn:E; [rewrite (AgentID_parsed _ _ E)|]; by injection Hx.
Qed.

Lemma default_agent a p x : good_segment a -> keyed x ->
  let key := DefaultSessionKeyForAgentOn scan a p x in key <> "" -> AgentIDFromKey key = a.
Proof.
  intros Ha Hx. assert (forall c next, (next <> "" -> AgentIDFromKey next = a) ->
    chat_or a c next <> "" -> AgentIDFromKey (chat_or a c next) = a) as Hor.
  { intros c next Hn. unfold chat_or. destruct c as [c|]; [|done]. destruct (c =? 0); [done|]. intros _. by apply chat_key_agent. }
  assert (default "" (active_root scan a x) <> "" -> AgentIDFromKey (default "" (active_root scan a x)) = a) as Hroot.
  { pose proof (active_root_spec scan scan_perm a x) as H. destruct (active_root scan a x) as [key|]; [|done].
    destruct H as (r & [Hr He] & _). intros _. cbn. rewrite (keyed_agent _ _ _ Hx Hr). unfold root_eligible in He.
    destruct (bool_decide (agent_id r = a)) eqn:E; [|done]. by apply bool_decide_eq_true in E. }
  cbv zeta. unfold DefaultSessionKeyForAgentOn. case_bool_decide; repeat apply Hor; done.
Qed.

(** The chats whose stored session key overrides their own stay with the agent. *)
Definition overrides_owned (x : Index) : Prop := forall a p c v,
  chats x !! (a, p, c, "session_key") = Some v -> v = "" \/ AgentIDFromKey v = a.

Lemma distinct_elem keys : forall seen k, k ∈ distinct seen keys -> k ∈ keys.
Proof.
  induction keys as [|k' keys IH]; intros seen k; cbn [distinct]; [done|]. case_decide.
  - intros Hk%IH. by constructor.
  - intros [->|Hk%IH]%elem_of_cons; by constructor.
Qed.

Lemma alias_key_chat a s x key : ResolveChatAlias scan unicode_lower a s x = AliasKey key ->
  aliasNorm unicode_lower s <> "" /\ exists c v, chats x !! (a, "app", c, "alias") = Some v
    /\ sql_norm v = aliasNorm unicode_lower s /\ key = chat_session_key a "app" x c.
Proof.
  unfold ResolveChatAlias. case_bool_decide as Hb; [done|]. set (keys := _ <$> _).
  destruct (distinct ∅ keys) as [|k [|]] eqn:E; try done. intros [= ->]. split; [done|].
  assert (key ∈ keys) as Hin by (apply (distinct_elem keys ∅); rewrite E; constructor).
  unfold keys in Hin. apply list_elem_of_fmap in Hin as (c & -> & Hc).
  apply list_elem_of_fmap in Hc as ([c' v] & -> & Hc). apply alias_rows_elem in Hc as [H1 H2]; [|done]. by exists c', v.
Qed.

Lemma alias_agent a s x key : good_segment a -> overrides_owned x ->
  ResolveChatAlias scan unicode_lower a s x = AliasKey key -> AgentIDFromKey key = a.
Proof.
  intros Ha Ho (_ & c & v & _ & _ & ->)%alias_key_chat. unfold chat_session_key.
  destruct (chats x !! (a, "app", c, "session_key")) as [w|] eqn:E; cbn.
  - case_bool_decide as Hw; [by apply chat_key_agent|]. by destruct (Ho _ _ _ _ E).
  - by apply chat_key_agent.
Qed.

Lemma named_agent a name key : good_segment a -> NamedIndependentSessionKey a name = Some key -> AgentIDFromKey key = a.
Proof.
  intros Ha. unfold NamedIndependentSessionKey. destruct (ValidateSessionName name); [|done]. intros [= <-].
  unfold String_. by apply segment_agent.
Qed.

(** The platform whose chats an agent's default session is sought on first. *)
Definition preferred (r : Resolver) (agent : gostr) : gostr :=
  match PreferredPlatform r with Some f => f agent | None => "" end.

(** The agent has nothing to be its default session: no chat pinned and not
    ruled out, none live on the platform preferred, no active root session. *)
Definition no_default (agent platform : gostr) (x : Index) : Prop :=
  (forall c, ~ pinned_anywhere scan agent x c) /\ (platform <> "" -> forall c, ~ live scan agent platform x c)
  /\ forall key row, ~ root_session scan agent x key row.

Definition no_chat_zero (agent : gostr) (x : Index) : Prop := forall p, ~ flagged "is_default" agent p x 0.

Lemma ladder_end a p x : good_segment a -> keyed x -> ladder scan a p x "" -> no_default a p x.
Proof.
  intros Ha Hx H. assert (forall c, NewChatSessionKey a c <> "") as Hc.
  { intros c E. pose proof (chat_key_agent a c Ha) as Ec. rewrite E in Ec. subst a. by destruct Ha. }
  inversion H as [c ? ? E|c ? ? ? E|c ? ? E|key r Hl Hp [Hr He] _ E|Hl Hp Hr E]; try by destruct (Hc c).
  - subst key. pose proof (keyed_agent _ _ _ Hx Hr) as Ea. unfold root_eligible in He.
    destruct (bool_decide (agent_id r = a)) eqn:Eb; [|done]. apply bool_decide_eq_true in Eb. subst a.
    destruct Ha as [Ha _]. by rewrite <- Ea in Ha.
  - done.
Qed.

(** What a resolution by each rung says of the index. *)
Definition rung_holds (r : Resolver) (t : Target) (x : Index) (res : Resolution) : Prop :=
  match r_rung res with
  | RungExact => SessionExists (r_key res) x = true /\ t_rest t <> ""
      /\ (r_key res = t_agent t ++ "/" ++ t_rest t \/ r_key res = t_rest t)
  | RungNamed => SessionExists (r_key res) x = true /\ NamedIndependentSessionKey (t_agent t) (t_rest t) = Some (r_key res)
  | RungAlias => exists c v, chats x !! (t_agent t, "app", c, "alias") = Some v
      /\ sql_norm v = aliasNorm unicode_lower (t_rest t) /\ r_key res = chat_session_key (t_agent t) "app" x c
  | RungDefault => t_rest t = "" /\ r_key res <> ""
      /\ r_key res = DefaultSessionKeyForAgentOn scan (t_agent t) (preferred r (t_agent t)) x
      /\ (no_chat_zero (t_agent t) x -> ladder scan (t_agent t) (preferred r (t_agent t)) x (r_key res))
  | RungCreated =>
      (t_rest t = "" /\ (exists f, CreateDefault r = Some f /\ f (t_agent t) = Some (r_key res))
          /\ DefaultSessionKeyForAgentOn scan (t_agent t) (preferred r (t_agent t)) x = ""
          /\ (no_chat_zero (t_agent t) x -> no_default (t_agent t) (preferred r (t_agent t)) x))
      \/ (t_create t = true /\ NamedIndependentSessionKey (t_agent t) (t_rest t) = Some (r_key res)
          /\ SessionExists (r_key res) x = false /\ SessionExists (t_agent t ++ "/" ++ t_rest t) x && bool_decide (is_Some (ParseSessionKey (t_agent t ++ "/" ++ t_rest t))) = false
          /\ ResolveChatAlias scan unicode_lower (t_agent t) (t_rest t) x = AliasNotFound)
  end.

Lemma full_key_agent t : good_segment (t_agent t) -> t_rest t <> "" -> AgentIDFromKey (full_key t) = t_agent t.
Proof.
  intros Ha Hr. unfold full_key, full_form. destruct (ParseSessionKey (t_rest t)) as [k|] eqn:E; [|by apply segment_agent].
  case_bool_decide as Hk; [|by apply segment_agent]. by rewrite (AgentID_parsed _ _ E).
Qed.


Lemma literal_parse r x a s : r_index r = Some x -> good_segment a -> ("?"%char ∉ a) -> s <> "" ->
  ResolveChatAlias scan unicode_lower a s x <> AliasNotFound ->
  ParseTargetWith scan unicode_lower r (a ++ "/" ++ s) = Some (MkTarget a s true PolicyFallback).
Proof.
  intros Hi [Hne Hs] Hm Hs' Hal. unfold ParseTargetWith. rewrite Hi. cbn [app]. rewrite contains_one, cut_app by done.
  rewrite !bool_decide_false by done. cbn [negb andb]. destruct (mem_byte _ _) eqn:Em.
  - by destruct (ResolveChatAlias _ _ _ _ _).
  - assert ("?"%char ∉ (a ++ "/"%char :: s)) as Hn by (by rewrite <- mem_byte_spec, Em).
    unfold ParseTarget. rewrite (proj2 (index_byte_None _ _) Hn). unfold target_path. rewrite cut_app by done.
    by rewrite bool_decide_false.
Qed.

(** A chat is reachable by the alias it was given.  Once an ASCII alias is
    accepted for a chat of the app, the text "agent/alias", in any case, with
    blanks around and whatever "?" it contains, is parsed by the resolver as
    that alias and resolves to the chat's session, unless the agent has a
    session of that very key or name. *)
Theorem alias_routes (a alias s : gostr) (c : Z) (x x' : Index) (r : Resolver) :
  good_segment a -> ("?"%char ∉ a) -> ascii_text alias = true -> trim_space alias <> "" ->
  SetChatAliasUnique scan unicode_lower a "app" c alias x = Some x' -> r_index r = Some x' ->
  aliasNorm unicode_lower s = aliasNorm unicode_lower alias ->
  let t := MkTarget a s true PolicyFallback in
  full_form t = false ->
  SessionExists (a ++ "/" ++ s) x' = false -> SessionExists (a ++ "/i" ++ s) x' = false ->
  ParseTargetWith scan unicode_lower r (a ++ "/" ++ s) = Some t
  /\ run r t = inr (MkResolution (chat_session_key a "app" x c) RungAlias PolicyFallback).
Proof.
  intros Ha Hm Hascii Hne Hset Hi Hs t Hf He Hn.
  pose proof (alias_set scan unicode_lower scan_perm a alias c x Hascii Hne) as H. rewrite Hset in H.
  destruct H as [_ H]. specialize (H s Hs).
  assert (s <> "") as Hs'.
  { intros ->. apply Hne. rewrite norm_ascii in Hs by done. unfold sql_norm in Hs. rewrite trim_spaces_trimmed in Hs.
    by destruct (trim_space alias). }
  split; [by apply (literal_parse r x'); [..|by rewrite H]|].
  unfold Resolve. cbn [t t_agent t_rest t_policy]. rewrite (bool_decide_false (a = "")) by (by destruct Ha).
  rewrite (bool_decide_false (PolicyFallback = "")) by done. rewrite (bool_decide_false (s = "")) by done.
  assert (full_key t = a ++ "/" ++ s) as Hk by (unfold full_key; by rewrite Hf). fold t. rewrite Hk, Hf.
  unfold exists_in. rewrite Hi, He, andb_false_r. unfold resolve_name. cbn [t t_agent t_rest t_create].
  destruct (NamedIndependentSessionKey a s) as [named|] eqn:En.
  - assert (named = a ++ "/i" ++ s) as ->.
    { unfold NamedIndependentSessionKey in En. destruct (ValidateSessionName s); [|done]. injection En as <-.
      unfold String_. cbn. by rewrite app_nil_r. }
    unfold exists_in. by rewrite Hi, Hn, H.
  - by rewrite Hi, H.
Qed.

End Ladder.

(** A delivery has a connection exactly when it is not [DeliveryNone]; a strict
    one only ever uses the session's own. *)
Lemma ConnFor_honest {conn} (cm : ConnectionManager conn) agentID sessionKey policy c out :
  ConnFor (Some cm) agentID sessionKey policy = (c, out) ->
  (c = None <-> out = DeliveryNone)
  /\ (out = DeliveredToSession <-> is_Some (ForSession cm sessionKey))
  /\ (policy = PolicyStrict -> c = ForSession cm sessionKey).
Proof.
  unfold ConnFor. destruct (ForSession cm sessionKey) as [c'|].
  { intros [= <- <-]. by split_and!; [split|split; eauto|]. }
  case_bool_decide as Hp; [intros [= <- <-]; split_and!; [done|split; [done|by intros []]|done]|].
  destruct (ForSessionOrPrimary cm sessionKey agentID); intros [= <- <-]; (split_and!; [done|split; [done|by intros []]|done]).
Qed.

(** ** The theorems at work *)
Definition ex_resolver : Resolver := MkResolver (Some ex_index) None None.


Definition ex_aliased : Index := SetChatMetadata "main" "app" 3 "alias" "What next?" ex_chats.

Lemma ex_aliased_set : SetChatAliasUnique scan_all ascii_lower "main" "app" 3 "What next?" ex_chats = Some ex_aliased.
Proof.
  unfold SetChatAliasUnique. replace (trim_space "What next?") with ("What next?" : gostr) by (by vm_compute).
  rewrite bool_decide_false by done. rewrite bool_decide_false; [done|].
  intros ([c v] & Hin & _)%Exists_exists. apply alias_rows_elem in Hin as [Hv Hn]; [|apply scan_all_perm].
  revert Hv Hn. unfold ex_chats. cbn [chats SetChatMetadata set_chats empty_index]. rewrite !lookup_insert, lookup_empty.
  repeat case_decide; intros [= <-]; by vm_compute.
Qed.

Lemma alias_routes_witness :
  let r := MkResolver (Some ex_aliased) None None in
  let t := MkTarget "main" "WHAT NEXT?" true PolicyFallback in
  ParseTargetWith scan_all ascii_lower r ("main" ++ "/" ++ "WHAT NEXT?") = Some t
  /\ Resolve scan_all ascii_lower r t
     = inr (MkResolution (chat_session_key "main" "app" ex_chats 3) RungAlias PolicyFallback).
Proof.
  apply (alias_routes scan_all ascii_lower scan_all_perm "main" "What next?" "WHAT NEXT?" 3 ex_chats ex_aliased
           (MkResolver (Some ex_aliased) None None)).
  - split; [done|apply (bool_decide_eq_true_1 _); reflexivity].
  - apply (bool_decide_eq_true_1 _); reflexivity.
  - done.
  - by vm_compute.
  - apply ex_aliased_set.
  - done.
  - by vm_compute.
  - by vm_compute.
  - unfold SessionExists. assert (sessions ex_aliased = ∅) as -> by reflexivity. by rewrite lookup_empty.
  - unfold SessionExists. assert (sessions ex_aliased = ∅) as -> by reflexivity. by rewrite lookup_empty.
Defined.

(** The canonical text of a target whose rest is an alias with a "?" is only read
    back by the resolver that knows the alias. *)
Lemma literal_alias_string :
  let t := MkTarget "main" "what next?" true PolicyFallback in
  target_string t = "main/what next?" /\ ParseTarget (target_string t) = Some (MkTarget "main" "what next" true PolicyFallback).
Proof. split; reflexivity. Qed.
