(* ===== verification/GoText.v ===== *)
(** * More of the Go library: words, replacement, base64url

    [strings.Fields], [strings.ReplaceAll], the rune tests of [unicode/utf8],
    and [base64.RawURLEncoding], with the facts the hook components use. *)
From S2P Require Import Prelude GoStrings.

(** ** [strings.Fields]

    The words between runs of white space.  A rune that [unicode.IsSpace]
    accepts is found by its encoding, as in [trim_space]; [skip] counts the
    remaining bytes of such a rune. *)
Definition emit (w : gostr) (ws : list gostr) : list gostr :=
  match w with [] => ws | _ => w :: ws end.

Fixpoint fields_from (skip : nat) (cur s : gostr) : list gostr :=
  match s with
  | [] => emit cur []
  | c :: s' =>
      match skip with
      | S skip => fields_from skip cur s'
      | O =>
          match leading_encoding space_encodings (c :: s') with
          | O => fields_from 0 (cur ++ [c]) s'
          | S k => emit cur (fields_from k [] s')
          end
      end
  end.

Definition Fields (s : gostr) : list gostr := fields_from 0 [] s.

(** [strings.ReplaceAll] of a non-empty text: the leftmost occurrence, then on
    behind it. *)
Fixpoint replace_from (old new : gostr) (skip : nat) (s : gostr) : gostr :=
  match s with
  | [] => []
  | c :: s' =>
      match skip with
      | S skip => replace_from old new skip s'
      | O => if has_prefix old (c :: s') then new ++ replace_from old new (length old - 1) s'
             else c :: replace_from old new 0 s'
      end
  end.

Definition ReplaceAll (s old new : gostr) : gostr := replace_from old new 0 s.

(** [utf8.RuneStart]: the byte is not a continuation byte. *)
Definition RuneStart (c : ascii) : bool := negb (N.land (N_of_ascii c) 192 =? 128)%N.

(** The number of bytes of the rune that starts [s], as [utf8.DecodeRune] tells
    it, and 0 for an invalid byte. *)
Definition rune_width (s : gostr) : nat :=
  let cont c := byte_in "128"%char "191"%char c in
  match s with
  | [] => 0
  | a :: s =>
      if byte_le a "127"%char then 1
      else if byte_in "194"%char "223"%char a then
        match s with b :: _ => if cont b then 2 else 0 | [] => 0 end
      else if byte_in "224"%char "239"%char a then
        let lo := if a =?b "224"%char then "160"%char else "128"%char in
        let hi := if a =?b "237"%char then "159"%char else "191"%char in
        match s with b :: c :: _ => if byte_in lo hi b && cont c then 3 else 0 | _ => 0 end
      else if byte_in "240"%char "244"%char a then
        let lo := if a =?b "240"%char then "144"%char else "128"%char in
        let hi := if a =?b "244"%char then "143"%char else "191"%char in
        match s with b :: c :: d :: _ => if byte_in lo hi b && cont c && cont d then 4 else 0 | _ => 0 end
      else 0
  end.

(** [utf8.ValidString]. *)
Fixpoint valid_from (skip : nat) (s : gostr) : bool :=
  match s, skip with
  | [], _ => true
  | _ :: s, S skip => valid_from skip s
  | _ :: s', O => match rune_width s with S k => valid_from k s' | O => false end
  end.

Definition ValidString (s : gostr) : bool := valid_from 0 s.

(** ** [base64.RawURLEncoding] *)
Definition url_alphabet : gostr :=
  "ABCDEFGHIJKLMNOPQRSTUVWXYZabcdefghijklmnopqrstuvwxyz0123456789-_".

Definition sextet (n : N) : ascii := nth (N.to_nat n) url_alphabet "A"%char.
Definition sextet_value (c : ascii) : option N := N.of_nat <$> index_byte c url_alphabet.

Fixpoint EncodeToString (s : gostr) : gostr :=
  match s with
  | a :: b :: c :: s' =>
      let v := (65536 * N_of_ascii a + 256 * N_of_ascii b + N_of_ascii c)%N in
      sextet (v / 262144) :: sextet (v / 4096 mod 64) :: sextet (v / 64 mod 64) :: sextet (v mod 64)
      :: EncodeToString s'
  | [a; b] =>
      let v := (65536 * N_of_ascii a + 256 * N_of_ascii b)%N in
      [sextet (v / 262144); sextet (v / 4096 mod 64); sextet (v / 64 mod 64)]
  | [a] =>
      let v := (65536 * N_of_ascii a)%N in [sextet (v / 262144); sextet (v / 4096 mod 64)]
  | [] => []
  end.

(** Four sextets hold three bytes; without padding, two hold one byte and three
    hold two, and one is an error.  The unused low bits are not looked at. *)
Fixpoint decode_quanta (vs : list N) : option gostr :=
  match vs with
  | a :: b :: c :: d :: vs' =>
      let v := (262144 * a + 4096 * b + 64 * c + d)%N in
      app [ascii_of_N (v / 65536); ascii_of_N (v / 256 mod 256); ascii_of_N (v mod 256)]
      <$> decode_quanta vs'
  | [a; b; c] =>
      let v := (262144 * a + 4096 * b + 64 * c)%N in
      Some [ascii_of_N (v / 65536); ascii_of_N (v / 256 mod 256)]
  | [a; b] => let v := (262144 * a + 4096 * b)%N in Some [ascii_of_N (v / 65536)]
  | [_] => None
  | [] => Some []
  end.

(** New lines are skipped. *)
Definition line_break (c : ascii) : bool := mem_byte c ["010"%char; "013"%char].

Definition DecodeString (s : gostr) : option gostr :=
  vs ← mapM sextet_value (filter (fun c => line_break c = false) s); decode_quanta vs.

(** ** Words *)

Definition no_space (c : ascii) : Prop := leading_encoding space_encodings [c] = 0.

Lemma leading_none_byte c s : leading_encoding space_encodings (c :: s) = 0 -> no_space c.
Proof.
  unfold no_space. rewrite leading_encoding_0 by apply space_encodings_ne. intros H.
  rewrite leading_encoding_0 by apply space_encodings_ne.
  eapply Forall_impl; [exact H|]. intros e He. destruct e as [|x [|y e]]; [done| |].
  - cbn in *. by destruct (x =?b c).
  - cbn. by destruct (x =?b c).
Qed.

Lemma emit_words w ws (P : gostr -> Prop) :
  (w <> [] -> P w) -> Forall P ws -> Forall P (emit w ws).
Proof. intros. destruct w; [done|]. constructor; auto. Qed.

Lemma fields_from_words skip cur s : Forall no_space cur ->
  Forall (fun w => w <> [] /\ Forall no_space w) (fields_from skip cur s).
Proof.
  revert skip cur. induction s as [|c s IH]; intros skip cur Hc; cbn [fields_from].
  - by apply emit_words.
  - destruct skip as [|skip]; [|by apply IH].
    destruct (leading_encoding _ _) eqn:E.
    + apply IH, Forall_app; split; [done|]. constructor; [|done]. by eapply leading_none_byte.
    + apply emit_words; [done|]. by apply IH.
Qed.

(** Every word is non-empty and free of white space. *)
Lemma Fields_words s : Forall (fun w => w <> [] /\ Forall no_space w) (Fields s).
Proof. by apply fields_from_words. Qed.

Definition words_size (ws : list gostr) : nat := sum_list (S ∘ length <$> ws).

Lemma fields_from_size skip cur s : words_size (fields_from skip cur s) <= S (length cur + length s).
Proof.
  unfold words_size. revert skip cur. induction s as [|c s IH]; intros skip cur; cbn [fields_from].
  - destruct cur; cbn; lia.
  - destruct skip as [|skip].
    + destruct (leading_encoding _ _) as [|k].
      * etrans; [apply IH|]. rewrite length_app. cbn. lia.
      * specialize (IH k []). destruct cur; cbn in *; lia.
    + etrans; [apply IH|]. cbn. lia.
Qed.

Lemma length_join c ws : length (join [c] ws) = words_size ws - 1.
Proof.
  unfold words_size. induction ws as [|w ws IH]; [done|]. destruct ws as [|w' ws]; [cbn; lia|].
  cbn [join] in *. rewrite !length_app, IH. cbn. lia.
Qed.

(** Collapsing white space never lengthens a text. *)
Lemma length_collapsed s : length (join " " (Fields s)) <= length s.
Proof.
  rewrite (length_join " "%char). unfold Fields.
  pose proof (fields_from_size 0 [] s). cbn in *. lia.
Qed.

(** ** base64url *)

Lemma sextet_roundtrip n : (n < 64)%N -> sextet_value (sextet n) = Some n.
Proof.
  intros Hn.
  assert (H : forallb (fun k => bool_decide (sextet_value (sextet (N.of_nat k)) = Some (N.of_nat k)))
                (seq 0 64) = true) by (vm_compute; reflexivity).
  rewrite forallb_forall in H. specialize (H (N.to_nat n)).
  rewrite in_seq in H. rewrite N2Nat.id in H. eapply bool_decide_eq_true_1, H; lia.
Qed.

Lemma sextet_plain n : line_break (sextet n) = false /\ sextet n ∈ url_alphabet.
Proof.
  unfold sextet. destruct (decide (N.to_nat n < 64)) as [Hn|Hn].
  - assert (H : nth (N.to_nat n) url_alphabet "A"%char ∈ url_alphabet) by (apply list_elem_of_In, nth_In; exact Hn).
    split; [|done].
    assert (Ha : forallb (fun c => negb (line_break c)) url_alphabet = true) by (vm_compute; reflexivity).
    rewrite forallb_forall in Ha. apply list_elem_of_In, Ha in H. by apply negb_true_iff.
  - rewrite nth_overflow by (cbn; lia). split; [done|]. by left.
Qed.

Lemma list_ind3 {A} (P : list A -> Prop) :
  P [] -> (forall a, P [a]) -> (forall a b, P [a; b]) ->
  (forall a b c l, P l -> P (a :: b :: c :: l)) -> forall l, P l.
Proof.
  intros H0 H1 H2 H3 l. induction l as [l IH] using (induction_ltof1 _ length).
  unfold ltof in IH. destruct l as [|a [|b [|c l]]]; auto. apply H3, IH. cbn. lia.
Qed.

(** Every byte of an encoding is a letter, a digit, [-] or [_]. *)
Lemma EncodeToString_plain s : Forall (fun c => c ∈ url_alphabet) (EncodeToString s).
Proof.
  induction s as [|a|a b|a b c s IH] using list_ind3; cbn [EncodeToString];
    repeat (constructor; [apply sextet_plain|]); done.
Qed.

Lemma N_of_ascii_lt a : (N_of_ascii a < 256)%N.
Proof. apply N_ascii_bounded. Qed.

Lemma filter_all {A} (P : A -> Prop) `{!forall x, Decision (P x)} (l : list A) :
  Forall P l -> filter P l = l.
Proof. induction 1 as [|x l Hx _ IH]; [done|]. by rewrite filter_cons_True, IH. Qed.

Lemma DecodeString_quanta s vs : Forall (fun c => line_break c = false) s ->
  mapM sextet_value s = Some vs -> DecodeString s = decode_quanta vs.
Proof. intros Hs Hv. unfold DecodeString. by rewrite filter_all, Hv. Qed.

(** The sextets of an encoding, and that they fit six bits. *)
Fixpoint encode_values (s : gostr) : list N :=
  match s with
  | a :: b :: c :: s' =>
      let v := (65536 * N_of_ascii a + 256 * N_of_ascii b + N_of_ascii c)%N in
      [v / 262144; v / 4096 mod 64; v / 64 mod 64; v mod 64]%N ++ encode_values s'
  | [a; b] =>
      let v := (65536 * N_of_ascii a + 256 * N_of_ascii b)%N in
      [v / 262144; v / 4096 mod 64; v / 64 mod 64]%N
  | [a] => let v := (65536 * N_of_ascii a)%N in [v / 262144; v / 4096 mod 64]%N
  | [] => []
  end.

Ltac bytes_lia := repeat match goal with a : ascii |- _ =>
    let H := fresh in pose proof (N_of_ascii_lt a) as H;
    generalize dependent (N_of_ascii a); clear a; intros end;
  zify; Z.to_euclidean_division_equations; lia.

Lemma encode_values_lt s : Forall (fun v => (v < 64)%N) (encode_values s).
Proof.
  induction s as [|a|a b|a b c s IH] using list_ind3; cbn [encode_values]; cbn zeta;
    rewrite ?Forall_app, ?Forall_cons, ?Forall_nil; repeat split; auto; bytes_lia.
Qed.

Lemma EncodeToString_values s : EncodeToString s = sextet <$> encode_values s.
Proof.
  induction s as [|a|a b|a b c s IH] using list_ind3; cbn [EncodeToString encode_values]; try done.
  by rewrite IH.
Qed.

Lemma ascii_of_N_back a n : n = N_of_ascii a -> ascii_of_N n = a.
Proof. intros ->. apply ascii_N_embedding. Qed.

Lemma decode_encode_values s : decode_quanta (encode_values s) = Some s.
Proof.
  induction s as [|a|a b|a b c s IH] using list_ind3; cbn [encode_values decode_quanta app]; cbn zeta;
    [done| | |rewrite IH; cbn]; repeat f_equal; apply ascii_of_N_back; bytes_lia.
Qed.

(** Decoding an encoding gives the text back. *)
Lemma DecodeString_Encode s : DecodeString (EncodeToString s) = Some s.
Proof.
  rewrite EncodeToString_values, (DecodeString_quanta _ (encode_values s)).
  - apply decode_encode_values.
  - apply Forall_fmap, Forall_true. intros n. apply sextet_plain.
  - apply mapM_fmap_Forall_Some. eapply Forall_impl; [apply encode_values_lt|]. apply sextet_roundtrip.
Qed.

(** ** First occurrences *)

(** The list without the later occurrences of an element. *)
Definition firsts `{EqDecision A} (l : list A) : list A := reverse (remove_dups (reverse l)).

Lemma firsts_snoc `{EqDecision A} (l : list A) x : firsts (l ++ [x]) = if bool_decide (x ∈ l) then firsts l else firsts l ++ [x].
Proof.
  unfold firsts. rewrite reverse_snoc. cbn [remove_dups].
  destruct (decide_rel _ _ _) as [H|H]; rewrite elem_of_reverse in H; case_bool_decide; try done.
  by rewrite reverse_cons.
Qed.

Lemma elem_of_firsts `{EqDecision A} (l : list A) x : x ∈ firsts l <-> x ∈ l.
Proof. unfold firsts. by rewrite elem_of_reverse, elem_of_remove_dups, elem_of_reverse. Qed.

Lemma firsts_nil `{EqDecision A} (l : list A) : firsts l = [] <-> l = [].
Proof.
  split; [|by intros ->]. destruct l as [|x l]; [done|]. intros H.
  assert (Hx : x ∈ firsts (x :: l)) by (apply elem_of_firsts; by left). rewrite H in Hx.
  by apply elem_of_nil in Hx.
Qed.

Lemma NoDup_firsts `{EqDecision A} (l : list A) : NoDup (firsts l).
Proof. unfold firsts. rewrite reverse_Permutation. apply NoDup_remove_dups. Qed.
