(* ===== verification/StopRule.v ===== *)
(** * Stop rules (src/internal/delegator/stoprule)

    The rules behind the Stop hook: a turn that ends by announcing work is
    blocked when a rule matches its final text and the turn's transcript shows
    no background job.  stoprule.go: rules, their validation, the first match,
    the reason and the command-line encoding.  turn.go: the scan of the
    transcript and the verdict.  [regexp], [encoding/json] and the file system
    are parameters. *)
From S2P Require Import Prelude GoStrings GoText.

(** ** Rules (stoprule.go) *)
Definition quote : ascii := "034"%char.

Definition MatchPlaceholder : gostr := "{match}".

Definition DefaultReason : gostr :=
  "Your reply says you are starting something (" ++ [quote] ++ MatchPlaceholder ++ [quote]
  ++ "), but nothing is running. Start it now, or say plainly that it is deferred.".

Record Rule := MkRule {
  Name : gostr;
  Text : list gostr;
  Reason : gostr;
  Enabled : option bool;
}.

Record Hit := MkHit { h_Rule : Rule; h_Match : gostr }.

Definition maxMatchInReason : nat := 120.

(** The cut moves back to the start of a rune. *)
Fixpoint rune_floor (s : gostr) (max : nat) : nat :=
  match max with
  | O => O
  | S m => if RuneStart (nth max s " "%char) then max else rune_floor s m
  end.

Definition Excerpt (s : gostr) (max : nat) : gostr :=
  let s := join " " (Fields s) in
  if length s <=? max then s else take (rune_floor s max) s ++ "…".

Definition ReasonFor (h : Hit) : gostr :=
  let reason := if bool_decide (Reason (h_Rule h) = []) then DefaultReason else Reason (h_Rule h) in
  ReplaceAll reason MatchPlaceholder (Excerpt (h_Match h) maxMatchInReason).

(** What [ValidateLayer] reports. *)
Inductive invalid :=
| NameRequired (i : nat)
| DuplicateName (name : gostr)
| TextRequired (name : gostr)
| EmptyPattern (name : gostr)
| BadPattern (name pattern : gostr).

(** A compiled regular expression, as its [FindStringIndex]. *)
Definition regexp : Type := gostr -> option (nat * nat).

Section Rules.
Context (compile : gostr -> option regexp).

Fixpoint validate_patterns (name : gostr) (pats : list gostr) : option invalid :=
  match pats with
  | [] => None
  | pat :: pats =>
      if bool_decide (pat = []) then Some (EmptyPattern name)
      else match compile pat with
           | None => Some (BadPattern name pat)
           | Some _ => validate_patterns name pats
           end
  end.

Fixpoint validate_loop (i : nat) (seen : gset gostr) (rules : list Rule) : option invalid :=
  match rules with
  | [] => None
  | r :: rules =>
      if bool_decide (Name r = []) then Some (NameRequired i)
      else if bool_decide (Name r ∈ seen) then Some (DuplicateName (Name r))
      else if bool_decide (Text r = []) then Some (TextRequired (Name r))
      else match validate_patterns (Name r) (Text r) with
           | Some e => Some e
           | None => validate_loop (S i) ({[ Name r ]} ∪ seen) rules
           end
  end.

Definition ValidateLayer (rules : list Rule) : option invalid := validate_loop 0 ∅ rules.

Definition disabled (r : Rule) : bool := bool_decide (Enabled r = Some false).

Definition resolve_step (acc : list Rule * list invalid) (r : Rule) : list Rule * list invalid :=
  if disabled r then acc
  else match ValidateLayer [r] with
       | Some e => (acc.1, acc.2 ++ [e])
       | None => (acc.1 ++ [r], acc.2)
       end.

Definition Resolve (layer : list Rule) : list Rule * list invalid :=
  fold_left resolve_step layer ([], []).

Fixpoint match_patterns (pats : list gostr) (text : gostr) : option gostr :=
  match pats with
  | [] => None
  | pat :: pats =>
      match compile pat with
      | None => match_patterns pats text
      | Some re =>
          match re text with
          | Some (from, to) => Some (take (to - from) (drop from text))
          | None => match_patterns pats text
          end
      end
  end.

Fixpoint Match (rules : list Rule) (text : gostr) : option Hit :=
  match rules with
  | [] => None
  | r :: rules =>
      match match_patterns (Text r) text with
      | Some m => Some (MkHit r m)
      | None => Match rules text
      end
  end.
End Rules.

(** *** The hook's command line: base64url over [encoding/json]. *)
Definition Encode (marshal : list Rule -> option gostr) (rules : list Rule) : option gostr :=
  EncodeToString <$> marshal rules.

Definition Decode (unmarshal : gostr -> option (list Rule)) (s : gostr) : option (list Rule) :=
  body ← DecodeString s; unmarshal body.

(** ** The transcript (turn.go) *)
Definition ErrTurnNotFound : gostr := "turn start not found in transcript".

(** A [json.RawMessage] is its text, empty when the field is absent. *)
Record transcriptEntry := MkEntry {
  Type_ : gostr;
  PromptID : gostr;
  IsSidechain : bool;
  Content : gostr;
  ToolUseResult : gostr;
}.

Record contentBlock := MkBlock { b_Type : gostr; ID : gostr; ToolUseID : gostr; b_Input : gostr }.

Record backgroundResult := MkBackground {
  BackgroundTaskID : gostr; Status : gostr; IsAsync : bool }.

Definition launched (r : backgroundResult) : bool :=
  negb (bool_decide (BackgroundTaskID r = [])) || IsAsync r
  || bool_decide (Status r = "async_launched").

(** The four uses of [json.Unmarshal]; [None] is an error. *)
Class TranscriptJSON := {
  decode_entry : gostr -> option transcriptEntry;
  decode_blocks : gostr -> option (list contentBlock);
  decode_run_in_background : gostr -> option bool;
  decode_result : gostr -> option backgroundResult;
}.

(** What a reader yields: its bytes, then end of file or an error. *)
Record reader := MkReader { r_bytes : gostr; r_err : option gostr }.

(** The results of [ReadBytes('\n')] up to and including the one that comes
    with the error: every line with its new line, then the rest. *)
Fixpoint read_lines (cur s : gostr) : list gostr :=
  match s with
  | [] => [cur]
  | c :: s' =>
      if (c =?b "010"%char) then (cur ++ [c]) :: read_lines [] s' else read_lines (cur ++ [c]) s'
  end.

(** The scan's variables: [inTurn], [seen] and [ids]. *)
Record scan_state := MkScan { inTurn : bool; seen : gset gostr; ids : list gostr }.

Definition add (id : gostr) (s : scan_state) : scan_state :=
  if bool_decide (id ∈ seen s) then s
  else MkScan (inTurn s) ({[ id ]} ∪ seen s) (ids s ++ [id]).

Section Turn.
Context `{!TranscriptJSON}.

Definition scan_use (b : contentBlock) (s : scan_state) : scan_state :=
  if negb (bool_decide (b_Type b = "tool_use")) then s
  else match decode_run_in_background (b_Input b) with
       | Some true => add (ID b) s
       | _ => s
       end.

Definition scan_result (b : contentBlock) (s : scan_state) : scan_state :=
  if bool_decide (b_Type b = "tool_result") then add (ToolUseID b) s else s.

Definition scanEntry (e : transcriptEntry) (s : scan_state) : scan_state :=
  match decode_blocks (Content e) with
  | None => s
  | Some blocks =>
      if bool_decide (Type_ e = "assistant") then fold_left (flip scan_use) blocks s
      else if bool_decide (Type_ e = "user") then
        if bool_decide (ToolUseResult e = []) then s
        else match decode_result (ToolUseResult e) with
             | None => s
             | Some res =>
                 if negb (launched res) then s else fold_left (flip scan_result) blocks s
             end
      else s
  end.

Definition starts (promptID : gostr) (e : transcriptEntry) : bool :=
  bool_decide (Type_ e = "user") && bool_decide (PromptID e = promptID).

Definition scan_line (promptID : gostr) (s : scan_state) (line : gostr) : scan_state :=
  if bool_decide (line = []) then s
  else if inTurn s || contains promptID line then
    match decode_entry line with
    | None => s
    | Some e =>
        if IsSidechain e then s
        else
          let s := if negb (inTurn s) && starts promptID e then MkScan true (seen s) (ids s) else s in
          if inTurn s then scanEntry e s else s
    end
  else s.

(** [inl ids], or [inr err]. *)
Definition TurnLaunches (r : reader) (promptID : gostr) : list gostr + gostr :=
  if bool_decide (promptID = []) then inr ErrTurnNotFound
  else
    let s := fold_left (scan_line promptID) (read_lines [] (r_bytes r)) (MkScan false ∅ []) in
    match r_err r with
    | Some e => inr e
    | None => if inTurn s then inl (ids s) else inr ErrTurnNotFound
    end.

(** *** The verdict *)
Record Input := MkInput {
  in_Text : gostr;
  StopHookActive : bool;
  TranscriptPath : gostr;
  in_PromptID : gostr;
}.

Inductive Result := ResultPass | ResultFire | ResultPassLaunched | ResultPassActive | ResultPassError.

(** The values as logged. *)
Definition Result_text (r : Result) : gostr :=
  match r with
  | ResultPass => "pass"
  | ResultFire => "fire"
  | ResultPassLaunched => "pass_launched"
  | ResultPassActive => "pass_active"
  | ResultPassError => "pass_error"
  end.

Record Verdict := MkVerdict {
  v_Result : Result;
  v_Rule : gostr;
  v_Excerpt : gostr;
  Launches : nat;
  v_Reason : gostr;
  Err : gostr;
}.

Definition Block (v : Verdict) : bool := bool_decide (Result_text (v_Result v) = "fire").

Definition maxExcerpt : nat := 160.

(** The cut at the front moves on to the start of a rune. *)
Fixpoint rune_ceiling (s : gostr) : gostr :=
  match s with
  | [] => []
  | c :: s' => if RuneStart c then s else rune_ceiling s'
  end.

Definition tail (s : gostr) (max : nat) : gostr :=
  let s := Excerpt s (length s) in
  if length s <=? max then s
  else "…" ++ rune_ceiling (drop (length s - max) s).

(** [os.Open]: the reader of the file, or the error. *)
Context (open : gostr -> reader + gostr).

Definition readLaunches (path promptID : gostr) : list gostr + gostr :=
  if bool_decide (path = []) then inr "no transcript_path in the Stop payload"
  else match open path with
       | inr e => inr e
       | inl f => TurnLaunches f promptID
       end.

Definition Evaluate (compile : gostr -> option regexp) (rules : list Rule) (i : Input) : Verdict :=
  match Match compile rules (in_Text i) with
  | None => MkVerdict ResultPass [] (tail (in_Text i) maxExcerpt) 0 [] []
  | Some hit =>
      let v res n reason err :=
        MkVerdict res (Name (h_Rule hit)) (Excerpt (h_Match hit) maxExcerpt) n reason err in
      if StopHookActive i then v ResultPassActive 0 [] []
      else match readLaunches (TranscriptPath i) (in_PromptID i) with
           | inr e => v ResultPassError 0 [] e
           | inl ids =>
               if 0 <? length ids then v ResultPassLaunched (length ids) [] []
               else v ResultFire 0 (ReasonFor hit) []
           end
  end.
End Turn.

(** ** The transcript scan against the whole transcript *)

(** The ids an entry launches, in order. *)
Definition use_launch `{!TranscriptJSON} (b : contentBlock) : option gostr :=
  if bool_decide (b_Type b = "tool_use" /\ decode_run_in_background (b_Input b) = Some true)
  then Some (ID b) else None.

Definition result_launch (b : contentBlock) : option gostr :=
  if bool_decide (b_Type b = "tool_result") then Some (ToolUseID b) else None.

Definition entry_launches `{!TranscriptJSON} (e : transcriptEntry) : list gostr :=
  match decode_blocks (Content e) with
  | None => []
  | Some blocks =>
      if bool_decide (Type_ e = "assistant") then omap use_launch blocks
      else if bool_decide (Type_ e = "user" /\ ToolUseResult e <> []
                /\ (launched <$> decode_result (ToolUseResult e)) = Some true)
      then omap result_launch blocks else []
  end.

(** The main-chain entries of a transcript, and those from the turn's prompt on. *)
Definition line_entry `{!TranscriptJSON} (line : gostr) : option transcriptEntry :=
  if bool_decide (line = []) then None
  else e ← decode_entry line; if IsSidechain e then None else Some e.

Fixpoint turn_from (promptID : gostr) (es : list transcriptEntry) : list transcriptEntry :=
  match es with
  | [] => []
  | e :: es' => if starts promptID e then es else turn_from promptID es'
  end.

Definition turn_entries `{!TranscriptJSON} (r : reader) (promptID : gostr) : list transcriptEntry :=
  turn_from promptID (omap line_entry (read_lines [] (r_bytes r))).

(** The scan's state once the ids [l] were added. *)
Definition added (b : bool) (l : list gostr) : scan_state := MkScan b (list_to_set l) (firsts l).

Lemma add_added b l id : add id (added b l) = added b (l ++ [id]).
Proof.
  unfold add, added. cbn [seen ids inTurn]. rewrite firsts_snoc.
  assert (Hs : (list_to_set (l ++ [id]) : gset gostr) = {[ id ]} ∪ list_to_set l)
    by (rewrite list_to_set_app_L; set_solver).
  destruct (decide (id ∈ l)).
  - rewrite !bool_decide_true by (rewrite ?elem_of_list_to_set; done). f_equal. set_solver.
  - rewrite !bool_decide_false by (rewrite ?elem_of_list_to_set; done). by rewrite Hs.
Qed.

Lemma fold_added {A} (step : scan_state -> A -> scan_state) (out : A -> list gostr) b :
  (forall l a, step (added b l) a = added b (l ++ out a)) ->
  forall xs l, fold_left step xs (added b l) = added b (l ++ flat_map out xs).
Proof.
  intros H xs. induction xs as [|x xs IH]; intros l; cbn [fold_left flat_map].
  - by rewrite app_nil_r.
  - by rewrite H, IH, (assoc_L (++)).
Qed.

Lemma flat_map_omap {A B} (f : A -> option B) l : flat_map (fun a => option_list (f a)) l = omap f l.
Proof. induction l as [|a l IH]; [done|]. cbn. rewrite IH. by destruct (f a). Qed.

Section Scan.
Context `{!TranscriptJSON}.

Lemma scanEntry_added b l e : scanEntry e (added b l) = added b (l ++ entry_launches e).
Proof.
  unfold scanEntry, entry_launches. destruct (decode_blocks _) as [blocks|]; [|by rewrite app_nil_r].
  case_bool_decide as Ha.
  - rewrite <- flat_map_omap. apply fold_added. intros l' u. cbv [flip]. unfold scan_use, use_launch.
    destruct (decide (b_Type u = "tool_use")); [rewrite bool_decide_true by done|].
    + cbn [negb]. destruct (decode_run_in_background _) as [[]|]; cbn;
        rewrite ?bool_decide_true, ?bool_decide_false by naive_solver; cbn;
        by rewrite ?add_added, ?app_nil_r.
    + rewrite !bool_decide_false by naive_solver. cbn. by rewrite app_nil_r.
  - destruct (decide (Type_ e = "user")); [rewrite bool_decide_true by done|].
    + destruct (decide (ToolUseResult e = [])) as [E|E].
      { rewrite bool_decide_true, bool_decide_false by naive_solver. by rewrite app_nil_r. }
      rewrite (bool_decide_false (ToolUseResult e = [])) by done.
      destruct (decode_result _) as [res|]; cbn.
      2: { rewrite bool_decide_false by naive_solver. by rewrite app_nil_r. }
      destruct (launched res) eqn:El; cbn.
      2: { rewrite bool_decide_false by naive_solver. by rewrite app_nil_r. }
      rewrite bool_decide_true by done. rewrite <- flat_map_omap. apply fold_added.
      intros l' u. cbv [flip]. unfold scan_result, result_launch.
      case_bool_decide; cbn; by rewrite ?add_added, ?app_nil_r.
    + rewrite !bool_decide_false by naive_solver. by rewrite app_nil_r.
Qed.

Lemma scan_line_in_turn pid l line :
  scan_line pid (added true l) line
  = added true (l ++ default [] (entry_launches <$> line_entry line)).
Proof.
  unfold scan_line, line_entry. case_bool_decide; cbn [inTurn added orb]; [by rewrite app_nil_r|].
  destruct (decode_entry line) as [e|]; cbn; [|by rewrite app_nil_r].
  destruct (IsSidechain e); cbn; [by rewrite app_nil_r|]. apply scanEntry_added.
Qed.

Lemma scan_in_turn pid lines l :
  fold_left (scan_line pid) lines (added true l)
  = added true (l ++ flat_map entry_launches (omap line_entry lines)).
Proof.
  revert l. induction lines as [|line lines IH]; intros l; cbn [fold_left omap list_omap].
  - by rewrite app_nil_r.
  - rewrite scan_line_in_turn, IH, <- (assoc_L (++)). destruct (line_entry line); cbn; done.
Qed.

(** Lines without the prompt's id are not decoded: no entry of the prompt is
    lost by that when the id is written out verbatim. *)
Definition id_verbatim (pid : gostr) (lines : list gostr) : Prop :=
  forall line e, line ∈ lines -> decode_entry line = Some e -> PromptID e = pid ->
  contains pid line = true.

Lemma scan_line_before pid line :
  (forall e, decode_entry line = Some e -> PromptID e = pid -> contains pid line = true) ->
  scan_line pid (added false []) line
  = match line_entry line with
    | Some e => if starts pid e then added true (entry_launches e) else added false []
    | None => added false []
    end.
Proof.
  intros Hv. unfold scan_line, line_entry. case_bool_decide; cbn [inTurn added orb]; [done|].
  destruct (decode_entry line) as [e|]; cbn; [|by destruct (contains _ _)].
  destruct (IsSidechain e); cbn; [by destruct (contains _ _)|].
  destruct (starts pid e) eqn:E.
  - assert (Hp : PromptID e = pid) by (unfold starts in E; by apply andb_true_iff in E as [_ ->%bool_decide_eq_true]).
    rewrite (Hv e) by done. apply (scanEntry_added true []).
  - by destruct (contains _ _).
Qed.

Lemma scan_before pid lines : id_verbatim pid lines ->
  fold_left (scan_line pid) lines (added false [])
  = match turn_from pid (omap line_entry lines) with
    | [] => added false []
    | es => added true (flat_map entry_launches es)
    end.
Proof.
  induction lines as [|line lines IH]; intros Hv; [done|]. cbn [fold_left omap list_omap].
  rewrite scan_line_before by (intros e; apply (Hv line); by left).
  assert (Hl : id_verbatim pid lines) by (intros l e Hl; apply Hv; by right).
  destruct (line_entry line) as [e|]; [|by apply IH]. cbn [turn_from].
  destruct (starts pid e); [|by apply IH]. by rewrite scan_in_turn.
Qed.

Lemma TurnLaunches_turn r pid : pid <> [] -> id_verbatim pid (read_lines [] (r_bytes r)) ->
  TurnLaunches r pid
  = match r_err r with
    | Some e => inr e
    | None => match turn_entries r pid with
              | [] => inr ErrTurnNotFound
              | es => inl (firsts (flat_map entry_launches es))
              end
    end.
Proof.
  intros Hp Hv. unfold TurnLaunches, turn_entries. rewrite bool_decide_false by done.
  change (MkScan false ∅ []) with (added false []). rewrite scan_before by done.
  destruct (r_err r); [done|]. by destruct (turn_from _ _).
Qed.

(** The scan of a transcript, which skips undecoded every line that cannot
    start the turn, finds exactly the background jobs of the whole transcript:
    the first occurrences, in order, of the ids launched by the main-chain
    entries from the prompt's own entry on, or an error when the transcript has
    no such entry or could not be read.  The prompt's id must be written out
    verbatim in the lines that carry it. *)
Theorem turn_launches_exact (r : reader) (pid : gostr) :
  pid <> [] -> id_verbatim pid (read_lines [] (r_bytes r)) ->
  TurnLaunches r pid
  = match r_err r with
    | Some e => inr e
    | None => match turn_entries r pid with
              | [] => inr ErrTurnNotFound
              | es => inl (firsts (flat_map entry_launches es))
              end
    end.
Proof. apply TurnLaunches_turn. Qed.
End Scan.

(** ** The verdict *)

Lemma Block_fire v : Block v = true <-> v_Result v = ResultFire.
Proof. unfold Block. rewrite bool_decide_eq_true. by destruct (v_Result v). Qed.

(** A stop is blocked exactly when a rule matches the final text, the stop
    does not already follow a block, the transcript can be read to its end and
    holds the prompt's entry, and no entry of the turn launched a background
    job; the verdict then names the first matching rule and carries its reason.
    Every failure to read lets the turn end. *)
Theorem stop_blocks `{!TranscriptJSON} (open : gostr -> reader + gostr)
    (compile : gostr -> option regexp) (rules : list Rule) (i : Input) :
  in_PromptID i <> [] ->
  (forall r, open (TranscriptPath i) = inl r ->
    id_verbatim (in_PromptID i) (read_lines [] (r_bytes r))) ->
  (Block (Evaluate open compile rules i) = true <->
   exists hit r es,
     Match compile rules (in_Text i) = Some hit /\ StopHookActive i = false
     /\ TranscriptPath i <> [] /\ open (TranscriptPath i) = inl r /\ r_err r = None
     /\ turn_entries r (in_PromptID i) = es /\ es <> [] /\ flat_map entry_launches es = [])
  /\ (forall hit, Match compile rules (in_Text i) = Some hit ->
      Block (Evaluate open compile rules i) = true ->
      Evaluate open compile rules i
      = MkVerdict ResultFire (Name (h_Rule hit)) (Excerpt (h_Match hit) maxExcerpt) 0 (ReasonFor hit) []).
Proof.
  intros Hp Hv. rewrite Block_fire. unfold Evaluate, readLaunches. split; [split|].
  - destruct (Match _ _ _) as [hit|]; [|done]. destruct (StopHookActive i) eqn:Ha; [done|].
    case_bool_decide as Et; [done|]. destruct (open _) as [r|e] eqn:Eo; [|done].
    rewrite TurnLaunches_turn by auto. destruct (r_err r) eqn:Er; [done|].
    destruct (turn_entries _ _) as [|e es] eqn:Ee; [done|].
    destruct (firsts _) as [|x l] eqn:Ef; [|done]. intros _.
    exists hit, r, (e :: es). split_and!; try done. by apply firsts_nil.
  - intros (hit & r & es & -> & -> & Ht & Ho & Er & He & Hes & Hl).
    rewrite bool_decide_false, Ho, TurnLaunches_turn by auto. rewrite Er, He.
    destruct es as [|e es]; [done|]. by rewrite Hl.
  - intros hit ->. destruct (StopHookActive i); [done|]. case_bool_decide; [done|].
    destruct (open _); [|done]. destruct (TurnLaunches _ _) as [[|]|]; done.
Qed.

(** ** Excerpts *)

Lemma rune_floor_spec s max :
  rune_floor s max <= max
  /\ (rune_floor s max = 0 \/ RuneStart (nth (rune_floor s max) s " "%char) = true)
  /\ (forall j, rune_floor s max < j <= max -> RuneStart (nth j s " "%char) = false).
Proof.
  induction max as [|m IH]; cbn [rune_floor]; [split_and!; auto; lia|].
  destruct (RuneStart (nth (S m) s " "%char)) eqn:E; [split_and!; auto; lia|].
  destruct IH as (H1 & H2 & H3). split_and!; [lia|done|]. intros j Hj.
  destruct (decide (j = S m)) as [->|]; [done|]. apply H3. lia.
Qed.

Lemma length_rune_ceiling s : length (rune_ceiling s) <= length s.
Proof. induction s as [|c s IH]; cbn; [lia|]. destruct (RuneStart c); cbn; lia. Qed.

(** An excerpt is the text with its white space collapsed (non-empty words
    without white space, joined by single spaces), whole when it fits and
    otherwise cut at the last position of at most [max] that does not split a
    rune, with a mark; so it is never longer than [max] and the mark, and the
    logged tail neither, which is never cut twice. *)
Theorem excerpt_bounded (s : gostr) (max : nat) :
  let t := join " " (Fields s) in
  Forall (fun w => w <> [] /\ Forall no_space w) (Fields s)
  /\ (length t <= max -> Excerpt s max = t)
  /\ (max < length t -> exists k, Excerpt s max = take k t ++ "…" /\ k <= max
        /\ (k = 0 \/ RuneStart (nth k t " "%char) = true)
        /\ (forall j, k < j <= max -> RuneStart (nth j t " "%char) = false))
  /\ length (Excerpt s max) <= max + 3
  /\ Excerpt s (length s) = t
  /\ length (tail s max) <= max + 3.
Proof.
  cbn zeta. split; [apply Fields_words|]. unfold tail, Excerpt.
  pose proof (length_collapsed s) as Hs. revert Hs. generalize (join " " (Fields s)). intros t Hs.
  pose proof (rune_floor_spec t max) as (H1 & H2 & H3).
  rewrite (proj2 (Nat.leb_le (length t) (length s))) by done.
  destruct (Nat.leb_spec (length t) max) as [Hl|Hl]; split_and!; try (intros; lia); try done; try lia.
  - intros _. by exists (rune_floor t max).
  - rewrite length_app, length_take. cbn. lia.
  - rewrite length_app. pose proof (length_rune_ceiling (drop (length t - max) t)) as H.
    rewrite length_drop in H. cbn in *. lia.
Qed.

(** ** Resolution and the first match *)
Section Resolve.
Context (compile : gostr -> option regexp).

Definition well_formed (r : Rule) : Prop :=
  Name r <> [] /\ Text r <> [] /\ Forall (fun p => p <> [] /\ is_Some (compile p)) (Text r).

Lemma validate_patterns_ok name pats :
  validate_patterns compile name pats = None <-> Forall (fun p => p <> [] /\ is_Some (compile p)) pats.
Proof.
  induction pats as [|p pats IH]; cbn [validate_patterns]; [done|]. rewrite Forall_cons, <- IH.
  case_bool_decide; [naive_solver|]. destruct (compile p); naive_solver.
Qed.

Lemma validate_one r : ValidateLayer compile [r] = None <-> well_formed r.
Proof.
  unfold ValidateLayer, well_formed. cbn [validate_loop]. rewrite <- (validate_patterns_ok (Name r)).
  case_bool_decide; [naive_solver|]. rewrite (bool_decide_false (_ ∈ ∅)) by set_solver.
  case_bool_decide; [naive_solver|]. destruct (validate_patterns _ _ _); naive_solver.
Qed.

#[export] Instance well_formed_dec r : Decision (well_formed r).
Proof.
  refine (cast_if (decide (ValidateLayer compile [r] = None))); by rewrite <- validate_one.
Defined.

Lemma resolve_fold layer acc :
  fold_left (resolve_step compile) layer acc
  = (acc.1 ++ filter (fun r => Enabled r <> Some false /\ well_formed r) layer,
     acc.2 ++ omap (fun r => if disabled r then None else ValidateLayer compile [r]) layer).
Proof.
  revert acc. induction layer as [|r layer IH]; intros [rs sk]; cbn [fold_left omap list_omap].
  - by rewrite !app_nil_r.
  - rewrite IH. unfold resolve_step, disabled. rewrite filter_cons. case_bool_decide as Hd.
    + by rewrite decide_False by naive_solver.
    + pose proof (validate_one r) as Hv. destruct (ValidateLayer compile [r]) as [e|]; cbn.
      * rewrite decide_False by naive_solver. by rewrite <- (assoc_L (++)).
      * rewrite decide_True by naive_solver. by rewrite <- (assoc_L (++)).
Qed.

Lemma match_patterns_find pats text m : match_patterns compile pats text = Some m <->
  exists before pat after re from to, pats = before ++ pat :: after /\ compile pat = Some re
    /\ re text = Some (from, to) /\ m = take (to - from) (drop from text)
    /\ Forall (fun p => forall re, compile p = Some re -> re text = None) before.
Proof.
  induction pats as [|p pats IH]; cbn [match_patterns].
  { split; [done|]. by intros ([|? ?] & ? & ? & ? & ? & ? & [=] & _). }
  assert (Hskip : (forall re, compile p = Some re -> re text = None) ->
    match_patterns compile pats text = Some m <->
    exists before pat after re from to, p :: pats = before ++ pat :: after /\ compile pat = Some re
      /\ re text = Some (from, to) /\ m = take (to - from) (drop from text)
      /\ Forall (fun p => forall re, compile p = Some re -> re text = None) before).
  { intros Hp. rewrite IH. split.
    - intros (b & pat & af & re & fr & to & -> & H). exists (p :: b), pat, af, re, fr, to. cbn.
      rewrite Forall_cons. naive_solver.
    - intros ([|q b] & pat & af & re & fr & to & [= -> ->] & H1 & H2 & H3 & H4).
      + rewrite (Hp re) in H2; done.
      + exists b, pat, af, re, fr, to. rewrite Forall_cons in H4. naive_solver. }
  destruct (compile p) as [re|] eqn:Ec; [|by apply Hskip; intros ? [=]].
  destruct (re text) as [[fr to]|] eqn:Er; [|apply Hskip; naive_solver]. split.
  - intros [= <-]. exists [], p, pats, re, fr, to. naive_solver.
  - intros ([|q b] & pat & af & re' & fr' & to' & [= -> ->] & H1 & H2 & H3 & H4).
    + naive_solver.
    + rewrite Forall_cons in H4. destruct H4 as [H4 _]. by rewrite (H4 re) in Er.
Qed.

Lemma Match_cons r rules text : Match compile (r :: rules) text
  = match match_patterns compile (Text r) text with
    | Some m => Some (MkHit r m)
    | None => Match compile rules text
    end.
Proof. done. Qed.

Lemma Match_first rules text hit : Match compile rules text = Some hit <->
  exists before after, rules = before ++ h_Rule hit :: after
    /\ Forall (fun r => match_patterns compile (Text r) text = None) before
    /\ match_patterns compile (Text (h_Rule hit)) text = Some (h_Match hit).
Proof.
  induction rules as [|r rules IH].
  { split; [done|]. by intros ([|? ?] & ? & [=] & _). }
  rewrite Match_cons. destruct (match_patterns compile (Text r) text) as [m|] eqn:E.
  - split.
    + intros [= <-]. by exists [], rules.
    + intros ([|q b] & af & [= -> ->] & Hb & Hm).
      * destruct hit. cbn in *. naive_solver.
      * rewrite Forall_cons in Hb. naive_solver.
  - rewrite IH. split.
    + intros (b & af & -> & Hb & Hm). exists (r :: b), af. by rewrite Forall_cons.
    + intros ([|q b] & af & [= -> ->] & Hb & Hm); [congruence|].
      exists b, af. rewrite Forall_cons in Hb. naive_solver.
Qed.

(** Resolving a layer keeps, in order, exactly the enabled rules that are
    valid on their own, and reports the others; a layer that passes validation
    loses nothing but its disabled rules.  On a resolved set every pattern
    compiles, and the hook's match is the leftmost match of the first pattern
    that matches in the first rule that has one. *)
Theorem resolve_exact (layer : list Rule) (text : gostr) :
  (Resolve compile layer).1 = filter (fun r => Enabled r <> Some false /\ well_formed r) layer
  /\ (Resolve compile layer).2
     = omap (fun r => if disabled r then None else ValidateLayer compile [r]) layer
  /\ (ValidateLayer compile layer = None -> (Resolve compile layer).2 = [])
  /\ Forall (fun r => Forall (fun p => p <> [] /\ is_Some (compile p)) (Text r)) (Resolve compile layer).1
  /\ forall hit, Match compile (Resolve compile layer).1 text = Some hit <->
       exists before after b pat a re from to,
         (Resolve compile layer).1 = before ++ h_Rule hit :: after
         /\ Text (h_Rule hit) = b ++ pat :: a /\ compile pat = Some re /\ re text = Some (from, to)
         /\ h_Match hit = take (to - from) (drop from text)
         /\ Forall (fun p => forall re, compile p = Some re -> re text = None) b
         /\ Forall (fun r => match_patterns compile (Text r) text = None) before.
Proof.
  unfold Resolve. rewrite resolve_fold. cbn [fst snd app]. split_and!; [done|done| | |].
  - assert (H : forall i seen, validate_loop compile i seen layer = None ->
      omap (fun r => if disabled r then None else ValidateLayer compile [r]) layer = []); [|apply H].
    induction layer as [|r layer IH]; intros i seen H; [done|]. cbn [validate_loop] in H.
    repeat (case_bool_decide; [done|]). destruct (validate_patterns _ _ _) eqn:E; [done|].
    cbn [omap list_omap]. assert (Hr : ValidateLayer compile [r] = None).
    { apply validate_one. split_and!; [done|done|]. by eapply validate_patterns_ok. }
    rewrite Hr. destruct (disabled r); by eapply IH.
  - apply Forall_forall. intros r [[_ (_ & _ & H)] _]%list_elem_of_filter. exact H.
  - intros hit. rewrite Match_first. setoid_rewrite match_patterns_find. naive_solver.
Qed.
End Resolve.

(** The hook's argument decodes to the rules that were encoded, when
    [json.Unmarshal] inverts [json.Marshal] on them, and every byte of it is a
    letter, a digit, [-] or [_], so no shell gives it a meaning. *)
Theorem rules_roundtrip (marshal : list Rule -> option gostr) (unmarshal : gostr -> option (list Rule))
    (wire : Rule -> Rule) (rules : list Rule) (body : gostr) :
  marshal rules = Some body -> unmarshal body = Some (wire <$> rules) ->
  exists arg, Encode marshal rules = Some arg /\ Decode unmarshal arg = Some (wire <$> rules)
    /\ Forall (fun c => c ∈ url_alphabet) arg.
Proof.
  intros Hm Hu. exists (EncodeToString body). unfold Encode, Decode. rewrite Hm, DecodeString_Encode.
  split_and!; [done|exact Hu|apply EncodeToString_plain].
Qed.

(** ** Witnesses: a transcript of four entries *)
Definition demo_lines : list (gostr * transcriptEntry) :=
  [("p0 user", MkEntry "user" "p0" false "" ""); ("noise", MkEntry "attachment" "" false "" "");
   ("p1 user", MkEntry "user" "p1" false "" "");
   ("side", MkEntry "user" "p1" true "calls" ""); ("call", MkEntry "assistant" "" false "calls" "");
   ("done p1", MkEntry "user" "p1" false "results" "async")].

Definition demo_json : TranscriptJSON := {|
  decode_entry line := table_get demo_lines (trim_space line);
  decode_blocks c := if bool_decide (c = "calls") then Some [MkBlock "tool_use" "t1" "" "plain"; MkBlock "text" "" "" ""]
    else if bool_decide (c = "results") then Some [MkBlock "tool_result" "" "t1" ""] else None;
  decode_run_in_background c := Some (bool_decide (c = "background"));
  decode_result c := Some (MkBackground "" (if bool_decide (c = "async") then "async_launched" else "") false);
|}.

Definition nl : gostr := ["010"%char].
Definition demo_quiet : gostr :=
  "p0 user" ++ nl ++ "noise" ++ nl ++ "p1 user" ++ nl ++ "call" ++ nl.

(** A rule set with one pattern, found at the start of the text. *)
Definition demo_compile (p : gostr) : option regexp :=
  Some (fun text => if has_prefix p text then Some (0, length p) else None).
Definition demo_rule : Rule := MkRule "starting" ["starting"] "" None.
Definition demo_input : Input := MkInput "starting the build" false "/t.jsonl" "p1".

Lemma demo_verbatim s : s = demo_quiet \/ s = demo_quiet ++ "done p1" ->
  @id_verbatim demo_json "p1" (read_lines [] s).
Proof.
  intros Hs line e Hl He Hp.
  assert (H : forallb (fun l => match @decode_entry demo_json l with
                | Some e => negb (bool_decide (PromptID e = "p1")) || contains "p1" l
                | None => true end) (read_lines [] s) = true)
    by (destruct Hs as [-> | ->]; vm_compute; reflexivity).
  rewrite forallb_forall in H. apply list_elem_of_In, H in Hl. rewrite He, Hp in Hl.
  by rewrite bool_decide_true in Hl.
Qed.

Lemma turn_launches_exact_witness :
  @TurnLaunches demo_json (MkReader (demo_quiet ++ "done p1") None) "p1" = inl ["t1"].
Proof.
  rewrite (@turn_launches_exact demo_json _ "p1"); [vm_compute; reflexivity|done|].
  apply demo_verbatim. by right.
Defined.

Lemma stop_blocks_witness :
  Block (@Evaluate demo_json (fun _ => inl (MkReader demo_quiet None)) demo_compile [demo_rule] demo_input)
  = true.
Proof.
  apply (@stop_blocks demo_json (fun _ => inl (MkReader demo_quiet None)) demo_compile [demo_rule] demo_input);
    [done| |].
  - intros r [= <-]. apply demo_verbatim. by left.
  - exists (MkHit demo_rule "starting"), (MkReader demo_quiet None).
    eexists. split_and!; [reflexivity|done|done|reflexivity|done|reflexivity|vm_compute; done|vm_compute; done].
Defined.

Lemma rules_roundtrip_witness :
  exists arg, Encode (fun _ => Some "[]") [] = Some arg
    /\ Decode (fun _ => Some []) arg = Some ((fun r : Rule => r) <$> [])
    /\ Forall (fun c => c ∈ url_alphabet) arg.
Proof. by apply (rules_roundtrip (fun _ => Some "[]") (fun _ => Some []) (fun r => r) [] "[]"). Defined.
