(* ===== verification/PreShell.v ===== *)
(** * The commands of a Bash call (src/internal/delegator/pretool/shell.go)

    [Parse] lists the simple commands of a script, each with the facts that
    PreToolUse rules decide on: whether it runs in the background or in a child
    shell, whether its output reaches the tool result, the directory it runs in,
    the operator before it and the commands downstream of it.

    The walk threads one mutable walker through the tree.  The pointers it
    copies are modelled as such: shell directories and pipes live in stores and
    are referred to by index, so that a fork is an allocation and a frame is a
    set of references.  The parser and the printer of mvdan.cc/sh are
    parameters. *)
From S2P Require Import Prelude GoStrings GoText ShellAst.

(** ** The syntax tree

    The node kinds that the walk tells apart.  A [Word] is the list of its
    parts; [Other] is any other node, with the children [syntax.Walk] visits. *)
Module Sh.
Inductive BinCmdOperator := AndStmt | OrStmt | Pipe | PipeAll.

#[warnings="-register-all"]
Inductive Node :=
| Stmt (cmd : option Node) (background coprocess : bool) (redirs : list Node)
| Redirect (op : RedirOperator) (n : option gostr) (word : list Node) (hdoc : list Node)
| CallExpr (assigns : list Node) (args : list (list Node))
| BinaryCmd (op : BinCmdOperator) (x y : Node)
| Subshell (stmts : list Node)
| Block (stmts : list Node)
| IfClause (cond then_ : list Node) (else_ : option Node)
| WhileClause (until : bool) (cond do_ : list Node)
| ForClause (loop : Node) (do_ : list Node)
| CaseClause (word : list Node) (items : list (list (list Node) * list Node))
| FuncDecl (body : Node)
| TimeClause (stmt : option Node)
| CoprocClause (stmt : Node)
| Lit (value : gostr)
| SglQuoted (dollar : bool) (value : gostr)
| DblQuoted (parts : list Node)
| ParamExp (p : ParamExpFields) (rest : list Node)
| CmdSubst (stmts : list Node)
| ProcSubst (stmts : list Node)
| Other (rest : list Node).

(** Induction with the hypothesis for every node in the lists of children. *)
Section Induction.
Context (P : Node -> Prop).
Let all := Forall P.
Let each := Forall (Forall P).
Let opt (o : option Node) := forall n, o = Some n -> P n.
Context
  (HStmt : forall c b p r, opt c -> all r -> P (Stmt c b p r))
  (HRedirect : forall o n w h, all w -> all h -> P (Redirect o n w h))
  (HCall : forall a w, all a -> each w -> P (CallExpr a w))
  (HBinary : forall o x y, P x -> P y -> P (BinaryCmd o x y))
  (HSubshell : forall l, all l -> P (Subshell l))
  (HBlock : forall l, all l -> P (Block l))
  (HIf : forall c t e, all c -> all t -> opt e -> P (IfClause c t e))
  (HWhile : forall u c d, all c -> all d -> P (WhileClause u c d))
  (HFor : forall l d, P l -> all d -> P (ForClause l d))
  (HCase : forall w i, all w -> Forall (fun it => each it.1 /\ all it.2) i -> P (CaseClause w i))
  (HFunc : forall b, P b -> P (FuncDecl b))
  (HTime : forall s, opt s -> P (TimeClause s))
  (HCoproc : forall s, P s -> P (CoprocClause s))
  (HLit : forall v, P (Lit v))
  (HSgl : forall d v, P (SglQuoted d v))
  (HDbl : forall l, all l -> P (DblQuoted l))
  (HParam : forall p l, all l -> P (ParamExp p l))
  (HCmdSubst : forall l, all l -> P (CmdSubst l))
  (HProcSubst : forall l, all l -> P (ProcSubst l))
  (HOther : forall l, all l -> P (Other l)).

Fixpoint node_induction (n : Node) : P n :=
  let list_ind := fix go (l : list Node) : all l :=
    match l with [] => Forall_nil_2 _ | n :: l => Forall_cons_2 _ _ _ (node_induction n) (go l) end in
  let each_ind := fix go (l : list (list Node)) : each l :=
    match l with [] => Forall_nil_2 _ | w :: l => Forall_cons_2 _ _ _ (list_ind w) (go l) end in
  let opt_ind := fun (o : option Node) =>
    match o return opt o with
    | None => fun n H => match H with eq_refl => I end
    | Some m => fun n (H : Some m = Some n) =>
        match H in _ = o return match o with Some n => P n | None => True end with
        | eq_refl => node_induction m
        end
    end in
  match n with
  | Stmt c b p r => HStmt c b p r (opt_ind c) (list_ind r)
  | Redirect o n w h => HRedirect o n w h (list_ind w) (list_ind h)
  | CallExpr a w => HCall a w (list_ind a) (each_ind w)
  | BinaryCmd o x y => HBinary o x y (node_induction x) (node_induction y)
  | Subshell l => HSubshell l (list_ind l)
  | Block l => HBlock l (list_ind l)
  | IfClause c t e => HIf c t e (list_ind c) (list_ind t) (opt_ind e)
  | WhileClause u c d => HWhile u c d (list_ind c) (list_ind d)
  | ForClause l d => HFor l d (node_induction l) (list_ind d)
  | CaseClause w i => HCase w i (list_ind w)
      ((fix go (i : list (list (list Node) * list Node)) :
          Forall (fun it => each it.1 /\ all it.2) i :=
        match i with
        | [] => Forall_nil_2 _
        | (ps, b) :: i => Forall_cons_2 _ (ps, b) i (conj (each_ind ps) (list_ind b)) (go i)
        end) i)
  | FuncDecl b => HFunc b (node_induction b)
  | TimeClause s => HTime s (opt_ind s)
  | CoprocClause s => HCoproc s (node_induction s)
  | Lit v => HLit v
  | SglQuoted d v => HSgl d v
  | DblQuoted l => HDbl l (list_ind l)
  | ParamExp p l => HParam p l (list_ind l)
  | CmdSubst l => HCmdSubst l (list_ind l)
  | ProcSubst l => HProcSubst l (list_ind l)
  | Other l => HOther l (list_ind l)
  end.
End Induction.
End Sh.

(** ** Words *)

(** [unescape]: outside double quotes a backslash escapes any byte. *)
Definition dbl_escaped : gostr := ["$"; "`"; "034"; "\"; "010"]%char.

Fixpoint unescape (s : gostr) (inDbl : bool) : gostr :=
  match s with
  | [] => []
  | c :: s' =>
      if c =?b "\"%char then
        match s' with
        | d :: s'' => if negb inDbl || mem_byte d dbl_escaped then d :: unescape s'' inDbl
                      else c :: unescape s' inDbl
        | [] => [c]
        end
      else c :: unescape s' inDbl
  end.

(** [WordSpace], the character shown for white space inside a word. *)
Definition WordSpace : gostr := "␣".

(** [strings.Map] with the walk's function: [WordSpace] for each white-space
    rune, every other rune as it is, U+FFFD for an invalid byte.  [keep] and
    [drop_] count the remaining bytes of a rune. *)
Fixpoint show_from (keep drop_ : nat) (s : gostr) : gostr :=
  match s with
  | [] => []
  | c :: s' =>
      match keep, drop_ with
      | S keep, _ => c :: show_from keep 0 s'
      | O, S drop_ => show_from 0 drop_ s'
      | O, O =>
          match leading_encoding space_encodings (c :: s') with
          | S k => WordSpace ++ show_from 0 k s'
          | O => match rune_width (c :: s') with
                 | S k => c :: show_from k 0 s'
                 | O => "�" ++ show_from 0 0 s'
                 end
          end
      end
  end.

Definition shown (s : gostr) : gostr := show_from 0 0 s.

Section Words.
(** [syntax.Printer.Print] of a part. *)
Context (print : Sh.Node -> gostr).

Fixpoint partText (p : Sh.Node) (inDbl : bool) : gostr :=
  match p with
  | Sh.Lit v => unescape v inDbl
  | Sh.SglQuoted _ v => v
  | Sh.DblQuoted parts => flat_map (fun q => partText q true) parts
  | _ => print p
  end.

Definition wordText (w : list Sh.Node) : gostr := flat_map (fun p => partText p false) w.

(** The plain [$HOME] and [${HOME}]. *)
Definition home_param (p : ParamExpFields) : bool :=
  bool_decide (Param p = Some ("HOME" : gostr))
  && negb (Excl p || Length p || Width p || Index p || Slice p || Repl p || Names p)
  && negb (bool_decide (is_Some (Exp p))).

Fixpoint staticPart (p : Sh.Node) (home : gostr) (inDbl : bool) : option gostr :=
  match p with
  | Sh.Lit v => Some (unescape v inDbl)
  | Sh.SglQuoted dollar v => if dollar then None else Some v
  | Sh.DblQuoted parts =>
      (fix go parts :=
         match parts with
         | [] => Some []
         | q :: parts => match staticPart q home true with
                         | Some t => app t <$> go parts
                         | None => None
                         end
         end) parts
  | Sh.ParamExp p _ => if bool_decide (home = []) || negb (home_param p) then None else Some home
  | _ => None
  end.

Fixpoint static_parts (home : gostr) (inDbl : bool) (parts : list Sh.Node) : option gostr :=
  match parts with
  | [] => Some []
  | q :: parts => match staticPart q home inDbl with
                  | Some t => app t <$> static_parts home inDbl parts
                  | None => None
                  end
  end.

(** The leading unquoted tilde. *)
Definition tilde (home : gostr) (p : Sh.Node) : option gostr :=
  match p with
  | Sh.Lit v => if bool_decide (home = []) then None
                else if bool_decide (v = ("~" : gostr)) || has_prefix "~/" v
                then Some (home ++ unescape (drop 1 v) false) else None
  | _ => None
  end.

Definition staticWord (w : list Sh.Node) (home : gostr) : option gostr :=
  match w with
  | p :: parts =>
      match tilde home p with
      | Some t => app t <$> static_parts home false parts
      | None => static_parts home false w
      end
  | [] => Some []
  end.

Definition redirectsStdout (r : Sh.Node) : bool :=
  match r with
  | Sh.Redirect op n word _ =>
      let to_stdout := match n with Some v => bool_decide (v = ("1" : gostr)) | None => true end in
      match op with
      | RdrAll | AppAll => true
      | RdrOut | AppOut | RdrClob => to_stdout
      | DplOut => to_stdout && negb (bool_decide (staticWord word [] = Some ("2" : gostr)))
      | _ => false
      end
  | _ => false
  end.

(** ** Directories *)

(** One shell's working directory: "" is the call's own. *)
Record shellDir := MkDir { path : gostr; known : bool }.

#[export] Instance shellDir_eq_dec : EqDecision shellDir.
Proof. solve_decision. Defined.

Definition is_cd (name : option gostr) : bool :=
  match name with
  | Some n => in_table ["cd"; "pushd"; "popd"] n
  | None => false
  end.

(** The argument that names the directory. *)
Fixpoint cd_target (args : list (list Sh.Node)) : option (list Sh.Node) :=
  match args with
  | [] => None
  | a :: args =>
      match staticWord a [] with
      | Some s => if bool_decide (s = ("--" : gostr)) then head args
                  else if has_prefix "-" s && negb (bool_decide (s = ("-" : gostr))) then cd_target args
                  else Some a
      | None => Some a
      end
  end.

Definition cd_dest (home name : gostr) (args : list (list Sh.Node)) : option gostr :=
  if bool_decide (name = ("popd" : gostr)) then None
  else match cd_target args with
       | None => if bool_decide (name = ("cd" : gostr)) && negb (bool_decide (home = [])) then Some home else None
       | Some t => dest ← staticWord t home;
                   if bool_decide (dest = ("-" : gostr)) || bool_decide (dest = []) then None else Some dest
       end.

Definition chdir (home : gostr) (args : list (list Sh.Node)) (d : shellDir) : shellDir :=
  match args with
  | [] => d
  | w :: args =>
      match staticWord w [] with
      | None => d
      | Some name =>
          if negb (is_cd (Some name)) then d
          else match cd_dest home name args with
               | None => MkDir (path d) false
               | Some dest =>
                   if is_abs dest then MkDir (clean dest) true
                   else if known d then
                     let p := path_join (path d) dest in
                     MkDir (if bool_decide (p = ("." : gostr)) then [] else p) true
                   else d
               end
      end
  end.

(** ** The walker *)
Record Command := MkCommand {
  Text : gostr;
  Args : list gostr;
  Background : bool;
  Subshell : bool;
  Output : bool;
  Dir : gostr;
  DirKnown : bool;
  Op : gostr;
  Pipe : list gostr;
}.

(** Where standard output goes: the tool result, a pipe of the store, or [nil]
    (a file, [/dev/null], a capture). *)
Inductive sinkRef := toolSink | pipeSink (p : nat) | nilSink.

#[export] Instance sinkRef_eq_dec : EqDecision sinkRef.
Proof. solve_decision. Defined.

(** A pipe: the indexes of the commands that read it, and where their output
    goes in turn. *)
Record sink := MkSink { s_cmds : list nat; s_next : sinkRef }.

(** The context a construct runs in; the directory is a reference. *)
Record frame := MkFrame { f_dir : nat; f_sink : sinkRef; f_subshell : bool; f_background : bool }.

Record walkedCmd := MkWalked { w_cmd : Command; w_sink : sinkRef }.

(** The walker and the stores of the directories and pipes allocated so far. *)
Record walker := MkWalker {
  cmds : list walkedCmd;
  op : gostr;
  pipes : list nat;
  dirs : list shellDir;
  sinks : list sink;
}.

Definition set_op (o : gostr) (w : walker) : walker :=
  MkWalker (cmds w) o (pipes w) (dirs w) (sinks w).
Definition set_pipes (l : list nat) (w : walker) : walker :=
  MkWalker (cmds w) (op w) l (dirs w) (sinks w).
Definition set_dirs (l : list shellDir) (w : walker) : walker :=
  MkWalker (cmds w) (op w) (pipes w) l (sinks w).

(** [fork]: a copy of the directory, allocated. *)
Definition fork (d : nat) (w : walker) : nat * walker :=
  (length (dirs w), set_dirs (dirs w ++ [default (MkDir [] false) (dirs w !! d)]) w).

(** [frame.sub]: a child shell, with its own directory. *)
Definition sub (f : frame) (w : walker) : frame * walker :=
  let '(d, w) := fork (f_dir f) w in (MkFrame d (f_sink f) true (f_background f), w).

Definition with_sink (s : sinkRef) (f : frame) : frame :=
  MkFrame (f_dir f) s (f_subshell f) (f_background f).
Definition in_background (f : frame) : frame := MkFrame (f_dir f) (f_sink f) (f_subshell f) true.
Definition with_dir (d : nat) (f : frame) : frame :=
  MkFrame d (f_sink f) (f_subshell f) (f_background f).

(** A new pipe, whose reading side will write to [next]. *)
Definition new_pipe (next : sinkRef) (w : walker) : nat * walker :=
  (length (sinks w), MkWalker (cmds w) (op w) (pipes w) (dirs w) (sinks w ++ [MkSink [] next])).

Definition command_of (args : list (list Sh.Node)) (f : frame) (d : shellDir) (o : gostr) : Command :=
  MkCommand (join " " (shown ∘ wordText <$> args)) (wordText <$> args)
    (f_background f) (f_subshell f) false (path d) (known d) o [].

(** A command is recorded, and read by every pipe whose reading side is being
    walked. *)
Definition add_reader (idx : nat) (p : nat) (l : list sink) : list sink :=
  alter (fun s => MkSink (s_cmds s ++ [idx]) (s_next s)) p l.

Definition record_call (args : list (list Sh.Node)) (f : frame) (w : walker) : walker :=
  let d := default (MkDir [] false) (dirs w !! f_dir f) in
  MkWalker (cmds w ++ [MkWalked (command_of args f d (op w)) (f_sink f)]) (op w) (pipes w) (dirs w)
    (fold_left (fun l p => add_reader (length (cmds w)) p l) (pipes w) (sinks w)).

Context (home : gostr).

Definition change_dir (args : list (list Sh.Node)) (f : frame) (w : walker) : walker :=
  set_dirs (alter (chdir home args) (f_dir f) (dirs w)) w.

Definition op_text (o : Sh.BinCmdOperator) : gostr :=
  match o with
  | Sh.AndStmt => "&&"
  | Sh.OrStmt => "||"
  | Sh.Pipe => "|"
  | Sh.PipeAll => "|&"
  end.

(** [stmts]: each statement but the first sets the operator before it. *)
Definition asynchronous (st : Sh.Node) : bool :=
  match st with Sh.Stmt _ bg co _ => bg || co | _ => false end.

Definition stmt_list (stmt : Sh.Node -> walker -> walker) : list Sh.Node -> walker -> walker :=
  let fix go (prev : option Sh.Node) (l : list Sh.Node) (w : walker) : walker :=
    match l with
    | [] => w
    | st :: l =>
        let w := match prev with
                 | Some p => set_op (if asynchronous p then "&" else ";") w
                 | None => w
                 end in
        go (Some st) l (stmt st w)
    end in
  go None.

(** [words] over a list of nodes. *)
Definition each (visit : Sh.Node -> walker -> walker) (l : list Sh.Node) (w : walker) : walker :=
  fold_left (fun w n => visit n w) l w.

(** The walk.  [as_command] tells [w.command(n, f)] from [w.words(n, f)]: the
    two differ only on the node kinds that [command] names, which [words]
    searches for substitutions and statements.  A [Stmt] is walked as a
    statement by both, and a substitution only ever by [words]. *)
Fixpoint walk (as_command : bool) (n : Sh.Node) (f : frame) (w : walker) {struct n} : walker :=
  let stmts l f w := stmt_list (fun n => walk true n f) l w in
  let words l f w := each (fun n => walk false n f) l w in
  match n with
  | Sh.Stmt cmd bg co redirs =>
      let '(f, w) := if bg || co then let '(f, w) := sub f w in (in_background f, w) else (f, w) in
      let f := if existsb redirectsStdout redirs then with_sink nilSink f else f in
      let w := match cmd with Some c => walk true c f w | None => w end in
      words redirs f w
  | Sh.CmdSubst l | Sh.ProcSubst l =>
      let '(f, w) := sub f w in stmts l (with_sink nilSink f) w
  | Sh.CallExpr assigns args =>
      let w := words assigns f w in
      if as_command then
        match args with
        | [] => w
        | _ => let w := record_call args f w in
               let w := fold_left (fun w a => each (fun n => walk false n f) a w) args w in
               change_dir args f w
        end
      else fold_left (fun w a => each (fun n => walk false n f) a w) args w
  | Sh.BinaryCmd o x y =>
      if as_command then
        match o with
        | Sh.Pipe | Sh.PipeAll =>
            let '(p, w) := new_pipe (f_sink f) w in
            let '(lf, w) := sub f w in
            let w := walk true x (with_sink (pipeSink p) lf) w in
            let w := set_op (op_text o) w in
            let w := set_pipes (pipes w ++ [p]) w in
            let '(rf, w) := sub f w in
            let w := walk true y rf w in
            set_pipes (removelast (pipes w)) w
        | _ => let w := walk true x f w in
               let w := set_op (op_text o) w in
               walk true y f w
        end
      else walk false y f (walk false x f w)
  | Sh.Subshell l =>
      if as_command then let '(f, w) := sub f w in stmts l f w else words l f w
  | Sh.Block l => if as_command then stmts l f w else words l f w
  | Sh.IfClause cond then_ else_ =>
      if as_command then
        let w := match cond with [] => w | _ => set_op "&&" (stmts cond f w) end in
        let w := stmts then_ f w in
        match else_ with Some e => walk true e f (set_op "||" w) | None => w end
      else
        let w := words then_ f (words cond f w) in
        match else_ with Some e => walk false e f w | None => w end
  | Sh.WhileClause until cond do_ =>
      if as_command then
        stmts do_ f (set_op (if until then "||" else "&&") (stmts cond f w))
      else words do_ f (words cond f w)
  | Sh.ForClause loop do_ =>
      let w := walk false loop f w in
      if as_command then stmts do_ f w else words do_ f w
  | Sh.CaseClause word items =>
      let w := words word f w in
      fold_left (fun w it =>
          let w := fold_left (fun w p => each (fun n => walk false n f) p w) it.1 w in
          if as_command then stmt_list (fun n => walk true n f) it.2 w
          else each (fun n => walk false n f) it.2 w) items w
  | Sh.FuncDecl body =>
      if as_command then
        let '(d, w) := fork (f_dir f) w in walk true body (with_dir d f) w
      else walk false body f w
  | Sh.TimeClause st => match st with Some st => walk as_command st f w | None => w end
  | Sh.CoprocClause st =>
      if as_command then let '(f, w) := sub f w in walk true st (in_background f) w
      else walk false st f w
  | Sh.Redirect _ _ word hdoc => words hdoc f (words word f w)
  | Sh.Lit _ | Sh.SglQuoted _ _ => w
  | Sh.DblQuoted l | Sh.ParamExp _ l | Sh.Other l => words l f w
  end.

Definition stmts (l : list Sh.Node) (f : frame) : walker -> walker := stmt_list (fun n => walk true n f) l.

(** [downstream]: the text of every command reading the pipe, and of every pipe
    after that. *)
Fixpoint downstream (fuel : nat) (all : list walkedCmd) (store : list sink) (s : sinkRef) : list gostr :=
  match fuel, s with
  | S fuel, pipeSink p =>
      match store !! p with
      | Some k => omap (fun i => Text ∘ w_cmd <$> all !! i) (s_cmds k) ++ downstream fuel all store (s_next k)
      | None => []
      end
  | _, _ => []
  end.

Definition finish (all : list walkedCmd) (store : list sink) (c : walkedCmd) : Command :=
  let k := w_cmd c in
  MkCommand (Text k) (Args k) (Background k) (Subshell k) (bool_decide (w_sink c = toolSink))
    (Dir k) (DirKnown k) (Op k)
    (match w_sink c with pipeSink _ => downstream (S (length store)) all store (w_sink c) | _ => [] end).

Record Script := MkScript { Commands : list Command; EndDir : gostr; EndDirKnown : bool }.

(** [Parse] of the parsed statements, and of a script ([None]: not Bash). *)
Definition main_frame : frame := MkFrame 0 toolSink false false.
Definition first_walker : walker := MkWalker [] [] [] [MkDir [] true] [].

Definition script_of (l : list Sh.Node) : Script :=
  let w := stmts l main_frame first_walker in
  let main := default (MkDir [] false) (dirs w !! 0) in
  MkScript (finish (cmds w) (sinks w) <$> cmds w) (path main) (known main).

Definition Parse (parse : gostr -> option (list Sh.Node)) (script : gostr) : option Script :=
  script_of <$> parse script.

(** ** What the facts mean: an attribute semantics

    No stores and no indexes: a construct is given whether it runs in a child
    shell or in the background and where its output goes, the latter with the
    text of everything downstream, and passes on the directory and the operator
    before the next command. *)
Inductive outlet := ToTool | Lost | Piped (texts : list gostr).

Record env := MkEnv { e_subshell : bool; e_background : bool; e_out : outlet }.

Definition child (e : env) : env := MkEnv true (e_background e) (e_out e).
Definition lost (e : env) : env := MkEnv (e_subshell e) (e_background e) Lost.
Definition async (e : env) : env := MkEnv (e_subshell e) true (e_out e).
Definition out_texts (o : outlet) : list gostr := match o with Piped l => l | _ => [] end.

(** The commands of a construct, from the directory and the operator. *)
Definition denotation : Type := shellDir * gostr -> list Command * (shellDir * gostr).

Definition nothing : denotation := fun st => ([], st).
Definition seq_d (r1 r2 : denotation) : denotation := fun st =>
  let '(c1, st) := r1 st in let '(c2, st) := r2 st in (c1 ++ c2, st).
Definition op_d (o : gostr) : denotation := fun st => ([], (st.1, o)).
(** The directory of a child shell is its own. *)
Definition child_d (r : denotation) : denotation := fun st =>
  let '(c, st') := r st in (c, (st.1, st'.2)).
Definition cd_d (args : list (list Sh.Node)) : denotation := fun st => ([], (chdir home args st.1, st.2)).

Definition call_d (args : list (list Sh.Node)) (e : env) : denotation := fun st =>
  ([MkCommand (join " " (shown ∘ wordText <$> args)) (wordText <$> args) (e_background e) (e_subshell e)
      (match e_out e with ToTool => true | _ => false end) (path st.1) (known st.1) st.2
      (out_texts (e_out e))], st).

(** The left side runs with the right side's commands downstream. *)
Definition pipe_d (o : gostr) (rx ry : env -> denotation) (e : env) : denotation := fun st =>
  let '(cy, st') := ry (child e) (st.1, o) in
  let down := Piped ((Text <$> cy) ++ out_texts (e_out e)) in
  let '(cx, _) := rx (MkEnv true (e_background e) down) st in
  (cx ++ cy, (st.1, st'.2)).

Definition each_d {A} (r : A -> denotation) (l : list A) : denotation :=
  fold_right (fun n => seq_d (r n)) nothing l.

Definition stmts_d (r : Sh.Node -> denotation) : list Sh.Node -> denotation :=
  let fix go (prev : option Sh.Node) (l : list Sh.Node) : denotation :=
    match l with
    | [] => nothing
    | st :: l =>
        seq_d (seq_d (match prev with
                      | Some p => op_d (if asynchronous p then "&" else ";")
                      | None => nothing
                      end) (r st)) (go (Some st) l)
    end in
  go None.

Fixpoint facts (as_command : bool) (n : Sh.Node) (e : env) {struct n} : denotation :=
  let stmts l e := stmts_d (fun n => facts true n e) l in
  let words l e := each_d (fun n => facts false n e) l in
  let body l e := if as_command then stmts l e else words l e in
  match n with
  | Sh.Stmt cmd bg co redirs =>
      let inner e :=
        let e := if existsb redirectsStdout redirs then lost e else e in
        seq_d (match cmd with Some c => facts true c e | None => nothing end) (words redirs e) in
      if bg || co then child_d (inner (async (child e))) else inner e
  | Sh.CmdSubst l | Sh.ProcSubst l => child_d (stmts l (lost (child e)))
  | Sh.CallExpr assigns args =>
      seq_d (words assigns e)
        (match as_command, args with
         | true, [] => nothing
         | true, _ => seq_d (call_d args e) (seq_d (each_d (fun a => words a e) args) (cd_d args))
         | false, _ => each_d (fun a => words a e) args
         end)
  | Sh.BinaryCmd o x y =>
      if as_command then
        match o with
        | Sh.Pipe | Sh.PipeAll => pipe_d (op_text o) (facts true x) (facts true y) e
        | _ => seq_d (facts true x e) (seq_d (op_d (op_text o)) (facts true y e))
        end
      else seq_d (facts false x e) (facts false y e)
  | Sh.Subshell l => if as_command then child_d (stmts l (child e)) else words l e
  | Sh.Block l => body l e
  | Sh.IfClause cond then_ else_ =>
      seq_d
        (if as_command then match cond with [] => nothing | _ => seq_d (stmts cond e) (op_d "&&") end
         else words cond e)
        (seq_d (body then_ e)
           (match else_ with
            | Some x => seq_d (if as_command then op_d "||" else nothing) (facts as_command x e)
            | None => nothing
            end))
  | Sh.WhileClause until cond do_ =>
      seq_d (body cond e)
        (seq_d (if as_command then op_d (if until then "||" else "&&") else nothing) (body do_ e))
  | Sh.ForClause loop do_ => seq_d (facts false loop e) (body do_ e)
  | Sh.CaseClause word items =>
      seq_d (words word e)
        (each_d (fun it => seq_d (each_d (fun p => words p e) it.1)
                   (if as_command then stmts_d (fun n => facts true n e) it.2
                    else each_d (fun n => facts false n e) it.2)) items)
  | Sh.FuncDecl b => if as_command then child_d (facts true b e) else facts false b e
  | Sh.TimeClause st => match st with Some st => facts as_command st e | None => nothing end
  | Sh.CoprocClause st =>
      if as_command then child_d (facts true st (async (child e))) else facts false st e
  | Sh.Redirect _ _ word hdoc => seq_d (words word e) (words hdoc e)
  | Sh.Lit _ | Sh.SglQuoted _ _ => nothing
  | Sh.DblQuoted l | Sh.ParamExp _ l | Sh.Other l => words l e
  end.

(** The script's commands and the directory the main shell ends in. *)
Definition main_env : env := MkEnv false false ToTool.
Definition script_facts (l : list Sh.Node) : list Command * shellDir :=
  let '(c, st) := stmts_d (fun n => facts true n main_env) l (MkDir [] true, []) in (c, st.1).

(** ** The walk implements the attribute semantics *)

(** The readers of a pipe write to an older pipe. *)
Definition older_next (l : list sink) : Prop :=
  forall i s j, l !! i = Some s -> s_next s = pipeSink j -> j < i.

Lemma downstream_fuel all l k p : older_next l -> p < k ->
  downstream k all l (pipeSink p) = downstream (S p) all l (pipeSink p).
Proof.
  intros Hl. revert k. induction p as [p IH] using lt_wf_ind. intros k Hk.
  destruct k as [|k]; [lia|]. cbn [downstream]. destruct (l !! p) as [s|] eqn:E; [|done]. f_equal.
  destruct (s_next s) as [|j|] eqn:En; [by destruct k, p| |by destruct k, p].
  assert (Hj : j < p) by eauto. by rewrite (IH j Hj k), (IH j Hj p) by lia.
Qed.

Lemma downstream_all all l p : older_next l ->
  downstream (S (length l)) all l (pipeSink p) = downstream (S p) all l (pipeSink p).
Proof.
  intros Hl. destruct (decide (p < S (length l))); [by apply downstream_fuel|].
  cbn [downstream]. by rewrite lookup_ge_None_2 by lia.
Qed.

Definition outlet_of (all : list walkedCmd) (l : list sink) (s : sinkRef) : outlet :=
  match s with
  | toolSink => ToTool
  | nilSink => Lost
  | pipeSink _ => Piped (downstream (S (length l)) all l s)
  end.

Lemma out_texts_of all l s : older_next l ->
  out_texts (outlet_of all l s) = downstream (S (length l)) all l s.
Proof. by destruct s. Qed.

(** A frame that can be walked from [w]. *)
Record frame_ok (f : frame) (w : walker) : Prop := {
  ok_pipes : Forall (fun p => p < length (sinks w)) (pipes w);
  ok_nodup : NoDup (pipes w);
  ok_sink : forall p, f_sink f = pipeSink p -> p < length (sinks w);
  ok_next : older_next (sinks w);
}.

(** What [w'] has over [w] once commands [new] were recorded. *)
Record grown (f : frame) (w w' : walker) (new : list walkedCmd) (d' : shellDir) : Prop := {
  g_cmds : cmds w' = cmds w ++ new;
  g_pipes : pipes w' = pipes w;
  g_dir : dirs w' !! f_dir f = Some d';
  g_dirs : length (dirs w) <= length (dirs w');
  g_other : forall i, i <> f_dir f -> i < length (dirs w) -> dirs w' !! i = dirs w !! i;
  g_sinks : length (sinks w) <= length (sinks w');
  g_read : forall i s, sinks w !! i = Some s ->
    sinks w' !! i = Some (if bool_decide (i ∈ pipes w)
                          then MkSink (s_cmds s ++ seq (length (cmds w)) (length new)) (s_next s) else s);
  g_next : older_next (sinks w');
}.

(** The final stores, as seen while [w'] is reached from [w]: the pipes
    allocated in between are closed, so they are as [w'] has them. *)
Record seen_by (C : list walkedCmd) (H : list sink) (w w' : walker) : Prop := {
  v_cmds : cmds w' `prefix_of` C;
  v_next : older_next H;
  v_sinks : forall i, length (sinks w) <= i < length (sinks w') -> H !! i = sinks w' !! i;
}.

Record env_of (C : list walkedCmd) (H : list sink) (f : frame) (e : env) : Prop := {
  v_sub : e_subshell e = f_subshell f;
  v_bg : e_background e = f_background f;
  v_out : e_out e = outlet_of C H (f_sink f);
}.

(** [t] walks in frame [f] what [r] describes. *)
Definition walks (f : frame) (t : walker -> walker) (r : env -> denotation) : Prop :=
  forall w d, frame_ok f w -> dirs w !! f_dir f = Some d ->
  exists new d', grown f w (t w) new d'
  /\ forall C H e, seen_by C H w (t w) -> env_of C H f e ->
     r e (d, op w) = (finish C H <$> new, (d', op (t w))).

Lemma walks_ext f t t' r r' :
  walks f t r -> (forall w, t' w = t w) -> (forall e st, r' e st = r e st) -> walks f t' r'.
Proof.
  intros Hw Ht Hr w d Hok Hd. destruct (Hw w d Hok Hd) as (new & d' & Hg & Hv). exists new, d'.
  rewrite Ht. split; [done|]. intros. rewrite Hr. by apply Hv.
Qed.

Lemma grown_nothing f w d : frame_ok f w -> dirs w !! f_dir f = Some d -> grown f w w [] d.
Proof.
  intros Hok Hd. split; try done.
  - by rewrite app_nil_r.
  - intros i s Hs. cbn. rewrite app_nil_r. rewrite Hs. by case_bool_decide; destruct s.
  - apply Hok.
Qed.

Lemma walks_op f o : walks f (set_op o) (fun _ => op_d o).
Proof.
  intros w d Hok Hd. exists [], d. split; [|by intros]. by destruct (grown_nothing f w d Hok Hd).
Qed.

Lemma walks_nothing f : walks f (fun w => w) (fun _ => nothing).
Proof. intros w d Hok Hd. exists [], d. split; [by apply grown_nothing|by intros]. Qed.

Lemma frame_ok_grown f w w' new d' : frame_ok f w -> grown f w w' new d' -> frame_ok f w'.
Proof.
  intros [H1 H2 H3 H4] Hg. pose proof (g_sinks _ _ _ _ _ Hg) as Hl. split.
  - rewrite (g_pipes _ _ _ _ _ Hg). eapply Forall_impl; [exact H1|]. cbn. lia.
  - by rewrite (g_pipes _ _ _ _ _ Hg).
  - intros p Hp. specialize (H3 p Hp). lia.
  - apply Hg.
Qed.

Lemma grown_trans f w w1 w2 n1 n2 d1 d2 :
  grown f w w1 n1 d1 -> grown f w1 w2 n2 d2 -> grown f w w2 (n1 ++ n2) d2.
Proof.
  intros G1 G2. split.
  - by rewrite (g_cmds _ _ _ _ _ G2), (g_cmds _ _ _ _ _ G1), (assoc_L (++)).
  - by rewrite (g_pipes _ _ _ _ _ G2), (g_pipes _ _ _ _ _ G1).
  - apply G2.
  - etrans; [apply G1|apply G2].
  - intros i Hi Hl. rewrite (g_other _ _ _ _ _ G2 i Hi), (g_other _ _ _ _ _ G1 i Hi Hl); [done|].
    pose proof (g_dirs _ _ _ _ _ G1). lia.
  - etrans; [apply G1|apply G2].
  - intros i s Hs. apply (g_read _ _ _ _ _ G1) in Hs. apply (g_read _ _ _ _ _ G2) in Hs.
    rewrite Hs, (g_pipes _ _ _ _ _ G1), (g_cmds _ _ _ _ _ G1), !length_app.
    destruct (decide (i ∈ pipes w)); [rewrite !bool_decide_true by done|by rewrite !bool_decide_false by done].
    cbn. by rewrite seq_app, (assoc_L (++)).
  - apply G2.
Qed.

(** A pipe that is not being read keeps its readers. *)
Lemma grown_closed f w w' new d' i : grown f w w' new d' -> i < length (sinks w) ->
  i ∉ pipes w -> sinks w' !! i = sinks w !! i.
Proof.
  intros G Hi Hp. destruct (lookup_lt_is_Some_2 _ _ Hi) as [s Hs].
  by rewrite (g_read _ _ _ _ _ G i s Hs), Hs, bool_decide_false.
Qed.

Lemma seen_first C H f w w1 w2 n1 n2 d1 d2 : frame_ok f w ->
  grown f w w1 n1 d1 -> grown f w1 w2 n2 d2 -> seen_by C H w w2 -> seen_by C H w w1.
Proof.
  intros Hok G1 G2 [V1 V2 V3]. split; [|done|].
  - etrans; [|exact V1]. rewrite (g_cmds _ _ _ _ _ G2). by eexists.
  - intros i Hi. pose proof (g_sinks _ _ _ _ _ G2). rewrite V3 by lia.
    eapply grown_closed; [exact G2|lia|]. rewrite (g_pipes _ _ _ _ _ G1). intros Hp.
    pose proof (ok_pipes _ _ Hok) as Hf. rewrite Forall_forall in Hf. specialize (Hf i Hp). lia.
Qed.

Lemma seen_second C H f w w1 w2 n1 d1 :
  grown f w w1 n1 d1 -> seen_by C H w w2 -> seen_by C H w1 w2.
Proof.
  intros G1 [V1 V2 V3]. split; [done|done|]. intros i Hi. apply V3.
  pose proof (g_sinks _ _ _ _ _ G1). lia.
Qed.

Lemma walks_seq f t1 t2 r1 r2 : walks f t1 r1 -> walks f t2 r2 ->
  walks f (fun w => t2 (t1 w)) (fun e => seq_d (r1 e) (r2 e)).
Proof.
  intros W1 W2 w d Hok Hd. destruct (W1 w d Hok Hd) as (n1 & d1 & G1 & V1).
  pose proof (frame_ok_grown _ _ _ _ _ Hok G1) as Hok1.
  destruct (W2 _ d1 Hok1 (g_dir _ _ _ _ _ G1)) as (n2 & d2 & G2 & V2).
  exists (n1 ++ n2), d2. split; [by eapply grown_trans|]. intros C H e Hs He.
  unfold seq_d. rewrite (V1 C H e), (V2 C H e); [by rewrite fmap_app|..]; try done.
  - by eapply seen_second.
  - by eapply seen_first.
Qed.

Lemma walks_each {A} f (visit : A -> walker -> walker) (r : A -> env -> denotation) l :
  Forall (fun n => walks f (visit n) (r n)) l ->
  walks f (fun w => fold_left (fun w n => visit n w) l w) (fun e => each_d (fun n => r n e) l).
Proof.
  induction 1 as [|n l Hn _ IH]; [apply walks_nothing|].
  exact (walks_seq f _ _ _ _ Hn IH).
Qed.

Lemma walks_stmts f (visit : Sh.Node -> walker -> walker) (r : Sh.Node -> env -> denotation) l :
  Forall (fun n => walks f (visit n) (r n)) l ->
  walks f (stmt_list visit l) (fun e => stmts_d (fun n => r n e) l).
Proof.
  intros Hl. unfold stmt_list, stmts_d. generalize (@None Sh.Node).
  induction Hl as [|n l Hn _ IH]; intros prev; [apply walks_nothing|].
  refine (walks_seq f _ _ _ _ (walks_seq f _ _ _ _ _ Hn) (IH (Some n))).
  destruct prev; [apply walks_op|apply walks_nothing].
Qed.

(** *** Frames *)
Lemma walks_frame f g ge t r :
  f_dir g = f_dir f -> (f_sink g = f_sink f \/ f_sink g = nilSink) ->
  (forall C H e, env_of C H f e -> env_of C H g (ge e)) ->
  walks g t r -> walks f t (fun e => r (ge e)).
Proof.
  intros Hdir Hsink He Hw w d [O1 O2 O3 O4] Hd. rewrite <- Hdir in Hd.
  destruct (Hw w d) as (new & d' & [] & Hv); [|done|].
  - split; try done. intros p Hp. apply O3. destruct Hsink; congruence.
  - rewrite Hdir in *. exists new, d'. split; [done|]. intros C H e Hs Hf. by apply Hv, He.
Qed.

Lemma walks_fork f g ge t r :
  (forall d, f_dir (g d) = d) -> (forall d, f_sink (g d) = f_sink f \/ f_sink (g d) = nilSink) ->
  (forall C H e d, env_of C H f e -> env_of C H (g d) (ge e)) ->
  (forall d, walks (g d) (t (g d)) r) ->
  walks f (fun w => let '(d, w) := fork (f_dir f) w in t (g d) w) (fun e => child_d (r (ge e))).
Proof.
  intros Hdir Hsink He Hw w d [O1 O2 O3 O4] Hd. cbn. rewrite Hd. cbn.
  set (n := length (dirs w)). set (w1 := set_dirs (dirs w ++ [d]) w).
  assert (Hn : dirs w1 !! f_dir (g n) = Some d).
  { rewrite Hdir. cbn. rewrite lookup_app_r, Nat.sub_diag by done. done. }
  destruct (Hw n w1 d) as (new & d' & G & Hv); [|done|].
  - split; try done. intros p Hp. apply O3. destruct (Hsink n); congruence.
  - pose proof (lookup_lt_Some _ _ _ Hd) as Hlt. fold n in Hlt.
    assert (Hlen : length (dirs w1) = S n) by (cbn; rewrite length_app; cbn; lia).
    assert (Hold : forall i, i < n -> dirs (t (g n) w1) !! i = dirs w !! i).
    { intros i Hi. rewrite (g_other _ _ _ _ _ G) by (rewrite ?Hdir; lia).
      cbn. by rewrite lookup_app_l by done. }
    exists new, d. split.
    + destruct G; split; try done.
      * by rewrite Hold.
      * fold n. lia.
      * intros i Hi Hl. by apply Hold.
    + intros C H e [V1 V2 V3] Hf. unfold child_d.
      assert (Hr : r (ge e) (d, op w) = (finish C H <$> new, (d', op (t (g n) w1))))
        by (apply Hv; [by split|by apply He]).
      by rewrite Hr.
Qed.

Lemma lookup_add_reader_eq idx p l s : l !! p = Some s ->
  add_reader idx p l !! p = Some (MkSink (s_cmds s ++ [idx]) (s_next s)).
Proof. intros Hs. unfold add_reader. by rewrite list_lookup_alter_eq, Hs. Qed.

Lemma lookup_add_reader_ne idx p l i : i <> p -> add_reader idx p l !! i = l !! i.
Proof. intros Hi. unfold add_reader. by rewrite list_lookup_alter_ne. Qed.

(** Every open pipe, and no other, is read by the new command. *)
Lemma add_readers_lookup idx ps : NoDup ps -> forall l i s, l !! i = Some s ->
  fold_left (fun l p => add_reader idx p l) ps l !! i
  = Some (if bool_decide (i ∈ ps) then MkSink (s_cmds s ++ [idx]) (s_next s) else s).
Proof.
  induction ps as [|p ps IH].
  - intros _ l i s Hs. by rewrite bool_decide_false by apply not_elem_of_nil.
  - intros [Hp Hn]%NoDup_cons l i s Hs. cbn [fold_left]. destruct (decide (i = p)) as [->|Hi].
    + rewrite (IH Hn _ _ _ (lookup_add_reader_eq _ _ _ _ Hs)).
      by rewrite bool_decide_false, bool_decide_true by (try done; by left).
    + rewrite (IH Hn _ i s) by (by rewrite lookup_add_reader_ne).
      assert (Hiff : i ∈ p :: ps <-> i ∈ ps) by (rewrite elem_of_cons; naive_solver).
      destruct (decide (i ∈ ps)); [by rewrite !bool_decide_true by tauto|by rewrite !bool_decide_false by tauto].
Qed.

Lemma add_readers_length idx ps l : length (fold_left (fun l p => add_reader idx p l) ps l) = length l.
Proof.
  revert l. induction ps as [|p ps IH]; intros l; [done|]. cbn [fold_left]. rewrite IH. apply length_alter.
Qed.

Lemma walks_call f args : walks f (record_call args f) (call_d args).
Proof.
  intros w d Hok Hd. unfold record_call. rewrite Hd. cbn.
  set (c := MkWalked _ _). exists [c], d.
  pose proof (add_readers_lookup (length (cmds w)) _ (ok_nodup _ _ Hok) (sinks w)) as Hread.
  pose proof (add_readers_length (length (cmds w)) (pipes w) (sinks w)) as Hlen.
  split.
  - split; cbn; try done; rewrite ?Hlen; try done. intros i s j Hs Hj.
    destruct (sinks w !! i) as [s'|] eqn:Es.
    + rewrite (Hread i s' Es) in Hs. injection Hs as <-. eapply (ok_next _ _ Hok i s' j Es).
      by case_bool_decide.
    + apply lookup_ge_None in Es. apply lookup_lt_Some in Hs. lia.
  - intros C H e [V1 V2 V3] [E1 E2 E3]. unfold call_d, finish. cbn. rewrite E1, E2, E3, out_texts_of by done.
    repeat f_equal; destruct (f_sink f); done.
Qed.

Lemma walks_cd f args : walks f (change_dir args f) (fun _ => cd_d args).
Proof.
  intros w d Hok Hd. exists [], (chdir home args d). split.
  - split; cbn; try done.
    + by rewrite app_nil_r.
    + by rewrite list_lookup_alter_eq, Hd.
    + by rewrite length_alter.
    + intros i Hi _. by rewrite list_lookup_alter_ne.
    + intros i s ->. rewrite app_nil_r. by case_bool_decide; destruct s.
    + apply Hok.
  - by intros C H e _ _.
Qed.

(** *** Pipelines *)
Lemma omap_texts (pre new post : list walkedCmd) :
  omap (fun i => Text ∘ w_cmd <$> (pre ++ new ++ post) !! i) (seq (length pre) (length new))
  = Text ∘ w_cmd <$> new.
Proof.
  revert pre. induction new as [|c new IH]; intros pre; [done|]. cbn [seq length omap list_omap app].
  rewrite lookup_app_r, Nat.sub_diag by done. cbn [lookup list_lookup fmap option_fmap option_map].
  change (list_fmap _ _ (Text ∘ w_cmd) (c :: new)) with ((Text ∘ w_cmd) c :: (Text ∘ w_cmd <$> new)).
  cbn. f_equal. specialize (IH (pre ++ [c])). rewrite length_app, <- (assoc_L (++)) in IH.
  rewrite Nat.add_comm in IH. exact IH.
Qed.

(** What a closed pipe's writers have downstream. *)
Lemma downstream_closed C H P s pre new : older_next H -> H !! P = Some s ->
  s_cmds s = seq (length pre) (length new) -> pre ++ new `prefix_of` C ->
  downstream (S (length H)) C H (pipeSink P)
  = (Text ∘ w_cmd <$> new) ++ downstream (S (length H)) C H (s_next s).
Proof.
  intros Hn HP Hs [post HC]. rewrite <- (assoc_L (++)) in HC.
  set (rest := downstream _ _ _ (s_next s)). cbn [downstream]. rewrite HP, Hs. unfold rest. clear rest.
  f_equal; [rewrite HC; apply omap_texts|].
  pose proof (lookup_lt_Some _ _ _ HP) as Hlt.
  destruct (s_next s) as [|j|] eqn:En; [by destruct (length H)| |by destruct (length H)].
  assert (j < P) by eauto. rewrite downstream_all by done. apply downstream_fuel; [done|lia].
Qed.

Section Pipeline.
Context (f : frame) (o : gostr) (tx ty : frame -> walker -> walker) (rx ry : env -> denotation).
Context (Wx : forall g, walks g (tx g) rx) (Wy : forall g, walks g (ty g) ry).

Definition pipeline (w : walker) : walker :=
  let '(p, w) := new_pipe (f_sink f) w in
  let '(lf, w) := sub f w in
  let w := tx (with_sink (pipeSink p) lf) w in
  let w := set_op o w in
  let w := set_pipes (pipes w ++ [p]) w in
  let '(rf, w) := sub f w in
  let w := ty rf w in
  set_pipes (removelast (pipes w)) w.

(** The walker when the left side starts, its frame, and likewise the right. *)
Definition left_start (d : shellDir) (w : walker) : walker :=
  MkWalker (cmds w) (op w) (pipes w) (dirs w ++ [d]) (sinks w ++ [MkSink [] (f_sink f)]).
Definition left_frame (w : walker) : frame :=
  MkFrame (length (dirs w)) (pipeSink (length (sinks w))) true (f_background f).
Definition right_start (d : shellDir) (p : nat) (w : walker) : walker :=
  MkWalker (cmds w) o (pipes w ++ [p]) (dirs w ++ [d]) (sinks w).
Definition right_frame (w : walker) : frame :=
  MkFrame (length (dirs w)) (f_sink f) true (f_background f).

Lemma left_ok d w : frame_ok f w -> frame_ok (left_frame w) (left_start d w).
Proof.
  intros [O1 O2 O3 O4]. split; cbn; try done.
  - eapply Forall_impl; [exact O1|]. intros p. cbn. rewrite length_app. cbn. lia.
  - intros p [= <-]. rewrite length_app. cbn. lia.
  - intros i s j Hi Hj. destruct (decide (i < length (sinks w))) as [Hlt|Hge].
    + rewrite lookup_app_l in Hi by done. eauto.
    + rewrite lookup_app_r in Hi by lia. apply list_lookup_singleton_Some in Hi as [Hi <-].
      cbn in Hj. apply O3 in Hj. lia.
Qed.

Lemma right_ok d w w3 new dx : frame_ok f w -> grown (left_frame w) (left_start d w) w3 new dx ->
  frame_ok (right_frame w3) (right_start d (length (sinks w)) w3).
Proof.
  intros [O1 O2 O3 O4] G. pose proof (g_sinks _ _ _ _ _ G) as Hl. cbn in Hl. rewrite length_app in Hl. cbn in Hl.
  pose proof (g_pipes _ _ _ _ _ G) as Hp. cbn in Hp. split; cbn; rewrite ?Hp.
  - apply Forall_app. split; [eapply Forall_impl; [exact O1|]; cbn; lia|]. constructor; [lia|done].
  - apply NoDup_app. split_and!; [done| |apply NoDup_singleton]. intros i Hi ->%list_elem_of_singleton.
    rewrite Forall_forall in O1. specialize (O1 _ Hi). lia.
  - intros p Hs. specialize (O3 p Hs). lia.
  - apply G.
Qed.

Lemma pipeline_eq w d :
  let w3 := tx (left_frame w) (left_start d w) in
  let w6 := ty (right_frame w3) (right_start d (length (sinks w)) w3) in
  dirs w !! f_dir f = Some d -> dirs w3 !! f_dir f = Some d ->
  pipeline w = set_pipes (removelast (pipes w6)) w6.
Proof.
  cbn zeta. intros Hd Hd3. unfold pipeline, new_pipe, sub, fork. cbn. rewrite Hd. cbn.
  change (with_sink _ _) with (left_frame w).
  change (set_dirs (dirs w ++ [d]) _) with (left_start d w). by rewrite Hd3.
Qed.

(** *** One run of a pipeline: [w3] after the left side, [w6] after the right. *)
Section Run.
Context (w w3 w6 : walker) (d dx dy : shellDir) (nx ny : list walkedCmd).
Context (Hok : frame_ok f w) (Hd : dirs w !! f_dir f = Some d).
Let P := length (sinks w).
Context (Gx : grown (left_frame w) (left_start d w) w3 nx dx).
Context (Gy : grown (right_frame w3) (right_start d P w3) w6 ny dy).

Lemma run_new_pipe : P ∉ pipes w.
Proof.
  intros Hi. pose proof (ok_pipes _ _ Hok) as O1. rewrite Forall_forall in O1. specialize (O1 _ Hi).
  unfold P in O1. lia.
Qed.

Lemma run_pipes : pipes w3 = pipes w /\ pipes w6 = pipes w ++ [P].
Proof.
  assert (H3 : pipes w3 = pipes w) by apply Gx. split; [done|].
  rewrite (g_pipes _ _ _ _ _ Gy). cbn. by rewrite H3.
Qed.

Lemma run_cmds : cmds w3 = cmds w ++ nx /\ cmds w6 = (cmds w ++ nx) ++ ny.
Proof.
  assert (H3 : cmds w3 = cmds w ++ nx) by apply Gx. split; [done|].
  rewrite (g_cmds _ _ _ _ _ Gy). cbn. by rewrite H3.
Qed.

Lemma run_lengths : S P <= length (sinks w3) <= length (sinks w6)
  /\ length (dirs w) < length (dirs w3) < length (dirs w6).
Proof.
  pose proof (g_sinks _ _ _ _ _ Gx) as H1. pose proof (g_sinks _ _ _ _ _ Gy) as H2.
  pose proof (g_dirs _ _ _ _ _ Gx) as H3. pose proof (g_dirs _ _ _ _ _ Gy) as H4.
  cbn in *. rewrite length_app in H1, H3, H4. cbn in *. unfold P. lia.
Qed.

(** The pipe has the commands of the right side as its readers. *)
Lemma run_sink : sinks w6 !! P = Some (MkSink (seq (length (cmds w ++ nx)) (length ny)) (f_sink f)).
Proof.
  assert (H3 : sinks w3 !! P = Some (MkSink [] (f_sink f))).
  { rewrite (grown_closed _ _ _ _ _ P Gx); cbn; [|rewrite length_app; cbn; lia|apply run_new_pipe].
    by rewrite lookup_app_r, Nat.sub_diag. }
  destruct run_pipes as [Hp3 _], run_cmds as [Hc3 _].
  rewrite (g_read _ _ _ _ _ Gy P _ H3). cbn. rewrite bool_decide_true; [by rewrite Hc3|].
  rewrite Hp3. set_solver.
Qed.

Lemma run_dirs i : i < length (dirs w) -> dirs w6 !! i = dirs w !! i.
Proof.
  intros Hi. pose proof run_lengths as (_ & Hl).
  rewrite (g_other _ _ _ _ _ Gy) by (cbn; rewrite ?length_app; cbn; lia). cbn.
  rewrite lookup_app_l by lia. rewrite (g_other _ _ _ _ _ Gx) by (cbn; rewrite ?length_app; cbn; lia).
  cbn. by rewrite lookup_app_l.
Qed.

Lemma run_read i s : sinks w !! i = Some s ->
  sinks w6 !! i = Some (if bool_decide (i ∈ pipes w)
                        then MkSink (s_cmds s ++ seq (length (cmds w)) (length (nx ++ ny))) (s_next s) else s).
Proof.
  intros Hs. apply lookup_lt_Some in Hs as Hi. destruct run_pipes as [Hp3 _], run_cmds as [Hc3 _].
  assert (H2 : (sinks w ++ [MkSink [] (f_sink f)]) !! i = Some s) by (by rewrite lookup_app_l).
  apply (g_read _ _ _ _ _ Gx) in H2. apply (g_read _ _ _ _ _ Gy) in H2. rewrite H2. cbn.
  rewrite Hp3, Hc3, !length_app.
  assert (Hiff : i ∈ pipes w ++ [P] <-> i ∈ pipes w)
    by (rewrite elem_of_app, list_elem_of_singleton; split; [intros [?|]; [done|unfold P in *; lia]|by left]).
  destruct (decide (i ∈ pipes w)); [rewrite !bool_decide_true by tauto|by rewrite !bool_decide_false by tauto].
  cbn. by rewrite seq_app, (assoc_L (++)).
Qed.

Lemma run_grown : grown f w (set_pipes (removelast (pipes w6)) w6) (nx ++ ny) d.
Proof.
  pose proof (lookup_lt_Some _ _ _ Hd) as Hlt. destruct run_pipes as [_ Hp6], run_cmds as [_ Hc6].
  pose proof run_lengths as [Hs Hl]. split; cbn.
  - by rewrite Hc6, (assoc_L (++)).
  - by rewrite Hp6, removelast_last.
  - by rewrite run_dirs.
  - lia.
  - intros i _ Hi. by apply run_dirs.
  - unfold P in *. lia.
  - apply run_read.
  - apply Gy.
Qed.

(** *** What the two sides see of the final stores. *)
Context (C : list walkedCmd) (H : list sink) (e : env).
Context (V : seen_by C H w (set_pipes (removelast (pipes w6)) w6)) (E : env_of C H f e).

Lemma run_right_seen : seen_by C H (right_start d P w3) w6 /\ env_of C H (right_frame w3) (child e).
Proof.
  destruct V as [V1 V2 V3], E. pose proof run_lengths as [Hs _]. split; split; try done.
  intros i Hi. apply V3. cbn in *. unfold P in *. lia.
Qed.

Lemma run_downstream : outlet_of C H (pipeSink P)
  = Piped ((Text <$> (finish C H <$> ny)) ++ out_texts (e_out e)).
Proof.
  destruct V as [V1 V2 V3], E as [_ _ E3]. destruct run_cmds as [_ Hc6]. pose proof run_lengths as [Hs _].
  assert (HP : H !! P = sinks w6 !! P) by (apply V3; cbn; unfold P in *; lia). rewrite run_sink in HP.
  cbn [outlet_of]. f_equal. rewrite (downstream_closed C H P _ (cmds w ++ nx) ny V2 HP eq_refl).
  - rewrite E3, out_texts_of by done. f_equal. by rewrite <- list_fmap_compose.
  - rewrite <- Hc6. exact V1.
Qed.

Lemma run_left_seen : seen_by C H (left_start d w) w3
  /\ env_of C H (left_frame w)
       (MkEnv true (e_background e) (Piped ((Text <$> (finish C H <$> ny)) ++ out_texts (e_out e)))).
Proof.
  pose proof run_downstream as Hdown.
  destruct V as [V1 V2 V3], E as [E1 E2 E3]. destruct run_pipes as [Hp3 _], run_cmds as [Hc3 Hc6].
  pose proof run_lengths as [Hs _]. split; split; try done.
  - etrans; [|exact V1]. cbn. rewrite Hc6, Hc3. by eexists.
  - intros i Hi. cbn in Hi. rewrite length_app in Hi. cbn in Hi. rewrite V3 by (cbn; unfold P in *; lia).
    apply (grown_closed _ _ _ _ _ i Gy); cbn; [lia|]. rewrite Hp3.
    intros [Hin|Hin%list_elem_of_singleton]%elem_of_app; [|unfold P in *; lia].
    pose proof (ok_pipes _ _ Hok) as O1. rewrite Forall_forall in O1. specialize (O1 _ Hin). lia.
Qed.
End Run.

Lemma walks_pipe : walks f pipeline (pipe_d o rx ry).
Proof.
  intros w d Hok Hd. pose proof (lookup_lt_Some _ _ _ Hd) as Hlt.
  destruct (Wx (left_frame w) (left_start d w) d (left_ok d w Hok)) as (nx & dx & Gx & Vx).
  { cbn. by rewrite lookup_app_r, Nat.sub_diag. }
  set (w3 := tx _ _) in *. set (P := length (sinks w)) in *.
  destruct (Wy (right_frame w3) (right_start d P w3) d (right_ok d w w3 nx dx Hok Gx)) as (ny & dy & Gy & Vy).
  { cbn. by rewrite lookup_app_r, Nat.sub_diag. }
  set (w6 := ty _ _) in *.
  assert (Hd3 : dirs w3 !! f_dir f = Some d).
  { rewrite (g_other _ _ _ _ _ Gx) by (cbn; rewrite ?length_app; cbn; lia). cbn. by rewrite lookup_app_l. }
  assert (Hw : pipeline w = set_pipes (removelast (pipes w6)) w6) by by apply pipeline_eq.
  rewrite Hw. exists (nx ++ ny), d. split; [by eapply run_grown|]. intros C H e V E. unfold pipe_d. cbn [fst snd].
  destruct (run_right_seen w w3 w6 d dx dy nx ny Gx Gy C H e V E) as [Vr Er].
  destruct (run_left_seen w w3 w6 d dx dy nx ny Hok Hd Gx Gy C H e V E) as [Vl El].
  assert (Hy : ry (child e) (d, o) = (finish C H <$> ny, (dy, op w6))) by by apply Vy.
  rewrite Hy. specialize (Vx C H _ Vl El). cbn [op left_start] in Vx. rewrite Vx. by rewrite fmap_app.
Qed.
End Pipeline.

(** *** Every construct *)

Lemma walks_child f (t : frame -> walker -> walker) r : (forall g, walks g (t g) r) ->
  walks f (fun w => let '(g, w) := sub f w in t g w) (fun e => child_d (r (child e))).
Proof.
  intros Hw. refine (walks_fork f (fun d => MkFrame d (f_sink f) true (f_background f)) child t r _ _ _ _); auto.
  intros C H e d []. by split.
Qed.

Lemma walks_lost f (t : frame -> walker -> walker) r : (forall g, walks g (t g) r) ->
  walks f (t (with_sink nilSink f)) (fun e => r (lost e)).
Proof.
  intros Hw. apply (walks_frame f (with_sink nilSink f) lost); auto. intros C H e []. by split.
Qed.

Lemma walks_async f (t : frame -> walker -> walker) r : (forall g, walks g (t g) r) ->
  walks f (t (in_background f)) (fun e => r (async e)).
Proof.
  intros Hw. apply (walks_frame f (in_background f) async); auto. intros C H e []. by split.
Qed.

Lemma walks_func f (t : frame -> walker -> walker) r : (forall g, walks g (t g) r) ->
  walks f (fun w => let '(d, w) := fork (f_dir f) w in t (with_dir d f) w) (fun e => child_d (r e)).
Proof.
  intros Hw. refine (walks_fork f (fun d => with_dir d f) (fun e => e) t r _ _ _ _); auto.
  intros C H e d []. by split.
Qed.

Definition walks_node (n : Sh.Node) : Prop :=
  forall m f, walks f (walk m n f) (fun e => facts m n e).

Lemma walks_words l f : Forall walks_node l ->
  walks f (each (fun n => walk false n f) l) (fun e => each_d (fun n => facts false n e) l).
Proof. intros Hl. apply (walks_each f (fun n => walk false n f)). eapply Forall_impl; [exact Hl|]. auto. Qed.

Lemma walks_words2 ll f : Forall (Forall walks_node) ll ->
  walks f (fun w => fold_left (fun w a => each (fun n => walk false n f) a w) ll w)
    (fun e => each_d (fun a => each_d (fun n => facts false n e) a) ll).
Proof.
  intros Hl. apply (walks_each f (fun a => each (fun n => walk false n f) a)).
  eapply Forall_impl; [exact Hl|]. intros a. apply walks_words.
Qed.

Lemma walks_list l f : Forall walks_node l ->
  walks f (stmt_list (fun n => walk true n f) l) (fun e => stmts_d (fun n => facts true n e) l).
Proof. intros Hl. apply (walks_stmts f (fun n => walk true n f)). eapply Forall_impl; [exact Hl|]. auto. Qed.

Lemma walks_body (m : bool) l f : Forall walks_node l ->
  walks f (fun w => if m then stmt_list (fun n => walk true n f) l w else each (fun n => walk false n f) l w)
    (fun e => if m then stmts_d (fun n => facts true n e) l else each_d (fun n => facts false n e) l).
Proof. intros Hl. destruct m; [by apply walks_list|by apply walks_words]. Qed.

Lemma walks_opt (o : option Sh.Node) m f : (forall n, o = Some n -> walks_node n) ->
  walks f (fun w => match o with Some n => walk m n f w | None => w end)
    (fun e => match o with Some n => facts m n e | None => nothing end).
Proof. intros Ho. destruct o as [n|]; [by apply (Ho n)|apply walks_nothing]. Qed.

Lemma walks_Stmt c b p r : (forall n, c = Some n -> walks_node n) -> Forall walks_node r ->
  walks_node (Sh.Stmt c b p r).
Proof.
  intros Hc Hr m f.
  pose (plain := fun (g : frame) w => each (fun n => walk false n g) r
                   (match c with Some n => walk true n g w | None => w end)).
  pose (plain_d := fun e => seq_d (match c with Some n => facts true n e | None => nothing end)
                              (each_d (fun n => facts false n e) r)).
  assert (Hp : forall g, walks g (plain g) plain_d)
    by (intros g; exact (walks_seq g _ _ _ _ (walks_opt c true g Hc) (walks_words r g Hr))).
  pose (inner := fun g => plain (if existsb redirectsStdout r then with_sink nilSink g else g)).
  pose (inner_d := fun e => plain_d (if existsb redirectsStdout r then lost e else e)).
  assert (Hi : forall g, walks g (inner g) inner_d)
    by (intros g; unfold inner, inner_d; destruct (existsb _ _); [apply (walks_lost g plain plain_d Hp)|apply Hp]).
  destruct (b || p) eqn:E.
  - refine (walks_ext f _ _ _ _ (walks_child f (fun g : frame => inner (in_background g))
      (fun e : env => inner_d (async e)) (fun g => walks_async g inner inner_d Hi)) _ _).
    + intros w. cbn [walk]. by rewrite E.
    + intros e st. cbn [facts]. by rewrite E.
  - refine (walks_ext f _ _ _ _ (Hi f) _ _).
    + intros w. cbn [walk]. by rewrite E.
    + intros e st. cbn [facts]. by rewrite E.
Qed.

Lemma walks_CallExpr a args : Forall walks_node a -> Forall (Forall walks_node) args ->
  walks_node (Sh.CallExpr a args).
Proof.
  intros Ha Hargs m f. pose proof (walks_words a f Ha) as Wa. pose proof (walks_words2 args f Hargs) as Ww.
  destruct m; [|exact (walks_seq f _ _ _ _ Wa Ww)]. destruct args as [|x args].
  - exact (walks_seq f _ _ _ _ Wa (walks_nothing f)).
  - exact (walks_seq f _ _ _ _ Wa (walks_seq f _ _ _ _ (walks_call f (x :: args))
      (walks_seq f _ _ _ _ Ww (walks_cd f (x :: args))))).
Qed.

Lemma walks_BinaryCmd o x y : walks_node x -> walks_node y -> walks_node (Sh.BinaryCmd o x y).
Proof.
  intros Hx Hy m f. destruct m; [|exact (walks_seq f _ _ _ _ (Hx false f) (Hy false f))].
  assert (Hseq : walks f (fun w => walk true y f (set_op (op_text o) (walk true x f w)))
    (fun e => seq_d (facts true x e) (seq_d (op_d (op_text o)) (facts true y e))))
    by exact (walks_seq f _ _ _ _ (Hx true f) (walks_seq f _ _ _ _ (walks_op f _) (Hy true f))).
  destruct o; try exact Hseq; exact (walks_pipe f _ _ _ _ _ (Hx true) (Hy true)).
Qed.

Lemma walks_IfClause c t e : Forall walks_node c -> Forall walks_node t ->
  (forall n, e = Some n -> walks_node n) -> walks_node (Sh.IfClause c t e).
Proof.
  intros Hc Ht He m f.
  pose (cond_w := fun w => if m then match c with [] => w | _ => set_op "&&" (stmts c f w) end
                           else each (fun n => walk false n f) c w).
  pose (else_w := fun w => match e with
                           | Some x => walk m x f (if m then set_op "||" w else w)
                           | None => w end).
  pose (cond_d := fun e => if m then match c with [] => nothing
                             | _ => seq_d (stmts_d (fun n => facts true n e) c) (op_d "&&") end
                           else each_d (fun n => facts false n e) c).
  pose (else_d := fun d => match e with
                           | Some x => seq_d (if m then op_d "||" else nothing) (facts m x d)
                           | None => nothing end).
  assert (Wc : walks f cond_w cond_d).
  { unfold cond_w, cond_d. destruct m; [|by apply walks_words]. destruct c as [|n c]; [apply walks_nothing|].
    exact (walks_seq f _ _ _ _ (walks_list (n :: c) f Hc) (walks_op f _)). }
  assert (We : walks f else_w else_d).
  { unfold else_w, else_d. destruct e as [x|]; [|apply walks_nothing]. specialize (He x eq_refl m f).
    destruct m; [exact (walks_seq f _ _ _ _ (walks_op f _) He)|exact (walks_seq f _ _ _ _ (walks_nothing f) He)]. }
  refine (walks_ext f _ _ _ _ (walks_seq f _ _ _ _ Wc (walks_seq f _ _ _ _ (walks_body m t f Ht) We)) _ _).
  - intros w. unfold cond_w, else_w. by destruct m, e.
  - intros d st. unfold cond_d, else_d. by destruct m, e.
Qed.

Lemma walks_WhileClause u c d : Forall walks_node c -> Forall walks_node d ->
  walks_node (Sh.WhileClause u c d).
Proof.
  intros Hc Hd m f.
  refine (walks_ext f _ _ _ _ (walks_seq f _ _ _ _ (walks_body m c f Hc)
    (walks_seq f (fun w => if m then set_op (if u then "||" else "&&") w else w) _
       (fun _ => if m then op_d (if u then "||" else "&&") else nothing) _ _ (walks_body m d f Hd))) _ _).
  - destruct m; [apply walks_op|apply walks_nothing].
  - intros w. by destruct m.
  - intros e st. by destruct m.
Qed.

Lemma walks_CaseClause x items : Forall walks_node x ->
  Forall (fun it => Forall (Forall walks_node) it.1 /\ Forall walks_node it.2) items ->
  walks_node (Sh.CaseClause x items).
Proof.
  intros Hx Hi m f.
  refine (walks_seq f _ _ _ _ (walks_words x f Hx) (walks_each f
    (fun it w => let w := fold_left (fun w a => each (fun n => walk false n f) a w) it.1 w in
      if m then stmt_list (fun n => walk true n f) it.2 w else each (fun n => walk false n f) it.2 w)
    (fun it e => seq_d (each_d (fun p => each_d (fun n => facts false n e) p) it.1)
      (if m then stmts_d (fun n => facts true n e) it.2 else each_d (fun n => facts false n e) it.2)) items _)).
  eapply Forall_impl; [exact Hi|]. intros [ps b] [Hps Hb].
  exact (walks_seq f _ _ _ _ (walks_words2 ps f Hps) (walks_body m b f Hb)).
Qed.

Lemma walks_subst l f : Forall walks_node l ->
  walks f (fun w => let '(g, w) := sub f w in stmt_list (fun n => walk true n (with_sink nilSink g)) l w)
    (fun e => child_d (stmts_d (fun n => facts true n (lost (child e))) l)).
Proof.
  intros Hl. apply (walks_child f (fun g => stmt_list (fun n => walk true n (with_sink nilSink g)) l)
    (fun e => stmts_d (fun n => facts true n (lost e)) l)).
  intros g. apply (walks_lost g (fun g => stmt_list (fun n => walk true n g) l)
    (fun e => stmts_d (fun n => facts true n e) l)).
  intros k. by apply walks_list.
Qed.

(** The walk of any construct implements its attribute semantics. *)
Lemma walks_all n : walks_node n.
Proof.
  induction n using Sh.node_induction.
  - by apply walks_Stmt.
  - intros m f. exact (walks_seq f _ _ _ _ (walks_words _ f H) (walks_words _ f H0)).
  - by apply walks_CallExpr.
  - by apply walks_BinaryCmd.
  - intros m f. destruct m; [|by apply walks_words].
    apply (walks_child f (fun g => stmt_list (fun n => walk true n g) l)). intros g. by apply walks_list.
  - intros m f. by apply walks_body.
  - by apply walks_IfClause.
  - by apply walks_WhileClause.
  - intros m f. exact (walks_seq f _ _ _ _ (IHn false f) (walks_body m _ f H)).
  - by apply walks_CaseClause.
  - intros m f. destruct m; [|apply IHn]. apply (walks_func f (walk true n)). apply IHn.
  - intros m f. by apply walks_opt.
  - intros m f. destruct m; [|apply IHn].
    apply (walks_child f (fun g => walk true n (in_background g)) (fun e => facts true n (async e))).
    intros g. apply (walks_async g (walk true n) (facts true n)). apply IHn.
  - intros m f. apply walks_nothing.
  - intros m f. apply walks_nothing.
  - intros m f. by apply walks_words.
  - intros m f. by apply walks_words.
  - intros m f. by apply walks_subst.
  - intros m f. by apply walks_subst.
  - intros m f. by apply walks_words.
Qed.

Lemma script_of_facts l : script_of l
  = let '(c, d) := script_facts l in MkScript c (path d) (known d).
Proof.
  assert (Hl : Forall walks_node l) by (apply Forall_true, walks_all).
  destruct (walks_list l main_frame Hl first_walker (MkDir [] true)) as (new & d' & G & V); [|done|].
  { split; cbn; [done|apply NoDup_nil_2|done|]. intros i s j Hi. by rewrite lookup_nil in Hi. }
  unfold script_of, script_facts, stmts. set (w := stmt_list _ l first_walker) in *.
  assert (Hf : stmts_d (fun n => facts true n main_env) l (MkDir [] true, [])
    = (finish (cmds w) (sinks w) <$> new, (d', op w))).
  { apply (V (cmds w) (sinks w) main_env); [split; [done|apply G|done]|by split]. }
  rewrite Hf. pose proof (g_cmds _ _ _ _ _ G) as Hc. cbn in Hc. cbn.
  pose proof (g_dir _ _ _ _ _ G) as Hd. cbn in Hd. rewrite Hd. cbn. f_equal. by rewrite Hc at 2.
Qed.

(** C38: the commands of a script, with every fact a rule can decide on, are
    those of the attribute semantics: walking the tree with one shared walker,
    forked directories, pipes collected as their readers are recorded and facts
    filled in at the end gives what the constructs mean one by one. *)
Theorem parse_facts (parse : gostr -> option (list Sh.Node)) (script : gostr) :
  Parse parse script
  = (fun l => let '(c, d) := script_facts l in MkScript c (path d) (known d)) <$> parse script.
Proof. unfold Parse. destruct (parse script); [|done]. cbn. by rewrite script_of_facts. Qed.

(** ** Consequences *)

(** An induction over everything a construct runs: a property of denotations,
    relative to their environment, that the constructs preserve. *)
Record closed (R : env -> denotation -> Prop) : Prop := {
  c_nothing e : R e nothing;
  c_op e o : R e (op_d o);
  c_seq e r1 r2 : R e r1 -> R e r2 -> R e (seq_d r1 r2);
  c_child e r : R (child e) r -> R e (child_d r);
  c_async e r : R (async (child e)) r -> R e (child_d r);
  c_func e r : R e r -> R e (child_d r);
  c_lost e r : R (lost e) r -> R e r;
  c_pipe e o rx ry : (forall e, R e (rx e)) -> (forall e, R e (ry e)) -> R e (pipe_d o rx ry e);
  c_call e args r : args <> [] -> R e r -> R e (seq_d (call_d args e) (seq_d r (cd_d args)));
}.

Section Closed.
Context (R : env -> denotation -> Prop) (HR : closed R).

Lemma closed_each {A} e (r : A -> denotation) l : Forall (fun n => R e (r n)) l -> R e (each_d r l).
Proof. induction 1; [apply (c_nothing _ HR)|]. by apply (c_seq _ HR). Qed.

Lemma closed_stmts e (r : Sh.Node -> denotation) l : Forall (fun n => R e (r n)) l -> R e (stmts_d r l).
Proof.
  intros Hl. unfold stmts_d. generalize (@None Sh.Node).
  induction Hl as [|n l Hn _ IH]; intros prev; [apply (c_nothing _ HR)|].
  apply (c_seq _ HR); [|apply IH]. apply (c_seq _ HR); [|done].
  destruct prev; [apply (c_op _ HR)|apply (c_nothing _ HR)].
Qed.

Definition closed_node (n : Sh.Node) : Prop := forall m e, R e (facts m n e).

Lemma closed_words l e : Forall closed_node l -> R e (each_d (fun n => facts false n e) l).
Proof. intros Hl. apply closed_each. eapply Forall_impl; [exact Hl|]. intros n Hn. apply Hn. Qed.
Lemma closed_list l e : Forall closed_node l -> R e (stmts_d (fun n => facts true n e) l).
Proof. intros Hl. apply closed_stmts. eapply Forall_impl; [exact Hl|]. intros n Hn. apply Hn. Qed.
Lemma closed_words2 ll e : Forall (Forall closed_node) ll ->
  R e (each_d (fun a => each_d (fun n => facts false n e) a) ll).
Proof. intros Hl. apply closed_each. eapply Forall_impl; [exact Hl|]. intros a. apply closed_words. Qed.

#[local] Hint Extern 1 (R _ _) =>
  first [apply (c_nothing R HR) | apply (c_op R HR) | apply (c_seq R HR) | apply (c_child R HR)] : core.
#[local] Hint Resolve closed_words closed_list closed_words2 : core.

Lemma closed_Stmt c b p r : (forall n, c = Some n -> closed_node n) -> Forall closed_node r ->
  closed_node (Sh.Stmt c b p r).
Proof.
  intros Hc Hr m e. cbn [facts].
  assert (Hin : forall e, R e (seq_d (match c with Some c => facts true c e | None => nothing end)
      (each_d (fun n => facts false n e) r))).
  { intros e'. apply (c_seq _ HR); [|by apply closed_words]. destruct c as [n|]; [|auto]. by apply (Hc n). }
  destruct (b || p); [apply (c_async _ HR)|]; destruct (existsb _ _); auto; by apply (c_lost _ HR).
Qed.

Lemma closed_IfClause c t x : Forall closed_node c -> Forall closed_node t ->
  (forall n, x = Some n -> closed_node n) -> closed_node (Sh.IfClause c t x).
Proof.
  intros Hc Ht Hx m e. cbn [facts]. apply (c_seq _ HR); [destruct m; [destruct c|]; auto|].
  apply (c_seq _ HR); [destruct m; auto|]. destruct x as [n|]; [|auto].
  apply (c_seq _ HR); [destruct m; auto|]. by apply (Hx n).
Qed.

Lemma closed_facts n : closed_node n.
Proof.
  induction n using Sh.node_induction; [by apply closed_Stmt|..|intros m'' ee; cbn [facts]; auto];
    try (by apply closed_IfClause); intros m' ee; cbn [facts]; auto.
  - apply (c_seq _ HR); [auto|]. destruct m'; [|auto]. destruct w as [|x w]; [auto|].
    apply (c_call _ HR); [done|]. by apply closed_words2.
  - destruct m'; [destruct o|]; try (apply (c_pipe _ HR); intros; auto); repeat apply (c_seq _ HR); auto;
      by (apply IHn1 || apply IHn2).
  - destruct m'; auto.
  - destruct m'; auto.
  - apply (c_seq _ HR); [destruct m'; auto|]. apply (c_seq _ HR); destruct m'; auto.
  - apply (c_seq _ HR); [by apply IHn|]. destruct m'; auto.
  - apply (c_seq _ HR); [auto|]. apply closed_each. eapply Forall_impl; [exact H0|]. intros [ps b] [Hps Hb].
    apply (c_seq _ HR); [by apply closed_words2|]. destruct m'; auto.
  - destruct m'; [apply (c_func _ HR)|]; apply IHn.
  - destruct s as [x|]; [|auto]. by apply (H x).
  - destruct m'; [apply (c_async _ HR)|]; apply IHn.
  - apply (c_child _ HR), (c_lost _ HR). auto.
  - apply (c_child _ HR), (c_lost _ HR). auto.
Qed.

Lemma closed_script l : R main_env (stmts_d (fun n => facts true n main_env) l).
Proof. apply closed_list, Forall_true, closed_facts. Qed.
End Closed.
End Words.

(** *** Shown words have no white space. *)
Definition wide (c : ascii) : Prop := (128 <= N_of_ascii c)%N.

Lemma wide_no_space c : wide c -> no_space c.
Proof.
  intros Hc. apply leading_encoding_0; [apply space_encodings_ne|].
  assert (H : forallb (fun e : gostr => match e with [] => false | [x] => (N_of_ascii x <? 128)%N | _ => true end)
    space_encodings = true) by (vm_compute; reflexivity).
  apply Forall_forall. intros e He. rewrite forallb_forall in H. apply list_elem_of_In, H in He.
  destruct e as [|x [|]]; [done| |by cbn; destruct (x =?b c)]. apply N.ltb_lt in He.
  cbn. destruct (byte_eqb_spec x c) as [->|]; [|done]. unfold wide in Hc. lia.
Qed.

Lemma byte_in_wide lo hi c : wide lo -> byte_in lo hi c = true -> wide c.
Proof.
  unfold wide, byte_in, byte_le. intros H1 H2. split_and_hyps. rewrite N.leb_le in *. lia.
Qed.

Lemma rune_width_wide c s k : rune_width (c :: s) = S k -> Forall wide (take k s).
Proof.
  assert (W : forall lo, lo ∈ ["128"; "160"; "144"]%char -> wide lo)
    by (intros lo; rewrite !elem_of_cons; intros [-> | [-> | [-> | []%elem_of_nil]]]; vm_compute; done).
  assert (W2 : forall (b : bool) lo lo', lo ∈ ["128"; "160"; "144"]%char -> lo' ∈ ["128"; "160"; "144"]%char ->
    wide (if b then lo else lo')) by (intros []; auto).
  assert (W1 : forall x, byte_in "128" "191" x = true -> wide x)
    by (intros x; apply byte_in_wide, W; set_solver).
  assert (W3 : forall (b : bool) lo lo' hi x, lo ∈ ["128"; "160"; "144"]%char -> lo' ∈ ["128"; "160"; "144"]%char ->
    byte_in (if b then lo else lo') hi x = true -> wide x)
    by (intros b lo lo' hi x ??; apply byte_in_wide; by apply W2).
  unfold rune_width. intros H. destruct (byte_le c "127"); [by injection H as <-|].
  destruct (byte_in "194" "223" c).
  { destruct s as [|x s]; [done|]. destruct (byte_in "128" "191" x) eqn:E; [|done]. injection H as <-. by repeat constructor; auto. }
  destruct (byte_in "224" "239" c).
  { destruct s as [|x [|y s]]; [done|done|]. destruct (_ && _) eqn:E; [|done]. injection H as <-. split_and_hyps.
    repeat constructor; [eapply W3; [| |eassumption]; set_solver|auto]. }
  destruct (byte_in "240" "244" c); [|done].
  destruct s as [|x [|y [|z s]]]; [done|done|done|]. destruct (_ && _) eqn:E; [|done]. injection H as <-. split_and_hyps.
  repeat constructor; [eapply W3; [| |eassumption]; set_solver|auto|auto].
Qed.

Lemma shown_no_space s : Forall no_space (shown s).
Proof.
  assert (H : forall s keep drop_, Forall wide (take keep s) -> Forall no_space (show_from keep drop_ s));
    [|by apply H].
  clear s. intros s. induction s as [|c s IH]; intros keep drop_ Hk; [done|]. cbn [show_from].
  destruct keep as [|keep].
  - destruct drop_ as [|drop_]; [|by apply IH]. destruct (leading_encoding _ _) eqn:E.
    + destruct (rune_width (c :: s)) as [|k] eqn:Ew.
      * apply Forall_app. split; [repeat constructor|by apply IH].
      * constructor; [by eapply leading_none_byte|]. apply IH. by eapply rune_width_wide.
    + apply Forall_app. split; [repeat constructor|by apply IH].
  - inversion Hk; subst. constructor; [by apply wide_no_space|]. by apply IH.
Qed.

Lemma shown_no_blank s : " "%char ∉ shown s.
Proof. intros H. pose proof (shown_no_space s) as Hs. rewrite Forall_forall in Hs. by apply Hs in H. Qed.

Lemma split_shown ws : ws <> [] -> split_byte " "%char (join " " (shown <$> ws)) = shown <$> ws.
Proof.
  induction ws as [|w ws IH]; [done|]. intros _. destruct ws as [|w' ws].
  - cbn. apply split_byte_one, shown_no_blank.
  - change (shown <$> w :: w' :: ws) with (shown w :: (shown <$> w' :: ws)).
    change (join " " (shown w :: (shown <$> w' :: ws))) with (shown w ++ " "%char :: join " " (shown <$> w' :: ws)).
    by rewrite split_byte_app, IH by (done || apply shown_no_blank).
Qed.

(** ** The facts fit together *)
Section Facts.
Context (print : Sh.Node -> gostr) (home : gostr).

Definition env_inv (e : env) : Prop :=
  (e_background e = true -> e_subshell e = true) /\ (forall l, e_out e = Piped l -> e_subshell e = true).

Definition consistent (c : Command) : Prop :=
  (Background c = true -> Subshell c = true)
  /\ (Pipe c <> [] -> Subshell c = true /\ Output c = false)
  /\ Args c <> [] /\ split_byte " "%char (Text c) = shown <$> Args c
  /\ Forall (Forall no_space) (split_byte " "%char (Text c)).

Lemma consistent_closed : closed print home (fun e r => env_inv e -> forall st, Forall consistent (r st).1).
Proof.
  split; unfold env_inv; try done.
  - intros e r1 r2 H1 H2 He st. unfold seq_d. specialize (H1 He st). destruct (r1 st) as [c1 st1].
    specialize (H2 He st1). destruct (r2 st1). by apply Forall_app.
  - intros e r H He st. specialize (H ltac:(done) st). unfold child_d. by destruct (r st).
  - intros e r H He st. specialize (H ltac:(done) st). unfold child_d. by destruct (r st).
  - intros e r H He st. specialize (H ltac:(done) st). unfold child_d. by destruct (r st).
  - intros e r H He. apply H. cbn. naive_solver.
  - intros e o rx ry Hx Hy [He _] st. unfold pipe_d. specialize (Hy (child e) ltac:(done) (st.1, o)).
    destruct (ry _ _) as [cy st']. cbn in Hy.
    specialize (Hx (MkEnv true (e_background e) (Piped ((Text <$> cy) ++ out_texts (e_out e)))) ltac:(done) st).
    destruct (rx _ _) as [cx ?]. by apply Forall_app.
  - intros e args r Ha Hr [Hb Ho] st. unfold seq_d, call_d, cd_d. specialize (Hr (conj Hb Ho) st).
    destruct (r st) as [cs st']. rewrite app_nil_r. constructor; [|done]. unfold consistent. cbn.
    rewrite (list_fmap_compose (wordText print) shown), split_shown by (by destruct args). split_and!; try done.
    + destruct (e_out e) eqn:E; cbn; try done. split; [by eapply Ho|done].
    + by destruct args.
    + apply Forall_fmap, Forall_true. intros a. apply shown_no_space.
Qed.

Lemma script_consistent l : Forall consistent (script_facts print home l).1.
Proof.
  pose proof (closed_script print home _ consistent_closed l) as H.
  assert (Hm : env_inv main_env) by (by split). specialize (H Hm (MkDir [] true, [])).
  unfold script_facts. by destruct (stmts_d _ _ _).
Qed.

(** What a command has downstream is recorded behind it, or is downstream of
    the whole construct. *)
Definition forward (e : env) (r : denotation) : Prop :=
  forall st pre c post, (r st).1 = pre ++ c :: post ->
  Pipe c `sublist_of` (Text <$> post) ++ out_texts (e_out e).

Lemma split_app {A} (c1 c2 : list A) pre c post : c1 ++ c2 = pre ++ c :: post ->
  (exists post1, c1 = pre ++ c :: post1 /\ post = post1 ++ c2)
  \/ (exists pre2, c2 = pre2 ++ c :: post /\ pre = c1 ++ pre2).
Proof.
  revert c1. induction pre as [|p pre IH]; intros [|x c1] E; cbn in *.
  - right. by exists [].
  - left. injection E as -> <-. by exists c1.
  - right. by exists (p :: pre).
  - injection E as -> E. destruct (IH _ E) as [(q & -> & ->)|(q & -> & ->)]; [left|right]; by exists q.
Qed.

Lemma forward_child e r : forward (child e) r -> forward e (child_d r).
Proof.
  intros H st pre c post E. unfold child_d in E. specialize (H st pre c post). by destruct (r st); apply H.
Qed.

Lemma forward_closed : closed print home forward.
Proof.
  split.
  - by intros e st [|? ?] ? ? [=].
  - by intros e o st [|? ?] ? ? [=].
  - intros e r1 r2 H1 H2 st pre c post E. unfold seq_d in E. specialize (H1 st).
    destruct (r1 st) as [c1 st1]. specialize (H2 st1). destruct (r2 st1) as [c2 st2].
    apply split_app in E as [(q & E & ->)|(q & E & ->)].
    + rewrite fmap_app, <- (assoc_L (++)). etrans; [by eapply H1|].
      apply sublist_app; [done|]. by apply sublist_inserts_l.
    + by eapply H2.
  - apply forward_child.
  - apply forward_child.
  - apply forward_child.
  - intros e r H st pre c post E. etrans; [by eapply H|]. cbn. rewrite app_nil_r. by apply sublist_inserts_r.
  - intros e o rx ry Hx Hy st pre c post E. unfold pipe_d in E. specialize (Hy (child e) (st.1, o)).
    destruct (ry _ _) as [cy st'].
    specialize (Hx (MkEnv true (e_background e) (Piped ((Text <$> cy) ++ out_texts (e_out e)))) st).
    destruct (rx _ _) as [cx ?]. apply split_app in E as [(q & E & ->)|(q & E & ->)].
    + rewrite fmap_app, <- (assoc_L (++)). by eapply Hx.
    + by eapply Hy.
  - intros e args r Ha H st pre c post E. unfold seq_d, call_d, cd_d in E. specialize (H st).
    destruct (r st) as [cs st']. cbn in E. rewrite app_nil_r in E. destruct pre as [|p pre].
    + injection E as <- <-. cbn. by apply sublist_inserts_l.
    + injection E as _ E. by eapply H.
Qed.

Lemma script_forward l pre c post : (script_facts print home l).1 = pre ++ c :: post ->
  Pipe c `sublist_of` (Text <$> post).
Proof.
  pose proof (closed_script print home _ forward_closed l) as H. unfold script_facts.
  intros E. specialize (H (MkDir [] true, []) pre c post). destruct (stmts_d _ _ _).
  specialize (H E). cbn in H. by rewrite app_nil_r in H.
Qed.

(** *** Every simple command is listed *)

(** The argument lists of the calls in a tree, in the order of the walk. *)
Fixpoint calls (m : bool) (n : Sh.Node) : list (list (list Sh.Node)) :=
  let all m l := flat_map (calls m) l in
  let opt m o := match o with Some n => calls m n | None => [] end in
  match n with
  | Sh.Stmt c _ _ r => opt true c ++ all false r
  | Sh.CmdSubst l | Sh.ProcSubst l => all true l
  | Sh.CallExpr a args =>
      all false a ++ (match m, args with true, _ :: _ => [args] | _, _ => [] end)
      ++ flat_map (fun w => all false w) args
  | Sh.BinaryCmd _ x y => calls m x ++ calls m y
  | Sh.Subshell l | Sh.Block l => all m l
  | Sh.IfClause c t x => all m c ++ all m t ++ opt m x
  | Sh.WhileClause _ c d => all m c ++ all m d
  | Sh.ForClause l d => calls false l ++ all m d
  | Sh.CaseClause w i =>
      all false w ++ flat_map (fun it => flat_map (fun p => all false p) it.1 ++ all m it.2) i
  | Sh.FuncDecl b => calls m b
  | Sh.TimeClause s => opt m s
  | Sh.CoprocClause s => calls m s
  | Sh.Redirect _ _ w h => all false w ++ all false h
  | Sh.Lit _ | Sh.SglQuoted _ _ => []
  | Sh.DblQuoted l | Sh.ParamExp _ l | Sh.Other l => all false l
  end.

Definition lists (r : denotation) (l : list (list (list Sh.Node))) : Prop :=
  forall st, Args <$> (r st).1 = fmap (wordText print) <$> l.

Lemma lists_nothing : lists nothing [].
Proof. by intros st. Qed.
Lemma lists_op o : lists (op_d o) [].
Proof. by intros st. Qed.
Lemma lists_seq r1 r2 l1 l2 : lists r1 l1 -> lists r2 l2 -> lists (seq_d r1 r2) (l1 ++ l2).
Proof.
  intros H1 H2 st. unfold seq_d. specialize (H1 st). destruct (r1 st) as [c1 st1].
  specialize (H2 st1). destruct (r2 st1). cbn in *. by rewrite !fmap_app, H1, H2.
Qed.
Lemma lists_child r l : lists r l -> lists (child_d r) l.
Proof. intros H st. unfold child_d. specialize (H st). by destruct (r st). Qed.
Lemma lists_each {A} (r : A -> denotation) f l :
  Forall (fun n => lists (r n) (f n)) l -> lists (each_d r l) (flat_map f l).
Proof. induction 1; [apply lists_nothing|]. by apply lists_seq. Qed.
Lemma lists_stmts (r : Sh.Node -> denotation) f l :
  Forall (fun n => lists (r n) (f n)) l -> lists (stmts_d r l) (flat_map f l).
Proof.
  intros Hl. unfold stmts_d. generalize (@None Sh.Node).
  induction Hl as [|n l Hn _ IH]; intros prev; [apply lists_nothing|].
  apply lists_seq; [|apply IH]. apply (lists_seq _ _ []); [|done].
  destruct prev; [apply lists_op|apply lists_nothing].
Qed.

Definition lists_node (n : Sh.Node) : Prop := forall m e, lists (facts print home m n e) (calls m n).

Lemma lists_words l e : Forall lists_node l ->
  lists (each_d (fun n => facts print home false n e) l) (flat_map (calls false) l).
Proof. intros Hl. apply lists_each. eapply Forall_impl; [exact Hl|]. intros n Hn. apply Hn. Qed.
Lemma lists_list l e : Forall lists_node l ->
  lists (stmts_d (fun n => facts print home true n e) l) (flat_map (calls true) l).
Proof. intros Hl. apply lists_stmts. eapply Forall_impl; [exact Hl|]. intros n Hn. apply Hn. Qed.
Lemma lists_words2 ll e : Forall (Forall lists_node) ll ->
  lists (each_d (fun a => each_d (fun n => facts print home false n e) a) ll)
    (flat_map (fun w => flat_map (calls false) w) ll).
Proof. intros Hl. apply lists_each. eapply Forall_impl; [exact Hl|]. intros a. apply lists_words. Qed.
Lemma lists_body (m : bool) l e : Forall lists_node l ->
  lists (if m then stmts_d (fun n => facts print home true n e) l
         else each_d (fun n => facts print home false n e) l) (flat_map (calls m) l).
Proof. intros Hl. destruct m; [by apply lists_list|by apply lists_words]. Qed.

Lemma lists_opt (o : option Sh.Node) m e : (forall n, o = Some n -> lists_node n) ->
  lists (match o with Some n => facts print home m n e | None => nothing end)
    (match o with Some n => calls m n | None => [] end).
Proof. intros Ho. destruct o as [n|]; [by apply (Ho n)|apply lists_nothing]. Qed.

Lemma lists_pipe o rx ry e lx ly : (forall e, lists (rx e) lx) -> (forall e, lists (ry e) ly) ->
  lists (pipe_d o rx ry e) (lx ++ ly).
Proof.
  intros Hx Hy st. unfold pipe_d. specialize (Hy (child e) (st.1, o)). destruct (ry _ _) as [cy st'].
  specialize (Hx (MkEnv true (e_background e) (Piped ((Text <$> cy) ++ out_texts (e_out e)))) st).
  destruct (rx _ _) as [cx ?]. cbn in *. by rewrite !fmap_app, Hx, Hy.
Qed.

Lemma lists_BinaryCmd o x y : lists_node x -> lists_node y -> lists_node (Sh.BinaryCmd o x y).
Proof.
  intros Hx Hy m e. cbn [facts calls].
  assert (Hs : lists (seq_d (facts print home true x e) (seq_d (op_d (op_text o)) (facts print home true y e)))
    (calls true x ++ calls true y)).
  { apply lists_seq; [apply Hx|]. apply (lists_seq _ _ []); [apply lists_op|apply Hy]. }
  destruct m; [|apply lists_seq; [apply Hx|apply Hy]]. destruct o; try apply Hs; apply lists_pipe; auto.
Qed.

Lemma lists_facts n : lists_node n.
Proof.
  induction n using Sh.node_induction; intros m' ee; cbn [facts calls].
  - assert (Hin : forall e, lists (seq_d (match c with Some c => facts print home true c e | None => nothing end)
      (each_d (fun n => facts print home false n e) r)) ((match c with Some n => calls true n | None => [] end) ++ flat_map (calls false) r)).
    { intros e. apply lists_seq; [by apply lists_opt|by apply lists_words]. }
    destruct (b || p); [apply lists_child|]; apply Hin.
  - apply lists_seq; by apply lists_words.
  - apply lists_seq; [by apply lists_words|]. destruct m'; [|by apply (lists_words2 w)].
    destruct w as [|x w]; [apply lists_nothing|]. apply (lists_seq _ _ [x :: w]); [by intros st|].
    rewrite <- (app_nil_r (flat_map _ _)). apply lists_seq; [by apply (lists_words2 (x :: w))|by intros st].
  - by apply lists_BinaryCmd.
  - destruct m'; [apply lists_child; by apply lists_list|by apply lists_words].
  - by apply lists_body.
  - apply lists_seq; [destruct m'; [destruct c|]; try by apply lists_words|].
    + apply lists_nothing.
    + rewrite <- (app_nil_r (flat_map _ _)). apply lists_seq; [by apply lists_list|apply lists_op].
    + apply lists_seq; [by apply lists_body|]. destruct e as [x|]; [|apply lists_nothing].
      apply (lists_seq _ _ []); [destruct m'; [apply lists_op|apply lists_nothing]|by apply (H1 x)].
  - apply lists_seq; [by apply lists_body|]. apply (lists_seq _ _ []); [|by apply lists_body].
    destruct m'; [apply lists_op|apply lists_nothing].
  - apply lists_seq; [apply IHn|by apply lists_body].
  - apply lists_seq; [by apply lists_words|]. apply lists_each. eapply Forall_impl; [exact H0|].
    intros [ps b] [Hps Hb]. apply lists_seq; [by apply (lists_words2 ps)|by apply lists_body].
  - destruct m'; [apply lists_child|]; apply IHn.
  - by apply lists_opt.
  - destruct m'; [apply lists_child|]; apply IHn.
  - apply lists_nothing.
  - apply lists_nothing.
  - by apply lists_words.
  - by apply lists_words.
  - apply lists_child. by apply lists_list.
  - apply lists_child. by apply lists_list.
  - by apply lists_words.
Qed.

(** *** Directory changes of child shells *)

(** A word that is fixed text is shown as that text. *)
Lemma staticPart_text p : forall inDbl t, staticPart p [] inDbl = Some t -> partText print p inDbl = t.
Proof.
  induction p using Sh.node_induction; intros inDbl txt Hs; try done; cbn in Hs |- *; try (by simplify_eq).
  - by destruct d; simplify_eq.
  - revert txt Hs. induction H as [|q l Hq _ IH]; intros txt Hs; [by injection Hs as <-|]. cbn.
    destruct (staticPart q [] true) as [u|] eqn:E; [|done].
    apply fmap_Some in Hs as (v & Hv & ->). by rewrite (Hq _ _ E), (IH v Hv).
Qed.

Lemma staticWord_text w t : staticWord w [] = Some t -> wordText print w = t.
Proof.
  assert (H : forall l t, static_parts [] false l = Some t -> wordText print l = t).
  { induction l as [|q l IH]; intros u Hu; [by injection Hu as <-|]. cbn in Hu.
    change (wordText print (q :: l)) with (partText print q false ++ wordText print l).
    destruct (staticPart q [] false) as [x|] eqn:E; [|done].
    apply fmap_Some in Hu as (v & Hv & ->). by rewrite (staticPart_text _ _ _ E), (IH v Hv). }
  destruct w as [|p w]; [by intros [= <-]|]. unfold staticWord.
  assert (Ht : tilde [] p = None) by (by destruct p). rewrite Ht. apply H.
Qed.

(** A command that can move no shell but its own. *)
Definition stays_put (c : Command) : Prop := Subshell c = true \/ is_cd (head (Args c)) = false.

Definition keeps_dir (e : env) (r : denotation) : Prop :=
  forall st, e_subshell e = false -> Forall stays_put (r st).1 -> (r st).2.1 = st.1.

Lemma keeps_dir_child e r : keeps_dir e (child_d r).
Proof. intros st _ _. unfold child_d. by destruct (r st). Qed.

Lemma keeps_dir_closed : closed print home keeps_dir.
Proof.
  split; try by intros.
  - intros e r1 r2 H1 H2 st He Hf. unfold seq_d in *. specialize (H1 st He). destruct (r1 st) as [c1 st1].
    specialize (H2 st1 He). destruct (r2 st1) as [c2 st2]. cbn in *. apply Forall_app in Hf as [Hf1 Hf2].
    by rewrite H2, H1.
  - intros e r _. apply keeps_dir_child.
  - intros e r _. apply keeps_dir_child.
  - intros e r _. apply keeps_dir_child.
  - intros e o rx ry _ _ st _ _. unfold pipe_d. destruct (ry _ _), (rx _ _). done.
  - intros e args r Ha H st He Hf. unfold seq_d, call_d, cd_d in *. specialize (H st He).
    destruct (r st) as [cs st1]. cbn in *. rewrite app_nil_r in Hf. apply Forall_cons in Hf as [Hc Hf].
    rewrite (H Hf). destruct Hc as [Hc|Hc]; cbn in Hc; [congruence|].
    destruct args as [|w args]; [done|]. cbn in Hc |- *.
    destruct (staticWord w []) as [name|] eqn:E; [|done]. apply staticWord_text in E. subst name.
    by rewrite Hc.
Qed.

Lemma script_keeps_dir l : Forall stays_put (script_facts print home l).1 ->
  (script_facts print home l).2 = MkDir [] true.
Proof.
  pose proof (closed_script print home _ keeps_dir_closed l) as H. unfold script_facts.
  specialize (H (MkDir [] true, []) eq_refl). destruct (stmts_d _ _ _) as [c [d o]]. exact H.
Qed.

Context (parse : gostr -> option (list Sh.Node)).

(** A script changes the directory of the main shell only by a [cd],
    [pushd] or [popd] that the facts show outside any child shell: when every
    such command listed is in a subshell, the next call starts where this one
    did. *)
Theorem subshells_isolated (script : gostr) (s : Script) :
  Parse print home parse script = Some s ->
  Forall stays_put (Commands s) -> EndDir s = [] /\ EndDirKnown s = true.
Proof.
  unfold Parse. intros (l & _ & ->)%fmap_Some Hf. rewrite script_of_facts in *.
  pose proof (script_keeps_dir l) as H. destruct (script_facts _ _ _) as [c d]. cbn in *.
  by rewrite (H Hf).
Qed.

(** Nothing is hidden from the rules: the commands of a parsed script are,
    in the order of the walk, exactly the simple commands of its tree, whatever
    constructs, substitutions, redirections and functions they stand in. *)
Theorem every_command_listed (script : gostr) :
  (fun s => Args <$> Commands s) <$> Parse print home parse script
  = (fun l => fmap (wordText print) <$> flat_map (calls true) l) <$> parse script.
Proof.
  unfold Parse. destruct (parse script) as [l|]; [|done]. cbn -[script_of]. f_equal. rewrite script_of_facts.
  pose proof (lists_list l main_env (Forall_true _ _ lists_facts) (MkDir [] true, [])) as H.
  unfold script_facts. by destruct (stmts_d _ _ _).
Qed.

(** The facts of every command agree with each other.  A background command
    is in a child shell; a piped one is in a child shell and its output does not
    reach the tool result; the words shown to the patterns are the arguments
    without any white space in them, so that spaces only separate words; and what
    a command has downstream stands behind it in the list, in order. *)
Theorem facts_consistent (script : gostr) (s : Script) (pre post : list Command) (c : Command) :
  Parse print home parse script = Some s -> Commands s = pre ++ c :: post ->
  (Background c = true -> Subshell c = true)
  /\ (Pipe c <> [] -> Subshell c = true /\ Output c = false)
  /\ Args c <> [] /\ split_byte " "%char (Text c) = shown <$> Args c
  /\ Forall (Forall no_space) (split_byte " "%char (Text c))
  /\ Pipe c `sublist_of` (Text <$> post).
Proof.
  unfold Parse. intros (l & _ & ->)%fmap_Some Hs. rewrite script_of_facts in Hs.
  pose proof (script_consistent l) as Hc. pose proof (script_forward l pre c post) as Hp.
  destruct (script_facts _ _ _) as [cs d]. cbn in *. subst cs.
  apply Forall_app in Hc as [_ [Hc _]%Forall_cons]. destruct Hc as (? & ? & ? & ? & ?).
  split_and!; try done. by apply Hp.
Qed.
End Facts.

(** ** Witnesses

    [cd /r && git log | head -1 & (cd sub; make) > out] and
    [echo $(cd x; pwd)]. *)
Definition lit (s : gostr) : list Sh.Node := [Sh.Lit s].
Definition call (ws : list gostr) : Sh.Node := Sh.Stmt (Some (Sh.CallExpr [] (lit <$> ws))) false false [].
Definition demo_print (n : Sh.Node) : gostr := "$()".

Definition demo_script : list Sh.Node :=
  [Sh.Stmt (Some (Sh.BinaryCmd Sh.AndStmt (call ["cd"; "/r"])
     (Sh.Stmt (Some (Sh.BinaryCmd Sh.Pipe (call ["git"; "log"]) (call ["head"; "-1"]))) false false []))) true false [];
   Sh.Stmt (Some (Sh.Subshell [call ["cd"; "sub"]; call ["make"]])) false false
     [Sh.Redirect RdrOut None (lit "out") []];
   Sh.Stmt (Some (Sh.CallExpr [] [lit "echo"; [Sh.CmdSubst [call ["cd"; "x"]; call ["pwd"]]]])) false false []].

Definition demo_parse (s : gostr) : option (list Sh.Node) :=
  if bool_decide (s = "demo") then Some demo_script else None.

Example demo_commands :
  (fun s => (fun c => (Text c, (Background c, Subshell c, Output c), Dir c, Op c, Pipe c)) <$> Commands s)
    <$> Parse demo_print "/home/me" demo_parse "demo"
  = Some [("cd /r", (true, true, true), [], [], []);
          ("git log", (true, true, false), "/r", "&&", ["head -1"]);
          ("head -1", (true, true, true), "/r", "|", []);
          ("cd sub", (false, true, false), [], "&", []);
          ("make", (false, true, false), "sub", ";", []);
          ("echo $()", (false, false, true), [], ";", []);
          ("cd x", (false, true, false), [], ";", []);
          ("pwd", (false, true, false), "x", ";", [])].
Proof. vm_compute. reflexivity. Qed.

Lemma subshells_isolated_witness : exists s, Parse demo_print "/home/me" demo_parse "demo" = Some s
  /\ EndDir s = [] /\ EndDirKnown s = true.
Proof.
  eexists. split; [vm_compute; reflexivity|].
  apply (subshells_isolated demo_print "/home/me" demo_parse "demo"); [vm_compute; reflexivity|].
  repeat (constructor; [first [by left|by right]|]). constructor.
Defined.

Lemma facts_consistent_witness : exists s c post, Parse demo_print "/home/me" demo_parse "demo" = Some s
  /\ Commands s = [] ++ c :: post /\ Pipe c `sublist_of` (Text <$> post).
Proof.
  eexists _, _, _. split; [vm_compute; reflexivity|]. split; [vm_compute; reflexivity|].
  eapply (facts_consistent demo_print "/home/me" demo_parse "demo" _ []); vm_compute; reflexivity.
Defined.
