(* ===== verification/PreTool.v ===== *)
(** * PreToolUse rules (src/internal/delegator/pretool)

    The rule engine behind the PreToolUse hook: patterns.go, pretool.go (rules,
    validation, layers, the set of tools), match.go (the constraints and the
    first denial), when.go (the environment and the outcome of a when-check)
    and examples.go (a rule's own test cases).  The parsed script is that of
    PreShell.v.

    [regexp], [encoding/json], the parser, the process that runs a when-check
    and the order in which Go visits a map are parameters. *)
From S2P Require Import Prelude GoStrings GoText ShellAst PreShell.
From Stdlib Require Import Sorted.

(** ** Patterns (patterns.go)

    [None] is a nil list, which a layer does not override with. *)
Abbreviation Patterns := (option (list gostr)).
Abbreviation pats p := (default [] p).

(** A compiled pattern, as its [MatchString]. *)
Definition regexp : Type := gostr -> bool.

(** A decoded TOML value; a table's entries come in the order they are visited. *)
#[warnings="-register-all"]
Inductive toml :=
| TString (s : gostr)
| TArray (l : list toml)
| TTable (l : list (gostr * toml))
| TOther.

Fixpoint toml_strings (l : list toml) : option (list gostr) :=
  match l with
  | [] => Some []
  | TString s :: l => cons s <$> toml_strings l
  | _ => None
  end.

(** [UnmarshalTOML]; [None] is an error. *)
Definition Patterns_UnmarshalTOML (v : toml) : option (list gostr) :=
  match v with
  | TString s => Some [s]
  | TArray l => toml_strings l
  | _ => None
  end.

Definition Patterns_UnmarshalJSON (json_string : gostr -> option gostr)
    (json_strings : gostr -> option (list gostr)) (b : gostr) : option (list gostr) :=
  match json_string b with
  | Some s => Some [s]
  | None => json_strings b
  end.

(** ** Rules (pretool.go, examples.go) *)
Definition ActionDeny : gostr := "deny".
Definition bashTool : gostr := "Bash".

(** [commandWrap]: the pattern is anchored at the first word. *)
Definition commandWrap (pat : gostr) : gostr := "^(?:" ++ pat ++ ")".

Record Example_ := MkExample { ex_Text : gostr; ex_Cwd : gostr; table : bool; unknown : list gostr }.

Record Rule := MkRule {
  Name : gostr;
  Tool : gostr;
  Input : option (gmap gostr (list gostr));
  Command_ : Patterns;
  Cwd : Patterns;
  r_Background : option bool;
  r_Subshell : option bool;
  r_Output : option bool;
  When : gostr;
  Action : gostr;
  Reason : gostr;
  Enabled : option bool;
  DenyExamples : option (list Example_);
  AllowExamples : option (list Example_);
}.

(** [overlay]: every field the later rule sets replaces the earlier one's. *)
Definition or_text (over base : gostr) : gostr := if bool_decide (over = []) then base else over.
Definition or_else {A} (over base : option A) : option A :=
  match over with Some _ => over | None => base end.

Definition overlay (base over : Rule) : Rule :=
  MkRule (Name base) (or_text (Tool over) (Tool base)) (or_else (Input over) (Input base))
    (or_else (Command_ over) (Command_ base)) (or_else (Cwd over) (Cwd base))
    (or_else (r_Background over) (r_Background base)) (or_else (r_Subshell over) (r_Subshell base))
    (or_else (r_Output over) (r_Output base)) (or_text (When over) (When base))
    (or_text (Action over) (Action base)) (or_text (Reason over) (Reason base))
    (or_else (Enabled over) (Enabled base)) (or_else (DenyExamples over) (DenyExamples base))
    (or_else (AllowExamples over) (AllowExamples base)).

Definition with_action (a : gostr) (r : Rule) : Rule :=
  MkRule (Name r) (Tool r) (Input r) (Command_ r) (Cwd r) (r_Background r) (r_Subshell r) (r_Output r)
    (When r) a (Reason r) (Enabled r) (DenyExamples r) (AllowExamples r).

Definition named {A} (name : gostr) (o : option A) : list gostr :=
  match o with Some _ => [name] | None => [] end.

Definition commandFields (r : Rule) : list gostr :=
  (match pats (Command_ r) with [] => [] | _ => ["command" : gostr] end)
  ++ named "background" (r_Background r) ++ named "subshell" (r_Subshell r) ++ named "output" (r_Output r).

(** [toolNameRe]: [^[A-Za-z0-9_]+$]. *)
Definition word_byte (c : ascii) : bool :=
  byte_in "A" "Z" c || byte_in "a" "z" c || byte_in "0" "9" c || (c =?b "_"%char).
Definition tool_name (s : gostr) : bool := negb (bool_decide (s = [])) && forallb word_byte s.

Inductive invalid :=
| NameRequired (i : nat)
| DuplicateName (name : gostr)
| BadTool (name tool : gostr)
| BadAction (name action : gostr)
| OnlyBash (name field tool : gostr)
| BadInput (name field : gostr)
| BadCommand (name : gostr)
| BadCwd (name : gostr)
| BadWhen (name : gostr)
| Incomplete (name : gostr).

Section Rules.
Context (compile : gostr -> option regexp) (parse : gostr -> option (list Sh.Node)).
(** The order in which Go visits a map. *)
Context (visit : gmap gostr (list gostr) -> list (gostr * list gostr)).

Definition pats_validate (l : list gostr) : bool := forallb (fun p => bool_decide (is_Some (compile p))) l.

(** [parsesAsBash]. *)
Definition parsesAsBash (script : gostr) : bool := bool_decide (is_Some (parse script)).

Definition bad_input (r : Rule) : option gostr :=
  fst <$> List.find (fun kv => negb (pats_validate kv.2)) (visit (default ∅ (Input r))).

(** A per-command constraint of a rule for another tool. *)
Definition only_bash (r : Rule) : option gostr :=
  if negb (bool_decide (Tool r = [])) && negb (bool_decide (Tool r = bashTool))
  then head (commandFields r) else None.

(** The checks of one rule, after its name. *)
Definition validate_rule (r : Rule) : option invalid :=
  if negb (bool_decide (Tool r = [])) && negb (tool_name (Tool r)) then Some (BadTool (Name r) (Tool r))
  else if negb (bool_decide (Action r = [])) && negb (bool_decide (Action r = ActionDeny))
  then Some (BadAction (Name r) (Action r))
  else match only_bash r with
  | Some f => Some (OnlyBash (Name r) f (Tool r))
  | None =>
      match bad_input r with
      | Some field => Some (BadInput (Name r) field)
      | None =>
          if negb (pats_validate (pats (Command_ r))) then Some (BadCommand (Name r))
          else if negb (pats_validate (pats (Cwd r))) then Some (BadCwd (Name r))
          else if negb (bool_decide (When r = [])) && negb (parsesAsBash (When r)) then Some (BadWhen (Name r))
          else None
      end
  end.

Fixpoint validate_loop (i : nat) (seen : gset gostr) (rules : list Rule) : option invalid :=
  match rules with
  | [] => None
  | r :: rules =>
      if bool_decide (Name r = []) then Some (NameRequired i)
      else if bool_decide (Name r ∈ seen) then Some (DuplicateName (Name r))
      else match validate_rule r with
           | Some e => Some e
           | None => validate_loop (S i) ({[ Name r ]} ∪ seen) rules
           end
  end.

Definition ValidateLayer (rules : list Rule) : option invalid := validate_loop 0 ∅ rules.

(** [Resolve]: the names in first-seen order, and the merged rule of each. *)
Definition merge_step (acc : list gostr * gmap gostr Rule) (r : Rule) : list gostr * gmap gostr Rule :=
  match acc.2 !! Name r with
  | None => (acc.1 ++ [Name r], <[ Name r := r ]> acc.2)
  | Some prev => (acc.1, <[ Name r := overlay prev r ]> acc.2)
  end.

Definition merge (layers : list (list Rule)) : list gostr * gmap gostr Rule :=
  fold_left (fun acc layer => fold_left merge_step layer acc) layers ([], ∅).

(** What becomes of a merged rule: dropped, skipped with a reason, or kept. *)
Inductive outcome := Dropped | Skipped (e : invalid) | Kept (r : Rule).

Definition settle (r : Rule) : outcome :=
  if bool_decide (Enabled r = Some false) then Dropped
  else
    let r := if bool_decide (Action r = []) then with_action ActionDeny r else r in
    match ValidateLayer [r] with
    | Some e => Skipped e
    | None => if bool_decide (Tool r = []) || bool_decide (Reason r = []) then Skipped (Incomplete (Name r))
              else Kept r
    end.

Definition resolve_step (byName : gmap gostr Rule) (acc : list Rule * list invalid) (name : gostr)
    : list Rule * list invalid :=
  match byName !! name with
  | None => acc
  | Some r => match settle r with
              | Dropped => acc
              | Skipped e => (acc.1, acc.2 ++ [e])
              | Kept r => (acc.1 ++ [r], acc.2)
              end
  end.

Definition Resolve (layers : list (list Rule)) : list Rule * list invalid :=
  let '(order, byName) := merge layers in
  fold_left (resolve_step byName) order ([], []).
End Rules.

(** [ToolNames]: distinct, sorted. *)
Fixpoint tool_names (seen : gset gostr) (rules : list Rule) : list gostr :=
  match rules with
  | [] => []
  | r :: rules =>
      if bool_decide (Tool r ∈ seen) then tool_names seen rules
      else Tool r :: tool_names ({[ Tool r ]} ∪ seen) rules
  end.

Definition ToolNames (rules : list Rule) : list gostr :=
  sort_strings (tool_names ∅ rules).

(** The argument of the hook: JSON in base64url; [None] is an error. *)
Definition Encode (marshal : list Rule -> option gostr) (rules : list Rule) : option gostr :=
  EncodeToString <$> marshal rules.

Definition Decode (unmarshal : gostr -> option (list Rule)) (s : gostr) : option (list Rule) :=
  body ← DecodeString s; unmarshal body.

(** What JSON keeps of a rule: empty fields are left out ([omitempty]), and
    [Enabled] and the examples never leave the process (tag [-]). *)
Definition omit_empty (p : Patterns) : Patterns := match p with Some [] => None | _ => p end.

Definition wire (r : Rule) : Rule :=
  MkRule (Name r) (Tool r) (if bool_decide (default ∅ (Input r) = ∅) then None else Input r)
    (omit_empty (Command_ r)) (omit_empty (Cwd r)) (r_Background r) (r_Subshell r) (r_Output r)
    (When r) (Action r) (Reason r) None None None.

(** ** The preinstalled rules (pretool.go) *)
Definition quote : ascii := "034"%char.

(** The script of [kill_by_pattern]. *)
Definition killByPatternWhen : gostr :=
  "prog= full=0
for a in "
     ++ [quote]
     ++ "$@"
     ++ [quote]
     ++ "; do
  if [ -z "
     ++ [quote]
     ++ "$prog"
     ++ [quote]
     ++ " ]; then
    case ${a##*/} in pkill|pgrep) prog=${a##*/} ;; esac
    continue
  fi
  case $a in
    --) break ;;
    --ignore-ancestors) exit 1 ;;
    --full) full=1 ;;
    --*) ;;
    -*A*) exit 1 ;;
    -*f*) full=1 ;;
  esac
done
[ "
     ++ [quote]
     ++ "$full"
     ++ [quote]
     ++ " = 1 ] || exit 1
[ "
     ++ [quote]
     ++ "$prog"
     ++ [quote]
     ++ " = pkill ] && exit 0
printf '%s\n' "
     ++ [quote]
     ++ "$CMD_PIPE"
     ++ [quote]
     ++ " | grep -Eq '^(sudo( \S+)* )?xargs( \S+)* (sudo( \S+)* )?kill( |$)' && exit 0
printf '%s\n' "
     ++ [quote]
     ++ "$TOOL_COMMANDS"
     ++ [quote]
     ++ " | grep -Eq '^(sudo( \S+)* )?kill .*\$\((sudo"
     ++ WordSpace
     ++ ")?pgrep"
     ++ WordSpace
     ++ "' && exit 0
exit 1
".

Definition deny_rule (name tool : gostr) (command : Patterns) (when_ reason : gostr) : Rule :=
  MkRule name tool None command None None None None when_ ActionDeny reason None None None.

Definition Defaults : list Rule :=
  [deny_rule "ask_user_question" "AskUserQuestion" None []
    ("AskUserQuestion is disabled in foci. To ask the user something, use the foci_ask shell function instead. It is asynchronous: it posts the question to the user's chat and returns at once, and the answer arrives later as a new message, so end your turn after asking.");
   deny_rule "cron_create" "CronCreate" None []
    ("CronCreate is disabled in foci: its jobs live only in this session and are lost on restart, reload or compaction. For REPEATING events use crontab (see the crontab-edit skill). For SINGLE (one-shot) events use the foci_remind shell function.");
   deny_rule "schedule_wakeup" "ScheduleWakeup" None []
    ("ScheduleWakeup is disabled in foci: its wakeups live only in this Claude Code session and are lost on restart, reload or compaction. For a SINGLE (one-shot) wakeup use foci_remind --wake, which foci keeps across restarts. For REPEATING events use crontab (see the crontab-edit skill).");
   deny_rule "kill_by_pattern" bashTool (Some ["(sudo (\S+ )*)?(\S*/)?(pkill|pgrep)( |$)"]) killByPatternWhen
    ("Do not kill by command-line pattern (pkill -f, kill $(pgrep -f ...), pgrep -f ... | xargs kill): the pattern is in your own shell's command line, so the match kills the shell running this call (exit 144, no output) and leaves the target half-dead. Find the PID first, e.g. ps -eo pid,args | grep "
     ++ [quote]
     ++ "[x]yz"
     ++ [quote]
     ++ " (the brackets stop grep matching itself), then kill that PID in a separate call. Or add -A (--ignore-ancestors), which excludes your own shell.");
   deny_rule "grep_option_after_dashdash" bashTool (Some ["(sudo (\S+ )*)?(\S*/)?(grep|egrep|fgrep|zgrep|rg|ugrep|ug)( \S+)* -- \S+( \S+)* -\S"]) []
    ("An option after a standalone -- in grep/rg is not an option: -- ends option parsing, so it is read as a FILE name. The option is silently not applied, grep reports a missing file, and the exit status can read as no match. Move every option before --, and quote globs: grep -rqw --include='*.go' -- "
     ++ [quote]
     ++ "$pat"
     ++ [quote]
     ++ " DIR...")].

(** ** When-checks (when.go) *)
Record Call := MkCall { c_Tool : gostr; c_Input : gostr; c_Cwd : gostr }.

(** The part of [os.Environ] and the directory queries that a check sees. *)
Record Host := MkHost {
  environ : list gostr;
  getwd : option gostr;
  is_dir : gostr -> bool;
}.

Definition env_key (kv : gostr) : gostr := (cut "=" kv).1.1.

Definition env_dropped (k : gostr) : bool :=
  in_table ["BASH_ENV"; "ENV"; "PWD"] k || has_prefix "TOOL_" k || has_prefix "CMD_" k.

(** [envNameRe]: every rune outside [A-Z0-9_] becomes an underscore. *)
Definition env_byte (c : ascii) : bool :=
  byte_in "A" "Z" c || byte_in "0" "9" c || (c =?b "_"%char).

Fixpoint env_name_from (skip : nat) (s : gostr) : gostr :=
  match s with
  | [] => []
  | c :: s' =>
      match skip with
      | S skip => env_name_from skip s'
      | O => if env_byte c then c :: env_name_from 0 s'
             else "_"%char :: env_name_from (rune_width (c :: s') - 1) s'
      end
  end.

Definition env_name (s : gostr) : gostr := env_name_from 0 s.

Section When.
Context (unicode_upper : gostr -> gostr) (json_string : gostr -> option gostr).
Context (visit_fields : gmap gostr gostr -> list (gostr * gostr)).

Definition whenEnv (h : Host) (c : Call) (fields : gmap gostr gostr) : list gostr :=
  List.filter (fun kv => negb (env_dropped (env_key kv))) (environ h)
  ++ ["TOOL_NAME=" ++ c_Tool c; "TOOL_INPUT=" ++ c_Input c; "TOOL_CWD=" ++ c_Cwd c]
  ++ omap (fun kv => match json_string kv.2 with
                     | Some s => Some ("TOOL_INPUT_" ++ env_name (ToUpper unicode_upper kv.1) ++ "=" ++ s)
                     | None => None
                     end) (visit_fields fields).
End When.

Definition absDir (h : Host) (dir : gostr) (known : bool) (cwd : gostr) : gostr :=
  if negb known then []
  else if is_abs dir then dir
  else if bool_decide (cwd = []) then
    match getwd h with Some wd => path_join wd dir | None => [] end
  else path_join cwd dir.

Definition scriptEnv (h : Host) (s : Script) (cwd : gostr) : list gostr :=
  ["TOOL_COMMANDS=" ++ join ["010"%char] (Text <$> Commands s);
   "TOOL_END_DIR=" ++ absDir h (EndDir s) (EndDirKnown s) cwd].

Definition commandEnv (h : Host) (c : Command) (cwd : gostr) : list gostr :=
  ["CMD_DIR=" ++ absDir h (Dir c) (DirKnown c) cwd; "CMD_OP=" ++ Op c;
   "CMD_PIPE=" ++ join ["010"%char] (Pipe c)].

(** How a process ended: by itself, by the check's own limit, by the budget of
    the call, or not started (or killed, or its pipes held open). *)
Inductive ended := Exited (code : Z) | TimedOut | OutOfBudget | Broken.

(** What can go wrong with a check. *)
Inductive when_failure := NoDirectory | CheckTimedOut | BudgetRanOut | BudgetSpent | BadExit (e : ended).

Definition runWhen (h : Host) (c : Call) (e : ended) : bool * option when_failure :=
  if negb (bool_decide (c_Cwd c = [])) && negb (is_dir h (c_Cwd c)) then (false, Some NoDirectory)
  else match e with
       | TimedOut => (false, Some CheckTimedOut)
       | OutOfBudget => (false, Some BudgetRanOut)
       | Exited code => if (code =? 0)%Z then (true, None)
                        else if (code =? 1)%Z then (false, None) else (false, Some (BadExit e))
       | Broken => (false, Some (BadExit e))
       end.

(** [capped]: the first [whenStderrMax] bytes written. *)
Definition whenStderrMax : nat := 512.
Definition capped_Write (w p : gostr) : gostr :=
  if 0 <? whenStderrMax - length w then w ++ take (Nat.min (length p) (whenStderrMax - length w)) p else w.
Definition capped_suffix (w : gostr) : gostr :=
  match trim_space w with [] => [] | s => ": " ++ s end.

(** ** Matching (match.go) *)
Definition fact_holds (want : option bool) (got : bool) : bool :=
  match want with Some b => Bool.eqb b got | None => true end.

Definition factsMatch (r : Rule) (cmd : Command) : bool :=
  fact_holds (r_Background r) (Background cmd) && fact_holds (r_Subshell r) (Subshell cmd)
  && fact_holds (r_Output r) (Output cmd).

Definition anyMatch (res : list regexp) (subjects : list gostr) : bool :=
  existsb (fun re => existsb re subjects) res.

(** What decodes and runs a call; [run k] is the k-th when-check that the call
    comes to: [None] when the budget is spent before it starts. *)
Record World := MkWorld {
  compile : gostr -> option regexp;
  json_object : gostr -> gmap gostr gostr;
  json_string : gostr -> option gostr;
  parse_script : gostr -> option Script;
  unicode_upper : gostr -> gostr;
  visit_fields : gmap gostr gostr -> list (gostr * gostr);
  host : Host;
  run : nat -> gostr -> gostr -> list gostr -> list gostr -> option ended;
}.

Record matcher := MkMatcher { runs : nat; whenErrs : list (gostr * when_failure) }.

Section Match.
Context (W : World) (c : Call).

(** [Patterns.compile]. *)
Definition pats_compile (wrap : gostr -> gostr) (l : list gostr) : option (list regexp) :=
  mapM (fun p => compile W (wrap p)) l.

Definition fields : gmap gostr gostr := json_object W (c_Input c).

Definition fieldText (raw : gostr) : gostr := default raw (json_string W raw).

Definition input_holds (kv : gostr * list gostr) : bool :=
  match fields !! kv.1 with
  | None => false
  | Some raw => match pats_compile (fun p => p) kv.2 with
                | None => false
                | Some res => anyMatch res [fieldText raw]
                end
  end.

(** The parsed script, empty when there is none or it does not parse. *)
Definition script : Script :=
  default (MkScript [] [] false) (raw ← fields !! ("command" : gostr); s ← json_string W raw; parse_script W s).

Definition commands : list Command := Commands script.

(** The commands that the per-command constraints select, each once, or the
    single [None] for a rule without any; no result is no match. *)
Definition selected (r : Rule) : option (list (option Command)) :=
  match commandFields r with
  | [] => Some [None]
  | _ =>
      res ← pats_compile commandWrap (pats (Command_ r));
      match List.filter (fun cmd => (bool_decide (length res = 0) || anyMatch res [Text cmd]) && factsMatch r cmd)
              commands with
      | [] => None
      | l => Some (Some <$> l)
      end
  end.

Definition cwd_holds (r : Rule) : bool :=
  match pats (Cwd r) with
  | [] => true
  | l => match pats_compile (fun p => p) l with
         | None => false
         | Some res => negb (bool_decide (c_Cwd c = [])) && anyMatch res [c_Cwd c]
         end
  end.

(** Everything but the when-check. *)
Definition constraints (r : Rule) : option (list (option Command)) :=
  if forallb input_holds (map_to_list (default ∅ (Input r))) then
    l ← selected r; if cwd_holds r then Some l else None
  else None.

Definition base_env : list gostr :=
  whenEnv (unicode_upper W) (json_string W) (visit_fields W) (host W) c fields
  ++ (if bool_decide (c_Tool c = bashTool) then scriptEnv (host W) script (c_Cwd c) else []).

Definition when_args (cmd : option Command) : list gostr :=
  match cmd with Some k => Args k | None => [] end.

Definition when_env (cmd : option Command) : list gostr :=
  base_env ++ match cmd with Some k => commandEnv (host W) k (c_Cwd c) | None => [] end.

Definition note (r : Rule) (e : when_failure) (m : matcher) : matcher :=
  MkMatcher (S (runs m)) (whenErrs m ++ [(Name r, e)]).

(** One when-check. *)
Definition when (r : Rule) (cmd : option Command) (m : matcher) : bool * matcher :=
  match run W (runs m) (Name r) (When r) (when_args cmd) (when_env cmd) with
  | None => (false, note r BudgetSpent m)
  | Some e =>
      match runWhen (host W) c e with
      | (deny, Some err) => (deny, note r err m)
      | (deny, None) => (deny, MkMatcher (S (runs m)) (whenErrs m))
      end
  end.

Fixpoint when_loop (r : Rule) (l : list (option Command)) (m : matcher) : bool * matcher :=
  match l with
  | [] => (false, m)
  | cmd :: l => let '(deny, m) := when r cmd m in if deny then (true, m) else when_loop r l m
  end.

Definition matches (noWhen : bool) (r : Rule) (m : matcher) : bool * matcher :=
  match constraints r with
  | None => (false, m)
  | Some l => if bool_decide (When r = []) || noWhen then (true, m) else when_loop r l m
  end.

Definition candidate (r : Rule) : bool := bool_decide (Tool r = c_Tool c) && bool_decide (Action r = ActionDeny).

Fixpoint match_loop (rules : list Rule) (m : matcher) : option Rule * matcher :=
  match rules with
  | [] => (None, m)
  | r :: rules =>
      if negb (candidate r) then match_loop rules m
      else let '(hit, m) := matches false r m in
           if hit then (Some r, m) else match_loop rules m
  end.

(** The denying rule, and the when-checks that failed open. *)
Definition Match (rules : list Rule) : option Rule * list (gostr * when_failure) :=
  let '(r, m) := match_loop rules (MkMatcher 0 []) in (r, whenErrs m).

Definition patternMatch (r : Rule) : bool := (matches true r (MkMatcher 0 [])).1.
End Match.

(** ** Test examples (examples.go) *)
Inductive WhenMode := WhenRun | WhenSkip.
Inductive kind := ExampleKindDeny | ExampleKindAllow.

Record ExampleOutcome := MkOutcome {
  o_Rule : gostr; o_Kind : kind; o_Example : gostr; Pass : bool; Matched : gostr;
  WhenUnknown : bool; WhenErrors : list (gostr * when_failure);
}.

Definition example_text (ex : Example_) : gostr :=
  if bool_decide (ex_Cwd ex = []) then ex_Text ex
  else ex_Text ex ++ " (cwd: " ++ ex_Cwd ex ++ ")".

(** The call an example stands for; [marshal] is [json.Marshal] of the object
    with the one field "command". *)
Definition example_call (marshal : gostr -> gostr) (ex : Example_) (tool : gostr) : Call :=
  if bool_decide (tool = bashTool) then MkCall tool (marshal (ex_Text ex)) (ex_Cwd ex)
  else MkCall tool (ex_Text ex) [].

Section Examples.
Context (W : World) (marshal : gostr -> gostr).

Definition is_deny (k : kind) : bool := match k with ExampleKindDeny => true | ExampleKindAllow => false end.

Definition runExample (rules whenless : list Rule) (r : Rule) (k : kind) (ex : Example_) (mode : WhenMode)
    : ExampleOutcome :=
  let call := example_call marshal ex (Tool r) in
  let skip := match mode with WhenSkip => true | WhenRun => false end in
  if skip && negb (bool_decide (When r = [])) then
    MkOutcome (Name r) k (example_text ex) (Bool.eqb (patternMatch W call r) (is_deny k)) [] true []
  else
    let '(hit, errs) := Match W call (if skip then whenless else rules) in
    let mine := match hit with Some q => bool_decide (Name q = Name r) | None => false end in
    let matched := match hit with Some q => Name q | None => [] end in
    MkOutcome (Name r) k (example_text ex) (if is_deny k then mine else negb mine)
      (if is_deny k && mine then [] else matched) false errs.

Definition RunExamples (rules : list Rule) (mode : WhenMode) : list ExampleOutcome :=
  let whenless := match mode with
                  | WhenSkip => List.filter (fun r => bool_decide (When r = [])) rules
                  | WhenRun => []
                  end in
  flat_map (fun r =>
    ((fun ex => runExample rules whenless r ExampleKindDeny ex mode) <$> default [] (DenyExamples r))
    ++ ((fun ex => runExample rules whenless r ExampleKindAllow ex mode) <$> default [] (AllowExamples r))) rules.
End Examples.

(** Validation of examples; [json_valid] is [json.Valid]. *)
Inductive example_error := NeedsCmd | UnknownKeys (keys : list gostr) | TableOnlyBash (tool : gostr) | NotJSON.

Definition validateExample (json_valid : gostr -> bool) (tool : gostr) (ex : Example_) : option example_error :=
  let other := negb (bool_decide (tool = [])) && negb (bool_decide (tool = bashTool)) in
  if table ex then
    if bool_decide (trim_space (ex_Text ex) = []) then Some NeedsCmd
    else match unknown ex with
         | _ :: _ => Some (UnknownKeys (unknown ex))
         | [] => if other then Some (TableOnlyBash tool) else None
         end
  else if other && negb (json_valid (ex_Text ex)) then Some NotJSON else None.

Fixpoint first_bad (json_valid : gostr -> bool) (tool : gostr) (i : nat) (exs : list Example_)
    : option (nat * example_error) :=
  match exs with
  | [] => None
  | ex :: exs => match validateExample json_valid tool ex with
                 | Some e => Some (i, e)
                 | None => first_bad json_valid tool (S i) exs
                 end
  end.

(** The two lists are visited in the order of a Go map; [deny_first] tells which. *)
Definition ValidateRuleExamples (json_valid : gostr -> bool) (deny_first : bool) (tool : gostr)
    (deny allow : list Example_) : option (kind * nat * example_error) :=
  let d := (fun p => (ExampleKindDeny, p.1, p.2)) <$> first_bad json_valid tool 0 deny in
  let a := (fun p => (ExampleKindAllow, p.1, p.2)) <$> first_bad json_valid tool 0 allow in
  if deny_first then match d with Some e => Some e | None => a end
  else match a with Some e => Some e | None => d end.

Fixpoint ValidateExamples (json_valid : gostr -> bool) (deny_first : gostr -> bool) (rules : list Rule)
    : option (gostr * (kind * nat * example_error)) :=
  match rules with
  | [] => None
  | r :: rules =>
      match ValidateRuleExamples json_valid (deny_first (Name r)) (Tool r) (default [] (DenyExamples r))
              (default [] (AllowExamples r)) with
      | Some e => Some (Name r, e)
      | None => ValidateExamples json_valid deny_first rules
      end
  end.

(** [Examples.UnmarshalTOML]; [None] is an error. *)
Fixpoint example_table (l : list (gostr * toml)) (ex : Example_) : option Example_ :=
  match l with
  | [] => Some ex
  | (k, v) :: l =>
      if bool_decide (k = ("cmd" : gostr)) then
        match v with
        | TString s => example_table l (MkExample s (ex_Cwd ex) (table ex) (unknown ex))
        | _ => None
        end
      else if bool_decide (k = ("cwd" : gostr)) then
        match v with
        | TString s => example_table l (MkExample (ex_Text ex) s (table ex) (unknown ex))
        | _ => None
        end
      else example_table l (MkExample (ex_Text ex) (ex_Cwd ex) (table ex) (unknown ex ++ [k]))
  end.

Fixpoint toml_examples (l : list toml) : option (list Example_) :=
  match l with
  | [] => Some []
  | TString s :: l => cons (MkExample s [] false []) <$> toml_examples l
  | TTable t :: l => ex ← example_table t (MkExample [] [] true []); cons ex <$> toml_examples l
  | _ :: _ => None
  end.

Definition Examples_UnmarshalTOML (v : toml) : option (list Example_) :=
  match v with TArray l => toml_examples l | _ => None end.

(** ** Layers *)

(** Merging override by override or all at once is the same. *)
Lemma overlay_assoc a b c : overlay (overlay a b) c = overlay a (overlay b c).
Proof.
  unfold overlay, or_text, or_else. cbn. f_equal; repeat case_bool_decide; repeat case_match; congruence.
Qed.

(** A layer that sets nothing changes nothing. *)
Lemma overlay_blank r n : overlay r (MkRule n [] None None None None None None [] [] [] None None None) = r.
Proof. by destruct r. Qed.

(** The rules of a name, merged in order. *)
Definition merged (name : gostr) (rules : list Rule) : option Rule :=
  match List.filter (fun r => bool_decide (Name r = name)) rules with
  | [] => None
  | r :: rs => Some (fold_left overlay rs r)
  end.

Lemma filter_snoc {A} (f : A -> bool) l x :
  List.filter f (l ++ [x]) = if f x then List.filter f l ++ [x] else List.filter f l.
Proof. rewrite List.filter_app. cbn. destruct (f x); [done|]. by rewrite app_nil_r. Qed.

Lemma merged_snoc_eq rules r : merged (Name r) (rules ++ [r])
  = match merged (Name r) rules with Some p => Some (overlay p r) | None => Some r end.
Proof.
  unfold merged. rewrite filter_snoc, bool_decide_true by done.
  destruct (List.filter _ rules) as [|q l]; [done|]. cbn. by rewrite fold_left_app.
Qed.

Lemma merged_snoc_ne name rules r : Name r <> name -> merged name (rules ++ [r]) = merged name rules.
Proof. intros H. unfold merged. by rewrite filter_snoc, bool_decide_false. Qed.

Lemma merged_None name rules : merged name rules = None <-> name ∉ Name <$> rules.
Proof.
  unfold merged. destruct (List.filter _ _) as [|r l] eqn:E.
  - split; [|done]. intros _ (q & Hq & Hin)%list_elem_of_fmap. subst name.
    assert (H : In q (List.filter (fun r => bool_decide (Name r = Name q)) rules))
      by (apply filter_In; split; [by apply list_elem_of_In|by apply bool_decide_eq_true]).
    by rewrite E in H.
  - split; [done|]. intros Hn. assert (H : In r (r :: l)) by (by left). rewrite <- E in H.
    apply filter_In in H as [Hr Hb%bool_decide_eq_true]. destruct Hn. apply list_elem_of_fmap.
    exists r. by rewrite list_elem_of_In.
Qed.

Lemma merge_layers layers : merge layers = fold_left merge_step (concat layers) ([], ∅).
Proof.
  unfold merge. generalize (@nil gostr, (∅ : gmap gostr Rule)).
  induction layers as [|l layers IH]; intros acc; [done|]. cbn. by rewrite IH, fold_left_app.
Qed.

Lemma merge_spec rules :
  let m := fold_left merge_step rules ([], ∅) in
  m.1 = firsts (Name <$> rules) /\ forall name, m.2 !! name = merged name rules.
Proof.
  cbn zeta. induction rules as [|r rules [IH1 IH2]] using rev_ind.
  { split; [done|]. intros name. apply lookup_empty. }
  rewrite fold_left_app. cbn [fold_left]. set (m := fold_left _ _ _) in *. unfold merge_step.
  rewrite fmap_app. cbn [fmap list_fmap]. rewrite firsts_snoc, IH2.
  pose proof (merged_None (Name r) rules) as Hn. pose proof (merged_snoc_eq rules r) as He.
  destruct (merged (Name r) rules) as [p|] eqn:E; cbn.
  - rewrite bool_decide_true by (destruct (decide (Name r ∈ Name <$> rules)); naive_solver). split; [done|].
    intros name. destruct (decide (Name r = name)) as [<-|Hne].
    + by rewrite lookup_insert_eq, He.
    + by rewrite lookup_insert_ne, merged_snoc_ne, IH2.
  - rewrite bool_decide_false by naive_solver. rewrite IH1. split; [done|]. intros name.
    destruct (decide (Name r = name)) as [<-|Hne].
    + by rewrite lookup_insert_eq, He.
    + by rewrite lookup_insert_ne, merged_snoc_ne, IH2.
Qed.

Section Layers.
Context (compile_ : gostr -> option regexp) (parse : gostr -> option (list Sh.Node)).
Context (visit : gmap gostr (list gostr) -> list (gostr * list gostr)).
(** What becomes of the rule of a name. *)
Definition fate (rules : list Rule) (name : gostr) : outcome := default Dropped (settle compile_ parse visit <$> merged name rules).
Definition kept (o : outcome) : option Rule := match o with Kept r => Some r | _ => None end.
Definition skipped (o : outcome) : option invalid := match o with Skipped e => Some e | _ => None end.

Lemma layers_fold byName names acc :
  fold_left (resolve_step compile_ parse visit byName) names acc
  = (acc.1 ++ omap (fun n => kept (default Dropped (settle compile_ parse visit <$> byName !! n))) names,
     acc.2 ++ omap (fun n => skipped (default Dropped (settle compile_ parse visit <$> byName !! n))) names).
Proof.
  revert acc. induction names as [|n names IH]; intros [rs sk]; cbn [fold_left omap list_omap].
  { by rewrite !app_nil_r. }
  rewrite IH. unfold resolve_step. cbn. destruct (byName !! n) as [r|]; [|done].
  cbn.  destruct (settle _ _ _ r); cbn; by rewrite <- ?(assoc_L (++)).
Qed.

Lemma Resolve_fates layers :
  let rules := concat layers in let names := firsts (Name <$> rules) in
  (Resolve compile_ parse visit layers).1 = omap (fun n => kept (fate rules n)) names
  /\ (Resolve compile_ parse visit layers).2 = omap (fun n => skipped (fate rules n)) names.
Proof.
  cbn zeta. unfold Resolve. rewrite merge_layers.
  pose proof (merge_spec (concat layers)) as [H1 H2]. destruct (fold_left _ _ _) as [order byName]. cbn in *.
  rewrite layers_fold. cbn [fst snd app]. rewrite H1.
  split; apply list_omap_ext, Forall_Forall2_diag, Forall_true; intros n; by rewrite H2.
Qed.

Lemma merged_name name rules r : merged name rules = Some r -> Name r = name.
Proof.
  unfold merged. destruct (List.filter _ _) as [|q l] eqn:E; [done|]. intros [= <-].
  assert (Hq : Name q = name).
  { assert (H : In q (q :: l)) by (by left). rewrite <- E in H.
    by apply filter_In in H as [_ H%bool_decide_eq_true]. }
  clear E. revert q Hq. induction l as [|x l IH]; intros q Hq; [done|]. cbn. by apply IH.
Qed.

(** A rule as the hook may use it. *)
Definition compiles (l : list gostr) : Prop := Forall (fun p => is_Some (compile_ p)) l.

Record usable (r : Rule) : Prop := {
  u_name : Name r <> [];
  u_tool : Tool r <> [] /\ Forall (fun c => word_byte c = true) (Tool r);
  u_action : Action r = ActionDeny;
  u_reason : Reason r <> [];
  u_bash : commandFields r <> [] -> Tool r = bashTool;
  u_input : Forall (fun kv => compiles kv.2) (visit (default ∅ (Input r)));
  u_command : compiles (pats (Command_ r));
  u_cwd : compiles (pats (Cwd r));
  u_when : When r <> [] -> is_Some (parse (When r));
}.

Lemma pats_validate_spec l : pats_validate compile_ l = true <-> compiles l.
Proof.
  unfold pats_validate, compiles. rewrite forallb_forall, Forall_forall. setoid_rewrite bool_decide_eq_true.
  by setoid_rewrite list_elem_of_In.
Qed.

Lemma bad_input_None r : bad_input compile_ visit r = None <->
  Forall (fun kv => compiles kv.2) (visit (default ∅ (Input r))).
Proof.
  unfold bad_input. induction (visit _) as [|kv l IH]; cbn [List.find]; [done|]. rewrite Forall_cons.
  destruct (pats_validate compile_ kv.2) eqn:E; cbn.
  - rewrite IH, <- pats_validate_spec. naive_solver.
  - split; [done|]. intros [H%pats_validate_spec _]. congruence.
Qed.

Lemma tool_name_spec s : tool_name s = true <-> s <> [] /\ Forall (fun c => word_byte c = true) s.
Proof.
  unfold tool_name. rewrite andb_true_iff, negb_true_iff, bool_decide_eq_false, forallb_forall, Forall_forall.
  by setoid_rewrite list_elem_of_In.
Qed.

Lemma validate_single r : ValidateLayer compile_ parse visit [r] = None -> Name r <> [] /\ validate_rule compile_ parse visit r = None.
Proof.
  unfold ValidateLayer. cbn [validate_loop]. case_bool_decide; [done|].
  rewrite (bool_decide_false (_ ∈ ∅)) by set_solver. by destruct (validate_rule _ _ _ r).
Qed.

Lemma validate_rule_None r : validate_rule compile_ parse visit r = None ->
  (Tool r <> [] -> tool_name (Tool r) = true) /\ (Action r <> [] -> Action r = ActionDeny)
  /\ only_bash r = None /\ bad_input compile_ visit r = None
  /\ pats_validate compile_ (pats (Command_ r)) = true /\ pats_validate compile_ (pats (Cwd r)) = true
  /\ (When r <> [] -> parsesAsBash parse (When r) = true).
Proof.
  unfold validate_rule.
  destruct (bool_decide_reflect (Tool r = [])), (tool_name (Tool r)); cbn [negb andb]; try done;
    destruct (bool_decide_reflect (Action r = [])), (bool_decide_reflect (Action r = ActionDeny)); cbn [negb andb]; try done;
    (destruct (only_bash r); [done|]); (destruct (bad_input _ _ r); [done|]);
    (destruct (pats_validate compile_ (pats (Command_ r))); [|done]); cbn [negb];
    (destruct (pats_validate compile_ (pats (Cwd r))); [|done]); cbn [negb];
    destruct (bool_decide_reflect (When r = [])), (parsesAsBash parse (When r)); cbn [negb andb]; done.
Qed.

Lemma settle_kept r r' : settle compile_ parse visit r = Kept r' ->
  Name r' = Name r /\ Enabled r' <> Some false /\ Enabled r' = Enabled r /\ usable r'.
Proof.
  unfold settle. case_bool_decide as He; [done|].
  set (q := if bool_decide (Action r = []) then with_action ActionDeny r else r).
  assert (Hq : Name q = Name r /\ Enabled q = Enabled r /\ Action q <> [])
    by (unfold q; by case_bool_decide).
  destruct Hq as (Hn & Hen & Ha). destruct (ValidateLayer _ _ _ [q]) eqn:Ev; [done|].
  destruct (_ || _) eqn:Ei; [done|]. intros [= <-]. apply orb_false_iff in Ei as [Et Er].
  rewrite bool_decide_eq_false in Et, Er. rewrite Hen. split_and!; try done.
  apply validate_single in Ev as [Hnn (V1 & V2 & V3 & V4 & V5 & V6 & V7)%validate_rule_None].
  split; auto.
  - by apply tool_name_spec, V1.
  - unfold only_bash in V3. rewrite (bool_decide_false (Tool q = [])) in V3 by done.
    cbn in V3. intros Hf. case_bool_decide as Hb; [done|]. by destruct (commandFields q).
  - by apply bad_input_None.
  - by apply pats_validate_spec.
  - by apply pats_validate_spec.
  - intros Hw. specialize (V7 Hw). by apply bool_decide_eq_true in V7.
Qed.

Lemma fate_kept rules name r : fate rules name = Kept r -> Name r = name /\ usable r.
Proof.
  unfold fate. destruct (merged name rules) as [q|] eqn:E; [|done]. cbn. intros H%settle_kept.
  apply merged_name in E. destruct H as (-> & _ & _ & Hu). done.
Qed.

Lemma kept_names rules names : NoDup names -> NoDup (Name <$> omap (fun n => kept (fate rules n)) names).
Proof.
  induction 1 as [|n l Hn Hl IH]; [constructor|].
  cbn [omap list_omap]. destruct (fate rules n) as [|e|r] eqn:E; cbn [kept]; [done|done|].
  apply NoDup_cons. split; [|done]. apply fate_kept in E as [-> _].
  intros (q & Hq & (m & Hm & Hk)%list_elem_of_omap)%list_elem_of_fmap.
  destruct (fate rules m) as [| |q'] eqn:Em; try done. injection Hk as ->.
  apply fate_kept in Em as [Em _]. congruence.
Qed.

(** Resolving layers merges the rules of each name field by field, in
    first-seen order, whatever the layers are cut into; each merged rule is kept,
    reported or dropped on its own, so a bad rule takes no other with it.  Every
    rule kept has a tool, a reason, the deny action and patterns that compile, no
    two have the same name, and a per-command constraint is only ever a Bash
    rule's. *)
Theorem resolve_merges (layers : list (list Rule)) :
  let rules := concat layers in let names := firsts (Name <$> rules) in
  let out := fate rules in
  (Resolve compile_ parse visit layers).1 = omap (fun n => kept (out n)) names
  /\ (Resolve compile_ parse visit layers).2 = omap (fun n => skipped (out n)) names
  /\ NoDup (Name <$> (Resolve compile_ parse visit layers).1)
  /\ Forall usable (Resolve compile_ parse visit layers).1.
Proof.
  cbn zeta. pose proof (Resolve_fates layers) as [H1 H2]. 
  split_and!; [done|done| |]; rewrite H1.
  - apply kept_names, NoDup_firsts.
  - apply Forall_forall. intros q (m & Hm & Hk)%list_elem_of_omap.
    destruct (fate _ m) as [| |q'] eqn:Em; try done. injection Hk as ->. by eapply fate_kept.
Qed.

Lemma fate_snoc_ne rules r name : Name r <> name ->
  fate (rules ++ [r]) name = fate rules name.
Proof. intros H. unfold fate. by rewrite merged_snoc_ne. Qed.

Lemma fate_disabled rules r : Enabled r = Some false ->
  fate (rules ++ [r]) (Name r) = Dropped.
Proof.
  intros Hr. unfold fate. rewrite merged_snoc_eq. destruct (merged _ _) as [p|]; cbn; unfold settle.
  - rewrite bool_decide_true; [done|]. cbn. by rewrite Hr.
  - by rewrite bool_decide_true.
Qed.

Lemma omap_filter (f : gostr -> option Rule) (name : gostr) l :
  (forall n r, f n = Some r -> Name r = n) ->
  omap (fun n => if bool_decide (n = name) then None else f n) l
  = List.filter (fun r => negb (bool_decide (Name r = name))) (omap f l).
Proof.
  intros Hf. induction l as [|n l IH]; [done|]. cbn [omap list_omap]. rewrite IH.
  destruct (f n) as [r|] eqn:E; cbn.
  - rewrite (Hf n r E). by case_bool_decide.
  - by case_bool_decide.
Qed.

(** A last layer that switches a rule off takes away exactly that rule,
    whatever else the entry sets, and leaves the others as they were resolved
    without it. *)
Theorem disabling_removes_one (layers : list (list Rule)) (r : Rule) :
  Enabled r = Some false ->
  (Resolve compile_ parse visit (layers ++ [[r]])).1
  = List.filter (fun q => negb (bool_decide (Name q = Name r))) (Resolve compile_ parse visit layers).1.
Proof.
  intros Hr. pose proof (Resolve_fates (layers ++ [[r]])) as [H1 _].
  pose proof (Resolve_fates layers) as [H2 _].  cbn zeta in H1, H2.
  rewrite H1, H2, concat_app. cbn [concat]. rewrite app_nil_r, fmap_app. cbn [fmap list_fmap].
  rewrite firsts_snoc, <- omap_filter.
  2: { intros n q. destruct (fate _ n) as [| |q'] eqn:E; try done. intros [= <-]. by eapply fate_kept. }
  set (old := firsts (Name <$> concat layers)).
  assert (Hold : omap (fun n => kept (fate (concat layers ++ [r]) n)) old
    = omap (fun n => if bool_decide (n = Name r) then None else kept (fate (concat layers) n)) old).
  { apply list_omap_ext, Forall_Forall2_diag, Forall_true. intros n. case_bool_decide as Hn.
    - by rewrite Hn, fate_disabled.
    - by rewrite fate_snoc_ne. }
  case_bool_decide; [done|]. rewrite omap_app, Hold. cbn. rewrite fate_disabled by done. apply app_nil_r.
Qed.
Lemma usable_settles r : usable r -> Enabled r <> Some false -> settle compile_ parse visit r = Kept r.
Proof.
  intros [U1 [U2 U3] U4 U5 U6 U7 U8 U9 U10] He. unfold settle. rewrite bool_decide_false by done.
  rewrite (bool_decide_false (Action r = [])) by (by rewrite U4).
  assert (Hv : validate_rule compile_ parse visit r = None).
  { unfold validate_rule. rewrite (proj2 (tool_name_spec (Tool r))) by done.
    rewrite U4. cbn [negb]. rewrite !andb_false_r. cbn.
    assert (Ho : only_bash r = None).
    { unfold only_bash. destruct (commandFields r); [by destruct (_ && _)|].
      rewrite U6 by done. by rewrite andb_false_r. }
    rewrite Ho, (proj2 (bad_input_None r)) by done.
    rewrite (proj2 (pats_validate_spec _) U8), (proj2 (pats_validate_spec _) U9). cbn.
    unfold parsesAsBash. destruct (bool_decide_reflect (When r = [])); [done|].
    rewrite bool_decide_true by auto. done. }
  assert (Hl : ValidateLayer compile_ parse visit [r] = None).
  { unfold ValidateLayer. cbn [validate_loop]. rewrite bool_decide_false by done.
    rewrite (bool_decide_false (_ ∈ ∅)) by set_solver. by rewrite Hv. }
  rewrite Hl, !bool_decide_false by done. done.
Qed.

Lemma merged_unique rules r : NoDup (Name <$> rules) -> r ∈ rules -> merged (Name r) rules = Some r.
Proof.
  induction rules as [|q rules IH] using rev_ind; [by intros _ ?%elem_of_nil|].
  rewrite fmap_app. cbn. intros (Hn & Hq & _)%NoDup_app [Hr|Hr]%elem_of_app.
  - assert (Hne : Name q <> Name r).
    { intros He. apply (Hq (Name r)); [|by rewrite He; left]. apply list_elem_of_fmap. eauto. }
    rewrite merged_snoc_ne by done. by apply IH.
  - apply list_elem_of_singleton in Hr as ->. rewrite merged_snoc_eq.
    destruct (merged (Name q) rules) as [p|] eqn:E; [|done].
    assert (Hm : merged (Name q) rules <> None) by congruence. rewrite merged_None in Hm.
    destruct (decide (Name q ∈ Name <$> rules)) as [Hin|]; [|done]. by destruct (Hq _ Hin); left.
Qed.

Lemma firsts_NoDup (l : list gostr) : NoDup l -> firsts l = l.
Proof.
  induction l as [|x l IH] using rev_ind; [done|]. intros (Hl & Hx & _)%NoDup_app.
  rewrite firsts_snoc, bool_decide_false; [by rewrite IH|]. intros H. apply (Hx x H). by left.
Qed.

Lemma resolve_usable rules : NoDup (Name <$> rules) -> Forall usable rules ->
  Forall (fun r => Enabled r <> Some false) rules -> Resolve compile_ parse visit [rules] = (rules, []).
Proof.
  intros Hn Hu He. pose proof (Resolve_fates [rules]) as [H1 H2]. cbn [concat] in H1, H2. rewrite app_nil_r in *.
  rewrite firsts_NoDup in H1, H2 by done.
  assert (Hf : forall r, r ∈ rules -> fate rules (Name r) = Kept r).
  { intros r Hr. unfold fate. rewrite merged_unique by done. cbn. rewrite Forall_forall in Hu, He.
    apply usable_settles; auto. }
  destruct (Resolve compile_ parse visit [rules]) as [rs sk]. cbn in H1, H2. subst rs sk. clear Hn Hu He. f_equal.
  - assert (H : forall l : list Rule, (forall r, r ∈ l -> r ∈ rules) -> omap (fun n => kept (fate rules n)) (Name <$> l) = l); [|by apply H].
    intros l. induction l as [|r l IH]; intros Hl; [done|]. cbn [fmap list_fmap omap list_omap].
    rewrite Hf by (apply Hl; by left). cbn [kept]. f_equal. apply IH. intros q Hq. apply Hl. by right.
  - assert (H : forall l : list Rule, (forall r, r ∈ l -> r ∈ rules) -> omap (fun n => skipped (fate rules n)) (Name <$> l) = []); [|by apply H].
    intros l. induction l as [|r l IH]; intros Hl; [done|]. cbn [fmap list_fmap omap list_omap].
    rewrite Hf by (apply Hl; by left). cbn [skipped]. apply IH. intros q Hq. apply Hl. by right.
Qed.

Lemma kept_enabled rules n r : fate rules n = Kept r -> Enabled r <> Some false.
Proof. unfold fate. destruct (merged n rules); [|done]. by intros (_ & H & _)%settle_kept. Qed.

(** A resolved rule set resolves to itself: resolving what the hook was
    given changes nothing and reports nothing. *)
Theorem resolve_idempotent (layers : list (list Rule)) :
  Resolve compile_ parse visit [(Resolve compile_ parse visit layers).1]
  = ((Resolve compile_ parse visit layers).1, []).
Proof.
  pose proof (Resolve_fates layers) as [H1 _]. cbn zeta in H1. rewrite H1.
  apply resolve_usable.
  - apply kept_names, NoDup_firsts.
  - apply Forall_forall. intros q (m & Hm & Hk)%list_elem_of_omap.
    destruct (fate _ m) as [| |q'] eqn:Em; try done. injection Hk as ->. by eapply fate_kept.
  - apply Forall_forall. intros q (m & Hm & Hk)%list_elem_of_omap.
    destruct (fate _ m) as [| |q'] eqn:Em; try done. injection Hk as ->. by eapply kept_enabled.
Qed.
End Layers.

(** ** What a denial means *)
Section Denial.
Context (W : World) (c : Call).

Definition all_compile (wrap : gostr -> gostr) (l : list gostr) : Prop :=
  Forall (fun p => is_Some (compile W (wrap p))) l.
Definition any_of (wrap : gostr -> gostr) (l : list gostr) (s : gostr) : Prop :=
  exists p re, p ∈ l /\ compile W (wrap p) = Some re /\ re s = true.

(** A command with every per-command constraint of a rule. *)
Definition hits (r : Rule) (k : Command) : Prop :=
  (pats (Command_ r) = [] \/ any_of commandWrap (pats (Command_ r)) (Text k))
  /\ (forall b, r_Background r = Some b -> Background k = b)
  /\ (forall b, r_Subshell r = Some b -> Subshell k = b)
  /\ (forall b, r_Output r = Some b -> Output k = b).

Definition input_ok (r : Rule) : Prop := forall field ps,
  default ∅ (Input r) !! field = Some ps ->
  exists raw, fields W c !! field = Some raw /\ all_compile (fun p => p) ps
    /\ any_of (fun p => p) ps (fieldText W raw).
Definition cwd_ok (r : Rule) : Prop := pats (Cwd r) = []
  \/ all_compile (fun p => p) (pats (Cwd r)) /\ c_Cwd c <> [] /\ any_of (fun p => p) (pats (Cwd r)) (c_Cwd c).
Definition command_ok (r : Rule) : Prop := commandFields r = []
  \/ all_compile commandWrap (pats (Command_ r)) /\ exists k, k ∈ commands W c /\ hits r k.

(** Every constraint of the rule but its when-check holds of the call. *)
Definition denies (r : Rule) : Prop :=
  Tool r = c_Tool c /\ Action r = ActionDeny /\ input_ok r /\ command_ok r /\ cwd_ok r.

Lemma pats_compile_spec wrap l :
  (all_compile wrap l /\ exists res, pats_compile W wrap l = Some res /\ length res = length l
     /\ forall s, anyMatch res [s] = true <-> any_of wrap l s)
  \/ (~ all_compile wrap l /\ pats_compile W wrap l = None).
Proof.
  unfold pats_compile, all_compile, any_of. induction l as [|p l IH].
  { left. split; [constructor|]. exists []. split_and!; [done|done|]. intros s. split; [done|].
    by intros (p & re & Hp%elem_of_nil & _). }
  cbn [mapM]. destruct (compile W (wrap p)) as [re|] eqn:E; cbn.
  2: { right. split; [|done]. intros [[? ?] _]%Forall_cons. congruence. }
  destruct IH as [(Hl & res & -> & Hn & IH)|[Hl ->]].
  - left. split; [by constructor|]. exists (re :: res). cbn. split_and!; [done|by rewrite Hn|].
    intros s. cbn. rewrite orb_false_r, orb_true_iff. change (existsb _ res = true) with (anyMatch res [s] = true).
    rewrite IH. setoid_rewrite elem_of_cons. split.
    + intros [Hs|(q & re' & Hq & H1 & H2)]; [exists p, re|exists q, re']; auto.
    + intros (q & re' & [->|Hq] & H1 & H2); [left; congruence|right; by exists q, re'].
  - right. split; [|done]. by intros [_ ?]%Forall_cons.
Qed.

Lemma pats_match wrap l s :
  match pats_compile W wrap l with Some res => anyMatch res [s] | None => false end = true
  <-> all_compile wrap l /\ any_of wrap l s.
Proof.
  destruct (pats_compile_spec wrap l) as [(Ha & res & -> & _ & H)|[Ha ->]]; [rewrite H|]; naive_solver.
Qed.

Lemma fact_holds_spec want got : fact_holds want got = true <-> forall b, want = Some b -> got = b.
Proof. destruct want as [b|]; cbn; [|naive_solver]. rewrite eqb_true_iff. naive_solver. Qed.

Lemma factsMatch_spec r k : factsMatch r k = true <->
  (forall b, r_Background r = Some b -> Background k = b)
  /\ (forall b, r_Subshell r = Some b -> Subshell k = b)
  /\ (forall b, r_Output r = Some b -> Output k = b).
Proof. unfold factsMatch. rewrite !andb_true_iff, !fact_holds_spec. tauto. Qed.

Lemma selected_hits r :
  match selected W c r with
  | Some l => command_ok r /\ l <> []
      /\ (commandFields r = [] /\ l = [None]
          \/ commandFields r <> [] /\ forall cmd, cmd ∈ l <-> exists k, cmd = Some k /\ k ∈ commands W c /\ hits r k)
  | None => ~ command_ok r
  end.
Proof.
  unfold selected, command_ok. destruct (commandFields r) as [|f fs] eqn:Ef; [naive_solver|].
  destruct (pats_compile_spec commandWrap (pats (Command_ r))) as [(Ha & res & -> & Hn & Hm)|[Ha ->]]; cbn.
  2: { naive_solver. }
  assert (Hh : forall k, (bool_decide (length res = 0) || anyMatch res [Text k]) && factsMatch r k = true <-> hits r k).
  { intros k. unfold hits. rewrite andb_true_iff, orb_true_iff, bool_decide_eq_true, Hm, factsMatch_spec, Hn.
    by rewrite length_zero_iff_nil. }
  destruct (List.filter _ (commands W c)) as [|k l] eqn:E.
  - intros [|(_ & k & Hk & Hh')]; [done|]. apply Hh in Hh'.
    assert (Hin : In k (List.filter (fun cmd => (bool_decide (length res = 0) || anyMatch res [Text cmd]) && factsMatch r cmd) (commands W c)))
      by (apply filter_In; by rewrite <- list_elem_of_In).
    by rewrite E in Hin.
  - assert (Hin : forall x, x ∈ k :: l <-> x ∈ commands W c /\ hits r x).
    { intros x. by rewrite <- E, list_elem_of_In, filter_In, Hh, list_elem_of_In. }
    split_and!; [right; split; [done|]; exists k; apply Hin; by left|done|right; split; [done|]].
    intros cmd. change (Some k :: (Some <$> l)) with (Some <$> k :: l). rewrite list_elem_of_fmap.
    setoid_rewrite Hin. naive_solver.
Qed.

Lemma forallb_map_to_list {A} (f : gostr * A -> bool) (m : gmap gostr A) :
  forallb f (map_to_list m) = true <-> forall k v, m !! k = Some v -> f (k, v) = true.
Proof.
  rewrite forallb_forall. setoid_rewrite <- list_elem_of_In. split.
  - intros H k v Hk. by apply H, elem_of_map_to_list.
  - intros H [k v] Hk%elem_of_map_to_list. by apply H.
Qed.

Lemma inputs_spec r : forallb (input_holds W c) (map_to_list (default ∅ (Input r))) = true <-> input_ok r.
Proof.
  rewrite forallb_map_to_list. unfold input_ok, input_holds. cbn. split; intros H k v Hk; specialize (H k v Hk).
  - destruct (fields W c !! k) as [raw|]; [|done]. exists raw. apply pats_match in H as [? ?]. done.
  - destruct H as (raw & -> & H1 & H2). by apply pats_match.
Qed.

Lemma cwd_holds_spec r : cwd_holds W c r = true <-> cwd_ok r.
Proof.
  unfold cwd_holds, cwd_ok. destruct (pats (Cwd r)) as [|p l]; [naive_solver|].
  pose proof (pats_match (fun p => p) (p :: l) (c_Cwd c)) as H.
  destruct (pats_compile W (fun p => p) (p :: l)) as [res|].
  - rewrite andb_true_iff, negb_true_iff, bool_decide_eq_false, H. naive_solver.
  - naive_solver.
Qed.

(** The constraints hold exactly when they select something to deny. *)
Lemma constraints_spec r :
  match constraints W c r with
  | Some l => (input_ok r /\ command_ok r /\ cwd_ok r) /\ l <> []
      /\ (commandFields r = [] /\ l = [None]
          \/ commandFields r <> [] /\ forall cmd, cmd ∈ l <-> exists k, cmd = Some k /\ k ∈ commands W c /\ hits r k)
  | None => ~ (input_ok r /\ command_ok r /\ cwd_ok r)
  end.
Proof.
  unfold constraints. pose proof (inputs_spec r) as Hi. destruct (forallb _ _); [|naive_solver].
  pose proof (selected_hits r) as Hs. destruct (selected W c r) as [l|]; cbn; [|naive_solver].
  pose proof (cwd_holds_spec r) as Hc. destruct (cwd_holds W c r); naive_solver.
Qed.

Lemma candidate_spec r : candidate c r = true <-> Tool r = c_Tool c /\ Action r = ActionDeny.
Proof. unfold candidate. by rewrite andb_true_iff, !bool_decide_eq_true. Qed.

Lemma match_loop_plain rules m r : Forall (fun r => When r = []) rules ->
  (match_loop W c rules m).1 = Some r <->
  exists before after, rules = before ++ r :: after /\ denies r /\ Forall (fun q => ~ denies q) before.
Proof.
  intros Hw. induction Hw as [|q rules Hq Hw IH]; cbn [match_loop].
  { split; [done|]. by intros ([|? ?] & ? & [=] & _). }
  assert (Hskip : ~ denies q -> (match_loop W c rules m).1 = Some r <->
    exists before after, q :: rules = before ++ r :: after /\ denies r /\ Forall (fun q => ~ denies q) before).
  { intros Hn. rewrite IH. split.
    - intros (b & a & -> & H1 & H2). exists (q :: b), a. split_and!; [done|done|by constructor].
    - intros ([|x b] & a & [= -> ->] & H1 & H2); [done|]. apply Forall_cons in H2 as [_ H2]. by exists b, a. }
  pose proof (candidate_spec q) as Hc. destruct (candidate c q); cbn [negb].
  2: { apply Hskip. unfold denies. naive_solver. }
  unfold matches. pose proof (constraints_spec q) as Hk. destruct (constraints W c q) as [l|].
  - rewrite bool_decide_true by done. cbn. destruct Hk as (Hk & _). split.
    + intros [= <-]. exists [], rules. unfold denies. naive_solver.
    + intros ([|x b] & a & [= -> ->] & H1 & H2); [done|]. apply Forall_cons in H2 as [H2 _].
      destruct H2. unfold denies. naive_solver.
  - apply Hskip. unfold denies. naive_solver.
Qed.

Lemma Match_fst rules : (Match W c rules).1 = (match_loop W c rules (MkMatcher 0 [])).1.
Proof. unfold Match. by destruct (match_loop _ _ _ _). Qed.

(** Without when-checks a call is denied by a rule exactly when every
    constraint of the rule holds of it and no rule before it denies: the tool and
    the action, for each input field a pattern that matches its value, a command
    of the script that matches a pattern at its first word and has the rule's
    facts, and the directory. *)
Theorem first_denial (rules : list Rule) (r : Rule) :
  Forall (fun r => When r = []) rules ->
  (Match W c rules).1 = Some r <->
  exists before after, rules = before ++ r :: after /\ denies r /\ Forall (fun q => ~ denies q) before.
Proof. intros Hw. rewrite Match_fst. by apply match_loop_plain. Qed.

(** *** When-checks *)
Lemma when_denies r cmd m : (when W c r cmd m).1 = true ->
  run W (runs m) (Name r) (When r) (when_args cmd) (when_env W c cmd) = Some (Exited 0).
Proof.
  unfold when, runWhen. destruct (run W _ _ _ _ _) as [e|]; [|done]. destruct (_ && _); [done|].
  destruct e as [code| | |]; try done. destruct (Z.eqb_spec code 0) as [->|]; [done|]. by destruct (code =? 1)%Z.
Qed.

(** A command the check of a rule may run for. *)
Definition checked_for (r : Rule) (cmd : option Command) : Prop :=
  commandFields r = [] /\ cmd = None \/ exists k, cmd = Some k /\ k ∈ commands W c /\ hits r k.

(** Some run of the rule's script, for a command it matched, exited 0. *)
Definition confirmed (r : Rule) : Prop := exists n cmd, checked_for r cmd
  /\ run W n (Name r) (When r) (when_args cmd) (when_env W c cmd) = Some (Exited 0).

Lemma when_loop_denies r l m : (when_loop W c r l m).1 = true -> exists n cmd, cmd ∈ l
  /\ run W n (Name r) (When r) (when_args cmd) (when_env W c cmd) = Some (Exited 0).
Proof.
  revert m. induction l as [|cmd l IH]; intros m; [done|]. cbn [when_loop].
  pose proof (when_denies r cmd m) as Hd. destruct (when W c r cmd m) as [[] m'].
  - intros _. exists (runs m), cmd. split; [by left|by apply Hd].
  - intros H. destruct (IH m' H) as (n & k & Hk & Hr). exists n, k. split; [by right|done].
Qed.

Lemma matches_denies r m : candidate c r = true -> (matches W c false r m).1 = true ->
  denies r /\ (When r = [] \/ confirmed r).
Proof.
  intros Hc%candidate_spec. unfold matches. pose proof (constraints_spec r) as Hk.
  destruct (constraints W c r) as [l|]; [|done]. destruct Hk as (Hk & _ & Hl). rewrite orb_false_r.
  case_bool_decide as Hw; [unfold denies; naive_solver|]. intros (n & cmd & Hin & Hr)%when_loop_denies.
  split; [unfold denies; naive_solver|]. right. exists n, cmd. split; [|done].
  destruct Hl as [[Hf ->]|[Hf Hl]]; [left|right]; [|by apply Hl].
  by apply list_elem_of_singleton in Hin.
Qed.

Lemma match_loop_denies rules m r : (match_loop W c rules m).1 = Some r ->
  r ∈ rules /\ denies r /\ (When r = [] \/ confirmed r).
Proof.
  revert m. induction rules as [|q rules IH]; intros m; [done|]. cbn [match_loop].
  destruct (candidate c q) eqn:Ec; cbn [negb].
  2: { intros H. destruct (IH m H). split; [by right|done]. }
  pose proof (matches_denies q m Ec) as Hd. destruct (matches W c false q m) as [[] m'].
  - intros [= <-]. split; [by left|by apply Hd].
  - intros H. destruct (IH m' H). split; [by right|done].
Qed.

Lemma match_loop_open rules m m' :
  (forall n name s args e, run W n name s args e <> Some (Exited 0)) ->
  (match_loop W c rules m).1
  = (match_loop W c (List.filter (fun r => bool_decide (When r = [])) rules) m').1.
Proof.
  intros Hz. revert m m'. induction rules as [|r rules IH]; intros m m'; [done|]. cbn [match_loop List.filter].
  case_bool_decide as Hw.
  - cbn [match_loop]. destruct (candidate c r); cbn [negb]; [|apply IH].
    unfold matches. destruct (constraints W c r); [|apply IH]. by rewrite bool_decide_true.
  - destruct (candidate c r) eqn:Ec; cbn [negb]; [|apply IH].
    pose proof (matches_denies r m Ec) as Hd. destruct (matches W c false r m) as [[] m'']; [|apply IH].
    destruct (Hd eq_refl) as [_ [H|(n & cmd & _ & H)]]; [done|by apply Hz in H].
Qed.

(** C39: when-checks fail open.  A rule that denies holds of the call in all its
    constraints, and if it has a when-check, then a run of it, for a command the
    rule matched, exited 0; so when every run fails, times out, exits otherwise
    or is not started, the call is treated as if the rules with a check were not
    there. *)
Theorem when_fails_open (rules : list Rule) :
  (forall r, (Match W c rules).1 = Some r -> r ∈ rules /\ denies r /\ (When r = [] \/ confirmed r))
  /\ ((forall n name s args e, run W n name s args e <> Some (Exited 0)) ->
      (Match W c rules).1 = (Match W c (List.filter (fun r => bool_decide (When r = [])) rules)).1).
Proof.
  split.
  - intros r. rewrite Match_fst. apply match_loop_denies.
  - intros Hz. rewrite !Match_fst. by apply match_loop_open.
Qed.

(** A command pattern that compiles on its own but not inside the wrapper
    that anchors it is accepted by the validation, and its rule never denies
    anything. *)
Theorem unwrappable_pattern_silent (rules : list Rule) (r : Rule) (p : gostr) :
  p ∈ pats (Command_ r) -> compile W (commandWrap p) = None -> (Match W c rules).1 <> Some r.
Proof.
  intros Hp Hc. rewrite Match_fst. intros (_ & (_ & _ & _ & Hcmd & _) & _)%match_loop_denies.
  destruct Hcmd as [Hf|[Ha _]].
  - unfold commandFields in Hf. apply app_eq_nil in Hf as [Hf _]. destruct (pats (Command_ r)); [by apply elem_of_nil in Hp|done].
  - unfold all_compile in Ha. rewrite Forall_forall in Ha. apply Ha in Hp as [? Hx]. congruence.
Qed.

(** *** The hook decides on the decoded rules *)
Lemma omit_empty_pats p : pats (omit_empty p) = pats p.
Proof. by destruct p as [[|]|]. Qed.

Lemma wire_input r : default ∅ (Input (wire r)) = default ∅ (Input r).
Proof. cbn. by case_bool_decide. Qed.

Lemma wire_constraints r : constraints W c (wire r) = constraints W c r.
Proof.
  unfold constraints. rewrite wire_input. unfold selected, cwd_holds, commandFields. cbn [Command_ Cwd wire].
  by rewrite !omit_empty_pats.
Qed.

Lemma wire_when_loop r l m : when_loop W c (wire r) l m = when_loop W c r l m.
Proof. revert m. induction l as [|cmd l IH]; intros m; [done|]. cbn [when_loop].
  change (when W c (wire r) cmd m) with (when W c r cmd m). by destruct (when W c r cmd m) as [[] m']. Qed.

Lemma wire_match_loop rules m : match_loop W c (wire <$> rules) m
  = (wire <$> (match_loop W c rules m).1, (match_loop W c rules m).2).
Proof.
  revert m. induction rules as [|r rules IH]; intros m; [done|]. cbn [match_loop fmap list_fmap].
  change (candidate c (wire r)) with (candidate c r). destruct (candidate c r); cbn [negb]; [|apply IH].
  unfold matches. rewrite wire_constraints. cbn [When wire]. destruct (constraints W c r) as [l|]; [|apply IH].
  destruct (_ || _); [done|]. rewrite wire_when_loop. by destruct (when_loop W c r l m) as [[] m'].
Qed.

(** The hook, which gets the rules as an argument, decides as the gateway
    would on the rules themselves: when JSON restores the fields it carries, the
    argument decodes, and on the decoded rules every call meets the same rule and
    the same failures of when-checks. *)
Theorem hook_decides_alike (marshal : list Rule -> option gostr) (unmarshal : gostr -> option (list Rule))
    (rules : list Rule) (body : gostr) :
  marshal rules = Some body -> unmarshal body = Some (wire <$> rules) ->
  exists arg rules', Encode marshal rules = Some arg /\ Forall (fun b => b ∈ url_alphabet) arg
    /\ Decode unmarshal arg = Some rules'
    /\ Name <$> (Match W c rules').1 = Name <$> (Match W c rules).1
    /\ Reason <$> (Match W c rules').1 = Reason <$> (Match W c rules).1
    /\ (Match W c rules').2 = (Match W c rules).2.
Proof.
  intros Hm Hu. exists (EncodeToString body), (wire <$> rules). unfold Encode, Decode, Match.
  rewrite Hm, DecodeString_Encode, wire_match_loop. split; [done|]. split; [apply EncodeToString_plain|].
  split; [exact Hu|]. destruct (match_loop W c rules _) as [[r|] m]; done.
Qed.
End Denial.

(** ** Examples *)
Definition with_run (W : World) (f : nat -> gostr -> gostr -> list gostr -> list gostr -> option ended) : World :=
  MkWorld (compile W) (json_object W) (json_string W) (parse_script W) (unicode_upper W) (visit_fields W) (host W) f.

Lemma match_loop_plain_run W f c rules m : Forall (fun r => When r = []) rules ->
  match_loop (with_run W f) c rules m = match_loop W c rules m /\ (match_loop W c rules m).2 = m.
Proof.
  intros Hw. revert m. induction Hw as [|r rules Hr Hw IH]; intros m; [done|]. cbn [match_loop].
  destruct (candidate c r); cbn [negb]; [|apply IH]. unfold matches.
  change (constraints (with_run W f) c r) with (constraints W c r).
  destruct (constraints W c r); [|apply IH]. by rewrite bool_decide_true.
Qed.

Lemma Match_plain_run W f c rules : Forall (fun r => When r = []) rules ->
  Match (with_run W f) c rules = Match W c rules /\ (Match W c rules).2 = [].
Proof.
  intros Hw. unfold Match. destruct (match_loop_plain_run W f c rules (MkMatcher 0 []) Hw) as [-> H].
  destruct (match_loop W c rules _). cbn in *. by subst.
Qed.

Lemma runExample_skip W f marshal rules whenless r k ex : Forall (fun r => When r = []) whenless ->
  runExample (with_run W f) marshal rules whenless r k ex WhenSkip = runExample W marshal rules whenless r k ex WhenSkip
  /\ WhenErrors (runExample W marshal rules whenless r k ex WhenSkip) = [].
Proof.
  intros Hw. unfold runExample. destruct (negb _); cbn [andb].
  - split; [|done]. f_equal. f_equal. unfold patternMatch, matches.
    change (constraints (with_run W f)) with (constraints W). by destruct (constraints W _ r); rewrite ?orb_true_r.
  - destruct (Match_plain_run W f (example_call marshal ex (Tool r)) whenless Hw) as [-> H].
    destruct (Match W _ whenless). cbn in *. by subst.
Qed.

(** Checking the configuration never runs a when-check: the outcomes of the
    examples are the same whatever the scripts would do, none reports a failed
    check, and an example of a rule with a script is marked as undecided. *)
Theorem skip_runs_nothing (W : World) (marshal : gostr -> gostr) (rules : list Rule)
    (f : nat -> gostr -> gostr -> list gostr -> list gostr -> option ended) :
  RunExamples (with_run W f) marshal rules WhenSkip = RunExamples W marshal rules WhenSkip
  /\ Forall (fun o => WhenErrors o = []) (RunExamples W marshal rules WhenSkip)
  /\ forall o, o ∈ RunExamples W marshal rules WhenSkip ->
       exists r, r ∈ rules /\ o_Rule o = Name r /\ WhenUnknown o = negb (bool_decide (When r = [])).
Proof.
  unfold RunExamples. set (wl := List.filter _ rules).
  assert (Hw : Forall (fun r => When r = []) wl).
  { apply Forall_forall. intros r Hr. apply list_elem_of_In, filter_In in Hr as [_ Hr]. by apply bool_decide_eq_true in Hr. }
  pose proof (fun r k ex => runExample_skip W f marshal rules wl r k ex Hw) as Hs.
  split_and!.
  - apply flat_map_ext. intros r. f_equal; apply list_fmap_ext; intros i ex _; apply Hs.
  - apply Forall_flat_map, Forall_true. intros r. apply Forall_app. split; apply Forall_fmap, Forall_true; intros ex; apply Hs.
  - intros o Ho. apply list_elem_of_In, in_flat_map in Ho as (r & Hr & Ho). exists r. split; [by apply list_elem_of_In|].
    assert (Hu : forall k ex, o_Rule (runExample W marshal rules wl r k ex WhenSkip) = Name r
      /\ WhenUnknown (runExample W marshal rules wl r k ex WhenSkip) = negb (bool_decide (When r = []))).
    { intros k ex. unfold runExample. destruct (negb _); cbn [andb]; [done|]. by destruct (Match W _ wl). }
    apply list_elem_of_In, elem_of_app in Ho as [(ex & -> & _)%list_elem_of_fmap|(ex & -> & _)%list_elem_of_fmap]; apply Hu.
Qed.

(** ** The tools of a rule set *)
Lemma tool_names_spec rules seen : NoDup (tool_names seen rules)
  /\ forall t, t ∈ tool_names seen rules <-> (t ∉ seen) /\ exists r, r ∈ rules /\ Tool r = t.
Proof.
  revert seen. induction rules as [|r rules IH]; intros seen; cbn [tool_names].
  { split; [constructor|]. intros t. split; [by intros ?%elem_of_nil|]. by intros (_ & q & Hq%elem_of_nil & _). }
  setoid_rewrite elem_of_cons. case_bool_decide as Hs.
  - destruct (IH seen) as [H1 H2]. split; [done|]. intros t. rewrite H2. set_solver.
  - destruct (IH ({[ Tool r ]} ∪ seen)) as [H1 H2]. split.
    + constructor; [|done]. rewrite H2. set_solver.
    + intros t. rewrite elem_of_cons, H2. destruct (decide (t = Tool r)); set_solver.
Qed.

(** The hook's matcher covers exactly the tools of the rules, each once, in
    order. *)
Theorem tool_names_exact (rules : list Rule) :
  StronglySorted string_lt_eq (ToolNames rules) /\ NoDup (ToolNames rules)
  /\ forall t, t ∈ ToolNames rules <-> exists r, r ∈ rules /\ Tool r = t.
Proof.
  destruct (tool_names_spec rules ∅) as [H1 H2]. unfold ToolNames. split_and!.
  - apply sort_strings_sorted.
  - by rewrite sort_strings_perm.
  - intros t. rewrite sort_strings_perm, H2. set_solver.
Qed.

(** ** What a check is given and what is kept of it *)

Lemma capped_Write_take w p : length w <= whenStderrMax -> capped_Write w p = take whenStderrMax (w ++ p).
Proof.
  intros Hw. unfold capped_Write. rewrite take_app, (take_ge w) by done.
  destruct (Nat.ltb_spec 0 (whenStderrMax - length w)) as [Hr|Hr].
  - destruct (decide (length p <= whenStderrMax - length w)) as [Hp|Hp].
    + by rewrite !take_ge by lia.
    + by rewrite Nat.min_r by lia.
  - replace (whenStderrMax - length w) with 0 by lia. by rewrite take_0, app_nil_r.
Qed.

Lemma take_take_app {A} n (l k : list A) : take n (take n l ++ k) = take n (l ++ k).
Proof.
  destruct (decide (length l <= n)) as [H|H]; [by rewrite (take_ge l)|].
  rewrite !take_app, take_take, length_take, Nat.min_id. f_equal.
  by replace (n - length l) with 0 by lia; replace (n - n `min` length l) with 0 by lia.
Qed.

(** Of what a check writes to its standard error exactly the first 512
    bytes are kept, however they are cut into writes. *)
Theorem capped_prefix (ps : list gostr) :
  fold_left capped_Write ps [] = take whenStderrMax (concat ps).
Proof.
  assert (H : forall w, length w <= whenStderrMax ->
    fold_left capped_Write ps w = take whenStderrMax (w ++ concat ps)); [|by apply H; cbn; lia].
  induction ps as [|p ps IH]; intros w Hw; cbn [fold_left concat].
  { by rewrite app_nil_r, take_ge. }
  rewrite capped_Write_take, IH by (done || rewrite length_take; lia).
  by rewrite take_take_app, (assoc_L (++)).
Qed.

(** *** The environment *)
Lemma env_name_bytes s : Forall (fun c => env_byte c = true) (env_name s).
Proof.
  assert (H : forall s skip, Forall (fun c => env_byte c = true) (env_name_from skip s)); [|apply H].
  clear s. intros s. induction s as [|c s IH]; intros skip; [constructor|]. cbn [env_name_from].
  destruct skip; [|apply IH]. destruct (env_byte c) eqn:E; constructor; auto.
Qed.

Lemma mem_byte_false d s : mem_byte d s = false -> d ∉ s.
Proof. intros H Hd%mem_byte_spec. congruence. Qed.

Lemma cut_byte b d a : (d ∉ b) -> cut [d] (b ++ d :: a) = (b, a, true).
Proof.
  intros Hd. unfold cut. assert (Hi : index [d] (b ++ d :: a) = Some (length b)).
  { induction b as [|x b IH]; cbn.
    - by rewrite byte_eqb_refl.
    - apply not_elem_of_cons in Hd as [Hx Hb]. rewrite byte_eqb_ne by done. cbn in IH. by rewrite IH. }
  rewrite Hi. cbn [length]. rewrite take_app_length, drop_app_ge by lia.
  by replace (length b + 1 - length b) with 1 by lia.
Qed.

Lemma env_key_app k v : ("="%char ∉ k) -> env_key (k ++ "=" ++ v) = k.
Proof. intros H. unfold env_key. change ("=" ++ v) with ("="%char :: v). by rewrite cut_byte. Qed.

(** A check never inherits what would change its shell or pass for the
    hook's own variables: no start-up file, no directory, and every variable
    named TOOL_ or CMD_ is one the hook set for this call, the fields of the
    input under names of capitals, digits and underscores. *)
Theorem when_env_clean (up : gostr -> gostr) (json : gostr -> option gostr)
    (visit : gmap gostr gostr -> list (gostr * gostr)) (h : Host) (c : Call) (fs : gmap gostr gostr) (kv : gostr) :
  kv ∈ whenEnv up json visit h c fs ->
  (kv ∈ environ h /\ (env_key kv ∉ ["BASH_ENV"; "ENV"; "PWD"])
   /\ has_prefix "TOOL_" (env_key kv) = false /\ has_prefix "CMD_" (env_key kv) = false)
  \/ env_key kv ∈ ["TOOL_NAME"; "TOOL_INPUT"; "TOOL_CWD"]
  \/ exists name, env_key kv = "TOOL_INPUT_" ++ name /\ Forall (fun b => env_byte b = true) name.
Proof.
  unfold whenEnv. intros [H|[H|H]%elem_of_app]%elem_of_app.
  - left. apply list_elem_of_In, filter_In in H as [H Hd%negb_true_iff]. unfold env_dropped in Hd.
    apply orb_false_iff in Hd as [[Hd Ht]%orb_false_iff Hc]. apply in_table_false in Hd.
    split_and!; [by apply list_elem_of_In|done|done|done].
  - right. left. rewrite !elem_of_cons in H. destruct H as [-> | [-> | [-> | []%elem_of_nil]]].
    + change ("TOOL_NAME=" ++ c_Tool c) with ("TOOL_NAME" ++ "=" ++ c_Tool c).
      rewrite env_key_app by (by apply mem_byte_false). set_solver.
    + change ("TOOL_INPUT=" ++ c_Input c) with ("TOOL_INPUT" ++ "=" ++ c_Input c).
      rewrite env_key_app by (by apply mem_byte_false). set_solver.
    + change ("TOOL_CWD=" ++ c_Cwd c) with ("TOOL_CWD" ++ "=" ++ c_Cwd c).
      rewrite env_key_app by (by apply mem_byte_false). set_solver.
  - right. right. apply list_elem_of_omap in H as (p & Hp & Hs). destruct (json p.2) as [s|]; [|done].
    injection Hs as <-. exists (env_name (ToUpper up p.1)). pose proof (env_name_bytes (ToUpper up p.1)) as Hb.
    split; [|done]. set (name := env_name _) in *.
    apply (env_key_app ("TOOL_INPUT_" ++ name) s).
    intros [He|He]%elem_of_app; [by apply mem_byte_spec in He|].
    rewrite Forall_forall in Hb. by apply Hb in He.
Qed.

(** ** The preinstalled rules *)

Lemma default_shape : Forall (fun d => Name d <> [] /\ (Tool d <> [] /\ Forall (fun c => word_byte c = true) (Tool d))
  /\ Action d = ActionDeny /\ Reason d <> [] /\ (commandFields d <> [] -> Tool d = bashTool)
  /\ Enabled d = None /\ Input d = None /\ Cwd d = None
  /\ (When d = [] \/ When d = killByPatternWhen)) Defaults.
Proof.
  unfold Defaults. repeat (apply Forall_cons_2;
    [split_and!; try done; [by repeat constructor|first [by left|by right]]|]). done.
Qed.

(** The preinstalled rules are all in force when their patterns compile and
    their script parses; a configuration entry of their name with
    [enabled = false] takes exactly that one out. *)
Theorem defaults_in_force (comp : gostr -> option regexp) (parse : gostr -> option (list Sh.Node))
    (visit : gmap gostr (list gostr) -> list (gostr * list gostr)) (r : Rule) :
  (forall m, visit m ≡ₚ map_to_list m) ->
  Forall (fun d => Forall (fun p => is_Some (comp p)) (pats (Command_ d))) Defaults ->
  is_Some (parse killByPatternWhen) ->
  Resolve comp parse visit [Defaults] = (Defaults, [])
  /\ (Enabled r = Some false ->
      (Resolve comp parse visit [Defaults; [r]]).1
      = List.filter (fun q => negb (bool_decide (Name q = Name r))) Defaults).
Proof.
  intros Hv Hc Hp.
  assert (Hvis : visit ∅ = []) by (apply Permutation_nil; rewrite Hv; by rewrite map_to_list_empty).
  assert (H : Resolve comp parse visit [Defaults] = (Defaults, [])).
  { apply resolve_usable.
    - apply (bool_decide_unpack (NoDup (Name <$> Defaults))). vm_compute. done.
    - eapply Forall_impl; [apply Forall_and; split; [exact Hc|exact default_shape]|].
      cbn beta. intros d [Hd (H1 & H2 & H3 & H4 & H5 & H6 & H7 & H8 & H9)].
      split; try done; [by rewrite H7; cbn; rewrite Hvis|rewrite H8; constructor|].
      intros Hw. destruct H9 as [H9|H9]; [done|by rewrite H9].
    - unfold Defaults. repeat (constructor; [done|]). constructor. }
  split; [done|]. intros Hr. pose proof (disabling_removes_one comp parse visit [Defaults] r Hr) as Hd.
  cbn [app] in Hd. by rewrite Hd, H.
Qed.

(** ** Witnesses: a rule against [git push], and one with a check *)
Definition demo_regexp (p : gostr) : option regexp :=
  Some (fun s => has_prefix (removelast (trim_prefix "^(?:" p)) s).
Definition demo_push : Command := MkCommand "git push" ["git"; "push"] false false true [] true [] [].
Definition demo_host : Host := MkHost ["PATH=/bin"; "ENV=/x"; "TOOL_NAME=evil"] (Some "/w") (fun _ => true).
Definition demo_world (e : ended) : World :=
  MkWorld demo_regexp (fun _ => {[ "command" := "raw" ]}) (fun _ => Some "git push")
    (fun _ => Some (MkScript [demo_push] [] true)) (fun s => s) map_to_list demo_host (fun _ _ _ _ _ => Some e).
Definition demo_call : Call := MkCall "Bash" "{}" "/w".
Definition push_rule (when_ : gostr) : Rule := deny_rule "no_push" "Bash" (Some ["git push"]) when_ "Do not push.".

Lemma demo_denies e when_ : denies (demo_world e) demo_call (push_rule when_).
Proof.
  split_and!; [done|done|by intros field ps Hf|right|by left].
  split; [by repeat constructor|]. exists demo_push. split; [by left|]. split_and!; [right|done|done|done].
  exists "git push". eexists. split; [by left|]. split; [reflexivity|vm_compute; reflexivity].
Qed.

Lemma first_denial_witness :
  (Match (demo_world (Exited 1)) demo_call [push_rule []]).1 = Some (push_rule []).
Proof.
  apply (first_denial (demo_world (Exited 1)) demo_call [push_rule []] (push_rule [])); [by repeat constructor|].
  exists [], []. split_and!; [done|apply demo_denies|constructor].
Defined.

Lemma when_fails_open_witness :
  (Match (demo_world TimedOut) demo_call [push_rule "sleep 9"]).1 = None.
Proof.
  rewrite (proj2 (when_fails_open (demo_world TimedOut) demo_call [push_rule "sleep 9"])); [done|by intros].
Defined.

Lemma unwrappable_pattern_silent_witness :
  let W := MkWorld (fun p => if has_prefix "^" p then None else Some (fun _ => true)) (fun _ => ∅) (fun _ => None)
             (fun _ => None) (fun s => s) map_to_list demo_host (fun _ _ _ _ _ => None) in
  compile W "git push" <> None
  /\ (Match W demo_call [push_rule []]).1 <> Some (push_rule []).
Proof.
  intros W. split; [done|].
  apply (unwrappable_pattern_silent W demo_call [push_rule []] (push_rule []) "git push"); [by left|done].
Defined.

Lemma disabling_removes_one_witness :
  let off := MkRule "no_push" [] None None None None None None [] [] [] (Some false) None None in
  (Resolve demo_regexp (fun _ => Some []) map_to_list ([[push_rule []]] ++ [[off]])).1
  = List.filter (fun q => negb (bool_decide (Name q = Name off)))
      (Resolve demo_regexp (fun _ => Some []) map_to_list [[push_rule []]]).1.
Proof. intros off. apply (disabling_removes_one demo_regexp (fun _ => Some []) map_to_list [[push_rule []]] off). done. Defined.

Lemma defaults_in_force_witness :
  Resolve demo_regexp (fun _ => Some []) map_to_list [Defaults] = (Defaults, []).
Proof.
  apply (defaults_in_force demo_regexp (fun _ => Some []) map_to_list (push_rule [])); [done| |done].
  unfold Defaults. repeat (constructor; [by repeat constructor|]). constructor.
Defined.

Lemma when_env_clean_witness :
  let kv := "PATH=/bin" : gostr in
  (kv ∈ environ demo_host /\ (env_key kv ∉ ["BASH_ENV"; "ENV"; "PWD"])
   /\ has_prefix "TOOL_" (env_key kv) = false /\ has_prefix "CMD_" (env_key kv) = false)
  \/ env_key kv ∈ ["TOOL_NAME"; "TOOL_INPUT"; "TOOL_CWD"]
  \/ exists name, env_key kv = "TOOL_INPUT_" ++ name /\ Forall (fun b => env_byte b = true) name.
Proof.
  intros kv. apply (when_env_clean (fun s => s) (fun _ => None) map_to_list demo_host demo_call ∅ kv).
  vm_compute. by left.
Defined.

Lemma hook_decides_alike_witness :
  exists arg rules', Encode (fun _ => Some "[]") [push_rule []] = Some arg
    /\ Forall (fun b => b ∈ url_alphabet) arg
    /\ Decode (fun _ => Some (wire <$> [push_rule []])) arg = Some rules'
    /\ Name <$> (Match (demo_world (Exited 1)) demo_call rules').1
       = Name <$> (Match (demo_world (Exited 1)) demo_call [push_rule []]).1
    /\ Reason <$> (Match (demo_world (Exited 1)) demo_call rules').1
       = Reason <$> (Match (demo_world (Exited 1)) demo_call [push_rule []]).1
    /\ (Match (demo_world (Exited 1)) demo_call rules').2
       = (Match (demo_world (Exited 1)) demo_call [push_rule []]).2.
Proof.
  apply (hook_decides_alike (demo_world (Exited 1)) demo_call (fun _ => Some "[]")
    (fun _ => Some (wire <$> [push_rule []])) [push_rule []] "[]"); reflexivity.
Defined.
