(* ===== verification/FrameStore.v ===== *)
(** * The durable frames of the app ([internal/app/framestore.go], [fap/codec.go])

    Every frame sent to the app is stored under its conversation and sequence
    number, so that a device that was away, or a restarted server, can replay
    it.  The SQLite tables are finite maps by primary key; a statement does not
    fail here.  Writes are asynchronous: a queue, a writer that drains it, and
    the senders that write themselves when the queue is full are the steps of a
    relation.

    [encoding/json] is a parameter ([Codec]), as is the order in which SQLite
    visits rows where a statement names none ([scan]). *)
From S2P Require Import Prelude GoStrings GoNum Rules SessionKey SessionIndex IndexQuery.
From stdpp Require Import fin_maps sorting.
Local Open Scope Z_scope.
Local Open Scope gostr_scope.

Definition dq : ascii := "034"%char.

(** ** Envelopes (codec.go) *)
Definition TypeInteractive : gostr := "interactive".
Definition TypeInteractiveEdit : gostr := "interactive.edit".
Definition TypeInteractiveProgressEdit : gostr := "interactive.progressEdit".
Definition TypeInteractiveRemove : gostr := "interactive.remove".
Definition TypeConversationAck : gostr := "conversation.ack".
Definition TypeToolCall : gostr := "tool.call".
Definition ProtocolVersion : Z := 1.

Record Envelope := MkEnvelope {
  T : gostr; ID : gostr; Seq : Z; Ack : Z; TS : gostr; V : Z; D : gostr;
}.

(** [json.Marshal] and [json.Unmarshal] of an envelope, and the fields that the
    package reads from a payload: [None] when it does not decode, and for the
    prompt fields what an ignored error leaves behind. *)
Record Codec := MkCodec {
  marshal_envelope : Envelope -> option gostr;
  envelope : gostr -> option Envelope;
  message_id : gostr -> option gostr;
  prompt_id : gostr -> gostr;
  ask_text : gostr -> gostr;
}.

(** [Encode]: [payload] is the marshalled frame, [fresh] and [now] the id and
    the instant used when none is given. *)
Definition Encode (C : Codec) (fresh now : gostr) (type : gostr) (payload : option gostr) (seq ack : Z) (id ts : gostr)
    : option gostr :=
  d ← payload;
  marshal_envelope C (MkEnvelope type (if bool_decide (id = []) then fresh else id) seq ack
    (if bool_decide (ts = []) then now else ts) ProtocolVersion d).

Definition StampAck (C : Codec) (wire : gostr) (ack : Z) : option gostr :=
  env ← envelope C wire;
  marshal_envelope C (MkEnvelope (T env) (ID env) (Seq env) ack (TS env) (V env) (D env)).

(** ** Tables *)
Record Frame := MkFrame {
  wire : gostr; sent_ms : Z; visible : bool; frame_agent : gostr; preview : gostr;
}.
Record Prompt := MkPrompt { prompt_conv : gostr; prompt_agent : gostr; created_ms : Z }.
Record shellRunRow := MkRun {
  run_id : gostr; run_conv : gostr; run_agent : gostr; run_message : gostr; run_command : gostr;
}.

Record Tables := MkTables {
  app_frames : gmap (gostr * Z) Frame;
  app_prompts : gmap gostr Prompt;
  app_shell_runs : gmap gostr shellRunRow;
  app_conv_seq : gmap gostr Z;
  user_version : Z;
}.

Definition empty_tables : Tables := MkTables ∅ ∅ ∅ ∅ 0.
Definition set_frames m t := MkTables m (app_prompts t) (app_shell_runs t) (app_conv_seq t) (user_version t).
Definition set_prompts m t := MkTables (app_frames t) m (app_shell_runs t) (app_conv_seq t) (user_version t).
Definition set_runs m t := MkTables (app_frames t) (app_prompts t) m (app_conv_seq t) (user_version t).
Definition set_conv_seq m t := MkTables (app_frames t) (app_prompts t) (app_shell_runs t) m (user_version t).
Definition set_version v t := MkTables (app_frames t) (app_prompts t) (app_shell_runs t) (app_conv_seq t) v.

(** ** Writes

    [onStored] is a callback, by its number. *)
Record frameWrite := MkWrite {
  w_conv : gostr; w_agent : gostr; w_seq : Z; w_wire : gostr; w_sentMs : Z; w_visible : bool; w_preview : gostr;
  onStored : option nat;
}.

Definition stored_frame (w : frameWrite) : Frame :=
  MkFrame (w_wire w) (w_sentMs w) (w_visible w) (w_agent w) (w_preview w).

(** [insert]: the tables after it, and the callback it runs. *)
Definition insert_frame (w : frameWrite) (t : Tables) : Tables * option nat :=
  (set_frames (<[ (w_conv w, w_seq w) := stored_frame w ]> (app_frames t)) t, onStored w).

Definition frameWriteQueue : nat := 1024.

(** The store: its tables, the channel, what the writer has taken from it, and
    the writes senders are doing themselves. *)
Record frameStore := MkStore {
  tables : Tables; writeCh : list frameWrite; taken : option frameWrite; inline : list frameWrite;
}.

(** [AppendThen], up to the insert of a sender that found the queue full. *)
Definition AppendThen (w : frameWrite) (s : frameStore) : frameStore :=
  if (length (writeCh s) <? frameWriteQueue)%nat
  then MkStore (tables s) (writeCh s ++ [w]) (taken s) (inline s)
  else MkStore (tables s) (writeCh s) (taken s) (inline s ++ [w]).

Definition set_tables t s := MkStore t (writeCh s) (taken s) (inline s).

(** [TrimOlderThan]: the high-water marks of the conversations that lose a
    frame, the frames, then the prompts.  The result is the count of frames. *)
Definition seqs_of (conv : gostr) (t : Tables) : list Z :=
  omap (fun kf => if bool_decide (kf.1.1 = conv) then Some kf.1.2 else None) (map_to_list (app_frames t)).

(** [MAX], NULL over no rows. *)
Definition max_opt (a b : option Z) : option Z :=
  match a, b with Some x, Some y => Some (Z.max x y) | Some _, None => a | None, _ => b end.
Definition max_of (l : list Z) : option Z := foldr (fun x => max_opt (Some x)) None l.

Definition affected (cutoffMs : Z) (t : Tables) : gset gostr :=
  list_to_set (omap (fun kf => if sent_ms kf.2 <? cutoffMs then Some kf.1.1 else None) (map_to_list (app_frames t))).

Definition record_high_water (conv : gostr) (t : Tables) : Tables :=
  match max_opt (app_conv_seq t !! conv) (max_of (seqs_of conv t)) with
  | Some m => set_conv_seq (<[ conv := m ]> (app_conv_seq t)) t
  | None => t
  end.

Definition TrimOlderThan (cutoffMs : Z) (t : Tables) : Tables * nat :=
  let marked := foldr record_high_water t (elements (affected cutoffMs t)) in
  let kept := filter (fun kf => cutoffMs <= sent_ms kf.2) (app_frames t) in
  (set_prompts (filter (fun kp => cutoffMs <= created_ms kp.2) (app_prompts t)) (set_frames kept marked),
   (size (app_frames t) - size kept)%nat).

(** ** Prompts and shell runs *)
Definition PutPrompt (promptID convID agentID : gostr) (createdMs : Z) (t : Tables) : Tables :=
  set_prompts (<[ promptID := MkPrompt convID agentID createdMs ]> (app_prompts t)) t.
Definition PromptConv (promptID : gostr) (t : Tables) : option (gostr * gostr) :=
  (fun p => (prompt_conv p, prompt_agent p)) <$> app_prompts t !! promptID.
Definition DeletePrompt (promptID : gostr) (t : Tables) : Tables :=
  set_prompts (delete promptID (app_prompts t)) t.

Definition AddShellRun (r : shellRunRow) (t : Tables) : Tables :=
  set_runs (<[ run_id r := r ]> (app_shell_runs t)) t.
Definition DeleteShellRun (runID : gostr) (t : Tables) : Tables :=
  set_runs (delete runID (app_shell_runs t)) t.

Definition NeedsLegacyAskSweep (t : Tables) : bool := user_version t <? 1.
Definition MarkLegacyAsksSwept (t : Tables) : Tables := set_version 1 t.

(** ** Reading *)
Definition seq_le (a b : Z * Frame) : Prop := a.1 <= b.1.
#[export] Instance seq_le_dec : RelDecision seq_le := fun a b => Z_le_dec a.1 b.1.

(** The frames of a conversation, [ORDER BY seq ASC]. *)
Definition conv_frames (conv : gostr) (t : Tables) : list (Z * Frame) :=
  merge_sort seq_le
    (omap (fun kf => if bool_decide (kf.1.1 = conv) then Some (kf.1.2, kf.2) else None) (map_to_list (app_frames t))).

(** [LIMIT]: a negative one is none. *)
Definition limit {A} (n : Z) (l : list A) : list A := if n <? 0 then l else take (Z.to_nat n) l.

Definition MaxSeq (conv : gostr) (t : Tables) : Z :=
  default 0 (max_opt (max_of (seqs_of conv t)) (app_conv_seq t !! conv)).

Definition Range (conv : gostr) (fromSeq n : Z) (t : Tables) : list (Z * gostr) :=
  limit n ((fun f => (f.1, wire f.2)) <$> filter (fun f => fromSeq < f.1) (conv_frames conv t)).

Definition PromptFrames (conv needle : gostr) (t : Tables) : list (Z * gostr * Z) :=
  (fun f => (f.1, wire f.2, sent_ms f.2)) <$> filter (fun f => contains needle (wire f.2) = true) (conv_frames conv t).

Definition newest {A} (l : list A) : option A := head (rev l).

Definition LastVisible (conv : gostr) (t : Tables) : option (gostr * Z) :=
  (fun f => (preview f.2, sent_ms f.2)) <$> newest (filter (fun f => visible f.2 = true) (conv_frames conv t)).

(** The text before a message id in a wire. *)
Definition messageIdKey : gostr := [dq] ++ "messageId" ++ [dq] ++ ":" ++ [dq].

Section Decoding.
Context (C : Codec) (scan : forall A : Type, list A -> list A).

Definition LastVisibleMessageID (conv : gostr) (t : Tables) : option gostr :=
  f ← newest (filter (fun f => visible f.2 = true /\ contains messageIdKey (wire f.2) = true) (conv_frames conv t));
  env ← envelope C (wire f.2);
  id ← message_id C (D env);
  if bool_decide (id = []) then None else Some id.

Record messagePreview := MkPreview { Snippet : gostr; SentMs : Z }.

(** One row of [MessagePreviews]: the time of the first frame, the text of the last. *)
Definition preview_row (ids : gset gostr) (out : gmap gostr messagePreview) (f : Z * Frame) : gmap gostr messagePreview :=
  match (env ← envelope C (wire f.2); message_id C (D env)) with
  | None => out
  | Some id =>
      if bool_decide (id ∈ ids)
      then <[ id := MkPreview (preview f.2) (match out !! id with Some p => SentMs p | None => sent_ms f.2 end) ]> out
      else out
  end.

Definition preview_needle (ids : gset gostr) : gostr :=
  match elements ids with [id] => messageIdKey ++ id ++ [dq] | _ => messageIdKey end.

(** The result for no ids is nil, which a reader cannot tell from an empty map. *)
Definition MessagePreviews (conv : gostr) (ids : gset gostr) (t : Tables) : gmap gostr messagePreview :=
  if bool_decide (ids = ∅) then ∅
  else fold_left (preview_row ids)
         (filter (fun f => visible f.2 = true /\ preview f.2 <> [] /\ contains (preview_needle ids) (wire f.2) = true)
            (conv_frames conv t)) ∅.

Definition frame_rows (t : Tables) : list ((gostr * Z) * Frame) := scan _ (map_to_list (app_frames t)).

(** [SELECT DISTINCT]. *)
Definition RestorableConvs (t : Tables) : list (gostr * gostr) :=
  remove_dups (omap (fun kf => if visible kf.2 && negb (bool_decide (frame_agent kf.2 = []))
                               then Some (kf.1.1, frame_agent kf.2) else None) (frame_rows t)).

Definition OpenShellRuns (t : Tables) : list shellRunRow := (scan _ (map_to_list (app_shell_runs t))).*2.

(** What a stored frame says of a prompt. *)
Inductive ask_event := Asked (promptID : gostr) | Closed (promptID : gostr).

Definition ask_event_of (w : gostr) : option ask_event :=
  env ← envelope C w;
  if bool_decide (prompt_id C (D env) = []) then None
  else if in_table [TypeInteractiveEdit; TypeInteractiveRemove] (T env) then Some (Closed (prompt_id C (D env)))
  else if bool_decide (T env = TypeInteractive) then Some (Asked (prompt_id C (D env)))
  else None.

Definition asked_id (e : ask_event) : option gostr := match e with Asked p => Some p | Closed _ => None end.
Definition closed_id (e : ask_event) : option gostr := match e with Closed p => Some p | Asked _ => None end.

(** The pattern that the type of an interactive frame matches. *)
Definition interactive_like : gostr := "%" ++ [dq] ++ "t" ++ [dq] ++ ":" ++ [dq] ++ "interactive%".

Definition conv_asks (conv : gostr) (t : Tables) : list ask_event :=
  omap (fun kf => if bool_decide (kf.1.1 = conv) && like None interactive_like (wire kf.2)
                  then ask_event_of (wire kf.2) else None) (frame_rows t).

Definition open_prompts (conv : gostr) (t : Tables) : gset gostr :=
  dom (filter (fun kp => prompt_conv kp.2 = conv) (app_prompts t)).

Definition OrphanedResolvedAsks (conv : gostr) (t : Tables) : gset gostr :=
  list_to_set (omap asked_id (conv_asks conv t)) ∖ list_to_set (omap closed_id (conv_asks conv t))
  ∖ open_prompts conv t.

Record legacyAsk := MkAsk { la_prompt : gostr; la_conv : gostr; la_agent : gostr; la_text : gostr }.

Definition legacy_ask (kf : (gostr * Z) * Frame) : option legacyAsk :=
  env ← envelope C (wire kf.2);
  p ← ask_event_of (wire kf.2) ≫= asked_id;
  Some (MkAsk p kf.1.1 (frame_agent kf.2) (ask_text C (D env))).

(** The last loop of [LegacyOpenAsks]. *)
Fixpoint legacy_loop (done : gset gostr) (asks : list legacyAsk) : list legacyAsk :=
  match asks with
  | [] => []
  | a :: asks => if bool_decide (la_prompt a ∈ done) then legacy_loop done asks
                 else a :: legacy_loop ({[ la_prompt a ]} ∪ done) asks
  end.

Definition LegacyOpenAsks (t : Tables) : list legacyAsk :=
  let rows := frame_rows t in
  legacy_loop
    (list_to_set (omap (fun kf => ask_event_of (wire kf.2) ≫= closed_id) rows) ∪ dom (app_prompts t))
    (omap legacy_ask rows).
End Decoding.

(** ** The life of the store *)
Definition pending (s : frameStore) : list frameWrite := writeCh s ++ option_list (taken s) ++ inline s.

(** [Close]: the writer finishes what it holds and drains the queue. *)
Definition Close (s : frameStore) : frameStore :=
  MkStore (fold_left (fun t w => (insert_frame w t).1) (option_list (taken s) ++ writeCh s) (tables s)) [] None (inline s).

Inductive op :=
| OpPutPrompt (p conv agent : gostr) (ms : Z)
| OpDeletePrompt (p : gostr)
| OpAddShellRun (r : shellRunRow)
| OpDeleteShellRun (r : gostr)
| OpSwept.

Definition do_op (o : op) (t : Tables) : Tables :=
  match o with
  | OpPutPrompt p conv agent ms => PutPrompt p conv agent ms t
  | OpDeletePrompt p => DeletePrompt p t
  | OpAddShellRun r => AddShellRun r t
  | OpDeleteShellRun r => DeleteShellRun r t
  | OpSwept => MarkLegacyAsksSwept t
  end.

(** One step of the store: what a goroutine does at once.  A label names the
    write that begins or lands. *)
Inductive label := Begins (w : frameWrite) | Lands (w : frameWrite) | Trims (cutoffMs : Z) | Other | Dies.

Inductive store_step : frameStore -> label -> frameStore -> Prop :=
| step_append w s : store_step s (Begins w) (AppendThen w s)
| step_take w q t i : store_step (MkStore t (w :: q) None i) Other (MkStore t q (Some w) i)
| step_write w q t i : store_step (MkStore t q (Some w) i) (Lands w) (MkStore (insert_frame w t).1 q None i)
| step_inline w q t k i j :
    store_step (MkStore t q k (i ++ w :: j)) (Lands w) (MkStore (insert_frame w t).1 q k (i ++ j))
| step_trim ms s : store_step s (Trims ms) (set_tables (TrimOlderThan ms (tables s)).1 s)
| step_op o s : store_step s Other (set_tables (do_op o (tables s)) s)
| step_crash s : store_step s Dies (MkStore (tables s) [] None []).

Inductive store_run : frameStore -> list label -> frameStore -> Prop :=
| run_nil s : store_run s [] s
| run_cons s l s' ls s'' : store_step s l s' -> store_run s' ls s'' -> store_run s (l :: ls) s''.

(** ** Highest sequence numbers *)
Definition top (conv : gostr) (t : Tables) : option Z := max_opt (max_of (seqs_of conv t)) (app_conv_seq t !! conv).

#[export] Instance max_opt_comm : Comm (=) max_opt.
Proof. intros [a|] [b|]; cbn; [f_equal; lia|done..]. Qed.
#[export] Instance max_opt_assoc : Assoc (=) max_opt.
Proof. intros [a|] [b|] [c|]; cbn; [f_equal; lia|done..]. Qed.
#[export] Instance max_opt_idemp : IdemP (=) max_opt.
Proof. intros [a|]; cbn; [f_equal; lia|done]. Qed.

Lemma max_of_le l x : x ∈ l -> max_opt (Some x) (max_of l) = max_of l.
Proof.
  induction l as [|y l IH]; [by intros ?%elem_of_nil|]. cbn [max_of foldr]. intros [->|H]%elem_of_cons.
  - by rewrite (assoc_L max_opt), (idemp_L max_opt).
  - change (foldr (fun x => max_opt (Some x)) None l) with (max_of l).
    rewrite (assoc_L max_opt), (comm_L max_opt (Some x)), <- (assoc_L max_opt). by rewrite IH.
Qed.

Lemma max_of_subset l k : l ⊆ k -> max_opt (max_of l) (max_of k) = max_of k.
Proof.
  intros H. induction l as [|x l IH]; [done|]. cbn [max_of foldr].
  change (foldr (fun x => max_opt (Some x)) None l) with (max_of l). rewrite <- (assoc_L max_opt), IH by set_solver.
  apply max_of_le. set_solver.
Qed.

Lemma max_of_equiv l k : (forall x, x ∈ l <-> x ∈ k) -> max_of l = max_of k.
Proof.
  intros H. rewrite <- (max_of_subset l k) by (intros x; apply H).
  rewrite (comm_L max_opt). symmetry. apply max_of_subset. intros x. apply H.
Qed.

Lemma elem_of_seqs conv s t : s ∈ seqs_of conv t <-> is_Some (app_frames t !! (conv, s)).
Proof.
  unfold seqs_of. rewrite list_elem_of_omap. split.
  - intros ([[c s'] f] & Hin%elem_of_map_to_list & Hx). cbn in Hx. case_bool_decide; [|done]. simplify_eq. by exists f.
  - intros [f Hf]. exists ((conv, s), f). split; [by apply elem_of_map_to_list|]. cbn. by rewrite bool_decide_true.
Qed.

Lemma MaxSeq_top conv t : MaxSeq conv t = default 0 (top conv t).
Proof. done. Qed.

Lemma top_stored conv s f t : app_frames t !! (conv, s) = Some f -> max_opt (Some s) (top conv t) = top conv t.
Proof. intros H. unfold top. by rewrite (assoc_L max_opt), max_of_le by (apply elem_of_seqs; eauto). Qed.

(** What each operation does to the highest number. *)
Lemma top_insert conv w t : top conv (insert_frame w t).1
  = if bool_decide (w_conv w = conv) then max_opt (Some (w_seq w)) (top conv t) else top conv t.
Proof.
  unfold top. cbn [insert_frame fst app_conv_seq set_frames].
  assert (Hs : forall s, s ∈ seqs_of conv (insert_frame w t).1
    <-> (w_conv w = conv /\ s = w_seq w) \/ s ∈ seqs_of conv t).
  { intros s. rewrite !elem_of_seqs. cbn. destruct (decide ((w_conv w, w_seq w) = (conv, s))) as [[= <- <-]|Hne].
    - rewrite lookup_insert_eq. naive_solver.
    - rewrite lookup_insert_ne by done. naive_solver. }
  rewrite (assoc_L max_opt). case_bool_decide as Hc.
  - f_equal. rewrite (max_of_equiv _ (w_seq w :: seqs_of conv t)); [done|]. intros s. rewrite Hs, elem_of_cons. naive_solver.
  - f_equal. apply max_of_equiv. intros s. rewrite Hs. naive_solver.
Qed.

Lemma record_frames conv t : app_frames (record_high_water conv t) = app_frames t.
Proof. unfold record_high_water. by destruct (max_opt _ _). Qed.

Lemma record_seq conv c t : app_conv_seq (record_high_water conv t) !! c
  = if bool_decide (c = conv) then top c t else app_conv_seq t !! c.
Proof.
  unfold record_high_water. rewrite (comm_L max_opt). fold (top conv t). case_bool_decide as Hc.
  - subst c. destruct (top conv t) eqn:E; cbn; [by rewrite lookup_insert_eq|].
    unfold top in E. by destruct (max_of _), (_ !! conv).
  - destruct (top conv t); cbn; [by rewrite lookup_insert_ne|done].
Qed.

Lemma record_top conv c t : top c (record_high_water conv t) = top c t.
Proof.
  unfold top at 1. unfold seqs_of. rewrite record_frames, record_seq. fold (seqs_of c t). case_bool_decide; [|done].
  unfold top. by rewrite (assoc_L max_opt), (idemp_L max_opt).
Qed.

Lemma records_spec l t c :
  app_frames (foldr record_high_water t l) = app_frames t
  /\ app_conv_seq (foldr record_high_water t l) !! c = if bool_decide (c ∈ l) then top c t else app_conv_seq t !! c.
Proof.
  assert (Ht : top c (foldr record_high_water t l) = top c t).
  { induction l as [|x l IH]; [done|]. cbn [foldr]. by rewrite record_top. }
  induction l as [|x l IH]; [done|]. cbn [foldr] in *. rewrite record_top in Ht. destruct (IH Ht) as [Hf Hs].
  rewrite record_frames, record_seq. split; [done|]. destruct (decide (c = x)) as [->|Hne].
  - rewrite !bool_decide_true; [done|set_solver|done].
  - rewrite (bool_decide_false (c = x)) by done. rewrite Hs. apply (f_equal (fun b : bool => if b then _ else _)).
    apply bool_decide_ext. set_solver.
Qed.

Lemma elem_of_affected conv ms t : conv ∈ affected ms t <-> exists s f, app_frames t !! (conv, s) = Some f /\ sent_ms f < ms.
Proof.
  unfold affected. rewrite elem_of_list_to_set, list_elem_of_omap. split.
  - intros ([[c s] f] & Hin%elem_of_map_to_list & Hx). cbn in Hx. destruct (Z.ltb_spec (sent_ms f) ms); [|done]. naive_solver.
  - intros (s & f & Hf & Hlt). exists ((conv, s), f). split; [by apply elem_of_map_to_list|]. cbn.
    by rewrite (proj2 (Z.ltb_lt _ _) Hlt).
Qed.

Lemma trim_frames ms t k f : app_frames (TrimOlderThan ms t).1 !! k = Some f <-> app_frames t !! k = Some f /\ ms <= sent_ms f.
Proof. cbn. apply map_lookup_filter_Some. Qed.

Lemma top_trim conv ms t : top conv (TrimOlderThan ms t).1 = top conv t.
Proof.
  unfold top at 1. destruct (records_spec (elements (affected ms t)) t conv) as [_ Hs].
  change (app_conv_seq (TrimOlderThan ms t).1) with (app_conv_seq (foldr record_high_water t (elements (affected ms t)))).
  rewrite Hs. case_bool_decide as Ha; rewrite elem_of_elements, elem_of_affected in Ha.
  - unfold top. rewrite (assoc_L max_opt). f_equal. apply max_of_subset. intros s.
    rewrite !elem_of_seqs. intros [f [Hf _]%trim_frames]. eauto.
  - unfold top. f_equal. apply max_of_equiv. intros s. rewrite !elem_of_seqs. split.
    + intros [f [Hf _]%trim_frames]. eauto.
    + intros [f Hf]. exists f. apply trim_frames. split; [done|].
      destruct (decide (ms <= sent_ms f)); [done|]. destruct Ha. exists s, f. split; [done|lia].
Qed.

Lemma do_op_frames o t : app_frames (do_op o t) = app_frames t /\ app_conv_seq (do_op o t) = app_conv_seq t.
Proof. by destruct o. Qed.

Lemma top_op conv o t : top conv (do_op o t) = top conv t.
Proof. by destruct o. Qed.

Lemma top_insert_le conv w t : 0 < w_seq w -> MaxSeq conv t <= MaxSeq conv (insert_frame w t).1
  /\ (w_conv w = conv -> w_seq w <= MaxSeq conv (insert_frame w t).1).
Proof.
  intros Hw. rewrite !MaxSeq_top, top_insert. case_bool_decide; [|done]. destruct (top conv t); cbn; split; lia.
Qed.

(** The highest number of a conversation never falls, whatever the store
    does (queued and direct writes, trims of every frame, crashes included), and
    it is at least every number whose frame was written, so a binding made after
    a restart numbers on from there. *)
Theorem seqs_never_fall (s s' : frameStore) (ls : list label) (conv : gostr) :
  store_run s ls s' -> (forall w, Lands w ∈ ls -> 0 < w_seq w) ->
  MaxSeq conv (tables s) <= MaxSeq conv (tables s')
  /\ forall w, Lands w ∈ ls -> w_conv w = conv -> w_seq w <= MaxSeq conv (tables s').
Proof.
  induction 1 as [s|s l s1 ls s2 Hstep Hrun IH]; intros Hpos.
  { split; [done|]. by intros w ?%elem_of_nil. }
  destruct IH as [IH1 IH2]; [intros w Hw; apply Hpos; by right|].
  assert (Hs : MaxSeq conv (tables s) <= MaxSeq conv (tables s1)
    /\ forall w, l = Lands w -> w_conv w = conv -> w_seq w <= MaxSeq conv (tables s1)).
  { assert (Hl : forall w, l = Lands w -> 0 < w_seq w) by (intros w ->; apply Hpos; by left).
    destruct Hstep; cbn [tables set_tables]; try (split; [done|done]).
    - unfold AppendThen. by case_match.
    - destruct (top_insert_le conv w t (Hl w eq_refl)). split; [done|]. by intros ? [= <-].
    - destruct (top_insert_le conv w t (Hl w eq_refl)). split; [done|]. by intros ? [= <-].
    - rewrite !MaxSeq_top, top_trim. done.
    - rewrite !MaxSeq_top, top_op. done. }
  split; [lia|]. intros w [Hw|Hw]%elem_of_cons Hc; [|by apply IH2].
  destruct Hs as [_ Hs]. specialize (Hs w (eq_sym Hw) Hc). lia.
Qed.

(** ** Writes are neither lost nor repeated *)
Definition begun (l : label) : option frameWrite := match l with Begins w => Some w | _ => None end.
Definition landed (l : label) : option frameWrite := match l with Lands w => Some w | _ => None end.

Lemma AppendThen_pending w s : pending (AppendThen w s) ≡ₚ w :: pending s /\ tables (AppendThen w s) = tables s.
Proof. unfold AppendThen, pending. case_match; cbn; split; try done; solve_Permutation. Qed.

(** What a step does to the tables and to what is held. *)
Lemma store_step_effect s e s' : store_step s e s' ->
  match e with
  | Begins w => tables s' = tables s /\ pending s' ≡ₚ w :: pending s
  | Lands w => tables s' = (insert_frame w (tables s)).1 /\ pending s ≡ₚ w :: pending s'
  | Trims ms => tables s' = (TrimOlderThan ms (tables s)).1 /\ pending s' = pending s
  | Other => app_frames (tables s') = app_frames (tables s) /\ app_conv_seq (tables s') = app_conv_seq (tables s)
             /\ pending s' ≡ₚ pending s
  | Dies => tables s' = tables s /\ pending s' = []
  end.
Proof.
  destruct 1.
  - destruct (AppendThen_pending w s). done.
  - split_and!; [done..|]. unfold pending. cbn. solve_Permutation.
  - split; [done|]. unfold pending. cbn. solve_Permutation.
  - split; [done|]. unfold pending. cbn. solve_Permutation.
  - done.
  - cbn. destruct (do_op_frames o (tables s)) as [-> ->]. done.
  - done.
Qed.

(** Without a crash every write that began is either still held (in the
    queue, by the writer or by a sender) or landed, exactly as often as it
    began: a full queue delays a sender but loses nothing. *)
Theorem writes_conserved (s s' : frameStore) (ls : list label) :
  store_run s ls s' -> Dies ∉ ls -> pending s ++ omap begun ls ≡ₚ omap landed ls ++ pending s'.
Proof.
  induction 1 as [s|s l s1 ls s2 Hstep Hrun IH]; intros Hd; [by rewrite app_nil_r|].
  rewrite not_elem_of_cons in Hd. destruct Hd as [Hl Hd]. specialize (IH Hd).
  assert (Hs : pending s ++ omap begun [l] ≡ₚ omap landed [l] ++ pending s1).
  { apply store_step_effect in Hstep. destruct l; cbn [omap list_omap begun landed]; rewrite ?app_nil_r; cbn [app].
    - destruct Hstep as [_ ->]. solve_Permutation.
    - by destruct Hstep as [_ ->].
    - by destruct Hstep as [_ ->].
    - by destruct Hstep as (_ & _ & ->).
    - by destruct Hl. }
  change (l :: ls) with ([l] ++ ls). rewrite !omap_app, app_assoc, Hs, <- app_assoc, IH. solve_Permutation.
Qed.

Lemma insert_all_lookup ws t k f : app_frames t !! k = Some f ->
  (forall w, w ∈ ws -> (w_conv w, w_seq w) <> k) ->
  app_frames (fold_left (fun t w => (insert_frame w t).1) ws t) !! k = Some f.
Proof.
  revert t. induction ws as [|w ws IH]; intros t Hk Hw; [done|]. cbn [fold_left]. apply IH.
  - cbn. rewrite lookup_insert_ne; [done|]. apply Hw. by left.
  - intros w' ?. apply Hw. by right.
Qed.

(** Closing writes what the writer holds and what is queued. *)
Lemma Close_stores s w : NoDup ((fun w => (w_conv w, w_seq w)) <$> option_list (taken s) ++ writeCh s) ->
  w ∈ option_list (taken s) ++ writeCh s ->
  app_frames (tables (Close s)) !! (w_conv w, w_seq w) = Some (stored_frame w).
Proof.
  cbn [Close tables]. generalize (option_list (taken s) ++ writeCh s) as ws. generalize (tables s) as t. intros t ws.
  revert t. induction ws as [|x ws IH]; intros t Hd Hw; [by apply elem_of_nil in Hw|].
  rewrite fmap_cons, NoDup_cons in Hd. destruct Hd as [Hx Hd]. cbn [fold_left].
  apply elem_of_cons in Hw as [->|Hw]; [|by apply IH].
  apply insert_all_lookup; [cbn; by rewrite lookup_insert_eq|]. intros w' Hin E. apply Hx. rewrite <- E.
  apply list_elem_of_fmap. by exists w'.
Qed.

(** ** Frames in order *)
Definition seq_lt (a b : Z * Frame) : Prop := a.1 < b.1.

#[export] Instance seq_le_trans : Transitive seq_le.
Proof. intros ??? ??. unfold seq_le in *. lia. Qed.
#[export] Instance seq_le_total : Total seq_le.
Proof. intros a b. unfold seq_le. lia. Qed.

Lemma elem_of_conv_frames conv t s f : (s, f) ∈ conv_frames conv t <-> app_frames t !! (conv, s) = Some f.
Proof.
  unfold conv_frames. rewrite merge_sort_Permutation, list_elem_of_omap. split.
  - intros ([[c s'] f'] & Hin%elem_of_map_to_list & Hx). cbn in Hx. case_bool_decide; [|done]. by simplify_eq.
  - intros Hf. exists ((conv, s), f). split; [by apply elem_of_map_to_list|]. cbn. by rewrite bool_decide_true.
Qed.

Lemma conv_frames_NoDup conv t : NoDup (conv_frames conv t).*1.
Proof.
  unfold conv_frames. rewrite merge_sort_Permutation. pose proof (NoDup_fst_map_to_list (app_frames t)) as Hd.
  induction (map_to_list (app_frames t)) as [|[[c s] f] l IH]; [constructor|]. rewrite fmap_cons, NoDup_cons in Hd.
  destruct Hd as [Hn Hd]. cbn [omap list_omap]. case_bool_decide as Hc; [|by apply IH]. cbn in Hc. subst c.
  rewrite fmap_cons, NoDup_cons. split; [|by apply IH]. intros ([s' f'] & E & Hin)%list_elem_of_fmap. cbn in E. subst s'.
  apply list_elem_of_omap in Hin as ([[c s'] g] & Hin & Hx). cbn in Hx. case_bool_decide; [|done]. simplify_eq.
  apply Hn. apply list_elem_of_fmap. by exists ((conv, s), f').
Qed.

Lemma conv_frames_sorted conv t : StronglySorted seq_lt (conv_frames conv t).
Proof.
  pose proof (conv_frames_NoDup conv t) as Hd.
  assert (Hs : StronglySorted seq_le (conv_frames conv t))
    by (apply Sorted_StronglySorted; [apply _|]; unfold conv_frames; apply Sorted_merge_sort; apply _).
  induction Hs as [|a l Hl IH Ha]; [constructor|]. rewrite fmap_cons, NoDup_cons in Hd. destruct Hd as [Hn Hd].
  constructor; [by apply IH|]. rewrite Forall_forall in *. intros b Hb. specialize (Ha b Hb).
  unfold seq_le, seq_lt in *. assert (a.1 <> b.1); [|lia]. intros E. apply Hn. rewrite E. apply list_elem_of_fmap. by exists b.
Qed.

(** The stored frames of a conversation above a number, in order. *)
Definition stored_after (conv : gostr) (fromSeq : Z) (t : Tables) : list (Z * gostr) :=
  (fun f => (f.1, wire f.2)) <$> filter (fun f => fromSeq < f.1) (conv_frames conv t).

Lemma elem_of_stored_after conv fromSeq t s w : (s, w) ∈ stored_after conv fromSeq t
  <-> fromSeq < s /\ exists f, app_frames t !! (conv, s) = Some f /\ wire f = w.
Proof.
  unfold stored_after. rewrite list_elem_of_fmap. setoid_rewrite list_elem_of_filter. split.
  - intros ([s' f] & [= -> ->] & Hs & Hf%elem_of_conv_frames). cbn in *. eauto.
  - intros (Hs & f & Hf & <-). exists (s, f). by rewrite elem_of_conv_frames.
Qed.

Definition num_lt (a b : Z * gostr) : Prop := a.1 < b.1.

Lemma stored_after_sorted conv fromSeq t : StronglySorted num_lt (stored_after conv fromSeq t).
Proof. unfold stored_after. apply (sorted_fmap seq_lt); [done|]. apply sorted_filter, conv_frames_sorted. Qed.

Lemma Range_limit conv fromSeq n t : Range conv fromSeq n t = limit n (stored_after conv fromSeq t).
Proof. done. Qed.

(** Reading on after the last frame of a page. *)
Lemma stored_after_drop conv fromSeq t pre s w post : stored_after conv fromSeq t = pre ++ (s, w) :: post ->
  stored_after conv s t = post.
Proof.
  unfold stored_after. intros H.
  apply fmap_app_inv in H as (fp & fq & Hp & Hq & Hsplit). symmetry in Hq.
  apply fmap_cons_inv in Hq as ([s' f] & fr & [= -> ->] & -> & ->). cbn.
  f_equal. pose proof (conv_frames_sorted conv t) as Hs. pose proof (sorted_filter _ (fun f => fromSeq < f.1) _ Hs) as Hf.
  rewrite Hsplit in Hf. apply (sorted_unique seq_lt); [unfold seq_lt; lia|by apply sorted_filter| |].
  - apply StronglySorted_app in Hf as (_ & _ & Hf). by inversion Hf.
  - intros [s f']. rewrite list_elem_of_filter. cbn.
    assert (Hin : (s, f') ∈ filter (fun f => fromSeq < f.1) (conv_frames conv t) <-> (s, f') ∈ fp \/ (s, f') = (s', f) \/ (s, f') ∈ fr).
    { rewrite Hsplit, elem_of_app, elem_of_cons. tauto. }
    rewrite list_elem_of_filter in Hin. cbn in Hin.
    assert (Hfrom : fromSeq < s') by (assert ((s', f) ∈ filter (fun f => fromSeq < f.1) (conv_frames conv t))
      as [? _]%list_elem_of_filter by (rewrite Hsplit; set_solver); done).
    apply StronglySorted_app in Hf as (Hlt & _ & Hf). apply StronglySorted_inv in Hf as [_ Hfr]. rewrite Forall_forall in Hfr.
    split.
    + intros [Hlt' Hc]. destruct (proj1 Hin) as [H|[[= -> ->]|H]]; [split; [lia|done]| |lia|done].
      assert (seq_lt (s, f') (s', f)) as Hx by (apply Hlt; [done|by left]). unfold seq_lt in Hx. cbn in Hx. lia.
    + intros H. specialize (Hfr _ H). unfold seq_lt in Hfr. cbn in Hfr. split; [done|]. apply Hin. auto.
Qed.

(** ** Prompts in the stored frames *)
Section Asks.
Context (C : Codec) (scan : forall A : Type, list A -> list A).
Hypothesis scan_perm : forall A (l : list A), scan A l ≡ₚ l.

(** A stored frame of the conversation says [e]. *)
Definition says (conv : gostr) (t : Tables) (e : ask_event) : Prop :=
  exists s f, app_frames t !! (conv, s) = Some f /\ ask_event_of C (wire f) = Some e.

(** [encoding/json] writes an envelope's type first, so the wires of frames that
    ask or close match the pattern. *)
Definition typed (t : Tables) : Prop := forall k f e,
  app_frames t !! k = Some f -> ask_event_of C (wire f) = Some e -> like None interactive_like (wire f) = true.

Lemma elem_of_frame_rows kf t : kf ∈ frame_rows scan t <-> app_frames t !! kf.1 = Some kf.2.
Proof. unfold frame_rows. rewrite scan_perm. destruct kf. apply elem_of_map_to_list. Qed.

Lemma elem_of_conv_asks conv t e : typed t -> e ∈ conv_asks C scan conv t <-> says conv t e.
Proof.
  intros Ht. unfold conv_asks. rewrite list_elem_of_omap. split.
  - intros ([[c s] f] & Hin%elem_of_frame_rows & Hx). cbn [fst snd] in Hin, Hx. case_bool_decide; [|done].
    destruct (like _ _ _); [|done]. subst c. by exists s, f.
  - intros (s & f & Hf & He). exists ((conv, s), f). split; [by apply elem_of_frame_rows|]. cbn [fst snd].
    rewrite bool_decide_true, (Ht _ _ _ Hf He) by done. done.
Qed.

Lemma elem_of_asked p l : p ∈ (list_to_set (omap asked_id l) : gset gostr) <-> Asked p ∈ l.
Proof.
  rewrite elem_of_list_to_set, list_elem_of_omap. split; [|by exists (Asked p)]. by intros ([] & ? & [= ->]).
Qed.

Lemma elem_of_closed p l : p ∈ (list_to_set (omap closed_id l) : gset gostr) <-> Closed p ∈ l.
Proof.
  rewrite elem_of_list_to_set, list_elem_of_omap. split; [|by exists (Closed p)]. by intros ([] & ? & [= ->]).
Qed.

Lemma elem_of_open_prompts p conv t : p ∈ open_prompts conv t
  <-> exists pr, app_prompts t !! p = Some pr /\ prompt_conv pr = conv.
Proof.
  unfold open_prompts. rewrite elem_of_dom. unfold is_Some. by setoid_rewrite map_lookup_filter_Some.
Qed.

(** The asks a replay closes are exactly those a stored frame of the
    conversation asked, no stored edit or removal closed, and no open prompt of
    the conversation keeps alive, in whatever order the rows are read. *)
Theorem orphaned_exact (conv p : gostr) (t : Tables) : typed t ->
  p ∈ OrphanedResolvedAsks C scan conv t
  <-> says conv t (Asked p) /\ ~ says conv t (Closed p)
      /\ ~ (exists pr, app_prompts t !! p = Some pr /\ prompt_conv pr = conv).
Proof.
  intros Ht. unfold OrphanedResolvedAsks.
  rewrite !elem_of_difference, elem_of_asked, elem_of_closed, elem_of_open_prompts, !elem_of_conv_asks by done. tauto.
Qed.

Lemma ask_event_progress w env : envelope C w = Some env -> T env = TypeInteractiveProgressEdit -> ask_event_of C w = None.
Proof.
  intros He Ht. unfold ask_event_of. rewrite He. cbn. rewrite Ht. by case_bool_decide.
Qed.

(** A form answered as a whole is closed by a progress edit, which the test
    does not count: once its prompt is deleted, a stored answer notwithstanding,
    the ask is taken for one without a stored resolution. *)
Theorem batched_answer_orphaned (conv p : gostr) (s : Z) (done_frame : Frame) (env : Envelope) (t : Tables) :
  typed t -> says conv t (Asked p) -> ~ says conv t (Closed p) ->
  app_frames t !! (conv, s) = Some done_frame -> envelope C (wire done_frame) = Some env ->
  T env = TypeInteractiveProgressEdit -> prompt_id C (D env) = p ->
  p ∈ OrphanedResolvedAsks C scan conv (DeletePrompt p t) /\ ask_event_of C (wire done_frame) = None.
Proof.
  intros Ht Ha Hc Hf He Hte Hp. split; [|by apply (ask_event_progress _ env)].
  apply orphaned_exact; [done|]. split_and!; [done|done|]. cbn. intros (pr & H & _). by rewrite lookup_delete_eq in H.
Qed.

(** ** The one-time sweep *)
Lemma legacy_loop_spec done asks :
  NoDup (la_prompt <$> legacy_loop done asks)
  /\ (forall a, a ∈ legacy_loop done asks -> a ∈ asks /\ la_prompt a ∉ done)
  /\ (forall a, a ∈ asks -> la_prompt a ∉ done -> la_prompt a ∈ la_prompt <$> legacy_loop done asks).
Proof.
  revert done. induction asks as [|a asks IH]; intros done; cbn [legacy_loop].
  { split_and!; [constructor|by intros a ?%elem_of_nil|by intros a ?%elem_of_nil]. }
  case_bool_decide as Ha.
  { destruct (IH done) as (H1 & H2 & H3). split_and!; [done| |].
    - intros b Hb. destruct (H2 b Hb). split; [by right|done].
    - intros b [->|Hb]%elem_of_cons Hd; [done|by apply H3]. }
  destruct (IH ({[ la_prompt a ]} ∪ done)) as (H1 & H2 & H3). split_and!.
  - rewrite fmap_cons, NoDup_cons. split; [|done]. intros (b & E & Hb)%list_elem_of_fmap. destruct (H2 b Hb). set_solver.
  - intros b [->|Hb]%elem_of_cons; [split; [by left|done]|]. destruct (H2 b Hb). split; [by right|set_solver].
  - intros b [->|Hb]%elem_of_cons Hd; rewrite fmap_cons, elem_of_cons; [by left|].
    destruct (decide (la_prompt b = la_prompt a)); [by left|right]. apply H3; [done|set_solver].
Qed.

Lemma legacy_ask_of kf a : legacy_ask C kf = Some a -> ask_event_of C (wire kf.2) = Some (Asked (la_prompt a)) /\ la_conv a = kf.1.1.
Proof.
  unfold legacy_ask. destruct (envelope C (wire kf.2)); cbn; [|done]. destruct (ask_event_of C (wire kf.2)) as [[p|p]|]; cbn; [|done..].
  by intros [= <-].
Qed.

(** The one-time sweep lists every ask that some stored frame asked, no
    stored frame closed and no prompt row keeps open, each once, and nothing
    else, in whatever order the rows are read. *)
Theorem legacy_asks_exact (t : Tables) :
  NoDup (la_prompt <$> LegacyOpenAsks C scan t)
  /\ (forall p, p ∈ la_prompt <$> LegacyOpenAsks C scan t
      <-> (exists conv, says conv t (Asked p)) /\ ~ (exists conv, says conv t (Closed p)) /\ app_prompts t !! p = None)
  /\ (forall a, a ∈ LegacyOpenAsks C scan t -> says (la_conv a) t (Asked (la_prompt a))).
Proof.
  unfold LegacyOpenAsks. set (done := _ ∪ _). set (asks := omap _ _).
  assert (Hd : forall p, p ∈ done <-> (exists conv, says conv t (Closed p)) \/ is_Some (app_prompts t !! p)).
  { intros p. unfold done. rewrite elem_of_union, elem_of_dom, elem_of_list_to_set, list_elem_of_omap.
    apply or_iff_compat_r. split.
    - intros ([[c s] f] & Hin%elem_of_frame_rows & Hx). cbn in Hin, Hx.
      destruct (ask_event_of C (wire f)) as [[q|q]|] eqn:E; [done| |done]. cbn in Hx. simplify_eq. by exists c, s, f.
    - intros (c & s & f & Hf & He). exists ((c, s), f). split; [by apply elem_of_frame_rows|]. cbn. by rewrite He. }
  assert (Hsays : forall a, a ∈ asks -> says (la_conv a) t (Asked (la_prompt a))).
  { intros a (kf & Hin%elem_of_frame_rows & Hx)%list_elem_of_omap. destruct (legacy_ask_of _ _ Hx) as [He ->].
    destruct kf as [[c s] f]. by exists s, f. }
  assert (Ha : forall conv p, says conv t (Asked p) -> exists a, a ∈ asks /\ la_prompt a = p).
  { intros conv p (s & f & Hf & He). pose proof He as He'. unfold ask_event_of in He'.
    destruct (envelope C (wire f)) as [env|] eqn:Ev; [|done].
    exists (MkAsk p conv (frame_agent f) (ask_text C (D env))). split; [|done].
    apply list_elem_of_omap. exists ((conv, s), f). split; [by apply elem_of_frame_rows|].
    unfold legacy_ask. cbn. by rewrite Ev, He. }
  destruct (legacy_loop_spec done asks) as (H1 & H2 & H3). split_and!; [done| |].
  - intros p. split.
    + intros (a & -> & Hin)%list_elem_of_fmap. destruct (H2 a Hin) as [Hin' Hn]. rewrite Hd in Hn.
      split_and!; [eauto|naive_solver|]. apply eq_None_not_Some. naive_solver.
    + intros ((conv & Hs) & Hc & Hp). destruct (Ha conv p Hs) as (a & Hin & <-). apply H3; [done|].
      rewrite Hd, eq_None_not_Some in *. naive_solver.
  - intros a Hin. by apply Hsays, H2.
Qed.

(** ** Previews of messages *)
Definition frame_message (f : Z * Frame) : option gostr := env ← envelope C (wire f.2); message_id C (D env).

(** The frames that show a message, in order. *)
Definition frames_of_message (conv id : gostr) (t : Tables) : list (Z * Frame) :=
  filter (fun f => visible f.2 = true /\ preview f.2 <> [] /\ frame_message f = Some id) (conv_frames conv t).

Definition preview_of (l : list (Z * Frame)) : option messagePreview :=
  f ← head l; g ← newest l; Some (MkPreview (preview g.2) (sent_ms f.2)).

Lemma preview_of_snoc l f : preview_of (l ++ [f])
  = Some (MkPreview (preview f.2) (match preview_of l with Some p => SentMs p | None => sent_ms f.2 end)).
Proof.
  unfold preview_of, newest. rewrite rev_unit. destruct l as [|g l]; [done|]. cbn [app head mbind option_bind].
  destruct (rev (g :: l)) eqn:Er; [|done]. apply (f_equal length) in Er. by rewrite length_rev in Er.
Qed.

Lemma preview_fold ids id l acc pre : id ∈ ids -> acc !! id = preview_of pre ->
  fold_left (preview_row C ids) l acc !! id = preview_of (pre ++ filter (fun f => frame_message f = Some id) l).
Proof.
  intros Hid. revert acc pre. induction l as [|f l IH]; intros acc pre Hacc; cbn [fold_left]; [by rewrite app_nil_r|].
  rewrite filter_cons. unfold preview_row at 2. fold (frame_message f).
  destruct (frame_message f) as [i|] eqn:E.
  2: { rewrite decide_False by done. by apply IH. }
  destruct (decide (i = id)) as [->|Hne].
  - rewrite decide_True by done. rewrite bool_decide_true by done.
    rewrite cons_middle, app_assoc. apply IH.
    by rewrite lookup_insert_eq, Hacc, preview_of_snoc.
  - rewrite decide_False by congruence. apply IH. case_bool_decide; [|done]. by rewrite lookup_insert_ne.
Qed.

(** The preview of a message is the text of the last frame that shows it
    and the time of the first; a message no stored frame shows has none. *)
Theorem previews_exact (conv id : gostr) (ids : gset gostr) (t : Tables) :
  (forall f, f ∈ frames_of_message conv id t -> contains (preview_needle ids) (wire f.2) = true) ->
  MessagePreviews C conv ids t !! id = if decide (id ∈ ids) then preview_of (frames_of_message conv id t) else None.
Proof.
  intros Hn. unfold MessagePreviews. case_bool_decide as He.
  { subst ids. by rewrite decide_False by set_solver. }
  destruct (decide (id ∈ ids)) as [Hid|Hid].
  - rewrite (preview_fold ids id _ ∅ [] Hid) by done. cbn [app]. f_equal.
    rewrite list_filter_filter. apply filter_ext_elem. intros f Hf. split; [tauto|]. intros (Hv & Hp & Hm).
    split_and!; [done..|]. apply Hn. apply list_elem_of_filter. done.
  - generalize (∅ : gmap gostr messagePreview), (lookup_empty (A := messagePreview) id).
    generalize (filter (fun f : Z * Frame => visible f.2 = true /\ preview f.2 <> [] /\ contains (preview_needle ids) (wire f.2) = true)
      (conv_frames conv t)). intros l. induction l as [|f l IH]; intros m Hm; [done|]. cbn [fold_left]. apply IH.
    unfold preview_row. destruct (_ ≫= _) as [i|]; [|done]. case_bool_decide; [|done].
    rewrite lookup_insert_ne; [done|]. by intros ->.
Qed.
End Asks.

(** ** Witnesses: one write queued, taken and written *)
Definition demo_write : frameWrite := MkWrite "c" "a" 5 "w" 100 true "hi" (Some 7%nat).
Definition demo_store (t : Tables) : frameStore := MkStore t [] None [].

Lemma demo_run : store_run (demo_store empty_tables) [Begins demo_write; Other; Lands demo_write]
  (MkStore (insert_frame demo_write empty_tables).1 [] None []).
Proof.
  eapply run_cons; [apply step_append|]. eapply run_cons; [apply step_take|]. eapply run_cons; [apply step_write|].
  apply run_nil.
Qed.

Lemma seqs_never_fall_witness :
  MaxSeq "c" (tables (demo_store empty_tables)) <= MaxSeq "c" (tables (MkStore (insert_frame demo_write empty_tables).1 [] None []))
  /\ forall w, Lands w ∈ [Begins demo_write; Other; Lands demo_write] -> w_conv w = ("c" : gostr) ->
       w_seq w <= MaxSeq "c" (tables (MkStore (insert_frame demo_write empty_tables).1 [] None [])).
Proof.
  apply (seqs_never_fall (demo_store empty_tables) _ [Begins demo_write; Other; Lands demo_write] "c"); [apply demo_run|].
  intros w Hw. rewrite !elem_of_cons, elem_of_nil in Hw. destruct Hw as [?|[?|[[= ->]|[]]]]; [done|done|reflexivity].
Defined.

Lemma writes_conserved_witness :
  pending (demo_store empty_tables) ++ omap begun [Begins demo_write; Other; Lands demo_write]
  ≡ₚ omap landed [Begins demo_write; Other; Lands demo_write] ++ pending (MkStore (insert_frame demo_write empty_tables).1 [] None []).
Proof.
  apply (writes_conserved (demo_store empty_tables) _ [Begins demo_write; Other; Lands demo_write]); [apply demo_run|].
  rewrite !not_elem_of_cons. split_and!; [done..|apply not_elem_of_nil].
Defined.

(** An ask stored in a conversation, its prompt row gone. *)
Definition demo_ask : gostr := "{" ++ [dq] ++ "t" ++ [dq] ++ ":" ++ [dq] ++ "interactive" ++ [dq] ++ "}".
Definition demo_codec : Codec :=
  MkCodec (fun _ => Some demo_ask) (fun w => if bool_decide (w = demo_ask) then Some (MkEnvelope TypeInteractive "i" 1 0 "t" 1 "d") else None)
    (fun _ => None) (fun _ => "p") (fun _ => "Which?").
Definition demo_tables : Tables := set_frames {[ ("c" : gostr, 1) := MkFrame demo_ask 0 true "a" "Which?" ]} empty_tables.

Lemma demo_like : like None interactive_like demo_ask = true.
Proof. vm_compute. reflexivity. Qed.

Lemma demo_typed : typed demo_codec demo_tables.
Proof. intros k f e Hf _. cbn [demo_tables set_frames app_frames] in Hf. apply lookup_singleton_Some in Hf as [_ <-]. apply demo_like. Qed.

Lemma orphaned_exact_witness :
  ("p" : gostr) ∈ OrphanedResolvedAsks demo_codec (fun _ l => l) "c" demo_tables
  <-> says demo_codec "c" demo_tables (Asked "p") /\ ~ says demo_codec "c" demo_tables (Closed "p")
      /\ ~ (exists pr, app_prompts demo_tables !! ("p" : gostr) = Some pr /\ prompt_conv pr = "c").
Proof. apply (orphaned_exact demo_codec (fun _ l => l) (fun _ l => Permutation_refl l) "c" "p" demo_tables demo_typed). Defined.
