(* ===== verification/AppStream.v ===== *)
(** * The reliable stream of a conversation ([internal/app/hub.go], [push.go],
    [lateask.go])

    Each conversation numbers the frames it sends.  A frame goes to a bounded
    buffer, to the durable store of FrameStore.v and to every attached socket;
    a device that comes back is replayed what it has not acknowledged, from the
    store and then from the buffer.  Inbound frames are deduplicated.

    The clock, the ids and the features of the sockets are arguments; whether a
    socket's queue has room at the n-th attempt is one too ([fits]).  A replay
    takes the state of the store at the instants it reads it as arguments
    ([replayTo]); a resume of many conversations is given one for all. *)
From S2P Require Import Prelude GoStrings GoNum FrameStore.
From stdpp Require Import fin_maps sorting.
Local Open Scope Z_scope.
Local Open Scope gostr_scope.

Definition defaultReplayBufferDepth : nat := 1000.
Definition defaultReplayTTL : Duration := 24 * Hour.
Definition maxSeenInbound : nat := 4096.
Definition maxReplayPage : Z := 10000.
Definition maxResumeStoreReplay : Z := 2000.
Definition pushPreviewMax : nat := 80.
Definition featureToolCalls : gostr := "toolCalls".
Definition TypeMessage : gostr := "message".
Definition TypeTextEnd : gostr := "text.end".
Definition TypeMedia : gostr := "media".
Definition TypeNotification : gostr := "notification".

(** [UnixMilli]: the time argument counts nanoseconds since the epoch. *)
Definition UnixMilli (t : Time) : Z := t / Millisecond.

(** ** Frames and their previews (push.go)

    The fields of a server frame that the stream looks at. *)
Inductive ServerFrame :=
| ServerMessage (role messageID text : gostr) (attachments : list (gostr * gostr))
| TextEnd (messageID : gostr) (finalText : option gostr)
| Media (messageID mime name caption : gostr)
| Notification (messageID text : gostr) (ambient : bool)
| Interactive (promptID text : gostr) (questions : list gostr)
| ToolCall
| OtherFrame (type : gostr).

Definition frame_type (f : ServerFrame) : gostr :=
  match f with
  | ServerMessage _ _ _ _ => TypeMessage
  | TextEnd _ _ => TypeTextEnd
  | Media _ _ _ _ => TypeMedia
  | Notification _ _ _ => TypeNotification
  | Interactive _ _ _ => TypeInteractive
  | ToolCall => TypeToolCall
  | OtherFrame t => t
  end.

Definition ellipsis : gostr := bytes_of_nats [226; 128; 166]%nat.
Definition em_dash : gostr := bytes_of_nats [32; 226; 128; 148; 32]%nat.

Definition truncatePreview (s : gostr) : gostr :=
  let s := trim_space s in
  if (length s <=? pushPreviewMax)%nat then s else take pushPreviewMax s ++ ellipsis.

Definition mediaNoun (mime : gostr) : gostr :=
  if has_prefix "image/" mime then "a photo"
  else if has_prefix "audio/" mime then "audio"
  else if has_prefix "video/" mime then "a video" else "a file".

Definition mediaPreview (mime name caption more : gostr) : gostr :=
  let name := trim_space name in
  let caption := trim_space caption in
  if bool_decide (name = []) then
    if negb (bool_decide (caption = [])) then truncatePreview caption else "Sent " ++ mediaNoun mime ++ more
  else if negb (bool_decide (caption = [])) then truncatePreview (name ++ more ++ em_dash ++ caption)
  else truncatePreview (name ++ more).

Definition pushPreview (f : ServerFrame) : gostr * bool :=
  match f with
  | ServerMessage _ _ text attachments =>
      match attachments with
      | (mime, name) :: _ =>
          let n := length attachments in
          (mediaPreview mime name text (if (1 <? n)%nat then " +" ++ FormatInt (Z.of_nat n - 1) else []), true)
      | [] => (truncatePreview text, true)
      end
  | TextEnd _ final => (match final with Some t => truncatePreview t | None => "New message" end, true)
  | Media _ mime name caption => (mediaPreview mime name caption [], true)
  | Notification _ text ambient => if ambient then ([], false) else (truncatePreview text, true)
  | Interactive _ text questions =>
      (if negb (bool_decide (text = [])) then truncatePreview text
       else match questions with
            | q :: _ => if negb (bool_decide (q = [])) then truncatePreview q else "Question from agent"
            | [] => "Question from agent"
            end, true)
  | ToolCall | OtherFrame _ => ([], false)
  end.

Definition isOwnMessage (f : ServerFrame) : bool :=
  match f with ServerMessage role _ _ _ => bool_decide (role = ("user" : gostr)) | _ => false end.

Definition readableMessageID (f : ServerFrame) : gostr :=
  match f with ServerMessage _ id _ _ | TextEnd id _ | Media id _ _ _ | Notification id _ _ => id | _ => [] end.

(** ** State (hub.go) *)
Record bufferedFrame := MkBuffered { b_seq : Z; b_wire : gostr; b_sent : Time }.

Record clientState := MkClient { ackHW : Z; seqHW : Z }.

Record convBinding := MkBinding {
  convID : gostr; agent : gostr; replayDepth : nat; replayTTL : Duration;
  clients : gset nat; clientStates : gmap nat clientState; features : gset gostr;
  seq : Z; buffer : list bufferedFrame; seen : gset gostr; seenOrder : list gostr;
  lastPreview : gostr; lastActMs : Z; lastMsgID : gostr; leaf_title : option gostr;
}.

Definition set_clients m b := MkBinding (convID b) (agent b) (replayDepth b) (replayTTL b) m (clientStates b) (features b)
  (seq b) (buffer b) (seen b) (seenOrder b) (lastPreview b) (lastActMs b) (lastMsgID b) (leaf_title b).
Definition set_states m b := MkBinding (convID b) (agent b) (replayDepth b) (replayTTL b) (clients b) m (features b)
  (seq b) (buffer b) (seen b) (seenOrder b) (lastPreview b) (lastActMs b) (lastMsgID b) (leaf_title b).
Definition set_features m b := MkBinding (convID b) (agent b) (replayDepth b) (replayTTL b) (clients b) (clientStates b) m
  (seq b) (buffer b) (seen b) (seenOrder b) (lastPreview b) (lastActMs b) (lastMsgID b) (leaf_title b).
Definition set_seq n b := MkBinding (convID b) (agent b) (replayDepth b) (replayTTL b) (clients b) (clientStates b) (features b)
  n (buffer b) (seen b) (seenOrder b) (lastPreview b) (lastActMs b) (lastMsgID b) (leaf_title b).
Definition set_buffer l b := MkBinding (convID b) (agent b) (replayDepth b) (replayTTL b) (clients b) (clientStates b) (features b)
  (seq b) l (seen b) (seenOrder b) (lastPreview b) (lastActMs b) (lastMsgID b) (leaf_title b).
Definition set_seen m l b := MkBinding (convID b) (agent b) (replayDepth b) (replayTTL b) (clients b) (clientStates b) (features b)
  (seq b) (buffer b) m l (lastPreview b) (lastActMs b) (lastMsgID b) (leaf_title b).
Definition set_last p ms id b := MkBinding (convID b) (agent b) (replayDepth b) (replayTTL b) (clients b) (clientStates b) (features b)
  (seq b) (buffer b) (seen b) (seenOrder b) p ms id (leaf_title b).

(** [ensureBinding], for a conversation that has none: numbering goes on from
    the store, and the roster preview is the stored one. *)
Definition newBinding (conv agentID : gostr) (depth : nat) (ttl : Duration) (feats : gset gostr) (t : Tables) : convBinding :=
  let last := default ([], 0) (LastVisible conv t) in
  MkBinding conv agentID depth ttl ∅ ∅ feats (MaxSeq conv t) [] ∅ [] last.1 last.2 [] None.

(** ** Sockets *)
Section Sockets.
(** The features each socket advertises. *)
Context (capsOf : nat -> gset gostr).

Definition recomputeFeatures (b : convBinding) : convBinding :=
  if bool_decide (clients b = ∅) then b
  else set_features (union_list (capsOf <$> elements (clients b))) b.

Definition attach (client : nat) (b : convBinding) : convBinding :=
  let b := set_clients ({[ client ]} ∪ clients b) b in
  let b := match clientStates b !! client with
           | None => set_states (<[ client := MkClient 0 0 ]> (clientStates b)) b
           | Some _ => b
           end in
  recomputeFeatures b.

(** [attach(nil)]. *)
Definition attach_none (b : convBinding) : convBinding := set_states ∅ (set_clients ∅ b).

Definition detachIf (client : nat) (b : convBinding) : convBinding :=
  recomputeFeatures (set_states (delete client (clientStates b)) (set_clients (clients b ∖ {[ client ]}) b)).

Definition seedClientAck (client : nat) (ack : Z) (b : convBinding) : convBinding :=
  match clientStates b !! client with
  | Some st => if ackHW st <? ack then set_states (<[ client := MkClient ack (seqHW st) ]> (clientStates b)) b else b
  | None => b
  end.

(** ** Sending *)
Fixpoint drop_while {A} (p : A -> bool) (l : list A) : list A :=
  match l with x :: l' => if p x then drop_while p l' else l | [] => [] end.

(** [trimBufferLocked]; a zero depth or TTL is the default. *)
Definition trimBuffer (now : Time) (b : convBinding) : convBinding :=
  let depth := if (replayDepth b =? 0)%nat then defaultReplayBufferDepth else replayDepth b in
  let ttl := if replayTTL b <=? 0 then defaultReplayTTL else replayTTL b in
  let l := drop (length (buffer b) - depth) (buffer b) in
  set_buffer (drop_while (fun f => Before (b_sent f) (TimeAdd now (- ttl))) l) b.

(** What a send leaves to do outside the lock. *)
Record sending := MkSending { write : frameWrite; targets : list (nat * Z); push : bool; raw : gostr }.

Definition send_ack (b : convBinding) (client : nat) : Z :=
  match clientStates b !! client with Some st => seqHW st | None => 0 end.

(** [sendThen], up to the hand-over to the store and the sockets.  The result is
    [None] when the frame cannot be encoded: the number is used up, and the
    callback runs at once. *)
Definition sendThen (C : Codec) (payload : ServerFrame -> option gostr) (f : ServerFrame) (now : Time) (id ts : gostr)
    (onRecorded : option nat) (b : convBinding) : convBinding * option sending :=
  let b := set_seq (seq b + 1) b in
  match Encode C id ts (frame_type f) (payload f) (seq b) 0 [] [] with
  | None => (b, None)
  | Some w =>
      let '(preview, visible) := pushPreview f in
      let preview := if visible then
                       match leaf_title b with
                       | Some title => if bool_decide (title = []) then preview else title ++ ": " ++ preview
                       | None => preview
                       end
                     else preview in
      let b := if visible
               then set_last preview (UnixMilli now)
                      (if bool_decide (readableMessageID f = []) then lastMsgID b else readableMessageID f) b
               else b in
      let b := trimBuffer now (set_buffer (buffer b ++ [MkBuffered (seq b) w now]) b) in
      (b, Some (MkSending (MkWrite (convID b) (agent b) (seq b) w (UnixMilli now) visible preview onRecorded)
                  ((fun c => (c, send_ack b c)) <$> elements (clients b)) (visible && negb (isOwnMessage f)) w))
  end.

(** ** Acknowledgements *)

(** The lowest mark of the attached sockets, unless one has none yet. *)
Definition minAck (b : convBinding) : option Z :=
  foldr (fun c m =>
    m ← m;
    st ← clientStates b !! c;
    if ackHW st =? 0 then None else Some (Z.min (ackHW st) m)) (Some (2 ^ 62)) (elements (clients b)).

Definition ackInbound (client : nat) (ack : Z) (b : convBinding) : convBinding :=
  if ack <=? 0 then b
  else if negb (bool_decide (client ∈ clients b)) then b
  else
    let st := default (MkClient 0 0) (clientStates b !! client) in
    let st := if ackHW st <? ack then MkClient ack (seqHW st) else st in
    let b := set_states (<[ client := st ]> (clientStates b)) b in
    match minAck b with
    | None => b
    | Some m => set_buffer (drop_while (fun f => b_seq f <=? m) (buffer b)) b
    end.

(** [acceptInbound]: whether the frame is new. *)
Definition note_id (id : gostr) (b : convBinding) : bool * convBinding :=
  if bool_decide (id = []) then (true, b)
  else if bool_decide (id ∈ seen b) then (false, b)
  else
    let order := seenOrder b ++ [id] in
    let s := {[ id ]} ∪ seen b in
    (true, if (maxSeenInbound <? length order)%nat
           then match order with
                | old :: order => set_seen (s ∖ {[ old ]}) order b
                | [] => b
                end
           else set_seen s order b).

Definition acceptInbound (client : nat) (id : gostr) (n : Z) (b : convBinding) : bool * convBinding :=
  let '(isNew, b) := note_id id b in
  let st := default (MkClient 0 0) (clientStates b !! client) in
  (isNew, set_states (<[ client := if seqHW st <? n then MkClient (ackHW st) n else st ]> (clientStates b)) b).

(** [sendAck]: the acknowledgement sent, if any. *)
Definition sendAck (client : nat) (b : convBinding) : option Z :=
  let ack := send_ack b client in if ack <=? 0 then None else Some ack.
End Sockets.

(** ** Replay *)

(** [json.Marshal] of the payloads the stream builds, and the fields it reads of
    stored ones. *)
Record Payloads := MkPayloads {
  frame_payload : ServerFrame -> option gostr;
  edit_payload : gostr -> gostr -> option gostr;
  ack_payload : gostr -> option gostr;
  ask_ids : gostr -> option (gostr * gostr);
  conversation_id : gostr -> option gostr;
}.

Section Replay.
Context (C : Codec) (P : Payloads) (scan : forall A : Type, list A -> list A) (capsOf : nat -> gset gostr).
(** What [Encode] would put for a missing id or instant. *)
Context (fresh instant : gostr).

Definition stampAck (w : gostr) (ack : Z) : gostr :=
  if ack <=? 0 then w else default w (StampAck C w ack).

Definition substituteResolvedAsk (w : gostr) (orphaned : gset gostr) : gostr :=
  if bool_decide (orphaned = ∅) then w
  else default w (
    env ← envelope C w;
    if negb (bool_decide (T env = TypeInteractive)) then None
    else
      ids ← ask_ids P (D env);
      if bool_decide (ids.2 ∈ orphaned)
      then Encode C fresh instant TypeInteractiveEdit (edit_payload P ids.1 ids.2) (Seq env) (Ack env) (ID env) (TS env)
      else None).

Definition toolCallPrefix : gostr := "{" ++ [dq] ++ "t" ++ [dq] ++ ":" ++ [dq] ++ TypeToolCall ++ [dq].

Definition toolCallPlaceholder (w : gostr) (client : nat) : gostr :=
  if negb (has_prefix toolCallPrefix w) then w
  else if bool_decide (featureToolCalls ∈ capsOf client) then w
  else default w (
    env ← envelope C w;
    if negb (bool_decide (T env = TypeToolCall)) then None
    else
      conv ← conversation_id P (D env);
      Encode C fresh instant TypeConversationAck (ack_payload P conv) (Seq env) (Ack env) (ID env) (TS env)).

(** The socket's queue takes wires until it has no room. *)
Fixpoint offer (fits : nat -> bool) (n : nat) (ws : list gostr) : list gostr * bool :=
  match ws with
  | [] => ([], true)
  | w :: ws => if fits n then let '(l, ok) := offer fits (S n) ws in (w :: l, ok) else ([], false)
  end.

(** The store's share: what the buffer does not reach back to. *)
Fixpoint take_below (floor : Z) (l : list (Z * gostr)) : list (Z * gostr) :=
  match l with
  | (s, w) :: l => if floor <=? s then [] else (s, w) :: take_below floor l
  | [] => []
  end.

Definition from_store (t : option Tables) (fromSeq : Z) (b : convBinding) : list gostr :=
  match t with
  | None => []
  | Some t =>
      match buffer b with
      | [] => snd <$> Range (convID b) fromSeq maxResumeStoreReplay t
      | f :: _ =>
          if fromSeq <? b_seq f - 1
          then snd <$> take_below (b_seq f) (Range (convID b) fromSeq maxResumeStoreReplay t)
          else []
      end
  end.

Definition from_buffer (fromSeq : Z) (b : convBinding) : list gostr :=
  b_wire <$> filter (fun f => fromSeq < b_seq f) (buffer b).

(** What the client gets of a wire. *)
Definition for_client (t : option Tables) (client : nat) (b : convBinding) (w : gostr) : gostr :=
  stampAck (toolCallPlaceholder
    (substituteResolvedAsk w (match t with Some t => OrphanedResolvedAsks C scan (convID b) t | None => ∅ end)) client)
    (send_ack b client).

(** The buffer and the acknowledgement are read under the binding's lock, which
    is then released: the asks closed elsewhere are read from the store later
    ([o]), and its frames later still ([t]). *)
Definition replayTo (o t : option Tables) (client : nat) (fromSeq : Z) (fits : nat -> bool) (b : convBinding)
    : list gostr * bool :=
  let ws := for_client o client b <$> from_store t fromSeq b in
  let '(l, ok) := offer fits 0 ws in
  if ok then
    let '(k, ok) := offer fits (length ws) (for_client o client b <$> from_buffer fromSeq b) in (l ++ k, ok)
  else (l, false).

(** The wire each attached socket is sent. *)
Definition fan_out (f : ServerFrame) (s : sending) : list (nat * gostr) :=
  (fun ca => (ca.1, stampAck (match f with ToolCall => toolCallPlaceholder (raw s) ca.1 | _ => raw s end) ca.2)) <$> targets s.

(** [ServeReplay], for the value of its [limit] parameter: a page and whether
    there may be more. *)
Definition ServeReplay (conv : gostr) (fromSeq : Z) (v : option Z) (t : Tables) : list (Z * gostr) * bool :=
  let n := match v with Some v => if (0 <? v) && (v <? maxReplayPage) then v else maxReplayPage | None => maxReplayPage end in
  let frames := Range conv fromSeq n t in
  ((fun f => (f.1, substituteResolvedAsk f.2 (OrphanedResolvedAsks C scan conv t))) <$> frames,
   bool_decide (Z.of_nat (length frames) = n)).

(** A client that pages on from the last number while there is more. *)
Fixpoint pages (fuel : nat) (conv : gostr) (fromSeq : Z) (v : option Z) (t : Tables) : list (Z * gostr) :=
  match fuel with
  | O => []
  | S fuel =>
      let '(l, more) := ServeReplay conv fromSeq v t in
      l ++ (if more then match newest l with Some f => pages fuel conv f.1 v t | None => [] end else [])
  end.

(** [resumeConversations]: the named conversations are attached, seeded and,
    unless archived, replayed; then every other one is attached. *)
Definition resume_point (store : option Tables) (archived : gset gostr) (client : nat) (fits : gostr -> nat -> bool)
    (acc : gmap gostr convBinding * list (gostr * list gostr * bool)) (rp : gostr * Z)
    : gmap gostr convBinding * list (gostr * list gostr * bool) :=
  match acc.1 !! rp.1 with
  | None => acc
  | Some b =>
      let b := seedClientAck client rp.2 (attach capsOf client b) in
      (<[ rp.1 := b ]> acc.1,
       if bool_decide (rp.1 ∈ archived) then acc.2
       else let '(l, ok) := replayTo store store client rp.2 (fits rp.1) b in acc.2 ++ [(rp.1, l, ok)])
  end.

Definition attachUnresumed (client : nat) (convs : gmap gostr convBinding) : gmap gostr convBinding :=
  (fun b => if bool_decide (client ∈ clients b) then b
            else let b := attach capsOf client b in seedClientAck client (seq b) b) <$> convs.

Definition resumeConversations (store : option Tables) (archived : gset gostr) (client : nat)
    (fits : gostr -> nat -> bool) (points : list (gostr * Z)) (convs : gmap gostr convBinding)
    : gmap gostr convBinding * list (gostr * list gostr * bool) :=
  let '(convs, out) := fold_left (resume_point store archived client fits) points (convs, []) in
  (attachUnresumed client convs, out).
End Replay.

(** ** The stream as a whole

    One conversation with its store, which other conversations use too.  A
    sender that has left the binding's lock still holds its write ([handing])
    before the store gets it.  [sent] and [cuts] are history: every write of the
    conversation, and every cutoff of a trim. *)
Inductive local_op :=
| LAttach (c : nat) | LAttachNone | LDetach (c : nat) | LSeed (c : nat) (ack : Z) | LAck (c : nat) (ack : Z)
| LAccept (c : nat) (id : gostr) (n : Z).

Definition do_local (capsOf : nat -> gset gostr) (o : local_op) (b : convBinding) : convBinding :=
  match o with
  | LAttach c => attach capsOf c b
  | LAttachNone => attach_none b
  | LDetach c => detachIf capsOf c b
  | LSeed c a => seedClientAck c a b
  | LAck c a => ackInbound c a b
  | LAccept c id n => (acceptInbound c id n b).2
  end.

Record stream := MkStream {
  sb : convBinding; ss : frameStore; handing : list frameWrite; sent : list frameWrite; cuts : list Z;
}.

Definition writes (r : option sending) : list frameWrite := option_list (write <$> r).
Definition trimmed (l : label) : list Z := match l with Trims ms => [ms] | _ => [] end.

(** The buffer still has the frame of this number. *)
Definition in_buffer (b : convBinding) (n : Z) : Prop := n ∈ b_seq <$> buffer b.
#[export] Instance in_buffer_dec b n : Decision (in_buffer b n).
Proof. unfold in_buffer. apply _. Defined.

Section Stream.
Context (C : Codec) (payload : ServerFrame -> option gostr) (capsOf : nat -> gset gostr).

Inductive stream_step : stream -> stream -> Prop :=
| stream_send f now id ts cb b b' r s h l k : sendThen C payload f now id ts cb b = (b', r) ->
    stream_step (MkStream b s h l k) (MkStream b' s (h ++ writes r) (l ++ writes r) k)
| stream_hand b s i w j l k :
    stream_step (MkStream b s (i ++ w :: j) l k) (MkStream b (AppendThen w s) (i ++ j) l k)
| stream_store b s e s' h l k : store_step s e s' -> e <> Dies -> (forall w, e = Begins w -> w_conv w <> convID b) ->
    stream_step (MkStream b s h l k) (MkStream b s' h l (k ++ trimmed e))
| stream_local o b s h l k :
    stream_step (MkStream b s h l k) (MkStream (do_local capsOf o b) s h l k)
| stream_restart depth ttl feats b s l k : pending s = [] ->
    stream_step (MkStream b s [] l k)
      (MkStream (newBinding (convID b) (agent b) depth ttl feats (tables s)) s [] l k).

(** A conversation that has never sent anything. *)
Definition stream_start (x : stream) : Prop :=
  handing x = [] /\ sent x = [] /\ cuts x = [] /\ pending (ss x) = [] /\ tables (ss x) = empty_tables
  /\ seq (sb x) = 0 /\ buffer (sb x) = [].

Definition reachable (x : stream) : Prop := exists x0, stream_start x0 /\ rtc stream_step x0 x.

(** *** What a step does to the buffer and the number *)
Lemma drop_while_suffix {A} (p : A -> bool) l : exists pre, l = pre ++ drop_while p l /\ Forall (fun x => p x = true) pre.
Proof.
  induction l as [|x l (pre & IH & Hp)]; [by exists []|]. cbn [drop_while]. destruct (p x) eqn:E; [|by exists []].
  exists (x :: pre). split; [by rewrite IH at 1|by constructor].
Qed.

Lemma trimBuffer_suffix now b : exists pre, buffer b = pre ++ buffer (trimBuffer now b).
Proof.
  unfold trimBuffer. cbn [buffer set_buffer]. set (n := (_ - _)%nat).
  match goal with |- context [drop_while ?p ?l] => destruct (drop_while_suffix p l) as (pre & H & _) end.
  exists (take n (buffer b) ++ pre). by rewrite <- app_assoc, <- H, take_drop.
Qed.

Lemma sendThen_spec f now id ts cb b b' r : sendThen C payload f now id ts cb b = (b', r) ->
  convID b' = convID b /\ seq b' = seq b + 1
  /\ match r with
     | None => buffer b' = buffer b
     | Some s => w_conv (write s) = convID b /\ w_seq (write s) = seq b + 1 /\ w_sentMs (write s) = UnixMilli now
         /\ exists pre, buffer b ++ [MkBuffered (seq b + 1) (w_wire (write s)) now] = pre ++ buffer b'
     end.
Proof.
  unfold sendThen. destruct (Encode _ _ _ _ _ _ _ _ _) as [w|]; [|by intros [= <- <-]].
  destruct (pushPreview f) as [pv vis]. intros [= <- <-]. cbn [write w_conv w_seq w_sentMs w_wire].
  set (b1 := set_buffer _ _).
  destruct (trimBuffer_suffix now b1) as [pre Hpre].
  assert (Hb : convID b1 = convID b /\ seq b1 = seq b + 1
    /\ buffer b1 = buffer b ++ [MkBuffered (seq b + 1) w now]).
  { unfold b1. destruct vis; done. }
  destruct Hb as (H1 & H2 & H3). rewrite H3 in Hpre.
  split; [exact H1|]. split; [exact H2|]. split; [exact H1|]. split; [exact H2|]. split; [done|].
  exists pre. change (seq (trimBuffer now b1)) with (seq b1). exact Hpre.
Qed.

Lemma do_local_spec o b : convID (do_local capsOf o b) = convID b /\ seq (do_local capsOf o b) = seq b
  /\ exists pre, buffer b = pre ++ buffer (do_local capsOf o b).
Proof.
  assert (Hr : forall b, convID (recomputeFeatures capsOf b) = convID b /\ seq (recomputeFeatures capsOf b) = seq b
    /\ buffer (recomputeFeatures capsOf b) = buffer b) by (intros b0; unfold recomputeFeatures; by case_bool_decide).
  destruct o as [c| |c|c a|c a|c id n]; cbn [do_local].
  - unfold attach. cbv zeta. destruct (Hr (match clientStates (set_clients ({[c]} ∪ clients b) b) !! c with
      | None => set_states (<[c := MkClient 0 0]> (clientStates (set_clients ({[c]} ∪ clients b) b))) (set_clients ({[c]} ∪ clients b) b)
      | Some _ => set_clients ({[c]} ∪ clients b) b end)) as (-> & -> & ->).
    split_and!; try (by destruct (clientStates _ !! c)). exists []. by destruct (clientStates _ !! c).
  - split_and!; [done..|by exists []].
  - unfold detachIf. destruct (Hr (set_states (delete c (clientStates b)) (set_clients (clients b ∖ {[c]}) b))) as (-> & -> & ->).
    split_and!; [done..|by exists []].
  - unfold seedClientAck. destruct (clientStates b !! c) as [st|]; [destruct (ackHW st <? a)|]; (split_and!; [done..|by exists []]).
  - unfold ackInbound. destruct (a <=? 0); [split_and!; [done..|by exists []]|].
    destruct (negb _); [split_and!; [done..|by exists []]|]. cbv zeta.
    destruct (minAck _) as [m|]; [|split_and!; [done..|by exists []]].
    split_and!; [done..|]. cbn [buffer set_buffer set_states].
    destruct (drop_while_suffix (fun f => b_seq f <=? m) (buffer b)) as (pre & H & _). by exists pre.
  - unfold acceptInbound, note_id. case_bool_decide; [split_and!; [done..|by exists []]|].
    case_bool_decide; [split_and!; [done..|by exists []]|].
    destruct (_ <? _)%nat; [destruct (seenOrder b ++ [id])|]; (split_and!; [done..|by exists []]).
Qed.

(** *** The invariant *)
Definition entry (w : frameWrite) : Z * gostr := (w_seq w, w_wire w).
Definition buffered (f : bufferedFrame) : Z * gostr := (b_seq f, b_wire f).
Definition before (v w : frameWrite) : Prop := w_seq v < w_seq w.

(** The write has expired: a trim would have removed its frame. *)
Definition expired (x : stream) (w : frameWrite) : Prop := exists ms, ms ∈ cuts x /\ w_sentMs w < ms.

Record stream_ok (x : stream) : Prop := {
  ok_sorted : StronglySorted before (sent x);
  ok_range : forall w, w ∈ sent x -> w_conv w = convID (sb x) /\ 0 < w_seq w <= seq (sb x);
  ok_buffer : exists pre, entry <$> sent x = pre ++ (buffered <$> buffer (sb x));
  ok_ours : forall w, w ∈ handing x \/ (w ∈ pending (ss x) /\ w_conv w = convID (sb x)) -> w ∈ sent x;
  ok_kept : forall w, w ∈ sent x -> w ∈ handing x \/ w ∈ pending (ss x)
    \/ app_frames (tables (ss x)) !! (convID (sb x), w_seq w) = Some (stored_frame w)
    \/ (expired x w /\ w_seq w <= MaxSeq (convID (sb x)) (tables (ss x)));
  ok_stored : forall s f, app_frames (tables (ss x)) !! (convID (sb x), s) = Some f ->
    exists w, w ∈ sent x /\ w_seq w = s /\ stored_frame w = f;
  ok_top : 0 <= MaxSeq (convID (sb x)) (tables (ss x)) <= seq (sb x);
}.

Lemma sorted_seq_inj l v w : StronglySorted before l -> v ∈ l -> w ∈ l -> w_seq v = w_seq w -> v = w.
Proof.
  induction 1 as [|a l Hl IH Ha]; [by intros ?%elem_of_nil|]. rewrite Forall_forall in Ha. unfold before in Ha.
  intros [->|Hv]%elem_of_cons [->|Hw]%elem_of_cons E; [done| | |by apply IH].
  - specialize (Ha w Hw). lia.
  - specialize (Ha v Hv). lia.
Qed.

Lemma stream_start_ok x : stream_start x -> stream_ok x.
Proof.
  intros (Hh & Hs & Hk & Hp & Ht & Hq & Hb). split; rewrite ?Hh, ?Hs, ?Hp, ?Ht, ?Hq, ?Hb; try done.
  - constructor.
  - by intros w ?%elem_of_nil.
  - by exists [].
  - by intros w [?%elem_of_nil|[?%elem_of_nil _]].
  - by intros w ?%elem_of_nil.
Qed.

Lemma send_ok f now id ts cb b b' r s h l k : sendThen C payload f now id ts cb b = (b', r) ->
  stream_ok (MkStream b s h l k) -> stream_ok (MkStream b' s (h ++ writes r) (l ++ writes r) k).
Proof.
  intros Hsend [H1 H2 H3 H4 H5 H6 H7]. destruct (sendThen_spec _ _ _ _ _ _ _ _ Hsend) as (Hc & Hq & Hr). cbn in *.
  assert (Hw : forall w, w ∈ writes r -> w_conv w = convID b /\ w_seq w = seq b + 1).
  { destruct r as [y|]; cbn; [|by intros w ?%elem_of_nil]. intros w ->%list_elem_of_singleton.
    destruct Hr as (? & ? & _). done. }
  split; cbn; rewrite ?Hc, ?Hq.
  - destruct r as [y|]; cbn; [|by rewrite app_nil_r]. apply StronglySorted_app. split_and!; [|done|by repeat constructor].
    intros v w Hv Hy. destruct (H2 v Hv), (Hw w Hy). unfold before. lia.
  - intros w [Hin|Hin]%elem_of_app; [destruct (H2 w Hin); split; [done|lia]|]. destruct (Hw w Hin), H7. split; [done|lia].
  - destruct H3 as [pre H3]. destruct r as [y|]; cbn.
    + destruct Hr as (_ & Hy & _ & q & Hq'). rewrite fmap_app, H3, <- app_assoc.
      apply (f_equal (fmap buffered)) in Hq'. rewrite !fmap_app in Hq'. cbn in Hq'. unfold entry at 1.
      exists (pre ++ (buffered <$> q)). rewrite <- app_assoc, <- Hq'. unfold buffered at 3. cbn. by rewrite Hy.
    + exists pre. by rewrite app_nil_r, Hr.
  - intros w. rewrite !elem_of_app. specialize (H4 w). tauto.
  - intros w. rewrite !elem_of_app. specialize (H5 w). tauto.
  - intros s0 f0 Hf. destruct (H6 s0 f0 Hf) as (w & Hin & ?). exists w. rewrite elem_of_app. tauto.
  - lia.
Qed.

Lemma store_ok b s e s' h l k : store_step s e s' -> e <> Dies -> (forall w, e = Begins w -> w_conv w <> convID b) ->
  stream_ok (MkStream b s h l k) -> stream_ok (MkStream b s' h l (k ++ trimmed e)).
Proof.
  intros Hstep Hd Hours [H1 H2 H3 H4 H5 H6 H7]. cbn in *. apply store_step_effect in Hstep.
  assert (Hexp : forall k' w, expired (MkStream b s h l k) w -> expired (MkStream b s' h l (k ++ k')) w).
  { intros k' w (ms & Hms & Hlt). exists ms. cbn. rewrite elem_of_app. auto. }
  destruct e as [w0|w0|ms| |]; [| | | |done].
  - destruct Hstep as [Ht Hp]. specialize (Hours w0 eq_refl).
    split; cbn; rewrite ?Ht; try done.
    + intros w. rewrite Hp, elem_of_cons. specialize (H4 w). intros [?|[[->|?] ?]]; [tauto|done|tauto].
    + intros w Hw. rewrite Hp, elem_of_cons. specialize (H5 w Hw). specialize (Hexp [] w). tauto.
  - destruct Hstep as [Ht Hp].
    assert (Hour : w_conv w0 = convID b -> w0 ∈ l) by (intros E; apply H4; right; split; [rewrite Hp; by left|done]).
    assert (Hmax : MaxSeq (convID b) (tables s') = if bool_decide (w_conv w0 = convID b)
      then Z.max (w_seq w0) (MaxSeq (convID b) (tables s)) else MaxSeq (convID b) (tables s)).
    { rewrite Ht, !MaxSeq_top, top_insert. case_bool_decide as E; [|done]. destruct (H2 w0 (Hour E)).
      destruct (FrameStore.top (convID b) (tables s)); cbn; lia. }
    assert (Hl : app_frames (tables s') = <[(w_conv w0, w_seq w0) := stored_frame w0]> (app_frames (tables s))) by (by rewrite Ht).
    split; cbn; try done.
    + intros w Hw. apply H4. rewrite Hp, elem_of_cons. tauto.
    + intros w Hw. specialize (H5 w Hw). rewrite Hp, elem_of_cons in H5. specialize (Hexp [] w).
      assert (Hle : MaxSeq (convID b) (tables s) <= MaxSeq (convID b) (tables s')) by (rewrite Hmax; case_bool_decide; lia).
      rewrite Hl.
      destruct (decide ((w_conv w0, w_seq w0) = (convID b, w_seq w))) as [[= E1 E2]|Hne].
      * right. right. left. rewrite E1, E2, lookup_insert_eq. do 2 f_equal.
        apply (sorted_seq_inj l); [done|by apply Hour|done|done].
      * rewrite lookup_insert_ne by done. destruct H5 as [?|[[->|?]|[?|[? ?]]]]; [tauto| |tauto|tauto|].
        -- destruct (H2 _ Hw) as [E _]. by rewrite E in Hne.
        -- right. right. right. split; [auto|]. lia.
    + intros s0 f0. rewrite Hl.
      rewrite lookup_insert_Some. intros [[[= E1 E2] <-]|[_ Hf]]; [|by apply H6]. exists w0. auto.
    + rewrite Hmax. case_bool_decide as E; [|done]. destruct (H2 w0 (Hour E)). lia.
  - destruct Hstep as [Ht Hp]. assert (Hmax : MaxSeq (convID b) (tables s') = MaxSeq (convID b) (tables s))
      by (by rewrite Ht, !MaxSeq_top, top_trim).
    split; cbn; rewrite ?Hp, ?Hmax; try done.
    + intros w Hw. specialize (Hexp [ms] w). destruct (H5 w Hw) as [?|[?|[Hf|[? ?]]]]; [tauto|tauto| |tauto]. right. right.
      destruct (Z.le_gt_cases ms (w_sentMs w)) as [Hle|Hgt].
      * left. rewrite Ht. by apply trim_frames.
      * right. split; [exists ms; cbn; split; [set_solver|done]|]. pose proof (top_stored _ _ _ _ Hf) as Hs.
        rewrite MaxSeq_top. destruct (FrameStore.top (convID b) (tables s)) as [m|]; [|done]. injection Hs as Hs. cbn. lia.
    + intros s0 f0. rewrite Ht. intros [Hf _]%trim_frames. by apply H6.
  - destruct Hstep as (Hf & Hcs & Hp). assert (Hmax : MaxSeq (convID b) (tables s') = MaxSeq (convID b) (tables s))
      by (unfold MaxSeq, seqs_of; by rewrite Hf, Hcs).
    split; cbn; rewrite ?Hf, ?Hmax; try done.
    + intros w. rewrite Hp. apply H4.
    + intros w Hw. rewrite Hp. specialize (Hexp [] w). specialize (H5 w Hw). tauto.
Qed.

Lemma local_ok o b s h l k : stream_ok (MkStream b s h l k) -> stream_ok (MkStream (do_local capsOf o b) s h l k).
Proof.
  destruct (do_local_spec o b) as (Hc & Hq & q & Hb). intros [H1 H2 H3 H4 H5 H6 H7]. cbn in *.
  split; cbn; rewrite ?Hc, ?Hq; try done. destruct H3 as [pre H3]. exists (pre ++ (buffered <$> q)).
  by rewrite H3, Hb, fmap_app, app_assoc.
Qed.

Lemma restart_ok depth ttl feats b s l k : pending s = [] ->
  stream_ok (MkStream b s [] l k) -> stream_ok (MkStream (newBinding (convID b) (agent b) depth ttl feats (tables s)) s [] l k).
Proof.
  intros Hp [H1 H2 H3 H4 H5 H6 H7]. cbn in *.
  split; cbn; try done; [|by exists (entry <$> l); rewrite app_nil_r|lia].
  intros w Hw. destruct (H2 w Hw) as [? [? _]]. split; [done|]. split; [done|].
  destruct (H5 w Hw) as [?%elem_of_nil|[?|[Hf|[_ ?]]]]; [done| | |done].
  - rewrite Hp in *. by apply elem_of_nil in H8.
  - pose proof (top_stored _ _ _ _ Hf) as Hs. rewrite MaxSeq_top.
    destruct (FrameStore.top (convID b) (tables s)) as [m|]; [|done]. injection Hs as Hs. cbn. lia.
Qed.

Lemma reachable_ok x : reachable x -> stream_ok x.
Proof.
  intros (x0 & Hx0%stream_start_ok & Hr). induction Hr as [x|x y z Hstep _ IH]; [done|]. apply IH.
  destruct Hstep; [by eapply send_ok| |by eapply store_ok|by apply local_ok|by apply restart_ok].
  destruct Hx0 as [H1 H2 H3 H4 H5 H6 H7]. destruct (AppendThen_pending w s) as [Hp Ht]. cbn in *.
  split; cbn; rewrite ?Ht; try done.
  - intros v. rewrite Hp, elem_of_cons. intros Hv. apply H4. rewrite elem_of_app, elem_of_cons in *. naive_solver.
  - intros v Hv. specialize (H5 v Hv). rewrite Hp, elem_of_cons, !elem_of_app, elem_of_cons in *. unfold expired in *. cbn in *. tauto.
Qed.

(** C36: over every interleaving of senders, the writer, trims, sockets, other
    conversations and clean restarts, the numbers of a conversation's frames
    only rise, so none is used twice; and every frame sent is on its way to the
    store, is stored as it was sent, or had expired before it was removed. *)
Theorem stream_numbers_once (x : stream) : reachable x ->
  StronglySorted before (sent x)
  /\ (forall w, w ∈ sent x -> w_conv w = convID (sb x) /\ (w ∈ handing x \/ w ∈ pending (ss x)
        \/ app_frames (tables (ss x)) !! (convID (sb x), w_seq w) = Some (stored_frame w) \/ expired x w))
  /\ (forall s f, app_frames (tables (ss x)) !! (convID (sb x), s) = Some f ->
        exists w, w ∈ sent x /\ w_seq w = s /\ stored_frame w = f).
Proof.
  intros [H1 H2 _ _ H5 H6 _]%reachable_ok. split_and!; [done| |done].
  intros w Hw. split; [by apply H2|]. destruct (H5 w Hw) as [?|[?|[?|[? _]]]]; auto.
Qed.

(** *** Replay *)
Lemma take_below_spec floor l : StronglySorted num_lt l -> take_below floor l = filter (fun f => f.1 < floor) l.
Proof.
  induction 1 as [|[s w] l Hl IH Ha]; [done|]. cbn [take_below]. rewrite filter_cons. cbn [fst].
  destruct (Z.leb_spec floor s).
  - rewrite decide_False by lia. symmetry.
    apply filter_none. intros [s' w'] Hin. rewrite Forall_forall in Ha. specialize (Ha _ Hin). unfold num_lt in Ha. cbn in *. lia.
  - rewrite decide_True by lia. by rewrite IH.
Qed.

Lemma Range_take conv fromSeq n t : 0 <= n -> Range conv fromSeq n t = take (Z.to_nat n) (stored_after conv fromSeq t).
Proof. intros Hn. rewrite Range_limit. unfold limit. by destruct (Z.ltb_spec n 0); [lia|]. Qed.

Lemma take_below_take floor n l : StronglySorted num_lt l ->
  take_below floor (take n l) = take n (filter (fun f => f.1 < floor) l).
Proof.
  intros Hl. revert n. induction Hl as [|[s w] l Hl IH Ha]; intros [|n]; try done.
  cbn [take take_below]. rewrite filter_cons. cbn [fst]. destruct (Z.leb_spec floor s).
  - rewrite decide_False by lia. rewrite filter_none; [done|]. intros [s' w'] Hin. rewrite Forall_forall in Ha.
    specialize (Ha _ Hin). unfold num_lt in Ha. cbn in *. lia.
  - rewrite decide_True by lia. cbn [take]. by rewrite IH.
Qed.

(** The wires sent above a number, in order. *)
Definition owed (x : stream) (fromSeq : Z) : list (Z * gostr) := entry <$> filter (fun w => fromSeq < w_seq w) (sent x).


Lemma entries_sorted x : stream_ok x -> StronglySorted num_lt (entry <$> sent x).
Proof. intros [H1 _ _ _ _ _ _]. by apply (sorted_fmap before). Qed.

(** A write of the conversation that is neither on its way nor expired is in the
    store. *)
Lemma settled_stored x fromSeq w : stream_ok x -> w ∈ sent x -> fromSeq < w_seq w -> ~ expired x w ->
  ~ (w ∈ handing x \/ w ∈ pending (ss x)) ->
  entry w ∈ stored_after (convID (sb x)) fromSeq (tables (ss x)).
Proof.
  intros [_ _ _ _ H5 _ _] Hw Hs He Hp. destruct (H5 w Hw) as [?|[?|[Hf|[? _]]]]; [tauto|tauto| |done].
  apply elem_of_stored_after. split; [done|]. by exists (stored_frame w).
Qed.

Lemma stored_sent x fromSeq s w : stream_ok x ->
  (s, w) ∈ stored_after (convID (sb x)) fromSeq (tables (ss x)) -> (s, w) ∈ entry <$> sent x /\ fromSeq < s.
Proof.
  intros [_ _ _ _ _ H6 _] (Hs & f & Hf & <-)%elem_of_stored_after. destruct (H6 s f Hf) as (v & Hv & <- & <-).
  split; [|done]. apply list_elem_of_fmap. by exists v.
Qed.

Lemma num_lt_asym a b : num_lt a b -> ~ num_lt b a.
Proof. unfold num_lt. lia. Qed.

Lemma owed_filter x fromSeq : owed x fromSeq = filter (fun e => fromSeq < e.1) (entry <$> sent x).
Proof.
  unfold owed. induction (sent x) as [|w l IH]; [done|]. rewrite fmap_cons, !filter_cons. cbn [fst entry].
  destruct (decide (fromSeq < w_seq w)); [by rewrite fmap_cons, IH|done].
Qed.

Lemma from_buffer_filter fromSeq b : from_buffer fromSeq b = snd <$> filter (fun e => fromSeq < e.1) (buffered <$> buffer b).
Proof.
  unfold from_buffer. induction (buffer b) as [|f l IH]; [done|]. rewrite fmap_cons, !filter_cons. cbn [fst buffered].
  destruct (decide (fromSeq < b_seq f)); [by rewrite !fmap_cons, IH|done].
Qed.

(** The store's share and the buffer's are the entries above the mark, given
    that those before the buffer are stored and that whatever else the store has
    is newer than the buffer's first frame. *)
Lemma replay_complete fromSeq b t l pre : StronglySorted num_lt l -> l = pre ++ (buffered <$> buffer b) ->
  (forall s w, (s, w) ∈ pre -> fromSeq < s -> (s, w) ∈ stored_after (convID b) fromSeq t) ->
  (forall s w, (s, w) ∈ stored_after (convID b) fromSeq t -> fromSeq < s
     /\ ((s, w) ∈ l \/ exists f rest, buffer b = f :: rest /\ b_seq f < s)) ->
  (length (filter (fun e => ~ in_buffer b e.1) (filter (fun e : Z * gostr => (fromSeq < e.1)%Z) l)) <= Z.to_nat maxResumeStoreReplay)%nat ->
  from_store (Some t) fromSeq b ++ from_buffer fromSeq b = snd <$> filter (fun e => fromSeq < e.1) l.
Proof.
  intros Hsort Hpre Hgap Hsto Hlen. rewrite Hpre in Hsort.
  apply StronglySorted_app in Hsort as (Hlt & Hsp & Hsb).
  rewrite Hpre, filter_app, fmap_app, from_buffer_filter. f_equal.
  assert (Hout : forall e, e ∈ pre -> ~ in_buffer b e.1).
  { intros e He (f & E & Hf)%list_elem_of_fmap. specialize (Hlt e (buffered f) He ltac:(by apply list_elem_of_fmap_2)).
    unfold num_lt in Hlt. cbn in Hlt. lia. }
  rewrite Hpre, filter_app, filter_app, (filter_keeps _ (filter _ pre)), length_app in Hlen
    by (intros e [_ He]%list_elem_of_filter; by apply Hout).
  assert (Hpq : (length (filter (fun e : Z * gostr => (fromSeq < e.1)%Z) pre) <= Z.to_nat maxResumeStoreReplay)%nat) by lia.
  clear Hlen. pose proof (stored_after_sorted (convID b) fromSeq t) as Hss. rewrite Hpre in Hsto. clear Hpre l.
  set (l := stored_after (convID b) fromSeq t) in *.
  unfold from_store. rewrite Range_take by done. fold l.
  destruct (buffer b) as [|f rest] eqn:Eb.
  - assert (Hin : forall s w, (s, w) ∈ l -> (s, w) ∈ pre /\ fromSeq < s).
    { intros s w (? & [Hx|(f & r & ? & _)])%Hsto; [|done]. rewrite fmap_nil, app_nil_r in Hx. done. }
    replace l with (filter (fun e : Z * gostr => fromSeq < e.1) pre).
    + by rewrite take_ge.
    + apply (sorted_unique num_lt); [apply num_lt_asym|by apply sorted_filter|done|]. intros [s w].
      rewrite list_elem_of_filter. cbn. split; [intros [? ?]; by apply Hgap|]. intros H. destruct (Hin s w H). done.
  - assert (Hfl : forall e, e ∈ pre -> e.1 < b_seq f) by (intros e He; apply (Hlt e (buffered f)); [done|by left]).
    assert (Hge : forall s w, (s, w) ∈ buffered <$> f :: rest -> b_seq f <= s).
    { intros s w [E|Hx]%elem_of_cons; [by injection E as -> ->|].
      apply StronglySorted_inv in Hsb as [_ Hall]. rewrite Forall_forall in Hall. specialize (Hall _ Hx). unfold num_lt in Hall. cbn in Hall. lia. }
    destruct (Z.ltb_spec fromSeq (b_seq f - 1)).
    + rewrite take_below_take by done. replace (filter (fun e : Z * gostr => e.1 < b_seq f) l) with (filter (fun e : Z * gostr => fromSeq < e.1) pre).
      * by rewrite take_ge.
      * apply (sorted_unique num_lt); [apply num_lt_asym|by apply sorted_filter..|]. intros [s w].
        rewrite !list_elem_of_filter. cbn. split.
        -- intros [? Hp]. split; [by apply (Hfl (s, w))|by apply Hgap].
        -- intros [? Hx]. destruct (Hsto s w Hx) as [? [[Hp|Hb]%elem_of_app|(f0 & r0 & [= <- <-] & ?)]]; [done| |lia].
           apply Hge in Hb. lia.
    + rewrite filter_none; [done|]. intros e He Hx. specialize (Hfl e He). lia.
Qed.

(** *** Between the two reads *)
Lemma steps_grow x1 x2 : rtc stream_step x1 x2 -> convID (sb x2) = convID (sb x1) /\ exists l, sent x2 = sent x1 ++ l.
Proof.
  induction 1 as [x|x y z Hstep _ [IHc [l IHl]]]; [split; [done|exists []; by rewrite app_nil_r]|].
  rewrite IHc, IHl. destruct Hstep as [f now id ts cb b b' r s h k c Hs| | |op b s h k c|]; cbn; try (split; [done|by eexists]).
  - destruct (sendThen_spec _ _ _ _ _ _ _ _ Hs) as (-> & _). split; [done|]. rewrite <- app_assoc. by eexists.
  - destruct (do_local_spec op b) as (-> & _). split; [done|by eexists].
Qed.

(** The instant whose frames a replay sends: when memory was read, or, when it
    was empty, when the store was. *)
Definition replay_instant (x1 x2 : stream) : stream := match buffer (sb x1) with [] => x2 | _ => x1 end.

Lemma replay_across x1 x2 fromSeq (y := replay_instant x1 x2) : reachable x1 -> rtc stream_step x1 x2 ->
  (forall w, w ∈ sent y -> fromSeq < w_seq w -> ~ expired x2 w) ->
  (forall w, w ∈ sent y -> fromSeq < w_seq w -> w ∈ handing x2 \/ w ∈ pending (ss x2) -> in_buffer (sb x1) (w_seq w)) ->
  (length (filter (fun e => ~ in_buffer (sb x1) e.1) (owed y fromSeq)) <= Z.to_nat maxResumeStoreReplay)%nat ->
  from_store (Some (tables (ss x2))) fromSeq (sb x1) ++ from_buffer fromSeq (sb x1) = snd <$> owed y fromSeq.
Proof.
  intros H1 H12 Hexp Hmem Hlen.
  assert (reachable x2) as H2 by (destruct H1 as (x0 & H0 & H01); exists x0; split; [done|by etrans]).
  apply reachable_ok in H1, H2. destruct (steps_grow _ _ H12) as [Hc [more Hmore]].
  pose proof (entries_sorted x1 H1) as Hsort1. pose proof (entries_sorted x2 H2) as Hsort2.
  assert (forall w, w ∈ sent y -> w ∈ sent x2) as Hsub.
  { intros w. unfold y, replay_instant. destruct (buffer (sb x1)); [done|]. rewrite Hmore, elem_of_app. by left. }
  assert (exists pre, entry <$> sent y = pre ++ (buffered <$> buffer (sb x1))) as [pre Hpre].
  { unfold y, replay_instant. destruct (buffer (sb x1)) as [|f rest] eqn:Eb; [exists (entry <$> sent x2); by rewrite app_nil_r|].
    rewrite <- Eb. apply H1. }
  assert (StronglySorted num_lt (entry <$> sent y)) as Hsort by (unfold y, replay_instant; by destruct (buffer (sb x1))).
  rewrite owed_filter in Hlen |- *. apply (replay_complete fromSeq (sb x1) (tables (ss x2)) _ pre Hsort Hpre); [| |exact Hlen].
  - intros s w Hin Hs. assert ((s, w) ∈ entry <$> sent y) as Hx by (rewrite Hpre, elem_of_app; by left).
    apply list_elem_of_fmap in Hx as (v & [= -> ->] & Hv). rewrite <- Hc.
    apply (settled_stored x2); [done|by apply Hsub|done|by apply Hexp|]. intros Hp.
    pose proof (Hmem v Hv Hs Hp) as Hb. apply list_elem_of_fmap in Hb as (f & E & Hf). rewrite Hpre in Hsort.
    apply StronglySorted_app in Hsort as (Hlt & _ & _). specialize (Hlt _ (buffered f) Hin ltac:(by apply list_elem_of_fmap_2)).
    unfold num_lt in Hlt. cbn in Hlt. lia.
  - intros s w Hin. rewrite <- Hc in Hin. apply (stored_sent x2) in Hin as [Hin Hs]; [|done]. split; [done|].
    unfold y, replay_instant. destruct (buffer (sb x1)) as [|f rest] eqn:Eb; [by left|].
    rewrite Hmore, fmap_app, elem_of_app in Hin. destruct Hin as [Hin|Hin]; [by left|]. right. exists f, rest. split; [done|].
    rewrite Hmore, fmap_app in Hsort2. apply StronglySorted_app in Hsort2 as (Hlt & _ & _).
    destruct (ok_buffer _ H1) as [q Hq]. rewrite Eb in Hq.
    assert (buffered f ∈ entry <$> sent x1) as Hf by (rewrite Hq, elem_of_app; right; by left).
    specialize (Hlt _ _ Hf Hin). exact Hlt.
Qed.
End Stream.

(** ** What a device gets *)
Lemma offer_spec fits n ws : let '(l, ok) := offer fits n ws in
  exists rest, ws = l ++ rest /\ (ok = true -> rest = []) /\ ((forall k, fits k = true) -> ok = true).
Proof.
  revert n. induction ws as [|w ws IH]; intros n; cbn [offer]; [by exists []|].
  destruct (fits n) eqn:E.
  - specialize (IH (S n)). destruct (offer fits (S n) ws) as [l ok]. destruct IH as (rest & -> & Hok & Hall). by exists rest.
  - exists (w :: ws). split; [done|]. split; [done|]. intros Hall. by rewrite Hall in E.
Qed.

Lemma offer_app fits n ws vs : offer fits n (ws ++ vs)
  = let '(l, ok) := offer fits n ws in
    if ok then let '(k, ok) := offer fits (n + length ws) vs in (l ++ k, ok) else (l, false).
Proof.
  revert n. induction ws as [|w ws IH]; intros n; cbn [offer app length].
  - rewrite Nat.add_0_r. by destruct (offer fits n vs).
  - destruct (fits n); [|done]. rewrite IH. destruct (offer fits (S n) ws) as [l []]; [|done].
    rewrite Nat.add_succ_comm. by destruct (offer fits (n + S (length ws)) vs).
Qed.

Section Device.
Context (C : Codec) (P : Payloads) (scan : forall A : Type, list A -> list A) (capsOf : nat -> gset gostr).
Context (fresh instant : gostr).

Lemma replayTo_offer o t client fromSeq fits b : replayTo C P scan capsOf fresh instant o t client fromSeq fits b
  = offer fits 0 (for_client C P scan capsOf fresh instant o client b <$> from_store t fromSeq b ++ from_buffer fromSeq b).
Proof. unfold replayTo. cbv zeta. by rewrite fmap_app, offer_app. Qed.

(** C37: a device that comes back is sent, in order and once each, the frames
    above its mark, up to where its queue was full; all of them when the replay
    reports success.  The frames are those sent by the instant [x1] at which the
    buffer was read or, when it was empty, by the later instant [x2] at which
    the store was, whatever happened between the two.  This needs that no such
    frame has expired, that those whose write is still on its way at [x2] are in
    the buffer read at [x1] (an acknowledgement can remove them earlier:
    [acked_frame_missed]), and that at most [maxResumeStoreReplay] are only in
    the store ([replay_hole]). *)
Theorem replay_delivers (payload : ServerFrame -> option gostr) (x1 x2 : stream) (o : option Tables) (client : nat)
    (fromSeq : Z) (fits : nat -> bool) (y := replay_instant x1 x2) :
  reachable C payload capsOf x1 -> rtc (stream_step C payload capsOf) x1 x2 ->
  (forall w, w ∈ sent y -> fromSeq < w_seq w -> ~ expired x2 w) ->
  (forall w, w ∈ sent y -> fromSeq < w_seq w -> w ∈ handing x2 \/ w ∈ pending (ss x2) -> in_buffer (sb x1) (w_seq w)) ->
  (length (filter (fun e => ~ in_buffer (sb x1) e.1) (owed y fromSeq)) <= Z.to_nat maxResumeStoreReplay)%nat ->
  let '(l, ok) := replayTo C P scan capsOf fresh instant o (Some (tables (ss x2))) client fromSeq fits (sb x1) in
  exists rest,
    for_client C P scan capsOf fresh instant o client (sb x1) <$> (snd <$> owed y fromSeq) = l ++ rest
    /\ (ok = true -> rest = []) /\ ((forall k, fits k = true) -> ok = true).
Proof.
  intros H1 H2 Hexp Hmem Hlen. rewrite replayTo_offer.
  rewrite (replay_across C payload capsOf x1 x2 fromSeq H1 H2 Hexp Hmem Hlen). apply offer_spec.
Qed.

(** When more frames than the cap are only in the store, the frames of the
    buffer are sent after the capped part all the same: there is a hole, and the
    replay reports success. *)
Theorem replay_hole (t : Tables) (client : nat) (fromSeq : Z) (fits : nat -> bool) (b : convBinding) (f : bufferedFrame)
    (rest : list bufferedFrame) (gap := filter (fun e => e.1 < b_seq f) (stored_after (convID b) fromSeq t)) :
  buffer b = f :: rest -> fromSeq < b_seq f - 1 -> (forall k, fits k = true) ->
  (Z.to_nat maxResumeStoreReplay < length gap)%nat ->
  exists missed, missed <> [] /\ gap = take (Z.to_nat maxResumeStoreReplay) gap ++ missed
    /\ replayTo C P scan capsOf fresh instant (Some t) (Some t) client fromSeq fits b
       = (for_client C P scan capsOf fresh instant (Some t) client b
            <$> (snd <$> take (Z.to_nat maxResumeStoreReplay) gap) ++ from_buffer fromSeq b, true)
    /\ b_wire f ∈ from_buffer fromSeq b.
Proof.
  intros Hb Hf Hfits Hlen. exists (drop (Z.to_nat maxResumeStoreReplay) gap). split_and!.
  - intros E. apply (f_equal length) in E. rewrite length_drop in E. cbn [length] in E. lia.
  - by rewrite take_drop.
  - rewrite replayTo_offer. unfold from_store. rewrite Hb, (proj2 (Z.ltb_lt _ _) Hf), Range_take by done.
    rewrite take_below_take by apply stored_after_sorted. fold gap.
    match goal with |- offer _ _ ?ws = _ => pose proof (offer_spec fits 0 ws) as Ho; destruct (offer fits 0 ws) as [l ok] end.
    destruct Ho as (r & Hr & Hok & Hall). rewrite (Hall Hfits) in *. rewrite (Hok eq_refl), app_nil_r in Hr. by rewrite Hr.
  - unfold from_buffer. apply list_elem_of_fmap. exists f. split; [done|]. rewrite list_elem_of_filter. split; [lia|].
    rewrite Hb. by left.
Qed.

(** Paging over HTTP from a mark, a client gets every stored frame above it,
    in order and once each, whatever page size it asks for. *)
Theorem pages_complete (conv : gostr) (v : option Z) (t : Tables) (fuel : nat) (fromSeq : Z) :
  (length (stored_after conv fromSeq t) < fuel)%nat ->
  pages C P scan fresh instant fuel conv fromSeq v t
  = (fun f => (f.1, substituteResolvedAsk C P fresh instant f.2 (OrphanedResolvedAsks C scan conv t)))
      <$> stored_after conv fromSeq t.
Proof.
  revert fromSeq. induction fuel as [|fuel IH]; intros fromSeq Hlen; [lia|]. cbn [pages]. unfold ServeReplay. cbv zeta.
  set (n := match v with Some v => _ | None => _ end). set (g := fun f : Z * gostr => (f.1, _)).
  assert (Hn : 1 <= n) by (unfold n, maxReplayPage; destruct v as [v|]; [|done];
    destruct (Z.ltb_spec 0 v); cbn [andb]; [case_match|]; lia).
  rewrite Range_take by lia. set (l := stored_after conv fromSeq t) in *.
  case_bool_decide as Hm.
  - rewrite length_take in Hm.
    destruct (lookup_lt_is_Some_2 l (Z.to_nat n - 1)) as [[s w] Hsw]; [lia|].
    pose proof (take_drop_middle l _ _ Hsw) as Hl. rewrite <- Nat.sub_succ_l, Nat.sub_succ, Nat.sub_0_r in Hl by lia.
    assert (Ht : take (Z.to_nat n) l = take (Z.to_nat n - 1) l ++ [(s, w)]).
    { rewrite <- (take_S_r l (Z.to_nat n - 1)) by done. f_equal. lia. }
    assert (Hnew : newest (g <$> take (Z.to_nat n) l) = Some (g (s, w)))
      by (rewrite Ht, fmap_app; unfold newest; cbn [fmap list_fmap]; by rewrite rev_unit).
    rewrite Hnew. change ((g (s, w)).1) with s. rewrite (IH s).
    + rewrite (stored_after_drop conv fromSeq t (take (Z.to_nat n - 1) l) s w (drop (Z.to_nat n) l)) by done.
      rewrite <- fmap_app. by rewrite take_drop.
    + rewrite (stored_after_drop conv fromSeq t (take (Z.to_nat n - 1) l) s w (drop (Z.to_nat n) l)) by done.
      rewrite length_drop. lia.
  - rewrite app_nil_r. rewrite length_take in Hm. by rewrite take_ge by lia.
Qed.
End Device.

(** ** Acknowledgements *)
Lemma minAck_spec b m : minAck b = Some m -> forall c, c ∈ clients b ->
  exists st, clientStates b !! c = Some st /\ ackHW st <> 0 /\ m <= ackHW st.
Proof.
  unfold minAck. intros H c Hc%elem_of_elements. revert m H. induction (elements (clients b)) as [|x l IH]; intros m.
  { by apply elem_of_nil in Hc. }
  cbn [foldr]. destruct (foldr _ _ l) as [k|]; [|done]. cbn [mbind option_bind].
  destruct (clientStates b !! x) as [st|] eqn:Ex; [|done]. cbn. destruct (Z.eqb_spec (ackHW st) 0); [done|].
  intros [= <-]. apply elem_of_cons in Hc as [->|Hc]; [exists st; split_and!; [done..|lia]|].
  destruct (IH Hc k eq_refl) as (st' & ? & ? & ?). exists st'. split_and!; [done..|lia].
Qed.

(** An acknowledgement takes a frame out of the buffer only when every
    attached socket has acknowledged it, the one that acknowledges included; a
    socket that has acknowledged nothing keeps the whole buffer, and one that is
    not attached changes nothing. *)
Theorem acks_keep_unacknowledged (client : nat) (ack : Z) (b : convBinding) (f : bufferedFrame) :
  f ∈ buffer b ->
  f ∈ buffer (ackInbound client ack b)
  \/ client ∈ clients b /\ forall c, c ∈ clients b ->
       exists st, clientStates (ackInbound client ack b) !! c = Some st /\ ackHW st <> 0 /\ b_seq f <= ackHW st.
Proof.
  intros Hf. unfold ackInbound. destruct (ack <=? 0); [by left|]. case_bool_decide as Hc; cbn [negb]; [|by left]. cbv zeta.
  destruct (minAck _) as [m|] eqn:Em; [|by left].
  cbn [buffer set_buffer set_states clientStates]. destruct (drop_while_suffix (fun f => b_seq f <=? m) (buffer b)) as (pre & H & Hp).
  rewrite H in Hf. apply elem_of_app in Hf as [Hf|Hf]; [|by left]. right. split; [done|]. intros c Hin.
  destruct (minAck_spec _ m Em c Hin) as (st & Hst & H0 & Hle). exists st. split_and!; [done..|].
  rewrite Forall_forall in Hp. specialize (Hp f Hf). apply Z.leb_le in Hp. lia.
Qed.

(** ** Inbound frames *)

(** A run of inbound frames (socket, envelope id, number): the ids taken as new. *)
Fixpoint inbound (l : list (nat * gostr * Z)) (b : convBinding) : list gostr * convBinding :=
  match l with
  | [] => ([], b)
  | (c, id, n) :: l =>
      let '(isNew, b) := acceptInbound c id n b in
      let '(ids, b) := inbound l b in
      (if isNew && negb (bool_decide (id = [])) then id :: ids else ids, b)
  end.

(** The last [maxSeenInbound] of a list. *)
Definition recent (l : list gostr) : list gostr := drop (length l - maxSeenInbound) l.

Record remembers (acc : list gostr) (b : convBinding) : Prop := {
  rem_order : seenOrder b = recent acc;
  rem_seen : forall id, id ∈ seen b <-> id ∈ recent acc;
  rem_NoDup : NoDup (recent acc);
}.

Lemma recent_snoc acc id : recent (acc ++ [id])
  = if (maxSeenInbound <? length (recent acc ++ [id]))%nat then tail (recent acc ++ [id]) else recent acc ++ [id].
Proof.
  unfold recent. rewrite !length_app, length_drop. cbn [length].
  assert (Hm : (0 < maxSeenInbound)%nat) by (unfold maxSeenInbound; lia).
  destruct (Nat.ltb_spec maxSeenInbound (length acc - (length acc - maxSeenInbound) + 1)).
  - rewrite drop_app_le by lia. replace (length acc + 1 - maxSeenInbound)%nat with (S (length acc - maxSeenInbound)) by lia.
    rewrite <- Nat.add_1_r, <- drop_drop. destruct (drop (length acc - maxSeenInbound) acc) as [|x l] eqn:E; [|done].
    apply (f_equal length) in E. rewrite length_drop in E. cbn [length] in E. lia.
  - rewrite drop_app_le by lia. f_equal. f_equal. lia.
Qed.

Lemma note_id_remembers acc id b : remembers acc b ->
  let '(isNew, b') := note_id id b in
  (isNew = true <-> id = [] \/ id ∉ recent acc)
  /\ remembers (if isNew && negb (bool_decide (id = [])) then acc ++ [id] else acc) b'
  /\ clientStates b' = clientStates b.
Proof.
  intros [Ho Hs Hd]. unfold note_id. case_bool_decide as He; [by subst; split; [tauto|split; [by split|done]]|].
  case_bool_decide as Hin; rewrite Hs in Hin; [split; [naive_solver|split; [by split|done]]|].
  cbv zeta. rewrite andb_true_l. cbn [negb].
  assert (Hd' : NoDup (recent acc ++ [id])) by (apply NoDup_app; split_and!; [done|set_solver|apply NoDup_singleton]).
  assert (Hs' : forall x, x ∈ ({[ id ]} ∪ seen b : gset gostr) <-> x ∈ recent acc ++ [id]).
  { intros x. rewrite elem_of_union, elem_of_singleton, Hs, elem_of_app, list_elem_of_singleton. tauto. }
  split; [tauto|]. rewrite Ho. pose proof (recent_snoc acc id) as Hr.
  destruct (maxSeenInbound <? length (recent acc ++ [id]))%nat eqn:El.
  - destruct (recent acc ++ [id]) as [|old order] eqn:E; [by destruct (recent acc)|]. cbn [tail] in Hr.
    apply NoDup_cons in Hd' as [Hold Hd'].
    split; [|done]. split; cbn [seenOrder seen set_seen]; rewrite Hr; [done| |done].
    intros x. rewrite elem_of_difference, Hs', elem_of_cons, elem_of_singleton. set_solver.
  - split; [|done]. split; cbn [seenOrder seen set_seen]; rewrite Hr; done.
Qed.

(** A frame sent again is recognised as long as it is among the last
    [maxSeenInbound] new ones, from whatever socket it comes, and a frame is
    taken as new exactly when it is not; a frame without an id always is. *)
Theorem inbound_once (l : list (nat * gostr * Z)) (b : convBinding) (client : nat) (id : gostr) (n : Z) :
  seen b = ∅ -> seenOrder b = [] ->
  let '(acc, b') := inbound l b in
  (acceptInbound client id n b').1 = true <-> id = [] \/ id ∉ recent acc.
Proof.
  intros Hs Ho.
  assert (Hr : forall l acc b, remembers acc b -> remembers (acc ++ (inbound l b).1) (inbound l b).2).
  { clear. induction l as [|[[c i] k] l IH]; intros acc b Hb; cbn [inbound]; [by rewrite app_nil_r|].
    unfold acceptInbound. pose proof (note_id_remembers acc i b Hb) as Hn. destruct (note_id i b) as [isNew b1].
    destruct Hn as (_ & Hn & _). set (b2 := set_states _ b1).
    assert (Hb2 : remembers (if isNew && negb (bool_decide (i = [])) then acc ++ [i] else acc) b2) by (by destruct Hn).
    specialize (IH _ b2 Hb2). destruct (inbound l b2) as [ids b3]. cbn [fst snd] in *.
    destruct (isNew && negb _); [by rewrite cons_middle, app_assoc|done]. }
  specialize (Hr l [] b). cbn [app] in Hr. destruct (inbound l b) as [acc b'].
  assert (Hb : remembers acc b') by (apply Hr; split; rewrite ?Hs, ?Ho; [done|set_solver|constructor]).
  unfold acceptInbound. pose proof (note_id_remembers acc id b' Hb) as Hn. destruct (note_id id b') as [isNew b2].
  by destruct Hn.
Qed.

(** ** Witnesses: one frame sent, not yet stored, to a device that comes back *)
Definition demo_codec : Codec :=
  MkCodec (fun e => Some (FormatInt (Seq e))) (fun _ => None) (fun _ => None) (fun _ => []) (fun _ => []).
Definition demo_payload (f : ServerFrame) : option gostr := Some "{}".
Definition demo_payloads : Payloads :=
  MkPayloads demo_payload (fun _ _ => None) (fun _ => None) (fun _ => None) (fun _ => None).
Definition demo_binding : convBinding := newBinding "c" "a" 0 0 ∅ empty_tables.
Definition demo_sent : convBinding * option sending :=
  sendThen demo_codec demo_payload (TextEnd "m" None) 0 "id" "ts" None demo_binding.
Definition demo_stream : stream :=
  MkStream demo_sent.1 (MkStore empty_tables [] None []) (writes demo_sent.2) (writes demo_sent.2) [].

Lemma demo_reachable : reachable demo_codec demo_payload (fun _ => ∅) demo_stream.
Proof.
  exists (MkStream demo_binding (MkStore empty_tables [] None []) [] [] []). split; [by split_and!|].
  apply rtc_once. apply (stream_send demo_codec demo_payload (fun _ => ∅) (TextEnd "m" None) 0 "id" "ts" None demo_binding
    demo_sent.1 demo_sent.2 _ [] [] []). apply surjective_pairing.
Qed.

Lemma stream_numbers_once_witness :
  StronglySorted before (sent demo_stream)
  /\ (forall w, w ∈ sent demo_stream -> w_conv w = convID (sb demo_stream) /\ (w ∈ handing demo_stream
        \/ w ∈ pending (ss demo_stream)
        \/ app_frames (tables (ss demo_stream)) !! (convID (sb demo_stream), w_seq w) = Some (stored_frame w)
        \/ expired demo_stream w))
  /\ (forall s f, app_frames (tables (ss demo_stream)) !! (convID (sb demo_stream), s) = Some f ->
        exists w, w ∈ sent demo_stream /\ w_seq w = s /\ stored_frame w = f).
Proof. apply (stream_numbers_once demo_codec demo_payload (fun _ => ∅) demo_stream), demo_reachable. Defined.

(** The frame reaches the writer's queue between the two reads. *)
Definition demo_write : frameWrite := MkWrite "c" "a" 1 "1" 0 true "New message" None.
Definition demo_later : stream :=
  MkStream demo_sent.1 (AppendThen demo_write (MkStore empty_tables [] None [])) [] [demo_write] [].

Lemma demo_steps : rtc (stream_step demo_codec demo_payload (fun _ => ∅)) demo_stream demo_later.
Proof. apply rtc_once. apply (stream_hand demo_codec demo_payload (fun _ => ∅) demo_sent.1 _ [] demo_write [] [demo_write] []). Qed.

Lemma replay_delivers_witness :
  let '(l, ok) := replayTo demo_codec demo_payloads (fun _ l => l) (fun _ => ∅) "id" "ts" None (Some (tables (ss demo_later))) 3%nat 0
                    (fun _ => true) (sb demo_stream) in
  exists rest,
    for_client demo_codec demo_payloads (fun _ l => l) (fun _ => ∅) "id" "ts" None 3%nat (sb demo_stream)
      <$> (snd <$> owed (replay_instant demo_stream demo_later) 0) = l ++ rest
    /\ (ok = true -> rest = []) /\ ((forall k : nat, true = true) -> ok = true).
Proof.
  apply (replay_delivers demo_codec demo_payloads (fun _ l => l) (fun _ => ∅) "id" "ts" demo_payload demo_stream demo_later None
           3%nat 0 (fun _ => true)).
  - apply demo_reachable.
  - apply demo_steps.
  - intros w _ _ (ms & Hms & _). by apply elem_of_nil in Hms.
  - intros w Hw _ _. change (sent _) with [demo_write] in Hw. apply list_elem_of_singleton in Hw as ->. vm_compute. by left.
  - vm_compute. lia.
Defined.

(** One device gets the frame, acknowledges it and goes; the frame leaves the
    buffer while its write is still on its way.  A second device that comes
    back now is sent nothing, and the replay reports success. *)
Definition acked_stream : stream :=
  MkStream (fold_left (fun b o => do_local (fun _ => ∅) o b) [LAttach 1; LAck 1 1; LDetach 1] demo_sent.1)
    (MkStore empty_tables [] None []) (writes demo_sent.2) (writes demo_sent.2) [].

Lemma local_steps C payload capsOf ops b s h l k : rtc (stream_step C payload capsOf) (MkStream b s h l k)
  (MkStream (fold_left (fun b o => do_local capsOf o b) ops b) s h l k).
Proof. revert b. induction ops as [|o ops IH]; intros b; [apply rtc_refl|]. eapply rtc_l; [apply (stream_local _ _ _ o)|apply IH]. Qed.

Theorem acked_frame_missed :
  reachable demo_codec demo_payload (fun _ => ∅) acked_stream
  /\ owed acked_stream 0 = [entry demo_write] /\ ~ expired acked_stream demo_write
  /\ replayTo demo_codec demo_payloads (fun _ l => l) (fun _ => ∅) "id" "ts" (Some (tables (ss acked_stream)))
       (Some (tables (ss acked_stream))) 3%nat 0 (fun _ => true) (sb acked_stream) = ([], true).
Proof.
  split_and!.
  - destruct demo_reachable as (x0 & H0 & H). exists x0. split; [done|]. etrans; [exact H|].
    apply local_steps.
  - reflexivity.
  - intros (ms & Hms & _). by apply elem_of_nil in Hms.
  - vm_compute. reflexivity.
Qed.

Lemma inbound_once_witness :
  let '(acc, b') := inbound [(1%nat, "x" : gostr, 1); (2%nat, "x" : gostr, 4); (1%nat, "y" : gostr, 2)] demo_binding in
  (acceptInbound 1%nat "x" 1 b').1 = true <-> ("x" : gostr) = [] \/ ("x" : gostr) ∉ recent acc.
Proof.
  apply (inbound_once [(1%nat, "x" : gostr, 1); (2%nat, "x" : gostr, 4); (1%nat, "y" : gostr, 2)] demo_binding 1%nat "x" 1);
    reflexivity.
Defined.
