(* ===== verification/LateAsk.v ===== *)
(** * Answers to prompts ([internal/app/lateask.go], [hub.go], [dispatch.go])

    What the app still knows of a prompt it no longer has registered, read from
    the frames it sent for it: those in the durable store of FrameStore.v and
    those still in the buffer of AppStream.v.  And the registry of forms, whose
    answer exactly one submit or the expiry sweep may claim.

    The payloads are decoded by parameters ([Reader]). *)
From S2P Require Import Prelude GoStrings GoNum CanonPath FrameStore AppStream.
From stdpp Require Import fin_maps sorting.
Local Open Scope Z_scope.
Local Open Scope gostr_scope.

(** ** Resolutions *)
Definition CancelData : gostr := "qa:cancel".
Definition ExpiredData : gostr := "qa:expired".
Definition OptionData (i : Z) : gostr := "qa:" ++ FormatInt i.

(** [strings.HasPrefix(text, "...")] with the check mark the code looks for. *)
Definition check_mark : gostr := bytes_of_nats [226; 156; 133]%nat.

(** The payloads: of an ask its prompt; of an edit the prompt and its text; of a
    progress edit the prompt, the answers and whether it is done; of a removal
    the prompt.  [None] is a payload that does not decode. *)
Record Reader := MkReader {
  ask_of : gostr -> option gostr;
  edit_of : gostr -> option (gostr * gostr);
  progress_of : gostr -> option (gostr * list gostr * bool);
  remove_of : gostr -> option gostr;
}.

Definition containsCancel (answers : list gostr) : bool := existsb (fun a => bool_decide (a = CancelData)) answers.

Record promptHistory_ := MkHistory { asked : option gostr; askedAt : option Z; answered : bool; removed : bool }.
Definition no_history : promptHistory_ := MkHistory None None false false.

Section Histories.
Context (C : Codec) (R : Reader).

(** [resolutionOf]: answered and removed. *)
Definition resolutionOf (w promptID : gostr) : option (bool * bool) :=
  env ← envelope C w;
  if bool_decide (T env = TypeInteractiveEdit) then
    e ← edit_of R (D env);
    if bool_decide (e.1 = promptID) then Some (has_prefix check_mark e.2, false) else None
  else if bool_decide (T env = TypeInteractiveProgressEdit) then
    e ← progress_of R (D env);
    if bool_decide (e.1.1 = promptID) && e.2 then Some (negb (containsCancel e.1.2), false) else None
  else if bool_decide (T env = TypeInteractiveRemove) then
    q ← remove_of R (D env);
    if bool_decide (q = promptID) then Some (false, true) else None
  else None.

Definition promptNeedle (promptID : gostr) : gostr := [dq] ++ "promptId" ++ [dq] ++ ":" ++ [dq] ++ promptID ++ [dq].

(** The frames that mention the prompt, by number: the buffer's replace the store's. *)
Definition prompt_frames (t : option Tables) (b : convBinding) (promptID : gostr) : gmap Z (gostr * Z) :=
  let stored := match t with
                | Some t => (fun f => (f.1.1, (f.1.2, f.2))) <$> PromptFrames (convID b) (promptNeedle promptID) t
                | None => []
                end in
  let buffered := (fun f => (b_seq f, (b_wire f, UnixMilli (b_sent f))))
                    <$> filter (fun f => contains (promptNeedle promptID) (b_wire f) = true) (buffer b) in
  fold_left (fun m e => <[ e.1 := e.2 ]> m) (stored ++ buffered) ∅.

Definition num_le (a b : Z * (gostr * Z)) : Prop := a.1 <= b.1.
#[export] Instance num_le_dec : RelDecision num_le := fun a b => Z_le_dec a.1 b.1.

Definition in_order (m : gmap Z (gostr * Z)) : list (Z * (gostr * Z)) := merge_sort num_le (map_to_list m).

Definition history_step (promptID : gostr) (ph : promptHistory_) (f : Z * (gostr * Z)) : promptHistory_ :=
  match envelope C f.2.1 with
  | None => ph
  | Some env =>
      if bool_decide (T env = TypeInteractive) then
        match asked ph with
        | Some _ => ph
        | None => if bool_decide (ask_of R (D env) = Some promptID)
                  then MkHistory (Some (D env)) (Some f.2.2) (answered ph) (removed ph) else ph
        end
      else match resolutionOf f.2.1 promptID with
           | Some (a, r) => MkHistory (asked ph) (askedAt ph) a r
           | None => ph
           end
  end.

Definition promptHistory (t : option Tables) (b : convBinding) (promptID : gostr) : promptHistory_ :=
  fold_left (history_step promptID) (in_order (prompt_frames t b promptID)) no_history.

(** The first resolution of a list of wires. *)
Fixpoint first_resolution (promptID : gostr) (ws : list gostr) : option (bool * bool) :=
  match ws with
  | [] => None
  | w :: ws => match resolutionOf w promptID with Some r => Some r | None => first_resolution promptID ws end
  end.

Definition lastResolution (t : option Tables) (b : convBinding) (promptID : gostr) : promptHistory_ :=
  let recent := filter (fun w => contains (promptNeedle promptID) w = true) (b_wire <$> rev (buffer b)) in
  match first_resolution promptID recent with
  | Some (a, r) => MkHistory None None a r
  | None =>
      let stored := match t with
                    | Some t => (fun f => f.1.2) <$> rev (PromptFrames (convID b) (promptNeedle promptID) t)
                    | None => []
                    end in
      match first_resolution promptID stored with
      | Some (a, r) => MkHistory None None a r
      | None => no_history
      end
  end.

(** [resolveDeadPrompt]: nothing for a recorded answer; else the prompt is
    deleted, removed from the app unless it was, and the answer handed on. *)
Record dead_end := MkDeadEnd { delete_prompt : bool; send_remove : bool; late_answer : option (list gostr) }.

Definition resolveDeadPrompt (routed : bool) (ph : promptHistory_) (raw : option (list gostr)) : dead_end :=
  if answered ph then MkDeadEnd false false None
  else MkDeadEnd true (negb (removed ph)) (if routed then raw else None).
End Histories.

(** ** Clicks *)

(** The labels of a prompt's buttons without the trailing Cancel. *)
Definition singleOptions (choices : list gostr) : list gostr :=
  match newest choices with
  | Some l => if bool_decide (l = ("Cancel" : gostr)) then take (length choices - 1) choices else choices
  | None => choices
  end.

(** [choices] is [None] when the ask is not known any more. *)
Definition singleRawAnswer (choices : option (list gostr)) (data : gostr) : option gostr :=
  cut ← last_index_byte ":"%char data;
  let '(idx, ok) := ParseInt (drop (S cut) data) in
  if negb ok || (idx <? 0) then None
  else match choices with
       | Some l => if (Z.of_nat (length (singleOptions l)) <=? idx) && (idx <? Z.of_nat (length l))
                   then Some CancelData else Some (OptionData idx)
       | None => Some (OptionData idx)
       end.

(** ** Forms answered as a whole *)
Record batchPrompt := MkBatch { answers : list gostr; created : Time }.
Record batchClosure := MkClosure { cl_answered : bool; cl_removed : bool }.
Record batches := MkBatches { batchPrompts : gmap gostr batchPrompt; closedBatch : gmap gostr batchClosure }.

Definition registerBatchPrompt (promptID : gostr) (questionCount : nat) (now : Time) (h : batches) : batches :=
  MkBatches (<[ promptID := MkBatch (replicate questionCount []) now ]> (batchPrompts h)) (closedBatch h).

(** The merge of the answers a submit carries. *)
Fixpoint merge_answers (incoming have : list gostr) : list gostr :=
  match incoming, have with
  | a :: incoming, x :: have => (if bool_decide (a = []) then x else a) :: merge_answers incoming have
  | _, _ => have
  end.

Definition claimBatchPrompt (promptID : gostr) (incoming : list gostr) (h : batches) : option (list gostr) * batches :=
  match batchPrompts h !! promptID with
  | None => (None, h)
  | Some bp =>
      let final := merge_answers incoming (answers bp) in
      (Some final, MkBatches (delete promptID (batchPrompts h))
                     (<[ promptID := MkClosure (negb (containsCancel final)) false ]> (closedBatch h)))
  end.

(** One answered question. *)
Definition handleInteractiveProgress (promptID : gostr) (i : Z) (a : gostr) (h : batches) : option (list gostr) * batches :=
  match batchPrompts h !! promptID with
  | None => (None, h)
  | Some bp =>
      if (i <? 0) || (Z.of_nat (length (answers bp)) <=? i) then (None, h)
      else
        let l := <[ Z.to_nat i := a ]> (answers bp) in
        (Some l, MkBatches (<[ promptID := MkBatch l (created bp) ]> (batchPrompts h)) (closedBatch h))
  end.

(** The expiry sweep: what it claims. *)
Definition expireBatchPrompts (cutoff : Time) (h : batches) : list gostr * batches :=
  let due := filter (fun kb => Before (created kb.2) cutoff = true) (batchPrompts h) in
  ((map_to_list due).*1,
   MkBatches (batchPrompts h ∖ due) (((fun _ => MkClosure false true) <$> due) ∪ closedBatch h)).

Definition forgetBatchClosure (promptID : gostr) (h : batches) : batches :=
  MkBatches (batchPrompts h) (delete promptID (closedBatch h)).
Definition batchClosed (promptID : gostr) (h : batches) : option batchClosure := closedBatch h !! promptID.

(** ** The two readings of a prompt's history agree *)
Lemma fold_insert_lookup {V} (l : list (Z * V)) (m : gmap Z V) k v : NoDup l.*1 ->
  fold_left (fun m e => <[ e.1 := e.2 ]> m) l m !! k = Some v <-> (k, v) ∈ l \/ ((k ∉ l.*1) /\ m !! k = Some v).
Proof.
  revert m. induction l as [|[k' v'] l IH]; intros m Hd.
  { cbn. split; [intros H; right; split; [apply not_elem_of_nil|done]|intros [?%elem_of_nil|[_ ?]]; done]. }
  rewrite fmap_cons, NoDup_cons in Hd. destruct Hd as [Hk Hd]. cbn [fold_left fst snd].
  rewrite (IH _ Hd), lookup_insert_Some, elem_of_cons, fmap_cons, not_elem_of_cons. cbn [fst]. split.
  - intros [?|[? [[-> ->]|[? ?]]]]; [tauto|left; by left|right; split; [split; [congruence|done]|done]].
  - intros [[[= -> ->]|?]|[[? ?] ?]]; [right; split; [done|by left]|by left|right; split; [done|right; split; [congruence|done]]].
Qed.

Lemma list_fmap_rev {A B} (f : A -> B) l : f <$> rev l = rev (f <$> l).
Proof. induction l as [|a l IH]; [done|]. cbn [rev fmap list_fmap]. by rewrite fmap_app, IH. Qed.

Section Agree.
Context (C : Codec) (R : Reader) (promptID : gostr).

Definition num_lt3 (a b : Z * (gostr * Z)) : Prop := a.1 < b.1.

Lemma in_order_sorted m : StronglySorted num_lt3 (in_order m).
Proof.
  assert (Hd : NoDup (in_order m).*1) by (unfold in_order; rewrite merge_sort_Permutation; apply NoDup_fst_map_to_list).
  assert (Hs : StronglySorted num_le (in_order m)).
  { apply Sorted_StronglySorted; [intros ??? ??; unfold num_le in *; lia|]. unfold in_order. apply Sorted_merge_sort.
    intros a b. unfold num_le. lia. }
  induction Hs as [|a l Hl IH Ha]; [constructor|]. rewrite fmap_cons, NoDup_cons in Hd. destruct Hd as [Hn Hd].
  constructor; [by apply IH|]. rewrite Forall_forall in *. intros b Hb. specialize (Ha b Hb). unfold num_le, num_lt3 in *.
  assert (a.1 <> b.1); [|lia]. intros E. apply Hn. rewrite E. by apply list_elem_of_fmap_2.
Qed.

Lemma elem_of_in_order m k v : (k, v) ∈ in_order m <-> m !! k = Some v.
Proof. unfold in_order. rewrite merge_sort_Permutation. apply elem_of_map_to_list. Qed.

Lemma first_resolution_app l k : first_resolution C R promptID (l ++ k)
  = match first_resolution C R promptID l with Some r => Some r | None => first_resolution C R promptID k end.
Proof. induction l as [|w l IH]; [done|]. cbn [first_resolution app]. by destruct (resolutionOf C R w promptID). Qed.

Lemma first_resolution_None l : first_resolution C R promptID l = None <-> forall w, w ∈ l -> resolutionOf C R w promptID = None.
Proof.
  induction l as [|w l IH]; cbn [first_resolution]; [split; [intros _ w ?%elem_of_nil; done|done]|].
  setoid_rewrite elem_of_cons. destruct (resolutionOf C R w promptID) eqn:E; [|naive_solver].
  split; [done|]. intros H. rewrite <- E. apply H. by left.
Qed.

Lemma history_fold l ph : let ph' := fold_left (history_step C R promptID) l ph in
  (answered ph', removed ph')
  = default (answered ph, removed ph) (first_resolution C R promptID (rev ((fun f : Z * (gostr * Z) => f.2.1) <$> l))).
Proof.
  cbv zeta. induction l as [|f l IH] using rev_ind; [done|].
  rewrite fold_left_app, fmap_app, rev_app_distr. cbn [fold_left fmap list_fmap rev app first_resolution].
  set (q := fold_left _ l ph) in *. unfold history_step.
  destruct (envelope C f.2.1) as [env|] eqn:Ee.
  2: { replace (resolutionOf C R f.2.1 promptID) with (@None (bool * bool)); [exact IH|]. unfold resolutionOf. by rewrite Ee. }
  case_bool_decide as Et.
  - replace (resolutionOf C R f.2.1 promptID) with (@None (bool * bool)).
    + rewrite <- IH. destruct (asked q); [done|]. by case_bool_decide.
    + unfold resolutionOf. rewrite Ee. cbn. by rewrite Et.
  - destruct (resolutionOf C R f.2.1 promptID) as [[a r]|]; [done|exact IH].
Qed.

Lemma first_resolution_filter {A} (g : A -> gostr) (Q : A -> Prop) `{forall x, Decision (Q x)} (l : list A) :
  (forall x, x ∈ l -> ~ Q x -> resolutionOf C R (g x) promptID = None) ->
  first_resolution C R promptID (rev (g <$> l)) = first_resolution C R promptID (rev (g <$> filter Q l)).
Proof.
  intros Hn. induction l as [|x l IH] using rev_ind; [done|].
  rewrite filter_app, !fmap_app, !rev_app_distr, !first_resolution_app, filter_cons, filter_nil. cbn [fmap list_fmap rev app first_resolution].
  destruct (decide (Q x)) as [Hq|Hq].
  - cbn [fmap list_fmap rev app first_resolution]. destruct (resolutionOf C R (g x) promptID); [done|].
    apply IH. intros y Hy. apply Hn. apply elem_of_app. by left.
  - rewrite (Hn x) by (done || (apply elem_of_app; right; by left)). cbn. apply IH. intros y Hy. apply Hn. apply elem_of_app. by left.
Qed.
End Agree.

Section Reachable.
Context (C : Codec) (R : Reader) (payload : ServerFrame -> option gostr) (capsOf : nat -> gset gostr).

Definition from_stored (t : Tables) (b : convBinding) (p : gostr) : list (Z * (gostr * Z)) :=
  (fun f => (f.1.1, (f.1.2, f.2))) <$> PromptFrames (convID b) (promptNeedle p) t.
Definition from_memory (b : convBinding) (p : gostr) : list (Z * (gostr * Z)) :=
  (fun f => (b_seq f, (b_wire f, UnixMilli (b_sent f)))) <$> filter (fun f => contains (promptNeedle p) (b_wire f) = true) (buffer b).

Lemma elem_of_from_stored t b p k w ms : (k, (w, ms)) ∈ from_stored t b p
  <-> contains (promptNeedle p) w = true /\ exists f, app_frames t !! (convID b, k) = Some f /\ wire f = w /\ sent_ms f = ms.
Proof.
  unfold from_stored, PromptFrames. rewrite <- list_fmap_compose, list_elem_of_fmap. cbn. split.
  - intros ([k' f] & [= -> -> ->] & [Hc Hf]%list_elem_of_filter). cbn in *. apply elem_of_conv_frames in Hf. eauto.
  - intros (Hc & f & Hf & <- & <-). exists (k, f). split; [done|]. apply list_elem_of_filter. split; [done|].
    by apply elem_of_conv_frames.
Qed.

Lemma from_stored_sorted t b p : StronglySorted num_lt3 (from_stored t b p).
Proof.
  unfold from_stored, PromptFrames. rewrite <- list_fmap_compose.
  apply (sorted_fmap seq_lt); [done|]. apply sorted_filter, conv_frames_sorted.
Qed.

Lemma sorted_keys_NoDup (l : list (Z * (gostr * Z))) : StronglySorted num_lt3 l -> NoDup l.*1.
Proof.
  induction 1 as [|a l Hl IH Ha]; [constructor|]. rewrite fmap_cons, NoDup_cons. split; [|done].
  rewrite Forall_forall in Ha. intros (b & E & Hb)%list_elem_of_fmap. specialize (Ha b Hb). unfold num_lt3 in Ha. lia.
Qed.

(** The frames of a prompt in order: those only the store has, then the buffer's. *)
Lemma prompt_frames_in_order x p : stream_ok x ->
  in_order (prompt_frames (Some (tables (ss x))) (sb x) p)
  = filter (fun f => f.1 ∉ (from_memory (sb x) p).*1) (from_stored (tables (ss x)) (sb x) p) ++ from_memory (sb x) p
  /\ forall k w ms, (k, (w, ms)) ∈ from_stored (tables (ss x)) (sb x) p ->
      k ∈ (from_memory (sb x) p).*1 -> exists ms', (k, (w, ms')) ∈ from_memory (sb x) p.
Proof.
  intros Hok. pose proof (entries_sorted x Hok) as Hsort. pose proof Hok as [H1 _ [pre Hpre] _ _ H6 _].
  rewrite Hpre in Hsort. apply StronglySorted_app in Hsort as (Hlt & _ & Hsb).
  set (S := from_stored _ _ _). set (B := from_memory _ _).
  assert (HB : forall k w ms, (k, (w, ms)) ∈ B -> contains (promptNeedle p) w = true /\ (k, w) ∈ buffered <$> buffer (sb x)).
  { intros k w ms (f & [= -> -> ->] & [Hc Hf]%list_elem_of_filter)%list_elem_of_fmap. split; [done|].
    apply list_elem_of_fmap. by exists f. }
  assert (HS : forall k w ms, (k, (w, ms)) ∈ S -> contains (promptNeedle p) w = true /\ (k, w) ∈ pre ++ (buffered <$> buffer (sb x))).
  { intros k w ms (Hc & f & Hf & <- & _)%elem_of_from_stored. split; [done|]. rewrite <- Hpre.
    destruct (H6 k f Hf) as (v & Hv & <- & <-). apply list_elem_of_fmap. by exists v. }
  assert (Hmem : forall k w, contains (promptNeedle p) w = true -> (k, w) ∈ buffered <$> buffer (sb x) -> exists ms, (k, (w, ms)) ∈ B).
  { intros k w Hc (f & [= -> ->] & Hf)%list_elem_of_fmap. exists (UnixMilli (b_sent f)). apply list_elem_of_fmap. exists f.
    split; [done|]. by apply list_elem_of_filter. }
  assert (HBs : StronglySorted num_lt3 B).
  { unfold B, from_memory. assert (Hb : StronglySorted (fun f g => b_seq f < b_seq g) (buffer (sb x))).
    { clear -Hsb. induction (buffer (sb x)) as [|f l IH]; [constructor|]. rewrite fmap_cons in Hsb.
      apply StronglySorted_inv in Hsb as [Hl Hf]. constructor; [by apply IH|]. rewrite Forall_forall. rewrite Forall_forall in Hf.
      intros g Hg. apply (Hf (buffered g)). by apply list_elem_of_fmap_2. }
    apply (sorted_fmap (fun f g => b_seq f < b_seq g)); [done|]. by apply sorted_filter. }
  assert (Hold : forall k w ms, (k, (w, ms)) ∈ S -> k ∉ B.*1 -> (k, w) ∈ pre).
  { intros k w ms Hin Hk. destruct (HS _ _ _ Hin) as [Hc [?|Hb]%elem_of_app]; [done|]. destruct Hk.
    destruct (Hmem k w Hc Hb) as [ms' ?]. apply list_elem_of_fmap. by exists (k, (w, ms')). }
  split.
  - apply (sorted_unique num_lt3); [unfold num_lt3; lia|apply in_order_sorted| |].
    + apply StronglySorted_app. split_and!; [|by apply sorted_filter, from_stored_sorted|done].
      intros [k [w ms]] [k' [w' ms']] [Hk Hin]%list_elem_of_filter Hb. cbn in Hk.
      assert (Hx := Hlt (k, w) (k', w') (Hold _ _ _ Hin Hk) (proj2 (HB _ _ _ Hb))). exact Hx.
    + intros [k v]. rewrite elem_of_in_order. unfold prompt_frames. fold (from_stored (tables (ss x)) (sb x) p) S.
      fold (from_memory (sb x) p) B. rewrite fold_left_app, fold_insert_lookup by (by apply sorted_keys_NoDup).
      rewrite fold_insert_lookup by (apply sorted_keys_NoDup, from_stored_sorted).
      rewrite elem_of_app, list_elem_of_filter, lookup_empty. cbn. naive_solver.
  - intros k w ms Hin ([k' [w' ms']] & -> & Hb)%list_elem_of_fmap. cbn in *. exists ms'.
    destruct (HS _ _ _ Hin) as [_ Hx]. rewrite <- Hpre in Hx. destruct (HB _ _ _ Hb) as [_ Hy].
    assert (Hy' : (k', w') ∈ entry <$> sent x) by (rewrite Hpre; apply elem_of_app; by right).
    apply list_elem_of_fmap in Hx as (v & [= -> ->] & Hv). apply list_elem_of_fmap in Hy' as (u & [= E ->] & Hu).
    assert (v = u) as -> by exact (sorted_seq_inj (sent x) v u H1 Hv Hu E). exact Hb.
Qed.

(** In every reachable state the short reading of a prompt, newest frames
    first and the store only when the buffer is silent, gives the resolution
    that reading the whole history in order gives. *)
Theorem last_resolution_agrees (x : stream) (promptID : gostr) : reachable C payload capsOf x ->
  let ph := promptHistory C R (Some (tables (ss x))) (sb x) promptID in
  let lr := lastResolution C R (Some (tables (ss x))) (sb x) promptID in
  (answered ph, removed ph) = (answered lr, removed lr).
Proof.
  intros Hok%reachable_ok. cbv zeta. unfold promptHistory. rewrite (history_fold C R promptID). cbn [answered removed no_history].
  destruct (prompt_frames_in_order x promptID Hok) as [-> Hsame].
  rewrite fmap_app, rev_app_distr, first_resolution_app.
  assert (Hrecent : filter (fun w => contains (promptNeedle promptID) w = true) (b_wire <$> rev (buffer (sb x)))
    = rev ((fun f : Z * (gostr * Z) => f.2.1) <$> from_memory (sb x) promptID)).
  { unfold from_memory. rewrite <- list_fmap_compose. induction (buffer (sb x)) as [|f l IH]; [done|].
    cbn [rev]. rewrite fmap_app, filter_app, IH. cbn [fmap list_fmap]. rewrite !filter_cons, filter_nil.
    destruct (decide (contains (promptNeedle promptID) (b_wire f) = true)); [by rewrite fmap_cons|by rewrite app_nil_r]. }
  unfold lastResolution. rewrite Hrecent.
  destruct (first_resolution C R promptID (rev ((fun f : Z * (gostr * Z) => f.2.1) <$> from_memory (sb x) promptID))) as [[a r]|] eqn:Eb; [done|].
  rewrite <- (first_resolution_filter C R promptID (fun f : Z * (gostr * Z) => f.2.1)
    (fun f => f.1 ∉ (from_memory (sb x) promptID).*1) (from_stored (tables (ss x)) (sb x) promptID)).
  - replace ((fun f : Z * gostr * Z => f.1.2) <$> rev (PromptFrames (convID (sb x)) (promptNeedle promptID) (tables (ss x))))
      with (rev ((fun f : Z * (gostr * Z) => f.2.1) <$> from_stored (tables (ss x)) (sb x) promptID)).
    + match goal with |- context [first_resolution ?c ?r ?p ?l] => destruct (first_resolution c r p l) as [[a0 r0]|] end; done.
    + unfold from_stored. rewrite <- list_fmap_compose, list_fmap_rev. done.
  - intros [k [w ms]] Hin Hk. cbn in *. apply dec_stable in Hk. destruct (Hsame k w ms Hin Hk) as [ms' Hm].
    rewrite first_resolution_None in Eb. apply Eb.
    apply list_elem_of_In, in_rev. rewrite rev_involutive. apply list_elem_of_In, list_elem_of_fmap. by exists (k, (w, ms')).
Qed.
End Reachable.

(** ** Clicks *)

Lemma FormatInt_no_colon n : ":"%char ∉ FormatInt n.
Proof.
  assert (H : forall fuel m, ":"%char ∉ format_digits fuel m []).
  { intros fuel m Hin. assert (Ha : Forall (fun c => c <> ":"%char) (format_digits fuel m [])).
    { apply format_digits_all; [|constructor]. intros d Hd E. pose proof (digit_value_digit d Hd) as Hv.
      by rewrite E in Hv. }
    rewrite Forall_forall in Ha. by apply Ha in Hin. }
  unfold FormatInt. destruct (n <? 0)%Z; [|apply H]. apply not_elem_of_cons. split; [done|apply H].
Qed.

(** A click on the i-th button of a prompt comes back as the i-th option,
    and on the trailing Cancel as a cancellation, whatever the prompt's id. *)
Theorem click_roundtrip (promptID : gostr) (choices : list gostr) (i : Z) :
  0 <= i < Z.of_nat (length choices) -> int64 i ->
  singleRawAnswer (Some choices) (promptID ++ ":" ++ FormatInt i)
  = Some (if bool_decide (i = Z.of_nat (length choices) - 1 /\ newest choices = Some ("Cancel" : gostr))
          then CancelData else OptionData i).
Proof.
  intros Hi Hw. unfold singleRawAnswer. cbn [app].
  rewrite last_index_byte_app by apply FormatInt_no_colon. cbn [mbind option_bind].
  replace (drop (S (length promptID)) (promptID ++ ":"%char :: FormatInt i)) with (FormatInt i)
    by (rewrite drop_app_ge by lia; by replace (S (length promptID) - length promptID)%nat with 1%nat by lia).
  rewrite ParseInt_FormatInt by done. cbn [negb orb]. destruct (Z.ltb_spec i 0); [lia|]. f_equal.
  unfold singleOptions. destruct (newest choices) as [l|] eqn:En; [case_bool_decide as El|].
  - subst l. rewrite length_take. destruct (Z.leb_spec (Z.of_nat ((length choices - 1) `min` length choices)) i),
      (Z.ltb_spec i (Z.of_nat (length choices))); cbn [andb]; case_bool_decide; try done; naive_solver lia.
  - destruct (Z.leb_spec (Z.of_nat (length choices)) i); cbn [andb]; [lia|]. rewrite bool_decide_false; [done|naive_solver].
  - destruct (Z.leb_spec (Z.of_nat (length choices)) i); cbn [andb]; [lia|]. rewrite bool_decide_false; [done|naive_solver].
Qed.

(** ** Claims *)
Inductive batch_op :=
| BRegister (p : gostr) (n : nat) (now : Time)
| BProgress (p : gostr) (i : Z) (a : gostr)
| BClaim (p : gostr) (incoming : list gostr)
| BExpire (cutoff : Time)
| BForget (p : gostr).

(** The prompts an operation resolves, and the registry after it. *)
Definition do_batch (o : batch_op) (h : batches) : list gostr * batches :=
  match o with
  | BRegister p n now => ([], registerBatchPrompt p n now h)
  | BProgress p i a => ([], (handleInteractiveProgress p i a h).2)
  | BClaim p incoming => let '(r, h) := claimBatchPrompt p incoming h in (match r with Some _ => [p] | None => [] end, h)
  | BExpire cutoff => expireBatchPrompts cutoff h
  | BForget p => ([], forgetBatchClosure p h)
  end.

Fixpoint run_batch (os : list batch_op) (h : batches) : list gostr * batches :=
  match os with
  | [] => ([], h)
  | o :: os => let '(r, h) := do_batch o h in let '(rs, h) := run_batch os h in (r ++ rs, h)
  end.

Definition registered (p : gostr) (h : batches) : nat := match batchPrompts h !! p with Some _ => 1 | None => 0 end.
Definition times (p : gostr) (l : list gostr) : nat := length (filter (fun q => q = p) l).
Definition registrations (p : gostr) (os : list batch_op) : list gostr :=
  omap (fun o => match o with BRegister q _ _ => Some q | _ => None end) os.

Lemma times_app p l k : times p (l ++ k) = (times p l + times p k)%nat.
Proof. unfold times. by rewrite filter_app, length_app. Qed.

Lemma times_one p q : times p [q] = if decide (q = p) then 1%nat else 0%nat.
Proof. unfold times. rewrite filter_cons, filter_nil. by destruct (decide (q = p)). Qed.

Lemma times_NoDup p l : NoDup l -> times p l = if decide (p ∈ l) then 1%nat else 0%nat.
Proof.
  unfold times. induction 1 as [|q l Hq Hl IH]; [by rewrite decide_False by apply not_elem_of_nil|].
  rewrite filter_cons. destruct (decide (q = p)) as [->|Hne]; cbn [length]; rewrite IH.
  - by rewrite decide_False, decide_True by set_solver.
  - apply decide_ext. set_solver.
Qed.

Lemma do_batch_count p o h : let '(r, h') := do_batch o h in
  (times p r + registered p h' <= registered p h + times p (registrations p [o]))%nat.
Proof.
  assert (H0 : times p [] = 0%nat) by done.
  destruct o as [q n now|q i a|q incoming|cutoff|q]; cbn [do_batch registrations omap list_omap]; rewrite ?H0, ?times_one.
  - unfold registered, registerBatchPrompt. cbn [batchPrompts].
    destruct (decide (q = p)) as [->|Hne]; [rewrite lookup_insert_eq; destruct (batchPrompts h !! p); lia|].
    rewrite lookup_insert_ne by done. lia.
  - unfold handleInteractiveProgress, registered. destruct (batchPrompts h !! q) as [bp|] eqn:E; cbn [snd]; [|lia].
    destruct (_ || _); cbn [snd batchPrompts]; [lia|].
    destruct (decide (q = p)) as [->|Hne]; [rewrite lookup_insert_eq, E; lia|]. rewrite lookup_insert_ne by done. lia.
  - unfold claimBatchPrompt, registered. destruct (batchPrompts h !! q) as [bp|] eqn:E; rewrite ?H0, ?times_one; [|lia].
    cbn [batchPrompts]. destruct (decide (q = p)) as [->|Hne]; [rewrite lookup_delete_eq, E; lia|].
    rewrite lookup_delete_ne by done. lia.
  - unfold expireBatchPrompts. rewrite times_NoDup by apply NoDup_fst_map_to_list. unfold registered. cbn [batchPrompts].
    set (due := filter _ (batchPrompts h)). destruct (decide (p ∈ (map_to_list due).*1)) as [Hin|Hin].
    + apply list_elem_of_fmap in Hin as ([q bp] & -> & Hq%elem_of_map_to_list). cbn [fst].
      assert (Hb : batchPrompts h !! q = Some bp) by (apply map_lookup_filter_Some in Hq; naive_solver).
      rewrite Hb. assert ((batchPrompts h ∖ due) !! q = None) as -> by (apply lookup_difference_None; right; by exists bp). lia.
    + destruct ((batchPrompts h ∖ due) !! p) as [bp|] eqn:E; [|lia]. apply lookup_difference_Some in E as [-> _]. lia.
  - unfold forgetBatchClosure, registered. cbn [batchPrompts]. lia.
Qed.

(** A form is resolved at most once for each time it is registered, by one
    submit or by the expiry sweep, whatever devices submit, part-answer or wait. *)
Theorem batch_resolved_once (os : list batch_op) (h : batches) (p : gostr) :
  let '(resolved, h') := run_batch os h in
  (times p resolved + registered p h' <= registered p h + times p (registrations p os))%nat.
Proof.
  revert h. induction os as [|o os IH]; intros h; cbn [run_batch]; [cbn; lia|].
  pose proof (do_batch_count p o h) as Ho. destruct (do_batch o h) as [r h1]. specialize (IH h1).
  destruct (run_batch os h1) as [rs h2]. rewrite times_app.
  change (o :: os) with ([o] ++ os). unfold registrations in *. rewrite omap_app, times_app. lia.
Qed.

(** ** Witnesses *)
Definition demo_reader : Reader := MkReader (fun _ => Some "p") (fun _ => None) (fun _ => None) (fun _ => None).

Lemma last_resolution_agrees_witness :
  let ph := promptHistory AppStream.demo_codec demo_reader (Some (tables (ss demo_stream))) (sb demo_stream) "p" in
  let lr := lastResolution AppStream.demo_codec demo_reader (Some (tables (ss demo_stream))) (sb demo_stream) "p" in
  (answered ph, removed ph) = (answered lr, removed lr).
Proof.
  apply (last_resolution_agrees AppStream.demo_codec demo_reader demo_payload (fun _ => ∅) demo_stream "p"), demo_reachable.
Defined.

Lemma click_roundtrip_witness :
  singleRawAnswer (Some ["Yes"; "No"; "Cancel"]) ("ask:1" ++ ":" ++ FormatInt 2)
  = Some (if bool_decide (2 = Z.of_nat (length (["Yes"; "No"; "Cancel"] : list gostr)) - 1
                          /\ newest (["Yes"; "No"; "Cancel"] : list gostr) = Some ("Cancel" : gostr)) then CancelData else OptionData 2).
Proof. apply (click_roundtrip "ask:1" ["Yes"; "No"; "Cancel"] 2); [cbn; lia|split; vm_compute; discriminate]. Defined.
