(* ===== verification/TurnLimit.v ===== *)
(** * The turn limit ([internal/agent/turn_limit.go])

    [TurnLimiter], the counting semaphore that caps how many user turns run at
    once, as the critical sections of its mutex run by any number of goroutines.
    A grant channel is known by the order in which the waiters registered.  A
    caller whose context ends may leave the queue, or find that a slot was
    handed to it meanwhile and hand it back. *)
From S2P Require Import Prelude.
From stdpp Require Import fin_maps.
Local Open Scope gostr_scope.

(** ** The limiter *)
Record TurnLimiter := MkLimiter { limit : nat; held : nat; waiters : list nat }.

(** A nil limiter is [None]: no limit. *)
Definition NewTurnLimiter (n : Z) : option TurnLimiter :=
  if (n <=? 0)%Z then None else Some (MkLimiter (Z.to_nat n) 0 []).

Definition Size (l : option TurnLimiter) : nat := match l with Some l => limit l | None => 0 end.

Definition tryAcquireLocked (l : TurnLimiter) : bool * TurnLimiter :=
  if (held l <? limit l) && bool_decide (waiters l = []) then (true, MkLimiter (limit l) (S (held l)) (waiters l))
  else (false, l).

Definition TryAcquire (l : option TurnLimiter) : bool * option TurnLimiter :=
  match l with
  | None => (true, None)
  | Some l => let '(ok, l) := tryAcquireLocked l in (ok, Some l)
  end.

(** The first section of [Acquire]: the slot, or the grant channel [c] queued. *)
Definition acquire_section (c : nat) (l : TurnLimiter) : bool * TurnLimiter :=
  let '(ok, l) := tryAcquireLocked l in
  if ok then (true, l) else (false, MkLimiter (limit l) (held l) (waiters l ++ [c])).

Fixpoint remove_first (c : nat) (l : list nat) : list nat :=
  match l with
  | w :: l => if bool_decide (w = c) then l else w :: remove_first c l
  | [] => []
  end.

(** The section of a caller whose context ended: whether it was still queued. *)
Definition leave_section (c : nat) (l : TurnLimiter) : bool * TurnLimiter :=
  if bool_decide (c ∈ waiters l) then (true, MkLimiter (limit l) (held l) (remove_first c (waiters l)))
  else (false, l).

(** [Release]: the channel that is closed, if a waiter gets the slot. *)
Definition Release (l : TurnLimiter) : option nat * TurnLimiter :=
  match waiters l with
  | c :: ws => (Some c, MkLimiter (limit l) (held l) ws)
  | [] => (None, MkLimiter (limit l) (pred (held l)) [])
  end.

(** ** Goroutines *)

(** Waiting for the channel or the context; past the end of the context; found
    out of the queue; holding a slot. *)
Inductive pc :=
| Waiting (c : nat)
| Leaving (c : nat)
| HandingBack (c : nat)
| Owner.

Record state := MkState { lim : TurnLimiter; closed : gset nat; next : nat; procs : gmap nat pc }.

Definition init (n : nat) : state := MkState (MkLimiter n 0 []) ∅ 0 ∅.

Definition acquire (g : nat) (s : state) : state :=
  let '(ok, l) := acquire_section (next s) (lim s) in
  if ok then MkState l (closed s) (next s) (<[ g := Owner ]> (procs s))
  else MkState l (closed s) (S (next s)) (<[ g := Waiting (next s) ]> (procs s)).

Definition release (g : nat) (s : state) : state :=
  let '(c, l) := Release (lim s) in
  MkState l (match c with Some c => {[ c ]} ∪ closed s | None => closed s end) (next s) (delete g (procs s)).

Definition leave (g c : nat) (s : state) : state :=
  let '(found, l) := leave_section c (lim s) in
  MkState l (closed s) (next s) (if found then delete g (procs s) else <[ g := HandingBack c ]> (procs s)).

Inductive step : state -> state -> Prop :=
| step_try g s l : procs s !! g = None -> tryAcquireLocked (lim s) = (true, l) ->
    step s (MkState l (closed s) (next s) (<[ g := Owner ]> (procs s)))
| step_acquire g s : procs s !! g = None -> step s (acquire g s)
| step_granted g c s : procs s !! g = Some (Waiting c) -> c ∈ closed s ->
    step s (MkState (lim s) (closed s) (next s) (<[ g := Owner ]> (procs s)))
| step_cancelled g c s : procs s !! g = Some (Waiting c) ->
    step s (MkState (lim s) (closed s) (next s) (<[ g := Leaving c ]> (procs s)))
| step_leave g c s : procs s !! g = Some (Leaving c) -> step s (leave g c s)
| step_hand_back g c s : procs s !! g = Some (HandingBack c) ->
    step s (if bool_decide (c ∈ closed s) then release g s
            else MkState (lim s) (closed s) (next s) (delete g (procs s)))
| step_release g s : procs s !! g = Some Owner -> step s (release g s).

Definition reachable (n : nat) (s : state) : Prop := rtc step (init n) s.

(** ** Who has a slot *)

Definition channel (p : pc) : option nat :=
  match p with Waiting c | Leaving c | HandingBack c => Some c | Owner => None end.

(** A goroutine has a slot when it holds one or its channel is closed. *)
Definition has_slot (done : gset nat) (p : pc) : bool :=
  match channel p with Some c => bool_decide (c ∈ done) | None => true end.

Definition is_owner (p : pc) : bool := match p with Owner => true | _ => false end.
Definition in_queue (p : pc) : bool := match p with Waiting _ | Leaving _ => true | _ => false end.

Record inv (s : state) : Prop := {
  held_exact : held (lim s) = counted (has_slot (closed s)) (procs s);
  held_bounded : held (lim s) <= limit (lim s);
  saturated : waiters (lim s) <> [] -> held (lim s) = limit (lim s);
  ordered : StronglySorted lt (waiters (lim s));
  queued c : c ∈ waiters (lim s) <-> ((c ∉ closed s) /\ (exists g p, procs s !! g = Some p /\ channel p = Some c /\ in_queue p = true));
  own_channel g g' p p' c : procs s !! g = Some p -> procs s !! g' = Some p' ->
    channel p = Some c -> channel p' = Some c -> g = g';
  handing g c : procs s !! g = Some (HandingBack c) -> c ∈ closed s;
  numbered c : c ∈ closed s \/ (exists g p, procs s !! g = Some p /\ channel p = Some c) -> c < next s;
}.

(** ** The invariant is kept *)
Lemma remove_first_filter c l : NoDup l -> remove_first c l = filter (fun w => w <> c) l.
Proof.
  induction 1 as [|w l Hw Hl IH]; [done|]. cbn [remove_first]. rewrite filter_cons.
  case_bool_decide as E; [subst|by rewrite decide_True by done; f_equal].
  rewrite decide_False by auto. symmetry. apply filter_keeps. intros x Hx ->. done.
Qed.

Lemma sorted_nodup (l : list nat) : StronglySorted lt l -> NoDup l.
Proof.
  induction 1 as [|a l Hl IH Ha]; constructor; [|done]. intros Hin. rewrite Forall_forall in Ha.
  specialize (Ha a Hin). lia.
Qed.

Lemma sorted_snoc (l : list nat) c : StronglySorted lt l -> (forall w, w ∈ l -> w < c) -> StronglySorted lt (l ++ [c]).
Proof.
  induction 1 as [|a l Hl IH Ha]; intros Hc; cbn; [by repeat constructor|]. constructor.
  - apply IH. intros w Hw. apply Hc. by right.
  - rewrite Forall_forall in *. intros w [Hw| ->%list_elem_of_singleton]%elem_of_app; [by apply Ha|apply Hc; by left].
Qed.

(** A goroutine that keeps its slot, or has none before and after, changes only
    where it stands. *)
Lemma slot_move g p p' s : inv s -> procs s !! g = Some p -> has_slot (closed s) p' = has_slot (closed s) p ->
  (forall c, channel p' = Some c -> channel p = Some c) ->
  (forall c, channel p = Some c -> c ∉ closed s -> channel p' = Some c /\ in_queue p' = in_queue p) ->
  (forall c, p' = HandingBack c -> c ∈ closed s) ->
  inv (MkState (lim s) (closed s) (next s) (<[ g := p' ]> (procs s))).
Proof.
  intros [He Hb Hs Ho Hq Hc Hh Hn] Hg Hslot Hch Hopen Hhb. split; cbn [lim closed next procs]; try done.
  - pose proof (counted_replace (has_slot (closed s)) _ _ _ p' Hg) as H. rewrite Hslot in H. lia.
  - intros c. rewrite Hq. split; intros (Hcl & g' & q & Hq1 & Hq2 & Hq3); (split; [done|]).
    + destruct (decide (g' = g)) as [->|Hne].
      * simplify_eq. exists g, p'. rewrite lookup_insert_eq. destruct (Hopen c Hq2 Hcl) as [-> ->]. done.
      * exists g', q. by rewrite lookup_insert_ne.
    + destruct (decide (g' = g)) as [->|Hne].
      * rewrite lookup_insert_eq in Hq1. simplify_eq. exists g, p. specialize (Hch c Hq2).
        destruct (Hopen c Hch Hcl) as [_ Hi]. rewrite Hi in Hq3. done.
      * rewrite lookup_insert_ne in Hq1 by done. eauto.
  - intros g1 g2 p1 p2 c H1 H2 Hc1 Hc2. destruct (decide (g1 = g)) as [->|N1], (decide (g2 = g)) as [->|N2]; [done|..].
    + rewrite lookup_insert_eq in H1. rewrite lookup_insert_ne in H2 by done. simplify_eq. eauto.
    + rewrite lookup_insert_eq in H2. rewrite lookup_insert_ne in H1 by done. simplify_eq. eauto.
    + rewrite lookup_insert_ne in H1, H2 by done. eauto.
  - intros g' c. destruct (decide (g' = g)) as [->|Hne]; [rewrite lookup_insert_eq; intros [= ->]; by apply Hhb|].
    rewrite lookup_insert_ne by done. apply Hh.
  - intros c [Hcl|(g' & q & Hq1 & Hq2)]; [apply Hn; by left|]. apply Hn. right.
    destruct (decide (g' = g)) as [->|Hne]; [rewrite lookup_insert_eq in Hq1; simplify_eq; eauto|].
    rewrite lookup_insert_ne in Hq1 by done. eauto.
Qed.

Lemma inv_enter g p l s : inv s -> procs s !! g = None -> channel p = None ->
  tryAcquireLocked (lim s) = (true, l) -> inv (MkState l (closed s) (next s) (<[ g := p ]> (procs s))).
Proof.
  intros [He Hb Hs Ho Hq Hc Hh Hn] Hg Hp Ht. unfold tryAcquireLocked in Ht.
  destruct (Nat.ltb_spec (held (lim s)) (limit (lim s))) as [Hlt|]; [|by simplify_eq].
  case_bool_decide as Hw; cbn [andb] in Ht; [|by simplify_eq]. simplify_eq.
  assert (forall g' q c, <[ g := p ]> (procs s) !! g' = Some q -> channel q = Some c -> procs s !! g' = Some q) as Hold.
  { intros g' q c Hq1 Hq2. destruct (decide (g' = g)) as [->|]; [|by rewrite lookup_insert_ne in Hq1].
    rewrite lookup_insert_eq in Hq1. simplify_eq. }
  assert (forall g' q, procs s !! g' = Some q -> <[ g := p ]> (procs s) !! g' = Some q) as Hnew.
  { intros g' q H. rewrite lookup_insert_ne by congruence. done. }
  split; cbn [lim held limit waiters closed next procs]; rewrite ?Hw; try done.
  - rewrite counted_insert_new by done. unfold has_slot at 1. rewrite Hp. cbn. by rewrite He.
  - constructor.
  - intros c. specialize (Hq c). rewrite Hw in Hq. split; [by intros ?%not_elem_of_nil|].
    intros (Hcl & g' & q & Hq1 & Hq2 & Hq3). apply Hq. eauto 10.
  - intros g1 g2 p1 p2 c H1 H2 H3 H4. eapply Hc; eauto.
  - intros g' c H. eapply Hh, Hold; [done|done].
  - intros c [?|(g' & q & Hq1 & Hq2)]; apply Hn; [by left|right; eauto].
Qed.

Lemma inv_queue g s : inv s -> procs s !! g = None -> fst (tryAcquireLocked (lim s)) = false ->
  inv (MkState (MkLimiter (limit (lim s)) (held (lim s)) (waiters (lim s) ++ [next s])) (closed s) (S (next s))
         (<[ g := Waiting (next s) ]> (procs s))).
Proof.
  intros [He Hb Hs Ho Hq Hc Hh Hn] Hg Ht. unfold tryAcquireLocked in Ht.
  assert (next s ∉ closed s) as Hfresh by (intros H; specialize (Hn (next s) (or_introl H)); lia).
  assert (forall g' q c, procs s !! g' = Some q -> channel q = Some c -> c < next s) as Hlt by (intros; apply Hn; eauto).
  split; cbn [lim held limit waiters closed next procs]; try done.
  - rewrite counted_insert_new by done. unfold has_slot at 1. cbn. by rewrite bool_decide_eq_false_2.
  - intros _. destruct (Nat.ltb_spec (held (lim s)) (limit (lim s))); [|lia].
    case_bool_decide as Hw; cbn in Ht; [done|]. auto.
  - apply sorted_snoc; [done|]. intros w (_ & g' & q & H1 & H2 & _)%Hq. eauto.
  - intros c. rewrite elem_of_app, list_elem_of_singleton, Hq. split.
    + intros [(Hcl & g' & q & H1 & H2 & H3)| ->].
      * split; [done|]. exists g', q. rewrite lookup_insert_ne by congruence. done.
      * split; [done|]. exists g, (Waiting (next s)). by rewrite lookup_insert_eq.
    + intros (Hcl & g' & q & H1 & H2 & H3). destruct (decide (g' = g)) as [->|Hne].
      * rewrite lookup_insert_eq in H1. simplify_eq. cbn in H2. simplify_eq. by right.
      * rewrite lookup_insert_ne in H1 by done. left. eauto 10.
  - intros g1 g2 p1 p2 c H1 H2 H3 H4. destruct (decide (g1 = g)) as [->|], (decide (g2 = g)) as [->|]; [done|..].
    + rewrite lookup_insert_eq in H1. rewrite lookup_insert_ne in H2 by done. simplify_eq. cbn in H3. simplify_eq.
      specialize (Hlt _ _ _ H2 H4). lia.
    + rewrite lookup_insert_eq in H2. rewrite lookup_insert_ne in H1 by done. simplify_eq. cbn in H4. simplify_eq.
      specialize (Hlt _ _ _ H1 H3). lia.
    + rewrite lookup_insert_ne in H1, H2 by done. eauto.
  - intros g' c. destruct (decide (g' = g)) as [->|]; [by rewrite lookup_insert_eq|].
    rewrite lookup_insert_ne by done. apply Hh.
  - intros c [H|(g' & q & H1 & H2)]; [specialize (Hn c (or_introl H)); lia|].
    destruct (decide (g' = g)) as [->|]; [rewrite lookup_insert_eq in H1; simplify_eq; cbn in H2; simplify_eq; lia|].
    rewrite lookup_insert_ne in H1 by done. specialize (Hlt _ _ _ H1 H2). lia.
Qed.

(** A goroutine without a slot goes away. *)
Lemma inv_gone g c s : inv s -> procs s !! g = Some (Leaving c) -> c ∈ waiters (lim s) ->
  inv (MkState (MkLimiter (limit (lim s)) (held (lim s)) (remove_first c (waiters (lim s)))) (closed s) (next s)
         (delete g (procs s))).
Proof.
  intros [He Hb Hs Ho Hq Hc Hh Hn] Hg Hin. destruct (proj1 (Hq c) Hin) as [Hcl _].
  rewrite remove_first_filter by by apply sorted_nodup.
  split; cbn [lim held limit waiters closed next procs]; try done.
  - pose proof (counted_delete (has_slot (closed s)) _ _ _ Hg) as H. unfold has_slot at 1 in H. cbn in H.
    rewrite bool_decide_eq_false_2 in H by done. cbn in H. lia.
  - intros _. apply Hs. intros E. rewrite E in Hin. by apply not_elem_of_nil in Hin.
  - by apply sorted_filter.
  - intros d. rewrite list_elem_of_filter, Hq. split.
    + intros (Hne & Hd & g' & q & H1 & H2 & H3). split; [done|]. exists g', q.
      rewrite lookup_delete_ne; [done|]. intros ->. simplify_eq. cbn in H2. by simplify_eq.
    + intros (Hd & g' & q & H1 & H2 & H3). apply lookup_delete_Some in H1 as [Hne H1].
      split; [|eauto 10]. intros ->. apply Hne. by eapply Hc.
  - intros g1 g2 p1 p2 d H1 H2. apply lookup_delete_Some in H1 as [_ H1]. apply lookup_delete_Some in H2 as [_ H2]. eauto.
  - intros g' d [_ H]%lookup_delete_Some. eauto.
  - intros d [H|(g' & q & [_ H1]%lookup_delete_Some & H2)]; apply Hn; eauto.
Qed.

(** A slot given back goes to the head of the queue, or to the pool. *)
Lemma inv_release g p s : inv s -> procs s !! g = Some p -> has_slot (closed s) p = true -> inv (release g s).
Proof.
  intros [He Hb Hs Ho Hq Hc Hh Hn] Hg Hp. pose proof (counted_delete (has_slot (closed s)) _ _ _ Hg) as Hd.
  rewrite Hp in Hd. cbn [b2n] in Hd. unfold release, Release. destruct (waiters (lim s)) as [|c ws] eqn:Ew.
  { split; cbn [lim held limit waiters closed next procs]; [lia|lia|done|constructor|..].
    - intros d. split; [by intros ?%not_elem_of_nil|]. intros (Hcl & g' & q & [_ H1]%lookup_delete_Some & H2 & H3).
      apply Hq. eauto 10.
    - intros g1 g2 p1 p2 d H1 H2. apply lookup_delete_Some in H1 as [_ H1]. apply lookup_delete_Some in H2 as [_ H2]. eauto.
    - intros g' d [_ H]%lookup_delete_Some. eauto.
    - intros d [H|(g' & q & [_ H1]%lookup_delete_Some & H2)]; apply Hn; eauto. }
  destruct (proj1 (Hq c) (list_elem_of_here _ _)) as (Hcl & gc & pc & Hgc & Hpc & Hiq).
  assert (gc <> g) as Hne.
  { intros ->. simplify_eq. unfold has_slot in Hp. rewrite Hpc in Hp. by apply bool_decide_eq_true in Hp. }
  assert (delete g (procs s) !! gc = Some pc) as Hgc' by (by rewrite lookup_delete_ne).
  inversion Ho as [|? ? Hws Hc2]; subst. rewrite Forall_forall in Hc2.
  split; cbn [lim held limit waiters closed next procs].
  - pose proof (counted_delete (has_slot (closed s)) _ _ _ Hgc') as H1.
    pose proof (counted_delete (has_slot ({[c]} ∪ closed s)) _ _ _ Hgc') as H2.
    unfold has_slot at 1 in H1. unfold has_slot at 1 in H2. rewrite Hpc in H1, H2.
    rewrite bool_decide_eq_false_2 in H1 by done. rewrite bool_decide_eq_true_2 in H2 by set_solver. cbn [b2n] in H1, H2.
    rewrite (counted_ext (has_slot ({[c]} ∪ closed s)) (has_slot (closed s))) in H2; [lia|].
    intros g' q [Hn1 [Hn2 Hq1]%lookup_delete_Some]%lookup_delete_Some. unfold has_slot. destruct (channel q) as [d|] eqn:Ed; [|done].
    apply bool_decide_ext. rewrite elem_of_union, elem_of_singleton. split; [|by right].
    intros [->|]; [|done]. destruct Hn1. by eapply Hc.
  - done.
  - intros _. by apply Hs.
  - done.
  - intros d. split.
    + intros Hd2. destruct (proj1 (Hq d) (list_elem_of_further _ _ _ Hd2)) as (Hdc & g' & q & H1 & H2 & H3).
      specialize (Hc2 d Hd2). split; [set_unfold; intros [->|]; [lia|done]|]. exists g', q. split; [|done].
      rewrite lookup_delete_ne; [done|]. intros ->. simplify_eq. unfold has_slot in Hp. rewrite H2 in Hp.
      by apply bool_decide_eq_true in Hp.
    + intros (Hdc & g' & q & [_ H1]%lookup_delete_Some & H2 & H3).
      assert (d ∈ c :: ws) as [->|]%elem_of_cons; [apply Hq; split; [set_solver|eauto 10]|set_solver|done].
  - intros g1 g2 p1 p2 d H1 H2. apply lookup_delete_Some in H1 as [_ H1]. apply lookup_delete_Some in H2 as [_ H2]. eauto.
  - intros g' d [_ H]%lookup_delete_Some. specialize (Hh _ _ H). set_solver.
  - intros d [[->%elem_of_singleton|H]%elem_of_union|(g' & q & [_ H1]%lookup_delete_Some & H2)]; apply Hn; eauto.
Qed.

Lemma slots_step_inv s s' : inv s -> step s s' -> inv s'.
Proof.
  intros Hi Hs. destruct Hs as [g s l Hg Ht|g s Hg|g c s Hg Hc|g c s Hg|g c s Hg|g c s Hg|g s Hg].
  - by eapply inv_enter.
  - unfold acquire, acquire_section. destruct (tryAcquireLocked (lim s)) as [ok l] eqn:Et. destruct ok.
    + by eapply inv_enter.
    + assert (l = lim s) as -> by (unfold tryAcquireLocked in Et; case_match; by simplify_eq).
      apply inv_queue; [done|done|by rewrite Et].
  - eapply slot_move; [done|done|..]; cbn; [by rewrite bool_decide_eq_true_2|done|intros ? [= ->]; done|done].
  - eapply slot_move; [done|done|..]; cbn; naive_solver.
  - unfold leave, leave_section. case_bool_decide as Hw; [by apply inv_gone|].
    destruct (decide (c ∈ closed s)) as [Hcl|Hcl].
    + eapply (slot_move _ _ _ s); [done|done|..]; cbn; naive_solver.
    + destruct Hw. apply Hi. split; [done|]. by exists g, (Leaving c).
  - pose proof (handing s Hi _ _ Hg) as Hcl. rewrite bool_decide_eq_true_2 by done.
    eapply inv_release; [done|done|]. unfold has_slot. cbn. by apply bool_decide_eq_true_2.
  - by eapply inv_release.
Qed.

Lemma slots_inv n s : reachable n s -> inv s /\ limit (lim s) = n.
Proof.
  assert (forall s s', step s s' -> limit (lim s') = limit (lim s)) as Hlim.
  { intros t t' Ht. destruct Ht; unfold acquire, acquire_section, tryAcquireLocked, leave, leave_section, release, Release in *;
      repeat case_match; simplify_eq/=; done. }
  intros H. unfold reachable in H. remember (init n) as s0 eqn:E0.
  assert (inv s0 /\ limit (lim s0) = n) as H0.
  { subst s0. split; [|done]. split; cbn; try done; try lia; [constructor| |set_solver].
    intros c. split; [by intros ?%not_elem_of_nil|]. intros (_ & g & p & H1 & _). done. }
  clear E0. induction H as [s|s s1 s2 Hs Hr IH]; [done|]. apply IH. destruct H0 as [Hi Hl].
  split; [by eapply slots_step_inv|]. by rewrite (Hlim _ _ Hs).
Qed.

(** ** Theorems *)

(** C16: in every interleaving of callers, cancellations and releases at most
    [limit] goroutines hold a slot; and while anyone waits, exactly [limit]
    slots are with goroutines that hold one or were just handed one, so a waiter
    never sleeps on a free slot. *)
Theorem slots_exact n s (H : reachable n s) :
  counted is_owner (procs s) <= n
  /\ (forall g c, procs s !! g = Some (Waiting c) -> c ∉ closed s -> counted (has_slot (closed s)) (procs s) = n).
Proof.
  destruct (slots_inv n s H) as [Hi Hl]. split.
  - transitivity (counted (has_slot (closed s)) (procs s)).
    + apply counted_le. intros k [] _; cbn; done.
    + rewrite <- (held_exact s Hi), <- Hl. apply (held_bounded s Hi).
  - intros g c Hg Hc. rewrite <- (held_exact s Hi), <- Hl. apply (saturated s Hi). intros E.
    apply (not_elem_of_nil c). rewrite <- E. apply (queued s Hi). split; [done|]. by exists g, (Waiting c).
Qed.

(** A slot that is handed on goes to the waiter that registered first: when a
    channel is closed, every other waiter still queued registered later. *)
Theorem grants_first_come n s s' c (H : reachable n s) (Hs : step s s') (Hc : c ∈ closed s' /\ c ∉ closed s) :
  forall g d, procs s !! g = Some (Waiting d) -> d ∉ closed s -> c <= d.
Proof.
  destruct (slots_inv n s H) as [Hi _]. destruct Hc as [Hc Hn]. intros g d Hg Hd.
  assert (forall g', c ∈ closed (release g' s) -> c <= d) as Hr.
  { intros g'. unfold release, Release.
    assert (d ∈ waiters (lim s)) as Hdw by (apply (queued s Hi); split; [done|]; by exists g, (Waiting d)).
    pose proof (ordered s Hi) as Ho. destruct (waiters (lim s)) as [|w ws]; cbn [closed]; [done|].
    intros [->%elem_of_singleton|]%elem_of_union; [|done]. inversion Ho as [|? ? _ Hw]; subst.
    rewrite Forall_forall in Hw. apply elem_of_cons in Hdw as [->|Hdw]; [done|]. specialize (Hw d Hdw). lia. }
  destruct Hs; cbn [closed] in Hc; try done; try by eapply Hr.
  - unfold acquire, acquire_section in Hc. by repeat case_match.
  - unfold leave in Hc. by repeat case_match.
  - destruct (bool_decide (c0 ∈ closed s)); [by eapply Hr|done].
Qed.

(** One slot: goroutine 0 holds it, 1 and 2 wait. *)
Definition demo : state := acquire 2 (acquire 1 (acquire 0 (init 1))).

Lemma slots_demo_reachable : reachable 1 demo.
Proof.
  unfold demo. eapply rtc_r; [eapply rtc_r; [apply rtc_once|]|]; apply step_acquire; reflexivity.
Qed.

Lemma slots_exact_witness : reachable 1 demo /\ counted is_owner (procs demo) <= 1
  /\ (forall g c, procs demo !! g = Some (Waiting c) -> c ∉ closed demo -> counted (has_slot (closed demo)) (procs demo) = 1).
Proof. split; [exact slots_demo_reachable|]. exact (slots_exact 1 demo slots_demo_reachable). Defined.

Lemma grants_first_come_witness :
  0 ∈ closed (release 0 demo) /\ (forall g d, procs demo !! g = Some (Waiting d) -> d ∉ closed demo -> 0 <= d).
Proof.
  split; [by vm_compute; set_solver|].
  apply (grants_first_come 1 demo (release 0 demo) 0 slots_demo_reachable).
  - apply step_release. reflexivity.
  - split; vm_compute; set_solver.
Defined.

(** A nil limiter never makes anyone wait, and a limit that is not positive
    builds none. *)
Theorem no_limit n : (n <= 0)%Z -> NewTurnLimiter n = None /\ TryAcquire (NewTurnLimiter n) = (true, None) /\ Size (NewTurnLimiter n) = 0.
Proof. intros Hn. unfold NewTurnLimiter. destruct (Z.leb_spec n 0); [done|lia]. Qed.

Lemma no_limit_witness : NewTurnLimiter (-1) = None.
Proof. exact (proj1 (no_limit (-1) ltac:(lia))). Defined.
