(* ===== verification/InboxEvict.v ===== *)
(** * Idle eviction ([internal/agent/inbox_evict.go], turn locks of [agent.go])

    Two protocols by which per-session state is dropped while others use it:
    the turn mutexes, which eviction removes from their map, and the inboxes,
    which an [Enqueue] pins until it has written.  Each step is one critical
    section; mutexes and inboxes are heap objects known by an address. *)
From S2P Require Import Prelude.
From stdpp Require Import fin_maps.
Local Open Scope gostr_scope.

Abbreviation address := nat.

(** ** Turn locks *)
Module TurnLocks.

(** [lockTurn]: fetched from the map; locked, before the check; the check
    passed; the check failed, so that it unlocks and fetches again. *)
Inductive lock_pc :=
| Fetched (sk : gostr) (mu : address)
| Locked (sk : gostr) (mu : address)
| Holding (sk : gostr) (mu : address)
| Stale (sk : gostr) (mu : address).

Record lock_state := MkState { turnLocks : gmap gostr address; locked : gset address; next : address; procs : gmap nat lock_pc }.

Definition lock_init : lock_state := MkState ∅ ∅ 0 ∅.

(** [turnLock]. *)
Definition turnLock (sk : gostr) (s : lock_state) : address * lock_state :=
  match turnLocks s !! sk with
  | Some mu => (mu, s)
  | None => (next s, MkState (<[ sk := next s ]> (turnLocks s)) (locked s) (S (next s)) (procs s))
  end.

Definition fetch (g : nat) (sk : gostr) (s : lock_state) : lock_state :=
  let '(mu, s) := turnLock sk s in
  MkState (turnLocks s) (locked s) (next s) (<[ g := Fetched sk mu ]> (procs s)).

(** The check of [lockTurn] under [turnLocksMu]. *)
Definition check (sk : gostr) (mu : address) (s : lock_state) : lock_pc :=
  if bool_decide (turnLocks s !! sk = Some mu) then Holding sk mu else Stale sk mu.

(** [dropTurnLock]: [TryLock] fails on a held mutex. *)
Definition dropTurnLock (sk : gostr) (s : lock_state) : lock_state :=
  match turnLocks s !! sk with
  | Some mu => if bool_decide (mu ∈ locked s) then s
               else MkState (delete sk (turnLocks s)) (locked s) (next s) (procs s)
  | None => s
  end.

Definition set_lock_pc (g : nat) (p : lock_pc) (s : lock_state) : lock_state :=
  MkState (turnLocks s) (locked s) (next s) (<[ g := p ]> (procs s)).

Definition unlock (g : nat) (mu : address) (s : lock_state) : lock_state :=
  MkState (turnLocks s) (locked s ∖ {[ mu ]}) (next s) (delete g (procs s)).

Inductive lock_step : lock_state -> lock_state -> Prop :=
| step_fetch g sk s : procs s !! g = None -> lock_step s (fetch g sk s)
| step_lock g sk mu s : procs s !! g = Some (Fetched sk mu) -> mu ∉ locked s ->
    lock_step s (MkState (turnLocks s) ({[ mu ]} ∪ locked s) (next s) (<[ g := Locked sk mu ]> (procs s)))
| step_check g sk mu s : procs s !! g = Some (Locked sk mu) -> lock_step s (set_lock_pc g (check sk mu s) s)
| step_retry g sk mu s : procs s !! g = Some (Stale sk mu) -> lock_step s (unlock g mu s)
| step_unlock g sk mu s : procs s !! g = Some (Holding sk mu) -> lock_step s (unlock g mu s)
| step_drop sk s : lock_step s (dropTurnLock sk s).

Definition reachable (s : lock_state) : Prop := rtc lock_step lock_init s.

(** The mutex a goroutine has locked. *)
Definition locks (p : lock_pc) : option address :=
  match p with Fetched _ _ => None | Locked _ mu | Holding _ mu | Stale _ mu => Some mu end.

Record inv (s : lock_state) : Prop := {
  one_locker g g' p p' mu : procs s !! g = Some p -> procs s !! g' = Some p' ->
    locks p = Some mu -> locks p' = Some mu -> g = g';
  is_locked g p mu : procs s !! g = Some p -> locks p = Some mu -> mu ∈ locked s;
  current g sk mu : procs s !! g = Some (Holding sk mu) -> turnLocks s !! sk = Some mu;
}.

(** A goroutine that locks nothing new keeps the invariant. *)
Lemma inv_pc g p s ls : inv s -> (forall mu, locks p = Some mu -> exists q, procs s !! g = Some q /\ locks q = Some mu) ->
  (forall mu sk, p = Holding sk mu -> ls !! sk = Some mu) ->
  (forall g' sk mu, procs s !! g' = Some (Holding sk mu) -> g' <> g -> ls !! sk = Some mu) ->
  forall n, inv (MkState ls (locked s) n (<[ g := p ]> (procs s))).
Proof.
  intros [H1 H2 H3] Hp Hh Hls n. split; cbn [turnLocks locked procs].
  - intros g1 g2 p1 p2 mu E1 E2 L1 L2.
    destruct (decide (g1 = g)) as [->|], (decide (g2 = g)) as [->|]; [done|..].
    + rewrite lookup_insert_eq in E1. rewrite lookup_insert_ne in E2 by done. simplify_eq.
      destruct (Hp _ L1) as (q & Eq & Lq). eauto.
    + rewrite lookup_insert_eq in E2. rewrite lookup_insert_ne in E1 by done. simplify_eq.
      destruct (Hp _ L2) as (q & Eq & Lq). eauto.
    + rewrite lookup_insert_ne in E1, E2 by done. eauto.
  - intros g1 p1 mu. destruct (decide (g1 = g)) as [->|].
    + rewrite lookup_insert_eq. intros [= <-] L. destruct (Hp _ L) as (q & Eq & Lq). eauto.
    + rewrite lookup_insert_ne by done. eauto.
  - intros g1 sk mu. destruct (decide (g1 = g)) as [->|].
    + rewrite lookup_insert_eq. intros [= ->]. eauto.
    + rewrite lookup_insert_ne by done. eauto.
Qed.

Lemma fetch_inv g sk s : inv s -> (forall p, procs s !! g = Some p -> locks p = None) -> inv (fetch g sk s).
Proof.
  intros Hi Hg. unfold fetch, turnLock. destruct (turnLocks s !! sk) as [mu|] eqn:E; cbn [turnLocks locked next procs].
  - eapply inv_pc; [done|done|done|]. intros; by eapply current.
  - eapply inv_pc; [done|done|done|]. intros g' sk' mu Hg' _. rewrite lookup_insert_ne; [by eapply current|].
    intros <-. pose proof (current s Hi _ _ _ Hg') as Hc. congruence.
Qed.

Lemma unlock_inv g p mu s : inv s -> procs s !! g = Some p -> locks p = Some mu -> inv (unlock g mu s).
Proof.
  intros [H1 H2 H3] Hg Hp. split; cbn [unlock turnLocks locked procs].
  - intros g1 g2 p1 p2 mu' [_ E1]%lookup_delete_Some [_ E2]%lookup_delete_Some. eauto.
  - intros g1 p1 mu' [Hne E1]%lookup_delete_Some L. apply elem_of_difference. split; [eauto|].
    intros ->%elem_of_singleton. apply Hne. by eapply H1.
  - intros g1 sk mu' [_ E1]%lookup_delete_Some. eauto.
Qed.

Lemma turns_step_inv s s' : inv s -> lock_step s s' -> inv s'.
Proof.
  intros Hi Hs. destruct Hs as [g sk s Hg|g sk mu s Hg Hn|g sk mu s Hg|g sk mu s Hg|g sk mu s Hg|sk s].
  - apply fetch_inv; [done|]. intros p. by rewrite Hg.
  - destruct Hi as [H1 H2 H3]. split; cbn [turnLocks locked procs].
    + intros g1 g2 p1 p2 mu' E1 E2 L1 L2. destruct (decide (g1 = g)) as [->|], (decide (g2 = g)) as [->|]; [done|..].
      * rewrite lookup_insert_eq in E1. rewrite lookup_insert_ne in E2 by done. simplify_eq. cbn in L1. simplify_eq.
        destruct Hn. eauto.
      * rewrite lookup_insert_eq in E2. rewrite lookup_insert_ne in E1 by done. simplify_eq. cbn in L2. simplify_eq.
        destruct Hn. eauto.
      * rewrite lookup_insert_ne in E1, E2 by done. eauto.
    + intros g1 p1 mu'. destruct (decide (g1 = g)) as [->|].
      * rewrite lookup_insert_eq. intros [= <-] [= ->]. set_solver.
      * rewrite lookup_insert_ne by done. intros E L. specialize (H2 _ _ _ E L). set_solver.
    + intros g1 sk' mu'. destruct (decide (g1 = g)) as [->|]; [by rewrite lookup_insert_eq|].
      rewrite lookup_insert_ne by done. eauto.
  - unfold set_lock_pc. eapply inv_pc; [done|..].
    + intros mu' L. exists (Locked sk mu). split; [done|]. unfold check in L. by case_bool_decide.
    + unfold check. intros mu' sk'. case_bool_decide as E; [|done]. by intros [= -> ->].
    + intros; by eapply current.
  - by eapply unlock_inv.
  - by eapply unlock_inv.
  - unfold dropTurnLock. destruct (turnLocks s !! sk) as [mu|] eqn:E; [|done]. case_bool_decide as Hm; [done|].
    destruct Hi as [H1 H2 H3]. split; cbn [turnLocks locked procs]; [done|done|].
    intros g sk' mu' Hg. rewrite lookup_delete_ne; [eauto|]. intros <-. specialize (H3 _ _ _ Hg). simplify_eq.
    destruct Hm. by eapply H2.
Qed.

Lemma turns_reachable_inv s : reachable s -> inv s.
Proof.
  intros H. unfold reachable in H. remember lock_init as s0 eqn:E.
  assert (inv s0) as H0 by (subst; by split; cbn).
  clear E. induction H; [done|]. eauto using turns_step_inv.
Qed.

(** C17: two goroutines never hold the turn of one session at once, whatever
    evictions remove its mutex meanwhile. *)
Theorem one_turn_per_session s (H : reachable s) g g' sk mu mu'
  (Hg : procs s !! g = Some (Holding sk mu)) (Hg' : procs s !! g' = Some (Holding sk mu')) : g = g'.
Proof.
  pose proof (turns_reachable_inv s H) as Hi. pose proof (current s Hi _ _ _ Hg). pose proof (current s Hi _ _ _ Hg').
  simplify_eq. by eapply (one_locker s Hi g g').
Qed.

(** Goroutine 0 fetches, the mutex is dropped, 1 fetches the next one and holds
    it, 0 locks the dropped one and has to retry. *)
Definition demo_start : lock_state := fetch 1 "s" (dropTurnLock "s" (fetch 0 "s" lock_init)).
Definition demo : lock_state :=
  set_lock_pc 1 (Holding "s" 1) (MkState (turnLocks demo_start) {[ 1 ]} 2 (<[ 1 := Locked "s" 1 ]> (procs demo_start))).

Lemma turns_demo_reachable : reachable demo.
Proof.
  apply (rtc_l _ _ (fetch 0 "s" lock_init)); [by apply step_fetch|].
  apply (rtc_l _ _ (dropTurnLock "s" (fetch 0 "s" lock_init))); [apply step_drop|].
  apply (rtc_l _ _ demo_start); [by apply step_fetch|].
  apply (rtc_l _ _ (MkState (turnLocks demo_start) ({[ 1 ]} ∪ locked demo_start) (next demo_start) (<[ 1 := Locked "s" 1 ]> (procs demo_start)))).
  - apply step_lock; [reflexivity|vm_compute; set_solver].
  - apply rtc_once. apply (step_check 1 "s" 1). reflexivity.
Qed.

Lemma one_turn_per_session_witness : procs demo !! 1 = Some (Holding "s" 1) /\ 1 = 1.
Proof. split; [reflexivity|]. exact (one_turn_per_session demo turns_demo_reachable 1 1 "s" 1 1 eq_refl eq_refl). Defined.
End TurnLocks.

(** ** Pins *)
Module Pins.

(** What eviction sees of an inbox: its session, whether it is marked evicted,
    whether the eviction's write lock is held, and what is queued on it. *)
Record inbox := MkInbox { sk : gostr; evicted : bool; write_locked : bool; content : list nat }.

(** An [Enqueue] of a message: before the lookup, between the lookup and the
    read lock, pinned, and after its write. *)
Inductive pin_pc :=
| Looking (key : gostr) (msg : nat)
| Found (key : gostr) (a : address) (msg : nat)
| Pinned (key : gostr) (a : address) (msg : nat)
| Written (a : address).

(** Messages written to an inbox, and messages its worker has taken. *)
Record pin_state := MkState {
  inboxes : gmap gostr address; heap : gmap address inbox; next : address; procs : gmap nat pin_pc;
  accepted : list nat; processed : list nat;
}.

Definition pin_init : pin_state := MkState ∅ ∅ 0 ∅ [] [].

Definition set_pin_pc (g : nat) (p : pin_pc) (s : pin_state) : pin_state :=
  MkState (inboxes s) (heap s) (next s) (<[ g := p ]> (procs s)) (accepted s) (processed s).
Definition set_inbox (a : address) (i : inbox) (s : pin_state) : pin_state :=
  MkState (inboxes s) (<[ a := i ]> (heap s)) (next s) (procs s) (accepted s) (processed s).

(** [getOrCreateInbox]. *)
Definition getOrCreateInbox (key : gostr) (s : pin_state) : address * pin_state :=
  match inboxes s !! key with
  | Some a => (a, s)
  | None => (next s, MkState (<[ key := next s ]> (inboxes s)) (<[ next s := MkInbox key false false [] ]> (heap s))
                       (S (next s)) (procs s) (accepted s) (processed s))
  end.

(** A pin holds the read lock. *)
Definition pinned (s : pin_state) (a : address) : Prop :=
  exists g, (exists key msg, procs s !! g = Some (Pinned key a msg)) \/ procs s !! g = Some (Written a).

Inductive pin_step : pin_state -> pin_state -> Prop :=
| step_enqueue g key msg s : procs s !! g = None -> pin_step s (set_pin_pc g (Looking key msg) s)
| step_lookup g key msg s : procs s !! g = Some (Looking key msg) ->
    pin_step s (let '(a, s) := getOrCreateInbox key s in set_pin_pc g (Found key a msg) s)
| step_pin g key a msg i s : procs s !! g = Some (Found key a msg) -> heap s !! a = Some i -> write_locked i = false ->
    pin_step s (set_pin_pc g (if evicted i then Looking key msg else Pinned key a msg) s)
| step_write g key a msg i s : procs s !! g = Some (Pinned key a msg) -> heap s !! a = Some i ->
    pin_step s (let s := set_pin_pc g (Written a) (set_inbox a (MkInbox (sk i) (evicted i) (write_locked i) (content i ++ [msg])) s) in
            MkState (inboxes s) (heap s) (next s) (procs s) (msg :: accepted s) (processed s))
| step_unpin g a s : procs s !! g = Some (Written a) ->
    pin_step s (MkState (inboxes s) (heap s) (next s) (delete g (procs s)) (accepted s) (processed s))
| step_take a i msg l s : heap s !! a = Some i -> evicted i = false -> content i = msg :: l ->
    pin_step s (let s := set_inbox a (MkInbox (sk i) (evicted i) (write_locked i) l) s in
            MkState (inboxes s) (heap s) (next s) (procs s) (accepted s) (msg :: processed s))
| step_evict a i s : heap s !! a = Some i -> evicted i = false -> write_locked i = false ->
    (~ pinned s a) -> content i = [] ->
    pin_step s (set_inbox a (MkInbox (sk i) true true []) s)
| step_drop a i s : heap s !! a = Some i -> write_locked i = true ->
    pin_step s (MkState (if bool_decide (inboxes s !! sk i = Some a) then delete (sk i) (inboxes s) else inboxes s)
              (<[ a := MkInbox (sk i) (evicted i) false (content i) ]> (heap s)) (next s) (procs s) (accepted s) (processed s)).

Definition reachable (s : pin_state) : Prop := rtc pin_step pin_init s.

Record inv (s : pin_state) : Prop := {
  in_map key a : inboxes s !! key = Some a -> exists i, heap s !! a = Some i /\ sk i = key;
  live a i : heap s !! a = Some i -> evicted i = false -> inboxes s !! sk i = Some a /\ write_locked i = false;
  empty a i : heap s !! a = Some i -> evicted i = true -> content i = [];
  stale a i : heap s !! a = Some i -> evicted i = true -> write_locked i = false -> inboxes s !! sk i <> Some a;
  found g key a msg : procs s !! g = Some (Found key a msg) -> exists i, heap s !! a = Some i /\ sk i = key;
  pin g key a msg : procs s !! g = Some (Pinned key a msg) -> exists i, heap s !! a = Some i /\ sk i = key /\ evicted i = false;
  written g a : procs s !! g = Some (Written a) -> exists i, heap s !! a = Some i /\ evicted i = false;
  allocated a i : heap s !! a = Some i -> a < next s;
  conserved : accepted s ≡ₚ processed s ++ map_bag content (heap s);
}.

(** What a goroutine's place needs of the inboxes. *)
Definition pc_ok (h : gmap address inbox) (p : pin_pc) : Prop :=
  match p with
  | Looking _ _ => True
  | Found key a _ => exists i, h !! a = Some i /\ sk i = key
  | Pinned key a _ => exists i, h !! a = Some i /\ sk i = key /\ evicted i = false
  | Written a => exists i, h !! a = Some i /\ evicted i = false
  end.

Lemma inv_pcs s g p : inv s -> procs s !! g = Some p -> pc_ok (heap s) p.
Proof. intros Hi Hg. destruct p; cbn; [done|by eapply found|by eapply pin|by eapply written]. Qed.

(** The invariant, with the goroutines' places as one clause. *)
Lemma inv_intro s : (forall key a, inboxes s !! key = Some a -> exists i, heap s !! a = Some i /\ sk i = key) ->
  (forall a i, heap s !! a = Some i -> evicted i = false -> inboxes s !! sk i = Some a /\ write_locked i = false) ->
  (forall a i, heap s !! a = Some i -> evicted i = true -> content i = []) ->
  (forall a i, heap s !! a = Some i -> evicted i = true -> write_locked i = false -> inboxes s !! sk i <> Some a) ->
  (forall g p, procs s !! g = Some p -> pc_ok (heap s) p) -> (forall a i, heap s !! a = Some i -> a < next s) ->
  accepted s ≡ₚ processed s ++ map_bag content (heap s) -> inv s.
Proof.
  intros H1 H2 H3 H4 H5 H6 H7. split; try done.
  - intros g key a msg Hg. apply (H5 _ _ Hg).
  - intros g key a msg Hg. apply (H5 _ _ Hg).
  - intros g a Hg. apply (H5 _ _ Hg).
Qed.

Lemma inv_set_pc g p s : inv s -> pc_ok (heap s) p -> inv (set_pin_pc g p s).
Proof.
  intros Hi Hp. pose proof Hi as [H1 H2 H3 H4 _ _ _ H6 H7].
  apply inv_intro; cbn [set_pin_pc inboxes heap next procs accepted processed]; try done.
  intros g' q. destruct (decide (g' = g)) as [->|]; [rewrite lookup_insert_eq; by intros [= <-]|].
  rewrite lookup_insert_ne by done. by apply inv_pcs.
Qed.

Lemma pc_ok_insert h a i i' p : pc_ok h p -> h !! a = Some i -> sk i' = sk i ->
  (evicted i' = evicted i \/ (forall key msg, p <> Pinned key a msg) /\ p <> Written a) -> pc_ok (<[ a := i' ]> h) p.
Proof.
  intros Hp Ha Hk He. destruct p as [|key b msg|key b msg|b]; cbn in *; [done|..]; destruct (decide (b = a)) as [->|];
    rewrite ?lookup_insert_eq; rewrite ?lookup_insert_ne by done; try done.
  - destruct Hp as (j & Hj & <-). simplify_eq. eauto.
  - destruct Hp as (j & Hj & <- & Hev). simplify_eq. destruct He as [He|[He _]]; [|by destruct (He (sk j) msg)].
    exists i'. by rewrite He, Hk.
  - destruct Hp as (j & Hj & Hev). simplify_eq. destruct He as [He|[_ He]]; [|done]. exists i'. by rewrite He.
Qed.

(** An inbox's content changes; its place does not. *)
Lemma inv_content a i l s acc pr : inv s -> heap s !! a = Some i -> evicted i = false ->
  acc ≡ₚ pr ++ l ++ map_bag content (delete a (heap s)) ->
  inv (MkState (inboxes s) (<[ a := MkInbox (sk i) (evicted i) (write_locked i) l ]> (heap s)) (next s) (procs s) acc pr).
Proof.
  intros Hi Ha He Hacc. pose proof Hi as [H1 H2 H3 H4 _ _ _ H6 H7].
  apply inv_intro; cbn [inboxes heap next procs accepted processed].
  - intros key b Hb. destruct (H1 _ _ Hb) as (j & Hj & Hk). destruct (decide (b = a)) as [->|].
    + rewrite lookup_insert_eq. simplify_eq. eexists. split; [done|done].
    + rewrite lookup_insert_ne by done. eauto.
  - intros b j. destruct (decide (b = a)) as [->|]; [rewrite lookup_insert_eq; intros [= <-]; cbn; by apply H2|].
    rewrite lookup_insert_ne by done. apply H2.
  - intros b j. destruct (decide (b = a)) as [->|]; [rewrite lookup_insert_eq; intros [= <-]; cbn; congruence|].
    rewrite lookup_insert_ne by done. apply H3.
  - intros b j. destruct (decide (b = a)) as [->|]; [rewrite lookup_insert_eq; intros [= <-]; cbn; congruence|].
    rewrite lookup_insert_ne by done. apply H4.
  - intros g p Hg. eapply pc_ok_insert; [by eapply inv_pcs|done|done|by left].
  - intros b j. destruct (decide (b = a)) as [->|]; [intros _; by eapply H6|].
    rewrite lookup_insert_ne by done. apply H6.
  - by rewrite map_bag_insert.
Qed.

Lemma inv_lookup key s : inv s -> let '(a, s') := getOrCreateInbox key s in
  inv s' /\ procs s' = procs s /\ exists i, heap s' !! a = Some i /\ sk i = key.
Proof.
  intros Hi. unfold getOrCreateInbox. destruct (inboxes s !! key) as [a|] eqn:E.
  { split_and!; [done|done|]. by apply (in_map s Hi). }
  pose proof Hi as [H1 H2 H3 H4 _ _ _ H6 H7].
  assert (heap s !! next s = None) as Hfree by (apply eq_None_not_Some; intros [j Hj]; specialize (H6 _ _ Hj); lia).
  split_and!; [|done|eexists; split; [apply lookup_insert_eq|done]].
  apply inv_intro; cbn [inboxes heap next procs accepted processed].
  - intros k b. destruct (decide (k = key)) as [->|].
    + rewrite lookup_insert_eq. intros [= <-]. rewrite lookup_insert_eq. eexists. by split.
    + rewrite lookup_insert_ne by done. intros Hb. destruct (H1 _ _ Hb) as (j & Hj & Hk). exists j.
      rewrite lookup_insert_ne by congruence. done.
  - intros b j. destruct (decide (b = next s)) as [->|].
    + rewrite lookup_insert_eq. intros [= <-] _. cbn. by rewrite lookup_insert_eq.
    + rewrite lookup_insert_ne by done. intros Hb He. destruct (H2 _ _ Hb He) as [Hm Hw]. split; [|done].
      rewrite lookup_insert_ne; [done|]. intros Hk. congruence.
  - intros b j. destruct (decide (b = next s)) as [->|]; [rewrite lookup_insert_eq; by intros [= <-]|].
    rewrite lookup_insert_ne by done. apply H3.
  - intros b j. destruct (decide (b = next s)) as [->|]; [rewrite lookup_insert_eq; by intros [= <-]|].
    rewrite lookup_insert_ne by done. intros Hb He Hw Hm. destruct (decide (sk j = key)) as [Hk|].
    + rewrite Hk, lookup_insert_eq in Hm. congruence.
    + rewrite lookup_insert_ne in Hm by done. by eapply H4.
  - intros g p Hg. pose proof (inv_pcs s g p Hi Hg) as Hp.
    assert (forall b j, heap s !! b = Some j -> <[ next s := MkInbox key false false [] ]> (heap s) !! b = Some j) as Hk.
    { intros b j Hb. rewrite lookup_insert_ne; [done|]. congruence. }
    destruct p as [| | |b]; cbn in *; [done|..]; naive_solver.
  - intros b j. destruct (decide (b = next s)) as [->|]; [lia|]. rewrite lookup_insert_ne by done.
    intros Hb. specialize (H6 _ _ Hb). lia.
  - by rewrite map_bag_insert_new.
Qed.

(** Eviction marks an inbox that is empty and not pinned, then drops it. *)
Lemma inv_evict a i s : inv s -> heap s !! a = Some i -> evicted i = false -> (~ pinned s a) -> content i = [] ->
  inv (set_inbox a (MkInbox (sk i) true true []) s).
Proof.
  intros Hi Ha He Hp Hc. pose proof Hi as [H1 H2 H3 H4 _ _ _ H6 H7].
  apply inv_intro; cbn [set_inbox inboxes heap next procs accepted processed].
  - intros key b Hb. destruct (H1 _ _ Hb) as (j & Hj & Hk). destruct (decide (b = a)) as [->|].
    + rewrite lookup_insert_eq. simplify_eq. eexists. by split.
    + rewrite lookup_insert_ne by done. eauto.
  - intros b j. destruct (decide (b = a)) as [->|]; [rewrite lookup_insert_eq; by intros [= <-]|].
    rewrite lookup_insert_ne by done. apply H2.
  - intros b j. destruct (decide (b = a)) as [->|]; [rewrite lookup_insert_eq; by intros [= <-]|].
    rewrite lookup_insert_ne by done. apply H3.
  - intros b j. destruct (decide (b = a)) as [->|]; [rewrite lookup_insert_eq; by intros [= <-]|].
    rewrite lookup_insert_ne by done. apply H4.
  - intros g p Hg. eapply pc_ok_insert; [by eapply inv_pcs|done|done|]. right. split.
    + intros key msg ->. apply Hp. exists g. eauto.
    + intros ->. apply Hp. exists g. by right.
  - intros b j. destruct (decide (b = a)) as [->|]; [intros _; by eapply H6|].
    rewrite lookup_insert_ne by done. apply H6.
  - rewrite map_bag_insert, H7, (map_bag_delete content _ _ _ Ha), Hc. done.
Qed.

Lemma inv_drop a i s : inv s -> heap s !! a = Some i -> write_locked i = true ->
  inv (MkState (if bool_decide (inboxes s !! sk i = Some a) then delete (sk i) (inboxes s) else inboxes s)
         (<[ a := MkInbox (sk i) (evicted i) false (content i) ]> (heap s)) (next s) (procs s) (accepted s) (processed s)).
Proof.
  intros Hi Ha Hw. pose proof Hi as [H1 H2 H3 H4 _ _ _ H6 H7].
  assert (evicted i = true) as He by (destruct (evicted i) eqn:E; [done|]; destruct (H2 _ _ Ha E); congruence).
  set (m := if bool_decide _ then _ else _).
  assert (forall k b, m !! k = Some b -> inboxes s !! k = Some b /\ b <> a) as Hm.
  { intros k b. unfold m. case_bool_decide as E.
    - intros [Hne Hb]%lookup_delete_Some. split; [done|]. intros ->. apply Hne.
      destruct (H1 _ _ Hb) as (j & Hj & <-). by simplify_eq.
    - intros Hb. split; [done|]. intros ->. destruct (H1 _ _ Hb) as (j & Hj & <-). by simplify_eq. }
  assert (forall k b, inboxes s !! k = Some b -> b <> a -> m !! k = Some b) as Hm2.
  { intros k b Hb Hne. unfold m. case_bool_decide as E; [|done]. rewrite lookup_delete_ne; [done|]. intros <-. congruence. }
  apply inv_intro; cbn [inboxes heap next procs accepted processed].
  - intros k b Hb. apply Hm in Hb as [Hb Hne]. rewrite lookup_insert_ne by done. by apply H1.
  - intros b j. destruct (decide (b = a)) as [->|Hne]; [rewrite lookup_insert_eq; intros [= <-]; cbn; congruence|].
    rewrite lookup_insert_ne by done. intros Hb Hj. destruct (H2 _ _ Hb Hj). eauto.
  - intros b j. destruct (decide (b = a)) as [->|Hne]; [rewrite lookup_insert_eq; intros [= <-]; cbn; intros _; by eapply H3|].
    rewrite lookup_insert_ne by done. apply H3.
  - intros b j. destruct (decide (b = a)) as [->|Hne].
    + rewrite lookup_insert_eq. intros [= <-] _ _ Hb. cbn in Hb. by apply Hm in Hb as [_ ?].
    + rewrite lookup_insert_ne by done. intros Hb Hj Hwj Hk. apply Hm in Hk as [Hk _]. by eapply H4.
  - intros g p Hg. eapply pc_ok_insert; [by eapply inv_pcs|done|done|by left].
  - intros b j. destruct (decide (b = a)) as [->|Hne]; [intros _; by eapply H6|].
    rewrite lookup_insert_ne by done. apply H6.
  - rewrite map_bag_insert, H7, (map_bag_delete content _ _ _ Ha). done.
Qed.

Lemma pins_step_inv s s' : inv s -> pin_step s s' -> inv s'.
Proof.
  intros Hi Hs. destruct Hs as [g key msg s Hg|g key msg s Hg|g key a msg i s Hg Ha Hw|g key a msg i s Hg Ha|g a s Hg
                               |a i msg l s Ha He Hc|a i s Ha He Hw Hp Hc|a i s Ha Hw].
  - by apply inv_set_pc.
  - pose proof (inv_lookup key s Hi) as H. destruct (getOrCreateInbox key s) as [a s'].
    destruct H as (Hi' & _ & i & Ha & Hk). apply inv_set_pc; [done|]. exists i. done.
  - apply inv_set_pc; [done|]. destruct (evicted i) eqn:E; [done|].
    destruct (found s Hi _ _ _ _ Hg) as (j & Hj & Hk). exists i. split_and!; [done|congruence|done].
  - destruct (pin s Hi _ _ _ _ Hg) as (j & Hj & Hk & He). rewrite Ha in Hj. injection Hj as <-.
    pose proof (inv_content a i (content i ++ [msg]) s (msg :: accepted s) (processed s) Hi Ha He) as H.
    unshelve epose proof (inv_set_pc g (Written a) _ (H _) _) as H'; [| |exact H'].
    + rewrite (conserved s Hi), (map_bag_delete content _ _ _ Ha). solve_Permutation.
    + eexists. cbn. by rewrite lookup_insert_eq.
  - pose proof Hi as [H1 H2 H3 H4 _ _ _ H6 H7]. apply inv_intro; cbn [inboxes heap next procs accepted processed]; try done.
    intros g' p [_ Hp]%lookup_delete_Some. by eapply inv_pcs.
  - apply (inv_content a i l s (accepted s) (msg :: processed s)); [done|done|done|]. cbn [set_inbox accepted processed heap].
    rewrite (conserved s Hi), (map_bag_delete content _ _ _ Ha), Hc. solve_Permutation.
  - by apply inv_evict.
  - by apply inv_drop.
Qed.

Lemma pins_reachable_inv s : reachable s -> inv s.
Proof.
  intros H. unfold reachable in H. remember pin_init as s0 eqn:E.
  assert (inv s0) as H0. { subst. apply inv_intro; cbn; done. }
  clear E. induction H; [done|]. eauto using pins_step_inv.
Qed.

(** C18: however lookups, pins, writes and evictions interleave, every message an
    [Enqueue] has written was processed or waits on an inbox that is not evicted
    and is the one its session is routed to; and an [Enqueue] that has pinned an
    inbox writes to such a one. *)
Theorem eviction_loses_nothing s (H : reachable s) :
  accepted s ≡ₚ processed s ++ map_bag content (heap s)
  /\ (forall a i msg, heap s !! a = Some i -> msg ∈ content i -> evicted i = false /\ inboxes s !! sk i = Some a)
  /\ (forall g key a msg, procs s !! g = Some (Pinned key a msg) -> inboxes s !! key = Some a).
Proof.
  pose proof (pins_reachable_inv s H) as Hi. split_and!; [by apply conserved|..].
  - intros a i msg Ha Hm. destruct (evicted i) eqn:E.
    + rewrite (empty s Hi _ _ Ha E) in Hm. by apply not_elem_of_nil in Hm.
    + split; [done|]. by apply (live s Hi).
  - intros g key a msg Hg. destruct (pin s Hi _ _ _ _ Hg) as (i & Ha & <- & He). by apply (live s Hi).
Qed.

(** An inbox is evicted between a lookup and its pin; the message goes to the
    next one. *)
Definition demo_found : pin_state := set_pin_pc 0 (Found "s" 0 7) (getOrCreateInbox "s" (set_pin_pc 0 (Looking "s" 7) pin_init)).2.
Definition demo_marked : pin_state := set_inbox 0 (MkInbox "s" true true []) demo_found.
Definition demo_dropped : pin_state :=
  MkState ∅ (<[ 0 := MkInbox "s" true false [] ]> (heap demo_marked)) 1 (procs demo_marked) [] [].
Definition demo_again : pin_state := set_pin_pc 0 (Looking "s" 7) demo_dropped.
Definition demo_pinned : pin_state :=
  set_pin_pc 0 (Pinned "s" 1 7) (set_pin_pc 0 (Found "s" 1 7) (getOrCreateInbox "s" demo_again).2).

Lemma pins_demo_reachable : reachable demo_pinned.
Proof.
  apply (rtc_l _ _ (set_pin_pc 0 (Looking "s" 7) pin_init)); [by apply step_enqueue|].
  apply (rtc_l _ _ demo_found); [by apply (step_lookup 0 "s" 7)|].
  apply (rtc_l _ _ demo_marked).
  { apply (step_evict 0 (MkInbox "s" false false [])); try reflexivity.
    assert (procs demo_found = {[ 0 := Found "s" 0 7 ]}) as Hp by (vm_compute; reflexivity).
    intros (g & [(key & msg & Hg)|Hg]); rewrite Hp in Hg; by apply lookup_singleton_Some in Hg as [_ ?]. }
  apply (rtc_l _ _ demo_dropped); [|].
  { refine (eq_ind_r (pin_step demo_marked) (step_drop 0 (MkInbox "s" true true []) demo_marked eq_refl eq_refl) _).
    vm_compute. reflexivity. }
  apply (rtc_l _ _ demo_again); [by apply (step_pin 0 "s" 0 7 (MkInbox "s" true false []))|].
  apply (rtc_l _ _ (set_pin_pc 0 (Found "s" 1 7) (getOrCreateInbox "s" demo_again).2)); [by apply (step_lookup 0 "s" 7)|].
  apply rtc_once. by apply (step_pin 0 "s" 1 7 (MkInbox "s" false false [])).
Qed.

Lemma eviction_loses_nothing_witness : inboxes demo_pinned !! ("s" : gostr) = Some 1.
Proof. exact (proj2 (proj2 (eviction_loses_nothing demo_pinned pins_demo_reachable)) 0 "s" 1 7 eq_refl). Defined.
End Pins.
