(* ===== verification/Inbox.v ===== *)
(** * The session inbox: data and decisions ([internal/agent/inbox.go],
    [inbox_gate.go], [usage_hold.go], [usage_hold_store.go])

    An envelope, the state of one session's inbox, what the code reads of the
    rest of the agent at one instant ([World]), and the functions that decide
    where an envelope goes and whether an injection must wait.  The worker and
    the callers that use them are in InboxRun.v.

    Driver objects, raw platform messages and closures are known by numbers; the
    platform a driver belongs to is an argument. *)
From S2P Require Import Prelude GoStrings GoNum SessionKey UsageHold.
Local Open Scope Z_scope.
Local Open Scope gostr_scope.

(** ** Envelopes *)
Inductive SteerPreference := SteerDefault | SteerAlways | SteerNever.
#[export] Instance SteerPreference_eq_dec : EqDecision SteerPreference.
Proof. solve_decision. Defined.

Record DurableInject := MkDurable { di_Kind : gostr; di_Trigger : gostr; di_Text : gostr; di_Args : gmap gostr gostr }.

Record InjectMeta := MkInject {
  Trigger : gostr; HoldPermit : bool; Durable : option DurableInject; Run : option nat; AskReqID : gostr;
  Refused : option nat; UserInput : bool;
}.

Record Envelope := MkEnvelope {
  SessionKey : gostr; Text : gostr; Attachments : list gostr; UserID : gostr; Username : gostr; SenderName : gostr;
  ChatID : Z; IsGroupChat : bool; ReceivedAt : Time; Voice : bool; Steer : SteerPreference; Human : bool;
  Automated : bool; Original : option nat; Driver : option nat; Ref : gostr * gostr; Inject : option InjectMeta;
  heldSince : Time; askHeldSince : Time; enqSeq : N; usageHeldID : gostr; usageResume : bool;
}.

Definition with_heldSince v e := MkEnvelope (SessionKey e) (Text e) (Attachments e) (UserID e) (Username e) (SenderName e) (ChatID e) (IsGroupChat e) (ReceivedAt e) (Voice e) (Steer e) (Human e) (Automated e) (Original e) (Driver e) (Ref e) (Inject e) v (askHeldSince e) (enqSeq e) (usageHeldID e) (usageResume e).
Definition with_askHeldSince v e := MkEnvelope (SessionKey e) (Text e) (Attachments e) (UserID e) (Username e) (SenderName e) (ChatID e) (IsGroupChat e) (ReceivedAt e) (Voice e) (Steer e) (Human e) (Automated e) (Original e) (Driver e) (Ref e) (Inject e) (heldSince e) v (enqSeq e) (usageHeldID e) (usageResume e).
Definition with_enqSeq v e := MkEnvelope (SessionKey e) (Text e) (Attachments e) (UserID e) (Username e) (SenderName e) (ChatID e) (IsGroupChat e) (ReceivedAt e) (Voice e) (Steer e) (Human e) (Automated e) (Original e) (Driver e) (Ref e) (Inject e) (heldSince e) (askHeldSince e) v (usageHeldID e) (usageResume e).
Definition with_usageHeldID v e := MkEnvelope (SessionKey e) (Text e) (Attachments e) (UserID e) (Username e) (SenderName e) (ChatID e) (IsGroupChat e) (ReceivedAt e) (Voice e) (Steer e) (Human e) (Automated e) (Original e) (Driver e) (Ref e) (Inject e) (heldSince e) (askHeldSince e) (enqSeq e) v (usageResume e).

Record SteerEntry := MkSteer {
  s_Text : gostr; s_ReceivedAt : Time; s_Automated : bool; s_UserID : gostr; s_Username : gostr; s_ChatID : Z;
  RecvText : gostr;
}.

Definition inboxChanSize : nat := 64.
Definition TriggerKeepalive : gostr := "keepalive".
Definition TriggerRedelivery : gostr := "redelivery".
Definition platformApp : gostr := "app".

(** [attributedText] ([run_turn.go]). *)
Definition attributedText (e : Envelope) : gostr :=
  if IsGroupChat e && negb (bool_decide (SenderName e = [])) then "[" ++ SenderName e ++ "] " ++ Text e
  else if IsGroupChat e && negb (bool_decide (UserID e = [])) then "[user:" ++ UserID e ++ "] " ++ Text e
  else Text e.

Definition steerEntryFor (e : Envelope) : SteerEntry :=
  MkSteer (Text e) (ReceivedAt e) (Automated e) (UserID e) (Username e) (ChatID e) (attributedText e).

(** An orphan of [buildFollowUp]: the seed's sender, its own text and time. *)
Definition orphan (seed : Envelope) (s : SteerEntry) : Envelope :=
  MkEnvelope (SessionKey seed) (s_Text s) [] (UserID seed) (Username seed) (SenderName seed) (ChatID seed) (IsGroupChat seed)
    (s_ReceivedAt s) false SteerDefault false (s_Automated s) (Original seed) (Driver seed) ([], []) None 0 0 0%N [] false.

Definition buildFollowUp (seed : Envelope) (orphans : list SteerEntry) (extras : list Envelope) : list Envelope :=
  (orphan seed <$> orphans) ++ extras.

Definition controlInjectTriggers : list gostr := ["compaction-resume" : gostr; "plan-command" : gostr; TriggerRedelivery].
Definition IsControlInjectTrigger (trigger : gostr) : bool := in_table controlInjectTriggers trigger.
Definition isKeepaliveTrigger (trigger : gostr) : bool := bool_decide (trigger = TriggerKeepalive).

(** ** The rest of the agent *)
Inductive backend_view := BackendError | NoBackend | Backend (folds : bool).

(** What one session's inbox reads of the agent: the clock; whether the inbox
    context ended and the agent drains; whether there is a delegated manager;
    the login gate; the account's phase; the ask on screen and whether it is
    paused; the turns in flight, compaction and background work of the session;
    the steer mode; a pending plan and whether its cancel succeeds; and what the
    backend lookup gives, with whether it takes a fold. *)
Record World := MkWorld {
  now : Time; ctx_done : bool; shutting : bool; delegated : bool;
  relogin_active : bool; relogin_capture : bool; relogin_pending : bool;
  hold_phase : Phase; pending_ask : gostr; ask_paused : bool;
  in_flight : bool; delivering : bool; compacting : bool; awaiting_run : bool;
  backend_in_flight : bool; system_turn : bool; steer_mode : bool;
  plan_pending : bool; plan_cancelled : bool; backend : backend_view;
}.

Definition reloginHoldClosed (w : World) : bool := delegated w && relogin_active w.

Definition usageHoldPhase (w : World) : Phase := if delegated w then hold_phase w else Open.

Definition usageHoldsTrigger (w : World) (trigger : gostr) (permit : bool) : bool :=
  match usageHoldPhase w with
  | Hold => negb (isKeepaliveTrigger trigger || bool_decide (trigger = "scheduled_wake") || permit)
  | Stop => true
  | Open => false
  end.

Definition holdsUser (w : World) : bool := usageHoldsTrigger w "user" false.

Definition usageHoldPassesPast (w : World) (e : Envelope) : bool :=
  match Inject e with
  | Some m => bool_decide (Trigger m = "scheduled_wake") && bool_decide (usageHoldPhase w = Hold)
  | None => false
  end.

Definition backendAwaitingAutonomousRun (w : World) : bool := delegated w && awaiting_run w.

(** [busy] is the inbox's counter of turns its worker runs. *)
Definition adoptedRunActive (w : World) (busy : nat) : bool := delivering w && (busy =? 0)%nat.
Definition holdActive (w : World) (busy : nat) : bool := backendAwaitingAutonomousRun w || adoptedRunActive w busy.

Definition isRedeliveryInject (m : InjectMeta) : bool := bool_decide (Trigger m = TriggerRedelivery).
Definition injectGateApplies (m : InjectMeta) : bool := negb (UserInput m) && negb (isRedeliveryInject m).

Definition maxPendingHold : Duration := 5 * Minute.
Definition maxAskHold : Duration := 5 * Minute.

Definition pendingHoldExpired (w : World) (e : Envelope) : bool :=
  negb (IsZero (heldSince e)) && (maxPendingHold <=? TimeSub (now w) (heldSince e)).
Definition askHoldExpired (w : World) (e : Envelope) : bool :=
  negb (IsZero (askHeldSince e)) && (maxAskHold <=? TimeSub (now w) (askHeldSince e)).

Definition injectHeld (w : World) (busy : nat) (e : Envelope) : bool :=
  match Inject e with
  | None => false
  | Some m =>
      if shutting w || negb (injectGateApplies m) then false
      else if usageHoldsTrigger w (Trigger m) (HoldPermit m) then true
      else if isKeepaliveTrigger (Trigger m) || pendingHoldExpired w e then adoptedRunActive w busy
      else holdActive w busy
  end.

(** Injections of one class queue behind each other. *)
Definition keepalive (e : Envelope) : bool :=
  match Inject e with Some m => isKeepaliveTrigger (Trigger m) | None => false end.
Definition heldSiblingPins (held : list Envelope) (e : Envelope) : bool :=
  existsb (fun h => Bool.eqb (keepalive h) (keepalive e)) held.

Definition pendingAskFor (w : World) : gostr := if ask_paused w then [] else pending_ask w.

(** The four holds of [waitUserTurnGates], in its order. *)
Definition gate_closed (w : World) (stage : nat) : bool :=
  match stage with
  | 0 => reloginHoldClosed w
  | 1 => holdsUser w
  | 2 => in_flight w && negb (delivering w)
  | 3 => compacting w
  | _ => false
  end%nat.
Definition userTurnGatesClosed (w : World) : bool :=
  reloginHoldClosed w || holdsUser w || (in_flight w && negb (delivering w)) || compacting w.

(** ** Routing *)
Section Routing.
(** The platform of a driver's connection; empty when it has none. *)
Context (platform_of : nat -> gostr).

Definition platformName (e : Envelope) : gostr := match Driver e with Some d => platform_of d | None => [] end.

(** Where [Enqueue] sends an envelope. *)
Inductive route := ToCode | ToQueue | ToPlan | ToAnswer | ToBuffer | ToFold.

Definition has_attachments (e : Envelope) : bool := negb (bool_decide (Attachments e = [])).

Definition trySteer (w : World) (active compacting : bool) (e : Envelope) : option route :=
  let mode := match Steer e with SteerAlways => true | SteerNever => false | SteerDefault => steer_mode w end in
  if negb (mode && active && negb compacting && (negb (bool_decide (Text e = [])) || has_attachments e)) then None
  else if system_turn w then None
  else match backend w with
       | BackendError | NoBackend => if has_attachments e then None else Some ToBuffer
       | Backend folds => if folds then Some ToFold else None
       end.

Definition sessionTurnActive (w : World) (turnActive : bool) : bool :=
  turnActive || (delegated w && backend_in_flight w).

(** The typed-answer intercepts look only at these. *)
Definition may_answer (e : Envelope) : bool :=
  negb (bool_decide (Steer e = SteerNever)) && negb (Automated e) && negb (bool_decide (Text e = []))
  && negb (has_attachments e).

(** [Enqueue] up to its effect; [None] is the empty session key. *)
Definition enqueue_route (w : World) (turnActive : bool) (e : Envelope) : option route :=
  let active := sessionTurnActive w turnActive in
  let steered := default ToQueue (trySteer w active (compacting w) e) in
  if bool_decide (SessionKey e = []) then None
  else match Inject e with
  | Some m => Some (if UserInput m && negb (reloginHoldClosed w) then steered else ToQueue)
  | None =>
      Some (
      if reloginHoldClosed w then
        if negb (Automated e) && negb (bool_decide (Steer e = SteerNever))
           && negb (bool_decide (trim_space (Text e) = [])) && relogin_capture w
        then ToCode else ToQueue
      else if holdsUser w || negb (bool_decide (usageHeldID e = [])) then ToQueue
      else if active && may_answer e
              && match backend w with Backend _ => plan_pending w && plan_cancelled w | _ => false end
      then ToPlan
      else if active && may_answer e && negb (bool_decide (platformName e = platformApp))
              && negb (bool_decide (pendingAskFor w = [])) && negb (bool_decide (trim_space (Text e) = []))
      then ToAnswer
      else steered)
  end.
End Routing.

(** ** The inbox *)

(** The held-inject watcher: the entries it waits for, and its signal. *)
Record gateWatch := MkWatch { armed : list Envelope; fired : bool }.

Record inbox := MkInbox {
  ch : list Envelope; steer : list SteerEntry; turnActive : bool; deferredInjects : list (Envelope * gostr);
  held : list Envelope; heldGen : nat; heldWatchGen : nat; heldWatch : option gateWatch; pending : list Envelope;
  usageHeld : list Envelope; resume : bool; usageKick : bool; busy : nat; pendingExempt : bool;
  turnCancel : option bool; waitCancel : option bool; lastSeq : N; stopThrough : N; evictReq : bool; lastUsed : Time;
}.

Definition set_ch v i := MkInbox v (steer i) (turnActive i) (deferredInjects i) (held i) (heldGen i) (heldWatchGen i) (heldWatch i) (pending i) (usageHeld i) (resume i) (usageKick i) (busy i) (pendingExempt i) (turnCancel i) (waitCancel i) (lastSeq i) (stopThrough i) (evictReq i) (lastUsed i).
Definition set_steer v i := MkInbox (ch i) v (turnActive i) (deferredInjects i) (held i) (heldGen i) (heldWatchGen i) (heldWatch i) (pending i) (usageHeld i) (resume i) (usageKick i) (busy i) (pendingExempt i) (turnCancel i) (waitCancel i) (lastSeq i) (stopThrough i) (evictReq i) (lastUsed i).
Definition set_turnActive v i := MkInbox (ch i) (steer i) v (deferredInjects i) (held i) (heldGen i) (heldWatchGen i) (heldWatch i) (pending i) (usageHeld i) (resume i) (usageKick i) (busy i) (pendingExempt i) (turnCancel i) (waitCancel i) (lastSeq i) (stopThrough i) (evictReq i) (lastUsed i).
Definition set_deferredInjects v i := MkInbox (ch i) (steer i) (turnActive i) v (held i) (heldGen i) (heldWatchGen i) (heldWatch i) (pending i) (usageHeld i) (resume i) (usageKick i) (busy i) (pendingExempt i) (turnCancel i) (waitCancel i) (lastSeq i) (stopThrough i) (evictReq i) (lastUsed i).
Definition set_held v i := MkInbox (ch i) (steer i) (turnActive i) (deferredInjects i) v (heldGen i) (heldWatchGen i) (heldWatch i) (pending i) (usageHeld i) (resume i) (usageKick i) (busy i) (pendingExempt i) (turnCancel i) (waitCancel i) (lastSeq i) (stopThrough i) (evictReq i) (lastUsed i).
Definition set_heldGen v i := MkInbox (ch i) (steer i) (turnActive i) (deferredInjects i) (held i) v (heldWatchGen i) (heldWatch i) (pending i) (usageHeld i) (resume i) (usageKick i) (busy i) (pendingExempt i) (turnCancel i) (waitCancel i) (lastSeq i) (stopThrough i) (evictReq i) (lastUsed i).
Definition set_heldWatchGen v i := MkInbox (ch i) (steer i) (turnActive i) (deferredInjects i) (held i) (heldGen i) v (heldWatch i) (pending i) (usageHeld i) (resume i) (usageKick i) (busy i) (pendingExempt i) (turnCancel i) (waitCancel i) (lastSeq i) (stopThrough i) (evictReq i) (lastUsed i).
Definition set_heldWatch v i := MkInbox (ch i) (steer i) (turnActive i) (deferredInjects i) (held i) (heldGen i) (heldWatchGen i) v (pending i) (usageHeld i) (resume i) (usageKick i) (busy i) (pendingExempt i) (turnCancel i) (waitCancel i) (lastSeq i) (stopThrough i) (evictReq i) (lastUsed i).
Definition set_pending v i := MkInbox (ch i) (steer i) (turnActive i) (deferredInjects i) (held i) (heldGen i) (heldWatchGen i) (heldWatch i) v (usageHeld i) (resume i) (usageKick i) (busy i) (pendingExempt i) (turnCancel i) (waitCancel i) (lastSeq i) (stopThrough i) (evictReq i) (lastUsed i).
Definition set_usageHeld v i := MkInbox (ch i) (steer i) (turnActive i) (deferredInjects i) (held i) (heldGen i) (heldWatchGen i) (heldWatch i) (pending i) v (resume i) (usageKick i) (busy i) (pendingExempt i) (turnCancel i) (waitCancel i) (lastSeq i) (stopThrough i) (evictReq i) (lastUsed i).
Definition set_resume v i := MkInbox (ch i) (steer i) (turnActive i) (deferredInjects i) (held i) (heldGen i) (heldWatchGen i) (heldWatch i) (pending i) (usageHeld i) v (usageKick i) (busy i) (pendingExempt i) (turnCancel i) (waitCancel i) (lastSeq i) (stopThrough i) (evictReq i) (lastUsed i).
Definition set_usageKick v i := MkInbox (ch i) (steer i) (turnActive i) (deferredInjects i) (held i) (heldGen i) (heldWatchGen i) (heldWatch i) (pending i) (usageHeld i) (resume i) v (busy i) (pendingExempt i) (turnCancel i) (waitCancel i) (lastSeq i) (stopThrough i) (evictReq i) (lastUsed i).
Definition set_busy v i := MkInbox (ch i) (steer i) (turnActive i) (deferredInjects i) (held i) (heldGen i) (heldWatchGen i) (heldWatch i) (pending i) (usageHeld i) (resume i) (usageKick i) v (pendingExempt i) (turnCancel i) (waitCancel i) (lastSeq i) (stopThrough i) (evictReq i) (lastUsed i).
Definition set_pendingExempt v i := MkInbox (ch i) (steer i) (turnActive i) (deferredInjects i) (held i) (heldGen i) (heldWatchGen i) (heldWatch i) (pending i) (usageHeld i) (resume i) (usageKick i) (busy i) v (turnCancel i) (waitCancel i) (lastSeq i) (stopThrough i) (evictReq i) (lastUsed i).
Definition set_turnCancel v i := MkInbox (ch i) (steer i) (turnActive i) (deferredInjects i) (held i) (heldGen i) (heldWatchGen i) (heldWatch i) (pending i) (usageHeld i) (resume i) (usageKick i) (busy i) (pendingExempt i) v (waitCancel i) (lastSeq i) (stopThrough i) (evictReq i) (lastUsed i).
Definition set_waitCancel v i := MkInbox (ch i) (steer i) (turnActive i) (deferredInjects i) (held i) (heldGen i) (heldWatchGen i) (heldWatch i) (pending i) (usageHeld i) (resume i) (usageKick i) (busy i) (pendingExempt i) (turnCancel i) v (lastSeq i) (stopThrough i) (evictReq i) (lastUsed i).
Definition set_lastSeq v i := MkInbox (ch i) (steer i) (turnActive i) (deferredInjects i) (held i) (heldGen i) (heldWatchGen i) (heldWatch i) (pending i) (usageHeld i) (resume i) (usageKick i) (busy i) (pendingExempt i) (turnCancel i) (waitCancel i) v (stopThrough i) (evictReq i) (lastUsed i).
Definition set_stopThrough v i := MkInbox (ch i) (steer i) (turnActive i) (deferredInjects i) (held i) (heldGen i) (heldWatchGen i) (heldWatch i) (pending i) (usageHeld i) (resume i) (usageKick i) (busy i) (pendingExempt i) (turnCancel i) (waitCancel i) (lastSeq i) v (evictReq i) (lastUsed i).
Definition set_evictReq v i := MkInbox (ch i) (steer i) (turnActive i) (deferredInjects i) (held i) (heldGen i) (heldWatchGen i) (heldWatch i) (pending i) (usageHeld i) (resume i) (usageKick i) (busy i) (pendingExempt i) (turnCancel i) (waitCancel i) (lastSeq i) (stopThrough i) v (lastUsed i).
Definition set_lastUsed v i := MkInbox (ch i) (steer i) (turnActive i) (deferredInjects i) (held i) (heldGen i) (heldWatchGen i) (heldWatch i) (pending i) (usageHeld i) (resume i) (usageKick i) (busy i) (pendingExempt i) (turnCancel i) (waitCancel i) (lastSeq i) (stopThrough i) (evictReq i) v.

Definition newSessionInbox (now : Time) : inbox :=
  MkInbox [] [] false [] [] 0 0 None [] [] false false 0 false None None 0 0 false now.

(** *** The queues *)
Definition pushPending (l : list Envelope) (i : inbox) : inbox := set_pending (pending i ++ l) i.
Definition popPending (i : inbox) : option (Envelope * inbox) :=
  match pending i with e :: l => Some (e, set_pending l i) | [] => None end.
Definition is_inject (e : Envelope) : bool := match Inject e with Some _ => true | None => false end.
Definition pendingHeadIsInject (i : inbox) : bool := match pending i with e :: _ => is_inject e | [] => false end.
Definition takePendingUsers (i : inbox) : list Envelope * inbox :=
  (filter (fun e => is_inject e = false) (pending i), set_pending (filter (fun e => is_inject e = true) (pending i)) i).
Definition hasPendingUser (i : inbox) : bool := existsb (fun e => negb (is_inject e)) (pending i).
Definition drainAvailable (i : inbox) : list Envelope * inbox := (ch i, set_ch [] i).
Definition drainSteer (i : inbox) : list SteerEntry * inbox := (steer i, set_steer [] i).

Definition InboxHasPendingInput (i : inbox) : bool :=
  negb (bool_decide (ch i = [])) || hasPendingUser i || negb (bool_decide (steer i = [])).

(** A user message that a /stop has covered. *)
Definition stoppedQueued (i : inbox) (e : Envelope) : bool :=
  negb (is_inject e) && negb (enqSeq e =? 0)%N && (enqSeq e <=? stopThrough i)%N.

(** [takeQueuedUsers]: what joins the batch, and what a /stop dropped. *)
Definition takeQueuedUsers (i : inbox) : list Envelope * list Envelope * inbox :=
  let '(l, i) := drainAvailable i in
  let '(users, i) := takePendingUsers (pushPending l i) in
  (filter (fun e => stoppedQueued i e = false) users, filter (fun e => stoppedQueued i e = true) users, i).

Definition touch (now : Time) (i : inbox) : inbox := set_lastUsed now i.

(** [CancelSession]. *)
Definition CancelSession (i : inbox) : bool * inbox :=
  match waitCancel i with
  | Some _ => (true, set_waitCancel (Some true) (set_stopThrough (lastSeq i) i))
  | None =>
      match turnCancel i with
      | Some _ => (true, set_turnCancel (Some true) i)
      | None => (false, i)
      end
  end.

(** *** The held list *)
Definition stopHeldWatch (i : inbox) : inbox := set_heldWatch None i.
Definition ensureHeldWatch (i : inbox) : inbox :=
  if bool_decide (held i = []) then i
  else match heldWatch i with
       | Some _ => if (heldWatchGen i =? heldGen i)%nat then i
                   else set_heldWatchGen (heldGen i) (set_heldWatch (Some (MkWatch (held i) false)) i)
       | None => set_heldWatchGen (heldGen i) (set_heldWatch (Some (MkWatch (held i) false)) i)
       end.

(** The gate half of [dispatchInject]: whether an injection parks. *)
Definition parks (w : World) (i : inbox) (e : Envelope) : bool :=
  match Inject e with
  | Some m => injectGateApplies m
      && (injectHeld w (busy i) e || (heldSiblingPins (held i) e && negb (usageHoldPassesPast w e)))
  | None => false
  end.

Definition park (now : Time) (e : Envelope) (i : inbox) : inbox :=
  let e := if IsZero (heldSince e) then with_heldSince now e else e in
  ensureHeldWatch (set_heldGen (S (heldGen i)) (set_held (held i ++ [e]) i)).

(** *** Deferred injections *)
Definition reloginHeldBy : gostr := "000"%char :: "relogin".

(** What holds an injection now: an ask, unless it is a control injection, the
    result of another ask, or was held long enough. *)
Definition deferring_ask (w : World) (e : Envelope) : gostr :=
  match Inject e with
  | Some m =>
      let p := pendingAskFor w in
      if negb (bool_decide (p = [])) && negb (IsControlInjectTrigger (Trigger m))
         && (bool_decide (AskReqID m = []) || bool_decide (AskReqID m = p)) && negb (askHoldExpired w e)
      then p else []
  | None => []
  end.

Definition capped (e : Envelope) : bool :=
  match Inject e with Some m => bool_decide (AskReqID m = []) | None => false end.
Definition ask_stamp (now : Time) (e : Envelope) : Envelope :=
  if capped e && IsZero (askHeldSince e) then with_askHeldSince now e else e.

(** [DrainDeferredInjects] and [releaseExpiredAskHolds], up to the re-enqueue. *)
Definition take_deferred (p : Envelope * gostr -> bool) (i : inbox) : list Envelope * inbox :=
  ((filter (fun d => p d = true) (deferredInjects i)).*1,
   set_deferredInjects (filter (fun d => p d = false) (deferredInjects i)) i).
Definition held_by (reqID : gostr) (d : Envelope * gostr) : bool := bool_decide (d.2 = reqID).
Definition ask_expired (w : World) (d : Envelope * gostr) : bool :=
  negb (bool_decide (d.2 = reloginHeldBy)) && askHoldExpired w d.1.

(** ** Held input and its store *)
Inductive held_kind := KUser | KResume | KInject.
#[export] Instance held_kind_eq_dec : EqDecision held_kind.
Proof. solve_decision. Defined.

Record usageHeldRecord := MkRecord {
  r_ID : gostr; r_Kind : held_kind; r_Text : gostr; r_Attachments : list gostr; r_UserID : gostr; r_Username : gostr;
  r_SenderName : gostr; r_ChatID : Z; r_IsGroupChat : bool; r_ReceivedAt : Time; r_Voice : bool;
  r_Steer : SteerPreference; r_Human : bool; r_Automated : bool; r_Ref : gostr * gostr; r_Inject : option DurableInject;
}.

Definition usageHeldRecordOf (e : Envelope) : usageHeldRecord :=
  MkRecord (usageHeldID e)
    (if usageResume e then KResume else if is_inject e then KInject else KUser)
    (Text e) (Attachments e) (UserID e) (Username e) (SenderName e) (ChatID e) (IsGroupChat e) (ReceivedAt e) (Voice e)
    (Steer e) (Human e) (Automated e) (Ref e)
    (if usageResume e then None else match Inject e with Some m => Durable m | None => None end).

(** [usageHeldRecord.envelope]. *)
Definition record_envelope (r : usageHeldRecord) (sk : gostr) (driver : option nat) : Envelope :=
  MkEnvelope sk (r_Text r) (r_Attachments r) (r_UserID r) (r_Username r) (r_SenderName r) (r_ChatID r) (r_IsGroupChat r)
    (r_ReceivedAt r) (r_Voice r) (r_Steer r) (r_Human r) (r_Automated r) None driver (r_Ref r) None 0 0 0%N (r_ID r)
    (bool_decide (r_Kind r = KResume)).

(** [newUsageHeldID], of the clock and a counter. *)
Definition newUsageHeldID (now : Time) (n : N) : gostr := "uh-" ++ FormatInt now ++ "-" ++ FormatInt (Z.of_N n).

(** [storeUsageHeld]: the list with the envelope's record, unless it is there. *)
Definition store_record (r : usageHeldRecord) (l : list usageHeldRecord) : list usageHeldRecord :=
  if existsb (fun r' => bool_decide (r_ID r' = r_ID r)) l then l
  else if bool_decide (r_Kind r = KResume) then r :: l else l ++ [r].

Definition forget_records (es : list Envelope) (l : list usageHeldRecord) : list usageHeldRecord :=
  let ids := filter (fun id => id <> []) (usageHeldID <$> es) in
  filter (fun r => r_ID r ∉ ids) l.

(** [parkUsageHeld] on the list of parked messages: a resume line goes first,
    and there is one. *)
Definition parkUsageHeld (e : Envelope) (l : list Envelope) : list Envelope :=
  if usageResume e then if existsb usageResume l then l else e :: l
  else l ++ [e].

(** The head of a released set: a resume line takes the sender of the message
    after it. *)
Definition released_head (head : Envelope) (tail : list Envelope) : Envelope :=
  match tail with
  | src :: _ =>
      if usageResume head then
        MkEnvelope (SessionKey head) (Text head) (Attachments head) (UserID src) (Username src) (SenderName src) (ChatID src)
          (IsGroupChat head) (ReceivedAt head) (Voice head) (Steer head) (Human src) (Automated head) (Original src)
          (Driver src) (Ref head) (Inject head) (heldSince head) (askHeldSince head) (enqSeq head) (usageHeldID head)
          (usageResume head)
      else head
  | [] => head
  end.

Definition UsageResumeLine : gostr := "resume what you were doing".
Definition usageResumeEnvelope (sk : gostr) (driver : option nat) (now : Time) : Envelope :=
  MkEnvelope sk UsageResumeLine [] [] [] [] (ChatIDFromKey sk) false now false SteerNever false true None driver ([], [])
    None 0 0 0%N [] true.

(** ** Idle eviction *)
Definition inboxIdleAfter : Duration := 3 * Hour.
Definition idleFor (now : Time) (i : inbox) : Duration := TimeSub now (lastUsed i).

(** [tryEvictInbox]'s conditions on the inbox; that no [Enqueue] pins it is
    checked where the callers are known. *)
Definition evictable (w : World) (i : inbox) : bool :=
  bool_decide (held i = []) && bool_decide (usageHeld i = []) && negb (resume i) && bool_decide (pending i = [])
  && (inboxIdleAfter <=? idleFor (now w) i) && bool_decide (ch i = []) && bool_decide (steer i = [])
  && bool_decide (deferredInjects i = []) && bool_decide (turnCancel i = None) && bool_decide (waitCancel i = None)
  && negb (in_flight w) && negb (delegated w && backend_in_flight w).
