(* ===== verification/InboxRun.v ===== *)
(** * The session inbox: the worker and its callers ([internal/agent/inbox.go],
    [inbox_gate.go])

    One session's worker goroutine, the goroutines inside [Enqueue], the ask-hold
    timers, the drains of deferred injections, [CancelSession], the gate watcher
    and the reaper, as one executable step function over named actions.  A step
    is one access of the shared state: what the worker does between two accesses
    is one step, so every interleaving of the code is a sequence of actions.  The
    rest of the agent ([World]) changes between any two steps.

    The last part names what the examples of the other files run.

    [log] and [taken] record what became of each envelope and what was accepted;
    nothing reads them. *)
From S2P Require Import Prelude GoStrings GoNum SessionKey UsageHold Inbox.
Local Open Scope gostr_scope.

(** ** State *)
Inductive scope := AgentLimit | GlobalLimit.

(** A user batch on its way: its head's sender, its messages, the limiters left
    to acquire, the slots held, and whether it came from [releaseUsageHeld]. *)
Record batchrun := MkRun { seed : Envelope; batch : list Envelope; todo : list scope; slots : list scope; from_hold : bool }.

Definition with_batch l b := MkRun (seed b) l (todo b) (slots b) (from_hold b).
Definition with_slots t l b := MkRun (seed b) (batch b) t l (from_hold b).

(** Who called the release walk or [dispatchInject]: the worker's loop, or the
    slot wait of a batch. *)
Inductive cont := KLoop | KSlot (b : batchrun).

(** Who called [runInject]: the release walk, or [dispatchInject]. *)
Inductive icont := IWalk (kept rest : list Envelope) (k : cont) | IGo (k : cont).

(** Where the worker is. *)
Inductive wpc :=
| WTop
| WWalk (kept rest : list Envelope) (k : cont)
| WWalkGate (kept : list Envelope) (e : Envelope) (rest : list Envelope) (k : cont)
| WInject (e : Envelope) (i : icont)
| WDefer (e : Envelope) (by_ : gostr) (i : icont)
| WRecheck (i : icont)
| WRunning (e : Envelope) (i : icont)
| WResume
| WRelease
| WQueue
| WIdle
| WHandle (e : Envelope)
| WDispatch (e : Envelope) (k : cont)
| WUserGates (stage : nat) (e : Envelope) (k : cont)
| WRelogin (e : Envelope) (k : cont)
| WGates (stage : nat) (b : batchrun)
| WSlot (b : batchrun)
| WWait (b : batchrun)
| WGranted (b : batchrun)
| WRecheckGates (b : batchrun)
| WTake (b : batchrun)
| WDrive (b : batchrun)
| WTurn (b : batchrun)
| WAfter (b : batchrun)
| WExtras (b : batchrun) (orphans : list SteerEntry)
| WEnd (b : batchrun)
| WDead.

(** A goroutine that enqueues envelopes one after the other: between two of
    them; routed, before the effect; numbered, before the channel write.  A
    requeue is [requeueDeferred]. *)
Inductive cstate := CNext | CAct (e : Envelope) (r : route) | CPush (e : Envelope).
Record caller := MkCaller { c_state : cstate; c_rest : list Envelope; c_requeue : bool }.

(** What became of envelopes. *)
Inductive event :=
| Drove (l : list Envelope)
| Injected (e : Envelope)
| Folded (e : Envelope)
| FoldedSteers (l : list SteerEntry)
| Captured (e : Envelope)
| Rejected (e : Envelope)
| RefusedInject (e : Envelope)
| StopDropped (l : list Envelope)
| CtxDropped (l : list Envelope)
| NoDriver (l : list Envelope)
| Discarded (e : Envelope).

(** An envelope as its sender knows it. *)
Inductive token := Message (text : gostr) (at_ : Time) (automated : bool) | Injection (m : InjectMeta).

Definition token_of (e : Envelope) : token :=
  match Inject e with
  | Some m => if UserInput m then Message (Text e) (ReceivedAt e) (Automated e) else Injection m
  | None => Message (Text e) (ReceivedAt e) (Automated e)
  end.
Definition steer_token (s : SteerEntry) : token := Message (s_Text s) (s_ReceivedAt s) (s_Automated s).

Record sys := MkSys {
  w : World; inb : inbox; pc : wpc; callers : list caller; timers : list Time; stored : list usageHeldRecord;
  heldSeq : N; log : list event; taken : list token;
}.

Definition put_w v s := MkSys v (inb s) (pc s) (callers s) (timers s) (stored s) (heldSeq s) (log s) (taken s).
Definition put_inb v s := MkSys (w s) v (pc s) (callers s) (timers s) (stored s) (heldSeq s) (log s) (taken s).
Definition put_pc v s := MkSys (w s) (inb s) v (callers s) (timers s) (stored s) (heldSeq s) (log s) (taken s).
Definition put_callers v s := MkSys (w s) (inb s) (pc s) v (timers s) (stored s) (heldSeq s) (log s) (taken s).
Definition put_timers v s := MkSys (w s) (inb s) (pc s) (callers s) v (stored s) (heldSeq s) (log s) (taken s).
Definition put_stored v s := MkSys (w s) (inb s) (pc s) (callers s) (timers s) v (heldSeq s) (log s) (taken s).
Definition put_heldSeq v s := MkSys (w s) (inb s) (pc s) (callers s) (timers s) (stored s) v (log s) (taken s).
Definition put_log v s := MkSys (w s) (inb s) (pc s) (callers s) (timers s) (stored s) (heldSeq s) v (taken s).
Definition put_taken v s := MkSys (w s) (inb s) (pc s) (callers s) (timers s) (stored s) (heldSeq s) (log s) v.

Definition note (e : event) (s : sys) : sys := put_log (log s ++ [e]) s.
Definition accept (e : Envelope) (s : sys) : sys := put_taken (taken s ++ [token_of e]) s.
Definition goto (p : wpc) (s : sys) : sys := put_pc p s.
Definition upd (f : inbox -> inbox) (s : sys) : sys := put_inb (f (inb s)) s.
Definition touched (s : sys) : sys := upd (touch (now (w s))) s.

Section Machine.
Context (platform_of : nat -> gostr).
(** [UsageHeldDriver], when it is set; the limiters that are not nil. *)
Context (heldDriver : option (gostr -> option nat)) (limits : list scope).
(** The session. *)
Context (sk : gostr).

(** ** Shared steps *)

(** [refuseDroppedInject], for an injection; a user message has no waiter. *)
Definition refuse (e : Envelope) (s : sys) : sys :=
  note (if is_inject e then RefusedInject e else CtxDropped [e]) s.
Definition refuse_all (l : list Envelope) (s : sys) : sys := fold_left (fun s e => refuse e s) l s.

(** The deferred function of [sessionWorker]. *)
Definition worker_exit (s : sys) : sys :=
  let s := upd stopHeldWatch s in
  let s := upd (set_held []) (refuse_all (held (inb s)) s) in
  let s := upd (set_pending []) (refuse_all (pending (inb s)) s) in
  goto WDead s.

(** The worker gives up with a batch in hand: the slots go back. *)
Definition exit_from (k : cont) (s : sys) : sys :=
  match k with
  | KLoop => worker_exit s
  | KSlot b => worker_exit (note (CtxDropped (batch b)) (upd (set_waitCancel None) s))
  end.

(** [handleDequeued] returned true. *)
Definition handled (s : sys) : sys := goto WTop (touched s).
Definition dispatched (k : cont) (s : sys) : sys :=
  match k with KLoop => handled s | KSlot b => goto (WWait b) s end.
Definition inject_done (i : icont) (s : sys) : sys :=
  match i with IWalk kept rest k => goto (WWalk kept rest k) s | IGo k => dispatched k s end.

(** [runUserBatch] returned true. *)
Definition batch_done (b : batchrun) (s : sys) : sys := if from_hold b then goto WQueue s else handled s.

(** [runUserBatch] begins: its envelopes leave the restart store. *)
Definition start_batch (head : Envelope) (tail : list Envelope) (hold : bool) (s : sys) : sys :=
  goto (WGates 0 (MkRun head (head :: tail) [] [] hold)) (put_stored (forget_records (head :: tail) (stored s)) s).

(** [storeUsageHeld]. *)
Definition storeUsageHeld (e : Envelope) (s : sys) : Envelope * sys :=
  let '(e, s) := if bool_decide (usageHeldID e = [])
                 then (with_usageHeldID (newUsageHeldID (now (w s)) (heldSeq s + 1)) e, put_heldSeq (heldSeq s + 1)%N s)
                 else (e, s) in
  (e, put_stored (store_record (usageHeldRecordOf e) (stored s)) s).

(** [parkUsageHeld], the notice apart. *)
Definition park_held (e : Envelope) (s : sys) : sys :=
  let '(e, s) := storeUsageHeld e s in
  let s := if usageResume e && existsb usageResume (usageHeld (inb s)) then note (Discarded e) s else s in
  upd (set_usageHeld (parkUsageHeld e (usageHeld (inb s)))) s.

(** [DrainDeferredInjects] and [releaseExpiredAskHolds]. *)
Definition drain_deferred (p : Envelope * gostr -> bool) (s : sys) : sys :=
  let '(release, i) := take_deferred p (inb s) in
  put_callers (callers s ++ [MkCaller CNext release true]) (put_inb i s).

(** The abort of [acquireTurnSlots]. *)
Definition abort (b : batchrun) (s : sys) : sys :=
  let s := upd (set_waitCancel None) s in
  if ctx_done (w s) then worker_exit (note (CtxDropped (batch b)) s)
  else batch_done b (note (StopDropped (batch b)) s).

(** The closure of [runInject] is called, or there is none. *)
Definition run_closure (e : Envelope) (i : icont) (s : sys) : sys :=
  let s := note (Injected e) (put_stored (forget_records [e] (stored s)) s) in
  match Inject e with
  | Some m =>
      match Run m with
      | Some _ => goto (WRunning e i) (upd (fun j => set_pendingExempt (pendingHoldExpired (w s) e) (set_busy (S (busy j)) j)) s)
      | None => inject_done i s
      end
  | None => inject_done i s
  end.

(** A turn begins: [driveOnce]. *)
Definition drive (b : batchrun) (s : sys) : sys :=
  goto (WTurn (with_batch [] b)) (note (Drove (batch b)) (upd (fun i => set_busy (S (busy i)) (set_turnCancel (Some false) i)) s)).

(** No caller is between finding the inbox and its write. *)
Definition unpinned (c : caller) : bool := match c_state c with CNext | CAct _ ToCode => true | _ => false end.

(** ** The worker *)

(** What the worker's selects and waits pick. *)
Inductive choice := Go | CtxDone | Recv | Watch | Kick | Lift | Evict | Grant | MustWait | Primary | Steers | Ends.

(** *** [sessionWorker] *)
(** The release walk begins. *)
Definition worker_top (s : sys) : option sys :=
  let i := inb s in
  Some (goto (WWalk [] (held i) KLoop) (upd (set_held []) s)).

(** The watch, and the head of the worker's own queue. *)
Definition worker_queue (s : sys) : option sys :=
  let i := inb s in
  let wd := w s in
  let s := upd (if bool_decide (held i = []) then stopHeldWatch else ensureHeldWatch) s in
  if ctx_done wd then Some (worker_exit s)
  else match popPending (inb s) with
       | Some (e, i) => Some (goto (WHandle e) (put_inb i s))
       | None => Some (goto WIdle s)
       end.

(** The select. *)
Definition worker_select (c : choice) (s : sys) : option sys :=
  let i := inb s in
  let wd := w s in
  match c with
  | CtxDone => if ctx_done wd then Some (worker_exit s) else None
  | Lift => if bool_decide (usageHeld i = []) then None else Some (goto WTop s)
  | Kick => if usageKick i then Some (goto WTop (upd (set_usageKick false) s)) else None
  | Watch => match heldWatch i with
             | Some g => if fired g then Some (goto WTop (upd stopHeldWatch s)) else None
             | None => None
             end
  | Recv => match ch i with e :: l => Some (goto (WHandle e) (upd (set_ch l) s)) | [] => None end
  | Evict => if evictReq i
             then if evictable wd i && forallb unpinned (callers s)
                  then Some (goto WTop (upd (fun _ => newSessionInbox (now wd)) s))
                  else Some (goto WTop (upd (set_evictReq false) s))
             else None
  | _ => None
  end.

Definition handleDequeued (c : choice) (e : Envelope) (s : sys) : option sys :=
  let i := inb s in
  let wd := w s in
  if stoppedQueued i e then Some (handled (note (StopDropped [e]) s))
  else if reloginHoldClosed wd
  then match c with
       | CtxDone => if ctx_done wd then Some (worker_exit (refuse e s)) else None
       | _ => None
       end
  else if is_inject e then Some (goto (WDispatch e KLoop) s)
  else if holdsUser wd then Some (handled (park_held e s))
  else Some (start_batch e [] false s).

(** *** [releaseHeld] *)
(** The next entry, or the end of the walk. *)
Definition releaseHeld_next (kept l : list Envelope) (k : cont) (s : sys) : option sys :=
  let i := inb s in
  let wd := w s in
  match l with
  | e :: rest =>
      if injectHeld wd (busy i) e || (heldSiblingPins kept e && negb (usageHoldPassesPast wd e))
      then Some (goto (WWalk (kept ++ [e]) rest k) s)
      else Some (goto (WWalkGate kept e rest k) s)
  | [] =>
      let s := upd (set_held kept) s in
      let s := if bool_decide (kept = []) then upd stopHeldWatch s else s in
      Some (match k with KLoop => goto WResume s | KSlot b => goto (WWait b) (upd ensureHeldWatch s) end)
  end.

Definition releaseHeld_gate (c : choice) (kept : list Envelope) (e : Envelope) (rest : list Envelope) (k : cont) (s : sys) : option sys :=
  let wd := w s in
  if reloginHoldClosed wd
  then match c with
       | CtxDone => if ctx_done wd then Some (exit_from k (upd (set_held (kept ++ e :: rest)) s)) else None
       | _ => None
       end
  else Some (goto (WInject e (IWalk kept rest k)) s).

(** *** [runInject] *)
(** What is decided before the closure. *)
Definition runInject (e : Envelope) (ic : icont) (s : sys) : option sys :=
  let wd := w s in
  if shutting wd then Some (inject_done ic (refuse e s))
  else if delegated wd && relogin_pending wd then Some (goto (WDefer e reloginHeldBy ic) s)
  else let p := deferring_ask wd e in
       if bool_decide (p = []) then Some (run_closure e ic s)
       else Some (goto (WDefer (ask_stamp (now wd) e) p ic) s).

(** The append to the deferred list. *)
Definition runInject_defer (e : Envelope) (by_ : gostr) (ic : icont) (s : sys) : option sys :=
  let i := inb s in
  let s := upd (set_deferredInjects (deferredInjects i ++ [(e, by_)])) s in
  if bool_decide (by_ = reloginHeldBy) then Some (goto (WRecheck ic) s)
  else Some (inject_done ic (if capped e then put_timers (timers s ++ [askHeldSince e]) s else s)).

(** The second look at the login, after the append. *)
Definition runInject_recheck (ic : icont) (s : sys) : option sys :=
  let wd := w s in
  if relogin_pending wd then Some (inject_done ic s)
  else Some (inject_done ic (drain_deferred (held_by reloginHeldBy) s)).

(** The closure. *)
Definition runInject_run (c : choice) (e : Envelope) (ic : icont) (s : sys) : option sys :=
  match c with
  | Ends => Some (inject_done ic (upd (fun j => set_pendingExempt false (set_busy (pred (busy j)) j)) s))
  | _ => None
  end.

(** *** The usage hold *)
Definition takeUsageResume (s : sys) : option sys :=
  let i := inb s in
  let wd := w s in
  if resume i then
    let s := upd (set_resume false) s in
    match heldDriver with
    | Some d => let e := usageResumeEnvelope sk (d sk) (now wd) in Some (goto WRelease (park_held e (accept e s)))
    | None => Some (goto WRelease s)
    end
  else Some (goto WRelease s).

Definition releaseUsageHeld (s : sys) : option sys :=
  let i := inb s in
  let wd := w s in
  match usageHeld i with
  | head :: tail =>
      if holdsUser wd then Some (goto WQueue s)
      else Some (start_batch (released_head head tail) tail true (upd (set_usageHeld []) s))
  | [] => Some (goto WQueue s)
  end.

(** *** [dispatchInject] *)
Definition dispatchInject (e : Envelope) (k : cont) (s : sys) : option sys :=
  let i := inb s in
  let wd := w s in
  match Inject e with
  | Some m =>
      if UserInput m || isRedeliveryInject m then Some (goto (WUserGates 0 e k) s)
      else if parks wd i e then
        let '(e, s) := match Durable m with
                       | Some _ => if bool_decide (usageHoldPhase wd = Open) then (e, s) else storeUsageHeld e s
                       | None => (e, s)
                       end in
        Some (dispatched k (upd (park (now wd) e) s))
      else Some (goto (WRelogin e k) s)
  | None => None
  end.

(** An injection of the user's waits as a user turn does. *)
Definition dispatchInject_user (c : choice) (stage : nat) (e : Envelope) (k : cont) (s : sys) : option sys :=
  let wd := w s in
  if (4 <=? stage)%nat then Some (goto (WInject e (IGo k)) s)
  else if gate_closed wd stage
  then match c with
       | CtxDone => if ctx_done wd then Some (exit_from k (refuse e s)) else None
       | _ => None
       end
  else Some (goto (WUserGates (S stage) e k) s).

(** Any other waits out a login. *)
Definition dispatchInject_relogin (c : choice) (e : Envelope) (k : cont) (s : sys) : option sys :=
  let wd := w s in
  if reloginHoldClosed wd
  then match c with
       | CtxDone => if ctx_done wd then Some (exit_from k (refuse e s)) else None
       | _ => None
       end
  else Some (goto (WInject e (IGo k)) s).

(** *** [runUserBatch] *)
(** The gates, one after the other; then the slots, if there is a limiter. *)
Definition waitUserTurnGates (c : choice) (stage : nat) (b : batchrun) (s : sys) : option sys :=
  let wd := w s in
  if (4 <=? stage)%nat then
    if bool_decide (limits = []) then Some (goto (WRecheckGates b) s)
    else Some (goto (WSlot (with_slots limits [] b)) (upd (set_waitCancel (Some false)) s))
  else if gate_closed wd stage
  then match c with
       | CtxDone => if ctx_done wd then Some (worker_exit (note (CtxDropped (batch b)) s)) else None
       | _ => None
       end
  else Some (goto (WGates (S stage) b) s).

(** The next limiter. *)
Definition acquireTurnSlots (c : choice) (b : batchrun) (s : sys) : option sys :=
  match todo b with
  | [] => Some (goto (WGranted b) s)
  | l :: t => match c with
              | Grant => Some (goto (WSlot (with_slots t (slots b ++ [l]) b)) s)
              | MustWait => Some (goto (WWait b) s)
              | _ => None
              end
  end.

(** The select of the slot wait. *)
Definition waitTurnSlot (c : choice) (b : batchrun) (s : sys) : option sys :=
  let i := inb s in
  let wd := w s in
  match c with
  | Grant => match todo b with
             | l :: t => Some (goto (WSlot (with_slots t (slots b ++ [l]) b)) s)
             | [] => None
             end
  | Recv => match ch i with
            | e :: l => let s := upd (set_ch l) s in
                        if is_inject e then Some (goto (WDispatch e (KSlot b)) s)
                        else Some (goto (WWait (with_batch (batch b ++ [e]) b)) s)
            | [] => None
            end
  | Watch => match heldWatch i with
             | Some g => if fired g
                         then Some (goto (WWalk [] (held i) (KSlot b)) (upd (fun i => set_held [] (stopHeldWatch i)) s))
                         else None
             | None => None
             end
  | CtxDone => if ctx_done wd || bool_decide (waitCancel i = Some true) then Some (abort b s) else None
  | _ => None
  end.

(** The grants are settled against a /stop. *)
Definition claimWaitCancel (b : batchrun) (s : sys) : option sys :=
  let i := inb s in
  let wd := w s in
  if ctx_done wd || bool_decide (waitCancel i = Some true) then Some (abort b s)
  else Some (goto (WRecheckGates b) (upd (set_waitCancel None) s)).

Definition recheckGates (b : batchrun) (s : sys) : option sys :=
  let wd := w s in
  if userTurnGatesClosed wd then Some (goto (WGates 0 (with_slots [] [] b)) s)
  else Some (goto (WTake b) s).

(** Every queued user message joins. *)
Definition takeBatch (b : batchrun) (s : sys) : option sys :=
  let i := inb s in
  let '(users, dropped, i) := takeQueuedUsers i in
  let s := put_stored (forget_records users (stored s)) (put_inb i s) in
  Some (goto (WDrive (with_batch (batch b ++ users) b)) (note (StopDropped dropped) s)).

Definition runUserBatch_end (b : batchrun) (s : sys) : option sys :=
  Some (batch_done b (upd (set_turnActive false) s)).

(** *** [driveAndDrainOrphans] *)
Definition driveOnce (b : batchrun) (s : sys) : option sys :=
  match Driver (seed b) with
  | None => Some (goto (WEnd (with_batch [] b)) (note (NoDriver (batch b)) s))
  | Some _ => Some (drive b s)
  end.

(** While the turn runs: its first write, its drains of the steer buffer, its end. *)
Definition turn_running (c : choice) (b : batchrun) (s : sys) : option sys :=
  let i := inb s in
  match c with
  | Primary => Some (upd (set_turnActive true) s)
  | Steers => let '(l, i) := drainSteer i in Some (note (FoldedSteers l) (put_inb i s))
  | Ends => Some (goto (WAfter b) (upd (fun i => set_busy (pred (busy i)) (set_turnCancel None i)) s))
  | _ => None
  end.

(** After a turn: the buffered steers. *)
Definition drainOrphans (b : batchrun) (s : sys) : option sys :=
  let i := inb s in
  let wd := w s in
  let '(orphans, i) := drainSteer i in
  let s := put_inb i s in
  if holdsUser wd
  then Some (goto (WEnd b) (fold_left (fun s e => park_held e s) (buildFollowUp (seed b) orphans []) s))
  else Some (goto (WExtras b orphans) s).

(** Then what arrived meanwhile. *)
Definition drainExtras (b : batchrun) (orphans : list SteerEntry) (s : sys) : option sys :=
  let i := inb s in
  let '(l, i) := drainAvailable i in
  let i := pushPending l i in
  let '(extras, dropped, i) := if pendingHeadIsInject i then ([], [], i) else takeQueuedUsers i in
  let s := note (StopDropped dropped) (put_inb i s) in
  if bool_decide (orphans = []) && bool_decide (extras = []) then Some (goto (WEnd b) s)
  else Some (goto (WDrive (with_batch (buildFollowUp (seed b) orphans extras) b)) s).

(** One step of the worker. *)
Definition work (c : choice) (s : sys) : option sys :=
  match pc s with
  | WTop => worker_top s
  | WWalk kept l k => releaseHeld_next kept l k s
  | WWalkGate kept e rest k => releaseHeld_gate c kept e rest k s
  | WInject e ic => runInject e ic s
  | WDefer e by_ ic => runInject_defer e by_ ic s
  | WRecheck ic => runInject_recheck ic s
  | WRunning e ic => runInject_run c e ic s
  | WResume => takeUsageResume s
  | WRelease => releaseUsageHeld s
  | WQueue => worker_queue s
  | WIdle => worker_select c s
  | WHandle e => handleDequeued c e s
  | WDispatch e k => dispatchInject e k s
  | WUserGates stage e k => dispatchInject_user c stage e k s
  | WRelogin e k => dispatchInject_relogin c e k s
  | WGates stage b => waitUserTurnGates c stage b s
  | WSlot b => acquireTurnSlots c b s
  | WWait b => waitTurnSlot c b s
  | WGranted b => claimWaitCancel b s
  | WRecheckGates b => recheckGates b s
  | WTake b => takeBatch b s
  | WDrive b => driveOnce b s
  | WTurn b => turn_running c b s
  | WAfter b => drainOrphans b s
  | WExtras b orphans => drainExtras b orphans s
  | WEnd b => runUserBatch_end b s
  | WDead => None
  end.

(** ** The callers *)
Definition put_caller (n : nat) (c : caller) (s : sys) : sys := put_callers (<[ n := c ]> (callers s)) s.

(** An [Enqueue] returned: true, before the inbox was looked up (a login code)
    or after; or false. *)
Definition captured_by (n : nat) (c : caller) (e : Envelope) (s : sys) : sys :=
  put_caller n (MkCaller CNext (c_rest c) (c_requeue c)) (if c_requeue c then s else accept e s).
Definition accepted_by (n : nat) (c : caller) (e : Envelope) (s : sys) : sys := touched (captured_by n c e s).
Definition rejected_by (n : nat) (c : caller) (e : Envelope) (s : sys) : sys :=
  put_caller n (MkCaller CNext (c_rest c) (c_requeue c))
    (if c_requeue c then refuse e s else note (Rejected e) s).

Definition call_step (n : nat) (s : sys) : option sys :=
  match callers s !! n with
  | None => None
  | Some c =>
      match c_state c with
      | CNext =>
          match c_rest c with
          | [] => None
          | e :: rest =>
              let c := MkCaller CNext rest (c_requeue c) in
              match enqueue_route platform_of (w s) (turnActive (inb s)) e with
              | None => Some (rejected_by n c e s)
              | Some r => Some (put_caller n (MkCaller (CAct e r) rest (c_requeue c)) s)
              end
          end
      | CAct e ToQueue =>
          if is_inject e then Some (put_caller n (MkCaller (CPush e) (c_rest c) (c_requeue c)) s)
          else let q := (lastSeq (inb s) + 1)%N in
               Some (put_caller n (MkCaller (CPush (with_enqSeq q e)) (c_rest c) (c_requeue c)) (upd (set_lastSeq q) s))
      | CAct e ToBuffer =>
          Some (accepted_by n c e (upd (fun i => set_steer (steer i ++ [steerEntryFor e]) i) s))
      | CAct e ToFold => Some (accepted_by n c e (note (Folded e) s))
      | CAct e ToCode => Some (captured_by n c e (note (Captured e) s))
      | CAct e _ => Some (accepted_by n c e (note (Captured e) s))
      | CPush e =>
          if (length (ch (inb s)) <? inboxChanSize)%nat
          then Some (accepted_by n c e (upd (fun i => set_ch (ch i ++ [e]) i) s))
          else Some (rejected_by n c e s)
      end
  end.

(** [RestoreUsageHeld], for the messages: one goroutine enqueues them. *)
Definition restored (l : list usageHeldRecord) : list Envelope :=
  match heldDriver with
  | Some d => (fun r => record_envelope r sk (d sk)) <$> filter (fun r => r_Kind r <> KInject) l
  | None => []
  end.

(** ** The system *)
Inductive action :=
| Work (c : choice)
| Call (l : list Envelope)
| CallStep (n : nat)
| Environment (w' : World)
| Fire (n : nat)
| Drain (reqID : gostr)
| Stop_
| Interrupt
| Signal
| Reap
| RestoreHeld.

(** The clock does not go back; a drain and the end of the context are final. *)
Definition later (wd w' : World) : bool :=
  (now wd <=? now w')%Z && (negb (ctx_done wd) || ctx_done w') && (negb (shutting wd) || shutting w').

Definition step (a : action) (s : sys) : option sys :=
  let i := inb s in
  match a with
  | Work c => work c s
  | Call l => Some (put_callers (callers s ++ [MkCaller CNext l false]) s)
  | CallStep n => call_step n s
  | Environment w' => if later (w s) w' then Some (put_w w' s) else None
  | Fire n =>
      match timers s !! n with
      | Some t => if (TimeAdd t maxAskHold <=? now (w s))%Z
                  then Some (drain_deferred (ask_expired (w s)) (put_timers (take n (timers s) ++ drop (S n) (timers s)) s))
                  else None
      | None => None
      end
  | Drain reqID => Some (drain_deferred (held_by reqID) s)
  | Stop_ => Some (upd (fun i => (CancelSession i).2) s)
  | Interrupt =>
      Some (upd (fun i => set_usageKick true (set_resume true
                  (match turnCancel i with Some _ => set_turnCancel (Some true) i | None => i end))) s)
  | Signal =>
      match heldWatch i with
      | Some g => if negb (fired g) && existsb (fun e => negb (injectHeld (w s) (busy i) e)) (armed g)
                  then Some (upd (set_heldWatch (Some (MkWatch (armed g) true))) s) else None
      | None => None
      end
  | Reap => if (inboxIdleAfter <=? idleFor (now (w s)) i)%Z then Some (upd (set_evictReq true) s) else None
  | RestoreHeld => Some (put_callers (callers s ++ [MkCaller CNext (restored (stored s)) false]) s)
  end.

Fixpoint run (l : list action) (s : sys) : option sys :=
  match l with
  | [] => Some s
  | a :: l => match step a s with Some s => run l s | None => None end
  end.

Definition moves (s s' : sys) : Prop := exists a, step a s = Some s'.

(** A fresh inbox, with what an earlier process stored. *)
Definition start (wd : World) (l : list usageHeldRecord) : sys :=
  MkSys wd (newSessionInbox (now wd)) WTop [] [] l 0 [] [].

Definition reachable (s : sys) : Prop := exists wd l, rtc moves (start wd l) s.

Lemma run_moves l s s' : run l s = Some s' -> rtc moves s s'.
Proof.
  revert s. induction l as [|a l IH]; intros s H; cbn in H; [by simplify_eq|].
  destruct (step a s) as [t|] eqn:E; [|done]. eapply rtc_l; [by exists a|]. auto.
Qed.
End Machine.

(** The step of the worker, down to its cases. *)
Ltac unfold_work H :=
  unfold work, worker_top, releaseHeld_next, releaseHeld_gate, runInject, runInject_defer, runInject_recheck, runInject_run, takeUsageResume, releaseUsageHeld, worker_queue, worker_select, handleDequeued, dispatchInject, dispatchInject_user, dispatchInject_relogin, waitUserTurnGates, acquireTurnSlots, waitTurnSlot, claimWaitCancel, recheckGates, takeBatch, driveOnce, turn_running, drainOrphans, drainExtras, runUserBatch_end in H.

(** ** Runs *)

(** An agent of the API mode with nothing going on; a delegated one under an
    account phase, with an adopted run or background work outstanding. *)
Definition calm : World :=
  MkWorld 1 false false false false false false Open [] false false false false false false false false false false NoBackend.
Definition steering : World :=
  MkWorld 1 false false false false false false Open [] false false false false false false false true false false NoBackend.
Definition asking (reqID : gostr) : World :=
  MkWorld 1 false false false false false false Open reqID false false false false false false false false false false NoBackend.
Definition stopping : World :=
  MkWorld 1 true true false false false false Open [] false false false false false false false false false false NoBackend.
Definition working (p : Phase) (adopted awaiting : bool) : World :=
  MkWorld 1 false false true false false false p [] false false adopted false awaiting false false false false false NoBackend.

Definition user_msg (text : gostr) : Envelope :=
  MkEnvelope "s" text [] [] [] [] 0 false 1 false SteerDefault true false None (Some 1%nat) ([], []) None 0 0 0%N [] false.
Definition injection (trigger reqID : gostr) : Envelope :=
  MkEnvelope "s" [] [] [] [] [] 0 false 1 false SteerDefault false false None None ([], [])
    (Some (MkInject trigger false None None reqID None false)) 0 0 0%N [] false.

Definition no_platform (_ : nat) : gostr := [].
Definition on_first (_ : gostr) : option nat := Some 1%nat.

(** A whole [Enqueue] by the caller numbered [n]; [n] steps of the worker. *)
Definition enqueue (n : nat) (e : Envelope) : list action := [Call [e]; CallStep n; CallStep n; CallStep n].
Definition go (n : nat) : list action := replicate n (Work Go).

Definition demo (wd : World) (held : list usageHeldRecord) (l : list action) : option sys :=
  run no_platform (Some on_first) [AgentLimit] "s" l (start wd held).
Definition reached (s : sys) : Prop := reachable no_platform (Some on_first) [AgentLimit] "s" s.

Lemma demo_reached wd held l s : demo wd held l = Some s -> reached s.
Proof. intros H. exists wd, held. by apply (run_moves _ _ _ _ l). Qed.

(** All calls have returned. *)
Definition returned (s : sys) : bool := forallb (fun c => unpinned c && bool_decide (c_rest c = [])) (callers s).

(** The worker of a fresh inbox reaches its select; a message waits for a slot;
    a turn begins. *)
Definition to_idle : list action := go 5.
Definition to_wait (n : nat) (e : Envelope) : list action := enqueue n e ++ [Work Recv] ++ go 6 ++ [Work MustWait].
Definition to_turn (n : nat) (e : Envelope) : list action := enqueue n e ++ [Work Recv] ++ go 6 ++ [Work Grant] ++ go 5.

(** Where a run ends. *)
Definition ends (wd : World) (held : list usageHeldRecord) (l : list action) : sys := default (start wd held) (demo wd held l).

Lemma ends_reached wd held l : match demo wd held l with Some _ => true | None => false end = true -> reached (ends wd held l).
Proof. unfold ends. destruct (demo wd held l) eqn:E; [|done]. intros _. by eapply demo_reached. Qed.
