(* ===== verification/InboxLedger.v ===== *)
(** * The session inbox: nothing is lost or repeated

    Every envelope the inbox accepted is in exactly one place: on a queue or
    list, in the hands of the worker or of a requeue, or in the record of what
    became of it.  The lemmas count the copies of one token over all places. *)
From S2P Require Import Prelude GoStrings GoNum SessionKey UsageHold Inbox InboxRun.
From Stdlib Require Import Permutation.
Local Open Scope gostr_scope.

#[export] Instance DurableInject_eq_dec : EqDecision DurableInject.
Proof. solve_decision. Defined.
#[export] Instance InjectMeta_eq_dec : EqDecision InjectMeta.
Proof. solve_decision. Defined.
#[export] Instance token_eq_dec : EqDecision token.
Proof. solve_decision. Defined.

(** ** Places *)
Definition toks (l : list Envelope) : list token := token_of <$> l.

Definition inbox_tokens (i : inbox) : list token :=
  toks (ch i) ++ (steer_token <$> steer i) ++ toks (deferredInjects i).*1 ++ toks (held i) ++ toks (pending i)
  ++ toks (usageHeld i).

Definition cont_tokens (k : cont) : list token := match k with KLoop => [] | KSlot b => toks (batch b) end.
Definition icont_tokens (i : icont) : list token :=
  match i with IWalk kept rest k => toks kept ++ toks rest ++ cont_tokens k | IGo k => cont_tokens k end.

Definition pc_tokens (p : wpc) : list token :=
  match p with
  | WTop | WResume | WRelease | WQueue | WIdle | WDead => []
  | WWalk kept rest k => toks kept ++ toks rest ++ cont_tokens k
  | WWalkGate kept e rest k => token_of e :: toks kept ++ toks rest ++ cont_tokens k
  | WInject e i | WDefer e _ i => token_of e :: icont_tokens i
  | WRecheck i | WRunning _ i => icont_tokens i
  | WHandle e => [token_of e]
  | WDispatch e k | WUserGates _ e k | WRelogin e k => token_of e :: cont_tokens k
  | WGates _ b | WSlot b | WWait b | WGranted b | WRecheckGates b | WTake b | WDrive b | WTurn b | WAfter b | WEnd b =>
      toks (batch b)
  | WExtras b orphans => toks (batch b) ++ (steer_token <$> orphans)
  end.

(** What a requeue still has to enqueue; a first call is not accepted yet. *)
Definition caller_tokens (c : caller) : list token :=
  if c_requeue c
  then match c_state c with CNext => [] | CAct e _ | CPush e => [token_of e] end ++ toks (c_rest c)
  else [].

Definition event_tokens (e : event) : list token :=
  match e with
  | Drove l | StopDropped l | CtxDropped l | NoDriver l => toks l
  | Injected e | Folded e | Captured e | RefusedInject e | Discarded e => [token_of e]
  | FoldedSteers l => steer_token <$> l
  | Rejected _ => []
  end.

Definition places (s : sys) : list token :=
  concat (event_tokens <$> log s) ++ inbox_tokens (inb s) ++ pc_tokens (pc s) ++ concat (caller_tokens <$> callers s).

(** ** Counting *)
Section Count.
Context (t : token).

Definition copies (l : list token) : nat := count_occ (decide_rel (=)) l t.

Arguments copies : simpl never.

Lemma copies_app l k : copies (l ++ k) = copies l + copies k.
Proof. apply count_occ_app. Qed.

Lemma copies_nil : copies [] = 0.
Proof. done. Qed.

Definition once (x : token) : nat := if decide_rel (=) x t then 1 else 0.

Lemma copies_cons x l : copies (x :: l) = once x + copies l.
Proof. unfold copies, once. cbn. by destruct (decide_rel (=) x t). Qed.

Lemma toks_app l k : copies (toks (l ++ k)) = copies (toks l) + copies (toks k).
Proof. unfold toks. by rewrite fmap_app, copies_app. Qed.

Lemma toks_cons e l : copies (toks (e :: l)) = once (token_of e) + copies (toks l).
Proof. apply copies_cons. Qed.

Lemma toks_nil : copies (toks []) = 0.
Proof. done. Qed.

Lemma toks_split (P : Envelope -> bool) l :
  copies (toks (filter (fun e => P e = true) l)) + copies (toks (filter (fun e => P e = false) l)) = copies (toks l).
Proof.
  induction l as [|e l IH]; [done|]. rewrite !filter_cons, toks_cons.
  repeat case_decide; try congruence; rewrite ?toks_cons; try lia. by destruct (P e).
Qed.

Lemma deferred_split (P : Envelope * gostr -> bool) l :
  copies (toks (filter (fun d => P d = true) l).*1) + copies (toks (filter (fun d => P d = false) l).*1) = copies (toks l.*1).
Proof.
  induction l as [|e l IH]; [done|]. rewrite !filter_cons. cbn [fmap list_fmap]. rewrite toks_cons.
  repeat case_decide; try congruence; cbn [fmap list_fmap]; rewrite ?toks_cons; try lia. by destruct (P e).
Qed.

Lemma log_snoc l e : copies (concat (event_tokens <$> (l ++ [e]))) = copies (concat (event_tokens <$> l)) + copies (event_tokens e).
Proof. rewrite fmap_app, concat_app, copies_app. cbn. by rewrite app_nil_r. Qed.

Lemma callers_snoc l c : copies (concat (caller_tokens <$> (l ++ [c]))) = copies (concat (caller_tokens <$> l)) + copies (caller_tokens c).
Proof. rewrite fmap_app, concat_app, copies_app. cbn. by rewrite app_nil_r. Qed.

Lemma callers_insert l n c c' : l !! n = Some c ->
  copies (concat (caller_tokens <$> (<[ n := c' ]> l))) + copies (caller_tokens c)
  = copies (concat (caller_tokens <$> l)) + copies (caller_tokens c').
Proof.
  revert n. induction l as [|d l IH]; intros [|n] H; cbn in H; simplify_eq.
  - change (<[ 0 := c' ]> (c :: l)) with (c' :: l). rewrite !fmap_cons. cbn [concat]. rewrite !copies_app. lia.
  - change (<[ S n := c' ]> (d :: l)) with (d :: <[ n := c' ]> l). rewrite !fmap_cons. cbn [concat].
    rewrite !copies_app. specialize (IH n H). lia.
Qed.

(** The copies outside the worker's hands. *)
Definition body (s : sys) : nat :=
  copies (concat (event_tokens <$> log s)) + copies (inbox_tokens (inb s)) + copies (concat (caller_tokens <$> callers s)).

Definition level (s : sys) : nat := body s + copies (pc_tokens (pc s)).

Lemma level_places s : level s = copies (places s).
Proof. unfold level, body, places. rewrite !copies_app. lia. Qed.

Lemma inbox_copies i : copies (inbox_tokens i)
  = copies (toks (ch i)) + copies (steer_token <$> steer i) + copies (toks (deferredInjects i).*1) + copies (toks (held i))
    + copies (toks (pending i)) + copies (toks (usageHeld i)).
Proof. unfold inbox_tokens. rewrite !copies_app. lia. Qed.

Lemma body_note e s : body (note e s) = body s + copies (event_tokens e).
Proof. unfold body, note, put_log. cbn [log inb callers]. rewrite log_snoc. lia. Qed.

Lemma body_upd f s : body (upd f s) + copies (inbox_tokens (inb s)) = body s + copies (inbox_tokens (f (inb s))).
Proof. unfold body, upd, put_inb. cbn [log inb callers]. lia. Qed.

(** Updates of fields that hold no envelope. *)
Lemma body_same f s : copies (inbox_tokens (f (inb s))) = copies (inbox_tokens (inb s)) -> body (upd f s) = body s.
Proof. intros H. pose proof (body_upd f s). lia. Qed.

Lemma body_goto p s : body (goto p s) = body s.
Proof. done. Qed.

Lemma body_refuse e s : body (refuse e s) = body s + once (token_of e).
Proof. unfold refuse. rewrite body_note. by destruct (is_inject e). Qed.

Lemma refuse_all_frame l s : inb (refuse_all l s) = inb s /\ pc (refuse_all l s) = pc s /\ taken (refuse_all l s) = taken s
  /\ body (refuse_all l s) = body s + copies (toks l).
Proof.
  revert s. induction l as [|e l IH]; intros s; [by rewrite toks_nil; split_and!; try done; cbn; lia|].
  change (refuse_all (e :: l) s) with (refuse_all l (refuse e s)). destruct (IH (refuse e s)) as (-> & -> & -> & ->).
  rewrite body_refuse, toks_cons. split_and!; try done. lia.
Qed.

Lemma worker_exit_frame s : body (worker_exit s) = body s /\ pc (worker_exit s) = WDead /\ taken (worker_exit s) = taken s.
Proof.
  unfold worker_exit. set (s1 := upd stopHeldWatch s).
  assert (body s1 = body s) as H1 by by apply body_same.
  destruct (refuse_all_frame (held (inb s1)) s1) as (E1 & E2 & E3 & E4).
  set (s2 := upd (set_held []) (refuse_all (held (inb s1)) s1)).
  assert (body s2 = body s1) as H2.
  { pose proof (body_upd (set_held []) (refuse_all (held (inb s1)) s1)) as H. rewrite E1 in H.
    rewrite !inbox_copies in H. cbn [set_held ch steer deferredInjects held pending usageHeld] in H. rewrite toks_nil in H.
    unfold s2. lia. }
  destruct (refuse_all_frame (pending (inb s2)) s2) as (F1 & F2 & F3 & F4).
  split_and!; [|done|].
  - rewrite body_goto. pose proof (body_upd (set_pending []) (refuse_all (pending (inb s2)) s2)) as H. rewrite F1 in H.
    rewrite !inbox_copies in H. cbn [set_pending ch steer deferredInjects held pending usageHeld] in H. rewrite toks_nil in H. lia.
  - cbn [goto put_pc upd put_inb taken]. rewrite F3. unfold s2. cbn [upd put_inb taken]. by rewrite E3.
Qed.

(** What a return of the worker leaves in its hands. *)
Section Returns.
Context (heldDriver : option (gostr -> option nat)) (limits : list scope) (sk : gostr).

Lemma exit_from_frame k s : body (exit_from k s) = body s + copies (cont_tokens k)
  /\ pc (exit_from k s) = WDead /\ taken (exit_from k s) = taken s.
Proof.
  destruct k as [|b]; cbn [exit_from cont_tokens].
  - destruct (worker_exit_frame s) as (-> & -> & ->). rewrite copies_nil. split_and!; [lia|done|done].
  - destruct (worker_exit_frame (note (CtxDropped (batch b)) (upd (set_waitCancel None) s))) as (-> & -> & ->).
    rewrite body_note, body_same by done. done.
Qed.

Lemma handled_frame s : body (handled s) = body s /\ pc (handled s) = WTop /\ taken (handled s) = taken s.
Proof. unfold handled, touched. rewrite body_goto, body_same by done. done. Qed.

Lemma dispatched_frame k s : body (dispatched k s) = body s /\ copies (pc_tokens (pc (dispatched k s))) = copies (cont_tokens k)
  /\ taken (dispatched k s) = taken s.
Proof. destruct k; [|done]. cbn [dispatched]. destruct (handled_frame s) as (-> & -> & ->). done. Qed.

Lemma inject_done_frame i s : body (inject_done i s) = body s /\ copies (pc_tokens (pc (inject_done i s))) = copies (icont_tokens i)
  /\ taken (inject_done i s) = taken s.
Proof. destruct i; [done|]. apply dispatched_frame. Qed.

Lemma batch_done_frame b s : body (batch_done b s) = body s /\ copies (pc_tokens (pc (batch_done b s))) = 0
  /\ taken (batch_done b s) = taken s.
Proof. unfold batch_done. destruct (from_hold b); [done|]. destruct (handled_frame s) as (-> & -> & ->). done. Qed.

Lemma abort_frame b s : body (abort b s) = body s + copies (toks (batch b)) /\ copies (pc_tokens (pc (abort b s))) = 0
  /\ taken (abort b s) = taken s.
Proof.
  unfold abort. case_match.
  - destruct (worker_exit_frame (note (CtxDropped (batch b)) (upd (set_waitCancel None) s))) as (-> & -> & ->).
    rewrite body_note, body_same by done. done.
  - destruct (batch_done_frame b (note (StopDropped (batch b)) (upd (set_waitCancel None) s))) as (-> & -> & ->).
    rewrite body_note, body_same by done. done.
Qed.

Lemma store_frame e s : let '(e', s') := storeUsageHeld e s in
  token_of e' = token_of e /\ usageResume e' = usageResume e /\ heldSince e' = heldSince e /\ Inject e' = Inject e
  /\ inb s' = inb s /\ pc s' = pc s /\ taken s' = taken s /\ body s' = body s.
Proof. unfold storeUsageHeld. case_bool_decide; done. Qed.

Lemma park_held_frame e s : body (park_held e s) = body s + once (token_of e) /\ pc (park_held e s) = pc s
  /\ taken (park_held e s) = taken s.
Proof.
  unfold park_held. pose proof (store_frame e s) as H. destruct (storeUsageHeld e s) as [e' s'].
  destruct H as (Ht & Hr & _ & _ & Hi & Hp & Hk & Hb).
  set (s2 := if _ && _ then _ else _).
  assert (inb s2 = inb s') as Ei by (unfold s2; by case_match).
  assert (pc s2 = pc s') as Ep by (unfold s2; by case_match).
  assert (taken s2 = taken s') as Et by (unfold s2; by case_match).
  pose proof (body_upd (set_usageHeld (parkUsageHeld e' (usageHeld (inb s2)))) s2) as H.
  rewrite !inbox_copies in H. cbn [set_usageHeld ch steer deferredInjects held pending usageHeld] in H.
  split_and!; cbn [upd put_inb pc taken]; [|congruence|congruence]. rewrite Ei in H. rewrite Ei.
  assert (copies (toks (parkUsageHeld e' (usageHeld (inb s')))) + body s2
          = copies (toks (usageHeld (inb s'))) + once (token_of e) + body s') as H2; [|lia].
  unfold s2, parkUsageHeld. destruct (usageResume e'); cbn [andb].
  - destruct (existsb usageResume (usageHeld (inb s'))).
    + rewrite body_note. cbn [event_tokens]. rewrite copies_cons, copies_nil, Ht. lia.
    + rewrite toks_cons, Ht. lia.
  - rewrite toks_app, toks_cons, toks_nil, Ht. lia.
Qed.

Lemma park_all_frame l s : let s' := fold_left (fun s e => park_held e s) l s in
  body s' = body s + copies (toks l) /\ pc s' = pc s /\ taken s' = taken s.
Proof.
  revert s. induction l as [|e l IH]; intros s; cbn [fold_left]; [rewrite toks_nil; split_and!; [lia|done|done]|].
  destruct (IH (park_held e s)) as (-> & -> & ->). destruct (park_held_frame e s) as (-> & -> & ->).
  rewrite toks_cons. split_and!; [lia|done|done].
Qed.

Lemma drain_frame p s : body (drain_deferred p s) = body s /\ pc (drain_deferred p s) = pc s
  /\ taken (drain_deferred p s) = taken s.
Proof.
  unfold drain_deferred, take_deferred. split_and!; [|done|done]. unfold body, put_callers, put_inb. cbn [log inb callers].
  rewrite callers_snoc, !inbox_copies. cbn [set_deferredInjects ch steer deferredInjects held pending usageHeld].
  unfold caller_tokens at 2. cbn [c_requeue c_state c_rest app].
  pose proof (deferred_split p (deferredInjects (inb s))). lia.
Qed.

Lemma run_closure_frame e i s : body (run_closure e i s) = body s + once (token_of e)
  /\ copies (pc_tokens (pc (run_closure e i s))) = copies (icont_tokens i) /\ taken (run_closure e i s) = taken s.
Proof.
  unfold run_closure. set (s1 := note _ _).
  assert (body s1 = body s + once (token_of e)) as Hb by (unfold s1; by rewrite body_note).
  assert (taken s1 = taken s) as Ht by done.
  destruct (inject_done_frame i s1) as (H1 & H2 & H3).
  destruct (Inject e) as [m|]; [destruct (Run m)|]; rewrite ?H1, ?H2, ?H3; [|done|done].
  rewrite body_goto, body_same by done. done.
Qed.

(** ** Every step *)
Ltac frames :=
  repeat match goal with
  | |- context [body (exit_from ?k ?s)] => destruct (exit_from_frame k s) as (Hf1 & Hf2 & Hf3); rewrite ?Hf1, ?Hf2, ?Hf3; clear Hf1 Hf2 Hf3
  | |- context [body (worker_exit ?s)] => destruct (worker_exit_frame s) as (Hf1 & Hf2 & Hf3); rewrite ?Hf1, ?Hf2, ?Hf3; clear Hf1 Hf2 Hf3
  | |- context [body (handled ?s)] => destruct (handled_frame s) as (Hf1 & Hf2 & Hf3); rewrite ?Hf1, ?Hf2, ?Hf3; clear Hf1 Hf2 Hf3
  | |- context [body (dispatched ?k ?s)] => destruct (dispatched_frame k s) as (Hf1 & Hf2 & Hf3); rewrite ?Hf1, ?Hf2, ?Hf3; clear Hf1 Hf2 Hf3
  | |- context [body (inject_done ?i ?s)] => destruct (inject_done_frame i s) as (Hf1 & Hf2 & Hf3); rewrite ?Hf1, ?Hf2, ?Hf3; clear Hf1 Hf2 Hf3
  | |- context [body (batch_done ?b ?s)] => destruct (batch_done_frame b s) as (Hf1 & Hf2 & Hf3); rewrite ?Hf1, ?Hf2, ?Hf3; clear Hf1 Hf2 Hf3
  | |- context [body (abort ?b ?s)] => destruct (abort_frame b s) as (Hf1 & Hf2 & Hf3); rewrite ?Hf1, ?Hf2, ?Hf3; clear Hf1 Hf2 Hf3
  | |- context [body (run_closure ?e ?i ?s)] => destruct (run_closure_frame e i s) as (Hf1 & Hf2 & Hf3); rewrite ?Hf1, ?Hf2, ?Hf3; clear Hf1 Hf2 Hf3
  | |- context [body (park_held ?e ?s)] => destruct (park_held_frame e s) as (Hf1 & Hf2 & Hf3); rewrite ?Hf1, ?Hf2, ?Hf3; clear Hf1 Hf2 Hf3
  | |- context [body (drain_deferred ?p ?s)] => destruct (drain_frame p s) as (Hf1 & Hf2 & Hf3); rewrite ?Hf1, ?Hf2, ?Hf3; clear Hf1 Hf2 Hf3
  | |- context [body (refuse ?e ?s)] => rewrite (body_refuse e s)
  | |- context [body (note ?e ?s)] => rewrite (body_note e s)
  | |- context [body (goto ?p ?s)] => rewrite (body_goto p s)
  | |- context [body (accept ?e ?s)] => change (body (accept e s)) with (body s)
  | |- context [body (put_timers ?e ?s)] => change (body (put_timers e s)) with (body s)
  | |- context [taken (goto ?p ?s)] => change (taken (goto p s)) with (taken s)
  | |- context [pc (goto ?p ?s)] => change (pc (goto p s)) with p
  | |- context [taken (refuse ?e ?s)] => change (taken (refuse e s)) with (taken s)
  | |- context [taken (note ?e ?s)] => change (taken (note e s)) with (taken s)
  | |- context [taken (accept ?e ?s)] => change (taken (accept e s)) with (taken s ++ [token_of e])
  | |- context [taken (park_held ?e ?s)] => rewrite (proj2 (proj2 (park_held_frame e s)))
  | |- context [body (put_stored ?e ?s)] => change (body (put_stored e s)) with (body s)
  end.

Lemma token_ask_stamp n e : token_of (ask_stamp n e) = token_of e.
Proof. unfold ask_stamp. by case_match. Qed.

Lemma token_park n e : token_of (if IsZero (heldSince e) then with_heldSince n e else e) = token_of e.
Proof. by destruct (IsZero (heldSince e)). Qed.

Lemma token_released e l : token_of (released_head e l) = token_of e.
Proof. unfold released_head. by repeat case_match. Qed.

Lemma inbox_ensure i : inbox_tokens (ensureHeldWatch i) = inbox_tokens i.
Proof. unfold ensureHeldWatch. by repeat case_match. Qed.

(** Count what is left by the fields. *)
Ltac tally :=
  unfold start_batch, drive, park; unfold body, goto, upd, note, refuse, accept, touched, put_pc, put_inb, put_log, put_stored, put_taken,
    put_callers, put_timers, put_w, put_caller;
  cbn [log inb callers pc taken];
  rewrite ?log_snoc, ?inbox_ensure, ?inbox_copies, ?callers_snoc;
  cbn [ch steer deferredInjects held pending usageHeld set_ch set_steer set_turnActive set_deferredInjects set_held set_heldGen
    set_heldWatchGen set_heldWatch set_pending set_usageHeld set_resume set_usageKick set_busy set_pendingExempt
    set_turnCancel set_waitCancel set_lastSeq set_stopThrough set_evictReq set_lastUsed stopHeldWatch touch
    pc_tokens cont_tokens icont_tokens event_tokens batch with_batch with_slots fst snd];
  rewrite ?fmap_app; cbn [fmap list_fmap fst];
  rewrite ?copies_app, ?copies_cons, ?copies_app, ?token_ask_stamp, ?token_park, ?token_released, ?toks_app, ?toks_cons, ?toks_nil, ?copies_nil, ?token_ask_stamp, ?token_park, ?token_released.

Definition conserving (s s' : sys) : Prop := level s' + copies (taken s) = level s + copies (taken s').

Lemma pop_copies i e i' : popPending i = Some (e, i') ->
  copies (inbox_tokens i) = once (token_of e) + copies (inbox_tokens i').
Proof.
  unfold popPending. destruct (pending i) eqn:E; intros; simplify_eq. rewrite !inbox_copies, E.
  cbn [set_pending ch steer deferredInjects held pending usageHeld]. rewrite toks_cons. lia.
Qed.

Lemma evictable_empty wd i : evictable wd i = true -> inbox_tokens i = [].
Proof.
  unfold evictable. intros H. split_and_hyps.
  repeat match goal with E : bool_decide (_ = []) = true |- _ => apply bool_decide_eq_true in E end.
  unfold inbox_tokens. by repeat match goal with E : _ = [] |- _ => rewrite E; clear E end.
Qed.

Lemma take_copies i u d i' : takeQueuedUsers i = (u, d, i') ->
  copies (inbox_tokens i) = copies (toks u) + copies (toks d) + copies (inbox_tokens i').
Proof.
  unfold takeQueuedUsers, drainAvailable, takePendingUsers, pushPending. intros H. simplify_eq.
  rewrite !inbox_copies. cbn [set_pending set_ch ch steer deferredInjects held pending usageHeld].
  set (l := pending i ++ ch i).
  pose proof (toks_split is_inject l) as H1.
  pose proof (toks_split (stoppedQueued (set_pending (filter (fun e => is_inject e = true) l)
    (set_pending l (set_ch [] i)))) (filter (fun e => is_inject e = false) l)) as H2.
  unfold l at 3 in H1. rewrite toks_app in H1. cbn [set_pending set_ch pending] in H2. fold l in H2. rewrite toks_nil. lia.
Qed.

(** While the release walk has the held list in hand, the field is empty. *)
Definition walking (p : wpc) : bool :=
  match p with
  | WWalk _ _ _ | WWalkGate _ _ _ _ | WInject _ (IWalk _ _ _) | WDefer _ _ (IWalk _ _ _) | WRecheck (IWalk _ _ _)
  | WRunning _ (IWalk _ _ _) => true
  | _ => false
  end.
Definition walk_ok (s : sys) : Prop := walking (pc s) = true -> held (inb s) = [].

Ltac one_pc Ep H := rewrite Ep in H; unfold conserving, level; rewrite Ep; repeat case_match; simplify_eq; unfold start_batch; frames; tally; try lia.

Section OnePlace.
Context (c : choice) (s s' : sys) (Hok : walk_ok s) (H : work heldDriver limits sk c s = Some s').

Lemma work_top : pc s = WTop -> conserving s s'.
Proof using H. intros Ep. unfold_work H. one_pc Ep H. Qed.

Lemma work_walk kept rest k : pc s = WWalk kept rest k -> conserving s s'.
Proof using Hok H.
  intros Ep. unfold walk_ok in Hok. rewrite Ep in Hok. cbn in Hok. unfold_work H. rewrite Ep in H.
  unfold conserving, level. rewrite Ep. repeat case_match; simplify_eq; tally; rewrite ?Hok, ?toks_nil by done; try lia.
Qed.

Lemma work_walk_gate kept e rest k : pc s = WWalkGate kept e rest k -> conserving s s'.
Proof using Hok H.
  intros Ep. unfold walk_ok in Hok. rewrite Ep in Hok. cbn in Hok. unfold_work H. rewrite Ep in H.
  unfold conserving, level. rewrite Ep. repeat case_match; simplify_eq; frames; tally; rewrite ?Hok, ?toks_nil by done; try lia.
Qed.

Lemma work_inject e i : pc s = WInject e i -> conserving s s'.
Proof using H. intros Ep. unfold_work H. one_pc Ep H. Qed.

Lemma work_defer e b i : pc s = WDefer e b i -> conserving s s'.
Proof using H. intros Ep. unfold_work H. one_pc Ep H. Qed.

Lemma work_recheck i : pc s = WRecheck i -> conserving s s'.
Proof using H. intros Ep. unfold_work H. one_pc Ep H. Qed.

Lemma work_running e i : pc s = WRunning e i -> conserving s s'.
Proof using H. intros Ep. unfold_work H. one_pc Ep H. Qed.

Lemma work_resume : pc s = WResume -> conserving s s'.
Proof using H. intros Ep. unfold_work H. one_pc Ep H. Qed.

Lemma work_release : pc s = WRelease -> conserving s s'.
Proof using H.
  intros Ep. unfold_work H. one_pc Ep H. all: match goal with E : usageHeld _ = _ |- _ => rewrite E end; rewrite toks_cons; lia.
Qed.

Lemma work_queue : pc s = WQueue -> conserving s s'.
Proof using H.
  intros Ep. unfold_work H. rewrite Ep in H. unfold conserving, level. rewrite Ep.
  set (s1 := upd _ s) in H.
  assert (body s1 = body s) as Hb by (apply body_same; case_bool_decide; by rewrite ?inbox_ensure).
  assert (taken s1 = taken s) as Ht by done.
  destruct (ctx_done (w s)); [simplify_eq; frames; rewrite Hb, Ht; cbn [pc_tokens]; lia|].
  destruct (popPending (inb s1)) as [[e i']|] eqn:E; simplify_eq; frames; [|rewrite Hb, Ht; done].
  apply pop_copies in E. unfold body in *. cbn [put_inb log inb callers taken pc_tokens]. rewrite Ht, copies_cons, copies_nil.
  cbn [s1 upd put_inb log inb callers] in *. lia.
Qed.

Lemma work_idle : pc s = WIdle -> conserving s s'.
Proof using H.
  intros Ep. unfold_work H. one_pc Ep H.
  - match goal with E : ch _ = _ |- _ => rewrite E end. rewrite toks_cons. lia.
  - match goal with E : _ && _ = true |- _ => apply andb_true_iff in E as [E _]; apply evictable_empty in E end.
    match goal with E : inbox_tokens _ = [] |- _ => apply (f_equal copies) in E; rewrite inbox_copies, copies_nil in E end.
    cbn [newSessionInbox ch steer deferredInjects held pending usageHeld fmap list_fmap]. rewrite toks_nil, copies_nil. lia.
Qed.

Lemma work_handle e : pc s = WHandle e -> conserving s s'.
Proof using H. intros Ep. unfold_work H. one_pc Ep H. Qed.

Lemma work_dispatch e k : pc s = WDispatch e k -> conserving s s'.
Proof using H.
  intros Ep. unfold_work H. rewrite Ep in H. unfold conserving, level. rewrite Ep.
  destruct (Inject e) as [m|] eqn:Em; [|done].
  destruct (UserInput m || isRedeliveryInject m); [simplify_eq; frames; tally; lia|].
  destruct (parks (w s) (inb s) e); [|simplify_eq; frames; tally; lia].
  set (es := match Durable m with Some _ => _ | None => _ end) in H.
  assert (token_of es.1 = token_of e /\ body es.2 = body s /\ taken es.2 = taken s /\ inb es.2 = inb s) as (E1 & E2 & E3 & E4).
  { unfold es. destruct (Durable m); [|done]. case_bool_decide; [done|].
    pose proof (store_frame e s) as Hs. destruct (storeUsageHeld e s). cbn [fst snd].
    destruct Hs as (? & _ & _ & _ & ? & _ & ? & ?). done. }
  destruct es as [e' s1]. cbn [fst snd] in *. simplify_eq. frames.
  pose proof (body_upd (park (now (w s)) e') s1) as Hu. unfold park in Hu.
  rewrite inbox_ensure, !inbox_copies in Hu.
  cbn [set_heldGen set_held ch steer deferredInjects held pending usageHeld] in Hu.
  rewrite toks_app, toks_cons, toks_nil, token_park, E1 in Hu. cbn [upd put_inb taken pc_tokens]. rewrite copies_cons, E3.
  unfold park. lia.
Qed.

Lemma work_user_gates n e k : pc s = WUserGates n e k -> conserving s s'.
Proof using H. intros Ep. unfold_work H. one_pc Ep H. Qed.

Lemma work_relogin e k : pc s = WRelogin e k -> conserving s s'.
Proof using H. intros Ep. unfold_work H. one_pc Ep H. Qed.

Lemma work_gates n b : pc s = WGates n b -> conserving s s'.
Proof using H. intros Ep. unfold_work H. one_pc Ep H. Qed.

Lemma work_slot b : pc s = WSlot b -> conserving s s'.
Proof using H. intros Ep. unfold_work H. one_pc Ep H. Qed.

Lemma work_wait b : pc s = WWait b -> conserving s s'.
Proof using H.
  intros Ep. unfold_work H. one_pc Ep H.
  all: match goal with E : ch _ = _ |- _ => rewrite E end; rewrite toks_cons; lia.
Qed.

Lemma work_granted b : pc s = WGranted b -> conserving s s'.
Proof using H. intros Ep. unfold_work H. one_pc Ep H. Qed.

Lemma work_recheck_gates b : pc s = WRecheckGates b -> conserving s s'.
Proof using H. intros Ep. unfold_work H. one_pc Ep H. Qed.

Lemma work_take b : pc s = WTake b -> conserving s s'.
Proof using H.
  intros Ep. unfold_work H. rewrite Ep in H. destruct (takeQueuedUsers (inb s)) as [[u d] i'] eqn:E.
  apply take_copies in E. rewrite inbox_copies in E. unfold conserving, level. rewrite Ep. simplify_eq. frames. tally.
  rewrite inbox_copies in E. lia.
Qed.

Lemma work_drive b : pc s = WDrive b -> conserving s s'.
Proof using H. intros Ep. unfold_work H. one_pc Ep H. Qed.

Lemma work_turn b : pc s = WTurn b -> conserving s s'.
Proof using H. intros Ep. unfold_work H; unfold drainSteer in H. one_pc Ep H. all: rewrite Ep; cbn [pc_tokens]; lia. Qed.

Lemma orphans_copies sd l : copies (toks (buildFollowUp sd l [])) = copies (steer_token <$> l).
Proof. unfold buildFollowUp. rewrite app_nil_r. induction l as [|e l IH]; [done|]. rewrite fmap_cons, toks_cons, fmap_cons, copies_cons. by rewrite IH. Qed.

Lemma work_after b : pc s = WAfter b -> conserving s s'.
Proof using H.
  intros Ep. unfold_work H; unfold drainSteer in H. rewrite Ep in H. unfold conserving, level. rewrite Ep.
  assert (body (put_inb (set_steer [] (inb s)) s) + copies (steer_token <$> steer (inb s)) = body s) as Hb by (tally; lia).
  destruct (holdsUser (w s)); simplify_eq; frames.
  - destruct (park_all_frame (buildFollowUp (seed b) (steer (inb s)) []) (put_inb (set_steer [] (inb s)) s)) as (-> & _ & ->).
    rewrite orphans_copies. cbn [pc_tokens taken put_inb]. lia.
  - cbn [pc_tokens taken put_inb]. rewrite copies_app. lia.
Qed.

Lemma followup_copies sd l k : copies (toks (buildFollowUp sd l k)) = copies (steer_token <$> l) + copies (toks k).
Proof. rewrite <- (orphans_copies sd). unfold buildFollowUp. rewrite app_nil_r, toks_app. done. Qed.

Lemma work_extras b l : pc s = WExtras b l -> batch b = [] -> conserving s s'.
Proof using H.
  intros Ep Hbatch. unfold_work H; unfold drainAvailable in H. rewrite Ep in H. unfold conserving, level. rewrite Ep.
  set (i := pushPending (ch (inb s)) (set_ch [] (inb s))) in H.
  assert (copies (inbox_tokens i) = copies (inbox_tokens (inb s))) as Hi.
  { unfold i, pushPending. rewrite !inbox_copies.
    cbn [set_pending set_ch ch steer deferredInjects held pending usageHeld]. rewrite toks_app, toks_nil. lia. }
  destruct (if pendingHeadIsInject i then ([], [], i) else takeQueuedUsers i) as [[u d] i'] eqn:E.
  assert (copies (inbox_tokens i) = copies (toks u) + copies (toks d) + copies (inbox_tokens i')) as Ht.
  { destruct (pendingHeadIsInject i); [simplify_eq; by rewrite toks_nil|by apply take_copies]. }
  cbn [pc_tokens]. rewrite copies_app, Hbatch, toks_nil.
  case_match eqn:Eb; simplify_eq; frames; unfold body; cbn [put_inb log inb callers taken pc_tokens event_tokens with_batch batch].
  - apply andb_true_iff in Eb as [->%bool_decide_eq_true ->%bool_decide_eq_true].
    rewrite Hbatch, toks_nil. cbn [fmap list_fmap]. rewrite toks_nil in Ht. rewrite copies_nil. lia.
  - rewrite followup_copies. lia.
Qed.

Lemma work_end b : pc s = WEnd b -> batch b = [] -> conserving s s'.
Proof using H.
  intros Ep Hb. unfold_work H. rewrite Ep in H. unfold conserving, level. rewrite Ep. cbn [pc_tokens]. rewrite Hb, toks_nil.
  simplify_eq. frames. rewrite body_same by done. cbn [upd put_inb taken]. lia.
Qed.
End OnePlace.

(** A caller's step. *)
Definition due (e : Envelope) (c : caller) : nat := if c_requeue c then once (token_of e) + copies (toks (c_rest c)) else 0.

Lemma body_put_caller n c c' s : callers s !! n = Some c ->
  body (put_caller n c' s) + copies (caller_tokens c) = body s + copies (caller_tokens c').
Proof.
  intros Hn. unfold body, put_caller, put_callers. cbn [log inb callers]. pose proof (callers_insert (callers s) n c c' Hn). lia.
Qed.

Lemma captured_frame n c0 c e s : callers s !! n = Some c0 -> copies (caller_tokens c0) = due e c ->
  body (captured_by n c e s) + copies (taken s) + once (token_of e) = body s + copies (taken (captured_by n c e s))
  /\ pc (captured_by n c e s) = pc s.
Proof.
  intros Hn Hc. unfold captured_by. set (s1 := if c_requeue c then s else accept e s).
  assert (callers s1 = callers s) as E1 by (unfold s1; by case_match).
  assert (body s1 = body s) as E2 by (unfold s1; by case_match).
  assert (pc s1 = pc s) as E3 by (unfold s1; by case_match).
  split; [|done]. set (c' := MkCaller CNext (c_rest c) (c_requeue c)). rewrite <- E1 in Hn.
  pose proof (body_put_caller n c0 c' s1 Hn) as H. rewrite Hc, E2 in H.
  change (taken (put_caller n c' s1)) with (taken s1). unfold due in H.
  unfold caller_tokens, c' in H. cbn [c_requeue c_state c_rest] in H. unfold s1, c' in *.
  destruct (c_requeue c); cbn [accept put_taken taken]; rewrite ?copies_app, ?copies_cons, ?copies_nil in *; lia.
Qed.

Lemma accepted_frame n c0 c e s : callers s !! n = Some c0 -> copies (caller_tokens c0) = due e c ->
  body (accepted_by n c e s) + copies (taken s) + once (token_of e) = body s + copies (taken (accepted_by n c e s))
  /\ pc (accepted_by n c e s) = pc s.
Proof.
  intros Hn Hc. unfold accepted_by, touched. rewrite body_same by done. by apply (captured_frame n c0).
Qed.

Lemma rejected_frame n c0 c e s : callers s !! n = Some c0 -> copies (caller_tokens c0) = due e c ->
  body (rejected_by n c e s) = body s /\ taken (rejected_by n c e s) = taken s /\ pc (rejected_by n c e s) = pc s.
Proof.
  intros Hn Hc. unfold rejected_by. set (c' := MkCaller CNext (c_rest c) (c_requeue c)). unfold due in Hc.
  destruct (c_requeue c) eqn:Er; (split_and!; [|done|done]).
  - pose proof (body_put_caller n c0 c' (refuse e s) Hn) as H. rewrite body_refuse, Hc in H.
    unfold caller_tokens, c' in H. cbn [c_requeue c_state c_rest app] in H. fold c' in H. rewrite ?Er in H. lia.
  - pose proof (body_put_caller n c0 c' (note (Rejected e) s) Hn) as H. rewrite body_note, Hc in H.
    unfold caller_tokens, c' in H. cbn [c_requeue c_state c_rest event_tokens] in H. rewrite copies_nil in H. fold c' in H.
    rewrite ?Er in H. lia.
Qed.

Lemma due_next e rest rq : copies (caller_tokens (MkCaller CNext (e :: rest) rq)) = due e (MkCaller CNext rest rq).
Proof. unfold caller_tokens, due. cbn [c_requeue c_state c_rest app]. destruct rq; [apply toks_cons|done]. Qed.

Lemma due_act e r rest rq : copies (caller_tokens (MkCaller (CAct e r) rest rq)) = due e (MkCaller (CAct e r) rest rq).
Proof. unfold caller_tokens, due. cbn [c_requeue c_state c_rest app]. destruct rq; [by rewrite copies_cons|done]. Qed.

Lemma due_push e rest rq : copies (caller_tokens (MkCaller (CPush e) rest rq)) = due e (MkCaller (CPush e) rest rq).
Proof. unfold caller_tokens, due. cbn [c_requeue c_state c_rest app]. destruct rq; [by rewrite copies_cons|done]. Qed.

(** A caller that takes its next step with the same envelope in hand. *)
Lemma move_conserves n c c' e s s1 : callers s !! n = Some c -> callers s1 = callers s -> body s1 = body s ->
  taken s1 = taken s -> pc s1 = pc s -> copies (caller_tokens c) = due e c' -> copies (caller_tokens c') = due e c' ->
  conserving s (put_caller n c' s1).
Proof.
  intros E E1 E2 E3 E4 Hc Hc'. rewrite <- E1 in E. pose proof (body_put_caller n c c' s1 E) as Hb.
  unfold conserving, level. change (taken (put_caller n c' s1)) with (taken s1). change (pc (put_caller n c' s1)) with (pc s1).
  rewrite E3, E4. lia.
Qed.

Lemma body_buffer e s :
  body (upd (fun i => set_steer (steer i ++ [steerEntryFor e]) i) s) = body s + once (steer_token (steerEntryFor e)).
Proof.
  pose proof (body_upd (fun i => set_steer (steer i ++ [steerEntryFor e]) i) s) as Hb. rewrite !inbox_copies in Hb.
  cbn [set_steer ch steer deferredInjects held pending usageHeld] in Hb. rewrite fmap_app, copies_app in Hb.
  cbn [fmap list_fmap] in Hb. rewrite copies_cons, copies_nil in Hb. lia.
Qed.

Lemma body_push e s : body (upd (fun i => set_ch (ch i ++ [e]) i) s) = body s + once (token_of e).
Proof.
  pose proof (body_upd (fun i => set_ch (ch i ++ [e]) i) s) as Hb. rewrite !inbox_copies in Hb.
  cbn [set_ch ch steer deferredInjects held pending usageHeld] in Hb. rewrite toks_app, toks_cons, toks_nil in Hb. lia.
Qed.

(** A buffered injection is the user's own: its text is what counts. *)
Definition buffers_well (s : sys) : Prop := forall c e, c ∈ callers s -> c_state c = CAct e ToBuffer ->
  steer_token (steerEntryFor e) = token_of e.

Lemma call_conserves platform_of n s s' : buffers_well s -> call_step platform_of n s = Some s' -> conserving s s'.
Proof.
  unfold call_step. intros Hw H. destruct (callers s !! n) as [[st rest rq]|] eqn:E; [|done].
  cbn [c_state c_rest c_requeue] in H. destruct st as [|e r|e].
  - destruct rest as [|e rest]; [done|]. case_match; simplify_eq.
    + eapply move_conserves; [exact E|done|done|done|done|apply due_next|apply due_act].
    + unfold conserving, level. destruct (rejected_frame n _ (MkCaller CNext rest rq) e s E (due_next e rest rq)) as (-> & -> & ->). done.
  - pose proof (due_act e r rest rq) as Hc. destruct r.
    2:{ case_match; simplify_eq; (eapply move_conserves; [exact E|done|by rewrite ?body_same|done|done| |apply due_push]);
          apply due_act. }
    all: simplify_eq; unfold conserving, level; match goal with
      | |- context [accepted_by ?k ?c ?e ?s1] => destruct (accepted_frame k _ c e s1 E Hc) as [Ha ->]
      | |- context [captured_by ?k ?c ?e ?s1] => destruct (captured_frame k _ c e s1 E Hc) as [Ha ->] end.
    4: { rewrite body_buffer, (Hw _ e (list_elem_of_lookup_2 _ _ _ E) eq_refl) in Ha. cbn [upd put_inb taken pc] in *. lia. }
    all: rewrite body_note in Ha; cbn [event_tokens note put_log taken pc] in *; rewrite copies_cons, copies_nil in Ha; lia.
  - pose proof (due_push e rest rq) as Hc. case_match; simplify_eq; unfold conserving, level.
    + destruct (accepted_frame n _ (MkCaller (CPush e) rest rq) e (upd (fun i => set_ch (ch i ++ [e]) i) s) E Hc) as [Ha ->].
      rewrite body_push in Ha. cbn [upd put_inb taken pc] in *. lia.
    + destruct (rejected_frame n _ (MkCaller (CPush e) rest rq) e s E Hc) as (-> & -> & ->). done.
Qed.
End Returns.
End Count.

(** ** The shape of a worker's hands *)
Section Shape.
Context (platform_of : nat -> gostr) (heldDriver : option (gostr -> option nat)) (limits : list scope) (sk : gostr).

(** A batch whose turn has begun is empty: its messages are in the record. *)
Definition driven (p : wpc) : list Envelope :=
  match p with WTurn b | WAfter b | WExtras b _ | WEnd b => batch b | _ => [] end.

Definition shape (s : sys) : Prop := (walking (pc s) = true -> held (inb s) = []) /\ driven (pc s) = [].

Lemma shape_quiet s : walking (pc s) = false -> driven (pc s) = [] -> shape s.
Proof. unfold shape. intros -> ->. done. Qed.

Lemma shape_exit k s : shape (exit_from k s).
Proof. by destruct k. Qed.

Lemma shape_dispatched k s : shape (dispatched k s).
Proof. by destruct k. Qed.

Lemma shape_inject_done i s : (walking (WRecheck i) = true -> held (inb s) = []) -> shape (inject_done i s).
Proof. destruct i; [done|]. intros _. apply shape_dispatched. Qed.

Lemma shape_batch_done b s : shape (batch_done b s).
Proof. unfold batch_done. by destruct (from_hold b). Qed.

Lemma shape_abort b s : shape (abort b s).
Proof. unfold abort. case_match; [done|apply shape_batch_done]. Qed.

Lemma shape_run_closure e i s : (walking (WRecheck i) = true -> held (inb s) = []) -> shape (run_closure e i s).
Proof.
  intros Hi. unfold run_closure. destruct (Inject e) as [m|]; [destruct (Run m)|]; try by apply shape_inject_done.
  split; [|done]. exact Hi.
Qed.

Lemma park_held_held e s : held (inb (park_held e s)) = held (inb s).
Proof. unfold park_held, storeUsageHeld. by repeat case_match; simplify_eq. Qed.

Lemma work_shape c s s' : shape s -> work heldDriver limits sk c s = Some s' -> shape s'.
Proof.
  intros [Hw Hd] H. unfold_work H. destruct (pc s) eqn:Ep; cbn [walking driven] in Hw, Hd.
  all: repeat (case_match; try discriminate); simplify_eq;
    first [done | by apply shape_exit | by apply shape_dispatched | by apply shape_batch_done | by apply shape_abort
          | by apply shape_inject_done | by apply shape_run_closure | by (split; [done|]; cbn; rewrite ?Ep) | idtac].
  all: split; cbn [upd note put_inb put_log pc inb]; rewrite Ep; done.
Qed.

Lemma work_conserves t c s s' : shape s -> work heldDriver limits sk c s = Some s' -> conserving t s s'.
Proof.
  intros [Hw Hd] H. destruct (pc s) eqn:Ep; cbn [driven] in Hd.
  all: try (by unfold work in H; rewrite Ep in H).
  all: eauto using work_top, work_walk, work_walk_gate, work_inject, work_defer, work_recheck, work_running, work_resume, work_release,
    work_queue, work_idle, work_handle, work_dispatch, work_user_gates, work_relogin, work_gates, work_slot, work_wait,
    work_granted, work_recheck_gates, work_take, work_drive, work_turn, work_after, work_extras, work_end.
  all: [> eapply work_walk | eapply work_walk_gate]; try done; unfold walk_ok; by rewrite Ep.
Qed.

(** *** The callers *)

(** A caller about to append to the steer buffer holds a user's own text. *)
Definition caller_ok (c : caller) : Prop := forall e, c_state c = CAct e ToBuffer -> steer_token (steerEntryFor e) = token_of e.
Definition callers_ok (s : sys) : Prop := Forall caller_ok (callers s).

Lemma route_buffer wd a e : enqueue_route platform_of wd a e = Some ToBuffer -> steer_token (steerEntryFor e) = token_of e.
Proof. unfold enqueue_route, token_of. intros H. repeat case_match; simplify_eq; try done; by destruct (UserInput _). Qed.

Lemma callers_refuse_all l s : callers (refuse_all l s) = callers s.
Proof. revert s. induction l as [|e l IH]; intros s; [done|]. change (refuse_all (e :: l) s) with (refuse_all l (refuse e s)). by rewrite IH. Qed.

Lemma callers_worker_exit s : callers (worker_exit s) = callers s.
Proof. unfold worker_exit. cbn [goto put_pc upd put_inb callers]. by rewrite callers_refuse_all; cbn [upd put_inb callers]; rewrite callers_refuse_all. Qed.

Lemma callers_park e s : callers (park_held e s) = callers s.
Proof. unfold park_held, storeUsageHeld. by repeat case_match; simplify_eq. Qed.

Lemma callers_park_all l s : callers (fold_left (fun s e => park_held e s) l s) = callers s.
Proof. revert s. induction l as [|e l IH]; intros s; [done|]. cbn. by rewrite IH, callers_park. Qed.

Lemma callers_drain p s : callers_ok s -> callers_ok (drain_deferred p s).
Proof. intros H. apply Forall_app. split; [done|]. by constructor. Qed.

Lemma callers_same s s' : callers s' = callers s -> callers_ok s -> callers_ok s'.
Proof. unfold callers_ok. by intros ->. Qed.

Lemma work_callers c s s' : callers_ok s -> work heldDriver limits sk c s = Some s' -> callers_ok s'.
Proof.
  intros Hs H. unfold_work H. destruct (pc s) eqn:Ep.
  all: repeat (case_match; try discriminate); simplify_eq;
    unfold exit_from, abort, batch_done, inject_done, dispatched, run_closure; repeat case_match;
    first [exact Hs | (by apply callers_drain) | (eapply callers_same; [|exact Hs]); cbn [handled goto put_pc touched upd put_inb callers note put_log];
      rewrite ?callers_worker_exit, ?callers_park_all, ?callers_park; try done | idtac].
  all: first [by destruct i as [|[]] | unfold storeUsageHeld in *; repeat case_match; by simplify_eq].
Qed.

Lemma call_callers n s s' : callers_ok s -> call_step platform_of n s = Some s' -> callers_ok s'.
Proof.
  unfold call_step. intros Hs H. destruct (callers s !! n) as [c|] eqn:E; [|done].
  assert (forall c', caller_ok c' -> callers_ok (put_caller n c' s)) as Hput by (intros; by apply Forall_insert).
  repeat (case_match; try discriminate); simplify_eq; unfold accepted_by, captured_by, rejected_by; repeat case_match;
    try (by apply Hput); apply Hput; intros e' He'; cbn in He'; simplify_eq; by eapply route_buffer.
Qed.

Lemma call_shape n s s' : shape s -> call_step platform_of n s = Some s' -> shape s'.
Proof.
  unfold call_step. intros Hs H. repeat (case_match; try discriminate); simplify_eq;
    unfold accepted_by, captured_by, rejected_by; repeat case_match; exact Hs.
Qed.

Definition sound (s : sys) : Prop := shape s /\ callers_ok s.

Lemma CancelSession_places i : inbox_tokens (CancelSession i).2 = inbox_tokens i /\ held (CancelSession i).2 = held i.
Proof. unfold CancelSession. by repeat case_match. Qed.

Lemma step_sound a s s' : sound s -> step platform_of heldDriver limits sk a s = Some s' -> sound s'.
Proof.
  intros [Hs Hc] H. destruct a; cbn [step] in H.
  - split; [by eapply work_shape|by eapply work_callers].
  - simplify_eq. split; [exact Hs|]. apply Forall_app. split; [done|]. by constructor.
  - split; [by eapply call_shape|by eapply call_callers].
  - case_match; simplify_eq. done.
  - repeat case_match; simplify_eq. split; [exact Hs|by apply callers_drain].
  - simplify_eq. split; [exact Hs|by apply callers_drain].
  - simplify_eq. split; [|exact Hc]. unfold shape in *. cbn [upd put_inb inb pc]. by rewrite (proj2 (CancelSession_places _)).
  - simplify_eq. split; [|exact Hc]. unfold shape in *. cbn [upd put_inb inb pc]. by destruct (turnCancel (inb s)).
  - repeat case_match; simplify_eq. done.
  - case_match; simplify_eq. done.
  - simplify_eq. split; [exact Hs|]. apply Forall_app. split; [done|]. by constructor.
Qed.

Lemma drain_conserves t p s : conserving t s (drain_deferred p s).
Proof. unfold conserving, level. destruct (drain_frame t p s) as (-> & -> & ->). done. Qed.

Lemma upd_conserves t f s : inbox_tokens (f (inb s)) = inbox_tokens (inb s) -> conserving t s (upd f s).
Proof. intros H. unfold conserving, level. rewrite body_same by (by rewrite H). done. Qed.

Lemma new_caller_conserves t l s : conserving t s (put_callers (callers s ++ [MkCaller CNext l false]) s).
Proof. unfold conserving, level, body, put_callers. cbn [log inb callers pc taken]. rewrite callers_snoc. cbn [caller_tokens c_requeue]. rewrite copies_nil. lia. Qed.

Lemma step_conserves t a s s' : sound s -> step platform_of heldDriver limits sk a s = Some s' -> conserving t s s'.
Proof.
  intros [Hs Hc] H. destruct a as [c|l|n|w'|n|reqID| | | | |]; cbn [step] in H.
  - by eapply work_conserves.
  - simplify_eq. apply new_caller_conserves.
  - eapply call_conserves; [|done]. intros c e Hin He. by eapply (proj1 (Forall_forall _ _) Hc).
  - case_match; simplify_eq. done.
  - repeat case_match; simplify_eq. apply (drain_conserves t _ (put_timers _ s)).
  - simplify_eq. apply drain_conserves.
  - simplify_eq. apply upd_conserves, CancelSession_places.
  - simplify_eq. apply upd_conserves. by destruct (turnCancel (inb s)).
  - repeat case_match; simplify_eq. by apply upd_conserves.
  - case_match; simplify_eq. by apply upd_conserves.
  - simplify_eq. apply new_caller_conserves.
Qed.

Lemma reachable_sound s : reachable platform_of heldDriver limits sk s -> sound s.
Proof.
  intros (wd & l & H). assert (sound (start wd l)) as H0 by (split; [done|by constructor]). revert H0.
  induction H as [s|s s1 s2 [a Ha] _ IH]; [done|]. intros Hs. by eapply IH, step_sound.
Qed.

(** C9: whatever the interleaving of the worker, the callers inside [Enqueue],
    the requeues, the timers, the gate watcher, the reaper and /stop, and
    whatever the rest of the agent does between two steps: the envelopes the
    inbox accepted are, as a multiset, those on its queues and lists, in the
    worker's or a requeue's hands, and in the record of what was done with them
    (driven, injected, folded into a running turn, taken as an answer, dropped
    by /stop or by shutdown, refused).  None is lost and none is taken twice. *)
Theorem nothing_lost s : reachable platform_of heldDriver limits sk s -> taken s ≡ₚ places s.
Proof.
  intros (wd & l & H). apply (Permutation_count_occ (decide_rel (=))). intros t.
  change (copies t (taken s) = copies t (places s)). rewrite <- level_places.
  assert (sound (start wd l)) as H0 by (split; [done|by constructor]).
  assert (level t (start wd l) = copies t (taken (start wd l))) as H1 by done. revert H0 H1.
  induction H as [s|s s1 s2 [a Ha] _ IH]; [done|]. intros Hs Hl. apply IH; [by eapply step_sound|].
  pose proof (step_conserves t a s s1 Hs Ha) as Hc. unfold conserving in Hc. lia.
Qed.
End Shape.

(** A message waits for its slot, another joins it, a /stop drops both; a third
    is on the channel. *)
Definition ledger_run : list action :=
  to_idle ++ to_wait 0 (user_msg "one") ++ enqueue 1 (user_msg "two") ++ [Work Recv; Stop_; Work CtxDone]
  ++ enqueue 2 (user_msg "three").

Lemma nothing_lost_witness : length (log (ends calm [] ledger_run)) = 1 /\ taken (ends calm [] ledger_run) ≡ₚ places (ends calm [] ledger_run).
Proof.
  split; [vm_compute; reflexivity|]. apply (nothing_lost no_platform (Some on_first) [AgentLimit] "s").
  apply ends_reached. vm_compute. reflexivity.
Defined.
