(* ===== verification/InboxSafety.v ===== *)
(** * The session inbox: turns, slots and /stop

    The steps that change what, and with it: what a running turn holds, which
    batch a /stop reaches, and that a stopped batch never runs. *)
From S2P Require Import Prelude GoStrings GoNum SessionKey UsageHold Inbox InboxRun.
Local Open Scope gostr_scope.

(** ** What the worker's position says *)
Definition cont_batch (k : cont) : option batchrun := match k with KLoop => None | KSlot b => Some b end.
Definition icont_batch (i : icont) : option batchrun := match i with IWalk _ _ k | IGo k => cont_batch k end.

(** The batch that waits for slots, an injection it serves meanwhile included. *)
Definition waiting_batch (p : wpc) : option batchrun :=
  match p with
  | WSlot b | WWait b | WGranted b => Some b
  | WWalk _ _ k | WWalkGate _ _ _ k | WDispatch _ k | WUserGates _ _ k | WRelogin _ k => cont_batch k
  | WInject _ i | WDefer _ _ i | WRecheck i | WRunning _ i => icont_batch i
  | _ => None
  end.

Definition turning_batch (p : wpc) : option batchrun := match p with WTurn b => Some b | _ => None end.

(** The batch past its slot wait. *)
Definition granted_batch (p : wpc) : option batchrun :=
  match p with
  | WGranted b | WRecheckGates b | WTake b | WDrive b | WTurn b | WAfter b | WExtras b _ | WEnd b => Some b
  | _ => None
  end.

Definition present {A} (o : option A) : bool := match o with Some _ => true | None => false end.

(** ** Every step *)
Lemma inb_refuse_all l s : inb (refuse_all l s) = inb s.
Proof. revert s. induction l as [|e l IH]; intros s; [done|]. change (refuse_all (e :: l) s) with (refuse_all l (refuse e s)). by rewrite IH. Qed.

Lemma pc_worker_exit s : pc (worker_exit s) = WDead.
Proof. done. Qed.

Lemma inb_worker_exit s : inb (worker_exit s) = set_pending [] (set_held [] (stopHeldWatch (inb s))).
Proof.
  unfold worker_exit. cbn [goto put_pc upd put_inb inb]. rewrite inb_refuse_all. cbn [upd put_inb inb].
  by rewrite inb_refuse_all.
Qed.

Lemma inb_storeUsageHeld e s : inb (storeUsageHeld e s).2 = inb s.
Proof. unfold storeUsageHeld. by case_bool_decide. Qed.

Lemma inb_park_held e s : exists l, inb (park_held e s) = set_usageHeld l (inb s).
Proof. unfold park_held, storeUsageHeld. repeat case_match; simplify_eq; by eexists. Qed.

Lemma inb_park_all l s : exists k, inb (fold_left (fun s e => park_held e s) l s) = set_usageHeld k (inb s).
Proof.
  revert s. induction l as [|e l IH]; intros s; cbn [fold_left]; [exists (usageHeld (inb s)); by destruct (inb s)|].
  destruct (IH (park_held e s)) as [k ->]. destruct (inb_park_held e s) as [k' ->]. by eexists.
Qed.

Lemma pc_park_all l s : pc (fold_left (fun s e => park_held e s) l s) = pc s.
Proof.
  revert s. induction l as [|e l IH]; intros s; [done|]. cbn. rewrite IH. unfold park_held, storeUsageHeld.
  by repeat case_match; simplify_eq.
Qed.

Lemma ensure_cancels i : waitCancel (ensureHeldWatch i) = waitCancel i /\ turnCancel (ensureHeldWatch i) = turnCancel i.
Proof. unfold ensureHeldWatch. by repeat case_match. Qed.

Lemma park_cancels t e i : waitCancel (park t e i) = waitCancel i /\ turnCancel (park t e i) = turnCancel i.
Proof. unfold park. destruct (ensure_cancels (set_heldGen (S (heldGen i)) (set_held (held i ++ [if IsZero (heldSince e) then with_heldSince t e else e]) i))) as [-> ->]. done. Qed.

(** ** What only the worker changes *)
Record view := MkView {
  v_pc : wpc; v_held : list Envelope; v_gen : nat; v_watch_gen : nat; v_armed : option (list Envelope);
  v_waiting : bool; v_turning : bool;
}.

Definition view_of (s : sys) : view :=
  MkView (pc s) (held (inb s)) (heldGen (inb s)) (heldWatchGen (inb s)) (armed <$> heldWatch (inb s))
    (present (waitCancel (inb s))) (present (turnCancel (inb s))).

(** The inbox's registered cancels, which few steps touch. *)
Definition cancels (i : inbox) : option bool * option bool := (waitCancel i, turnCancel i).

Lemma cancels_ensure i : cancels (ensureHeldWatch i) = cancels i.
Proof. unfold ensureHeldWatch. by repeat case_match. Qed.

Lemma cancels_park t e i : cancels (park t e i) = cancels i.
Proof. unfold park. by rewrite cancels_ensure. Qed.

Lemma cancels_park_held e s : cancels (inb (park_held e s)) = cancels (inb s).
Proof. by destruct (inb_park_held e s) as [l ->]. Qed.

Lemma cancels_park_all l s : cancels (inb (fold_left (fun s e => park_held e s) l s)) = cancels (inb s).
Proof. by destruct (inb_park_all l s) as [k ->]. Qed.

Lemma cancels_store e s e' s' : storeUsageHeld e s = (e', s') -> cancels (inb s') = cancels (inb s).
Proof. intros H. pose proof (inb_storeUsageHeld e s) as E. rewrite H in E. cbn in E. by rewrite E. Qed.

Lemma cancels_take i u d i' : takeQueuedUsers i = (u, d, i') -> cancels i' = cancels i.
Proof. unfold takeQueuedUsers, drainAvailable, takePendingUsers, pushPending. intros H. by simplify_eq. Qed.

Lemma cancels_steer i l i' : drainSteer i = (l, i') -> cancels i' = cancels i.
Proof. unfold drainSteer. intros H. by simplify_eq. Qed.

Lemma cancels_drain i l i' : drainAvailable i = (l, i') -> cancels i' = cancels i.
Proof. unfold drainAvailable. intros H. by simplify_eq. Qed.

Lemma cancels_push l i : cancels (pushPending l i) = cancels i.
Proof. done. Qed.

Lemma cancels_pop i e i' : popPending i = Some (e, i') -> cancels i' = cancels i.
Proof. unfold popPending. intros H. case_match; by simplify_eq. Qed.

Lemma cancels_turn i j : cancels i = cancels j -> turnCancel i = turnCancel j.
Proof. unfold cancels. congruence. Qed.

Lemma cancels_wait i j : cancels i = cancels j -> waitCancel i = waitCancel j.
Proof. unfold cancels. congruence. Qed.

(** The held list and its watch. *)
Definition watch_of (i : inbox) := (held i, heldGen i, heldWatchGen i, armed <$> heldWatch i).

Lemma watch_park_held e s : watch_of (inb (park_held e s)) = watch_of (inb s).
Proof. by destruct (inb_park_held e s) as [l ->]. Qed.

Lemma watch_park_all l s : watch_of (inb (fold_left (fun s e => park_held e s) l s)) = watch_of (inb s).
Proof. by destruct (inb_park_all l s) as [k ->]. Qed.

Lemma watch_store e s e' s' : storeUsageHeld e s = (e', s') -> watch_of (inb s') = watch_of (inb s).
Proof. intros H. pose proof (inb_storeUsageHeld e s) as E. rewrite H in E. cbn in E. by rewrite E. Qed.

Lemma watch_take i u d i' : takeQueuedUsers i = (u, d, i') -> watch_of i' = watch_of i.
Proof. unfold takeQueuedUsers, drainAvailable, takePendingUsers, pushPending. intros H. by simplify_eq. Qed.

Lemma watch_steer i l i' : drainSteer i = (l, i') -> watch_of i' = watch_of i.
Proof. unfold drainSteer. intros H. by simplify_eq. Qed.

Lemma watch_drain i l i' : drainAvailable i = (l, i') -> watch_of i' = watch_of i.
Proof. unfold drainAvailable. intros H. by simplify_eq. Qed.

Lemma watch_push l i : watch_of (pushPending l i) = watch_of i.
Proof. done. Qed.

Lemma watch_pop i e i' : popPending i = Some (e, i') -> watch_of i' = watch_of i.
Proof. unfold popPending. intros H. case_match; by simplify_eq. Qed.

Section Safety.
Context (platform_of : nat -> gostr) (heldDriver : option (gostr -> option nat)) (limits : list scope) (sk : gostr).

Local Abbreviation work := (work heldDriver limits sk).
Local Abbreviation step := (step platform_of heldDriver limits sk).
Local Abbreviation moves := (moves platform_of heldDriver limits sk).
Local Abbreviation reachable := (reachable platform_of heldDriver limits sk).

Lemma call_view n s s' : call_step platform_of n s = Some s' -> view_of s' = view_of s.
Proof.
  unfold call_step. intros H. repeat (case_match; try discriminate); simplify_eq; unfold accepted_by, captured_by, rejected_by;
    repeat case_match; done.
Qed.

Lemma cancel_view i : present (waitCancel (CancelSession i).2) = present (waitCancel i)
  /\ present (turnCancel (CancelSession i).2) = present (turnCancel i)
  /\ held (CancelSession i).2 = held i /\ heldGen (CancelSession i).2 = heldGen i
  /\ heldWatchGen (CancelSession i).2 = heldWatchGen i /\ heldWatch (CancelSession i).2 = heldWatch i.
Proof. unfold CancelSession. destruct (waitCancel i) eqn:E, (turnCancel i) eqn:E'; cbn; by rewrite ?E, ?E'. Qed.

Lemma step_view a s s' : step a s = Some s' -> (exists c, work c s = Some s') \/ view_of s' = view_of s.
Proof.
  destruct a; cbn [InboxRun.step]; intros H; [left; eauto|right..].
  - by simplify_eq.
  - by eapply call_view.
  - case_match; by simplify_eq.
  - repeat case_match; by simplify_eq.
  - by simplify_eq.
  - simplify_eq. unfold view_of. cbn [upd put_inb inb pc]. by destruct (cancel_view (inb s)) as (-> & -> & -> & -> & -> & ->).
  - simplify_eq. unfold view_of. cbn [upd put_inb inb pc]. by destruct (turnCancel (inb s)) eqn:E; cbn; rewrite ?E.
  - repeat case_match; simplify_eq. unfold view_of. cbn [upd put_inb inb pc].
    by match goal with E : heldWatch _ = _ |- _ => rewrite E end.
  - case_match; by simplify_eq.
  - by simplify_eq.
Qed.

Lemma view_invariant (P : view -> Prop) s : (forall wd l, P (view_of (start wd l))) ->
  (forall c s s', P (view_of s) -> work c s = Some s' -> P (view_of s')) -> reachable s -> P (view_of s).
Proof.
  intros H0 Hw (wd & l & H). pose proof (H0 wd l) as Hs. revert Hs.
  induction H as [s|s s1 s2 [a Ha] _ IH]; [done|]. intros Hs. apply IH.
  destruct (step_view a s s1 Ha) as [[c Hc]|E]; [by eapply Hw|by rewrite E].
Qed.

(** ** Turns and slots *)
Definition fits (v : view) : Prop :=
  v_waiting v = present (waiting_batch (v_pc v)) /\ v_turning v = present (turning_batch (v_pc v))
  /\ (forall b, waiting_batch (v_pc v) = Some b -> slots b ++ todo b = limits)
  /\ (forall b, granted_batch (v_pc v) = Some b -> slots b = limits)
  /\ (forall n b, v_pc v = WGates n b -> slots b = []).

Lemma fits_idle s : waiting_batch (pc s) = None -> turning_batch (pc s) = None -> granted_batch (pc s) = None ->
  (forall n b, pc s <> WGates n b) -> waitCancel (inb s) = None -> turnCancel (inb s) = None -> fits (view_of s).
Proof. intros H1 H2 H3 H4 H5 H6. unfold fits, view_of. cbn. rewrite H1, H2, H3, H5, H6. split_and!; try done. intros n b E. by destruct (H4 n b). Qed.

Lemma fits_exit s : turnCancel (inb s) = None -> waitCancel (inb s) = None -> fits (view_of (worker_exit s)).
Proof. intros H1 H2. apply fits_idle; try done; by rewrite inb_worker_exit. Qed.

Lemma fits_exit_from k s : turnCancel (inb s) = None -> present (waitCancel (inb s)) = present (cont_batch k) ->
  fits (view_of (exit_from k s)).
Proof. destruct k; cbn; intros H1 H2; apply fits_exit; try done. by destruct (waitCancel (inb s)). Qed.

Lemma fits_wait b p s : waiting_batch p = Some b -> granted_batch p = None -> (forall n b, p <> WGates n b) ->
  turning_batch p = None -> turnCancel (inb s) = None -> present (waitCancel (inb s)) = true -> slots b ++ todo b = limits ->
  fits (view_of (goto p s)).
Proof.
  intros H1 H2 H3 H4 H5 H6 H7. unfold fits, view_of. cbn. rewrite H1, H2, H4, H5, H6. split_and!; try done.
  - intros b' E. by simplify_eq.
  - intros n b' E. by destruct (H3 n b').
Qed.

Lemma fits_cont k p s : waiting_batch p = cont_batch k -> granted_batch p = None -> (forall n b, p <> WGates n b) ->
  turning_batch p = None -> turnCancel (inb s) = None -> present (waitCancel (inb s)) = present (cont_batch k) ->
  (forall b, cont_batch k = Some b -> slots b ++ todo b = limits) -> fits (view_of (goto p s)).
Proof.
  intros H1 H2 H3 H4 H5 H6 H7. destruct (cont_batch k) as [b|] eqn:E; [apply (fits_wait b); auto|].
  apply fits_idle; try done. cbn. by destruct (waitCancel (inb s)).
Qed.

Lemma fits_dispatched k s : turnCancel (inb s) = None -> present (waitCancel (inb s)) = present (cont_batch k) ->
  (forall b, cont_batch k = Some b -> slots b ++ todo b = limits) -> fits (view_of (dispatched k s)).
Proof.
  intros H1 H2 H3. destruct k as [|b]; cbn [dispatched]; [|apply (fits_wait b); auto].
  unfold handled, touched. apply fits_idle; try done. cbn in *. by destruct (waitCancel (inb s)).
Qed.

Lemma fits_inject_done i s : turnCancel (inb s) = None -> present (waitCancel (inb s)) = present (icont_batch i) ->
  (forall b, icont_batch i = Some b -> slots b ++ todo b = limits) -> fits (view_of (inject_done i s)).
Proof. destruct i; cbn; intros; [by apply (fits_cont k)|by apply fits_dispatched]. Qed.

Lemma fits_batch_done b s : turnCancel (inb s) = None -> waitCancel (inb s) = None -> fits (view_of (batch_done b s)).
Proof. intros H1 H2. unfold batch_done. destruct (from_hold b); by apply fits_idle. Qed.

Lemma fits_abort b s : turnCancel (inb s) = None -> fits (view_of (abort b s)).
Proof. intros H. unfold abort. case_match; [by apply fits_exit|by apply fits_batch_done]. Qed.

Lemma fits_granted b p s : waiting_batch p = None -> granted_batch p = Some b -> (forall n b, p <> WGates n b) ->
  present (turnCancel (inb s)) = present (turning_batch p) -> waitCancel (inb s) = None -> slots b = limits -> fits (view_of (goto p s)).
Proof.
  intros H1 H2 H3 H4 H5 H6. unfold fits, view_of. cbn. rewrite H1, H2, H4, H5. split_and!; try done.
  - intros b' E. by simplify_eq.
  - intros n b' E. by destruct (H3 n b').
Qed.

Lemma present_false {A} (o : option A) : present o = false <-> o = None.
Proof. by destruct o. Qed.

Ltac gone := repeat match goal with E : present _ = false |- _ => apply present_false in E end.

Lemma fits_intro s' p wc tc : pc s' = p -> cancels (inb s') = (wc, tc) ->
  present wc = present (waiting_batch p) -> present tc = present (turning_batch p) ->
  (forall b, waiting_batch p = Some b -> slots b ++ todo b = limits) -> (forall b, granted_batch p = Some b -> slots b = limits) ->
  (forall n b, p = WGates n b -> slots b = []) -> fits (view_of s').
Proof. unfold fits, view_of, cancels. cbn. intros -> [= -> ->]. auto. Qed.

Lemma fits_run_closure e i s : turnCancel (inb s) = None -> present (waitCancel (inb s)) = present (icont_batch i) ->
  (forall b, icont_batch i = Some b -> slots b ++ todo b = limits) -> fits (view_of (run_closure e i s)).
Proof.
  intros H1 H2 H3. unfold run_closure. destruct (Inject e) as [m|]; [destruct (Run m)|]; try by apply fits_inject_done.
  destruct (icont_batch i) as [b|] eqn:E; [apply (fits_wait b); auto|].
  apply fits_idle; try done. cbn in *. by destruct (waitCancel (inb s)).
Qed.

Lemma park_dispatched k t e s s0 : turnCancel (inb s) = None -> present (waitCancel (inb s)) = present (cont_batch k) ->
  (forall b, cont_batch k = Some b -> slots b ++ todo b = limits) -> cancels (inb s0) = cancels (inb s) ->
  fits (view_of (dispatched k (upd (park t e) s0))).
Proof.
  intros H1 H2 H3 H4. rewrite <- (cancels_park t e (inb s0)) in H4. apply fits_dispatched; [| |done];
    cbn [upd put_inb inb]; [by rewrite (cancels_turn _ _ H4)|by rewrite (cancels_wait _ _ H4)].
Qed.

Lemma work_fits c s s' : fits (view_of s) -> work c s = Some s' -> fits (view_of s').
Proof.
  intros (Hw & Ht & Hb & Hg & Hn) H. cbn [view_of v_pc v_waiting v_turning] in Hw, Ht, Hb, Hg, Hn.
  unfold_work H. destruct (pc s) eqn:Ep; cbn [waiting_batch turning_batch granted_batch present] in Hw, Ht, Hb, Hg.
  all: gone.
  all: repeat (case_match; try discriminate); simplify_eq.
  all: match goal with
    | |- fits (view_of (exit_from _ _)) => by apply fits_exit_from
    | |- fits (view_of (worker_exit (upd ensureHeldWatch _))) =>
        apply fits_exit; cbn [upd put_inb inb]; by rewrite ?(proj1 (ensure_cancels _)), ?(proj2 (ensure_cancels _))
    | |- fits (view_of (worker_exit _)) => by apply fits_exit
    | |- fits (view_of (dispatched _ (upd (park _ _) _))) => by eapply park_dispatched; eauto using cancels_store
    | |- fits (view_of (dispatched _ _)) => by apply fits_dispatched
    | |- fits (view_of (inject_done _ _)) => by apply fits_inject_done
    | |- fits (view_of (batch_done _ _)) => by apply fits_batch_done
    | |- fits (view_of (abort _ _)) => by apply fits_abort
    | |- fits (view_of (run_closure _ _ _)) => by apply fits_run_closure
    | _ => idtac
    end.
  all: try (eapply fits_intro; [reflexivity
    | cbn [inb goto put_pc upd put_inb note put_log put_stored start_batch handled drive accept put_taken];
      repeat first [rewrite cancels_ensure | rewrite cancels_park_held | rewrite cancels_park_all
        | erewrite cancels_take by eassumption | erewrite cancels_steer by eassumption | erewrite cancels_pop by eassumption
        | rewrite cancels_push | erewrite cancels_drain by eassumption];
      unfold cancels; cbn; reflexivity
    | ..]).
  all: cbn [pc goto put_pc start_batch drive waiting_batch cont_batch icont_batch turning_batch granted_batch present] in *; rewrite ?Hw, ?Ht;
    rewrite ?(proj1 (ensure_cancels _)), ?(proj2 (ensure_cancels _)), ?(cancels_turn _ _ (cancels_park_held _ _)),
    ?(cancels_wait _ _ (cancels_park_held _ _));
    rewrite ?Hw, ?Ht; cbn [pc upd put_inb note put_log handled touched goto put_pc]; rewrite ?Ep;
    cbn [waiting_batch turning_batch granted_batch present slots todo with_slots with_batch]; intros; simplify_eq; try done;
    repeat match goal with
    | E : bool_decide (limits = []) = true |- _ => apply bool_decide_eq_true in E
    | E : forall b, Some ?x = Some b -> _ |- _ => specialize (E _ eq_refl)
    | E : forall n b, WGates _ _ = WGates n b -> _ |- _ => specialize (E _ _ eq_refl)
    end; cbn [slots todo with_slots with_batch]; rewrite <- ?app_assoc; try congruence.
  all: first [by auto | match goal with E : todo _ = _ |- _ => rewrite E in Hb end; rewrite ?app_nil_r in Hb; done].
Qed.

Lemma reachable_fits s : reachable s -> fits (view_of s).
Proof. intros H. eapply view_invariant; [|exact work_fits|done]. intros wd l. by apply fits_idle. Qed.

(** C19: a turn of a user batch runs only while it holds a slot of every limiter
    the agent has, in their order. *)
Theorem turn_holds_slots s b : reachable s -> pc s = WTurn b -> slots b = limits.
Proof. intros H Ep. apply (reachable_fits s H). cbn. by rewrite Ep. Qed.

Lemma turning_at p : turning_batch p <> None <-> exists b, p = WTurn b.
Proof. split; [destruct p; try done; eauto|by intros [b ->]]. Qed.

(** C26: /stop reports that it stopped something exactly when a batch waits for
    its slots (even while the wait serves an injection) or a turn of a user
    batch runs.  An injection that runs on its own is not reached. *)
Theorem stop_reaches s : reachable s ->
  (CancelSession (inb s)).1 = true <->
    (exists b, waiting_batch (pc s) = Some b) \/ (exists b, pc s = WTurn b).
Proof.
  intros H. destruct (reachable_fits s H) as (Hw & Ht & _). cbn in Hw, Ht. unfold CancelSession.
  assert ((exists b, pc s = WTurn b) <-> turnCancel (inb s) <> None) as ->.
  { rewrite <- turning_at. destruct (turnCancel (inb s)), (turning_batch (pc s)); naive_solver. }
  assert ((exists b, waiting_batch (pc s) = Some b) <-> waitCancel (inb s) <> None) as ->.
  { destruct (waitCancel (inb s)), (waiting_batch (pc s)); naive_solver. }
  destruct (waitCancel (inb s)), (turnCancel (inb s)); naive_solver.
Qed.
(** *** A stopped batch *)

(** The batches driven so far. *)
Definition driven (l : list event) : list (list Envelope) :=
  omap (fun e => match e with Drove b => Some b | _ => None end) l.

(** The batch that [runUserBatch] has in hand. *)
Definition in_hand (p : wpc) : option batchrun :=
  match p with WGates _ b => Some b | _ => match waiting_batch p with Some b => Some b | None => granted_batch p end end.

Definition still_waits (b : batchrun) (s : sys) : Prop :=
  waitCancel (inb s) = Some true /\ exists b' l, waiting_batch (pc s) = Some b' /\ batch b' = batch b ++ l.

(** Nothing enters a queue, the restart store or a caller's hands. *)
Definition nothing_queued (s s' : sys) : Prop :=
  ch (inb s') = ch (inb s) /\ usageHeld (inb s') = usageHeld (inb s) /\ callers s' = callers s /\ stored s' = stored s
  /\ sublist (pending (inb s')) (pending (inb s)) /\ (held (inb s') = held (inb s) \/ held (inb s') = []).

(** A step that lets the batch go: it is logged as dropped, the worker has no
    batch in hand afterwards, and no envelope of it went back to a queue. *)
Definition dropped (b : batchrun) (s s' : sys) : Prop :=
  in_hand (pc s') = None /\ nothing_queued s s'
  /\ exists d, log s' = log s ++ d /\ (StopDropped (batch b) ∈ d \/ CtxDropped (batch b) ∈ d).

Lemma driven_app l l' : driven (l ++ l') = driven l ++ driven l'.
Proof. apply omap_app. Qed.

Lemma driven_refuse e s : driven (log (refuse e s)) = driven (log s).
Proof. unfold refuse. cbn [note put_log log]. rewrite driven_app. destruct (is_inject e); by rewrite app_nil_r. Qed.

Lemma driven_refuse_all l s : driven (log (refuse_all l s)) = driven (log s).
Proof.
  revert s. induction l as [|e l IH]; intros s; [done|]. change (refuse_all (e :: l) s) with (refuse_all l (refuse e s)).
  by rewrite IH, driven_refuse.
Qed.

Lemma driven_worker_exit s : driven (log (worker_exit s)) = driven (log s).
Proof. unfold worker_exit. cbn [goto put_pc upd put_inb log]. rewrite driven_refuse_all. cbn [upd put_inb log]. by rewrite driven_refuse_all. Qed.

Lemma driven_note e s : (forall l, e <> Drove l) -> driven (log (note e s)) = driven (log s).
Proof. intros H. cbn [note put_log log]. rewrite driven_app. destruct e; try (by rewrite app_nil_r). by destruct (H l). Qed.

Lemma driven_exit_from k s : driven (log (exit_from k s)) = driven (log s).
Proof. destruct k; cbn [exit_from]; rewrite driven_worker_exit; [done|]. by rewrite driven_note. Qed.

Lemma driven_dispatched k s : driven (log (dispatched k s)) = driven (log s).
Proof. by destruct k. Qed.

Lemma driven_inject_done i s : driven (log (inject_done i s)) = driven (log s).
Proof. destruct i; [done|apply driven_dispatched]. Qed.

Lemma driven_batch_done b s : driven (log (batch_done b s)) = driven (log s).
Proof. unfold batch_done. by destruct (from_hold b). Qed.

Lemma driven_abort b s : driven (log (abort b s)) = driven (log s).
Proof. unfold abort. case_match; [rewrite driven_worker_exit|rewrite driven_batch_done]; by rewrite driven_note. Qed.

Lemma driven_store e s e' s' : storeUsageHeld e s = (e', s') -> log s' = log s.
Proof. unfold storeUsageHeld. case_bool_decide; intros; by simplify_eq. Qed.

Lemma driven_park_held e s : driven (log (park_held e s)) = driven (log s).
Proof.
  unfold park_held. destruct (storeUsageHeld e s) as [e' s1] eqn:E. apply driven_store in E.
  cbn [upd put_inb log]. case_match; [rewrite driven_note by done|]; by rewrite E.
Qed.

Lemma driven_park_all l s : driven (log (fold_left (fun s e => park_held e s) l s)) = driven (log s).
Proof. revert s. induction l as [|e l IH]; intros s; [done|]. cbn [fold_left]. by rewrite IH, driven_park_held. Qed.

Lemma driven_run_closure e i s : driven (log (run_closure e i s)) = driven (log s).
Proof.
  unfold run_closure. destruct (Inject e) as [m|]; [destruct (Run m)|];
    rewrite ?driven_inject_done; cbn [goto put_pc upd put_inb log]; by rewrite driven_note.
Qed.

(** Only [driveOnce] drives. *)
Lemma work_drives c s s' : work c s = Some s' -> (forall b, pc s <> WDrive b) -> driven (log s') = driven (log s).
Proof.
  intros H Hp. unfold_work H. destruct (pc s) eqn:Ep.
  all: repeat (case_match; try discriminate); simplify_eq.
  all: try (by destruct (Hp _ eq_refl)).
  all: rewrite ?driven_exit_from, ?driven_abort, ?driven_run_closure, ?driven_inject_done, ?driven_dispatched,
    ?driven_batch_done, ?driven_worker_exit, ?driven_park_all; cbn [goto put_pc upd put_inb handled touched accept put_taken
    start_batch put_stored put_timers drain_deferred take_deferred put_callers log].
  all: rewrite ?driven_refuse, ?driven_park_held, ?driven_park_all, ?driven_note by done.
  all: try done.
  all: try (match goal with E : storeUsageHeld _ _ = _ |- _ => by rewrite (driven_store _ _ _ _ E) end).
Qed.

Lemma step_drives a s s' : step a s = Some s' -> (forall b, pc s <> WDrive b) -> driven (log s') = driven (log s).
Proof.
  intros H Hp. destruct a; cbn [InboxRun.step] in H; [by eapply work_drives|..].
  2: { unfold call_step in H. repeat (case_match; try discriminate); simplify_eq;
       unfold accepted_by, captured_by, rejected_by; repeat case_match; cbn [put_caller put_callers touched upd put_inb accept put_taken log];
       rewrite ?driven_refuse, ?driven_note by done; done. }
  all: repeat (case_match; try discriminate); by simplify_eq.
Qed.

Lemma waits_intro b b' l s : waiting_batch (pc s) = Some b' -> batch b' = batch b ++ l -> waitCancel (inb s) = Some true ->
  still_waits b s.
Proof. intros H1 H2 H3. split; eauto. Qed.

Lemma waits_not_drive b s : still_waits b s -> forall b', pc s <> WDrive b'.
Proof. intros (_ & b1 & l & H & _) b' E. by rewrite E in H. Qed.

Lemma log_refuse_all_app l s : exists d, log (refuse_all l s) = log s ++ d.
Proof.
  revert s. induction l as [|x l IH]; intros s; [exists []; by rewrite app_nil_r|].
  change (refuse_all (x :: l) s) with (refuse_all l (refuse x s)). destruct (IH (refuse x s)) as [d ->].
  unfold refuse. cbn [note put_log log]. rewrite <- app_assoc. by eexists.
Qed.

Lemma nothing_queued_trans s1 s2 s3 : nothing_queued s1 s2 -> nothing_queued s2 s3 -> nothing_queued s1 s3.
Proof.
  intros (? & ? & ? & ? & Hp & Hh) (? & ? & ? & ? & Hp' & Hh'). unfold nothing_queued.
  split_and!; [congruence..|by etrans|]. destruct Hh' as [->|]; tauto.
Qed.

Lemma nothing_queued_refuse l s : nothing_queued s (refuse_all l s).
Proof.
  revert s. induction l as [|e l IH]; intros s; [unfold nothing_queued; by split_and!; auto|].
  change (refuse_all (e :: l) s) with (refuse_all l (refuse e s)). eapply nothing_queued_trans; [|apply IH].
  unfold nothing_queued. by split_and!; auto.
Qed.

Lemma worker_exit_facts s : exists d, log (worker_exit s) = log s ++ d /\ nothing_queued s (worker_exit s).
Proof.
  unfold worker_exit. set (s1 := upd stopHeldWatch s). destruct (log_refuse_all_app (held (inb s1)) s1) as [d Hd].
  set (s2 := upd (set_held []) _). destruct (log_refuse_all_app (pending (inb s2)) s2) as [d' Hd'].
  exists (d ++ d'). split.
  - cbn [goto put_pc upd put_inb log]. rewrite Hd'. unfold s2. cbn [upd put_inb log]. by rewrite Hd, app_assoc.
  - eapply (nothing_queued_trans _ s1); [unfold nothing_queued; by split_and!; auto|].
    eapply (nothing_queued_trans _ (refuse_all (held (inb s1)) s1)); [apply nothing_queued_refuse|].
    eapply (nothing_queued_trans _ s2); [unfold nothing_queued; by split_and!; auto|].
    eapply nothing_queued_trans; [apply (nothing_queued_refuse (pending (inb s2)))|].
    unfold nothing_queued. split_and!; auto. apply sublist_nil_l.
Qed.

(** Giving up after at most a note of the injection in hand. *)
Lemma dropped_exit b s0 s d held' : log s = log s0 ++ d ->
  nothing_queued s0 (upd (set_held held') s) -> dropped b s0 (exit_from (KSlot b) s).
Proof.
  intros Hl Hq. split; [done|]. cbn [exit_from].
  destruct (worker_exit_facts (note (CtxDropped (batch b)) (upd (set_waitCancel None) s))) as (d' & Hd & Hn).
  split.
  - destruct Hq as (? & ? & ? & ? & ? & _), Hn as (? & ? & ? & ? & ? & Hh). unfold nothing_queued in *.
    split_and!; try (etrans; [done|done]); try congruence. right. unfold worker_exit. cbn [goto put_pc upd put_inb inb].
    rewrite inb_refuse_all. done.
  - exists (d ++ [CtxDropped (batch b)] ++ d'). rewrite Hd. cbn [note put_log log upd put_inb]. rewrite Hl, <- !app_assoc.
    split; [done|]. right. apply elem_of_app. right. apply elem_of_app. left. by apply list_elem_of_singleton.
Qed.

Lemma dropped_abort b s : dropped b s (abort b s).
Proof.
  unfold abort. case_match.
  - apply (dropped_exit b s s [] (held (inb s))); [by rewrite app_nil_r|]. unfold nothing_queued. by split_and!; auto.
  - split; [unfold batch_done; by destruct (from_hold b)|]. unfold batch_done. split.
    + destruct (from_hold b); unfold nothing_queued; by split_and!; auto.
    + exists [StopDropped (batch b)]. split; [by destruct (from_hold b)|]. left. by apply list_elem_of_singleton.
Qed.

Lemma waits_dispatched b s : waitCancel (inb s) = Some true -> still_waits b (dispatched (KSlot b) s).
Proof. intros H. apply (waits_intro b b []); [done|by rewrite app_nil_r|done]. Qed.

Lemma waits_inject_done b i s : icont_batch i = Some b -> waitCancel (inb s) = Some true -> still_waits b (inject_done i s).
Proof.
  destruct i as [kept rest [|b']|[|b']]; intros [= ->] H; [|by apply waits_dispatched].
  apply (waits_intro b b []); [done|by rewrite app_nil_r|done].
Qed.

Lemma waits_run_closure b e i s : icont_batch i = Some b -> waitCancel (inb s) = Some true -> still_waits b (run_closure e i s).
Proof.
  intros Hi H. unfold run_closure. destruct (Inject e) as [m|]; [destruct (Run m)|]; try by apply waits_inject_done.
  apply (waits_intro b b []); [done|by rewrite app_nil_r|done].
Qed.

Lemma refuse_facts e s : (exists x, log (refuse e s) = log s ++ [x]) /\ nothing_queued s (refuse e s).
Proof. split; [by eexists|]. unfold nothing_queued. by split_and!; auto. Qed.

Lemma dropped_refused b e s : dropped b s (exit_from (KSlot b) (refuse e s)).
Proof.
  destruct (refuse_facts e s) as [[x Hx] Hq]. apply (dropped_exit b s _ [x] (held (inb s)) Hx).
  unfold nothing_queued in *. by split_and!; auto.
Qed.

Lemma dropped_held b l s : dropped b s (exit_from (KSlot b) (upd (set_held l) s)).
Proof.
  apply (dropped_exit b s _ [] (held (inb s))); [by rewrite app_nil_r|]. unfold nothing_queued. by split_and!; auto.
Qed.

Lemma work_stopped c b s s' : waiting_batch (pc s) = Some b -> waitCancel (inb s) = Some true -> work c s = Some s' ->
  still_waits b s' \/ dropped b s s'.
Proof.
  intros Hb Hw H. unfold_work H. destruct (pc s) eqn:Ep; cbn [waiting_batch] in Hb; try discriminate.
  all: try (destruct k as [|?]; cbn in Hb; [discriminate|]; simplify_eq).
  all: try (injection Hb as ->).
  all: repeat (case_match; try discriminate); simplify_eq.
  all: try (match goal with
    | |- _ \/ dropped _ _ (abort _ _) => right; apply dropped_abort
    | |- _ \/ dropped _ _ (exit_from _ (refuse _ _)) => right; apply dropped_refused
    | |- _ \/ dropped _ _ (exit_from _ (upd _ _)) => right; apply dropped_held
    end).
  all: left.
  all: try (by apply waits_dispatched).
  all: try (by apply waits_inject_done).
  all: try (by apply waits_run_closure).
  all: try (by apply (waits_intro b b []); [done|by rewrite app_nil_r|done]).
  all: try (match goal with |- context [dispatched _ (upd (park ?t ?e) ?s1)] => apply waits_dispatched; cbn [upd put_inb inb];
    rewrite (cancels_wait _ _ (cancels_park t e (inb s1))) end; try done;
    erewrite cancels_wait by (by eapply cancels_store); done).
  all: try (match goal with E : _ || bool_decide (waitCancel _ = Some true) = false |- _ =>
    rewrite Hw, bool_decide_true in E by done; by destruct (ctx_done (w s)) end).
  all: try (eapply (waits_intro _ _ []); [reflexivity|cbn; by rewrite ?app_nil_r|
    cbn [goto put_pc upd put_inb inb]; rewrite ?(proj1 (ensure_cancels _)); exact Hw]).
  eapply (waits_intro _ _ [_]); [reflexivity|done|exact Hw].
Qed.

Lemma stopped_others a s s' : step a s = Some s' -> waitCancel (inb s) = Some true -> (exists c, work c s = Some s') \/
  (waitCancel (inb s') = Some true /\ pc s' = pc s).
Proof.
  intros H Hw. destruct a; cbn [InboxRun.step] in H; [left; eauto|right..].
  - by simplify_eq.
  - unfold call_step in H. repeat (case_match; try discriminate); simplify_eq; unfold accepted_by, captured_by, rejected_by; repeat case_match; done.
  - case_match; by simplify_eq.
  - repeat case_match; by simplify_eq.
  - by simplify_eq.
  - simplify_eq. cbn [upd put_inb inb pc]. unfold CancelSession. by rewrite Hw.
  - simplify_eq. cbn [upd put_inb inb pc]. by destruct (turnCancel (inb s)).
  - repeat case_match; by simplify_eq.
  - case_match; by simplify_eq.
  - by simplify_eq.
Qed.

(** One step of a batch that waits and was stopped. *)
Lemma stopped_step b a s s' : waiting_batch (pc s) = Some b -> waitCancel (inb s) = Some true -> step a s = Some s' ->
  driven (log s') = driven (log s) /\ (still_waits b s' \/ dropped b s s').
Proof.
  intros Hb Hw Ha. split.
  { eapply step_drives; [done|]. intros b' E. by rewrite E in Hb. }
  destruct (stopped_others a s s' Ha Hw) as [[c Hc]|[H1 H2]]; [by eapply work_stopped|].
  left. apply (waits_intro b b []); [by rewrite H2|by rewrite app_nil_r|done].
Qed.

(** [let_go b s s']: on the way from [s] to [s'] the batch [b], with what
    joined it, was dropped, and nothing was driven up to then. *)
Definition let_go (b : batchrun) (s s' : sys) : Prop :=
  exists s1 s2 b1 l, rtc moves s s1 /\ moves s1 s2 /\ rtc moves s2 s'
    /\ waiting_batch (pc s1) = Some b1 /\ batch b1 = batch b ++ l /\ dropped b1 s1 s2
    /\ driven (log s2) = driven (log s).

Lemma stopped_run b s s' : rtc moves s s' -> still_waits b s ->
  (still_waits b s' /\ driven (log s') = driven (log s)) \/ let_go b s s'.
Proof.
  intros H. induction H as [s|s s1 s' [a Ha] H IH]; intros Hs; [by left|].
  destruct Hs as (Hw & b' & l & Hb & Hl). destruct (stopped_step b' a s s1 Hb Hw Ha) as [Hd [Hs|Hs]].
  - assert (still_waits b s1) as Hs1.
    { destruct Hs as (Hw1 & b1 & l1 & Hb1 & Hl1). split; [done|]. exists b1, (l ++ l1). split; [done|].
      by rewrite Hl1, Hl, app_assoc. }
    destruct (IH Hs1) as [[? Hd1]|(t1 & t2 & b1 & l1 & H1 & H2 & H3 & H4 & H5 & H6 & H7)].
    + left. split; [done|]. by rewrite Hd1.
    + right. exists t1, t2, b1, l1. split_and!; try done; [eapply rtc_l; [by exists a|done]|by rewrite H7].
  - right. exists s, s1, b', l. split_and!; try done; by exists a.
Qed.

(** C10: a /stop of a batch that waits for its slots is never lost, whatever the
    order of the grant, the stop and the worker's reads.  In every run from
    then on, either the batch (with what joined it) still waits, stopped, and
    no batch at all has been driven meanwhile; or there is a step that drops it:
    up to and including that step nothing was driven, the step logs the batch
    as dropped, leaves the worker without a batch in hand, and puts nothing
    into a queue, the restart store or a caller's hands.  An injection that the
    wait serves meanwhile is not a batch and may run. *)
Theorem stopped_batch_dropped s : reachable s -> waitCancel (inb s) = Some true ->
  exists b, waiting_batch (pc s) = Some b
    /\ forall s', rtc moves s s' ->
         (still_waits b s' /\ driven (log s') = driven (log s)) \/ let_go b s s'.
Proof.
  intros H Hw. destruct (reachable_fits s H) as (E & _). cbn in E. rewrite Hw in E.
  destruct (waiting_batch (pc s)) as [b|] eqn:Eb; [|done]. exists b. split; [done|].
  intros s' Hs. apply stopped_run; [done|]. apply (waits_intro b b []); [done|by rewrite app_nil_r|done].
Qed.
End Safety.

Definition turn_run : list action := to_idle ++ to_turn 0 (user_msg "one").
Definition stop_run : list action := to_idle ++ to_wait 0 (user_msg "one") ++ [Stop_].

Lemma turn_holds_slots_witness : exists b, pc (ends calm [] turn_run) = WTurn b /\ slots b = [AgentLimit].
Proof.
  eexists. split; [vm_compute; reflexivity|].
  apply (turn_holds_slots no_platform (Some on_first) [AgentLimit] "s" (ends calm [] turn_run)).
  - apply ends_reached. vm_compute. reflexivity.
  - vm_compute. reflexivity.
Defined.

Lemma stop_reaches_witness : (CancelSession (inb (ends calm [] stop_run))).1 = true.
Proof.
  apply (stop_reaches no_platform (Some on_first) [AgentLimit] "s" (ends calm [] stop_run)).
  - apply ends_reached. vm_compute. reflexivity.
  - left. eexists. vm_compute. reflexivity.
Defined.

(** The grant, and the worker's second look, after the stop. *)
Lemma stopped_batch_dropped_witness : exists b, waiting_batch (pc (ends calm [] stop_run)) = Some b
  /\ ((still_waits b (ends calm [] (stop_run ++ [Work Grant; Work Go; Work Go]))
        /\ driven (log (ends calm [] (stop_run ++ [Work Grant; Work Go; Work Go]))) = driven (log (ends calm [] stop_run)))
      \/ let_go no_platform (Some on_first) [AgentLimit] "s" b (ends calm [] stop_run)
           (ends calm [] (stop_run ++ [Work Grant; Work Go; Work Go]))).
Proof.
  edestruct (stopped_batch_dropped no_platform (Some on_first) [AgentLimit] "s" (ends calm [] stop_run)) as (b & Hb & H).
  - apply ends_reached. vm_compute. reflexivity.
  - vm_compute. reflexivity.
  - exists b. split; [exact Hb|]. apply H. apply (run_moves _ _ _ _ [Work Grant; Work Go; Work Go]). vm_compute. reflexivity.
Defined.
