(* ===== verification/InboxHeld.v ===== *)
(** * The session inbox: held injections are watched

    At the waits that [watchful] names, an injection whose hold opens is
    noticed; InboxTraces.v has a wait for which that fails. *)
From S2P Require Import Prelude GoStrings GoNum SessionKey UsageHold Inbox InboxRun InboxSafety.
Local Open Scope gostr_scope.

(** The entries the release walk has in hand and may keep. *)
Definition walked (p : wpc) : list Envelope :=
  match p with
  | WWalk kept rest _ => kept ++ rest
  | WWalkGate kept e rest _ => kept ++ e :: rest
  | WInject _ (IWalk kept rest _) | WDefer _ _ (IWalk kept rest _) | WRecheck (IWalk kept rest _)
  | WRunning _ (IWalk kept rest _) => kept ++ rest
  | _ => []
  end.

(** The positions of the worker between its select and the next turn, where the
    watch is armed.  Left out are a batch of released held input (see
    [released_batch_unwatched]), the release walk and a turn with what follows
    it. *)
Definition cont_watchful (k : cont) : bool := match k with KLoop => true | KSlot b => negb (from_hold b) end.
Definition watchful (p : wpc) : bool :=
  match p with
  | WIdle | WHandle _ => true
  | WDispatch _ k | WUserGates _ _ k | WRelogin _ k => cont_watchful k
  | WInject _ (IGo k) | WDefer _ _ (IGo k) | WRecheck (IGo k) | WRunning _ (IGo k) => cont_watchful k
  | WGates _ b | WSlot b | WWait b | WGranted b | WRecheckGates b => negb (from_hold b)
  | _ => false
  end.

Definition covers (x : list Envelope * nat * nat * option (list Envelope)) (p : wpc) : Prop :=
  let '(held, gen, watch_gen, armed) := x in
  (forall l, armed = Some l -> watch_gen = gen /\ forall e, e ∈ held ++ walked p -> e ∈ l)
  /\ (watchful p = true -> held <> [] -> armed <> None).

Definition guarded (v : view) : Prop := covers (v_held v, v_gen v, v_watch_gen v, v_armed v) (v_pc v).

Lemma covers_watch i j p : watch_of i = watch_of j -> covers (watch_of j) p -> covers (watch_of i) p.
Proof. by intros ->. Qed.

(** A watch in place covers the list. *)
Definition armed_well (i : inbox) : Prop :=
  forall g, heldWatch i = Some g -> heldWatchGen i = heldGen i /\ forall e, e ∈ held i -> e ∈ armed g.

Lemma covers_quiet i p : armed_well i -> walked p = [] -> watchful p = false -> covers (watch_of i) p.
Proof.
  intros H Hq Hf. unfold watch_of, covers. rewrite Hq, Hf, app_nil_r. split; [|done].
  intros l E. destruct (heldWatch i) as [g|] eqn:Eg; [|done]. cbn in E. simplify_eq. by apply H.
Qed.

Lemma covers_unwatched i p : heldWatch i = None -> watchful p = false -> covers (watch_of i) p.
Proof. intros H Hf. unfold watch_of, covers. by rewrite H, Hf. Qed.

Lemma covers_empty i p : heldWatch i = None -> held i = [] -> covers (watch_of i) p.
Proof. intros H H'. unfold watch_of, covers. rewrite H, H'. done. Qed.

Lemma covers_well i p : covers (watch_of i) p -> armed_well i.
Proof.
  intros [H _] g Hg. rewrite Hg in H. destruct (H _ eq_refl) as [H1 H2]. split; [done|]. intros e He. apply H2, elem_of_app. by left.
Qed.

Lemma covers_to i p q : covers (watch_of i) p -> (forall e, e ∈ walked q -> e ∈ walked p) ->
  (watchful q = true -> watchful p = true) -> covers (watch_of i) q.
Proof.
  intros [H1 H2] Hq Hf. split; [|auto]. intros l E. destruct (H1 l E) as [H3 H4]. split; [done|].
  intros e He. apply H4, elem_of_app. apply elem_of_app in He as [He|He]; auto.
Qed.

Lemma none_walked p q : walked q = [] -> forall e, e ∈ walked q -> e ∈ walked p.
Proof. intros -> e H. by apply elem_of_nil in H. Qed.

Lemma well_watch i j : watch_of i = watch_of j -> armed_well j -> armed_well i.
Proof.
  intros E H. apply (covers_well i WTop). eapply covers_watch; [exact E|]. by apply covers_quiet.
Qed.

Lemma covers_ensure i q : armed_well i -> walked q = [] -> covers (watch_of (ensureHeldWatch i)) q.
Proof.
  intros H Hq. unfold ensureHeldWatch, covers. case_bool_decide as E.
  - unfold watch_of, covers. rewrite Hq, E. split; [|done]. intros l El. destruct (heldWatch i) as [g|] eqn:Eg; [|done].
    destruct (H g Eg) as [H1 H2]. split; [done|]. intros e He. by apply elem_of_nil in He.
  - destruct (heldWatch i) as [g|] eqn:Eg.
    + destruct (H g Eg) as [-> H2]. rewrite Nat.eqb_refl. unfold watch_of. rewrite Eg, Hq. cbn. split; [|done].
      intros l [= <-]. destruct (H g Eg) as [H1 _]. split; [done|]. by rewrite app_nil_r.
    + unfold watch_of. cbn. rewrite Hq, app_nil_r. split; [|done]. by intros l [= <-].
Qed.

(** The release walk begins, and ends. *)
Lemma covers_begin i k : armed_well i -> covers (watch_of (set_held [] i)) (WWalk [] (held i) k).
Proof.
  intros H. unfold watch_of, covers. split; [|done]. cbn. intros l E. destruct (heldWatch i) as [g|] eqn:Eg; [|done].
  cbn in E. simplify_eq. by apply H.
Qed.

Lemma covers_end i kept k : covers (watch_of i) (WWalk kept [] k) -> armed_well (set_held kept i).
Proof.
  intros [H _] g Hg. cbn in Hg. cbn [heldWatchGen heldGen held set_held]. rewrite Hg in H. destruct (H _ eq_refl) as [H1 H2].
  split; [done|]. intros e He. apply H2. cbn. set_solver.
Qed.

Lemma covers_park t e i q : armed_well i -> walked q = [] -> covers (watch_of (park t e i)) q.
Proof.
  intros H Hq. unfold park, ensureHeldWatch. set (e' := if IsZero (heldSince e) then with_heldSince t e else e). cbn [held set_heldGen set_held heldWatch heldWatchGen heldGen].
  rewrite bool_decide_false by (intros E; by destruct (held i)).
  assert (covers (held i ++ [e'], S (heldGen i), S (heldGen i), Some (held i ++ [e'])) q) as Hc.
  { split; [|done]. intros l [= <-]. split; [done|]. by rewrite Hq, app_nil_r. }
  destruct (heldWatch i) as [g|] eqn:Eg; [|exact Hc]. destruct (H g Eg) as [E _].
  destruct (Nat.eqb_spec (heldWatchGen i) (S (heldGen i))); [lia|exact Hc].
Qed.

Section Held.
Context (platform_of : nat -> gostr) (heldDriver : option (gostr -> option nat)) (limits : list scope) (sk : gostr).

Local Abbreviation work := (work heldDriver limits sk).
Local Abbreviation step := (step platform_of heldDriver limits sk).
Local Abbreviation reachable := (reachable platform_of heldDriver limits sk).

Lemma guarded_at s p : pc s = p -> covers (watch_of (inb s)) p -> guarded (view_of s).
Proof. by intros <-. Qed.

Lemma guarded_exit s : guarded (view_of (worker_exit s)).
Proof. apply (guarded_at _ WDead); [done|]. rewrite inb_worker_exit. by apply covers_empty. Qed.

Lemma guarded_exit_from k s : guarded (view_of (exit_from k s)).
Proof. destruct k; apply guarded_exit. Qed.

Lemma guarded_handled s : armed_well (inb s) -> guarded (view_of (handled s)).
Proof. intros H. by apply (guarded_at _ WTop), covers_quiet. Qed.

Lemma guarded_batch_done b s : armed_well (inb s) -> guarded (view_of (batch_done b s)).
Proof. intros H. unfold batch_done. destruct (from_hold b); [by apply (guarded_at _ WQueue), covers_quiet|by apply guarded_handled]. Qed.

Lemma guarded_abort b s : armed_well (inb s) -> guarded (view_of (abort b s)).
Proof. intros H. unfold abort. case_match; [apply guarded_exit|by apply guarded_batch_done]. Qed.

Lemma guarded_dispatched k s : covers (watch_of (inb s)) (WDispatch (usageResumeEnvelope sk None 0) k) -> guarded (view_of (dispatched k s)).
Proof.
  intros H. destruct k; cbn [dispatched]; [by eapply guarded_handled, covers_well|].
  apply (guarded_at _ (WWait b)); [done|]. by eapply covers_to; [|apply none_walked|].
Qed.

Lemma guarded_inject_done i s : covers (watch_of (inb s)) (WRecheck i) -> guarded (view_of (inject_done i s)).
Proof.
  intros H. destruct i as [kept rest k|k]; cbn [inject_done]; [|by eapply guarded_dispatched, covers_to; [|apply none_walked|]].
  by apply (guarded_at _ (WWalk kept rest k)).
Qed.

Lemma guarded_run_closure e i s : covers (watch_of (inb s)) (WRecheck i) -> guarded (view_of (run_closure e i s)).
Proof.
  intros H. unfold run_closure. destruct (Inject e) as [m|]; [destruct (Run m)|]; try by apply guarded_inject_done.
  by apply (guarded_at _ (WRunning e i)).
Qed.

Lemma work_guarded c s s' : guarded (view_of s) -> work c s = Some s' -> guarded (view_of s').
Proof.
  intros Hg H. change (covers (watch_of (inb s)) (pc s)) in Hg. unfold_work H. destruct (pc s) eqn:Ep.
  all: pose proof (covers_well _ _ Hg) as Hwell.
  all: repeat (case_match; try discriminate); simplify_eq.
  all: match goal with
    | |- guarded (view_of (exit_from _ _)) => apply guarded_exit_from
    | |- guarded (view_of (worker_exit _)) => apply guarded_exit
    | |- guarded (view_of (batch_done _ _)) => apply guarded_batch_done
    | |- guarded (view_of (abort _ _)) => apply guarded_abort
    | |- guarded (view_of (handled _)) => apply guarded_handled
    | |- guarded (view_of (inject_done _ _)) => apply guarded_inject_done
    | |- guarded (view_of (run_closure _ _ _)) => apply guarded_run_closure
    | |- guarded (view_of (dispatched _ _)) => apply guarded_dispatched
    | |- guarded (view_of (goto ?p _)) => apply (guarded_at _ p); [reflexivity|]
    | |- guarded (view_of (start_batch ?h ?t ?b _)) => apply (guarded_at _ (WGates 0 (MkRun h (h :: t) [] [] b))); [reflexivity|]
    | |- guarded (view_of (drive ?b _)) => apply (guarded_at _ (WTurn (with_batch [] b))); [reflexivity|]
    | |- guarded (view_of ?s1) => apply (guarded_at s1 _ Ep)
    | _ => idtac
    end; try exact Hwell.
  all: cbn [inb goto put_pc upd put_inb note put_log put_stored start_batch drive accept put_taken refuse put_timers drain_deferred];
      repeat first [rewrite watch_park_held | rewrite watch_park_all
        | erewrite watch_take by eassumption | erewrite watch_steer by eassumption | erewrite watch_pop by eassumption
        | rewrite watch_push | erewrite watch_drain by eassumption].
  all: try match goal with
    | |- covers _ ?q => change (covers (watch_of (inb s)) q); eapply covers_to; [exact Hg|by apply none_walked|done]
    end.
  all: try match goal with
    | |- covers _ ?q => change (covers (watch_of (inb s)) q); eapply covers_to; [exact Hg|set_solver|done]
    end.
  all: try (by apply covers_empty).
  all: try (by apply covers_ensure).
  - by apply covers_begin.
  - by apply covers_unwatched.
  - apply covers_quiet; [by eapply covers_end|done|done].
  - apply covers_ensure; [by eapply covers_end|done].
  - apply covers_empty; [done|]. by eapply bool_decide_eq_true.
  - apply covers_empty; [done|]. by eapply bool_decide_eq_true.
  - by apply covers_unwatched.
  - by eapply well_watch, Hwell; apply watch_park_held.
  - by apply covers_park.
  - apply covers_park; [|done]. by eapply well_watch, Hwell; eapply watch_store.
  - by apply covers_park.
Qed.

Lemma reachable_guarded s : reachable s -> guarded (view_of s).
Proof. intros H. eapply view_invariant; [|exact work_guarded|done]. intros wd l. apply (guarded_at _ WTop); [done|]. by apply covers_empty. Qed.

(** C11: an injection parked behind a hold is noticed at these places: the
    select of the worker's loop, the handling of what that select received
    (the waits and the run of an injection included), and the waits for gates
    and slots of a user batch that did not come from the usage hold, with the
    injections served meanwhile.  There, if a parked injection's own hold is
    open, the gate watcher has signalled or can signal; and a signalled watch
    wakes the select of the loop and of the slot wait.  Not covered are the
    waits of the release walk, which has the parked entries in hand, a running
    turn and its follow-ups, and a batch released from the usage hold, where it
    fails ([released_batch_unwatched]). *)
Theorem held_watched s e : reachable s -> watchful (pc s) = true -> e ∈ held (inb s) ->
  injectHeld (w s) (busy (inb s)) e = false ->
  exists g, heldWatch (inb s) = Some g /\
    (fired g = true \/ exists s', step Signal s = Some s' /\ (fired <$> heldWatch (inb s')) = Some true)
    /\ (fired g = true -> pc s = WIdle \/ (exists b, pc s = WWait b) -> exists s', work Watch s = Some s' /\ heldWatch (inb s') = None).
Proof.
  intros H Hf He Hopen. destruct (reachable_guarded s H) as [H1 H2]. unfold view_of in H1, H2. cbn in H1, H2.
  destruct (heldWatch (inb s)) as [g|] eqn:Eg; cbn in H1, H2.
  2: { exfalso. apply H2; [done| |done]. intros E. rewrite E in He. by apply elem_of_nil in He. }
  exists g. split; [done|]. destruct (H1 _ eq_refl) as [_ H3]. split.
  - destruct (fired g) eqn:Ef; [by left|]. right. cbn [InboxRun.step]. rewrite Eg, Ef. cbn [negb andb].
    assert (existsb (fun e => negb (injectHeld (w s) (busy (inb s)) e)) (armed g) = true) as ->; [|by eexists].
    apply existsb_exists. exists e. split; [|by rewrite Hopen]. apply list_elem_of_In, H3. set_solver.
  - intros Ef [Ep|[b Ep]]; unfold InboxRun.work; rewrite Ep; unfold worker_select, waitTurnSlot; rewrite Eg, Ef; by eexists.
Qed.
End Held.

(** An injection is parked behind background work that then ends. *)
Definition parked_run : list action :=
  [Environment (working Open false true)] ++ to_idle ++ enqueue 0 (injection "cron" []) ++ [Work Recv] ++ go 8
  ++ [Environment (working Open false false)].

Lemma held_watched_witness : exists g, heldWatch (inb (ends calm [] parked_run)) = Some g.
Proof.
  destruct (held_watched no_platform (Some on_first) [AgentLimit] "s" (ends calm [] parked_run) (with_heldSince 1 (injection "cron" [])))
    as (g & Hg & _).
  - apply ends_reached. vm_compute. reflexivity.
  - vm_compute. reflexivity.
  - vm_compute. left.
  - vm_compute. reflexivity.
  - by exists g.
Defined.
