(* ===== verification/InboxTraces.v ===== *)
(** * The session inbox: traces

    Concrete runs of the model, in which the code does not do what its comments
    say; each is a schedule the code allows. *)
From S2P Require Import Prelude GoStrings GoNum SessionKey UsageHold Inbox InboxRun InboxSafety InboxHeld.
Local Open Scope gostr_scope.

Definition late_message : list action :=
  to_idle ++ to_wait 0 (user_msg "one") ++ [Stop_] ++ enqueue 1 (user_msg "two") ++ [Work Recv; Work CtxDone].

(** A message queued after a /stop of a waiting batch, and numbered above it, is
    dropped with the batch: the worker's select takes it off the channel before
    it sees the stop. *)
Example late_message_dropped : exists s l e, reached s /\ StopDropped l ∈ log s /\ e ∈ l /\ (stopThrough (inb s) < enqSeq e)%N.
Proof.
  eexists _, _, _. split_and!; [apply (demo_reached calm [] late_message); vm_compute; reflexivity|vm_compute; left|right; left|done].
Qed.

Definition overtaking : list action :=
  to_idle ++ to_turn 0 (user_msg "zero")
  ++ enqueue 1 (injection "cron" []) ++ enqueue 2 (user_msg "one") ++ enqueue 3 (user_msg "two")
  ++ [Work Ends] ++ go 23 ++ [Work MustWait] ++ enqueue 4 (user_msg "three") ++ [Work Recv; Work Grant] ++ go 5.

(** Two messages and a third wait; the batch that waits for its slot takes the
    third off the channel before the second, which the worker had put on its own
    queue: they run out of the order they arrived in. *)
Example slot_wait_overtakes : exists s, reached s /\
  (exists l, Drove l ∈ log s /\ Text <$> l = ["one" : gostr; "three" : gostr; "two" : gostr])
  /\ taken s = token_of <$> [user_msg "zero"; injection "cron" []; user_msg "one"; user_msg "two"; user_msg "three"].
Proof.
  eexists. split_and!; [apply (demo_reached calm [] overtaking); vm_compute; reflexivity| |vm_compute; reflexivity].
  eexists. split; [vm_compute; right; right; right; right; right; left|reflexivity].
Qed.

Definition spent_watch : list action :=
  [Environment (working Open true true)] ++ to_idle ++ enqueue 0 (injection "keepalive" []) ++ [Work Recv] ++ go 8
  ++ enqueue 1 (injection "cron" []) ++ [Work Recv] ++ go 9
  ++ [Environment (working Hold true true)] ++ enqueue 2 (user_msg "hello") ++ [Work Recv] ++ go 8
  ++ [Environment (working Open false true); Signal; Work Watch] ++ go 13 ++ [Work MustWait]
  ++ [Environment (working Open false false)].

(** The held messages a lifted usage hold releases run as a batch straight from
    the top of the worker's loop; if that batch waits for a slot, an injection
    the walk before it kept is not watched: its hold is open, and nothing wakes
    the wait for it. *)
Example released_batch_unwatched : exists s b e, reached s /\ pc s = WWait b /\ e ∈ held (inb s)
  /\ injectHeld (w s) (busy (inb s)) e = false /\ heldWatch (inb s) = None.
Proof.
  eexists _, _, _. split_and!; [apply (demo_reached calm [] spent_watch); vm_compute; reflexivity|vm_compute; reflexivity|vm_compute; left|vm_compute; reflexivity..].
Qed.

Definition exit_while_calling : list action :=
  to_idle ++ enqueue 0 (injection "cron" []) ++ [Environment stopping; Work CtxDone].

(** The worker's exit refuses the injections it holds and those on its own
    queue, not those on the channel: no one is told of them. *)
Example exit_forgets_channel : exists s e, reached s /\ pc s = WDead /\ e ∈ ch (inb s) /\ is_inject e = true /\ log s = [].
Proof.
  eexists _, _. split_and!; [apply (demo_reached calm [] exit_while_calling); vm_compute; reflexivity|vm_compute; reflexivity|vm_compute; left|done..].
Qed.

Definition answered_meanwhile : list action :=
  [Environment (asking "q")] ++ to_idle ++ enqueue 0 (injection "cron" "q") ++ [Work Recv] ++ go 4
  ++ [Environment calm; Drain "q"] ++ go 6.

(** The ask that held an injection resolves, and its drain runs, between the
    worker's check and its append: the injection is deferred behind an ask that
    is gone, with no timer, and nothing releases it. *)
Example deferred_behind_nothing : exists s e, reached s /\ pc s = WIdle /\ deferredInjects (inb s) = [(e, "q" : gostr)]
  /\ pending_ask (w s) = [] /\ timers s = [] /\ returned s = true.
Proof.
  eexists _, _. split_and!; [apply (demo_reached calm [] answered_meanwhile); vm_compute; reflexivity|vm_compute; reflexivity..].
Qed.

Definition steered_late : list action :=
  [Environment steering] ++ to_idle ++ to_turn 0 (user_msg "zero") ++ [Work Primary; Work Ends] ++ go 2
  ++ [Call [user_msg "one"]; CallStep 1; CallStep 1] ++ go 6.

(** A message steered into a turn after the turn's last drain of the buffer, and
    before the turn counts as over, stays in the buffer: the worker waits for
    its channel with the message unanswered. *)
Example steer_left_behind : exists s m, reached s /\ pc s = WIdle /\ steer (inb s) = [m] /\ turnActive (inb s) = false
  /\ returned s = true.
Proof.
  eexists _, _. split_and!; [apply (demo_reached calm [] steered_late); vm_compute; reflexivity|vm_compute; reflexivity..].
Qed.

Definition kept_message : Envelope := with_usageHeldID "uh-1" (user_msg "held").

Definition restored_late : list action :=
  to_idle ++ to_turn 0 (user_msg "zero") ++ [RestoreHeld; CallStep 1; CallStep 1; CallStep 1; Work Ends] ++ go 3
  ++ [Work Ends] ++ go 8.

(** A restored message that arrives while a turn runs is answered by a follow-up
    of that turn, and its record stays in the store: the next start restores and
    runs it again. *)
Example follow_up_keeps_record : exists s l e, reached s /\ pc s = WIdle /\ Drove l ∈ log s /\ e ∈ l
  /\ usageHeldRecordOf e ∈ stored s /\ returned s = true.
Proof.
  eexists _, _, _. split_and!;
    [apply (demo_reached calm [usageHeldRecordOf kept_message] restored_late); vm_compute; reflexivity|vm_compute; reflexivity
    |vm_compute; right; right; right; left|left|vm_compute; left|vm_compute; reflexivity].
Qed.
