(* ===== verification/InFlight.v ===== *)
(** * Turns in flight ([internal/agent/in_flight.go], [WaitTurnIdle],
    [dropInFlightChanged], the in-flight gate of [waitUserTurnGates])

    The counters of running turns per session, and the channel each session's
    waiters sleep on, which every change closes and replaces.  A step is one
    critical section of [inFlightMu]; any number of turns and waiters interleave.
    Channels and the release closures are known by numbers.  The counters are
    int32 in the code; [counts_exact] bounds them by the number of running turns. *)
From S2P Require Import Prelude GoStrings GoNum SessionKey.
From stdpp Require Import fin_maps.
Local Open Scope Z_scope.
Local Open Scope gostr_scope.

(** ** State *)

(** What a release closure captured: a turn, which may deliver to a platform, or
    an unattended turn; and whether it still is to be called. *)
Inductive kind := Turn (delivering : bool) | Unattended.
Record mark := MkMark { m_key : gostr; m_kind : kind; m_open : bool }.

(** A goroutine inside [WaitTurnIdle]: before the fetch of the channel, before
    the check, in the select.  One inside the in-flight gate of
    [waitUserTurnGates]: before the check of the one counter, of the other,
    before the fetch, in the select. *)
Inductive waiter :=
| IdleFetch (key : gostr)
| IdleCheck (key : gostr) (ch : nat)
| IdleSelect (key : gostr) (ch : nat)
| GateCheck (key : gostr)
| GateDelivering (key : gostr)
| GateFetch (key : gostr)
| GateSelect (key : gostr) (ch : nat).

Record state := MkState {
  inFlight : gmap gostr Z; inFlightDelivering : gmap gostr Z; unattendedTurns : gmap gostr Z;
  inFlightChanged : gmap gostr nat; lastTurnEndAt : gmap gostr Time;
  closed : gset nat; next : nat; marks : gmap nat mark; waiters : gmap nat waiter;
}.

Definition init : state := MkState ∅ ∅ ∅ ∅ ∅ ∅ 0 ∅ ∅.

(** ** Operations *)
Definition count (m : gmap gostr Z) (key : gostr) : Z := default 0 (m !! key).
Definition increment (key : gostr) (m : gmap gostr Z) : gmap gostr Z := <[ key := count m key + 1 ]> m.
Definition decrement (key : gostr) (m : gmap gostr Z) : gmap gostr Z :=
  if count m key - 1 <=? 0 then delete key m else <[ key := count m key - 1 ]> m.

Definition IsTurnInFlight (key : gostr) (s : state) : bool := 0 <? count (inFlight s) key.
Definition IsInFlightDelivering (key : gostr) (s : state) : bool := 0 <? count (inFlightDelivering s) key.
Definition TurnUnattended (key : gostr) (s : state) : bool := 0 <? count (unattendedTurns s) key.
Definition IsAnyTurnInFlight (s : state) : bool := existsb (fun kn => 0 <? kn.2) (map_to_list (inFlight s)).
Definition LastTurnEnd (key : gostr) (s : state) : Time := default 0 (lastTurnEndAt s !! key).

Definition InFlightWaitCh (key : gostr) (s : state) : nat * state :=
  match inFlightChanged s !! key with
  | Some ch => (ch, s)
  | None => (next s, MkState (inFlight s) (inFlightDelivering s) (unattendedTurns s) (<[ key := next s ]> (inFlightChanged s))
                       (lastTurnEndAt s) (closed s) (S (next s)) (marks s) (waiters s))
  end.

Definition notifyInFlightChangedLocked (key : gostr) (s : state) : state :=
  match inFlightChanged s !! key with
  | None => s
  | Some ch => MkState (inFlight s) (inFlightDelivering s) (unattendedTurns s) (<[ key := next s ]> (inFlightChanged s))
                 (lastTurnEndAt s) ({[ ch ]} ∪ closed s) (S (next s)) (marks s) (waiters s)
  end.

Definition put_mark (id : nat) (m : mark) (s : state) : state :=
  MkState (inFlight s) (inFlightDelivering s) (unattendedTurns s) (inFlightChanged s) (lastTurnEndAt s) (closed s) (next s)
    (<[ id := m ]> (marks s)) (waiters s).

Definition markInFlight (id : nat) (key : gostr) (delivering : bool) (s : state) : state :=
  notifyInFlightChangedLocked key
    (MkState (increment key (inFlight s)) (if delivering then increment key (inFlightDelivering s) else inFlightDelivering s)
       (unattendedTurns s) (inFlightChanged s) (lastTurnEndAt s) (closed s) (next s)
       (<[ id := MkMark key (Turn delivering) true ]> (marks s)) (waiters s)).

Definition markUnattendedTurn (id : nat) (key : gostr) (unattended : bool) (s : state) : state :=
  if negb unattended then s else
  MkState (inFlight s) (inFlightDelivering s) (increment key (unattendedTurns s)) (inFlightChanged s) (lastTurnEndAt s) (closed s)
    (next s) (<[ id := MkMark key Unattended true ]> (marks s)) (waiters s).

(** The closures they return. *)
Definition release (now : Time) (id : nat) (s : state) : state :=
  match marks s !! id with
  | Some (MkMark key (Turn delivering) true) =>
      let m := decrement key (inFlight s) in
      notifyInFlightChangedLocked key
        (MkState m (if delivering then decrement key (inFlightDelivering s) else inFlightDelivering s) (unattendedTurns s)
           (inFlightChanged s) (if bool_decide (m !! key = None) then <[ key := now ]> (lastTurnEndAt s) else lastTurnEndAt s)
           (closed s) (next s) (<[ id := MkMark key (Turn delivering) false ]> (marks s)) (waiters s))
  | Some (MkMark key Unattended true) =>
      MkState (inFlight s) (inFlightDelivering s) (decrement key (unattendedTurns s)) (inFlightChanged s) (lastTurnEndAt s)
        (closed s) (next s) (<[ id := MkMark key Unattended false ]> (marks s)) (waiters s)
  | _ => s
  end.

Definition dropInFlightChanged (key : gostr) (s : state) : state :=
  if negb (count (inFlight s) key =? 0) || negb (count (inFlightDelivering s) key =? 0) then s
  else match inFlightChanged s !! key with
       | Some ch => MkState (inFlight s) (inFlightDelivering s) (unattendedTurns s) (delete key (inFlightChanged s))
                      (lastTurnEndAt s) ({[ ch ]} ∪ closed s) (next s) (marks s) (waiters s)
       | None => s
       end.

(** ** Waiters *)
Definition put_waiter (g : nat) (x : option waiter) (s : state) : state :=
  MkState (inFlight s) (inFlightDelivering s) (unattendedTurns s) (inFlightChanged s) (lastTurnEndAt s) (closed s) (next s)
    (marks s) (match x with Some x => <[ g := x ]> (waiters s) | None => delete g (waiters s) end).

(** A waiter's next critical section; a select is passed when its channel is
    closed.  [None] in the map: it has returned. *)
Definition wait_step (g : nat) (x : waiter) (s : state) : option state :=
  match x with
  | IdleFetch key => let '(ch, s) := InFlightWaitCh key s in Some (put_waiter g (Some (IdleCheck key ch)) s)
  | IdleCheck key ch => Some (put_waiter g (if IsTurnInFlight key s then Some (IdleSelect key ch) else None) s)
  | IdleSelect key ch => if bool_decide (ch ∈ closed s) then Some (put_waiter g (Some (IdleFetch key)) s) else None
  | GateCheck key => Some (put_waiter g (if IsTurnInFlight key s then Some (GateDelivering key) else None) s)
  | GateDelivering key => Some (put_waiter g (if IsInFlightDelivering key s then None else Some (GateFetch key)) s)
  | GateFetch key => let '(ch, s) := InFlightWaitCh key s in Some (put_waiter g (Some (GateSelect key ch)) s)
  | GateSelect key ch => if bool_decide (ch ∈ closed s) then Some (put_waiter g (Some (GateCheck key)) s) else None
  end.

Inductive step : state -> state -> Prop :=
| step_mark id key d s : marks s !! id = None -> step s (markInFlight id key d s)
| step_unattended id key u s : marks s !! id = None -> step s (markUnattendedTurn id key u s)
| step_release id now s : step s (release now id s)
| step_drop key s : step s (dropInFlightChanged key s)
| step_idle g key s : waiters s !! g = None -> step s (put_waiter g (Some (IdleFetch key)) s)
| step_gate g key s : waiters s !! g = None -> step s (put_waiter g (Some (GateCheck key)) s)
| step_wait g x s s' : waiters s !! g = Some x -> wait_step g x s = Some s' -> step s s'
| step_cancel g s : step s (put_waiter g None s).

Definition reachable (s : state) : Prop := rtc step init s.

(** ** Counters *)
Definition runs (P : kind -> bool) (key : gostr) (m : mark) : bool := m_open m && P (m_kind m) && bool_decide (m_key m = key).
Definition is_turn (k : kind) : bool := match k with Turn _ => true | Unattended => false end.
Definition is_delivering (k : kind) : bool := match k with Turn d => d | Unattended => false end.
Definition is_unattended (k : kind) : bool := match k with Turn _ => false | Unattended => true end.

(** A counter map holds the number of open marks of a kind, and no zero. *)
Definition exact (P : kind -> bool) (c : gmap gostr Z) (m : gmap nat mark) : Prop :=
  forall key, c !! key = let n := counted (runs P key) m in if (n =? 0)%nat then None else Some (Z.of_nat n).

Lemma exact_count P c m key : exact P c m -> count c key = Z.of_nat (counted (runs P key) m).
Proof. intros H. unfold count. rewrite H. cbn. by destruct (Nat.eqb_spec (counted (runs P key) m) 0) as [->|]. Qed.

Lemma exact_insert P c m id x : exact P c m -> m !! id = None -> m_open x = true ->
  exact P (if P (m_kind x) then increment (m_key x) c else c) (<[ id := x ]> m).
Proof.
  intros H Hid Ho key. rewrite counted_insert_new by done.
  replace (runs P key x) with (P (m_kind x) && bool_decide (m_key x = key)) by (unfold runs; by rewrite Ho).
  destruct (P (m_kind x)) eqn:E; cbn [andb]; [|exact (H key)].
  unfold increment. rewrite (exact_count _ _ _ _ H). case_bool_decide as Ek; cbn [b2n].
  - subst. rewrite lookup_insert_eq. cbn. f_equal. lia.
  - rewrite lookup_insert_ne by done. exact (H key).
Qed.

Lemma exact_close P c m id x : exact P c m -> m !! id = Some x -> m_open x = true ->
  exact P (if P (m_kind x) then decrement (m_key x) c else c) (<[ id := MkMark (m_key x) (m_kind x) false ]> m).
Proof.
  intros H Hid Ho key.
  pose proof (counted_replace (runs P key) m id x (MkMark (m_key x) (m_kind x) false) Hid) as Hc.
  change (b2n (runs P key (MkMark (m_key x) (m_kind x) false))) with 0%nat in Hc. rewrite Nat.add_0_l in Hc.
  replace (runs P key x) with (P (m_kind x) && bool_decide (m_key x = key)) in Hc by (unfold runs; by rewrite Ho).
  set (n := counted (runs P key) (<[ id := _ ]> m)) in *. specialize (H key) as Hk.
  destruct (P (m_kind x)) eqn:E; cbn [andb b2n] in Hc; [|by rewrite Nat.add_0_l in Hc; rewrite Hc].
  unfold decrement. rewrite (exact_count _ _ _ _ H). case_bool_decide as Ek; cbn [b2n] in Hc.
  - subst key. rewrite <- Hc. destruct (Z.leb_spec (Z.of_nat (1 + n) - 1) 0).
    + rewrite lookup_delete_eq. by replace n with 0%nat by lia.
    + rewrite lookup_insert_eq. cbn. destruct (Nat.eqb_spec n 0); [lia|]. f_equal. lia.
  - rewrite Nat.add_0_l in Hc. rewrite Hc.
    case_match; [rewrite lookup_delete_ne by done|rewrite lookup_insert_ne by done]; exact Hk.
Qed.

Definition counters (s : state) : Prop :=
  exact is_turn (inFlight s) (marks s) /\ exact is_delivering (inFlightDelivering s) (marks s)
  /\ exact is_unattended (unattendedTurns s) (marks s).

Lemma notify_fields key s :
  let s' := notifyInFlightChangedLocked key s in
  inFlight s' = inFlight s /\ inFlightDelivering s' = inFlightDelivering s /\ unattendedTurns s' = unattendedTurns s
  /\ marks s' = marks s /\ waiters s' = waiters s /\ lastTurnEndAt s' = lastTurnEndAt s.
Proof. unfold notifyInFlightChangedLocked. by case_match. Qed.

Lemma wait_ch_fields key s :
  let s' := (InFlightWaitCh key s).2 in
  inFlight s' = inFlight s /\ inFlightDelivering s' = inFlightDelivering s /\ unattendedTurns s' = unattendedTurns s
  /\ marks s' = marks s /\ waiters s' = waiters s /\ closed s' = closed s.
Proof. unfold InFlightWaitCh. by case_match. Qed.

Lemma notify_waiters key s : waiters (notifyInFlightChangedLocked key s) = waiters s.
Proof. apply notify_fields. Qed.

Lemma wait_ch_waiters key s : waiters (InFlightWaitCh key s).2 = waiters s.
Proof. apply wait_ch_fields. Qed.

Lemma counters_eq s s' : inFlight s' = inFlight s -> inFlightDelivering s' = inFlightDelivering s ->
  unattendedTurns s' = unattendedTurns s -> marks s' = marks s -> counters s -> counters s'.
Proof. unfold counters. by intros -> -> -> ->. Qed.

Lemma counters_notify key s : counters s -> counters (notifyInFlightChangedLocked key s).
Proof. destruct (notify_fields key s) as (?&?&?&?&?&?). by apply counters_eq. Qed.

Lemma counters_wait g x s s' : counters s -> wait_step g x s = Some s' -> counters s'.
Proof.
  intros H Hs. apply (counters_eq s); [..|done]; destruct x as [k|k ch|k ch|k|k|k|k ch]; cbn in Hs;
    try (pose proof (wait_ch_fields k s) as (?&?&?&?&?&?); destruct (InFlightWaitCh k s));
    try case_match; by inversion Hs.
Qed.

Lemma counters_mark id key d s : marks s !! id = None -> counters s -> counters (markInFlight id key d s).
Proof.
  intros Hid (H1 & H2 & H3). apply counters_notify. split_and!; cbn [inFlight inFlightDelivering unattendedTurns marks].
  - exact (exact_insert _ _ _ id (MkMark key (Turn d) true) H1 Hid eq_refl).
  - exact (exact_insert _ _ _ id (MkMark key (Turn d) true) H2 Hid eq_refl).
  - exact (exact_insert _ _ _ id (MkMark key (Turn d) true) H3 Hid eq_refl).
Qed.

Lemma counters_unattended id key u s : marks s !! id = None -> counters s -> counters (markUnattendedTurn id key u s).
Proof.
  intros Hid (H1 & H2 & H3). destruct u; [|by split_and!]. split_and!; cbn [inFlight inFlightDelivering unattendedTurns marks markUnattendedTurn negb].
  - exact (exact_insert _ _ _ id (MkMark key Unattended true) H1 Hid eq_refl).
  - exact (exact_insert _ _ _ id (MkMark key Unattended true) H2 Hid eq_refl).
  - exact (exact_insert _ _ _ id (MkMark key Unattended true) H3 Hid eq_refl).
Qed.

Lemma counters_release now id s : counters s -> counters (release now id s).
Proof.
  intros (H1 & H2 & H3). unfold release. destruct (marks s !! id) as [[key k []]|] eqn:Hid; [|by destruct k|done].
  destruct k as [d|].
  - apply counters_notify. split_and!; cbn [inFlight inFlightDelivering unattendedTurns marks].
    + exact (exact_close _ _ _ id _ H1 Hid eq_refl).
    + exact (exact_close _ _ _ id _ H2 Hid eq_refl).
    + exact (exact_close _ _ _ id _ H3 Hid eq_refl).
  - split_and!; cbn [inFlight inFlightDelivering unattendedTurns marks].
    + exact (exact_close _ _ _ id _ H1 Hid eq_refl).
    + exact (exact_close _ _ _ id _ H2 Hid eq_refl).
    + exact (exact_close _ _ _ id _ H3 Hid eq_refl).
Qed.

Lemma counters_step s s' : counters s -> step s s' -> counters s'.
Proof.
  intros H Hs. destruct Hs as [| | |key s|g key s|g key s|g x s s' ? Hw|g s].
  - by apply counters_mark.
  - by apply counters_unattended.
  - by apply counters_release.
  - unfold dropInFlightChanged. case_match; [done|]. by case_match.
  - done.
  - done.
  - by apply (counters_wait g x s).
  - done.
Qed.

Lemma counters_init : counters init.
Proof. by split_and!; intros key. Qed.

Lemma reachable_counters s : reachable s -> counters s.
Proof.
  unfold reachable. intros H. remember init as s0 eqn:E. assert (counters s0) as Hc by (subst; apply counters_init).
  clear E. induction H as [|s0 s1 s2 Hs _ IH]; [done|]. by apply IH, (counters_step s0).
Qed.

(** ** Channels *)
Record channels (s : state) : Prop := MkChannels {
  ch_open : forall key ch, inFlightChanged s !! key = Some ch -> (ch < next s)%nat /\ (ch ∉ closed s);
  ch_apart : forall key key' ch, inFlightChanged s !! key = Some ch -> inFlightChanged s !! key' = Some ch -> key = key';
  ch_made : forall ch, ch ∈ closed s -> (ch < next s)%nat;
}.

(** What a step may do to a channel some waiter holds: close it, or leave it
    current with its session's turns no fewer than none. *)
Definition kept (s s' : state) : Prop :=
  closed s ⊆ closed s' /\
  forall key ch, inFlightChanged s !! key = Some ch ->
    ch ∈ closed s' \/ inFlightChanged s' !! key = Some ch /\ (IsTurnInFlight key s = true -> IsTurnInFlight key s' = true).

Lemma kept_same s s' : closed s' = closed s -> inFlightChanged s' = inFlightChanged s -> inFlight s' = inFlight s -> kept s s'.
Proof. intros H1 H2 H3. unfold kept, IsTurnInFlight. rewrite H1, H2, H3. split; [done|]. auto. Qed.

Lemma kept_trans s1 s2 s3 : kept s1 s2 -> kept s2 s3 -> kept s1 s3.
Proof.
  intros [Hc1 H1] [Hc2 H2]. split; [set_solver|]. intros key ch Hk.
  destruct (H1 key ch Hk) as [?|[Hk2 ?]]; [set_solver|]. destruct (H2 key ch Hk2) as [?|[? ?]]; auto.
Qed.

(** A state that differs in [key]'s counters only, once notified. *)
Lemma kept_notify key s s' : closed s' = closed s -> inFlightChanged s' = inFlightChanged s ->
  (forall k, k <> key -> inFlight s' !! k = inFlight s !! k) -> kept s (notifyInFlightChangedLocked key s').
Proof.
  intros H1 H2 H3. unfold notifyInFlightChangedLocked. rewrite H1, H2.
  split; [destruct (inFlightChanged s !! key); cbn; [|rewrite H1]; set_solver|]. intros k ch Hk.
  destruct (decide (k = key)) as [->|Hn].
  - left. rewrite Hk. cbn. set_solver.
  - right. destruct (inFlightChanged s !! key) eqn:E; cbn; unfold IsTurnInFlight, count; cbn.
    + rewrite lookup_insert_ne by done. by rewrite H3.
    + rewrite H2. by rewrite H3.
Qed.

Lemma kept_wait_ch key s : kept s (InFlightWaitCh key s).2.
Proof.
  unfold InFlightWaitCh. destruct (inFlightChanged s !! key) eqn:E; cbn; [by apply kept_same|].
  split; [done|]. intros k ch Hk. right. split; [|done]. cbn. rewrite lookup_insert_ne by congruence. done.
Qed.

Lemma kept_drop key s : kept s (dropInFlightChanged key s).
Proof.
  unfold dropInFlightChanged. case_match; [by apply kept_same|]. destruct (inFlightChanged s !! key) as [c|] eqn:E; [|by apply kept_same].
  split; [cbn; set_solver|]. cbn. intros k ch Hk. destruct (decide (k = key)) as [->|Hn].
  - left. rewrite E in Hk. injection Hk as ->. set_solver.
  - right. rewrite lookup_delete_ne by done. done.
Qed.

Lemma kept_release now id s : kept s (release now id s).
Proof.
  unfold release. destruct (marks s !! id) as [[key [d|] []]|]; try by apply kept_same.
  apply kept_notify; try done. intros k Hk. cbn. unfold decrement.
  case_match; [by rewrite lookup_delete_ne|by rewrite lookup_insert_ne].
Qed.

Lemma kept_mark id key d s : kept s (markInFlight id key d s).
Proof. apply kept_notify; try done. intros k Hk. cbn. unfold increment. by rewrite lookup_insert_ne. Qed.

Lemma channels_eq s s' : closed s' = closed s -> inFlightChanged s' = inFlightChanged s -> next s' = next s ->
  channels s -> channels s'.
Proof. intros E1 E2 E3 [H1 H2 H3]. split; rewrite ?E1, ?E2, ?E3; done. Qed.

Lemma channels_insert c key s s' ch0 : channels s -> c = next s -> closed s' = ch0 ∪ closed s ->
  inFlightChanged s' = <[ key := c ]> (inFlightChanged s) -> next s' = S (next s) ->
  (forall ch, ch ∈ ch0 -> inFlightChanged s !! key = Some ch) -> channels s'.
Proof.
  intros [H1 H2 H3] -> E1 E2 E3 H0. split; rewrite ?E1, ?E2, ?E3.
  - intros k ch [[<- <-]|[Hn Hk]]%lookup_insert_Some.
    + split; [lia|]. intros [[? _]%H0%H1|?%H3]%elem_of_union; lia.
    + pose proof (H1 _ _ Hk) as [? ?]. split; [lia|]. intros [Hi|?]%elem_of_union; [|done]. apply Hn.
      exact (H2 key k ch (H0 ch Hi) Hk).
  - intros k k' ch Hk Hk'. rewrite lookup_insert_Some in Hk, Hk'.
    destruct Hk as [[<- <-]|[? Hk]], Hk' as [[<- E]|[? Hk']]; try done.
    + apply H1 in Hk' as [? _]. lia.
    + subst. apply H1 in Hk as [? _]. lia.
    + by apply (H2 k k' ch).
  - intros ch [[? _]%H0%H1|?%H3]%elem_of_union; lia.
Qed.

Lemma channels_notify key s : channels s -> channels (notifyInFlightChangedLocked key s).
Proof.
  intros H. unfold notifyInFlightChangedLocked. destruct (inFlightChanged s !! key) as [c|] eqn:E; [|done].
  apply (channels_insert (next s) key s _ {[ c ]}); try done. by intros ch ->%elem_of_singleton.
Qed.

Lemma channels_wait_ch key s : channels s -> channels (InFlightWaitCh key s).2.
Proof.
  intros H. unfold InFlightWaitCh. destruct (inFlightChanged s !! key) as [c|] eqn:E; [done|].
  apply (channels_insert (next s) key s _ ∅); try done; set_solver.
Qed.

Lemma channels_drop key s : channels s -> channels (dropInFlightChanged key s).
Proof.
  intros H. unfold dropInFlightChanged. case_match; [done|]. destruct (inFlightChanged s !! key) as [c|] eqn:E; [|done].
  destruct H as [H1 H2 H3]. split; cbn.
  - intros k ch [Hn Hk]%lookup_delete_Some. split; [by apply (H1 k)|].
    intros [->%elem_of_singleton|?]%elem_of_union; [by destruct Hn; apply (H2 key k c)|by destruct (H1 _ _ Hk)].
  - intros k k' ch [_ Hk]%lookup_delete_Some [_ Hk']%lookup_delete_Some. by apply (H2 k k' ch).
  - intros ch [->%elem_of_singleton|?]%elem_of_union; [by destruct (H1 _ _ E)|by apply H3].
Qed.

Lemma wait_step_state g x s s' : wait_step g x s = Some s' ->
  exists w key, s' = put_waiter g w s \/ s' = put_waiter g w (InFlightWaitCh key s).2.
Proof.
  intros Hw. destruct x as [k|k ch|k ch|k|k|k|k ch]; cbn in Hw;
    try (case_match; [|done]); try (injection Hw as <-; eexists _, k; left; reflexivity).
  all: destruct (InFlightWaitCh k s) as [c s1] eqn:E; injection Hw as <-; eexists _, k; right; rewrite E; reflexivity.
Qed.

Lemma channels_step s s' : channels s -> step s s' -> channels s'.
Proof.
  intros H Hs. destruct Hs as [id key d s|id key u s|id now s|key s|g key s|g key s|g x s s' ? Hw|g s]; try destruct u; try by apply (channels_eq s).
  - apply channels_notify. by apply (channels_eq s).
  - unfold release. destruct (marks s !! id) as [[key [d|] []]|]; try by apply (channels_eq s).
    apply channels_notify. by apply (channels_eq s).
  - by apply channels_drop.
  - apply wait_step_state in Hw as (w & key & [->| ->]); [by apply (channels_eq s)|].
    apply (channels_eq (InFlightWaitCh key s).2); [done..|]. by apply channels_wait_ch.
Qed.

(** ** Waiters *)

(** What a waiter knows about the channel it holds. *)
Definition informed (s : state) (x : waiter) : Prop :=
  match x with
  | IdleCheck key ch | GateSelect key ch => ch ∈ closed s \/ inFlightChanged s !! key = Some ch
  | IdleSelect key ch => ch ∈ closed s \/ inFlightChanged s !! key = Some ch /\ IsTurnInFlight key s = true
  | _ => True
  end.

Definition all_informed (s : state) : Prop := forall g x, waiters s !! g = Some x -> informed s x.

Lemma informed_kept s s' x : kept s s' -> informed s x -> informed s' x.
Proof.
  intros [Hc Hk]. destruct x as [k|k ch|k ch|k|k|k|k ch]; cbn; try done.
  - intros [?|H]; [set_solver|]. destruct (Hk k ch H) as [?|[? ?]]; auto.
  - intros [?|[H Hf]]; [set_solver|]. destruct (Hk k ch H) as [?|[? ?]]; auto.
  - intros [?|H]; [set_solver|]. destruct (Hk k ch H) as [?|[? ?]]; auto.
Qed.

Lemma all_informed_kept s s' : kept s s' -> waiters s' = waiters s -> all_informed s -> all_informed s'.
Proof. intros Hk Hw H g x. rewrite Hw. intros Hx. eapply informed_kept; eauto. Qed.

Lemma all_informed_put g x s : all_informed s -> (forall w, x = Some w -> informed s w) -> all_informed (put_waiter g x s).
Proof.
  intros H Hx g' w Hw. change (informed s w). destruct x as [w0|]; cbn in Hw.
  - apply lookup_insert_Some in Hw as [[_ <-]|[_ ?]]; [by apply Hx|by apply (H g')].
  - apply lookup_delete_Some in Hw as [_ ?]. by apply (H g').
Qed.

Lemma wait_ch_current key s : inFlightChanged (InFlightWaitCh key s).2 !! key = Some (InFlightWaitCh key s).1.
Proof. unfold InFlightWaitCh. case_match; cbn; [done|]. by rewrite lookup_insert_eq. Qed.

Lemma all_informed_fetch g key w s : all_informed s ->
  (forall s', inFlightChanged s' !! key = Some (InFlightWaitCh key s).1 -> informed s' w) ->
  all_informed (put_waiter g (Some w) (InFlightWaitCh key s).2).
Proof.
  intros H Hw. apply all_informed_put.
  - apply (all_informed_kept s); [apply kept_wait_ch|apply wait_ch_waiters|done].
  - intros w' [= <-]. apply Hw, wait_ch_current.
Qed.

Lemma informed_wait g x s s' : all_informed s -> waiters s !! g = Some x -> wait_step g x s = Some s' -> all_informed s'.
Proof.
  intros H Hg Hw. pose proof (H g x Hg) as Hx. destruct x as [k|k ch|k ch|k|k|k|k ch]; cbn in Hw, Hx.
  - pose proof (fun w => all_informed_fetch g k w s H) as F. destruct (InFlightWaitCh k s) as [c s1]. injection Hw as <-.
    apply F. cbn. auto.
  - injection Hw as <-. apply all_informed_put; [done|]. destruct (IsTurnInFlight k s) eqn:E; [|done]. intros w [= <-]. cbn.
    destruct Hx; auto.
  - case_match; [|done]. injection Hw as <-. apply all_informed_put; [done|]. by intros w [= <-].
  - injection Hw as <-. apply all_informed_put; [done|]. intros w. case_match; [|done]. by intros [= <-].
  - injection Hw as <-. apply all_informed_put; [done|]. intros w. case_match; [done|]. by intros [= <-].
  - pose proof (fun w => all_informed_fetch g k w s H) as F. destruct (InFlightWaitCh k s) as [c s1]. injection Hw as <-.
    apply F. cbn. auto.
  - case_match; [|done]. injection Hw as <-. apply all_informed_put; [done|]. by intros w [= <-].
Qed.

Lemma informed_step s s' : all_informed s -> step s s' -> all_informed s'.
Proof.
  intros H Hs. destruct Hs as [id key d s|id key u s|id now s|key s|g key s|g key s|g x s s' ? Hw|g s].
  - apply (all_informed_kept s); [apply kept_mark| |done]. by etrans; [apply notify_waiters|].
  - destruct u; [|done]. by apply (all_informed_kept s); [apply kept_same|..].
  - apply (all_informed_kept s); [apply kept_release| |done]. unfold release.
    destruct (marks s !! id) as [[key [d|] []]|]; try done. by etrans; [apply notify_waiters|].
  - apply (all_informed_kept s); [apply kept_drop| |done]. unfold dropInFlightChanged. repeat case_match; done.
  - apply all_informed_put; [done|]. by intros w [= <-].
  - apply all_informed_put; [done|]. by intros w [= <-].
  - by apply (informed_wait g x s).
  - by apply all_informed_put.
Qed.

Lemma reachable_waits s : reachable s -> channels s /\ all_informed s.
Proof.
  unfold reachable. intros H. remember init as s0 eqn:E. assert (channels s0 /\ all_informed s0) as Hc by (subst; split; [by split|intros g x; done]).
  clear E. induction H as [|s0 s1 s2 Hs _ IH]; [done|]. apply IH. destruct Hc.
  split; [by apply (channels_step s0)|by apply (informed_step s0)].
Qed.

(** ** What holds *)

Lemma counted_open P s key : (0 < counted (runs P key) (marks s))%nat <->
  exists id k, marks s !! id = Some (MkMark key k true) /\ P k = true.
Proof.
  split.
  - intros H. destruct (counted_witness _ _ H) as (id & [k' kd o] & Hid & Hr). unfold runs in Hr. cbn in Hr.
    apply andb_true_iff in Hr as [Hr Hk%bool_decide_eq_true]. apply andb_true_iff in Hr as [Ho Hp]. subst. eauto.
  - intros (id & k & Hid & Hp). eapply counted_pos; [exact Hid|]. unfold runs. cbn. by rewrite Hp, bool_decide_eq_true_2.
Qed.

Lemma positive_open P c m key s : m = marks s -> exact P c m ->
  (0 <? count c key) = true <-> exists id k, marks s !! id = Some (MkMark key k true) /\ P k = true.
Proof. intros -> H. rewrite (exact_count _ _ _ _ H), <- counted_open, Z.ltb_lt. lia. Qed.

(** The counters are exact for any interleaving of turns starting, ending
    (in any order, a second call of a release closure included), channels being
    dropped and waiters: [inFlight] and [inFlightDelivering] count the turns of
    the session that have been marked and not released, so they never go
    negative and never overflow before that many turns run; a session is in
    flight exactly when some turn of it is, a delivering one makes it in flight,
    and the agent is in flight exactly when some turn of some session is. *)
Theorem counts_exact s : reachable s ->
  (forall key, count (inFlight s) key = Z.of_nat (counted (runs is_turn key) (marks s))
     /\ count (inFlightDelivering s) key = Z.of_nat (counted (runs is_delivering key) (marks s))
     /\ count (unattendedTurns s) key = Z.of_nat (counted (runs is_unattended key) (marks s))
     /\ (IsTurnInFlight key s = true <-> exists id d, marks s !! id = Some (MkMark key (Turn d) true))
     /\ (IsInFlightDelivering key s = true -> IsTurnInFlight key s = true)
     /\ (TurnUnattended key s = true <-> exists id, marks s !! id = Some (MkMark key Unattended true)))
  /\ (IsAnyTurnInFlight s = true <-> exists key id d, marks s !! id = Some (MkMark key (Turn d) true)).
Proof.
  intros (H1 & H2 & H3)%reachable_counters.
  assert (forall key, IsTurnInFlight key s = true <-> exists id d, marks s !! id = Some (MkMark key (Turn d) true)) as Ht.
  { intros key. etrans; [exact (positive_open _ _ _ key s eq_refl H1)|]. split; [intros (id & [d|] & ? & ?); eauto; done|]. intros (id & d & ?); eauto. }
  split.
  - intros key. split_and!; [by apply exact_count..|done| |].
    + intros (id & [d|] & ? & ?)%(positive_open _ _ _ _ s eq_refl H2); [|done]. apply Ht. eauto.
    + etrans; [exact (positive_open _ _ _ key s eq_refl H3)|]. split; [intros (id & [d|] & ? & ?); eauto; done|]. intros (id & ?); eauto.
  - unfold IsAnyTurnInFlight. rewrite existsb_exists. split.
    + intros ([key n] & Hin & Hn). exists key. apply Ht. apply list_elem_of_In, elem_of_map_to_list in Hin.
      unfold IsTurnInFlight, count. by rewrite Hin.
    + intros (key & Hk%Ht). unfold IsTurnInFlight, count in Hk. destruct (inFlight s !! key) as [n|] eqn:E; [|done].
      exists (key, n). split; [by apply list_elem_of_In, elem_of_map_to_list|done].
Qed.

Definition idle_on (key : gostr) (x : waiter) : bool :=
  match x with IdleFetch k | IdleCheck k _ | IdleSelect k _ => bool_decide (k = key) | _ => false end.

(** A waiter's own steps, nobody else's. *)
Definition alone (g : nat) (s s' : state) : Prop := exists x, waiters s !! g = Some x /\ wait_step g x s = Some s'.

Lemma idle_check_ends g key ch s : waiters s !! g = Some (IdleCheck key ch) -> IsTurnInFlight key s = false ->
  exists s', rtc (alone g) s s' /\ waiters s' !! g = None.
Proof.
  intros Hg Hf. exists (put_waiter g None s). split; [|apply lookup_delete_eq].
  apply rtc_once. exists (IdleCheck key ch). split; [done|]. cbn. by rewrite Hf.
Qed.

Lemma idle_fetch_ends g key s : waiters s !! g = Some (IdleFetch key) -> IsTurnInFlight key s = false ->
  exists s', rtc (alone g) s s' /\ waiters s' !! g = None.
Proof.
  intros Hg Hf. destruct (InFlightWaitCh key s) as [c s1] eqn:E.
  destruct (idle_check_ends g key c (put_waiter g (Some (IdleCheck key c)) s1)) as (s' & Hr & Hn).
  - apply lookup_insert_eq.
  - pose proof (wait_ch_fields key s) as (Hi & _). rewrite E in Hi. cbn in Hi. revert Hf. unfold IsTurnInFlight. cbn. by rewrite Hi.
  - exists s'. split; [|done]. eapply rtc_l; [|exact Hr]. exists (IdleFetch key). split; [done|]. cbn. by rewrite E.
Qed.

(** C20: no wake-up of [WaitTurnIdle] is lost: whatever turns, releases, channel
    drops and other waiters did before, a goroutine inside [WaitTurnIdle] of a
    session with no turn in flight returns by its own steps alone, wherever it
    stands (its select finds the channel it holds closed). *)
Theorem idle_wait_ends s g x key : reachable s -> waiters s !! g = Some x -> idle_on key x = true ->
  IsTurnInFlight key s = false -> exists s', rtc (alone g) s s' /\ waiters s' !! g = None.
Proof.
  intros Hr Hg Hx Hf. destruct (reachable_waits s Hr) as [_ Hi]. specialize (Hi g x Hg).
  destruct x as [k|k ch|k ch|k|k|k|k ch]; cbn in Hx, Hi; try done; apply bool_decide_eq_true in Hx; subst k.
  - by apply (idle_fetch_ends g key).
  - by apply (idle_check_ends g key ch).
  - destruct Hi as [Hc|[_ Ht]]; [|congruence].
    destruct (idle_fetch_ends g key (put_waiter g (Some (IdleFetch key)) s)) as (s' & Hr' & Hn); [apply lookup_insert_eq|done|].
    exists s'. split; [|done]. eapply rtc_l; [|exact Hr']. exists (IdleSelect key ch). split; [done|]. cbn. by rewrite bool_decide_eq_true_2.
Qed.

(** ** Runs *)
Definition room : gostr := "main/facet"%gs.

(** A turn of [room] starts, a goroutine waits for it in its select, the turn ends. *)
Definition awaited : state := markInFlight 0 room false init.
Definition fetched : state := (InFlightWaitCh room (put_waiter 7 (Some (IdleFetch room)) awaited)).2.
Definition asleep : state := put_waiter 7 (Some (IdleSelect room 0)) (put_waiter 7 (Some (IdleCheck room 0)) fetched).
Definition woken : state := release 5 0 asleep.

Lemma awaited_reachable : reachable awaited.
Proof. by apply rtc_once, step_mark. Qed.

Lemma woken_reachable : reachable woken.
Proof.
  eapply rtc_trans; [exact awaited_reachable|].
  eapply rtc_l; [by apply (step_idle 7 room)|].
  eapply rtc_l; [by apply (step_wait 7 (IdleFetch room))|].
  eapply rtc_l; [by apply (step_wait 7 (IdleCheck room 0))|].
  apply rtc_once. apply (step_release 0 5).
Qed.

Lemma counts_exact_witness : count (inFlight woken) room = 0.
Proof. exact (proj1 (proj1 (counts_exact woken woken_reachable) room)). Defined.

Lemma idle_wait_ends_witness : exists s', rtc (alone 7) woken s' /\ waiters s' !! 7%nat = None.
Proof. apply (idle_wait_ends woken 7 (IdleSelect room 0) room woken_reachable); vm_compute; reflexivity. Defined.

(** The other wait loop fetches after it checks: the batch of a worker finds a
    reflection running, it ends before the worker fetches the channel, and the
    worker is given the channel of the next change. *)
Definition missed : state :=
  put_waiter 7 (Some (GateSelect room 0))
    (InFlightWaitCh room (release 5 0 (put_waiter 7 (Some (GateFetch room))
       (put_waiter 7 (Some (GateDelivering room)) (put_waiter 7 (Some (GateCheck room)) awaited))))).2.

Lemma missed_reachable : reachable missed.
Proof.
  eapply rtc_trans; [exact awaited_reachable|].
  eapply rtc_l; [by apply (step_gate 7 room)|].
  eapply rtc_l; [by apply (step_wait 7 (GateCheck room))|].
  eapply rtc_l; [by apply (step_wait 7 (GateDelivering room))|].
  eapply rtc_l; [apply (step_release 0 5)|].
  apply rtc_once. by apply (step_wait 7 (GateFetch room)).
Qed.

(** The in-flight gate can sleep on a session with nothing in flight: its batch
    waits for the next turn of the session, which may never come. *)
Example gate_missed_wake :
  reachable missed /\ IsTurnInFlight room missed = false
  /\ waiters missed !! 7%nat = Some (GateSelect room 0) /\ wait_step 7 (GateSelect room 0) missed = None.
Proof. split; [exact missed_reachable|]. vm_compute. by split_and!. Qed.
