(* ===== verification/TomlValue.v ===== *)
(** * Decoded configuration values ([internal/config/editpath.go], "reading and verifying")

    The generic values the TOML decoder returns ([map[string]any]), Go's
    [reflect.DeepEqual] on them, and the functions of editpath.go that read,
    delete and compare them.  The decoder itself (github.com/BurntSushi/toml) is
    the parameter [decode] of the sections that need it: [None] is an error. *)
From stdpp Require Import fin_maps.
From Stdlib Require Import SpecFloat.
From S2P Require Import Prelude GoStrings GoNum.
Local Open Scope gostr_scope.
Local Open Scope nat_scope.

(** ** Values *)

(** A decoded date or time: the instant and its location. *)
Record datetime := MkDatetime { dt_instant : Time; dt_location : gostr }.
#[export] Instance datetime_eq_dec : EqDecision datetime.
Proof. solve_decision. Defined.

(** [[]map[string]any] is an array of tables, [[]any] any other array. *)
Inductive any :=
| VStr (s : gostr)
| VBool (b : bool)
| VInt (n : Z)
| VFloat (f : float64)
| VTime (t : datetime)
| VArr (l : list any)
| VTables (l : list (gmap gostr any))
| VTable (m : gmap gostr any).

Abbreviation table := (gmap gostr any).

(** [reflect.DeepEqual] on maps and slices, given the equality of the elements. *)
Section DeepEqual.
Context (eq : any -> any -> bool).

Definition equal_at (n : table) (k : gostr) (v : any) : bool :=
  match n !! k with Some w => eq v w | None => false end.

Definition equal_maps (m n : table) : bool :=
  bool_decide (size m = size n) && map_fold (fun k v acc => equal_at n k v && acc) true m.
End DeepEqual.

Fixpoint equal_lists {A B} (eq : A -> B -> bool) (l : list A) (k : list B) : bool :=
  match l, k with
  | [], [] => true
  | x :: l, y :: k => eq x y && equal_lists eq l k
  | _, _ => false
  end.

(** Floats are compared with [==]: a NaN differs from itself. *)
Fixpoint DeepEqual (a b : any) {struct a} : bool :=
  match a, b with
  | VStr s, VStr t => bool_decide (s = t)
  | VBool x, VBool y => Bool.eqb x y
  | VInt x, VInt y => (x =? y)%Z
  | VFloat x, VFloat y => SFeqb x y
  | VTime x, VTime y => bool_decide (x = y)
  | VArr l, VArr k => equal_lists DeepEqual l k
  | VTables l, VTables k => equal_lists (equal_maps DeepEqual) l k
  | VTable m, VTable n => equal_maps DeepEqual m n
  | _, _ => false
  end.

(** Two optional values: an interface that is nil equals nothing else. *)
Definition DeepEqual_opt (a b : option any) : bool :=
  match a, b with
  | Some a, Some b => DeepEqual a b
  | None, None => true
  | _, _ => false
  end.

(** ** Reading and deleting *)

(** [lookupIn]: [cur] is an interface, so a value that is no table ends the walk. *)
Fixpoint lookup_value (cur : any) (keys : list gostr) : option any :=
  match keys with
  | [] => Some cur
  | k :: keys => match cur with VTable m => v ← m !! k; lookup_value v keys | _ => None end
  end.

Definition lookupIn (m : table) (keys : list gostr) : option any := lookup_value (VTable m) keys.

Fixpoint deleteIn (m : table) (keys : list gostr) : table :=
  match keys with
  | [] => m
  | [k] => delete k m
  | k :: keys =>
      match m !! k with
      | Some (VTable child) =>
          let child := deleteIn child keys in
          if (size child =? 0)%nat then delete k m else <[ k := VTable child ]> m
      | _ => m
      end
  end.

(** [KeyPath]. *)
Record KeyPath := MkKeyPath { AgentID : gostr; Keys : list gostr }.
#[export] Instance KeyPath_eq_dec : EqDecision KeyPath.
Proof. solve_decision. Defined.

Definition agentsKey : gostr := "agents".

Definition agents_of (doc : table) : list table :=
  match doc !! agentsKey with Some (VTables l) => l | _ => [] end.

(** [id, _ := a["id"].(string)]. *)
Definition entry_id (a : table) : gostr := match a !! "id"%gs with Some (VStr id) => id | _ => [] end.

Fixpoint find_agent (id : gostr) (l : list table) : option table :=
  match l with
  | [] => None
  | a :: l => if bool_decide (entry_id a = id) then Some a else find_agent id l
  end.

(** [None]: agent not found. *)
Definition containerOf (doc : table) (p : KeyPath) : option table :=
  if bool_decide (AgentID p = []) then Some doc else find_agent (AgentID p) (agents_of doc).

(** [deleteIn] of the container mutates the map inside the document. *)
Fixpoint delete_in_agent (id : gostr) (keys : list gostr) (l : list table) : list table :=
  match l with
  | [] => []
  | a :: l => if bool_decide (entry_id a = id) then deleteIn a keys :: l else a :: delete_in_agent id keys l
  end.

Definition delete_path (doc : table) (p : KeyPath) : table :=
  if bool_decide (AgentID p = []) then deleteIn doc (Keys p)
  else match doc !! agentsKey with
       | Some (VTables l) => <[ agentsKey := VTables (delete_in_agent (AgentID p) (Keys p) l) ]> doc
       | _ => doc
       end.

(** ** What the decoder decides *)
Inductive edit_error :=
| CurrentDoesNotParse
| EditedDoesNotParse
| AgentNotFound
| LosesAgent
| StillSet
| NotSet
| ReadsOther
| ChangesOther.

Section Decoder.
Context (decode : gostr -> option table).

Definition decodeDoc (content : gostr) : option table := decode content.

(** [None] is an error; the inner option is the value [m["v"]]. *)
Definition DecodeTOMLValue (value : gostr) : option (option any) :=
  m ← decode ("v = " ++ trim_space value); Some (m !! "v"%gs).

Definition LookupPath (content : gostr) (p : KeyPath) : edit_error + option any :=
  match decodeDoc content with
  | None => inl CurrentDoesNotParse
  | Some doc => match containerOf doc p with
                | None => inl AgentNotFound
                | Some c => inr (lookupIn c (Keys p))
                end
  end.

(** [want] is [None] for an unset. *)
Definition VerifyPathEdit (cur next : gostr) (p : KeyPath) (want : option any) (unset : bool) : option edit_error :=
  match decodeDoc cur with
  | None => Some CurrentDoesNotParse
  | Some before =>
  match decodeDoc next with
  | None => Some EditedDoesNotParse
  | Some after =>
  match containerOf before p with
  | None => Some AgentNotFound
  | Some _ =>
  match containerOf after p with
  | None => Some LosesAgent
  | Some ac =>
    let got := lookupIn ac (Keys p) in
    if unset && bool_decide (is_Some got) then Some StillSet
    else if negb unset && bool_decide (got = None) then Some NotSet
    else if negb unset && negb (DeepEqual_opt got want) then Some ReadsOther
    else if negb (equal_maps DeepEqual (delete_path before p) (delete_path after p)) then Some ChangesOther
    else None
  end end end end.

(** [decodeTOMLQuotedValue]. *)
Definition decodeTOMLQuotedValue (value : gostr) : option gostr :=
  m ← decode ("v = " ++ value);
  if negb (size m =? 1)%nat then None
  else match m !! "v"%gs with Some (VStr s) => Some s | _ => None end.
End Decoder.

(** ** Equality of maps *)
Lemma equal_fold_spec (eq : any -> any -> bool) (m n : table) :
  map_fold (fun k v acc => equal_at eq n k v && acc) true m = true <-> map_Forall (fun k v => equal_at eq n k v = true) m.
Proof.
  induction m as [|k v m Hk Hf IH] using map_first_key_ind.
  - rewrite map_fold_empty. split; [intros _; apply map_Forall_empty|done].
  - rewrite map_fold_insert_first_key by done. rewrite map_Forall_insert by done. rewrite andb_true_iff, IH. done.
Qed.

Lemma equal_maps_spec (eq : any -> any -> bool) (m n : table) :
  equal_maps eq m n = true <->
  forall k, match m !! k, n !! k with Some v, Some w => eq v w = true | None, None => True | _, _ => False end.
Proof.
  unfold equal_maps. rewrite andb_true_iff, bool_decide_eq_true, equal_fold_spec. unfold equal_at. split.
  - intros [Hs Hf] k. destruct (m !! k) as [v|] eqn:Em.
    + specialize (Hf k v Em). cbn in Hf. by destruct (n !! k).
    + destruct (n !! k) as [w|] eqn:En; [|done]. exfalso.
      assert (dom m = dom n) as Hd.
      { apply leibniz_equiv, set_subseteq_size_equiv.
        - intros k' [v Hv]%elem_of_dom. specialize (Hf k' v Hv). cbn in Hf. apply elem_of_dom. by destruct (n !! k').
        - rewrite !size_dom. lia. }
      apply not_elem_of_dom in Em. rewrite Hd in Em. apply Em, elem_of_dom. by exists w.
  - intros H. split.
    + rewrite <- !size_dom. f_equal. apply leibniz_equiv. intros k. rewrite !elem_of_dom. specialize (H k).
      destruct (m !! k), (n !! k); try done; split; intros [? ?]; eauto; done.
    + intros k v Hv. specialize (H k). rewrite Hv in H. by destruct (n !! k).
Qed.

Lemma equal_maps_lookup m n k : equal_maps DeepEqual m n = true -> DeepEqual_opt (m !! k) (n !! k) = true.
Proof. rewrite equal_maps_spec. intros H. specialize (H k). by destruct (m !! k), (n !! k). Qed.

Lemma equal_maps_child m n k : equal_maps DeepEqual m n = true ->
  match m !! k, n !! k with Some v, Some w => DeepEqual v w = true | None, None => True | _, _ => False end.
Proof. rewrite equal_maps_spec. intros H. apply H. Qed.

(** Equal values read alike at every path. *)
Lemma equal_lookup v w keys : DeepEqual v w = true ->
  DeepEqual_opt (lookup_value v keys) (lookup_value w keys) = true.
Proof.
  revert v w. induction keys as [|k keys IH]; intros v w H; [done|]. cbn.
  destruct v as [| | | | | | |vm], w as [| | | | | | |wm]; cbn in H; try done.
  pose proof (equal_maps_child vm wm k H) as Hk. destruct (vm !! k), (wm !! k); try done. by apply IH.
Qed.

Lemma equal_lookupIn m n keys : equal_maps DeepEqual m n = true -> DeepEqual_opt (lookupIn m keys) (lookupIn n keys) = true.
Proof. intros H. by apply (equal_lookup (VTable m) (VTable n)). Qed.

(** ** Paths *)

(** Neither is a prefix of the other: they diverge at some segment. *)
Fixpoint diverge (p q : list gostr) : bool :=
  match p, q with
  | a :: p, b :: q => if bool_decide (a = b) then diverge p q else true
  | _, _ => false
  end.

Lemma lookup_delete_other m k k' keys q : k <> k' -> lookupIn (deleteIn m (k :: keys)) (k' :: q) = lookupIn m (k' :: q).
Proof.
  intros Hn. unfold lookupIn. cbn. destruct keys; [by rewrite lookup_delete_ne|].
  destruct (m !! k) as [[]|]; try done. case_match; [by rewrite lookup_delete_ne|by rewrite lookup_insert_ne].
Qed.

Lemma lookup_delete_apart m p q : diverge p q = true -> lookupIn (deleteIn m p) q = lookupIn m q.
Proof.
  revert m q. induction p as [|k p IH]; intros m [|k' q] H; try done. cbn in H. case_bool_decide; [subst k'|by apply lookup_delete_other].
  unfold lookupIn. cbn. destruct p as [|k2 p]; [done|]. destruct (m !! k) as [v|] eqn:E; [|by rewrite E].
  destruct v as [| | | | | | |child]; try (by rewrite E). specialize (IH child q H). unfold lookupIn in IH.
  destruct (Nat.eqb_spec (size (deleteIn child (k2 :: p))) 0) as [Hz|_].
  - rewrite lookup_delete_eq. cbn. rewrite <- IH. apply map_size_empty_inv in Hz. rewrite Hz.
    destruct q; [done|]. cbn. by rewrite lookup_empty.
  - by rewrite lookup_insert_eq.
Qed.

(** The paths an edit at [p] must not touch.  (Deleting an agent's id changes
    which block the agent's paths are read from.) *)
Definition apart (p q : KeyPath) : bool :=
  if bool_decide (AgentID p = []) then
    if bool_decide (AgentID q = []) then diverge (Keys p) (Keys q) else diverge (Keys p) [agentsKey]
  else if bool_decide (AgentID q = []) then diverge [agentsKey] (Keys q)
  else if bool_decide (AgentID p = AgentID q) then diverge (Keys p) (Keys q) && negb (bool_decide (Keys p = ["id"%gs]))
  else true.

Definition read (doc : table) (q : KeyPath) : option (option any) :=
  c ← containerOf doc q; Some (lookupIn c (Keys q)).

Lemma diverge_head p k : diverge p [k] = true -> exists k' p', p = k' :: p' /\ k' <> k.
Proof. destruct p as [|k' p]; [done|]. cbn. case_bool_decide; [by destruct p|]. eauto. Qed.

Lemma diverge_head_r k q : diverge [k] q = true -> exists k' q', q = k' :: q' /\ k' <> k.
Proof. destruct q as [|k' q]; [done|]. cbn. case_bool_decide; [done|]. eauto. Qed.

Lemma deleteIn_lookup_other m k keys k' : k <> k' -> deleteIn m (k :: keys) !! k' = m !! k'.
Proof.
  intros Hn. cbn. destruct keys; [by rewrite lookup_delete_ne|].
  destruct (m !! k) as [[]|]; try done. case_match; [by rewrite lookup_delete_ne|by rewrite lookup_insert_ne].
Qed.

Lemma entry_id_delete a keys : keys <> ["id"%gs] -> entry_id a <> [] -> entry_id (deleteIn a keys) = entry_id a.
Proof.
  unfold entry_id. intros Hk Hid. destruct keys as [|k keys]; [done|].
  destruct (decide (k = "id"%gs)) as [->|Hn]; [|by rewrite deleteIn_lookup_other].
  destruct keys as [|k2 keys]; [done|]. cbn. destruct (a !! "id"%gs) as [[]|] eqn:E; try done. by rewrite E.
Qed.

Lemma entry_id_delete_or a keys : entry_id (deleteIn a keys) = entry_id a \/ entry_id (deleteIn a keys) = [].
Proof.
  destruct (decide (keys = ["id"%gs])) as [->|Hk].
  - right. unfold entry_id. cbn. by rewrite lookup_delete_eq.
  - destruct (decide (entry_id a = [])) as [He|He]; [|left; by apply entry_id_delete].
    destruct keys as [|k keys]; [by left|].
    destruct (decide (k = "id"%gs)) as [->|Hn]; [|left; unfold entry_id; by rewrite deleteIn_lookup_other].
    destruct keys as [|k2 keys]; [done|]. right. unfold entry_id in *. cbn.
    destruct (a !! "id"%gs) as [v|] eqn:E; [|by rewrite E]. destruct v; try (by rewrite E).
    match goal with |- context [if ?b then _ else _] => destruct b end; [by rewrite lookup_delete_eq|by rewrite lookup_insert_eq].
Qed.

Lemma find_delete_other x y keys l : y <> x -> y <> [] -> find_agent y (delete_in_agent x keys l) = find_agent y l.
Proof.
  intros Hn Hy. induction l as [|a l IH]; [done|]. cbn. case_bool_decide as E; cbn; [|by rewrite IH].
  rewrite !bool_decide_eq_false_2; [done|congruence|]. destruct (entry_id_delete_or a keys) as [-> | ->]; congruence.
Qed.

Lemma find_delete_same x keys l : x <> [] -> keys <> ["id"%gs] ->
  find_agent x (delete_in_agent x keys l) = (fun a => deleteIn a keys) <$> find_agent x l.
Proof.
  intros Hx Hk. induction l as [|a l IH]; [done|]. cbn. case_bool_decide as E; cbn.
  - rewrite bool_decide_eq_true_2; [done|]. rewrite entry_id_delete; congruence.
  - by rewrite bool_decide_eq_false_2.
Qed.

Lemma agents_of_delete doc p : AgentID p <> [] -> agents_of (delete_path doc p) = delete_in_agent (AgentID p) (Keys p) (agents_of doc).
Proof.
  intros Hp. unfold delete_path. rewrite bool_decide_eq_false_2 by done. unfold agents_of.
  destruct (doc !! agentsKey) as [v|] eqn:E; [|by rewrite E]. destruct v; try (by rewrite E). by rewrite lookup_insert_eq.
Qed.

(** Deleting at [p] does not change what is read apart from it. *)
Lemma read_delete doc p q : apart p q = true -> read (delete_path doc p) q = read doc q.
Proof.
  unfold apart. intros H. destruct (decide (AgentID p = [])) as [Hp|Hp];
    [rewrite (bool_decide_eq_true_2 _ Hp) in H|rewrite (bool_decide_eq_false_2 _ Hp) in H];
    destruct (decide (AgentID q = [])) as [Hq|Hq];
    [rewrite (bool_decide_eq_true_2 _ Hq) in H|rewrite (bool_decide_eq_false_2 _ Hq) in H
    |rewrite (bool_decide_eq_true_2 _ Hq) in H|rewrite (bool_decide_eq_false_2 _ Hq) in H];
    unfold read, containerOf; [rewrite !(bool_decide_eq_true_2 _ Hq)|rewrite !(bool_decide_eq_false_2 _ Hq)
    |rewrite !(bool_decide_eq_true_2 _ Hq)|rewrite !(bool_decide_eq_false_2 _ Hq)].
  - unfold delete_path. rewrite (bool_decide_eq_true_2 _ Hp). cbn. by rewrite lookup_delete_apart.
  - apply diverge_head in H as (k & p' & Hk & Hn). unfold delete_path. rewrite (bool_decide_eq_true_2 _ Hp), Hk.
    unfold agents_of. by rewrite deleteIn_lookup_other.
  - apply diverge_head_r in H as (k & q' & Hk & Hn). unfold delete_path. rewrite (bool_decide_eq_false_2 _ Hp), Hk. cbn.
    unfold lookupIn. destruct (doc !! agentsKey) as [[]|]; cbn; by rewrite ?lookup_insert_ne by done.
  - rewrite agents_of_delete by done. case_bool_decide as E.
    + apply andb_true_iff in H as [Hd Hk%negb_true_iff%bool_decide_eq_false]. rewrite <- E, find_delete_same by done.
      destruct (find_agent _ _); cbn; [|done]. by rewrite lookup_delete_apart.
    + by rewrite find_delete_other.
Qed.

(** Equal documents read alike. *)
Definition read_alike (a b : option (option any)) : bool :=
  match a, b with Some a, Some b => DeepEqual_opt a b | None, None => true | _, _ => false end.

Lemma entry_id_equal a b : equal_maps DeepEqual a b = true -> entry_id a = entry_id b.
Proof.
  intros H%(equal_maps_child a b "id"%gs). unfold entry_id.
  destruct (a !! _) as [[]|], (b !! _) as [[]|]; cbn in H; try done. by apply bool_decide_eq_true in H.
Qed.

Lemma find_agent_equal id l k : equal_lists (equal_maps DeepEqual) l k = true ->
  match find_agent id l, find_agent id k with
  | Some a, Some b => equal_maps DeepEqual a b = true
  | None, None => True
  | _, _ => False
  end.
Proof.
  revert k. induction l as [|a l IH]; intros [|b k] H; try done. cbn in H |- *. apply andb_true_iff in H as [Ha Hl].
  rewrite <- (entry_id_equal _ _ Ha). case_bool_decide; [done|by apply IH].
Qed.

Lemma agents_of_equal d d' : equal_maps DeepEqual d d' = true -> equal_lists (equal_maps DeepEqual) (agents_of d) (agents_of d') = true.
Proof.
  intros H%(equal_maps_child d d' agentsKey). unfold agents_of.
  destruct (d !! _) as [[]|], (d' !! _) as [[]|]; cbn in H; try done.
Qed.

Lemma read_equal d d' q : equal_maps DeepEqual d d' = true -> read_alike (read d q) (read d' q) = true.
Proof.
  intros H. unfold read, containerOf. case_bool_decide; cbn; [by apply equal_lookupIn|].
  pose proof (find_agent_equal (AgentID q) _ _ (agents_of_equal _ _ H)) as Hf.
  destruct (find_agent _ _), (find_agent _ _); try done. cbn. by apply equal_lookupIn.
Qed.

(** What two readings of a path must agree on. *)
Definition same_reading (a b : edit_error + option any) : bool :=
  match a, b with
  | inr a, inr b => DeepEqual_opt a b
  | inl AgentNotFound, inl AgentNotFound => true
  | _, _ => false
  end.

Lemma LookupPath_read decode content doc q : decode content = Some doc ->
  LookupPath decode content q = match read doc q with Some v => inr v | None => inl AgentNotFound end.
Proof. intros H. unfold LookupPath, decodeDoc, read. rewrite H. by destruct (containerOf doc q). Qed.

(** What a verified edit is: the path reads as wanted, and every path apart from
    it reads as before. *)
Lemma verify_spec decode cur next p want unset : VerifyPathEdit decode cur next p want unset = None ->
  (exists got, LookupPath decode next p = inr got
    /\ if unset then got = None else is_Some got /\ DeepEqual_opt got want = true)
  /\ forall q, apart p q = true -> same_reading (LookupPath decode cur q) (LookupPath decode next q) = true.
Proof.
  unfold VerifyPathEdit, decodeDoc. intros H.
  destruct (decode cur) as [before|] eqn:Ec; [|done]. destruct (decode next) as [after|] eqn:En; [|done].
  destruct (containerOf before p) as [bc|] eqn:Eb; [|done]. destruct (containerOf after p) as [ac|] eqn:Ea; [|done].
  destruct (unset && _) eqn:E1; [done|]. destruct (negb unset && bool_decide _) eqn:E2; [done|].
  destruct (negb unset && negb _) eqn:E3; [done|]. destruct (equal_maps _ _ _) eqn:E4; [|done]. split.
  - exists (lookupIn ac (Keys p)). split.
    + rewrite (LookupPath_read _ _ after) by done. unfold read. by rewrite Ea.
    + destruct unset; cbn in E1, E2, E3.
      * apply bool_decide_eq_false in E1. by apply eq_None_not_Some.
      * apply bool_decide_eq_false in E2. split; [by apply not_eq_None_Some|]. by apply negb_false_iff in E3.
  - intros q Hq. rewrite (LookupPath_read _ _ before), (LookupPath_read _ _ after) by done.
    pose proof (read_equal _ _ q E4) as Hr. rewrite !read_delete in Hr by done.
    destruct (read before q), (read after q); done.
Qed.
