(* ===== verification/ConfigLines.v ===== *)
(** * The lines of a configuration file ([internal/config/setinfile.go], [settablearray.go])

    What the textual editors of foci.toml know about its lines: where a value
    ends ([valueSpan]), which lines start outside any value ([topLevel]), where a
    table may be removed or a new one inserted. *)
From S2P Require Import Prelude GoStrings GoText.
Local Open Scope gostr_scope.
Local Open Scope nat_scope.

Definition newline : ascii := "010"%char.
Definition quote : ascii := "034"%char.
Definition apostrophe : ascii := "039"%char.
Definition backslash : ascii := "092"%char.

(** [strings.TrimLeft] and [strings.TrimRight] with ASCII cut sets are
    [trim_left] and its mirror. *)
Definition trim_right (cs s : gostr) : gostr := rev (trim_left cs (rev s)).
Definition blanks : gostr := [" "%char; "009"%char].

Definition head_is (c : ascii) (s : gostr) : bool := match s with d :: _ => d =?b c | [] => false end.

(** ** Values *)
Inductive scan_mode := NoString | Basic | Literal | MlBasic | MlLiteral.
#[export] Instance scan_mode_eq_dec : EqDecision scan_mode.
Proof. solve_decision. Defined.

(** [quoteRun] at the head of the rest of the line. *)
Fixpoint quoteRun (q : ascii) (s : gostr) : nat :=
  match s with c :: s => if c =?b q then S (quoteRun q s) else 0 | [] => 0 end.

(** The scan of one line from column [pos]: where it is cut by a comment, the
    mode and the depth at its end.  [skip] is what the loop's [j] jumps over. *)
Fixpoint scan_line (skip pos : nat) (mode : scan_mode) (depth : Z) (s : gostr) : nat * scan_mode * Z :=
  match s with
  | [] => (pos, mode, depth)
  | c :: s' =>
      match skip with
      | S skip => scan_line skip (S pos) mode depth s'
      | O =>
          let go skip mode depth := scan_line skip (S pos) mode depth s' in
          match mode with
          | Basic => if c =?b backslash then go 1 Basic depth else if c =?b quote then go 0 NoString depth else go 0 Basic depth
          | MlBasic =>
              if c =?b backslash then go 1 MlBasic depth
              else if c =?b quote then
                let n := quoteRun quote s in if 3 <=? n then go (n - 1) NoString depth else go 0 MlBasic depth
              else go 0 MlBasic depth
          | Literal => if c =?b apostrophe then go 0 NoString depth else go 0 Literal depth
          | MlLiteral =>
              if c =?b apostrophe then
                let n := quoteRun apostrophe s in if 3 <=? n then go (n - 1) NoString depth else go 0 MlLiteral depth
              else go 0 MlLiteral depth
          | NoString =>
              if c =?b "#"%char then (pos, NoString, depth)
              else if mem_byte c "[{" then go 0 NoString (depth + 1)%Z
              else if mem_byte c "]}" then go 0 NoString (depth - 1)%Z
              else if (c =?b quote) || (c =?b apostrophe) then
                if 3 <=? quoteRun c s then go 2 (if c =?b quote then MlBasic else MlLiteral) depth
                else go 0 (if c =?b quote then Basic else Literal) depth
              else go 0 NoString depth
          end
      end
  end.

Definition in_multi (m : scan_mode) : bool := match m with MlBasic | MlLiteral => true | _ => false end.
Definition end_of_line (m : scan_mode) : scan_mode := match m with Basic | Literal => NoString | _ => m end.

(** The lines from line [ln] on, the first from column [col]. *)
Fixpoint span_lines (ln col : nat) (mode : scan_mode) (depth : Z) (parts : list gostr) (ls : list gostr) : option (nat * gostr) :=
  match ls with
  | [] => None
  | line :: ls =>
      let '(cut, mode, depth) := scan_line 0 col mode depth (drop col line) in
      let part := take (cut - col) (drop col line) in
      let part := if in_multi mode then part else trim_right blanks part in
      let parts := parts ++ [part] in
      let mode := end_of_line mode in
      if bool_decide (mode = NoString) && (depth <=? 0)%Z then Some (ln, trim_space (join [newline] parts))
      else span_lines (S ln) 0 mode depth parts ls
  end.

(** [None]: the value never closes. *)
Definition valueSpan (lines : list gostr) (i : nat) : option (nat * gostr) :=
  match drop i lines with
  | [] => None
  | line :: _ =>
      let col := match index_byte "="%char line with Some k => S k | None => 0 end in
      span_lines i col NoString 0 [] (drop i lines)
  end.

Lemma span_lines_bound ls ln col mode depth parts e t :
  span_lines ln col mode depth parts ls = Some (e, t) -> ln <= e < ln + length ls.
Proof.
  revert ln col mode depth parts. induction ls as [|line ls IH]; intros ln col mode depth parts H; [done|].
  cbn [span_lines] in H. destruct (scan_line _ _ _ _ _) as [[cut m] d]. case_match.
  - injection H as <- _. cbn. lia.
  - apply IH in H. cbn. lia.
Qed.

Lemma valueSpan_bound lines i e t : valueSpan lines i = Some (e, t) -> i <= e < length lines.
Proof.
  unfold valueSpan. destruct (drop i lines) as [|line ls] eqn:E; [done|]. intros H%span_lines_bound.
  rewrite <- E, length_drop in H. lia.
Qed.

(** ** Lines *)

(** A line that may assign a value: not blank, a comment or a header. *)
Definition key_like (line : gostr) : bool :=
  let t := trim_space line in
  negb (bool_decide (t = []) || head_is "#"%char t || head_is "["%char t) && contains "=" t.

Fixpoint top_from (lines : list gostr) (i skip : nat) (rest : list gostr) : list bool :=
  match rest with
  | [] => []
  | line :: rest =>
      match skip with
      | S skip => false :: top_from lines (S i) skip rest
      | O => true :: (if key_like line then
                        match valueSpan lines i with
                        | Some (e, _) => top_from lines (S i) (e - i) rest
                        | None => (fun _ => true) <$> rest
                        end
                      else top_from lines (S i) 0 rest)
      end
  end.

Definition topLevel (lines : list gostr) : list bool := top_from lines 0 0 lines.

Lemma top_from_length lines i skip rest : length (top_from lines i skip rest) = length rest.
Proof.
  revert i skip. induction rest as [|l rest IH]; intros i skip; [done|]. cbn. destruct skip; cbn; [|by rewrite IH].
  case_match; [|by rewrite IH]. destruct (valueSpan lines i) as [[e ?]|]; [by rewrite IH|by rewrite length_fmap].
Qed.

Definition isBlankOrComment (line : gostr) : bool := let t := trim_space line in bool_decide (t = []) || has_prefix "#" t.

(** [k] runs down from [bodyEnd]; [n] is [bodyEnd - (header + 1)]. *)
Fixpoint back_off (lines : list gostr) (n k : nat) (hasComment : bool) : nat * bool :=
  match n with
  | O => (k, hasComment)
  | S n =>
      let line := nth (k - 1) lines [] in
      if isBlankOrComment line then back_off lines n (k - 1) (hasComment || has_prefix "#" (trim_space line)) else (k, hasComment)
  end.

Definition blockRemovalEnd (lines : list gostr) (header bodyEnd : nat) : nat :=
  let '(k, hasComment) := back_off lines (bodyEnd - (header + 1)) bodyEnd false in
  if hasComment then k else bodyEnd.

Definition replaceSpan (lines : list gostr) (from to : nat) (repl : gostr) : list gostr :=
  take from lines ++ (if bool_decide (repl = []) then [] else [repl]) ++ drop (to + 1) lines.

Definition blank (line : gostr) : bool := bool_decide (trim_space line = []).

Definition insertSectionBlock (lines : list gostr) (at_ : nat) (header : gostr) (body : list gostr) : list gostr :=
  take at_ lines ++ (if (0 <? at_) && negb (blank (nth (at_ - 1) lines [])) then [[]] else [])
  ++ ["[" ++ header ++ "]"] ++ body ++ drop at_ lines.

(** ** Headers *)

(** [\s] of [regexp]. *)
Definition re_space (c : ascii) : bool := mem_byte c [" "%char; "009"%char; "010"%char; "012"%char; "013"%char].
Fixpoint skip_re_space (s : gostr) : gostr := match s with c :: s' => if re_space c then skip_re_space s' else s | [] => [] end.

(** The longest run of characters that are no brackets. *)
Fixpoint bracket_free (s : gostr) : gostr * gostr :=
  match s with
  | c :: s' => if mem_byte c "[]" then ([], s) else let '(a, b) := bracket_free s' in (c :: a, b)
  | [] => ([], [])
  end.

(** [arrayHeaderRe] and its group, on a line without new lines. *)
Definition array_header (line : gostr) : option gostr :=
  let '(rest, ok) := cut_prefix "[[" (skip_re_space line) in
  if negb ok then None
  else let '(name, rest) := bracket_free rest in
       if bool_decide (name = []) then None
       else let '(rest, ok) := cut_prefix "]]" rest in
            if negb ok then None
            else let rest := skip_re_space rest in
                 if bool_decide (rest = []) || head_is "#"%char rest then Some name else None.

(** No character outside ASCII has a lower-case form in "agents". *)
Definition agents_header (line : gostr) : bool :=
  match array_header line with
  | Some name => let name := trim_space name in bool_decide (lower_byte <$> name = "agents"%gs)
  | None => false
  end.

Fixpoint agents_start (i : nat) (top : list bool) (lines : list gostr) : option nat :=
  match lines, top with
  | line :: lines, t :: top => if t && agents_header line then Some i else agents_start (S i) top lines
  | _, _ => None
  end.

(** [None] is -1. *)
Definition findAgentsStart (lines : list gostr) : option nat := agents_start 0 (topLevel lines) lines.

Definition newSectionInsertAt (lines : list gostr) : nat := default (length lines) (findAgentsStart lines).

(** ** Strings *)

(** The escape of one byte; the bytes of longer runes are written as they are. *)
Definition encode_byte (c : ascii) : gostr :=
  let n := N_of_ascii c in
  if c =?b quote then [backslash; quote]
  else if c =?b backslash then [backslash; backslash]
  else if (n =? 8)%N then [backslash; "b"%char]
  else if (n =? 9)%N then [backslash; "t"%char]
  else if (n =? 10)%N then [backslash; "n"%char]
  else if (n =? 12)%N then [backslash; "f"%char]
  else if (n =? 13)%N then [backslash; "r"%char]
  else if ((n <? 32) || (n =? 127))%N then
    backslash :: "u00" ++ [nth (N.to_nat (n / 16)) "0123456789abcdef" "0"%char; nth (N.to_nat (n mod 16)) "0123456789abcdef" "0"%char]
  else [c].

(** [None]: not valid UTF-8. *)
Definition encodeTOMLBasicString (s : gostr) : option gostr :=
  if ValidString s then Some (quote :: concat (encode_byte <$> s) ++ [quote]) else None.

Lemma agents_start_bound i top ls j : agents_start i top ls = Some j -> i <= j < i + length ls.
Proof.
  revert i top. induction ls as [|l ls IH]; intros i [|t top] H; try done. cbn in H. case_match.
  - injection H as <-. cbn. lia.
  - apply IH in H. cbn. lia.
Qed.

Lemma newSectionInsertAt_bound ls : newSectionInsertAt ls <= length ls.
Proof.
  unfold newSectionInsertAt, findAgentsStart. destruct (agents_start _ _ _) as [j|] eqn:E; [|done].
  apply agents_start_bound in E. change (j <= length ls). lia.
Qed.

Lemma sublist_all {A} (P : A -> Prop) l k : l `sublist_of` k -> Forall P k -> Forall P l.
Proof. induction 1; inversion 1; subst; auto. Qed.
