(* ===== verification/KeyPaths.v ===== *)
(** * Key paths ([internal/config/editpath.go])

    The text of a key path, its parser, and their round trip.  The TOML decoder
    is the parameter [decode]; [go_quote] is [%q] of [fmt], used for a key that is
    not UTF-8 only. *)
From S2P Require Import Prelude GoStrings GoText TomlValue ConfigLines.
Local Open Scope gostr_scope.
Local Open Scope nat_scope.

(** ** Keys *)
Definition bare_byte (c : ascii) : bool :=
  mem_byte c "_-" || byte_in "a"%char "z"%char c || byte_in "A"%char "Z"%char c || byte_in "0"%char "9"%char c.

(** [bareKeyRe]. *)
Definition bare_key (k : gostr) : bool := negb (bool_decide (k = [])) && forallb bare_byte k.

Fixpoint skip_ws (s : gostr) : gostr := match s with c :: s' => if mem_byte c blanks then skip_ws s' else s | [] => [] end.

(** The number of bytes before the quote that ends a basic string; an escape
    takes two.  [None]: unterminated. *)
Fixpoint closing_quote (skip : nat) (s : gostr) : option nat :=
  match s with
  | [] => None
  | c :: s =>
      match skip with
      | S skip => S <$> closing_quote skip s
      | O => if c =?b quote then Some 0 else S <$> closing_quote (if c =?b backslash then 1 else 0) s
      end
  end.

Fixpoint bare_run (s : gostr) : nat := match s with c :: s => if bare_byte c then S (bare_run s) else 0 | [] => 0 end.

Section Decoder.
Context (decode : gostr -> option table) (go_quote : gostr -> gostr).

Definition render_key (k : gostr) : gostr :=
  if bare_key k then k else match encodeTOMLBasicString k with Some q => q | None => go_quote k end.

Definition renderDottedKey (keys : list gostr) : gostr := join "." (render_key <$> keys).

(** One segment and the rest of the text; [None] is an error. *)
Definition key_segment (s : gostr) : option (gostr * gostr) :=
  match s with
  | [] => None
  | c :: r =>
      if c =?b quote then
        n ← closing_quote 0 r;
        seg ← decodeTOMLQuotedValue decode (take (n + 2) s);
        Some (seg, drop (n + 2) s)
      else if c =?b apostrophe then
        n ← index_byte apostrophe r; Some (take n r, drop (n + 1) r)
      else let n := bare_run s in if n =? 0 then None else Some (take n s, drop n s)
  end.

Fixpoint dotted_key (fuel : nat) (keys : list gostr) (s : gostr) : option (list gostr * gostr) :=
  match fuel with
  | O => None
  | S fuel =>
      '(seg, rest) ← key_segment (skip_ws s);
      let rest := skip_ws rest in
      if head_is "."%char rest then dotted_key fuel (keys ++ [seg]) (drop 1 rest) else Some (keys ++ [seg], rest)
  end.

Definition parseDottedKey (s : gostr) : option (list gostr * gostr) := dotted_key (S (length s)) [] s.

(** The agent selector of a path: its id and the text after the dot. *)
Definition agent_selector (rest : gostr) : option (gostr * gostr) :=
  let '(id, after, found) := cut "]" rest in
  let id := trim_space id in
  if negb found || bool_decide (id = []) then None
  else let after := trim_space after in
       if bool_decide (after = []) then None
       else let '(dot, ok) := cut_prefix "." after in if ok then Some (id, dot) else None.

Definition ParseKeyPath (s : gostr) : option KeyPath :=
  let s := trim_space s in
  let '(rest, ok) := cut_prefix (agentsKey ++ "[") s in
  '(id, s) ← (if ok then agent_selector rest else Some ([], s));
  '(keys, rest) ← parseDottedKey s;
  if negb (bool_decide (trim_space rest = [])) then None
  else if bool_decide (id = []) && bool_decide (head keys = Some agentsKey) then None
  else Some (MkKeyPath id keys).

(** [KeyPath.String]. *)
Definition String (p : KeyPath) : gostr :=
  let k := renderDottedKey (Keys p) in
  if bool_decide (AgentID p = []) then k else agentsKey ++ "[" ++ AgentID p ++ "]." ++ k.

Definition LiveApplyAddress (p : KeyPath) : gostr * gostr :=
  if negb (bool_decide (AgentID p = [])) then ("agent"%gs, join "." (Keys p))
  else match Keys p with
       | [k] => (k, [])
       | ks => (join "." (removelast ks), List.last ks [])
       end.
End Decoder.

(** ** Key paths print and parse back *)

(** No white-space character starts or ends with the byte. *)
Definition solid (c : ascii) : bool :=
  forallb (fun e : gostr => negb (head_is c e)) (space_encodings ++ (@rev ascii <$> space_encodings)).

Lemma solid_leading encs c s : Forall (fun e => e <> []) encs -> forallb (fun e : gostr => negb (head_is c e)) encs = true ->
  leading_encoding encs (c :: s) = 0.
Proof.
  intros Hne H. apply leading_encoding_0; [done|]. rewrite forallb_forall in H. apply Forall_forall. intros e He%list_elem_of_In.
  specialize (H e He). destruct e as [|d e]; [|cbn [head_is has_prefix] in H |- *; by destruct (d =?b c)].
  apply list_elem_of_In in He. rewrite Forall_forall in Hne. by destruct (Hne _ He).
Qed.

Lemma trim_space_solid s a z : head s = Some a -> last s = Some z -> solid a = true -> solid z = true -> trim_space s = s.
Proof.
  unfold solid. intros Ha Hz Hsa Hsz. rewrite forallb_app in Hsa, Hsz. apply andb_true_iff in Hsa as [Hsa _], Hsz as [_ Hsz].
  destruct s as [|a' s]; [done|]. injection Ha as ->. apply trim_space_fixed.
  - apply solid_leading; [apply space_encodings_ne|done].
  - apply last_Some in Hz as [l ->]. rewrite rev_app_distr. apply solid_leading; [apply rev_space_encodings_ne|done].
Qed.

Lemma bare_solid c : bare_byte c = true -> solid c = true /\ mem_byte c blanks = false /\ (c =?b quote) = false /\ (c =?b apostrophe) = false.
Proof. destruct c as [[] [] [] [] [] [] [] []]; vm_compute; done. Qed.

Lemma bare_run_app k rest : forallb bare_byte k = true -> bare_run (k ++ rest) = length k + bare_run rest.
Proof. induction k as [|c k IH]; [done|]. cbn. intros [-> ?]%andb_true_iff. by rewrite IH. Qed.

Lemma closing_quote_byte c t : closing_quote 0 (encode_byte c ++ t) = (fun n => length (encode_byte c) + n) <$> closing_quote 0 t.
Proof.
  destruct c as [[] [] [] [] [] [] [] []]; match goal with |- context [encode_byte ?c] => let e := eval vm_compute in (encode_byte c) in change (encode_byte c) with e end;
    cbn; destruct (closing_quote 0 t); reflexivity.
Qed.

Lemma closing_quote_body s t :
  closing_quote 0 (concat (encode_byte <$> s) ++ quote :: t) = Some (length (concat (encode_byte <$> s))).
Proof.
  induction s as [|c s IH]; [done|]. cbn [fmap list_fmap concat]. rewrite <- app_assoc, closing_quote_byte, IH. cbn. by rewrite length_app.
Qed.

Definition ends_key (rest : gostr) : Prop := rest = [] \/ head rest = Some "."%char.

Lemma ends_key_run rest : ends_key rest -> bare_run rest = 0 /\ skip_ws rest = rest.
Proof. intros [->|H]; [done|]. destruct rest as [|c rest]; [done|]. by injection H as ->. Qed.

Section KeyPaths.
Context (decode : gostr -> option table) (go_quote : gostr -> gostr).
Hypothesis decode_strings : forall s q, encodeTOMLBasicString s = Some q -> decodeTOMLQuotedValue decode q = Some s.

Lemma key_segment_render k rest : ValidString k = true -> ends_key rest -> key_segment decode (render_key go_quote k ++ rest) = Some (k, rest).
Proof.
  intros Hv Hr. unfold render_key. destruct (bare_key k) eqn:Eb.
  - unfold bare_key in Eb. apply andb_true_iff in Eb as [Hn Hf]. destruct k as [|c k]; [done|]. cbn [app key_segment].
    cbn in Hf. apply andb_true_iff in Hf as [Hc Hf]. destruct (bare_solid c Hc) as (_ & _ & -> & ->).
    replace (bare_run (c :: k ++ rest)) with (length (c :: k)).
    + cbv zeta. change (length (c :: k) =? 0) with false. cbv iota. change (c :: k ++ rest) with ((c :: k) ++ rest).
      rewrite (take_app_length (c :: k) rest), (drop_app_length (c :: k) rest). done.
    + cbn. rewrite Hc, bare_run_app, (proj1 (ends_key_run _ Hr)) by done. lia.
  - unfold encodeTOMLBasicString. rewrite Hv. set (body := concat (encode_byte <$> k)).
    pose proof (decode_strings k (quote :: body ++ [quote])) as Hd. unfold encodeTOMLBasicString in Hd. rewrite Hv in Hd.
    specialize (Hd eq_refl). unfold key_segment. cbn [app]. rewrite byte_eqb_refl, <- app_assoc. cbn [app].
    pose proof (closing_quote_body k rest) as Hq. fold body in Hq. rewrite Hq. cbn [mbind option_bind].
    replace (take (length body + 2) (quote :: body ++ quote :: rest)) with (quote :: body ++ [quote]).
    + rewrite Hd. cbn. f_equal. f_equal. replace (length body + 2) with (S (length body + 1)) by lia. cbn.
      rewrite drop_app, drop_ge by lia. by replace (length body + 1 - length body) with 1 by lia.
    + replace (length body + 2) with (S (length body + 1)) by lia. cbn [take]. f_equal. rewrite take_app, take_ge by lia.
      by replace (length body + 1 - length body) with 1 by lia.
Qed.

(** The ends of a rendered segment. *)
Lemma render_ends k : ValidString k = true -> exists a z, head (render_key go_quote k) = Some a /\ last (render_key go_quote k) = Some z
  /\ solid a = true /\ solid z = true /\ mem_byte a blanks = false.
Proof.
  intros Hv. unfold render_key. destruct (bare_key k) eqn:Eb.
  - unfold bare_key in Eb. apply andb_true_iff in Eb as [Hn Hf]. destruct k as [|c k]; [done|].
    destruct (last (c :: k)) as [z|] eqn:Ez; [|by apply last_None in Ez].
    rewrite forallb_forall in Hf.
    assert (bare_byte c = true) as (Hc & Hb & _)%bare_solid by (apply Hf; by left).
    assert (bare_byte z = true) as (Hz & _)%bare_solid by (apply Hf, list_elem_of_In; by apply last_Some_elem_of).
    exists c, z. done.
  - unfold encodeTOMLBasicString. rewrite Hv. exists quote, quote. split_and!; try done. cbn [app]. rewrite app_comm_cons. by rewrite last_snoc.
Qed.

Definition rendered (ks : list gostr) : gostr := renderDottedKey go_quote ks.

Lemma rendered_cons k k2 ks : rendered (k :: k2 :: ks) = render_key go_quote k ++ "." ++ rendered (k2 :: ks).
Proof. done. Qed.

Lemma skip_ws_render k t : ValidString k = true -> skip_ws (render_key go_quote k ++ t) = render_key go_quote k ++ t.
Proof.
  intros Hv. destruct (render_ends k Hv) as (a & z & Ha & _ & _ & _ & Hb). destruct (render_key go_quote k) as [|c r]; [done|].
  injection Ha as ->. cbn [app skip_ws]. by rewrite Hb.
Qed.

Lemma dotted_key_rendered fuel acc ks : ks <> [] -> Forall (fun k => ValidString k = true) ks -> length ks <= fuel ->
  dotted_key decode fuel acc (rendered ks) = Some (acc ++ ks, []).
Proof.
  intros Hn Hv. revert acc fuel. induction Hv as [|k ks Hk Hv IH]; intros acc fuel Hf; [done|].
  destruct fuel as [|fuel]; [cbn in Hf; lia|]. destruct ks as [|k2 ks].
  - unfold rendered, renderDottedKey. cbn [fmap list_fmap join dotted_key].
    rewrite <- (app_nil_r (render_key go_quote k)), skip_ws_render, key_segment_render by (done || by left). done.
  - rewrite rendered_cons. cbn [dotted_key]. rewrite skip_ws_render, key_segment_render by (done || by right).
    cbn [mbind option_bind]. change (skip_ws ("." ++ rendered (k2 :: ks))) with ("." ++ rendered (k2 :: ks)). cbn [head_is app drop].
    change (("."%char =?b "."%char)) with true. cbn iota. rewrite IH; [by rewrite <- app_assoc|done|cbn in Hf |- *; lia].
Qed.

Lemma rendered_length ks : Forall (fun k => ValidString k = true) ks -> length ks <= length (rendered ks).
Proof.
  induction 1 as [|k ks Hk Hv IH]; [done|]. destruct (render_ends k Hk) as (a & _ & Ha & _).
  assert (1 <= length (render_key go_quote k)) as Hl by (destruct (render_key go_quote k); [done|cbn; lia]).
  destruct ks as [|k2 ks]; [unfold rendered, renderDottedKey; cbn; lia|]. rewrite rendered_cons, !length_app. cbn in IH |- *. lia.
Qed.

Lemma parse_rendered ks : ks <> [] -> Forall (fun k => ValidString k = true) ks -> parseDottedKey decode (rendered ks) = Some (ks, []).
Proof. intros Hn Hv. unfold parseDottedKey. apply dotted_key_rendered; [done|done|]. pose proof (rendered_length _ Hv). lia. Qed.

Lemma rendered_ends ks : ks <> [] -> Forall (fun k => ValidString k = true) ks ->
  exists a z, head (rendered ks) = Some a /\ last (rendered ks) = Some z /\ solid a = true /\ solid z = true.
Proof.
  intros Hn Hv. induction Hv as [|k ks Hk Hv IH]; [done|]. destruct (render_ends k Hk) as (a & z & Ha & Hz & Hsa & Hsz & _).
  destruct ks as [|k2 ks]; [exists a, z; done|]. destruct IH as (a2 & z2 & _ & Hz2 & _ & Hsz2); [done|].
  exists a, z2. rewrite rendered_cons. split_and!; [|by rewrite !last_app, Hz2|done|done].
  by destruct (render_key go_quote k).
Qed.

(** Paths [ParseKeyPath] can return: at least one segment, segments in UTF-8, an
    agent id without white space around it or a bracket in it, and no agent's
    key addressed from the root. *)
Definition printable (p : KeyPath) : Prop :=
  Keys p <> [] /\ Forall (fun k => ValidString k = true) (Keys p) /\
  (if bool_decide (AgentID p = []) then head (Keys p) <> Some agentsKey
   else trim_space (AgentID p) = AgentID p /\ ("]"%char ∉ AgentID p)).

Lemma cut_single c w t : (c ∉ w) -> cut [c] (w ++ c :: t) = (w, t, true).
Proof.
  intros H. unfold cut. assert (index [c] (w ++ c :: t) = Some (length w)) as ->.
  { induction w as [|d w IH]; cbn [app index has_prefix]; [by rewrite byte_eqb_refl|].
    apply not_elem_of_cons in H as [Hn H]. rewrite IH by done. by destruct (byte_eqb_spec c d). }
  rewrite take_app_length, Nat.add_comm. cbn [length Nat.add]. by rewrite drop_app, drop_ge, Nat.sub_succ_l, Nat.sub_diag by lia.
Qed.

(** A rendered path that starts like a selector starts with the key [agents]. *)
Lemma rendered_selector ks t : ks <> [] -> Forall (fun k => ValidString k = true) ks ->
  rendered ks = agentsKey ++ "[" ++ t -> head ks = Some agentsKey.
Proof.
  intros Hn Hv H. inversion Hv as [|k ks' Hk Hv']; subst; [done|].
  assert (exists r, ends_key r /\ rendered (k :: ks') = render_key go_quote k ++ r) as (r & Hr & Er).
  { destruct ks' as [|k2 ks']; [exists []; split; [by left|]; by rewrite app_nil_r|]. eexists. split; [|apply rendered_cons]. by right. }
  rewrite H in Er. unfold render_key in Er. destruct (bare_key k) eqn:Eb.
  - unfold bare_key in Eb. apply andb_true_iff in Eb as [_ Eb].
    pose proof (f_equal bare_run Er) as Hl. rewrite (bare_run_app k), (proj1 (ends_key_run _ Hr)) in Hl by done.
    change (6 = length k + 0) in Hl. apply (f_equal (take 6)) in Er. change (agentsKey = take 6 (k ++ r)) in Er.
    replace 6 with (length k) in Er by lia. rewrite take_app_length in Er. by rewrite <- Er.
  - unfold encodeTOMLBasicString in Er. by rewrite Hk in Er.
Qed.

(** C25: a key path prints to text that parses back to it, whatever its segments
    (quotes, dots, backslashes and control characters included), provided the
    decoder reads the basic strings the encoder writes. *)
Theorem key_path_roundtrip p : printable p -> ParseKeyPath decode (String go_quote p) = Some p.
Proof.
  intros (Hn & Hv & Ha). destruct p as [id ks]. cbn [AgentID Keys] in *. unfold String. cbn [AgentID Keys]. fold (rendered ks).
  destruct (rendered_ends ks Hn Hv) as (a & z & Hra & Hrz & Hsa & Hsz). unfold ParseKeyPath.
  case_bool_decide as Hid.
  - subst id. rewrite (trim_space_solid _ a z) by done. unfold cut_prefix. destruct (has_prefix _ _) eqn:E.
    + apply has_prefix_spec in E as [t E]. rewrite <- app_assoc in E. by apply rendered_selector in E.
    + cbn [mbind option_bind]. rewrite parse_rendered by done. cbn [mbind option_bind]. cbn.
      by rewrite (bool_decide_eq_false_2 (head ks = _)).
  - destruct Ha as [Ht Hb].
    rewrite (trim_space_solid _ "a"%char z); [|done| |done|done]; [|by rewrite !last_app, Hrz].
    rewrite app_assoc. unfold cut_prefix at 1. rewrite has_prefix_app. cbn [fst snd]. rewrite drop_app_length.
    unfold agent_selector. change ("]." ++ rendered ks) with ("]"%char :: "." ++ rendered ks).
    rewrite cut_single by done. rewrite Ht, (bool_decide_eq_false_2 _ Hid). cbn [negb orb].
    rewrite (trim_space_solid ("." ++ rendered ks) "."%char z); [|done|by rewrite last_app, Hrz|done|done].
    cbn [app]. rewrite bool_decide_eq_false_2 by done. unfold cut_prefix. change ("."%char :: rendered ks) with ("." ++ rendered ks).
    rewrite has_prefix_app. cbn [mbind option_bind]. change (drop (length ".") ("." ++ rendered ks)) with (rendered ks).
    rewrite parse_rendered by done. cbn [mbind option_bind]. cbn. by rewrite (bool_decide_eq_false_2 _ Hid).
Qed.
End KeyPaths.

(** ** Runs *)

(** The inverse of [encode_byte]. *)
Definition hex_value (c : ascii) : nat := default 0 (index_byte c "0123456789abcdef").

Fixpoint unescape (s : gostr) : option gostr :=
  match s with
  | [] => Some []
  | c :: s1 =>
      if c =?b backslash then
        match s1 with
        | e :: s2 =>
            if e =?b "u"%char then
              match s2 with
              | _ :: _ :: h :: l :: s3 => cons (ascii_of_nat (16 * hex_value h + hex_value l)) <$> unescape s3
              | _ => None
              end
            else let plain := if e =?b "b"%char then "008"%char else if e =?b "t"%char then "009"%char
                              else if e =?b "n"%char then "010"%char else if e =?b "f"%char then "012"%char
                              else if e =?b "r"%char then "013"%char else e in
                 cons plain <$> unescape s2
        | [] => None
        end
      else cons c <$> unescape s1
  end.

(** A decoder of [v = ] and one basic or literal string, and of the listed
    documents. *)
Definition string_value (s : gostr) : option gostr :=
  let '(rest, ok) := cut_prefix "v = " s in
  if negb ok then None
  else match trim_left blanks rest with
       | c :: body =>
           if (c =?b quote) && has_suffix [quote] body then unescape (take (length body - 1) body)
           else if (c =?b apostrophe) && has_suffix [apostrophe] body then Some (take (length body - 1) body)
           else None
       | [] => None
       end.

Definition demo_decode (docs : list (gostr * table)) (content : gostr) : option table :=
  match string_value content with
  | Some s => Some {[ "v"%gs := VStr s ]}
  | None => snd <$> List.find (fun d => bool_decide (d.1 = content)) docs
  end.

Lemma unescape_key_byte c t : unescape (encode_byte c ++ t) = cons c <$> unescape t.
Proof.
  destruct c as [[] [] [] [] [] [] [] []]; match goal with |- context [encode_byte ?c] => let e := eval vm_compute in (encode_byte c) in change (encode_byte c) with e end;
    cbn; destruct (unescape t); reflexivity.
Qed.

Lemma unescape_encoded s : unescape (concat (encode_byte <$> s)) = Some s.
Proof. induction s as [|c s IH]; [done|]. cbn [fmap list_fmap concat]. by rewrite unescape_key_byte, IH. Qed.


Lemma demo_decodes_strings docs s q : encodeTOMLBasicString s = Some q -> decodeTOMLQuotedValue (demo_decode docs) q = Some s.
Proof.
  unfold encodeTOMLBasicString. destruct (ValidString s); [|done]. intros [= <-]. set (body := concat _).
  unfold decodeTOMLQuotedValue, demo_decode, string_value, cut_prefix. rewrite has_prefix_app, drop_app_length.
  change (trim_left blanks (quote :: body ++ [quote])) with (quote :: body ++ [quote]). cbn [negb].
  assert (has_suffix [quote] (body ++ [quote]) = true) as -> by (unfold has_suffix; rewrite rev_app_distr; cbn; done).
  rewrite byte_eqb_refl, length_app. cbn [andb length]. rewrite Nat.add_sub, take_app_length. unfold body. by rewrite unescape_encoded.
Qed.

Definition odd_path : KeyPath := MkKeyPath "main" ["models"; "claude.fast\"]%gs.

Lemma key_path_roundtrip_witness : ParseKeyPath (demo_decode []) (KeyPaths.String id odd_path) = Some odd_path.
Proof.
  apply (key_path_roundtrip (demo_decode []) id (demo_decodes_strings [])). split_and!; [done|by repeat constructor|].
  vm_compute. split; [done|]. intros H. repeat (inversion H as [|? ? ? H2]; clear H; subst; rename H2 into H).
Defined.
