(* ===== verification/EditPath.v ===== *)
(** * Editing any key of the configuration file ([internal/config/editpath.go])

    The line model of a file, and the plans of a set and an unset, which try
    textual edits and keep the first one the decoder confirms.  The TOML decoder is
    the parameter [decode], [go_quote] that of KeyPath.v.  Errors carry what
    distinguishes them, not their texts. *)
From stdpp Require Import fin_maps.
From S2P Require Import Prelude GoStrings GoText TomlValue ConfigLines KeyPaths.
Local Open Scope gostr_scope.
Local Open Scope nat_scope.

Section Decoder.
Context (decode : gostr -> option table) (go_quote : gostr -> gostr).

(** ** The document model *)

(** [start] is [None] for the root table. *)
Record docSection := MkSection {
  s_start : option nat; s_end : nat; s_header : list gostr; s_array : bool; s_agentID : gostr; s_rel : list gostr;
}.

(** The markers of [agentID] while the document is read. *)
Inductive owner := NoAgent | Pending | Inherit.

Record docKey := MkKey { k_sec : nat; k_keys : list gostr; k_start : nat; k_end : nat; k_text : gostr; k_indent : gostr }.
Record tomlDoc := MkDoc { lines : list gostr; sections : list docSection; keys : list docKey }.

(** The document while it is read: sections are opened with their owner. *)
Record reading := MkReading { r_sections : list (docSection * owner); r_keys : list docKey; r_agentOpen : bool }.

Definition end_last (i : nat) (l : list (docSection * owner)) : list (docSection * owner) :=
  match rev l with
  | (s, o) :: l => rev l ++ [(MkSection (s_start s) i (s_header s) (s_array s) (s_agentID s) (s_rel s), o)]
  | [] => []
  end.

(** A header line, trimmed; [n] is the number of lines. *)
Definition read_header (n i : nat) (t : gostr) (d : reading) : option reading :=
  let array := has_prefix "[[" t in
  '(header, rest) ← parseDottedKey decode (trim_left "[" t);
  if negb (has_prefix (if array then "]]"%gs else "]"%gs) (trim_space rest)) then None
  else
    let sec rel := MkSection (Some i) n header array [] rel in
    let '(entry, agentOpen) :=
      if array && bool_decide (header = [agentsKey]) then ((sec [], Pending), true)
      else if r_agentOpen d && bool_decide (head header = Some agentsKey) then ((sec (drop 1 header), Inherit), true)
      else ((sec header, NoAgent), false) in
    Some (MkReading (end_last i (r_sections d) ++ [entry]) (r_keys d) agentOpen).

(** A line that holds a key, trimmed: the last line of its value, or none when
    the line is skipped; [None] is an error. *)
Definition read_key (ls : list gostr) (i : nat) (line t : gostr) (d : reading) : option (nat * reading) :=
  match parseDottedKey decode t with
  | Some (ks, rest) =>
      if has_prefix "=" rest then
        '(e, _) ← valueSpan ls i;
        let eq := default 0 (index_byte "="%char line) in
        Some (e, MkReading (r_sections d)
                   (r_keys d ++ [MkKey (length (r_sections d) - 1) ks i e (trim_space (take eq line))
                                   (take (length line - length (trim_left blanks line)) line)]) (r_agentOpen d))
      else Some (i, d)
  | None => Some (i, d)
  end.

Fixpoint read_lines (ls : list gostr) (i skip : nat) (rest : list (gostr * bool)) (d : reading) : option reading :=
  match rest with
  | [] => Some d
  | (line, top) :: rest =>
      match skip with
      | S skip => read_lines ls (S i) skip rest d
      | O =>
          let t := trim_space line in
          if negb top || bool_decide (t = []) || head_is "#"%char t then read_lines ls (S i) 0 rest d
          else if head_is "["%char t then d ← read_header (length ls) i t d; read_lines ls (S i) 0 rest d
          else if negb (contains "=" t) then read_lines ls (S i) 0 rest d
          else '(e, d) ← read_key ls i line t d; read_lines ls (S i) (e - i) rest d
      end
  end.

(** The raw text of a value. *)
Definition valueText (ls : list gostr) (k : docKey) : gostr :=
  let first := nth (k_start k) ls [] in
  join [newline] (drop (match index_byte "="%char first with Some e => S e | None => 0 end) first
                  :: take (k_end k - k_start k) (drop (k_start k + 1) ls)).

(** The id the key decodes to. *)
Definition id_of (ls : list gostr) (k : docKey) : option gostr :=
  m ← decode ("v = " ++ valueText ls k); match m !! "v"%gs with Some (VStr id) => Some id | _ => None end.

Fixpoint agentIDOf (ls : list gostr) (ks : list docKey) (si : nat) : gostr :=
  match ks with
  | [] => []
  | k :: ks =>
      if (k_sec k =? si) && bool_decide (k_keys k = ["id"%gs]) then
        match id_of ls k with Some id => id | None => agentIDOf ls ks si end
      else agentIDOf ls ks si
  end.

Definition with_agent (id : gostr) (s : docSection) : docSection :=
  MkSection (s_start s) (s_end s) (s_header s) (s_array s) id (s_rel s).

(** The second pass: each block's id, handed to its sub-sections. *)
Fixpoint resolve_agents (ls : list gostr) (ks : list docKey) (si : nat) (current : gostr) (l : list (docSection * owner)) : list docSection :=
  match l with
  | [] => []
  | (s, o) :: l =>
      let current := match o with Pending => agentIDOf ls ks si | Inherit => current | NoAgent => [] end in
      with_agent current s :: resolve_agents ls ks (S si) current l
  end.

Definition parse_lines (ls : list gostr) : option tomlDoc :=
  d ← read_lines ls 0 0 (zip ls (topLevel ls)) (MkReading [(MkSection None (length ls) [] false [] [], NoAgent)] [] false);
  Some (MkDoc ls (resolve_agents ls (r_keys d) 0 [] (r_sections d)) (r_keys d)).

Definition parseDoc (content : gostr) : option tomlDoc := parse_lines (split_byte newline content).

(** [strings.LastIndex] of a substring. *)
Fixpoint last_index (sub s : gostr) : option nat :=
  match s with
  | [] => if has_prefix sub [] then Some 0 else None
  | _ :: s' => match last_index sub s' with Some n => Some (S n) | None => if has_prefix sub s then Some 0 else None end
  end.

Definition trailingComment (d : tomlDoc) (k : docKey) : gostr :=
  match valueSpan (lines d) (k_start k) with
  | None => []
  | Some (_, old) =>
      let lastVal := trim_space (List.last (split_byte newline (trim_space old)) []) in
      let line := nth (k_end k) (lines d) [] in
      let line := if k_end k =? k_start k then drop (match index_byte "="%char line with Some e => S e | None => 0 end) line else line in
      match last_index lastVal line with
      | Some idx =>
          if bool_decide (lastVal = []) then []
          else let tail := trim_space (drop (idx + length lastVal) line) in
               if has_prefix "#" tail then " " ++ tail else []
      | None => []
      end
  end.

(** ** What defines a path *)
Definition inContainer (s : docSection) (p : KeyPath) : bool :=
  if negb (bool_decide (AgentID p = [])) then bool_decide (s_agentID s = AgentID p)
  else bool_decide (s_agentID s = []) && negb (bool_decide (head (s_header s) = Some agentsKey)).

Fixpoint hasPrefix (full prefix : list gostr) : bool :=
  match prefix, full with
  | [], _ => true
  | a :: prefix, b :: full => bool_decide (b = a) && hasPrefix full prefix
  | _ :: _, [] => false
  end.

Definition equalKeys (a b : list gostr) : bool := (length a =? length b) && hasPrefix a b.

Record pathDefs := MkDefs { exact : list docKey; under : list docKey; d_sections : list nat; outer : list docKey }.

Definition is_table (s : docSection) : bool := match s_start s with Some _ => true | None => false end.
Definition defines_section (p : KeyPath) (s : docSection) : bool := is_table s && inContainer s p && hasPrefix (s_rel s) (Keys p).

Definition defines_at (d : tomlDoc) (p : KeyPath) (si : nat) : bool :=
  match sections d !! si with Some s => defines_section p s | None => false end.

Definition defining_sections (d : tomlDoc) (p : KeyPath) : list nat :=
  filter (fun si => defines_at d p si = true) (seq 0 (length (sections d))).

Inductive relation := Exact | Under | Outer | Unrelated.

Definition relate (d : tomlDoc) (p : KeyPath) (k : docKey) : relation :=
  match sections d !! k_sec k with
  | None => Unrelated
  | Some s =>
      if defines_section p s || negb (inContainer s p) then Unrelated
      else let full := s_rel s ++ k_keys k in
           if equalKeys full (Keys p) then Exact
           else if hasPrefix full (Keys p) then Under
           else if hasPrefix (Keys p) full then Outer
           else Unrelated
  end.

#[global] Instance relation_eq_dec : EqDecision relation.
Proof. solve_decision. Defined.

Definition related (d : tomlDoc) (p : KeyPath) (r : relation) : list docKey := filter (fun k => relate d p k = r) (keys d).

Definition find (d : tomlDoc) (p : KeyPath) : pathDefs :=
  MkDefs (related d p Exact) (related d p Under) (defining_sections d p) (related d p Outer).

Definition empty (pd : pathDefs) : bool :=
  bool_decide (exact pd = []) && bool_decide (under pd = []) && bool_decide (d_sections pd = []).

Record removal := MkRemoval { r_from : nat; r_to : nat }.

Definition removals (d : tomlDoc) (pd : pathDefs) : list removal :=
  ((fun si => match sections d !! si with
              | Some s => let start := default 0 (s_start s) in MkRemoval start (blockRemovalEnd (lines d) start (s_end s))
              | None => MkRemoval 0 0
              end) <$> d_sections pd)
  ++ ((fun k => MkRemoval (k_start k) (k_end k + 1)) <$> exact pd ++ under pd).

Definition dropped (rs : list removal) (i : nat) : bool := existsb (fun r => (r_from r <=? i) && (i <? r_to r)) rs.

Fixpoint keep_lines (rs : list removal) (i : nat) (ls : list gostr) : list gostr :=
  match ls with
  | [] => []
  | l :: ls => if dropped rs i then keep_lines rs (S i) ls else l :: keep_lines rs (S i) ls
  end.

Definition withoutDefs (d : tomlDoc) (pd : pathDefs) : list gostr := keep_lines (removals d pd) 0 (lines d).

(** ** Plans *)
Inductive plan_error :=
| BadValue
| BadDocument
| NoSuchAgent
| InsideValue
| CannotSet (e : option edit_error)
| NotSetInFile
| CannotUnset (e : edit_error)
| SlicePanic.

Definition is_agent_entry (id : gostr) (s : docSection) : bool :=
  bool_decide (s_agentID s = id) && bool_decide (s_rel s = []) && s_array s.

Definition hasAgent (d : tomlDoc) (id : gostr) : bool := existsb (is_agent_entry id) (sections d).

Fixpoint find_section (f : docSection -> bool) (si : nat) (l : list docSection) : option nat :=
  match l with [] => None | s :: l => if f s then Some si else find_section f (S si) l end.

Definition containerSection (d : tomlDoc) (p : KeyPath) : option nat :=
  if bool_decide (AgentID p = []) then Some 0 else find_section (is_agent_entry (AgentID p)) 0 (sections d).

(** The number of lines left of [at_] once trailing blank lines above [low] are
    stepped over. *)
Fixpoint back_blanks (ls : list gostr) (n at_ : nat) : nat :=
  match n with O => at_ | S n => if blank (nth (at_ - 1) ls []) then back_blanks ls n (at_ - 1) else at_ end.

(** [None] is -1. *)
Definition agentRegionEnd (d : tomlDoc) (id : gostr) : option nat :=
  e ← last (s_end <$> filter (fun s => s_agentID s = id) (sections d));
  Some (back_blanks (lines d) e e).

Definition insert_lines (ls : list gostr) (at_ : nat) (new : list gostr) : list gostr := take at_ ls ++ new ++ drop at_ ls.

Definition key_insert_at (d : tomlDoc) (si : nat) (s : docSection) : nat :=
  match last (filter (fun k => k_sec k = si) (keys d)) with
  | Some k => k_end k + 1
  | None => back_blanks (lines d) (s_end s - match s_start s with Some st => st + 1 | None => 0 end) (s_end s)
  end.

Definition insertKey (d : tomlDoc) (si : nat) (line : gostr) : gostr :=
  match sections d !! si with
  | Some s => join [newline] (insert_lines (lines d) (key_insert_at d si s) [line])
  | None => []
  end.

Definition insertSection (d : tomlDoc) (at_ : nat) (header line : gostr) : gostr :=
  let ls := insertSectionBlock (lines d) at_ header [line] in
  let after := at_ + 2 + (if (0 <? at_) && negb (blank (nth (at_ - 1) (lines d) [])) then 1 else 0) in
  let ls := if (after <? length ls) && negb (blank (nth after ls [])) then take after ls ++ [[]] ++ drop after ls else ls in
  join [newline] ls.

(** The deepest table that holds the path; the last of the deepest. *)
Definition holds_path (p : KeyPath) (s : docSection) : bool :=
  is_table s && inContainer s p && negb (s_array s) && negb (bool_decide (s_rel s = []))
  && (length (s_rel s) <? length (Keys p)) && hasPrefix (Keys p) (s_rel s).

Fixpoint deepest_from (p : KeyPath) (si : nat) (best : option (nat * docSection)) (l : list docSection) : option (nat * docSection) :=
  match l with
  | [] => best
  | s :: l =>
      let better := match best with None => true | Some (_, b) => length (s_rel b) <=? length (s_rel s) end in
      deepest_from p (S si) (if holds_path p s && better then Some (si, s) else best) l
  end.

(** [None]: the slice expression [lines[:-1]] panics. *)
Definition insertCandidates (d : tomlDoc) (p : KeyPath) (value : gostr) : option (list gostr) :=
  let first :=
    match deepest_from p 0 None (sections d) with
    | Some (si, s) => [insertKey d si (renderDottedKey go_quote (drop (length (s_rel s)) (Keys p)) ++ " = " ++ value)]
    | None => []
    end in
  second ← (if 1 <? length (Keys p) then
              let header := renderDottedKey go_quote (removelast (Keys p)) in
              let leaf := renderDottedKey go_quote [List.last (Keys p) []] ++ " = " ++ value in
              if negb (bool_decide (AgentID p = [])) then
                at_ ← agentRegionEnd d (AgentID p); Some [insertSection d at_ (agentsKey ++ "." ++ header) leaf]
              else Some [insertSection d (newSectionInsertAt (lines d)) header leaf]
            else Some []);
  Some (first ++ second ++ match containerSection d p with
                           | Some si => [insertKey d si (renderDottedKey go_quote (Keys p) ++ " = " ++ value)]
                           | None => []
                           end).

Definition in_place (d : tomlDoc) (pd : pathDefs) (value : gostr) : list gostr :=
  match exact pd, under pd, d_sections pd with
  | [k], [], [] =>
      [join [newline] (replaceSpan (lines d) (k_start k) (k_end k)
                         (k_indent k ++ k_text k ++ " = " ++ trim_space value ++ trailingComment d k))]
  | _, _, _ => []
  end.

(** The first candidate that passes, or the last error. *)
Fixpoint first_verified (content : gostr) (p : KeyPath) (want : option any) (lastErr : option edit_error) (cs : list gostr) : plan_error + gostr :=
  match cs with
  | [] => inl (CannotSet lastErr)
  | next :: cs =>
      match VerifyPathEdit decode content next p want false with
      | None => inr next
      | Some e => first_verified content p want (Some e) cs
      end
  end.

(** The document and the definitions of the path, when the plan may go on. *)
Definition plan_defs (content : gostr) (p : KeyPath) : plan_error + (tomlDoc * pathDefs) :=
  match parseDoc content with
  | None => inl BadDocument
  | Some d =>
      if negb (bool_decide (AgentID p = [])) && negb (hasAgent d (AgentID p)) then inl NoSuchAgent
      else let pd := find d p in
           if bool_decide (outer pd = []) then inr (d, pd) else inl InsideValue
  end.

Definition PlanSetPath (content : gostr) (p : KeyPath) (value : gostr) : plan_error + gostr :=
  match DecodeTOMLValue decode value with
  | None => inl BadValue
  | Some want =>
      match plan_defs content p with
      | inl e => inl e
      | inr (d, pd) =>
          match parseDoc (join [newline] (if empty pd then lines d else withoutDefs d pd)) with
          | None => inl BadDocument
          | Some bd =>
              match insertCandidates bd p (trim_space value) with
              | None => inl SlicePanic
              | Some cs => first_verified content p want None (in_place d pd value ++ cs)
              end
          end
      end
  end.

Definition PlanUnsetPath (content : gostr) (p : KeyPath) : plan_error + gostr :=
  match plan_defs content p with
  | inl e => inl e
  | inr (d, pd) =>
      if empty pd then inl NotSetInFile
      else let next := join [newline] (withoutDefs d pd) in
           match VerifyPathEdit decode content next p None true with
           | None => inr next
           | Some e => inl (CannotUnset e)
           end
  end.
End Decoder.

(** ** Documents are well formed *)

(** The first line of a section's body. *)
Definition body_start (s : docSection) : nat := match s_start s with Some st => S st | None => 0 end.

(** Sections follow each other without gaps, from [st] to the end of the file. *)
Fixpoint tiled (n : nat) (st : option nat) (l : list docSection) : Prop :=
  match l with
  | [] => st = Some n
  | s :: l => s_start s = st /\ body_start s <= s_end s /\ tiled n (Some (s_end s)) l
  end.

Definition in_body (l : list docSection) (k : docKey) : Prop :=
  exists s, l !! k_sec k = Some s /\ body_start s <= k_start k <= k_end k /\ k_end k < s_end s.

(** The sections tile the file; every key lies in the body of its section; keys
    do not overlap and come in the order of the lines. *)
Record doc_wf (d : tomlDoc) : Prop := MkWf {
  wf_tiled : tiled (length (lines d)) None (sections d);
  wf_bodies : Forall (in_body (sections d)) (keys d);
  wf_ordered : StronglySorted (fun a b => k_end a < k_start b) (keys d);
}.

(** Only the bounds of the sections matter. *)
Definition bounds (s : docSection) : option nat * nat := (s_start s, s_end s).

Lemma body_start_bounds s s' : bounds s = bounds s' -> body_start s = body_start s' /\ s_end s = s_end s' /\ s_start s = s_start s'.
Proof. unfold bounds, body_start. by intros [= -> ->]. Qed.

Lemma tiled_bounds n st l l' : bounds <$> l = bounds <$> l' -> tiled n st l -> tiled n st l'.
Proof.
  revert st l'. induction l as [|s l IH]; intros st [|s' l'] H; try done. cbn in H. injection H as Hs He Hl.
  destruct (body_start_bounds s s') as (Hb & _ & _); [unfold bounds; congruence|]. cbn. rewrite <- Hb, <- He, <- Hs.
  intros (H1 & H2 & H3). split_and!; [done|done|by apply IH].
Qed.

Lemma in_body_bounds l l' k : bounds <$> l = bounds <$> l' -> in_body l k -> in_body l' k.
Proof.
  intros H (s & Hs & Hb & He). assert ((bounds <$> l') !! k_sec k = Some (bounds s)) as Hl.
  { rewrite <- H, list_lookup_fmap, Hs. done. }
  rewrite list_lookup_fmap in Hl. destruct (l' !! k_sec k) as [s'|] eqn:E; [|done]. cbn in Hl. injection Hl as H1 H2.
  destruct (body_start_bounds s s') as (Hb1 & He1 & _); [unfold bounds; congruence|]. exists s'. split; [done|]. lia.
Qed.

Definition close_at (i : nat) (s : docSection) : docSection :=
  MkSection (s_start s) i (s_header s) (s_array s) (s_agentID s) (s_rel s).

Lemma tiled_cut n st l s i s' : tiled n st (l ++ [s]) -> body_start s <= i < n ->
  s_start s' = Some i -> s_end s' = n -> tiled n st (l ++ [close_at i s; s']).
Proof.
  intros H Hi Hs He. revert st H. induction l as [|a l IH]; intros st.
  - cbn. intros (H1 & _ & _). split_and!; [done|unfold body_start, close_at; cbn; fold (body_start s); lia|by rewrite Hs| |by rewrite He].
    unfold body_start. rewrite Hs, He. lia.
  - cbn. intros (H1 & H2 & H3). eauto.
Qed.

Lemma tiled_last n st l s : tiled n st (l ++ [s]) -> s_end s = n.
Proof.
  revert st. induction l as [|a l IH]; intros st; cbn; [|naive_solver]. intros (_ & _ & [= ->]). done.
Qed.

Lemma end_last_snoc i l s o : end_last i (l ++ [(s, o)]) = l ++ [(close_at i s, o)].
Proof. unfold end_last. rewrite rev_app_distr. cbn. by rewrite rev_involutive. Qed.

(** The document read so far, line [i] being the next to look at. *)
Definition reading_wf (n i : nat) (d : reading) : Prop :=
  exists l s o, r_sections d = l ++ [(s, o)] /\ tiled n None (l.*1 ++ [s]) /\ body_start s <= i
    /\ Forall (in_body (l.*1 ++ [s])) (r_keys d) /\ Forall (fun k => k_end k < i) (r_keys d)
    /\ StronglySorted (fun a b => k_end a < k_start b) (r_keys d).

Lemma reading_wf_later n i j d : i <= j -> reading_wf n i d -> reading_wf n j d.
Proof.
  intros Hij (l & s & o & H1 & H2 & H3 & H4 & H5 & H6). exists l, s, o. split_and!; try done; [lia|].
  eapply Forall_impl; [exact H5|]. cbn. lia.
Qed.

Lemma in_body_cut l s i s' k : in_body (l ++ [s]) k -> k_end k < i -> in_body (l ++ [close_at i s; s']) k.
Proof.
  intros (s0 & Hl & Hb & He) Hi. destruct (decide (k_sec k < length l)) as [Hk|Hk].
  - exists s0. rewrite lookup_app_l in Hl |- * by done. done.
  - rewrite lookup_app_r in Hl by lia. destruct (k_sec k - length l) as [|m] eqn:E; [|by destruct m].
    injection Hl as <-. exists (close_at i s). rewrite lookup_app_r, E by lia. done.
Qed.

Lemma read_header_wf decode n i t d d' : reading_wf n i d -> i < n -> read_header decode n i t d = Some d' -> reading_wf n (S i) d'.
Proof.
  intros (l & s & o & H1 & H2 & H3 & H4 & H5 & H6) Hi H. unfold read_header in H.
  destruct (parseDottedKey _ _) as [[header rest]|]; [|done]. cbn in H. case_match; [done|].
  set (e := if _ && _ then _ else _) in H. assert (exists s' o' a, e = ((s', o'), a) /\ s_start s' = Some i /\ s_end s' = n) as (s' & o' & a & -> & Hs & He).
  { subst e. destruct (_ && bool_decide (header = [agentsKey])); [|destruct (r_agentOpen d && _)];
      eexists _, _, _; (split; [reflexivity|by split]). }
  injection H as <-. exists (l ++ [(close_at i s, o)]), s', o'. cbn [r_sections r_keys]. rewrite H1, end_last_snoc.
  assert ((l ++ [(close_at i s, o)]).*1 ++ [s'] = l.*1 ++ [close_at i s; s']) as -> by (by rewrite fmap_app, <- app_assoc).
  split_and!; [done| | | | |done].
  - by apply (tiled_cut n None (l.*1) s).
  - unfold body_start. by rewrite Hs.
  - rewrite Forall_forall in H4, H5 |- *. intros k Hk. apply in_body_cut; auto.
  - eapply Forall_impl; [exact H5|]. cbn. lia.
Qed.

Lemma StronglySorted_snoc {A} (R : A -> A -> Prop) l x : StronglySorted R l -> Forall (fun a => R a x) l -> StronglySorted R (l ++ [x]).
Proof.
  induction 1 as [|a l Hs IH Ha]; intros Hf; cbn; [by repeat constructor|]. inversion_clear Hf. constructor; [by apply IH|].
  apply Forall_app. auto.
Qed.

Lemma read_key_wf decode ls i line t d e d' : reading_wf (length ls) i d -> i < length ls ->
  read_key decode ls i line t d = Some (e, d') -> i <= e /\ reading_wf (length ls) (S e) d'.
Proof.
  intros Hw Hi H. unfold read_key in H. destruct (parseDottedKey _ _) as [[ks rest]|].
  2: { injection H as <- <-. split; [lia|]. apply (reading_wf_later _ i); [lia|done]. }
  case_match; [|injection H as <- <-; split; [lia|]; apply (reading_wf_later _ i); [lia|done]].
  destruct (valueSpan ls i) as [[e' v]|] eqn:E; [|done]. apply valueSpan_bound in E. injection H as <- <-. split; [lia|].
  destruct Hw as (l & s & o & H1 & H2 & H3 & H4 & H5 & H6). exists l, s, o. cbn [r_sections r_keys]. split_and!; try done.
  - lia.
  - apply Forall_app. split; [done|]. constructor; [|done]. exists s. cbn. rewrite H1, length_app. cbn.
    replace (length l + 1 - 1) with (length (l.*1)) by (rewrite length_fmap; lia).
    rewrite list_lookup_middle by done. rewrite (tiled_last _ _ _ _ H2). split; [done|lia].
  - apply Forall_app. split; [|by constructor; cbn; [lia|]]. eapply Forall_impl; [exact H5|]. cbn. lia.
  - apply StronglySorted_snoc; [done|]. eapply Forall_impl; [exact H5|]. done.
Qed.

Lemma read_lines_wf decode ls i skip rest d d' : reading_wf (length ls) (i + skip) d -> i + length rest = length ls ->
  read_lines decode ls i skip rest d = Some d' -> exists j, reading_wf (length ls) j d'.
Proof.
  revert i skip d. induction rest as [|[line top] rest IH]; intros i skip d Hw Hl H.
  - injection H as <-. eauto.
  - cbn in Hl. destruct skip as [|skip]; [|apply (IH (S i) skip d); [by replace (S i + skip) with (i + S skip) by lia|lia|exact H]].
    assert (reading_wf (length ls) (S i + 0) d) as Hs by (apply (reading_wf_later _ (i + 0)); [lia|done]).
    rewrite Nat.add_0_r in Hw. cbn [read_lines] in H.
    destruct (negb top || _ || _); [by apply (IH (S i) 0 d); [|lia|]|].
    destruct (head_is "[" _).
    { destruct (read_header _ _ _ _ _) as [d1|] eqn:E; [|done].
      apply (IH (S i) 0 d1); [|lia|exact H]. rewrite Nat.add_0_r. eapply read_header_wf; [exact Hw|lia|exact E]. }
    destruct (negb (contains _ _)); [by apply (IH (S i) 0 d); [|lia|]|].
    destruct (read_key _ _ _ _ _ _) as [[e d1]|] eqn:E; [|done].
    apply read_key_wf in E as [He Hd]; [|done|lia]. apply (IH (S i) (e - i) d1); [|lia|exact H].
    by replace (S i + (e - i)) with (S e) by lia.
Qed.

Lemma resolve_bounds decode ls ks si cur l : bounds <$> resolve_agents decode ls ks si cur l = bounds <$> l.*1.
Proof. revert si cur. induction l as [|[s o] l IH]; intros si cur; [done|]. cbn. by rewrite IH. Qed.

Lemma parse_lines_wf decode ls d : parse_lines decode ls = Some d -> doc_wf d /\ lines d = ls.
Proof.
  unfold parse_lines. intros H. destruct (read_lines _ _ _ _ _ _) as [r|] eqn:E; [|done]. injection H as <-. split; [|done].
  apply read_lines_wf in E as (j & l & s & o & H1 & H2 & _ & H4 & _ & H6).
  - cbn. assert (bounds <$> (r_sections r).*1 = bounds <$> resolve_agents decode ls (r_keys r) 0 [] (r_sections r)) as Hb
      by (by rewrite resolve_bounds). rewrite H1, fmap_app in Hb at 1. cbn in Hb. split; cbn [lines sections keys]; [| |done].
    + eapply tiled_bounds; [exact Hb|exact H2].
    + eapply Forall_impl; [exact H4|]. intros k. by apply in_body_bounds.
  - exists [], (MkSection None (length ls) [] false [] []), NoAgent. cbn. unfold body_start. cbn. repeat split; try constructor; lia.
  - rewrite length_zip. unfold topLevel. rewrite top_from_length. lia.
Qed.


(** ** Edits keep the other lines *)

(** What a set may put into the file, [v] being the text of the value: the line
    of the path's one definition with the value replaced; a line that assigns
    the value to the path or to what a table leaves of it; or the table that
    holds the path's last key, with a blank line before and after or not. *)
Inductive addition (go_quote : gostr -> gostr) (d : tomlDoc) (p : KeyPath) (v : gostr) : list gostr -> Prop :=
| added_in_place k : exact (find d p) = [k] ->
    addition go_quote d p v [k_indent k ++ k_text k ++ " = " ++ v ++ trailingComment d k]
| added_key i : i < length (Keys p) \/ i = 0 ->
    addition go_quote d p v [renderDottedKey go_quote (drop i (Keys p)) ++ " = " ++ v]
| added_table before after : 1 < length (Keys p) ->
    addition go_quote d p v
      ((if before : bool then [[]] else [])
       ++ ["[" ++ (if bool_decide (AgentID p = []) then [] else agentsKey ++ ".") ++ renderDottedKey go_quote (removelast (Keys p)) ++ "]";
           renderDottedKey go_quote [List.last (Keys p) []] ++ " = " ++ v]
       ++ (if after : bool then [[]] else [])).

(** [next] is made of lines of [old], in their order, with the lines of one
    addition in one place. *)
Definition edited (P : list gostr -> Prop) (old kept : list gostr) (next : gostr) : Prop :=
  exists pre new post, kept `sublist_of` (pre ++ post) /\ (pre ++ post) `sublist_of` old
    /\ P new /\ next = join [newline] (pre ++ new ++ post).

Lemma keep_lines_sublist rs i ls : keep_lines rs i ls `sublist_of` ls.
Proof. revert i. induction ls as [|l ls IH]; intros i; cbn; [done|]. case_match; constructor; apply IH. Qed.

Lemma keep_lines_nil i ls : keep_lines [] i ls = ls.
Proof. revert i. induction ls as [|l ls IH]; intros i; cbn; [done|]. by rewrite IH. Qed.

Lemma keep_lines_span a b i ls : a <= b -> keep_lines [MkRemoval a b] i ls = take (a - i) ls ++ drop (b - i) ls.
Proof.
  intros Hab. revert i. induction ls as [|l ls IH]; intros i; cbn [keep_lines]; [by rewrite take_nil, drop_nil|].
  unfold dropped. cbn [existsb r_from r_to]. rewrite orb_false_r, IH. destruct (Nat.leb_spec a i), (Nat.ltb_spec i b); cbn [andb].
  - rewrite !(proj2 (Nat.sub_0_le a _)) by lia. replace (b - i) with (S (b - S i)) by lia. done.
  - rewrite !(proj2 (Nat.sub_0_le a _)), !(proj2 (Nat.sub_0_le b _)) by lia. done.
  - replace (a - i) with (S (a - S i)) by lia. replace (b - i) with (S (b - S i)) by lia. done.
  - lia.
Qed.

Lemma tiled_ends n st l : tiled n st l -> match st with Some i => i <= n | None => True end /\ Forall (fun s => s_end s <= n) l.
Proof.
  revert st. induction l as [|s l IH]; intros st; cbn; [intros ->; done|]. intros (Hs & Hb & [He Hf]%IH). split; [|by constructor].
  unfold body_start in Hb. rewrite Hs in Hb. destruct st; [lia|done].
Qed.

Lemma back_blanks_le ls n at_ : back_blanks ls n at_ <= at_.
Proof. revert at_. induction n as [|n IH]; intros at_; cbn; [done|]. case_match; [|done]. specialize (IH (at_ - 1)). lia. Qed.

Lemma insert_edited (P : list gostr -> Prop) old kept ls at_ new : kept `sublist_of` ls -> ls `sublist_of` old -> P new ->
  edited P old kept (join [newline] (insert_lines ls at_ new)).
Proof. intros Hk Hl Hn. exists (take at_ ls), new, (drop at_ ls). by rewrite take_drop. Qed.

Lemma insertKey_edited (P : list gostr -> Prop) old kept d si line s : P [line] -> sections d !! si = Some s -> kept `sublist_of` lines d -> lines d `sublist_of` old ->
  edited P old kept (insertKey d si line).
Proof. intros HP Hs ? ?. unfold insertKey. rewrite Hs. by apply insert_edited. Qed.

Lemma insertSection_edited (P : list gostr -> Prop) old kept d at_ header line :
  (forall before after : bool, P ((if before then [[]] else []) ++ ["[" ++ header ++ "]"; line] ++ (if after then [[]] else []))) -> at_ <= length (lines d) -> kept `sublist_of` lines d -> lines d `sublist_of` old ->
  edited P old kept (insertSection d at_ header line).
Proof.
  intros HP Ha Hk Hl. unfold insertSection, insertSectionBlock.
  set (b := (0 <? at_) && _). set (blk := (if b then [[]] else []) ++ ["[" ++ header ++ "]"; line] : list gostr).
  set (ls := lines d) in *.
  replace (take at_ ls ++ (if b then [[]] else []) ++ _) with (take at_ ls ++ blk ++ drop at_ ls) by (subst blk; by rewrite <- !app_assoc).
  assert (at_ + 2 + (if b then 1 else 0) = length (take at_ ls ++ blk)) as ->.
  { rewrite length_app, length_take. subst blk. rewrite length_app. destruct b; cbn; lia. }
  rewrite (app_assoc (take at_ ls)). case_match.
  - rewrite take_app_length, drop_app_length. exists (take at_ ls), (blk ++ [[]]), (drop at_ ls). rewrite take_drop.
    split_and!; [done|done| |by rewrite <- !app_assoc]. subst blk. rewrite <- app_assoc. apply (HP b true).
  - exists (take at_ ls), blk, (drop at_ ls). rewrite take_drop. split_and!; [done|done| |by rewrite <- !app_assoc].
    subst blk. exact (HP b false).
Qed.

Lemma deepest_from_valid p si best l j s : deepest_from p si best l = Some (j, s) ->
  best = Some (j, s) \/ si <= j /\ l !! (j - si) = Some s /\ holds_path p s = true.
Proof.
  revert si best. induction l as [|a l IH]; intros si best H; [by left|]. cbn [deepest_from] in H. apply IH in H as [H|(H1 & H2 & H3)].
  - case_match eqn:E; [|by left]. apply andb_true_iff in E as [E _]. injection H as <- <-. right. by rewrite Nat.sub_diag.
  - right. split; [lia|]. split; [|done]. by replace (j - si) with (S (j - S si)) by lia.
Qed.

Lemma find_section_valid f si l j : find_section f si l = Some j -> si <= j /\ exists s, l !! (j - si) = Some s.
Proof.
  revert si. induction l as [|a l IH]; intros si H; [done|]. cbn in H. case_match.
  - injection H as <-. rewrite Nat.sub_diag. eauto.
  - apply IH in H as (H1 & s & H2). split; [lia|]. exists s. by replace (j - si) with (S (j - S si)) by lia.
Qed.

Lemma agentRegionEnd_bound d id at_ : doc_wf d -> agentRegionEnd d id = Some at_ -> at_ <= length (lines d).
Proof.
  intros [[_ Ht]%tiled_ends _ _]. unfold agentRegionEnd. destruct (last _) as [e|] eqn:E; [|done]. intros [= <-].
  etrans; [apply back_blanks_le|]. rewrite fmap_last in E. destruct (last (filter _ _)) as [s|] eqn:El; [|done].
  injection E as <-. rewrite Forall_forall in Ht. apply Ht. apply last_Some in El as (l & El).
  assert (s ∈ filter (fun s => s_agentID s = id) (sections d)) as Hs by (rewrite El; apply elem_of_app; right; by left).
  by apply list_elem_of_filter in Hs as [_ ?].
Qed.

(** A key is inserted inside the body of its section. *)
Lemma key_insert_in_body d si s : doc_wf d -> sections d !! si = Some s ->
  key_insert_at d si s <= s_end s /\ s_end s <= length (lines d).
Proof.
  intros [[_ Ht]%tiled_ends Hb _] Hs. rewrite Forall_lookup in Ht. split; [|by apply (Ht si)]. unfold key_insert_at.
  destruct (last _) as [k|] eqn:E; [|apply back_blanks_le]. apply last_Some in E as (l & E).
  assert (k ∈ filter (fun k => k_sec k = si) (keys d)) as Hk by (rewrite E; apply elem_of_app; right; by left).
  apply list_elem_of_filter in Hk as [<- Hk]. rewrite Forall_forall in Hb. destruct (Hb k Hk) as (s' & Hs' & _ & He).
  rewrite Hs in Hs'. injection Hs' as <-. lia.
Qed.

Lemma holds_path_shorter p s : holds_path p s = true -> length (s_rel s) < length (Keys p).
Proof. unfold holds_path. rewrite !andb_true_iff. intros [[_ H] _]. by apply Nat.ltb_lt. Qed.

Lemma insertCandidates_edited go_quote d0 old kept d p value cs next : doc_wf d -> sections d <> [] ->
  kept `sublist_of` lines d -> lines d `sublist_of` old ->
  insertCandidates go_quote d p value = Some cs -> next ∈ cs ->
  edited (addition go_quote d0 p value) old kept next.
Proof.
  intros Hw Hne Hk Hl H Hn. unfold insertCandidates in H.
  match type of H with (?second ≫= _) = _ => destruct second as [sec|] eqn:E; [|done] end. injection H as <-.
  rewrite !elem_of_app in Hn. destruct Hn as [Hn|[Hn|Hn]].
  - destruct (deepest_from _ _ _ _) as [[si s]|] eqn:Ed; [|by apply elem_of_nil in Hn]. apply list_elem_of_singleton in Hn as ->.
    apply deepest_from_valid in Ed as [?|(_ & Hs & Hp%holds_path_shorter)]; [done|]. rewrite Nat.sub_0_r in Hs.
    eapply insertKey_edited; [|done..]. constructor. by left.
  - destruct (Nat.ltb_spec 1 (length (Keys p))) as [Hlen|]; [|injection E as <-; by apply elem_of_nil in Hn].
    assert (forall before after : bool, addition go_quote d0 p value ((if before then [[]] else [])
      ++ ["[" ++ (if bool_decide (AgentID p = []) then [] else agentsKey ++ ".") ++ renderDottedKey go_quote (removelast (Keys p)) ++ "]";
          renderDottedKey go_quote [List.last (Keys p) []] ++ " = " ++ value] ++ (if after then [[]] else []))) as HP
      by (intros; by constructor).
    destruct (bool_decide (AgentID p = [])); cbn [negb] in E.
    + injection E as <-. apply list_elem_of_singleton in Hn as ->. by apply insertSection_edited; [|apply newSectionInsertAt_bound|..].
    + destruct (agentRegionEnd _ _) as [at_|] eqn:Ea; [|done]. injection E as <-. apply list_elem_of_singleton in Hn as ->.
      apply insertSection_edited; [|by eapply agentRegionEnd_bound|done..]. intros before after.
      specialize (HP before after). by rewrite <- (app_assoc agentsKey) in HP.
  - destruct (containerSection d p) as [si|] eqn:Ec; [|by apply elem_of_nil in Hn]. apply list_elem_of_singleton in Hn as ->.
    assert (exists s, sections d !! si = Some s) as [s Hs];
      [|eapply insertKey_edited; [apply (added_key _ _ _ _ 0); by right|done..]].
    unfold containerSection in Ec. case_bool_decide; [injection Ec as <-; destruct (sections d); [done|by eexists]|].
    apply find_section_valid in Ec as (_ & s & Hs). rewrite Nat.sub_0_r in Hs. eauto.
Qed.

(** ** Edits change their path and nothing else *)
Section Plans.
Context (decode : gostr -> option table) (go_quote : gostr -> gostr).

Lemma first_verified_spec content p want e cs next :
  first_verified decode content p want e cs = inr next -> next ∈ cs /\ VerifyPathEdit decode content next p want false = None.
Proof.
  revert e. induction cs as [|c cs IH]; intros e H; [done|]. cbn in H.
  destruct (VerifyPathEdit decode content c p want false) eqn:E.
  - apply IH in H as [? ?]. split; [by right|done].
  - injection H as <-. split; [by left|done].
Qed.

Lemma PlanSetPath_verified content p value next : PlanSetPath decode go_quote content p value = inr next ->
  exists want, DecodeTOMLValue decode value = Some want /\ VerifyPathEdit decode content next p want false = None.
Proof.
  unfold PlanSetPath. intros H. destruct (DecodeTOMLValue decode value) as [want|]; [|done].
  destruct (plan_defs _ _ _) as [|[d pd]]; [done|]. destruct (parseDoc _ _) as [bd|]; [|done].
  destruct (insertCandidates _ _ _ _) as [cs|]; [|done]. apply first_verified_spec in H as [_ H]. eauto.
Qed.

Lemma PlanUnsetPath_verified content p next : PlanUnsetPath decode content p = inr next ->
  VerifyPathEdit decode content next p None true = None.
Proof.
  unfold PlanUnsetPath. intros H. destruct (plan_defs _ _ _) as [|[d pd]]; [done|]. destruct (empty pd); [done|].
  destruct (VerifyPathEdit _ _ _ _ _ _) eqn:E; [done|]. by injection H as <-.
Qed.

(** C22: whatever [PlanSetPath] returns, decoding it reads the requested value at
    the path, and reads every path apart from it as before (equal values, unset
    stays unset, agents stay found or not found). *)
Theorem set_changes_only_path content p value next :
  PlanSetPath decode go_quote content p value = inr next ->
  (exists want got, DecodeTOMLValue decode value = Some want /\ LookupPath decode next p = inr (Some got)
     /\ DeepEqual_opt (Some got) want = true)
  /\ forall q, apart p q = true -> same_reading (LookupPath decode content q) (LookupPath decode next q) = true.
Proof.
  intros (want & Ew & [(got & Hg & [v ->] & He) Hq]%verify_spec)%PlanSetPath_verified. split; [|done]. exists want, v. done.
Qed.

(** Whatever [PlanUnsetPath] returns, decoding it finds the path unset and
    every path apart from it as before. *)
Theorem unset_changes_only_path content p next :
  PlanUnsetPath decode content p = inr next ->
  LookupPath decode next p = inr None
  /\ forall q, apart p q = true -> same_reading (LookupPath decode content q) (LookupPath decode next q) = true.
Proof. intros [(got & Hg & ->) Hq]%PlanUnsetPath_verified%verify_spec. done. Qed.

Lemma parseDoc_wf content d : parseDoc decode content = Some d ->
  doc_wf d /\ lines d = split_byte newline content /\ sections d <> [].
Proof.
  intros [Hw Hl]%parse_lines_wf. split_and!; [done|done|]. intros E. destruct Hw as [Ht _ _]. by rewrite E in Ht.
Qed.

Lemma plan_defs_spec content p d pd : plan_defs decode content p = inr (d, pd) -> parseDoc decode content = Some d /\ pd = find d p.
Proof.
  unfold plan_defs. intros H. destruct (parseDoc _ _) as [d'|]; [|done]. destruct (negb _ && _); [done|].
  case_bool_decide; [|done]. by injection H as <- <-.
Qed.

Lemma in_place_edited old d p value next : doc_wf d -> lines d `sublist_of` old ->
  next ∈ in_place d (find d p) value ->
  edited (addition go_quote d p (trim_space value)) old (withoutDefs d (find d p)) next.
Proof.
  intros Hw Hl Hn. unfold in_place in Hn. destruct (exact (find d p)) as [|k [|]] eqn:E1; try by apply elem_of_nil in Hn.
  destruct (under _) eqn:E2; [|by apply elem_of_nil in Hn]. destruct (d_sections _) eqn:E3; [|by apply elem_of_nil in Hn].
  apply list_elem_of_singleton in Hn as ->.
  assert (k ∈ keys d) as Hk.
  { assert (k ∈ exact (find d p)) as He by (rewrite E1; by left). by apply list_elem_of_filter in He as [_ ?]. }
  destruct Hw as [_ Hb _]. rewrite Forall_forall in Hb. destruct (Hb k Hk) as (s & _ & [_ Hse] & _).
  unfold withoutDefs, removals. rewrite E1, E2, E3. cbn [fmap list_fmap app].
  rewrite keep_lines_span, !Nat.sub_0_r by lia. unfold replaceSpan.
  rewrite bool_decide_false by (intros E%(f_equal length); rewrite !length_app in E; cbn in E; lia).
  eexists _, [_], _. split_and!; [reflexivity| |by apply added_in_place|reflexivity].
  etrans; [|exact Hl]. rewrite <- (take_drop (k_start k) (lines d)) at 3. apply sublist_app; [done|].
    replace (k_end k + 1) with (k_start k + (k_end k + 1 - k_start k)) by lia. rewrite <- drop_drop. apply sublist_drop.
Qed.


(** An unset removes lines and does nothing else. *)
Theorem unset_keeps_lines content p next : PlanUnsetPath decode content p = inr next ->
  exists d, parseDoc decode content = Some d /\ withoutDefs d (find d p) `sublist_of` lines d
    /\ next = join [newline] (withoutDefs d (find d p)).
Proof.
  unfold PlanUnsetPath. intros H. destruct (plan_defs _ _ _) as [|[d pd]] eqn:Ep; [done|]. apply plan_defs_spec in Ep as [Ed ->].
  destruct (empty _); [done|]. destruct (VerifyPathEdit _ _ _ _ _ _); [done|]. injection H as <-.
  exists d. split_and!; [done|apply keep_lines_sublist|done].
Qed.
End Plans.

(** ** Runs *)
Definition bare_file : gostr := join [newline] ["# limits"; "[agent_loop]"; "max = 1 # keep"; ""; "[[agents]]"; "id = 'main'"; ""]%list.
Definition nudged_file : gostr :=
  join [newline] ["# limits"; "[agent_loop]"; "max = 1 # keep"; ""; "[[agents]]"; "id = 'main'"; ""; "[agents.nudge]"; "enable = true"; ""]%list.
Definition loop_doc (agent : table) : table :=
  {[ "agent_loop"%gs := VTable {[ "max"%gs := VInt 1 ]}; "agents"%gs := VTables [agent] ]}.
Definition docs : list (gostr * table) :=
  [(bare_file, loop_doc {[ "id"%gs := VStr "main" ]});
   (nudged_file, loop_doc {[ "id"%gs := VStr "main"; "nudge"%gs := VTable {[ "enable"%gs := VBool true ]} ]});
   ("v = true"%gs, {[ "v"%gs := VBool true ]})].
Definition nudge_path : KeyPath := MkKeyPath "main" ["nudge"; "enable"]%gs.

Example set_inserts_table : PlanSetPath (demo_decode docs) id bare_file nudge_path "true" = inr nudged_file.
Proof. vm_compute. reflexivity. Qed.

Example unset_inside_table_refused : PlanUnsetPath (demo_decode docs) nudged_file (MkKeyPath "main" ["absent"%gs]) = inl NotSetInFile.
Proof. vm_compute. reflexivity. Qed.

Example unset_removes_table :
  PlanUnsetPath (demo_decode docs) nudged_file (MkKeyPath "main" ["nudge"%gs]) = inr bare_file.
Proof. vm_compute. reflexivity. Qed.

Lemma set_changes_only_path_witness :
  same_reading (LookupPath (demo_decode docs) bare_file (MkKeyPath "" ["agent_loop"; "max"]%gs))
    (LookupPath (demo_decode docs) nudged_file (MkKeyPath "" ["agent_loop"; "max"]%gs)) = true.
Proof. apply (set_changes_only_path (demo_decode docs) id bare_file nudge_path "true" nudged_file set_inserts_table). vm_compute. reflexivity. Defined.

Lemma unset_changes_only_path_witness :
  LookupPath (demo_decode docs) bare_file (MkKeyPath "main" ["nudge"%gs]) = inr None.
Proof. apply (unset_changes_only_path (demo_decode docs) nudged_file (MkKeyPath "main" ["nudge"%gs]) bare_file unset_removes_table). Defined.


(** The comment rule of a block removal takes the last line of a multi-line
    string for a comment and leaves it behind. *)
Example removal_leaves_string_tail : blockRemovalEnd ["[a]"; "x = '''"; "# foo'''"; "[b]"]%gs 0 3 = 2.
Proof. vm_compute. reflexivity. Qed.

(** The value of a key with an equals sign inside quotes is looked for after that
    sign: the span of an array that follows ends on its first line. *)
Example quoted_equals_cuts_span : valueSpan ["'a=b' = ["; "1"; "]"]%gs 0 = Some (0, "b' = ["%gs).
Proof. vm_compute. reflexivity. Qed.
