(* ===== verification/ConfigApprove.v ===== *)
(** * Config changes past the user ([internal/configapprove/configapprove.go])

    An agent's request to edit the configuration file is planned, shown to the
    owner, and written only when the owner approves.  The service is a step
    relation: a step is one critical section of [mu] or one access to the file;
    submissions, answers, timeouts and other writers of the file interleave, and
    [writeMu] serialises what the service itself does to the file.  Errors of the
    outside world (the ownership check, reading, writing, showing the prompt) are
    choices of the steps.  A request is known by a number, its prompt calls back
    once with a choice ([Prompt.OnAnswer]), and texts are left out. *)
From stdpp Require Import fin_maps.
From S2P Require Import Prelude GoStrings GoNum TomlValue ConfigLines KeyPaths EditPath.
Local Open Scope gostr_scope.
Local Open Scope nat_scope.

(** ** Data *)
Inductive Op := OpSet | OpUnset.
Inductive Outcome := Pending | Applied | Denied | TimedOut | Failed.
#[export] Instance Outcome_eq_dec : EqDecision Outcome.
Proof. solve_decision. Defined.

Definition DefaultTimeout : Duration := (10 * Minute)%Z.
Definition MaxTimeout : Duration := Hour.
Definition MinTimeout : Duration := (10 * Second)%Z.
Definition retainResolved : Duration := (15 * Minute)%Z.

Definition ClampTimeout (t : Duration) : Duration :=
  if (t <=? 0)%Z then DefaultTimeout
  else if (t <? MinTimeout)%Z then MinTimeout
  else if (MaxTimeout <? t)%Z then MaxTimeout
  else t.

Record Submission := MkSubmission { sub_op : Op; sub_path : gostr; sub_value : gostr }.

(** [choice] is what the user pressed; [resolved] the time the request ended;
    [listed] whether the service still finds it by its id (goroutines that work on
    it keep their pointer). *)
Record request := MkRequest {
  op : Op; value : gostr; path : KeyPath; oldValue : option any; outcome : Outcome; choice : option bool; resolved : Time;
  listed : bool;
}.

(** Where the goroutine that approves a request is: it waits for [writeMu]; then,
    holding it, before the check, the reading of the file, the write, the
    resolution.  A prompt calls back once, so there is at most one per request. *)
Inductive stage := Wait | Verify | Read | Write (cur next : gostr) | Done (o : Outcome).

Definition holding (x : stage) : bool := match x with Wait => false | _ => true end.

(** Who holds [writeMu]. *)
Inductive holder := ByApproval (id : nat) | ByTimeout (t : nat).

(** A write of the file: for which request, what was read, what was there. *)
Record write := MkWrite { w_id : nat; w_read : gostr; w_before : gostr; w_next : gostr }.

(** [presenting] are the requests whose prompt is being shown, [timeouts] the
    running calls of [timeout] with their request, and whether they hold
    [writeMu]. *)
Record Service := MkService {
  file : gostr; reqs : gmap nat request; presenting : gset nat; approvals : gmap nat stage; timeouts : gmap nat (nat * bool);
  writeMu : option holder; log : list write; issued : nat;
}.

Section Approve.
Context (decode : gostr -> option table) (go_quote : gostr -> gostr) (CheckContent : gostr -> bool).

(** ** Operations *)
Definition plan (cur : gostr) (p : KeyPath) (o : Op) (v : gostr) : plan_error + gostr :=
  match o with OpUnset => PlanUnsetPath decode cur p | OpSet => PlanSetPath decode go_quote cur p v end.

(** The request a submission becomes, or none when it does not pass. *)
Definition validate (sub : Submission) (cur : gostr) : option request :=
  p ← ParseKeyPath decode (sub_path sub);
  match LookupPath decode cur p, plan cur p (sub_op sub) (sub_value sub) with
  | inr old, inr next => if CheckContent next then Some (MkRequest (sub_op sub) (sub_value sub) p old Pending None 0%Z true) else None
  | _, _ => None
  end.

(** What [apply] writes, having read [cur]; none is an error. *)
Definition apply_plan (r : request) (cur : gostr) : option gostr :=
  match LookupPath decode cur (path r) with
  | inr old =>
      if negb (DeepEqual_opt old (oldValue r)) then None
      else match plan cur (path r) (op r) (value r) with
           | inr next => if CheckContent next then Some next else None
           | inl _ => None
           end
  | inl _ => None
  end.

Definition set_outcome (o : Outcome) (now : Time) (r : request) : request :=
  MkRequest (op r) (value r) (path r) (oldValue r) o (choice r) now (listed r).
Definition set_choice (b : bool) (r : request) : request :=
  MkRequest (op r) (value r) (path r) (oldValue r) (outcome r) (Some b) (resolved r) (listed r).
Definition unlist (r : request) : request :=
  MkRequest (op r) (value r) (path r) (oldValue r) (outcome r) (choice r) (resolved r) false.

Definition pending (r : request) : bool := bool_decide (outcome r = Pending).

Definition set_reqs (rs : gmap nat request) (s : Service) : Service :=
  MkService (file s) rs (presenting s) (approvals s) (timeouts s) (writeMu s) (log s) (issued s).
Definition set_approvals (a : gmap nat stage) (s : Service) : Service :=
  MkService (file s) (reqs s) (presenting s) a (timeouts s) (writeMu s) (log s) (issued s).
Definition set_timeouts (a : gmap nat (nat * bool)) (s : Service) : Service :=
  MkService (file s) (reqs s) (presenting s) (approvals s) a (writeMu s) (log s) (issued s).
Definition set_mu (m : option holder) (s : Service) : Service :=
  MkService (file s) (reqs s) (presenting s) (approvals s) (timeouts s) m (log s) (issued s).

(** [resolve] does nothing to a request that has ended. *)
Definition resolve (id : nat) (o : Outcome) (now : Time) (s : Service) : Service :=
  match reqs s !! id with
  | Some r => if pending r then set_reqs (<[ id := set_outcome o now r ]> (reqs s)) s else s
  | None => s
  end.

(** [Submit] of a validated request, until [Present]. *)
Definition register (r : request) (s : Service) : Service :=
  MkService (file s) (<[ issued s := r ]> (reqs s)) ({[ issued s ]} ∪ presenting s) (approvals s) (timeouts s) (writeMu s)
    (log s) (S (issued s)).

(** The end of [Present]. *)
Definition presented (id : nat) (ok : bool) (now : Time) (s : Service) : Service :=
  let s := MkService (file s) (reqs s) (presenting s ∖ {[ id ]}) (approvals s) (timeouts s) (writeMu s) (log s) (issued s) in
  if ok then s else resolve id Failed now s.

(** [answer]: the check and the resolution of a denial; an approval goes on. *)
Definition answer (id : nat) (approve : bool) (now : Time) (s : Service) : Service :=
  match reqs s !! id with
  | Some r =>
      let s := set_reqs (<[ id := set_choice approve r ]> (reqs s)) s in
      if negb (listed r && pending r) then s
      else if approve then set_approvals (<[ id := Wait ]> (approvals s)) s else resolve id Denied now s
  | None => s
  end.

Definition at_stage (id : nat) (x : stage) (s : Service) : Service := set_approvals (<[ id := x ]> (approvals s)) s.
Definition approval_ends (id : nat) (s : Service) : Service := set_mu None (set_approvals (delete id (approvals s)) s).

(** The next step of [approve] and [apply].  [ok] is the outside world's answer
    (ownership, reading, writing), [left] what a failed write leaves. *)
Definition approve_step (now : Time) (ok : bool) (left : gostr) (id : nat) (x : stage) (s : Service) : option Service :=
  match x with
  | Wait => match writeMu s with Some _ => None | None => Some (set_mu (Some (ByApproval id)) (at_stage id Verify s)) end
  | Verify =>
      if match reqs s !! id with Some r => pending r | None => false end then Some (at_stage id Read s)
      else Some (approval_ends id s)
  | Read =>
      match (if ok then r ← reqs s !! id; apply_plan r (file s) else None) with
      | Some next => Some (at_stage id (Write (file s) next) s)
      | None => Some (at_stage id (Done Failed) s)
      end
  | Write cur next =>
      Some (MkService (if ok then next else left) (reqs s) (presenting s)
              (<[ id := Done (if ok then Applied else Failed) ]> (approvals s)) (timeouts s) (writeMu s)
              (if ok then MkWrite id cur (file s) next :: log s else log s) (issued s))
  | Done o => Some (approval_ends id (resolve id o now s))
  end.

(** [timeout], before and after it holds [writeMu]. *)
Definition timeout_step (now : Time) (t : nat) (x : nat * bool) (s : Service) : option Service :=
  match x with
  | (id, false) =>
      match writeMu s with
      | Some _ => None
      | None => Some (set_mu (Some (ByTimeout t)) (set_timeouts (<[ t := (id, true) ]> (timeouts s)) s))
      end
  | (id, true) => Some (set_mu None (set_timeouts (delete t (timeouts s)) (resolve id TimedOut now s)))
  end.

Definition forgotten (now : Time) (r : request) : bool := negb (pending r) && (retainResolved <? TimeSub now (resolved r))%Z.

Definition prune (now : Time) (s : Service) : Service :=
  set_reqs ((fun r => if forgotten now r then unlist r else r) <$> reqs s) s.

(** A failed write leaves the file as it was, or a part of the new content: the
    write truncates first. *)
Definition left_by (s : Service) (x : stage) (left : gostr) : Prop :=
  match x with Write cur next => left = file s \/ left `prefix_of` next | _ => True end.

Inductive step : Service -> Service -> Prop :=
| step_submit sub r s : validate sub (file s) = Some r -> step s (register r s)
| step_present id ok now s : id ∈ presenting s -> step s (presented id ok now s)
| step_answer id r b now s : reqs s !! id = Some r -> choice r = None -> step s (answer id b now s)
| step_approve now ok left id x s s' : approvals s !! id = Some x -> left_by s x left ->
    approve_step now ok left id x s = Some s' -> step s s'
| step_expire id r t s : reqs s !! id = Some r -> listed r = true -> timeouts s !! t = None ->
    step s (set_timeouts (<[ t := (id, false) ]> (timeouts s)) s)
| step_timeout now t x s s' : timeouts s !! t = Some x -> timeout_step now t x s = Some s' -> step s s'
| step_other content s :
    step s (MkService content (reqs s) (presenting s) (approvals s) (timeouts s) (writeMu s) (log s) (issued s))
| step_prune now s : step s (prune now s).

(** A new service: no requests. *)
Definition start (content : gostr) : Service := MkService content ∅ ∅ ∅ ∅ None [] 0.
Definition reachable (s : Service) : Prop := exists content, rtc step (start content) s.

(** ** One request *)
Definition writes (id : nat) (s : Service) : nat := length (filter (fun w => w_id w = id) (log s)).

(** What the request, the goroutine that approves it and the number of writes for
    it can be. *)
Definition legal (r : option request) (x : option stage) (n : nat) : Prop :=
  match r with
  | None => x = None /\ n = 0
  | Some r =>
      match x with
      | None => n = 0 /\ outcome r <> Applied \/ n = 1 /\ choice r = Some true /\ (outcome r = Applied \/ outcome r = Failed)
      | Some x =>
          choice r = Some true /\
          match x with
          | Wait | Verify => n = 0 /\ outcome r <> Applied /\ outcome r <> Denied
          | Read => n = 0 /\ (outcome r = Pending \/ outcome r = Failed)
          | Write cur next => n = 0 /\ (outcome r = Pending \/ outcome r = Failed) /\ apply_plan r cur = Some next
          | Done o => (outcome r = Pending \/ outcome r = Failed) /\ match o with Applied => n = 1 | Failed => n = 0 | _ => False end
          end
      end
  end.

(** A write is one an approved request planned. *)
Definition planned (s : Service) (w : write) : Prop :=
  exists r, reqs s !! w_id w = Some r /\ choice r = Some true /\ apply_plan r (w_read w) = Some (w_next w).

Record invariant (s : Service) : Prop := MkInv {
  i_fresh : forall id, issued s <= id -> reqs s !! id = None;
  i_legal : forall id, legal (reqs s !! id) (approvals s !! id) (writes id s);
  i_approval : forall id x, approvals s !! id = Some x -> holding x = true -> writeMu s = Some (ByApproval id);
  i_timeout : forall t id, timeouts s !! t = Some (id, true) -> writeMu s = Some (ByTimeout t);
  i_planned : Forall (planned s) (log s);
}.

(** ** Steps keep the invariant *)

(** Requests that differ in their progress only. *)
Definition same_edit (r r' : request) : Prop :=
  op r = op r' /\ value r = value r' /\ path r = path r' /\ oldValue r = oldValue r'.

Lemma apply_plan_same r r' cur : same_edit r r' -> apply_plan r cur = apply_plan r' cur.
Proof. unfold apply_plan. by intros (-> & -> & -> & ->). Qed.

(** A step that works on one request. *)
Lemma keep_one id r r' s s' : invariant s ->
  reqs s !! id = Some r -> reqs s' = <[ id := r' ]> (reqs s) -> same_edit r r' -> (choice r = Some true -> choice r' = Some true) ->
  (forall j, j <> id -> approvals s' !! j = approvals s !! j) -> log s' = log s -> issued s' = issued s ->
  legal (Some r') (approvals s' !! id) (writes id s) ->
  (forall j x, approvals s' !! j = Some x -> holding x = true -> writeMu s' = Some (ByApproval j)) ->
  (forall t j, timeouts s' !! t = Some (j, true) -> writeMu s' = Some (ByTimeout t)) -> invariant s'.
Proof.
  intros [H1 H2 H3 H4 H5] Hr Er He Hc Ha El Ei Hl Hma Hmt.
  assert (forall j, writes j s' = writes j s) as Ew by (intros j; unfold writes; by rewrite El).
  split; [| |done|done|].
  - intros j Hj. rewrite Er. rewrite Ei in Hj. rewrite lookup_insert_ne; [by apply H1|]. intros <-. by rewrite (H1 id Hj) in Hr.
  - intros j. rewrite Ew, Er. destruct (decide (j = id)) as [->|Hn]; [by rewrite lookup_insert_eq|].
    rewrite lookup_insert_ne, Ha by done. apply H2.
  - rewrite El. eapply Forall_impl; [exact H5|]. intros w (q & Hq & Hqc & Hqp). unfold planned. rewrite Er.
    destruct (decide (w_id w = id)) as [E|Hn]; [|exists q; by rewrite lookup_insert_ne].
    rewrite E in Hq |- *. rewrite Hr in Hq. injection Hq as <-. exists r'. rewrite lookup_insert_eq. split_and!; [done|by apply Hc|].
    by rewrite <- (apply_plan_same r r').
Qed.

(** The same, when the request itself stays. *)
Lemma keep_stage id r s s' : invariant s ->
  reqs s !! id = Some r -> reqs s' = reqs s ->
  (forall j, j <> id -> approvals s' !! j = approvals s !! j) -> log s' = log s -> issued s' = issued s ->
  legal (Some r) (approvals s' !! id) (writes id s) ->
  (forall j x, approvals s' !! j = Some x -> holding x = true -> writeMu s' = Some (ByApproval j)) ->
  (forall t j, timeouts s' !! t = Some (j, true) -> writeMu s' = Some (ByTimeout t)) -> invariant s'.
Proof.
  intros Hi Hr Er. apply (keep_one id r r); [done|done|by rewrite Er, insert_id|by split_and!|done].
Qed.

(** How a pending request may end. *)
Lemma legal_resolve o now r x n : legal (Some r) x n -> pending r = true ->
  match o with
  | Failed => True
  | Applied => x = None /\ n = 1 /\ choice r = Some true
  | Denied => x = None
  | TimedOut => x = None \/ x = Some Wait
  | Pending => False
  end -> legal (Some (set_outcome o now r)) x n.
Proof.
  intros H Hp%bool_decide_eq_true Ho. cbn in H |- *. destruct x as [x|].
  - destruct o; try (by naive_solver). destruct H as [Hc H]. split; [done|]. destruct x; naive_solver.
  - destruct H as [[-> _]|(-> & Hc & [?|?])]; try congruence. destruct o; naive_solver.
Qed.

Lemma same_edit_outcome o now r : same_edit r (set_outcome o now r).
Proof. by split_and!. Qed.

(** [resolve], after the request's own approval and the lock were settled. *)
Lemma resolve_keeps id o now s : invariant s ->
  (forall r, reqs s !! id = Some r -> pending r = true ->
     match o with
     | Failed => True
     | Applied => approvals s !! id = None /\ writes id s = 1 /\ choice r = Some true
     | Denied => approvals s !! id = None
     | TimedOut => approvals s !! id = None \/ approvals s !! id = Some Wait
     | Pending => False
     end) -> invariant (resolve id o now s).
Proof.
  intros Hi Ho. unfold resolve. destruct (reqs s !! id) as [r|] eqn:Er; [|done]. destruct (pending r) eqn:Ep; [|done].
  destruct Hi as [H1 H2 H3 H4 H5]. apply (keep_one id r (set_outcome o now r) s); try done.
  - cbn [set_reqs approvals writes log]. apply legal_resolve; [|done|by apply Ho]. rewrite <- Er. apply H2.
Qed.

Lemma resolve_fields id o now s : approvals (resolve id o now s) = approvals s /\ timeouts (resolve id o now s) = timeouts s
  /\ writeMu (resolve id o now s) = writeMu s /\ log (resolve id o now s) = log s /\ issued (resolve id o now s) = issued s.
Proof. unfold resolve. repeat case_match; done. Qed.

Lemma register_keeps sub r s : invariant s -> validate sub (file s) = Some r -> invariant (register r s).
Proof.
  intros [H1 H2 H3 H4 H5] Hv. split; cbn; try done.
  - intros id Hid. rewrite lookup_insert_ne by lia. apply H1. lia.
  - intros id. change (legal (<[ issued s := r ]> (reqs s) !! id) (approvals s !! id) (writes id s)). destruct (decide (id = issued s)) as [->|Hn].
    + specialize (H2 (issued s)). rewrite H1 in H2 by lia. cbn in H2. destruct H2 as [-> ->]. rewrite lookup_insert_eq. left.
      split; [done|]. unfold validate in Hv. destruct (ParseKeyPath _ _); [|done]. cbn in Hv. repeat case_match; try done.
      by injection Hv as <-.
    + rewrite lookup_insert_ne by done. apply H2.
  - eapply Forall_impl; [exact H5|]. intros w (q & Hq & ?). exists q. split; [|done]. cbn. rewrite lookup_insert_ne; [done|].
    intros E. rewrite <- E, H1 in Hq by lia. done.
Qed.

Lemma presented_keeps id ok now s : invariant s -> invariant (presented id ok now s).
Proof.
  intros Hi. unfold presented. set (s0 := MkService _ _ _ _ _ _ _ _).
  assert (invariant s0) as H0 by (by destruct Hi as [H1 H2 H3 H4 H5]; split). destruct ok; [done|]. by apply resolve_keeps.
Qed.

Lemma answer_keeps id r b now s : invariant s -> reqs s !! id = Some r -> choice r = None -> invariant (answer id b now s).
Proof.
  intros Hi Hr Hc. unfold answer. rewrite Hr. set (s0 := set_reqs _ s). pose proof Hi as [H1 H2 H3 H4 H5].
  pose proof (H2 id) as Hl. rewrite Hr in Hl. cbn in Hl.
  destruct (approvals s !! id) as [x|] eqn:Ex; [by destruct Hl; congruence|].
  destruct Hl as [[Hw Ho]|(? & ? & ?)]; [|congruence].
  assert (invariant s0) as H0.
  { apply (keep_one id r (set_choice b r) s); try done; [congruence|]. cbn [s0 set_reqs approvals]. rewrite Ex. left. done. }
  destruct (negb _) eqn:En; [done|]. apply negb_false_iff, andb_true_iff in En as [_ Hp].
  assert (reqs s0 !! id = Some (set_choice b r)) as Hr0 by (cbn; by rewrite lookup_insert_eq).
  destruct b.
  - apply (keep_stage id (set_choice true r) s0); [done|done|done| |done|done| | |exact H4].
    + intros j Hj. cbn. by rewrite lookup_insert_ne.
    + cbn. rewrite lookup_insert_eq. cbn. unfold pending in Hp. apply bool_decide_eq_true in Hp.
      change (writes id s0) with (writes id s). rewrite Hp. done.
    + intros j x. cbn. intros [[<- <-]|[_ Hj]]%lookup_insert_Some; [done|]. by apply H3.
  - apply resolve_keeps; [done|]. intros. exact Ex.
Qed.

Lemma timeout_keeps now t x s s' : invariant s -> timeouts s !! t = Some x -> timeout_step now t x s = Some s' -> invariant s'.
Proof.
  intros Hi Ht H. destruct x as [id []]; cbn in H.
  - injection H as <-. pose proof (i_timeout _ Hi t id Ht) as Hm.
    assert (invariant (resolve id TimedOut now s)) as [H1 H2 H3 H4 H5].
    { apply resolve_keeps; [done|]. intros r Hr _. destruct (approvals s !! id) as [x|] eqn:Ex; [right|by left].
      destruct (holding x) eqn:Eh; [|by destruct x]. pose proof (i_approval _ Hi id x Ex Eh). congruence. }
    destruct (resolve_fields id TimedOut now s) as (Ea & Et & Em & El & Ei).
    remember (resolve id TimedOut now s) as s1 eqn:E1. clear E1. split; cbn; try done.
    + intros j x Hx Hh. rewrite Ea in Hx. pose proof (i_approval _ Hi j x Hx Hh). congruence.
    + intros t' j [Hn Hj]%lookup_delete_Some. pose proof (i_timeout _ Hi t' j Hj). congruence.
  - destruct (writeMu s) eqn:Em; [done|]. injection H as <-. destruct Hi as [H1 H2 H3 H4 H5]. split; cbn; try done.
    + intros j x Hx Hh. pose proof (H3 j x Hx Hh). congruence.
    + intros t' j [[<- _]|[_ Hj]]%lookup_insert_Some; [done|]. pose proof (H4 t' j Hj). congruence.
Qed.

(** The request of a running approval. *)
Lemma approval_request id x s : invariant s -> approvals s !! id = Some x ->
  exists r, reqs s !! id = Some r /\ legal (Some r) (Some x) (writes id s).
Proof.
  intros Hi Hx. pose proof (i_legal _ Hi id) as H. rewrite Hx in H. destruct (reqs s !! id) as [r|]; [eauto|]. by destruct H.
Qed.

(** An approval that goes on to a stage where it holds the lock. *)
Lemma stage_keeps id r x y m s : invariant s -> reqs s !! id = Some r -> approvals s !! id = Some x ->
  legal (Some r) (Some y) (writes id s) -> (writeMu s = None \/ writeMu s = Some (ByApproval id)) -> m = Some (ByApproval id) ->
  invariant (set_mu m (at_stage id y s)).
Proof.
  intros Hi Hr Hx Hl Hm ->. apply (keep_stage id r s); try done.
  - intros j Hj. cbn. by rewrite lookup_insert_ne.
  - cbn. by rewrite lookup_insert_eq.
  - intros j z. cbn. intros [[<- <-]|[Hn Hj]]%lookup_insert_Some Hh; [done|]. pose proof (i_approval _ Hi j z Hj Hh).
    destruct Hm; congruence.
  - intros t j Hj. cbn in Hj |- *. pose proof (i_timeout _ Hi t j Hj). destruct Hm; congruence.
Qed.

(** An approval that ends. *)
Lemma end_keeps id r x s : invariant s -> reqs s !! id = Some r -> approvals s !! id = Some x -> holding x = true ->
  legal (Some r) None (writes id s) -> invariant (approval_ends id s).
Proof.
  intros Hi Hr Hx Hh Hl. pose proof (i_approval _ Hi id x Hx Hh) as Hm. apply (keep_stage id r s); try done.
  - intros j Hj. cbn. by rewrite lookup_delete_ne.
  - cbn. by rewrite lookup_delete_eq.
  - intros j z. cbn. intros [Hn Hj]%lookup_delete_Some Hz. pose proof (i_approval _ Hi j z Hj Hz). congruence.
  - intros t j Hj. cbn in Hj. pose proof (i_timeout _ Hi t j Hj). congruence.
Qed.

Lemma write_keeps id cur next (ok : bool) left s : invariant s -> approvals s !! id = Some (Write cur next) ->
  invariant (MkService (if ok then next else left) (reqs s) (presenting s)
    (<[ id := Done (if ok then Applied else Failed) ]> (approvals s)) (timeouts s) (writeMu s)
    (if ok then MkWrite id cur (file s) next :: log s else log s) (issued s)).
Proof.
  intros Hi Hx. destruct (approval_request _ _ _ Hi Hx) as (r & Hr & Hc & Hw & Ho & Hp).
  pose proof Hi as [H1 H2 H3 H4 H5]. split; cbn [issued reqs approvals timeouts writeMu log]; [done| | |done|].
  - intros j. destruct (decide (j = id)) as [->|Hn].
    + rewrite lookup_insert_eq, Hr. cbn [legal]. split; [done|]. split; [done|]. destruct ok; [|exact Hw].
      unfold writes. cbn [log filter list_filter]. rewrite decide_True by done. cbn. by rewrite <- Hw.
    + rewrite lookup_insert_ne by done. specialize (H2 j). destruct ok; [|exact H2].
      unfold writes in H2 |- *. cbn [log filter list_filter]. by rewrite decide_False by (cbn; congruence).
  - intros j z [[<- <-]|[Hn Hj]]%lookup_insert_Some Hh; [by apply (H3 id _ Hx)|by apply (H3 j z)].
  - destruct ok; [constructor; [|exact H5]|exact H5]. exists r. done.
Qed.

Lemma approve_keeps now ok left id x s s' : invariant s -> approvals s !! id = Some x ->
  approve_step now ok left id x s = Some s' -> invariant s'.
Proof.
  intros Hi Hx H. destruct (approval_request _ _ _ Hi Hx) as (r & Hr & Hl). destruct x as [| | |cur next|o]; cbn [approve_step] in H.
  - destruct (writeMu s) eqn:Em; [done|]. injection H as <-. eapply stage_keeps; [exact Hi|exact Hr|exact Hx|exact Hl|by left|done].
  - pose proof (i_approval _ Hi id _ Hx eq_refl) as Hm. rewrite Hr in H. destruct (pending r) eqn:Ep; injection H as <-.
    + replace (at_stage id Read s) with (set_mu (Some (ByApproval id)) (at_stage id Read s)) by (rewrite <- Hm; by destruct s).
      eapply stage_keeps; [exact Hi|exact Hr|exact Hx| |by right|done]. unfold pending in Ep. apply bool_decide_eq_true in Ep. cbn in Hl |- *. naive_solver.
    + eapply end_keeps; [exact Hi|exact Hr|exact Hx|done|]. cbn in Hl |- *. naive_solver.
  - pose proof (i_approval _ Hi id _ Hx eq_refl) as Hm. rewrite Hr in H.
    assert (forall y, legal (Some r) (Some y) (writes id s) -> invariant (at_stage id y s)) as K.
    { intros y Hy. replace (at_stage id y s) with (set_mu (Some (ByApproval id)) (at_stage id y s)) by (rewrite <- Hm; by destruct s).
      eapply stage_keeps; [exact Hi|exact Hr|exact Hx|exact Hy|by right|done]. }
    destruct ok; cbn [mbind option_bind] in H; [destruct (apply_plan r (file s)) eqn:Ea|]; injection H as <-; apply K; cbn in Hl |- *; naive_solver.
  - injection H as <-. by apply write_keeps.
  - injection H as <-. destruct (resolve_fields id o now s) as (Ea & Et & Em & El & Ei).
    pose proof Hl as (Hc & Ho & Hn).
    assert (exists r', reqs (resolve id o now s) !! id = Some r' /\ choice r' = Some true /\ same_edit r r'
      /\ (outcome r' = if pending r then o else outcome r) /\ reqs (resolve id o now s) = <[ id := r' ]> (reqs s)) as (r' & Hr' & Hc' & Hse & Ho' & Hrs).
    { unfold resolve. rewrite Hr. destruct (pending r) eqn:Ep; cbn; [exists (set_outcome o now r)|exists r].
      - rewrite lookup_insert_eq. by split_and!.
      - rewrite insert_id by done. by split_and!. }
    pose proof (i_approval _ Hi id _ Hx eq_refl) as Hm. pose proof Hi as [H1 H2 H3 H4 H5].
    remember (resolve id o now s) as s1 eqn:E1. clear E1. apply (keep_one id r r' s); cbn; try done.
    + intros j Hj. rewrite lookup_delete_ne by done. by rewrite Ea.
    + rewrite Ea, lookup_delete_eq. cbn. unfold pending in Ho'. destruct o; try done.
      * right. split_and!; [done|done|]. rewrite Ho'. case_bool_decide; [by left|]. destruct Ho as [?|?]; [congruence|by right].
      * left. split; [done|]. rewrite Ho'. case_bool_decide; [done|]. destruct Ho; congruence.
    + intros j z. rewrite Ea. intros [Hj Hz]%lookup_delete_Some Hh. pose proof (H3 j z Hz Hh). congruence.
    + intros t j. rewrite Et. intros Hj. pose proof (H4 t j Hj). congruence.
Qed.

Lemma prune_keeps now s : invariant s -> invariant (prune now s).
Proof.
  intros [H1 H2 H3 H4 H5]. split; cbn; try done.
  - intros id Hid. by rewrite lookup_fmap, H1.
  - intros id. change (writes id (prune now s)) with (writes id s). rewrite lookup_fmap. specialize (H2 id).
    destruct (reqs s !! id) as [r|]; [|done]. cbn [fmap option_fmap option_map]. by destruct (forgotten now r).
  - eapply Forall_impl; [exact H5|]. intros w (q & Hq & Hc & Hp). unfold planned. cbn. rewrite lookup_fmap, Hq.
    eexists. split; [reflexivity|]. by destruct (forgotten now q).
Qed.

Lemma step_keeps s s' : invariant s -> step s s' -> invariant s'.
Proof.
  intros Hi Hs. destruct Hs as [sub r s|id ok now s|id r b now s|now ok left id x s s'|id r t s Hr Hp Ht|now t x s s'|content s|now s].
  - by eapply register_keeps.
  - by apply presented_keeps.
  - by eapply answer_keeps.
  - by eapply approve_keeps.
  - destruct Hi as [H1 H2 H3 H4 H5]. split; cbn; try done. intros t' j [[<- ?]|[_ Hj]]%lookup_insert_Some; [done|]. exact (H4 t' j Hj).
  - by eapply timeout_keeps.
  - by destruct Hi as [H1 H2 H3 H4 H5]; split.
  - by apply prune_keeps.
Qed.

Lemma reachable_invariant s : reachable s -> invariant s.
Proof.
  intros [content H]. remember (start content) as s0 eqn:E. assert (invariant s0) as Hi.
  { subst. split; cbn; try done. }
  clear E. induction H as [|s0 s1 s2 Hs _ IH]; [done|]. by apply IH, (step_keeps s0).
Qed.

(** ** What holds *)
Lemma apply_plan_facts r cur next : apply_plan r cur = Some next ->
  (exists old, LookupPath decode cur (path r) = inr old /\ DeepEqual_opt old (oldValue r) = true)
  /\ (exists want, VerifyPathEdit decode cur next (path r) want (match op r with OpSet => false | OpUnset => true end) = None
       /\ (op r = OpSet -> DecodeTOMLValue decode (value r) = Some want))
  /\ CheckContent next = true.
Proof.
  unfold apply_plan. intros H. destruct (LookupPath _ _ _) as [|old]; [done|]. destruct (DeepEqual_opt _ _) eqn:Ed; [|done]. cbn in H.
  destruct (plan _ _ _ _) as [|n] eqn:Ep; [done|]. destruct (CheckContent n) eqn:Ec; [|done]. injection H as ->.
  split_and!; [by exists old| |done]. destruct (op r); cbn in Ep.
  - apply PlanSetPath_verified in Ep as (want & ? & ?). by exists want.
  - apply PlanUnsetPath_verified in Ep. by exists None.
Qed.

(** C21: nothing is written without the user's approval, and what is written is
    what was shown.  For any interleaving of requests, answers, timeouts and other
    writers of the file, every content the service wrote belongs to a request the
    user approved; in the content it was made from, the path read the old value of
    the prompt; in the new content it reads the requested value (or is unset), every
    path apart from it reads as before, and the config check passes. *)
Theorem writes_approved s w : reachable s -> w ∈ log s ->
  exists r, reqs s !! w_id w = Some r /\ choice r = Some true
    /\ (exists old, LookupPath decode (w_read w) (path r) = inr old /\ DeepEqual_opt old (oldValue r) = true)
    /\ match op r with
       | OpSet => exists want got, DecodeTOMLValue decode (value r) = Some want
                    /\ LookupPath decode (w_next w) (path r) = inr (Some got) /\ DeepEqual_opt (Some got) want = true
       | OpUnset => LookupPath decode (w_next w) (path r) = inr None
       end
    /\ (forall q, apart (path r) q = true ->
          same_reading (LookupPath decode (w_read w) q) (LookupPath decode (w_next w) q) = true)
    /\ CheckContent (w_next w) = true.
Proof.
  intros Hi%reachable_invariant Hw. pose proof (i_planned _ Hi) as Hp. rewrite Forall_forall in Hp.
  destruct (Hp w Hw) as (r & Hr & Hc & (Ho & (want & Hv & Hd) & Hk)%apply_plan_facts). exists r.
  apply verify_spec in Hv as [(got & Hg & Hgot) Hq]. split_and!; try done. destruct (op r).
  - destruct Hgot as [[v ->] He]. exists want, v. split_and!; [by apply Hd|done|done].
  - by rewrite Hg, Hgot.
Qed.

Lemma resolve_final id o now s j r : reqs s !! j = Some r -> outcome r <> Pending ->
  exists r', reqs (resolve id o now s) !! j = Some r' /\ outcome r' = outcome r.
Proof.
  intros Hr Ho. unfold resolve. destruct (reqs s !! id) as [q|] eqn:Eq; [|eauto]. destruct (pending q) eqn:Ep; [|eauto].
  cbn. rewrite lookup_insert_ne; [eauto|]. intros <-. rewrite Hr in Eq. injection Eq as <-. by apply bool_decide_eq_true in Ep.
Qed.

Lemma step_final s s' id r : invariant s -> step s s' -> reqs s !! id = Some r -> outcome r <> Pending ->
  exists r', reqs s' !! id = Some r' /\ outcome r' = outcome r.
Proof.
  intros Hi Hs Hr Ho. destruct Hs as [sub q s|j ok now s|j q b now s Hq Hc|now ok left j x s s' Hx Hl H|j q t s Hq Hp Ht|now t [j []] s s' Hx H|content s|now s].
  - cbn. rewrite lookup_insert_ne; [eauto|]. intros E. by rewrite <- E, (i_fresh _ Hi) in Hr by lia.
  - unfold presented. destruct ok; [cbn; eauto|]. by apply resolve_final.
  - unfold answer. rewrite Hq. set (s0 := set_reqs _ s).
    assert (exists r0, reqs s0 !! id = Some r0 /\ outcome r0 = outcome r) as (r0 & Hr0 & Eo).
    { cbn. destruct (decide (j = id)) as [->|Hn]; [|rewrite lookup_insert_ne by done; eauto].
      rewrite lookup_insert_eq. rewrite Hq in Hr. injection Hr as ->. eauto. }
    destruct (negb _); [eauto|]. destruct b; [eauto|]. rewrite <- Eo. apply resolve_final; [done|congruence].
  - destruct x as [| | |cur next|o]; cbn in H.
    + destruct (writeMu s); [done|]. injection H as <-. eauto.
    + case_match; injection H as <-; eauto.
    + case_match; injection H as <-; eauto.
    + injection H as <-. eauto.
    + injection H as <-. by apply resolve_final.
  - eauto.
  - injection H as <-. by apply resolve_final.
  - cbn in H. destruct (writeMu s); [done|]. injection H as <-. eauto.
  - eauto.
  - cbn. rewrite lookup_fmap, Hr. eexists. split; [reflexivity|]. by destruct (forgotten now r).
Qed.

(** C23: outcomes are final and mean what they say: at most one write is made for
    a request; an applied one has its write, a denied or timed-out one has none,
    now and ever after, nor has one nobody approved; and a request that has its
    write and no approval running is not pending. *)
Theorem outcomes_true s id r : reachable s -> reqs s !! id = Some r ->
  writes id s <= 1
  /\ (outcome r = Applied -> writes id s = 1)
  /\ (choice r <> Some true -> writes id s = 0)
  /\ (writes id s = 1 -> approvals s !! id = None -> outcome r = Applied \/ outcome r = Failed)
  /\ forall s', rtc step s s' -> outcome r <> Pending ->
       (exists r', reqs s' !! id = Some r' /\ outcome r' = outcome r)
       /\ (outcome r = Denied \/ outcome r = TimedOut -> writes id s' = 0).
Proof.
  intros Hi%reachable_invariant Hr.
  assert (forall s, invariant s -> forall r, reqs s !! id = Some r -> legal (Some r) (approvals s !! id) (writes id s)) as L.
  { intros s0 H0 r0 Hr0. rewrite <- Hr0. apply (i_legal _ H0). }
  pose proof (L s Hi r Hr) as Hl. split_and!.
  1-4: cbn in Hl; destruct (approvals s !! id) as [[| | |? ?|[]]|]; intuition (congruence || lia).
  intros s' Hs Ho. assert (invariant s' /\ exists r', reqs s' !! id = Some r' /\ outcome r' = outcome r) as (Hi' & r' & Hr' & Eo).
  { clear Hl. revert r Hr Ho. induction Hs as [s|s s1 s2 Hs _ IH]; intros r Hr Ho; [eauto|].
    destruct (step_final _ _ _ _ Hi Hs Hr Ho) as (r1 & Hr1 & E1). rewrite <- E1.
    apply (IH (step_keeps _ _ Hi Hs) r1 Hr1). congruence. }
  split; [eauto|]. intros Hd. pose proof (L s' Hi' r' Hr') as Hl'. cbn in Hl'.
  destruct (approvals s' !! id) as [[| | |? ?|[]]|]; rewrite ?Eo in Hl'; intuition (congruence || lia).
Qed.
End Approve.

(** ** Runs *)
Definition always_ok (_ : gostr) : bool := true.
Definition demo : gostr -> option table := demo_decode docs.

Inductive event :=
| Submit (sub : Submission)
| Present (id : nat) (ok : bool)
| Answer (id : nat) (approve : bool)
| Approve (id : nat) (ok : bool)
| Expire (id t : nat)
| Timeout (t : nat)
| Other (content : gostr).

Definition run_event (s : Service) (e : event) : option Service :=
  match e with
  | Submit sub => r ← validate demo id always_ok sub (file s); Some (register r s)
  | Present i ok => if bool_decide (i ∈ presenting s) then Some (presented i ok 0 s) else None
  | Answer i b => r ← reqs s !! i; if bool_decide (choice r = None) then Some (answer i b 0 s) else None
  | Approve i ok => x ← approvals s !! i; approve_step demo id always_ok 0 ok (file s) i x s
  | Expire i t => r ← reqs s !! i;
      if listed r && bool_decide (timeouts s !! t = None) then Some (set_timeouts (<[ t := (i, false) ]> (timeouts s)) s) else None
  | Timeout t => x ← timeouts s !! t; timeout_step 0 t x s
  | Other content => Some (MkService content (reqs s) (presenting s) (approvals s) (timeouts s) (writeMu s) (log s) (issued s))
  end.

Fixpoint run (s : Service) (es : list event) : option Service :=
  match es with [] => Some s | e :: es => s ← run_event s e; run s es end.

Lemma run_event_step s e s' : run_event s e = Some s' -> step demo id always_ok s s'.
Proof.
  destruct e as [sub|i ok|i b|i ok|i t|t|content]; cbn [run_event]; intros H.
  - destruct (validate _ _ _ _ _) eqn:E; [|done]. injection H as <-. by eapply step_submit.
  - case_bool_decide; [|done]. injection H as <-. by apply step_present.
  - destruct (reqs s !! i) as [r|] eqn:E; [|done]. cbn in H. case_bool_decide; [|done]. injection H as <-. by eapply step_answer.
  - destruct (approvals s !! i) as [x|] eqn:E; [|done]. eapply step_approve; [exact E| |exact H]. destruct x; cbn; auto.
  - destruct (reqs s !! i) as [r|] eqn:E; [|done]. cbn in H. destruct (listed r) eqn:El; [|done]. case_bool_decide; [|done].
    injection H as <-. by eapply step_expire.
  - destruct (timeouts s !! t) as [x|] eqn:E; [|done]. by eapply step_timeout.
  - injection H as <-. apply step_other.
Qed.

Lemma run_steps s es s' : run s es = Some s' -> rtc (step demo id always_ok) s s'.
Proof.
  revert s. induction es as [|e es IH]; intros s H; [by injection H as ->|]. cbn in H.
  destruct (run_event s e) eqn:E; [|done]. eapply rtc_l; [by eapply run_event_step|by apply IH].
Qed.

(** A run from the file without the key, and a test of its end. *)
Definition ends (es : list event) (test : Service -> bool) : bool :=
  match run (start bare_file) es with Some s => test s | None => false end.

Lemma run_reached es test : ends es test = true -> exists s, reachable demo id always_ok s /\ test s = true.
Proof.
  unfold ends. destruct (run _ es) as [s|] eqn:E; [|done]. intros H. exists s. split; [|done]. exists bare_file. by eapply run_steps.
Qed.

Definition ask : Submission := MkSubmission OpSet "agents[main].nudge.enable" "true".
Definition approve_all : list event := [Approve 0 true; Approve 0 true; Approve 0 true; Approve 0 true; Approve 0 true].
Definition outcome_is (o : Outcome) (s : Service) : bool := bool_decide (outcome <$> reqs s !! 0 = Some o).

Example approval_writes :
  ends ([Submit ask; Present 0 true; Answer 0 true] ++ approve_all)
    (fun s => outcome_is Applied s && bool_decide (file s = nudged_file) && (writes 0 s =? 1)) = true.
Proof. vm_compute. reflexivity. Qed.

Lemma writes_approved_witness : exists s r, reqs s !! 0 = Some r /\ choice r = Some true.
Proof.
  destruct (run_reached ([Submit ask; Present 0 true; Answer 0 true] ++ approve_all)
              (fun s => match log s with w :: _ => w_id w =? 0 | [] => false end)) as (s & Hs & Ht); [vm_compute; reflexivity|].
  destruct (log s) as [|w l] eqn:El; [done|]. apply Nat.eqb_eq in Ht.
  destruct (writes_approved demo id always_ok s w Hs) as (r & Hr & Hc & _); [rewrite El; by left|].
  exists s, r. by rewrite <- Ht.
Defined.

Lemma outcomes_true_witness : exists s, writes 0 s = 0.
Proof.
  destruct (run_reached [Submit ask; Present 0 true; Expire 0 7; Timeout 7; Timeout 7] (outcome_is TimedOut)) as (s & Hs & Ht); [vm_compute; reflexivity|].
  apply bool_decide_eq_true in Ht. destruct (reqs s !! 0) as [r|] eqn:Er; [|done]. injection Ht as Ho.
  destruct (outcomes_true demo id always_ok s 0 r Hs Er) as (_ & _ & _ & _ & Hf). exists s.
  apply (Hf s); [reflexivity|congruence|by right].
Defined.

(** An approval races with the error of the send that showed the prompt: the
    change is written and the request ends as failed. *)
Example written_but_failed :
  exists s, reachable demo id always_ok s /\ outcome_is Failed s = true /\ file s = nudged_file /\ approvals s = ∅.
Proof.
  destruct (run_reached ([Submit ask; Answer 0 true; Approve 0 true; Approve 0 true; Approve 0 true; Present 0 false; Approve 0 true; Approve 0 true])
    (fun s => outcome_is Failed s && bool_decide (file s = nudged_file) && bool_decide (approvals s = ∅))) as (s & Hs & Ht); [vm_compute; reflexivity|].
  apply andb_true_iff in Ht as [Ht Ha%bool_decide_eq_true]. apply andb_true_iff in Ht as [Ho Hf%bool_decide_eq_true]. by exists s.
Qed.

(** An edit another writer makes between the reading and the write is lost: the
    editor of the app holds another lock. *)
Example other_edit_lost :
  exists s, reachable demo id always_ok s /\ outcome_is Applied s = true /\ file s = nudged_file
    /\ exists w, w ∈ log s /\ w_before w = "gone"%gs.
Proof.
  destruct (run_reached ([Submit ask; Present 0 true; Answer 0 true; Approve 0 true; Approve 0 true; Approve 0 true; Other "gone"%gs; Approve 0 true; Approve 0 true])
    (fun s => outcome_is Applied s && bool_decide (file s = nudged_file)
              && match log s with w :: _ => bool_decide (w_before w = "gone"%gs) | [] => false end)) as (s & Hs & Ht); [vm_compute; reflexivity|].
  apply andb_true_iff in Ht as [Ht Hw]. apply andb_true_iff in Ht as [Ho Hf%bool_decide_eq_true]. exists s. split_and!; try done.
  destruct (log s) as [|w l] eqn:El; [done|]. exists w. split; [by left|by apply bool_decide_eq_true in Hw].
Qed.
