(* ===== verification/Pricing.v ===== *)
(** * Token classes and prices ([internal/modelinfo/classes.go], [modelinfo.go])

    The vocabulary of billable classes and the one pricing function.  The table of
    dated rates itself, and how a model's name is matched against it, are the
    class [Prices]: what is proved holds for every table. *)
From stdpp Require Import fin_maps gmap.
From S2P Require Import Prelude GoStrings GoNum.
Local Open Scope gostr_scope.
Local Open Scope Z_scope.

(** ** Classes *)
Abbreviation TokenClass := gostr.

Definition ClassInput : TokenClass := "input".
Definition ClassOutput : TokenClass := "output".
Definition ClassCacheRead : TokenClass := "cache_read".
Definition ClassCacheWrite5m : TokenClass := "cache_write_5m".
Definition ClassCacheWrite1h : TokenClass := "cache_write_1h".
Definition ClassCacheWrite : TokenClass := "cache_write".
Definition ClassReasoning : TokenClass := "reasoning".
Definition ClassWebSearch : TokenClass := "web_search".
Definition ClassWebFetch : TokenClass := "web_fetch".

Inductive Unit_ := UnitMTok | UnitEach.

Definition PerUnits (u : Unit_) : float64 := match u with UnitMTok => f_of_Z 1000000 | UnitEach => f_of_Z 1 end.

Record classInfo := MkClassInfo { class_unit : Unit_; context : bool }.

Definition vocabulary : list (gostr * classInfo) :=
  [(ClassInput, MkClassInfo UnitMTok true); (ClassOutput, MkClassInfo UnitMTok false);
   (ClassCacheRead, MkClassInfo UnitMTok true); (ClassCacheWrite5m, MkClassInfo UnitMTok true);
   (ClassCacheWrite1h, MkClassInfo UnitMTok true); (ClassCacheWrite, MkClassInfo UnitMTok true);
   (ClassReasoning, MkClassInfo UnitMTok false); (ClassWebSearch, MkClassInfo UnitEach false);
   (ClassWebFetch, MkClassInfo UnitEach false)].

Definition ClassUnit (c : TokenClass) : option Unit_ := class_unit <$> table_get vocabulary c.
Definition InContext (c : TokenClass) : bool := match table_get vocabulary c with Some i => context i | None => false end.

(** ** Counts *)
Abbreviation Tokens := (gmap gostr Z).

Definition count (t : Tokens) (c : TokenClass) : Z := default 0 (t !! c).

(** [t[c] += n]. *)
Definition add_count (c : TokenClass) (n : Z) (t : Tokens) : Tokens := <[ c := count t c + n ]> t.

(** The sum of the counts of the classes [f] selects. *)
Definition sum_classes (f : TokenClass -> bool) (t : Tokens) : Z :=
  map_fold (fun c n acc => if f c then n + acc else acc) 0 t.

Definition PromptTokens (t : Tokens) : Z := sum_classes InContext t.

Definition NonZero (t : Tokens) : Tokens := filter (fun cn => cn.2 <> 0) t.

Definition billed (t : Tokens) : bool := existsb (fun cn => negb (cn.2 =? 0)) (map_to_list t).

(** [slices.Sorted(maps.Keys(m))]. *)
Definition sorted_keys {V} (m : gmap gostr V) : list gostr := sort_strings (map_to_list m).*1.

(** ** Prices *)
Class Prices := {
  (** The rate group of a model at a time, for a prompt size. *)
  ResolveRateModel : gostr -> Time -> Z -> option gostr;
  (** The rates of a group at a time. *)
  RatesAsOf : gostr -> Time -> option (gmap gostr float64);
}.

Definition price_class (rates : gmap gostr float64) (t : Tokens) (acc : float64 * bool) (c : TokenClass) : float64 * bool :=
  let n := count t c in
  if n =? 0 then acc
  else match ClassUnit c, rates !! c with
       | Some u, Some rate => (f_add acc.1 (f_mul (f_div (f_of_Z n) (PerUnits u)) rate), acc.2)
       | _, _ => (acc.1, false)
       end.

Definition priceTokens (rates : gmap gostr float64) (t : Tokens) : float64 * bool :=
  foldl (price_class rates t) (f_of_Z 0, true) (sorted_keys t).

Definition CostAsOfPrompt `{PR : Prices} (model : gostr) (at_ : Time) (t : Tokens) (prompt : Z) : float64 * bool :=
  if negb (billed t) then (f_of_Z 0, true)
  else match ResolveRateModel model at_ prompt with
       | None => (f_of_Z 0, false)
       | Some g => priceTokens (default ∅ (RatesAsOf g at_)) t
       end.

Definition CostAsOf `{PR : Prices} (model : gostr) (at_ : Time) (t : Tokens) : float64 * bool :=
  CostAsOfPrompt model at_ t (PromptTokens t).

(** ** Counts, read class by class *)
Lemma count_empty c : count ∅ c = 0.
Proof. unfold count. by rewrite lookup_empty. Qed.

Lemma count_insert t c n d : count (<[ c := n ]> t) d = if decide (c = d) then n else count t d.
Proof. unfold count. case_decide as E; [subst; by rewrite lookup_insert_eq|by rewrite lookup_insert_ne]. Qed.

Lemma count_delete t c d : count (delete c t) d = if decide (c = d) then 0 else count t d.
Proof. unfold count. case_decide as E; [subst; by rewrite lookup_delete_eq|by rewrite lookup_delete_ne]. Qed.

Lemma count_add c n t d : count (add_count c n t) d = count t d + (if decide (c = d) then n else 0).
Proof. unfold add_count. rewrite count_insert. case_decide as E; [by subst|lia]. Qed.

Lemma count_NonZero t c : count (NonZero t) c = count t c.
Proof.
  unfold count, NonZero. destruct (t !! c) as [n|] eqn:E.
  - destruct (decide (n = 0)) as [->|Hn].
    + rewrite map_lookup_filter_None_2; [done|]. right. intros m Hm. rewrite E in Hm. injection Hm as <-. by intros [].
    + by rewrite (map_lookup_filter_Some_2 _ _ _ n).
  - rewrite map_lookup_filter_None_2; [done|by left].
Qed.

Lemma sorted_keys_elem {V} (m : gmap gostr V) k : k ∈ sorted_keys m <-> is_Some (m !! k).
Proof.
  unfold sorted_keys. rewrite sort_strings_perm, list_elem_of_fmap. split.
  - intros ([k' v] & -> & H%elem_of_map_to_list). by exists v.
  - intros [v H]. exists (k, v). split; [done|by apply elem_of_map_to_list].
Qed.

Lemma sorted_keys_once {V} (m : gmap gostr V) : NoDup (sorted_keys m).
Proof. unfold sorted_keys. rewrite sort_strings_perm. apply NoDup_fst_map_to_list. Qed.

Lemma billed_spec t : billed t = true <-> exists c, count t c <> 0.
Proof.
  unfold billed. rewrite existsb_elem. split.
  - intros ([c n] & H%elem_of_map_to_list & Hn). exists c. unfold count. rewrite H. cbn in *. by destruct (Z.eqb_spec n 0).
  - intros [c Hc]. unfold count in Hc. destruct (t !! c) as [n|] eqn:E; [|done]. exists (c, n).
    split; [by apply elem_of_map_to_list|]. cbn in *. by apply negb_true_iff, Z.eqb_neq.
Qed.

Lemma billed_false t c : billed t = false -> count t c = 0.
Proof.
  intros H. destruct (Z.eq_dec (count t c) 0) as [|Hn]; [done|].
  enough (billed t = true) by congruence. apply billed_spec. by exists c.
Qed.

(** ** A price *)
Lemma price_fold rates t l acc :
  snd (foldl (price_class rates t) acc l) = true
  <-> acc.2 = true /\ forall c, c ∈ l -> count t c <> 0 -> is_Some (ClassUnit c) /\ is_Some (rates !! c).
Proof.
  revert acc. induction l as [|c l IH]; intros acc; cbn [foldl]; [split; [intros H; split; [done|by intros ? ?%elem_of_nil]|by intros []]|].
  rewrite IH. unfold price_class. setoid_rewrite elem_of_cons. destruct (Z.eqb_spec (count t c) 0) as [E|E].
  - split; intros [Ha Hl]; (split; [done|]); intros d Hd Hc; apply Hl; [naive_solver|done|by right|done].
  - destruct (ClassUnit c) as [u|] eqn:Eu; [destruct (rates !! c) as [r|] eqn:Er|]; cbn [fst snd].
    + split; intros [Ha Hl]; (split; [done|]); intros d Hd Hc; [destruct Hd as [Hd|Hd]; [rewrite Hd, Eu, Er; split; by eexists|by apply Hl]|apply Hl; [by right|done]].
    + split; [by intros []|]. intros [_ Hl]. destruct (Hl c (or_introl eq_refl) E) as [_ []]. congruence.
    + split; [by intros []|]. intros [_ Hl]. destruct (Hl c (or_introl eq_refl) E) as [[] _]. congruence.
Qed.

(** Counts are priced exactly when every class with a count has a unit and a rate. *)
Lemma priced_spec rates t :
  snd (priceTokens rates t) = true <-> forall c, count t c <> 0 -> is_Some (ClassUnit c) /\ is_Some (rates !! c).
Proof.
  unfold priceTokens. rewrite price_fold. cbn. split.
  - intros [_ H] c Hc. apply H; [|done]. apply sorted_keys_elem. unfold count in Hc. by destruct (t !! c).
  - intros H. split; [done|]. intros c _. apply H.
Qed.
