(* ===== verification/CostLedger.v ===== *)
(** * The cost ledger ([internal/delegator/accounting/ledger.go], [live.go])

    The ledger's tables as records, and each statement as an operation on them:
    booking a call once, upserting a turn, storing a report, opening and closing
    a turn's activity.  A transaction returns the new state or rolls back. *)
From stdpp Require Import fin_maps gmap.
From S2P Require Import Prelude GoStrings GoNum Pricing.
Local Open Scope gostr_scope.
Local Open Scope Z_scope.

(** ** Names *)
Definition BackendCCStream : gostr := "ccstream".
Definition KindCall : gostr := "call".
Definition KindCompaction : gostr := "compaction".
Definition KindOverhead : gostr := "overhead".
Definition KindLegacy : gostr := "legacy".
Definition FinalityCompleted : gostr := "completed".
Definition FinalityStopless : gostr := "stopless".
Definition FinalityInterrupted : gostr := "interrupted".
Definition FinalityDerived : gostr := "derived".
Definition FinalityLegacy : gostr := "legacy".
Definition CostBasisCounts : gostr := "counts".
Definition CostBasisRecorded : gostr := "recorded".
Definition ClassMethodObserved : gostr := "observed".
Definition ClassMethodSolved : gostr := "solved".
Definition ClassMethodUnknown : gostr := "unknown".
Definition SourceUser : gostr := "user".
Definition SourceAutonomous : gostr := "autonomous".
Definition SourceCompaction : gostr := "compaction".
Definition GrainCumulative : gostr := "cumulative".
Definition GrainPerCall : gostr := "per_call".
Definition NoSession : gostr := "(none)".

Definition InvSameIDDifferentUsage : gostr := "invSameIDDifferentUsage".
Definition InvClassNoRate : gostr := "invClassNoRate".
Definition InvModelNotInTable : gostr := "invModelNotInTable".
Definition InvNegativeRemainder : gostr := "invNegativeRemainder".
Definition InvStreamIdBooked : gostr := "invStreamIdBooked".
Definition InvRemainderTTLUnsolved : gostr := "invRemainderTTLUnsolved".
Definition InvCostDivergence : gostr := "invCostDivergence".
Definition InvOverheadBounded : gostr := "invOverheadBounded".
Definition InvUnseenField : gostr := "invUnseenField".
Definition InvMainTranscriptFinal : gostr := "invMainTranscriptFinal".

(** ** Data *)

(** The values the callers put under a detail's keys. *)
Inductive detail_value := DStr (s : gostr) | DInt (z : Z) | DBool (b : bool) | DFloat (f : float64).
#[export] Instance spec_float_eq_dec : EqDecision float64.
Proof. solve_decision. Defined.
#[export] Instance detail_value_eq_dec : EqDecision detail_value.
Proof. solve_decision. Defined.

Record Call := MkCall {
  c_Key : gostr;
  c_Backend : gostr; c_Provider : gostr; c_Model : gostr;
  c_Session : gostr; c_AgentID : gostr; c_TurnID : gostr; c_Actor : gostr;
  c_Kind : gostr; c_Finality : gostr; c_ClassMethod : gostr;
  c_BilledAt : Time;
  c_Tokens : Tokens;
  c_StopReason : gostr; c_SessionFile : gostr; c_SessionLine : Z;
  c_Detail : gmap gostr detail_value;
  c_LegacyID : Z; c_LegacyCost : option float64; c_CostBasis : gostr
}.

Record Report := MkReport {
  r_Backend : gostr; r_Session : gostr; r_ScopeKey : gostr; r_Model : gostr; r_Grain : gostr;
  r_At : Time; r_CostUSD : option float64; r_Tokens : Tokens
}.

Record Turn := MkTurn {
  t_TurnID : gostr; t_Session : gostr; t_AgentID : gostr; t_Backend : gostr; t_Source : gostr; t_Purpose : gostr;
  t_StartedAt : Time; t_EndedAt : Time; t_AskCycles : Z; t_StopReason : gostr; t_FinalModel : gostr;
  t_ActivityClosedAt : Time; t_Legacy : option (Z * Z * Z * Z)
}.

(** The text of an alarm is not kept. *)
Record Alarm := MkAlarm { Invariant : gostr; a_Backend : gostr; Version : gostr; Warn : bool }.

(** Rows: an absent value is [NULL]. *)
Record call_row := MkCallRow { row_id : Z; row_call : Call; rate_model : option gostr; row_tokens : Tokens }.

Record turn_row := MkTurnRow {
  tr_session : gostr; tr_agent : option gostr; tr_backend : gostr; tr_source : gostr; tr_purpose : option gostr;
  tr_started : Time; tr_ended : option Time; tr_cycles : option Z; tr_stop : option gostr; tr_model : option gostr;
  tr_closed : option Time; tr_legacy : option (Z * Z * Z * Z)
}.

Record DB := MkDB { api_calls : list call_row; last_id : Z; turns : gmap gostr turn_row; backend_reports : list Report }.

(** What the observers of a booking are handed. *)
Record Booking := MkBooking { b_call : Call; b_id : Z; b_cost : option float64; b_purpose : gostr; b_source : gostr; b_fill : Z }.

Record Ledger := MkLedger { db : DB; alarmed : list Alarm; observed : list Booking; unseen : gset gostr }.

Record Tx := MkTx { tx_db : DB; tx_alarms : list Alarm; tx_booked : list Booking }.

Record Booked := MkBooked { booked_id : Z; Duplicate : bool }.

Definition nullIfEmpty (s : gostr) : option gostr := if bool_decide (s = []) then None else Some s.
Definition nullIfZero (n : Z) : option Z := if n =? 0 then None else Some n.
Definition nullTime (t : Time) : option Time := if IsZero t then None else Some t.

(** ** What a call must be *)
Definition empty_str (s : gostr) : bool := bool_decide (s = []).
Definition same (s t : gostr) : bool := bool_decide (s = t).

Definition basis (c : Call) : gostr := if empty_str (c_CostBasis c) then CostBasisCounts else c_CostBasis c.

Definition validate (c : Call) : bool :=
  negb (IsZero (c_BilledAt c))
  && negb (empty_str (c_Backend c) || empty_str (c_Session c) || empty_str (c_Kind c) || empty_str (c_Finality c) || empty_str (c_ClassMethod c))
  && Bool.eqb (same (c_Kind c) KindLegacy) (empty_str (c_Key c))
  && Bool.eqb (same (c_Kind c) KindOverhead) (empty_str (c_TurnID c))
  && negb ((negb (c_LegacyID c =? 0) || bool_decide (is_Some (c_LegacyCost c))) && negb (same (c_Kind c) KindLegacy))
  && (same (basis c) CostBasisCounts
      || same (basis c) CostBasisRecorded && same (c_Kind c) KindLegacy && bool_decide (is_Some (c_LegacyCost c)))
  && forallb (fun cn => 0 <=? cn.2) (map_to_list (c_Tokens c)).

(** The [CHECK] constraints of [api_calls]; a row that breaks one is ignored. *)
Definition backends : list gostr := ["ccstream"; "codex"; "opencode"; "api"]%gs.
Definition sources : list gostr := ["user"; "autonomous"; "keepalive"; "compaction"; "batch"; "system"]%gs.

Definition call_checks (c : Call) : bool :=
  in_table backends (c_Backend c)
  && in_table ["call"; "compaction"; "overhead"; "summary"; "spawn"; "legacy"]%gs (c_Kind c)
  && in_table ["completed"; "stopless"; "interrupted"; "derived"; "legacy"]%gs (c_Finality c)
  && in_table ["observed"; "backend_rule"; "solved"; "kind"; "unknown"]%gs (c_ClassMethod c)
  && in_table ["counts"; "recorded"]%gs (basis c)
  && Bool.eqb (same (c_Kind c) KindLegacy) (empty_str (c_Key c))
  && Bool.eqb (same (c_Kind c) KindLegacy) (same (c_Finality c) FinalityLegacy)
  && Bool.eqb (same (c_Kind c) KindOverhead) (empty_str (c_TurnID c))
  && (negb (bool_decide (is_Some (c_LegacyCost c))) || same (c_Kind c) KindLegacy)
  && (same (basis c) CostBasisCounts || same (c_Kind c) KindLegacy && bool_decide (is_Some (c_LegacyCost c))).

(** ** Prices of a booked call *)
Definition PricingPrompt (c : Call) : Z :=
  if same (c_Finality c) FinalityDerived || same (c_Kind c) KindLegacy then 0 else PromptTokens (c_Tokens c).

Definition fill (c : Call) : Z := sum_classes InContext (c_Tokens c).

Section Ledger.
Context `{PR : Prices}.

Definition cost (c : Call) : option float64 :=
  if same (basis c) CostBasisRecorded then c_LegacyCost c
  else if empty_str (c_Model c) then (if billed (c_Tokens c) then None else Some (f_of_Z 0))
  else let p := CostAsOfPrompt (c_Model c) (c_BilledAt c) (c_Tokens c) (PricingPrompt c) in
       if p.2 then Some p.1 else None.

(** ** Booking a call *)
Definition checkPriced (c : Call) (rm : option gostr) : list Alarm :=
  if negb (billed (c_Tokens c)) then []
  else match rm with
       | None => [MkAlarm InvModelNotInTable (c_Backend c) [] false]
       | Some g =>
           omap (fun k => if count (c_Tokens c) k =? 0 then None
                          else match ClassUnit k, default ∅ (RatesAsOf g (c_BilledAt c)) !! k with
                               | Some _, Some _ => None
                               | _, _ => Some (MkAlarm InvClassNoRate (c_Backend c) [] false)
                               end) (sorted_keys (c_Tokens c))
       end.

(** The row of a call booked under [(backend, key)]. *)
Definition has_key (backend key : gostr) (r : call_row) : bool :=
  negb (empty_str (c_Key (row_call r))) && same (c_Backend (row_call r)) backend && same (c_Key (row_call r)) key.

Definition find_key (backend key : gostr) (d : DB) : option call_row :=
  match filter (fun r => has_key backend key r = true) (api_calls d) with r :: _ => Some r | [] => None end.

Definition duplicate (c : Call) (tx : Tx) : option (Tx * Booked) :=
  match find_key (c_Backend c) (c_Key c) (tx_db tx) with
  | None => None
  | Some r =>
      let differ := negb (bool_decide (row_tokens r = NonZero (c_Tokens c))) in
      Some (MkTx (tx_db tx) (tx_alarms tx ++ if differ then [MkAlarm InvSameIDDifferentUsage (c_Backend c) [] false] else []) (tx_booked tx),
            MkBooked (row_id r) true)
  end.

(** A unique key taken, or a check broken: the insert is ignored. *)
Definition ignored (c : Call) (d : DB) : bool :=
  negb (call_checks c)
  || bool_decide (is_Some (find_key (c_Backend c) (c_Key c) d))
  || (0 <? c_LegacyID c) && existsb (fun r => row_id r =? c_LegacyID c) (api_calls d).

Definition booking (c : Call) (id : Z) (d : DB) : option Booking :=
  if empty_str (c_TurnID c) then Some (MkBooking c id (cost c) [] [] (fill c))
  else match turns d !! c_TurnID c with
       | None => None
       | Some t =>
           let f := if same (c_Kind c) KindLegacy
                    then (if empty_str (c_Actor c) then match tr_legacy t with Some (li, _, lr, lw) => li + lr + lw | None => 0 end else 0)
                    else fill c in
           Some (MkBooking c id (cost c) (default [] (tr_purpose t)) (tr_source t) f)
       end.

Definition Book (c : Call) (tx : Tx) : option (Tx * Booked) :=
  if negb (validate c) then None
  else
    let rm := if empty_str (c_Model c) then None else ResolveRateModel (c_Model c) (c_BilledAt c) (PricingPrompt c) in
    let d := tx_db tx in
    if ignored c d then duplicate c tx
    else if negb (empty_str (c_TurnID c)) && bool_decide (turns d !! c_TurnID c = None) then None
    else
      let id := if 0 <? c_LegacyID c then c_LegacyID c else last_id d + 1 in
      let d' := MkDB (api_calls d ++ [MkCallRow id c rm (NonZero (c_Tokens c))]) (Z.max id (last_id d)) (turns d) (backend_reports d) in
      let alarms := if same (basis c) CostBasisCounts then checkPriced c rm else [] in
      match booking c id d' with
      | None => None
      | Some b => Some (MkTx d' (tx_alarms tx ++ alarms) (tx_booked tx ++ [b]), MkBooked id false)
      end.

(** ** Turns and reports *)
Definition RecordTurn (t : Turn) (tx : Tx) : option Tx :=
  if empty_str (t_TurnID t) || empty_str (t_Session t) || empty_str (t_Backend t) || empty_str (t_Source t) || IsZero (t_StartedAt t)
     || negb (in_table backends (t_Backend t)) || negb (in_table sources (t_Source t)) then None
  else
    let d := tx_db tx in
    let row := match turns d !! t_TurnID t with
               | None => MkTurnRow (t_Session t) (nullIfEmpty (t_AgentID t)) (t_Backend t) (t_Source t) (nullIfEmpty (t_Purpose t))
                           (t_StartedAt t) (nullTime (t_EndedAt t)) (nullIfZero (t_AskCycles t)) (nullIfEmpty (t_StopReason t))
                           (nullIfEmpty (t_FinalModel t)) (nullTime (t_ActivityClosedAt t)) (t_Legacy t)
               | Some o => MkTurnRow (tr_session o) (nullIfEmpty (t_AgentID t) ∪ tr_agent o) (tr_backend o) (tr_source o)
                             (nullIfEmpty (t_Purpose t) ∪ tr_purpose o) (tr_started o) (nullTime (t_EndedAt t) ∪ tr_ended o)
                             (nullIfZero (t_AskCycles t) ∪ tr_cycles o) (nullIfEmpty (t_StopReason t) ∪ tr_stop o)
                             (nullIfEmpty (t_FinalModel t) ∪ tr_model o) (nullTime (t_ActivityClosedAt t) ∪ tr_closed o)
                             (t_Legacy t ∪ tr_legacy o)
               end in
    Some (MkTx (MkDB (api_calls d) (last_id d) (<[ t_TurnID t := row ]> (turns d)) (backend_reports d)) (tx_alarms tx) (tx_booked tx)).

(** The counts are stored without the zeros. *)
Definition stored_report (r : Report) : Report :=
  MkReport (r_Backend r) (r_Session r) (r_ScopeKey r) (r_Model r) (r_Grain r) (r_At r) (r_CostUSD r) (NonZero (r_Tokens r)).

Definition store_report (r : Report) (tx : Tx) : option Tx :=
  if empty_str (r_Backend r) || empty_str (r_ScopeKey r) || IsZero (r_At r)
     || negb (same (r_Grain r) GrainCumulative || same (r_Grain r) GrainPerCall) || negb (in_table backends (r_Backend r)) then None
  else
    let d := tx_db tx in
    Some (MkTx (MkDB (api_calls d) (last_id d) (turns d) (backend_reports d ++ [stored_report r])) (tx_alarms tx) (tx_booked tx)).

(** ** Transactions *)
Definition Update {A} (f : Tx -> option (Tx * A)) (l : Ledger) : Ledger * option A :=
  match f (MkTx (db l) [] []) with
  | None => (l, None)
  | Some (tx, a) => (MkLedger (tx_db tx) (alarmed l ++ tx_alarms tx) (observed l ++ tx_booked tx) (unseen l), Some a)
  end.

Definition with_session (t : Turn) : Turn :=
  if empty_str (t_Session t)
  then MkTurn (t_TurnID t) NoSession (t_AgentID t) (t_Backend t) (t_Source t) (t_Purpose t) (t_StartedAt t) (t_EndedAt t) (t_AskCycles t)
         (t_StopReason t) (t_FinalModel t) (t_ActivityClosedAt t) (t_Legacy t)
  else t.

(** Overhead has no turn; a replayed message is not a second report of it. *)
Definition upsert (t : Turn) (tx : Tx) : option Tx :=
  if empty_str (t_TurnID t) then Some tx else RecordTurn (with_session t) tx.

Definition with_report (r : option Report) (tx : Tx) (b : Booked) : option Tx :=
  match r with
  | Some r => if Duplicate b then Some tx else store_report r tx
  | None => Some tx
  end.

Definition RecordCall (t : Turn) (c : Call) (r : option Report) (l : Ledger) : Ledger * option Booked :=
  Update (fun tx => tx ← upsert t tx; '(tx, b) ← Book c tx; tx ← with_report r tx b; Some (tx, b)) l.

Definition record_turn (t : Turn) (l : Ledger) : Ledger :=
  fst (Update (fun tx => tx ← RecordTurn t tx; Some (tx, tt)) l).

Definition record_report (r : Report) (l : Ledger) : Ledger :=
  fst (Update (fun tx => tx ← store_report r tx; Some (tx, tt)) l).

Definition set_turns (f : gmap gostr turn_row -> gmap gostr turn_row) (l : Ledger) : Ledger :=
  let d := db l in
  MkLedger (MkDB (api_calls d) (last_id d) (f (turns d)) (backend_reports d)) (alarmed l) (observed l) (unseen l).

Definition with_closed (at_ : option Time) (r : turn_row) : turn_row :=
  MkTurnRow (tr_session r) (tr_agent r) (tr_backend r) (tr_source r) (tr_purpose r) (tr_started r) (tr_ended r) (tr_cycles r) (tr_stop r)
    (tr_model r) at_ (tr_legacy r).

Definition SetTurnActivity (turn : gostr) (closedAt : Time) (l : Ledger) : Ledger :=
  if empty_str turn then l else set_turns (alter (with_closed (nullTime closedAt)) turn) l.

(** The last booking of a turn, by billing time. *)
Definition last_billed (d : DB) (turn : gostr) : option Time :=
  foldr (fun r acc => if same (c_TurnID (row_call r)) turn
                      then Some (match acc with Some t => Z.max t (c_BilledAt (row_call r)) | None => c_BilledAt (row_call r) end)
                      else acc) None (api_calls d).

Definition close_orphan (start : Time) (d : DB) (turn : gostr) (r : turn_row) : turn_row :=
  match tr_closed r with
  | Some _ => r
  | None => if tr_started r <? start then with_closed (last_billed d turn ∪ tr_ended r ∪ Some (tr_started r)) r else r
  end.

Definition CloseOrphanedTurns (start : Time) (l : Ledger) : Ledger :=
  set_turns (map_imap (fun turn r => Some (close_orphan start (db l) turn r))) l.

(** ** Alarms *)
Definition raise_alarm (a : Alarm) (l : Ledger) : Ledger := MkLedger (db l) (alarmed l ++ [a]) (observed l) (unseen l).

Record UnseenKey := MkUnseen { Path : gostr; Value : gostr; Reason : gostr }.

Definition dedupeKey (k : UnseenKey) : gostr := if empty_str (Reason k) then Path k else Path k ++ "=" ++ Value k.

Definition NUL : gostr := ["000"%char].

(** The keys not seen before, and all of them. *)
Definition fresh_keys (adapter : gostr) (keys : list UnseenKey) (seen : gset gostr) : list UnseenKey * gset gostr :=
  foldl (fun acc k => let id := adapter ++ NUL ++ dedupeKey k in
                      if bool_decide (id ∈ acc.2) then acc else (acc.1 ++ [k], {[ id ]} ∪ acc.2)) ([], seen) keys.

Definition AlarmUnseen (backend version adapter : gostr) (keys : list UnseenKey) (l : Ledger) : Ledger :=
  let p := fresh_keys adapter keys (unseen l) in
  let l := MkLedger (db l) (alarmed l) (observed l) p.2 in
  if bool_decide (p.1 = []) then l else raise_alarm (MkAlarm InvUnseenField backend version false) l.
End Ledger.

(** ** What one operation does to the tables *)
Section Effects.
Context `{PR : Prices}.

Definition row_of (c : Call) (d : DB) : call_row :=
  MkCallRow (if 0 <? c_LegacyID c then c_LegacyID c else last_id d + 1) c
    (if empty_str (c_Model c) then None else ResolveRateModel (c_Model c) (c_BilledAt c) (PricingPrompt c)) (NonZero (c_Tokens c)).

Definition with_row (c : Call) (d : DB) : DB :=
  MkDB (api_calls d ++ [row_of c d]) (Z.max (row_id (row_of c d)) (last_id d)) (turns d) (backend_reports d).

Lemma Book_spec c tx tx' b : Book c tx = Some (tx', b) ->
  validate c = true
  /\ ((Duplicate b = true /\ tx_db tx' = tx_db tx /\ exists r, find_key (c_Backend c) (c_Key c) (tx_db tx) = Some r /\ booked_id b = row_id r)
      \/ (Duplicate b = false /\ ignored c (tx_db tx) = false /\ (c_TurnID c <> [] -> is_Some (turns (tx_db tx) !! c_TurnID c))
          /\ tx_db tx' = with_row c (tx_db tx) /\ booked_id b = row_id (row_of c (tx_db tx)))).
Proof.
  unfold Book. destruct (validate c); [|done]. cbn [negb]. intros H. split; [done|]. destruct (ignored c (tx_db tx)) eqn:Ei.
  - left. unfold duplicate in H. destruct (find_key _ _ _) as [r|]; [|done]. injection H as <- <-. by eauto.
  - right. destruct (negb (empty_str (c_TurnID c)) && bool_decide (turns (tx_db tx) !! c_TurnID c = None)) eqn:Ef; [done|].
    destruct (booking _ _ _) as [bk|]; [|done]. injection H as <- <-. split_and!; try done.
    intros Ht. apply andb_false_iff in Ef as [Ef|Ef].
    + unfold empty_str in Ef. rewrite bool_decide_eq_false_2 in Ef by done. done.
    + apply bool_decide_eq_false in Ef. by destruct (turns (tx_db tx) !! c_TurnID c).
Qed.

Lemma RecordTurn_spec t tx tx' : RecordTurn t tx = Some tx' ->
  exists row, t_TurnID t <> [] /\ t_Session t <> [] /\ tx_db tx' = MkDB (api_calls (tx_db tx)) (last_id (tx_db tx)) (<[ t_TurnID t := row ]> (turns (tx_db tx))) (backend_reports (tx_db tx))
    /\ tr_closed row = nullTime (t_ActivityClosedAt t) ∪ (r ← turns (tx_db tx) !! t_TurnID t; tr_closed r).
Proof.
  unfold RecordTurn. destruct (_ || _) eqn:E; [done|]. intros H0. injection H0 as <-. eexists. cbn [tx_db].
  repeat (apply orb_false_iff in E as [E ?]). unfold empty_str in *.
  split_and!; [by eapply bool_decide_eq_false|by eapply bool_decide_eq_false|reflexivity|].
  destruct (turns (tx_db tx) !! t_TurnID t); cbn; [done|]. by destruct (nullTime _).
Qed.

Lemma store_report_spec r tx tx' : store_report r tx = Some tx' ->
  tx_db tx' = MkDB (api_calls (tx_db tx)) (last_id (tx_db tx)) (turns (tx_db tx)) (backend_reports (tx_db tx) ++ [stored_report r]).
Proof. unfold store_report. destruct (_ || _); [done|]. intros H0. by injection H0 as <-. Qed.

(** The turns after the upsert a call begins with. *)
Definition same_calls (d d' : DB) : Prop := api_calls d' = api_calls d /\ last_id d' = last_id d /\ dom (turns d) ⊆ dom (turns d').

Lemma RecordCall_spec t c r l :
  let d := db l in let d' := db (fst (RecordCall t c r l)) in
  match snd (RecordCall t c r l) with
  | None => fst (RecordCall t c r l) = l
  | Some b =>
      validate c = true
      /\ if Duplicate b then same_calls d d' /\ exists q, find_key (c_Backend c) (c_Key c) d = Some q
         else ignored c d = false /\ api_calls d' = api_calls d ++ [row_of c d] /\ last_id d' = Z.max (row_id (row_of c d)) (last_id d)
              /\ dom (turns d) ⊆ dom (turns d') /\ (c_TurnID c <> [] -> is_Some (turns d' !! c_TurnID c))
  end.
Proof.
  cbn zeta. unfold RecordCall, Update. set (tx0 := MkTx (db l) [] []).
  assert (forall tx, upsert t tx0 = Some tx -> same_calls (db l) (tx_db tx)) as Ht.
  { intros tx. unfold upsert. destruct (empty_str _); intros E; [by injection E as <-|]. apply RecordTurn_spec in E as (row & _ & _ & -> & _).
    split_and!; cbn; [done|done|]. rewrite dom_insert_L. set_solver. }
  destruct (upsert t tx0) as [tx1|]; [|done]. specialize (Ht tx1 eq_refl) as (Ha & Hl & Hd). cbn [mbind option_bind].
  destruct (Book c tx1) as [[tx2 b]|] eqn:EB; [|done]. cbn [mbind option_bind].
  destruct (with_report r tx2 b) as [tx3|] eqn:ER; [|done]. cbn [mbind option_bind fst snd db].
  assert (exists rs, tx_db tx3 = MkDB (api_calls (tx_db tx2)) (last_id (tx_db tx2)) (turns (tx_db tx2)) rs) as [rs E3].
  { unfold with_report in ER. destruct r as [r|]; [destruct (Duplicate b)|]; [| |]; try (injection ER as <-; exists (backend_reports (tx_db tx2)); by destruct (tx_db tx2)).
    apply store_report_spec in ER. rewrite ER. eauto. }
  rewrite E3. apply Book_spec in EB as [Hv [(-> & E2 & q & Hq & _)|(-> & Hi & Hf & E2 & _)]]; (split; [done|]); rewrite E2.
  - split; [by split_and!|]. exists q. rewrite <- Hq. unfold find_key. by rewrite Ha.
  - unfold with_row, row_of, ignored, find_key in *. rewrite Ha, Hl in *. cbn. by split_and!.
Qed.
End Effects.

(** ** Sequences of operations *)
Section Operations.
Context `{PR : Prices}.

Inductive op :=
| OpCall (t : Turn) (c : Call) (r : option Report)
| OpTurn (t : Turn)
| OpReport (r : Report)
| OpActivity (turn : gostr) (closedAt : Time)
| OpOrphans (start : Time)
| OpAlarm (a : Alarm).

Definition run_op (l : Ledger) (o : op) : Ledger :=
  match o with
  | OpCall t c r => fst (RecordCall t c r l)
  | OpTurn t => record_turn t l
  | OpReport r => record_report r l
  | OpActivity turn at_ => SetTurnActivity turn at_ l
  | OpOrphans start => CloseOrphanedTurns start l
  | OpAlarm a => raise_alarm a l
  end.

Definition run_ops (ops : list op) (l : Ledger) : Ledger := foldl run_op l ops.

Definition empty_ledger : Ledger := MkLedger (MkDB [] 0 ∅ []) [] [] ∅.

(** The unique key of a row, none for a row carried over from before. *)
Definition key_of (r : call_row) : option (gostr * gostr) :=
  if empty_str (c_Key (row_call r)) then None else Some (c_Backend (row_call r), c_Key (row_call r)).

Definition sound_row (r : call_row) : Prop :=
  call_checks (row_call r) = true /\ row_tokens r = NonZero (c_Tokens (row_call r)) /\ forall c, (0 <= count (row_tokens r) c)%Z.

Record consistent (d : DB) : Prop := MkConsistent {
  co_ids : NoDup (row_id <$> api_calls d);
  co_max : Forall (fun r => row_id r <= last_id d)%Z (api_calls d);
  co_keys : NoDup (omap key_of (api_calls d));
  co_turns : Forall (fun r => c_TurnID (row_call r) <> [] -> is_Some (turns d !! c_TurnID (row_call r))) (api_calls d);
  co_rows : Forall sound_row (api_calls d)
}.

Lemma has_key_key_of b k r : has_key b k r = true <-> key_of r = Some (b, k).
Proof.
  unfold has_key, key_of, same, empty_str. repeat case_bool_decide; cbn; split; intros E; try done; try congruence; try (by injection E as -> ->).
Qed.

Lemma find_key_elem b k d r : find_key b k d = Some r -> r ∈ api_calls d /\ key_of r = Some (b, k).
Proof.
  unfold find_key. destruct (filter _ _) as [|q l] eqn:E; [done|]. intros E'. injection E' as ->.
  assert (r ∈ filter (fun r => has_key b k r = true) (api_calls d)) as Hr by (rewrite E; by left).
  apply list_elem_of_filter in Hr as [Hr%has_key_key_of ?]. done.
Qed.

Lemma find_key_none b k d : find_key b k d = None -> (b, k) ∉ omap key_of (api_calls d).
Proof.
  unfold find_key. destruct (filter _ _) as [|q l] eqn:E; [|done]. intros _ (r & Hr & Hk)%list_elem_of_omap.
  assert (r ∈ filter (fun r => has_key b k r = true) (api_calls d)) as Hx by (apply list_elem_of_filter; split; [by apply has_key_key_of|done]).
  rewrite E in Hx. by apply elem_of_nil in Hx.
Qed.

Lemma find_key_app b k d rows r i ts rs :
  find_key b k d = Some r -> find_key b k (MkDB (api_calls d ++ rows) i ts rs) = Some r.
Proof.
  unfold find_key. cbn. rewrite filter_app. by destruct (filter _ (api_calls d)).
Qed.

Lemma validate_counts c k : validate c = true -> (0 <= count (c_Tokens c) k)%Z.
Proof.
  unfold validate. intros [_ Hf]%andb_true_iff. unfold count. destruct (c_Tokens c !! k) as [n|] eqn:E; [|done]. cbn.
  rewrite forallb_forall in Hf. apply Z.leb_le, (Hf (k, n)), list_elem_of_In. by apply elem_of_map_to_list.
Qed.

Lemma consistent_same d d' : same_calls d d' -> consistent d -> consistent d'.
Proof.
  intros (Ha & Hl & Hd) [H1 H2 H3 H4 H5]. split; rewrite ?Ha, ?Hl; try done. eapply Forall_impl; [exact H4|].
  intros r Hr Ht. apply elem_of_dom, Hd, elem_of_dom, Hr, Ht.
Qed.

Lemma consistent_row c d d' : consistent d -> validate c = true -> ignored c d = false ->
  api_calls d' = api_calls d ++ [row_of c d] -> last_id d' = Z.max (row_id (row_of c d)) (last_id d) ->
  dom (turns d) ⊆ dom (turns d') -> (c_TurnID c <> [] -> is_Some (turns d' !! c_TurnID c)) -> consistent d'.
Proof.
  intros [H1 H2 H3 H4 H5] Hv Hi Ha Hl Hd Hf. apply orb_false_iff in Hi as [[Hc Hk]%orb_false_iff Hid].
  apply negb_false_iff in Hc. apply bool_decide_eq_false in Hk.
  split; rewrite ?Ha, ?Hl.
  - rewrite fmap_app. apply NoDup_app. split_and!; [done| |apply NoDup_singleton]. intros i (r & -> & Hr)%list_elem_of_fmap Hi%list_elem_of_singleton.
    cbn in Hi. destruct (Z.ltb_spec 0 (c_LegacyID c)).
    + cbn [andb] in Hid. enough (existsb (fun r => row_id r =? c_LegacyID c)%Z (api_calls d) = true) by congruence.
      apply existsb_elem. exists r. split; [done|by apply Z.eqb_eq].
    + rewrite Forall_forall in H2. specialize (H2 r Hr). lia.
  - apply Forall_app. split; [|constructor; [cbn; lia|constructor]]. eapply Forall_impl; [exact H2|]. cbn. lia.
  - rewrite omap_app. apply NoDup_app. cbn. destruct (key_of (row_of c d)) as [bk|] eqn:E; [|split_and!; [done|set_solver|constructor]].
    split_and!; [done| |apply NoDup_singleton]. intros x Hx ->%list_elem_of_singleton. unfold key_of in E. cbn in E.
    destruct (empty_str _); [done|]. injection E as <-. destruct (find_key _ _ d) eqn:Ef; [by apply Hk|]. by apply find_key_none in Ef.
  - apply Forall_app. split; [|constructor; [done|constructor]]. eapply Forall_impl; [exact H4|].
    intros r Hr Ht. apply elem_of_dom, Hd, elem_of_dom, Hr, Ht.
  - apply Forall_app. split; [done|]. constructor; [|constructor]. split_and!; [done|done|]. cbn. intros k. rewrite count_NonZero. by apply validate_counts.
Qed.

(** An operation keeps the calls it finds, in order, and adds at most one. *)
Lemma run_op_calls l o : exists rows, api_calls (db (run_op l o)) = api_calls (db l) ++ rows.
Proof.
  destruct o as [t c r|t|r|turn at_|start|a]; cbn [run_op].
  - pose proof (RecordCall_spec t c r l) as Hs. cbn zeta in Hs. destruct (snd _) as [b|]; [|rewrite Hs; exists []; by rewrite app_nil_r].
    destruct Hs as [_ Hs]. destruct (Duplicate b); [destruct Hs as [[-> _] _]; exists []; by rewrite app_nil_r|].
    destruct Hs as (_ & -> & _). by eexists.
  - unfold record_turn, Update. destruct (RecordTurn _ _) as [tx|] eqn:E; cbn; exists []; rewrite app_nil_r; [|done].
    apply RecordTurn_spec in E as (row & _ & _ & -> & _). done.
  - unfold record_report, Update. destruct (store_report _ _) as [tx|] eqn:E; cbn; exists []; rewrite app_nil_r; [|done].
    apply store_report_spec in E. by rewrite E.
  - exists []. rewrite app_nil_r. unfold SetTurnActivity. by destruct (empty_str _).
  - exists []. by rewrite app_nil_r.
  - exists []. by rewrite app_nil_r.
Qed.

Lemma run_op_keeps l o : consistent (db l) -> consistent (db (run_op l o)).
Proof.
  intros Hc. destruct o as [t c r|t|r|turn at_|start|a]; cbn [run_op].
  - pose proof (RecordCall_spec t c r l) as Hs. cbn zeta in Hs. destruct (snd _) as [b|]; [|by rewrite Hs].
    destruct Hs as [Hv Hs]. destruct (Duplicate b); [destruct Hs as [Hs _]; by eapply consistent_same|].
    destruct Hs as (Hi & Ha & Hl & Hd & Hf). by eapply consistent_row.
  - unfold record_turn, Update. destruct (RecordTurn _ _) as [tx|] eqn:E; cbn; [|done].
    apply RecordTurn_spec in E as (row & _ & _ & -> & _). eapply consistent_same; [|exact Hc]. split_and!; cbn; [done|done|]. rewrite dom_insert_L. set_solver.
  - unfold record_report, Update. destruct (store_report _ _) as [tx|] eqn:E; cbn; [|done].
    apply store_report_spec in E. rewrite E. by eapply consistent_same; [|exact Hc].
  - unfold SetTurnActivity. destruct (empty_str _); [done|]. eapply consistent_same; [|exact Hc]. split_and!; cbn; [done|done|]. by rewrite dom_alter_L.
  - eapply consistent_same; [|exact Hc]. split_and!; cbn; [done|done|]. intros k Hk%elem_of_dom. apply elem_of_dom. rewrite map_lookup_imap.
    destruct Hk as [v Hv]. rewrite Hv. by eexists.
  - done.
Qed.

Lemma run_ops_calls ops l : exists rows, api_calls (db (run_ops ops l)) = api_calls (db l) ++ rows.
Proof.
  revert l. induction ops as [|o ops IH]; intros l; [exists []; by rewrite app_nil_r|].
  change (run_ops (o :: ops) l) with (run_ops ops (run_op l o)).
  destruct (run_op_calls l o) as [rows E], (IH (run_op l o)) as [rows' E']. exists (rows ++ rows'). by rewrite E', E, app_assoc.
Qed.

(** C15: the ledger's tables stay consistent: whatever calls, turns, reports and
    activity changes are stored, in any order, every row has its own id and its
    own (backend, key), keeps the call it was booked with and exactly its counts
    that are not zero, none negative, names a stored turn unless it is overhead,
    and is never changed or removed afterwards. *)
Theorem ledger_consistent ops more :
  let d := db (run_ops ops empty_ledger) in
  consistent d
  /\ (forall r, r ∈ api_calls d -> (c_Kind (row_call r) = KindOverhead <-> c_TurnID (row_call r) = []))
  /\ exists rows, api_calls (db (run_ops (ops ++ more) empty_ledger)) = api_calls d ++ rows.
Proof.
  cbn zeta. set (l0 := empty_ledger). assert (consistent (db l0)) as H0.
  { subst l0. split; cbn; try constructor. }
  assert (consistent (db (run_ops ops l0))) as Hc.
  { clearbody l0. revert l0 H0. induction ops as [|o ops IH]; intros l0 H0; [done|]. apply (IH (run_op l0 o)). by apply run_op_keeps. }
  split_and!; [done| |].
  - intros r Hr. pose proof (co_rows _ Hc) as Hs. rewrite Forall_forall in Hs. destruct (Hs r Hr) as (Hk & _).
    unfold call_checks in Hk. repeat (apply andb_true_iff in Hk as [Hk ?]).
    match goal with E : Bool.eqb (same _ KindOverhead) _ = true |- _ => apply eqb_prop in E; unfold same, empty_str in E; rename E into Eq end.
    repeat case_bool_decide; intuition congruence.
  - unfold run_ops. rewrite foldl_app. apply run_ops_calls.
Qed.

(** C14: the first booking stands: once a call of a backend is booked under a key,
    that row answers for the key whatever is stored afterwards, and booking the
    key again books nothing: it is refused, or reported as a duplicate of that
    row, with an alarm exactly when its counts differ. *)
Theorem first_booking_stands l r backend key ops :
  find_key backend key (db l) = Some r ->
  find_key backend key (db (run_ops ops l)) = Some r
  /\ forall t c rep, c_Backend c = backend -> c_Key c = key ->
     let p := RecordCall t c rep l in
     api_calls (db p.1) = api_calls (db l)
     /\ (p.2 = None /\ p.1 = l
         \/ p.2 = Some (MkBooked (row_id r) true)
            /\ alarmed p.1 = alarmed l ++ (if decide (row_tokens r = NonZero (c_Tokens c)) then [] else [MkAlarm InvSameIDDifferentUsage backend [] false])).
Proof.
  intros Hr. split.
  - destruct (run_ops_calls ops l) as [rows E]. apply (find_key_app _ _ _ rows r 0%Z ∅ []) in Hr. unfold find_key in *. by rewrite E.
  - intros t c rep Hb Hk. cbn zeta. unfold RecordCall, Update. destruct (upsert t _) as [tx1|] eqn:Et; cbn [mbind option_bind]; [|by auto].
    assert (same_calls (db l) (tx_db tx1) /\ tx_alarms tx1 = []) as [(Ha & Hl & _) Hal].
    { unfold upsert in Et. destruct (empty_str _); [by injection Et as <-|]. unfold RecordTurn in Et. destruct (_ || _); [done|]. injection Et as <-. cbn.
      split; [|done]. split_and!; cbn; [done|done|]. rewrite dom_insert_L. set_solver. }
    unfold Book. destruct (validate c); cbn [negb mbind option_bind]; [|by auto].
    assert (find_key (c_Backend c) (c_Key c) (tx_db tx1) = Some r) as Hr1 by (unfold find_key in *; rewrite Ha, Hb, Hk; done).
    assert (ignored c (tx_db tx1) = true) as ->.
    { unfold ignored. rewrite Hr1, bool_decide_eq_true_2 by eauto. by rewrite orb_true_r. }
    unfold duplicate. rewrite Hr1. cbn [mbind option_bind].
    assert (forall tx, with_report rep tx (MkBooked (row_id r) true) = Some tx) as Hw by (intros tx; by destruct rep).
    rewrite Hw. cbn. rewrite Ha, Hal, Hb. split; [done|]. right. split; [done|]. f_equal. case_bool_decide; case_decide; done.
Qed.
End Operations.
