(* ===== verification/CcData.v ===== *)
(** * The state of the Claude Code cost book ([internal/delegator/ccstream/ccbook.go])

    What the adapter of the cost ledger knows of one Claude Code process: the
    lines and records it is fed, and the fields of the book.  [untaken] is a
    history variable the code has not: the remainders the ledger holds no counts
    of (a refusal that is not billed, a booking the ledger did not take). *)
From stdpp Require Import fin_maps gmap.
From S2P Require Import Prelude GoStrings GoNum Pricing CostLedger.
Local Open Scope gostr_scope.
Local Open Scope Z_scope.

(** ** What is read *)

(** One assistant line of a transcript, decoded. *)
Record ccLine := MkLine {
  line_id : gostr; model : gostr; line_at : Time; stopReason : gostr; complete : bool;
  tokens : Tokens; method : gostr; webTool : bool; line_unseen : list UnseenKey
}.

(** A per-message usage object: the split of the cache writes and the server
    tools may be missing. *)
Record ccUsageJSON := MkUsageJSON {
  InputTokens : Z; OutputTokens : Z; CacheReadInputTokens : Z; CacheCreationInputTokens : Z;
  CacheCreation : option (Z * Z);
  ServerToolUse : option (Z * Z)
}.

(** One model's totals in a result. *)
Record ModelUsage := MkModelUsage {
  mu_input : Z; mu_output : Z; mu_cacheRead : Z; mu_cacheCreation : Z; mu_webSearch : Z; CostUSD : float64
}.
Definition no_usage : ModelUsage := MkModelUsage 0 0 0 0 0 (f_of_Z 0).
Abbreviation usages := (gmap gostr ModelUsage).
Definition usage (mu : usages) (m : gostr) : ModelUsage := default no_usage (mu !! m).

(** Counts of disjoint classes: writes the split does not cover have an unknown TTL. *)
Definition ccTokens (u : ccUsageJSON) : Tokens * gostr :=
  let t : Tokens := <[ ClassInput := InputTokens u ]> (<[ ClassOutput := OutputTokens u ]> {[ ClassCacheRead := CacheReadInputTokens u ]}) in
  let p := match CacheCreation u with
           | Some (w5, w1) =>
               let t := <[ ClassCacheWrite5m := w5 ]> (<[ ClassCacheWrite1h := w1 ]> t) in
               let rest := CacheCreationInputTokens u - w5 - w1 in
               if 0 <? rest then (<[ ClassCacheWrite := rest ]> t, ClassMethodUnknown) else (t, ClassMethodObserved)
           | None =>
               if 0 <? CacheCreationInputTokens u
               then (<[ ClassCacheWrite := CacheCreationInputTokens u ]> t, ClassMethodUnknown) else (t, ClassMethodObserved)
           end in
  match ServerToolUse u with
  | Some (s, f) => (<[ ClassWebSearch := s ]> (<[ ClassWebFetch := f ]> p.1), p.2)
  | None => p
  end.

Definition modelUsageTokens (m : ModelUsage) : Tokens :=
  list_to_map [(ClassInput, mu_input m); (ClassOutput, mu_output m); (ClassCacheRead, mu_cacheRead m);
               (ClassCacheWrite, mu_cacheCreation m); (ClassWebSearch, mu_webSearch m)].

(** A call's classes as a report has them: one class of cache writes. *)
Definition ReportClasses (t : Tokens) : Tokens :=
  list_to_map [(ClassInput, count t ClassInput); (ClassOutput, count t ClassOutput); (ClassCacheRead, count t ClassCacheRead);
               (ClassCacheWrite, count t ClassCacheWrite5m + count t ClassCacheWrite1h + count t ClassCacheWrite);
               (ClassWebSearch, count t ClassWebSearch)].

(** What a record that is no call tells of the call before it. *)
Inductive ccSignal := SignalNone | SignalToolResult | SignalInterrupt | SignalRequest.

(** ** What is kept *)
Record namedCall := MkNamed { n_window : nat; n_turn : gostr; uuids : list gostr; retracted : bool; n_pending : option ccLine }.

Record ccAgent := MkAgent { ag_turn : gostr; ag_window : nat; open : bool; ag_pending : option ccLine; ran : bool; sent : bool }.

Record ccBoundary := MkBoundary { b_at : Time; b_turn : gostr }.

Record ccRefusal := MkRefusal {
  rf_at : Time; rf_turn : gostr; rf_model : gostr; fallback : gostr; category : gostr; requestID : gostr; rf_retracted : list gostr
}.

Record ccResult := MkResult { r_window : nat; r_at : Time; r_mu : option usages; quiet : bool }.

Record countedSum := MkSum { s_tokens : Tokens; s_cost : float64; unpriced : bool }.

Record ccBook := MkBook {
  ledger : Ledger; session : gostr; agentID : gostr; sessionFile : gostr; scope : gostr; launch : Time; window : nat;
  named : gmap gostr namedCall; held : gmap gostr ccLine; done_ids : gset gostr; agents : gmap gostr ccAgent; runTurn : gmap nat gostr;
  runStart : gmap gostr Time; mainBooked : gmap gostr Tokens; requests : gset gostr; counted : gmap nat (gmap gostr countedSum);
  boundaries : gmap nat (list ccBoundary); refusals : gmap nat (list ccRefusal); webTools : gset nat; mainWin : gmap gostr nat;
  results : list ccResult; baseline : usages; lastMU : option usages; costState : option usages; copies : nat; tailing : bool;
  readFrom : Time; launchBase : usages; procBooked : gmap gostr countedSum; interrupted : gmap gostr float64;
  unbilled : gmap gostr float64; ended : gset gostr; closed : gset gostr; version : gostr; untaken : gmap gostr countedSum
}.

Definition set_ledger (v : Ledger) (b : ccBook) : ccBook :=
  MkBook v (session b) (agentID b) (sessionFile b) (scope b) (launch b) (window b) (named b) (held b) (done_ids b) (agents b) (runTurn b) (runStart b)
    (mainBooked b) (requests b) (counted b) (boundaries b) (refusals b) (webTools b) (mainWin b) (results b) (baseline b) (lastMU b) (costState b)
    (copies b) (tailing b) (readFrom b) (launchBase b) (procBooked b) (interrupted b) (unbilled b) (ended b) (closed b) (version b) (untaken b).
Definition set_sessionFile (v : gostr) (b : ccBook) : ccBook :=
  MkBook (ledger b) (session b) (agentID b) v (scope b) (launch b) (window b) (named b) (held b) (done_ids b) (agents b) (runTurn b) (runStart b)
    (mainBooked b) (requests b) (counted b) (boundaries b) (refusals b) (webTools b) (mainWin b) (results b) (baseline b) (lastMU b) (costState b)
    (copies b) (tailing b) (readFrom b) (launchBase b) (procBooked b) (interrupted b) (unbilled b) (ended b) (closed b) (version b) (untaken b).
Definition set_window (v : nat) (b : ccBook) : ccBook :=
  MkBook (ledger b) (session b) (agentID b) (sessionFile b) (scope b) (launch b) v (named b) (held b) (done_ids b) (agents b) (runTurn b) (runStart b)
    (mainBooked b) (requests b) (counted b) (boundaries b) (refusals b) (webTools b) (mainWin b) (results b) (baseline b) (lastMU b) (costState b)
    (copies b) (tailing b) (readFrom b) (launchBase b) (procBooked b) (interrupted b) (unbilled b) (ended b) (closed b) (version b) (untaken b).
Definition set_named (v : gmap gostr namedCall) (b : ccBook) : ccBook :=
  MkBook (ledger b) (session b) (agentID b) (sessionFile b) (scope b) (launch b) (window b) v (held b) (done_ids b) (agents b) (runTurn b)
    (runStart b) (mainBooked b) (requests b) (counted b) (boundaries b) (refusals b) (webTools b) (mainWin b) (results b) (baseline b) (lastMU b)
    (costState b) (copies b) (tailing b) (readFrom b) (launchBase b) (procBooked b) (interrupted b) (unbilled b) (ended b) (closed b) (version b)
    (untaken b).
Definition set_held (v : gmap gostr ccLine) (b : ccBook) : ccBook :=
  MkBook (ledger b) (session b) (agentID b) (sessionFile b) (scope b) (launch b) (window b) (named b) v (done_ids b) (agents b) (runTurn b)
    (runStart b) (mainBooked b) (requests b) (counted b) (boundaries b) (refusals b) (webTools b) (mainWin b) (results b) (baseline b) (lastMU b)
    (costState b) (copies b) (tailing b) (readFrom b) (launchBase b) (procBooked b) (interrupted b) (unbilled b) (ended b) (closed b) (version b)
    (untaken b).
Definition set_done_ids (v : gset gostr) (b : ccBook) : ccBook :=
  MkBook (ledger b) (session b) (agentID b) (sessionFile b) (scope b) (launch b) (window b) (named b) (held b) v (agents b) (runTurn b) (runStart b)
    (mainBooked b) (requests b) (counted b) (boundaries b) (refusals b) (webTools b) (mainWin b) (results b) (baseline b) (lastMU b) (costState b)
    (copies b) (tailing b) (readFrom b) (launchBase b) (procBooked b) (interrupted b) (unbilled b) (ended b) (closed b) (version b) (untaken b).
Definition set_agents (v : gmap gostr ccAgent) (b : ccBook) : ccBook :=
  MkBook (ledger b) (session b) (agentID b) (sessionFile b) (scope b) (launch b) (window b) (named b) (held b) (done_ids b) v (runTurn b) (runStart b)
    (mainBooked b) (requests b) (counted b) (boundaries b) (refusals b) (webTools b) (mainWin b) (results b) (baseline b) (lastMU b) (costState b)
    (copies b) (tailing b) (readFrom b) (launchBase b) (procBooked b) (interrupted b) (unbilled b) (ended b) (closed b) (version b) (untaken b).
Definition set_runTurn (v : gmap nat gostr) (b : ccBook) : ccBook :=
  MkBook (ledger b) (session b) (agentID b) (sessionFile b) (scope b) (launch b) (window b) (named b) (held b) (done_ids b) (agents b) v (runStart b)
    (mainBooked b) (requests b) (counted b) (boundaries b) (refusals b) (webTools b) (mainWin b) (results b) (baseline b) (lastMU b) (costState b)
    (copies b) (tailing b) (readFrom b) (launchBase b) (procBooked b) (interrupted b) (unbilled b) (ended b) (closed b) (version b) (untaken b).
Definition set_runStart (v : gmap gostr Time) (b : ccBook) : ccBook :=
  MkBook (ledger b) (session b) (agentID b) (sessionFile b) (scope b) (launch b) (window b) (named b) (held b) (done_ids b) (agents b) (runTurn b) v
    (mainBooked b) (requests b) (counted b) (boundaries b) (refusals b) (webTools b) (mainWin b) (results b) (baseline b) (lastMU b) (costState b)
    (copies b) (tailing b) (readFrom b) (launchBase b) (procBooked b) (interrupted b) (unbilled b) (ended b) (closed b) (version b) (untaken b).
Definition set_mainBooked (v : gmap gostr Tokens) (b : ccBook) : ccBook :=
  MkBook (ledger b) (session b) (agentID b) (sessionFile b) (scope b) (launch b) (window b) (named b) (held b) (done_ids b) (agents b) (runTurn b)
    (runStart b) v (requests b) (counted b) (boundaries b) (refusals b) (webTools b) (mainWin b) (results b) (baseline b) (lastMU b) (costState b)
    (copies b) (tailing b) (readFrom b) (launchBase b) (procBooked b) (interrupted b) (unbilled b) (ended b) (closed b) (version b) (untaken b).
Definition set_requests (v : gset gostr) (b : ccBook) : ccBook :=
  MkBook (ledger b) (session b) (agentID b) (sessionFile b) (scope b) (launch b) (window b) (named b) (held b) (done_ids b) (agents b) (runTurn b)
    (runStart b) (mainBooked b) v (counted b) (boundaries b) (refusals b) (webTools b) (mainWin b) (results b) (baseline b) (lastMU b) (costState b)
    (copies b) (tailing b) (readFrom b) (launchBase b) (procBooked b) (interrupted b) (unbilled b) (ended b) (closed b) (version b) (untaken b).
Definition set_counted (v : gmap nat (gmap gostr countedSum)) (b : ccBook) : ccBook :=
  MkBook (ledger b) (session b) (agentID b) (sessionFile b) (scope b) (launch b) (window b) (named b) (held b) (done_ids b) (agents b) (runTurn b)
    (runStart b) (mainBooked b) (requests b) v (boundaries b) (refusals b) (webTools b) (mainWin b) (results b) (baseline b) (lastMU b) (costState b)
    (copies b) (tailing b) (readFrom b) (launchBase b) (procBooked b) (interrupted b) (unbilled b) (ended b) (closed b) (version b) (untaken b).
Definition set_boundaries (v : gmap nat (list ccBoundary)) (b : ccBook) : ccBook :=
  MkBook (ledger b) (session b) (agentID b) (sessionFile b) (scope b) (launch b) (window b) (named b) (held b) (done_ids b) (agents b) (runTurn b)
    (runStart b) (mainBooked b) (requests b) (counted b) v (refusals b) (webTools b) (mainWin b) (results b) (baseline b) (lastMU b) (costState b)
    (copies b) (tailing b) (readFrom b) (launchBase b) (procBooked b) (interrupted b) (unbilled b) (ended b) (closed b) (version b) (untaken b).
Definition set_refusals (v : gmap nat (list ccRefusal)) (b : ccBook) : ccBook :=
  MkBook (ledger b) (session b) (agentID b) (sessionFile b) (scope b) (launch b) (window b) (named b) (held b) (done_ids b) (agents b) (runTurn b)
    (runStart b) (mainBooked b) (requests b) (counted b) (boundaries b) v (webTools b) (mainWin b) (results b) (baseline b) (lastMU b) (costState b)
    (copies b) (tailing b) (readFrom b) (launchBase b) (procBooked b) (interrupted b) (unbilled b) (ended b) (closed b) (version b) (untaken b).
Definition set_webTools (v : gset nat) (b : ccBook) : ccBook :=
  MkBook (ledger b) (session b) (agentID b) (sessionFile b) (scope b) (launch b) (window b) (named b) (held b) (done_ids b) (agents b) (runTurn b)
    (runStart b) (mainBooked b) (requests b) (counted b) (boundaries b) (refusals b) v (mainWin b) (results b) (baseline b) (lastMU b) (costState b)
    (copies b) (tailing b) (readFrom b) (launchBase b) (procBooked b) (interrupted b) (unbilled b) (ended b) (closed b) (version b) (untaken b).
Definition set_mainWin (v : gmap gostr nat) (b : ccBook) : ccBook :=
  MkBook (ledger b) (session b) (agentID b) (sessionFile b) (scope b) (launch b) (window b) (named b) (held b) (done_ids b) (agents b) (runTurn b)
    (runStart b) (mainBooked b) (requests b) (counted b) (boundaries b) (refusals b) (webTools b) v (results b) (baseline b) (lastMU b) (costState b)
    (copies b) (tailing b) (readFrom b) (launchBase b) (procBooked b) (interrupted b) (unbilled b) (ended b) (closed b) (version b) (untaken b).
Definition set_results (v : list ccResult) (b : ccBook) : ccBook :=
  MkBook (ledger b) (session b) (agentID b) (sessionFile b) (scope b) (launch b) (window b) (named b) (held b) (done_ids b) (agents b) (runTurn b)
    (runStart b) (mainBooked b) (requests b) (counted b) (boundaries b) (refusals b) (webTools b) (mainWin b) v (baseline b) (lastMU b) (costState b)
    (copies b) (tailing b) (readFrom b) (launchBase b) (procBooked b) (interrupted b) (unbilled b) (ended b) (closed b) (version b) (untaken b).
Definition set_baseline (v : usages) (b : ccBook) : ccBook :=
  MkBook (ledger b) (session b) (agentID b) (sessionFile b) (scope b) (launch b) (window b) (named b) (held b) (done_ids b) (agents b) (runTurn b)
    (runStart b) (mainBooked b) (requests b) (counted b) (boundaries b) (refusals b) (webTools b) (mainWin b) (results b) v (lastMU b) (costState b)
    (copies b) (tailing b) (readFrom b) (launchBase b) (procBooked b) (interrupted b) (unbilled b) (ended b) (closed b) (version b) (untaken b).
Definition set_lastMU (v : option usages) (b : ccBook) : ccBook :=
  MkBook (ledger b) (session b) (agentID b) (sessionFile b) (scope b) (launch b) (window b) (named b) (held b) (done_ids b) (agents b) (runTurn b)
    (runStart b) (mainBooked b) (requests b) (counted b) (boundaries b) (refusals b) (webTools b) (mainWin b) (results b) (baseline b) v (costState b)
    (copies b) (tailing b) (readFrom b) (launchBase b) (procBooked b) (interrupted b) (unbilled b) (ended b) (closed b) (version b) (untaken b).
Definition set_costState (v : option usages) (b : ccBook) : ccBook :=
  MkBook (ledger b) (session b) (agentID b) (sessionFile b) (scope b) (launch b) (window b) (named b) (held b) (done_ids b) (agents b) (runTurn b)
    (runStart b) (mainBooked b) (requests b) (counted b) (boundaries b) (refusals b) (webTools b) (mainWin b) (results b) (baseline b) (lastMU b) v
    (copies b) (tailing b) (readFrom b) (launchBase b) (procBooked b) (interrupted b) (unbilled b) (ended b) (closed b) (version b) (untaken b).
Definition set_copies (v : nat) (b : ccBook) : ccBook :=
  MkBook (ledger b) (session b) (agentID b) (sessionFile b) (scope b) (launch b) (window b) (named b) (held b) (done_ids b) (agents b) (runTurn b)
    (runStart b) (mainBooked b) (requests b) (counted b) (boundaries b) (refusals b) (webTools b) (mainWin b) (results b) (baseline b) (lastMU b)
    (costState b) v (tailing b) (readFrom b) (launchBase b) (procBooked b) (interrupted b) (unbilled b) (ended b) (closed b) (version b) (untaken b).
Definition set_tailing (v : bool) (b : ccBook) : ccBook :=
  MkBook (ledger b) (session b) (agentID b) (sessionFile b) (scope b) (launch b) (window b) (named b) (held b) (done_ids b) (agents b) (runTurn b)
    (runStart b) (mainBooked b) (requests b) (counted b) (boundaries b) (refusals b) (webTools b) (mainWin b) (results b) (baseline b) (lastMU b)
    (costState b) (copies b) v (readFrom b) (launchBase b) (procBooked b) (interrupted b) (unbilled b) (ended b) (closed b) (version b) (untaken b).
Definition set_readFrom (v : Time) (b : ccBook) : ccBook :=
  MkBook (ledger b) (session b) (agentID b) (sessionFile b) (scope b) (launch b) (window b) (named b) (held b) (done_ids b) (agents b) (runTurn b)
    (runStart b) (mainBooked b) (requests b) (counted b) (boundaries b) (refusals b) (webTools b) (mainWin b) (results b) (baseline b) (lastMU b)
    (costState b) (copies b) (tailing b) v (launchBase b) (procBooked b) (interrupted b) (unbilled b) (ended b) (closed b) (version b) (untaken b).
Definition set_procBooked (v : gmap gostr countedSum) (b : ccBook) : ccBook :=
  MkBook (ledger b) (session b) (agentID b) (sessionFile b) (scope b) (launch b) (window b) (named b) (held b) (done_ids b) (agents b) (runTurn b)
    (runStart b) (mainBooked b) (requests b) (counted b) (boundaries b) (refusals b) (webTools b) (mainWin b) (results b) (baseline b) (lastMU b)
    (costState b) (copies b) (tailing b) (readFrom b) (launchBase b) v (interrupted b) (unbilled b) (ended b) (closed b) (version b) (untaken b).
Definition set_interrupted (v : gmap gostr float64) (b : ccBook) : ccBook :=
  MkBook (ledger b) (session b) (agentID b) (sessionFile b) (scope b) (launch b) (window b) (named b) (held b) (done_ids b) (agents b) (runTurn b)
    (runStart b) (mainBooked b) (requests b) (counted b) (boundaries b) (refusals b) (webTools b) (mainWin b) (results b) (baseline b) (lastMU b)
    (costState b) (copies b) (tailing b) (readFrom b) (launchBase b) (procBooked b) v (unbilled b) (ended b) (closed b) (version b) (untaken b).
Definition set_unbilled (v : gmap gostr float64) (b : ccBook) : ccBook :=
  MkBook (ledger b) (session b) (agentID b) (sessionFile b) (scope b) (launch b) (window b) (named b) (held b) (done_ids b) (agents b) (runTurn b)
    (runStart b) (mainBooked b) (requests b) (counted b) (boundaries b) (refusals b) (webTools b) (mainWin b) (results b) (baseline b) (lastMU b)
    (costState b) (copies b) (tailing b) (readFrom b) (launchBase b) (procBooked b) (interrupted b) v (ended b) (closed b) (version b) (untaken b).
Definition set_ended (v : gset gostr) (b : ccBook) : ccBook :=
  MkBook (ledger b) (session b) (agentID b) (sessionFile b) (scope b) (launch b) (window b) (named b) (held b) (done_ids b) (agents b) (runTurn b)
    (runStart b) (mainBooked b) (requests b) (counted b) (boundaries b) (refusals b) (webTools b) (mainWin b) (results b) (baseline b) (lastMU b)
    (costState b) (copies b) (tailing b) (readFrom b) (launchBase b) (procBooked b) (interrupted b) (unbilled b) v (closed b) (version b) (untaken b).
Definition set_closed (v : gset gostr) (b : ccBook) : ccBook :=
  MkBook (ledger b) (session b) (agentID b) (sessionFile b) (scope b) (launch b) (window b) (named b) (held b) (done_ids b) (agents b) (runTurn b)
    (runStart b) (mainBooked b) (requests b) (counted b) (boundaries b) (refusals b) (webTools b) (mainWin b) (results b) (baseline b) (lastMU b)
    (costState b) (copies b) (tailing b) (readFrom b) (launchBase b) (procBooked b) (interrupted b) (unbilled b) (ended b) v (version b) (untaken b).
Definition set_version (v : gostr) (b : ccBook) : ccBook :=
  MkBook (ledger b) (session b) (agentID b) (sessionFile b) (scope b) (launch b) (window b) (named b) (held b) (done_ids b) (agents b) (runTurn b)
    (runStart b) (mainBooked b) (requests b) (counted b) (boundaries b) (refusals b) (webTools b) (mainWin b) (results b) (baseline b) (lastMU b)
    (costState b) (copies b) (tailing b) (readFrom b) (launchBase b) (procBooked b) (interrupted b) (unbilled b) (ended b) (closed b) v (untaken b).
Definition set_untaken (v : gmap gostr countedSum) (b : ccBook) : ccBook :=
  MkBook (ledger b) (session b) (agentID b) (sessionFile b) (scope b) (launch b) (window b) (named b) (held b) (done_ids b) (agents b) (runTurn b)
    (runStart b) (mainBooked b) (requests b) (counted b) (boundaries b) (refusals b) (webTools b) (mainWin b) (results b) (baseline b) (lastMU b)
    (costState b) (copies b) (tailing b) (readFrom b) (launchBase b) (procBooked b) (interrupted b) (unbilled b) (ended b) (closed b) (version b) v.

(** ** Class sums *)
Definition zero_sum : countedSum := MkSum ∅ (f_of_Z 0) false.

Definition add_tokens (a b : Tokens) : Tokens := union_with (fun m n => Some (m + n)) a b.

Definition sum_add (s o : countedSum) : countedSum :=
  MkSum (add_tokens (s_tokens s) (s_tokens o)) (f_add (s_cost s) (s_cost o)) (unpriced s || unpriced o).

(** [m] gets [s] added, from zero when it is new. *)
Definition add_sum (sums : gmap gostr countedSum) (ms : gostr * countedSum) : gmap gostr countedSum :=
  <[ ms.1 := sum_add (default zero_sum (sums !! ms.1)) ms.2 ]> sums.

(** The counts of one model and class. *)
Definition held_in (sums : gmap gostr countedSum) (m : gostr) (c : TokenClass) : Z :=
  match sums !! m with Some s => count (s_tokens s) c | None => 0 end.

Lemma count_add_tokens a b c : count (add_tokens a b) c = count a c + count b c.
Proof.
  unfold count, add_tokens. rewrite lookup_union_with. destruct (a !! c), (b !! c); cbn; lia.
Qed.

Lemma held_in_add sums ms m c :
  held_in (add_sum sums ms) m c = held_in sums m c + (if decide (ms.1 = m) then count (s_tokens ms.2) c else 0).
Proof.
  unfold held_in, add_sum. case_decide as E.
  - subst. rewrite lookup_insert_eq. cbn [s_tokens sum_add]. rewrite count_add_tokens. f_equal. by destruct (sums !! ms.1).
  - rewrite lookup_insert_ne by done. lia.
Qed.

(** The five classes of a report, and the others. *)
Definition report_classes : list TokenClass := [ClassInput; ClassOutput; ClassCacheRead; ClassCacheWrite; ClassWebSearch].

Lemma count_list_to_map (f : TokenClass -> Z) l c :
  count (list_to_map ((fun k => (k, f k)) <$> l)) c = if decide (c ∈ l) then f c else 0.
Proof.
  induction l as [|k l IH]; cbn [fmap list_fmap list_to_map foldr].
  - rewrite count_empty. case_decide as E; [by apply elem_of_nil in E|done].
  - rewrite count_insert, IH. repeat case_decide; subst; try done; set_solver.
Qed.

Definition usage_class (m : ModelUsage) (c : TokenClass) : Z := count (modelUsageTokens m) c.

Lemma no_usage_class c : usage_class no_usage c = 0.
Proof.
  unfold usage_class, modelUsageTokens. change (list_to_map _) with (list_to_map ((fun k : TokenClass => (k, 0)) <$> report_classes) : Tokens).
  rewrite (count_list_to_map (fun _ => 0)). by case_decide.
Qed.

Lemma usage_class_outside m c : c ∉ report_classes -> usage_class m c = 0.
Proof.
  intros Hc. unfold usage_class, modelUsageTokens, count. rewrite not_elem_of_list_to_map_1; [done|]. exact Hc.
Qed.

(** The counts of a report's classes only. *)
Definition report_count (t : Tokens) (c : TokenClass) : Z := count (ReportClasses t) c.

Lemma report_count_spec t c :
  report_count t c =
    if decide (c ∈ report_classes)
    then (if decide (c = ClassCacheWrite) then count t ClassCacheWrite5m + count t ClassCacheWrite1h + count t ClassCacheWrite else count t c)
    else 0.
Proof.
  unfold report_count, ReportClasses.
  change (list_to_map _) with (list_to_map ((fun k : TokenClass => (k,
    if decide (k = ClassCacheWrite) then count t ClassCacheWrite5m + count t ClassCacheWrite1h + count t ClassCacheWrite else count t k)) <$> report_classes) : Tokens).
  by rewrite count_list_to_map.
Qed.

Lemma report_count_NonZero t c : report_count (NonZero t) c = report_count t c.
Proof. rewrite !report_count_spec. by rewrite !count_NonZero. Qed.

Lemma report_count_empty c : report_count ∅ c = 0.
Proof. rewrite report_count_spec. rewrite !count_empty. by repeat case_decide. Qed.

Lemma report_count_nonneg t c : (forall k, 0 <= count t k) -> 0 <= report_count t c.
Proof. intros H. rewrite report_count_spec. repeat case_decide; [|apply H|lia]. pose proof (H ClassCacheWrite5m). pose proof (H ClassCacheWrite1h). pose proof (H ClassCacheWrite). lia. Qed.

(** Decides equations between classes. *)
Ltac dec_classes :=
  repeat match goal with
  | |- context[decide (?a = ?b)] =>
      first [rewrite (decide_True (P := a = b)) by reflexivity | rewrite (decide_False (P := a = b)) by (vm_compute; discriminate)]
  | |- context[decide (?a ∈ report_classes)] =>
      first [rewrite (decide_True (P := a ∈ report_classes)) by (by apply (bool_decide_eq_true _); vm_compute)
            |rewrite (decide_False (P := a ∈ report_classes)) by (by apply (bool_decide_eq_false _); vm_compute)]
  end.

(** Writes moved from the unknown class to the two known ones. *)
Lemma report_count_split t x y c : x + y = count t ClassCacheWrite ->
  report_count (add_count ClassCacheWrite5m x (add_count ClassCacheWrite1h y (delete ClassCacheWrite t))) c = report_count t c.
Proof.
  intros H. rewrite !report_count_spec. destruct (decide (c ∈ report_classes)) as [Hc|]; [|done].
  repeat (apply elem_of_cons in Hc as [->|Hc]); [..|by apply elem_of_nil in Hc];
    rewrite !count_add, !count_delete; dec_classes; lia.
Qed.

(** A message's usage is normalised into disjoint classes: each count lands in
    one class, and the three cache-write classes add up to the writes the message
    reports, or to its split when that is more. *)
Theorem usage_classes_disjoint u :
  let t := (ccTokens u).1 in
  count t ClassInput = InputTokens u /\ count t ClassOutput = OutputTokens u /\ count t ClassCacheRead = CacheReadInputTokens u
  /\ report_count t ClassCacheWrite =
       match CacheCreation u with
       | Some (w5, w1) => Z.max (CacheCreationInputTokens u) (w5 + w1)
       | None => Z.max (CacheCreationInputTokens u) 0
       end
  /\ ((ccTokens u).2 = ClassMethodUnknown <-> count t ClassCacheWrite <> 0).
Proof.
  cbn zeta. rewrite report_count_spec. unfold ccTokens.
  destruct (CacheCreation u) as [[w5 w1]|], (ServerToolUse u) as [[s f]|];
    match goal with |- context[0 <? ?x] => destruct (Z.ltb_spec 0 x) end; cbn [fst snd];
    rewrite ?count_insert; unfold count; rewrite ?lookup_singleton; dec_classes; cbn; split_and!; try lia; try done; (split; [lia|done]).
Qed.
