(* ===== verification/CcBook.v ===== *)
(** * The Claude Code cost book ([internal/delegator/ccstream/ccbook.go])

    Every handler of the book.  An operation takes the time its clock reads, and
    works on the book, the ledger included.  The order in which a map is ranged
    over, and the lower case of text beyond ASCII, are the class [CcEnv]. *)
From stdpp Require Import fin_maps gmap sorting.
From S2P Require Import Prelude GoStrings GoNum Pricing CostLedger CcData.
Local Open Scope gostr_scope.
Local Open Scope Z_scope.

Class CcEnv := {
  unicode_lower : gostr -> gostr;
  (** The entries of a map of windows, in the order a range visits them. *)
  in_order : forall {A}, gmap nat A -> list (nat * A);
  in_order_perm : forall A (m : gmap nat A), in_order m ≡ₚ map_to_list m;
}.

(** ** Constants *)
Definition f_ratio (m n : Z) : float64 := f_div (f_of_Z m) (f_of_Z n).
Definition ccLineBound : Duration := 250 * Millisecond.
Definition subagentTailSettle : Duration := 3 * Second.
Definition ccBarrierBound : Duration := Second.
Definition ccOverheadBoundUSD : float64 := f_ratio 1 2.
Definition ccOverheadBoundShare : float64 := f_ratio 2 100.
Definition ccDivergenceFloorUSD : float64 := f_ratio 1 100.
Definition CostDivergenceTolerance : float64 := f_ratio 3 100.
Definition SolveTolerance : float64 := f_ratio 1 1000000.

Definition refusalBilledCategories : list gostr := ["bio"; "frontier_llm"; "reasoning_extraction"]%gs.

(** The Unix epoch, from the zero time. *)
Definition unix_epoch : Time := 62135596800 * Second.
Definition UnixNano (t : Time) : Z := wrap64 (t - unix_epoch).

Definition MintTurnID (session kind : gostr) (start : Time) : gostr :=
  (if empty_str session then NoSession else session) ++ "@" ++ FormatInt (UnixNano start) ++ ":" ++ kind.

(** [max] of two floats, and [math.Round] with its exceptional values. *)
Definition f_is_nan (f : float64) : bool := match f with SpecFloat.S754_nan => true | _ => false end.
Definition f_max (a b : float64) : float64 :=
  if f_is_nan a || f_is_nan b then SpecFloat.S754_nan else if f_ge a b then a else b.
Definition f_Round (f : float64) : float64 :=
  match f with SpecFloat.S754_finite _ _ _ => f_of_Z (f_round f) | _ => f end.
(** [int(f)] on amd64. *)
Definition f_int (f : float64) : Z :=
  match f with SpecFloat.S754_nan | SpecFloat.S754_infinity _ => min_int64 | _ => f_trunc f end.

Section Book.
Context `{PR : Prices, EN : CcEnv}.

(** ** Reports, alarms and turns *)
Definition on_ledger (f : Ledger -> Ledger) (b : ccBook) : ccBook := set_ledger (f (ledger b)) b.

Definition raise_ (inv : gostr) (warn : bool) (b : ccBook) : ccBook :=
  on_ledger (raise_alarm (MkAlarm inv BackendCCStream (version b) warn)) b.
Definition alarm (inv : gostr) (b : ccBook) : ccBook := raise_ inv false b.

Definition report (b : ccBook) (at_ : Time) (m : gostr) (u : ModelUsage) : ccBook :=
  on_ledger (record_report (MkReport BackendCCStream (session b) (scope b) m GrainCumulative at_ (Some (CostUSD u)) (modelUsageTokens u))) b.

(** One report for each model, in order. *)
Definition report_all (mu : usages) (at_ : Time) (b : ccBook) : ccBook :=
  foldl (fun b m => report b at_ m (usage mu m)) b (sorted_keys mu).

Definition newCCBook (l : Ledger) (session agentID : gostr) (launch : Time) (base : usages) : ccBook :=
  let s := if empty_str session then NoSession else session in
  report_all base launch
    (MkBook l s agentID [] (s ++ "@" ++ FormatInt (UnixNano launch)) launch 0 ∅ ∅ ∅ ∅ ∅ ∅ ∅ ∅ ∅ ∅ ∅ ∅ ∅ [] base None None 0 false 0 base
       ∅ ∅ ∅ ∅ ∅ [] ∅).

(** [recordRunTurn]: a run turn's facts, and its end when it has one. *)
Definition recordRunTurn (turn : gostr) (endedAt : Time) (stop : gostr) (b : ccBook) : ccBook :=
  on_ledger (record_turn (MkTurn turn (session b) (agentID b) BackendCCStream SourceAutonomous [] (default 0 (runStart b !! turn)) endedAt 0 stop [] 0 None)) b.

Definition runTurnFor (w : nat) (at_ now : Time) (b : ccBook) : gostr * ccBook :=
  match runTurn b !! w with
  | Some t => (t, b)
  | None =>
      let at_ := if IsZero at_ then now else at_ in
      let t := MintTurnID (session b) "run" at_ in
      (t, recordRunTurn t 0 [] (set_runStart (<[ t := at_ ]> (runStart b)) (set_runTurn (<[ w := t ]> (runTurn b)) b)))
  end.

Definition turnSource (turn : gostr) (b : ccBook) : gostr :=
  match runStart b !! turn with Some _ => SourceAutonomous | None => SourceUser end.

(** ** Activity *)
Definition setActivity (turn : gostr) (at_ : Time) (b : ccBook) : ccBook :=
  set_closed ({[ turn ]} ∪ closed b) (on_ledger (SetTurnActivity turn at_) b).

Definition spends_tail (turn : gostr) (a : ccAgent) : bool := open a && same (ag_turn a) turn.
Definition spends_call (turn : gostr) (n : namedCall) : bool := same (n_turn n) turn && negb (retracted n).

(** A tail open on the turn, or a call named on it and not taken back. *)
Definition spending (turn : gostr) (b : ccBook) : bool :=
  existsb (fun ka => spends_tail turn ka.2) (map_to_list (agents b))
  || existsb (fun kn => spends_call turn kn.2) (map_to_list (named b)).

Definition closeIfIdle (turn : gostr) (at_ : Time) (b : ccBook) : ccBook :=
  if empty_str turn || negb (bool_decide (turn ∈ ended b)) || bool_decide (turn ∈ closed b) then b
  else if spending turn b then b else setActivity turn at_ b.

Definition reopenTurn (turn : gostr) (b : ccBook) : ccBook :=
  if bool_decide (turn ∈ closed b) then set_closed (closed b ∖ {[ turn ]}) (on_ledger (SetTurnActivity turn 0) b) else b.

Definition turnEnded (turn : gostr) (at_ : Time) (b : ccBook) : ccBook :=
  if empty_str turn then b else closeIfIdle turn at_ (set_ended ({[ turn ]} ∪ ended b) b).

Definition runEnded (turn : gostr) (at_ : Time) (stop : gostr) (b : ccBook) : ccBook :=
  turnEnded turn at_ (if bool_decide (turn ∈ ended b) then b else recordRunTurn turn at_ stop b).

(** ** Booking a call *)
Definition billedAt (at_ now : Time) : Time := if IsZero at_ then now else at_.

Definition turn_facts (turn source : gostr) (started : Time) (b : ccBook) : Turn :=
  MkTurn turn (session b) (agentID b) BackendCCStream source [] started 0 0 [] [] 0 None.

Definition call_of_line (l : ccLine) (turn actor : gostr) (w : nat) (finality : gostr) (now : Time) (b : ccBook) : Call :=
  MkCall (line_id l) BackendCCStream "anthropic" (model l) (session b) (agentID b) turn actor KindCall finality (method l)
    (billedAt (line_at l) now) (tokens l) (stopReason l) (sessionFile b) 0
    (<[ "scope"%gs := DStr (scope b) ]> {[ "window"%gs := DInt (Z.of_nat w) ]}) 0 None [].

(** The counted sums of a window, with one more call of a model. *)
Definition count_call (w : nat) (m : gostr) (s : countedSum) (b : ccBook) : ccBook :=
  set_counted (<[ w := add_sum (default ∅ (counted b !! w)) (m, s) ]> (counted b)) b.

Definition bookCall (l : ccLine) (turn actor : gostr) (w : nat) (finality : gostr) (now : Time) (b : ccBook) : ccBook :=
  let b := set_done_ids ({[ line_id l ]} ∪ done_ids b) b in
  let p := RecordCall (turn_facts turn (turnSource turn b) (billedAt (line_at l) now) b) (call_of_line l turn actor w finality now b) None (ledger b) in
  let b := set_ledger p.1 b in
  match p.2 with
  | None => b
  | Some bk =>
      if Duplicate bk then b
      else
        let b := if empty_str actor then set_mainBooked (<[ line_id l := tokens l ]> (mainBooked b)) b else b in
        let usd := CostAsOf (model l) (billedAt (line_at l) now) (tokens l) in
        if same finality FinalityInterrupted
        then set_interrupted (<[ model l := f_add (default (f_of_Z 0) (interrupted b !! model l)) usd.1 ]> (interrupted b)) b
        else count_call w (model l) (MkSum (ReportClasses (tokens l)) usd.1 (negb usd.2)) b
  end.

(** ** Lines of the main transcript *)
Definition checkUsage (l : ccLine) (b : ccBook) : ccBook :=
  if bool_decide (line_unseen l = []) then b
  else on_ledger (AlarmUnseen BackendCCStream (version b) "claude-code transcript" (line_unseen l)) b.

Definition checkFinal (l : ccLine) (b : ccBook) : ccBook :=
  match mainBooked b !! line_id l with
  | None => b
  | Some booked =>
      if negb (billed (tokens l)) || bool_decide (NonZero booked = NonZero (tokens l)) then b else alarm InvMainTranscriptFinal b
  end.

Definition with_webTool (w : bool) (l : ccLine) : ccLine :=
  MkLine (line_id l) (model l) (line_at l) (stopReason l) (complete l) (tokens l) (method l) w (line_unseen l).
Definition with_pending (p : option ccLine) (n : namedCall) : namedCall := MkNamed (n_window n) (n_turn n) (uuids n) (retracted n) p.

Definition mark_web (w : nat) (b : ccBook) : ccBook := set_webTools ({[ w ]} ∪ webTools b) b.

Definition mainLine (l : ccLine) (now : Time) (b : ccBook) : ccBook :=
  let b := checkUsage l b in
  if bool_decide (line_id l ∈ done_ids b) then
    let b := checkFinal l b in
    let b := match mainWin b !! line_id l with Some w => if webTool l then mark_web w b else b | None => b end in
    let b := set_copies (S (copies b)) b in
    match named b !! line_id l with
    | Some n => closeIfIdle (n_turn n) now (set_named (delete (line_id l) (named b)) b)
    | None => b
    end
  else
    match named b !! line_id l with
    | None =>
        let l := match held b !! line_id l with Some h => if webTool h then with_webTool true l else l | None => l end in
        set_held (<[ line_id l := l ]> (held b)) b
    | Some n =>
        let b := if webTool l then mark_web (n_window n) b else b in
        if negb (complete l) then set_named (<[ line_id l := with_pending (Some l) n ]> (named b)) b
        else
          let b := bookCall l (n_turn n) [] (n_window n) FinalityCompleted now b in
          let b := set_mainWin (<[ line_id l := n_window n ]> (mainWin b)) b in
          closeIfIdle (n_turn n) now (set_named (delete (line_id l) (named b)) b)
    end.

(** ** Calls the stream names *)
Definition with_uuid (uuid : gostr) (n : namedCall) : namedCall :=
  if negb (empty_str uuid) && negb (bool_decide (uuid ∈ uuids n))
  then MkNamed (n_window n) (n_turn n) (uuids n ++ [uuid]) (retracted n) (n_pending n) else n.

Definition streamNamed (i uuid turn : gostr) (at_ now : Time) (b : ccBook) : ccBook :=
  if empty_str i || bool_decide (i ∈ done_ids b) then b
  else match named b !! i with
  | Some n => set_named (<[ i := with_uuid uuid n ]> (named b)) b
  | None =>
      let (turn, b) := if empty_str turn then runTurnFor (window b) at_ now b else (turn, b) in
      let b := set_named (<[ i := MkNamed (window b) turn (if empty_str uuid then [] else [uuid]) false None ]> (named b)) b in
      match held b !! i with
      | Some l => mainLine l now (set_held (delete i (held b)) b)
      | None => b
      end
  end.

Definition retracts (us : list gostr) (n : namedCall) : bool :=
  negb (retracted n) && existsb (fun u => bool_decide (u ∈ us)) (uuids n).
Definition with_retracted (us : list gostr) (n : namedCall) : namedCall :=
  if retracts us n then MkNamed (n_window n) (n_turn n) (uuids n) true (n_pending n) else n.

(** Several turns, each closed when it is idle. *)
Definition close_turns (now : Time) (turns : list gostr) (b : ccBook) : ccBook := foldl (fun b t => closeIfIdle t now b) b turns.

Definition retract (us : list gostr) (now : Time) (b : ccBook) : ccBook :=
  if bool_decide (us = []) then b
  else
    let turns := omap (fun kn => if retracts us kn.2 then Some (n_turn kn.2) else None) (map_to_list (named b)) in
    close_turns now turns (set_named (with_retracted us <$> named b) b).

(** ** Subagents *)
Definition agent_for (a turn : gostr) (at_ now : Time) (b : ccBook) : ccAgent * ccBook :=
  match agents b !! a with
  | Some ag => (ag, b)
  | None =>
      let (turn, b) := if empty_str turn then runTurnFor (window b) at_ now b else (turn, b) in
      let ag := MkAgent turn (window b) false None false false in
      (ag, set_agents (<[ a := ag ]> (agents b)) b)
  end.

Definition set_agent (a : gostr) (ag : ccAgent) (b : ccBook) : ccBook := set_agents (<[ a := ag ]> (agents b)) b.
Definition no_pending (ag : ccAgent) : ccAgent := MkAgent (ag_turn ag) (ag_window ag) (open ag) None (ran ag) (sent ag).

Definition subLine (a turn : gostr) (l : ccLine) (now : Time) (b : ccBook) : ccBook :=
  if negb (IsZero (line_at l)) && Before (line_at l) (launch b) then b
  else
    let b := checkUsage l b in
    let (ag, b) := agent_for a turn (line_at l) now b in
    let b := if webTool l then mark_web (ag_window ag) b else b in
    if bool_decide (line_id l ∈ done_ids b) then b
    else if bool_decide (is_Some (named b !! line_id l)) || bool_decide (is_Some (held b !! line_id l)) then b
    else
      let b := match ag_pending ag with
               | Some p => if same (line_id p) (line_id l) then b
                           else set_agent a (no_pending ag) (bookCall p (ag_turn ag) a (ag_window ag) FinalityStopless now b)
               | None => b
               end in
      if complete l then set_agent a (no_pending ag) (bookCall l (ag_turn ag) a (ag_window ag) FinalityCompleted now b)
      else set_agent a (MkAgent (ag_turn ag) (ag_window ag) (open ag) (Some l) false false) b.

Definition subSignal (a : gostr) (sig : ccSignal) (now : Time) (b : ccBook) : ccBook :=
  let b := match sig with SignalRequest => set_requests ({[ a ]} ∪ requests b) b | _ => b end in
  match agents b !! a with
  | None => b
  | Some ag =>
      match ag_pending ag with
      | None => b
      | Some p =>
          match sig with
          | SignalToolResult => set_agent a (MkAgent (ag_turn ag) (ag_window ag) (open ag) (Some p) true (sent ag)) b
          | SignalRequest => set_agent a (MkAgent (ag_turn ag) (ag_window ag) (open ag) (Some p) (ran ag) true) b
          | SignalInterrupt =>
              if (if bool_decide (a ∈ requests b) then sent ag else ran ag) then b
              else set_agent a (no_pending ag) (bookCall p (ag_turn ag) a (ag_window ag) FinalityInterrupted now b)
          | SignalNone => b
          end
      end
  end.

Definition opened (ag : ccAgent) : ccAgent := MkAgent (ag_turn ag) (ag_window ag) true (ag_pending ag) (ran ag) (sent ag).

Definition tailOpened (a turn : gostr) (now : Time) (b : ccBook) : ccBook :=
  let (ag, b) := agent_for a turn now now b in
  reopenTurn (ag_turn ag) (set_agent a (opened ag) b).

Definition tailOpenedUnder (a parent turn : gostr) (now : Time) (b : ccBook) : ccBook :=
  match agents b !! parent with
  | Some p =>
      if empty_str parent then tailOpened a turn now b
      else
        let ag := default (MkAgent (ag_turn p) (ag_window p) false None false false) (agents b !! a) in
        reopenTurn (ag_turn ag) (set_agent a (opened ag) b)
  | None => tailOpened a turn now b
  end.

Definition tailClosed (a : gostr) (now : Time) (b : ccBook) : ccBook :=
  match agents b !! a with
  | None => b
  | Some ag =>
      let shut := MkAgent (ag_turn ag) (ag_window ag) false (ag_pending ag) (ran ag) (sent ag) in
      let b := set_agent a shut b in
      let b := match ag_pending ag with
               | Some p => set_agent a (no_pending shut) (bookCall p (ag_turn ag) a (ag_window ag) FinalityStopless now b)
               | None => b
               end in
      closeIfIdle (ag_turn ag) now b
  end.

(** ** Windows *)
Definition compactBoundary (turn : gostr) (at_ : Time) (b : ccBook) : ccBook :=
  set_boundaries (<[ window b := default [] (boundaries b !! window b) ++ [MkBoundary at_ turn] ]> (boundaries b)) b.

Definition refusalFallback (r : ccRefusal) (b : ccBook) : ccBook :=
  set_refusals (<[ window b := default [] (refusals b !! window b) ++ [r] ]> (refusals b)) b.

Definition result (mu : option usages) (running : Z) (stop : gostr) (at_ now : Time) (b : ccBook) : ccBook :=
  let b := report_all (default ∅ mu) at_ b in
  let b := set_lastMU mu b in
  let b := set_results (results b ++ [MkResult (window b) at_ mu (running =? 0)]) b in
  let b := match runTurn b !! window b with Some t => runEnded t at_ stop b | None => b end in
  set_window (S (window b)) b.

Definition costStateSeen (mu : option usages) (at_ : Time) (b : ccBook) : ccBook :=
  report_all (default ∅ mu) at_ (set_costState mu b).

Definition mainRead (start : Time) (b : ccBook) : ccBook := if After start (readFrom b) then set_readFrom start b else b.

(** What a window still waits for: named calls without a line, and open tails. *)
Definition waits_call (w : nat) (n : namedCall) : bool :=
  (n_window n <=? w)%nat && bool_decide (n_pending n = None) && negb (retracted n).
Definition waits_tail (w : nat) (a : ccAgent) : bool := (ag_window a <=? w)%nat && open a.

Definition outstanding (w : nat) (b : ccBook) : nat * nat :=
  (size (filter (fun kn => waits_call w kn.2 = true) (named b)), size (filter (fun ka => waits_tail w ka.2 = true) (agents b))).

Definition unseenNamed (b : ccBook) : nat :=
  size (filter (fun kn => bool_decide (n_pending kn.2 = None) && negb (retracted kn.2) = true) (named b)).

(** One named call of a closing window. *)
Definition close_call (now : Time) (b : ccBook) (i : gostr) (n : namedCall) : ccBook :=
  let b := set_named (delete i (named b)) b in
  if retracted n then set_done_ids ({[ i ]} ∪ done_ids b) b
  else match n_pending n with
       | Some l => bookCall l (n_turn n) [] (n_window n) FinalityInterrupted now b
       | None => alarm InvStreamIdBooked (set_done_ids ({[ i ]} ∪ done_ids b) b)
       end.

Definition closing (w : nat) (b : ccBook) : list (gostr * namedCall) :=
  omap (fun i => match named b !! i with Some n => if (n_window n <=? w)%nat then Some (i, n) else None | None => None end) (sorted_keys (named b)).

Definition drop_held (b : ccBook) : ccBook :=
  set_held ∅ (set_copies (copies b + size (held b))%nat (set_done_ids (dom (held b) ∪ done_ids b) b)).

Definition closeWindows (w : nat) (now : Time) (b : ccBook) : ccBook :=
  let cs := closing w b in
  let b := foldl (fun b c => close_call now b c.1 c.2) b cs in
  drop_held (close_turns now ((fun c => n_turn c.2) <$> cs) b).

(** ** The remainder *)
(** What the counted calls of windows up to [w] add up to. *)
Definition counted_upto (w : nat) (b : ccBook) : gmap gostr countedSum :=
  foldl (fun sums wm => if (wm.1 <=? w)%nat then foldl add_sum sums (map_to_list wm.2) else sums) ∅ (in_order (counted b)).

Definition remainder_models (mu : usages) (counted : gmap gostr countedSum) : list gostr :=
  elements (dom mu ∪ dom counted).

Definition remainder_of (mu base : usages) (counted : gmap gostr countedSum) (m : gostr) : Tokens :=
  list_to_map ((fun c => (c, usage_class (usage mu m) c - usage_class (usage base m) c - held_in counted m c)) <$> report_classes).

Definition negative (t : Tokens) : bool := existsb (fun cn => cn.2 <? 0) (map_to_list t).

Definition boundary_le (x y : ccBoundary) : Prop := b_at x <= b_at y.
#[export] Instance boundary_le_dec : RelDecision boundary_le := fun x y => Z_le_dec (b_at x) (b_at y).

Definition upto {A} (w : nat) (m : gmap nat (list A)) : list A :=
  concat (omap (fun wl => if (wl.1 <=? w)%nat then Some wl.2 else None) (in_order m)).

Definition bounds_upto (w : nat) (b : ccBook) : list ccBoundary := merge_sort boundary_le (upto w (boundaries b)).
Definition refused_upto (w : nat) (m : gostr) (b : ccBook) : list ccRefusal :=
  filter (fun r => same (rf_model r) m = true) (upto w (refusals b)).

Definition refusalBilled (r : ccRefusal) (t : Tokens) : bool :=
  negb (bool_decide (rf_retracted r = [])) || (0 <? count t ClassOutput) || in_table refusalBilledCategories (category r).

(** The share of a remainder's cache writes that had the 5-minute TTL. *)
Definition solveRemainderTTL (m : gostr) (at_ : Time) (r : Tokens) (ccCost : float64) (counted : option countedSum) : option Z :=
  let w := count r ClassCacheWrite in
  if match counted with Some s => unpriced s | None => false end then None
  else
    let countedCost := match counted with Some s => s_cost s | None => f_of_Z 0 end in
    rm ← ResolveRateModel m at_ 0;
    let rates := default ∅ (RatesAsOf rm at_) in
    r5m ← rates !! ClassCacheWrite5m;
    r1h ← rates !! ClassCacheWrite1h;
    if f_ge r5m r1h then None
    else
      let all1h := CostAsOfPrompt m at_ r 0 in
      if negb all1h.2 then None
      else
        let perToken := f_div (f_sub r1h r5m) (f_of_Z 1000000) in
        let x := f_div (f_sub all1h.1 (f_sub ccCost countedCost)) perToken in
        let n := f_Round x in
        if f_gt (SpecFloat.SFabs (f_sub x n)) SolveTolerance || f_gt (f_of_Z 0) n || f_gt n (f_of_Z w) then None else Some (f_int n).

Definition with_tokens (t : Tokens) (cm : gostr) (d : gmap gostr detail_value) (c : Call) : Call :=
  MkCall (c_Key c) (c_Backend c) (c_Provider c) (c_Model c) (c_Session c) (c_AgentID c) (c_TurnID c) (c_Actor c) (c_Kind c) (c_Finality c) cm
    (c_BilledAt c) t (c_StopReason c) (c_SessionFile c) (c_SessionLine c) d (c_LegacyID c) (c_LegacyCost c) (c_CostBasis c).

(** The call with its writes split, or as it was and an alarm. *)
Definition splitRemainderTTL (ccCost : float64) (counted : option countedSum) (c : Call) (b : ccBook) : Call * ccBook :=
  let w := count (c_Tokens c) ClassCacheWrite in
  match solveRemainderTTL (c_Model c) (c_BilledAt c) (c_Tokens c) ccCost counted with
  | None => (with_tokens (c_Tokens c) (c_ClassMethod c) (<[ "ttl"%gs := DStr "unsolved" ]> (c_Detail c)) c, alarm InvRemainderTTLUnsolved b)
  | Some x =>
      let t := add_count ClassCacheWrite5m x (add_count ClassCacheWrite1h (w - x) (delete ClassCacheWrite (c_Tokens c))) in
      (with_tokens t ClassMethodSolved (<[ "ttl"%gs := DStr "solved" ]> (c_Detail c)) c, b)
  end.

Definition split_writes (ccCost : float64) (counted : option countedSum) (c : Call) (b : ccBook) : Call * ccBook :=
  if 0 <? count (c_Tokens c) ClassCacheWrite then splitRemainderTTL ccCost counted c b else (c, b).

Definition addProcBooked (m : gostr) (s : countedSum) (b : ccBook) : ccBook := set_procBooked (add_sum (procBooked b) (m, s)) b.

(** A remainder the ledger holds no counts of. *)
Definition not_taken (m : gostr) (t : Tokens) (b : ccBook) : ccBook :=
  set_untaken (add_sum (untaken b) (m, MkSum (ReportClasses t) (f_of_Z 0) false)) b.

Definition remainder_call (m : gostr) (r : Tokens) (at_ : Time) (w : nat) (b : ccBook) : Call :=
  MkCall [] BackendCCStream "anthropic" m (session b) (agentID b) [] [] [] FinalityDerived ClassMethodUnknown at_ r [] [] 0
    (<[ "scope"%gs := DStr (scope b) ]> {[ "through_window"%gs := DInt (Z.of_nat w) ]}) 0 None [].

Definition named_call (key turn kind stop : gostr) (d : gmap gostr detail_value) (c : Call) : Call :=
  MkCall key (c_Backend c) (c_Provider c) (c_Model c) (c_Session c) (c_AgentID c) turn (c_Actor c) kind (c_Finality c) (c_ClassMethod c)
    (c_BilledAt c) (c_Tokens c) stop (c_SessionFile c) (c_SessionLine c) d (c_LegacyID c) (c_LegacyCost c) (c_CostBasis c).

Definition close_again (turn : gostr) (at_ : Time) (b : ccBook) : ccBook :=
  if bool_decide (turn ∈ closed b) then setActivity turn at_ b else b.

Definition call_price (c : Call) : float64 * bool := CostAsOfPrompt (c_Model c) (c_BilledAt c) (c_Tokens c) (PricingPrompt c).

Definition formatTokens (t : Tokens) : gostr :=
  join ", " (omap (fun c => if count t c =? 0 then None else Some (c ++ "=" ++ FormatInt (count t c))) (sorted_keys t)).

Definition bookRefusal (rs : list ccRefusal) (r0 : ccRefusal) (c : Call) (ccCost : float64) (counted : option countedSum) (w : nat)
    (now : Time) (b : ccBook) : ccBook :=
  let refused := c_Tokens c in
  let isBilled := existsb (fun r => refusalBilled r refused) rs in
  let ccFigure := match counted with Some s => f_sub ccCost (s_cost s) | None => ccCost end in
  let key := if empty_str (requestID r0)
             then "refusal:" ++ scope b ++ ":" ++ FormatInt (UnixNano (rf_at r0)) ++ ":" ++ c_Model c else "refusal:" ++ requestID r0 in
  let (turn, b) := if empty_str (rf_turn r0) then runTurnFor w (rf_at r0) now b else (rf_turn r0, b) in
  let d := <[ "refusal_category"%gs := DStr (category r0) ]> (<[ "fallback_model"%gs := DStr (fallback r0) ]>
             (<[ "refusal_billed"%gs := DBool isBilled ]> (<[ "cc_cost_usd"%gs := DFloat ccFigure ]> (c_Detail c)))) in
  let d := if (1 <? length rs)%nat then <[ "refusals"%gs := DInt (Z.of_nat (length rs)) ]> d else d in
  let c := named_call key turn KindCall "refusal" d c in
  let (c, b) := if isBilled then split_writes ccCost counted c b else (with_tokens ∅ (c_ClassMethod c) (<[ "refused_tokens"%gs := DStr (formatTokens refused) ]> (c_Detail c)) c, b) in
  let p := RecordCall (turn_facts turn (turnSource turn b) (rf_at r0) b) c None (ledger b) in
  let b := set_ledger p.1 b in
  match p.2 with
  | None => not_taken (c_Model c) refused b
  | Some bk =>
      if Duplicate bk then not_taken (c_Model c) refused b
      else
        let usd := call_price c in
        let b := if isBilled then addProcBooked (c_Model c) (MkSum (ReportClasses (c_Tokens c)) usd.1 (negb usd.2)) b
                 else not_taken (c_Model c) refused
                        (set_unbilled (<[ c_Model c := f_add (default (f_of_Z 0) (unbilled b !! c_Model c)) ccFigure ]> (unbilled b)) b) in
        close_again turn (c_BilledAt c) b
  end.

(** What the overhead booked at one remainder adds up to. *)
Record overhead := MkOverhead { ov_cost : float64; ov_models : list gostr; outputOnly : bool; known : bool }.

Definition onlyOutput (t : Tokens) : bool := forallb (fun cn => (cn.2 =? 0) || same cn.1 ClassOutput) (map_to_list t).

Definition webSideCall (m : gostr) (t : Tokens) : bool :=
  contains "haiku" (ToLower unicode_lower m)
  && forallb (fun cn => in_table [ClassInput; ClassOutput; ClassWebSearch] cn.1 || (cn.2 =? 0)) (map_to_list t).

Definition webRan (w : nat) (b : ccBook) : bool := existsb (fun v => (v <=? w)%nat) (elements (webTools b)).

Definition add_overhead (c : Call) (usd : float64) (web : bool) (o : overhead) : overhead :=
  let out := onlyOutput (c_Tokens c) in
  MkOverhead (f_add (ov_cost o) usd) (ov_models o ++ [c_Model c]) (outputOnly o && out) (known o && (out || web && webSideCall (c_Model c) (c_Tokens c))).

(** The turn a remainder is booked on, and the call completed. *)
Definition place_remainder (bounds : list ccBoundary) (label : gostr) (at_ : Time) (c : Call) (b : ccBook) : Turn * Call :=
  match bounds with
  | first :: _ =>
      let d := <[ "compactions"%gs := DInt (Z.of_nat (length bounds)) ]> (c_Detail c) in
      let key := "compact:" ++ session b ++ ":" ++ FormatInt (UnixNano (b_at first)) ++ ":" ++ c_Model c in
      let t := if empty_str (b_turn first)
               then MkTurn (MintTurnID (session b) KindCompaction (b_at first)) (session b) (agentID b) BackendCCStream SourceCompaction [] (b_at first)
                      at_ 0 [] [] at_ None
               else turn_facts (b_turn first) (turnSource (b_turn first) b) (b_at first) b in
      (t, named_call key (t_TurnID t) KindCompaction (c_StopReason c) d c)
  | [] => (MkTurn [] [] [] [] [] [] 0 0 0 [] [] 0 None,
           named_call (scope b ++ ":" ++ label ++ ":" ++ c_Model c) [] KindOverhead (c_StopReason c) (c_Detail c) c)
  end.

Definition bookRemainder (bounds : list ccBoundary) (web : bool) (label : gostr) (at_ : Time) (c : Call) (b : ccBook) (o : overhead) : ccBook * overhead :=
  let (t, c) := place_remainder bounds label at_ c b in
  let p := RecordCall t c None (ledger b) in
  let b := set_ledger p.1 b in
  match p.2 with
  | None => (not_taken (c_Model c) (c_Tokens c) b, o)
  | Some bk =>
      if Duplicate bk then (not_taken (c_Model c) (c_Tokens c) b, o)
      else
        let usd := call_price c in
        let b := addProcBooked (c_Model c) (MkSum (ReportClasses (c_Tokens c)) usd.1 (negb usd.2)) b in
        if same (c_Kind c) KindOverhead then (b, add_overhead c usd.1 web o) else (close_again (t_TurnID t) at_ b, o)
  end.

(** One model's remainder. *)
Definition remainder_model (w : nat) (mu : usages) (counted : gmap gostr countedSum) (label : gostr) (at_ now : Time)
    (bo : ccBook * overhead) (mr : gostr * Tokens) : ccBook * overhead :=
  let '(b, o) := bo in
  let '(m, r) := mr in
  if negb (billed r) then (b, o)
  else
    let c := remainder_call m r at_ w b in
    let ccCost := f_sub (CostUSD (usage mu m)) (CostUSD (usage (baseline b) m)) in
    match refused_upto w m b with
    | r0 :: rs => (bookRefusal (r0 :: rs) r0 c ccCost (counted !! m) w now b, o)
    | [] => let (c, b) := split_writes ccCost (counted !! m) c b in bookRemainder (bounds_upto w b) (webRan w b) label at_ c b o
    end.

Definition windowCost (mu base : usages) : float64 :=
  foldl (fun acc m => f_add acc (f_sub (CostUSD (usage mu m)) (CostUSD (usage base m)))) (f_of_Z 0) (map_to_list mu).*1.

Definition checkOverhead (o : overhead) (wcost : float64) (b : ccBook) : ccBook :=
  if bool_decide (ov_models o = []) then b
  else
    let bound := f_max ccOverheadBoundUSD (f_mul ccOverheadBoundShare wcost) in
    if f_ge bound (ov_cost o) then b else raise_ InvOverheadBounded (outputOnly o || known o) b.

Definition diverges (mu : usages) (b : ccBook) (m : gostr) : bool :=
  let cc := f_sub (f_sub (CostUSD (usage mu m)) (CostUSD (usage (launchBase b) m))) (default (f_of_Z 0) (unbilled b !! m)) in
  let booked := default zero_sum (procBooked b !! m) in
  if unpriced booked || f_gt ccDivergenceFloorUSD cc && f_gt ccDivergenceFloorUSD (s_cost booked) then false
  else
    let diff := SpecFloat.SFabs (f_sub (s_cost booked) cc) in
    negb (f_gt cc (f_of_Z 0) && f_ge CostDivergenceTolerance (f_div diff cc)).

Definition checkDivergence (mu : usages) (b : ccBook) : ccBook :=
  if existsb (diverges mu b) (elements (dom mu ∪ dom (procBooked b))) then alarm InvCostDivergence b else b.

(** The windows settled: their sums and marks are dropped, the baseline moves. *)
Definition later {A} (w : nat) (m : gmap nat A) : gmap nat A := filter (fun kv => (w < kv.1)%nat) m.

Definition settled (w : nat) (mu : usages) (b : ccBook) : ccBook :=
  let b := set_baseline (mu ∪ baseline b) b in
  let b := set_counted (later w (counted b)) b in
  let b := set_boundaries (later w (boundaries b)) b in
  let b := set_refusals (later w (refusals b)) b in
  let b := set_webTools (filter (fun v => (w < v)%nat) (webTools b)) b in
  set_mainWin (filter (fun kw => (w < kw.2)%nat) (mainWin b)) b.

Definition remainder (w : nat) (mu : usages) (label : gostr) (at_ now : Time) (b : ccBook) : ccBook :=
  let counted := counted_upto w b in
  let rem := (fun m => (m, remainder_of mu (baseline b) counted m)) <$> sort_strings (remainder_models mu counted) in
  if existsb (fun mr => negative mr.2) rem then alarm InvNegativeRemainder b
  else
    let b := foldl (fun b ms => addProcBooked ms.1 ms.2 b) b (map_to_list counted) in
    let '(b, o) := foldl (remainder_model w mu counted label at_ now) (b, MkOverhead (f_of_Z 0) [] true true) rem in
    let b := checkOverhead o (windowCost mu (baseline b)) b in
    checkDivergence mu (settled w mu b).

(** ** Settling *)
Definition unready (r : ccResult) (force : bool) (now : Time) (b : ccBook) : bool * bool :=
  let '(calls, tails) := outstanding (r_window r) b in
  let bound := if quiet r && (0 <? tails)%nat then subagentTailSettle else ccLineBound in
  let ready := (calls =? 0)%nat && (negb (quiet r) || (tails =? 0)%nat) in
  let due := r_at r + bound in
  (ready, negb ready && negb force && (Before now due || tailing b && Before (readFrom b) due)).

Fixpoint settle_results (force : bool) (now : Time) (rs : list ccResult) (b : ccBook) : ccBook :=
  match rs with
  | [] => b
  | r :: rs =>
      let '(ready, waits) := unready r force now b in
      if waits then b
      else
        let b := closeWindows (r_window r) now (set_results rs b) in
        let b := if quiet r && ready then remainder (r_window r) (default ∅ (r_mu r)) ("q" ++ FormatInt (Z.of_nat (r_window r))) (r_at r) now b else b in
        settle_results force now rs b
  end.

Definition settle (force : bool) (now : Time) (b : ccBook) : ccBook := settle_results force now (results b) b.

(** ** The end of the process *)
Definition window_le (x y : nat * gostr) : Prop := (x.1 <= y.1)%nat.
#[export] Instance window_le_dec : RelDecision window_le := fun x y => le_dec x.1 y.1.

Definition end_runs (now : Time) (b : ccBook) : ccBook :=
  foldl (fun b wt => runEnded wt.2 now [] b) b (merge_sort window_le (map_to_list (runTurn b))).

Definition exit (now : Time) (b : ccBook) : ccBook :=
  let b := foldl (fun b a => tailClosed a now b) b (sorted_keys (agents b)) in
  let b := settle true now b in
  let b := closeWindows (window b) now b in
  let b := end_runs now b in
  match costState b, lastMU b with
  | Some mu, _ => remainder (window b) mu "exit" now now b
  | None, Some mu => remainder (window b) mu "exit-last-result" now now b
  | None, None => b
  end.

End Book.
