(* ===== verification/CcRun.v ===== *)
(** * The adapter's loop ([internal/delegator/ccstream/ccledger.go])

    One goroutine hands the events of a process to its book in the order they
    were queued, settles what is ready after each, and passes the barriers of the
    turns that wait for their calls.  A queue that is full drops the event before
    it gets here. *)
From stdpp Require Import fin_maps gmap.
From S2P Require Import Prelude GoStrings GoNum Pricing CostLedger CcData CcBook.
Local Open Scope Z_scope.

Inductive ccEvent :=
| Named (i uuid turn : gostr) (at_ : Time)
| MainLine (l : ccLine)
| SubLine (agent turn : gostr) (l : ccLine)
| SubSignal (agent : gostr) (sig : ccSignal)
| TailOpened (agent parent turn : gostr)
| TailClosed (agent : gostr)
| BoundaryEv (turn : gostr) (at_ : Time)
| RefusalEv (r : ccRefusal) (turn : gostr) (at_ : Time)
| RetractEv (us : list gostr)
| ResultEv (mu : option usages) (running : Z) (stop : gostr) (at_ : Time)
| CostState (mu : option usages) (at_ : Time)
| SessionFile (path : gostr)
| MainRead (at_ : Time)
| MainTailEnded
| Barrier (reply : nat) (at_ : Time)
| TurnEnded (turn : gostr) (at_ : Time)
| Exit
| Tick.

(** A flush that waits: its reply channel and its deadline. *)
Record barrier := MkBarrier { reply : nat; deadline : Time }.

(** [passed] are the reply channels closed so far. *)
Record ccLedger := MkCcLedger { book : ccBook; waiting : list barrier; passed : list nat; exited : bool }.

Section Run.
Context `{PR : Prices, EN : CcEnv}.

Definition at_turn (r : ccRefusal) (turn : gostr) (at_ : Time) : ccRefusal :=
  MkRefusal at_ turn (rf_model r) (fallback r) (category r) (requestID r) (rf_retracted r).

Definition handle (e : ccEvent) (now : Time) (b : ccBook) : ccBook :=
  match e with
  | Named i uuid turn at_ => streamNamed i uuid turn at_ now b
  | MainLine l => mainLine l now b
  | SubLine a turn l => subLine a turn l now b
  | SubSignal a sig => subSignal a sig now b
  | TailOpened a parent turn => tailOpenedUnder a parent turn now b
  | TailClosed a => tailClosed a now b
  | BoundaryEv turn at_ => compactBoundary turn at_ b
  | RefusalEv r turn at_ => retract (rf_retracted r) now (refusalFallback (at_turn r turn at_) b)
  | RetractEv us => retract us now b
  | ResultEv mu running stop at_ => result mu running stop at_ now b
  | CostState mu at_ => costStateSeen mu at_ b
  | SessionFile path => set_tailing true (set_sessionFile path b)
  | MainRead at_ => mainRead at_ b
  | MainTailEnded => set_tailing false b
  | TurnEnded turn at_ => turnEnded turn at_ b
  | Barrier _ _ | Exit | Tick => b
  end.

Definition may_pass (now : Time) (b : ccBook) (w : barrier) : bool :=
  negb (tailing b) || (unseenNamed b =? 0)%nat || negb (Before now (deadline w)).

Definition release (now : Time) (s : ccLedger) : ccLedger :=
  MkCcLedger (book s) (filter (fun w => may_pass now (book s) w = false) (waiting s))
    (passed s ++ (reply <$> filter (fun w => may_pass now (book s) w = true) (waiting s))) (exited s).

(** One turn of the loop.  After the exit only the end of a turn reaches the book. *)
Definition step (s : ccLedger) (e : ccEvent) (now : Time) : ccLedger :=
  if exited s then
    match e with TurnEnded turn at_ => MkCcLedger (turnEnded turn at_ (book s)) (waiting s) (passed s) true | _ => s end
  else match e with
  | Exit => MkCcLedger (exit now (book s)) [] (passed s ++ (reply <$> waiting s)) true
  | _ =>
      let w := match e with Barrier r at_ => waiting s ++ [MkBarrier r (at_ + ccBarrierBound)] | _ => waiting s end in
      release now (MkCcLedger (settle false now (handle e now (book s))) w (passed s) false)
  end.

(** What the rest of the program does to the ledger between two events. *)
Inductive world := Event (e : ccEvent) (now : Time) | Other (o : op).

Definition world_step (s : ccLedger) (w : world) : ccLedger :=
  match w with
  | Event e now => step s e now
  | Other o => MkCcLedger (on_ledger (fun l => run_op l o) (book s)) (waiting s) (passed s) (exited s)
  end.

Definition newCCLedger (l : Ledger) (session agentID : gostr) (launch : Time) (base : usages) : ccLedger :=
  MkCcLedger (newCCBook l session agentID launch base) [] [] false.

Definition run (ws : list world) (s : ccLedger) : ccLedger := foldl world_step s ws.
End Run.
