(* ===== verification/CcMoney.v ===== *)
(** * Conservation of the counted tokens

    What the ledger holds for a process, against what Claude Code says it counts:
    the rows of the process, the sums still waiting for a quiet point, the
    baseline, and the remainders the ledger did not take always add up. *)
From stdpp Require Import fin_maps gmap sorting.
From S2P Require Import Prelude GoStrings GoNum Pricing CostLedger CcData CcBook CcRun.
Local Open Scope gostr_scope.
Local Open Scope Z_scope.

(** What a step keeps, a fold of steps keeps. *)
Lemma foldl_keeps {A B} (P : A -> Prop) (f : A -> B -> A) : (forall a x, P a -> P (f a x)) -> forall l a, P a -> P (foldl f a l).
Proof. intros Hf l. induction l as [|x l IH]; intros a Ha; [done|]. apply IH, Hf, Ha. Qed.

(** ** Sums *)
Definition sum_Z (l : list Z) : Z := foldr Z.add 0 l.

#[global] Instance sum_Z_perm : Proper ((≡ₚ) ==> eq) sum_Z.
Proof. intros l k H. unfold sum_Z. induction H; cbn [foldr]; lia. Qed.

Lemma sum_Z_app l k : sum_Z (l ++ k) = sum_Z l + sum_Z k.
Proof. unfold sum_Z. induction l as [|x l IH]; cbn [foldr app]; [lia|]. rewrite IH. lia. Qed.

Definition map_sum `{Countable K} {A} (f : K -> A -> Z) (m : gmap K A) : Z := sum_Z ((fun ka => f ka.1 ka.2) <$> map_to_list m).

Section MapSum.
Context `{Countable K} {A : Type} (f : K -> A -> Z).

Lemma map_sum_empty : map_sum f (∅ : gmap K A) = 0.
Proof. unfold map_sum. by rewrite map_to_list_empty. Qed.

Lemma map_sum_new m k a : m !! k = None -> map_sum f (<[ k := a ]> m) = f k a + map_sum f m.
Proof. intros E. unfold map_sum. by rewrite map_to_list_insert by done. Qed.

Lemma map_sum_delete m k a : m !! k = Some a -> map_sum f m = f k a + map_sum f (delete k m).
Proof. intros E. rewrite <- (insert_delete_id m k a E) at 1. by rewrite map_sum_new by apply lookup_delete_eq. Qed.

Lemma map_sum_replace m k a b : m !! k = Some a -> map_sum f (<[ k := b ]> m) = map_sum f m - f k a + f k b.
Proof.
  intros E. rewrite (map_sum_delete m k a E). rewrite <- insert_delete_eq. rewrite map_sum_new by apply lookup_delete_eq. lia.
Qed.
End MapSum.

Lemma map_sum_ext `{Countable K} {A} (f g : K -> A -> Z) (m : gmap K A) :
  (forall k a, m !! k = Some a -> f k a = g k a) -> map_sum f m = map_sum g m.
Proof.
  induction m as [|k a m E IH] using map_ind; intros Hf; [by rewrite !map_sum_empty|]. rewrite !map_sum_new by done.
  rewrite (Hf k a) by apply lookup_insert_eq. f_equal. apply IH. intros j b Hj. apply Hf. rewrite lookup_insert_ne; [done|congruence].
Qed.

Lemma map_sum_split `{Countable K} {A} (P : K * A -> Prop) `{forall x, Decision (P x)} (f : K -> A -> Z) (m : gmap K A) :
  map_sum f m = map_sum (fun k a => if decide (P (k, a)) then f k a else 0) m + map_sum f (filter (fun ka => ~ P ka) m).
Proof.
  induction m as [|k a m E IH] using map_ind; [by rewrite map_filter_empty, !map_sum_empty|]. rewrite !map_sum_new by done.
  case_decide as Hp.
  - rewrite map_filter_insert_False by (intros Hn; by apply Hn). rewrite delete_id by done. lia.
  - rewrite map_filter_insert_True by done. rewrite map_sum_new; [lia|]. apply map_lookup_filter_None. by left.
Qed.

(** ** The account *)
Definition of_scope (sc : gostr) (r : call_row) : bool := bool_decide (c_Detail (row_call r) !! "scope"%gs = Some (DStr sc)).

(** The rows Claude Code counts: an interrupted call it counts nowhere. *)
Definition in_account (sc m : gostr) (r : call_row) : bool :=
  of_scope sc r && same (c_Model (row_call r)) m && negb (same (c_Finality (row_call r)) FinalityInterrupted).

Definition row_count (sc m : gostr) (c : TokenClass) (r : call_row) : Z := if in_account sc m r then report_count (row_tokens r) c else 0.

(** What the rows of a process hold, per model and class of a report. *)
Definition booked_counts (d : DB) (sc m : gostr) (c : TokenClass) : Z := sum_Z (row_count sc m c <$> api_calls d).

(** What is counted and waits for a quiet point. *)
Definition total_counted (cm : gmap nat (gmap gostr countedSum)) (m : gostr) (c : TokenClass) : Z := map_sum (fun _ s => held_in s m c) cm.

Definition usable (mu : usages) : Prop := forall m c, 0 <= usage_class (usage mu m) c.

(** What a process starts from: its scope and the totals restored at its launch. *)
Class Origin := { o_scope : gostr; o_launch : usages }.

Record money `{OR : Origin} (b : ccBook) : Prop := MkMoney {
  m_scope : scope b = o_scope;
  m_launch : launchBase b = o_launch;
  m_settled : forall m c, c ∈ report_classes ->
    held_in (procBooked b) m c + held_in (untaken b) m c = usage_class (usage (baseline b) m) c - usage_class (usage (launchBase b) m) c;
  m_rows : forall m c, c ∈ report_classes ->
    booked_counts (db (ledger b)) (scope b) m c = held_in (procBooked b) m c + total_counted (counted b) m c;
  m_counted : forall w s m c, counted b !! w = Some s -> c ∈ report_classes -> 0 <= held_in s m c;
  m_base : usable (baseline b);
  m_results : Forall (fun r => usable (default ∅ (r_mu r))) (results b);
  m_last : usable (default ∅ (lastMU b)) /\ usable (default ∅ (costState b))
}.

Record frame (b b' : ccBook) : Prop := MkFrame {
  f_calls : api_calls (db (ledger b')) = api_calls (db (ledger b));
  f_scope : scope b' = scope b;
  f_counted : counted b' = counted b;
  f_proc : procBooked b' = procBooked b;
  f_untaken : untaken b' = untaken b;
  f_base : baseline b' = baseline b;
  f_launch : launchBase b' = launchBase b;
  f_results : results b' = results b;
  f_last : lastMU b' = lastMU b /\ costState b' = costState b
}.

(** The last totals the process reported. *)
Definition totals (b : ccBook) : option usages * option usages := (lastMU b, costState b).

#[global] Instance frame_pre : PreOrder frame.
Proof. split; [by intros b; split|]. intros b c d [] []. split; try congruence. intuition congruence. Qed.

(** The calls, lines and tails the book knows of. *)
Record rest (b b' : ccBook) : Prop := MkRest {
  rs_window : window b' = window b;
  rs_named : named b' = named b;
  rs_agents : agents b' = agents b;
  rs_held : held b' = held b;
  rs_done : done_ids b' = done_ids b
}.

#[global] Instance rest_pre : PreOrder rest.
Proof. split; [by intros b; split|]. intros b c d [] []. split; congruence. Qed.

(** No turn ends, none that was closed opens again, no run is forgotten. *)
Record kept (b b' : ccBook) : Prop := MkKept {
  k_rest : rest b b';
  k_ended : ended b' = ended b;
  k_closed : closed b ⊆ closed b';
  k_runs : runTurn b ⊆ runTurn b'
}.

#[global] Instance kept_pre : PreOrder kept.
Proof. split; [by intros b; split|]. intros b c d [] []. split; [by etransitivity|congruence|set_solver|by etransitivity]. Qed.

Definition still (b b' : ccBook) : Prop := frame b b' /\ kept b b'.

#[global] Instance still_pre : PreOrder still.
Proof. split; [by intros b|]. intros b c d [F R] [F' R']. split; by etransitivity. Qed.

Lemma still_frame b b' : still b b' -> frame b b'.
Proof. by intros []. Qed.
Lemma still_kept b b' : still b b' -> kept b b'.
Proof. by intros []. Qed.

(** A turn may end or open again. *)
Definition moved (b b' : ccBook) : Prop := frame b b' /\ rest b b'.

#[global] Instance moved_pre : PreOrder moved.
Proof. split; [by intros b|]. intros b c d [F R] [F' R']. split; by etransitivity. Qed.

Lemma still_moved b b' : still b b' -> moved b b'.
Proof. intros [F [R _ _]]. by split. Qed.

Lemma frame_money `{OR : Origin} b b' : frame b b' -> money b -> money b'.
Proof.
  intros [Hc Hs Hk Hp Hu Hb Hl Hr [H1 H2]] [C1 C2 M1 M2 M3 M4 M5 M6]. split; [congruence|congruence|..].
  - by rewrite Hp, Hu, Hb, Hl.
  - unfold booked_counts. rewrite Hc, Hs, Hk, Hp. exact M2.
  - by rewrite Hk.
  - by rewrite Hb.
  - by rewrite Hr.
  - by rewrite H1, H2.
Qed.

(** ** Sums of counted calls *)
Lemma held_in_foldl l : forall sums m c,
  held_in (foldl add_sum sums l) m c = held_in sums m c + sum_Z ((fun ms => if decide (ms.1 = m) then count (s_tokens ms.2) c else 0) <$> l).
Proof.
  induction l as [|ms l IH]; intros sums m c; cbn [foldl fmap list_fmap sum_Z foldr]; [lia|]. rewrite IH, held_in_add. cbn [sum_Z foldr]. unfold sum_Z. lia.
Qed.

Lemma held_in_total sums m c : map_sum (fun k s => if decide (k = m) then count (s_tokens s) c else 0) sums = held_in sums m c.
Proof.
  destruct (sums !! m) as [s|] eqn:E; unfold held_in at 1; rewrite E.
  - rewrite (map_sum_delete _ _ _ _ E), decide_True by done. enough (map_sum (fun k s => if decide (k = m) then count (s_tokens s) c else 0) (delete m sums) = 0) by lia.
    rewrite (map_sum_ext _ (fun _ _ => 0)); [|intros k a Hk; rewrite decide_False; [done|intros ->; by rewrite lookup_delete_eq in Hk]].
    generalize (delete m sums). intros x. induction x as [|k a x Hx IH] using map_ind; [apply map_sum_empty|]. by rewrite map_sum_new.
  - rewrite (map_sum_ext _ (fun _ _ => 0)); [|intros k a Hk; rewrite decide_False; [done|congruence]].
    clear E. induction sums as [|k a x Hx IH] using map_ind; [apply map_sum_empty|]. by rewrite map_sum_new.
Qed.

Lemma held_in_all sums0 sums m c : held_in (foldl add_sum sums0 (map_to_list sums)) m c = held_in sums0 m c + held_in sums m c.
Proof. rewrite held_in_foldl. by rewrite <- (held_in_total sums m c). Qed.

Lemma held_in_empty m c : held_in ∅ m c = 0.
Proof. unfold held_in. by rewrite lookup_empty. Qed.

Section Book.
Context `{PR : Prices, EN : CcEnv}.

Lemma held_in_upto w b m c :
  held_in (counted_upto w b) m c + total_counted (later w (counted b)) m c = total_counted (counted b) m c.
Proof.
  assert (forall l sums, held_in (foldl (fun sums wm => if (wm.1 <=? w)%nat then foldl add_sum sums (map_to_list wm.2) else sums) sums l) m c
    = held_in sums m c + sum_Z ((fun wm : nat * gmap gostr countedSum => if decide (wm.1 <= w)%nat then held_in wm.2 m c else 0) <$> l)) as Hf.
  { induction l as [|wm l IH]; intros sums; cbn [foldl fmap list_fmap]; [unfold sum_Z; cbn; lia|]. rewrite IH. unfold sum_Z. cbn [foldr].
    destruct (Nat.leb_spec wm.1 w), (decide (wm.1 <= w)%nat); try lia. rewrite held_in_all. lia. }
  unfold counted_upto. rewrite Hf, in_order_perm, held_in_empty. unfold total_counted.
  rewrite (map_sum_split (fun ka => (ka.1 <= w)%nat) (fun _ s => held_in s m c) (counted b)). f_equal.
  unfold later. f_equal. apply map_filter_ext. intros k s _. cbn. lia.
Qed.

Lemma total_counted_call w m0 s cm m c :
  total_counted (<[ w := add_sum (default ∅ (cm !! w)) (m0, s) ]> cm) m c = total_counted cm m c + (if decide (m0 = m) then count (s_tokens s) c else 0).
Proof.
  unfold total_counted. destruct (cm !! w) as [sums|] eqn:E; cbn [default from_option id].
  - rewrite (map_sum_replace _ _ _ _ _ E), held_in_add. cbn [fst snd]. lia.
  - rewrite map_sum_new by done. rewrite held_in_add, held_in_empty. cbn [fst snd]. lia.
Qed.
End Book.

(** ** The operations that leave the account alone *)
Ltac same_account := split; [reflexivity..|split; reflexivity].
Ltac same_rest := split; reflexivity.
Ltac same_kept := split; [same_rest|reflexivity|first [reflexivity|set_solver]|first [reflexivity|by apply insert_subseteq]].
Ltac same_all := split; [same_account|same_kept].

Section Frames.
Context `{PR : Prices, EN : CcEnv, OR : Origin}.

Lemma on_ledger_still f b : api_calls (db (f (ledger b))) = api_calls (db (ledger b)) -> still b (on_ledger f b).
Proof. intros H. split; [split; [exact H|reflexivity..|split; reflexivity]|same_kept]. Qed.

Lemma record_turn_calls t l : api_calls (db (record_turn t l)) = api_calls (db l).
Proof.
  unfold record_turn, Update. destruct (RecordTurn _ _) as [tx|] eqn:E; cbn; [|done].
  apply RecordTurn_spec in E as (row & _ & _ & -> & _). done.
Qed.

Lemma record_report_calls r l : api_calls (db (record_report r l)) = api_calls (db l).
Proof.
  unfold record_report, Update. destruct (store_report _ _) as [tx|] eqn:E; cbn; [|done]. apply store_report_spec in E. by rewrite E.
Qed.

Lemma SetTurnActivity_calls t a l : api_calls (db (SetTurnActivity t a l)) = api_calls (db l).
Proof. unfold SetTurnActivity. by destruct (empty_str t). Qed.

Lemma AlarmUnseen_calls k v a us l : api_calls (db (AlarmUnseen k v a us l)) = api_calls (db l).
Proof. unfold AlarmUnseen. by case_bool_decide. Qed.

Lemma raise_still inv w b : still b (raise_ inv w b).
Proof. by apply on_ledger_still. Qed.
Lemma alarm_still inv b : still b (alarm inv b).
Proof. apply raise_still. Qed.

Lemma report_all_still mu a b : still b (report_all mu a b).
Proof.
  unfold report_all. generalize (sorted_keys mu). intros l. revert b. induction l as [|m l IH]; intros b; cbn [foldl]; [reflexivity|].
  etransitivity; [|apply IH]. apply on_ledger_still, record_report_calls.
Qed.

Lemma recordRunTurn_still t e s b : still b (recordRunTurn t e s b).
Proof. apply on_ledger_still, record_turn_calls. Qed.

Lemma runTurnFor_still w a now b : still b (runTurnFor w a now b).2.
Proof.
  unfold runTurnFor. destruct (runTurn b !! w) eqn:E; [reflexivity|]. cbn [snd]. etransitivity; [|apply recordRunTurn_still].
  split; [same_account|split; [same_rest|done|done|by apply insert_subseteq]].
Qed.

Lemma setActivity_still t a b : still b (setActivity t a b).
Proof. unfold setActivity. etransitivity; [apply (on_ledger_still (SetTurnActivity t a)), SetTurnActivity_calls|same_all]. Qed.

Lemma closeIfIdle_still t a b : still b (closeIfIdle t a b).
Proof. unfold closeIfIdle. destruct (_ || _); [reflexivity|]. destruct (spending t b); [reflexivity|apply setActivity_still]. Qed.

Lemma reopenTurn_moved t b : moved b (reopenTurn t b).
Proof.
  unfold reopenTurn. case_bool_decide; [|reflexivity].
  etransitivity; [apply still_moved, (on_ledger_still (SetTurnActivity t 0)), SetTurnActivity_calls|split; [same_account|same_rest]].
Qed.

Lemma turnEnded_moved t a b : moved b (turnEnded t a b).
Proof.
  unfold turnEnded. destruct (empty_str t); [reflexivity|]. etransitivity; [|apply still_moved, closeIfIdle_still]. split; [same_account|same_rest].
Qed.

Lemma runEnded_moved t a s b : moved b (runEnded t a s b).
Proof. unfold runEnded. etransitivity; [|apply turnEnded_moved]. case_bool_decide; [reflexivity|apply still_moved, recordRunTurn_still]. Qed.

Lemma close_turns_still now ts b : still b (close_turns now ts b).
Proof.
  unfold close_turns. revert b. induction ts as [|t ts IH]; intros b; cbn [foldl]; [reflexivity|]. etransitivity; [apply closeIfIdle_still|apply IH].
Qed.

Lemma checkUsage_still l b : still b (checkUsage l b).
Proof. unfold checkUsage. case_bool_decide; [reflexivity|]. apply on_ledger_still, AlarmUnseen_calls. Qed.

Lemma checkFinal_still l b : still b (checkFinal l b).
Proof. unfold checkFinal. destruct (mainBooked b !! line_id l); [|reflexivity]. destruct (_ || _); [reflexivity|apply alarm_still]. Qed.

Lemma agent_for_frame a t at_ now b : frame b (agent_for a t at_ now b).2.
Proof.
  unfold agent_for. destruct (agents b !! a); [reflexivity|]. destruct (empty_str t).
  - pose proof (runTurnFor_still (window b) at_ now b) as H. destruct (runTurnFor _ _ _ _) as [t' b']. cbn [snd] in *. etransitivity; [exact (still_frame _ _ H)|same_account].
  - cbn [snd]. same_account.
Qed.

Lemma drop_held_frame b : frame b (drop_held b).
Proof. same_account. Qed.

(** ** Booking a call *)
Lemma booked_counts_app d sc m c r : sum_Z (row_count sc m c <$> (api_calls d ++ [r])) = booked_counts d sc m c + row_count sc m c r.
Proof. rewrite fmap_app, sum_Z_app. unfold booked_counts. cbn. lia. Qed.

Lemma line_in_account l turn actor w fin now b m c :
  row_count (scope b) m c (row_of (call_of_line l turn actor w fin now b) (db (ledger b)))
  = if decide (model l = m) then (if same fin FinalityInterrupted then 0 else report_count (tokens l) c) else 0.
Proof.
  unfold row_count, in_account, of_scope. cbn [row_call row_of call_of_line c_Detail c_Model c_Finality row_tokens c_Tokens].
  rewrite lookup_insert_eq, bool_decide_eq_true_2 by done. unfold same at 1. cbn [andb].
  case_bool_decide; case_decide; try congruence; [|done]. cbn [andb]. destruct (same fin _); cbn [negb]; [done|]. apply report_count_NonZero.
Qed.

Lemma bookCall_money l turn actor w fin now b : money b -> money (bookCall l turn actor w fin now b).
Proof.
  intros M. unfold bookCall. set (b1 := set_done_ids _ b). assert (money b1) as M1 by (apply (frame_money b); [same_account|done]).
  clearbody b1. clear M b. cbn zeta.
  pose proof (RecordCall_spec (turn_facts turn (turnSource turn b1) (billedAt (line_at l) now) b1) (call_of_line l turn actor w fin now b1) None (ledger b1)) as Hs.
  cbn zeta in Hs. destruct (RecordCall _ _ _ _) as [l' [bk|]]; cbn [fst snd] in *.
  2: { apply (frame_money b1); [|done]. subst. split; [reflexivity..|split; reflexivity]. }
  destruct Hs as [Hv Hs]. destruct (Duplicate bk).
  { destruct Hs as [[Hs _] _]. apply (frame_money b1); [|done]. split; [exact Hs|reflexivity..|split; reflexivity]. }
  destruct Hs as (_ & Hs & _). set (b2 := set_ledger l' b1).
  assert (forall m c, booked_counts (db l') (scope b1) m c = booked_counts (db (ledger b1)) (scope b1) m c
     + (if decide (model l = m) then (if same fin FinalityInterrupted then 0 else report_count (tokens l) c) else 0)) as Hb.
  { intros m c. unfold booked_counts at 1. rewrite Hs, booked_counts_app. f_equal. apply line_in_account. }
  destruct M1 as [C1 C2 H1 H2 H3 H4 H5 H6].
  assert (forall b3, frame b2 b3 -> money (if same fin FinalityInterrupted then b3 else count_call w (model l) (MkSum (ReportClasses (tokens l)) (CostAsOf (model l) (billedAt (line_at l) now) (tokens l)).1 (negb (CostAsOf (model l) (billedAt (line_at l) now) (tokens l)).2)) b3)) as Hm.
  { intros b3 [F1 F2 F3 F4 F5 F6 F7 F8 [F9 F10]]. destruct (same fin FinalityInterrupted) eqn:Ei.
    - split; rewrite ?F2, ?F3, ?F4, ?F5, ?F6, ?F7, ?F8, ?F9, ?F10; try done. intros m c Hc. unfold booked_counts. rewrite F1. cbn [set_ledger ledger scope counted procBooked b2].
      fold (booked_counts (db l') (scope b1) m c). rewrite Hb, H2 by done. case_decide; lia.
    - split; unfold count_call; cbn [set_counted procBooked untaken baseline launchBase ledger scope counted results lastMU costState];
        rewrite ?F2, ?F3, ?F4, ?F5, ?F6, ?F7, ?F8, ?F9, ?F10; try done.
      + intros m c Hc. unfold booked_counts. rewrite F1. cbn [set_ledger ledger scope counted procBooked b2].
        fold (booked_counts (db l') (scope b1) m c). rewrite Hb, H2, total_counted_call by done. cbn [s_tokens]. unfold report_count. case_decide; lia.
      + intros v s m c Hv' Hc. cbn [set_ledger counted b2] in Hv'. destruct (decide (w = v)) as [->|Hn].
        * rewrite lookup_insert_eq in Hv'. injection Hv' as <-. rewrite held_in_add. cbn [fst snd s_tokens].
          assert (0 <= held_in (default ∅ (counted b1 !! v)) m c).
          { destruct (counted b1 !! v) eqn:E; [by eapply H3|]. cbn. by rewrite held_in_empty. }
          assert (0 <= count (ReportClasses (tokens l)) c). { apply report_count_nonneg. intros k. by apply (validate_counts _ k) in Hv. }
          case_decide; lia.
        * rewrite lookup_insert_ne in Hv' by done. by eapply H3. }
  set (b3 := if empty_str actor then _ else b2). specialize (Hm b3).
  assert (frame b2 b3) as F by (subst b3; destruct (empty_str actor); [same_account|reflexivity]). specialize (Hm F).
  destruct (same fin FinalityInterrupted); [|exact Hm]. apply (frame_money b3); [same_account|exact Hm].
Qed.

End Frames.

(** ** The handlers *)
Ltac account_step :=
  match goal with
  | |- money (bookCall _ _ _ _ _ _ _) => apply bookCall_money
  | |- money (closeIfIdle ?t ?a ?b) => apply (frame_money b); [apply still_frame, closeIfIdle_still|]
  | |- money (reopenTurn ?t ?b) => apply (frame_money b); [apply (reopenTurn_moved t b)|]
  | |- money (turnEnded ?t ?a ?b) => apply (frame_money b); [apply (turnEnded_moved t a b)|]
  | |- money (runEnded ?t ?a ?s ?b) => apply (frame_money b); [apply (runEnded_moved t a s b)|]
  | |- money (close_turns ?n ?ts ?b) => apply (frame_money b); [apply still_frame, close_turns_still|]
  | |- money (checkUsage ?l ?b) => apply (frame_money b); [apply still_frame, checkUsage_still|]
  | |- money (checkFinal ?l ?b) => apply (frame_money b); [apply still_frame, checkFinal_still|]
  | |- money (alarm ?i ?b) => apply (frame_money b); [apply still_frame, alarm_still|]
  | |- money (report_all ?m ?a ?b) => apply (frame_money b); [apply still_frame, report_all_still|]
  | |- money (drop_held ?b) => apply (frame_money b); [apply drop_held_frame|]
  | |- money (mark_web _ ?b) => apply (frame_money b); [same_account|]
  | |- money (set_agent _ _ ?b) => apply (frame_money b); [same_account|]
  | |- money (set_named _ ?b) => apply (frame_money b); [same_account|]
  | |- money (set_held _ ?b) => apply (frame_money b); [same_account|]
  | |- money (set_copies _ ?b) => apply (frame_money b); [same_account|]
  | |- money (set_done_ids _ ?b) => apply (frame_money b); [same_account|]
  | |- money (set_mainWin _ ?b) => apply (frame_money b); [same_account|]
  | |- money (set_requests _ ?b) => apply (frame_money b); [same_account|]
  | |- money (set_window _ ?b) => apply (frame_money b); [same_account|]
  | |- money (set_boundaries _ ?b) => apply (frame_money b); [same_account|]
  | |- money (set_refusals _ ?b) => apply (frame_money b); [same_account|]
  | |- money (set_tailing _ ?b) => apply (frame_money b); [same_account|]
  | |- money (set_sessionFile _ ?b) => apply (frame_money b); [same_account|]
  | |- money (set_readFrom _ ?b) => apply (frame_money b); [same_account|]
  | |- money (if ?x then _ else _) => destruct x
  | |- money (match ?x with Some _ => _ | None => _ end) => destruct x
  end.
Ltac keep_account := repeat (account_step || assumption).

Section Handlers.
Context `{PR : Prices, EN : CcEnv, OR : Origin}.

Lemma mainLine_money l now b : money b -> money (mainLine l now b).
Proof. intros M. unfold mainLine. keep_account. Qed.

Lemma streamNamed_money i u t at_ now b : money b -> money (streamNamed i u t at_ now b).
Proof.
  intros M. unfold streamNamed. destruct (_ || _); [done|]. destruct (named b !! i); [keep_account|].
  set (p := if empty_str t then runTurnFor (window b) at_ now b else (t, b)).
  assert (money p.2) as M1. { subst p. destruct (empty_str t); [by eapply frame_money; [apply still_frame, runTurnFor_still|]|done]. }
  destruct p as [t1 b1]. cbn [snd] in M1. destruct (held _ !! i); [apply mainLine_money|]; keep_account.
Qed.

Lemma retract_money us now b : money b -> money (retract us now b).
Proof. intros M. unfold retract. keep_account. Qed.

Lemma agent_for_money a t at_ now b : money b -> money (agent_for a t at_ now b).2.
Proof. apply frame_money, agent_for_frame. Qed.

Lemma subLine_money a t l now b : money b -> money (subLine a t l now b).
Proof.
  intros M. unfold subLine. destruct (_ && _); [done|].
  assert (money (checkUsage l b)) as M1 by keep_account. pose proof (agent_for_money a t (line_at l) now _ M1) as M2.
  destruct (agent_for _ _ _ _ _) as [ag b2]. cbn [snd] in M2. keep_account.
Qed.

Lemma subSignal_money a s now b : money b -> money (subSignal a s now b).
Proof.
  intros M. unfold subSignal. set (b1 := match s with SignalRequest => _ | _ => b end).
  assert (money b1) as M1 by (subst b1; destruct s; keep_account). clearbody b1.
  destruct (agents b1 !! a) as [ag|]; [|done]. destruct (ag_pending ag); [|done]. destruct s; keep_account.
Qed.

Lemma tailOpened_money a t now b : money b -> money (tailOpened a t now b).
Proof.
  intros M. unfold tailOpened. pose proof (agent_for_money a t now now _ M) as M2. destruct (agent_for _ _ _ _ _) as [ag b2]. cbn [snd] in M2. keep_account.
Qed.

Lemma tailOpenedUnder_money a p t now b : money b -> money (tailOpenedUnder a p t now b).
Proof.
  intros M. unfold tailOpenedUnder. destruct (agents b !! p); [|by apply tailOpened_money]. destruct (empty_str p); [by apply tailOpened_money|]. keep_account.
Qed.

Lemma tailClosed_money a now b : money b -> money (tailClosed a now b).
Proof. intros M. unfold tailClosed. destruct (agents b !! a) as [ag|]; [|done]. keep_account. Qed.

Lemma closeWindows_money w now b : money b -> money (closeWindows w now b).
Proof.
  intros M. unfold closeWindows. set (cs := closing w b). clearbody cs. apply (frame_money (foldl (fun b c => close_call now b c.1 c.2) b cs)).
  - etransitivity; [apply still_frame, close_turns_still|apply drop_held_frame].
  - revert b M. induction cs as [|[i n] cs IH]; intros b M; cbn [foldl fst snd]; [done|]. apply IH. unfold close_call. keep_account.
Qed.

Lemma end_runs_money now b : money b -> money (end_runs now b).
Proof.
  unfold end_runs. generalize (merge_sort window_le (map_to_list (runTurn b))). intros l. revert b.
  induction l as [|[w t] l IH]; intros b M; cbn [foldl snd]; [done|]. apply IH. keep_account.
Qed.

Lemma result_money mu r s at_ now b : usable (default ∅ mu) -> money b -> money (result mu r s at_ now b).
Proof.
  intros U M. unfold result. set (b1 := report_all _ _ b). assert (money b1) as M1 by (subst b1; keep_account).
  set (b2 := set_results _ _). assert (money b2) as M2.
  { destruct M1 as [C1 C2 H1 H2 H3 H4 H5 [H6 H7]]. split; try done. cbn. apply Forall_app. split; [done|]. by constructor. }
  apply (frame_money (match runTurn b2 !! window b2 with Some t => runEnded t at_ s b2 | None => b2 end)); [same_account|]. keep_account.
Qed.

Lemma costStateSeen_money mu at_ b : usable (default ∅ mu) -> money b -> money (costStateSeen mu at_ b).
Proof.
  intros U [C1 C2 H1 H2 H3 H4 H5 [H6 H7]]. unfold costStateSeen. apply (frame_money (set_costState mu b)); [apply still_frame, report_all_still|]. by split.
Qed.
End Handlers.

(** ** One model's remainder *)
Section Remainder.
Context `{PR : Prices, EN : CcEnv, OR : Origin}.

(** A call of the main thread, but for a refused attempt. *)
Definition main_call (c : Call) : Prop :=
  c_Actor c = [] /\ c_Kind c = KindCall /\ c_Detail c !! "refusal_category"%gs = None.

Definition no_main_row (d d' : DB) : Prop := forall r, r ∈ api_calls d' -> (r ∈ api_calls d) \/ ~ main_call (row_call r).

(** The step adds [r] to what is settled on [m], in the rows or beside them. *)
Record grown (m : gostr) (r : TokenClass -> Z) (b b' : ccBook) : Prop := MkGrown {
  g_scope : scope b' = scope b;
  g_counted : counted b' = counted b;
  g_base : baseline b' = baseline b;
  g_launch : launchBase b' = launchBase b;
  g_results : results b' = results b;
  g_last : lastMU b' = lastMU b /\ costState b' = costState b;
  g_rest : kept b b';
  g_main : no_main_row (db (ledger b)) (db (ledger b'));
  g_sum : forall n c, held_in (procBooked b') n c + held_in (untaken b') n c
            = held_in (procBooked b) n c + held_in (untaken b) n c + (if decide (m = n) then r c else 0);
  g_rows : forall n c, booked_counts (db (ledger b')) (scope b) n c - held_in (procBooked b') n c
            = booked_counts (db (ledger b)) (scope b) n c - held_in (procBooked b) n c
}.

Lemma grown_still m r b b1 b2 b3 : still b b1 -> grown m r b1 b2 -> still b2 b3 -> grown m r b b3.
Proof.
  intros [[F1 F2 F3 F4 F5 F6 F7 F8 [F9 F10]] FR] [G1 G2 G3 G4 G5 [G6 G7] GR GM G8 G9] [[E1 E2 E3 E4 E5 E6 E7 E8 [E9 E10]] ER].
  split; try congruence; [split; congruence|by transitivity b1; [|transitivity b2]|..].
  - intros q Hq. rewrite E1 in Hq. rewrite <- F1. by apply GM.
  - intros n c. by rewrite E4, E5, G8, F4, F5.
  - intros n c. unfold booked_counts in *. rewrite E1, E4. rewrite F1, F2, F4 in G9. apply G9.
Qed.

Lemma booked_call_rows t c b :
  c_Detail c !! "scope"%gs = Some (DStr (scope b)) -> c_Finality c = FinalityDerived ->
  let p := RecordCall t c None (ledger b) in
  if match p.2 with Some bk => Duplicate bk | None => true end then api_calls (db p.1) = api_calls (db (ledger b))
  else (forall m k, booked_counts (db p.1) (scope b) m k
        = booked_counts (db (ledger b)) (scope b) m k + (if decide (c_Model c = m) then report_count (c_Tokens c) k else 0))
       /\ (~ main_call c -> no_main_row (db (ledger b)) (db p.1)).
Proof.
  intros Hd Hf. cbn zeta. pose proof (RecordCall_spec t c None (ledger b)) as Hs. cbn zeta in Hs.
  destruct (RecordCall t c None (ledger b)) as [l' [bk|]]; cbn [fst snd] in *; [|by subst].
  destruct Hs as [_ Hs]. destruct (Duplicate bk); [by destruct Hs as [[? _] _]|]. destruct Hs as (_ & Hs & _). split.
  2: { intros Hc q Hq. rewrite Hs in Hq. apply elem_of_app in Hq as [Hq| ->%list_elem_of_singleton]; [by left|by right]. }
  intros m k. unfold booked_counts at 1. rewrite Hs, booked_counts_app. f_equal.
  unfold row_count, in_account, of_scope. cbn [row_call row_of row_tokens]. rewrite Hd, Hf, bool_decide_eq_true_2 by done. unfold same at 1. cbn [andb].
  case_bool_decide; case_decide; try congruence; [|done]. apply report_count_NonZero.
Qed.

(** Two calls that weigh the same on the account. *)
Definition alike (c c' : Call) : Prop :=
  c_Model c' = c_Model c /\ c_Finality c' = c_Finality c /\ c_Detail c' !! "scope"%gs = c_Detail c !! "scope"%gs
  /\ forall k, report_count (c_Tokens c') k = report_count (c_Tokens c) k.

Lemma split_writes_spec cost cs c b :
  let p := split_writes cost cs c b in still b p.2 /\ alike c p.1 /\ c_Detail p.1 !! "refusal_category"%gs = c_Detail c !! "refusal_category"%gs.
Proof.
  cbn zeta. unfold split_writes, splitRemainderTTL. destruct (0 <? _); [|by split_and!].
  destruct (solveRemainderTTL _ _ _ _ _) as [x|]; cbn [fst snd].
  - split_and!; [reflexivity|..|by apply lookup_insert_ne]. split_and!; [done|done|by apply lookup_insert_ne|]. intros k. cbn [with_tokens c_Tokens]. apply report_count_split. lia.
  - split_and!; [apply alarm_still|..|by apply lookup_insert_ne]. split_and!; [done|done|by apply lookup_insert_ne|done].
Qed.

Lemma not_taken_grown m t b : grown m (report_count t) b (not_taken m t b).
Proof.
  split; try reflexivity; [by split|same_kept|by intros q Hq; left|]. intros n c. cbn [not_taken set_untaken procBooked untaken]. rewrite held_in_add. cbn [fst snd s_tokens]. unfold report_count. lia.
Qed.

Lemma with_ledger_still l' b : api_calls (db l') = api_calls (db (ledger b)) -> still b (set_ledger l' b).
Proof. intros H. split; [split; [exact H|reflexivity..|split; reflexivity]|same_kept]. Qed.

(** The call went in: its counts are in the rows and in the process's total. *)
Lemma taken_grown l' c cost u b :
  (forall m k, booked_counts (db l') (scope b) m k = booked_counts (db (ledger b)) (scope b) m k + (if decide (c_Model c = m) then report_count (c_Tokens c) k else 0)) ->
  no_main_row (db (ledger b)) (db l') ->
  grown (c_Model c) (report_count (c_Tokens c)) b (addProcBooked (c_Model c) (MkSum (ReportClasses (c_Tokens c)) cost u) (set_ledger l' b)).
Proof.
  intros H Hn. split; try reflexivity; [by split|same_kept|exact Hn|..]; intros n k; cbn [addProcBooked set_procBooked set_ledger procBooked untaken ledger]; rewrite held_in_add; cbn [fst snd s_tokens].
  - unfold report_count. lia.
  - rewrite H. unfold report_count. lia.
Qed.

Lemma close_again_still t a b : still b (close_again t a b).
Proof. unfold close_again. case_bool_decide; [apply setActivity_still|reflexivity]. Qed.

Lemma grown_weaken m r r' b b' : (forall c, r c = r' c) -> grown m r b b' -> grown m r' b b'.
Proof. intros H []. split; try assumption. intros n c. rewrite g_sum0. by rewrite H. Qed.

Lemma place_remainder_spec bounds label a c b :
  let p := place_remainder bounds label a c b in alike c p.2 /\ ~ main_call p.2.
Proof.
  cbn zeta. unfold place_remainder. destruct bounds as [|x xs]; (split; [|by intros (_ & Hk & _)]); [by split_and!|]. split_and!; try done.
  cbn [snd named_call c_Detail]. by apply lookup_insert_ne.
Qed.

Lemma bookRemainder_grown bounds web label a c b o :
  c_Detail c !! "scope"%gs = Some (DStr (scope b)) -> c_Finality c = FinalityDerived ->
  grown (c_Model c) (report_count (c_Tokens c)) b (bookRemainder bounds web label a c b o).1.
Proof.
  intros Hd Hf. unfold bookRemainder. pose proof (place_remainder_spec bounds label a c b) as [(Em & Ef & Ed & Et) Hm].
  destruct (place_remainder _ _ _ _ _) as [t c']. cbn [snd] in *. rewrite Hf in Ef. rewrite Hd in Ed.
  pose proof (booked_call_rows t c' b Ed Ef) as Hr. cbn zeta in Hr. destruct (RecordCall t c' None (ledger b)) as [l' [bk|]]; cbn [fst snd] in *.
  2: { apply (grown_weaken _ _ _ _ _ Et). rewrite <- Em. eapply grown_still; [by apply with_ledger_still|apply not_taken_grown|reflexivity]. }
  destruct (Duplicate bk).
  { apply (grown_weaken _ _ _ _ _ Et). rewrite <- Em. eapply grown_still; [by apply with_ledger_still|apply not_taken_grown|reflexivity]. }
  destruct Hr as [Hr Hq]. pose proof (taken_grown l' c' (call_price c').1 (negb (call_price c').2) b Hr (Hq Hm)) as Hg. rewrite Em in Hg at 1. apply (grown_weaken _ _ _ _ _ Et) in Hg.
  destruct (same (c_Kind c') KindOverhead); cbn [fst]; [exact Hg|]. eapply grown_still; [reflexivity|exact Hg|apply close_again_still].
Qed.

Lemma named_call_alike key turn kind stop d c :
  d !! "scope"%gs = c_Detail c !! "scope"%gs -> alike c (named_call key turn kind stop d c).
Proof. intros H. by split_and!. Qed.

(** The refused call as it is booked: nothing is billed, or all of it. *)
Lemma refusal_booked_grown t c refused figure isBilled at_ b :
  c_Detail c !! "scope"%gs = Some (DStr (scope b)) -> c_Finality c = FinalityDerived ->
  (forall k, report_count (c_Tokens c) k = if isBilled : bool then report_count refused k else 0) -> ~ main_call c ->
  let p := RecordCall t c None (ledger b) in
  let b1 := set_ledger p.1 b in
  grown (c_Model c) (report_count refused) b
    match p.2 with
    | None => not_taken (c_Model c) refused b1
    | Some bk =>
        if Duplicate bk then not_taken (c_Model c) refused b1
        else close_again (t_TurnID t) at_
               (if isBilled then addProcBooked (c_Model c) (MkSum (ReportClasses (c_Tokens c)) (call_price c).1 (negb (call_price c).2)) b1
                else not_taken (c_Model c) refused (set_unbilled (<[ c_Model c := f_add (default (f_of_Z 0) (unbilled b1 !! c_Model c)) figure ]> (unbilled b1)) b1))
    end.
Proof.
  intros Hd Hf Ht Hm. cbn zeta. pose proof (booked_call_rows t c b Hd Hf) as Hr. cbn zeta in Hr.
  destruct (RecordCall t c None (ledger b)) as [l' [bk|]]; cbn [fst snd] in *.
  2: { eapply grown_still; [by apply with_ledger_still|apply not_taken_grown|reflexivity]. }
  destruct (Duplicate bk); [eapply grown_still; [by apply with_ledger_still|apply not_taken_grown|reflexivity]|].
  destruct Hr as [Hr Hq]. specialize (Hq Hm). eapply grown_still; [reflexivity| |apply close_again_still]. destruct isBilled.
  - eapply grown_weaken; [exact Ht|]. by apply taken_grown.
  - destruct (not_taken_grown (c_Model c) refused (set_unbilled (<[ c_Model c := f_add (default (f_of_Z 0) (unbilled b !! c_Model c)) figure ]> (unbilled b)) (set_ledger l' b)))
      as [G1 G2 G3 G4 G5 G6 GR GM G7 G8]. split; try assumption; [by same_kept|]. intros n k. rewrite G8. cbn [set_unbilled set_ledger ledger scope procBooked]. rewrite Hr, Ht. case_decide; lia.
Qed.

Lemma bookRefusal_grown rs r0 c cost cs w now b :
  c_Detail c !! "scope"%gs = Some (DStr (scope b)) -> c_Finality c = FinalityDerived ->
  grown (c_Model c) (report_count (c_Tokens c)) b (bookRefusal rs r0 c cost cs w now b).
Proof.
  intros Hd Hf. unfold bookRefusal. set (isBilled := existsb _ rs). set (figure := match cs with Some s => _ | None => _ end). set (key := if empty_str (requestID r0) then _ else _).
  set (p := if empty_str (rf_turn r0) then runTurnFor w (rf_at r0) now b else (rf_turn r0, b)).
  assert (still b p.2) as Fp by (subst p; destruct (empty_str (rf_turn r0)); [apply runTurnFor_still|reflexivity]).
  destruct p as [turn b1]. cbn [snd] in Fp. cbn zeta. set (d := if (1 <? length rs)%nat then _ else _).
  assert (d !! "scope"%gs = c_Detail c !! "scope"%gs) as Ed.
  { subst d. destruct (_ <? _)%nat; rewrite ?lookup_insert_ne by done; done. }
  assert (is_Some (d !! "refusal_category"%gs)) as Ec.
  { subst d. destruct (_ <? _)%nat; [rewrite lookup_insert_ne by done|]; rewrite lookup_insert_eq; by eexists. }
  pose proof (named_call_alike key turn KindCall "refusal" d c Ed) as (A1 & A2 & A3 & A4). set (c1 := named_call _ _ _ _ _ c) in *.
  change d with (c_Detail c1) in Ec. clearbody d c1.
  set (q := if isBilled then split_writes cost cs c1 b1 else _).
  assert (still b1 q.2 /\ c_Model q.1 = c_Model c1 /\ c_Finality q.1 = c_Finality c1 /\ c_Detail q.1 !! "scope"%gs = c_Detail c1 !! "scope"%gs
    /\ is_Some (c_Detail q.1 !! "refusal_category"%gs) /\ forall k, report_count (c_Tokens q.1) k = if isBilled then report_count (c_Tokens c) k else 0) as (Fq & B1 & B2 & B3 & B0 & B4).
  { subst q. destruct isBilled.
    - pose proof (split_writes_spec cost cs c1 b1) as (Fs & (S1 & S2 & S3 & S4) & S5). split_and!; try done; [by rewrite S5|]. intros k. by rewrite S4, A4.
    - cbn [fst snd]. split_and!; [reflexivity|done|done|..].
      + cbn [with_tokens c_Detail]. by rewrite lookup_insert_ne by done.
      + cbn [with_tokens c_Detail]. by rewrite lookup_insert_ne by done.
      + intros k. apply report_count_empty. }
  destruct q as [c2 b2]. cbn [fst snd] in *.
  assert (scope b2 = scope b) as Es by (rewrite (f_scope _ _ (still_frame _ _ Fq)); apply (f_scope _ _ (still_frame _ _ Fp))).
  pose proof (refusal_booked_grown (turn_facts turn (turnSource turn b2) (rf_at r0) b2) c2 (c_Tokens c) figure isBilled (c_BilledAt c2) b2) as Hg.
  cbn zeta in Hg. rewrite B3, A3, Es in Hg. specialize (Hg Hd). rewrite B2, A2 in Hg. specialize (Hg Hf B4). rewrite B1, A1 in *. specialize (Hg ltac:(intros (_ & _ & E); rewrite E in B0; by destruct B0)). cbn [turn_facts t_TurnID] in Hg.
  assert (still b b2) as F by (by transitivity b1). eapply grown_still; [exact F|exact Hg|reflexivity].
Qed.

Lemma remainder_model_grown w mu cs label at_ now b o m r :
  (forall c, c ∈ report_classes -> report_count r c = count r c) -> (forall c, c ∉ report_classes -> count r c = 0) ->
  grown m (fun c => if decide (c ∈ report_classes) then count r c else 0) b (remainder_model w mu cs label at_ now (b, o) (m, r)).1.
Proof.
  intros Hr Hz. assert (forall c, report_count r c = if decide (c ∈ report_classes) then count r c else 0) as Hc.
  { intros c. case_decide; [by apply Hr|]. rewrite report_count_spec. by rewrite decide_False. }
  unfold remainder_model. destruct (billed r) eqn:Eb; cbn [negb].
  2: { split; try reflexivity; [by split|by intros q Hq; left|]. intros n c. cbn [fst]. rewrite (billed_false r c Eb). repeat case_decide; lia. }
  apply (grown_weaken _ _ _ _ _ Hc). set (c0 := remainder_call m r at_ w b).
  assert (c_Detail c0 !! "scope"%gs = Some (DStr (scope b))) as Hd by (cbn; by rewrite lookup_insert_eq).
  destruct (refused_upto w m b) as [|r0 rs]; cbn [fst].
  2: { by apply (bookRefusal_grown (r0 :: rs) r0 c0). }
  pose proof (split_writes_spec (f_sub (CostUSD (usage mu m)) (CostUSD (usage (baseline b) m))) (cs !! m) c0 b) as (Fs & (S1 & S2 & S3 & S4) & _).
  destruct (split_writes _ _ _ _) as [c1 b1]. cbn [fst snd] in *. rewrite <- (f_scope _ _ (still_frame _ _ Fs)) in Hd. rewrite Hd in S3.
  eapply grown_still; [exact Fs| |reflexivity]. change m with (c_Model c0). rewrite <- S1. eapply grown_weaken; [exact S4|]. by apply bookRemainder_grown.
Qed.

(** The remainders of several models. *)
Lemma remainder_models_grown (w : nat) (mu : usages) (cs : gmap gostr countedSum) (label : gostr) (at_ now : Time) (f : gostr -> Tokens) (ms : list gostr) :
  (forall m c, c ∈ report_classes -> report_count (f m) c = count (f m) c) -> (forall m c, c ∉ report_classes -> count (f m) c = 0) -> NoDup ms ->
  forall b o, let b' := (foldl (remainder_model w mu cs label at_ now) (b, o) ((fun m => (m, f m)) <$> ms)).1 in
  scope b' = scope b /\ counted b' = counted b /\ baseline b' = baseline b /\ launchBase b' = launchBase b /\ results b' = results b
  /\ lastMU b' = lastMU b /\ costState b' = costState b
  /\ (forall n c, c ∈ report_classes -> held_in (procBooked b') n c + held_in (untaken b') n c
        = held_in (procBooked b) n c + held_in (untaken b) n c + (if decide (n ∈ ms) then count (f n) c else 0))
  /\ (forall n c, booked_counts (db (ledger b')) (scope b) n c - held_in (procBooked b') n c
        = booked_counts (db (ledger b)) (scope b) n c - held_in (procBooked b) n c)
  /\ kept b b' /\ no_main_row (db (ledger b)) (db (ledger b')).
Proof.
  intros Hr Hz Hn. induction Hn as [|m ms Hm Hn IH]; intros b o; cbn zeta; cbn [fmap list_fmap foldl].
  { cbn [fst]. split_and!; try done; [|by intros q Hq; left]. intros n c _. rewrite decide_False by (by intros ?%elem_of_nil). lia. }
  pose proof (remainder_model_grown w mu cs label at_ now b o m (f m) (Hr m) (Hz m)) as [G1 G2 G3 G4 G5 [G6 G7] GR GM G8 G9].
  destruct (remainder_model _ _ _ _ _ _ _ _) as [b1 o1]. cbn [fst] in *. destruct (IH b1 o1) as (I1 & I2 & I3 & I4 & I5 & I6 & I7 & I8 & I9 & IR & IM).
  split_and!; try congruence; [|by transitivity b1|].
  - intros n c Hc. rewrite I8, G8 by done. rewrite (decide_True (P := c ∈ report_classes)) by done. repeat case_decide; subst; set_solver by lia || lia.
  - intros q Hq. destruct (IM q Hq) as [Hq1|Hq1]; [by apply GM|by right].
Qed.
End Remainder.

(** ** The remainder and the settling *)
Section Settle.
Context `{PR : Prices, EN : CcEnv, OR : Origin}.

Lemma count_remainder_of mu base cs m c :
  count (remainder_of mu base cs m) c
  = if decide (c ∈ report_classes) then usage_class (usage mu m) c - usage_class (usage base m) c - held_in cs m c else 0.
Proof. unfold remainder_of. apply count_list_to_map. Qed.

Lemma negative_spec t c : negative t = false -> 0 <= count t c.
Proof.
  unfold negative. rewrite existsb_false_Forall, Forall_forall. intros H. unfold count. destruct (t !! c) as [n|] eqn:E; [|done]. cbn.
  specialize (H (c, n)). cbn in H. apply Z.ltb_ge, H. by apply elem_of_map_to_list.
Qed.

Lemma proc_booked_sums cs b :
  frame b (set_procBooked (procBooked b) (foldl (fun b ms => addProcBooked ms.1 ms.2 b) b (map_to_list cs)))
  /\ forall m c, held_in (procBooked (foldl (fun b ms => addProcBooked ms.1 ms.2 b) b (map_to_list cs))) m c = held_in (procBooked b) m c + held_in cs m c.
Proof.
  assert (forall l b, frame b (set_procBooked (procBooked b) (foldl (fun b ms => addProcBooked ms.1 ms.2 b) b l))
    /\ procBooked (foldl (fun b ms => addProcBooked ms.1 ms.2 b) b l) = foldl add_sum (procBooked b) l) as H.
  { intros l. induction l as [|[m s] l IH]; intros c; cbn [foldl fst snd]; [split; [same_account|done]|].
    destruct (IH (addProcBooked m s c)) as [[F1 F2 F3 F4 F5 F6 F7 F8 F9] E]. split; [split|]; first [assumption|reflexivity]. }
  destruct (H (map_to_list cs) b) as [F E]. split; [exact F|]. intros m c. rewrite E. apply held_in_all.
Qed.

Lemma checkOverhead_still o wc b : still b (checkOverhead o wc b).
Proof. unfold checkOverhead. case_bool_decide; [reflexivity|]. cbn zeta. destruct (f_ge _ _); [reflexivity|apply raise_still]. Qed.

Lemma checkDivergence_still mu b : still b (checkDivergence mu b).
Proof. unfold checkDivergence. destruct (existsb _ _); [apply alarm_still|reflexivity]. Qed.

Lemma proc_booked_kept l : forall b, kept b (foldl (fun b ms => addProcBooked ms.1 ms.2 b) b l) /\ ledger (foldl (fun b ms => addProcBooked ms.1 ms.2 b) b l) = ledger b.
Proof.
  induction l as [|[m s] l IH]; intros b; cbn [foldl fst snd]; [done|]. destruct (IH (addProcBooked m s b)) as [R E].
  split; [etransitivity; [|exact R]; same_kept|exact E].
Qed.

(** The remainder's tokens are of a report's classes. *)
Lemma remainder_classes mu base cs m c :
  (c ∈ report_classes -> report_count (remainder_of mu base cs m) c = count (remainder_of mu base cs m) c)
  /\ (c ∉ report_classes -> count (remainder_of mu base cs m) c = 0).
Proof.
  split; intros Hc; [|rewrite count_remainder_of; by rewrite decide_False].
  rewrite report_count_spec, !count_remainder_of. rewrite decide_True by done. case_decide; [subst|done]. dec_classes. lia.
Qed.

Lemma remainder_kept w mu label at_ now b :
  let b' := remainder w mu label at_ now b in
  kept b b' /\ no_main_row (db (ledger b)) (db (ledger b')) /\ scope b' = scope b /\ counted b' ⊆ counted b /\ results b' = results b /\ totals b' = totals b.
Proof.
  unfold remainder. cbn zeta. set (cs := counted_upto w b). destruct (existsb _ _); [split_and!; [apply still_kept, alarm_still|by intros q Hq; left|done|done|done|done]|].
  destruct (proc_booked_kept (map_to_list cs) b) as [R E]. destruct (proc_booked_sums cs b) as [[_ F2 F3 _ _ _ _ F8 [F9 F10]] _]. set (b1 := foldl _ b (map_to_list cs)) in *.
  pose proof (remainder_models_grown w mu cs label at_ now (fun m => remainder_of mu (baseline b) cs m) (sort_strings (remainder_models mu cs))
    (fun m c => proj1 (remainder_classes mu (baseline b) cs m c)) (fun m c => proj2 (remainder_classes mu (baseline b) cs m c))
    ltac:(rewrite sort_strings_perm; apply NoDup_elements) b1 (MkOverhead (f_of_Z 0) [] true true)) as (I1 & I2 & _ & _ & I5 & I6 & I7 & _ & _ & IR & IM).
  destruct (foldl (remainder_model _ _ _ _ _ _) _ _) as [b2 o]. cbn [fst] in *. rewrite E in IM.
  pose proof (checkOverhead_still o (windowCost mu (baseline b2)) b2) as [[F1 G2 G3 _ _ _ _ G8 [G9 G10]] R3]. set (b3 := checkOverhead _ _ _) in *.
  pose proof (checkDivergence_still mu (settled w mu b3)) as [[F4 G5 G6 _ _ _ _ G11 [G12 G13]] R4].
  cbn [set_procBooked scope counted results lastMU costState] in F2, F3, F8, F9, F10. split_and!.
  - transitivity b1; [exact R|]. transitivity b2; [exact IR|]. transitivity b3; [exact R3|]. etransitivity; [|exact R4]. same_kept.
  - intros q Hq. rewrite F4 in Hq. cbn [settled set_mainWin set_webTools set_refusals set_boundaries set_counted set_baseline ledger] in Hq. rewrite F1 in Hq. by apply IM.
  - rewrite G5. cbn. congruence.
  - rewrite G6. cbn [settled set_mainWin set_webTools set_refusals set_boundaries set_counted set_baseline counted]. rewrite G3, I2, F3. apply map_filter_subseteq.
  - rewrite G11. cbn. congruence.
  - unfold totals. rewrite G12, G13. cbn. congruence.
Qed.

Lemma counted_upto_nonneg w b m c : (forall w s, counted b !! w = Some s -> 0 <= held_in s m c) -> 0 <= held_in (counted_upto w b) m c.
Proof.
  intros M3.
  assert (forall l sums, Forall (fun wm : nat * gmap gostr countedSum => 0 <= held_in wm.2 m c) l -> 0 <= held_in sums m c ->
     0 <= held_in (foldl (fun sums wm => if (wm.1 <=? w)%nat then foldl add_sum sums (map_to_list wm.2) else sums) sums l) m c) as Hf.
  { intros l. induction l as [|wm l IH]; intros sums Hl Hs; [done|]. inversion_clear Hl. cbn [foldl]. apply IH; [done|].
    destruct (_ <=? _)%nat; [|done]. rewrite held_in_all. lia. }
  apply Hf; [|rewrite held_in_empty; lia]. rewrite Forall_forall. intros [v s] Hv. rewrite in_order_perm in Hv. apply elem_of_map_to_list in Hv. by eapply M3.
Qed.

Lemma usage_in_new (mu base : usages) m : m ∈ dom mu -> usage (mu ∪ base) m = usage mu m.
Proof. intros [u Hd]%elem_of_dom. unfold usage. rewrite lookup_union, Hd. by destruct (base !! m). Qed.

Lemma usage_in_old (mu base : usages) m : m ∉ dom mu -> usage (mu ∪ base) m = usage base m /\ usage mu m = no_usage.
Proof. intros Hd%not_elem_of_dom. unfold usage. rewrite lookup_union, Hd. by destruct (base !! m). Qed.

Lemma remainder_settles w mu label at_ now b : money b -> usable mu ->
  let b' := remainder w mu label at_ now b in
  money b' /\ scope b' = scope b /\ launchBase b' = launchBase b
  /\ (b' = alarm InvNegativeRemainder b \/ (baseline b' = mu ∪ baseline b /\ counted b' = later w (counted b))).
Proof.
  intros M U. unfold remainder. cbn zeta. set (cs := counted_upto w b). set (ms := remainder_models mu cs).
  destruct (existsb _ _) eqn:En.
  { split_and!; [exact (frame_money _ _ (still_frame _ _ (alarm_still _ _)) M)|done|done|by left]. }
  assert (forall m c, m ∈ ms -> 0 <= count (remainder_of mu (baseline b) cs m) c) as Hn.
  { intros m c Hm. apply negative_spec. rewrite existsb_false_Forall, Forall_forall in En. apply (En (m, remainder_of mu (baseline b) cs m)).
    apply list_elem_of_fmap. exists m. split; [done|]. by rewrite sort_strings_perm. }
  pose proof (proc_booked_sums cs b) as [[F1 F2 F3 F4 F5 F6 F7 F8 [F9 F10]] Hp]. set (b1 := foldl _ b (map_to_list cs)) in *.
  cbn [set_procBooked ledger scope counted untaken baseline launchBase results lastMU costState] in *.
  pose proof (remainder_models_grown w mu cs label at_ now (fun m => remainder_of mu (baseline b) cs m) (sort_strings ms)) as Hg.
  destruct (foldl (remainder_model _ _ _ _ _ _) _ _) as [b2 o] eqn:Ef.
  assert (frame (settled w mu b2) (checkDivergence mu (settled w mu (checkOverhead o (windowCost mu (baseline b2)) b2)))) as Ff.
  { etransitivity; [|apply still_frame, checkDivergence_still]. destruct (still_frame _ _ (checkOverhead_still o (windowCost mu (baseline b2)) b2)) as [E1 E2 E3 E4 E5 E6 E7 E8 [E9 E10]].
    split; cbn [settled set_mainWin set_webTools set_refusals set_boundaries set_counted set_baseline ledger scope counted procBooked untaken baseline launchBase results lastMU costState];
      rewrite ?E3, ?E6; try done. }
  destruct (Hg) with (b := b1) (o := MkOverhead (f_of_Z 0) [] true true) as (I1 & I2 & I3 & I4 & I5 & I6 & I7 & I8 & I9 & IR & IM).
  { intros m c. apply remainder_classes. }
  { intros m c. apply remainder_classes. }
  { rewrite sort_strings_perm. apply NoDup_elements. }
  rewrite Ef in *. cbn [fst] in *. clear Ef Hg En.
  destruct M as [C1 C2 M1 M2 M3 M4 M5 [M6 M7]].
  assert (forall m, (m ∈ ms) \/ ((m ∉ dom mu) /\ cs !! m = None)) as Hms.
  { intros m. destruct (decide (m ∈ ms)) as [|Hm]; [by left|right]. subst ms. unfold remainder_models in Hm. rewrite elem_of_elements, elem_of_union in Hm.
    split; [tauto|]. apply not_elem_of_dom. tauto. }
  assert (forall m c, c ∈ report_classes -> 0 <= held_in cs m c) as Hcs by (intros m c Hc; apply counted_upto_nonneg; intros v s Hv; by eapply M3).
  pose proof (usage_in_new mu (baseline b)) as Hin. pose proof (usage_in_old mu (baseline b)) as Hout.
  split; [|split; [rewrite (f_scope _ _ Ff); cbn; congruence|split; [rewrite (f_launch _ _ Ff); cbn; congruence|right; split; [rewrite (f_base _ _ Ff)|rewrite (f_counted _ _ Ff)]; cbn; congruence]]].
  apply (frame_money _ _ Ff). split; [cbn; congruence|cbn; congruence|..]; cbn [settled set_mainWin set_webTools set_refusals set_boundaries set_counted set_baseline ledger scope counted procBooked untaken baseline launchBase results lastMU costState].
  - intros m c Hc. rewrite I8, Hp, F5, I4, F7, I3, F6 by done. specialize (M1 m c Hc). specialize (M4 m c). specialize (Hcs m c Hc). specialize (Hn m c).
    rewrite count_remainder_of in Hn |- *. rewrite (decide_True (P := c ∈ report_classes)) in Hn by done. rewrite (decide_True (P := c ∈ report_classes)) by done.
    assert (m ∈ sort_strings ms <-> m ∈ ms) as Hss by (by rewrite sort_strings_perm). destruct (decide (m ∈ sort_strings ms)) as [Hm|Hm]; rewrite Hss in Hm.
    + specialize (Hn Hm). destruct (decide (m ∈ dom mu)) as [Hd|Hd]; [rewrite (Hin m Hd); lia|].
      destruct (Hout m Hd) as [-> E0]. rewrite E0, no_usage_class in *. lia.
    + destruct (Hms m) as [|[Hd Hz]]; [done|]. rewrite (proj1 (Hout m Hd)). assert (held_in cs m c = 0) as E0 by (unfold held_in; by rewrite Hz). lia.
  - intros m c Hc. rewrite I1. specialize (I9 m c). specialize (M2 m c Hc). pose proof (held_in_upto w b m c) as E. fold cs in E.
    rewrite F2 in *. rewrite I2, F3. unfold booked_counts in I9 at 2. rewrite F1 in I9. fold (booked_counts (db (ledger b)) (scope b) m c) in I9. rewrite Hp in I9. lia.
  - intros v s m c Hv Hc. rewrite I2, F3 in Hv. unfold later in Hv. apply map_lookup_filter_Some in Hv as [Hv _]. by eapply M3.
  - intros m c. rewrite I3, F6. destruct (decide (m ∈ dom mu)) as [Hd|Hd]; [rewrite (Hin m Hd); apply U|rewrite (proj1 (Hout m Hd)); apply M4].
  - by rewrite I5, F8.
  - by rewrite I6, I7, F9, F10.
Qed.

Lemma settle_results_money force now rs : forall b, Forall (fun r => usable (default ∅ (r_mu r))) rs -> money b -> money (settle_results force now rs b).
Proof.
  induction rs as [|r rs IH]; intros b Hr M; [done|]. cbn [settle_results]. destruct (unready r force now b) as [ready []]; [done|].
  inversion_clear Hr as [|? ? Hr1 Hr2]. apply IH; [done|].
  assert (money (closeWindows (r_window r) now (set_results rs b))) as M1.
  { apply closeWindows_money. destruct M as [C1 C2 M1 M2 M3 M4 M5 M6]. by split. }
  destruct (_ && _); [|done]. by apply remainder_settles.
Qed.

Lemma settle_money force now b : money b -> money (settle force now b).
Proof. intros M. apply settle_results_money; [by destruct M|done]. Qed.
End Settle.

(** ** Every run *)
Section Runs.
Context `{PR : Prices, EN : CcEnv, OR : Origin}.

(** What a report may hold: no negative totals. *)
Definition sound_event (e : ccEvent) : Prop :=
  match e with ResultEv mu _ _ _ | CostState mu _ => usable (default ∅ mu) | _ => True end.

(** The rest of the program books nothing in this process's name. *)
Definition outside (w : world) : Prop :=
  match w with
  | Event e _ => sound_event e
  | Other (OpCall _ c _) => c_Detail c !! "scope"%gs <> Some (DStr o_scope)
  | Other _ => True
  end.

Lemma handle_money e now b : sound_event e -> money b -> money (handle e now b).
Proof.
  intros He M. destruct e; cbn [handle]; try done; try by keep_account.
  - by apply streamNamed_money.
  - by apply mainLine_money.
  - by apply subLine_money.
  - by apply subSignal_money.
  - by apply tailOpenedUnder_money.
  - by apply tailClosed_money.
  - unfold compactBoundary. by keep_account.
  - apply retract_money. unfold refusalFallback. by keep_account.
  - by apply retract_money.
  - by apply result_money.
  - by apply costStateSeen_money.
  - unfold mainRead. by keep_account.
Qed.

(** The book when only the last remainder is left to do. *)
Definition before_last (now : Time) (b : ccBook) : ccBook :=
  let b := settle true now (foldl (fun b a => tailClosed a now b) b (sorted_keys (agents b))) in
  end_runs now (closeWindows (window b) now b).

Definition final_totals (b : ccBook) : option (usages * gostr) :=
  match costState b, lastMU b with
  | Some mu, _ => Some (mu, "exit"%gs)
  | None, Some mu => Some (mu, "exit-last-result"%gs)
  | None, None => None
  end.

Lemma exit_last now b : exit now b =
  match final_totals (before_last now b) with
  | Some (mu, label) => remainder (window (before_last now b)) mu label now now (before_last now b)
  | None => before_last now b
  end.
Proof. unfold exit, final_totals, before_last. cbn zeta. set (b4 := end_runs now _). by destruct (costState b4), (lastMU b4). Qed.

Lemma before_last_money now b : money b -> money (before_last now b).
Proof.
  intros M. unfold before_last. cbn zeta. apply end_runs_money, closeWindows_money, settle_money. apply foldl_keeps; [|exact M].
  intros b' a. apply tailClosed_money.
Qed.

Lemma final_totals_usable b mu label : money b -> final_totals b = Some (mu, label) -> usable mu.
Proof.
  intros M. unfold final_totals. destruct (m_last _ M) as [H6 H7]. destruct (costState b); [by intros [= -> _]|].
  destruct (lastMU b); [by intros [= -> _]|done].
Qed.

Lemma exit_money now b : money b -> money (exit now b).
Proof.
  intros M%(before_last_money now). rewrite exit_last. destruct (final_totals _) as [[mu label]|] eqn:E; [|exact M].
  apply remainder_settles; [exact M|by eapply final_totals_usable].
Qed.

Lemma step_money s e now : sound_event e -> money (book s) -> money (book (step s e now)).
Proof.
  intros He M. unfold step. destruct (exited s).
  - destruct e; cbn; try done. by keep_account.
  - assert (money (settle false now (handle e now (book s)))) as Ms by (by apply settle_money, handle_money).
    destruct e; try exact Ms. by apply exit_money.
Qed.

Lemma other_money o b : (match o with OpCall _ c _ => c_Detail c !! "scope"%gs <> Some (DStr o_scope) | _ => True end) ->
  money b -> money (on_ledger (fun l => run_op l o) b).
Proof.
  intros Ho [C1 C2 M1 M2 M3 M4 M5 M6]. split; try done. intros m c Hc. cbn [on_ledger set_ledger ledger scope counted procBooked]. rewrite <- (M2 m c Hc).
  destruct o as [t k r|t|r|turn a|start|a]; cbn [run_op].
  2-6: unfold booked_counts; rewrite ?record_turn_calls, ?record_report_calls, ?SetTurnActivity_calls; done.
  pose proof (RecordCall_spec t k r (ledger b)) as Hs. cbn zeta in Hs. destruct (snd _) as [bk|]; [|by rewrite Hs].
  destruct Hs as [_ Hs]. unfold booked_counts at 1. destruct (Duplicate bk); [by destruct Hs as [[-> _] _]|]. destruct Hs as (_ & -> & _).
  rewrite booked_counts_app. unfold row_count at 1, in_account, of_scope. cbn [row_call row_of]. rewrite C1, bool_decide_eq_false_2 by done. cbn [andb]. lia.
Qed.

Lemma world_money s w : outside w -> money (book s) -> money (book (world_step s w)).
Proof.
  intros Hw M. destruct w as [e now|o]; cbn [world_step]; [by apply step_money|]. cbn [book]. apply other_money; [|done]. by destruct o.
Qed.

Lemma run_money ws : forall s, Forall outside ws -> money (book s) -> money (book (run ws s)).
Proof.
  induction ws as [|w ws IH]; intros s Hw M; [done|]. inversion_clear Hw as [|? ? H1 H2]. apply (IH (world_step s w)); [done|by apply world_money].
Qed.
End Runs.

Section Conservation.
Context `{PR : Prices, EN : CcEnv}.

Definition scope_of (session : gostr) (launch : Time) : gostr :=
  (if empty_str session then NoSession else session) ++ "@" ++ FormatInt (UnixNano launch).

Lemma new_book_money l session agent launch base :
  usable base -> Forall (fun r => of_scope (scope_of session launch) r = false) (api_calls (db l)) ->
  @money {| o_scope := scope_of session launch; o_launch := base |} (newCCBook l session agent launch base).
Proof.
  intros Hu Hn. unfold newCCBook. apply (frame_money (OR := {| o_scope := scope_of session launch; o_launch := base |}) _ _ (still_frame _ _ (report_all_still _ _ _))).
  split; try done.
  - intros m c _. cbn [procBooked untaken baseline launchBase]. rewrite !held_in_empty. lia.
  - intros m c _. cbn [ledger scope procBooked counted]. rewrite held_in_empty. unfold total_counted. rewrite map_sum_empty. unfold booked_counts.
    induction Hn as [|r rs Hr _ IH]; [done|]. cbn [fmap list_fmap]. unfold sum_Z in *. cbn [foldr]. rewrite IH.
    unfold row_count, in_account. change (of_scope _ r) with (of_scope (scope_of session launch) r). by rewrite Hr.
  - split; intros m c; unfold usage; cbn; rewrite lookup_empty, no_usage_class; lia.
Qed.

(** C6: no counted token is lost or booked twice.  For one process of Claude Code,
    whatever events reach the book in whatever order, and whatever the rest of the
    program stores in the ledger: for each model and each class of a report, the
    counts of the process's rows (interrupted calls aside) and of the remainders
    the ledger did not take are what the totals settled so far grew by since the
    launch, and the counted calls still waiting for a quiet point. *)
Theorem ledger_conserves l session agent launch base ws m c :
  usable base -> Forall (fun r => of_scope (scope_of session launch) r = false) (api_calls (db l)) ->
  Forall (outside (OR := {| o_scope := scope_of session launch; o_launch := base |})) ws -> c ∈ report_classes ->
  let b := book (run ws (newCCLedger l session agent launch base)) in
  booked_counts (db (ledger b)) (scope_of session launch) m c + held_in (untaken b) m c
  = usage_class (usage (baseline b) m) c - usage_class (usage base m) c + total_counted (counted b) m c.
Proof.
  intros Hu Hn Hw Hc. cbn zeta. pose proof (run_money (OR := {| o_scope := scope_of session launch; o_launch := base |}) ws
    (newCCLedger l session agent launch base) Hw (new_book_money l session agent launch base Hu Hn)) as [C1 C2 M1 M2 _ _ _ _].
  set (b := book _) in *. clearbody b. cbn [o_scope o_launch] in *. specialize (M1 m c Hc). specialize (M2 m c Hc). rewrite C1 in M2. rewrite C2 in M1. lia.
Qed.
End Conservation.
