(* ===== verification/CcExit.v ===== *)
(** * What the book waits for, and what it leaves behind

    Which rows of the main thread there can be, which turns are still running, and
    what the exit of the process settles. *)
From stdpp Require Import fin_maps gmap sorting.
From S2P Require Import Prelude GoStrings GoNum Pricing CostLedger CcData CcBook CcRun CcMoney.
Local Open Scope gostr_scope.
Local Open Scope Z_scope.

(** ** Where a call may be booked *)
Section Tidy.
Context `{PR : Prices, EN : CcEnv, OR : Origin} (A : gostr -> gostr -> Prop).

Definition good_named (w : nat) (i : gostr) (n : namedCall) : Prop :=
  (n_window n <= w)%nat /\ A i (n_turn n) /\ forall l, n_pending n = Some l -> line_id l = i.

(** [A] relates a call of the main thread to the turns it may be booked on. *)
Record tidy (b : ccBook) : Prop := MkTidy {
  td_scope : scope b = o_scope;
  td_counted : forall w s, counted b !! w = Some s -> (w <= window b)%nat;
  td_named : forall i n, named b !! i = Some n -> good_named (window b) i n;
  td_agents : forall a ag, agents b !! a = Some ag -> (ag_window ag <= window b)%nat /\ a <> [];
  td_rows : forall r, r ∈ api_calls (db (ledger b)) -> of_scope (scope b) r = true -> main_call (row_call r) ->
              A (c_Key (row_call r)) (c_TurnID (row_call r))
}.

Lemma tidy_same b b' : frame b b' -> window b' = window b -> named b' = named b -> agents b' = agents b -> tidy b -> tidy b'.
Proof.
  intros [F1 F2 F3 _ _ _ _ _ _] Ew En Ea [T0 T1 T2 T3 T4]. split; rewrite ?F3, ?Ew, ?En, ?Ea, ?F1, ?F2; done.
Qed.

Lemma tidy_moved b b' : moved b b' -> tidy b -> tidy b'.
Proof. intros [F [Ew En Ea _ _]]. by apply tidy_same. Qed.

Lemma tidy_still b b' : still b b' -> tidy b -> tidy b'.
Proof. intros S. by apply tidy_moved, still_moved. Qed.

Lemma tidy_set_named v b : (forall i n, v !! i = Some n -> good_named (window b) i n) -> tidy b -> tidy (set_named v b).
Proof. intros H [T0 T1 T2 T3 T4]. by split. Qed.

Lemma tidy_delete_named i b : tidy b -> tidy (set_named (delete i (named b)) b).
Proof. intros T. apply tidy_set_named; [|done]. intros j n [_ Hn]%lookup_delete_Some. by apply T. Qed.

Lemma tidy_insert_named i n b : good_named (window b) i n -> tidy b -> tidy (set_named (<[ i := n ]> (named b)) b).
Proof. intros Hg T. apply tidy_set_named; [|done]. intros j m [[<- <-]|[_ Hm]]%lookup_insert_Some; [done|by apply T]. Qed.

Lemma tidy_set_agent a ag b : (ag_window ag <= window b)%nat -> a <> [] -> tidy b -> tidy (set_agent a ag b).
Proof. intros Hw Ha [T0 T1 T2 T3 T4]. split; try done. cbn. intros j x [[<- <-]|[_ Hx]]%lookup_insert_Some; [done|by apply (T3 j)]. Qed.

(** What booking a call leaves as it was. *)
Lemma bookCall_keeps l turn actor w fin now b :
  let b' := bookCall l turn actor w fin now b in
  window b' = window b /\ named b' = named b /\ agents b' = agents b /\ held b' = held b /\ ended b' = ended b /\ closed b' = closed b
  /\ results b' = results b /\ scope b' = scope b /\ runTurn b' = runTurn b /\ done_ids b' = {[ line_id l ]} ∪ done_ids b /\ totals b' = totals b.
Proof.
  cbn zeta. unfold bookCall. destruct (RecordCall _ _ _ _) as [l' [bk|]]; cbn [snd]; [|by split_and!]. destruct (Duplicate bk); [by split_and!|].
  destruct (empty_str actor); destruct (same fin FinalityInterrupted); by split_and!.
Qed.

Lemma bookCall_tidy l turn actor w fin now b : (w <= window b)%nat -> (actor = [] -> A (line_id l) turn) -> tidy b -> tidy (bookCall l turn actor w fin now b).
Proof.
  intros Hw Ha [T0 T1 T2 T3 T4]. destruct (bookCall_keeps l turn actor w fin now b) as (Ew & En & Eg & _ & _ & _ & _ & Es & _).
  split; rewrite ?Ew, ?En, ?Eg, ?Es; try done.
  - unfold bookCall. destruct (RecordCall _ _ _ _) as [l' [bk|]]; cbn [snd]; [|exact T1]. destruct (Duplicate bk); [exact T1|].
    assert (forall v s, <[ w := add_sum (default ∅ (counted b !! w)) (model l, MkSum (ReportClasses (tokens l)) (CostAsOf (model l) (billedAt (line_at l) now) (tokens l)).1
        (negb (CostAsOf (model l) (billedAt (line_at l) now) (tokens l)).2)) ]> (counted b) !! v = Some s -> (v <= window b)%nat) as H1
      by (intros v s [[<- _]|[_ Hv]]%lookup_insert_Some; [done|by eapply T1]).
    destruct (empty_str actor); destruct (same fin FinalityInterrupted); assumption.
  - intros r. assert (api_calls (db (ledger (bookCall l turn actor w fin now b)))
      = api_calls (db (RecordCall (turn_facts turn (turnSource turn (set_done_ids ({[line_id l]} ∪ done_ids b) b)) (billedAt (line_at l) now) b) (call_of_line l turn actor w fin now b) None (ledger b)).1)) as ->.
    { unfold bookCall. change (call_of_line l turn actor w fin now (set_done_ids ({[line_id l]} ∪ done_ids b) b)) with (call_of_line l turn actor w fin now b).
      change (turn_facts turn (turnSource turn (set_done_ids ({[line_id l]} ∪ done_ids b) b)) (billedAt (line_at l) now) (set_done_ids ({[line_id l]} ∪ done_ids b) b))
        with (turn_facts turn (turnSource turn (set_done_ids ({[line_id l]} ∪ done_ids b) b)) (billedAt (line_at l) now) b).
      cbn [ledger set_done_ids]. destruct (RecordCall _ _ _ _) as [l' [bk|]]; cbn [snd fst]; [|done]. destruct (Duplicate bk); [done|].
      by destruct (empty_str actor); destruct (same fin FinalityInterrupted). }
    pose proof (RecordCall_spec (turn_facts turn (turnSource turn (set_done_ids ({[line_id l]} ∪ done_ids b) b)) (billedAt (line_at l) now) b) (call_of_line l turn actor w fin now b) None (ledger b)) as Hs.
    cbn zeta in Hs. destruct (RecordCall _ _ _ _) as [l' [bk|]]; cbn [fst snd] in *; [|subst; apply T4].
    destruct Hs as [_ Hs]. destruct (Duplicate bk); [destruct Hs as [[-> _] _]; apply T4|]. destruct Hs as (_ & -> & _).
    intros [Hr| ->%list_elem_of_singleton]%elem_of_app; [by apply T4|]. intros _ (Hm & _). by apply Ha.
Qed.

Lemma runTurnFor_tidy w a now b : tidy b -> tidy (runTurnFor w a now b).2.
Proof. apply tidy_still, runTurnFor_still. Qed.

Ltac tidy_by_setter b := apply (tidy_same b); [same_account|reflexivity..|].

Ltac tidy_step :=
  match goal with
  | |- tidy (closeIfIdle ?t ?a ?b) => apply (tidy_still b); [apply closeIfIdle_still|]
  | |- tidy (reopenTurn ?t ?b) => apply (tidy_moved b); [apply reopenTurn_moved|]
  | |- tidy (turnEnded ?t ?a ?b) => apply (tidy_moved b); [apply turnEnded_moved|]
  | |- tidy (runEnded ?t ?a ?s ?b) => apply (tidy_moved b); [apply runEnded_moved|]
  | |- tidy (close_turns ?n ?ts ?b) => apply (tidy_still b); [apply close_turns_still|]
  | |- tidy (checkUsage ?l ?b) => apply (tidy_still b); [apply checkUsage_still|]
  | |- tidy (checkFinal ?l ?b) => apply (tidy_still b); [apply checkFinal_still|]
  | |- tidy (alarm ?i ?b) => apply (tidy_still b); [apply alarm_still|]
  | |- tidy (report_all ?m ?a ?b) => apply (tidy_still b); [apply report_all_still|]
  | |- tidy (mark_web _ ?b) => tidy_by_setter b
  | |- tidy (set_held _ ?b) => tidy_by_setter b
  | |- tidy (set_copies _ ?b) => tidy_by_setter b
  | |- tidy (set_done_ids _ ?b) => tidy_by_setter b
  | |- tidy (set_mainWin _ ?b) => tidy_by_setter b
  | |- tidy (set_requests _ ?b) => tidy_by_setter b
  | |- tidy (set_boundaries _ ?b) => tidy_by_setter b
  | |- tidy (set_refusals _ ?b) => tidy_by_setter b
  | |- tidy (set_tailing _ ?b) => tidy_by_setter b
  | |- tidy (set_sessionFile _ ?b) => tidy_by_setter b
  | |- tidy (set_readFrom _ ?b) => tidy_by_setter b
  | |- tidy (set_named (delete ?i (named ?b)) ?b) => apply tidy_delete_named
  | |- tidy (if ?x then _ else _) => destruct x
  | |- tidy (match ?x with Some _ => _ | None => _ end) => destruct x eqn:?
  end.
Ltac keep_tidy := repeat (tidy_step || assumption).

Lemma mainLine_tidy l now b : tidy b -> tidy (mainLine l now b).
Proof.
  intros T. unfold mainLine. set (b1 := checkUsage l b). assert (tidy b1) as T1 by (subst b1; keep_tidy). clearbody b1. clear T b.
  case_bool_decide; [keep_tidy|]. destruct (named b1 !! line_id l) as [n|] eqn:En; [|keep_tidy].
  pose proof (td_named _ T1 _ _ En) as (Hw & Ha & Hp). set (b2 := if webTool l then mark_web (n_window n) b1 else b1).
  assert (tidy b2 /\ window b2 = window b1) as [T2 Ew] by (subst b2; destruct (webTool l); [split; [by keep_tidy|done]|done]). clearbody b2.
  destruct (negb (complete l)).
  - apply tidy_insert_named; [|done]. rewrite Ew. split_and!; [done|done|]. cbn. by intros l' [= <-].
  - keep_tidy. apply bookCall_tidy; [by rewrite Ew|done|done].
Qed.

Lemma streamNamed_tidy i u t at_ now b : (forall t', t = [] \/ t' = t -> A i t') -> tidy b -> tidy (streamNamed i u t at_ now b).
Proof.
  intros Ha T. unfold streamNamed. destruct (_ || _); [done|]. destruct (named b !! i) as [n|] eqn:En.
  - apply tidy_insert_named; [|done]. pose proof (td_named _ T _ _ En) as (Hw & Hn & Hp). unfold with_uuid. by destruct (_ && _).
  - set (p := if empty_str t then runTurnFor (window b) at_ now b else (t, b)).
    assert (tidy p.2 /\ A i p.1) as [T1 H1].
    { subst p. unfold empty_str. case_bool_decide; [split; [by apply runTurnFor_tidy|apply Ha; by left]|split; [done|apply Ha; by right]]. }
    destruct p as [t1 b1]. cbn [fst snd] in *.
    set (b2 := set_named _ b1). assert (tidy b2) as T2 by (apply tidy_insert_named; [by split_and!|done]).
    destruct (held b2 !! i); [apply mainLine_tidy|]; keep_tidy.
Qed.

Lemma retract_tidy us now b : tidy b -> tidy (retract us now b).
Proof.
  intros T. unfold retract. case_bool_decide; [done|]. keep_tidy. apply tidy_set_named; [|done].
  intros i n. rewrite lookup_fmap. destruct (named b !! i) as [m|] eqn:E; [|done]. intros [= <-].
  pose proof (td_named _ T _ _ E) as Hg. unfold with_retracted. by destruct (retracts us m).
Qed.

Lemma agent_for_tidy a t at_ now b : a <> [] -> tidy b ->
  let p := agent_for a t at_ now b in tidy p.2 /\ (ag_window p.1 <= window p.2)%nat.
Proof.
  intros Ha T. cbn zeta. unfold agent_for. destruct (agents b !! a) as [ag|] eqn:E; [split; [done|by apply (td_agents _ T a)]|].
  set (p := if empty_str t then runTurnFor (window b) at_ now b else (t, b)).
  assert (tidy p.2) as T1 by (subst p; destruct (empty_str t); [by apply runTurnFor_tidy|done]).
  destruct p as [t1 b1]. cbn [fst snd] in *. split; [by apply (tidy_set_agent a)|done].
Qed.

Lemma subLine_tidy a t l now b : a <> [] -> tidy b -> tidy (subLine a t l now b).
Proof.
  intros Ha T. unfold subLine. destruct (_ && _); [done|].
  assert (tidy (checkUsage l b)) as T1 by keep_tidy. destruct (agent_for_tidy a t (line_at l) now _ Ha T1) as [T2 Hw].
  destruct (agent_for _ _ _ _ _) as [ag b2]. cbn [fst snd] in *.
  set (b3 := if webTool l then mark_web (ag_window ag) b2 else b2).
  assert (tidy b3 /\ window b3 = window b2) as [T3 Ew] by (subst b3; destruct (webTool l); [split; [by keep_tidy|done]|done]). clearbody b3. rewrite <- Ew in Hw. clear T2 Ew b2 T T1 b.
  case_bool_decide; [done|]. destruct (_ || _); [done|].
  set (b4 := match ag_pending ag with Some p => _ | None => b3 end).
  assert (tidy b4 /\ window b4 = window b3) as [T4 Ew].
  { subst b4. destruct (ag_pending ag) as [p|]; [|done]. destruct (same _ _); [done|].
    pose proof (bookCall_keeps p (ag_turn ag) a (ag_window ag) FinalityStopless now b3) as (E & _).
    split; [|exact E]. apply tidy_set_agent; [cbn; by rewrite E|done|]. by apply bookCall_tidy. }
  clearbody b4. rewrite <- Ew in Hw. destruct (complete l); apply tidy_set_agent; try done.
  - pose proof (bookCall_keeps l (ag_turn ag) a (ag_window ag) FinalityCompleted now b4) as (E & _). cbn. by rewrite E.
  - by apply bookCall_tidy.
Qed.

Lemma subSignal_tidy a s now b : a <> [] -> tidy b -> tidy (subSignal a s now b).
Proof.
  intros Ha T. unfold subSignal. set (b1 := match s with SignalRequest => _ | _ => b end).
  assert (tidy b1) as T1 by (subst b1; destruct s; keep_tidy). clearbody b1.
  destruct (agents b1 !! a) as [ag|] eqn:E; [|done]. destruct (td_agents _ T1 _ _ E) as [Hw _].
  destruct (ag_pending ag) as [p|]; [|done]. destruct s; try done; try (by apply tidy_set_agent).
  destruct (if bool_decide _ then _ else _); [done|].
  pose proof (bookCall_keeps p (ag_turn ag) a (ag_window ag) FinalityInterrupted now b1) as (Ew & _).
  apply tidy_set_agent; [cbn; by rewrite Ew|done|]. by apply bookCall_tidy.
Qed.

Lemma tailOpened_tidy a t now b : a <> [] -> tidy b -> tidy (tailOpened a t now b).
Proof.
  intros Ha T. unfold tailOpened. destruct (agent_for_tidy a t now now b Ha T) as [T2 Hw]. destruct (agent_for _ _ _ _ _) as [ag b2]. cbn [fst snd] in *.
  keep_tidy. by apply tidy_set_agent.
Qed.

Lemma tailOpenedUnder_tidy a p t now b : a <> [] -> tidy b -> tidy (tailOpenedUnder a p t now b).
Proof.
  intros Ha T. unfold tailOpenedUnder. destruct (agents b !! p) as [q|] eqn:E; [|by apply tailOpened_tidy]. destruct (empty_str p); [by apply tailOpened_tidy|].
  keep_tidy. apply tidy_set_agent; [|done|done]. destruct (agents b !! a) as [ag|] eqn:E2; cbn; [by apply (td_agents _ T a)|by apply (td_agents _ T p)].
Qed.

Lemma tailClosed_tidy a now b : tidy b -> tidy (tailClosed a now b).
Proof.
  intros T. unfold tailClosed. destruct (agents b !! a) as [ag|] eqn:E; [|done]. destruct (td_agents _ T _ _ E) as [Hw Ha].
  keep_tidy; [|by apply tidy_set_agent].
  match goal with |- tidy (set_agent _ _ (bookCall ?l ?t ?a ?w ?f ?n ?b)) => destruct (bookCall_keeps l t a w f n b) as (Ew & _) end.
  apply tidy_set_agent; [cbn in *; by rewrite Ew|done|]. apply bookCall_tidy; [done|done|]. by apply tidy_set_agent.
Qed.
End Tidy.

(** ** Closing windows *)
Section Closing.
Context `{PR : Prices, EN : CcEnv}.

(** The calls named in the windows that close. *)
Lemma closing_elem w b i n : (i, n) ∈ closing w b <-> named b !! i = Some n /\ (n_window n <= w)%nat.
Proof.
  unfold closing. rewrite list_elem_of_omap. split.
  - intros (j & _ & H). destruct (named b !! j) as [m|] eqn:E; [|done]. destruct (Nat.leb_spec (n_window m) w); [|done]. by injection H as <- <-.
  - intros [E H]. exists i. split; [by apply sorted_keys_elem; rewrite E; eexists|]. rewrite E. by apply Nat.leb_le in H as ->.
Qed.

Lemma close_call_keeps now b i n :
  let b' := close_call now b i n in
  window b' = window b /\ named b' = delete i (named b) /\ agents b' = agents b /\ held b' = held b /\ ended b' = ended b /\ closed b' = closed b
  /\ results b' = results b /\ runTurn b' = runTurn b /\ totals b' = totals b.
Proof.
  cbn zeta. unfold close_call. destruct (retracted n); [by split_and!|]. destruct (n_pending n) as [l|]; [|by split_and!].
  destruct (bookCall_keeps l (n_turn n) [] (n_window n) FinalityInterrupted now (set_named (delete i (named b)) b)) as (? & ? & ? & ? & ? & ? & ? & _ & ? & _ & ?).
  by split_and!.
Qed.

Definition drop_names (ks : list gostr) (m : gmap gostr namedCall) : gmap gostr namedCall := foldl (fun m i => delete i m) m ks.

Lemma lookup_drop_names ks m i : drop_names ks m !! i = if decide (i ∈ ks) then None else m !! i.
Proof.
  revert m. induction ks as [|j ks IH]; intros m; cbn [drop_names foldl]; [by rewrite decide_False by (by intros ?%elem_of_nil)|].
  fold (drop_names ks (delete j m)). rewrite IH. destruct (decide (i ∈ ks)) as [Hi|Hi]; [by rewrite decide_True by by right|].
  destruct (decide (i = j)) as [->|Hn]; [rewrite decide_True by (by left); by rewrite lookup_delete_eq|].
  rewrite decide_False by (by intros [->|?]%elem_of_cons). by rewrite lookup_delete_ne.
Qed.

Lemma close_calls_keeps now cs : forall b,
  let b' := foldl (fun b c => close_call now b c.1 c.2) b cs in
  window b' = window b /\ named b' = drop_names cs.*1 (named b) /\ agents b' = agents b /\ held b' = held b /\ ended b' = ended b /\ closed b' = closed b
  /\ results b' = results b /\ runTurn b' = runTurn b /\ totals b' = totals b.
Proof.
  induction cs as [|[i n] cs IH]; intros b; cbn zeta; cbn [foldl fst snd fmap list_fmap]; [by split_and!|].
  destruct (IH (close_call now b i n)) as (E1 & E2 & E3 & E4 & E5 & E6 & E7 & E8 & E9).
  destruct (close_call_keeps now b i n) as (D1 & D2 & D3 & D4 & D5 & D6 & D7 & D8 & D9).
  split_and!; try congruence. rewrite E2, D2. done.
Qed.

(** What closing the windows up to [w] leaves: later calls are named as before. *)
Lemma closeWindows_keeps w now b :
  let b' := closeWindows w now b in
  window b' = window b /\ agents b' = agents b /\ held b' = ∅ /\ ended b' = ended b /\ closed b ⊆ closed b' /\ results b' = results b /\ runTurn b ⊆ runTurn b' /\ totals b' = totals b
  /\ forall i, named b' !! i = match named b !! i with Some n => if (n_window n <=? w)%nat then None else Some n | None => None end.
Proof.
  cbn zeta. unfold closeWindows. set (cs := closing w b). destruct (close_calls_keeps now cs b) as (E1 & E2 & E3 & E4 & E5 & E6 & E7 & E8 & E9).
  set (b1 := foldl _ b cs) in *. destruct (close_turns_still now ((fun c => n_turn c.2) <$> cs) b1) as [F [[R1 R2 R3 R4 R5] K1 K2 K3]].
  set (b2 := close_turns _ _ b1) in *. unfold drop_held. cbn [set_held set_copies set_done_ids window named agents held ended closed results runTurn].
  split_and!; try congruence; [by rewrite <- E6|rewrite (f_results _ _ F); congruence|by rewrite <- E8|destruct (f_last _ _ F) as [L1 L2]; rewrite <- E9; unfold totals; cbn; congruence|]. intros i. rewrite R2, E2, lookup_drop_names.
  assert (i ∈ cs.*1 <-> exists n, named b !! i = Some n /\ (n_window n <= w)%nat) as Hi.
  { rewrite list_elem_of_fmap. split; [intros ([j n] & -> & H%closing_elem); by exists n|intros [n Hn]; exists (i, n); split; [done|by apply closing_elem]]. }
  destruct (named b !! i) as [n|] eqn:En.
  - destruct (Nat.leb_spec (n_window n) w); [rewrite decide_True by (apply Hi; eauto); done|]. rewrite decide_False; [done|]. rewrite Hi. intros (m & [= <-] & ?). lia.
  - by destruct (decide _).
Qed.

Section WithA.
Context `{OR : Origin} (A : gostr -> gostr -> Prop).

Lemma close_calls_tidy now cs : forall b, Forall (fun c => good_named A (window b) c.1 c.2) cs -> tidy A b ->
  tidy A (foldl (fun b c => close_call now b c.1 c.2) b cs).
Proof.
  induction cs as [|[i n] cs IH]; intros b Hc T; cbn [foldl fst snd]; [done|]. inversion_clear Hc as [|? ? (Hw & Ha & Hp) Hcs]. cbn [fst snd] in *.
  destruct (close_call_keeps now b i n) as (D1 & _). apply IH; [by rewrite D1|].
  unfold close_call. assert (tidy A (set_named (delete i (named b)) b)) as T1 by (by apply tidy_delete_named).
  destruct (retracted n); [by apply (tidy_same A (set_named (delete i (named b)) b)); [same_account|reflexivity..|]|].
  destruct (n_pending n) as [q|] eqn:El.
  - apply bookCall_tidy; [done| |done]. intros _. by rewrite (Hp q).
  - apply (tidy_still A (set_done_ids ({[ i ]} ∪ done_ids (set_named (delete i (named b)) b)) (set_named (delete i (named b)) b))); [apply alarm_still|].
    by apply (tidy_same A (set_named (delete i (named b)) b)); [same_account|reflexivity..|].
Qed.

Lemma closeWindows_tidy w now b : tidy A b -> tidy A (closeWindows w now b).
Proof.
  intros T. unfold closeWindows. set (b1 := foldl _ b _). assert (tidy A b1) as T1.
  { apply close_calls_tidy; [|done]. apply Forall_forall. intros [i n] [Hn _]%closing_elem. by apply (td_named _ _ T). }
  assert (tidy A (close_turns now ((fun c => n_turn c.2) <$> closing w b) b1)) as T2 by (by apply (tidy_still A b1); [apply close_turns_still|]).
  apply (tidy_same A (close_turns now ((fun c => n_turn c.2) <$> closing w b) b1)); [apply drop_held_frame|reflexivity..|done].
Qed.

Lemma remainder_tidy w mu label at_ now b : tidy A b -> tidy A (remainder w mu label at_ now b).
Proof.
  intros [T0 T1 T2 T3 T4]. destruct (remainder_kept w mu label at_ now b) as ([[R1 R2 R3 _ _] _ _ _] & Hm & Es & Hc & _).
  split; rewrite ?R1, ?R2, ?R3, ?Es; try done.
  - intros v s Hv. apply (T1 v s). by eapply lookup_weaken.
  - intros r Hr Hs Hk. destruct (Hm r Hr) as [Hr'|Hn]; [by apply T4|by destruct Hn].
Qed.

Lemma settle_results_tidy force now rs : forall b, tidy A b -> tidy A (settle_results force now rs b).
Proof.
  induction rs as [|r rs IH]; intros b T; [done|]. cbn [settle_results]. destruct (unready r force now b) as [ready []]; [done|].
  apply IH. assert (tidy A (closeWindows (r_window r) now (set_results rs b))) as T1.
  { apply closeWindows_tidy. destruct T as [T0 T1 T2 T3 T4]. by split. }
  destruct (_ && _); [by apply remainder_tidy|done].
Qed.

Lemma result_tidy mu r s at_ now b : tidy A b -> tidy A (result mu r s at_ now b).
Proof.
  intros T. unfold result. set (b1 := report_all _ _ b). assert (tidy A b1) as T1 by (apply (tidy_still A b); [apply report_all_still|done]).
  set (b2 := set_results _ _). assert (tidy A b2) as T2 by (destruct T1; by split).
  set (b3 := match runTurn b2 !! window b2 with Some t => _ | None => b2 end).
  assert (tidy A b3) as [H0 H1 H2 H3 H4] by (subst b3; destruct (runTurn b2 !! window b2); [apply (tidy_moved A b2); [apply runEnded_moved|done]|done]).
  split; cbn; try done.
  - intros v x Hv. specialize (H1 v x Hv). lia.
  - intros i n Hn. destruct (H2 i n Hn) as (Hw & Hn2). split; [lia|done].
  - intros a ag Ha. destruct (H3 a ag Ha). split; [lia|done].
Qed.

Lemma end_runs_moved now b : moved b (end_runs now b).
Proof.
  unfold end_runs. generalize (merge_sort window_le (map_to_list (runTurn b))). intros l. revert b.
  induction l as [|[w t] l IH]; intros b; cbn [foldl snd]; [reflexivity|]. etransitivity; [apply runEnded_moved|apply IH].
Qed.
End WithA.
End Closing.

(** ** Turns that have ended *)
Section Idle.
Context `{PR : Prices, EN : CcEnv}.

(** Every turn that has ended, but for those of [T], is closed or still spending. *)
Record idle_but (T : list gostr) (b : ccBook) : Prop := MkIdle {
  id_names : [] ∉ ended b;
  id_busy : forall t, t ∈ ended b -> (t ∉ T) -> (t ∈ closed b) \/ spending t b = true
}.

Lemma spending_spec t b :
  spending t b = true <-> (exists a ag, agents b !! a = Some ag /\ open ag = true /\ ag_turn ag = t)
                       \/ (exists i n, named b !! i = Some n /\ n_turn n = t /\ retracted n = false).
Proof.
  unfold spending. rewrite orb_true_iff, !existsb_elem. apply Morphisms_Prop.or_iff_morphism; split.
  - intros ([a ag] & H%elem_of_map_to_list & Hs). unfold spends_tail, same in Hs. cbn in Hs. apply andb_true_iff in Hs as [Ho Ht%bool_decide_eq_true]. eauto.
  - intros (a & ag & H & Ho & Ht). exists (a, ag). split; [by apply elem_of_map_to_list|]. unfold spends_tail, same. cbn. by rewrite Ho, bool_decide_eq_true_2.
  - intros ([a ag] & H%elem_of_map_to_list & Hs). unfold spends_call, same in Hs. cbn in Hs.
    apply andb_true_iff in Hs as [Ht%bool_decide_eq_true Ho%negb_true_iff]. eauto.
  - intros (a & ag & H & Ht & Ho). exists (a, ag). split; [by apply elem_of_map_to_list|]. unfold spends_call, same. cbn. by rewrite Ho, bool_decide_eq_true_2.
Qed.

(** The state changes so that a turn outside [T] that was spending still is. *)
Lemma idle_step T T' b b' : ended b' = ended b -> closed b ⊆ closed b' ->
  (forall t, t ∉ T' -> t ∉ T) -> (forall t, t ∉ T' -> spending t b = true -> spending t b' = true) -> idle_but T b -> idle_but T' b'.
Proof.
  intros Ee Hc HT Hs [I1 I2]. split; rewrite Ee; [done|]. intros t Ht Hn. destruct (I2 t Ht (HT t Hn)) as [H|H]; [left; by apply Hc|right; by apply Hs].
Qed.

Lemma idle_same T b b' : ended b' = ended b -> closed b ⊆ closed b' -> agents b' = agents b -> named b' = named b -> idle_but T b -> idle_but T b'.
Proof. intros Ee Hc Ha Hn. apply idle_step; [done|done|done|]. intros t _. by rewrite !spending_spec, Ha, Hn. Qed.

Lemma idle_kept T b b' : kept b b' -> idle_but T b -> idle_but T b'.
Proof. intros [[_ En Ea _ _] Ee Hc _]. by apply idle_same. Qed.

Lemma idle_still T b b' : still b b' -> idle_but T b -> idle_but T b'.
Proof. intros S. by apply idle_kept, still_kept. Qed.

Lemma idle_book T l turn actor w fin now b : idle_but T b -> idle_but T (bookCall l turn actor w fin now b).
Proof. destruct (bookCall_keeps l turn actor w fin now b) as (_ & ? & ? & _ & ? & E & _). apply idle_same; try done. by rewrite E. Qed.

Lemma idle_close T t a b : idle_but (t :: T) b -> idle_but T (closeIfIdle t a b).
Proof.
  intros [I1 I2]. assert (forall x, x ∈ ended b -> (x ∉ T) -> x <> t -> (x ∈ closed b) \/ spending x b = true) as H.
  { intros x Hx Hn Hne. apply I2; [done|]. by intros [->|?]%elem_of_cons. }
  unfold closeIfIdle. destruct (_ || _) eqn:E.
  - split; [done|]. intros x Hx Hn. destruct (decide (x = t)) as [->|Hne]; [|by apply H]. left.
    apply orb_true_iff in E as [[E|E]%orb_true_iff|E].
    + unfold empty_str in E. apply bool_decide_eq_true in E. by subst.
    + apply negb_true_iff, bool_decide_eq_false in E. done.
    + by apply bool_decide_eq_true in E.
  - destruct (spending t b) eqn:Es; (split; [done|]); intros x Hx Hn; destruct (decide (x = t)) as [->|Hne]; [by right|by apply H|left|].
    + cbn. set_solver.
    + destruct (H x Hx Hn Hne); [left; cbn; set_solver|by right].
Qed.

Lemma idle_close_turns now ts T : forall b, idle_but (ts ++ T) b -> idle_but T (close_turns now ts b).
Proof. induction ts as [|t ts IH]; intros b I; [done|]. apply (IH (closeIfIdle t now b)), idle_close, I. Qed.

Lemma idle_weaken T T' b : (forall t, t ∈ T -> t ∈ T') -> idle_but T b -> idle_but T' b.
Proof. intros H. apply idle_step; [done|done| |done]. intros t Hn Ht. by apply Hn, H. Qed.

Lemma idle_ended t a b : idle_but [] b -> idle_but [] (turnEnded t a b).
Proof.
  intros [I1 I2]. unfold turnEnded, empty_str. case_bool_decide as Ht; [done|]. apply idle_close. split; cbn.
  - rewrite elem_of_union, elem_of_singleton. intros [E|E]; [by subst|done].
  - intros x [->%elem_of_singleton|Hx]%elem_of_union Hn; [exfalso; apply Hn; by left|]. apply I2; [done|by intros ?%elem_of_nil].
Qed.

Lemma idle_run_ended t a s b : idle_but [] b -> idle_but [] (runEnded t a s b).
Proof. intros I. apply idle_ended. case_bool_decide; [done|]. eapply idle_still; [apply recordRunTurn_still|done]. Qed.

(** Removing a named call, or changing it so that it is waited for as before. *)
Lemma idle_delete_named T i n b : named b !! i = Some n -> idle_but T b -> idle_but (n_turn n :: T) (set_named (delete i (named b)) b).
Proof.
  intros En. apply idle_step; [done|done|by intros t Hn Ht; apply Hn; right|]. intros t Hn. rewrite !spending_spec. intros [H|(j & m & Hm & Ht & Hr)]; [by left|right].
  exists j, m. split; [|done]. cbn. rewrite lookup_delete_ne; [done|]. intros ->. rewrite En in Hm. injection Hm as ->. subst. apply Hn. by left.
Qed.

Lemma idle_insert_named T i n b : (forall m, named b !! i = Some m -> n_turn n = n_turn m /\ retracted n = retracted m) ->
  idle_but T b -> idle_but T (set_named (<[ i := n ]> (named b)) b).
Proof.
  intros H. apply idle_step; [done|done|done|]. intros t _. rewrite !spending_spec. intros [Ha|(j & m & Hm & Ht & Hr)]; [by left|right].
  cbn. destruct (decide (i = j)) as [->|Hn]; [|exists j, m; by rewrite lookup_insert_ne]. destruct (H m Hm). exists j, n. rewrite lookup_insert_eq. split_and!; congruence.
Qed.

Lemma idle_set_agent T a ag b : (forall x, agents b !! a = Some x -> ag_turn ag = ag_turn x /\ (open x = true -> open ag = true)) ->
  idle_but T b -> idle_but T (set_agent a ag b).
Proof.
  intros H. apply idle_step; [done|done|done|]. intros t _. rewrite !spending_spec. intros [(c & x & Hx & Ho & Ht)|Hn]; [left|by right].
  cbn. destruct (decide (a = c)) as [->|Hn]; [|exists c, x; by rewrite lookup_insert_ne]. destruct (H x Hx) as [E Ho']. exists c, ag. rewrite lookup_insert_eq. split_and!; [done|by apply Ho'|congruence].
Qed.

Lemma idle_shut_agent T a x ag b : agents b !! a = Some x -> ag_turn ag = ag_turn x -> idle_but T b -> idle_but (ag_turn ag :: T) (set_agent a ag b).
Proof.
  intros Ea Et. apply idle_step; [done|done|by intros t Hn Ht; apply Hn; right|]. intros t Hn. rewrite !spending_spec. intros [(c & y & Hy & Ho & Ht)|H]; [left|by right].
  cbn. destruct (decide (a = c)) as [->|Hne]; [|exists c, y; by rewrite lookup_insert_ne]. rewrite Ea in Hy. injection Hy as ->. exfalso. apply Hn. rewrite <- Ht, <- Et. by left.
Qed.

Lemma idle_reopen t b : spending t b = true -> idle_but [] b -> idle_but [] (reopenTurn t b).
Proof.
  intros Hs [I1 I2]. unfold reopenTurn. case_bool_decide; [|done]. split; [done|]. intros x Hx Hn. change (spending x (set_closed _ _)) with (spending x b).
  destruct (decide (x = t)) as [->|Hne]; [by right|]. destruct (I2 x Hx Hn); [left; cbn; set_solver|by right].
Qed.

Ltac idle_by_setter b := apply (idle_same _ b); [reflexivity..|].
Ltac idle_tac :=
  match goal with
  | |- idle_but _ (bookCall _ _ _ _ _ _ _) => apply idle_book
  | |- idle_but _ (closeIfIdle _ _ _) => apply idle_close
  | |- idle_but _ (checkUsage ?l ?b) => apply (idle_still _ b); [apply checkUsage_still|]
  | |- idle_but _ (checkFinal ?l ?b) => apply (idle_still _ b); [apply checkFinal_still|]
  | |- idle_but _ (alarm ?i ?b) => apply (idle_still _ b); [apply alarm_still|]
  | |- idle_but _ (report_all ?m ?a ?b) => apply (idle_still _ b); [apply report_all_still|]
  | |- idle_but _ (mark_web _ ?b) => idle_by_setter b
  | |- idle_but _ (set_held _ ?b) => idle_by_setter b
  | |- idle_but _ (set_copies _ ?b) => idle_by_setter b
  | |- idle_but _ (set_done_ids _ ?b) => idle_by_setter b
  | |- idle_but _ (set_mainWin _ ?b) => idle_by_setter b
  | |- idle_but _ (set_requests _ ?b) => idle_by_setter b
  | |- idle_but _ (set_boundaries _ ?b) => idle_by_setter b
  | |- idle_but _ (set_refusals _ ?b) => idle_by_setter b
  | |- idle_but _ (set_tailing _ ?b) => idle_by_setter b
  | |- idle_but _ (set_sessionFile _ ?b) => idle_by_setter b
  | |- idle_but _ (set_readFrom _ ?b) => idle_by_setter b
  | |- idle_but _ (set_window _ ?b) => idle_by_setter b
  | |- idle_but _ (set_results _ ?b) => idle_by_setter b
  | |- idle_but _ (set_lastMU _ ?b) => idle_by_setter b
  | |- idle_but _ (set_costState _ ?b) => idle_by_setter b
  | |- idle_but _ (if ?x then _ else _) => destruct x
  | |- idle_but _ (match ?x with Some _ => _ | None => _ end) => destruct x eqn:?
  end.
Ltac keep_idle := repeat (idle_tac || assumption).

Lemma mainLine_idle l now b : idle_but [] b -> idle_but [] (mainLine l now b).
Proof.
  intros I. unfold mainLine. set (b1 := checkUsage l b). assert (idle_but [] b1) as I1 by (subst b1; keep_idle). clearbody b1. clear I b.
  case_bool_decide.
  - set (b2 := match mainWin (checkFinal l b1) !! line_id l with Some w => _ | None => _ end). assert (idle_but [] b2) as I2 by (subst b2; keep_idle).
    destruct (named (set_copies _ b2) !! line_id l) as [n|] eqn:En; [|keep_idle]. apply idle_close, (idle_delete_named _ _ n); [done|keep_idle].
  - destruct (named b1 !! line_id l) as [n|] eqn:En; [|keep_idle]. set (b2 := if webTool l then mark_web (n_window n) b1 else b1).
    assert (idle_but [] b2 /\ named b2 = named b1) as [I2 E2] by (subst b2; destruct (webTool l); [split; [by keep_idle|done]|done]). clearbody b2.
    destruct (negb (complete l)).
    + apply idle_insert_named; [|done]. rewrite E2, En. by intros m [= <-].
    + set (b3 := set_mainWin _ _). assert (idle_but [] b3) as I3 by (subst b3; keep_idle).
      apply idle_close, (idle_delete_named _ _ n); [|done]. cbn. destruct (bookCall_keeps l (n_turn n) [] (n_window n) FinalityCompleted now b2) as (_ & -> & _). by rewrite E2.
Qed.

Lemma streamNamed_idle i u t at_ now b : idle_but [] b -> idle_but [] (streamNamed i u t at_ now b).
Proof.
  intros I. unfold streamNamed. destruct (_ || _); [done|]. destruct (named b !! i) as [n|] eqn:En.
  - apply idle_insert_named; [|done]. rewrite En. intros m [= <-]. unfold with_uuid. by destruct (_ && _).
  - set (p := if empty_str t then runTurnFor (window b) at_ now b else (t, b)).
    assert (idle_but [] p.2 /\ named p.2 = named b) as [I1 E1].
    { subst p. destruct (empty_str t); [|done]. pose proof (runTurnFor_still (window b) at_ now b) as [_ K]. split; [by eapply idle_kept|apply K]. }
    destruct p as [t1 b1]. cbn [fst snd] in *. set (b2 := set_named _ b1).
    assert (idle_but [] b2) as I2 by (apply idle_insert_named; [by rewrite E1, En|done]).
    destruct (held b2 !! i); [apply mainLine_idle|]; keep_idle.
Qed.

Lemma retract_idle us now b : idle_but [] b -> idle_but [] (retract us now b).
Proof.
  intros I. unfold retract. case_bool_decide; [done|]. apply idle_close_turns. rewrite app_nil_r. revert I.
  apply idle_step; [done|done|by intros t _ ?%elem_of_nil|]. intros t Hn. rewrite !spending_spec. intros [Ha|(i & n & En & Ht & Hr)]; [by left|right].
  exists i, n. split; [|done]. cbn. rewrite lookup_fmap, En. cbn. f_equal. unfold with_retracted. destruct (retracts us n) eqn:E; [|done]. exfalso. apply Hn.
  apply list_elem_of_omap. exists (i, n). split; [by apply elem_of_map_to_list|]. cbn. by rewrite E, Ht.
Qed.

Lemma agent_for_idle a t at_ now b : idle_but [] b ->
  let p := agent_for a t at_ now b in idle_but [] p.2 /\ agents p.2 !! a = Some p.1.
Proof.
  intros I. cbn zeta. unfold agent_for. destruct (agents b !! a) as [ag|] eqn:E; [done|].
  set (p := if empty_str t then runTurnFor (window b) at_ now b else (t, b)).
  assert (idle_but [] p.2 /\ agents p.2 = agents b) as [I1 E1].
  { subst p. destruct (empty_str t); [|done]. pose proof (runTurnFor_still (window b) at_ now b) as [_ K]. split; [by eapply idle_kept|apply K]. }
  destruct p as [t1 b1]. cbn [fst snd] in *. split; [apply (idle_set_agent [] a); [by rewrite E1, E|done]|cbn; by rewrite lookup_insert_eq].
Qed.

Lemma agent_at_insert a ag b : agents (set_agent a ag b) !! a = Some ag.
Proof. cbn. by rewrite lookup_insert_eq. Qed.

Lemma bookCall_agent l t a w f now b c x : agents b !! c = Some x -> agents (bookCall l t a w f now b) !! c = Some x.
Proof. intros E. by destruct (bookCall_keeps l t a w f now b) as (_ & _ & -> & _). Qed.

Lemma subLine_idle a t l now b : idle_but [] b -> idle_but [] (subLine a t l now b).
Proof.
  intros I. unfold subLine. destruct (_ && _); [done|].
  assert (idle_but [] (checkUsage l b)) as I1 by keep_idle. destruct (agent_for_idle a t (line_at l) now _ I1) as [I2 E2].
  destruct (agent_for _ _ _ _ _) as [ag b2]. cbn [fst snd] in *.
  set (b3 := if webTool l then mark_web (ag_window ag) b2 else b2).
  assert (idle_but [] b3 /\ agents b3 !! a = Some ag) as [I3 E3] by (subst b3; destruct (webTool l); [split; [by keep_idle|done]|done]). clearbody b3.
  case_bool_decide; [done|]. destruct (_ || _); [done|].
  set (b4 := match ag_pending ag with Some p => _ | None => b3 end).
  assert (idle_but [] b4 /\ exists x, agents b4 !! a = Some x /\ ag_turn x = ag_turn ag /\ open x = open ag) as [I4 (x & E4 & Et & Eo)].
  { subst b4. destruct (ag_pending ag) as [p|]; [|by eauto]. destruct (same _ _); [by eauto|]. split; [|eexists; split; [apply agent_at_insert|done]].
    apply idle_set_agent; [|keep_idle]. intros x Hx. rewrite (bookCall_agent _ _ _ _ _ _ _ _ _ E3) in Hx. by injection Hx as <-. }
  clearbody b4. destruct (complete l); (apply idle_set_agent; [|keep_idle]); intros y Hy.
  - rewrite (bookCall_agent _ _ _ _ _ _ _ _ _ E4) in Hy. injection Hy as <-. split; [done|]. cbn. by rewrite Eo.
  - rewrite E4 in Hy. injection Hy as <-. split; [done|]. cbn. by rewrite Eo.
Qed.

Lemma subSignal_idle a s now b : idle_but [] b -> idle_but [] (subSignal a s now b).
Proof.
  intros I. unfold subSignal. set (b1 := match s with SignalRequest => _ | _ => b end).
  assert (idle_but [] b1) as I1 by (subst b1; destruct s; keep_idle). clearbody b1.
  destruct (agents b1 !! a) as [ag|] eqn:E; [|done]. destruct (ag_pending ag) as [p|]; [|done].
  destruct s; try done; try (apply idle_set_agent; [rewrite E; by intros x [= <-]|done]).
  destruct (if bool_decide _ then _ else _); [done|]. apply idle_set_agent; [|keep_idle].
  intros x Hx. rewrite (bookCall_agent _ _ _ _ _ _ _ _ _ E) in Hx. by injection Hx as <-.
Qed.

Lemma spending_tail a ag b : agents b !! a = Some ag -> open ag = true -> spending (ag_turn ag) b = true.
Proof. intros E Ho. apply spending_spec. left. eauto. Qed.

Lemma open_idle a ag b : (forall x, agents b !! a = Some x -> ag_turn ag = ag_turn x) -> idle_but [] b ->
  idle_but [] (reopenTurn (ag_turn ag) (set_agent a (opened ag) b)).
Proof.
  intros H I. apply idle_reopen; [by apply (spending_tail a (opened ag)); [apply agent_at_insert|]|].
  apply idle_set_agent; [|done]. intros x Hx. split; [by apply H|done].
Qed.

Lemma tailOpened_idle a t now b : idle_but [] b -> idle_but [] (tailOpened a t now b).
Proof.
  intros I. unfold tailOpened. destruct (agent_for_idle a t now now b I) as [I2 E2]. destruct (agent_for _ _ _ _ _) as [ag b2]. cbn [fst snd] in *.
  apply open_idle; [|done]. rewrite E2. by intros x [= <-].
Qed.

Lemma tailOpenedUnder_idle a p t now b : idle_but [] b -> idle_but [] (tailOpenedUnder a p t now b).
Proof.
  intros I. unfold tailOpenedUnder. destruct (agents b !! p) as [q|]; [|by apply tailOpened_idle]. destruct (empty_str p); [by apply tailOpened_idle|].
  apply open_idle; [|done]. by intros x ->.
Qed.

Lemma tailClosed_idle a now b : idle_but [] b -> idle_but [] (tailClosed a now b).
Proof.
  intros I. unfold tailClosed. destruct (agents b !! a) as [ag|] eqn:E; [|done]. apply idle_close.
  set (shut := MkAgent _ _ false _ _ _). pose proof (idle_shut_agent [] a ag shut b E eq_refl I) as I1. change (ag_turn shut) with (ag_turn ag) in I1.
  destruct (ag_pending ag) as [p|]; [|done]. apply idle_set_agent; [|keep_idle].
  intros x Hx. rewrite (bookCall_agent _ _ _ _ _ _ _ _ _ (agent_at_insert a shut b)) in Hx. by injection Hx as <-.
Qed.

Lemma closeWindows_idle w now b : idle_but [] b -> idle_but [] (closeWindows w now b).
Proof.
  intros I. unfold closeWindows. set (cs := closing w b). apply (idle_same _ (close_turns now ((fun c => n_turn c.2) <$> cs) (foldl (fun b c => close_call now b c.1 c.2) b cs))); [reflexivity..|].
  apply idle_close_turns. rewrite app_nil_r. destruct (close_calls_keeps now cs b) as (_ & E2 & E3 & _ & E5 & E6 & _).
  revert I. apply idle_step; [done|by rewrite E6|by intros t _ ?%elem_of_nil|]. intros t Hn. rewrite !spending_spec, E2, E3. intros [Ha|(i & n & En & Ht & Hr)]; [by left|right].
  exists i, n. split; [|done]. rewrite lookup_drop_names, decide_False; [done|]. intros ([j m] & -> & Hj)%list_elem_of_fmap. apply Hn.
  apply list_elem_of_fmap. exists (j, m). split; [|done]. apply closing_elem in Hj as [Hj _]. cbn in *. rewrite En in Hj. by injection Hj as <-.
Qed.

Lemma settle_results_idle force now rs : forall b, idle_but [] b -> idle_but [] (settle_results force now rs b).
Proof.
  induction rs as [|r rs IH]; intros b I; [done|]. cbn [settle_results]. destruct (unready r force now b) as [ready []]; [done|]. apply IH.
  assert (idle_but [] (closeWindows (r_window r) now (set_results rs b))) as I1 by (apply closeWindows_idle; keep_idle).
  destruct (_ && _); [|done]. eapply idle_kept; [apply remainder_kept|done].
Qed.

Lemma result_idle mu r s at_ now b : idle_but [] b -> idle_but [] (result mu r s at_ now b).
Proof.
  intros I. unfold result. set (b2 := set_results _ _). assert (idle_but [] b2) as I2 by (subst b2; keep_idle). idle_tac.
  destruct (runTurn b2 !! window b2); [by apply idle_run_ended|done].
Qed.

(** The runs known at the exit end. *)
Lemma end_runs_idle now b : idle_but [] b -> idle_but [] (end_runs now b) /\ forall w t, runTurn b !! w = Some t -> t <> [] -> t ∈ ended (end_runs now b).
Proof.
  intros I. unfold end_runs. set (l := merge_sort window_le (map_to_list (runTurn b))).
  assert (forall w t, runTurn b !! w = Some t -> t ∈ l.*2) as Hl.
  { intros w t Hw. apply list_elem_of_fmap. exists (w, t). split; [done|]. subst l. rewrite merge_sort_Permutation. by apply elem_of_map_to_list. }
  assert (forall l b, idle_but [] b -> idle_but [] (foldl (fun b wt => runEnded wt.2 now [] b) b l) /\ ended b ⊆ ended (foldl (fun b wt => runEnded wt.2 now [] b) b l)
     /\ forall t, t ∈ l.*2 -> t <> [] -> t ∈ ended (foldl (fun b (wt : nat * gostr) => runEnded wt.2 now [] b) b l)) as H.
  { clear. intros l. induction l as [|[w t] l IH]; intros b I; cbn [foldl fmap list_fmap snd]; [split_and!; [done|done|by intros ? ?%elem_of_nil]|].
    destruct (IH _ (idle_run_ended t now [] b I)) as (I1 & Hs & He).
    assert (ended b ⊆ ended (runEnded t now [] b) /\ (t <> [] -> t ∈ ended (runEnded t now [] b))) as [Hb Ht].
    { unfold runEnded, turnEnded, empty_str. set (b1 := if bool_decide (t ∈ ended b) then b else recordRunTurn t now [] b).
      assert (ended b1 = ended b) as E1 by (subst b1; by case_bool_decide). case_bool_decide; [by rewrite E1|].
      rewrite (k_ended _ _ (still_kept _ _ (closeIfIdle_still t now _))). cbn. rewrite E1. set_solver. }
    split_and!; [done|set_solver|]. intros x [->|Hx]%elem_of_cons Hne; [by apply Hs, Ht|by apply He]. }
  destruct (H l b I) as (I1 & _ & He). split; [done|]. intros w t Hw. by apply He, (Hl w).
Qed.

(** ** The exit leaves nothing open *)
Definition shut_agents (b : ccBook) : Prop := forall a ag, agents b !! a = Some ag -> open ag = false /\ ag_pending ag = None.

Lemma tailClosed_keeps a now b :
  let b' := tailClosed a now b in
  window b' = window b /\ totals b' = totals b /\ runTurn b ⊆ runTurn b' /\ (forall c, c <> a -> agents b' !! c = agents b !! c)
  /\ forall ag, agents b' !! a = Some ag -> open ag = false /\ ag_pending ag = None.
Proof.
  cbn zeta. unfold tailClosed. destruct (agents b !! a) as [ag|] eqn:E; [|split_and!; [done|done|done|done|by rewrite E]].
  set (shut := MkAgent _ _ false _ _ _). set (b1 := match ag_pending ag with Some p => _ | None => _ end).
  destruct (closeIfIdle_still (ag_turn ag) now b1) as [F [[R1 _ R3 _ _] _ _ K3]]. rewrite R1, R3.
  assert (window b1 = window b /\ runTurn b1 = runTurn b /\ totals b1 = totals b /\ exists x, agents b1 = <[ a := x ]> (agents b) /\ open x = false /\ ag_pending x = None) as (Ew & Er & El & x & Ea & Ho & Hp).
  { subst b1. destruct (ag_pending ag) as [p|] eqn:Ep; [|split_and!; [done|done|done|exists shut; by split_and!]].
    destruct (bookCall_keeps p (ag_turn ag) a (ag_window ag) FinalityStopless now (set_agent a shut b)) as (D1 & _ & D3 & _ & _ & _ & _ & _ & D9 & _ & D11).
    split_and!; [done|done|done|]. exists (no_pending shut). cbn. rewrite D3. cbn. by rewrite insert_insert_eq. }
  rewrite Ea. split_and!; [done|destruct (f_last _ _ F) as [L1 L2]; rewrite <- El; unfold totals; congruence|by rewrite <- Er|intros c Hc; by rewrite lookup_insert_ne|]. intros y. rewrite lookup_insert_eq. by intros [= <-].
Qed.

Lemma close_tails now ks : forall b, let b' := foldl (fun b a => tailClosed a now b) b ks in
  window b' = window b /\ totals b' = totals b /\ runTurn b ⊆ runTurn b' /\ (forall c, c ∉ ks -> agents b' !! c = agents b !! c)
  /\ forall a ag, a ∈ ks -> NoDup ks -> agents b' !! a = Some ag -> open ag = false /\ ag_pending ag = None.
Proof.
  induction ks as [|k ks IH]; intros b; cbn zeta; cbn [foldl]; [split_and!; [done..|by intros ? ? ?%elem_of_nil]|].
  destruct (IH (tailClosed k now b)) as (I1 & I0 & I2 & I3 & I4). destruct (tailClosed_keeps k now b) as (T1 & T0 & T2 & T3 & T4). split_and!.
  - congruence.
  - congruence.
  - by transitivity (runTurn (tailClosed k now b)).
  - intros c Hc. rewrite I3 by (intros ?; apply Hc; by right). apply T3. intros ->. apply Hc. by left.
  - intros a ag Ha Hn Hag. apply NoDup_cons in Hn as [Hk Hn]. apply elem_of_cons in Ha as [->|Ha]; [|by eapply I4]. rewrite I3 in Hag by done. by apply T4.
Qed.

Lemma settle_all now rs : forall b, results b = rs -> let b' := settle_results true now rs b in
  results b' = [] /\ window b' = window b /\ agents b' = agents b /\ runTurn b ⊆ runTurn b' /\ totals b' = totals b.
Proof.
  induction rs as [|r rs IH]; intros b Hr; cbn zeta; [done|]. cbn [settle_results].
  assert (snd (unready r true now b) = false) as Eu by (unfold unready; destruct (outstanding _ _); cbn; by rewrite andb_false_r).
  destruct (unready r true now b) as [ready w]. cbn in Eu. subst w. set (b1 := closeWindows _ now _).
  destruct (closeWindows_keeps (r_window r) now (set_results rs b)) as (C1 & C2 & _ & _ & _ & C6 & C7 & C8 & _).
  fold b1 in C1, C2, C6, C7, C8. cbn [set_results window agents results runTurn] in C1, C2, C6, C7. change (totals (set_results rs b)) with (totals b) in C8.
  set (b2 := if _ && _ then _ else b1).
  assert (results b2 = rs /\ window b2 = window b /\ agents b2 = agents b /\ runTurn b ⊆ runTurn b2 /\ totals b2 = totals b) as (E1 & E2 & E3 & E4 & E5).
  { subst b2. destruct (quiet r && ready); [|split_and!; done].
    destruct (remainder_kept (r_window r) (default ∅ (r_mu r)) ("q" ++ FormatInt (Z.of_nat (r_window r))) (r_at r) now b1) as ([[R1 _ R3 _ _] _ _ K3] & _ & _ & _ & R & L).
    split_and!; [congruence|congruence|congruence|by transitivity (runTurn b1)|congruence]. }
  destruct (IH b2 E1) as (F1 & F2 & F3 & F4 & F5). split_and!; [done|congruence|congruence|by transitivity (runTurn b2)|congruence].
Qed.
End Idle.

(** ** Every run *)
Section Runs.
Context `{PR : Prices, EN : CcEnv, OR : Origin}.

(** A subagent has a name, and the rest of the program books nothing in this
    process's name. *)
Definition proper (w : world) : Prop :=
  match w with
  | Event (SubLine a _ _) _ | Event (SubSignal a _) _ | Event (TailOpened a _ _) _ => a <> []
  | Event _ _ => True
  | Other (OpCall _ c _) => c_Detail c !! "scope"%gs <> Some (DStr o_scope)
  | Other _ => True
  end.

(** The stream named the call, and the turn is the one open then. *)
Definition named_on (ws : list world) (i t : gostr) : Prop :=
  exists uuid turn at_ now, Event (Named i uuid turn at_) now ∈ ws /\ (turn = [] \/ t = turn).

Lemma handle_tidy ws e now b : proper (Event e now) -> Event e now ∈ ws -> tidy (named_on ws) b -> tidy (named_on ws) (handle e now b).
Proof.
  intros Hp He T. assert (forall b', frame b b' -> window b' = window b -> named b' = named b -> agents b' = agents b -> tidy (named_on ws) b') as Hsame
    by (intros; by eapply tidy_same). destruct e; cbn [handle proper] in *; try done.
  - apply streamNamed_tidy; [|done]. intros t' Ht. exists uuid, turn, at_, now. split; [done|]. by destruct Ht; [left|right].
  - by apply mainLine_tidy.
  - by apply subLine_tidy.
  - by apply subSignal_tidy.
  - by apply tailOpenedUnder_tidy.
  - by apply tailClosed_tidy.
  - by apply Hsame; [same_account|..].
  - apply retract_tidy. by apply Hsame; [same_account|..].
  - by apply retract_tidy.
  - by apply result_tidy.
  - unfold costStateSeen. apply (tidy_still _ (set_costState mu b)); [apply report_all_still|]. destruct T. by split.
  - by apply Hsame; [same_account|..].
  - unfold mainRead. destruct (After _ _); [|done]. by apply Hsame; [same_account|..].
  - by apply Hsame; [same_account|..].
  - eapply tidy_moved; [apply turnEnded_moved|done].
Qed.

Lemma tailClosed_all_tidy ws now ks : forall b, tidy (named_on ws) b -> tidy (named_on ws) (foldl (fun b a => tailClosed a now b) b ks).
Proof. intros b. apply foldl_keeps. intros b' a. apply tailClosed_tidy. Qed.

Lemma before_last_tidy ws now b : tidy (named_on ws) b -> tidy (named_on ws) (before_last now b).
Proof.
  intros T. unfold before_last. eapply tidy_moved; [apply end_runs_moved|]. by apply closeWindows_tidy, settle_results_tidy, tailClosed_all_tidy.
Qed.

Lemma exit_tidy ws now b : tidy (named_on ws) b -> tidy (named_on ws) (exit now b).
Proof.
  intros T. rewrite exit_last. pose proof (before_last_tidy ws now b T) as T1. destruct (final_totals _) as [[mu label]|]; [by apply remainder_tidy|done].
Qed.

Lemma step_tidy ws s e now : proper (Event e now) -> Event e now ∈ ws -> tidy (named_on ws) (book s) -> tidy (named_on ws) (book (step s e now)).
Proof.
  intros Hp He T. unfold step. destruct (exited s).
  - destruct e; cbn; try done. eapply tidy_moved; [apply turnEnded_moved|done].
  - assert (tidy (named_on ws) (settle false now (handle e now (book s)))) as Ts by (by apply settle_results_tidy, handle_tidy).
    destruct e; try exact Ts. by apply exit_tidy.
Qed.

Lemma other_tidy ws o b : proper (Other o) -> tidy (named_on ws) b -> tidy (named_on ws) (on_ledger (fun l => run_op l o) b).
Proof.
  intros Ho [T0 T1 T2 T3 T4]. split; try done. cbn [on_ledger set_ledger ledger scope]. intros q.
  destruct o as [t k r|t|r|turn a|start|a]; cbn [run_op proper] in *.
  2-6: rewrite ?record_turn_calls, ?record_report_calls, ?SetTurnActivity_calls; apply T4.
  pose proof (RecordCall_spec t k r (ledger b)) as Hs. cbn zeta in Hs. destruct (snd _) as [bk|]; [|rewrite Hs; apply T4].
  destruct Hs as [_ Hs]. destruct (Duplicate bk); [destruct Hs as [[-> _] _]; apply T4|]. destruct Hs as (_ & -> & _).
  intros [Hq| ->%list_elem_of_singleton]%elem_of_app; [by apply T4|]. unfold of_scope. cbn [row_call row_of]. rewrite T0. by intros Hd%bool_decide_eq_true.
Qed.

Lemma world_tidy ws s w : proper w -> w ∈ ws -> tidy (named_on ws) (book s) -> tidy (named_on ws) (book (world_step s w)).
Proof. intros Hp Hw T. destruct w as [e now|o]; cbn [world_step]; [by apply step_tidy|]. cbn [book]. by apply other_tidy. Qed.

Lemma run_tidy ws ws' : forall s, Forall proper ws' -> (forall w, w ∈ ws' -> w ∈ ws) -> tidy (named_on ws) (book s) -> tidy (named_on ws) (book (run ws' s)).
Proof.
  induction ws' as [|w ws' IH]; intros s Hp Hw T; [done|]. inversion_clear Hp as [|? ? H1 H2].
  apply (IH (world_step s w)); [done|intros x Hx; apply Hw; by right|]. apply world_tidy; [done|apply Hw; by left|done].
Qed.

(** ** Turns, in every run *)
Lemma handle_idle e now b : idle_but [] b -> idle_but [] (handle e now b).
Proof.
  intros I. assert (forall b', ended b' = ended b -> closed b' = closed b -> named b' = named b -> agents b' = agents b -> idle_but [] b') as Hsame
    by (intros b' E1 E2 E3 E4; eapply idle_same; [exact E1|by rewrite E2|exact E4|exact E3|done]). destruct e; cbn [handle] in *; try done.
  - by apply streamNamed_idle.
  - by apply mainLine_idle.
  - by apply subLine_idle.
  - by apply subSignal_idle.
  - by apply tailOpenedUnder_idle.
  - by apply tailClosed_idle.
  - by apply Hsame.
  - apply retract_idle. by apply Hsame.
  - by apply retract_idle.
  - by apply result_idle.
  - unfold costStateSeen. eapply idle_still; [apply report_all_still|]. by apply Hsame.
  - by apply Hsame.
  - unfold mainRead. destruct (After _ _); [by apply Hsame|done].
  - by apply Hsame.
  - by apply idle_ended.
Qed.

Lemma before_last_idle now b : idle_but [] b ->
  idle_but [] (before_last now b) /\ forall w t, runTurn b !! w = Some t -> t <> [] -> t ∈ ended (before_last now b).
Proof.
  intros I. unfold before_last. set (b1 := foldl _ b _).
  assert (idle_but [] b1) as I1.
  { subst b1. apply foldl_keeps; [|exact I]. intros b' a. apply tailClosed_idle. }
  destruct (close_tails now (sorted_keys (agents b)) b) as (_ & _ & R1 & _). fold b1 in R1.
  destruct (settle_all now (results b1) b1 eq_refl) as (_ & _ & _ & R2 & _). cbn zeta. unfold settle. set (b2 := settle_results true now (results b1) b1) in *.
  destruct (closeWindows_keeps (window b2) now b2) as (_ & _ & _ & _ & _ & _ & R3 & _).
  destruct (end_runs_idle now (closeWindows (window b2) now b2)) as [I4 He]; [by apply closeWindows_idle, settle_results_idle|].
  split; [done|]. intros w t Hw. apply (He w). by eapply lookup_weaken, R3; eapply lookup_weaken, R2; eapply lookup_weaken, R1.
Qed.

Lemma exit_kept now b : kept (before_last now b) (exit now b) /\ results (exit now b) = results (before_last now b).
Proof.
  rewrite exit_last. destruct (final_totals _) as [[mu label]|]; [|done].
  destruct (remainder_kept (window (before_last now b)) mu label now now (before_last now b)) as (K & _ & _ & _ & E & _). done.
Qed.

Lemma step_idle s e now : idle_but [] (book s) -> idle_but [] (book (step s e now)).
Proof.
  intros I. unfold step. destruct (exited s).
  - destruct e; cbn; try done. by apply idle_ended.
  - assert (idle_but [] (settle false now (handle e now (book s)))) as Is by (by apply settle_results_idle, handle_idle).
    destruct e; try exact Is. cbn. eapply idle_kept; [apply exit_kept|by apply before_last_idle].
Qed.

Lemma run_idle ws : forall s, idle_but [] (book s) -> idle_but [] (book (run ws s)).
Proof.
  induction ws as [|w ws IH]; intros s I; [done|]. apply (IH (world_step s w)). destruct w as [e now|o]; cbn [world_step]; [by apply step_idle|].
  cbn [book]. by eapply idle_same; [..|exact I].
Qed.
End Runs.

(** ** What holds *)
Section Theorems.
Context `{PR : Prices, EN : CcEnv}.

Definition origin (session : gostr) (launch : Time) (base : usages) : Origin := {| o_scope := scope_of session launch; o_launch := base |}.

(** No row of the ledger is of the process that starts. *)
Definition fresh (session : gostr) (launch : Time) (l : Ledger) : Prop :=
  Forall (fun r => of_scope (scope_of session launch) r = false) (api_calls (db l)).

Lemma new_book_tidy ws l session agent launch base : fresh session launch l ->
  tidy (OR := origin session launch base) (named_on ws) (newCCBook l session agent launch base).
Proof.
  intros Hf. unfold newCCBook. eapply (tidy_still (OR := origin session launch base)); [apply report_all_still|]. split; try done.
  cbn [ledger scope]. intros r Hr Hs. unfold fresh in Hf. rewrite Forall_forall in Hf. change (of_scope (scope_of session launch) r = true) in Hs. by rewrite Hf in Hs.
Qed.

Lemma run_tidy_new ws l session agent launch base : fresh session launch l -> Forall (proper (OR := origin session launch base)) ws ->
  tidy (OR := origin session launch base) (named_on ws) (book (run ws (newCCLedger l session agent launch base))).
Proof. intros Hf Hp. apply (run_tidy (OR := origin session launch base)); [done|done|by apply new_book_tidy]. Qed.

Lemma run_idle_new ws l session agent launch base : idle_but [] (book (run ws (newCCLedger l session agent launch base))).
Proof. apply run_idle. cbn [book newCCLedger]. unfold newCCBook. eapply idle_still; [apply report_all_still|]. split; cbn; set_solver. Qed.

(** C8: a history copy is never booked.  Whatever lines of the main transcript are
    read, in whatever order: a call of the main thread in the ledger under the
    process's scope is one the stream named in this process, and it is booked on
    the turn that was open then (a run turn when none was). *)
Theorem only_named_booked ws l session agent launch base r :
  fresh session launch l -> Forall (proper (OR := origin session launch base)) ws ->
  r ∈ api_calls (db (ledger (book (run ws (newCCLedger l session agent launch base))))) ->
  of_scope (scope_of session launch) r = true -> main_call (row_call r) ->
  named_on ws (c_Key (row_call r)) (c_TurnID (row_call r)).
Proof.
  intros Hf Hp Hr Hs Hm. destruct (run_tidy_new ws l session agent launch base Hf Hp) as [T0 T1 T2 T3 T4]. apply T4; [done| |done].
  by rewrite T0.
Qed.

(** C13: no turn is left running.  At every point of every run, a turn that has ended
    has its activity closed, unless a subagent's tail is still open on it, or a call
    the stream named on it is not booked yet and was not taken back. *)
Theorem ended_turns_close ws l session agent launch base t :
  let b := book (run ws (newCCLedger l session agent launch base)) in
  t ∈ ended b -> (t ∈ closed b) \/ (exists a ag, agents b !! a = Some ag /\ open ag = true /\ ag_turn ag = t)
                \/ exists i n, named b !! i = Some n /\ n_turn n = t /\ retracted n = false.
Proof.
  cbn zeta. intros Ht. destruct (run_idle_new ws l session agent launch base) as [_ I]. destruct (I t Ht) as [H|H]; [by intros ?%elem_of_nil|by left|].
  right. by apply spending_spec.
Qed.

(** The state the exit leaves, from a tidy one. *)
Lemma before_last_empty ws `{OR : Origin} now b : tidy (named_on ws) b ->
  named (before_last now b) = ∅ /\ held (before_last now b) = ∅ /\ results (before_last now b) = [] /\ shut_agents (before_last now b)
  /\ totals (before_last now b) = totals b /\ window (before_last now b) = window b.
Proof.
  intros T. unfold before_last. set (b1 := foldl _ b _). assert (tidy (named_on ws) b1) as T1 by (by apply tailClosed_all_tidy).
  destruct (close_tails now (sorted_keys (agents b)) b) as (W1 & L1 & _ & Ao & Ac). fold b1 in W1, L1, Ao, Ac.
  cbn zeta. set (b2 := settle true now b1). assert (tidy (named_on ws) b2) as T2 by (by apply settle_results_tidy).
  destruct (settle_all now (results b1) b1 eq_refl) as (R2 & W2 & A2 & _ & L2). fold (settle true now b1) in R2, W2, A2, L2. fold b2 in R2, W2, A2, L2.
  destruct (closeWindows_keeps (window b2) now b2) as (W3 & A3 & H3 & _ & _ & R3 & _ & L3 & N3). set (b3 := closeWindows _ now b2) in *.
  destruct (end_runs_moved now b3) as [F4 [W4 N4 A4 H4 _]]. split_and!.
  - rewrite N4. apply map_empty. intros i. rewrite N3. destruct (named b2 !! i) as [n|] eqn:E; [|done].
    destruct (td_named _ _ T2 _ _ E) as [Hw _]. by apply Nat.leb_le in Hw as ->.
  - congruence.
  - rewrite (f_results _ _ F4). congruence.
  - intros a ag. rewrite A4, A3, A2. intros Ha. destruct (decide (a ∈ sorted_keys (agents b))) as [Hk|Hk].
    + by eapply Ac; [exact Hk|apply sorted_keys_once|].
    + rewrite Ao in Ha by done. exfalso. apply Hk, sorted_keys_elem. rewrite Ha. by eexists.
  - destruct (f_last _ _ F4) as [E1 E2]. unfold totals in *. congruence.
  - congruence.
Qed.

(** C12: the exit of the process leaves nothing waiting.  Whatever came before: no
    call is named and unbooked, no line is held, no result waits, every subagent's
    tail is closed with no call pending, every run turn known has ended, every
    ended turn's activity is closed, and every flush has been answered. *)
Theorem exit_flushes ws l session agent launch base now :
  fresh session launch l -> Forall (proper (OR := origin session launch base)) ws ->
  let s := run ws (newCCLedger l session agent launch base) in
  exited s = false ->
  let s' := step s Exit now in
  exited s' = true
  /\ named (book s') = ∅ /\ held (book s') = ∅ /\ results (book s') = [] /\ shut_agents (book s')
  /\ (forall w t, runTurn (book s) !! w = Some t -> t <> [] -> t ∈ ended (book s'))
  /\ (forall t, t ∈ ended (book s') -> t ∈ closed (book s'))
  /\ waiting s' = [] /\ forall w, w ∈ waiting s -> reply w ∈ passed s'.
Proof.
  intros Hf Hp. cbn zeta. set (s := run ws _). intros He. unfold step. rewrite He. cbn [exited book waiting passed].
  pose proof (run_tidy_new ws l session agent launch base Hf Hp) as T. fold s in T.
  destruct (before_last_empty (OR := origin session launch base) ws now (book s) T) as (E1 & E2 & E3 & E4 & _).
  pose proof (run_idle_new ws l session agent launch base) as I. fold s in I. destruct (before_last_idle now (book s) I) as [I4 Hr].
  destruct (exit_kept now (book s)) as [K Er]. pose proof (idle_kept [] _ _ K I4) as [I5 I6]. destruct K as [[R1 R2 R3 R4 R5] K1 K2 K3].
  split_and!; [done|by rewrite R2|by rewrite R4|by rewrite Er|..|done|].
  - intros a ag. rewrite R3. apply E4.
  - intros w t Hw Hn. rewrite K1. by apply (Hr w).
  - intros t Ht. destruct (I6 t Ht) as [H|H]; [by intros ?%elem_of_nil|done|]. exfalso. apply spending_spec in H as [(a & ag & Ha & Ho & _)|(i & n & Hn & _)].
    + rewrite R3 in Ha. destruct (E4 _ _ Ha) as [Ho' _]. clear -Ho Ho'. rewrite Ho' in Ho. discriminate Ho.
    + rewrite R2, E1 in Hn. by rewrite lookup_empty in Hn.
  - intros w Hw. apply elem_of_app. right. clear -Hw. apply list_elem_of_fmap. exists w. split; [reflexivity|exact Hw].
Qed.
(** The last remainder, from a state whose sums are all of windows it settles. *)
Lemma last_settles `{OR : Origin} ws mu label now b m c : money b -> tidy (named_on ws) b -> usable mu -> c ∈ report_classes -> m ∈ dom mu ->
  let b' := remainder (window b) mu label now now b in
  b' = alarm InvNegativeRemainder b
  \/ booked_counts (db (ledger b')) (scope b') m c + held_in (untaken b') m c = usage_class (usage mu m) c - usage_class (usage (launchBase b') m) c.
Proof.
  intros M T U Hc Hm. cbn zeta. destruct (remainder_settles (window b) mu label now now b M U) as (M' & _ & _ & [Ha|[Hb Hn]]); [by left|right].
  assert (counted (remainder (window b) mu label now now b) = ∅) as E.
  { rewrite Hn. apply map_empty. intros v. unfold later. apply map_lookup_filter_None_2. destruct (counted b !! v) as [s|] eqn:Ev; [right|by left].
    intros s' Hs' Hv. cbn in Hv. pose proof (td_counted _ _ T _ _ Ev). lia. }
  set (b' := remainder _ _ _ _ _ _) in *. clearbody b'. pose proof (m_rows _ M' m c Hc) as R. pose proof (m_settled _ M' m c Hc) as S.
  rewrite E in R. unfold total_counted in R. rewrite map_sum_empty in R. rewrite Hb in S. rewrite (usage_in_new mu (baseline b) m Hm) in S. lia.
Qed.

(** C7: the exit settles the account.  Whatever came before, when the process
    reported totals before it exited, then after the exit and for every model
    of the last ones: the process's rows (interrupted calls aside) and the
    remainders the ledger did not take add up, class by class, to exactly what
    the totals grew by since the launch, or the last alarm says that the counted
    calls exceed them. *)
Theorem exit_settles_account ws l session agent launch base now mu label m c :
  fresh session launch l -> usable base ->
  Forall (fun w => proper (OR := origin session launch base) w /\ outside (OR := origin session launch base) w) ws ->
  let s := run ws (newCCLedger l session agent launch base) in
  exited s = false -> final_totals (book s) = Some (mu, label) -> m ∈ dom mu -> c ∈ report_classes ->
  let b' := book (step s Exit now) in
  last (alarmed (ledger b')) = Some (MkAlarm InvNegativeRemainder BackendCCStream (version b') false)
  \/ booked_counts (db (ledger b')) (scope_of session launch) m c + held_in (untaken b') m c
     = usage_class (usage mu m) c - usage_class (usage base m) c.
Proof.
  intros Hf Hu Hw. cbn zeta. set (s := run ws _). intros He Ht Hm Hc. unfold step. rewrite He. cbn [book].
  pose proof (run_tidy_new ws l session agent launch base Hf ltac:(eapply Forall_impl; [exact Hw|by intros ? []])) as T. fold s in T.
  assert (money (OR := origin session launch base) (book s)) as M.
  { apply run_money; [eapply Forall_impl; [exact Hw|by intros ? []]|]. by apply new_book_money. }
  destruct (before_last_empty (OR := origin session launch base) ws now (book s) T) as (_ & _ & _ & _ & Et & _).
  rewrite exit_last. assert (final_totals (before_last now (book s)) = Some (mu, label)) as Hl4.
  { rewrite <- Ht. unfold final_totals. pose proof (f_equal fst Et) as E1. pose proof (f_equal snd Et) as E2. cbn [totals fst snd] in E1, E2. rewrite E1, E2. reflexivity. }
  rewrite Hl4.
  apply (before_last_money (OR := origin session launch base) now) in M. pose proof (final_totals_usable _ _ _ M Hl4) as U. apply (before_last_tidy (OR := origin session launch base) ws now) in T.
  set (b4 := before_last now (book s)) in *. clearbody b4.
  destruct (remainder_settles (window b4) mu label now now b4 M U) as (M' & Hs & Hl & _).
  destruct (last_settles ws mu label now b4 m c M T U Hc Hm) as [Ha|E].
  - left. rewrite Ha. unfold alarm, raise_, on_ledger, raise_alarm. cbn [set_ledger ledger alarmed version]. by rewrite last_snoc.
  - right. pose proof (m_scope _ M) as Es. pose proof (m_launch _ M') as El. cbn [o_scope o_launch origin] in Es, El. by rewrite <- Es, <- Hs, E, El.
Qed.
End Theorems.
