(* ===== verification/CcTraces.v ===== *)
(** * The Claude Code cost book: traces

    A price table, and one process of Claude Code against it: the theorems of
    the ledger and the book at concrete inputs, and the runs in which the code
    does not do what its comments say. *)
From stdpp Require Import fin_maps gmap.
From S2P Require Import Prelude GoStrings GoNum Pricing CostLedger CcData CcBook CcRun CcMoney CcExit.
Local Open Scope gostr_scope.
Local Open Scope Z_scope.

(** ** An environment *)
Definition demo_rates : gmap gostr float64 :=
  list_to_map [(ClassInput, f_of_Z 3); (ClassOutput, f_of_Z 15); (ClassCacheRead, f_ratio 3 10);
               (ClassCacheWrite5m, f_ratio 15 4); (ClassCacheWrite1h, f_of_Z 6); (ClassCacheWrite, f_of_Z 6); (ClassWebSearch, f_ratio 1 100)].

Definition demo_model : gostr := "sonnet".

#[local] Instance demo_prices : Prices := {|
  ResolveRateModel m _ _ := if same m demo_model then Some m else None;
  RatesAsOf _ _ := Some demo_rates
|}.

#[local] Instance demo_env : CcEnv := {|
  unicode_lower s := s;
  in_order _ m := map_to_list m;
  in_order_perm _ m := reflexivity (map_to_list m)
|}.

Definition tick (n : Z) : Time := unix_epoch + n * Second.

Definition demo_tokens (i o : Z) : Tokens := <[ ClassInput := i ]> {[ ClassOutput := o ]}.
Definition demo_line (i : gostr) (t : Time) (done : bool) (tk : Tokens) : ccLine :=
  MkLine i demo_model t (if done then "end_turn" else []) done tk ClassMethodObserved false [].
Definition demo_usage (i o w : Z) (usd : float64) : usages := {[ demo_model := MkModelUsage i o 0 w 0 usd ]}.

Definition demo_start : ccLedger := newCCLedger empty_ledger "s1" "a1" (tick 1) ∅.

(** A turn with a call of the main thread and one of a subagent, then the report
    of a result, which counts five input tokens more than the two calls. *)
Definition demo_run : list world :=
  [Event (SessionFile "/s1.jsonl") (tick 2);
   Event (Named "m1" "u1" "t1" (tick 2)) (tick 2);
   Event (TailOpened "sub" [] "t1") (tick 3);
   Event (MainLine (demo_line "m1" (tick 3) true (demo_tokens 100 20))) (tick 3);
   Event (SubLine "sub" "t1" (demo_line "m2" (tick 4) false (demo_tokens 50 7))) (tick 4);
   Event (TurnEnded "t1" (tick 5)) (tick 5);
   Event (Barrier 7 (tick 5)) (tick 5);
   Event (Named "m3" "u3" [] (tick 6)) (tick 6);
   Event (ResultEv (Some (demo_usage 155 27 0 (f_ratio 1 1000))) 1 "end_turn" (tick 6)) (tick 6)].

Definition demo_state : ccLedger := run demo_run demo_start.

Ltac each_event := repeat (apply List.Forall_cons; [cbn; try done|]); try apply List.Forall_nil.

(** ** The theorems at this run *)
Definition demo_origin : Origin := origin "s1" (tick 1) ∅.

Lemma demo_fresh : fresh "s1" (tick 1) empty_ledger.
Proof. apply List.Forall_nil. Qed.

Lemma demo_usable (mu : usages) : forallb (fun ku => forallb (fun c => 0 <=? usage_class ku.2 c) report_classes) (map_to_list mu) = true -> usable mu.
Proof.
  intros H m c. unfold usage. destruct (mu !! m) as [u|] eqn:E; cbn [default]; [|rewrite no_usage_class; lia].
  destruct (decide (c ∈ report_classes)) as [Hc|Hc].
  - rewrite forallb_forall in H. specialize (H (m, u) (proj1 (list_elem_of_In _ _) (proj2 (elem_of_map_to_list _ _ _) E))).
    cbn [snd] in H. rewrite forallb_forall in H. apply Z.leb_le, H. by apply list_elem_of_In.
  - by rewrite usage_class_outside.
Qed.
Lemma demo_rows w m b : usable (demo_usage (Zpos w) (Zpos m) 0 b).
Proof. apply demo_usable. vm_compute. reflexivity. Qed.

Lemma demo_no_usage : usable ∅.
Proof. apply demo_usable. vm_compute. reflexivity. Qed.

Lemma demo_proper : Forall (proper (OR := demo_origin)) demo_run.
Proof. unfold demo_run. each_event. Qed.

Lemma demo_outside : Forall (outside (OR := demo_origin)) demo_run.
Proof. unfold demo_run. each_event. apply demo_rows. Qed.

Lemma first_booking_stands_witness : exists r,
  find_key BackendCCStream "m1" (db (ledger (book demo_state))) = Some r
  /\ find_key BackendCCStream "m1" (db (run_ops [OpOrphans (tick 9); OpActivity "t1" (tick 9)] (ledger (book demo_state)))) = Some r.
Proof. eexists. split; [vm_compute; reflexivity|]. apply first_booking_stands. vm_compute. reflexivity. Defined.

Lemma ledger_conserves_witness :
  let b := book demo_state in
  booked_counts (db (ledger b)) (scope_of "s1" (tick 1)) demo_model ClassInput + held_in (untaken b) demo_model ClassInput
  = usage_class (usage (baseline b) demo_model) ClassInput - usage_class (usage ∅ demo_model) ClassInput + total_counted (counted b) demo_model ClassInput.
Proof. apply (ledger_conserves empty_ledger "s1" "a1" (tick 1) ∅ demo_run); [apply demo_no_usage|apply demo_fresh|apply demo_outside|by left]. Defined.

Lemma only_named_booked_witness : exists r, r ∈ api_calls (db (ledger (book demo_state))) /\ named_on demo_run (c_Key (row_call r)) (c_TurnID (row_call r)).
Proof.
  eexists. split; [vm_compute; left|]. apply (only_named_booked demo_run empty_ledger "s1" "a1" (tick 1) ∅);
    [apply demo_fresh|apply demo_proper|vm_compute; left|vm_compute; reflexivity|vm_compute; auto].
Defined.

Lemma ended_turns_close_witness : let b := book demo_state in
  ("t1" : gostr) ∈ closed b \/ (exists a ag, agents b !! a = Some ag /\ open ag = true /\ ag_turn ag = "t1")
  \/ exists i n, named b !! i = Some n /\ n_turn n = "t1" /\ retracted n = false.
Proof. apply (ended_turns_close demo_run empty_ledger "s1" "a1" (tick 1) ∅ "t1"). apply elem_of_elements. vm_compute. right. left. Defined.

Lemma exit_flushes_witness : exited demo_state = false /\ held (book (step demo_state Exit (tick 10))) = ∅.
Proof.
  split; [vm_compute; reflexivity|]. apply (exit_flushes demo_run empty_ledger "s1" "a1" (tick 1) ∅ (tick 10));
    [apply demo_fresh|apply demo_proper|vm_compute; reflexivity].
Defined.

Lemma exit_settles_account_witness : let b' := book (step demo_state Exit (tick 10)) in
  last (alarmed (ledger b')) = Some (MkAlarm InvNegativeRemainder BackendCCStream (version b') false)
  \/ booked_counts (db (ledger b')) (scope_of "s1" (tick 1)) demo_model ClassInput + held_in (untaken b') demo_model ClassInput
     = usage_class (usage (demo_usage 155 27 0 (f_ratio 1 1000)) demo_model) ClassInput - usage_class (usage ∅ demo_model) ClassInput.
Proof.
  apply (exit_settles_account demo_run empty_ledger "s1" "a1" (tick 1) ∅ (tick 10) (demo_usage 155 27 0 (f_ratio 1 1000)) "exit-last-result" demo_model ClassInput);
    [apply demo_fresh|apply demo_no_usage| |vm_compute; reflexivity|vm_compute; reflexivity|vm_compute; reflexivity|by left].
  apply List.Forall_and; [apply demo_proper|apply demo_outside].
Defined.

Example demo_exit_account :
  let b' := book (step demo_state Exit (tick 10)) in
  booked_counts (db (ledger b')) (scope_of "s1" (tick 1)) demo_model ClassInput = 155 /\ elements (dom (untaken b')) = [].
Proof. vm_compute. done. Qed.

(** ** Runs the comments do not allow *)
Definition refused (request : gostr) (cat : gostr) : ccRefusal := MkRefusal 0 [] demo_model "opus" cat request [].

(** A run that no turn of foci opened is refused before anything is named, and the
    process closes: the last remainder mints the run's turn after the exit has
    ended every run turn, so this one never ends and its activity never closes. *)
Definition refused_run : list world :=
  [Event (RefusalEv (refused "r1" "cyber") [] (tick 3)) (tick 3);
   Event (CostState (Some (demo_usage 12 0 0 (f_ratio 1 1000))) (tick 4)) (tick 4);
   Event Exit (tick 5)].

Example exit_leaves_run_open : let b := book (run refused_run demo_start) in
  exists t r, turns (db (ledger b)) !! t = Some r /\ runTurn b !! 0%nat = Some t /\ tr_ended r = None /\ tr_closed r = None /\ t ∉ ended b.
Proof. eexists _, _. split_and!; [|vm_compute; reflexivity|..]; [vm_compute; reflexivity|reflexivity|reflexivity|]. by vm_compute. Qed.

(** The same map, visited from its last key. *)
Definition backwards : CcEnv := {|
  unicode_lower s := s;
  in_order _ m := rev (map_to_list m);
  in_order_perm _ m := symmetry (Permutation_rev (map_to_list m))
|}.

(** A result that leaves a subagent running keeps its window for the next one:
    refusals of two windows settle together, and which is the first depends on
    the order the map is visited in. *)
Definition two_refusals : list world :=
  [Event (RefusalEv (refused "r1" "cyber") "t1" (tick 3)) (tick 3);
   Event (ResultEv (Some (demo_usage 12 0 0 (f_ratio 1 1000))) 1 "end_turn" (tick 4)) (tick 4);
   Event (RefusalEv (refused "r2" "cyber") "t2" (tick 5)) (tick 5);
   Event (ResultEv (Some (demo_usage 24 0 0 (f_ratio 1 1000))) 0 "end_turn" (tick 6)) (tick 6)].

Definition refused_keys (EN : CcEnv) : list (gostr * gostr) :=
  (fun r => (c_Key (row_call r), c_TurnID (row_call r))) <$> api_calls (db (ledger (book (run (EN := EN) two_refusals (newCCLedger empty_ledger "s1" "a1" (tick 1) ∅))))).

Example first_refusal_by_chance : {[ refused_keys demo_env; refused_keys backwards ]} =@{gset (list (gostr * gostr))}
  {[ [("refusal:r1" : gostr, "t1" : gostr)]; [("refusal:r2" : gostr, "t2" : gostr)] ]}.
Proof. vm_compute. reflexivity. Qed.
